(* ===== verification/_CoqProject ===== *)
-Q . S2P
Prelude.v
Locks.v
Grants.v
Lanes.v
LanesInv.v
LanesGrant.v
LanesSteps.v
LanesFacts.v
Catalog.v
Permissions.v
PermissionFacts.v
Protocol.v
AppKeys.v
Plans.v
PlanFacts.v
Operations.v
Freezes.v
Recovery.v
RecoveryFacts.v
Restores.v
RestoreFacts.v
Gate.v
Images.v
RetentionFacts.v
Cleanup.v
CleanupFacts.v
Volumes.v
VolumeStore.v
VolumeOperations.v
VolumeWorld.v
VolumeGate.v
VolumeLogic.v
VolumeGateFacts.v
VolumeFacts.v
VolumePaths.v
VolumeNames.v
Bytes.v
Utf8.v
Nbt.v
NbtFacts.v
Decimals.v
Limits.v
LimitFacts.v
Power.v
PowerFacts.v
Snbt.v
SnbtFacts.v
SnbtTotal.v
ScheduleContract.v
ScheduleState.v
ScheduleStateFacts.v
Schedules.v
ScheduleManager.v
ScheduleChecks.v
ScheduleInv.v
ScheduleFacts.v
ScheduleRecords.v
ScheduleFinal.v
NbtFiles.v
NbtFilesFacts.v
Sessions.v
SessionFacts.v
Outbox.v
OutboxFacts.v
Commands.v
Versions.v
HearthLanes.v
HearthRecords.v
HearthMonad.v
HearthPrograms.v
HearthWorld.v
HearthTickets.v
HearthLogic.v
HearthChecks.v
HearthInv.v
HearthStands.v
HearthSteps.v
HearthAnswers.v
HearthEvents.v
HearthFacts.v
