(* ===== verification/Prelude.v ===== *)
(** * Kiln: a verification library for the Relay's and Hearth's core logic

    Kiln runs game servers, Apps and databases on machines of its own. On each
    machine a Relay ([apps/relay]) changes them through Docker; Hearth
    ([apps/web]) is the web application people use, and asks Relays for
    changes over a control protocol. What both must get right is the same:
    work on one resource never tramples other work on it, people may do only
    what they were granted, files and archives come back as they were, a
    machine that stops half way carries on from what it wrote down, and what
    is given out never exceeds what there is. This library models the code
    that decides those things, as it is written, and proves it right.

    ** The parts and where they are modelled

    Sources are named below [packages] and [apps]. A component's definitions
    are in the file of its name; [...Facts], [...Inv] and the like hold its
    lemmas and properties.

    - [Locks], [Grants], [Lanes]: [packages/operations/src], the operation
      lanes both programs run their work in. [Locks] is [locks.ts] (a lock is
      a key and a mode; [normalizeLocks]; [LockTable]), with the contract
      [LockStore] that the lane rule relies on. [Grants] is [grants.ts]
      ([selectGrants], [explainWait]), proved against any [LockStore].
      [Lanes] is [lanes.ts]: the class [OperationLanes] as a state [Lanes]
      (the heap of operations, the queues, the table, what happened to each
      promise) and one definition per method; [lane_event] is one step of it.
      [LanesInv], [LanesGrant] and [LanesSteps] are its invariant and the
      lemmas about its steps, [LanesFacts] its properties.
    - [Catalog], [Permissions], [PermissionFacts]:
      [contracts/src/access-permissions.ts]: the catalog of permissions
      ([Catalog] is its data), its check, the implications between them, the
      expansion of what a person was granted into what they may do, the
      built-in presets, and the authority a machine client needs.
    - [Plans], [PlanFacts]: [relay/src/operation-lanes.ts] and
      [operation-plans.ts], the Relay's lane keys, its refusals, and which
      locks each kind of work takes. It uses [Protocol]
      ([contracts/src/relay-protocol.ts]: the operations there are, which
      change something, which are audited, which a paused Relay refuses,
      their deadlines) and [AppKeys] ([contracts/src/app-keys.ts]: the keys of
      file roots and Tailscale members).
    - [Operations]: [relay/src/operations/operation.ts]: work that runs inside
      other work, under the locks that work holds.
    - [Freezes]: [relay/src/resource-freezes.ts] and its table in
      [effect/state.ts]: resources frozen for their deletion, what the lanes
      refuse because of them, and what is put back when one is let go. Memory
      and table are two, and a write that brings one in step with the other
      may fail. It implements the [FrozenResources] of [Plans].
    - [Recovery], [RecoveryFacts]: [relay/src/runtime-recovery.ts]: the
      records that bring a crashed game server back, the observations that
      move them, and the detached fibers that start and stop containers.
    - [Restores], [RestoreFacts]: the restores of Apps and volumes in
      [relay/src/backups], with their journal and fences, interrupted
      anywhere.
    - [Gate]: [relay/src/transfers/gate.ts], which transfers may run at once.
    - [Images], [RetentionFacts]: [relay/src/docker-image-retention.ts], which
      images are kept. [Cleanup], [CleanupFacts]: [docker-cleanup.ts] with
      [kiln-containers.ts], the passes that remove what is left over. A pass
      is given one state of the updates and one time, which its sweep and its
      collection each read in the source.
    - [Volumes], [VolumeStore], [VolumeOperations], [VolumeWorld]:
      [relay/src/volumes.ts]. [Volumes] is what it makes of Docker's answers,
      [VolumeStore] its statements of the state store, [VolumeOperations] the
      class [RelayVolumes], each operation a program [Op] that asks Docker and
      the store, and [VolumeWorld] runs them beside each other, with
      [ReferenceGate]. [VolumeLogic] is a program logic for them, whatever
      they are answered and however they interleave; [VolumeGate],
      [VolumeGateFacts], [VolumeFacts], [VolumePaths] and [VolumeNames] have
      the invariant of the gate and the properties.
    - [Bytes], [Utf8], [Decimals]: bytes and machine integers, texts in UTF-16
      and UTF-8, numbers in decimal, as JavaScript has them; [Nbt],
      [NbtFacts]: the codec [relay/src/nbt.ts]; [Snbt], [SnbtFacts],
      [SnbtTotal]: the text format of [contracts/src/snbt.ts];
      [NbtFiles], [NbtFilesFacts]: opening and saving such files.
    - [Limits], [LimitFacts]: the [resource-limits.ts] of both packages, with
      the reservations of [lifecycle.ts] and [apps.ts] and the limit of
      [workload-slice.ts].
    - [Power], [PowerFacts]: [relay/src/power-state.ts], [power-intents.ts]
      and [resource-power.ts], over [Lanes].
    - [ScheduleContract], [ScheduleChecks]: [contracts/src/schedules.ts], what
      a schedule is and what its checks accept. [ScheduleState],
      [ScheduleStateFacts]: [relay/src/effect/schedule-state.ts], its tables.
      [Schedules], [ScheduleManager]: [relay/src/schedules.ts], the class
      [ScheduleManager] as a state [Manager] whose occurrences move target by
      target, with [manager_event] one step; an occurrence that was abandoned
      is in it for as long as its targets are at work. [ScheduleInv] is the invariant of
      an occurrence, [ScheduleFacts] the manager's, [ScheduleRecords] that of
      what storage says; [ScheduleFinal] has the properties.
    - [Sessions], [SessionFacts]: [relay/src/browser-session-registry.ts] and
      what [browser-capability.ts] and [browser-security.ts] accept:
      capabilities, revisions, revocations, limits. [Outbox], [OutboxFacts]:
      [browser-outbox.ts], the messages to a browser.
    - [HearthLanes], [HearthRecords], [HearthMonad], [HearthPrograms],
      [HearthWorld]: [web/src/operations]. [HearthLanes] is [lanes.ts], its
      keys and what held locks cover; [HearthRecords] the statements of
      [records.ts] on the operation table; [HearthMonad] what an Effect is,
      a program [Op]; [HearthPrograms] the functions of [operation.ts],
      [durable.ts], [records.ts] and [startup.ts] under their own names; and
      [HearthWorld] runs them beside each other, over [Lanes], across
      restarts. [HearthLogic] is a program logic that says of each fiber where
      it stands in the lanes; [HearthChecks] proves it of every
      program; [HearthInv], [HearthStands] and [HearthTickets] are the
      invariant, [HearthSteps], [HearthAnswers] and [HearthEvents] that each
      step and event keeps it, and [HearthFacts] has the properties.
    - [Commands]: [relay/src/container-commands.ts], commands
      run once in a container, with how [docker-engine.ts] reads Docker's
      streams. [Versions]: [contracts/src/release-version.ts]
      and [web/src/lib/release-version.ts], the versions of releases, which of
      two is newer, and what an installed build is told of.

    ** What the theorems show

    - Lanes: operations that exclude each other never run at once; every
      wakeup happens and the lanes drain; a pause stops what has not begun and
      nothing else; nothing overtakes what it excludes.
    - Permissions: an expansion stays at its scope, is closed, is the union of
      its parts and fails closed; the catalog check accepts exactly
      well-founded catalogs; the closure is the reflexive transitive one.
    - Plans, operations and freezes: a request has a plan exactly when it
      works on resources it names, on the Relay or on a volume, and holds the
      lane of each; volumes and backups hold what they must; nested work is
      covered by what it runs in; what the table has frozen stays frozen, and
      what was recorded first is put back, whichever writes fail.
    - Recovery and restores: a stop always wins and a crash loop is bounded; a
      restore interrupted anywhere leaves the old files, exactly the new ones,
      or a fence, and recovering settles it.
    - Images and cleanup: what is in use, kept or part of an update is never
      removed.
    - Volumes: no volume is deleted between a hold of its Hearth and the
      next import of what its Apps name; an import runs with nothing it
      excludes; a path that may have changed is not answered from memory.
    - NBT: files decode to well-typed tags, written and read back; every tag a
      file can hold is formatted as text that parses back to it; parsing ends
      with a tag or a place in the text; a file saved unchanged keeps what it
      holds, but for the signs of zeros and byte order marks, and is refused
      where its text is too long or a key is empty.
    - Limits, gate and power: memory is never overcommitted but by the
      stopped containers of Apps that start new ones beside those they run
      ([stopped_containers_overcommit]); transfers are counted exactly; a schedule's power step gives way to a person's, and
      transitions settle.
    - Schedules: occurrences never interleave on a target, while none is
      abandoned over a record the schema refuses
      ([refused_record_lets_in]); a command that may run is on record; only what was allowed is asked for; every step leaves
      its attempt; what is stored only gets newer; a tick ends; the checks
      accept exactly sound schedules.
    - Browsers: a revocation is final; sessions stay within their limits;
      messages leave in order, within bounds, while the outbox is open (a
      failed delivery closes it, and [close] ends what waits), and none goes to
      a browser whose capability was revoked.
    - Hearth's operations: changes of the same thing never overlap, durable
      or not, across restarts; work only runs under the locks it needs,
      checked again when it waited; what runs holds its locks from when the
      lanes open; what is run of a queued operation is all that was asked of
      it, but for asks under an idempotency key, which may be answered with
      what was recorded under it before. All hold while no answer is lost
      that says a holder of lanes was set running ([kept_run]):
      [hearth_lost_start_overlaps] is a run where one is.
    - Commands and versions: a result keeps the end of what a command printed,
      however Docker's frames came in chunks, and a command that fails did not
      run; comparing versions compares their numbers, and a nightly's time is
      one there was.

    ** How the code is read

    TypeScript that may throw is a function into [Result]. A JavaScript [Map]
    or [Set] whose order is read is an association list in insertion order
    ([JsMap], [JsSet] below); one whose order is not is a finite map. Strings
    are strings of bytes where the code only compares, concatenates and
    matches ASCII patterns on them, and lists of UTF-16 code units
    ([JsString]) where their lengths, hashes or contents count. Objects that
    are shared and mutated (an operation waiting in a lane) are entries of a
    heap named by number. A table of the state store is a finite map or a list
    of rows, an operation on it one transaction.

    Concurrency is explicit. JavaScript runs one callback at a time, so an
    event here is what runs between two waits: a method of the lanes, one
    fiber coming to its turn, one write and the change in memory after it.
    The clock is read once an event. Completing a deferred never runs the
    fiber waiting on it inside the call, so it is recorded, and that fiber's
    next step is a later event. Answers of code outside ([World] in [Lanes],
    whether the state store wrote, what Docker answered, what [Date.parse]
    reads, what the cron parser finds) come with the event or are parameters,
    and the theorems hold whatever they are, or name the documented behaviour
    they rely on.

    A program that waits for several answers between which others run
    ([VolumeOperations], [HearthPrograms]) is a tree of what it asks, with what it goes on to
    do for each answer; a fiber is such a tree at where it waits. Properties
    of it hold for every interleaving and every answer, failures and
    interruptions among them.

    A resolver that may answer with a promise is a function in [Plans]: the
    plan is what the promise comes to.

    ** Fuel

    Recursion that is not structural takes fuel, with a theorem that it is
    enough: [pause_active] goes through the operations there are ([next] of
    them, plus one); [visit] through at most as many nodes as the catalog
    has; [closure] as many levels as there are permissions; [expand] two,
    since collections hold at most collections of permissions
    ([expansion_fails_closed] shows it never runs out); the codecs 513 levels,
    one more than they let a file nest ([nbt_levels], [snbt_levels]), and
    within a level one round for each unit of the input that is left;
    [digits] one for each bit; the outbox's drain one for each message; the
    rounds of a tick one for each schedule ([tick_ends]); a long wait one for
    each timer ([wait_takes_its_time]); a name's tags one for each unit of
    its template; forgetting operations that ended as many rounds as its event
    says, and what holds does so however many that is.

    ** What is not modelled

    User interfaces, the CLI, the marketing site and the desktop helper;
    Docker, systemd, the file system, compression, the network, SFTP and
    terminals; the SQL databases but for the statements named above; database
    migrations; signatures and the decoding of capabilities; logging, tracing
    and telemetry; wire schemas, which are declarations for a schema library,
    but for the checks written out in them. Within the modelled files: the
    span attributes of the lanes, what [exhaust] and its like log, the Docker
    calls of a recovery start, of which an event says whether they succeeded,
    the helper containers and task rows of restores, and closing down. Of
    Hearth's operations: the workflow engine, which may run what it was given
    at any time, whether a definition allows and how its work ends, which are
    events, the operator's page and the commands workflows send to Relays.

    Left out though the kernel could check them, since nothing modelled rests
    on them: the labels that hold a container's ports, which are JSON texts,
    and the queries that gather what a person was granted. *)
From Stdlib Require Export ZArith Lia.
From stdpp Require Export base numbers gmap sets list strings sorting.

(** ** Results of code that may throw

    A TypeScript function that may [throw] is a function into [Result E A]:
    [Ok a] when it returns [a], [Throw e] when it throws [e]. *)
Inductive Result (E A : Type) : Type :=
  | Ok (a : A)
  | Throw (e : E).
Arguments Ok {E A} a.
Arguments Throw {E A} e.

Definition result_bind {E A B} (r : Result E A) (k : A → Result E B) : Result E B :=
  match r with
  | Ok a => k a
  | Throw e => Throw e
  end.

Definition result_map {E A B} (f : A → B) (r : Result E A) : Result E B :=
  match r with
  | Ok a => Ok (f a)
  | Throw e => Throw e
  end.

Definition is_ok {E A} (r : Result E A) : bool :=
  match r with Ok _ => true | Throw _ => false end.

Declare Scope kiln_scope.
Delimit Scope kiln_scope with kiln.
Notation "'let!' x ':=' r 'in' k" := (result_bind r (fun x => k))
  (at level 10, x pattern, r at level 100, k at level 200) : kiln_scope.
Notation "'guard!' b 'else' e 'in' k" := (if b then k else Throw e)
  (at level 10, b at level 100, e at level 100, k at level 200) : kiln_scope.
Open Scope kiln_scope.

#[global] Instance Result_eq_dec `{EqDecision E, EqDecision A} : EqDecision (Result E A).
Proof. solve_decision. Defined.

(** Injectivity without computing the values, which may be large. *)
Lemma Ok_inj {E A} (a b : A) : @Ok E A a = Ok b → a = b.
Proof. by intros [= ->]. Qed.

Lemma result_bind_ok {E A B} (r : Result E A) (k : A → Result E B) (b : B) :
  result_bind r k = Ok b ↔ ∃ a, r = Ok a ∧ k a = Ok b.
Proof.
  destruct r as [a|e]; simpl; split.
  - intros Hk. by exists a.
  - by intros (? & [= ->] & ?).
  - done.
  - by intros (? & ? & ?).
Qed.

Lemma result_bind_assoc {E A B C} (r : Result E A) (k : A → Result E B) (h : B → Result E C) :
  result_bind (result_bind r k) h = result_bind r (λ a, result_bind (k a) h).
Proof. by destruct r. Qed.

(** ** Automation *)

(** Splits a successful computation into the successes it is made of. *)
Ltac inv_ok :=
  repeat match goal with
  | H : Ok _ = Ok _ |- _ => injection H as H
  | H : Ok _ = Throw _ |- _ => discriminate H
  | H : Throw _ = Ok _ |- _ => discriminate H
  | H : Throw _ = Throw _ |- _ => injection H as H
  | H : result_bind ?r ?k = Ok _ |- _ =>
      apply result_bind_ok in H; destruct H as (? & ? & H)
  | H : (if ?b then _ else Throw _) = Ok _ |- _ =>
      let E := fresh "Hguard" in destruct b eqn:E; [|discriminate H]
  | H : (if ?b then Throw _ else _) = Ok _ |- _ =>
      let E := fresh "Hguard" in destruct b eqn:E; [discriminate H|]
  end.

(** A loop whose body may throw: the first error ends it. *)
Fixpoint result_fold {E A B} (f : A → B → Result E A) (bs : list B) (a : A) : Result E A :=
  match bs with
  | [] => Ok a
  | b :: bs => let! a := f a b in result_fold f bs a
  end.

Section ResultFold.
Context {E A B : Type} (f : A → B → Result E A).

(** What every step keeps, the loop keeps. *)
Lemma result_fold_ok (P : A → Prop) bs : ∀ a a',
  (∀ a b a', b ∈ bs → P a → f a b = Ok a' → P a') → P a → result_fold f bs a = Ok a' → P a'.
Proof.
  induction bs as [|b bs IH]; simpl; intros a a' Hf Ha Hr; [by inv_ok; subst|].
  apply result_bind_ok in Hr as (a1 & H1 & Hr).
  assert (P a1) as Ha1 by (eapply Hf; [|exact Ha|exact H1]; set_solver).
  eapply IH; [|exact Ha1|exact Hr]. intros a2 b2 a3 Hb. apply Hf. set_solver.
Qed.

(** An error of the loop is an error of one of its steps. *)
Lemma result_fold_throw (P : A → Prop) (Q : E → Prop) bs : ∀ a e,
  (∀ a b a', b ∈ bs → P a → f a b = Ok a' → P a') →
  (∀ a b e, b ∈ bs → P a → f a b = Throw e → Q e) →
  P a → result_fold f bs a = Throw e → Q e.
Proof.
  induction bs as [|b bs IH]; simpl; intros a e Hf Hq Ha Hr; [done|].
  destruct (f a b) as [a1|e1] eqn:H1; simpl in Hr.
  - assert (P a1) as Ha1 by (eapply Hf; [|exact Ha|exact H1]; set_solver).
    eapply IH; [| |exact Ha1|exact Hr].
    + intros a2 b2 a3 Hb. apply Hf. set_solver.
    + intros a2 b2 e2 Hb. apply Hq. set_solver.
  - injection Hr as <-. eapply Hq; [|exact Ha|exact H1]. set_solver.
Qed.
End ResultFold.

(** Case analysis on the innermost conditional or match of the goal. *)
Ltac case_goal :=
  match goal with
  | |- context [if ?b then _ else _] =>
      lazymatch b with context [if _ then _ else _] => fail | _ => destruct b eqn:? end
  | |- context [match ?x with _ => _ end] =>
      lazymatch x with context [match _ with _ => _ end] => fail | _ => destruct x eqn:? end
  end.

(** Turns boolean tests in the context into the propositions they decide. *)
Ltac bool_to_prop :=
  repeat match goal with
  | H : _ && _ = true |- _ => apply andb_true_iff in H; destruct H
  | H : _ || _ = false |- _ => apply orb_false_iff in H; destruct H
  | H : negb _ = true |- _ => apply negb_true_iff in H
  | H : negb _ = false |- _ => apply negb_false_iff in H
  | H : (_ <? _)%Z = true |- _ => apply Z.ltb_lt in H
  | H : (_ <? _)%Z = false |- _ => apply Z.ltb_ge in H
  | H : (_ <=? _)%Z = true |- _ => apply Z.leb_le in H
  | H : (_ <=? _)%Z = false |- _ => apply Z.leb_gt in H
  | H : (_ =? _)%Z = true |- _ => apply Z.eqb_eq in H
  | H : (_ =? _)%Z = false |- _ => apply Z.eqb_neq in H
  | H : bool_decide _ = true |- _ => apply bool_decide_eq_true_1 in H
  | H : bool_decide _ = false |- _ => apply bool_decide_eq_false_1 in H
  end.

(** Nothing is a member of the empty list. *)
Ltac in_nil H := exfalso; exact (not_elem_of_nil _ H).

Create HintDb kiln discriminated.

(** ** Booleans over lists *)

Lemma forallb_elem {A} (f : A → bool) (l : list A) :
  forallb f l = true ↔ ∀ x, x ∈ l → f x = true.
Proof.
  rewrite List.forallb_forall. split; intros H x Hx; apply H; by apply list_elem_of_In.
Qed.

Lemma existsb_elem {A} (f : A → bool) (l : list A) :
  existsb f l = true ↔ ∃ x, x ∈ l ∧ f x = true.
Proof.
  rewrite existsb_exists. split; intros (x & Hx & Hf); exists x; split; try done;
    by apply list_elem_of_In.
Qed.

Lemma existsb_false {A} (f : A → bool) (l : list A) :
  existsb f l = false ↔ ∀ x, x ∈ l → f x = false.
Proof.
  rewrite <-not_true_iff_false, existsb_elem. split.
  - intros Hn x Hx. destruct (f x) eqn:?; [exfalso; eauto | done].
  - intros Hf (x & Hx & Hfx). rewrite (Hf x Hx) in Hfx. done.
Qed.

Lemma elem_of_bfilter {A} (f : A → bool) (l : list A) x :
  x ∈ List.filter f l ↔ x ∈ l ∧ f x = true.
Proof. by rewrite !list_elem_of_In, filter_In. Qed.

Lemma elem_of_flat_map {A B} (f : A → list B) (l : list A) y :
  y ∈ flat_map f l ↔ ∃ x, x ∈ l ∧ y ∈ f x.
Proof. rewrite list_elem_of_In, in_flat_map. by setoid_rewrite <-list_elem_of_In. Qed.

Lemma NoDup_bfilter {A} (f : A → bool) (l : list A) : NoDup l → NoDup (List.filter f l).
Proof. intros Hnd. apply NoDup_ListNoDup, List.NoDup_filter. by apply NoDup_ListNoDup. Qed.

Lemma NoDup_fmap_bfilter {A B} (f : A → B) (p : A → bool) (l : list A) :
  NoDup (f <$> l) → NoDup (f <$> List.filter p l).
Proof.
  induction l as [|x l IH]; cbn; [done|]. intros [Hx Hl]%NoDup_cons. destruct (p x); [|by apply IH].
  cbn. apply NoDup_cons. split; [|by apply IH].
  intros (y & Hy & [Hin _]%elem_of_bfilter)%list_elem_of_fmap. apply Hx.
  rewrite Hy. by apply list_elem_of_fmap_2.
Qed.

Lemma NoDup_fmap_eq {A B} (f : A → B) (l : list A) x y :
  NoDup (f <$> l) → x ∈ l → y ∈ l → f x = f y → x = y.
Proof.
  induction l as [|z l IH]; cbn; intros Hl Hx Hy E; [by apply elem_of_nil in Hx|].
  apply NoDup_cons in Hl as [Hz Hl].
  apply elem_of_cons in Hx as [->|Hx], Hy as [->|Hy]; [done| | |by apply IH].
  - destruct Hz. rewrite E. by apply list_elem_of_fmap_2.
  - destruct Hz. rewrite <-E. by apply list_elem_of_fmap_2.
Qed.

(** A string JavaScript counts as true: not [null] and not empty. *)
Definition truthy (r : option string) : option string :=
  match r with
  | Some s => if decide (s = "") then None else Some s
  | None => None
  end.

(** ** Insertion-ordered maps

    A JavaScript [Map] iterates in insertion order, so where the code reads
    that order the map is an association list whose keys are distinct:
    setting a key that is there replaces its value in place, and setting a
    new one appends it. *)
Section JsMap.
Context {K V : Type} `{EqDecision K}.
Implicit Types m : list (K * V).

Fixpoint jm_get (k : K) m : option V :=
  match m with
  | [] => None
  | (k', v) :: rest => if decide (k = k') then Some v else jm_get k rest
  end.

Fixpoint jm_set (k : K) (v : V) m : list (K * V) :=
  match m with
  | [] => [(k, v)]
  | (k', v') :: rest =>
      if decide (k = k') then (k', v) :: rest else (k', v') :: jm_set k v rest
  end.

Definition jm_delete (k : K) m : list (K * V) :=
  List.filter (λ '(k', _), negb (bool_decide (k = k'))) m.

Lemma jm_get_set m k v k' :
  jm_get k' (jm_set k v m) = if decide (k = k') then Some v else jm_get k' m.
Proof.
  induction m as [|[k0 v0] m IH]; simpl.
  - repeat case_decide; congruence.
  - repeat (case_decide; simpl; subst); try congruence.
Qed.

Lemma jm_get_delete m k k' : jm_get k' (jm_delete k m) = if decide (k = k') then None else jm_get k' m.
Proof.
  unfold jm_delete. induction m as [|[k0 v0] m IH]; simpl; [by case_decide|].
  case_bool_decide; simpl; repeat case_decide; congruence.
Qed.

Lemma jm_delete_keys m k : (jm_delete k m).*1 = List.filter (λ k', negb (bool_decide (k = k'))) m.*1.
Proof.
  unfold jm_delete. induction m as [|[k0 v0] m IH]; [done|]. csimpl.
  case_bool_decide; csimpl; by rewrite IH.
Qed.

Lemma jm_delete_elem m k k' v : (k', v) ∈ jm_delete k m ↔ k ≠ k' ∧ (k', v) ∈ m.
Proof.
  unfold jm_delete. rewrite list_elem_of_In, filter_In, <-list_elem_of_In, negb_true_iff, bool_decide_eq_false. tauto.
Qed.

Lemma jm_set_keys m k v :
  (jm_set k v m).*1 = if decide (k ∈ m.*1) then m.*1 else m.*1 ++ [k].
Proof.
  induction m as [|[k0 v0] m IH]; csimpl; [done|].
  destruct (decide (k = k0)) as [->|Hne]; csimpl.
  - rewrite decide_True by set_solver. done.
  - rewrite IH. destruct (decide (k ∈ m.*1)) as [Hin|Hin].
    + rewrite decide_True by set_solver. done.
    + rewrite decide_False by set_solver. done.
Qed.

Lemma jm_set_NoDup m k v : NoDup m.*1 → NoDup (jm_set k v m).*1.
Proof.
  intros Hnd. rewrite jm_set_keys. case_decide; [done|].
  apply NoDup_app. repeat split; [done|set_solver|].
  apply NoDup_singleton.
Qed.

Lemma jm_get_Some m k v : NoDup m.*1 → jm_get k m = Some v ↔ (k, v) ∈ m.
Proof.
  induction m as [|[k0 v0] m IH]; simpl.
  - intros _. split; [done|set_solver].
  - rewrite NoDup_cons. intros [Hk0 Hnd]. case_decide as Hk; subst.
    + rewrite elem_of_cons. split; [intros [= ->]; by left|].
      intros [[= ->]|Hin]; [done|]. exfalso. apply Hk0.
      apply (list_elem_of_fmap_2 fst) in Hin. done.
    + rewrite IH by done. set_solver.
Qed.

Lemma jm_get_None m k : jm_get k m = None ↔ k ∉ m.*1.
Proof.
  induction m as [|[k0 v0] m IH]; simpl; [set_solver|].
  case_decide; subst; [set_solver|]. rewrite IH. set_solver.
Qed.
End JsMap.

(** ** Insertion-ordered sets

    A JavaScript [Set] that is iterated or spread: a list without duplicates,
    to which adding appends what is new. *)
Section JsSet.
Context {A : Type} `{EqDecision A}.
Implicit Types (s xs : list A) (x : A).

Definition js_add (x : A) s : list A := if decide (x ∈ s) then s else s ++ [x].

Definition js_add_all xs s : list A := fold_left (λ s x, js_add x s) xs s.

(** [[...new Set(xs)]] *)
Definition js_distinct xs : list A := js_add_all xs [].

Lemma js_add_elem x y s : y ∈ js_add x s ↔ y = x ∨ y ∈ s.
Proof. unfold js_add. case_decide; set_solver. Qed.

Lemma js_add_all_elem xs y : ∀ s, y ∈ js_add_all xs s ↔ y ∈ xs ∨ y ∈ s.
Proof.
  unfold js_add_all. induction xs as [|x xs IH]; intros s; simpl; [set_solver|].
  rewrite IH, js_add_elem. set_solver.
Qed.

Lemma js_distinct_elem xs y : y ∈ js_distinct xs ↔ y ∈ xs.
Proof. unfold js_distinct. rewrite js_add_all_elem. set_solver. Qed.

Lemma js_add_NoDup x s : NoDup s → NoDup (js_add x s).
Proof.
  intros Hs. unfold js_add. case_decide; [done|]. apply NoDup_app.
  split; [done|]. split; [set_solver|apply NoDup_singleton].
Qed.

Lemma js_add_all_NoDup xs : ∀ s, NoDup s → NoDup (js_add_all xs s).
Proof.
  unfold js_add_all. induction xs as [|x xs IH]; intros s Hs; simpl; [done|].
  by apply IH, js_add_NoDup.
Qed.

Lemma js_distinct_NoDup xs : NoDup (js_distinct xs).
Proof. apply js_add_all_NoDup. constructor. Qed.
End JsSet.

(** ** ASCII text *)

Definition ascii_lower (c : Ascii.ascii) : Ascii.ascii :=
  let n := Ascii.nat_of_ascii c in
  if (65 <=? n)%nat && (n <=? 90)%nat then Ascii.ascii_of_nat (n + 32) else c.

(** [toLowerCase] on ASCII text. *)
Fixpoint to_lower (s : string) : string :=
  match s with
  | EmptyString => EmptyString
  | String c s => String (ascii_lower c) (to_lower s)
  end.

(** ** Pieces of strings *)

#[global] Arguments String.append : simpl nomatch.

(** [s.slice(p.length)] when [s.startsWith(p)]. *)
Fixpoint strip_prefix (p s : string) : option string :=
  match p, s with
  | EmptyString, _ => Some s
  | String a p, String b s => if decide (a = b) then strip_prefix p s else None
  | String _ _, EmptyString => None
  end.

Fixpoint str_take (n : nat) (s : string) : string :=
  match n, s with
  | S n, String c s => String c (str_take n s)
  | _, _ => EmptyString
  end.

Fixpoint str_drop (n : nat) (s : string) : string :=
  match n, s with
  | S n, String _ s => str_drop n s
  | _, _ => s
  end.

#[global] Arguments str_take : simpl nomatch.
#[global] Arguments str_drop : simpl nomatch.

Fixpoint str_all (f : Ascii.ascii → bool) (s : string) : bool :=
  match s with
  | EmptyString => true
  | String c s => f c && str_all f s
  end.

(** [s.replace(a, b)] for one character: its first occurrence. *)
Fixpoint replace_first (a b : Ascii.ascii) (s : string) : string :=
  match s with
  | EmptyString => EmptyString
  | String c s => if decide (c = a) then String b s else String c (replace_first a b s)
  end.

Lemma str_app_nil (s : string) : s +:+ "" = s.
Proof. induction s as [|c s IH]; simpl; [done|]. by rewrite IH. Qed.

Lemma str_app_assoc (s t u : string) : (s +:+ t) +:+ u = s +:+ (t +:+ u).
Proof. induction s as [|c s IH]; simpl; [done|]. by rewrite IH. Qed.

Lemma str_length_app (s t : string) : String.length (s +:+ t) = String.length s + String.length t.
Proof. induction s as [|c s IH]; simpl; [done|]. by rewrite IH. Qed.

Lemma str_app_inj_l (p s t : string) : p +:+ s = p +:+ t → s = t.
Proof. induction p as [|c p IH]; simpl; [done|]. intros [= ?]. auto. Qed.

Lemma strip_prefix_app p s : strip_prefix p (p +:+ s) = Some s.
Proof. induction p as [|c p IH]; simpl; [by destruct s|]. by rewrite decide_True. Qed.

Lemma strip_prefix_Some p s r : strip_prefix p s = Some r ↔ s = p +:+ r.
Proof.
  split; [|intros ->; apply strip_prefix_app].
  revert s. induction p as [|c p IH]; intros s; simpl; [by destruct s; intros [= <-]|].
  destruct s as [|d s]; [done|]. case_decide; [subst|done]. intros Hs. f_equal. auto.
Qed.

Lemma str_take_drop n s : str_take n s +:+ str_drop n s = s.
Proof.
  revert s. induction n as [|n IH]; intros [|c s]; simpl; try done. by rewrite IH.
Qed.

Lemma str_take_app s t : str_take (String.length s) (s +:+ t) = s.
Proof. induction s as [|c s IH]; simpl; [by destruct t|]. by rewrite IH. Qed.

Lemma str_drop_app s t : str_drop (String.length s) (s +:+ t) = t.
Proof. induction s as [|c s IH]; simpl; [by destruct t|]. done. Qed.

Lemma str_all_app f s t : str_all f (s +:+ t) = str_all f s && str_all f t.
Proof. induction s as [|c s IH]; simpl; [done|]. by rewrite IH, andb_assoc. Qed.

Lemma str_all_impl (f g : Ascii.ascii → bool) s :
  (∀ c, f c = true → g c = true) → str_all f s = true → str_all g s = true.
Proof.
  intros Hfg. induction s as [|c s IH]; simpl; [done|]. rewrite !andb_true_iff. naive_solver.
Qed.

Lemma replace_first_back a b s :
  str_all (λ c, negb (bool_decide (c = b))) s = true → replace_first b a (replace_first a b s) = s.
Proof.
  induction s as [|c s IH]; simpl; [done|]. intros [Hc Hs]%andb_true_iff.
  apply negb_true_iff, bool_decide_eq_false in Hc.
  destruct (decide (c = a)) as [->|Hne]; simpl.
  - by rewrite decide_True.
  - rewrite decide_False by done. by rewrite IH.
Qed.

(** ** Stable sorting

    [Array.prototype.sort] is stable: elements its comparator calls equal
    keep their order. [le x y] says the comparator does not put [y] first. *)
Section StableSort.
Context {A : Type} (le : A → A → bool).

Fixpoint sort_insert (x : A) (l : list A) : list A :=
  match l with
  | [] => [x]
  | y :: rest => if le x y then x :: y :: rest else y :: sort_insert x rest
  end.

Definition stable_sort (l : list A) : list A := foldr sort_insert [] l.

Lemma sort_insert_perm x l : sort_insert x l ≡ₚ x :: l.
Proof.
  induction l as [|y l IH]; simpl; [done|]. case_match; [done|].
  rewrite IH. apply Permutation_swap.
Qed.

Lemma stable_sort_perm l : stable_sort l ≡ₚ l.
Proof. induction l as [|x l IH]; simpl; [done|]. by rewrite sort_insert_perm, IH. Qed.

Hypothesis le_total : ∀ x y, le x y = false → le y x = true.
Hypothesis le_trans : ∀ x y z, le x y = true → le y z = true → le x z = true.

Lemma sort_insert_sorted x l :
  StronglySorted (λ a b, le a b = true) l →
  StronglySorted (λ a b, le a b = true) (sort_insert x l).
Proof using le_total le_trans.
  induction 1 as [|y l Hs IH Hall]; simpl; [by repeat constructor|].
  destruct (le x y) eqn:Hxy.
  - constructor; [by constructor|]. constructor; [done|].
    eapply Forall_impl; [exact Hall|]. eauto.
  - constructor; [done|]. rewrite sort_insert_perm. constructor; eauto.
Qed.

Lemma stable_sort_sorted l : StronglySorted (λ a b, le a b = true) (stable_sort l).
Proof using le_total le_trans.
  induction l as [|x l IH]; simpl; [constructor|]. by apply sort_insert_sorted.
Qed.

(** A sorted list is left alone. *)
Lemma stable_sort_id l :
  StronglySorted (λ a b, le a b = true) l → stable_sort l = l.
Proof.
  induction 1 as [|x l Hs IH Hall]; simpl; [done|]. rewrite IH.
  destruct l as [|y l]; simpl; [done|]. apply Forall_cons in Hall as [-> _]. done.
Qed.
End StableSort.

(** Two lists sorted by a partial order, with the same elements, are equal. *)
Lemma sorted_perm_unique {A} (R : A → A → Prop) l1 l2 :
  (∀ x y, x ∈ l1 → y ∈ l1 → R x y → R y x → x = y) →
  StronglySorted R l1 → StronglySorted R l2 → l1 ≡ₚ l2 → l1 = l2.
Proof.
  revert l2. induction l1 as [|x l1 IH]; intros [|y l2] Hanti Hs1 Hs2 Hp.
  - done.
  - by apply Permutation_nil_l in Hp.
  - by apply Permutation_nil_r in Hp.
  - apply StronglySorted_inv in Hs1 as [Hs1 Hall1].
    apply StronglySorted_inv in Hs2 as [Hs2 Hall2].
    rewrite Forall_forall in Hall1, Hall2.
    assert (x = y) as ->.
    { assert (x ∈ y :: l2) as [Hx|Hx]%elem_of_cons by (rewrite <-Hp; set_solver); [done|].
      assert (y ∈ x :: l1) as [Hy|Hy]%elem_of_cons by (rewrite Hp; set_solver); [done|].
      apply Hanti; [set_solver|set_solver|auto|auto]. }
    f_equal. apply IH; [|done|done|by eapply Permutation_cons_inv].
    intros a b Ha Hb. apply Hanti; set_solver.
Qed.
