(* ===== verification/Locks.v ===== *)
(** * Lock keys, modes and the lock table

    Models [packages/operations/src/locks.ts], shared by the Relay's lanes and
    Hearth's: a lock is a key and a mode, [normalizeLocks] puts a plan in its
    canonical form, and [LockTable] says what granted operations hold.

    [LockStore] is the contract the lane rule relies on: a table stands for a
    list of held locks, [conflicts] asks whether any of them is in the way, and
    [take] and [release] add and remove locks. [LockTable] implements it. *)
From S2P Require Import Prelude.

(** ** Locks *)

Inductive LaneMode := Exclusive | Shared.

#[global] Instance LaneMode_eq_dec : EqDecision LaneMode.
Proof. solve_decision. Defined.

Record LaneLock := MkLock { key : string; mode : LaneMode }.

#[global] Instance LaneLock_eq_dec : EqDecision LaneLock.
Proof. solve_decision. Defined.

Definition exclusive (k : string) : LaneLock := MkLock k Exclusive.
Definition shared (k : string) : LaneLock := MkLock k Shared.

(** The comparator [left < right ? -1 : left > right ? 1 : 0] on keys. *)
Definition key_order (left right : string) : Z :=
  if String.ltb left right then -1 else if String.ltb right left then 1 else 0.

(** One step of the loop that collects each key's mode. *)
Definition normalize_step (modes : list (string * LaneMode)) (lock : LaneLock)
    : list (string * LaneMode) :=
  if decide (jm_get (key lock) modes = Some Exclusive) then modes
  else jm_set (key lock) (mode lock) modes.

Definition normalizeLocks (locks : list LaneLock) : list LaneLock :=
  (λ '(k, m), MkLock k m) <$>
    stable_sort (λ left right, bool_decide (key_order left.1 right.1 ≤ 0)%Z)
      (fold_left normalize_step locks []).

(** ** The lock table *)

Record Held := MkHeld { h_exclusive : bool; h_shared : Z }.

#[global] Instance Held_eq_dec : EqDecision Held.
Proof. solve_decision. Defined.

Abbreviation LockTable := (gmap string Held).

Definition conflicts (held : LockTable) (lock : LaneLock) : bool :=
  match held !! key lock with
  | None => false
  | Some h =>
      h_exclusive h || (bool_decide (mode lock = Exclusive) && bool_decide (h_shared h > 0)%Z)
  end.

Definition take_lock (held : LockTable) (lock : LaneLock) : LockTable :=
  let h := default (MkHeld false 0) (held !! key lock) in
  <[key lock :=
      match mode lock with
      | Exclusive => MkHeld true (h_shared h)
      | Shared => MkHeld (h_exclusive h) (h_shared h + 1)
      end]> held.

Definition take_locks (held : LockTable) (locks : list LaneLock) : LockTable :=
  fold_left take_lock locks held.

Definition release_lock (held : LockTable) (lock : LaneLock) : LockTable :=
  match held !! key lock with
  | None => held
  | Some h =>
      let h' := match mode lock with
                | Exclusive => MkHeld false (h_shared h)
                | Shared => MkHeld (h_exclusive h) (h_shared h - 1)
                end in
      if negb (h_exclusive h') && bool_decide (h_shared h' = 0)%Z
      then delete (key lock) held
      else <[key lock := h']> held
  end.

Definition release_locks (held : LockTable) (locks : list LaneLock) : LockTable :=
  fold_left release_lock locks held.

(** ** Specification: which locks exclude each other *)

(** Two locks on one key exclude each other unless both are shared. *)
Definition locks_conflict (a b : LaneLock) : bool :=
  bool_decide (key a = key b) &&
  (bool_decide (mode a = Exclusive) || bool_decide (mode b = Exclusive)).

(** Some lock of [ls] excludes [l]. *)
Definition in_the_way (ls : list LaneLock) (l : LaneLock) : bool :=
  existsb (λ h, locks_conflict h l) ls.

(** No lock of [xs] excludes one of [ys]. *)
Definition compatible (xs ys : list LaneLock) : Prop :=
  ∀ x y, x ∈ xs → y ∈ ys → locks_conflict x y = false.

(** No two locks of the list, at different places, exclude each other. *)
Definition coherent (ls : list LaneLock) : Prop :=
  ForallOrdPairs (λ a b, locks_conflict a b = false) ls.

(** The mode a plan asks for on a key: exclusive when any of its locks is. *)
Definition requested (k : string) (ls : list LaneLock) : option LaneMode :=
  if existsb (λ l, bool_decide (l = exclusive k)) ls then Some Exclusive
  else if existsb (λ l, bool_decide (l = shared k)) ls then Some Shared
  else None.

Definition shared_count (k : string) (ls : list LaneLock) : Z :=
  Z.of_nat (length (List.filter (λ l, bool_decide (l = shared k)) ls)).

Definition held_of (k : string) (ls : list LaneLock) : option Held :=
  let x := existsb (λ l, bool_decide (l = exclusive k)) ls in
  let n := shared_count k ls in
  if negb x && bool_decide (n = 0)%Z then None else Some (MkHeld x n).

(** The table stands for exactly the locks [ls]. *)
Definition table_holds (t : LockTable) (ls : list LaneLock) : Prop :=
  ∀ k, t !! k = held_of k ls.

(** The contract between the lock table and the lane rule. *)
Class LockStore (T : Type) := {
  ls_empty : T;
  ls_conflicts : T → LaneLock → bool;
  ls_take : T → list LaneLock → T;
  ls_release : T → list LaneLock → T;
  ls_holds : T → list LaneLock → Prop;
  ls_holds_empty : ls_holds ls_empty [];
  ls_holds_perm : ∀ t xs ys, xs ≡ₚ ys → ls_holds t xs → ls_holds t ys;
  ls_conflicts_spec : ∀ t ls l, ls_holds t ls → ls_conflicts t l = in_the_way ls l;
  ls_take_spec : ∀ t ls xs, ls_holds t ls → ls_holds (ls_take t xs) (ls ++ xs);
  ls_release_spec : ∀ t ls xs, coherent (xs ++ ls) →
    ls_holds t (xs ++ ls) → ls_holds (ls_release t xs) ls;
}.

(** ** The specification's own lemmas *)

Lemma locks_conflict_sym a b : locks_conflict a b = locks_conflict b a.
Proof.
  unfold locks_conflict. rewrite orb_comm. f_equal.
  apply bool_decide_ext. split; congruence.
Qed.

Lemma locks_conflict_true a b :
  locks_conflict a b = true ↔ key a = key b ∧ (mode a = Exclusive ∨ mode b = Exclusive).
Proof.
  unfold locks_conflict. rewrite andb_true_iff, orb_true_iff, !bool_decide_eq_true. done.
Qed.

Lemma locks_conflict_shared k : locks_conflict (shared k) (shared k) = false.
Proof. unfold locks_conflict. simpl. by rewrite andb_false_r. Qed.

Lemma compatible_sym xs ys : compatible xs ys → compatible ys xs.
Proof. intros H x y Hx Hy. rewrite locks_conflict_sym. by apply H. Qed.

Lemma compatible_in_the_way xs ys :
  compatible xs ys ↔ ∀ y, y ∈ ys → in_the_way xs y = false.
Proof.
  unfold compatible, in_the_way. setoid_rewrite existsb_false. split; intros H; eauto.
Qed.

Lemma compatible_app_l xs ys zs :
  compatible (xs ++ ys) zs ↔ compatible xs zs ∧ compatible ys zs.
Proof.
  unfold compatible. setoid_rewrite elem_of_app. split; [naive_solver|].
  intros [H1 H2] x y [?|?] ?; eauto.
Qed.

#[global] Instance compatible_perm :
  Proper ((≡ₚ) ==> (≡ₚ) ==> iff) compatible.
Proof.
  intros xs xs' Hx ys ys' Hy. unfold compatible. by setoid_rewrite Hx; setoid_rewrite Hy.
Qed.

Lemma in_the_way_app xs ys l : in_the_way (xs ++ ys) l = in_the_way xs l || in_the_way ys l.
Proof. apply existsb_app. Qed.

#[global] Instance in_the_way_perm : Proper ((≡ₚ) ==> (=) ==> (=)) in_the_way.
Proof.
  intros xs ys Hp l _ <-. apply eq_iff_eq_true. unfold in_the_way.
  rewrite !existsb_elem. by setoid_rewrite Hp.
Qed.

Lemma coherent_app xs ys :
  coherent (xs ++ ys) ↔ coherent xs ∧ coherent ys ∧ compatible xs ys.
Proof.
  unfold coherent. induction xs as [|x xs IH]; simpl.
  - split; [|by intros (_ & ? & _)]. intros H. split; [constructor|]. split; [done|].
    intros ? ? Hin. by apply elem_of_nil in Hin.
  - split.
    + intros H. inversion H as [|? ? Hall Hrest]; subst. apply IH in Hrest as (? & ? & Hc).
      apply Forall_app in Hall as [Hx Hy]. split; [by apply FOP_cons|]. split; [done|].
      intros a b [->|Ha]%elem_of_cons Hb; [|by apply Hc].
      rewrite Forall_forall in Hy. by apply Hy.
    + intros (H & Hy & Hc). inversion H as [|? ? Hall Hrest]; subst.
      apply FOP_cons.
      * apply Forall_app. split; [done|]. apply Forall_forall. intros b Hb.
        apply Hc; set_solver.
      * apply IH. split; [done|]. split; [done|]. intros a b Ha Hb. apply Hc; set_solver.
Qed.

Lemma coherent_cons x xs : coherent (x :: xs) ↔ coherent xs ∧ compatible [x] xs.
Proof.
  change (x :: xs) with ([x] ++ xs). rewrite coherent_app. split; [naive_solver|].
  intros [? ?]. split; [|done]. repeat constructor.
Qed.

#[global] Instance coherent_perm : Proper ((≡ₚ) ==> iff) coherent.
Proof.
  assert (∀ xs ys, xs ≡ₚ ys → coherent xs → coherent ys) as H.
  { induction 1 as [|x xs ys Hp IH|x y xs|xs ys zs _ IH1 _ IH2]; [done| | |by auto].
    - rewrite !coherent_cons. intros [? ?]. split; [by auto|]. by rewrite <-Hp.
    - change (y :: x :: xs) with ([y; x] ++ xs). change (x :: y :: xs) with ([x; y] ++ xs).
      rewrite !coherent_app. intros (Hxy & ? & Hc). split; [|split; [done|]].
      + apply coherent_cons in Hxy as [_ Hxy]. apply coherent_cons. split; [repeat constructor|].
        by apply compatible_sym.
      + intros a b Ha Hb. apply Hc; set_solver. }
  intros xs ys Hp. split; apply H; [done|by symmetry].
Qed.

Lemma coherent_app_iff_flat xss :
  coherent (concat xss) → ∀ i j xs ys, i ≠ j → xss !! i = Some xs → xss !! j = Some ys →
  compatible xs ys.
Proof.
  induction xss as [|zs xss IH]; intros Hc i j xs ys Hij Hi Hj; [done|]. simpl in Hc.
  apply coherent_app in Hc as (_ & Hc & Hz).
  assert (∀ k us, xss !! k = Some us → compatible zs us) as Hz'.
  { intros k us Hk a b Ha Hb. apply Hz; [done|]. apply list_elem_of_In, in_concat.
    exists us. split; apply list_elem_of_In; [by eapply list_elem_of_lookup_2|done]. }
  destruct i as [|i], j as [|j]; simplify_eq/=; [eauto| |].
  - apply compatible_sym. eauto.
  - eapply (IH Hc i j); [|done|done]. congruence.
Qed.

(** ** [LockTable] implements the contract *)

Lemma shared_count_nonneg k ls : (0 ≤ shared_count k ls)%Z.
Proof. unfold shared_count. lia. Qed.

Lemma shared_count_app k xs ys :
  shared_count k (xs ++ ys) = (shared_count k xs + shared_count k ys)%Z.
Proof. unfold shared_count. rewrite List.filter_app, length_app. lia. Qed.

Lemma shared_count_zero k ls : shared_count k ls = 0%Z ↔ shared k ∉ ls.
Proof.
  unfold shared_count. split.
  - intros Hz Hin. assert (shared k ∈ List.filter (λ l, bool_decide (l = shared k)) ls) as Hf.
    { apply list_elem_of_In, filter_In. split; [by apply list_elem_of_In|].
      by apply bool_decide_eq_true. }
    destruct (List.filter _ _); simpl in *; [by apply elem_of_nil in Hf|lia].
  - intros Hn. destruct (List.filter _ ls) as [|l rest] eqn:E; [done|].
    assert (In l (List.filter (λ l, bool_decide (l = shared k)) ls)) as Hin by (rewrite E; by left).
    apply filter_In in Hin as [Hin Heq]. apply bool_decide_eq_true in Heq as ->.
    apply list_elem_of_In in Hin. done.
Qed.

Lemma exclusive_test k ls :
  existsb (λ l, bool_decide (l = exclusive k)) ls = bool_decide (exclusive k ∈ ls).
Proof.
  apply eq_iff_eq_true. rewrite existsb_elem, bool_decide_eq_true. split.
  - intros (l & Hl & Heq). apply bool_decide_eq_true in Heq as ->. done.
  - intros Hin. exists (exclusive k). split; [done|]. by apply bool_decide_eq_true.
Qed.

Lemma held_of_None k ls :
  held_of k ls = None ↔ exclusive k ∉ ls ∧ shared k ∉ ls.
Proof.
  unfold held_of. rewrite exclusive_test, <-shared_count_zero.
  repeat case_bool_decide; simpl; naive_solver.
Qed.

Lemma held_of_Some k ls h :
  held_of k ls = Some h →
  (h_exclusive h = true ↔ exclusive k ∈ ls) ∧ h_shared h = shared_count k ls.
Proof.
  unfold held_of. rewrite exclusive_test. case_match; [done|]. intros [= <-]. simpl.
  by rewrite bool_decide_eq_true.
Qed.

Lemma held_of_perm k xs ys : xs ≡ₚ ys → held_of k xs = held_of k ys.
Proof.
  intros Hp. unfold held_of. rewrite !exclusive_test.
  replace (bool_decide (exclusive k ∈ xs)) with (bool_decide (exclusive k ∈ ys))
    by (apply bool_decide_ext; by rewrite Hp).
  replace (shared_count k xs) with (shared_count k ys); [done|].
  unfold shared_count. f_equal. symmetry. clear -Hp.
  induction Hp; simpl; repeat case_bool_decide; simpl; lia.
Qed.

Lemma in_the_way_true ls l :
  in_the_way ls l = true ↔
  exclusive (key l) ∈ ls ∨ (mode l = Exclusive ∧ shared (key l) ∈ ls).
Proof.
  unfold in_the_way. rewrite existsb_elem. setoid_rewrite locks_conflict_true. split.
  - intros ([k []] & Hin & Hk & Hm); simpl in *; subst k; [by left|]. right.
    destruct Hm; [done|]. by split.
  - intros [Hin|[Hm Hin]]; eexists; (split; [exact Hin|]); simpl; auto.
Qed.

Lemma conflicts_spec (t : LockTable) ls l :
  table_holds t ls → conflicts t l = in_the_way ls l.
Proof.
  intros Ht. apply eq_iff_eq_true. rewrite in_the_way_true. unfold conflicts. rewrite Ht.
  destruct (held_of (key l) ls) as [h|] eqn:E.
  - apply held_of_Some in E as [Hx Hs]. rewrite orb_true_iff, andb_true_iff, Hx, Hs.
    rewrite !bool_decide_eq_true. rewrite Z.gt_lt_iff.
    pose proof (shared_count_nonneg (key l) ls) as Hn.
    pose proof (shared_count_zero (key l) ls) as Hz.
    assert (0 < shared_count (key l) ls ↔ shared (key l) ∈ ls)%Z as ->; [|tauto].
    destruct (decide (shared (key l) ∈ ls)) as [Hin|Hin]; split; try done; intros.
    + destruct (decide (shared_count (key l) ls = 0%Z)); [tauto|lia].
    + apply Hz in Hin. lia.
  - apply held_of_None in E as [Hx Hs]. naive_solver.
Qed.

Lemma shared_count_one k l :
  shared_count k [l] = if decide (l = shared k) then 1%Z else 0%Z.
Proof. unfold shared_count. simpl. case_bool_decide; case_decide; done. Qed.

Lemma held_of_app_one k ls l :
  held_of k (ls ++ [l]) =
  if decide (k = key l)
  then Some (let h := default (MkHeld false 0) (held_of k ls) in
             match mode l with
             | Exclusive => MkHeld true (h_shared h)
             | Shared => MkHeld (h_exclusive h) (h_shared h + 1)
             end)
  else held_of k ls.
Proof.
  pose proof (shared_count_nonneg k ls) as Hn. unfold held_of at 1 3.
  rewrite !exclusive_test, shared_count_app, shared_count_one.
  destruct l as [k' m]; simpl. destruct (decide (k = k')) as [->|Hk]; simpl.
  - unfold held_of. rewrite exclusive_test. destruct m; simpl.
    + rewrite (bool_decide_true (exclusive k' ∈ ls ++ _)) by set_solver. simpl.
      rewrite decide_False by done. rewrite Z.add_0_r.
      repeat case_bool_decide; simpl; congruence.
    + rewrite decide_True by done.
      rewrite (bool_decide_false (_ = 0)%Z), andb_false_r by lia.
      assert (exclusive k' ∈ ls ++ [MkLock k' Shared] ↔ exclusive k' ∈ ls) as Hx.
      { rewrite elem_of_app, list_elem_of_singleton. split; [by intros [?|?]|by left]. }
      rewrite (bool_decide_ext _ _ Hx).
      repeat case_bool_decide; simpl; f_equal; f_equal; lia.
  - rewrite decide_False by (intros Heq; by inversion Heq). rewrite Z.add_0_r.
    assert (exclusive k ∈ ls ++ [MkLock k' m] ↔ exclusive k ∈ ls) as Hx.
    { rewrite elem_of_app, list_elem_of_singleton. split; [|by left].
      intros [?|Heq]; [done|]. by inversion Heq. }
    by rewrite (bool_decide_ext _ _ Hx).
Qed.

Lemma take_locks_spec (t : LockTable) ls xs :
  table_holds t ls → table_holds (take_locks t xs) (ls ++ xs).
Proof.
  revert t ls. induction xs as [|x xs IH]; intros t ls Ht; simpl.
  - by rewrite app_nil_r.
  - change (x :: xs) with ([x] ++ xs). rewrite app_assoc. apply IH.
    intros k. unfold take_lock. rewrite lookup_insert, held_of_app_one.
    destruct (decide (key x = k)) as [<-|Hk].
    + rewrite (decide_True (P := key x = key x)) by done. rewrite (Ht (key x)). reflexivity.
    + rewrite decide_False by congruence. apply Ht.
Qed.

Lemma coherent_held (k : string) x ls :
  coherent (x :: ls) → key x = k →
  match mode x with
  | Exclusive => exclusive k ∉ ls ∧ shared k ∉ ls
  | Shared => exclusive k ∉ ls
  end.
Proof.
  intros [_ Hc]%coherent_cons <-. unfold compatible in Hc.
  assert (∀ l, l ∈ ls → locks_conflict x l = false) as Hl by (intros; apply Hc; set_solver).
  destruct x as [k m]; simpl in *. destruct m; [split|]; intros Hin; apply Hl in Hin;
    unfold locks_conflict in Hin; simpl in Hin; rewrite bool_decide_true in Hin by done; done.
Qed.

Lemma release_lock_spec (t : LockTable) x ls :
  coherent (x :: ls) → table_holds t (x :: ls) → table_holds (release_lock t x) ls.
Proof.
  intros Hc Ht k. pose proof (coherent_held _ _ _ Hc eq_refl) as Hx.
  assert (∀ k, t !! k = held_of k (ls ++ [x])) as Ht'.
  { intros k'. rewrite Ht. apply held_of_perm. by rewrite Permutation_app_comm. }
  unfold release_lock. rewrite Ht', held_of_app_one, decide_True by done. simpl.
  assert (k ≠ key x → t !! k = held_of k ls) as Hother.
  { intros Hk. by rewrite Ht', held_of_app_one, decide_False. }
  destruct (held_of (key x) ls) as [h|] eqn:E; simpl.
  - pose proof (held_of_Some _ _ _ E) as [Hhx Hhs].
    destruct (mode x); simpl.
    { destruct Hx as [??]. by rewrite (proj2 (held_of_None _ _)) in E. }
    replace (h_shared h + 1 - 1)%Z with (h_shared h) by lia.
    assert (negb (h_exclusive h) && bool_decide (h_shared h = 0)%Z = false) as ->.
    { apply not_true_iff_false. rewrite andb_true_iff, negb_true_iff, bool_decide_eq_true.
      intros [Hf Hz]. assert (held_of (key x) ls = None) as Hn; [|by rewrite Hn in E].
      apply held_of_None. rewrite <-shared_count_zero, <-Hhs. split; [|done]. congruence. }
    rewrite lookup_insert. case_decide; subst; [|by auto]. rewrite E. by destruct h.
  - destruct (mode x); simpl; rewrite lookup_delete; case_decide; subst; by auto.
Qed.

Lemma release_locks_spec (t : LockTable) ls xs :
  coherent (xs ++ ls) → table_holds t (xs ++ ls) → table_holds (release_locks t xs) ls.
Proof.
  revert t. induction xs as [|x xs IH]; intros t Hc Ht; simpl; [done|].
  simpl in Hc. apply IH; [by apply coherent_cons in Hc as [? _]|].
  by apply release_lock_spec.
Qed.

Lemma table_holds_perm (t : LockTable) xs ys :
  xs ≡ₚ ys → table_holds t xs → table_holds t ys.
Proof. intros Hp Ht k. rewrite Ht. by apply held_of_perm. Qed.

#[export] Instance LockTable_store : LockStore LockTable := {
  ls_empty := ∅;
  ls_conflicts := conflicts;
  ls_take := take_locks;
  ls_release := release_locks;
  ls_holds := table_holds;
  ls_holds_empty k := lookup_empty k;
  ls_holds_perm := table_holds_perm;
  ls_conflicts_spec := conflicts_spec;
  ls_take_spec := take_locks_spec;
  ls_release_spec := release_locks_spec;
}.

(** ** Canonical plans *)

Lemma requested_app_one k ls l :
  requested k (ls ++ [l]) =
  if decide (key l = k)
  then if decide (requested k ls = Some Exclusive) then Some Exclusive else Some (mode l)
  else requested k ls.
Proof.
  unfold requested. rewrite !existsb_app. simpl. rewrite !orb_false_r.
  destruct l as [k' m]; simpl. destruct (decide (k' = k)) as [->|Hk]; simpl.
  - destruct m.
    + rewrite (bool_decide_true (MkLock k Exclusive = exclusive k)) by done.
      rewrite orb_true_r. by case_match.
    + rewrite (bool_decide_false (MkLock k Shared = exclusive k)) by done.
      rewrite (bool_decide_true (MkLock k Shared = shared k)) by done.
      rewrite orb_true_r, orb_false_r. by repeat (case_match; simplify_eq).
  - rewrite !(bool_decide_false (MkLock k' m = _)) by (intros Heq; by inversion Heq).
    by rewrite !orb_false_r.
Qed.

Lemma requested_Some k ls m :
  requested k ls = Some m ↔
  match m with
  | Exclusive => exclusive k ∈ ls
  | Shared => exclusive k ∉ ls ∧ shared k ∈ ls
  end.
Proof.
  assert (∀ m', existsb (λ l, bool_decide (l = MkLock k m')) ls = bool_decide (MkLock k m' ∈ ls))
    as Htest.
  { intros m'. apply eq_iff_eq_true. rewrite existsb_elem, bool_decide_eq_true. split.
    - intros (l & Hl & Heq). by apply bool_decide_eq_true in Heq as ->.
    - intros Hin. eexists. split; [done|]. by apply bool_decide_eq_true. }
  unfold requested, exclusive, shared. rewrite !Htest.
  repeat case_bool_decide; destruct m; naive_solver.
Qed.

Definition collected (ls : list LaneLock) := fold_left normalize_step ls [].

Lemma collected_spec ls :
  NoDup (collected ls).*1 ∧ ∀ k, jm_get k (collected ls) = requested k ls.
Proof.
  unfold collected. induction ls as [|l ls [Hnd Hget]] using rev_ind; simpl.
  - split; [constructor|done].
  - rewrite fold_left_app. simpl. unfold normalize_step. split.
    + case_decide; [done|by apply jm_set_NoDup].
    + intros k. rewrite requested_app_one, <-!Hget. case_decide as He.
      * case_decide as Hk; subst; [by rewrite decide_True|done].
      * rewrite jm_get_set. case_decide as Hk; subst; [by rewrite decide_False|done].
Qed.

Lemma key_order_le left right :
  bool_decide (key_order left right ≤ 0)%Z = String.leb left right.
Proof.
  unfold key_order, String.ltb, String.leb. rewrite (String.compare_antisym right left).
  destruct (String.compare left right); done.
Qed.

Definition by_key (a b : string * LaneMode) : bool := String.leb a.1 b.1.

Lemma by_key_total a b : by_key a b = false → by_key b a = true.
Proof. unfold by_key. destruct (String.leb_total a.1 b.1); congruence. Qed.

Lemma by_key_trans a b c : by_key a b = true → by_key b c = true → by_key a c = true.
Proof.
  unfold by_key. intros H1 H2. apply Is_true_true. apply Is_true_true in H1, H2.
  exact (transitivity (R := String.le) H1 H2).
Qed.

Lemma normalizeLocks_eq ls :
  normalizeLocks ls = (λ '(k, m), MkLock k m) <$> stable_sort by_key (collected ls).
Proof.
  unfold normalizeLocks. f_equal. unfold collected.
  generalize (fold_left normalize_step ls []). intros l.
  assert (∀ x m, sort_insert (λ a b : string * LaneMode,
            bool_decide (key_order a.1 b.1 ≤ 0)%Z) x m = sort_insert by_key x m) as Hins.
  { intros x m. induction m as [|y m IH]; simpl; [done|].
    rewrite key_order_le, IH. done. }
  induction l as [|x l IH]; simpl; [done|]. by rewrite IH, Hins.
Qed.

Lemma normalizeLocks_elem ls l :
  l ∈ normalizeLocks ls ↔ requested (key l) ls = Some (mode l).
Proof.
  destruct (collected_spec ls) as [Hnd Hget].
  rewrite normalizeLocks_eq, list_elem_of_fmap. setoid_rewrite stable_sort_perm.
  rewrite <-Hget, jm_get_Some by done. split.
  - intros ([k m] & -> & Hin). done.
  - intros Hin. exists (key l, mode l). split; [by destruct l|done].
Qed.

Lemma normalizeLocks_sorted ls :
  StronglySorted (λ a b, String.leb (key a) (key b) = true) (normalizeLocks ls).
Proof.
  rewrite normalizeLocks_eq.
  pose proof (stable_sort_sorted by_key by_key_total by_key_trans (collected ls)) as Hs.
  induction Hs as [|[k m] l _ IH Hall]; csimpl; constructor; [done|].
  apply Forall_fmap. eapply Forall_impl; [exact Hall|]. by intros [].
Qed.

Lemma normalizeLocks_keys_NoDup ls : NoDup (key <$> normalizeLocks ls).
Proof.
  destruct (collected_spec ls) as [Hnd _]. rewrite normalizeLocks_eq, <-list_fmap_compose.
  assert (∀ l : list (string * LaneMode), (key ∘ λ '(k, m), MkLock k m) <$> l = l.*1) as ->.
  { induction l as [|[] l IH]; csimpl; congruence. }
  by rewrite stable_sort_perm.
Qed.

Lemma normalizeLocks_requested k ls : requested k (normalizeLocks ls) = requested k ls.
Proof.
  apply option_eq. intros m. rewrite (requested_Some k (normalizeLocks ls)).
  destruct m; rewrite !normalizeLocks_elem; simpl; [done|].
  split; [by intros [_ ?]|]. intros Hm. rewrite Hm. split; [congruence|done].
Qed.

Lemma normalizeLocks_coherent ls : coherent (normalizeLocks ls).
Proof.
  pose proof (normalizeLocks_keys_NoDup ls) as Hnd. revert Hnd.
  generalize (normalizeLocks ls). intros l.
  induction l as [|x l IH]; csimpl; [constructor|].
  rewrite NoDup_cons. intros [Hx Hnd]. constructor; [|by apply IH].
  apply Forall_forall. intros y Hy. unfold locks_conflict.
  rewrite bool_decide_false; [done|]. intros Heq. apply Hx. rewrite Heq.
  by apply list_elem_of_fmap_2.
Qed.

Lemma in_the_way_requested ls ls' l :
  (∀ k, requested k ls = requested k ls') → in_the_way ls l = in_the_way ls' l.
Proof.
  intros Hr. apply eq_iff_eq_true. rewrite !in_the_way_true.
  pose proof (requested_Some (key l) ls) as H1. pose proof (requested_Some (key l) ls') as H2.
  rewrite Hr in H1. pose proof (H1 Exclusive) as H1x. pose proof (H2 Exclusive) as H2x.
  pose proof (H1 Shared) as H1s. pose proof (H2 Shared) as H2s. simpl in *.
  assert (exclusive (key l) ∈ ls ↔ exclusive (key l) ∈ ls') as Hx by tauto.
  destruct (decide (exclusive (key l) ∈ ls')); tauto.
Qed.

Lemma normalizeLocks_in_the_way ls l : in_the_way (normalizeLocks ls) l = in_the_way ls l.
Proof. apply in_the_way_requested. intros k. apply normalizeLocks_requested. Qed.

(** [normalizeLocks] puts a plan in canonical form. Its locks come in key
    order, one per key, asking on every key for what the plan asked (so it is
    in the way of exactly the same locks), never excluding each other; and two
    plans have the same normal form exactly when they ask for the same on
    every key, whatever their order and repetitions. *)
Theorem normalizeLocks_canonical (ls ls' : list LaneLock) :
  StronglySorted (λ a b, String.leb (key a) (key b) = true) (normalizeLocks ls) ∧
  NoDup (key <$> normalizeLocks ls) ∧
  coherent (normalizeLocks ls) ∧
  (∀ k, requested k (normalizeLocks ls) = requested k ls) ∧
  (∀ l, in_the_way (normalizeLocks ls) l = in_the_way ls l) ∧
  (normalizeLocks ls = normalizeLocks ls' ↔ ∀ k, requested k ls = requested k ls').
Proof.
  split; [apply normalizeLocks_sorted|]. split; [apply normalizeLocks_keys_NoDup|].
  split; [apply normalizeLocks_coherent|]. split; [intros; apply normalizeLocks_requested|].
  split; [intros; apply normalizeLocks_in_the_way|]. split.
  - intros Heq k. by rewrite <-normalizeLocks_requested, Heq, normalizeLocks_requested.
  - intros Hr. eapply sorted_perm_unique; [|apply normalizeLocks_sorted..|].
    + intros x y Hx%normalizeLocks_elem Hy%normalizeLocks_elem H1 H2.
      assert (key x = key y) as Hk by (apply (anti_symm String.le); by apply Is_true_true).
      destruct x, y; simpl in *; congruence.
    + apply NoDup_Permutation;
        [eapply NoDup_fmap_1, normalizeLocks_keys_NoDup..|].
      intros l. by rewrite !normalizeLocks_elem, Hr.
Qed.

(** The lock table refines a list of held locks: taking [xs] beside the
    locks [ls] it stands for makes it refuse exactly the locks some lock of
    [ls] or [xs] excludes, and releasing [xs] again gives back the very same
    table, nothing leaked and nothing dropped. *)
Theorem take_release_roundtrip (t : LockTable) (ls xs : list LaneLock) :
  table_holds t ls → coherent (ls ++ xs) →
  (∀ l, conflicts (take_locks t xs) l = in_the_way (ls ++ xs) l) ∧
  release_locks (take_locks t xs) xs = t.
Proof.
  intros Ht Hc. pose proof (take_locks_spec t ls xs Ht) as Htake.
  split; [intros l; by apply conflicts_spec|].
  rewrite Permutation_app_comm in Hc. apply map_eq. intros k. rewrite (Ht k).
  refine (release_locks_spec _ ls xs Hc _ k).
  eapply table_holds_perm; [|exact Htake]. apply Permutation_app_comm.
Qed.

Example take_release_roundtrip_witness :
  release_locks (take_locks (take_locks ∅ [shared "instance:a"])
                   [shared "instance:a"; exclusive "instance:a/files"])
    [shared "instance:a"; exclusive "instance:a/files"]
  = take_locks ∅ [shared "instance:a"].
Proof.
  refine (proj2 (take_release_roundtrip _ [shared "instance:a"] _ _ _)).
  - intros k. exact (take_locks_spec ∅ [] [shared "instance:a"] (λ k, lookup_empty k) k).
  - repeat constructor.
Defined.
