(* ===== verification/Grants.v ===== *)
(** * The lane rule

    Models [packages/operations/src/grants.ts]: [selectGrants] walks the
    waiting operations in admission order and picks those that may start, and
    [explainWait] says what a waiting one waits on. The rule itself is the
    inductive relation [lane_rule]; [selectGrants] is proved to follow it
    against the [LockStore] contract only. *)
From S2P Require Import Prelude Locks.

(** ** Definitions *)

Record GrantSelection (W : Type) := MkSelection { granted : list W; dropped : list W }.
Arguments MkSelection {W}.
Arguments granted {W}.
Arguments dropped {W}.

Definition grant_one {W} (w : W) (sel : GrantSelection W) : GrantSelection W :=
  MkSelection (w :: granted sel) (dropped sel).
Definition drop_one {W} (w : W) (sel : GrantSelection W) : GrantSelection W :=
  MkSelection (granted sel) (w :: dropped sel).

Section SelectGrants.
(** [T] is the lock table, [W] a waiting operation, and [S] the state the
    [admit] callback may change. *)
Context {T : Type} {store : LockStore T} {W S : Type}.
Variable admits : option (W → S → bool * S).
Variable locksOf : S → W → option (list LaneLock).

(** The loop of [selectGrants], with the tables and the callback's state it
    mutates passed along. *)
Fixpoint select_loop (waiting : list W) (held blocked : T) (s : S)
    : GrantSelection W * T * S :=
  match waiting with
  | [] => (MkSelection [] [], held, s)
  | waiter :: rest =>
      match locksOf s waiter with
      | None => (MkSelection [] [], held, s)
      | Some locks =>
          let free := forallb
            (λ lock, negb (ls_conflicts held lock) && negb (ls_conflicts blocked lock)) locks in
          if negb free then select_loop rest held (ls_take blocked locks) s
          else
            let '(admitted, s) :=
              match admits with None => (true, s) | Some f => f waiter s end in
            if negb admitted then
              let '(sel, held, s) := select_loop rest held blocked s in
              (drop_one waiter sel, held, s)
            else
              let '(sel, held, s) := select_loop rest (ls_take held locks) blocked s in
              (grant_one waiter sel, held, s)
      end
  end.

Definition selectGrants (held : T) (waiting : list W) (blocked : option T) (s : S)
    : GrantSelection W * T * S :=
  select_loop waiting held (default ls_empty blocked) s.
End SelectGrants.

Record LaneOccupant (Id : Type) := MkOccupant { o_id : Id; o_locks : list LaneLock }.
Arguments MkOccupant {Id}.
Arguments o_id {Id}.
Arguments o_locks {Id}.

Record WaitReason (Id : Type) := MkReason { r_id : Id; r_key : string; r_holds : bool }.
Arguments MkReason {Id}.
Arguments r_id {Id}.
Arguments r_key {Id}.
Arguments r_holds {Id}.

(** The inner loops of [collect] for one occupant. *)
Definition collect_reasons {Id} (locks : list LaneLock) (holds : bool)
    (occupant : LaneOccupant Id) : list (WaitReason Id) :=
  let table := take_locks ∅ (o_locks occupant) in
  flat_map (λ lock, if conflicts table lock
                    then [MkReason (o_id occupant) (key lock) holds] else []) locks.

Definition explainWait {Id} (locks : list LaneLock) (holders ahead : list (LaneOccupant Id))
    : list (WaitReason Id) :=
  flat_map (collect_reasons locks true) holders ++ flat_map (collect_reasons locks false) ahead.

(** ** The rule *)

Section LaneRule.
Context {W : Type} (locks : W → option (list LaneLock)).

(** The locks of some operations, those not yet known left out. *)
Definition locks_of (ws : list W) : list LaneLock := concat (default [] <$> (locks <$> ws)).

(** [lane_rule H B ws g d r]: with the locks [H] held and [B] wanted ahead
    of the line, the line [ws] splits into the granted [g], the dropped [d]
    and those still waiting [r]. *)
Inductive lane_rule : list LaneLock → list LaneLock →
    list W → list W → list W → list W → Prop :=
  | rule_nil H B : lane_rule H B [] [] [] []
  | rule_unknown H B w ws : locks w = None → lane_rule H B (w :: ws) [] [] (w :: ws)
  | rule_wait H B w ls ws g d r :
      locks w = Some ls → ¬ compatible (H ++ B) ls →
      lane_rule H (B ++ ls) ws g d r → lane_rule H B (w :: ws) g d (w :: r)
  | rule_drop H B w ls ws g d r :
      locks w = Some ls → compatible (H ++ B) ls →
      lane_rule H B ws g d r → lane_rule H B (w :: ws) g (w :: d) r
  | rule_grant H B w ls ws g d r :
      locks w = Some ls → compatible (H ++ B) ls →
      lane_rule (H ++ ls) B ws g d r → lane_rule H B (w :: ws) (w :: g) d r.

Lemma locks_of_cons w ws : locks_of (w :: ws) = default [] (locks w) ++ locks_of ws.
Proof. done. Qed.

Lemma locks_of_app ws vs : locks_of (ws ++ vs) = locks_of ws ++ locks_of vs.
Proof. unfold locks_of. by rewrite !fmap_app, concat_app. Qed.

Lemma locks_of_elem w ls ws : w ∈ ws → locks w = Some ls → ∀ l, l ∈ ls → l ∈ locks_of ws.
Proof.
  intros Hw Hls l Hl. apply list_elem_of_In, in_concat. exists ls.
  split; apply list_elem_of_In; [|done]. rewrite <-list_fmap_compose.
  apply list_elem_of_fmap. exists w. simpl. by rewrite Hls.
Qed.

#[global] Instance locks_of_perm : Proper ((≡ₚ) ==> (≡ₚ)) locks_of.
Proof. intros ws vs Hp. unfold locks_of. by rewrite Hp. Qed.
End LaneRule.

(** ** Consequences of the rule, by rule induction *)

Lemma dec_stable_compatible xs ys :
  ¬ compatible xs ys → ∃ y, y ∈ ys ∧ in_the_way xs y = true.
Proof.
  intros Hn. destruct (existsb (in_the_way xs) ys) eqn:E.
  - apply existsb_elem in E as (y & ? & ?). eauto.
  - exfalso. apply Hn, compatible_in_the_way. by apply existsb_false.
Qed.

Section RuleFacts.
Context {W : Type} (locks : W → option (list LaneLock)).
Notation rule := (lane_rule locks).
Notation locks_of := (locks_of locks).

Lemma rule_perm H B ws g d r : rule H B ws g d r → ws ≡ₚ g ++ d ++ r.
Proof.
  induction 1 as [| |H B w ls ws g d r _ _ _ IH|H B w ls ws g d r _ _ _ IH
    |H B w ls ws g d r _ _ _ IH]; simpl; [done|done| | |].
  - rewrite IH. rewrite !(assoc_L (++)). apply Permutation_middle.
  - rewrite IH. apply Permutation_middle.
  - by rewrite IH.
Qed.

(** Granted and dropped operations come out in admission order. *)
Lemma rule_sublist H B ws g d r :
  rule H B ws g d r → g `sublist_of` ws ∧ d `sublist_of` ws ∧ r `sublist_of` ws.
Proof.
  induction 1; repeat split; destruct_and?;
    auto using sublist_nil_l, sublist_skip, sublist_cons.
Qed.

Lemma rule_granted_known H B ws g d r :
  rule H B ws g d r → ∀ w, w ∈ g → ∃ ls, locks w = Some ls.
Proof.
  induction 1; intros u Hu; try (by apply elem_of_nil in Hu); eauto.
  apply elem_of_cons in Hu as [->|Hu]; eauto.
Qed.

Lemma rule_granted_compatible H B ws g d r :
  rule H B ws g d r → compatible (H ++ B) (locks_of g).
Proof.
  induction 1 as [H B|H B w ws Hw|H B w ls ws g d r Hw Hn _ IH|H B w ls ws g d r Hw Hc _ IH
    |H B w ls ws g d r Hw Hc _ IH]; try (intros x y _ Hy; by apply elem_of_nil in Hy); try done.
  - intros x y Hx Hy. apply IH; [|done]. set_solver.
  - rewrite locks_of_cons, Hw. simpl. intros x y Hx [Hy|Hy]%elem_of_app; [by apply Hc|].
    apply IH; [|done]. set_solver.
Qed.

(** Operations that run together never hold locks that exclude each other. *)
Lemma rule_coherent H B ws g d r :
  rule H B ws g d r → coherent H →
  (∀ w ls, w ∈ ws → locks w = Some ls → coherent ls) → coherent (H ++ locks_of g).
Proof.
  induction 1 as [H B|H B w ws Hw|H B w ls ws g d r Hw Hn _ IH|H B w ls ws g d r Hw Hc _ IH
    |H B w ls ws g d r Hw Hc _ IH]; intros HH Hws.
  - by rewrite app_nil_r.
  - by rewrite app_nil_r.
  - apply IH; [done|]. intros. eapply Hws; [|done]. set_solver.
  - apply IH; [done|]. intros. eapply Hws; [|done]. set_solver.
  - rewrite locks_of_cons, Hw, (assoc_L (++)). simpl. apply IH.
    + apply coherent_app. split; [done|]. split; [eapply Hws; [|done]; set_solver|].
      by apply compatible_app_l in Hc as [? _].
    + intros. eapply Hws; [|done]. set_solver.
Qed.

(** Nothing starts past an operation still waiting for a lock it excludes,
    nor past one whose locks are not known yet. *)
Lemma rule_no_overtaking H B ws g d r :
  rule H B ws g d r → NoDup ws →
  ∀ i j u v, i < j → ws !! i = Some u → ws !! j = Some v → u ∈ r → v ∈ g →
  ∃ lu lv, locks u = Some lu ∧ locks v = Some lv ∧ compatible lu lv.
Proof.
  induction 1 as [H B|H B w ws Hw|H B w ls ws g d r Hw Hn Hr IH|H B w ls ws g d r Hw Hc Hr IH
    |H B w ls ws g d r Hw Hc Hr IH]; intros Hnd i j u v Hij Hi Hj Hu Hv;
    try (by apply elem_of_nil in Hv); apply NoDup_cons in Hnd as [Hnw Hnd];
    destruct j as [|j]; try lia; simpl in Hj.
  - destruct i as [|i]; simpl in Hi; simplify_eq.
    + destruct (rule_granted_known _ _ _ _ _ _ Hr _ Hv) as [lv Hlv].
      exists ls, lv. split; [done|]. split; [done|]. intros x y Hx Hy.
      apply (rule_granted_compatible _ _ _ _ _ _ Hr); [set_solver|].
      eapply locks_of_elem; eauto.
    + apply elem_of_cons in Hu as [->|Hu].
      * exfalso. apply Hnw. by eapply list_elem_of_lookup_2.
      * eapply (IH Hnd i j); eauto; lia.
  - destruct i as [|i]; simpl in Hi; simplify_eq.
    + exfalso. apply Hnw. eapply elem_of_sublist; [exact Hu|].
      by apply (rule_sublist _ _ _ _ _ _ Hr).
    + eapply (IH Hnd i j); eauto; lia.
  - destruct i as [|i]; simpl in Hi; simplify_eq.
    + exfalso. apply Hnw. eapply elem_of_sublist; [exact Hu|].
      by apply (rule_sublist _ _ _ _ _ _ Hr).
    + apply elem_of_cons in Hv as [->|Hv].
      * exfalso. apply Hnw. by eapply list_elem_of_lookup_2.
      * eapply (IH Hnd i j); eauto; lia.
Qed.

(** Only what is really in the way keeps an operation waiting: a held lock,
    a lock just granted, or one wanted ahead of it; or the line stopped at
    an operation whose locks are not known. *)
Lemma rule_waiting_reason H B ws g d r :
  rule H B ws g d r → ∀ i u, ws !! i = Some u → u ∈ r → NoDup ws →
  (∃ j v, j ≤ i ∧ ws !! j = Some v ∧ locks v = None) ∨
  (∃ ls l, locks u = Some ls ∧ l ∈ ls ∧
     (in_the_way (H ++ locks_of g ++ B) l = true ∨
      ∃ j v lv, j < i ∧ ws !! j = Some v ∧ v ∈ r ∧ locks v = Some lv ∧ in_the_way lv l = true)).
Proof.
  induction 1 as [H B|H B w ws Hw|H B w ls ws g d r Hw Hn Hr IH|H B w ls ws g d r Hw Hc Hr IH
    |H B w ls ws g d r Hw Hc Hr IH]; intros i u Hi Hu Hnd; [done| | | |].
  { left. exists 0, w. split; [lia|done]. }
  all: apply NoDup_cons in Hnd as [Hnw Hnd]; destruct i as [|i]; simpl in Hi; simplify_eq.
  - right. apply dec_stable_compatible in Hn as (l & Hl & Hway).
    exists ls, l. split; [done|]. split; [done|]. left.
    rewrite in_the_way_app in Hway. rewrite !in_the_way_app.
    apply orb_true_iff in Hway as [->| ->]; by rewrite ?orb_true_r.
  - apply elem_of_cons in Hu as [->|Hu]; [exfalso; apply Hnw; by eapply list_elem_of_lookup_2|].
    destruct (IH i u Hi Hu Hnd) as [(j & v & ? & ? & ?)|(lu & l & Hlu & Hl & Hway)].
    + left. exists (S j), v. split; [lia|done].
    + right. exists lu, l. split; [done|]. split; [done|].
      destruct Hway as [Hway|(j & v & lv & ? & ? & ? & ? & ?)].
      * rewrite !in_the_way_app, !orb_true_iff in Hway. rewrite !in_the_way_app, !orb_true_iff.
        destruct Hway as [?|[?|[?|?]]]; eauto.
        right. exists 0, w, ls. split; [lia|]. split; [done|]. split; [set_solver|done].
      * right. exists (S j), v, lv. split; [lia|]. set_solver.
  - exfalso. apply Hnw. eapply elem_of_sublist; [exact Hu|].
    by apply (rule_sublist _ _ _ _ _ _ Hr).
  - destruct (IH i u Hi Hu Hnd) as [(j & v & ? & ? & ?)|(lu & l & Hlu & Hl & Hway)].
    + left. exists (S j), v. split; [lia|done].
    + right. exists lu, l. split; [done|]. split; [done|].
      destruct Hway as [Hway|(j & v & lv & ? & ? & ? & ? & ?)]; [by left|].
      right. exists (S j), v, lv. split; [lia|done].
  - exfalso. apply Hnw. eapply elem_of_sublist; [exact Hu|].
    by apply (rule_sublist _ _ _ _ _ _ Hr).
  - destruct (IH i u Hi Hu Hnd) as [(j & v & ? & ? & ?)|(lu & l & Hlu & Hl & Hway)].
    + left. exists (S j), v. split; [lia|done].
    + right. exists lu, l. split; [done|]. split; [done|].
      destruct Hway as [Hway|(j & v & lv & ? & ? & ? & ? & ?)].
      * left. rewrite locks_of_cons, Hw. simpl.
        rewrite <-!List.app_assoc in Hway. by rewrite <-!List.app_assoc.
      * right. exists (S j), v, lv. split; [lia|done].
Qed.
End RuleFacts.

(** ** [selectGrants] follows the rule *)

Section SelectGrantsFacts.
Context {T : Type} {store : LockStore T} {W S : Type}.
Variable admits : option (W → S → bool * S).
Variable locksOf : S → W → option (list LaneLock).

(** The callback may change its state, but not anyone's locks. *)
Hypothesis admits_keeps_locks :
  ∀ f w s v, admits = Some f → locksOf (f w s).2 v = locksOf s v.

Lemma free_spec (held blocked : T) H' B' ls :
  ls_holds held H' → ls_holds blocked B' →
  forallb (λ lock, negb (ls_conflicts held lock) && negb (ls_conflicts blocked lock)) ls = true
  ↔ compatible (H' ++ B') ls.
Proof.
  intros HH HB. rewrite forallb_elem, compatible_in_the_way.
  apply forall_proper. intros l.
  rewrite (ls_conflicts_spec _ _ l HH), (ls_conflicts_spec _ _ l HB), in_the_way_app.
  rewrite andb_true_iff, !negb_true_iff, orb_false_iff. done.
Qed.

Lemma select_loop_rule ws : ∀ (held blocked : T) H' B' s sel held' s',
  ls_holds held H' → ls_holds blocked B' →
  select_loop admits locksOf ws held blocked s = (sel, held', s') →
  (∀ v, locksOf s' v = locksOf s v) ∧
  ls_holds held' (H' ++ locks_of (locksOf s) (granted sel)) ∧
  ∃ r, lane_rule (locksOf s) H' B' ws (granted sel) (dropped sel) r.
Proof using admits_keeps_locks.
  induction ws as [|w ws IH]; simpl; intros held blocked H' B' s sel held' s' HH HB Hsel.
  - simplify_eq/=. split; [done|]. split; [by rewrite app_nil_r|]. eexists; constructor.
  - destruct (locksOf s w) as [ls|] eqn:Hls.
    2:{ simplify_eq/=. split; [done|]. split; [by rewrite app_nil_r|].
        eexists; by constructor. }
    pose proof (free_spec held blocked H' B' ls HH HB) as Hfree.
    destruct (forallb _ ls) eqn:Hfr; simpl in Hsel; [clear Hfr; rename Hfree into Hfr|].
    2:{ destruct (IH _ _ H' (B' ++ ls) _ _ _ _ HH (ls_take_spec _ _ _ HB) Hsel)
        as (? & ? & r & ?).
      split; [done|]. split; [done|]. eexists. eapply rule_wait; [done| |done].
      rewrite <-Hfree. congruence. }
    apply proj1 in Hfr. specialize (Hfr eq_refl).
    destruct (match admits with Some f => f w s | None => (true, s) end) as [ok s1] eqn:Hadm.
    assert (∀ v, locksOf s1 v = locksOf s v) as Hsame.
    { intros v. destruct admits as [f|] eqn:Ea; simplify_eq; [|done].
      replace s1 with (f w s).2 by (by rewrite Hadm). by apply admits_keeps_locks. }
    assert (∀ H B g d r, lane_rule (locksOf s1) H B ws g d r → lane_rule (locksOf s) H B ws g d r)
      as Hrule.
    { clear -Hsame. induction 1; econstructor; by rewrite <-?Hsame. }
    assert (∀ g, locks_of (locksOf s1) g = locks_of (locksOf s) g) as Hlocks.
    { intros g. unfold locks_of. do 2 f_equal. apply list_fmap_ext. auto. }
    destruct ok; simpl in Hsel;
      destruct (select_loop _ _ _ _ _ _) as [[sel1 held1] s2] eqn:Hrest; simplify_eq/=.
    + destruct (IH _ _ (H' ++ ls) B' _ _ _ _ (ls_take_spec _ _ _ HH) HB Hrest)
        as (? & Hh & r & ?).
      split; [by intros v; rewrite <-Hsame|]. split.
      * rewrite locks_of_cons, Hls, (assoc_L (++)). simpl. by rewrite Hlocks in Hh.
      * exists r. eapply rule_grant; eauto.
    + destruct (IH _ _ H' B' _ _ _ _ HH HB Hrest) as (? & Hh & r & ?).
      split; [by intros v; rewrite <-Hsame|]. split; [by rewrite Hlocks in Hh|].
      exists r. eapply rule_drop; eauto.
Qed.
End SelectGrantsFacts.

(** ** What the selection guarantees *)

Section Guarantees.
Context {W S : Type}.
Variable admits : option (W → S → bool * S).
Variable locksOf : S → W → option (list LaneLock).
Hypothesis admits_keeps_locks :
  ∀ f w s v, admits = Some f → locksOf (f w s).2 v = locksOf s v.

(** Where the walk starts: [H] is held, [B] is already spoken for. *)
Variables (held : LockTable) (blocked : option LockTable) (H B : list LaneLock).
Hypothesis held_holds : table_holds held H.
Hypothesis blocked_holds : table_holds (default ∅ blocked) B.

(** Operations granted together never exclude one another or anything
    already held, so the table keeps standing for locks that can be held
    side by side; they come out in admission order, each with its locks
    known. *)
Theorem selectGrants_safe (waiting : list W) (s : S) sel held' s' :
  coherent H →
  (∀ w ls, w ∈ waiting → locksOf s w = Some ls → coherent ls) →
  selectGrants admits locksOf held waiting blocked s = (sel, held', s') →
  coherent (H ++ locks_of (locksOf s) (granted sel)) ∧
  table_holds held' (H ++ locks_of (locksOf s) (granted sel)) ∧
  granted sel `sublist_of` waiting ∧ dropped sel `sublist_of` waiting ∧
  (∀ w, w ∈ granted sel → is_Some (locksOf s w)).
Proof using admits_keeps_locks held_holds blocked_holds.
  intros HH Hws Hsel.
  destruct (select_loop_rule (store := LockTable_store) admits locksOf admits_keeps_locks
    _ _ _ _ _ _ _ _ _ held_holds blocked_holds Hsel) as (_ & Hh & r & Hr).
  split; [by eapply rule_coherent|]. split; [done|].
  destruct (rule_sublist _ _ _ _ _ _ _ Hr) as (? & ? & _). split; [done|]. split; [done|].
  intros w Hw. destruct (rule_granted_known _ _ _ _ _ _ _ Hr w Hw) as [? ->]. eauto.
Qed.

(** C4: The line is fair and work-conserving. Nothing starts past an
    operation ahead of it that still waits and whose locks it excludes (or
    that still waits with its locks unknown); and an operation left waiting
    waits for a reason: a lock held or just granted, one already spoken for,
    one wanted by an operation still waiting ahead of it, or an operation at
    or before it whose locks aren't known. *)
Theorem selectGrants_fair (waiting : list W) (s : S) sel held' s' :
  NoDup waiting →
  selectGrants admits locksOf held waiting blocked s = (sel, held', s') →
  ∀ i u, waiting !! i = Some u → u ∉ granted sel → u ∉ dropped sel →
  (∀ j v, i < j → waiting !! j = Some v → v ∈ granted sel →
     ∃ lu lv, locksOf s u = Some lu ∧ locksOf s v = Some lv ∧ compatible lu lv) ∧
  ((∃ j v, j ≤ i ∧ waiting !! j = Some v ∧ locksOf s v = None) ∨
   (∃ ls l, locksOf s u = Some ls ∧ l ∈ ls ∧
      (in_the_way (H ++ locks_of (locksOf s) (granted sel) ++ B) l = true ∨
       ∃ j v lv, j < i ∧ waiting !! j = Some v ∧ v ∉ granted sel ∧ v ∉ dropped sel ∧
         locksOf s v = Some lv ∧ in_the_way lv l = true))).
Proof using admits_keeps_locks held_holds blocked_holds.
  intros Hnd Hsel i u Hi Hug Hud.
  destruct (select_loop_rule (store := LockTable_store) admits locksOf admits_keeps_locks
    _ _ _ _ _ _ _ _ _ held_holds blocked_holds Hsel) as (_ & _ & r & Hr).
  pose proof (rule_perm _ _ _ _ _ _ _ Hr) as Hp.
  assert (u ∈ r) as Hur.
  { assert (u ∈ waiting) as Hu by (by eapply list_elem_of_lookup_2).
    rewrite Hp, !elem_of_app in Hu. naive_solver. }
  split; [intros j v Hij Hj Hv; by eapply (rule_no_overtaking _ _ _ _ _ _ _ Hr Hnd i j u v)|].
  destruct (rule_waiting_reason _ _ _ _ _ _ _ Hr i u Hi Hur Hnd)
    as [?|(ls & l & ? & ? & [?|(j & v & lv & ? & ? & Hv & ? & ?)])]; 
    [by left|right; exists ls, l; auto|].
  right. exists ls, l. split; [done|]. split; [done|]. right. exists j, v, lv.
  rewrite Hp in Hnd. apply NoDup_app in Hnd as (_ & Hgr & Hnd).
  apply NoDup_app in Hnd as (_ & Hdr & _). repeat split; try done.
  - intros Hg. apply (Hgr _ Hg). set_solver.
  - intros Hd. by apply (Hdr _ Hd).
Qed.
End Guarantees.

(** A reader runs, a writer waits behind it, and a later reader waits behind
    the writer while work on another resource starts. *)
Definition example_line : list (string * option (list LaneLock)) :=
  [("writer", Some [exclusive "a"]); ("late reader", Some [shared "a"]);
   ("other", Some [exclusive "b"]); ("lookup", None); ("after", Some [shared "c"])].

Definition example_locks (_ : unit) (w : string * option (list LaneLock)) := w.2.

Example selectGrants_safe_witness :
  coherent ([shared "a"] ++ locks_of (example_locks tt) [("other", Some [exclusive "b"])]).
Proof.
  refine (proj1 (selectGrants_safe None example_locks _ (take_locks ∅ [shared "a"]) None
    [shared "a"] [] _ _ example_line tt
    (MkSelection [("other", Some [exclusive "b"])] []) _ tt _ _ eq_refl)).
  - intros f w s v Hf. discriminate Hf.
  - exact (take_locks_spec ∅ [] [shared "a"] (λ k, lookup_empty k)).
  - exact (λ k, lookup_empty k).
  - repeat constructor.
  - intros w ls Hw Hls. repeat (apply elem_of_cons in Hw as [->|Hw]; [|]);
      try (by apply elem_of_nil in Hw); simplify_eq/=; repeat constructor.
Defined.

Example selectGrants_fair_witness :
  in_the_way [exclusive "a"] (shared "a") = true ∧
  ((∃ j v, j ≤ 1 ∧ example_line !! j = Some v ∧ example_locks tt v = None) ∨
   (∃ ls l, example_locks tt ("late reader", Some [shared "a"]) = Some ls ∧ l ∈ ls ∧
      (in_the_way ([shared "a"] ++
         locks_of (example_locks tt) [("other", Some [exclusive "b"])] ++ []) l = true ∨
       ∃ j v lv, j < 1 ∧ example_line !! j = Some v ∧
         v ∉ [("other", Some [exclusive "b"])] ∧ v ∉ [] ∧
         example_locks tt v = Some lv ∧ in_the_way lv l = true))).
Proof.
  split; [reflexivity|].
  refine (proj2 (selectGrants_fair None example_locks _ (take_locks ∅ [shared "a"]) None
    [shared "a"] [] _ _ example_line tt
    (MkSelection [("other", Some [exclusive "b"])] []) _ tt _ eq_refl 1
    ("late reader", Some [shared "a"]) eq_refl _ _)).
  - intros f w s v Hf. discriminate Hf.
  - exact (take_locks_spec ∅ [] [shared "a"] (λ k, lookup_empty k)).
  - exact (λ k, lookup_empty k).
  - apply (bool_decide_unpack _). vm_compute. exact I.
  - apply (bool_decide_unpack _). vm_compute. exact I.
  - apply (bool_decide_unpack _). vm_compute. exact I.
Defined.

(** ** [explainWait] names exactly what is in the way *)

Lemma collect_reasons_elem {Id} (locks : list LaneLock) b (occ : LaneOccupant Id) r :
  r ∈ collect_reasons locks b occ ↔
  ∃ lock, lock ∈ locks ∧ in_the_way (o_locks occ) lock = true ∧
    r = MkReason (o_id occ) (key lock) b.
Proof.
  unfold collect_reasons. rewrite list_elem_of_In, in_flat_map.
  assert (∀ l, conflicts (take_locks ∅ (o_locks occ)) l = in_the_way (o_locks occ) l) as Hc.
  { intros l. apply conflicts_spec. apply (take_locks_spec ∅ [] _ (λ k, lookup_empty k)). }
  setoid_rewrite Hc. split.
  - intros (l & Hl & Hr). apply list_elem_of_In in Hl. exists l.
    destruct (in_the_way _ l); [|done]. destruct Hr as [<-|[]]. done.
  - intros (l & Hl & Hw & ->). exists l. rewrite Hw. split; [by apply list_elem_of_In|by left].
Qed.

(** [explainWait] reports exactly what is in the way: each reason it gives
    names an operation that holds, or wants ahead in line, a lock excluding
    one of the operation's own on the key it names, and every such pair is
    reported. *)
Theorem explainWait_exact {Id} (locks : list LaneLock) (holders ahead : list (LaneOccupant Id))
    (reason : WaitReason Id) :
  reason ∈ explainWait locks holders ahead ↔
  ∃ occ lock, occ ∈ (if r_holds reason then holders else ahead) ∧ lock ∈ locks ∧
    in_the_way (o_locks occ) lock = true ∧ r_id reason = o_id occ ∧ r_key reason = key lock.
Proof.
  assert (∀ b occs, reason ∈ flat_map (collect_reasons locks b) occs ↔
    r_holds reason = b ∧ ∃ occ lock, occ ∈ occs ∧ lock ∈ locks ∧
      in_the_way (o_locks occ) lock = true ∧ r_id reason = o_id occ ∧ r_key reason = key lock)
    as Hside.
  { intros b occs. rewrite list_elem_of_In, in_flat_map. split.
    - intros (occ & Hocc & Hr). apply list_elem_of_In, collect_reasons_elem in Hr
        as (l & ? & ? & ->). simpl. split; [done|]. exists occ, l.
      split; [by apply list_elem_of_In|done].
    - intros (Hb & occ & l & Hocc & ? & ? & Hid & Hk). exists occ.
      split; [by apply list_elem_of_In|]. apply list_elem_of_In, collect_reasons_elem.
      exists l. destruct reason; simpl in *; subst; done. }
  unfold explainWait. rewrite elem_of_app, !Hside. destruct (r_holds reason); naive_solver.
Qed.
