(* ===== verification/Lanes.v ===== *)
(** * Operation lanes: the in-memory scheduler

    Models [packages/operations/src/lanes.ts] ([OperationLanes]), which every
    Relay change goes through.

    A [Waiter] is a mutable object the queues, the set of active operations
    and the caller's ticket share, so the model keeps the waiters in a heap
    and the queues hold their addresses. Each public method runs to completion
    before another (JavaScript runs one job at a time), so it is a function on
    the state, and a promise or a fiber that resumes later is a later event
    ([lane_event]). The callbacks of the lanes' owner, [refuse] and an
    operation's [precondition], read the world outside: every event carries a
    [World] saying what they answer at that moment. *)
From S2P Require Import Prelude Locks Grants.

(** ** Data *)

Inductive RejectReason := Busy | Cancelled | Paused | Refused | Superseded.

Record LaneRejectedError := MkRejected {
  reason : RejectReason;
  message : string;
  blockedBy : option (list string);
}.

Inductive WaiterState := Done | Granted | Running | Waiting.

#[global] Instance WaiterState_eq_dec : EqDecision WaiterState.
Proof. solve_decision. Defined.

(** How a waiter's [granted] deferred was completed: [Exit.void],
    [Exit.fail] or [Exit.die]. *)
Inductive Completion := Succeeded | Failed (e : LaneRejectedError) | Died.

(** [completions] keeps every completion asked of [granted], so that completing it at most
    once is a theorem; [precondition] is the identity of the callback. *)
Record Waiter := MkWaiter {
  label : string;
  nested : bool;
  continuation : bool;
  carriesOnWhilePaused : bool;
  locks : option (list LaneLock);
  precondition : option nat;
  completions : list Completion;
  refusal : option LaneRejectedError;
  refused : option string;
  state : WaiterState;
}.

(** What the owner's callbacks answer now. *)
Record World := MkWorld {
  refuse : option (string → list LaneLock → option string);
  holds_now : nat → bool;
}.

Record LanesOptions := MkOptions {
  maxWaiting : Z;
  busyMessage : string;
  pausedMessage : string → string;
}.

Definition DEFAULT_MAX_WAITING : Z := 512.

(** The constructor: what its options leave out has a default. *)
Definition lanes_options (max : option Z) (busy : option string)
    (paused : option (string → string)) : LanesOptions :=
  MkOptions (default DEFAULT_MAX_WAITING max)
    (default "Too many operations are waiting; try again shortly" busy)
    (default (λ label, label +:+ " didn't run: operations are paused") paused).

Record Lanes := MkLanes {
  waiting : list nat;
  nested_queue : list nat;
  active : list nat;
  exclusiveStarts : gmap string Z;
  paused : bool;
  held : LockTable;
  waiters : gmap nat Waiter;
  next : nat;
}.

Definition empty_lanes : Lanes := MkLanes [] [] [] ∅ false ∅ ∅ 0.

(** ** Field updates *)

Definition set_waiting q L := MkLanes q (nested_queue L) (active L) (exclusiveStarts L)
  (paused L) (held L) (waiters L) (next L).
Definition set_nested q L := MkLanes (waiting L) q (active L) (exclusiveStarts L)
  (paused L) (held L) (waiters L) (next L).
Definition set_active a L := MkLanes (waiting L) (nested_queue L) a (exclusiveStarts L)
  (paused L) (held L) (waiters L) (next L).
Definition set_starts x L := MkLanes (waiting L) (nested_queue L) (active L) x
  (paused L) (held L) (waiters L) (next L).
Definition set_paused p L := MkLanes (waiting L) (nested_queue L) (active L) (exclusiveStarts L)
  p (held L) (waiters L) (next L).
Definition set_held h L := MkLanes (waiting L) (nested_queue L) (active L) (exclusiveStarts L)
  (paused L) h (waiters L) (next L).
Definition set_waiters m L := MkLanes (waiting L) (nested_queue L) (active L) (exclusiveStarts L)
  (paused L) (held L) m (next L).

Definition set_locks ls w := MkWaiter (label w) (nested w) (continuation w)
  (carriesOnWhilePaused w) ls (precondition w) (completions w) (refusal w) (refused w) (state w).
Definition set_refusal e w := MkWaiter (label w) (nested w) (continuation w)
  (carriesOnWhilePaused w) (locks w) (precondition w) (completions w) (Some e) (refused w) (state w).
Definition set_refused r w := MkWaiter (label w) (nested w) (continuation w)
  (carriesOnWhilePaused w) (locks w) (precondition w) (completions w) (refusal w) (Some r) (state w).
Definition set_state s w := MkWaiter (label w) (nested w) (continuation w)
  (carriesOnWhilePaused w) (locks w) (precondition w) (completions w) (refusal w) (refused w) s.
(** [Deferred.doneUnsafe] *)
Definition complete c w := MkWaiter (label w) (nested w) (continuation w)
  (carriesOnWhilePaused w) (locks w) (precondition w) (completions w ++ [c]) (refusal w) (refused w)
  (state w).

Definition update_waiter (f : Waiter → Waiter) (id : nat) (L : Lanes) : Lanes :=
  set_waiters (alter f id (waiters L)) L.

(** [queue.splice(queue.indexOf(waiter), 1)] when it is there. *)
Fixpoint splice_out (id : nat) (queue : list nat) : list nat :=
  match queue with
  | [] => []
  | x :: rest => if decide (x = id) then rest else x :: splice_out id rest
  end.

(** [Set.add] *)
Definition set_add (id : nat) (s : list nat) : list nat :=
  if decide (id ∈ s) then s else s ++ [id].

(** ** The private methods *)

Section Methods.
Variable options : LanesOptions.

Definition pausedError (label : string) : LaneRejectedError :=
  MkRejected Paused (pausedMessage options label) None.

Definition supersededError (label : string) : LaneRejectedError :=
  MkRejected Superseded (label +:+ " no longer applies") None.

Definition reject (id : nat) (e : LaneRejectedError) (L : Lanes) : Lanes :=
  update_waiter (λ w, complete (Failed e) (set_state Done w)) id L.

Definition remove (id : nat) (L : Lanes) : Lanes :=
  match waiters L !! id with
  | None => L
  | Some w =>
      if nested w then set_nested (splice_out id (nested_queue L)) L
      else set_waiting (splice_out id (waiting L)) L
  end.

Definition start (id : nat) (L : Lanes) : Lanes :=
  update_waiter (complete Succeeded) id
    (set_active (set_add id (active L)) (update_waiter (set_state Granted) id L)).

Definition waiter_locks (heap : gmap nat Waiter) (id : nat) : option (list LaneLock) :=
  heap !! id ≫= locks.

Definition precondition_holds (world : World) (w : Waiter) : bool :=
  match precondition w with None => true | Some p => holds_now world p end.

Definition ask_refuse (world : World) (label : string) (ls : list LaneLock) : option string :=
  match refuse world with None => None | Some f => truthy (f label ls) end.

(** The first loop of [#grant]: nested operations, which wait only for
    holders. [kept] are those before the index, [todo] those from it on. *)
Fixpoint grant_nested (world : World) (kept todo : list nat) (blocked : LockTable) (L : Lanes)
    : Lanes * LockTable :=
  match todo with
  | [] => (L, blocked)
  | id :: rest =>
      match waiters L !! id with
      | None => (L, blocked)
      | Some w =>
          match locks w with
          | None => grant_nested world (kept ++ [id]) rest blocked L
          | Some ls =>
              if existsb (conflicts (held L)) ls
              then grant_nested world (kept ++ [id]) rest (take_locks blocked ls) L
              else
                let L := set_nested (kept ++ rest) L in
                match (if continuation w then ask_refuse world (label w) ls else None) with
                | Some message =>
                    grant_nested world kept rest blocked
                      (reject id (MkRejected Refused message None) L)
                | None =>
                    if negb (precondition_holds world w)
                    then grant_nested world kept rest blocked
                           (reject id (supersededError (label w)) L)
                    else grant_nested world kept rest blocked
                           (start id (set_held (take_locks (held L) ls) L))
                end
          end
      end
  end.

(** The [admit] callback [#grant] gives [selectGrants]. *)
Definition admit_callback (world : World) (id : nat) (heap : gmap nat Waiter)
    : bool * gmap nat Waiter :=
  match heap !! id with
  | None => (true, heap)
  | Some w =>
      match ask_refuse world (label w) (default [] (locks w)) with
      | Some message => (false, alter (set_refused message) id heap)
      | None => (precondition_holds world w, heap)
      end
  end.

(** What a dropped operation is told. *)
Definition dropped_error (w : Waiter) : LaneRejectedError :=
  match refused w with
  | None => supersededError (label w)
  | Some message => MkRejected Refused message None
  end.

Definition reject_dropped (L : Lanes) (id : nat) : Lanes :=
  match waiters L !! id with
  | None => L
  | Some w => reject id (dropped_error w) L
  end.

Definition grant (world : World) (L : Lanes) : Lanes :=
  let '(L, blocked) := grant_nested world [] (nested_queue L) ∅ L in
  let '(sel, held', heap) :=
    selectGrants (Some (admit_callback world)) waiter_locks (held L) (waiting L)
      (Some blocked) (waiters L) in
  let L := set_waiters heap (set_held held' L) in
  let L := fold_left (λ L id, remove id L) (granted sel ++ dropped sel) L in
  let L := fold_left reject_dropped (dropped sel) L in
  fold_left (λ L id, start id L) (granted sel) L.

Definition release (world : World) (id : nat) (L : Lanes) : Lanes :=
  match waiters L !! id with
  | None => L
  | Some w =>
      if decide (state w = Done) then L
      else
        let L := update_waiter (set_state Done) id L in
        let L := set_active (splice_out id (active L)) L in
        let L := set_held (release_locks (held L) (default [] (locks w))) L in
        grant world L
  end.

(** [#cancel], which says whether it withdrew one that hadn't started. *)
Definition cancel (world : World) (id : nat) (L : Lanes) : bool * Lanes :=
  match waiters L !! id with
  | None => (false, L)
  | Some w =>
      match state w with
      | Waiting =>
          (true, grant world
             (reject id (MkRejected Cancelled
                (label w +:+ " was withdrawn before it started") None) (remove id L)))
      | Granted => (true, release world id L)
      | _ => (false, L)
      end
  end.

Definition occupant (heap : gmap nat Waiter) (id : nat) : LaneOccupant string :=
  match heap !! id with
  | Some w => MkOccupant (label w) (default [] (locks w))
  | None => MkOccupant "" []
  end.

Fixpoint index_of (id : nat) (queue : list nat) : nat :=
  match queue with
  | [] => 0
  | x :: rest => if decide (x = id) then 0 else S (index_of id rest)
  end.

(** [queue.slice(0, Math.max(queue.indexOf(waiter), 0))] *)
Definition ahead_of (id : nat) (queue : list nat) : list nat :=
  if decide (id ∈ queue) then take (index_of id queue) queue else [].

Definition inTheWay (id : nat) (queue : list nat) (L : Lanes) : list (WaitReason string) :=
  explainWait (default [] (waiter_locks (waiters L) id))
    (occupant (waiters L) <$> active L)
    (occupant (waiters L) <$> ahead_of id queue).

(** [...new Set(xs)]: first occurrences, in order. *)
Definition distinct (xs : list string) : list string :=
  fold_left (λ seen x, if decide (x ∈ seen) then seen else seen ++ [x]) xs [].

Definition refuseBusy (id : nat) (in_way : list (WaitReason string)) (L : Lanes) : Lanes :=
  let blocked := distinct (r_id <$> in_way) in
  let name := match waiters L !! id with Some w => label w | None => "" end in
  reject id (MkRejected Busy (name +:+ " is waiting on " +:+ String.concat ", " blocked)
               (Some blocked)) (remove id L).

Definition is_continuation (heap : gmap nat Waiter) (id : nat) : bool :=
  match heap !! id with Some w => continuation w | None => false end.

Definition waitingOnTheirOwn (L : Lanes) : Z :=
  Z.of_nat (length (waiting L)) +
  Z.of_nat (length (List.filter (is_continuation (waiters L)) (nested_queue L))).

(** ** Admission *)

(** The locks, or a promise of them when a target must be looked up first. *)
Inductive LocksInput := Known (ls : list LaneLock) | Lookup.

Inductive WhenBusy :=
  | Refuse
  | Wait
  | Decide (choose : list (WaitReason string) → bool).

Record LaneAdmission := MkAdmission {
  a_label : string;
  a_locks : LocksInput;
  a_precondition : option nat;
  a_continuation : bool;
  a_whenBusy : option WhenBusy;
  a_carriesOnWhilePaused : bool;
}.

Record LaneTicket := MkTicket { t_waiter : nat; grantedAtOnce : bool }.

Definition new_waiter (admission : LaneAdmission) (inside : bool) : Waiter :=
  let cont := negb inside && a_continuation admission in
  MkWaiter (a_label admission) (inside || cont) cont (a_carriesOnWhilePaused admission)
    None (a_precondition admission) [] None None Waiting.

(** Whether [whenBusy] refuses the operation, given what is in its way. *)
Definition refuses_busy (choice : WhenBusy) (in_way : list (WaitReason string)) : bool :=
  match choice with
  | Refuse => true
  | Wait => false
  | Decide choose => choose in_way
  end.

Definition has_state (s : WaiterState) (L : Lanes) (id : nat) : bool :=
  match waiters L !! id with Some w => bool_decide (state w = s) | None => false end.

(** The waiter joins its queue with its locks, if it knows them. *)
Definition join_queue (admission : LaneAdmission) (id : nat) (w : Waiter) (L : Lanes) : Lanes :=
  let L := if nested w then set_nested (nested_queue L ++ [id]) L
           else set_waiting (waiting L ++ [id]) L in
  match a_locks admission with
  | Known ls => update_waiter (set_locks (Some (normalizeLocks ls))) id L
  | Lookup => L
  end.

Definition admit_waiter (world : World) (admission : LaneAdmission) (inside : bool) (L : Lanes)
    : LaneTicket * Lanes :=
  let id := next L in
  let w := new_waiter admission inside in
  let L := MkLanes (waiting L) (nested_queue L) (active L) (exclusiveStarts L) (paused L)
             (held L) (<[id := w]> (waiters L)) (S id) in
  let L :=
    if negb inside && paused L && negb (carriesOnWhilePaused w)
    then reject id (pausedError (label w)) L
    else if negb inside && bool_decide (waitingOnTheirOwn L >= maxWaiting options)%Z
    then reject id (MkRejected Busy (busyMessage options) None) L
    else
      let L := grant world (join_queue admission id w L) in
      match a_whenBusy admission with
      | Some choice =>
          if has_state Waiting L id then
            let in_way := inTheWay id (if nested w then nested_queue L else waiting L) L in
            if refuses_busy choice in_way then refuseBusy id in_way L else L
          else L
      | None => L
      end in
  (MkTicket id (has_state Granted L id), L).

(** A looked-up plan arrives, or its lookup fails. *)
Definition lookup_settled (world : World) (id : nat) (result : option (list LaneLock))
    (L : Lanes) : Lanes :=
  if has_state Waiting L id then
    match result with
    | Some ls => grant world (update_waiter (set_locks (Some (normalizeLocks ls))) id L)
    | None =>
        grant world (update_waiter (λ w, complete Died (set_state Done w)) id (remove id L))
    end
  else L.

(** ** Pausing *)

Definition exempt_from_pause (w : Waiter) : bool :=
  (nested w && negb (continuation w)) || carriesOnWhilePaused w
  || negb (bool_decide (state w = Granted)).

Definition carries_on (heap : gmap nat Waiter) (id : nat) : bool :=
  match heap !! id with Some w => carriesOnWhilePaused w | None => false end.

(** Withdraws a waiting operation as the Relay pauses. *)
Definition withdraw_paused (L : Lanes) (id : nat) : Lanes :=
  match waiters L !! id with
  | None => L
  | Some w =>
      update_waiter (λ w', complete (Failed (pausedError (label w))) (set_state Done w')) id
        (remove id L)
  end.

(** The loop over [#active]. Releasing an operation takes it out of the set
    and may add others at its end, which the iteration then visits too: the
    next one is the first not [visited]. *)
Fixpoint pause_active (world : World) (fuel : nat) (visited : list nat) (L : Lanes) : Lanes :=
  match fuel with
  | 0 => L
  | S fuel =>
      match List.find (λ id, negb (bool_decide (id ∈ visited))) (active L) with
      | None => L
      | Some id =>
          match waiters L !! id with
          | None => pause_active world fuel (id :: visited) L
          | Some w =>
              if exempt_from_pause w then pause_active world fuel (id :: visited) L
              else
                pause_active world fuel (id :: visited)
                  (release world id (update_waiter (set_refusal (pausedError (label w))) id L))
          end
      end
  end.

Definition setPaused (world : World) (p : bool) (L : Lanes) : Lanes :=
  let L := set_paused p L in
  if negb p then L
  else
    let withdrawn := List.filter (λ id, negb (carries_on (waiters L) id))
      (waiting L ++ List.filter (is_continuation (waiters L)) (nested_queue L)) in
    let L := fold_left withdraw_paused withdrawn L in
    grant world (pause_active world (S (next L)) [] L).

(** ** Running *)

Definition exclusiveGeneration (k : string) (L : Lanes) : Z := default 0%Z (exclusiveStarts L !! k).

(** Counts the exclusive locks of an operation that starts. *)
Definition count_starts (starts : gmap string Z) (ls : list LaneLock) : gmap string Z :=
  fold_left (λ starts lock,
    match mode lock with
    | Exclusive => <[key lock := (default 0 (starts !! key lock) + 1)%Z]> starts
    | Shared => starts
    end) ls starts.

(** [#run] once its wait succeeded: the error it fails with, or [None] when
    the operation starts. *)
Definition run_begins (id : nat) (L : Lanes) : option LaneRejectedError * Lanes :=
  match waiters L !! id with
  | None => (None, L)
  | Some w =>
      if decide (state w = Granted) then
        let L := update_waiter (set_state Running) id L in
        (None, set_starts (count_starts (exclusiveStarts L) (default [] (locks w))) L)
      else
        (Some (default (MkRejected Cancelled (label w +:+ " was already run or withdrawn") None)
                 (refusal w)), L)
  end.

(** What a caller that awaits the grant sees: the first completion. *)
Definition await_grant (id : nat) (L : Lanes) : option Completion :=
  match waiters L !! id with Some w => head (completions w) | None => None end.

(** ** Diagnostics *)

Record WaitingEntry := MkEntry {
  e_label : string;
  e_locks : option (list LaneLock);
  waitingOn : list (WaitReason string);
}.

Definition pending (L : Lanes) : nat * nat :=
  (length (active L), length (waiting L) + length (nested_queue L)).

Definition describe_waiting (L : Lanes) (queue : list nat) (index id : nat) : WaitingEntry :=
  let o := occupant (waiters L) id in
  let ls := waiter_locks (waiters L) id in
  MkEntry (o_id o) ls
    match ls with
    | None => []
    | Some ls =>
        explainWait ls (occupant (waiters L) <$> active L)
          (occupant (waiters L) <$> take index queue)
    end.

Definition describe (L : Lanes) : list (string * list LaneLock) * list WaitingEntry :=
  let queue := nested_queue L ++ waiting L in
  ((λ id, let o := occupant (waiters L) id in (o_id o, o_locks o)) <$> active L,
   imap (describe_waiting L queue) queue).

(** ** Events *)

Inductive LaneEvent :=
  | EvAdmit (admission : LaneAdmission) (inside : bool)
  | EvLookup (id : nat) (result : option (list LaneLock))
  | EvBegin (id : nat)
  | EvFinish (id : nat)
  | EvCancel (id : nat)
  | EvSetPaused (p : bool).

(** What an event does, or [None] when it cannot happen: a lookup settles
    once, a run begins only after its wait succeeded, and only a running
    operation finishes. *)
Definition lane_event (world : World) (ev : LaneEvent) (L : Lanes) : option Lanes :=
  match ev with
  | EvAdmit admission inside => Some (admit_waiter world admission inside L).2
  | EvLookup id result =>
      match waiters L !! id with
      | Some w =>
          match state w, locks w with
          | Waiting, Some _ => None
          | _, _ => Some (lookup_settled world id result L)
          end
      | None => None
      end
  | EvBegin id =>
      match await_grant id L with
      | Some Succeeded => Some (run_begins id L).2
      | _ => None
      end
  | EvFinish id => if has_state Running L id then Some (release world id L) else None
  | EvCancel id => Some (cancel world id L).2
  | EvSetPaused p => Some (setPaused world p L)
  end.

(** The states a run of the lanes reaches, whatever the owner's callbacks
    answer along the way. *)
Inductive reachable : Lanes → Prop :=
  | reachable_empty : reachable empty_lanes
  | reachable_event L world ev L' :
      reachable L → lane_event world ev L = Some L' → reachable L'.
End Methods.

(** ** An example run *)

Definition quiet_world : World := MkWorld None (λ _, true).
Definition simple (l : string) (ls : list LaneLock) : LaneAdmission :=
  MkAdmission l (Known ls) None false None false.

Fixpoint run_events (options : LanesOptions) (evs : list (World * LaneEvent)) (L : Lanes)
    : option Lanes :=
  match evs with
  | [] => Some L
  | (world, ev) :: rest =>
      match lane_event options world ev L with
      | Some L' => run_events options rest L'
      | None => None
      end
  end.

Definition test_options : LanesOptions := lanes_options None None None.

(** The order the package's own tests expect: a late reader waits for the
    writer ahead of it. *)
Example late_reader_waits :
  (λ L, (active L, waiting L)) <$>
    run_events test_options
      [(quiet_world, EvAdmit (simple "reader" [shared "a"]) false);
       (quiet_world, EvAdmit (simple "writer" [exclusive "a"]) false);
       (quiet_world, EvAdmit (simple "late-reader" [shared "a"]) false);
       (quiet_world, EvBegin 0); (quiet_world, EvFinish 0)] empty_lanes
  = Some ([1], [2]).
Proof. vm_compute. reflexivity. Qed.
