(* ===== verification/LanesInv.v ===== *)
(** * Operation lanes: the invariant

    The well-formedness of [Lanes.Lanes] ([inv]) and its preservation by the
    private methods: which waiters sit in which queue, what the lock table
    stands for, and how often a waiter is settled. *)
From S2P Require Import Prelude Locks Grants Lanes.

(** ** Folds over the heap and the queues *)

Lemma fold_alter_lookup (f : Waiter → Waiter) (ids : list nat) (m : gmap nat Waiter) i :
  NoDup ids →
  fold_left (λ m id, alter f id m) ids m !! i =
  if decide (i ∈ ids) then f <$> m !! i else m !! i.
Proof.
  revert m. induction ids as [|id ids IH]; intros m Hnd; simpl; [done|].
  apply NoDup_cons in Hnd as [Hid Hnd]. rewrite IH by done.
  destruct (decide (i = id)) as [->|Hne].
  - rewrite decide_False by done. rewrite decide_True by set_solver. by rewrite lookup_alter_eq.
  - rewrite lookup_alter_ne by done.
    destruct (decide (i ∈ ids)); [rewrite decide_True by set_solver|rewrite decide_False by set_solver];
      done.
Qed.

Lemma splice_out_elem id q x : NoDup q → x ∈ splice_out id q ↔ x ∈ q ∧ x ≠ id.
Proof.
  induction q as [|y q IH]; simpl; [set_solver|]. intros [Hy Hnd]%NoDup_cons.
  case_decide; subst; [set_solver|]. rewrite !elem_of_cons, IH by done. naive_solver.
Qed.

Lemma splice_out_sublist id q : splice_out id q `sublist_of` q.
Proof.
  induction q as [|y q IH]; simpl; [done|].
  case_decide; [by apply sublist_cons|by apply sublist_skip].
Qed.

Lemma splice_out_NoDup id q : NoDup q → NoDup (splice_out id q).
Proof. intros Hnd. eapply sublist_NoDup; [exact Hnd|]. apply splice_out_sublist. Qed.

Lemma splice_out_perm id q : id ∈ q → id :: splice_out id q ≡ₚ q.
Proof.
  induction q as [|y q IH]; simpl; [by intros ?%elem_of_nil|].
  intros [->|Hid]%elem_of_cons; [by rewrite decide_True|].
  case_decide; subst; [done|]. rewrite Permutation_swap. by rewrite IH.
Qed.

Lemma splice_out_mid id kept rest :
  id ∉ kept → splice_out id (kept ++ id :: rest) = kept ++ rest.
Proof.
  induction kept as [|x kept IH]; simpl; [by rewrite decide_True|].
  intros Hid. rewrite decide_False by set_solver. by rewrite IH by set_solver.
Qed.

Lemma splice_out_id id q : id ∉ q → splice_out id q = q.
Proof.
  induction q as [|x q IH]; simpl; [done|]. intros Hid.
  rewrite decide_False by set_solver. by rewrite IH by set_solver.
Qed.

Lemma fold_splice_out ids q :
  NoDup q →
  NoDup (fold_left (λ q id, splice_out id q) ids q) ∧
  fold_left (λ q id, splice_out id q) ids q `sublist_of` q ∧
  ∀ x, x ∈ fold_left (λ q id, splice_out id q) ids q ↔ x ∈ q ∧ x ∉ ids.
Proof.
  revert q. induction ids as [|id ids IH]; intros q Hnd; simpl.
  - split; [done|]. split; [done|]. set_solver.
  - destruct (IH (splice_out id q) (splice_out_NoDup _ _ Hnd)) as (? & ? & Hx).
    split; [done|]. split; [by etrans; [|apply splice_out_sublist]|].
    intros x. rewrite Hx, splice_out_elem by done. set_solver.
Qed.

Definition started (w : Waiter) : Waiter := complete Succeeded (set_state Granted w).
Definition rejected (e : LaneRejectedError) (w : Waiter) : Waiter :=
  complete (Failed e) (set_state Done w).

Lemma alter_alter (f g : Waiter → Waiter) id (m : gmap nat Waiter) :
  alter f id (alter g id m) = alter (λ w, f (g w)) id m.
Proof.
  apply map_eq. intros i. destruct (decide (i = id)) as [->|].
  - rewrite !lookup_alter_eq. by destruct (m !! id).
  - by rewrite !lookup_alter_ne.
Qed.

Lemma start_eq id L :
  id ∉ active L →
  start id L = set_active (active L ++ [id]) (set_waiters (alter started id (waiters L)) L).
Proof.
  intros Hid. unfold start, update_waiter, set_add. simpl.
  rewrite decide_False by done. unfold set_waiters, set_active. simpl. by rewrite alter_alter.
Qed.

Lemma fold_start_eq ids L :
  NoDup ids → (∀ id, id ∈ ids → id ∉ active L) →
  fold_left (λ L id, start id L) ids L =
  set_active (active L ++ ids)
    (set_waiters (fold_left (λ m id, alter started id m) ids (waiters L)) L).
Proof.
  revert L. induction ids as [|id ids IH]; intros L Hnd Hact; simpl.
  - rewrite app_nil_r. by destruct L.
  - apply NoDup_cons in Hnd as [Hid Hnd]. rewrite start_eq by set_solver.
    rewrite IH; [|done|simpl; set_solver]. simpl.
    unfold set_active, set_waiters. simpl. by rewrite <-app_assoc.
Qed.

Lemma fold_reject_eq ids L :
  fold_left reject_dropped ids L =
  set_waiters (fold_left (λ m id, alter (λ w, rejected (dropped_error w) w) id m) ids (waiters L)) L.
Proof.
  revert L. induction ids as [|id ids IH]; intros L; simpl; [by destruct L|].
  rewrite IH. unfold reject_dropped. destruct (waiters L !! id) as [w|] eqn:Hw; simpl.
  - replace (alter _ id (waiters L))
      with (alter (λ w, rejected (dropped_error w) w) id (waiters L)); [by destruct L|].
    apply map_eq. intros i. destruct (decide (i = id)) as [->|].
    + by rewrite !lookup_alter_eq, Hw.
    + by rewrite !lookup_alter_ne.
  - replace (alter _ id (waiters L)) with (waiters L); [by destruct L|].
    apply map_eq. intros i. destruct (decide (i = id)) as [->|].
    + by rewrite lookup_alter_eq, Hw.
    + by rewrite lookup_alter_ne.
Qed.

Lemma fold_remove_eq ids L :
  (∀ id, id ∈ ids → ∃ w, waiters L !! id = Some w ∧ nested w = false) →
  fold_left (λ L id, remove id L) ids L =
  set_waiting (fold_left (λ q id, splice_out id q) ids (waiting L)) L.
Proof.
  revert L. induction ids as [|id ids IH]; intros L Hids; simpl; [by destruct L|].
  destruct (Hids id) as (w & Hw & Hn); [set_solver|].
  unfold remove at 2. rewrite Hw, Hn. rewrite IH; [done|]. simpl. set_solver.
Qed.

(** ** The invariant *)

Definition lk (L : Lanes) : nat → option (list LaneLock) := waiter_locks (waiters L).

(** The locks of the operations that hold some. *)
Definition holding (L : Lanes) : list LaneLock := locks_of (lk L) (active L).

Record waiter_ok (w : Waiter) : Prop := {
  ok_completions :
    match state w with
    | Waiting => completions w = []
    | Granted | Running => completions w = [Succeeded] ∧ is_Some (locks w)
    | Done => ∃ c, completions w = [c]
    end;
  ok_continuation : continuation w = true → nested w = true;
  ok_locks : ∀ ls, locks w = Some ls → coherent ls;
}.

(** Where an operation's state says it is. *)
Definition in_line (w : Waiter) : Prop := state w = Waiting ∧ nested w = false.
Definition in_nested (w : Waiter) : Prop := state w = Waiting ∧ nested w = true.
Definition in_active (w : Waiter) : Prop := state w = Granted ∨ state w = Running.

Definition lists (P : Waiter → Prop) (heap : gmap nat Waiter) (ids : list nat) : Prop :=
  NoDup ids ∧ ∀ id, id ∈ ids ↔ ∃ w, heap !! id = Some w ∧ P w.

Record inv (L : Lanes) : Prop := {
  inv_fresh : ∀ id w, waiters L !! id = Some w → id < next L;
  inv_waiters : ∀ id w, waiters L !! id = Some w → waiter_ok w;
  inv_line : lists in_line (waiters L) (waiting L);
  inv_nested : lists in_nested (waiters L) (nested_queue L);
  inv_active : lists in_active (waiters L) (active L);
  inv_coherent : coherent (holding L);
  inv_held : table_holds (held L) (holding L);
}.

(** *** Changing one waiter *)

Lemma lists_keep P heap ids id w w' :
  lists P heap ids → heap !! id = Some w → (P w ↔ P w') → lists P (<[id:=w']> heap) ids.
Proof.
  intros [Hnd Hids] Hw HP. split; [done|]. intros x. rewrite Hids.
  destruct (decide (x = id)) as [->|Hne].
  - rewrite lookup_insert_eq. split; intros (u & Hu & ?); simplify_eq; naive_solver.
  - by rewrite lookup_insert_ne.
Qed.

Lemma lists_drop P heap ids id w' :
  lists P heap ids → ¬ P w' → lists P (<[id:=w']> heap) (splice_out id ids).
Proof.
  intros [Hnd Hids] HP. split; [by apply splice_out_NoDup|]. intros x.
  rewrite splice_out_elem, Hids by done.
  destruct (decide (x = id)) as [->|Hne].
  - rewrite lookup_insert_eq. naive_solver.
  - rewrite lookup_insert_ne by done. naive_solver.
Qed.

Lemma lists_add P heap ids id w' :
  lists P heap ids → id ∉ ids → P w' → lists P (<[id:=w']> heap) (ids ++ [id]).
Proof.
  intros [Hnd Hids] Hid HP. split.
  - apply NoDup_app. split; [done|]. split; [set_solver|apply NoDup_singleton].
  - intros x. rewrite elem_of_app, list_elem_of_singleton, Hids.
    destruct (decide (x = id)) as [->|Hne].
    + rewrite lookup_insert_eq. naive_solver.
    + rewrite lookup_insert_ne by done. naive_solver.
Qed.

Lemma lists_absent P heap ids id :
  lists P heap ids → (∀ w, heap !! id = Some w → ¬ P w) → id ∉ ids.
Proof. intros [_ Hids] HP Hid. apply Hids in Hid as (w & Hw & ?). by eapply HP. Qed.

Lemma lists_new P heap ids id w' :
  lists P heap ids → heap !! id = None → ¬ P w' → lists P (<[id:=w']> heap) ids.
Proof.
  intros Hl Hid HP. rewrite <-(splice_out_id id ids); [by apply lists_drop|].
  eapply lists_absent; [done|]. by rewrite Hid.
Qed.

Lemma locks_of_ext (f g : nat → option (list LaneLock)) ids :
  (∀ id, id ∈ ids → f id = g id) → locks_of f ids = locks_of g ids.
Proof.
  induction ids as [|id ids IH]; intros H; [done|]. rewrite !locks_of_cons.
  rewrite (H id) by set_solver. f_equal. apply IH. set_solver.
Qed.

Lemma lk_insert_ne (heap : gmap nat Waiter) id w' x :
  x ≠ id → waiter_locks (<[id:=w']> heap) x = waiter_locks heap x.
Proof. intros. unfold waiter_locks. by rewrite lookup_insert_ne. Qed.

Lemma lk_insert (heap : gmap nat Waiter) id w' :
  waiter_locks (<[id:=w']> heap) id = locks w'.
Proof. unfold waiter_locks. by rewrite lookup_insert_eq. Qed.

Lemma lk_lookup (heap : gmap nat Waiter) id w :
  heap !! id = Some w → waiter_locks heap id = locks w.
Proof. unfold waiter_locks. by intros ->. Qed.

Lemma alter_eq (f : Waiter → Waiter) id (m : gmap nat Waiter) w :
  m !! id = Some w → alter f id m = <[id := f w]> m.
Proof.
  intros Hw. apply map_eq. intros i. destruct (decide (i = id)) as [->|].
  - by rewrite lookup_alter_eq, lookup_insert_eq, Hw.
  - by rewrite lookup_alter_ne, lookup_insert_ne.
Qed.

(** ** The lanes as an abstract machine

    The moves the lanes are made of, one operation changing place at a time:
    the specification the methods refine. *)

Definition put (id : nat) (w : Waiter) (L : Lanes) : Lanes :=
  set_waiters (<[id := w]> (waiters L)) L.

(** The waiter [#admit] makes, given its id. *)
Definition arrive (w : Waiter) (L : Lanes) : Lanes :=
  MkLanes (waiting L) (nested_queue L) (active L) (exclusiveStarts L) (paused L)
    (held L) (<[next L := w]> (waiters L)) (S (next L)).

Definition push (nests : bool) (id : nat) (L : Lanes) : Lanes :=
  if nests then set_nested (nested_queue L ++ [id]) L else set_waiting (waiting L ++ [id]) L.

Record newcomer (w : Waiter) : Prop := {
  nc_state : state w = Waiting;
  nc_locks : locks w = None;
  nc_completions : completions w = [];
  nc_continuation : continuation w = true → nested w = true;
}.

Inductive micro : Lanes → Lanes → Prop :=
  | m_refusal L id w e : waiters L !! id = Some w → micro L (put id (set_refusal e w) L)
  | m_refused L id w r : waiters L !! id = Some w → micro L (put id (set_refused r w) L)
  | m_settle L id w c :
      waiters L !! id = Some w → state w = Waiting → c ≠ Succeeded →
      micro L (put id (complete c (set_state Done w)) (remove id L))
  | m_grant L id w ls :
      waiters L !! id = Some w → state w = Waiting → locks w = Some ls →
      compatible (holding L) ls →
      micro L (set_held (take_locks (held L) ls)
                (set_active (active L ++ [id]) (put id (started w) (remove id L))))
  | m_release L id w :
      waiters L !! id = Some w → in_active w →
      micro L (set_held (release_locks (held L) (default [] (locks w)))
                (set_active (splice_out id (active L)) (put id (set_state Done w) L)))
  | m_begin L id w :
      waiters L !! id = Some w → state w = Granted →
      micro L (set_starts (count_starts (exclusiveStarts L) (default [] (locks w)))
                (put id (set_state Running w) L))
  | m_locks L id w ls :
      waiters L !! id = Some w → state w = Waiting → locks w = None →
      micro L (put id (set_locks (Some (normalizeLocks ls)) w) L)
  | m_join L w : newcomer w → micro L (push (nested w) (next L) (arrive w L))
  | m_turned_away L w e : newcomer w → micro L (arrive (rejected e w) L)
  | m_paused L p : micro L (set_paused p L).

(** *** The invariant, move by move *)

Section MicroInv.
Variables (L : Lanes) (HL : inv L).

(** What a change of the heap that leaves the active set and its locks alone
    keeps. *)
Lemma holding_same (heap : gmap nat Waiter) :
  (∀ id, id ∈ active L → waiter_locks heap id = lk L id) →
  locks_of (waiter_locks heap) (active L) = holding L.
Proof. apply locks_of_ext. Qed.

Lemma holding_insert id w w' :
  waiters L !! id = Some w → (id ∈ active L → locks w' = locks w) →
  locks_of (waiter_locks (<[id:=w']> (waiters L))) (active L) = holding L.
Proof.
  intros Hw Hl. apply holding_same. intros x Hx. unfold lk.
  destruct (decide (x = id)) as [->|]; [|by apply lk_insert_ne].
  rewrite lk_insert, (lk_lookup _ _ _ Hw). auto.
Qed.

Lemma inv_absent id w :
  waiters L !! id = Some w →
  (¬ in_line w → id ∉ waiting L) ∧ (¬ in_nested w → id ∉ nested_queue L) ∧
  (¬ in_active w → id ∉ active L).
Proof using HL.
  intros Hw. repeat split; intros Hn;
    (eapply lists_absent; [apply HL|]); intros; simplify_eq; done.
Qed.

Lemma inv_fresh_none : waiters L !! next L = None.
Proof using HL.
  destruct (waiters L !! next L) as [w|] eqn:E; [|done].
  apply HL in E. lia.
Qed.

(** A waiter stays where it is and keeps its locks, if it holds any. *)
Lemma inv_put id w w' :
  waiters L !! id = Some w → waiter_ok w' →
  (in_line w ↔ in_line w') → (in_nested w ↔ in_nested w') → (in_active w ↔ in_active w') →
  (in_active w → locks w' = locks w) →
  inv (put id w' L).
Proof using HL.
  intros Hw Hok Hl Hn Ha Hlocks.
  assert (locks_of (waiter_locks (<[id:=w']> (waiters L))) (active L) = holding L) as Hh.
  { eapply holding_insert; [done|]. intros Hin. apply Hlocks.
    apply HL in Hin as (? & ? & ?). by simplify_eq. }
  split; simpl; try (eapply lists_keep; [apply HL|done|done]).
  - intros x u Hu. destruct (decide (x = id)) as [->|].
    + by eapply HL.
    + rewrite lookup_insert_ne in Hu by done. by eapply HL.
  - intros x u Hu. destruct (decide (x = id)) as [->|].
    + rewrite lookup_insert_eq in Hu. by simplify_eq.
    + rewrite lookup_insert_ne in Hu by done. by eapply HL.
  - unfold holding, lk. simpl. rewrite Hh. apply HL.
  - unfold holding, lk. simpl. rewrite Hh. apply HL.
Qed.

(** A waiting operation leaves its queue. *)
Lemma inv_leave id w w' :
  waiters L !! id = Some w → state w = Waiting → waiter_ok w' → state w' = Done →
  inv (put id w' (remove id L)).
Proof using HL.
  intros Hw Hs Hok Hd.
  assert (id ∉ active L) as Hact.
  { apply (inv_absent _ _ Hw). unfold in_active. intros [?|?]; congruence. }
  assert (locks_of (waiter_locks (<[id:=w']> (waiters L))) (active L) = holding L) as Hh.
  { apply holding_same. intros x Hx. apply lk_insert_ne. set_solver. }
  assert (∀ P : Waiter → Prop, (∀ w, P w → state w ≠ Done) → ¬ P w') as HP
    by (intros P HPs HPw; by apply (HPs w')).
  assert (active (remove id L) = active L ∧ waiters (remove id L) = waiters L ∧
    held (remove id L) = held L ∧ next (remove id L) = next L ∧
    waiting (remove id L) = (if nested w then waiting L else splice_out id (waiting L)) ∧
    nested_queue (remove id L) = if nested w then splice_out id (nested_queue L)
                                 else nested_queue L)
    as (Ea & Ew & Eh & En & Eq1 & Eq2)
    by (unfold remove; rewrite Hw; by destruct (nested w)).
  split; simpl; unfold holding, lk; simpl; rewrite ?Ea, ?Ew, ?Eh, ?En, ?Eq1, ?Eq2, ?Hh;
    try apply HL.
  - intros x u Hu. destruct (decide (x = id)) as [->|]; [by eapply HL|].
    rewrite lookup_insert_ne in Hu by done. by eapply HL.
  - intros x u Hu. destruct (decide (x = id)) as [->|].
    + rewrite lookup_insert_eq in Hu. by simplify_eq.
    + rewrite lookup_insert_ne in Hu by done. by eapply HL.
  - destruct (nested w) eqn:Hn.
    + eapply lists_keep; [apply HL|done|]. unfold in_line. rewrite Hn, Hd. naive_solver.
    + apply lists_drop; [apply HL|]. unfold in_line. rewrite Hd. naive_solver.
  - destruct (nested w) eqn:Hn.
    + apply lists_drop; [apply HL|]. unfold in_nested. rewrite Hd. naive_solver.
    + eapply lists_keep; [apply HL|done|]. unfold in_nested. rewrite Hn, Hd. naive_solver.
  - eapply lists_keep; [apply HL|done|]. unfold in_active. rewrite Hs, Hd. naive_solver.
Qed.
End MicroInv.

Lemma inv_arrive L w :
  inv L → waiter_ok w → ¬ in_active w → ¬ in_line w → ¬ in_nested w → inv (arrive w L).
Proof.
  intros HL Hok Ha Hl Hn. pose proof (inv_fresh_none L HL) as Hfresh.
  assert (locks_of (waiter_locks (<[next L:=w]> (waiters L))) (active L) = holding L) as Hh.
  { apply holding_same. intros x Hx. apply lk_insert_ne. intros ->.
    apply HL in Hx as (? & ? & ?). congruence. }
  split; simpl; unfold holding, lk; simpl; rewrite ?Hh; try apply HL;
    try (apply lists_new; [apply HL|done|done]).
  - intros x u Hu. destruct (decide (x = next L)) as [->|]; [lia|].
    rewrite lookup_insert_ne in Hu by done. apply HL in Hu. lia.
  - intros x u Hu. destruct (decide (x = next L)) as [->|].
    + rewrite lookup_insert_eq in Hu. by simplify_eq.
    + rewrite lookup_insert_ne in Hu by done. by eapply HL.
Qed.

Lemma inv_join L w : inv L → newcomer w → inv (push (nested w) (next L) (arrive w L)).
Proof.
  intros HL Hw. pose proof (inv_fresh_none L HL) as Hfresh.
  assert (locks_of (waiter_locks (<[next L:=w]> (waiters L))) (active L) = holding L) as Hh.
  { apply holding_same. intros x Hx. apply lk_insert_ne. intros ->.
    apply HL in Hx as (? & ? & ?). congruence. }
  assert (∀ P ids, lists P (waiters L) ids → next L ∉ ids) as Hnot.
  { intros P ids Hl. eapply lists_absent; [exact Hl|]. rewrite Hfresh. done. }
  assert (waiter_ok w) as Hok.
  { destruct Hw as [Hs Hlo Hc Hcn]. split; [by rewrite Hs, Hc|done|]. rewrite Hlo. done. }
  destruct (nc_state _ Hw).
  assert (¬ in_active w) as Ha by (unfold in_active; rewrite (nc_state _ Hw); naive_solver).
  split; unfold push; destruct (nested w) eqn:Hn; simpl; unfold holding, lk; simpl;
    rewrite ?Hh; try apply HL; try (apply lists_new; [apply HL|done|]; try done).
  all: try (intros x u Hu; destruct (decide (x = next L)) as [->|];
    [rewrite lookup_insert_eq in Hu; simplify_eq; first [lia|done]
    |rewrite lookup_insert_ne in Hu by done; pose proof (inv_fresh _ HL _ _ Hu);
     first [lia|by eapply HL]]).
  - unfold in_line. rewrite Hn. naive_solver.
  - apply lists_add; [apply HL|eapply Hnot, HL|]. split; [apply Hw|done].
  - apply lists_add; [apply HL|eapply Hnot, HL|]. split; [apply Hw|done].
  - unfold in_nested. rewrite Hn. naive_solver.
Qed.

Lemma inv_grant L id w ls :
  inv L → waiters L !! id = Some w → state w = Waiting → locks w = Some ls →
  compatible (holding L) ls →
  inv (set_held (take_locks (held L) ls)
         (set_active (active L ++ [id]) (put id (started w) (remove id L)))).
Proof.
  intros HL Hw Hs Hls Hc. pose proof (inv_waiters _ HL _ _ Hw) as Hok.
  assert (id ∉ active L) as Hact.
  { apply (inv_absent _ HL _ _ Hw). unfold in_active. intros [?|?]; congruence. }
  assert (locks_of (waiter_locks (<[id:=started w]> (waiters L))) (active L ++ [id])
          = holding L ++ ls) as Hh.
  { rewrite locks_of_app, holding_same.
    - f_equal. rewrite locks_of_cons, lk_insert. simpl. rewrite Hls. simpl. apply app_nil_r.
    - intros x Hx. apply lk_insert_ne. set_solver. }
  assert (active (remove id L) = active L ∧ waiters (remove id L) = waiters L ∧
    next (remove id L) = next L ∧
    waiting (remove id L) = (if nested w then waiting L else splice_out id (waiting L)) ∧
    nested_queue (remove id L) = if nested w then splice_out id (nested_queue L)
                                 else nested_queue L)
    as (Ea & Ew & En & Eq1 & Eq2)
    by (unfold remove; rewrite Hw; by destruct (nested w)).
  split; simpl; unfold holding, lk; simpl; rewrite ?Ew, ?En, ?Eq1, ?Eq2, ?Hh.
  - intros x u Hu. destruct (decide (x = id)) as [->|]; [by eapply HL|].
    rewrite lookup_insert_ne in Hu by done. by eapply HL.
  - intros x u Hu. destruct (decide (x = id)) as [->|].
    + rewrite lookup_insert_eq in Hu. simplify_eq. destruct Hok as [Hco ? ?].
      rewrite Hs in Hco. split; simpl; [|done|done]. rewrite Hco, Hls. eauto.
    + rewrite lookup_insert_ne in Hu by done. by eapply HL.
  - destruct (nested w) eqn:Hn.
    + eapply lists_keep; [apply HL|done|]. unfold in_line. simpl. rewrite Hn. naive_solver.
    + apply lists_drop; [apply HL|]. unfold in_line. simpl. naive_solver.
  - destruct (nested w) eqn:Hn.
    + apply lists_drop; [apply HL|]. unfold in_nested. simpl. naive_solver.
    + eapply lists_keep; [apply HL|done|]. unfold in_nested. simpl. rewrite Hn. naive_solver.
  - apply lists_add; [apply HL|done|]. by left.
  - apply coherent_app. split; [apply HL|]. split; [by eapply Hok|done].
  - apply take_locks_spec, HL.
Qed.

Lemma holding_perm L id w :
  id ∈ active L → waiters L !! id = Some w →
  holding L ≡ₚ default [] (locks w) ++ locks_of (lk L) (splice_out id (active L)).
Proof.
  intros Hid Hw. unfold holding. rewrite <-(splice_out_perm id (active L)) at 1 by done.
  rewrite locks_of_cons. unfold lk. by rewrite (lk_lookup _ _ _ Hw).
Qed.

Lemma inv_release L id w :
  inv L → waiters L !! id = Some w → in_active w →
  inv (set_held (release_locks (held L) (default [] (locks w)))
         (set_active (splice_out id (active L)) (put id (set_state Done w) L))).
Proof.
  intros HL Hw Ha. pose proof (inv_waiters _ HL _ _ Hw) as Hok.
  assert (id ∈ active L) as Hact by (apply HL; eauto).
  pose proof (holding_perm _ _ _ Hact Hw) as Hp.
  assert (locks_of (waiter_locks (<[id:=set_state Done w]> (waiters L))) (splice_out id (active L))
          = locks_of (lk L) (splice_out id (active L))) as Hh.
  { apply locks_of_ext. intros x Hx. apply lk_insert_ne. intros ->.
    apply splice_out_elem in Hx as [_ ?]; [done|]. apply HL. }
  pose proof (inv_coherent _ HL) as Hc. rewrite Hp in Hc.
  split; simpl; unfold holding, lk; simpl; rewrite ?Hh.
  - intros x u Hu. destruct (decide (x = id)) as [->|]; [by eapply HL|].
    rewrite lookup_insert_ne in Hu by done. by eapply HL.
  - intros x u Hu. destruct (decide (x = id)) as [->|].
    + rewrite lookup_insert_eq in Hu. simplify_eq. destruct Hok as [Hco ? ?].
      split; simpl; [|done|done]. destruct Ha as [Ha|Ha]; rewrite Ha in Hco;
        destruct Hco as [-> _]; eauto.
    + rewrite lookup_insert_ne in Hu by done. by eapply HL.
  - eapply lists_keep; [apply HL|done|]. unfold in_line. simpl.
    destruct Ha as [Ha|Ha]; rewrite Ha; by split; intros [? _].
  - eapply lists_keep; [apply HL|done|]. unfold in_nested. simpl.
    destruct Ha as [Ha|Ha]; rewrite Ha; by split; intros [? _].
  - apply lists_drop; [apply HL|]. unfold in_active. simpl. by intros [?|?].
  - by apply coherent_app in Hc as (_ & ? & _).
  - apply release_locks_spec; [done|]. eapply table_holds_perm; [exact Hp|]. apply HL.
Qed.

Lemma micro_inv L L' : inv L → micro L L' → inv L'.
Proof.
  intros HL Hm. destruct Hm as [L id w e Hw|L id w r Hw|L id w c Hw Hs Hc|L id w ls Hw Hs Hls Hc
    |L id w Hw Ha|L id w Hw Hs|L id w ls Hw Hs Hl|L w Hn|L w e Hn|L p].
  - eapply inv_put; [done|done| |done..]. by pose proof (inv_waiters _ HL _ _ Hw) as [].
  - eapply inv_put; [done|done| |done..]. by pose proof (inv_waiters _ HL _ _ Hw) as [].
  - pose proof (inv_waiters _ HL _ _ Hw) as [Hco ? ?]. eapply inv_leave; [done|done|done| |done].
    split; simpl; [|done|done]. rewrite Hs in Hco. rewrite Hco. by exists c.
  - by apply inv_grant.
  - by apply inv_release.
  - assert (inv (put id (set_state Running w) L)) as [].
    { pose proof (inv_waiters _ HL _ _ Hw) as [Hco ? ?]. rewrite Hs in Hco.
      eapply inv_put; [done|done|split; simpl; try done| | | |done];
      unfold in_line, in_nested, in_active; simpl; rewrite Hs; naive_solver. }
    by split.
  - pose proof (inv_waiters _ HL _ _ Hw) as [Hco ? ?]. rewrite Hs in Hco.
    eapply inv_put; [done|done| |done..|].
    + split; simpl; [by rewrite Hs|done|]. intros ? [= <-]. apply normalizeLocks_coherent.
    + unfold in_active. rewrite Hs. naive_solver.
  - by apply inv_join.
  - destruct Hn as [Hs Hl Hc Hcn]. apply inv_arrive; [done| |unfold in_active|unfold in_line
      |unfold in_nested]; simpl; try naive_solver.
    split; simpl; [rewrite Hc; by eexists|done|]. by rewrite Hl.
  - by destruct HL; split.
Qed.

Lemma micros_inv L L' : inv L → rtc micro L L' → inv L'.
Proof. induction 2; eauto using micro_inv. Qed.

Lemma inv_empty : inv empty_lanes.
Proof.
  assert (∀ P, lists P (∅ : gmap nat Waiter) []) as Hl.
  { intros P. split; [constructor|]. intros id. rewrite lookup_empty.
    split; [by intros ?%elem_of_nil|naive_solver]. }
  split; simpl; try apply Hl; try (intros id w Hw; by rewrite lookup_empty in Hw).
  - constructor.
  - intros k. by rewrite lookup_empty.
Qed.
