(* ===== verification/LanesGrant.v ===== *)
(** * Operation lanes: what granting does

    [grant] refines the abstract machine of [LanesInv]: it is a sequence of
    grants and rejections ([gstep]), it only touches waiting operations, and
    it leaves the lanes [stable], with nothing waiting that could start. *)
From S2P Require Import Prelude Locks Grants Lanes LanesInv.

(** ** The moves granting makes *)

Inductive gstep : Lanes → Lanes → Prop :=
  | g_refused L id w r :
      waiters L !! id = Some w → state w = Waiting → gstep L (put id (set_refused r w) L)
  | g_settle L id w c :
      waiters L !! id = Some w → state w = Waiting → c ≠ Succeeded →
      gstep L (put id (complete c (set_state Done w)) (remove id L))
  | g_grant L id w ls :
      waiters L !! id = Some w → state w = Waiting → locks w = Some ls →
      compatible (holding L) ls →
      gstep L (set_held (take_locks (held L) ls)
                (set_active (active L ++ [id]) (put id (started w) (remove id L)))).

Lemma gstep_micro L L' : gstep L L' → micro L L'.
Proof. destruct 1; by econstructor. Qed.

Lemma gsteps_micros L L' : rtc gstep L L' → rtc micro L L'.
Proof. induction 1; [apply rtc_refl|eapply rtc_l; [by apply gstep_micro|done]]. Qed.

Lemma gsteps_inv L L' : inv L → rtc gstep L L' → inv L'.
Proof. intros. by eapply micros_inv, gsteps_micros. Qed.

(** What never changes about a waiter. *)
Definition same_kind (w w' : Waiter) : Prop :=
  label w' = label w ∧ nested w' = nested w ∧ continuation w' = continuation w ∧
  carriesOnWhilePaused w' = carriesOnWhilePaused w.

(** What granting leaves alone. *)
Record grew (L L' : Lanes) : Prop := {
  gr_next : next L' = next L;
  gr_paused : paused L' = paused L;
  gr_starts : exclusiveStarts L' = exclusiveStarts L;
  gr_locks : ∀ id, lk L' id = lk L id;
  gr_active : ∃ new, active L' = active L ++ new;
  gr_waiting : waiting L' `sublist_of` waiting L;
  gr_nested : nested_queue L' `sublist_of` nested_queue L;
  gr_still : ∀ id w, waiters L !! id = Some w → state w ≠ Waiting → waiters L' !! id = Some w;
  gr_kind : ∀ id w, waiters L !! id = Some w →
    ∃ w', waiters L' !! id = Some w' ∧ same_kind w w';
  gr_none : ∀ id, waiters L !! id = None → waiters L' !! id = None;
}.

Lemma grew_refl L : grew L L.
Proof.
  split; try done; [exists []; by rewrite app_nil_r|]. intros id w Hw. by exists w.
Qed.

Lemma grew_trans L1 L2 L3 : grew L1 L2 → grew L2 L3 → grew L1 L3.
Proof.
  intros [] []. split; try congruence.
  - destruct gr_active0 as [n1 E1], gr_active1 as [n2 E2]. exists (n1 ++ n2).
    by rewrite E2, E1, (assoc_L (++)).
  - by etrans.
  - by etrans.
  - eauto.
  - intros id w Hw. destruct (gr_kind0 _ _ Hw) as (w' & Hw' & ?).
    destruct (gr_kind1 _ _ Hw') as (w'' & ? & ?). exists w''. split; [done|].
    unfold same_kind in *. intuition congruence.
  - eauto.
Qed.

(** A change of one waiting operation's record that keeps its kind and its
    locks is one granting may make. *)
Lemma grew_put L L1 id w w' h new :
  waiters L !! id = Some w → state w = Waiting → same_kind w w' → locks w' = locks w →
  waiting L1 `sublist_of` waiting L → nested_queue L1 `sublist_of` nested_queue L →
  next L1 = next L → paused L1 = paused L → exclusiveStarts L1 = exclusiveStarts L →
  waiters L1 = waiters L →
  grew L (set_held h (set_active (active L ++ new) (put id w' L1))).
Proof.
  intros Hw Hs Hk Hl Hq Hn E1 E2 E3 E4. split; simpl; try done; rewrite ?E4.
  - intros x. unfold lk. simpl. rewrite ?E4. destruct (decide (x = id)) as [->|].
    + by rewrite lk_insert, (lk_lookup _ _ _ Hw).
    + by rewrite lk_insert_ne.
  - by exists new.
  - intros x u Hu Hne. destruct (decide (x = id)) as [->|]; [congruence|].
    by rewrite lookup_insert_ne.
  - intros x u Hu. destruct (decide (x = id)) as [->|].
    + exists w'. rewrite lookup_insert_eq. split; [done|]. by simplify_eq.
    + exists u. by rewrite lookup_insert_ne.
  - intros x Hx. rewrite lookup_insert_ne; [done|]. intros ->. congruence.
Qed.

Lemma remove_fields id L :
  waiting (remove id L) `sublist_of` waiting L ∧
  nested_queue (remove id L) `sublist_of` nested_queue L ∧
  next (remove id L) = next L ∧ paused (remove id L) = paused L ∧
  exclusiveStarts (remove id L) = exclusiveStarts L ∧ waiters (remove id L) = waiters L ∧
  held (remove id L) = held L ∧ active (remove id L) = active L.
Proof.
  unfold remove. destruct (waiters L !! id) as [w|]; [|done].
  destruct (nested w); simpl; repeat split; try done; apply splice_out_sublist.
Qed.

Lemma gstep_grew L L' : gstep L L' → grew L L'.
Proof.
  destruct 1 as [L id w r Hw Hs|L id w c Hw Hs Hc|L id w ls Hw Hs Hls Hc].
  - pose proof (grew_put L L id w (set_refused r w) (held L) [] Hw Hs) as H.
    rewrite app_nil_r in H. by apply H.
  - destruct (remove_fields id L) as (Hf1 & Hf2 & Hf3 & Hf4 & Hf5 & Hf6 & Hf7 & Ea).
    pose proof (grew_put L (remove id L) id w (complete c (set_state Done w)) (held L) [] Hw Hs)
      as H. rewrite app_nil_r in H.
    replace (put id _ (remove id L)) with
      (set_held (held L) (set_active (active L)
        (put id (complete c (set_state Done w)) (remove id L)))); [by apply H|].
    rewrite <-Ea. unfold put, set_waiters, set_held, set_active. simpl. f_equal; congruence.
  - destruct (remove_fields id L) as (? & ? & ? & ? & ? & ? & ? & ?).
    by eapply grew_put.
Qed.

Lemma gsteps_grew L L' : rtc gstep L L' → grew L L'.
Proof. induction 1; eauto using grew_refl, grew_trans, gstep_grew. Qed.

(** What is held only grows, so what is stuck stays so. *)
Lemma grew_holding L L' :
  grew L L' → ∃ new, holding L' = holding L ++ locks_of (lk L) new.
Proof.
  intros Hg. destruct (gr_active _ _ Hg) as [new Ha]. exists new.
  unfold holding. rewrite Ha, locks_of_app. f_equal; apply locks_of_ext; intros; apply Hg.
Qed.

Lemma grew_incompatible L L' ls :
  grew L L' → ¬ compatible (holding L) ls → ¬ compatible (holding L') ls.
Proof.
  intros Hg Hn Hc. apply Hn. destruct (grew_holding _ _ Hg) as [new E]. rewrite E in Hc.
  by apply compatible_app_l in Hc as [? _].
Qed.

Lemma free_check L ls :
  inv L → existsb (conflicts (held L)) ls = false ↔ compatible (holding L) ls.
Proof.
  intros HL. rewrite existsb_false, compatible_in_the_way. apply forall_proper. intros l.
  by rewrite (conflicts_spec _ _ _ (inv_held _ HL)).
Qed.

(** ** The nested queue *)

Lemma reject_micro L id w e :
  waiters L !! id = Some w → state w = Waiting →
  gstep L (reject id e (remove id L)).
Proof.
  intros Hw Hs. unfold reject, update_waiter.
  destruct (remove_fields id L) as (_ & _ & _ & _ & _ & E & _).
  rewrite (alter_eq _ _ _ w) by (by rewrite E). by apply (g_settle L id w (Failed e)).
Qed.

Lemma start_micro L id w ls :
  inv L → waiters L !! id = Some w → state w = Waiting → locks w = Some ls →
  compatible (holding L) ls →
  gstep L (start id (set_held (take_locks (held L) ls) (remove id L))).
Proof.
  intros HL Hw Hs Hls Hc.
  destruct (remove_fields id L) as (_ & _ & _ & _ & _ & E1 & E2 & E3).
  assert (id ∉ active L) as Hact.
  { apply (inv_absent _ HL _ _ Hw). unfold in_active. intros [?|?]; congruence. }
  rewrite start_eq by (simpl; by rewrite E3). simpl. rewrite E1, E3, (alter_eq _ _ _ _ Hw).
  pose proof (g_grant L id w ls Hw Hs Hls Hc) as Hg.
  unfold put, set_waiters, set_held, set_active in *. simpl in *. by rewrite E1 in Hg.
Qed.

Lemma locks_of_snoc (f : nat → option (list LaneLock)) ids id :
  locks_of f (ids ++ [id]) = locks_of f ids ++ default [] (f id).
Proof. rewrite locks_of_app, locks_of_cons. by rewrite app_nil_r. Qed.

Definition all_stuck (L : Lanes) (ids : list nat) : Prop :=
  ∀ id ls, id ∈ ids → lk L id = Some ls → ¬ compatible (holding L) ls.

Lemma all_stuck_grew L L' ids : grew L L' → all_stuck L ids → all_stuck L' ids.
Proof.
  intros Hg Hs id ls Hid Hls. eapply grew_incompatible; [done|]. eapply Hs; [done|].
  by rewrite <-(gr_locks _ _ Hg).
Qed.

Lemma grant_nested_spec world todo : ∀ kept blocked L L' blocked',
  inv L → nested_queue L = kept ++ todo →
  table_holds blocked (locks_of (lk L) kept) → all_stuck L kept →
  grant_nested world kept todo blocked L = (L', blocked') →
  rtc gstep L L' ∧ waiting L' = waiting L ∧ all_stuck L' (nested_queue L') ∧
  table_holds blocked' (locks_of (lk L') (nested_queue L')).
Proof.
  induction todo as [|id rest IH]; simpl; intros kept blocked L L' blocked' HL Hq Hb Hk Hg.
  { simplify_eq. rewrite Hq, app_nil_r. done. }
  assert (id ∈ nested_queue L) as Hin by (rewrite Hq; set_solver).
  pose proof Hin as Hw. apply HL in Hw as (w & Hw & Hs & Hn).
  assert (lk L id = locks w) as Hlk by (by apply lk_lookup).
  assert (remove id L = set_nested (kept ++ rest) L) as Hrem.
  { unfold remove. rewrite Hw, Hn, Hq, splice_out_mid; [done|].
    pose proof (proj1 (inv_nested _ HL)) as Hnd. rewrite Hq in Hnd.
    apply NoDup_app in Hnd as (_ & Hnd & _). intros Hid. apply (Hnd _ Hid). set_solver. }
  assert (∀ L1, gstep L L1 → nested_queue L1 = kept ++ rest → waiting L1 = waiting L →
    grant_nested world kept rest blocked L1 = (L', blocked') →
    rtc gstep L L' ∧ waiting L' = waiting L ∧ all_stuck L' (nested_queue L') ∧
    table_holds blocked' (locks_of (lk L') (nested_queue L'))) as Hstep.
  { intros L1 Hg1 Hq1 Hw1 Hrest. pose proof (gstep_grew _ _ Hg1) as Hgrew.
    destruct (IH kept blocked L1 L' blocked') as (? & ? & ? & ?); try done.
    - eapply micro_inv; [done|by apply gstep_micro].
    - rewrite (locks_of_ext (lk L1) (lk L)); [done|]. intros; apply Hgrew.
    - by eapply all_stuck_grew.
    - split; [by eapply rtc_l|]. by rewrite <-Hw1. }
  assert (∀ e, grant_nested world kept rest blocked (reject id e (set_nested (kept ++ rest) L))
                 = (L', blocked') →
    rtc gstep L L' ∧ waiting L' = waiting L ∧ all_stuck L' (nested_queue L') ∧
    table_holds blocked' (locks_of (lk L') (nested_queue L'))) as Hrej.
  { intros e. apply Hstep; [|done|done]. rewrite <-Hrem. by eapply reject_micro. }
  rewrite Hw in Hg. destruct (locks w) as [ls|] eqn:Hls.
  2:{ apply (IH _ _ _ _ _ HL) in Hg; [done|by rewrite Hq, <-(assoc_L (++))| |].
      - rewrite locks_of_snoc, Hlk. simpl. by rewrite app_nil_r.
      - intros x xs [Hx|Hx%list_elem_of_singleton]%elem_of_app Hxs; [by eapply Hk|].
        subst. congruence. }
  destruct (existsb (conflicts (held L)) ls) eqn:Hc.
  { apply (IH _ _ _ _ _ HL) in Hg; [done|by rewrite Hq, <-(assoc_L (++))| |].
    - rewrite locks_of_snoc, Hlk. simpl. by apply take_locks_spec.
    - intros x xs [Hx|Hx%list_elem_of_singleton]%elem_of_app Hxs; [by eapply Hk|].
      subst. rewrite Hlk in Hxs. simplify_eq. rewrite <-free_check by done. congruence. }
  apply (free_check _ _ HL) in Hc.
  destruct (if continuation w then _ else _); [by eapply Hrej|].
  destruct (precondition_holds world w); simpl in Hg; [|by eapply Hrej].
  eapply Hstep; [| | |exact Hg]; [|done|done].
  rewrite <-Hrem. by eapply start_micro.
Qed.

(** ** The line *)

(** With [H] held and [B] wanted ahead, nothing of the line may start. *)
Fixpoint stuck (locks : nat → option (list LaneLock)) (H B : list LaneLock) (ws : list nat) : Prop :=
  match ws with
  | [] => True
  | w :: ws =>
      match locks w with
      | None => True
      | Some ls => ¬ compatible (H ++ B) ls ∧ stuck locks H (B ++ ls) ws
      end
  end.

Lemma stuck_mono locks H X B ws : stuck locks H B ws → stuck locks (H ++ X) B ws.
Proof.
  revert B. induction ws as [|w ws IH]; simpl; intros B; [done|].
  destruct (locks w) as [ls|]; [|done]. intros [Hn Hs]. split; [|by apply IH].
  intros Hc. apply Hn. rewrite !compatible_app_l in *. naive_solver.
Qed.

Lemma stuck_ext f g H B ws : (∀ id, f id = g id) → stuck f H B ws → stuck g H B ws.
Proof.
  intros Hfg. revert B. induction ws as [|w ws IH]; simpl; intros B; [done|].
  rewrite <-Hfg. destruct (f w); [|done]. naive_solver.
Qed.

(** What the rule leaves waiting is stuck behind what it granted. *)
Lemma rule_stuck locks H B ws g d r :
  lane_rule locks H B ws g d r → stuck locks (H ++ locks_of locks g) B r.
Proof.
  induction 1 as [H B|H B w ws Hw|H B w ls ws g d r Hw Hn _ IH|H B w ls ws g d r Hw Hc _ IH
    |H B w ls ws g d r Hw Hc _ IH]; simpl; [done|by rewrite Hw| |done|].
  - rewrite Hw. split; [|done]. intros Hc. apply Hn. rewrite !compatible_app_l in *. naive_solver.
  - rewrite locks_of_cons, Hw. simpl. by rewrite (assoc_L (++)).
Qed.

(** The selection leaves the waiting list as the rule says. *)
Lemma rule_rest locks H B ws g d r :
  lane_rule locks H B ws g d r → NoDup ws →
  fold_left (λ q id, splice_out id q) (g ++ d) ws = r.
Proof.
  intros Hr Hnd. pose proof (rule_perm _ _ _ _ _ _ _ Hr) as Hp.
  destruct (rule_sublist _ _ _ _ _ _ _ Hr) as (_ & _ & Hsub).
  destruct (fold_splice_out (g ++ d) ws Hnd) as (_ & Hsub' & Hx).
  assert (∀ l : list nat, l `sublist_of` ws → (∀ x, x ∈ l ↔ x ∈ ws ∧ x ∉ g ++ d) →
    l = filter (.∉ g ++ d) ws) as Huniq.
  { clear -Hnd. intros l Hs. induction Hs as [|x l ws Hs IH|x l ws Hs IH]; intros Hl;
      [done| |]; apply NoDup_cons in Hnd as [Hnx Hnd]; rewrite filter_cons.
    - rewrite decide_True by (apply (Hl x); set_solver). f_equal. apply IH; [done|].
      intros y. specialize (Hl y). rewrite !elem_of_cons in Hl. split.
      + intros Hy. pose proof (elem_of_sublist _ _ _ Hy Hs). naive_solver.
      + intros [Hy ?]. destruct Hl as [_ Hl]. destruct Hl as [->|?]; [naive_solver|done|done].
    - destruct (decide (x ∉ g ++ d)) as [Hx|Hx].
      + exfalso. apply Hnx. eapply elem_of_sublist; [|exact Hs]. apply Hl. set_solver.
      + apply IH; [done|]. intros y. specialize (Hl y). rewrite elem_of_cons in Hl.
        split; [|naive_solver]. intros Hy. pose proof (elem_of_sublist _ _ _ Hy Hs). naive_solver. }
  rewrite (Huniq _ Hsub' Hx). symmetry. apply Huniq; [done|]. intros x.
  rewrite Hp in Hnd. apply NoDup_app in Hnd as (Hg & Hgd & Hd).
  apply NoDup_app in Hd as (_ & Hdr & _). rewrite Hp, !elem_of_app. split.
  - intros Hxr. split; [tauto|]. intros [?|?]; [|by eapply Hdr].
    eapply Hgd; [done|]. set_solver.
  - tauto.
Qed.

Section LineSelection.
Variable world : World.

Let callback := Some (admit_callback world).

Lemma callback_keeps_locks f id heap v :
  callback = Some f → waiter_locks (f id heap).2 v = waiter_locks heap v.
Proof.
  unfold callback. intros [= <-]. unfold admit_callback, waiter_locks.
  destruct (heap !! id) as [w|] eqn:Hw; [|done].
  destruct (ask_refuse world (label w) (default [] (locks w))); [|done]. simpl.
  destruct (decide (v = id)) as [->|]; [|by rewrite lookup_alter_ne].
  by rewrite lookup_alter_eq, Hw.
Qed.

(** The callback only notes on a waiting operation why it was refused. *)
Inductive noted (ids : list nat) : gmap nat Waiter → gmap nat Waiter → Prop :=
  | noted_refl heap : noted ids heap heap
  | noted_one heap id w r heap' :
      id ∈ ids → heap !! id = Some w → noted ids (<[id := set_refused r w]> heap) heap' →
      noted ids heap heap'.

Lemma noted_mono ids ids' heap heap' :
  noted ids heap heap' → (∀ id, id ∈ ids → id ∈ ids') → noted ids' heap heap'.
Proof. induction 1; intros Hi; [constructor|]. eapply noted_one; eauto. Qed.

Lemma noted_trans ids h1 h2 h3 : noted ids h1 h2 → noted ids h2 h3 → noted ids h1 h3.
Proof. induction 1; [done|]. intros. eapply noted_one; eauto. Qed.

Lemma callback_noted id heap : noted [id] heap (admit_callback world id heap).2.
Proof.
  unfold admit_callback. destruct (heap !! id) as [w|] eqn:Hw; simpl; [|constructor].
  destruct (ask_refuse _ _ _) as [m|]; simpl; [|constructor].
  rewrite (alter_eq _ _ _ _ Hw). apply (noted_one [id] heap id w m); [set_solver|done|constructor].
Qed.

Lemma select_noted ws : ∀ held blocked heap sel held' heap',
  select_loop (store := LockTable_store) callback waiter_locks ws held blocked heap
    = (sel, held', heap') →
  noted ws heap heap' ∧ held' = take_locks held (locks_of (waiter_locks heap) (granted sel)).
Proof.
  induction ws as [|w ws IH]; simpl; intros held blocked heap sel held' heap' Hs.
  { simplify_eq. split; [constructor|done]. }
  destruct (waiter_locks heap w) as [ls|] eqn:Hls; [|simplify_eq; split; [constructor|done]].
  destruct (negb (forallb _ ls)).
  { apply IH in Hs as [? ?]. split; [|done]. eapply noted_mono; [done|set_solver]. }
  pose proof (callback_noted w heap) as Hn.
  pose proof (λ v, callback_keeps_locks _ w heap v eq_refl) as Hkeep.
  destruct (admit_callback world w heap) as [ok heap1]. simpl in Hn, Hkeep.
  assert (∀ ids, locks_of (waiter_locks heap1) ids = locks_of (waiter_locks heap) ids) as Hlo
    by (intros; apply locks_of_ext; auto).
  assert (∀ heap', noted ws heap1 heap' → noted (w :: ws) heap heap') as Htr.
  { intros h Hh. eapply noted_trans; [eapply noted_mono; [exact Hn|set_solver]|].
    eapply noted_mono; [exact Hh|set_solver]. }
  destruct ok; simpl in Hs;
    destruct (select_loop _ _ _ _ _ _) as [[sel1 held1] heap2] eqn:Hr; simplify_eq/=;
    apply IH in Hr as [? ->]; rewrite Hlo; (split; [auto|]); [|done].
  rewrite locks_of_cons, Hls. simpl. unfold take_locks. by rewrite fold_left_app.
Qed.

(** Nothing starts, and nothing is asked, when the line is stuck. *)
Lemma select_stuck ws : ∀ held blocked H B heap,
  table_holds held H → table_holds blocked B →
  stuck (waiter_locks heap) H B ws →
  select_loop (store := LockTable_store) callback waiter_locks ws held blocked heap
    = (MkSelection [] [], held, heap).
Proof.
  induction ws as [|w ws IH]; simpl; intros held blocked H B heap HH HB Hs; [done|].
  destruct (waiter_locks heap w) as [ls|] eqn:Hls; [|done]. destruct Hs as [Hn Hs].
  pose proof (free_spec (store := LockTable_store) held blocked H B ls HH HB) as Hf.
  simpl in Hf. destruct (forallb _ ls); [exfalso; by apply Hn, Hf|]. simpl.
  by eapply (IH _ _ H (B ++ ls)), Hs; [|apply take_locks_spec].
Qed.
End LineSelection.

(** *** The batch at the end of [#grant], as moves *)

Lemma noted_gsteps L heap :
  noted (waiting L) (waiters L) heap → inv L → rtc gstep L (set_waiters heap L).
Proof.
  intros Hn HL. remember (waiting L) as ids eqn:Hids. remember (waiters L) as heap0 eqn:Hh.
  revert L HL Hids Hh. induction Hn as [heap0|heap0 id w r heap' Hid Hw Hn IH]; intros L HL -> ->.
  - destruct L. apply rtc_refl.
  - assert (gstep L (put id (set_refused r w) L)) as Hg.
    { apply g_refused; [done|]. apply HL in Hid as (u & Hu & ? & _). congruence. }
    eapply rtc_l; [exact Hg|].
    apply (IH (put id (set_refused r w) L)); [|done|done].
    eapply micro_inv; [done|by apply gstep_micro].
Qed.

Lemma waiting_lookup L id :
  inv L → id ∈ waiting L → ∃ w, waiters L !! id = Some w ∧ state w = Waiting ∧ nested w = false.
Proof. intros HL Hid. by apply HL in Hid. Qed.

Lemma grants_gsteps g : ∀ L,
  inv L → NoDup g → (∀ id, id ∈ g → id ∈ waiting L ∧ is_Some (lk L id)) →
  coherent (holding L ++ locks_of (lk L) g) →
  rtc gstep L
    (MkLanes (fold_left (λ q id, splice_out id q) g (waiting L)) (nested_queue L) (active L ++ g)
       (exclusiveStarts L) (paused L) (take_locks (held L) (locks_of (lk L) g))
       (fold_left (λ m id, alter started id m) g (waiters L)) (next L)).
Proof.
  induction g as [|id g IH]; intros L HL Hnd Hg Hc; simpl.
  { rewrite app_nil_r. destruct L. apply rtc_refl. }
  apply NoDup_cons in Hnd as [Hid Hnd].
  destruct (Hg id) as [Hin [ls Hls]]; [set_solver|].
  destruct (waiting_lookup _ _ HL Hin) as (w & Hw & Hs & Hn).
  assert (locks w = Some ls) as Hlw by (rewrite <-Hls; symmetry; by apply lk_lookup).
  rewrite locks_of_cons, Hls in Hc. simpl in Hc. rewrite (assoc_L (++)) in Hc.
  pose proof (g_grant L id w ls Hw Hs Hlw) as Hstep.
  apply coherent_app in Hc as Hc'. destruct Hc' as (Hc1 & _ & _).
  apply coherent_app in Hc1 as (_ & _ & Hcomp). specialize (Hstep Hcomp).
  pose proof (gstep_grew _ _ Hstep) as Hgrew.
  assert (remove id L = set_waiting (splice_out id (waiting L)) L) as Hrem
    by (unfold remove; by rewrite Hw, Hn).
  pose proof (micro_inv _ _ HL (gstep_micro _ _ Hstep)) as HL1.
  rewrite Hrem in *. eapply rtc_l; [exact Hstep|].
  set (L1 := set_held _ _) in *.
  assert (∀ ids, locks_of (lk L1) ids = locks_of (lk L) ids) as Hlo
    by (intros; apply locks_of_ext; intros; apply Hgrew).
  assert (holding L1 = holding L ++ ls) as Hh1.
  { unfold holding. rewrite Hlo. simpl. rewrite locks_of_snoc, Hls. done. }
  replace (take_locks (held L) (locks_of (lk L) (id :: g)))
    with (take_locks (held L1) (locks_of (lk L1) g)).
  2:{ rewrite Hlo, locks_of_cons, Hls. simpl. unfold take_locks. by rewrite fold_left_app. }
  replace (active L ++ id :: g) with (active L1 ++ g) by (simpl; by rewrite <-(assoc_L (++))).
  replace (alter started id (waiters L)) with (waiters L1) by (by rewrite (alter_eq _ _ _ _ Hw)).
  apply (IH L1); [done|done| |by rewrite Hh1, Hlo].
  intros x Hx. destruct (Hg x) as [? ?]; [set_solver|]. split.
  - simpl. apply splice_out_elem; [apply HL|]. split; [done|]. set_solver.
  - by rewrite (gr_locks _ _ Hgrew).
Qed.

Lemma drops_gsteps d : ∀ L,
  inv L → NoDup d → (∀ id, id ∈ d → id ∈ waiting L) →
  rtc gstep L
    (MkLanes (fold_left (λ q id, splice_out id q) d (waiting L)) (nested_queue L) (active L)
       (exclusiveStarts L) (paused L) (held L)
       (fold_left (λ m id, alter (λ w, rejected (dropped_error w) w) id m) d (waiters L)) (next L)).
Proof.
  induction d as [|id d IH]; intros L HL Hnd Hd; simpl.
  { destruct L. apply rtc_refl. }
  apply NoDup_cons in Hnd as [Hid Hnd].
  destruct (waiting_lookup L id HL) as (w & Hw & Hs & Hn); [set_solver|].
  pose proof (reject_micro L id w (dropped_error w) Hw Hs) as Hstep.
  assert (remove id L = set_waiting (splice_out id (waiting L)) L) as Hrem
    by (unfold remove; by rewrite Hw, Hn).
  pose proof (micro_inv _ _ HL (gstep_micro _ _ Hstep)) as HL1.
  rewrite Hrem in *. eapply rtc_l; [exact Hstep|].
  match type of Hstep with gstep _ ?X => pose (L1 := X) end.
  replace (alter _ id (waiters L)) with (waiters L1).
  2:{ unfold L1, reject, update_waiter. simpl. by rewrite !(alter_eq _ _ _ _ Hw). }
  apply (IH L1); [done|done|]. intros x Hx. simpl.
  apply splice_out_elem; [apply HL|]. set_solver.
Qed.

Lemma fold_left_app2 {A B} (f : A → B → A) l1 l2 a :
  fold_left f l2 (fold_left f l1 a) = fold_left f (l1 ++ l2) a.
Proof. by rewrite fold_left_app. Qed.

(** With nothing held or wanted wrongly, granting is a run of moves that ends
    with nothing left that may start. *)
Record stable (L : Lanes) : Prop := {
  st_nested : all_stuck L (nested_queue L);
  st_line : stuck (lk L) (holding L) (locks_of (lk L) (nested_queue L)) (waiting L);
}.

Lemma grant_line world L blocked sel held' heap L' :
  inv L → table_holds blocked (locks_of (lk L) (nested_queue L)) →
  all_stuck L (nested_queue L) →
  selectGrants (Some (admit_callback world)) waiter_locks (held L) (waiting L)
    (Some blocked) (waiters L) = (sel, held', heap) →
  L' = fold_left (λ L id, start id L) (granted sel)
         (fold_left reject_dropped (dropped sel)
           (fold_left (λ L id, remove id L) (granted sel ++ dropped sel)
             (set_waiters heap (set_held held' L)))) →
  rtc gstep L L' ∧ stable L' ∧
  waiting L' = fold_left (λ q id, splice_out id q) (granted sel ++ dropped sel) (waiting L).
Proof.
  intros HL Hb Hst Hsel ->.
  pose proof (select_noted _ _ _ _ _ _ _ _ Hsel) as [Hnoted Hheld].
  destruct (select_loop_rule (store := LockTable_store) _ _ (callback_keeps_locks world)
    _ _ _ _ _ _ _ _ _ (inv_held _ HL) Hb Hsel) as (Hlk & _ & r & Hrule).
  destruct sel as [g d]. simpl in *.
  pose proof (noted_gsteps _ _ Hnoted HL) as Hs1.
  pose proof (gsteps_inv _ _ HL Hs1) as HL1. pose proof (gsteps_grew _ _ Hs1) as Hg1.
  set (L1 := set_waiters heap L) in *.
  pose proof (proj1 (inv_line _ HL)) as Hndw.
  pose proof (rule_perm _ _ _ _ _ _ _ Hrule) as Hp.
  assert (NoDup (g ++ d ++ r)) as Hnd by (by rewrite <-Hp).
  apply NoDup_app in Hnd as (Hndg & Hgd & Hnd). apply NoDup_app in Hnd as (Hndd & _ & _).
  assert (∀ x, x ∈ g → x ∈ waiting L) as Hgw by (intros; rewrite Hp; set_solver).
  assert (∀ x, x ∈ d → x ∈ waiting L) as Hdw by (intros; rewrite Hp; set_solver).
  assert (∀ ids, locks_of (lk L1) ids = locks_of (waiter_locks (waiters L)) ids) as Hlo
    by (intros; apply locks_of_ext; intros; apply Hlk).
  assert (holding L1 = holding L) as Hh1 by (unfold holding; by rewrite Hlo).
  (* the grants *)
  pose proof (grants_gsteps g L1 HL1 Hndg) as Hs2. ospecialize* Hs2.
  { intros x Hx. split; [by apply Hgw|].
    destruct (rule_granted_known _ _ _ _ _ _ _ Hrule x Hx) as [ls Hls]. exists ls.
    by rewrite <-Hls, <-Hlk. }
  { rewrite Hh1, Hlo. eapply rule_coherent; [exact Hrule|apply HL|].
    intros w ls Hw Hls. destruct (waiting_lookup _ _ HL Hw) as (u & Hu & _).
    rewrite (lk_lookup _ _ _ Hu) in Hls. by eapply (inv_waiters _ HL). }
  rewrite Hlo in Hs2. change (held L1) with (held L) in Hs2. rewrite <-Hheld in Hs2.
  match type of Hs2 with rtc _ _ ?X => set (L2 := X) in * end.
  pose proof (gsteps_inv _ _ HL1 Hs2) as HL2. pose proof (gsteps_grew _ _ Hs2) as Hg2.
  (* the rejections *)
  pose proof (drops_gsteps d L2 HL2 Hndd) as Hs3. ospecialize* Hs3.
  { intros x Hx. simpl. apply fold_splice_out; [done|]. split; [by apply Hdw|].
    intros Hxg. apply (Hgd x Hxg). set_solver. }
  match type of Hs3 with rtc _ _ ?X => set (L3 := X) in * end.
  pose proof (gsteps_grew _ _ Hs3) as Hg3.
  assert (rtc gstep L L3) as Hs by (etrans; [exact Hs1|]; etrans; [exact Hs2|exact Hs3]).
  match goal with |- rtc _ _ ?X ∧ _ => replace X with L3 end.
  - split; [done|]. split; [|by simpl; rewrite fold_left_app2].
    pose proof (gsteps_grew _ _ Hs) as Hg. split.
    + eapply all_stuck_grew; [exact Hg|]. exact Hst.
    + eapply stuck_ext; [intros id; symmetry; apply Hg|]. simpl.
      rewrite fold_left_app2, (rule_rest _ _ _ _ _ _ _ Hrule Hndw).
      replace (holding L3) with (holding L ++ locks_of (lk L) g).
      2:{ unfold holding. simpl. rewrite locks_of_app.
          f_equal; apply locks_of_ext; intros; symmetry; apply Hg. }
      rewrite (locks_of_ext (lk L3) (lk L)) by (intros; apply Hg).
      by apply (rule_stuck _ _ _ _ _ _ _ Hrule).
  - rewrite fold_remove_eq.
    2:{ intros x Hx. destruct (waiting_lookup L1 x HL1) as (w & ? & _ & ?); [|by exists w].
        apply elem_of_app in Hx as [?|?]; [by apply Hgw|by apply Hdw]. }
    rewrite fold_reject_eq, fold_start_eq; [|done|].
    2:{ intros x Hx. simpl. destruct (waiting_lookup _ _ HL (Hgw _ Hx)) as (w & Hw & Hsw & _).
        apply (inv_absent _ HL _ _ Hw). unfold in_active. intros [?|?]; congruence. }
    unfold L3, L2. simpl. rewrite fold_left_app2. unfold set_active, set_waiters. simpl. f_equal.
    apply map_eq. intros i. rewrite !fold_alter_lookup by done.
    destruct (decide (i ∈ d)), (decide (i ∈ g)); try done. exfalso. apply (Hgd i); set_solver.
Qed.

(** [#grant] is a run of moves, ends stable, and does nothing to lanes that
    already are. *)
Lemma grant_spec world L : inv L → rtc gstep L (grant world L) ∧ stable (grant world L).
Proof.
  intros HL. unfold grant.
  destruct (grant_nested world [] (nested_queue L) ∅ L) as [L1 blocked] eqn:Hn.
  destruct (grant_nested_spec world _ [] ∅ L L1 blocked HL eq_refl) as (Hs & Hw & Hst & Hb).
  { intros k. apply lookup_empty. } { intros x ls Hx. by apply elem_of_nil in Hx. } { done. }
  destruct (selectGrants _ _ _ _ _ _) as [[sel held'] heap] eqn:Hsel.
  destruct (grant_line world L1 blocked sel held' heap _ (gsteps_inv _ _ HL Hs) Hb Hst Hsel eq_refl)
    as (Hs2 & ? & _). split; [|done]. by etrans.
Qed.

Lemma grant_inv world L : inv L → inv (grant world L).
Proof. intros HL. eapply gsteps_inv; [done|]. by apply grant_spec. Qed.

Lemma grant_grew world L : inv L → grew L (grant world L).
Proof. intros HL. by apply gsteps_grew, grant_spec. Qed.

Lemma grant_nested_stuck world todo : ∀ kept blocked L,
  inv L → nested_queue L = kept ++ todo → all_stuck L (kept ++ todo) →
  ∃ blocked', grant_nested world kept todo blocked L = (L, blocked').
Proof.
  induction todo as [|id rest IH]; intros kept blocked L HL Hq Hst; simpl; [by eexists|].
  destruct (waiters L !! id) as [w|] eqn:Hw; [|by eexists].
  assert (∀ blocked, ∃ blocked', grant_nested world (kept ++ [id]) rest blocked L = (L, blocked'))
    as Hnext.
  { intros b. apply IH; [done|by rewrite <-(assoc_L (++))|by rewrite <-(assoc_L (++))]. }
  destruct (locks w) as [ls|] eqn:Hls; [|apply Hnext].
  destruct (existsb (conflicts (held L)) ls) eqn:Hc; [apply Hnext|].
  apply (free_check _ _ HL) in Hc. exfalso. apply (Hst id ls); [set_solver| |done].
  by rewrite <-Hls; apply lk_lookup.
Qed.

Lemma grant_stable world L : inv L → stable L → grant world L = L.
Proof.
  intros HL [Hst Hline]. unfold grant.
  destruct (grant_nested_stuck world (nested_queue L) [] ∅ L HL eq_refl Hst) as [blocked Hb].
  rewrite Hb.
  destruct (grant_nested_spec world _ [] ∅ L L blocked HL eq_refl) as (_ & _ & _ & HB); try done.
  { intros x ls Hx. by apply elem_of_nil in Hx. }
  unfold selectGrants. simpl.
  erewrite select_stuck; [|exact (inv_held _ HL)|exact HB|exact Hline]. by destruct L.
Qed.
