(* ===== verification/LanesSteps.v ===== *)
(** * Operation lanes: every event as moves of the abstract machine

    Each public method of [OperationLanes] is a run of [LanesInv.micro] moves
    that ends [stable] ([LanesGrant]); apart from the arrival of a newcomer
    the moves are [calm]: they only carry waiters forward. *)
From S2P Require Import Prelude Locks Grants Lanes LanesInv LanesGrant.

(** ** Calm moves *)

Definition unstarted (w : Waiter) : Prop := state w = Waiting ∨ state w = Granted.

Definition calm (L L' : Lanes) : Prop :=
  micro L L' ∧ paused L' = paused L ∧
  ∀ id w', waiters L !! id = None → waiters L' !! id = Some w' → state w' = Done.

(** Done is final; an operation is granted, then runs. *)
Definition state_le (s s' : WaiterState) : Prop :=
  match s, s' with
  | Waiting, _ | Done, Done | Running, (Running | Done) => True
  | Granted, (Granted | Running | Done) => True
  | _, _ => False
  end.

(** What moves keep of a waiter, whatever they are. *)
Definition evolves (w w' : Waiter) : Prop :=
  same_kind w w' ∧ state_le (state w) (state w') ∧ completions w `prefix_of` completions w' ∧
  ∀ ls, locks w = Some ls → locks w' = Some ls.

Lemma state_le_refl s : state_le s s.
Proof. by destruct s. Qed.

Lemma evolves_refl w : evolves w w.
Proof. split; [done|]. split; [apply state_le_refl|done]. Qed.

Lemma evolves_trans w1 w2 w3 : evolves w1 w2 → evolves w2 w3 → evolves w1 w3.
Proof.
  intros (Hk1 & Hs1 & Hc1 & Hl1) (Hk2 & Hs2 & Hc2 & Hl2).
  split; [unfold same_kind in *; intuition congruence|]. split; [|split; [by etrans|auto]].
  destruct (state w1), (state w2), (state w3); simpl in *; done.
Qed.

Definition heap_evolves (heap heap' : gmap nat Waiter) : Prop :=
  ∀ id w, heap !! id = Some w → ∃ w', heap' !! id = Some w' ∧ evolves w w'.

Lemma heap_evolves_insert heap id w w' :
  heap !! id = Some w → evolves w w' → heap_evolves heap (<[id:=w']> heap).
Proof.
  intros Hw He x u Hu. destruct (decide (x = id)) as [->|].
  - exists w'. rewrite lookup_insert_eq. by simplify_eq.
  - exists u. rewrite lookup_insert_ne by done. split; [done|apply evolves_refl].
Qed.

Lemma heap_evolves_new heap id w' : heap !! id = None → heap_evolves heap (<[id:=w']> heap).
Proof.
  intros Hw x u Hu. exists u. rewrite lookup_insert_ne; [|congruence].
  split; [done|apply evolves_refl].
Qed.

Lemma micro_evolves L L' : inv L → micro L L' → heap_evolves (waiters L) (waiters L').
Proof.
  intros HL Hm. pose proof (inv_fresh_none L HL) as Hfresh.
  destruct Hm as [L id w e Hw|L id w r Hw|L id w c Hw Hs Hc|L id w ls Hw Hs Hls Hc
    |L id w Hw Ha|L id w Hw Hs|L id w ls Hw Hs Hl|L w Hn|L w e Hn|L p]; simpl;
    try (destruct (remove_fields id L) as (_ & _ & _ & _ & _ & -> & _)).
  1-7: eapply heap_evolves_insert; [exact Hw|]; split; [done|]; simpl;
    rewrite ?Hs; (split; [try apply state_le_refl|split; [first [done|by apply prefix_app_r]|]]);
    try done; try congruence.
  - by destruct Ha as [-> | ->].
  - unfold push. destruct (nested w); by apply heap_evolves_new.
  - by apply heap_evolves_new.
  - intros id w Hw. exists w. split; [done|apply evolves_refl].
Qed.

(** A calm run moves waiters forward and lets nobody in. *)
Record advance (L L' : Lanes) : Prop := {
  ad_paused : paused L' = paused L;
  ad_waiting : waiting L' `sublist_of` waiting L;
  ad_nested : nested_queue L' `sublist_of` nested_queue L;
  ad_heap : heap_evolves (waiters L) (waiters L');
  ad_back : ∀ id w', waiters L' !! id = Some w' → unstarted w' →
    ∃ w, waiters L !! id = Some w ∧ unstarted w ∧ evolves w w';
}.

Lemma advance_refl L : advance L L.
Proof.
  split; try done.
  - intros id w Hw. exists w. split; [done|apply evolves_refl].
  - intros id w Hw Hu. exists w. split; [done|]. split; [done|apply evolves_refl].
Qed.

Lemma advance_trans L1 L2 L3 : advance L1 L2 → advance L2 L3 → advance L1 L3.
Proof.
  intros [] []. split; [congruence|by etrans|by etrans| |].
  - intros id w Hw. destruct (ad_heap0 _ _ Hw) as (w' & Hw' & ?).
    destruct (ad_heap1 _ _ Hw') as (w'' & ? & ?). exists w''. split; [done|].
    by eapply evolves_trans.
  - intros id w Hw Hu. destruct (ad_back1 _ _ Hw Hu) as (w' & Hw' & Hu' & ?).
    destruct (ad_back0 _ _ Hw' Hu') as (w'' & ? & ? & ?). exists w''.
    split; [done|]. split; [done|]. by eapply evolves_trans.
Qed.

Lemma calm_advance L L' : inv L → calm L L' → advance L L'.
Proof.
  intros HL (Hm & Hp & Hnew). pose proof (micro_evolves _ _ HL Hm) as Hev.
  assert (waiting L' `sublist_of` waiting L ∧ nested_queue L' `sublist_of` nested_queue L)
    as [Hsw Hsn].
  { pose proof (inv_fresh_none L HL) as Hfresh. destruct Hm; simpl; try done.
    - destruct (remove_fields id L) as (? & ? & _). done.
    - destruct (remove_fields id L) as (? & ? & _). done.
    - exfalso. assert (state w = Done) as Hd.
      { apply (Hnew (next L) w Hfresh). unfold push. destruct (nested w); simpl;
          by rewrite lookup_insert_eq. }
      destruct H as [Hs _ _ _]. congruence. }
  split; try done. intros id w' Hw' Hu.
  destruct (waiters L !! id) as [w|] eqn:Hw.
  - destruct (Hev _ _ Hw) as (u & Hu' & He). simplify_eq. exists w. split; [done|].
    split; [|done]. destruct He as (_ & He & _). unfold unstarted in *.
    destruct (state w), (state w'); simpl in He; naive_solver.
  - specialize (Hnew _ _ Hw Hw'). unfold unstarted in Hu. rewrite Hnew in Hu. naive_solver.
Qed.

Lemma calms_micros L L' : rtc calm L L' → rtc micro L L'.
Proof. induction 1; [apply rtc_refl|eapply rtc_l; [by apply H|done]]. Qed.

Lemma calms_inv L L' : inv L → rtc calm L L' → inv L'.
Proof. intros. by eapply micros_inv, calms_micros. Qed.

Lemma calms_advance L L' : inv L → rtc calm L L' → advance L L'.
Proof.
  intros HL Hs. induction Hs as [|L1 L2 L3 H12 _ IH]; [apply advance_refl|].
  eapply advance_trans; [by apply calm_advance|]. apply IH.
  eapply micro_inv; [done|apply H12].
Qed.

Lemma calm_put L L' id w w' :
  micro L L' → waiters L !! id = Some w → waiters L' = <[id:=w']> (waiters L) →
  paused L' = paused L → calm L L'.
Proof.
  intros Hm Hw Hh Hp. split; [done|]. split; [done|]. intros x u Hx Hu.
  rewrite Hh in Hu. rewrite lookup_insert_ne in Hu by congruence. congruence.
Qed.

Lemma gstep_calm L L' : gstep L L' → calm L L'.
Proof.
  intros Hg. pose proof (gstep_micro _ _ Hg) as Hm. pose proof (gstep_grew _ _ Hg) as Hgr.
  split; [done|]. split; [apply Hgr|]. intros id w' Hn Hw'.
  pose proof (gr_none _ _ Hgr _ Hn). congruence.
Qed.

Lemma gsteps_calm L L' : rtc gstep L L' → rtc calm L L'.
Proof. induction 1; [apply rtc_refl|eapply rtc_l; [by apply gstep_calm|done]]. Qed.

Lemma grant_calm world L : inv L → rtc calm L (grant world L).
Proof. intros. by apply gsteps_calm, grant_spec. Qed.

(** A run of calm moves that ends stable. *)
Definition settles (L L' : Lanes) : Prop := rtc calm L L' ∧ stable L'.

Lemma grant_settles world L : inv L → settles L (grant world L).
Proof. intros. split; [by apply grant_calm|by apply grant_spec]. Qed.

Lemma settles_l L1 L2 L3 : rtc calm L1 L2 → settles L2 L3 → settles L1 L3.
Proof. intros ? [? ?]. split; [by etrans|done]. Qed.

Lemma then_grant_settles world L1 L2 :
  inv L1 → rtc calm L1 L2 → settles L1 (grant world L2).
Proof. intros. eapply settles_l; [done|]. apply grant_settles. by eapply calms_inv. Qed.

(** ** The methods *)

Lemma release_settles world id L w :
  inv L → waiters L !! id = Some w → in_active w → settles L (release world id L).
Proof.
  intros HL Hw Ha. unfold release. rewrite Hw.
  rewrite decide_False by (destruct Ha as [-> | ->]; done).
  apply then_grant_settles; [done|]. apply rtc_once.
  unfold update_waiter. rewrite (alter_eq _ _ _ _ Hw).
  eapply calm_put; [by apply (m_release L id w)|done|done|done].
Qed.

Lemma reject_calm id e w L :
  waiters L !! id = Some w → state w = Waiting → calm L (reject id e (remove id L)).
Proof. intros. by eapply gstep_calm, reject_micro. Qed.

Lemma die_calm id w L :
  waiters L !! id = Some w → state w = Waiting →
  calm L (update_waiter (λ w, complete Died (set_state Done w)) id (remove id L)).
Proof.
  intros Hw Hs. unfold update_waiter.
  destruct (remove_fields id L) as (_ & _ & _ & _ & _ & E & _).
  rewrite (alter_eq _ _ _ w) by (by rewrite E). by apply gstep_calm, (g_settle L id w Died).
Qed.

Lemma cancel_settles world id L :
  inv L → stable L → settles L (cancel world id L).2.
Proof.
  intros HL Hst. unfold cancel. destruct (waiters L !! id) as [w|] eqn:Hw; [|done].
  destruct (state w) eqn:Hs; simpl; try done.
  - eapply release_settles; [done|done|by left].
  - apply then_grant_settles; [done|]. apply rtc_once. by eapply reject_calm.
Qed.

Lemma lookup_settles world id result L w :
  inv L → stable L → waiters L !! id = Some w →
  (state w = Waiting → locks w = None) →
  settles L (lookup_settled world id result L).
Proof.
  intros HL Hst Hw Hnone. unfold lookup_settled, has_state. rewrite Hw.
  case_bool_decide as Hs; [|done]. destruct result as [ls|].
  - apply then_grant_settles; [done|]. apply rtc_once.
    unfold update_waiter. rewrite (alter_eq _ _ _ _ Hw).
    eapply calm_put; [by apply (m_locks L id w ls); auto|done|done|done].
  - apply then_grant_settles; [done|]. apply rtc_once. by eapply die_calm.
Qed.

(** *** What keeps the lanes stable *)

Lemma stable_ext L L' :
  waiting L' = waiting L → nested_queue L' = nested_queue L → active L' = active L →
  (∀ id, id ∈ waiting L ++ nested_queue L ++ active L → lk L' id = lk L id) →
  stable L → stable L'.
Proof.
  intros E1 E2 E3 Hlk [Hn Hl].
  assert (holding L' = holding L) as Hh.
  { unfold holding. rewrite E3. apply locks_of_ext. intros. apply Hlk. set_solver. }
  split.
  - intros id ls Hid Hls. rewrite Hh. rewrite E2 in Hid. eapply Hn; [done|].
    rewrite <-Hlk; [done|set_solver].
  - rewrite Hh, E1, E2. rewrite (locks_of_ext (lk L') (lk L)) by (intros; apply Hlk; set_solver).
    assert (∀ id, id ∈ waiting L → lk L' id = lk L id) as Hw by (intros; apply Hlk; set_solver).
    revert Hl Hw. generalize (locks_of (lk L) (nested_queue L)). clear.
    induction (waiting L) as [|w ws IH]; simpl; intros B; [done|].
    intros Hs Hw. rewrite (Hw w) by set_solver. destruct (lk L w); [|done].
    destruct Hs. split; [done|]. apply IH; [done|]. set_solver.
Qed.

Lemma begin_settles id L : inv L → stable L → settles L (run_begins id L).2.
Proof.
  intros HL Hst. unfold run_begins. destruct (waiters L !! id) as [w|] eqn:Hw; [|done].
  case_decide as Hs; [|done]. simpl. unfold update_waiter. rewrite (alter_eq _ _ _ _ Hw).
  split.
  - apply rtc_once. eapply (calm_put _ _ id w); [by apply (m_begin L id w)|done|done|done].
  - eapply stable_ext; [| | | |exact Hst]; [done..|]. intros x _. unfold lk. simpl.
    destruct (decide (x = id)) as [->|]; [|by apply lk_insert_ne].
    by rewrite lk_insert, (lk_lookup _ _ _ Hw).
Qed.

(** ** Pausing *)

(** What a pause leaves alone: nested work, and upkeep. *)
Definition privileged (w : Waiter) : bool :=
  (nested w && negb (continuation w)) || carriesOnWhilePaused w.

Lemma privileged_kind w w' : same_kind w w' → privileged w' = privileged w.
Proof. unfold privileged. by intros (_ & -> & -> & ->). Qed.

Lemma exempt_privileged w :
  exempt_from_pause w = privileged w || negb (bool_decide (state w = Granted)).
Proof. done. Qed.

Lemma exempt_advance L L' id w w' :
  advance L L' → waiters L !! id = Some w → waiters L' !! id = Some w' →
  state w ≠ Waiting → exempt_from_pause w = true →
  state w' ≠ Waiting ∧ exempt_from_pause w' = true.
Proof.
  intros Ha Hw Hw' Hs He. destruct (ad_heap _ _ Ha _ _ Hw) as (u & Hu & Hk & Hle & _).
  simplify_eq. split; [by destruct (state w), (state w')|].
  rewrite exempt_privileged in *. rewrite (privileged_kind _ _ Hk).
  apply orb_true_iff in He as [-> |He]; [done|]. rewrite orb_true_iff. right.
  destruct (state w), (state w'); try done.
Qed.

Lemma next_bound (ids : list nat) n : NoDup ids → (∀ id, id ∈ ids → id < n) → length ids ≤ n.
Proof.
  intros Hnd Hlt. rewrite <-(length_seq n 0). apply submseteq_length, NoDup_submseteq; [done|].
  intros x Hx. apply elem_of_seq. specialize (Hlt x Hx). lia.
Qed.

Lemma inv_active_next L id : inv L → id ∈ active L → id < next L.
Proof. intros HL Hid. apply HL in Hid as (w & Hw & _). by apply HL in Hw. Qed.

Section Pausing.
Variables (options : LanesOptions) (world : World).

Lemma release_next id L w :
  inv L → waiters L !! id = Some w → in_active w → next (release world id L) = next L.
Proof.
  intros HL Hw Ha. pose proof (m_release _ _ _ Hw Ha) as Hm.
  unfold release. rewrite Hw. rewrite decide_False by (destruct Ha as [-> | ->]; done).
  unfold update_waiter. rewrite (alter_eq _ _ _ _ Hw).
  apply (micro_inv _ _ HL) in Hm. apply (gr_next _ _ (grant_grew world _ Hm)).
Qed.

Lemma pause_active_spec fuel : ∀ visited L,
  inv L → NoDup visited → (∀ id, id ∈ visited → id < next L) →
  (∀ id, id ∈ visited → ∃ w, waiters L !! id = Some w ∧ state w ≠ Waiting ∧
     exempt_from_pause w = true) →
  next L < fuel + length visited →
  let L' := pause_active options world fuel visited L in
  rtc calm L L' ∧
  (∀ id w, waiters L' !! id = Some w → in_active w → exempt_from_pause w = true).
Proof.
  induction fuel as [|fuel IH]; intros visited L HL Hnd Hlt Hvis Hfuel; simpl.
  { pose proof (next_bound visited _ Hnd Hlt). lia. }
  destruct (List.find _ (active L)) as [id|] eqn:Hfind.
  2:{ split; [apply rtc_refl|]. intros id w Hw Ha.
      assert (id ∈ active L) as Hid by (apply HL; eauto).
      apply list_elem_of_In in Hid. apply (List.find_none _ _ Hfind) in Hid.
      apply negb_false_iff, bool_decide_eq_true in Hid.
      destruct (Hvis _ Hid) as (u & Hu & _ & ?). congruence. }
  apply List.find_some in Hfind as [Hid Hnv]. apply list_elem_of_In in Hid.
  apply negb_true_iff, bool_decide_eq_false in Hnv.
  pose proof (inv_active_next _ _ HL Hid) as Hidlt.
  apply HL in Hid as (w & Hw & Ha). rewrite Hw.
  assert (∀ L1, inv L1 → rtc calm L L1 → next L1 = next L →
    (∃ w1, waiters L1 !! id = Some w1 ∧ state w1 ≠ Waiting ∧ exempt_from_pause w1 = true) →
    let L' := pause_active options world fuel (id :: visited) L1 in
    rtc calm L L' ∧
    (∀ id w, waiters L' !! id = Some w → in_active w → exempt_from_pause w = true)) as Hrec.
  { intros L1 HL1 Hs1 Hn1 Hid1. destruct (IH (id :: visited) L1) as [? ?]; [done| | | | |].
    - by constructor.
    - intros x Hx. rewrite Hn1. apply elem_of_cons in Hx as [->|?]; auto.
    - intros x [->|Hx]%elem_of_cons; [done|]. destruct (Hvis _ Hx) as (u & Hu & Hus & Hue).
      pose proof (calms_advance _ _ HL Hs1) as Hadv.
      destruct (ad_heap _ _ Hadv _ _ Hu) as (u' & Hu' & _). exists u'. split; [done|].
      by eapply exempt_advance.
    - rewrite Hn1. simpl. lia.
    - split; [by etrans|done]. }
  destruct (exempt_from_pause w) eqn:He.
  { apply Hrec; [done|apply rtc_refl|done|]. exists w. split; [done|]. split; [|done].
    destruct Ha as [-> | ->]; done. }
  set (w1 := set_refusal (pausedError options (label w)) w).
  unfold update_waiter. rewrite (alter_eq _ _ _ _ Hw). fold w1.
  change (set_waiters (<[id:=w1]> (waiters L)) L) with (put id w1 L).
  assert (calm L (put id w1 L)) as Hc
    by (eapply (calm_put _ _ id w); [by apply m_refusal|done|done|done]).
  assert (inv (put id w1 L)) as HL1 by (eapply micro_inv; [done|apply Hc]).
  assert (waiters (put id w1 L) !! id = Some w1) as Hw1 by (simpl; by rewrite lookup_insert_eq).
  pose proof (release_settles world id _ w1 HL1 Hw1 Ha) as [Hrel _].
  apply Hrec.
  - by eapply calms_inv.
  - eapply rtc_l; [exact Hc|exact Hrel].
  - by rewrite (release_next id _ w1).
  - pose proof (m_release _ _ _ Hw1 Ha) as Hm. unfold release. rewrite Hw1.
    rewrite decide_False by (destruct Ha as [Ha|Ha]; simpl; by rewrite Ha).
    unfold update_waiter. rewrite (alter_eq _ _ _ _ Hw1).
    exists (set_state Done w1). split; [|split; [done|]].
    2:{ rewrite exempt_privileged, orb_true_iff. by right. }
    apply (gr_still _ _ (grant_grew world _ (micro_inv _ _ HL1 Hm))); [|done].
    simpl. by rewrite lookup_insert_eq.
Qed.

Lemma withdraw_fold ids : ∀ L,
  inv L → NoDup ids →
  (∀ id, id ∈ ids → ∃ w, waiters L !! id = Some w ∧ state w = Waiting) →
  let L' := fold_left (withdraw_paused options) ids L in
  rtc calm L L' ∧ paused L' = paused L ∧
  (∀ id w, waiters L' !! id = Some w → state w = Waiting →
     id ∉ ids ∧ waiters L !! id = Some w).
Proof.
  induction ids as [|id ids IH]; intros L HL Hnd Hids; simpl.
  { split; [apply rtc_refl|]. split; [done|]. intros id w Hw _. split; [set_solver|done]. }
  apply NoDup_cons in Hnd as [Hid Hnd]. destruct (Hids id) as (w & Hw & Hs); [set_solver|].
  pose proof (reject_calm id (pausedError options (label w)) w L Hw Hs) as Hc.
  assert (withdraw_paused options L id = reject id (pausedError options (label w)) (remove id L))
    as -> by (unfold withdraw_paused; by rewrite Hw).
  assert (∀ x, x ≠ id → waiters (reject id (pausedError options (label w)) (remove id L)) !! x
    = waiters L !! x) as Hother.
  { intros x Hx. unfold reject, update_waiter. simpl. rewrite lookup_alter_ne by done.
    by destruct (remove_fields id L) as (_ & _ & _ & _ & _ & -> & _). }
  set (L1 := reject _ _ _) in *.
  assert (inv L1) as HL1 by (eapply micro_inv; [done|apply Hc]).
  destruct (IH L1) as (Hs1 & Hp1 & Hw1); [done|done| |].
  { intros x Hx. rewrite Hother by set_solver. apply Hids. set_solver. }
  split; [by eapply rtc_l|]. split; [rewrite Hp1; apply Hc|].
  intros x u Hu Hus. destruct (Hw1 _ _ Hu Hus) as [Hx1 Hx2].
  destruct (decide (x = id)) as [->|Hne].
  - exfalso. pose proof (ad_heap _ _ (calm_advance _ _ HL Hc) _ _ Hw) as (w1 & Hw1' & _).
    assert (state w1 = Done).
    { unfold L1, reject, update_waiter in Hw1'. simpl in Hw1'.
      rewrite lookup_alter_eq in Hw1'.
      destruct (remove_fields id L) as (_ & _ & _ & _ & _ & E & _). rewrite E, Hw in Hw1'.
      simpl in Hw1'. by simplify_eq. }
    simplify_eq. congruence.
  - rewrite Hother in Hx2 by done. set_solver.
Qed.

(** Every operation that has not started may go on. *)
Definition paused_ok (L : Lanes) : Prop :=
  paused L = true → ∀ id w, waiters L !! id = Some w → unstarted w → privileged w = true.

Lemma advance_paused_ok L L' : advance L L' → paused_ok L → paused_ok L'.
Proof.
  intros Ha Hok Hp id w' Hw' Hu. rewrite (ad_paused _ _ Ha) in Hp.
  destruct (ad_back _ _ Ha _ _ Hw' Hu) as (w & Hw & ? & Hk & _).
  rewrite (privileged_kind _ _ Hk). by eapply Hok.
Qed.

Lemma withdrawn_list L :
  inv L →
  let ids := List.filter (λ id, negb (carries_on (waiters L) id))
    (waiting L ++ List.filter (is_continuation (waiters L)) (nested_queue L)) in
  NoDup ids ∧ (∀ id, id ∈ ids → ∃ w, waiters L !! id = Some w ∧ state w = Waiting) ∧
  (∀ id w, waiters L !! id = Some w → state w = Waiting → id ∉ ids → privileged w = true).
Proof.
  intros HL ids.
  assert (∀ id, id ∈ ids ↔ carries_on (waiters L) id = false ∧
    (id ∈ waiting L ∨ (id ∈ nested_queue L ∧ is_continuation (waiters L) id = true))) as Hids.
  { intros id. unfold ids. rewrite elem_of_bfilter, elem_of_app, elem_of_bfilter, negb_true_iff.
    naive_solver. }
  split; [|split].
  - apply NoDup_bfilter, NoDup_app. split; [apply HL|]. split; [|apply NoDup_bfilter, HL].
    intros x Hx Hx'. apply elem_of_bfilter in Hx' as [Hx' _].
    apply HL in Hx as (w & Hw & _ & ?), Hx' as (u & Hu & _ & ?). simplify_eq. congruence.
  - intros id Hid. apply Hids in Hid as (_ & [Hid|[Hid _]]); apply HL in Hid as (w & ? & ? & _);
      eauto.
  - intros id w Hw Hs Hn. rewrite Hids in Hn. unfold carries_on, is_continuation in Hn.
    rewrite Hw in Hn. unfold privileged. destruct (carriesOnWhilePaused w); [by rewrite orb_true_r|].
    destruct (nested w) eqn:Hnw.
    + destruct (continuation w); [|done]. exfalso. apply Hn. split; [done|]. right.
      split; [|done]. apply HL. exists w. done.
    + exfalso. apply Hn. split; [done|]. left. apply HL. exists w. done.
Qed.

Lemma setPaused_spec p L :
  inv L → stable L →
  rtc calm (set_paused p L) (setPaused options world p L) ∧
  stable (setPaused options world p L) ∧ paused_ok (setPaused options world p L).
Proof.
  intros HL Hst. unfold setPaused.
  assert (micro L (set_paused p L)) as Hm by apply m_paused.
  pose proof (micro_inv _ _ HL Hm) as HL0.
  destruct p; simpl.
  2:{ split; [by apply rtc_refl|]. split; [|by intros ?].
      eapply stable_ext; [| | | |exact Hst]; done. }
  destruct (withdrawn_list _ HL0) as (Hnd & Hids & Hpriv).
  destruct (withdraw_fold _ _ HL0 Hnd Hids) as (Hs1 & _ & Hw1).
  cbv zeta in *. simpl in *.
  match goal with |- context [pause_active _ _ _ _ ?X] => set (L1 := X) in * end.
  pose proof (calms_inv _ _ HL0 Hs1) as HL1.
  pose proof (pause_active_spec (S (next L1)) [] L1 HL1) as Hpa. simpl in Hpa.
  ospecialize* Hpa.
  { constructor. } { intros x Hx. by apply elem_of_nil in Hx. }
  { intros x Hx. by apply elem_of_nil in Hx. } { lia. }
  destruct Hpa as [Hs2 Hex].
  match goal with |- context [grant _ ?X] => set (L2 := X) in * end.
  pose proof (calms_inv _ _ HL1 Hs2) as HL2.
  destruct (grant_settles world L2 HL2) as [Hs3 Hst3].
  split; [|split; [done|]].
  - etrans; [exact Hs1|]. by etrans.
  - apply (advance_paused_ok L2); [by apply calms_advance|].
    intros _ id w Hw Hu. destruct Hu as [Hu|Hu].
    + pose proof (calms_advance _ _ HL1 Hs2) as Ha.
      destruct (ad_back _ _ Ha _ _ Hw (or_introl Hu)) as (u & Hu1 & Hus & Hk & Hle & _).
      rewrite (privileged_kind _ _ Hk). rewrite Hu in Hle.
      assert (state u = Waiting) as Hus' by (by destruct (state u)).
      destruct (Hw1 _ _ Hu1 Hus') as [Hnid Hu0]. by eapply Hpriv.
    + pose proof (Hex _ _ Hw (or_introl Hu)) as He. rewrite exempt_privileged, Hu in He.
      by rewrite orb_false_r in He.
Qed.
End Pausing.

(** ** Arrival *)

Lemma stuck_weaken locks H B H' B' ws :
  (∀ l, l ∈ H ++ B → l ∈ H' ++ B') → stuck locks H B ws → stuck locks H' B' ws.
Proof.
  revert B B'. induction ws as [|w ws IH]; simpl; intros B B' Hsub; [done|].
  destruct (locks w) as [ls|]; [|done]. intros [Hn Hs]. split.
  - intros Hc. apply Hn. intros x y Hx Hy. apply Hc; auto.
  - eapply IH; [|exact Hs]. intros l. rewrite !(assoc_L (++)), !(elem_of_app (_ ++ _)).
    intros [?|?]; [left; auto|by right].
Qed.

Lemma stuck_app locks H B ws vs : stuck locks H B (ws ++ vs) → stuck locks H B ws.
Proof.
  revert B. induction ws as [|w ws IH]; simpl; intros B; [done|].
  destruct (locks w); [|done]. naive_solver.
Qed.

(** Only the newest of a line may start when the rest of it is stuck. *)
Lemma select_newest world ws id : ∀ held blocked H B heap sel held' heap',
  table_holds held H → table_holds blocked B → stuck (waiter_locks heap) H B ws →
  select_loop (store := LockTable_store) (Some (admit_callback world)) waiter_locks (ws ++ [id])
    held blocked heap = (sel, held', heap') →
  (sel = MkSelection [] [] ∧ held' = held ∧ heap' = heap) ∨ id ∈ granted sel ++ dropped sel.
Proof.
  induction ws as [|w ws IH]; simpl; intros held blocked H B heap sel held' heap' HH HB Hs Hsel.
  - destruct (waiter_locks heap id); [|simplify_eq; by left].
    destruct (negb (forallb _ _)); [simplify_eq; by left|].
    destruct (admit_callback world id heap) as [[] heap1]; simplify_eq/=; right; set_solver.
  - destruct (waiter_locks heap w) as [ls|] eqn:Hls; [|simplify_eq; by left].
    destruct Hs as [Hn Hs].
    pose proof (free_spec (store := LockTable_store) held blocked H B ls HH HB) as Hf.
    simpl in Hf. destruct (forallb _ ls); [exfalso; by apply Hn, Hf|]. simpl in Hsel.
    eapply (IH _ _ H (B ++ ls)); [done|by apply take_locks_spec|done|done].
Qed.

Lemma grant_nested_newest world todo id : ∀ kept blocked L,
  inv L → nested_queue L = kept ++ todo ++ [id] → all_stuck L (kept ++ todo) →
  ∃ blocked', grant_nested world kept (todo ++ [id]) blocked L =
              grant_nested world (kept ++ todo) [id] blocked' L.
Proof.
  induction todo as [|x rest IH]; intros kept blocked L HL Hq Hst.
  { rewrite app_nil_r. by eexists. }
  assert (x ∈ nested_queue L) as Hin by (rewrite Hq; set_solver).
  apply HL in Hin as (w & Hw & _ & _).
  assert (∀ b, ∃ blocked', grant_nested world (kept ++ [x]) (rest ++ [id]) b L =
    grant_nested world (kept ++ x :: rest) [id] blocked' L) as Hnext.
  { intros b. replace (kept ++ x :: rest) with ((kept ++ [x]) ++ rest)
      by (by rewrite <-(assoc_L (++))).
    apply IH; [done|by rewrite <-(assoc_L (++))|by rewrite <-(assoc_L (++))]. }
  simpl. rewrite Hw. destruct (locks w) as [ls|] eqn:Hls; [|apply Hnext].
  destruct (existsb (conflicts (held L)) ls) eqn:Hc; [apply Hnext|].
  apply (free_check _ _ HL) in Hc. exfalso. apply (Hst x ls); [set_solver| |done].
  by rewrite <-Hls; apply lk_lookup.
Qed.

Lemma has_state_true s L id :
  has_state s L id = true ↔ ∃ w, waiters L !! id = Some w ∧ state w = s.
Proof.
  unfold has_state. destruct (waiters L !! id) as [w|]; [|naive_solver].
  rewrite bool_decide_eq_true. naive_solver.
Qed.

(** The rest of the line being stuck, an operation just admitted that still
    waits has changed nothing. *)
Lemma grant_newest_line world L q id :
  inv L → all_stuck L (nested_queue L) → waiting L = q ++ [id] →
  stuck (lk L) (holding L) (locks_of (lk L) (nested_queue L)) q →
  has_state Waiting (grant world L) id = true → grant world L = L.
Proof.
  intros HL Hst Hq Hline Hwait.
  assert (∃ w, waiters L !! id = Some w ∧ state w = Waiting ∧ nested w = false) as (w & Hw & _ & Hn).
  { apply HL. rewrite Hq. set_solver. }
  pose proof (grant_grew world L HL) as Hgrew. revert Hwait Hgrew.
  pose proof (grant_inv world L HL) as HL'. revert HL'. unfold grant.
  destruct (grant_nested_stuck world (nested_queue L) [] ∅ L HL eq_refl Hst) as [blocked Hb].
  rewrite Hb.
  destruct (grant_nested_spec world _ [] ∅ L L blocked HL eq_refl) as (_ & _ & _ & HB);
    [done|intros ? ? Hx; by apply elem_of_nil in Hx|done|].
  unfold selectGrants. simpl. rewrite Hq.
  destruct (select_loop _ _ _ _ _ _) as [[sel held'] heap] eqn:Hsel. intros HL' Hwait Hgrew.
  destruct (select_newest world q id _ _ _ _ _ _ _ _ (inv_held _ HL) HB Hline Hsel)
    as [(-> & -> & ->)|Hin]; [by destruct L|]. exfalso.
  set (L' := fold_left _ _ _) in *.
  apply has_state_true in Hwait as (w' & Hw' & Hs').
  destruct (gr_kind _ _ Hgrew _ _ Hw) as (u & Hu & _ & Hn' & _). simplify_eq.
  assert (id ∈ waiting L') as Hidw by (apply HL'; exists w'; split; [done|split; [done|congruence]]).
  assert (waiting L' = fold_left (λ q id, splice_out id q) (granted sel ++ dropped sel) (waiting L))
    as E.
  { rewrite <-Hq in Hsel. by apply (grant_line world L blocked sel held' heap L' HL HB Hst Hsel). }
  rewrite E in Hidw. apply fold_splice_out in Hidw as [_ ?]; [done|]. apply HL.
Qed.

Lemma grant_newest_nested world L q id :
  inv L → nested_queue L = q ++ [id] → all_stuck L q →
  stuck (lk L) (holding L) (locks_of (lk L) q) (waiting L) →
  has_state Waiting (grant world L) id = true → grant world L = L.
Proof.
  intros HL Hq Hst Hline Hwait.
  assert (∃ w, waiters L !! id = Some w ∧ state w = Waiting ∧ nested w = true) as (w & Hw & Hsw & Hn).
  { apply HL. rewrite Hq. set_solver. }
  assert (lk L id = locks w) as Hlk by (by apply lk_lookup).
  assert ((∀ ls, locks w = Some ls → ¬ compatible (holding L) ls) → grant world L = L) as Hdone.
  { intros Hid. apply grant_stable; [done|]. split.
    - intros x ls. rewrite Hq. intros [Hx| ->%list_elem_of_singleton]%elem_of_app Hls;
        [by eapply Hst|]. apply Hid. by rewrite <-Hls.
    - rewrite Hq, locks_of_snoc. eapply stuck_weaken, Hline. set_solver. }
  destruct (locks w) as [ls|] eqn:Hls; [|by apply Hdone].
  destruct (existsb (conflicts (held L)) ls) eqn:Hc.
  { apply Hdone. intros ? [= <-]. rewrite <-free_check by done. congruence. }
  exfalso. apply (free_check _ _ HL) in Hc as Hfree. revert Hwait. unfold grant.
  rewrite Hq. destruct (grant_nested_newest world q id [] ∅ L HL Hq Hst) as [b Hb].
  change ([] ++ q) with q in Hb. rewrite Hb. destruct (grant_nested world q [id] b L) as [L1 blocked] eqn:E.
  destruct (grant_nested_spec world (q ++ [id]) [] ∅ L L1 blocked HL Hq) as (Hs & _ & Hst1 & Hb1).
  { intros k. apply lookup_empty. } { intros x y Hx. by apply elem_of_nil in Hx. }
  { by rewrite Hb. }
  destruct (selectGrants _ _ _ _ _ _) as [[sel held'] heap] eqn:Hsel.
  destruct (grant_line world L1 blocked sel held' heap _ (gsteps_inv _ _ HL Hs) Hb1 Hst1 Hsel eq_refl)
    as (Hs2 & _ & _).
  assert (∃ w1, waiters L1 !! id = Some w1 ∧ state w1 ≠ Waiting) as (w1 & Hw1 & Hs1).
  { simpl in E. rewrite Hw, Hls, Hc in E.
    destruct (if continuation w then _ else _); [|destruct (precondition_holds world w)];
      simpl in E; injection E as <- <-; simpl;
      rewrite ?lookup_alter_eq, Hw; eexists; (split; [reflexivity|]); done. }
  pose proof (gr_still _ _ (gsteps_grew _ _ Hs2) _ _ Hw1 Hs1) as Hfin.
  intros (u & Hu & Hus)%has_state_true. congruence.
Qed.

Section Admission.
Variables (options : LanesOptions) (world : World).

(** The state [#admit] grants in: the newcomer in its queue, its locks set
    if it knows them. *)
Definition joined (admission : LaneAdmission) (inside : bool) (L : Lanes) : Lanes :=
  let w := new_waiter admission inside in
  join_queue admission (next L) w (arrive w L).

Lemma new_waiter_newcomer admission inside : newcomer (new_waiter admission inside).
Proof.
  split; simpl; try done. intros ->. by rewrite orb_true_r.
Qed.

Definition joined_waiter (admission : LaneAdmission) (inside : bool) : Waiter :=
  match a_locks admission with
  | Known ls => set_locks (Some (normalizeLocks ls)) (new_waiter admission inside)
  | Lookup => new_waiter admission inside
  end.

Lemma joined_eq admission inside L :
  joined admission inside L =
  push (nested (new_waiter admission inside)) (next L)
    (arrive (joined_waiter admission inside) L).
Proof.
  unfold joined, join_queue, joined_waiter, push, update_waiter. set (w := new_waiter _ _).
  destruct (a_locks admission) as [ls|]; [|by destruct (nested w)].
  assert (∀ X : gmap nat Waiter, alter (set_locks (Some (normalizeLocks ls))) (next L)
    (<[next L:=w]> X) = <[next L:=set_locks (Some (normalizeLocks ls)) w]> X) as E.
  { intros X. rewrite (alter_eq _ _ _ w) by (by rewrite lookup_insert_eq).
    by rewrite insert_insert_eq. }
  destruct (nested w); unfold set_waiters, set_nested, set_waiting, arrive; simpl; by rewrite E.
Qed.

Lemma joined_micros admission inside L : rtc micro L (joined admission inside L).
Proof.
  pose proof (new_waiter_newcomer admission inside) as Hn.
  eapply rtc_l; [by apply (m_join L _ Hn)|].
  set (L1 := push _ _ _). unfold joined, join_queue.
  destruct (a_locks admission) as [ls|]; [|by apply rtc_refl].
  assert (waiters L1 !! next L = Some (new_waiter admission inside)) as Hw.
  { unfold L1, push. destruct (nested _); simpl; by rewrite lookup_insert_eq. }
  unfold update_waiter. apply rtc_once.
  replace (alter _ _ _) with
    (<[next L := set_locks (Some (normalizeLocks ls)) (new_waiter admission inside)]> (waiters L1)).
  - apply (m_locks L1 _ _ ls Hw); done.
  - by rewrite <-(alter_eq _ _ _ _ Hw).
Qed.

Lemma joined_waiters admission inside L :
  waiters (joined admission inside L) = <[next L := joined_waiter admission inside]> (waiters L).
Proof. rewrite joined_eq. unfold push. by destruct (nested _). Qed.

(** Turning a newcomer away before it joined touches nothing else. *)
Lemma turned_away_eq id e w L :
  id = next L → reject id e (arrive w L) = arrive (rejected e w) L.
Proof.
  intros ->. unfold reject, update_waiter, arrive, set_waiters. simpl. f_equal.
  rewrite (alter_eq _ _ _ w) by (by rewrite lookup_insert_eq). by rewrite insert_insert_eq.
Qed.

(** Lanes that agree but for waiters that hold no place in them. *)
Definition same_places (L L' : Lanes) : Prop :=
  waiting L' = waiting L ∧ nested_queue L' = nested_queue L ∧ active L' = active L ∧
  held L' = held L ∧ exclusiveStarts L' = exclusiveStarts L ∧ paused L' = paused L ∧
  ∀ id w, waiters L !! id = Some w → waiters L' !! id = Some w.

Lemma same_places_stable L L' : inv L → same_places L L' → stable L → stable L'.
Proof.
  intros HL (E1 & E2 & E3 & _ & _ & _ & Hw). apply stable_ext; try done.
  intros id Hid. assert (∃ w, waiters L !! id = Some w) as [w Hid'].
  { rewrite !elem_of_app in Hid.
    destruct Hid as [Hid|[Hid|Hid]]; apply HL in Hid as (w & ? & _); by exists w. }
  unfold lk. rewrite (lk_lookup _ _ _ Hid'). apply lk_lookup. by apply Hw.
Qed.

Lemma arrive_same_places w L : inv L → same_places L (arrive w L).
Proof.
  intros HL. repeat split; try done. intros id u Hu. simpl. rewrite lookup_insert_ne; [done|].
  intros <-. pose proof (inv_fresh_none L HL). congruence.
Qed.

Lemma own_ext L L' :
  waiting L' = waiting L → nested_queue L' = nested_queue L →
  (∀ id, id ∈ nested_queue L → waiters L' !! id = waiters L !! id) →
  waitingOnTheirOwn L' = waitingOnTheirOwn L.
Proof.
  intros E1 E2 Hw. unfold waitingOnTheirOwn. rewrite E1, E2. do 3 f_equal.
  apply List.filter_ext_in. intros id Hid%list_elem_of_In. unfold is_continuation.
  by rewrite Hw.
Qed.

Lemma own_arrive w L : inv L → waitingOnTheirOwn (arrive w L) = waitingOnTheirOwn L.
Proof.
  intros HL. apply own_ext; [done|done|]. intros id Hid. simpl. rewrite lookup_insert_ne; [done|].
  intros <-. apply HL in Hid as (u & Hu & _). pose proof (inv_fresh_none L HL). congruence.
Qed.

(** Where the lanes stand before the newcomer, once it is in its queue. *)
Lemma joined_before admission inside L :
  inv L → stable L →
  let L1 := joined admission inside L in
  let w := new_waiter admission inside in
  let id := next L in
  inv L1 ∧
  (if nested w
   then waiting L1 = waiting L ∧ nested_queue L1 = nested_queue L ++ [id] ∧
        all_stuck L1 (nested_queue L) ∧
        stuck (lk L1) (holding L1) (locks_of (lk L1) (nested_queue L)) (waiting L1)
   else waiting L1 = waiting L ++ [id] ∧ nested_queue L1 = nested_queue L ∧
        all_stuck L1 (nested_queue L1) ∧
        stuck (lk L1) (holding L1) (locks_of (lk L1) (nested_queue L1)) (waiting L)).
Proof.
  intros HL Hst L1 w id. split; [by eapply micros_inv, joined_micros|].
  pose proof (arrive_same_places (joined_waiter admission inside) L HL) as Hsame.
  pose proof (same_places_stable _ _ HL Hsame Hst) as [Hn Hl].
  assert (∀ x, lk L1 x = lk (arrive (joined_waiter admission inside) L) x) as Hlk.
  { intros x. unfold lk, L1. by rewrite joined_waiters. }
  unfold L1 in *. rewrite joined_eq in *. unfold push in *. fold w in Hlk |- *.
  destruct (nested w); simpl in *; repeat split; try done.
Qed.

(** The two refusals before a newcomer joins, and what follows when it does. *)
Lemma admit_cases admission inside L :
  inv L → stable L →
  let w := new_waiter admission inside in
  let id := next L in
  let L1 := joined admission inside L in
  let L2 := grant world L1 in
  let '(ticket, L') := admit_waiter options world admission inside L in
  t_waiter ticket = id ∧ grantedAtOnce ticket = has_state Granted L' id ∧
  ((∃ e, inside = false ∧ L' = arrive (rejected e w) L ∧
      ((paused L = true ∧ carriesOnWhilePaused w = false) ∨
       (waitingOnTheirOwn L >= maxWaiting options)%Z)) ∨
   ((inside = false → (paused L = true → carriesOnWhilePaused w = true) ∧
      (waitingOnTheirOwn L < maxWaiting options)%Z) ∧
    ((L' = L2 ∧
      (has_state Waiting L2 id = true → a_whenBusy admission ≠ Some Refuse)) ∨
     (has_state Waiting L2 id = true ∧ L2 = L1 ∧ ∃ b e, blockedBy e = Some b ∧
        L' = reject id e (remove id L1))))).
Proof.
  intros HL Hst w id L1 L2. unfold admit_waiter. fold w id.
  change (MkLanes _ _ _ _ _ _ _ _) with (arrive w L).
  change (paused (arrive w L)) with (paused L). rewrite own_arrive by done.
  change (join_queue admission id w (arrive w L)) with L1. fold L2.
  split; [done|]. split; [done|].
  destruct (negb inside && paused L && negb (carriesOnWhilePaused w)) eqn:Hpause.
  { bool_to_prop. left. eexists. rewrite turned_away_eq by done. split; [done|]. auto. }
  destruct (negb inside && bool_decide _) eqn:Hbusy.
  { apply andb_true_iff in Hbusy as [Hin Hb]. bool_to_prop. left. eexists. split; [done|].
    rewrite turned_away_eq by done. split; [reflexivity|]. by right. }
  right. split.
  { intros ->. simpl in *. split.
    - intros Hp. rewrite Hp in Hpause. simpl in Hpause. by bool_to_prop.
    - bool_to_prop. lia. }
  destruct (a_whenBusy admission) as [choice|] eqn:Hbu; [|by left].
  destruct (has_state Waiting L2 id) eqn:Hwait; [|by left].
  destruct (refuses_busy _ _) eqn:Hrb.
  2:{ left. split; [done|]. by intros _ [= ->]. }
  right. split; [done|].
  destruct (joined_before admission inside L HL Hst) as [HL1 Hbefore].
  assert (L2 = L1) as ->.
  { fold w L1 id in Hbefore. destruct (nested w).
    - destruct Hbefore as (_ & Hq & ? & ?). by eapply grant_newest_nested.
    - destruct Hbefore as (Hq & _ & ? & ?). by eapply grant_newest_line. }
  split; [done|]. unfold refuseBusy. eexists _, (MkRejected _ _ (Some _)). split; reflexivity.
Qed.
End Admission.
