(* ===== verification/LanesFacts.v ===== *)
(** * Operation lanes: what they guarantee

    The theorems about [OperationLanes] as its callers see it, on every state
    a run of public calls can reach ([Lanes.reachable]). *)
From S2P Require Import Prelude Locks Grants Lanes LanesInv LanesGrant LanesSteps.

(** ** What holds in every reachable state *)

(** Operations that arrived on their own and wait. *)
Definition own_bound (options : LanesOptions) (L : Lanes) : Prop :=
  (waitingOnTheirOwn L ≤ Z.max 0 (maxWaiting options))%Z.

Record good (options : LanesOptions) (L : Lanes) : Prop := {
  gd_inv : inv L;
  gd_stable : stable L;
  gd_paused : paused_ok L;
  gd_own : own_bound options L;
}.

Lemma sublist_bfilter_length {A} (f g : A → bool) l k :
  l `sublist_of` k → (∀ x, x ∈ l → f x = true → g x = true) →
  length (List.filter f l) ≤ length (List.filter g k).
Proof.
  induction 1 as [|x l k Hs IH|x l k Hs IH]; simpl; intros Hfg; [done| |].
  - specialize (IH ltac:(intros; apply Hfg; set_solver)).
    destruct (f x) eqn:Hf; [rewrite (Hfg x) by set_solver; simpl; lia|].
    destruct (g x); simpl; lia.
  - specialize (IH Hfg). destruct (g x); simpl; lia.
Qed.

Lemma own_advance L L' :
  inv L' → advance L L' → (waitingOnTheirOwn L' ≤ waitingOnTheirOwn L)%Z.
Proof.
  intros HL' Ha. unfold waitingOnTheirOwn.
  pose proof (sublist_length _ _ (ad_waiting _ _ Ha)).
  pose proof (sublist_bfilter_length (is_continuation (waiters L')) (is_continuation (waiters L))
    _ _ (ad_nested _ _ Ha)) as Hf.
  ospecialize* Hf; [|lia]. intros id Hid Hc.
  apply HL' in Hid as (w' & Hw' & Hs & _). unfold is_continuation in *. rewrite Hw' in Hc.
  destruct (ad_back _ _ Ha _ _ Hw' (or_introl Hs)) as (w & -> & _ & (_ & _ & Hk & _) & _).
  congruence.
Qed.

Lemma good_advance options L L' :
  good options L → inv L' → stable L' → advance L L' → good options L'.
Proof.
  intros [] ? ? Ha. split; [done|done|by eapply advance_paused_ok|].
  unfold own_bound in *. pose proof (own_advance _ _ H Ha). lia.
Qed.

Lemma good_settles options L L' : good options L → settles L L' → good options L'.
Proof.
  intros Hg [Hs Hst]. eapply good_advance; [done| |done|].
  - by eapply calms_inv, Hs; apply Hg.
  - by apply calms_advance; [apply Hg|].
Qed.

Lemma good_empty options : good options empty_lanes.
Proof.
  split; [apply inv_empty| | |].
  - split; [|done]. intros id ls Hid. by apply elem_of_nil in Hid.
  - intros Hp. done.
  - unfold own_bound, waitingOnTheirOwn. simpl. lia.
Qed.

(** A newcomer that only arrives turned away. *)
Lemma arrive_rejected options L w e :
  good options L → newcomer w →
  rtc micro L (arrive (rejected e w) L) ∧ good options (arrive (rejected e w) L).
Proof.
  intros Hg Hn. assert (micro L (arrive (rejected e w) L)) as Hm by (by apply m_turned_away).
  split; [by apply rtc_once|]. eapply good_advance; [done| | |].
  - eapply micro_inv; [apply Hg|done].
  - eapply same_places_stable; [|by apply arrive_same_places, Hg|]; apply Hg.
  - apply calm_advance; [apply Hg|]. split; [done|]. split; [done|]. intros id w' Hnone Hw'.
    simpl in Hw'. destruct (decide (id = next L)) as [->|].
    + rewrite lookup_insert_eq in Hw'. by simplify_eq.
    + rewrite lookup_insert_ne in Hw' by done. congruence.
Qed.

Lemma joined_lookup admission inside L id w :
  waiters (joined admission inside L) !! id = Some w →
  (id = next L ∧ w = joined_waiter admission inside) ∨ waiters L !! id = Some w.
Proof.
  rewrite joined_waiters. destruct (decide (id = next L)) as [->|].
  - rewrite lookup_insert_eq. intros [= <-]. by left.
  - rewrite lookup_insert_ne by done. by right.
Qed.

Lemma joined_waiter_kind admission inside :
  same_kind (new_waiter admission inside) (joined_waiter admission inside).
Proof. unfold joined_waiter. by destruct (a_locks admission). Qed.

Lemma joined_paused admission inside L : paused (joined admission inside L) = paused L.
Proof. rewrite joined_eq. unfold push. by destruct (nested _). Qed.

Lemma joined_paused_ok admission inside L :
  paused_ok L →
  (inside = false → paused L = true → carriesOnWhilePaused (new_waiter admission inside) = true) →
  paused_ok (joined admission inside L).
Proof.
  intros Hok Hg Hp id w Hw Hu. rewrite joined_paused in Hp.
  apply joined_lookup in Hw as [[-> ->]|Hw]; [|by eapply Hok].
  rewrite (privileged_kind _ _ (joined_waiter_kind admission inside)).
  unfold privileged. destruct inside; simpl; [done|]. rewrite orb_true_iff. right. by apply Hg.
Qed.

Lemma joined_own admission inside L :
  inv L →
  waitingOnTheirOwn (joined admission inside L) =
  (waitingOnTheirOwn L + if inside then 0 else 1)%Z.
Proof.
  intros HL. rewrite joined_eq.
  set (jw := joined_waiter admission inside). set (w := new_waiter admission inside).
  pose proof (own_arrive jw L HL) as Ho. unfold waitingOnTheirOwn in *. unfold push.
  assert (is_continuation (waiters (arrive jw L)) (next L) = continuation w) as Hc.
  { unfold is_continuation. simpl. rewrite lookup_insert_eq. apply joined_waiter_kind. }
  destruct (nested w) eqn:Hn; simpl in *.
  - rewrite List.filter_app, length_app. simpl. rewrite Hc.
    unfold w in *. destruct inside; simpl in *; [lia|]. rewrite Hn. simpl. lia.
  - rewrite length_app. simpl. unfold w in Hn. destruct inside; simpl in *; [done|]. lia.
Qed.

(** Refusing a newcomer that joined but must wait undoes its arrival. *)
Lemma turned_away_places admission inside e L :
  inv L → same_places L
    (reject (next L) e (remove (next L) (joined admission inside L))).
Proof.
  intros HL. pose proof (inv_fresh_none _ HL) as Hfresh.
  assert (waiters (joined admission inside L) !! next L = Some (joined_waiter admission inside))
    as Hw' by (by rewrite joined_waiters, lookup_insert_eq).
  pose proof (joined_waiter_kind admission inside) as (_ & Hn & _).
  assert (next L ∉ waiting L ∧ next L ∉ nested_queue L) as [Hnw Hnn].
  { split; intros Hid; apply HL in Hid as (? & ? & _); congruence. }
  unfold reject, update_waiter, remove. rewrite Hw', Hn, joined_eq. unfold push.
  destruct (nested (new_waiter admission inside)) eqn:Hnest; simpl;
    (repeat split; simpl; try done;
     [rewrite splice_out_mid by done; apply app_nil_r|]); intros id w Hw;
    (rewrite lookup_alter_ne, lookup_insert_ne; [done| |]); congruence.
Qed.

Lemma admit_good options world admission inside L :
  good options L →
  let L' := (admit_waiter options world admission inside L).2 in
  rtc micro L L' ∧ good options L'.
Proof.
  intros Hg. pose proof (admit_cases options world admission inside L (gd_inv _ _ Hg)
    (gd_stable _ _ Hg)) as Hc. cbv zeta in Hc.
  destruct (admit_waiter options world admission inside L) as [t L'].
  destruct Hc as (_ & _ & [(e & _ & -> & _)|(Hguard & Hc)]); simpl.
  { apply arrive_rejected; [done|]. apply new_waiter_newcomer. }
  pose proof (joined_micros admission inside L) as Hj.
  pose proof (joined_before admission inside L (gd_inv _ _ Hg) (gd_stable _ _ Hg)) as [HL1 Hbef].
  set (L1 := joined admission inside L) in *.
  assert (paused_ok L1) as Hpok.
  { apply joined_paused_ok; [apply Hg|]. intros Hi. by apply Hguard. }
  assert (own_bound options L1) as Hown.
  { unfold own_bound. unfold L1. rewrite joined_own by apply Hg.
    pose proof (gd_own _ _ Hg). unfold own_bound in *. destruct inside; [lia|].
    destruct (Hguard eq_refl). lia. }
  assert (∀ L', rtc calm L1 L' → stable L' → rtc micro L L' ∧ good options L') as Hfin.
  { intros L2 Hs Hst. split; [etrans; [exact Hj|by apply calms_micros]|].
    pose proof (calms_advance _ _ HL1 Hs) as Ha. pose proof (calms_inv _ _ HL1 Hs) as HL2.
    split; [done|done|by eapply advance_paused_ok|].
    unfold own_bound in *. pose proof (own_advance _ _ HL2 Ha). lia. }
  destruct Hc as [[-> _]|(Hwait & Heq & b & e & _ & ->)].
  { apply Hfin; by apply grant_settles. }
  rewrite Heq in Hwait. apply has_state_true in Hwait as (w' & Hw' & Hs').
  apply Hfin; [apply rtc_once; by eapply reject_calm|].
  assert (w' = joined_waiter admission inside) as ->.
  { unfold L1 in Hw'. rewrite joined_waiters, lookup_insert_eq in Hw'. by simplify_eq. }
  eapply (same_places_stable L); [apply Hg| |apply Hg]. by apply turned_away_places, Hg.
Qed.

Lemma event_good options world ev L L' :
  good options L → lane_event options world ev L = Some L' →
  rtc micro L L' ∧ good options L'.
Proof.
  intros Hg Hev. destruct Hg as [HL Hst Hpo Hown] eqn:Eg. clear Eg.
  assert (∀ L', settles L L' → rtc micro L L' ∧ good options L') as Hset.
  { intros L1 Hs. split; [apply calms_micros, Hs|by eapply good_settles]. }
  destruct ev as [admission inside|id result|id|id|id|p]; simpl in Hev.
  - simplify_eq. by apply admit_good.
  - destruct (waiters L !! id) as [w|] eqn:Hw; [|done].
    apply Hset. destruct (state w) eqn:Hs, (locks w) eqn:Hl; simplify_eq;
      (eapply lookup_settles; [done|done|exact Hw|congruence]).
  - destruct (await_grant id L) as [[]|]; simplify_eq. by apply Hset, begin_settles.
  - destruct (has_state Running L id) eqn:Hr; simplify_eq.
    apply has_state_true in Hr as (w & Hw & Hs). apply Hset.
    eapply release_settles; [done|done|by right].
  - simplify_eq. by apply Hset, cancel_settles.
  - simplify_eq. destruct (setPaused_spec options world p L HL Hst) as (Hs & Hst' & Hpo').
    pose proof (m_paused L p) as Hm. pose proof (micro_inv _ _ HL Hm) as HL0.
    pose proof (calms_inv _ _ HL0 Hs) as HL'.
    split; [eapply rtc_l; [exact Hm|by apply calms_micros]|]. split; [done..|].
    pose proof (own_advance _ _ HL' (calms_advance _ _ HL0 Hs)) as Ho.
    unfold own_bound in *. change (waitingOnTheirOwn (set_paused p L)) with (waitingOnTheirOwn L) in Ho.
    lia.
Qed.

Lemma reachable_good options L : reachable options L → good options L.
Proof.
  induction 1 as [|L world ev L' _ IH Hev]; [apply good_empty|]. by eapply event_good.
Qed.

Lemma micros_evolve L L' : inv L → rtc micro L L' → heap_evolves (waiters L) (waiters L').
Proof.
  intros HL Hs. induction Hs as [L|L1 L2 L3 H12 _ IH].
  - intros id w Hw. exists w. split; [done|apply evolves_refl].
  - intros id w Hw. destruct (micro_evolves _ _ HL H12 _ _ Hw) as (w' & Hw' & ?).
    destruct (IH (micro_inv _ _ HL H12) _ _ Hw') as (w'' & ? & ?). exists w''.
    split; [done|by eapply evolves_trans].
Qed.

Lemma run_events_reachable options evs : ∀ L L',
  reachable options L → run_events options evs L = Some L' → reachable options L'.
Proof.
  induction evs as [|[world ev] evs IH]; intros L L' HL Hrun; simpl in Hrun; [by simplify_eq|].
  destruct (lane_event options world ev L) as [L1|] eqn:Hev; [|done].
  eapply IH; [|exact Hrun]. by eapply reachable_event.
Qed.

(** A run used by the witnesses: a reader starts, a writer waits for it and a
    late reader for the writer, an upload on another resource is granted. *)
Definition sample_events : list (World * LaneEvent) :=
  [(quiet_world, EvAdmit (simple "reader" [shared "a"]) false);
   (quiet_world, EvBegin 0);
   (quiet_world, EvAdmit (simple "writer" [exclusive "a"]) false);
   (quiet_world, EvAdmit (simple "late reader" [shared "a"]) false);
   (quiet_world, EvAdmit (simple "upload" [exclusive "b"]) false)].

Definition sample_lanes : Lanes :=
  default empty_lanes (run_events test_options sample_events empty_lanes).

Lemma sample_reachable : reachable test_options sample_lanes.
Proof.
  eapply run_events_reachable; [apply reachable_empty|].
  instantiate (1 := sample_events). vm_compute. reflexivity.
Qed.

(** ** Exclusion *)

Lemma reachable_locks options L id :
  reachable options L → id ∈ active L → ∃ w ls, waiters L !! id = Some w ∧ locks w = Some ls.
Proof.
  intros Hr%reachable_good Hid. pose proof (gd_inv _ _ Hr) as HL.
  apply HL in Hid as (w & Hw & Ha). exists w.
  destruct (inv_waiters _ HL _ _ Hw) as [Hc _ _].
  destruct Ha as [Ha|Ha]; rewrite Ha in Hc; destruct Hc as [_ [ls ?]]; by exists ls.
Qed.

Lemma active_compatible options L i j a b la lb :
  reachable options L → i ≠ j → active L !! i = Some a → active L !! j = Some b →
  lk L a = Some la → lk L b = Some lb → compatible la lb.
Proof.
  intros Hr Hij Hi Hj Ha Hb. pose proof (gd_inv _ _ (reachable_good _ _ Hr)) as HL.
  pose proof (inv_coherent _ HL) as Hc.
  eapply (coherent_app_iff_flat _ Hc i j); [done| |];
    rewrite !list_lookup_fmap; [rewrite Hi; simpl; by rewrite Ha|rewrite Hj; simpl; by rewrite Hb].
Qed.

(** C1: Two operations that hold locks at the same time never exclude each
    other, whatever sequence of calls led there, and the lock table stands
    for exactly the locks the active operations hold: none is lost, leaked or
    counted twice. *)
Theorem lanes_exclusion options L :
  reachable options L →
  table_holds (held L) (holding L) ∧
  (∀ i j a b la lb, i ≠ j → active L !! i = Some a → active L !! j = Some b →
     lk L a = Some la → lk L b = Some lb → compatible la lb) ∧
  (∀ id, id ∈ active L → is_Some (lk L id)).
Proof.
  intros Hr. pose proof (gd_inv _ _ (reachable_good _ _ Hr)) as HL. split; [apply HL|]. split.
  - intros. by eapply active_compatible.
  - intros id Hid. destruct (reachable_locks _ _ _ Hr Hid) as (w & ls & Hw & Hl).
    exists ls. unfold lk. by rewrite (lk_lookup _ _ _ Hw).
Qed.

Example lanes_exclusion_witness :
  active sample_lanes = [0; 3] ∧ compatible [shared "a"] [exclusive "b"].
Proof.
  split; [vm_compute; reflexivity|].
  apply (proj1 (proj2 (lanes_exclusion test_options sample_lanes sample_reachable)) 0 1 0 3);
    [discriminate|vm_compute; reflexivity..].
Defined.

(** ** Settlement *)

(** Every operation is settled exactly once, as it stops waiting: while it
    waits its caller sees nothing; what holds locks was told so once; and no
    event ever takes an operation back to an earlier state, changes what it
    was told, its kind or the locks it asked for. *)
Theorem lanes_settle_once options L world ev L' :
  reachable options L → lane_event options world ev L = Some L' →
  ∀ id w, waiters L !! id = Some w →
  match state w with
  | Waiting => completions w = []
  | Granted | Running => completions w = [Succeeded]
  | Done => ∃ c, completions w = [c]
  end ∧ ∃ w', waiters L' !! id = Some w' ∧ evolves w w'.
Proof.
  intros Hr%reachable_good Hev id w Hw. pose proof (gd_inv _ _ Hr) as HL. split.
  - destruct (inv_waiters _ HL _ _ Hw) as [Hc _ _].
    destruct (state w); try done; by destruct Hc.
  - destruct (event_good _ _ _ _ _ Hr Hev) as [Hm _]. by eapply micros_evolve.
Qed.

Example lanes_settle_once_witness :
  ∃ w', waiters (default empty_lanes
    (lane_event test_options quiet_world (EvFinish 0) sample_lanes)) !! 1 = Some w' ∧
    state_le Waiting (state w').
Proof.
  edestruct (lanes_settle_once test_options sample_lanes quiet_world (EvFinish 0)
    (default empty_lanes (lane_event test_options quiet_world (EvFinish 0) sample_lanes))
    sample_reachable) with (id := 1) as (_ & w' & Hw' & _ & Hs & _);
    [vm_compute; reflexivity|vm_compute; reflexivity|].
  exists w'. split; [exact Hw'|exact Hs].
Defined.

(** ** Nothing waits that could run *)

Lemma stuck_nonempty_B locks H B w ws ls :
  stuck locks H B (w :: ws) → locks w = Some ls → ∃ l, l ∈ ls ∧ in_the_way (H ++ B) l = true.
Proof.
  simpl. intros Hs Hls. rewrite Hls in Hs. destruct Hs as [Hn _].
  by apply dec_stable_compatible in Hn as (l & ? & ?); eauto.
Qed.

Lemma stuck_lookup locks H ws : ∀ B i id ls,
  stuck locks H B ws → ws !! i = Some id → locks id = Some ls →
  (∃ j x, j < i ∧ ws !! j = Some x ∧ locks x = None) ∨
  (∃ l, l ∈ ls ∧ in_the_way (H ++ B ++ locks_of locks (take i ws)) l = true).
Proof.
  induction ws as [|w ws IH]; intros B i id ls Hs Hi Hls; [done|]. destruct i as [|i]; simpl in Hi.
  - right. simplify_eq. destruct (stuck_nonempty_B _ _ _ _ _ _ Hs Hls) as (l & ? & ?).
    exists l. split; [done|]. by rewrite app_nil_r.
  - simpl in Hs. destruct (locks w) as [lw|] eqn:Hw; [|left; exists 0, w; split; [lia|done]].
    destruct Hs as [_ Hs]. destruct (IH _ _ _ _ Hs Hi Hls) as [(j & x & ? & ? & ?)|(l & ? & Hl)].
    + left. exists (S j), x. split; [lia|done].
    + right. exists l. split; [done|]. simpl. rewrite locks_of_cons, Hw. simpl.
      by rewrite <-!(assoc_L (++)) in Hl.
Qed.

Lemma in_the_way_locks_of (f : nat → option (list LaneLock)) ids l :
  in_the_way (locks_of f ids) l = true →
  ∃ id, id ∈ ids ∧ in_the_way (default [] (f id)) l = true.
Proof.
  induction ids as [|id ids IH]; [done|]. rewrite locks_of_cons, in_the_way_app, orb_true_iff.
  intros [Hw|Hw]; [exists id; set_solver|]. destruct (IH Hw) as (x & ? & ?). exists x. set_solver.
Qed.

Lemma occupant_locks L id : o_locks (occupant (waiters L) id) = default [] (lk L id).
Proof. unfold occupant, lk, waiter_locks. by destruct (waiters L !! id). Qed.

(** An occupant in the way shows up among the reasons. *)
Lemma explain_nonempty L ls holders ahead l x :
  l ∈ ls → in_the_way (default [] (lk L x)) l = true → x ∈ holders ++ ahead →
  explainWait ls (occupant (waiters L) <$> holders) (occupant (waiters L) <$> ahead) ≠ [].
Proof.
  intros Hl Hw Hx He. unfold explainWait in He. apply app_eq_nil in He as [H1 H2].
  assert (∀ b ids, x ∈ ids →
    flat_map (collect_reasons ls b) (occupant (waiters L) <$> ids) ≠ []) as Hf.
  { intros b ids Hin Hnil.
    assert (MkReason (o_id (occupant (waiters L) x)) (key l) b ∈
      flat_map (collect_reasons ls b) (occupant (waiters L) <$> ids)) as Hr.
    { apply list_elem_of_In, in_flat_map. exists (occupant (waiters L) x).
      split; apply list_elem_of_In; [by apply list_elem_of_fmap_2|].
      apply collect_reasons_elem. exists l. by rewrite occupant_locks. }
    rewrite Hnil in Hr. by apply elem_of_nil in Hr. }
  apply elem_of_app in Hx as [Hx|Hx]; by eapply Hf.
Qed.

(** C2: No wakeup is ever lost: in every reachable state granting again would
    change nothing, and the diagnostics explain every wait. An operation
    [describe] lists as waiting with nothing in its way has its locks still
    unknown, or stands behind one whose locks are. *)
Theorem lanes_no_lost_wakeup options L :
  reachable options L →
  (∀ world, grant world L = L) ∧
  ∀ i entry, (describe L).2 !! i = Some entry → is_Some (e_locks entry) →
    waitingOn entry = [] →
    ∃ j entry', j < i ∧ (describe L).2 !! j = Some entry' ∧ e_locks entry' = None.
Proof.
  intros Hr%reachable_good. destruct Hr as [HL Hst _ _]. split; [intros; by apply grant_stable|].
  intros i entry Hi [ls Hls] Hnil. unfold describe in *. simpl in *.
  set (queue := nested_queue L ++ waiting L) in *.
  rewrite list_lookup_imap in Hi. destruct (queue !! i) as [id|] eqn:Hid; [|done].
  simpl in Hi. injection Hi as <-. simpl in Hls, Hnil.
  change (waiter_locks (waiters L) id) with (lk L id) in *. rewrite Hls in Hnil.
  assert (∀ x l, l ∈ ls → x ∈ active L ++ take i queue →
    in_the_way (default [] (lk L x)) l = true → False) as Hno.
  { intros x l Hl Hx Hw. by eapply explain_nonempty. }
  destruct (decide (i < length (nested_queue L))) as [Hlt|Hge].
  - exfalso. unfold queue in Hid. rewrite lookup_app_l in Hid by done.
    pose proof (st_nested _ Hst id ls (list_elem_of_lookup_2 _ _ _ Hid) Hls) as Hn.
    apply dec_stable_compatible in Hn as (l & Hl & Hw).
    apply in_the_way_locks_of in Hw as (x & Hx & Hw). apply (Hno x l); [done| |done]. set_solver.
  - unfold queue in Hid. rewrite lookup_app_r in Hid by lia.
    destruct (stuck_lookup _ _ _ _ _ _ _ (st_line _ Hst) Hid Hls)
      as [(j & x & Hj & Hx & Hnone)|(l & Hl & Hw)].
    + exists (length (nested_queue L) + j), (describe_waiting L queue (length (nested_queue L) + j) x).
      split; [lia|]. split; [|done]. rewrite list_lookup_imap. unfold queue.
      rewrite lookup_app_r by lia.
      replace (length (nested_queue L) + j - length (nested_queue L)) with j by lia. by rewrite Hx.
    + exfalso. rewrite !in_the_way_app, !orb_true_iff in Hw.
      assert (take i queue = nested_queue L ++ take (i - length (nested_queue L)) (waiting L)) as Ht.
      { unfold queue. rewrite take_app. by rewrite take_ge by lia. }
      rewrite Ht in Hno.
      destruct Hw as [Hw|[Hw|Hw]]; apply in_the_way_locks_of in Hw as (x & Hx & Hw);
        (apply (Hno x l); [done| |done]); set_solver.
Qed.

Example lanes_no_lost_wakeup_witness :
  grant quiet_world sample_lanes = sample_lanes ∧ waiting sample_lanes = [1; 2].
Proof.
  split; [|vm_compute; reflexivity].
  exact (proj1 (lanes_no_lost_wakeup test_options sample_lanes sample_reachable) quiet_world).
Defined.

(** ** The lanes drain *)

(** Every operation not done yet. *)
Definition places (L : Lanes) : list nat := waiting L ++ nested_queue L ++ active L.

Lemma places_NoDup L : inv L → NoDup (places L).
Proof.
  intros HL. apply NoDup_app. split; [apply HL|]. split.
  - intros x Hx Hy. apply HL in Hx as (w & Hw & Hs & Hn). apply elem_of_app in Hy as [Hy|Hy];
      apply HL in Hy as (u & Hu & Hu'); simplify_eq.
    + destruct Hu'. congruence.
    + destruct Hu'; congruence.
  - apply NoDup_app. split; [apply HL|]. split; [|apply HL]. intros x Hx Hy.
    apply HL in Hx as (w & Hw & Hs & Hn), Hy as (u & Hu & [?|?]); simplify_eq; congruence.
Qed.

Lemma places_elem L id : inv L → id ∈ places L ↔ ∃ w, waiters L !! id = Some w ∧ state w ≠ Done.
Proof.
  intros HL. unfold places. rewrite !elem_of_app. split.
  - intros [Hid|[Hid|Hid]]; apply HL in Hid as (w & Hw & Hs); exists w; (split; [done|]);
      [destruct Hs as [-> _]|destruct Hs as [-> _]|destruct Hs as [-> | ->]]; done.
  - intros (w & Hw & Hs). destruct (state w) eqn:E; [done| | |].
    + right; right. apply HL. exists w. split; [done|by left].
    + right; right. apply HL. exists w. split; [done|by right].
    + destruct (nested w) eqn:Hn; [right; left|left]; apply HL; by exists w.
Qed.

Lemma calms_live L L' :
  inv L → rtc calm L L' → ∀ id w', waiters L' !! id = Some w' → state w' ≠ Done →
  ∃ w, waiters L !! id = Some w ∧ state w ≠ Done ∧ evolves w w'.
Proof.
  intros HL Hs. induction Hs as [L|L1 L2 L3 H12 Hs IH]; intros id w' Hw' Hd.
  { exists w'. split; [done|]. split; [done|apply evolves_refl]. }
  pose proof (micro_inv _ _ HL (proj1 H12)) as HL2.
  destruct (IH HL2 _ _ Hw' Hd) as (w2 & Hw2 & Hd2 & He2).
  destruct H12 as (Hm & _ & Hnew). destruct (waiters L1 !! id) as [w|] eqn:Hw.
  - destruct (micro_evolves _ _ HL Hm _ _ Hw) as (u & Hu & He). simplify_eq. exists w.
    split; [done|]. split; [|by eapply evolves_trans].
    intros Hd1. destruct He as (_ & Hle & _). rewrite Hd1 in Hle. by destruct (state w2).
  - exfalso. by apply Hd2, (Hnew id).
Qed.

Definition all_known (L : Lanes) : Prop := ∀ id, id ∈ waiting L ++ nested_queue L → is_Some (lk L id).

Lemma calms_places L L' id w' :
  inv L → rtc calm L L' → id ∈ places L → waiters L' !! id = Some w' → state w' = Done →
  length (places L') < length (places L).
Proof.
  intros HL Hs Hid Hw' Hd. pose proof (calms_inv _ _ HL Hs) as HL'.
  assert (length (id :: places L') ≤ length (places L)) as Hle.
  { apply submseteq_length, NoDup_submseteq.
    - constructor; [|by apply places_NoDup]. intros Hin.
      apply (places_elem _ _ HL') in Hin as (u & ? & ?). congruence.
    - intros x [->|Hx]%elem_of_cons; [done|].
      apply (places_elem _ _ HL') in Hx as (u & Hu & Hud).
      destruct (calms_live _ _ HL Hs _ _ Hu Hud) as (w & ? & ? & _).
      apply places_elem; [done|]. by exists w. }
  simpl in Hle. lia.
Qed.

Lemma calms_known L L' : inv L → rtc calm L L' → all_known L → all_known L'.
Proof.
  intros HL Hs Hk id Hid. pose proof (calms_inv _ _ HL Hs) as HL'.
  assert (∃ w', waiters L' !! id = Some w' ∧ state w' = Waiting) as (w' & Hw' & Hs').
  { apply elem_of_app in Hid as [Hid|Hid]; apply HL' in Hid as (w & ? & ? & _); by exists w. }
  destruct (calms_live _ _ HL Hs _ _ Hw') as (w & Hw & _ & _ & Hle & _ & Hl); [congruence|].
  assert (state w = Waiting) as Hsw by (rewrite Hs' in Hle; by destruct (state w)).
  destruct (Hk id) as [ls Hls].
  { apply elem_of_app. destruct (nested w) eqn:Hn; [right|left]; apply HL; by exists w. }
  unfold lk in *. rewrite (lk_lookup _ _ _ Hw) in Hls. rewrite (lk_lookup _ _ _ Hw').
  exists ls. by apply Hl.
Qed.

Lemma idle_empty L : inv L → stable L → all_known L → active L = [] → places L = [].
Proof.
  intros HL [Hn Hl] Hk Ha. unfold places. rewrite Ha.
  assert (holding L = []) as Hh by (unfold holding; by rewrite Ha).
  assert (nested_queue L = []) as Hq.
  { destruct (nested_queue L) as [|id q] eqn:Hq; [done|].
    destruct (Hk id) as [ls Hls]; [rewrite Hq; set_solver|].
    exfalso. apply (Hn id ls); [set_solver|done|]. rewrite Hh. intros x y Hx.
    by apply elem_of_nil in Hx. }
  rewrite Hq in *. destruct (waiting L) as [|id q] eqn:Hw; [done|].
  destruct (Hk id) as [ls Hls]; [rewrite Hw; set_solver|].
  simpl in Hl. rewrite Hls, Hh in Hl. destruct Hl as [Hc _]. exfalso. apply Hc.
  intros x y Hx. by apply elem_of_nil in Hx.
Qed.

(** An operation that holds locks begins, if it has not, and finishes. *)
Definition finish_events (world : World) (L : Lanes) (id : nat) : list (World * LaneEvent) :=
  if has_state Granted L id then [(world, EvBegin id); (world, EvFinish id)]
  else [(world, EvFinish id)].

Lemma finish_spec options world L id :
  good options L → all_known L → id ∈ active L →
  ∃ L', run_events options (finish_events world L id) L = Some L' ∧
    good options L' ∧ all_known L' ∧ length (places L') < length (places L).
Proof.
  intros Hg Hk Hid. pose proof (gd_inv _ _ Hg) as HL.
  pose proof Hid as Hact. apply HL in Hid as (w & Hw & Ha).
  assert (∀ L1 w1, good options L1 → all_known L1 → waiters L1 !! id = Some w1 →
    state w1 = Running → length (places L1) ≤ length (places L) →
    ∃ L', lane_event options world (EvFinish id) L1 = Some L' ∧
      good options L' ∧ all_known L' ∧ length (places L') < length (places L)) as Hfin.
  { intros L1 w1 Hg1 Hk1 Hw1 Hs1 Hle. simpl. exists (release world id L1).
    assert (has_state Running L1 id = true) as -> by (apply has_state_true; by exists w1).
    split; [done|]. pose proof (gd_inv _ _ Hg1) as HL1.
    pose proof (release_settles world id L1 w1 HL1 Hw1 (or_intror Hs1)) as Hset.
    split; [by eapply good_settles|]. split; [eapply calms_known; [done|apply Hset|done]|].
    enough (length (places (release world id L1)) < length (places L1)) by lia.
    pose proof (m_release _ _ _ Hw1 (or_intror Hs1)) as Hm.
    eapply (calms_places _ _ id (set_state Done w1)); [done|apply Hset| | |done].
    - apply places_elem; [done|]. exists w1. by rewrite Hs1.
    - unfold release. rewrite Hw1, decide_False by congruence.
      unfold update_waiter. rewrite (alter_eq _ _ _ _ Hw1).
      apply (gr_still _ _ (grant_grew world _ (micro_inv _ _ HL1 Hm))); [|done].
      simpl. by rewrite lookup_insert_eq. }
  unfold finish_events. destruct Ha as [Ha|Ha].
  - assert (has_state Granted L id = true) as -> by (apply has_state_true; by exists w).
    destruct (inv_waiters _ HL _ _ Hw) as [Hc _ _]. rewrite Ha in Hc. destruct Hc as [Hc _].
    pose proof (begin_settles id L HL (gd_stable _ _ Hg)) as Hset.
    destruct (Hfin (run_begins id L).2 (set_state Running w)) as (L' & Hev & ? & ? & ?).
    + by eapply good_settles.
    + eapply calms_known; [done|apply Hset|done].
    + unfold run_begins. rewrite Hw, decide_True by done. simpl. by rewrite lookup_alter_eq, Hw.
    + done.
    + unfold places, run_begins. by rewrite Hw, decide_True.
    + exists L'. split; [|done]. simpl. unfold await_grant. rewrite Hw, Hc. simpl.
      simpl in Hev. by rewrite Hev.
  - assert (has_state Granted L id = false) as ->.
    { unfold has_state. rewrite Hw. rewrite bool_decide_eq_false. congruence. }
    destruct (Hfin L w Hg Hk Hw Ha) as (L' & Hev & ?); [done|]. exists L'. split; [|done].
    simpl in *. by rewrite Hev.
Qed.

Lemma run_events_app options evs1 : ∀ evs2 L,
  run_events options (evs1 ++ evs2) L =
  match run_events options evs1 L with Some L1 => run_events options evs2 L1 | None => None end.
Proof.
  induction evs1 as [|[world ev] evs1 IH]; intros evs2 L; simpl; [done|].
  by destruct (lane_event options world ev L).
Qed.

Definition runs_or_finishes (ev : World * LaneEvent) : Prop :=
  match ev.2 with EvBegin _ | EvFinish _ => True | _ => False end.

(** C3: The lanes cannot deadlock. From every reachable state in which each
    waiting operation's locks are known, if operations that hold locks run
    and finish then everything does: within two events per operation no one
    holds or waits for anything, whatever the owner's callbacks answer. *)
Theorem lanes_drain options (world : World) L :
  reachable options L → all_known L →
  ∃ evs L', Forall runs_or_finishes evs ∧ length evs ≤ 2 * length (places L) ∧
    run_events options evs L = Some L' ∧
    active L' = [] ∧ waiting L' = [] ∧ nested_queue L' = [].
Proof.
  intros Hg%reachable_good. revert L Hg.
  assert (∀ n L, length (places L) ≤ n → good options L → all_known L →
    ∃ evs L', Forall runs_or_finishes evs ∧ length evs ≤ 2 * length (places L) ∧
      run_events options evs L = Some L' ∧ places L' = []) as H.
  { induction n as [|n IH]; intros L Hn Hg Hk;
      (destruct (active L) as [|id act] eqn:Ha;
       [exists [], L; pose proof (idle_empty L (gd_inv _ _ Hg) (gd_stable _ _ Hg) Hk Ha);
        repeat split; [constructor|simpl; lia|done]|]).
    { unfold places in Hn. rewrite Ha, !length_app in Hn. simpl in Hn. lia. }
    destruct (finish_spec options world L id Hg Hk) as (L1 & Hrun & Hg1 & Hk1 & Hlt);
      [rewrite Ha; set_solver|].
    destruct (IH L1 ltac:(lia) Hg1 Hk1) as (evs & L' & Hev & Hlen & Hrun' & ?).
    exists (finish_events world L id ++ evs), L'. split; [|split; [|split; [|done]]].
    - apply Forall_app. split; [|done]. unfold finish_events.
      destruct (has_state Granted L id); repeat constructor.
    - rewrite length_app. unfold finish_events. destruct (has_state Granted L id); simpl; lia.
    - by rewrite run_events_app, Hrun. }
  intros L Hg Hk. destruct (H _ L ltac:(reflexivity) Hg Hk) as (evs & L' & ? & ? & ? & Hp).
  exists evs, L'. unfold places in Hp.
  apply app_eq_nil in Hp as [? Hp]. apply app_eq_nil in Hp as [? ?]. done.
Qed.

Example lanes_drain_witness :
  length (places sample_lanes) = 4 ∧
  ∃ evs L', Forall runs_or_finishes evs ∧ length evs ≤ 2 * length (places sample_lanes) ∧
    run_events test_options evs sample_lanes = Some L' ∧
    active L' = [] ∧ waiting L' = [] ∧ nested_queue L' = [].
Proof.
  split; [vm_compute; reflexivity|].
  refine (lanes_drain test_options quiet_world sample_lanes sample_reachable _).
  intros id Hid. assert (waiting sample_lanes ++ nested_queue sample_lanes = [1; 2]) as E
    by (vm_compute; reflexivity).
  rewrite E in Hid. repeat (apply elem_of_cons in Hid as [->|Hid]; [by vm_compute; eexists|]).
  exfalso. apply elem_of_nil in Hid. exact Hid.
Defined.

(** ** Pausing *)

(** While the lanes are paused nothing ordinary starts: an operation
    that is neither nested work nor upkeep is never waiting or about to run.
    It is already running, or it is over, and then trying to run it fails and
    changes nothing. *)
Theorem lanes_paused_safe options L :
  reachable options L → paused L = true →
  ∀ id w, waiters L !! id = Some w → privileged w = false →
  (state w = Running ∨ state w = Done) ∧ ∃ e, run_begins id L = (Some e, L).
Proof.
  intros Hg%reachable_good Hp id w Hw Hpr.
  assert (¬ unstarted w) as Hu by (intros Hu; pose proof (gd_paused _ _ Hg Hp _ _ Hw Hu); congruence).
  unfold unstarted in Hu. split; [destruct (state w); tauto|].
  unfold run_begins. rewrite Hw, decide_False by tauto. by eexists.
Qed.

(** The sample run, paused with its writer waiting and its upload granted but
    not begun. *)
Definition paused_lanes : Lanes :=
  default empty_lanes (lane_event test_options quiet_world (EvSetPaused true) sample_lanes).

Lemma paused_reachable : reachable test_options paused_lanes.
Proof.
  eapply (reachable_event _ sample_lanes quiet_world (EvSetPaused true)).
  - apply sample_reachable.
  - vm_compute. reflexivity.
Qed.

Definition paused_upload : Waiter :=
  MkWaiter "upload" false false false (Some [exclusive "b"]) None [Succeeded]
    (Some (pausedError test_options "upload")) None Done.

Example lanes_paused_safe_witness :
  active paused_lanes = [0] ∧ ∃ e, run_begins 3 paused_lanes = (Some e, paused_lanes).
Proof.
  split; [vm_compute; reflexivity|].
  refine (proj2 (lanes_paused_safe test_options paused_lanes paused_reachable _ 3 paused_upload _ _));
    vm_compute; reflexivity.
Defined.

Definition still_running (id : nat) (w : Waiter) (L : Lanes) : Prop :=
  inv L ∧ waiters L !! id = Some w ∧ state w = Running.

Lemma release_still_running world id w x u L :
  still_running id w L → x ≠ id → waiters L !! x = Some u → in_active u →
  still_running id w (release world x L).
Proof.
  intros (HL & Hw & Hs) Hx Hu Ha.
  pose proof (release_settles world x L u HL Hu Ha) as [Hset _].
  split; [by eapply calms_inv|]. split; [|done].
  pose proof (micro_inv _ _ HL (m_release _ _ _ Hu Ha)) as HL1.
  unfold release. rewrite Hu. rewrite decide_False by (destruct Ha as [-> | ->]; done).
  unfold update_waiter. rewrite (alter_eq _ _ _ _ Hu).
  apply (gr_still _ _ (grant_grew world _ HL1)); [|congruence].
  simpl. by rewrite lookup_insert_ne by done.
Qed.

Lemma pause_still_running options world id w fuel : ∀ visited L,
  still_running id w L → still_running id w (pause_active options world fuel visited L).
Proof.
  induction fuel as [|fuel IH]; intros visited L HL; simpl; [done|].
  destruct (List.find _ (active L)) as [x|] eqn:Hfind; [|done].
  apply List.find_some in Hfind as [Hx _]. apply list_elem_of_In in Hx.
  destruct HL as (Hi & Hw & Hs). apply Hi in Hx as (u & Hu & Ha). rewrite Hu.
  destruct (exempt_from_pause u) eqn:He; [by apply IH|]. apply IH.
  assert (x ≠ id) as Hne.
  { intros ->. simplify_eq. rewrite exempt_privileged, Hs in He. by rewrite orb_true_r in He. }
  unfold update_waiter. rewrite (alter_eq _ _ _ _ Hu).
  apply (release_still_running world id w x (set_refusal (pausedError options (label u)) u));
    [|done| |exact Ha].
  - split; [|simpl; by rewrite lookup_insert_ne].
    eapply micro_inv; [exact Hi|by apply m_refusal].
  - simpl. by rewrite lookup_insert_eq.
Qed.

(** A pause never touches what already runs: every running operation
    keeps running, with its locks and its place. *)
Theorem pause_keeps_running options world p L :
  reachable options L →
  ∀ id w, waiters L !! id = Some w → state w = Running →
  waiters (setPaused options world p L) !! id = Some w ∧
  id ∈ active (setPaused options world p L).
Proof.
  intros Hg%reachable_good id w Hw Hs. pose proof (gd_inv _ _ Hg) as HL.
  assert (still_running id w (setPaused options world p L)) as (Hi & Hw' & _).
  2:{ split; [done|]. apply Hi. exists w. split; [done|by right]. }
  unfold setPaused. pose proof (micro_inv _ _ HL (m_paused L p)) as HL0.
  destruct p; cbn -[pause_active]; [|done].
  destruct (withdrawn_list _ HL0) as (Hnd & Hids & _).
  destruct (withdraw_fold options _ _ HL0 Hnd Hids) as (Hs1 & _ & _). cbv zeta in *. cbn -[pause_active] in *.
  set (ids := List.filter _ _) in *.
  assert (id ∉ ids) as Hid.
  { intros Hin. destruct (Hids _ Hin) as (u & Hu & ?). congruence. }
  assert (∀ ids L, id ∉ ids → waiters L !! id = Some w →
    waiters (fold_left (withdraw_paused options) ids L) !! id = Some w) as Hfold.
  { clear. induction ids as [|x ids IH]; intros L Hid Hw; simpl; [done|].
    apply IH; [set_solver|]. unfold withdraw_paused, update_waiter.
    destruct (waiters L !! x); [|done]. simpl.
    destruct (remove_fields x L) as (_ & _ & _ & _ & _ & -> & _).
    by rewrite lookup_alter_ne by set_solver. }
  specialize (Hfold ids (set_paused true L) Hid Hw).
  match goal with |- context [pause_active _ _ ?n _ ?X] => set (L1 := X) in *;
    destruct (pause_still_running options world id w n [] L1) as (Hi2 & Hw2 & _) end.
  { split; [by eapply calms_inv|done]. }
  split; [by apply grant_inv|]. split; [|done].
  apply (gr_still _ _ (grant_grew world _ Hi2)); [done|congruence].
Qed.

Example pause_keeps_running_witness : 0 ∈ active (setPaused test_options quiet_world true sample_lanes).
Proof.
  apply (pause_keeps_running test_options quiet_world true sample_lanes sample_reachable 0
    (default paused_upload (waiters sample_lanes !! 0))); vm_compute; reflexivity.
Defined.

(** ** Withdrawing *)

(** [withdraw] answers exactly whether the operation had not begun. If it
    had not, it is over at once and stays over: from then on, whatever
    happens, running it fails and changes nothing. If it had, withdrawing
    does nothing. *)
Theorem withdraw_exact options world id L w :
  reachable options L → waiters L !! id = Some w →
  let '(withdrew, L') := cancel world id L in
  (withdrew = true ↔ state w = Waiting ∨ state w = Granted) ∧
  (withdrew = false → L' = L) ∧
  (withdrew = true → ∀ L'', rtc micro L' L'' → ∃ e, run_begins id L'' = (Some e, L'')).
Proof.
  intros Hg%reachable_good Hw. pose proof (gd_inv _ _ Hg) as HL.
  pose proof (cancel_settles world id L HL (gd_stable _ _ Hg)) as [Hs _].
  assert (∀ L' L'', inv L' → (∃ w', waiters L' !! id = Some w' ∧ state w' = Done) →
    rtc micro L' L'' → ∃ e, run_begins id L'' = (Some e, L'')) as Hover.
  { intros L' L'' HL' (w' & Hw' & Hd) Hm.
    destruct (micros_evolve _ _ HL' Hm _ _ Hw') as (w'' & Hw'' & _ & Hle & _).
    unfold run_begins. rewrite Hw''. rewrite decide_False; [by eexists|].
    rewrite Hd in Hle. by destruct (state w''). }
  revert Hs. unfold cancel. rewrite Hw. destruct (state w) eqn:Hsw; simpl; intros Hs.
  - split; [naive_solver|]. done.
  - split; [naive_solver|]. split; [done|]. intros _ L'' Hm.
    eapply Hover; [by eapply calms_inv| |done].
    pose proof (m_release _ _ _ Hw (or_introl Hsw)) as Hm1.
    unfold release. rewrite Hw, decide_False by congruence.
    unfold update_waiter. rewrite (alter_eq _ _ _ _ Hw). exists (set_state Done w).
    split; [|done].
    apply (gr_still _ _ (grant_grew world _ (micro_inv _ _ HL Hm1))); [|done].
    simpl. by rewrite lookup_insert_eq.
  - split; [naive_solver|]. done.
  - split; [naive_solver|]. split; [done|]. intros _ L'' Hm.
    eapply Hover; [by eapply calms_inv| |done].
    set (e := MkRejected _ _ _) in *.
    pose proof (reject_micro L id w e Hw Hsw) as Hm1.
    eexists. split; [|]; [apply (gr_still _ _ (grant_grew world _
      (micro_inv _ _ HL (gstep_micro _ _ Hm1))))|]; unfold reject, update_waiter; simpl;
      rewrite ?lookup_alter_eq; try (destruct (remove_fields id L) as (_ & _ & _ & _ & _ & -> & _));
      rewrite ?Hw; simpl; done.
Qed.

Example withdraw_exact_witness :
  let '(withdrew, L') := cancel quiet_world 1 sample_lanes in
  withdrew = true ∧ waiting L' = [] ∧ active L' = [0; 3; 2] ∧
  ∃ e, run_begins 1 L' = (Some e, L').
Proof.
  pose proof (withdraw_exact test_options quiet_world 1 sample_lanes
    (default (MkWaiter "" false false false None None [] None None Done)
       (waiters sample_lanes !! 1)) sample_reachable) as H.
  destruct (cancel quiet_world 1 sample_lanes) as [withdrew L'] eqn:E.
  destruct H as (_ & _ & H); [vm_compute; reflexivity|].
  vm_compute in E. injection E as <- <-.
  split; [reflexivity|]. split; [reflexivity|]. split; [reflexivity|].
  apply H; [reflexivity|apply rtc_refl].
Defined.

(** ** Refusing and bounds *)

(** The same admission, waiting instead. *)
Definition wait_instead (admission : LaneAdmission) : LaneAdmission :=
  MkAdmission (a_label admission) (a_locks admission) (a_precondition admission)
    (a_continuation admission) None (a_carriesOnWhilePaused admission).

(** An operation admitted to be refused when something is in its way never
    waits. Had it been willing to wait and not had to, the outcome is the
    same; had it had to wait, it is told what is busy at once, and the line,
    the locks and everyone else are left exactly as they were. *)
Theorem refuse_when_busy options world admission inside L :
  reachable options L → a_whenBusy admission = Some Refuse →
  let id := next L in
  let L' := (admit_waiter options world admission inside L).2 in
  let waits := (admit_waiter options world (wait_instead admission) inside L).2 in
  has_state Waiting L' id = false ∧
  if has_state Waiting waits id
  then same_places L L' ∧
    ∃ e, await_grant id L' = Some (Failed e) ∧ reason e = Busy ∧ is_Some (blockedBy e)
  else L' = waits.
Proof.
  intros Hg%reachable_good Hbusy. pose proof (gd_inv _ _ Hg) as HL. intros id L' waits.
  set (w := new_waiter admission inside). set (L1 := joined admission inside L).
  pose proof (joined_before admission inside L HL (gd_stable _ _ Hg)) as [HL1 Hbef].
  assert (∀ e, has_state Waiting (reject id e (arrive w L)) id = false) as Hrej.
  { intros e. unfold has_state, reject, update_waiter. simpl.
    rewrite lookup_alter_eq, lookup_insert_eq. done. }
  unfold L', waits, admit_waiter. fold id. change (new_waiter (wait_instead admission) inside) with w.
  fold w. change (MkLanes _ _ _ _ _ _ _ _) with (arrive w L).
  change (join_queue (wait_instead admission) id w (arrive w L)) with L1.
  change (join_queue admission id w (arrive w L)) with L1. simpl.
  destruct (negb inside && paused L && _); [by rewrite Hrej|].
  destruct (negb inside && bool_decide _); [by rewrite Hrej|].
  rewrite Hbusy. destruct (has_state Waiting (grant world L1) id) eqn:Hwait; [|by rewrite Hwait].
  assert (grant world L1 = L1) as Hsame.
  { fold w L1 id in Hbef. destruct (nested w).
    - destruct Hbef as (_ & Hq & ? & ?). by eapply grant_newest_nested.
    - destruct Hbef as (Hq & _ & ? & ?). by eapply grant_newest_line. }
  rewrite Hsame in *. apply has_state_true in Hwait as (w' & Hw' & Hs').
  assert (w' = joined_waiter admission inside) as ->.
  { unfold L1 in Hw'. rewrite joined_waiters, lookup_insert_eq in Hw'. by simplify_eq. }
  simpl. unfold refuseBusy. set (e := MkRejected _ _ _).
  split.
  { unfold has_state, reject, update_waiter. simpl. rewrite lookup_alter_eq.
    destruct (remove_fields id L1) as (_ & _ & _ & _ & _ & -> & _). rewrite Hw'. done. }
  split; [by apply turned_away_places|].
  exists e. split; [|split; [done|by eexists]].
  unfold await_grant, reject, update_waiter. simpl. rewrite lookup_alter_eq.
  destruct (remove_fields id L1) as (_ & _ & _ & _ & _ & -> & _). rewrite Hw'. simpl.
  unfold joined_waiter. by destruct (a_locks admission).
Qed.

Example refuse_when_busy_witness :
  let admission := MkAdmission "console" (Known [shared "a"]) None false (Some Refuse) false in
  let L' := (admit_waiter test_options quiet_world admission false sample_lanes).2 in
  has_state Waiting L' (next sample_lanes) = false ∧ length (waiting sample_lanes) = 2.
Proof.
  cbv zeta. split; [|vm_compute; reflexivity].
  set (admission := MkAdmission _ _ _ _ _ _).
  pose proof (refuse_when_busy test_options quiet_world admission false sample_lanes
    sample_reachable eq_refl) as H.
  cbv zeta in H. destruct H as [H _]. exact H.
Defined.

(** However many requests arrive, at most [maxWaiting] operations wait on
    their own. Nested work is never counted, and one arriving on its own when
    the line is full is told so with nothing else changed. *)
Theorem lanes_bounded options world admission L :
  reachable options L →
  (waitingOnTheirOwn L ≤ Z.max 0 (maxWaiting options))%Z ∧
  (waitingOnTheirOwn (admit_waiter options world admission true L).2 ≤ waitingOnTheirOwn L)%Z ∧
  ((waitingOnTheirOwn L >= maxWaiting options)%Z → paused L = false →
   (admit_waiter options world admission false L).2 =
     arrive (rejected (MkRejected Busy (busyMessage options) None) (new_waiter admission false)) L).
Proof.
  intros Hg%reachable_good. pose proof (gd_inv _ _ Hg) as HL. split; [apply Hg|]. split.
  - pose proof (admit_cases options world admission true L HL (gd_stable _ _ Hg)) as Hc.
    cbv zeta in Hc. pose proof (joined_own admission true L HL) as Hown. simpl in Hown.
    pose proof (joined_before admission true L HL (gd_stable _ _ Hg)) as [HL1 _].
    destruct (admit_waiter options world admission true L) as [t L']. simpl.
    destruct Hc as (_ & _ & [(e & ? & _)|(_ & Hc)]); [done|].
    destruct Hc as [[-> _]|(Hwait & Heq & b & e & _ & ->)].
    + pose proof (grant_calm world _ HL1) as Hs.
      pose proof (own_advance _ _ (calms_inv _ _ HL1 Hs) (calms_advance _ _ HL1 Hs)). lia.
    + rewrite Heq in Hwait. apply has_state_true in Hwait as (w' & Hw' & Hs').
      pose proof (rtc_once _ _ (reject_calm _ e _ _ Hw' Hs')) as Hs.
      pose proof (own_advance _ _ (calms_inv _ _ HL1 Hs) (calms_advance _ _ HL1 Hs)). lia.
  - intros Hfull Hp. unfold admit_waiter.
    change (MkLanes _ _ _ _ _ _ _ _) with (arrive (new_waiter admission false) L).
    change (paused (arrive _ L)) with (paused L). rewrite own_arrive by done. rewrite Hp. simpl.
    rewrite bool_decide_true by done. by apply turned_away_eq.
Qed.

Example lanes_bounded_witness :
  (waitingOnTheirOwn sample_lanes ≤ Z.max 0 (maxWaiting test_options))%Z ∧
  waitingOnTheirOwn sample_lanes = 2%Z.
Proof.
  split; [|vm_compute; reflexivity].
  exact (proj1 (lanes_bounded test_options quiet_world (simple "x" []) sample_lanes
    sample_reachable)).
Defined.
