(* ===== verification/Catalog.v ===== *)
(** * The permission catalog

    Models the data of [packages/contracts/src/access-permissions.ts]: every
    permission, what it implies, where the editor shows it, its family and
    scopes, the blocks and collections made from them, and the check the
    module runs on itself as it loads, [validatePermissionCatalog].

    Strings are sequences of bytes here (the UTF-8 of the source); every key
    is ASCII. *)
From S2P Require Import Prelude.

(** ** Scopes, families and the shape of an entry *)

Inductive PermissionScopeType := ScRelay | ScInstance | ScDatabase | ScApp.

#[global] Instance PermissionScopeType_eq_dec : EqDecision PermissionScopeType.
Proof. solve_decision. Defined.

Definition scope_name (s : PermissionScopeType) : string :=
  match s with
  | ScRelay => "relay" | ScInstance => "instance" | ScDatabase => "database" | ScApp => "app"
  end.

Definition permissionScopeTypes : list PermissionScopeType :=
  [ScRelay; ScInstance; ScDatabase; ScApp].

Definition accessGrantScopeTypes : list PermissionScopeType := [ScRelay; ScInstance; ScDatabase].

Inductive SelectionKind := Permission | Collection.

#[global] Instance SelectionKind_eq_dec : EqDecision SelectionKind.
Proof. solve_decision. Defined.

Definition kind_name (k : SelectionKind) : string :=
  match k with Permission => "permission" | Collection => "collection" end.

Record PermissionSelection := MkSel { kind : SelectionKind; sel_key : string }.

Inductive PermissionFamily := Frelay | Finstance | Fdatabase | Fapp | Fshared.

#[global] Instance PermissionFamily_eq_dec : EqDecision PermissionFamily.
Proof. solve_decision. Defined.

Record PermissionCopy := MkCopy { c_label : string; c_description : string }.

Record PermissionDefinition := MkPermission {
  p_key : string;
  p_copy : PermissionCopy;
  p_block : string;
  p_family : PermissionFamily;
  p_scopeTypes : list PermissionScopeType;
  p_implies : list string;
  supportedCapabilities : list string;
  compatibilityOnly : bool;
}.

Record PermissionCollection := MkCollection {
  g_key : string;
  g_label : string;
  g_scopeTypes : list PermissionScopeType;
  g_selections : list PermissionSelection;
  childScope : option PermissionScopeType;
}.

(** ** The tables *)

Definition legacyAccessPermissions : list string :=
  [
   "relay.read"; "relay.configure"; "relay.delete"; "access.invite"; "access.manage";
   "instance.read"; "instance.console.read"; "instance.console.write"; "instance.files.read";
   "instance.files.write"; "instance.delete"; "instance.power"; "instance.settings";
   "instance.logs.share"; "instance.network.read"; "instance.network.write";
   "instance.network.public-port.write"; "instance.sftp.connect"; "database.read";
   "database.create"; "database.credentials.read"; "database.credentials.rotate";
   "database.power"; "database.delete"; "database.network.read"; "database.network.write";
   "database.dump.export"; "database.dump.import"; "backup.read"; "backup.create";
   "backup.download"; "backup.restore"; "backup.delete"; "schedule.read"; "schedule.create";
   "schedule.execute"; "schedule.update"; "schedule.delete"].

Definition accessPermissions : list string :=
  legacyAccessPermissions ++ [
   "access.read"; "preset.read"; "preset.create"; "preset.manage"; "instance.create";
   "instance.configuration.read"; "instance.configuration.write"; "instance.limits.write";
   "instance.power.start"; "instance.power.stop"; "instance.power.restart";
   "instance.power.kill"; "instance.files.delete"; "instance.files.chmod";
   "instance.logs.read"; "relay.update"; "relay.pause"; "relay.connections.read";
   "relay.connections.manage"; "relay.audit.read"; "relay.logs.read"; "relay.terminal";
   "relay.database.read"; "relay.files.read"; "relay.files.write"; "relay.files.mount";
   "database.data.read"; "database.data.write"; "database.terminal"; "database.logs.read";
   "database.limits.write"; "app.read"; "app.create"; "app.manage"; "app.delete";
   "app.logs.read"; "app.terminal"; "app.files.read"; "app.files.write"].

Definition implicationEdges : list (string * list string) :=
  [
   ("access.invite", ["access.read"; "preset.create"]); ("access.manage", ["access.invite"]);
   ("preset.create", ["preset.read"]); ("preset.manage", ["preset.create"]);
   ("instance.console.write", ["instance.console.read"]);
   ("instance.files.write", ["instance.files.read"]);
   ("instance.files.delete", ["instance.files.read"]);
   ("instance.files.chmod", ["instance.files.read"]);
   ("instance.sftp.connect", ["instance.files.read"]);
   ("instance.power", ["instance.power.kill"]);
   ("instance.power.stop", ["instance.power.start"]);
   ("instance.power.restart", ["instance.power.stop"]);
   ("instance.power.kill", ["instance.power.restart"]);
   ("instance.settings", ["instance.configuration.write"; "instance.limits.write"]);
   ("instance.configuration.write", ["instance.configuration.read"]);
   ("instance.limits.write", ["instance.configuration.read"]);
   ("instance.logs.share", ["instance.logs.read"]);
   ("instance.network.write", ["instance.network.read"]);
   ("instance.network.public-port.write", ["instance.network.write"]);
   ("database.credentials.rotate", ["database.credentials.read"]);
   ("database.network.write", ["database.network.read"]);
   ("database.data.write", ["database.data.read"]); ("app.files.write", ["app.files.read"]);
   ("backup.create", ["backup.read"]); ("backup.download", ["backup.read"]);
   ("backup.restore", ["backup.read"]); ("backup.delete", ["backup.read"]);
   ("schedule.create", ["schedule.read"]); ("schedule.update", ["schedule.read"]);
   ("schedule.execute", ["schedule.read"]); ("schedule.delete", ["schedule.read"]);
   ("relay.connections.manage", ["relay.connections.read"]);
   ("relay.files.write", ["relay.files.read"])].

Definition permissionPlacement : list (string * (string * PermissionFamily)) :=
  [
   ("relay.read", ("overview", Frelay)); ("relay.configure", ("relay.configuration", Frelay));
   ("relay.update", ("relay.configuration", Frelay));
   ("relay.pause", ("relay.configuration", Frelay));
   ("relay.delete", ("resource.deletion", Frelay));
   ("relay.connections.read", ("relay.connections", Frelay));
   ("relay.connections.manage", ("relay.connections", Frelay));
   ("relay.audit.read", ("relay.activity", Frelay));
   ("relay.logs.read", ("relay.logs", Frelay)); ("relay.terminal", ("relay.terminal", Frelay));
   ("relay.database.read", ("relay.database", Frelay));
   ("relay.files.read", ("relay.files", Frelay));
   ("relay.files.write", ("relay.files", Frelay));
   ("relay.files.mount", ("relay.files", Frelay));
   ("instance.create", ("resource.creation", Frelay));
   ("database.create", ("resource.creation", Frelay)); ("access.read", ("access", Fshared));
   ("access.invite", ("access", Fshared)); ("access.manage", ("access", Fshared));
   ("preset.read", ("preset", Fshared)); ("preset.create", ("preset", Fshared));
   ("preset.manage", ("preset", Fshared)); ("backup.read", ("backup", Fshared));
   ("backup.create", ("backup", Fshared)); ("backup.download", ("backup", Fshared));
   ("backup.restore", ("backup", Fshared)); ("backup.delete", ("backup", Fshared));
   ("schedule.read", ("schedule", Fshared)); ("schedule.create", ("schedule", Fshared));
   ("schedule.execute", ("schedule", Fshared)); ("schedule.update", ("schedule", Fshared));
   ("schedule.delete", ("schedule", Fshared)); ("instance.read", ("overview", Finstance));
   ("instance.console.read", ("instance.console", Finstance));
   ("instance.console.write", ("instance.console", Finstance));
   ("instance.files.read", ("instance.files", Finstance));
   ("instance.files.write", ("instance.files", Finstance));
   ("instance.files.delete", ("instance.files", Finstance));
   ("instance.files.chmod", ("instance.files", Finstance));
   ("instance.sftp.connect", ("instance.files", Finstance));
   ("instance.delete", ("resource.deletion", Finstance));
   ("instance.power", ("instance.power", Finstance));
   ("instance.power.start", ("instance.power", Finstance));
   ("instance.power.stop", ("instance.power", Finstance));
   ("instance.power.restart", ("instance.power", Finstance));
   ("instance.power.kill", ("instance.power", Finstance));
   ("instance.settings", ("instance.configuration", Finstance));
   ("instance.configuration.read", ("instance.configuration", Finstance));
   ("instance.configuration.write", ("instance.configuration", Finstance));
   ("instance.limits.write", ("instance.configuration", Finstance));
   ("instance.logs.read", ("instance.logs", Finstance));
   ("instance.logs.share", ("instance.logs", Finstance));
   ("instance.network.read", ("instance.network", Finstance));
   ("instance.network.write", ("instance.network", Finstance));
   ("instance.network.public-port.write", ("instance.network", Finstance));
   ("database.read", ("overview", Fdatabase));
   ("database.credentials.read", ("database.credentials", Fdatabase));
   ("database.credentials.rotate", ("database.credentials", Fdatabase));
   ("database.power", ("database.power", Fdatabase));
   ("database.delete", ("resource.deletion", Fdatabase));
   ("database.network.read", ("database.network", Fdatabase));
   ("database.network.write", ("database.network", Fdatabase));
   ("database.dump.export", ("database.dump", Fdatabase));
   ("database.dump.import", ("database.dump", Fdatabase));
   ("database.data.read", ("database.data", Fdatabase));
   ("database.data.write", ("database.data", Fdatabase));
   ("database.terminal", ("database.terminal", Fdatabase));
   ("database.logs.read", ("database.logs", Fdatabase));
   ("database.limits.write", ("database.limits", Fdatabase)); ("app.read", ("overview", Fapp));
   ("app.create", ("resource.creation", Frelay)); ("app.manage", ("app.manage", Fapp));
   ("app.delete", ("resource.deletion", Fapp)); ("app.logs.read", ("app.logs", Fapp));
   ("app.terminal", ("app.terminal", Fapp)); ("app.files.read", ("app.files", Fapp));
   ("app.files.write", ("app.files", Fapp))].

Definition permissionCopy_1 : list (string * PermissionCopy) :=
  [
   ("relay.read", MkCopy "View Relay"
      "See Relay status and basic details.");
   ("relay.configure", MkCopy "Configure Relay"
      "Change Relay settings and connection details.");
   ("relay.delete", MkCopy "Remove Relay"
      "Remove the Relay from Hearth.");
   ("access.read", MkCopy "View users"
      "See who has access and their assigned permissions.");
   ("access.invite", MkCopy "Invite users"
      "Invite people to use this resource.");
   ("access.manage", MkCopy "Manage access"
      "Change permissions and revoke user access.");
   ("preset.read", MkCopy "View presets"
      "See saved permission presets.");
   ("preset.create", MkCopy "Create or copy presets"
      "Save reusable permission choices for this resource.");
   ("preset.manage", MkCopy "Manage presets"
      "Edit or delete presets. Changes apply to linked assignments.");
   ("instance.read", MkCopy "View server"
      "See server status and basic details.");
   ("instance.create", MkCopy "Create servers"
      "Provision new servers on this Relay.");
   ("instance.console.read", MkCopy "View console"
      "Read live server console output.");
   ("instance.console.write", MkCopy "Send commands"
      "Run commands in the server console.");
   ("instance.files.read", MkCopy "View and download files"
      "Browse server files and download their contents.");
   ("instance.files.write", MkCopy "Edit files"
      "Create, upload, edit, copy, move, and rename server files.");
   ("instance.files.delete", MkCopy "Delete files"
      "Remove server files and folders.");
   ("instance.files.chmod", MkCopy "Change file permissions"
      "Change which users can read, write, or run server files.");
   ("instance.sftp.connect", MkCopy "Connect using SFTP"
      "Browse files with an SFTP client. File changes need the matching file permissions.");
   ("instance.delete", MkCopy "Delete server"
      "Permanently remove the server and its data.");
   ("instance.power", MkCopy "Control server power"
      "Start, stop, restart, or force stop the server.");
   ("instance.power.start", MkCopy "Start server"
      "Start a stopped server.");
   ("instance.power.stop", MkCopy "Stop server"
      "Shut down the server gracefully. Also allows starting it.");
   ("instance.power.restart", MkCopy "Restart server"
      "Stop and start the server. Also allows starting and stopping it separately.");
   ("instance.power.kill", MkCopy "Force stop server"
      "Stop the server immediately. Also allows starting, stopping, and restarting it.");
   ("instance.settings", MkCopy "Manage server settings"
      "Change startup configuration and resource limits.");
   ("instance.configuration.read", MkCopy "View configuration"
      "See the server’s startup settings and Brick configuration.");
   ("instance.configuration.write", MkCopy "Manage configuration"
      "Change startup settings, switch Bricks, and reinstall the server.");
   ("instance.limits.write", MkCopy "Manage resource limits"
      "Change the server’s memory, CPU, and disk limits.");
   ("instance.logs.read", MkCopy "View saved logs"
      "Read the server’s saved log files.");
   ("instance.logs.share", MkCopy "Share logs"
      "Publish server logs through a shareable link.");
   ("instance.network.read", MkCopy "View server network"
      "See the server’s addresses, ports, and routes.");
   ("instance.network.write", MkCopy "Manage server network"
      "Change the server’s network settings and routes.");
   ("instance.network.public-port.write", MkCopy "Assign public ports"
      "Assign ports that make the server reachable outside its private network.");
   ("database.read", MkCopy "View database"
      "See database status and basic details.");
   ("database.create", MkCopy "Create databases"
      "Provision new databases on this Relay.")].

Definition permissionCopy_2 : list (string * PermissionCopy) :=
  [
   ("database.credentials.read", MkCopy "View database credentials"
      "Reveal the username and password used to connect.");
   ("database.credentials.rotate", MkCopy "Reset database password"
      "Generate a new password for database connections.");
   ("database.power", MkCopy "Control database power"
      "Start, stop, or restart the database.");
   ("database.limits.write", MkCopy "Manage resource limits"
      "Change the database’s memory, CPU, and disk limits.");
   ("database.delete", MkCopy "Delete database"
      "Permanently remove the database and its data.");
   ("database.network.read", MkCopy "View database network"
      "See which game servers, Apps, and databases are connected to the database.");
   ("database.network.write", MkCopy "Manage database network"
      "Connect or disconnect game servers, Apps, and databases. Also requires each one's own network access: managing a game server's network, managing an App, or managing the other database's network.");
   ("database.dump.export", MkCopy "Export database data"
      "Download a database dump for migration or safekeeping.");
   ("database.dump.import", MkCopy "Import database data"
      "Load a database dump into the database.");
   ("database.data.read", MkCopy "Browse database tables"
      "View tables, columns, and rows in the viewer.");
   ("database.data.write", MkCopy "Edit database tables"
      "Edit rows and run SQL queries in the viewer.");
   ("database.terminal", MkCopy "Use database terminal"
      "Open the database's command-line client, signed in.");
   ("app.read", MkCopy "View apps"
      "See apps, their containers, and how they are configured.");
   ("app.create", MkCopy "Create apps"
      "Add apps on this Relay.");
   ("app.manage", MkCopy "Configure and deploy apps"
      "Change an app's source, environment, and networking, deploy it, and start or stop it. Apps can run any container, with the access that gives on the Relay's host.");
   ("app.delete", MkCopy "Delete apps"
      "Remove apps, their containers, and their data.");
   ("app.logs.read", MkCopy "View app logs"
      "Read deployment logs and container output.");
   ("app.terminal", MkCopy "Open app shells"
      "Run a shell inside an app's containers.");
   ("app.files.read", MkCopy "View app files"
      "Browse and download an app's data directory.");
   ("app.files.write", MkCopy "Edit app files"
      "Create, upload, edit, move, and delete an app's files.");
   ("database.logs.read", MkCopy "View database logs"
      "Watch the database container's live output.");
   ("backup.read", MkCopy "View backups"
      "See available backups and their status.");
   ("backup.create", MkCopy "Create backups"
      "Save a new backup of this resource.");
   ("backup.download", MkCopy "Download backups"
      "Download backup files.");
   ("backup.restore", MkCopy "Restore backups"
      "Replace current data with a saved backup.");
   ("backup.delete", MkCopy "Delete backups"
      "Remove saved backups.");
   ("schedule.read", MkCopy "View schedules"
      "See scheduled tasks and their run history.");
   ("schedule.create", MkCopy "Create schedules"
      "Set up tasks to run automatically.");
   ("schedule.execute", MkCopy "Run schedules"
      "Start a scheduled task immediately.");
   ("schedule.update", MkCopy "Edit schedules"
      "Change scheduled tasks and when they run.");
   ("schedule.delete", MkCopy "Delete schedules"
      "Remove scheduled tasks.");
   ("relay.update", MkCopy "Update Relay"
      "Install a newer version of the Relay software.");
   ("relay.pause", MkCopy "Pause or resume Relay"
      "Disable or re-enable Hearth’s connection to this Relay.");
   ("relay.connections.read", MkCopy "View Relay connections"
      "See paired clients and pending pairing invitations.");
   ("relay.connections.manage", MkCopy "Manage Relay connections"
      "Pair clients, change their access, and revoke connections.");
   ("relay.audit.read", MkCopy "View Relay activity"
      "Read the Relay’s activity history.")].

Definition permissionCopy_3 : list (string * PermissionCopy) :=
  [
   ("relay.files.read", MkCopy "View host files"
      "Browse and download files anywhere on the Relay’s host, including system configuration and secrets.");
   ("relay.files.write", MkCopy "Edit host files"
      "Create, upload, edit, move, and delete files anywhere on the Relay’s host. Equivalent to root on the host.");
   ("relay.files.mount", MkCopy "Mount host files"
      "Restart the Relay with its host’s filesystem mounted, so host files can be browsed.");
   ("relay.database.read", MkCopy "View Relay database"
      "Inspect the Relay’s SQLite state, including pairing records and sensitive configuration.");
   ("relay.terminal", MkCopy "Open host terminal"
      "Run a root shell on the Relay’s host node.");
   ("relay.logs.read", MkCopy "View Relay logs"
      "Watch the Relay container’s live output.")].

Definition blockLabels : list (string * string) :=
  [
   ("overview", "Overview"); ("instance.power", "Server power");
   ("instance.console", "Console"); ("instance.files", "Files"); ("instance.logs", "Logs");
   ("instance.configuration", "Configuration"); ("instance.network", "Networking");
   ("access", "People and access"); ("preset", "Presets"); ("backup", "Backups");
   ("schedule", "Schedules"); ("database.power", "Database power");
   ("database.credentials", "Database credentials");
   ("database.network", "Database networking"); ("database.dump", "Database data");
   ("database.data", "Database tables"); ("database.terminal", "Database terminal");
   ("database.logs", "Database logs"); ("database.limits", "Database limits");
   ("app.manage", "App configuration"); ("app.logs", "App logs");
   ("app.terminal", "App shell"); ("app.files", "App files");
   ("resource.deletion", "Resource deletion"); ("resource.creation", "Resource creation");
   ("relay.configuration", "Relay configuration"); ("relay.connections", "Relay connections");
   ("relay.activity", "Relay activity"); ("relay.logs", "Relay logs");
   ("relay.terminal", "Host terminal"); ("relay.database", "Relay database");
   ("relay.files", "Host files")].

Definition familyScopes (f : PermissionFamily) : list PermissionScopeType :=
  match f with
  | Frelay => [ScRelay]
  | Finstance => [ScRelay; ScInstance]
  | Fdatabase => [ScRelay; ScDatabase]
  | Fapp => [ScRelay; ScApp]
  | Fshared => accessGrantScopeTypes
  end.

Definition familyVisibility (f : PermissionFamily) : option string :=
  match f with
  | Frelay => Some "relay.read"
  | Finstance => Some "instance.read"
  | Fdatabase => Some "database.read"
  | Fapp => Some "app.read"
  | Fshared => None
  end.

Definition relayScopeChildVisibility : list (string * list string) :=
  [("backup", ["instance.read"; "database.read"]);
   ("schedule", ["instance.read"; "database.read"])].

Definition compatibilityOnlyPermissions : list string := ["instance.power"; "instance.settings"].

Definition permissionCopy : list (string * PermissionCopy) :=
  permissionCopy_1 ++ permissionCopy_2 ++ permissionCopy_3.

(** ** The catalog *)

(** The catalog entry of one permission. *)
Definition permission_entry (key : string) : PermissionDefinition :=
  let '(block, family) := default ("", Fshared) (jm_get key permissionPlacement) in
  let implies := default [] (jm_get key implicationEdges) in
  let implies := match familyVisibility family with
                 | Some visibility =>
                     if decide (visibility = key) then implies else implies ++ [visibility]
                 | None => implies
                 end in
  MkPermission key (default (MkCopy "" "") (jm_get key permissionCopy)) block family
    (familyScopes family) (js_distinct implies)
    (if decide (block = "database.dump") then ["database.logical-backups"]
     else if decide (block = "database.data") then ["database.sql"] else [])
    (bool_decide (key ∈ compatibilityOnlyPermissions)).

Definition permissionCatalog : list PermissionDefinition :=
  permission_entry <$> accessPermissions.

Definition definition_of (key : string) : option PermissionDefinition :=
  List.find (λ entry, bool_decide (p_key entry = key)) permissionCatalog.

Definition accessPermissionSupported (permission : string) (scopeType : PermissionScopeType)
    (capabilities : option (list string)) : bool :=
  match definition_of permission with
  | None => false
  | Some definition =>
      bool_decide (scopeType ∈ p_scopeTypes definition) &&
      match capabilities with
      | None => true
      | Some cs => forallb (λ c, bool_decide (c ∈ cs)) (supportedCapabilities definition)
      end
  end.

Record PermissionBlock := MkBlock {
  b_key : string;
  b_label : string;
  b_permissions : list string;
}.

Definition permissionBlocks : list PermissionBlock :=
  (λ key, MkBlock key (default key (jm_get key blockLabels))
     (p_key <$> List.filter
        (λ entry, bool_decide (p_block entry = key) && negb (compatibilityOnly entry))
        permissionCatalog))
  <$> js_distinct (p_block <$> permissionCatalog).

Definition selection (k : SelectionKind) (key : string) : PermissionSelection := MkSel k key.

(** Whether some permission of the block is supported at the scope. *)
Definition block_supports (scope : PermissionScopeType) (block : PermissionBlock) : bool :=
  existsb (λ key, accessPermissionSupported key scope None) (b_permissions block).

Definition block_collection (block : PermissionBlock) : PermissionCollection :=
  MkCollection (b_key block +:+ ".all") ("All " +:+ to_lower (b_label block))
    (List.filter (λ scope, block_supports scope block) permissionScopeTypes)
    (selection Permission <$> b_permissions block) None.

Definition scope_family (s : PermissionScopeType) : PermissionFamily :=
  match s with
  | ScRelay => Frelay | ScInstance => Finstance | ScDatabase => Fdatabase | ScApp => Fapp
  end.

Definition scope_collection (scope : PermissionScopeType) : PermissionCollection :=
  MkCollection (scope_name scope +:+ ".all") ("All " +:+ scope_name scope +:+ " permissions")
    (familyScopes (scope_family scope))
    ((λ block, selection Collection (b_key block +:+ ".all")) <$>
       List.filter (block_supports scope) permissionBlocks)
    (if decide (scope = ScRelay) then None else Some scope).

Definition permissionCollections : list PermissionCollection :=
  (block_collection <$> permissionBlocks) ++ (scope_collection <$> permissionScopeTypes) ++
  [MkCollection "all" "All permissions" permissionScopeTypes
     ((λ block, selection Collection (b_key block +:+ ".all")) <$> permissionBlocks) None].

Definition collection_of (key : string) : option PermissionCollection :=
  List.find (λ entry, bool_decide (g_key entry = key)) permissionCollections.
