(* ===== verification/Permissions.v ===== *)
(** * Permissions: what selections grant

    Models the functions of [packages/contracts/src/access-permissions.ts]:
    the catalog check, the closure of implications, the expansion of stored
    selections into effective permissions, the built-in presets, and the human
    authority a machine client's policy needs. *)
From S2P Require Import Prelude Catalog.

(** ** [validatePermissionCatalog] *)

Inductive CatalogError :=
  | DuplicatePermission (key : string)
  | DuplicateCollection (key : string)
  | CatalogCycle (node : string)
  | UnknownReference (node : string)
  | VisitTooDeep.

Abbreviation Nodes := (list (string * list string)).

Definition node_name (k : SelectionKind) (key : string) : string := kind_name k +:+ ":" +:+ key.

Definition add_permission_node (nodes : Nodes) (entry : PermissionDefinition)
    : Result CatalogError Nodes :=
  let key := node_name Permission (p_key entry) in
  guard! bool_decide (key ∉ nodes.*1) else DuplicatePermission (p_key entry) in
  Ok (jm_set key (node_name Permission <$> p_implies entry) nodes).

Definition add_collection_node (nodes : Nodes) (entry : PermissionCollection)
    : Result CatalogError Nodes :=
  let key := node_name Collection (g_key entry) in
  guard! bool_decide (key ∉ nodes.*1) else DuplicateCollection (g_key entry) in
  Ok (jm_set key ((λ child, node_name (kind child) (sel_key child)) <$> g_selections entry) nodes).

(** The depth-first visit; [visiting] is the path to the node, [complete]
    what was fully visited. The path never repeats, so fuel for one more
    node than there are is enough. *)
Fixpoint visit (nodes : Nodes) (fuel : nat) (visiting : list string)
    (complete : list string) (key : string) : Result CatalogError (list string) :=
  if decide (key ∈ complete) then Ok complete
  else if decide (key ∈ visiting) then Throw (CatalogCycle key)
  else
    match jm_get key nodes with
    | None => Throw (UnknownReference key)
    | Some children =>
        match fuel with
        | 0 => Throw VisitTooDeep
        | S fuel =>
            let! complete := result_fold (visit nodes fuel (key :: visiting)) children complete in
            Ok (js_add key complete)
        end
    end.

Definition catalog_nodes (catalog : list PermissionDefinition) (groups : list PermissionCollection)
    : Result CatalogError Nodes :=
  let! nodes := result_fold add_permission_node catalog [] in
  result_fold add_collection_node groups nodes.

Definition validatePermissionCatalog (catalog : list PermissionDefinition)
    (groups : list PermissionCollection) : Result CatalogError unit :=
  let! nodes := catalog_nodes catalog groups in
  let! _ := result_fold (visit nodes (length nodes) []) nodes.*1 [] in
  Ok tt.

(** ** Implications *)

Definition implies_of (key : string) : list string :=
  match definition_of key with Some d => p_implies d | None => [] end.

(** The recursion follows implications, which are acyclic, so it is never
    deeper than there are permissions. *)
Fixpoint closure (fuel : nat) (key : string) : list string :=
  match fuel with
  | 0 => [key]
  | S fuel => js_distinct (key :: flat_map (closure fuel) (implies_of key))
  end.

Definition implicationClosure (key : string) : list string := closure (length accessPermissions) key.

(** ** [expandPermissionSelections] *)

Inductive PermissionError :=
  | BadSelections
  | UnknownPermission (key : string)
  | UnsupportedPermission (key : string) (scope : PermissionScopeType)
  | UnknownCollection (key : string)
  | UnsupportedCollection (key : string) (scope : PermissionScopeType)
  | ExpansionTooDeep
  | UnknownMachinePermission (key : string)
  | UnknownPreset (key : string).

(** [permissionSelectionSchema] and its array's limits. *)
Definition selection_ok (item : PermissionSelection) : bool :=
  (1 <=? String.length (sel_key item))%nat && (String.length (sel_key item) <=? 128)%nat.

Definition selections_ok (selections : list PermissionSelection) : bool :=
  (length selections <=? 256)%nat && forallb selection_ok selections.

(** What a supported permission adds at a scope. *)
Definition reveals (definition : PermissionDefinition) (selectedScope : PermissionScopeType)
    : list string :=
  if decide (p_family definition = Fshared) then
    (scope_name selectedScope +:+ ".read") ::
    (if decide (selectedScope = ScRelay)
     then default [] (jm_get (p_block definition) relayScopeChildVisibility) else [])
  else [].

(** The branch of [expand] for a permission. *)
Definition expand_permission (capabilities : option (list string))
    (selectedScope : PermissionScopeType) (nested : bool) (result : list string) (key : string)
    : Result PermissionError (list string) :=
  match definition_of key with
  | None => Throw (UnknownPermission key)
  | Some definition =>
      if negb (accessPermissionSupported key selectedScope capabilities) then
        if nested then Ok result else Throw (UnsupportedPermission key selectedScope)
      else
        Ok (js_add_all (reveals definition selectedScope)
              (js_add_all (implicationClosure key) result))
  end.

Fixpoint expand (capabilities : option (list string)) (fuel : nat)
    (selectedScope : PermissionScopeType) (nested : bool) (result : list string)
    (item : PermissionSelection) : Result PermissionError (list string) :=
  match kind item with
  | Permission => expand_permission capabilities selectedScope nested result (sel_key item)
  | Collection =>
      match collection_of (sel_key item) with
      | None => Throw (UnknownCollection (sel_key item))
      | Some group =>
          if negb (bool_decide (selectedScope ∈ g_scopeTypes group)) then
            if nested then Ok result
            else Throw (UnsupportedCollection (sel_key item) selectedScope)
          else
            match fuel with
            | 0 => Throw ExpansionTooDeep
            | S fuel =>
                let groupScope := default selectedScope (childScope group) in
                result_fold (expand capabilities fuel groupScope true) (g_selections group) result
            end
      end
  end.

(** Collections hold collections of permissions, so two levels are enough. *)
Definition expansion_fuel : nat := 2.

Definition expandPermissionSelections (selections : list PermissionSelection)
    (scope : PermissionScopeType) (capabilities : option (list string))
    : Result PermissionError (list string) :=
  guard! selections_ok selections else BadSelections in
  let! result := result_fold (expand capabilities expansion_fuel scope false) selections [] in
  let result := if decide (scope = ScRelay ∧ result ≠ []) then js_add "relay.read" result
                else result in
  Ok (List.filter (λ key, bool_decide (key ∈ result)) accessPermissions).

(** ** Presets *)

(** [key.endsWith(".all")] *)
Definition ends_with (suffix s : string) : bool :=
  let n := String.length suffix in
  let m := String.length s in
  (n <=? m)%nat && bool_decide (String.substring (m - n) n s = suffix).

Definition preset_selection (key : string) : PermissionSelection :=
  selection (if ends_with ".all" key then Collection else Permission) key.

Record PermissionPreset := MkPreset {
  ps_key : string;
  ps_label : string;
  ps_description : string;
  ps_scopeTypes : list PermissionScopeType;
  ps_selections : list PermissionSelection;
}.

Definition observer_preset : PermissionPreset :=
  MkPreset "kiln.observer" "Observer"
    "Inspect status, console, configuration, networks, backups, and schedules. Does not include downloading files, backups, or credentials."
    accessGrantScopeTypes
    (preset_selection <$>
       ["overview.all"; "instance.console.read"; "instance.configuration.read";
        "database.logs.read"; "app.logs.read"; "instance.network.read"; "database.network.read";
        "backup.read"; "schedule.read"]).

Definition operator_preset : PermissionPreset :=
  MkPreset "kiln.operator" "Operator"
    "Operate servers, files, networks, backups, and schedules without managing people or deleting resources."
    accessGrantScopeTypes
    (preset_selection <$>
       ["overview.all"; "instance.power.restart"; "instance.console.all"; "instance.files.all";
        "instance.logs.all"; "instance.network.write"; "database.power"; "database.network.write";
        "database.logs.read"; "app.logs.read"; "backup.all"; "schedule.all"]).

Definition administrator_preset : PermissionPreset :=
  MkPreset "kiln.administrator" "Administrator"
    "All current and future permissions in this scope. Does not transfer ownership or grant platform authority."
    accessGrantScopeTypes [selection Collection "all"].

Definition builtinPermissionPresets : list PermissionPreset :=
  [observer_preset; operator_preset; administrator_preset].

Definition builtinPresetSelections (key : string) (scopeType : PermissionScopeType)
    : Result PermissionError (list PermissionSelection) :=
  match List.find (λ entry, bool_decide (ps_key entry = key)) builtinPermissionPresets with
  | None => Throw (UnknownPreset key)
  | Some preset =>
      Ok (List.filter
            (λ entry, match kind entry with
                      | Permission => accessPermissionSupported (sel_key entry) scopeType None
                      | Collection => match collection_of (sel_key entry) with
                                      | Some g => bool_decide (scopeType ∈ g_scopeTypes g)
                                      | None => false
                                      end
                      end) (ps_selections preset))
  end.

(** ** Machine clients *)

Definition relayReadOnlyMachineActions : list string :=
  ["relay.read"; "relay.audit.read"; "relay.pairing.list"; "relay.clients.list"; "brick.read";
   "database.read"; "database.dump.export"; "backup.read"; "backup.download"; "schedule.read";
   "instance.read"; "instance.console.read"; "database.logs.read"; "app.read"; "app.logs.read";
   "instance.sftp.connect"; "instance.files.list"; "instance.files.read";
   "instance.files.download"; "instance.network.read"; "instance.logs.read"].

Inductive ClientRole := Custom | FullAccess | ReadOnly.

(** The [switch] over actions: [None] asks for every permission, and the
    others name the permissions an action needs. *)
Definition action_permissions (action : string) : option (Result PermissionError (list string)) :=
  let one_of xs := bool_decide (action ∈ xs) in
  if one_of ["relay.pairing.create"; "relay.clients.update"] then None
  else Some (
    if one_of ["relay.pairing.list"; "relay.clients.list"] then Ok ["relay.connections.read"]
    else if one_of ["relay.pairing.revoke"; "relay.clients.revoke"]
    then Ok ["relay.connections.manage"]
    else if one_of ["relay.rename"] then Ok ["relay.configure"]
    else if one_of ["relay.read"] then Ok ["relay.read"; "instance.configuration.read"]
    else if one_of ["brick.read"] then Ok ["instance.create"]
    else if one_of ["instance.create"] then
      let! all := expandPermissionSelections [MkSel Collection "instance.all"] ScRelay None in
      Ok (all ++ ["instance.create"])
    else if one_of ["instance.rename"] then Ok ["instance.configuration.write"]
    else if one_of ["instance.files.list"; "instance.files.download"]
    then Ok ["instance.files.read"]
    else if one_of ["relay.files.download"] then Ok ["relay.files.read"]
    else if one_of ["relay.files.upload"] then Ok ["relay.files.write"]
    else if one_of ["app.files.download"] then Ok ["app.files.read"]
    else if one_of ["app.files.upload"] then Ok ["app.files.write"]
    else if one_of ["instance.files.create"; "instance.files.rename"; "instance.files.upload";
                    "instance.files.upload-url"] then Ok ["instance.files.write"]
    else if one_of ["schedule.write"]
    then Ok ["schedule.create"; "schedule.update"; "schedule.execute"; "schedule.delete"]
    else Ok [action]).

(** Adds what one permission asks for. *)
Definition require_permission (required : list string) (permission : string)
    : Result PermissionError (list string) :=
  guard! accessPermissionSupported permission ScRelay None
    else UnknownMachinePermission permission in
  let! implied := expandPermissionSelections [MkSel Permission permission] ScRelay None in
  Ok (js_add_all implied required).

Definition require_action (required : list string) (action : string)
    : Result PermissionError (list string) :=
  match action_permissions action with
  | None => Ok (js_add_all accessPermissions required)
  | Some permissions => let! ps := permissions in result_fold require_permission ps required
  end.

Definition permissionsForRelayClientPolicy (role : ClientRole) (actions : list string)
    : Result PermissionError (list string) :=
  match role with
  | FullAccess => Ok (js_add_all accessPermissions [])
  | ReadOnly => result_fold require_action relayReadOnlyMachineActions []
  | Custom => result_fold require_action actions []
  end.
