(* ===== verification/PermissionFacts.v ===== *)
(** * Permissions: what the catalog and its expansion guarantee *)
From S2P Require Import Prelude Catalog Permissions.
From stdpp Require Import relations.

(** ** The catalog check *)

Lemma jm_set_new {K V} `{EqDecision K} (k : K) (v : V) m :
  k ∉ m.*1 → jm_set k v m = m ++ [(k, v)].
Proof.
  induction m as [|[k' v'] m IH]; csimpl; [done|]. intros Hk.
  rewrite decide_False by set_solver. by rewrite IH by set_solver.
Qed.

(** Collecting nodes succeeds exactly when their names are distinct. *)
Lemma collect_nodes {T} (name : T → string) (children : T → list string) (err : T → CatalogError)
    (step : Nodes → T → Result CatalogError Nodes) ts :
  (∀ nodes t, step nodes t = if bool_decide (name t ∉ nodes.*1)
                             then Ok (jm_set (name t) (children t) nodes) else Throw (err t)) →
  ∀ nodes nodes', NoDup nodes.*1 →
  result_fold step ts nodes = Ok nodes' ↔
  nodes' = nodes ++ ((λ t, (name t, children t)) <$> ts) ∧ NoDup (nodes.*1 ++ (name <$> ts)).
Proof.
  intros Hstep. induction ts as [|t ts IH]; intros nodes nodes' Hnd; csimpl.
  { rewrite !app_nil_r. split; [by intros [= ->]|by intros [-> _]]. }
  rewrite Hstep. case_bool_decide as Hin; simpl.
  - rewrite jm_set_new by done. rewrite IH.
    + rewrite fmap_app, <-!(assoc_L (++)). done.
    + rewrite fmap_app. apply NoDup_app. split; [done|]. split; [set_solver|].
      apply NoDup_singleton.
  - split; [done|]. intros [_ Hd]. exfalso. apply NoDup_app in Hd as (_ & Hd & _).
    apply (Hd _ Hin). set_solver.
Qed.

Section Visit.
Variable nodes : Nodes.
Hypothesis nodes_NoDup : NoDup nodes.*1.

Definition edge (a b : string) : Prop := ∃ cs, jm_get a nodes = Some cs ∧ b ∈ cs.

(** Every reference from the node on is known and ends somewhere. *)
Inductive fine : string → Prop :=
  fine_node a cs : jm_get a nodes = Some cs → (∀ c, c ∈ cs → fine c) → fine a.

Lemma fine_edge a b : fine a → edge a b → fine b.
Proof. intros Ha (cs & Hcs & Hb). inversion Ha; simplify_eq. eauto. Qed.

Lemma fine_acyclic a : fine a → ¬ tc edge a a.
Proof.
  induction 1 as [a cs Ha Hcs IH]. intros Hloop.
  assert (∃ c, edge a c ∧ rtc edge c a) as (c & Hac & Hca).
  { inversion Hloop as [x y Hxy|x y z Hxy Hyz]; subst; [by exists a; split; [|apply rtc_refl]|].
    exists y. split; [done|by apply tc_rtc]. }
  destruct Hac as (cs' & Hcs' & Hc). simplify_eq.
  apply (IH c Hc). eapply tc_rtc_l; [exact Hca|]. apply tc_once. by exists cs.
Qed.

Lemma visit_sound fuel : ∀ visiting complete key complete',
  (∀ x, x ∈ complete → fine x) → visit nodes fuel visiting complete key = Ok complete' →
  (∀ x, x ∈ complete' → fine x) ∧ key ∈ complete' ∧ (∀ x, x ∈ complete → x ∈ complete').
Proof.
  induction fuel as [|fuel IH]; intros visiting complete key complete' Hc Hv; simpl in Hv;
    (destruct (decide (key ∈ complete)); [inv_ok; subst; done|]);
    (destruct (decide (key ∈ visiting)); [done|]);
    destruct (jm_get key nodes) as [children|] eqn:Hkey; try done.
  apply result_bind_ok in Hv as (c1 & Hf & Hv). inv_ok. subst complete'.
  assert (∀ cs c0 c1, (∀ x, x ∈ c0 → fine x) →
    result_fold (visit nodes fuel (key :: visiting)) cs c0 = Ok c1 →
    (∀ x, x ∈ c1 → fine x) ∧ (∀ x, x ∈ cs → x ∈ c1) ∧ (∀ x, x ∈ c0 → x ∈ c1)) as Hfold.
  { clear -IH. induction cs as [|c cs IHcs]; simpl; intros c0 c1 H0 Hf.
    - inv_ok. subst. split; [done|]. split; [|done]. intros x Hx. by apply elem_of_nil in Hx.
    - apply result_bind_ok in Hf as (c2 & H1 & Hf).
      destruct (IH _ _ _ _ H0 H1) as (H2 & Hin & Hsub).
      destruct (IHcs _ _ H2 Hf) as (? & ? & ?). split; [done|]. split; [|auto].
      intros x [->|?]%elem_of_cons; auto. }
  destruct (Hfold _ _ _ Hc Hf) as (H1 & Hch & Hsub).
  split; [|split; [by apply js_add_elem; left|intros; apply js_add_elem; auto]].
  intros x [->|?]%js_add_elem; [|auto]. econstructor; [done|auto].
Qed.

Definition bad (key : string) (e : CatalogError) : Prop :=
  match e with
  | CatalogCycle k => tc edge k k
  | UnknownReference k => jm_get k nodes = None ∧ (k = key ∨ ∃ a, edge a k)
  | _ => False
  end.

Lemma visit_throw fuel : ∀ visiting complete key e,
  NoDup visiting → (∀ v, v ∈ visiting → v ∈ nodes.*1 ∧ tc edge v key) →
  length nodes ≤ fuel + length visiting →
  visit nodes fuel visiting complete key = Throw e → bad key e.
Proof using nodes_NoDup.
  induction fuel as [|fuel IH]; intros visiting complete key e Hnd Hvis Hlen Hv; simpl in Hv;
    (destruct (decide (key ∈ complete)); [done|]);
    (destruct (decide (key ∈ visiting)) as [Hin|Hin];
      [injection Hv as <-; by apply Hvis|]);
    (destruct (jm_get key nodes) as [children|] eqn:Hkey;
      [|injection Hv as <-; split; [done|by left]]);
    assert (key ∈ nodes.*1) as Hkn
      by (apply jm_get_Some in Hkey; [|done]; by apply (list_elem_of_fmap_2 fst) in Hkey).
  - exfalso. assert (length (key :: visiting) ≤ length nodes.*1) as Hle.
    { apply submseteq_length, NoDup_submseteq; [by constructor|].
      intros x [->|Hx]%elem_of_cons; [done|by apply Hvis]. }
    rewrite length_fmap in Hle. simpl in Hle. lia.
  - destruct (result_fold _ children complete) as [c1|e1] eqn:Hf; simpl in Hv; [done|].
    injection Hv as ->.
    eapply (result_fold_throw _ (λ _, True) (bad key) children); [done| |exact I|exact Hf].
    intros c0 child e0 Hchild _ Hv0.
    assert (edge key child) as Hedge by (by exists children).
    apply IH in Hv0.
    + destruct e0; simpl in *; try done. destruct Hv0 as [? [->|?]]; eauto.
    + by constructor.
    + intros v [->|Hin']%elem_of_cons; [by split; [|apply tc_once]|].
      destruct (Hvis v Hin') as [? ?]. split; [done|].
      eapply tc_rtc_r; [done|]. by apply rtc_once.
    + simpl. lia.
Qed.

Lemma visit_all :
  (∃ c, result_fold (visit nodes (length nodes) []) nodes.*1 [] = Ok c) ↔
  (∀ a b, edge a b → b ∈ nodes.*1) ∧ ∀ a, ¬ tc edge a a.
Proof using nodes_NoDup.
  split.
  - intros [c Hf].
    assert (∀ ks c0 c1, (∀ x, x ∈ c0 → fine x) →
      result_fold (visit nodes (length nodes) []) ks c0 = Ok c1 →
      (∀ x, x ∈ c1 → fine x) ∧ (∀ x, x ∈ ks ++ c0 → x ∈ c1)) as Hfold.
    { clear. induction ks as [|k ks IH]; simpl; intros c0 c1 H0 Hf; [by inv_ok; subst|].
      apply result_bind_ok in Hf as (c2 & H1 & Hf).
      destruct (visit_sound _ _ _ _ _ H0 H1) as (H2 & Hk & Hsub).
      destruct (IH _ _ H2 Hf) as [? Hin]. split; [done|].
      intros x [->|[?|?]%elem_of_app]%elem_of_cons; apply Hin; set_solver. }
    destruct (Hfold _ [] c ltac:(intros x Hx; by apply elem_of_nil in Hx) Hf) as [Hfine Hin].
    assert (∀ a cs, jm_get a nodes = Some cs → fine a) as Hall.
    { intros a cs Ha. apply Hfine, Hin, elem_of_app. left.
      apply jm_get_Some in Ha; [|done]. by apply (list_elem_of_fmap_2 fst) in Ha. }
    split.
    + intros a b Hab. destruct Hab as (cs & Ha & Hb).
      pose proof (fine_edge a b (Hall _ _ Ha) ltac:(by exists cs)) as Hfb.
      inversion Hfb as [? ? Hg]; subst. apply jm_get_Some in Hg; [|done].
      by apply (list_elem_of_fmap_2 fst) in Hg.
    + intros a Hloop. assert (∃ b, edge a b) as (b & cs & Ha & _).
      { inversion Hloop; subst; eauto. }
      by eapply fine_acyclic, Hloop; eapply Hall.
  - intros [Hknown Hacyc].
    destruct (result_fold _ _ _) as [c|e] eqn:Hf; [by exists c|exfalso].
    eapply (result_fold_throw _ (λ _, True) (λ _, False) nodes.*1); [done| |exact I|exact Hf].
    intros c0 key e0 Hkey _ Hv0. apply visit_throw in Hv0; [| | |simpl; lia].
    + destruct e0; simpl in Hv0; try done; [by eapply Hacyc|].
      destruct Hv0 as [Hnone Hor]. apply jm_get_None in Hnone. apply Hnone.
      destruct Hor as [->|[a Ha]]; [done|by eapply Hknown].
    + constructor.
    + intros v Hv. by apply elem_of_nil in Hv.
Qed.
End Visit.

(** A catalog's names, and which entry refers to which, read off its entries. *)
Definition catalog_pairs (catalog : list PermissionDefinition) (groups : list PermissionCollection)
    : Nodes :=
  ((λ e, (node_name Permission (p_key e), node_name Permission <$> p_implies e)) <$> catalog) ++
  ((λ g, (node_name Collection (g_key g),
          (λ c, node_name (kind c) (sel_key c)) <$> g_selections g)) <$> groups).

Definition refers (catalog : list PermissionDefinition) (groups : list PermissionCollection)
    (a b : string) : Prop := ∃ cs, (a, cs) ∈ catalog_pairs catalog groups ∧ b ∈ cs.

Lemma catalog_nodes_ok catalog groups nodes :
  catalog_nodes catalog groups = Ok nodes ↔
  nodes = catalog_pairs catalog groups ∧ NoDup (catalog_pairs catalog groups).*1.
Proof.
  unfold catalog_nodes, catalog_pairs. rewrite result_bind_ok.
  setoid_rewrite (collect_nodes (λ e, node_name Permission (p_key e))
    (λ e, node_name Permission <$> p_implies e) (λ e, DuplicatePermission (p_key e))
    add_permission_node catalog (λ _ _, eq_refl) [] _ (NoDup_nil_2)).
  simpl. rewrite fmap_app, <-!list_fmap_compose. split.
  - intros (n1 & (-> & Hn1) & H2).
    apply (collect_nodes (λ g, node_name Collection (g_key g)) _
      (λ g, DuplicateCollection (g_key g)) add_collection_node groups (λ _ _, eq_refl)) in H2;
      [|by rewrite <-list_fmap_compose].
    destruct H2 as [-> Hnd]. split; [done|]. by rewrite <-list_fmap_compose in Hnd.
  - intros [-> Hnd]. eexists. split; [split; [reflexivity|]|].
    + by apply NoDup_app in Hnd as [? _].
    + apply (collect_nodes (λ g, node_name Collection (g_key g)) _
        (λ g, DuplicateCollection (g_key g)) add_collection_node groups (λ _ _, eq_refl));
        rewrite <-list_fmap_compose; [by apply NoDup_app in Hnd as [? _]|done].
Qed.

(** The catalog check accepts exactly the well-formed catalogs: no
    permission or collection is defined twice, every reference is to an entry
    there is, and no entry leads back to itself. *)
Theorem validatePermissionCatalog_exact catalog groups :
  validatePermissionCatalog catalog groups = Ok tt ↔
  NoDup (catalog_pairs catalog groups).*1 ∧
  (∀ a b, refers catalog groups a b → b ∈ (catalog_pairs catalog groups).*1) ∧
  (∀ a, ¬ tc (refers catalog groups) a a).
Proof.
  assert (∀ a b, NoDup (catalog_pairs catalog groups).*1 →
    edge (catalog_pairs catalog groups) a b ↔ refers catalog groups a b) as Hedge.
  { intros a b Hnd. unfold edge, refers. by setoid_rewrite jm_get_Some. }
  assert (∀ R S : relation string, (∀ a b, R a b → S a b) → ∀ a b, tc R a b → tc S a b) as Htc.
  { intros R S HRS a b. induction 1; [by apply tc_once; auto|by eapply tc_l; [apply HRS|]]. }
  unfold validatePermissionCatalog. rewrite result_bind_ok. setoid_rewrite catalog_nodes_ok.
  split.
  - intros (nodes & [-> Hnd] & H). apply result_bind_ok in H as (c & Hv & _). split; [done|].
    destruct (proj1 (visit_all _ Hnd) (ex_intro _ c Hv)) as [Hk Ha]. split.
    + intros a b Hab. by apply (Hk a), Hedge.
    + intros a Hloop. apply (Ha a). eapply Htc; [|exact Hloop]. intros. by apply Hedge.
  - intros (Hnd & Hk & Ha). eexists. split; [done|].
    destruct (proj2 (visit_all _ Hnd)) as [c ->]; [|done]. split.
    + intros a b Hab. by apply (Hk a), Hedge.
    + intros a Hloop. apply (Ha a). eapply Htc; [|exact Hloop]. intros. by apply Hedge.
Qed.

(** The shipped catalog passes its own check. *)
Lemma catalog_valid : validatePermissionCatalog permissionCatalog permissionCollections = Ok tt.
Proof. vm_compute. reflexivity. Qed.

(** ** Implications *)

(** [a] directly implies [b]. *)
Definition implied (a b : string) : Prop := b ∈ implies_of a.

Definition memb (x : string) (xs : list string) : bool := bool_decide (x ∈ xs).

Lemma memb_true x xs : memb x xs = true ↔ x ∈ xs.
Proof. apply bool_decide_eq_true. Qed.

Lemma definition_of_Some key d :
  definition_of key = Some d → p_key d = key ∧ d ∈ permissionCatalog ∧ key ∈ accessPermissions.
Proof.
  intros Hd. apply List.find_some in Hd as [Hin Hk]. apply bool_decide_eq_true in Hk.
  apply list_elem_of_In in Hin. split; [done|]. split; [done|].
  unfold permissionCatalog in Hin. apply list_elem_of_fmap in Hin as (k & -> & Hk').
  unfold permission_entry in Hk. destruct (default _ _) as [b f]. simpl in Hk. by subst.
Qed.

(** Facts the tables make true, checked on every entry. *)
Definition closure_closed (key : string) : bool :=
  forallb (λ p, memb p accessPermissions &&
                forallb (λ q, memb q (implicationClosure key)) (implies_of p))
    (implicationClosure key).

Lemma closures_closed : forallb closure_closed accessPermissions = true.
Proof. vm_compute. reflexivity. Qed.

(** What is implied or revealed at a scope is itself for that scope, and for
    the Relay. *)
Definition scoped (s : PermissionScopeType) (p : string) : bool := accessPermissionSupported p s None.

Definition entry_scoped (key : string) : bool :=
  match definition_of key with
  | None => false
  | Some d =>
      forallb (λ s, negb (scoped s key) ||
        forallb (λ p, scoped s p && scoped ScRelay p && memb p accessPermissions)
          (implicationClosure key ++ reveals d s)) permissionScopeTypes &&
      forallb (λ s, forallb (λ p, memb p accessPermissions && bool_decide (implies_of p = []))
                      (reveals d s)) permissionScopeTypes
  end.

Lemma entries_scoped : forallb entry_scoped accessPermissions = true.
Proof. vm_compute. reflexivity. Qed.

Fixpoint expandable (fuel : nat) (item : PermissionSelection) : bool :=
  match kind item with
  | Permission => match definition_of (sel_key item) with Some _ => true | None => false end
  | Collection =>
      match collection_of (sel_key item), fuel with
      | Some g, S fuel => forallb (expandable fuel) (g_selections g)
      | _, _ => false
      end
  end.

Definition group_ok (g : PermissionCollection) : bool :=
  forallb (expandable (pred expansion_fuel)) (g_selections g) &&
  match childScope g with
  | None => true
  | Some c => forallb (λ s, bool_decide (s = ScRelay) || bool_decide (s = c)) (g_scopeTypes g)
  end.

Lemma groups_ok : forallb group_ok permissionCollections = true.
Proof. vm_compute. reflexivity. Qed.

Lemma collection_of_elem key g : collection_of key = Some g → g ∈ permissionCollections.
Proof.
  unfold collection_of. generalize permissionCollections. intros gs Hg.
  apply List.find_some in Hg as [Hin _]. by apply list_elem_of_In.
Qed.

Lemma closure_sound fuel : ∀ key p, p ∈ closure fuel key → rtc implied key p.
Proof.
  induction fuel as [|fuel IH]; simpl; intros key p Hp.
  - apply list_elem_of_singleton in Hp as ->. apply rtc_refl.
  - rewrite js_distinct_elem, elem_of_cons in Hp. destruct Hp as [->|Hp]; [apply rtc_refl|].
    apply list_elem_of_In, in_flat_map in Hp as (q & Hq & Hp).
    apply list_elem_of_In in Hq, Hp. eapply rtc_l; [exact Hq|by apply IH].
Qed.

Lemma closure_self fuel key : key ∈ closure fuel key.
Proof.
  destruct fuel; simpl; [set_solver|]. rewrite js_distinct_elem. set_solver.
Qed.

Lemma implicationClosure_sound key p : p ∈ implicationClosure key → rtc implied key p.
Proof. apply closure_sound. Qed.

Lemma implicationClosure_self key : key ∈ implicationClosure key.
Proof. apply closure_self. Qed.

#[local] Opaque implicationClosure definition_of collection_of accessPermissions
  permissionCollections permissionCatalog.

Lemma collection_of_ok key g : collection_of key = Some g → group_ok g = true.
Proof.
  intros Hg%collection_of_elem. pose proof groups_ok as H. rewrite forallb_elem in H. by apply H.
Qed.

Lemma closure_closed_step key p q :
  key ∈ accessPermissions → p ∈ implicationClosure key → q ∈ implies_of p →
  q ∈ implicationClosure key.
Proof.
  intros Hk Hp Hq. pose proof closures_closed as H. rewrite forallb_elem in H.
  specialize (H key Hk). unfold closure_closed in H. rewrite forallb_elem in H.
  specialize (H p Hp). apply andb_true_iff in H as [_ H]. rewrite forallb_elem in H.
  by apply memb_true, H.
Qed.

Lemma closure_known key p :
  key ∈ accessPermissions → p ∈ implicationClosure key → p ∈ accessPermissions.
Proof.
  intros Hk Hp. pose proof closures_closed as H. rewrite forallb_elem in H.
  specialize (H key Hk). unfold closure_closed in H. rewrite forallb_elem in H.
  specialize (H p Hp). apply andb_true_iff in H as [H _]. by apply memb_true.
Qed.

(** The cached implication closure of a permission is exactly what it
    implies, directly or through others. *)
Theorem implicationClosure_exact key p :
  key ∈ accessPermissions → p ∈ implicationClosure key ↔ rtc implied key p.
Proof.
  intros Hk. split; [apply implicationClosure_sound|]. intros Hr.
  assert (∀ a, a ∈ implicationClosure key → rtc implied a p → p ∈ implicationClosure key) as H.
  { clear Hr. intros a Ha Hap. induction Hap as [a|a b c Hab _ IH]; [done|].
    apply IH. by eapply closure_closed_step. }
  apply (H key); [apply implicationClosure_self|done].
Qed.

Example implicationClosure_exact_witness :
  "instance.read" ∈ implicationClosure "instance.power" ∧ rtc implied "instance.power" "instance.power.start".
Proof.
  split; [apply (bool_decide_unpack _); vm_compute; exact I|].
  apply (implicationClosure_exact "instance.power" "instance.power.start");
    apply (bool_decide_unpack _); vm_compute; exact I.
Defined.

(** ** Expansion *)

Lemma entry_facts key d :
  definition_of key = Some d →
  (∀ s p, scoped s key = true → p ∈ implicationClosure key ++ reveals d s →
     scoped s p = true ∧ scoped ScRelay p = true ∧ p ∈ accessPermissions) ∧
  (∀ s p, p ∈ reveals d s → p ∈ accessPermissions ∧ implies_of p = []).
Proof.
  intros Hd. destruct (definition_of_Some _ _ Hd) as (_ & _ & Hk).
  pose proof entries_scoped as H. rewrite forallb_elem in H. specialize (H key Hk).
  unfold entry_scoped in H. rewrite Hd in H. apply andb_true_iff in H as [H1 H2].
  assert (∀ s, s ∈ permissionScopeTypes) as Hs by (intros []; unfold permissionScopeTypes; set_solver).
  rewrite forallb_elem in H1, H2. split.
  - intros s p Hsc Hp. specialize (H1 s (Hs s)). rewrite Hsc in H1. simpl in H1.
    rewrite forallb_elem in H1. specialize (H1 p Hp).
    rewrite !andb_true_iff, memb_true in H1. tauto.
  - intros s p Hp. specialize (H2 s (Hs s)). rewrite forallb_elem in H2. specialize (H2 p Hp).
    by rewrite andb_true_iff, memb_true, bool_decide_eq_true in H2.
Qed.

Lemma supported_weaken key s caps :
  accessPermissionSupported key s caps = true → scoped s key = true.
Proof.
  unfold scoped, accessPermissionSupported. destruct (definition_of key); [|done].
  rewrite !andb_true_iff. tauto.
Qed.

Section Expansion.
Variable capabilities : option (list string).
Notation expand := (expand capabilities).

Lemma expand_permission_ok s nested r key r' :
  expand_permission capabilities s nested r key = Ok r' →
  r' = r ∨ ∃ d, definition_of key = Some d ∧
    accessPermissionSupported key s capabilities = true ∧
    r' = js_add_all (reveals d s) (js_add_all (implicationClosure key) r).
Proof.
  unfold expand_permission. generalize (accessPermissionSupported key s capabilities).
  intros b. destruct (definition_of key) as [d|]; [|discriminate].
  destruct b; simpl.
  - intros [= <-]. right. exists d. auto.
  - destruct nested; [|discriminate]. intros [= <-]. by left.
Qed.

(** The branch of [expand] for a collection, as an equation. *)
Lemma expand_collection_eq fuel s nested r item :
  kind item = Collection →
  expand (S fuel) s nested r item =
  match collection_of (sel_key item) with
  | None => Throw (UnknownCollection (sel_key item))
  | Some g =>
      if bool_decide (s ∈ g_scopeTypes g)
      then result_fold (expand fuel (default s (childScope g)) true) (g_selections g) r
      else if nested then Ok r else Throw (UnsupportedCollection (sel_key item) s)
  end.
Proof.
  intros Hk. cbn [Permissions.expand]. rewrite Hk.
  destruct (collection_of (sel_key item)) as [g|]; [|reflexivity].
  by destruct (bool_decide (s ∈ g_scopeTypes g)).
Qed.

Lemma expand_permission_eq fuel s nested r item :
  kind item = Permission →
  expand fuel s nested r item = expand_permission capabilities s nested r (sel_key item).
Proof. intros Hk. destruct fuel; cbn [Permissions.expand]; by rewrite Hk. Qed.

Lemma expand_no_fuel s nested r item :
  kind item = Collection →
  expand 0 s nested r item =
  match collection_of (sel_key item) with
  | None => Throw (UnknownCollection (sel_key item))
  | Some g =>
      if bool_decide (s ∈ g_scopeTypes g) then Throw ExpansionTooDeep
      else if nested then Ok r else Throw (UnsupportedCollection (sel_key item) s)
  end.
Proof.
  intros Hk. cbn [Permissions.expand]. rewrite Hk.
  destruct (collection_of (sel_key item)) as [g|]; [|reflexivity].
  by destruct (bool_decide (s ∈ g_scopeTypes g)).
Qed.

#[local] Opaque Permissions.expand.

(** Whatever a supported permission keeps at a scope that is reached, the
    expansion keeps. *)
Section Invariant.
Variables (I : list string → Prop) (okScope : PermissionScopeType → Prop).
Hypothesis I_permission : ∀ s key d r, okScope s → definition_of key = Some d →
  accessPermissionSupported key s capabilities = true → I r →
  I (js_add_all (reveals d s) (js_add_all (implicationClosure key) r)).
Hypothesis okScope_child : ∀ g s, okScope s → group_ok g = true → s ∈ g_scopeTypes g →
  okScope (default s (childScope g)).

Lemma expand_keeps fuel : ∀ s nested r item r',
  okScope s → I r → expand fuel s nested r item = Ok r' → I r'.
Proof using I_permission okScope_child.
  induction fuel as [|fuel IH]; intros s nested r item r' Hs Hr He; destruct (kind item) eqn:Hk.
  1, 3: rewrite expand_permission_eq in He by exact Hk;
    apply expand_permission_ok in He as [->|(d & ? & ? & ->)]; [exact Hr|eauto].
  - rewrite expand_no_fuel in He by exact Hk.
    destruct (collection_of (sel_key item)); [|discriminate].
    destruct (bool_decide _), nested; try discriminate. by injection He as <-.
  - rewrite expand_collection_eq in He by exact Hk.
    destruct (collection_of (sel_key item)) as [g|] eqn:Hg; [|discriminate].
    destruct (bool_decide _) eqn:Hin; [|destruct nested; [by injection He as <-|discriminate]].
    apply bool_decide_eq_true in Hin. apply collection_of_ok in Hg.
    eapply (result_fold_ok _ I); [|exact Hr|exact He]. intros a b a' _ Ha. apply IH; eauto.
Qed.
End Invariant.

(** Two runs that start from different results differ by that only. *)
Definition adds_same (x0 y0 : list string) (x y : Result PermissionError (list string)) : Prop :=
  match x, y with
  | Ok x1, Ok y1 => ∃ added : list string, (∀ p, p ∈ x1 ↔ p ∈ x0 ∨ p ∈ added) ∧ (∀ p, p ∈ y1 ↔ p ∈ y0 ∨ p ∈ added)
  | Throw e, Throw e' => e = e'
  | _, _ => False
  end.

Lemma adds_same_id x y : adds_same x y (Ok x) (Ok y).
Proof. exists []. split; intros p; rewrite elem_of_nil; tauto. Qed.

Lemma fold_adds_same {B} (f : list string → B → Result PermissionError (list string)) bs :
  (∀ x y b, adds_same x y (f x b) (f y b)) →
  ∀ x y, adds_same x y (result_fold f bs x) (result_fold f bs y).
Proof.
  intros Hf. induction bs as [|b bs IH]; intros x y; simpl; [apply adds_same_id|].
  specialize (Hf x y b). destruct (f x b) as [x1|e], (f y b) as [y1|e']; simpl in *; try done.
  destruct Hf as (a1 & Hx1 & Hy1). specialize (IH x1 y1).
  destruct (result_fold f bs x1), (result_fold f bs y1); simpl in *; try done.
  destruct IH as (a2 & Hx2 & Hy2). exists (a1 ++ a2). setoid_rewrite elem_of_app.
  split; intros p; [rewrite Hx2, Hx1|rewrite Hy2, Hy1]; tauto.
Qed.

Lemma permission_adds_same s nested key x y :
  adds_same x y (expand_permission capabilities s nested x key)
    (expand_permission capabilities s nested y key).
Proof.
  unfold expand_permission. generalize (accessPermissionSupported key s capabilities).
  intros b. destruct (definition_of key) as [d|]; [|reflexivity].
  destruct b; cbn [negb]; [|destruct nested; [apply adds_same_id|reflexivity]].
  exists (reveals d s ++ implicationClosure key). generalize (reveals d s) (implicationClosure key).
  intros us vs. split; intros p; rewrite !js_add_all_elem, elem_of_app; tauto.
Qed.

Lemma expand_adds_same fuel : ∀ s nested item x y,
  adds_same x y (expand fuel s nested x item) (expand fuel s nested y item).
Proof.
  induction fuel as [|fuel IH]; intros s nested item x y; destruct (kind item) eqn:Hk.
  1, 3: rewrite !expand_permission_eq by exact Hk; apply permission_adds_same.
  - rewrite !expand_no_fuel by exact Hk. destruct (collection_of (sel_key item)); [|reflexivity].
    destruct (bool_decide _), nested; first [reflexivity|apply adds_same_id].
  - rewrite !expand_collection_eq by exact Hk.
    destruct (collection_of (sel_key item)) as [g|]; [|reflexivity].
    destruct (bool_decide _); [|destruct nested; first [reflexivity|apply adds_same_id]].
    apply fold_adds_same. intros. apply IH.
Qed.

(** What a known collection holds always expands. *)
Lemma expand_nested_ok fuel : ∀ s r item,
  expandable fuel item = true → ∃ r', expand fuel s true r item = Ok r'.
Proof.
  assert (∀ s r key, is_Some (definition_of key) →
    ∃ r', expand_permission capabilities s true r key = Ok r') as Hp.
  { intros s r key [d Hd]. unfold expand_permission. rewrite Hd.
    destruct (negb _); eexists; reflexivity. }
  induction fuel as [|fuel IH]; intros s r item He; cbn [expandable] in He;
    destruct (kind item) eqn:Hk.
  1, 3: rewrite expand_permission_eq by exact Hk; apply Hp;
    destruct (definition_of (sel_key item)) as [d|]; [by exists d|discriminate].
  - destruct (collection_of (sel_key item)); discriminate.
  - rewrite expand_collection_eq by exact Hk.
    destruct (collection_of (sel_key item)) as [g|]; [|discriminate].
    destruct (bool_decide _); [|by eexists].
    rewrite forallb_elem in He. revert r. induction (g_selections g) as [|i rest IHrest]; intros r.
    + by eexists.
    + destruct (IH (default s (childScope g)) r i) as [r1 Hr1]; [apply He; set_solver|].
      cbn [result_fold]. rewrite Hr1. apply IHrest. set_solver.
Qed.

(** A selection the scope offers. *)
Definition offered (s : PermissionScopeType) (item : PermissionSelection) : bool :=
  match kind item with
  | Permission => accessPermissionSupported (sel_key item) s capabilities
  | Collection => match collection_of (sel_key item) with
                  | Some g => bool_decide (s ∈ g_scopeTypes g)
                  | None => false
                  end
  end.

Lemma expand_ok_offered s r item :
  is_ok (expand expansion_fuel s false r item) = offered s item.
Proof.
  unfold offered, expansion_fuel. destruct (kind item) eqn:Hk.
  - rewrite expand_permission_eq by exact Hk. unfold expand_permission, accessPermissionSupported.
    destruct (definition_of (sel_key item)) as [d|]; [|reflexivity].
    by destruct (bool_decide _ && _).
  - rewrite expand_collection_eq by exact Hk.
    destruct (collection_of (sel_key item)) as [g|] eqn:Hg; [|reflexivity].
    destruct (bool_decide _); [|reflexivity].
    apply collection_of_ok, andb_true_iff in Hg as [Hok _]. rewrite forallb_elem in Hok.
    revert r. induction (g_selections g) as [|i rest IHrest]; intros r; [reflexivity|].
    destruct (expand_nested_ok 1 (default s (childScope g)) r i) as [r1 Hr1];
      [apply Hok; set_solver|].
    cbn [result_fold]. rewrite Hr1. apply IHrest. set_solver.
Qed.
End Expansion.

(** ** [expandPermissionSelections] *)

(** What a successful expansion returns, from the set it collected. *)
Lemma expansion_ok sels scope caps r :
  expandPermissionSelections sels scope caps = Ok r ↔
  selections_ok sels = true ∧
  ∃ r0, result_fold (expand caps expansion_fuel scope false) sels [] = Ok r0 ∧
    r = List.filter (λ key, bool_decide
          (key ∈ if decide (scope = ScRelay ∧ r0 ≠ []) then js_add "relay.read" r0 else r0))
        accessPermissions.
Proof.
  unfold expandPermissionSelections. destruct (selections_ok sels); [|split; [done|naive_solver]].
  rewrite result_bind_ok. split.
  - intros (r0 & Hf & [= <-]). split; [done|]. by exists r0.
  - intros (_ & r0 & Hf & ->). by exists r0.
Qed.

Lemma expansion_elem r0 scope p :
  p ∈ List.filter (λ key, bool_decide
        (key ∈ if decide (scope = ScRelay ∧ r0 ≠ []) then js_add "relay.read" r0 else r0))
      accessPermissions ↔
  p ∈ accessPermissions ∧ (p ∈ r0 ∨ (scope = ScRelay ∧ p = "relay.read" ∧ r0 ≠ [])).
Proof.
  rewrite elem_of_bfilter, bool_decide_eq_true. apply and_iff_compat_l.
  destruct (decide (scope = ScRelay ∧ r0 ≠ [])) as [[-> Hne]|Hno].
  - rewrite js_add_elem. naive_solver.
  - naive_solver.
Qed.

(** Stored selections expand exactly when every one of them still names
    something the scope offers (and there are not too many): a stale,
    misspelled or misplaced selection fails the whole expansion, and nothing
    else does. *)
Theorem expansion_fails_closed sels scope caps :
  is_ok (expandPermissionSelections sels scope caps) =
  selections_ok sels && forallb (offered caps scope) sels.
Proof.
  unfold expandPermissionSelections. destruct (selections_ok sels); [|reflexivity]. simpl.
  assert (∀ r, is_ok (result_fold (expand caps expansion_fuel scope false) sels r)
               = forallb (offered caps scope) sels) as H.
  { induction sels as [|item sels IH]; intros r; [reflexivity|]. cbn [result_fold forallb].
    rewrite <-(expand_ok_offered caps scope r item).
    destruct (expand caps expansion_fuel scope false r item) as [r1|e]; [|reflexivity].
    cbn [result_bind is_ok andb]. apply IH. }
  rewrite <-(H []). by destruct (result_fold _ sels []).
Qed.

Lemma expansion_implied sels scope caps r :
  expandPermissionSelections sels scope caps = Ok r →
  ∀ p q, p ∈ r → rtc implied p q → q ∈ r.
Proof.
  intros (_ & r0 & Hf & ->)%expansion_ok.
  set (I := λ r : list string, (∀ p, p ∈ r → p ∈ accessPermissions) ∧
    ∀ p q, p ∈ r → implied p q → q ∈ r).
  assert (I r0) as [Hk Hc].
  { eapply (result_fold_ok _ I); [|split; intros p; [|intros q]; intros Hp;
      by apply elem_of_nil in Hp|exact Hf].
    intros a item a' _ Ha. apply (expand_keeps caps I (λ _, True)); [|done|exact I0 || done|exact Ha].
    clear. intros s key d r _ Hd _ [Hk Hc].
    destruct (entry_facts _ _ Hd) as [_ Hrev]. destruct (definition_of_Some _ _ Hd) as (_ & _ & Hkey).
    split; [intros p|intros p q]; rewrite !js_add_all_elem.
    - intros [Hp|[Hp|Hp]]; [by eapply Hrev|by eapply closure_known|auto].
    - intros [Hp|[Hp|Hp]] Hpq.
      + apply Hrev in Hp as [_ Hnil]. unfold implied in Hpq. rewrite Hnil in Hpq.
        by apply elem_of_nil in Hpq.
      + right; left. by eapply closure_closed_step.
      + right; right. by eapply Hc. }
  assert (implies_of "relay.read" = []) as Hrr by (vm_compute; reflexivity).
  assert (∀ p q, rtc implied p q → p ∈ r0 → q ∈ r0) as Hrtc.
  { intros p q Hpq. induction Hpq as [|a b c Hab _ IH]; [done|]. intros Ha. apply IH.
    by eapply Hc. }
  intros p q. rewrite !expansion_elem. intros [Hp Hor] Hpq.
  destruct Hor as [Hin|(-> & -> & Hne)].
  + pose proof (Hrtc _ _ Hpq Hin). auto.
  + inversion Hpq as [|a b c Hab Hbc]; subst; [auto|].
    unfold implied in Hab. rewrite Hrr in Hab. by apply elem_of_nil in Hab.
Qed.

(** Effective permissions are a set of known permissions closed under
    implication: whatever a permission they hold implies, they hold; they
    come in catalog order without repeats; and an assignment on a Relay that
    grants anything shows the Relay. *)
Theorem expansion_closed sels scope caps r :
  expandPermissionSelections sels scope caps = Ok r →
  r `sublist_of` accessPermissions ∧
  (∀ p q, p ∈ r → rtc implied p q → q ∈ r) ∧
  (scope = ScRelay → r ≠ [] → "relay.read" ∈ r).
Proof.
  intros Hr. pose proof (expansion_implied _ _ _ _ Hr) as Himp.
  apply expansion_ok in Hr as (_ & r0 & Hf & ->). split; [|split].
  - clear. induction accessPermissions as [|k ks IH]; simpl; [constructor|].
    destruct (bool_decide _); [by apply sublist_skip|by apply sublist_cons].
  - exact Himp.
  - intros -> Hne. rewrite expansion_elem. split.
    + apply (bool_decide_unpack _). vm_compute. exact I.
    + right. split; [done|]. split; [done|]. intros ->. apply Hne.
      clear. induction accessPermissions as [|k ks IH]; [done|]. simpl. exact IH.
Qed.

Definition sample_selections : list PermissionSelection :=
  [MkSel Collection "instance.all"; MkSel Permission "backup.create"].

Definition sample_expansion : list string :=
  match expandPermissionSelections sample_selections ScInstance None with Ok r => r | _ => [] end.

Example expansion_closed_witness :
  length sample_expansion = 37 ∧ ∀ q, rtc implied "instance.console.write" q → q ∈ sample_expansion.
Proof.
  split; [vm_compute; reflexivity|]. intros q.
  assert (expandPermissionSelections sample_selections ScInstance None = Ok sample_expansion) as E
    by (vm_compute; reflexivity).
  apply (proj1 (proj2 (expansion_closed sample_selections ScInstance None sample_expansion E))).
  apply (bool_decide_unpack _). vm_compute. exact I.
Defined.

(** C5: Permissions never leak out of the resource they were granted on: an
    expansion at a scope holds only permissions that exist at that scope, so
    a grant on one server, database or app never reaches its Relay or
    another kind of resource. *)
Theorem expansion_confined sels scope caps r p :
  expandPermissionSelections sels scope caps = Ok r → p ∈ r → scoped scope p = true.
Proof.
  intros (_ & r0 & Hf & ->)%expansion_ok Hp. apply expansion_elem in Hp as [_ Hp].
  set (I := λ r : list string, ∀ p, p ∈ r → scoped scope p = true).
  assert (I r0) as Hr0.
  { eapply (result_fold_ok _ I); [|intros q Hq; by apply elem_of_nil in Hq|exact Hf].
    intros a item a' _ Ha.
    apply (expand_keeps caps I (λ s, s = scope ∨ scope = ScRelay)); [| |by left|exact Ha].
    - clear. intros s key d r Hs Hd Hsup Hr q. rewrite !js_add_all_elem.
      destruct (entry_facts _ _ Hd) as [Hsc _].
      specialize (Hsc s q (supported_weaken _ _ _ Hsup)). rewrite elem_of_app in Hsc.
      intros [Hq|[Hq|Hq]]; [| |by apply Hr]; destruct Hsc as (? & ? & _); auto;
        destruct Hs as [-> | ->]; done.
    - clear. intros g s Hs Hg Hin. unfold group_ok in Hg. apply andb_true_iff in Hg as [_ Hg].
      destruct (childScope g) as [c|]; [|done]. rewrite forallb_elem in Hg.
      specialize (Hg s Hin). rewrite orb_true_iff, !bool_decide_eq_true in Hg. simpl.
      destruct Hs as [->|?]; [|by right]. destruct Hg as [->| ->]; [by right|by left]. }
  destruct Hp as [Hp|(-> & -> & _)]; [by apply Hr0|]. vm_compute. reflexivity.
Qed.

Example expansion_confined_witness :
  scoped ScInstance "instance.files.write" = true ∧ scoped ScInstance "relay.files.write" = false.
Proof.
  split; [|vm_compute; reflexivity].
  assert (expandPermissionSelections sample_selections ScInstance None = Ok sample_expansion) as E
    by (vm_compute; reflexivity).
  apply (expansion_confined sample_selections ScInstance None sample_expansion _ E).
  apply (bool_decide_unpack _). vm_compute. exact I.
Defined.

(** A run over selections collects what each adds on its own. *)
Lemma fold_union caps scope sels : ∀ x r0,
  result_fold (expand caps expansion_fuel scope false) sels x = Ok r0 →
  (∀ item, item ∈ sels → ∃ a, expand caps expansion_fuel scope false [] item = Ok a) ∧
  ∀ p, p ∈ r0 ↔ p ∈ x ∨ ∃ item a, item ∈ sels ∧
    expand caps expansion_fuel scope false [] item = Ok a ∧ p ∈ a.
Proof.
  induction sels as [|item sels IH]; intros x r0 Hf; cbn [result_fold] in Hf.
  - injection Hf as <-. split; [intros item Hi; by apply elem_of_nil in Hi|].
    intros p. split; [auto|]. intros [?|(i & _ & Hi & _)]; [done|by apply elem_of_nil in Hi].
  - apply result_bind_ok in Hf as (x1 & H1 & Hf). destruct (IH _ _ Hf) as [Hall Hr0].
    pose proof (expand_adds_same caps expansion_fuel scope false item x []) as Hadd.
    rewrite H1 in Hadd.
    destruct (expand caps expansion_fuel scope false [] item) as [a|] eqn:Ha; [|done].
    destruct Hadd as (added & Hx1 & Ha1). split.
    + intros i [->|Hi]%elem_of_cons; [by exists a|by apply Hall].
    + intros p. rewrite Hr0, Hx1. setoid_rewrite elem_of_cons. split.
      * intros [[?|?]|(i & b & ? & ? & ?)]; [by left| |right; exists i, b; auto].
        right. exists item, a. split; [by left|]. split; [done|]. apply Ha1. by right.
      * intros [?|(i & b & [->|?] & Hb & Hp)]; [by left; left| |right; exists i, b; auto].
        rewrite Ha in Hb. injection Hb as <-. apply Ha1 in Hp as [Hp|?]; [by apply elem_of_nil in Hp|by left; right].
Qed.

Lemma expansion_alone caps scope item a :
  expand caps expansion_fuel scope false [] item = Ok a →
  ∀ q r1, expandPermissionSelections [item] scope caps = Ok r1 →
  q ∈ r1 ↔ q ∈ accessPermissions ∧ (q ∈ a ∨ (scope = ScRelay ∧ q = "relay.read" ∧ a ≠ [])).
Proof.
  intros Ha q r1 (_ & a' & Hf1 & ->)%expansion_ok. cbn [result_fold] in Hf1. rewrite Ha in Hf1.
  injection Hf1 as <-. apply expansion_elem.
Qed.

(** Selections contribute independently: an assignment grants exactly the
    union of what each of its selections grants alone, so neither their order
    nor repeats matter, and adding one never takes anything away. *)
Theorem expansion_union sels scope caps r :
  expandPermissionSelections sels scope caps = Ok r →
  ∀ p, p ∈ r ↔ ∃ item r1, item ∈ sels ∧
    expandPermissionSelections [item] scope caps = Ok r1 ∧ p ∈ r1.
Proof.
  intros (Hok & r0 & Hf & ->)%expansion_ok p. rewrite expansion_elem.
  unfold selections_ok in Hok. apply andb_true_iff in Hok as [_ Hok]. rewrite forallb_elem in Hok.
  destruct (fold_union caps scope sels [] r0 Hf) as [Hall Hr0].
  assert (∀ item, item ∈ sels → ∃ a, expand caps expansion_fuel scope false [] item = Ok a ∧
    ∀ q r1, expandPermissionSelections [item] scope caps = Ok r1 →
      q ∈ r1 ↔ q ∈ accessPermissions ∧ (q ∈ a ∨ (scope = ScRelay ∧ q = "relay.read" ∧ a ≠ []))) as Hone.
  { intros item Hi. destruct (Hall _ Hi) as [a Ha]. exists a. split; [done|].
    by apply expansion_alone. }
  assert (∀ item, item ∈ sels → ∃ r1, expandPermissionSelections [item] scope caps = Ok r1) as Hex.
  { intros item Hi. destruct (Hall _ Hi) as [a Ha]. eexists. apply expansion_ok. split.
    - unfold selections_ok. cbn [length forallb]. by rewrite (Hok _ Hi).
    - exists a. cbn [result_fold]. by rewrite Ha. }
  split.
  - intros [Hp Hor].
    assert (∃ item a, item ∈ sels ∧ expand caps expansion_fuel scope false [] item = Ok a ∧
      (p ∈ a ∨ (scope = ScRelay ∧ p = "relay.read" ∧ a ≠ []))) as (item & a & Hi & Ha & Hpa).
    { destruct Hor as [Hin|(-> & -> & Hne)].
      - apply Hr0 in Hin as [Hin|(i & a & ? & ? & ?)]; [by apply elem_of_nil in Hin|].
        exists i, a. auto.
      - destruct r0 as [|q r0]; [done|]. assert (q ∈ q :: r0) as Hq by (clear; set_solver).
        apply Hr0 in Hq as [Hq|(i & a & ? & ? & Hq)]; [by apply elem_of_nil in Hq|].
        exists i, a. split; [done|]. split; [done|]. right. repeat split; [done..|].
        intros ->. by apply elem_of_nil in Hq. }
    destruct (Hex _ Hi) as [r1 Hr1]. exists item, r1. split; [done|]. split; [done|].
    destruct (Hone _ Hi) as (a' & Ha' & Hiff). rewrite Ha in Ha'. injection Ha' as <-.
    by apply (Hiff p r1 Hr1).
  - intros (item & r1 & Hi & Hr1 & Hp). destruct (Hone _ Hi) as (a & Ha & Hiff).
    apply (Hiff p r1 Hr1) in Hp. destruct Hp as [Hp Hor']. split; [exact Hp|].
    destruct Hor' as [Hpa|(-> & -> & Hne)].
    + left. apply Hr0. right. by exists item, a.
    + right. repeat split. intros ->. destruct a as [|q a]; [done|].
      assert (q ∈ []) as Hq.
      { apply Hr0. right. exists item, (q :: a). split; [exact Hi|]. split; [exact Ha|].
        clear. set_solver. }
      by apply elem_of_nil in Hq.
Qed.

Example expansion_union_witness :
  "backup.read" ∈ sample_expansion ∧
  ∃ item r1, item ∈ sample_selections ∧
    expandPermissionSelections [item] ScInstance None = Ok r1 ∧ "backup.read" ∈ r1.
Proof.
  assert ("backup.read" ∈ sample_expansion) as Hin
    by (apply (bool_decide_unpack _); vm_compute; exact I).
  assert (expandPermissionSelections sample_selections ScInstance None = Ok sample_expansion) as E
    by (vm_compute; reflexivity).
  split; [exact Hin|].
  exact (proj1 (expansion_union sample_selections ScInstance None sample_expansion E "backup.read") Hin).
Defined.

(** ** Presets *)

Definition preset_permissions (key : string) (s : PermissionScopeType) : list string :=
  match builtinPresetSelections key s with
  | Ok sels => match expandPermissionSelections sels s None with Ok r => r | Throw _ => [] end
  | Throw _ => []
  end.

(** The descriptions, as checks on what the presets expand to. *)
Definition observer_reads_only (p : string) : bool :=
  ends_with ".read" p &&
  negb (memb p ["instance.files.read"; "relay.files.read"; "app.files.read"; "database.data.read";
                "database.credentials.read"; "relay.database.read"]).

Definition operator_spares (p : string) : bool :=
  negb (memb p ["access.read"; "access.invite"; "access.manage"; "relay.delete"; "instance.delete";
                "database.delete"; "app.delete"; "relay.terminal"; "database.terminal";
                "app.terminal"; "relay.files.read"; "relay.files.write"]).

Definition presets_bounded (s : PermissionScopeType) : bool :=
  let observer := preset_permissions "kiln.observer" s in
  let operator := preset_permissions "kiln.operator" s in
  let administrator := preset_permissions "kiln.administrator" s in
  forallb (λ p, observer_reads_only p &&
                (memb p operator || bool_decide (p = "instance.configuration.read"))) observer &&
  forallb (λ p, operator_spares p && memb p administrator) operator &&
  forallb (λ p, negb (scoped s p) || memb p administrator || memb p compatibilityOnlyPermissions)
    accessPermissions.

Lemma all_presets_bounded : forallb presets_bounded accessGrantScopeTypes = true.
Proof. vm_compute. reflexivity. Qed.

(** The built-in presets are what their descriptions say, at every scope
    people are invited to. An Observer only reads, and reads no files,
    database rows or credentials; an Operator can do what an Observer can,
    but for reading a server's configuration, and can neither see to people
    nor delete a resource nor open a shell; and an Administrator holds every
    permission that scope has, which makes an Operator's part of it. *)
Theorem builtin_presets_bounded s :
  s ∈ accessGrantScopeTypes →
  (∀ p, p ∈ preset_permissions "kiln.observer" s → observer_reads_only p = true ∧
     (p ∈ preset_permissions "kiln.operator" s ∨ p = "instance.configuration.read")) ∧
  (∀ p, p ∈ preset_permissions "kiln.operator" s → operator_spares p = true ∧
     p ∈ preset_permissions "kiln.administrator" s) ∧
  (∀ p, p ∈ accessPermissions → scoped s p = true →
     p ∈ preset_permissions "kiln.administrator" s ∨ p ∈ compatibilityOnlyPermissions).
Proof.
  intros Hs. pose proof all_presets_bounded as H. rewrite forallb_elem in H. specialize (H s Hs).
  unfold presets_bounded in H. revert H.
  generalize (preset_permissions "kiln.observer" s) (preset_permissions "kiln.operator" s)
    (preset_permissions "kiln.administrator" s). intros observer operator administrator H.
  rewrite !andb_true_iff, !forallb_elem in H. destruct H as [[H1 H2] H3].
  split; [|split].
  - intros p Hp. specialize (H1 p Hp).
    by rewrite andb_true_iff, orb_true_iff, memb_true, bool_decide_eq_true in H1.
  - intros p Hp. specialize (H2 p Hp). by rewrite andb_true_iff, memb_true in H2.
  - intros p Hp Hsc. specialize (H3 p Hp). rewrite Hsc in H3. simpl in H3.
    by rewrite orb_true_iff, !memb_true in H3.
Qed.

Example builtin_presets_bounded_witness :
  "instance.power.restart" ∈ preset_permissions "kiln.administrator" ScInstance.
Proof.
  apply (proj1 (proj2 (builtin_presets_bounded ScInstance
    ltac:(apply (bool_decide_unpack _); vm_compute; exact I)))).
  apply (bool_decide_unpack _). vm_compute. exact I.
Defined.

(** ** Machine clients *)

Definition implication_closed (r : list string) : Prop := ∀ p q, p ∈ r → rtc implied p q → q ∈ r.

Lemma js_add_all_closed xs r :
  implication_closed xs → implication_closed r → implication_closed (js_add_all xs r).
Proof.
  intros Hx Hr p q. rewrite !js_add_all_elem. intros [Hp|Hp] Hpq; [left; by eapply Hx|].
  right. by eapply Hr.
Qed.

Lemma require_permission_ok r p r' :
  require_permission r p = Ok r' →
  (∀ x, x ∈ r → x ∈ r') ∧ p ∈ r' ∧
  ((∀ x, x ∈ r → x ∈ accessPermissions) → ∀ x, x ∈ r' → x ∈ accessPermissions) ∧
  (implication_closed r → implication_closed r').
Proof.
  unfold require_permission. destruct (accessPermissionSupported p ScRelay None) eqn:Hsup; [|discriminate].
  intros H. apply result_bind_ok in H as (implied' & He & H). apply Ok_inj in H as <-.
  pose proof He as He'. apply expansion_ok in He' as (_ & r0 & Hf & ->).
  assert (p ∈ List.filter (λ key, bool_decide (key ∈
    if decide (ScRelay = ScRelay ∧ r0 ≠ []) then js_add "relay.read" r0 else r0)) accessPermissions) as Hp.
  { apply expansion_elem. cbn [result_fold] in Hf.
    rewrite expand_permission_eq in Hf by reflexivity. apply result_bind_ok in Hf as (r1 & Hp & Hf).
    injection Hf as ->. cbn [sel_key] in Hp. unfold expand_permission in Hp. rewrite Hsup in Hp.
    destruct (definition_of p) as [d|] eqn:Hd; [|discriminate]. cbn [negb] in Hp. injection Hp as <-.
    split; [by eapply definition_of_Some|]. left. rewrite !js_add_all_elem. right. left.
    apply implicationClosure_self. }
  split; [|split; [|split]].
  - intros x Hx. rewrite js_add_all_elem. by right.
  - rewrite js_add_all_elem. by left.
  - intros Hr x. rewrite js_add_all_elem. intros [Hx|Hx]; [|by apply Hr].
    by apply elem_of_bfilter in Hx as [? _].
  - apply js_add_all_closed. intros a b. by eapply expansion_implied.
Qed.

Definition authority_ok (r : list string) : Prop :=
  (∀ x, x ∈ r → x ∈ accessPermissions) ∧ implication_closed r.

Lemma authority_all : authority_ok accessPermissions.
Proof.
  split; [done|]. intros p q Hp Hpq. induction Hpq as [a|a b c Hab _ IH]; [exact Hp|].
  apply IH. apply (closure_known a b Hp), (closure_closed_step a a b Hp);
    [apply implicationClosure_self|exact Hab].
Qed.

(** What one action asks for. *)
Definition asks (action p : string) : Prop :=
  match action_permissions action with
  | None => p ∈ accessPermissions
  | Some (Ok ps) => p ∈ ps
  | Some (Throw _) => False
  end.

Lemma require_action_ok r action r' :
  require_action r action = Ok r' →
  (∀ x, x ∈ r → x ∈ r') ∧ (∀ p, asks action p → p ∈ r') ∧ (authority_ok r → authority_ok r').
Proof.
  unfold require_action, asks. destruct (action_permissions action) as [ps|].
  2:{ intros Heq. apply Ok_inj in Heq as <-. split; [|split].
      - intros x Hx. rewrite js_add_all_elem. by right.
      - intros x Hx. rewrite js_add_all_elem. by left.
      - intros [Hr Hc]. destruct authority_all as [_ Hall]. split; [|by apply js_add_all_closed].
        intros x. rewrite js_add_all_elem. intros [?|?]; auto. }
  destruct ps as [ps|e]; cbn [result_bind]; [|discriminate]. revert r.
  induction ps as [|p ps IH]; intros r Hf; cbn [result_fold] in Hf.
  - apply Ok_inj in Hf as <-. split; [exact (λ x Hx, Hx)|]. split; [|exact (λ H, H)]. intros x Hx. in_nil Hx.
  - apply result_bind_ok in Hf as (r1 & H1 & Hf).
    destruct (require_permission_ok _ _ _ H1) as (Hmono & Hp & Hknown & Hclosed).
    destruct (IH _ Hf) as (Hmono' & Hps & Hauth). split; [auto|]. split.
    + intros x [->|Hx]%elem_of_cons; auto.
    + intros [Hr Hc]. apply Hauth. split; auto.
Qed.

(** A machine client's policy asks its approver for enough authority:
    everything each of its actions needs, with everything those permissions
    imply, and only permissions there are; a policy of full access asks for
    all of them, and a policy naming an action nobody knows is refused rather
    than approved for less. *)
Theorem client_policy_authority role actions r :
  permissionsForRelayClientPolicy role actions = Ok r →
  authority_ok r ∧
  match role with
  | FullAccess => ∀ p, p ∈ accessPermissions → p ∈ r
  | ReadOnly => ∀ action p, action ∈ relayReadOnlyMachineActions → asks action p → p ∈ r
  | Custom => ∀ action p, action ∈ actions → asks action p → p ∈ r
  end.
Proof.
  assert (∀ acts r0 r, authority_ok r0 → result_fold require_action acts r0 = Ok r →
    authority_ok r ∧ (∀ x, x ∈ r0 → x ∈ r) ∧
    ∀ action p, action ∈ acts → asks action p → p ∈ r) as Hfold.
  { clear. induction acts as [|a acts IH]; intros r0 r H0 Hf; cbn [result_fold] in Hf.
    - apply Ok_inj in Hf as <-. split; [exact H0|]. split; [exact (λ x Hx, Hx)|]. intros a p Ha.
      in_nil Ha.
    - apply result_bind_ok in Hf as (r1 & H1 & Hf).
      destruct (require_action_ok _ _ _ H1) as (Hm & Ha & Hau).
      destruct (IH _ _ (Hau H0) Hf) as (H2 & Hm' & Hall). split; [exact H2|]. split; [auto|].
      intros b p [->|Hb]%elem_of_cons Hp; [apply Hm'; auto|by eapply Hall]. }
  assert (authority_ok []) as Hnil
    by (split; [intros x Hx; in_nil Hx|intros p q Hp; in_nil Hp]).
  destruct role; cbn [permissionsForRelayClientPolicy]; intros Hr.
  - destruct (Hfold _ _ _ Hnil Hr) as (H1 & _ & H2). exact (conj H1 H2).
  - apply Ok_inj in Hr as <-. destruct authority_all as [Hk Hc]. split.
    + split; [|apply js_add_all_closed; [exact Hc|exact (proj2 Hnil)]]. intros x.
      rewrite js_add_all_elem. intros [Hx|Hx]; [exact Hx|in_nil Hx].
    + intros p Hp. rewrite js_add_all_elem. by left.
  - destruct (Hfold _ _ _ Hnil Hr) as (H1 & _ & H2). exact (conj H1 H2).
Qed.

Definition sample_authority : list string :=
  match permissionsForRelayClientPolicy Custom ["instance.files.upload"] with
  | Ok r => r | Throw _ => [] end.

Example client_policy_authority_witness :
  "instance.files.write" ∈ sample_authority ∧
  permissionsForRelayClientPolicy Custom ["instance.files.wipe"]
    = Throw (UnknownMachinePermission "instance.files.wipe").
Proof.
  split; [|vm_compute; reflexivity].
  assert (permissionsForRelayClientPolicy Custom ["instance.files.upload"] = Ok sample_authority) as E
    by (vm_compute; reflexivity).
  apply (proj2 (client_policy_authority Custom _ _ E) "instance.files.upload");
    [apply (bool_decide_unpack _); vm_compute; exact I|].
  unfold asks. vm_compute. constructor.
Defined.
