(* ===== verification/Protocol.v ===== *)
(** * The Relay's control operations

    Models the operation lists of [packages/contracts/src/relay-protocol.ts]:
    every request of the control protocol, which of them the Relay audits,
    which change something, which a paused Relay refuses, and how long each
    may take. The string union is an inductive type, with [op_name] for its
    literals, so every [switch] over it is checked to be exhaustive. *)
From S2P Require Import Prelude.

(** ** The operations *)

Inductive RelayControlOperation :=
  | op_relay_snapshot | op_relay_tunnel_open | op_relay_system_inspect | op_relay_update_apply
  | op_relay_update_status | op_relay_restart | op_relay_resources_read | op_relay_rename
  | op_relay_audit_list | op_relay_networking_read | op_relay_networking_write
  | op_relay_tailscale_install | op_relay_tailscale_read | op_relay_tailscale_write
  | op_relay_tailscale_stack_apply | op_relay_tailscale_stack_dns | op_relay_tailscale_stack_list
  | op_relay_tailscale_stack_state | op_relay_tailscale_stack_remove | op_relay_host_read
  | op_relay_host_files_mount | op_relay_host_restart | op_relay_database_read
  | op_relay_terminal_attach | op_relay_terminal_heartbeat | op_relay_terminal_detach
  | op_relay_terminal_write | op_relay_terminal_claim | op_relay_terminal_restart
  | op_relay_desktop_read | op_relay_desktop_attach | op_relay_desktop_heartbeat
  | op_relay_desktop_detach | op_relay_platform_terminal_attach
  | op_relay_platform_terminal_heartbeat | op_relay_platform_terminal_detach
  | op_relay_platform_terminal_write | op_relay_platform_terminal_claim
  | op_relay_platform_terminal_restart | op_relay_proxy_read | op_relay_proxy_config_read
  | op_relay_proxy_write | op_relay_proxy_trial | op_relay_certificates_check
  | op_relay_volumes_read | op_relay_docker_storage | op_relay_docker_cleanup
  | op_relay_volumes_create | op_relay_volumes_rename | op_relay_volumes_delete
  | op_relay_volumes_references_import | op_relay_volumes_references_hold
  | op_relay_pairing_create | op_relay_pairing_list | op_relay_pairing_revoke
  | op_relay_clients_list | op_relay_clients_update | op_relay_clients_revoke
  | op_relay_platform_read | op_relay_platform_logs | op_relay_platform_action
  | op_relay_platform_database_read | op_relay_platform_database_write
  | op_relay_installation_read | op_relay_installation_replace | op_relay_security_targets
  | op_relay_security_inventory | op_relay_host_packages_read | op_relay_host_packages_update
  | op_browser_authorization_revise | op_brick_catalog | op_brick_recipe | op_database_list
  | op_database_inspect | op_database_resources_read | op_database_create
  | op_database_provision_prepare | op_database_provision_claim | op_database_provision_cancel
  | op_database_wipe | op_database_delete | op_database_action | op_database_limits_write
  | op_database_credentials_rotate | op_database_network_write | op_database_network_import
  | op_database_dump_export | op_database_dump_import | op_database_data_read
  | op_database_data_write | op_database_terminal_attach | op_database_terminal_heartbeat
  | op_database_terminal_detach | op_database_terminal_write | op_database_terminal_claim
  | op_database_terminal_restart | op_app_list | op_app_resources_read | op_app_create
  | op_app_provision_prepare | op_app_provision_claim | op_app_provision_cancel | op_app_delete
  | op_app_deploy | op_app_action | op_app_limits_write | op_app_volumes_write
  | op_app_network_routes_read | op_app_deployment_read | op_app_deployment_abort
  | op_app_image_check | op_app_network_routes_write | op_app_terminal_attach
  | op_app_terminal_heartbeat | op_app_terminal_detach | op_app_terminal_write
  | op_app_terminal_claim | op_app_terminal_restart | op_backup_task_enqueue
  | op_backup_task_cancel | op_backup_restore_resolve | op_backup_restore_unfinished
  | op_backup_task_get | op_backup_task_list | op_transfer_source_prepare
  | op_transfer_source_get | op_transfer_source_discard | op_transfer_pull_start
  | op_transfer_pull_get | op_transfer_pull_cancel | op_transfer_space | op_schedule_apply
  | op_schedule_run | op_schedule_remove | op_schedule_overview | op_instance_create
  | op_instance_provision_prepare | op_instance_provision_claim | op_instance_provision_cancel
  | op_instance_startup_write | op_instance_rename | op_instance_limits_write
  | op_instance_delete | op_instance_action | op_instance_resources_read | op_instance_files_list
  | op_instance_files_directory_list | op_instance_files_directory_sizes
  | op_instance_files_search | op_instance_files_stat | op_instance_files_read
  | op_instance_icon_read | op_instance_files_write | op_instance_files_put
  | op_instance_files_upload_url | op_instance_files_mutate | op_instance_files_mutate_result
  | op_instance_files_database_read | op_instance_files_database_write
  | op_instance_console_history | op_instance_console_write | op_instance_console_complete
  | op_instance_logs_share | op_instance_logs_latest | op_instance_network_ports_reserve
  | op_instance_network_ports_release | op_instance_network_ports_write
  | op_instance_network_routes_read | op_instance_network_routes_write
  | op_instance_network_databases_remove | op_hearth_database_terminal_output
  | op_sftp_authorization_resolve | op_operation_get | op_relay_pause_write | op_resource_freeze
  | op_resource_unfreeze.

Definition relayControlOperations : list RelayControlOperation :=
  [
   op_relay_snapshot; op_relay_tunnel_open; op_relay_system_inspect; op_relay_update_apply;
   op_relay_update_status; op_relay_restart; op_relay_resources_read; op_relay_rename;
   op_relay_audit_list; op_relay_networking_read; op_relay_networking_write;
   op_relay_tailscale_install; op_relay_tailscale_read; op_relay_tailscale_write;
   op_relay_tailscale_stack_apply; op_relay_tailscale_stack_dns; op_relay_tailscale_stack_list;
   op_relay_tailscale_stack_state; op_relay_tailscale_stack_remove; op_relay_host_read;
   op_relay_host_files_mount; op_relay_host_restart; op_relay_database_read;
   op_relay_terminal_attach; op_relay_terminal_heartbeat; op_relay_terminal_detach;
   op_relay_terminal_write; op_relay_terminal_claim; op_relay_terminal_restart;
   op_relay_desktop_read; op_relay_desktop_attach; op_relay_desktop_heartbeat;
   op_relay_desktop_detach; op_relay_platform_terminal_attach;
   op_relay_platform_terminal_heartbeat; op_relay_platform_terminal_detach;
   op_relay_platform_terminal_write; op_relay_platform_terminal_claim;
   op_relay_platform_terminal_restart; op_relay_proxy_read; op_relay_proxy_config_read;
   op_relay_proxy_write; op_relay_proxy_trial; op_relay_certificates_check;
   op_relay_volumes_read; op_relay_docker_storage; op_relay_docker_cleanup;
   op_relay_volumes_create; op_relay_volumes_rename; op_relay_volumes_delete;
   op_relay_volumes_references_import; op_relay_volumes_references_hold; op_relay_pairing_create;
   op_relay_pairing_list; op_relay_pairing_revoke; op_relay_clients_list;
   op_relay_clients_update; op_relay_clients_revoke; op_relay_platform_read;
   op_relay_platform_logs; op_relay_platform_action; op_relay_platform_database_read;
   op_relay_platform_database_write; op_relay_installation_read; op_relay_installation_replace;
   op_relay_security_targets; op_relay_security_inventory; op_relay_host_packages_read;
   op_relay_host_packages_update; op_browser_authorization_revise; op_brick_catalog;
   op_brick_recipe; op_database_list; op_database_inspect; op_database_resources_read;
   op_database_create; op_database_provision_prepare; op_database_provision_claim;
   op_database_provision_cancel; op_database_wipe; op_database_delete; op_database_action;
   op_database_limits_write; op_database_credentials_rotate; op_database_network_write;
   op_database_network_import; op_database_dump_export; op_database_dump_import;
   op_database_data_read; op_database_data_write; op_database_terminal_attach;
   op_database_terminal_heartbeat; op_database_terminal_detach; op_database_terminal_write;
   op_database_terminal_claim; op_database_terminal_restart; op_app_list; op_app_resources_read;
   op_app_create; op_app_provision_prepare; op_app_provision_claim; op_app_provision_cancel;
   op_app_delete; op_app_deploy; op_app_action; op_app_limits_write; op_app_volumes_write;
   op_app_network_routes_read; op_app_deployment_read; op_app_deployment_abort;
   op_app_image_check; op_app_network_routes_write; op_app_terminal_attach;
   op_app_terminal_heartbeat; op_app_terminal_detach; op_app_terminal_write;
   op_app_terminal_claim; op_app_terminal_restart; op_backup_task_enqueue; op_backup_task_cancel;
   op_backup_restore_resolve; op_backup_restore_unfinished; op_backup_task_get;
   op_backup_task_list; op_transfer_source_prepare; op_transfer_source_get;
   op_transfer_source_discard; op_transfer_pull_start; op_transfer_pull_get;
   op_transfer_pull_cancel; op_transfer_space; op_schedule_apply; op_schedule_run;
   op_schedule_remove; op_schedule_overview; op_instance_create; op_instance_provision_prepare;
   op_instance_provision_claim; op_instance_provision_cancel; op_instance_startup_write;
   op_instance_rename; op_instance_limits_write; op_instance_delete; op_instance_action;
   op_instance_resources_read; op_instance_files_list; op_instance_files_directory_list;
   op_instance_files_directory_sizes; op_instance_files_search; op_instance_files_stat;
   op_instance_files_read; op_instance_icon_read; op_instance_files_write; op_instance_files_put;
   op_instance_files_upload_url; op_instance_files_mutate; op_instance_files_mutate_result;
   op_instance_files_database_read; op_instance_files_database_write;
   op_instance_console_history; op_instance_console_write; op_instance_console_complete;
   op_instance_logs_share; op_instance_logs_latest; op_instance_network_ports_reserve;
   op_instance_network_ports_release; op_instance_network_ports_write;
   op_instance_network_routes_read; op_instance_network_routes_write;
   op_instance_network_databases_remove; op_hearth_database_terminal_output;
   op_sftp_authorization_resolve; op_operation_get; op_relay_pause_write; op_resource_freeze;
   op_resource_unfreeze].

Definition op_name (operation : RelayControlOperation) : string :=
  match operation with
  | op_relay_snapshot => "relay.snapshot"
  | op_relay_tunnel_open => "relay.tunnel.open"
  | op_relay_system_inspect => "relay.system.inspect"
  | op_relay_update_apply => "relay.update.apply"
  | op_relay_update_status => "relay.update.status"
  | op_relay_restart => "relay.restart"
  | op_relay_resources_read => "relay.resources.read"
  | op_relay_rename => "relay.rename"
  | op_relay_audit_list => "relay.audit.list"
  | op_relay_networking_read => "relay.networking.read"
  | op_relay_networking_write => "relay.networking.write"
  | op_relay_tailscale_install => "relay.tailscale.install"
  | op_relay_tailscale_read => "relay.tailscale.read"
  | op_relay_tailscale_write => "relay.tailscale.write"
  | op_relay_tailscale_stack_apply => "relay.tailscale.stack.apply"
  | op_relay_tailscale_stack_dns => "relay.tailscale.stack.dns"
  | op_relay_tailscale_stack_list => "relay.tailscale.stack.list"
  | op_relay_tailscale_stack_state => "relay.tailscale.stack.state"
  | op_relay_tailscale_stack_remove => "relay.tailscale.stack.remove"
  | op_relay_host_read => "relay.host.read"
  | op_relay_host_files_mount => "relay.host.files.mount"
  | op_relay_host_restart => "relay.host.restart"
  | op_relay_database_read => "relay.database.read"
  | op_relay_terminal_attach => "relay.terminal.attach"
  | op_relay_terminal_heartbeat => "relay.terminal.heartbeat"
  | op_relay_terminal_detach => "relay.terminal.detach"
  | op_relay_terminal_write => "relay.terminal.write"
  | op_relay_terminal_claim => "relay.terminal.claim"
  | op_relay_terminal_restart => "relay.terminal.restart"
  | op_relay_desktop_read => "relay.desktop.read"
  | op_relay_desktop_attach => "relay.desktop.attach"
  | op_relay_desktop_heartbeat => "relay.desktop.heartbeat"
  | op_relay_desktop_detach => "relay.desktop.detach"
  | op_relay_platform_terminal_attach => "relay.platform.terminal.attach"
  | op_relay_platform_terminal_heartbeat => "relay.platform.terminal.heartbeat"
  | op_relay_platform_terminal_detach => "relay.platform.terminal.detach"
  | op_relay_platform_terminal_write => "relay.platform.terminal.write"
  | op_relay_platform_terminal_claim => "relay.platform.terminal.claim"
  | op_relay_platform_terminal_restart => "relay.platform.terminal.restart"
  | op_relay_proxy_read => "relay.proxy.read"
  | op_relay_proxy_config_read => "relay.proxy.config.read"
  | op_relay_proxy_write => "relay.proxy.write"
  | op_relay_proxy_trial => "relay.proxy.trial"
  | op_relay_certificates_check => "relay.certificates.check"
  | op_relay_volumes_read => "relay.volumes.read"
  | op_relay_docker_storage => "relay.docker.storage"
  | op_relay_docker_cleanup => "relay.docker.cleanup"
  | op_relay_volumes_create => "relay.volumes.create"
  | op_relay_volumes_rename => "relay.volumes.rename"
  | op_relay_volumes_delete => "relay.volumes.delete"
  | op_relay_volumes_references_import => "relay.volumes.references.import"
  | op_relay_volumes_references_hold => "relay.volumes.references.hold"
  | op_relay_pairing_create => "relay.pairing.create"
  | op_relay_pairing_list => "relay.pairing.list"
  | op_relay_pairing_revoke => "relay.pairing.revoke"
  | op_relay_clients_list => "relay.clients.list"
  | op_relay_clients_update => "relay.clients.update"
  | op_relay_clients_revoke => "relay.clients.revoke"
  | op_relay_platform_read => "relay.platform.read"
  | op_relay_platform_logs => "relay.platform.logs"
  | op_relay_platform_action => "relay.platform.action"
  | op_relay_platform_database_read => "relay.platform.database.read"
  | op_relay_platform_database_write => "relay.platform.database.write"
  | op_relay_installation_read => "relay.installation.read"
  | op_relay_installation_replace => "relay.installation.replace"
  | op_relay_security_targets => "relay.security.targets"
  | op_relay_security_inventory => "relay.security.inventory"
  | op_relay_host_packages_read => "relay.host.packages.read"
  | op_relay_host_packages_update => "relay.host.packages.update"
  | op_browser_authorization_revise => "browser.authorization.revise"
  | op_brick_catalog => "brick.catalog"
  | op_brick_recipe => "brick.recipe"
  | op_database_list => "database.list"
  | op_database_inspect => "database.inspect"
  | op_database_resources_read => "database.resources.read"
  | op_database_create => "database.create"
  | op_database_provision_prepare => "database.provision.prepare"
  | op_database_provision_claim => "database.provision.claim"
  | op_database_provision_cancel => "database.provision.cancel"
  | op_database_wipe => "database.wipe"
  | op_database_delete => "database.delete"
  | op_database_action => "database.action"
  | op_database_limits_write => "database.limits.write"
  | op_database_credentials_rotate => "database.credentials.rotate"
  | op_database_network_write => "database.network.write"
  | op_database_network_import => "database.network.import"
  | op_database_dump_export => "database.dump.export"
  | op_database_dump_import => "database.dump.import"
  | op_database_data_read => "database.data.read"
  | op_database_data_write => "database.data.write"
  | op_database_terminal_attach => "database.terminal.attach"
  | op_database_terminal_heartbeat => "database.terminal.heartbeat"
  | op_database_terminal_detach => "database.terminal.detach"
  | op_database_terminal_write => "database.terminal.write"
  | op_database_terminal_claim => "database.terminal.claim"
  | op_database_terminal_restart => "database.terminal.restart"
  | op_app_list => "app.list"
  | op_app_resources_read => "app.resources.read"
  | op_app_create => "app.create"
  | op_app_provision_prepare => "app.provision.prepare"
  | op_app_provision_claim => "app.provision.claim"
  | op_app_provision_cancel => "app.provision.cancel"
  | op_app_delete => "app.delete"
  | op_app_deploy => "app.deploy"
  | op_app_action => "app.action"
  | op_app_limits_write => "app.limits.write"
  | op_app_volumes_write => "app.volumes.write"
  | op_app_network_routes_read => "app.network.routes.read"
  | op_app_deployment_read => "app.deployment.read"
  | op_app_deployment_abort => "app.deployment.abort"
  | op_app_image_check => "app.image.check"
  | op_app_network_routes_write => "app.network.routes.write"
  | op_app_terminal_attach => "app.terminal.attach"
  | op_app_terminal_heartbeat => "app.terminal.heartbeat"
  | op_app_terminal_detach => "app.terminal.detach"
  | op_app_terminal_write => "app.terminal.write"
  | op_app_terminal_claim => "app.terminal.claim"
  | op_app_terminal_restart => "app.terminal.restart"
  | op_backup_task_enqueue => "backup.task.enqueue"
  | op_backup_task_cancel => "backup.task.cancel"
  | op_backup_restore_resolve => "backup.restore.resolve"
  | op_backup_restore_unfinished => "backup.restore.unfinished"
  | op_backup_task_get => "backup.task.get"
  | op_backup_task_list => "backup.task.list"
  | op_transfer_source_prepare => "transfer.source.prepare"
  | op_transfer_source_get => "transfer.source.get"
  | op_transfer_source_discard => "transfer.source.discard"
  | op_transfer_pull_start => "transfer.pull.start"
  | op_transfer_pull_get => "transfer.pull.get"
  | op_transfer_pull_cancel => "transfer.pull.cancel"
  | op_transfer_space => "transfer.space"
  | op_schedule_apply => "schedule.apply"
  | op_schedule_run => "schedule.run"
  | op_schedule_remove => "schedule.remove"
  | op_schedule_overview => "schedule.overview"
  | op_instance_create => "instance.create"
  | op_instance_provision_prepare => "instance.provision.prepare"
  | op_instance_provision_claim => "instance.provision.claim"
  | op_instance_provision_cancel => "instance.provision.cancel"
  | op_instance_startup_write => "instance.startup.write"
  | op_instance_rename => "instance.rename"
  | op_instance_limits_write => "instance.limits.write"
  | op_instance_delete => "instance.delete"
  | op_instance_action => "instance.action"
  | op_instance_resources_read => "instance.resources.read"
  | op_instance_files_list => "instance.files.list"
  | op_instance_files_directory_list => "instance.files.directory.list"
  | op_instance_files_directory_sizes => "instance.files.directory.sizes"
  | op_instance_files_search => "instance.files.search"
  | op_instance_files_stat => "instance.files.stat"
  | op_instance_files_read => "instance.files.read"
  | op_instance_icon_read => "instance.icon.read"
  | op_instance_files_write => "instance.files.write"
  | op_instance_files_put => "instance.files.put"
  | op_instance_files_upload_url => "instance.files.upload-url"
  | op_instance_files_mutate => "instance.files.mutate"
  | op_instance_files_mutate_result => "instance.files.mutate.result"
  | op_instance_files_database_read => "instance.files.database.read"
  | op_instance_files_database_write => "instance.files.database.write"
  | op_instance_console_history => "instance.console.history"
  | op_instance_console_write => "instance.console.write"
  | op_instance_console_complete => "instance.console.complete"
  | op_instance_logs_share => "instance.logs.share"
  | op_instance_logs_latest => "instance.logs.latest"
  | op_instance_network_ports_reserve => "instance.network.ports.reserve"
  | op_instance_network_ports_release => "instance.network.ports.release"
  | op_instance_network_ports_write => "instance.network.ports.write"
  | op_instance_network_routes_read => "instance.network.routes.read"
  | op_instance_network_routes_write => "instance.network.routes.write"
  | op_instance_network_databases_remove => "instance.network.databases.remove"
  | op_hearth_database_terminal_output => "hearth.database.terminal.output"
  | op_sftp_authorization_resolve => "sftp.authorization.resolve"
  | op_operation_get => "operation.get"
  | op_relay_pause_write => "relay.pause.write"
  | op_resource_freeze => "resource.freeze"
  | op_resource_unfreeze => "resource.unfreeze"
  end.

(** ** What each is *)

Definition isAuditedRelayControlOperation (operation : RelayControlOperation) : bool :=
  match operation with
  | op_relay_desktop_attach | op_relay_rename | op_relay_update_apply | op_relay_restart
  | op_relay_host_restart | op_relay_host_packages_update | op_relay_pairing_create
  | op_relay_pairing_revoke | op_relay_clients_update | op_relay_clients_revoke
  | op_relay_networking_write | op_relay_docker_cleanup | op_relay_volumes_create
  | op_relay_volumes_rename | op_relay_volumes_delete | op_relay_volumes_references_import
  | op_relay_volumes_references_hold | op_relay_tailscale_install
  | op_relay_tailscale_stack_apply | op_relay_tailscale_stack_dns
  | op_relay_tailscale_stack_remove | op_relay_tailscale_write | op_relay_proxy_write
  | op_relay_proxy_trial | op_relay_platform_action | op_relay_terminal_attach
  | op_relay_terminal_restart | op_relay_platform_terminal_attach
  | op_relay_platform_terminal_restart | op_relay_platform_database_write
  | op_relay_installation_replace | op_instance_create | op_instance_provision_prepare
  | op_instance_provision_claim | op_instance_provision_cancel | op_instance_startup_write
  | op_instance_rename | op_instance_limits_write | op_instance_delete | op_instance_action
  | op_instance_files_write | op_instance_files_put | op_instance_files_upload_url
  | op_instance_files_mutate | op_instance_files_database_write | op_instance_console_write
  | op_instance_network_ports_write | op_instance_network_routes_write
  | op_instance_network_databases_remove | op_database_create | op_database_provision_prepare
  | op_database_provision_claim | op_database_provision_cancel | op_database_delete
  | op_database_wipe | op_database_action | op_database_limits_write
  | op_database_credentials_rotate | op_database_network_write | op_database_network_import
  | op_database_dump_export | op_database_dump_import | op_database_data_write
  | op_database_terminal_attach | op_database_terminal_restart | op_app_create
  | op_app_provision_prepare | op_app_provision_claim | op_app_provision_cancel | op_app_delete
  | op_app_deploy | op_app_action | op_app_limits_write | op_app_volumes_write
  | op_app_network_routes_write | op_app_terminal_attach | op_app_terminal_restart
  | op_backup_task_enqueue | op_backup_task_cancel | op_backup_restore_resolve
  | op_transfer_source_prepare | op_transfer_source_discard | op_transfer_pull_start
  | op_transfer_pull_cancel | op_schedule_apply | op_schedule_run | op_schedule_remove
  | op_resource_freeze | op_resource_unfreeze => true
  | _ => false
  end.

Definition relayControlOperationChanges (operation : RelayControlOperation) : bool :=
  match operation with
  | op_relay_snapshot | op_relay_tunnel_open | op_relay_system_inspect | op_relay_update_status
  | op_relay_resources_read | op_relay_audit_list | op_relay_networking_read
  | op_relay_tailscale_read | op_relay_tailscale_stack_list | op_relay_tailscale_stack_state
  | op_relay_host_read | op_relay_database_read | op_relay_proxy_read
  | op_relay_proxy_config_read | op_relay_volumes_read | op_relay_docker_storage
  | op_relay_pairing_list | op_relay_clients_list | op_relay_platform_read
  | op_relay_installation_read | op_relay_platform_logs | op_relay_platform_database_read
  | op_relay_security_targets | op_relay_security_inventory | op_relay_host_packages_read
  | op_brick_catalog | op_brick_recipe | op_database_list | op_database_inspect
  | op_database_resources_read | op_database_data_read | op_database_dump_export | op_app_list
  | op_app_resources_read | op_app_network_routes_read | op_app_deployment_read
  | op_app_image_check | op_backup_task_get | op_backup_task_list | op_backup_restore_unfinished
  | op_transfer_source_get | op_transfer_pull_get | op_transfer_space | op_schedule_overview
  | op_instance_resources_read | op_instance_files_list | op_instance_files_directory_list
  | op_instance_files_directory_sizes | op_instance_files_search | op_instance_files_stat
  | op_instance_files_read | op_instance_icon_read | op_instance_files_database_read
  | op_instance_console_history | op_instance_logs_latest | op_instance_network_routes_read
  | op_relay_terminal_attach | op_relay_terminal_heartbeat | op_relay_terminal_detach
  | op_relay_terminal_write | op_relay_terminal_claim | op_relay_terminal_restart
  | op_relay_desktop_read | op_relay_desktop_attach | op_relay_desktop_heartbeat
  | op_relay_desktop_detach | op_relay_platform_terminal_attach
  | op_relay_platform_terminal_heartbeat | op_relay_platform_terminal_detach
  | op_relay_platform_terminal_write | op_relay_platform_terminal_claim
  | op_relay_platform_terminal_restart | op_database_terminal_attach
  | op_database_terminal_heartbeat | op_database_terminal_detach | op_database_terminal_write
  | op_database_terminal_claim | op_database_terminal_restart | op_app_terminal_attach
  | op_app_terminal_heartbeat | op_app_terminal_detach | op_app_terminal_write
  | op_app_terminal_claim | op_app_terminal_restart | op_hearth_database_terminal_output
  | op_sftp_authorization_resolve | op_operation_get => false
  | op_relay_pause_write | op_relay_update_apply | op_relay_restart | op_relay_rename
  | op_relay_networking_write | op_relay_tailscale_install | op_relay_tailscale_write
  | op_relay_tailscale_stack_apply | op_relay_tailscale_stack_dns
  | op_relay_tailscale_stack_remove | op_relay_host_files_mount | op_relay_host_restart
  | op_relay_host_packages_update | op_relay_proxy_write | op_relay_proxy_trial
  | op_relay_certificates_check | op_relay_volumes_create | op_relay_volumes_rename
  | op_relay_volumes_delete | op_relay_docker_cleanup | op_relay_volumes_references_import
  | op_relay_volumes_references_hold | op_relay_pairing_create | op_relay_pairing_revoke
  | op_relay_clients_update | op_relay_clients_revoke | op_relay_platform_action
  | op_relay_platform_database_write | op_relay_installation_replace
  | op_browser_authorization_revise | op_database_create | op_database_provision_prepare
  | op_database_provision_claim | op_database_provision_cancel | op_database_wipe
  | op_database_delete | op_database_action | op_database_limits_write
  | op_database_credentials_rotate | op_database_network_write | op_database_network_import
  | op_database_dump_import | op_database_data_write | op_app_create | op_app_provision_prepare
  | op_app_provision_claim | op_app_provision_cancel | op_app_delete | op_app_deploy
  | op_app_deployment_abort | op_app_action | op_app_limits_write | op_app_volumes_write
  | op_app_network_routes_write | op_backup_task_enqueue | op_backup_task_cancel
  | op_backup_restore_resolve | op_transfer_source_prepare | op_transfer_source_discard
  | op_transfer_pull_start | op_transfer_pull_cancel | op_schedule_apply | op_schedule_run
  | op_schedule_remove | op_instance_create | op_instance_provision_prepare
  | op_instance_provision_claim | op_instance_provision_cancel | op_instance_startup_write
  | op_instance_rename | op_instance_limits_write | op_instance_delete | op_instance_action
  | op_instance_files_write | op_instance_files_put | op_instance_files_upload_url
  | op_instance_files_mutate | op_instance_files_mutate_result | op_instance_files_database_write
  | op_instance_console_write | op_instance_console_complete | op_instance_logs_share
  | op_instance_network_ports_reserve | op_instance_network_ports_release
  | op_instance_network_ports_write | op_instance_network_routes_write
  | op_instance_network_databases_remove | op_resource_freeze | op_resource_unfreeze => true
  end.

Definition terminalInputOperations (operation : RelayControlOperation) : bool :=
  match operation with
  | op_app_terminal_attach | op_app_terminal_claim | op_app_terminal_restart
  | op_app_terminal_write | op_database_terminal_attach | op_database_terminal_claim
  | op_database_terminal_restart | op_database_terminal_write | op_relay_terminal_attach
  | op_relay_terminal_claim | op_relay_terminal_restart | op_relay_terminal_write
  | op_relay_desktop_attach => true
  | _ => false
  end.

Definition relayControlOperationRefusedWhilePaused (operation : RelayControlOperation) : bool :=
  match operation with
  | op_relay_pause_write | op_browser_authorization_revise | op_relay_volumes_references_hold
  | op_relay_clients_revoke | op_relay_pairing_revoke => false
  | _ => relayControlOperationChanges operation || terminalInputOperations operation
  end.

(** In milliseconds. *)
Definition relayControlDeadlineMs (operation : RelayControlOperation) : Z :=
  match operation with
  | op_relay_terminal_attach | op_instance_delete | op_database_create | op_instance_create
  | op_instance_startup_write | op_instance_files_upload_url => 360000
  | op_relay_desktop_attach | op_relay_tailscale_install | op_relay_tailscale_stack_apply
  | op_relay_proxy_write | op_relay_proxy_trial | op_relay_networking_write
  | op_relay_platform_action | op_resource_freeze | op_instance_limits_write
  | op_database_limits_write | op_instance_network_ports_write | op_instance_network_routes_write
  | op_app_network_routes_write => 240000
  | op_relay_update_apply | op_relay_security_inventory => 15 * 60000
  | op_relay_host_restart | op_relay_tailscale_stack_remove | op_relay_host_packages_read
  | op_relay_host_packages_update | op_app_image_check | op_database_network_import
  | op_transfer_space | op_database_wipe => 120000
  | op_relay_tailscale_stack_dns | op_relay_host_files_mount | op_app_create
  | op_instance_logs_share => 60000
  | op_relay_tailscale_write | op_relay_docker_storage => 90000
  | op_database_delete | op_app_delete | op_app_action | op_database_action
  | op_database_credentials_rotate | op_instance_action | op_instance_files_write => 180000
  | op_database_dump_export | op_database_dump_import => 60 * 60000
  | op_backup_restore_resolve => 30 * 60000
  | op_database_inspect => 75000
  | op_schedule_apply | op_schedule_run | op_schedule_remove => 30000
  | _ => 30000
  end.
