(* ===== verification/AppKeys.v ===== *)
(** * File roots and Tailscale member IDs

    Models [packages/contracts/src/app-keys.ts]: how an App's folder, one of
    its volumes, a database's dumps, a Relay's host files and a game server
    are told apart by one string, and how Tailscale members are named. The
    regular expressions are fixed-length but for their last part, so each is a
    function that takes the string apart. *)
From Stdlib Require Import Ascii.
From S2P Require Import Prelude.

(** ** Characters *)

Definition in_range (lo hi : nat) (c : Ascii.ascii) : bool :=
  let n := Ascii.nat_of_ascii c in (lo <=? n)%nat && (n <=? hi)%nat.

Definition is_digit : Ascii.ascii → bool := in_range 48 57.
Definition is_upper : Ascii.ascii → bool := in_range 65 90.
Definition is_lower : Ascii.ascii → bool := in_range 97 122.

(** [[a-f0-9]] *)
Definition is_hex (c : Ascii.ascii) : bool := is_digit c || in_range 97 102 c.
(** [[a-zA-Z0-9]] *)
Definition is_alnum (c : Ascii.ascii) : bool := is_digit c || is_upper c || is_lower c.
(** [[a-zA-Z0-9_.-]] *)
Definition is_name_char (c : Ascii.ascii) : bool :=
  is_alnum c || bool_decide (c = "_"%char) || bool_decide (c = "."%char) || bool_decide (c = "-"%char).
(** [[A-Za-z\d_-]] *)
Definition is_base64url (c : Ascii.ascii) : bool :=
  is_alnum c || bool_decide (c = "_"%char) || bool_decide (c = "-"%char).

(** [^[a-f0-9]{40}$] *)
Definition resourceIdPattern (s : string) : bool :=
  (String.length s =? 40)%nat && str_all is_hex s.

(** [^[a-zA-Z0-9][a-zA-Z0-9_.-]{0,max}$] *)
Definition name_pattern (max : nat) (s : string) : bool :=
  match s with
  | EmptyString => false
  | String c rest => is_alnum c && str_all is_name_char rest && (String.length rest <=? max)%nat
  end.

(** ** File roots *)

Definition APP_FILE_ROOT_PREFIX : string := "app:".
Definition DATABASE_FILE_ROOT_PREFIX : string := "database:".

Definition isRelayFileRoot (id : string) : bool :=
  (String.length id =? 43)%nat && str_all is_base64url id.

Definition appFileRootId (appId : string) : string := APP_FILE_ROOT_PREFIX +:+ appId.

Definition appVolumeFileRootId (appId volumeId : string) : string :=
  APP_FILE_ROOT_PREFIX +:+ appId +:+ ":volume:" +:+ replace_first "/" ":" volumeId.

(** The volume part of [APP_VOLUME_FILE_ROOT], with [sep] before the name. *)
Definition volume_pattern (sep : string) (s : string) : bool :=
  resourceIdPattern (str_take 40 s) &&
  match str_drop 40 s with
  | EmptyString => true
  | rest => match strip_prefix sep rest with Some name => name_pattern 127 name | None => false end
  end.

Definition appVolumeFromFileRoot (id : string) : option (string * string) :=
  match strip_prefix APP_FILE_ROOT_PREFIX id with
  | None => None
  | Some rest =>
      match strip_prefix ":volume:" (str_drop 40 rest) with
      | None => None
      | Some volume =>
          if resourceIdPattern (str_take 40 rest) && volume_pattern ":" volume
          then Some (str_take 40 rest, replace_first ":" "/" volume)
          else None
      end
  end.

Definition appIdFromFileRoot (id : string) : option string :=
  match strip_prefix APP_FILE_ROOT_PREFIX id with
  | None => None
  | Some appId =>
      match appVolumeFromFileRoot id with
      | Some volume => Some volume.1
      | None => if resourceIdPattern appId then Some appId else None
      end
  end.

Definition databaseFileRootId (databaseId : string) : string :=
  DATABASE_FILE_ROOT_PREFIX +:+ databaseId.

Definition databaseIdFromFileRoot (id : string) : option string :=
  match strip_prefix DATABASE_FILE_ROOT_PREFIX id with
  | None => None
  | Some databaseId => if resourceIdPattern databaseId then Some databaseId else None
  end.

Definition isServerFileRoot (id : string) : bool :=
  bool_decide (appIdFromFileRoot id = None) && bool_decide (databaseIdFromFileRoot id = None) &&
  negb (isRelayFileRoot id).

(** ** Tailscale members *)

Definition instanceTailscaleMemberId (instanceId : string) : string := "instance:" +:+ instanceId.
Definition databaseTailscaleMemberId (databaseId : string) : string := "database:" +:+ databaseId.
Definition appTailscaleMemberId (appId service : string) : string :=
  "app:" +:+ appId +:+ ":" +:+ service.

Definition member_after (prefix id : string) : option string :=
  match strip_prefix prefix id with
  | Some rest => if resourceIdPattern rest then Some rest else None
  | None => None
  end.

Definition instanceTailscaleMember (id : string) : option string := member_after "instance:" id.
Definition databaseTailscaleMember (id : string) : option string := member_after "database:" id.

Definition appTailscaleMember (id : string) : option (string * string) :=
  match strip_prefix "app:" id with
  | None => None
  | Some rest =>
      match strip_prefix ":" (str_drop 40 rest) with
      | None => None
      | Some service =>
          if resourceIdPattern (str_take 40 rest) && name_pattern 62 service
          then Some (str_take 40 rest, service) else None
      end
  end.

(** [tailscaleMemberIdSchema] *)
Definition tailscaleMemberIdSchema (id : string) : bool :=
  match instanceTailscaleMember id, databaseTailscaleMember id, appTailscaleMember id with
  | None, None, None => false
  | _, _, _ => true
  end.

Definition legacyTailscaleMemberId (id : string) : option string :=
  if resourceIdPattern id then Some (instanceTailscaleMemberId id)
  else if tailscaleMemberIdSchema id then Some id else None.

(** ** Facts *)

Lemma resourceId_length s : resourceIdPattern s = true → String.length s = 40.
Proof. unfold resourceIdPattern. intros [H _]%andb_true_iff. by apply Nat.eqb_eq. Qed.

Lemma take_id s t : resourceIdPattern s = true → str_take 40 (s +:+ t) = s.
Proof. intros <-%resourceId_length. apply str_take_app. Qed.

Lemma drop_id s t : resourceIdPattern s = true → str_drop 40 (s +:+ t) = t.
Proof. intros <-%resourceId_length. apply str_drop_app. Qed.

(** No part of an ID or a name is one of the separators. *)
Lemma hex_not_sep c : is_hex c = true → c ≠ ":"%char ∧ c ≠ "/"%char.
Proof. intros H. split; intros ->; vm_compute in H; discriminate. Qed.

Lemma name_not_sep c : is_name_char c = true → c ≠ ":"%char ∧ c ≠ "/"%char.
Proof. intros H. split; intros ->; vm_compute in H; discriminate. Qed.

Lemma alnum_name c : is_alnum c = true → is_name_char c = true.
Proof. unfold is_name_char. by intros ->. Qed.

Lemma str_all_sep f s c0 :
  (∀ c, f c = true → c ≠ c0) → str_all f s = true →
  str_all (λ c, negb (bool_decide (c = c0))) s = true.
Proof.
  intros Hf. apply str_all_impl. intros c Hc. apply negb_true_iff, bool_decide_eq_false. auto.
Qed.

Lemma name_no_sep max s c0 :
  c0 = ":"%char ∨ c0 = "/"%char → name_pattern max s = true →
  str_all (λ c, negb (bool_decide (c = c0))) s = true.
Proof.
  intros Hc0 Hs. apply (str_all_sep is_name_char).
  - intros c Hc. destruct (name_not_sep c Hc). destruct Hc0; congruence.
  - destruct s as [|c rest]; [done|]. simpl in *. apply andb_true_iff in Hs as [Hs _].
    apply andb_true_iff in Hs as [Hc Hr]. by rewrite alnum_name, Hr.
Qed.

Lemma replace_first_app a b s t :
  str_all (λ c, negb (bool_decide (c = a))) s = true →
  replace_first a b (s +:+ t) = s +:+ replace_first a b t.
Proof.
  induction s as [|c s IH]; simpl; [done|]. intros [Hc Hs]%andb_true_iff.
  apply negb_true_iff, bool_decide_eq_false in Hc. rewrite decide_False by done. by rewrite IH.
Qed.

Lemma replace_first_none a b s :
  str_all (λ c, negb (bool_decide (c = a))) s = true → replace_first a b s = s.
Proof.
  intros Hs. pose proof (replace_first_app a b s "" Hs) as H. rewrite !str_app_nil in H. exact H.
Qed.

Lemma id_no_sep s c0 :
  c0 = ":"%char ∨ c0 = "/"%char → resourceIdPattern s = true →
  str_all (λ c, negb (bool_decide (c = c0))) s = true.
Proof.
  intros Hc0 [_ Hs]%andb_true_iff. apply (str_all_sep is_hex); [|done].
  intros c Hc. destruct (hex_not_sep c Hc). destruct Hc0; congruence.
Qed.

(** A volume's ID, and the same with its separator replaced. *)
Lemma volume_swap a b s :
  (a = ":"%char ∧ b = "/"%char) ∨ (a = "/"%char ∧ b = ":"%char) →
  volume_pattern (String a EmptyString) s = true →
  volume_pattern (String b EmptyString) (replace_first a b s) = true ∧
  replace_first b a (replace_first a b s) = s.
Proof.
  intros Hab Hs. unfold volume_pattern in Hs. apply andb_true_iff in Hs as [Hid Hrest].
  pose proof (str_take_drop 40 s) as Es. set (i := str_take 40 s) in *. set (r := str_drop 40 s) in *.
  assert (∀ c0, c0 = a ∨ c0 = b → c0 = ":"%char ∨ c0 = "/"%char) as Hsep by naive_solver.
  rewrite <-Es, replace_first_app by (apply id_no_sep; auto).
  destruct r as [|c rest] eqn:Er.
  - simpl. rewrite !str_app_nil. split; [|by apply replace_first_none, id_no_sep; auto].
    unfold volume_pattern. rewrite <-(str_app_nil i), take_id, drop_id by done. by rewrite Hid.
  - cbn [strip_prefix] in Hrest. destruct (decide (a = c)) as [<-|]; [|done].
    cbn [replace_first]. rewrite decide_True by done.
    split.
    + unfold volume_pattern. rewrite take_id, drop_id by done. cbn [strip_prefix].
      rewrite decide_True by done. by rewrite Hid.
    + rewrite replace_first_app by (apply id_no_sep; auto). cbn [replace_first].
      by rewrite decide_True.
Qed.

Lemma strip_app_root rest : strip_prefix APP_FILE_ROOT_PREFIX (APP_FILE_ROOT_PREFIX +:+ rest) = Some rest.
Proof. apply strip_prefix_app. Qed.

Lemma appVolume_build a v :
  resourceIdPattern a = true → volume_pattern "/" v = true →
  appVolumeFromFileRoot (appVolumeFileRootId a v) = Some (a, v).
Proof.
  intros Ha Hv. unfold appVolumeFromFileRoot, appVolumeFileRootId. rewrite strip_app_root.
  rewrite drop_id by done. rewrite strip_prefix_app, take_id by done.
  destruct (volume_swap "/" ":" v ltac:(auto) Hv) as [Hp Hb]. by rewrite Ha, Hp, Hb.
Qed.

Lemma appVolume_parse id a v :
  appVolumeFromFileRoot id = Some (a, v) →
  resourceIdPattern a = true ∧ volume_pattern "/" v = true ∧ id = appVolumeFileRootId a v.
Proof.
  unfold appVolumeFromFileRoot.
  destruct (strip_prefix APP_FILE_ROOT_PREFIX id) as [rest|] eqn:Hr; [|done].
  destruct (strip_prefix ":volume:" (str_drop 40 rest)) as [vol|] eqn:Hv; [|done].
  destruct (resourceIdPattern _ && _) eqn:Hp; [|done].
  intros [<- <-]%Some_inj%pair_equal_spec. apply andb_true_iff in Hp as [Ha Hvp].
  destruct (volume_swap ":" "/" vol ltac:(auto) Hvp) as [Hs Hb].
  split; [done|]. split; [done|]. apply strip_prefix_Some in Hr as ->, Hv.
  unfold appVolumeFileRootId. rewrite Hb, <-Hv.
  by rewrite str_take_drop.
Qed.

Lemma has_colon_not_relay p s :
  (∃ c, is_base64url c = false ∧ ∃ q r, p = q +:+ String c r) → isRelayFileRoot (p +:+ s) = false.
Proof.
  intros (c & Hc & q & r & ->). unfold isRelayFileRoot. rewrite !str_all_app. simpl. rewrite Hc.
  by rewrite !andb_false_r.
Qed.

Lemma app_root_kinds rest :
  databaseIdFromFileRoot (APP_FILE_ROOT_PREFIX +:+ rest) = None ∧
  isRelayFileRoot (APP_FILE_ROOT_PREFIX +:+ rest) = false.
Proof.
  split; [reflexivity|]. apply has_colon_not_relay. exists ":"%char. split; [reflexivity|].
  by exists "app", "".
Qed.

(** File root IDs round-trip and never cross kinds: an App's folder, a
    volume opened through an App and a database's dumps are read back as
    exactly what they were built from, and nothing else is read as one of
    them; and every ID is at most one of an App's, a database's or a Relay's
    own, a game server's being what is left. *)
Theorem file_roots_roundtrip id a v :
  (appVolumeFromFileRoot id = Some (a, v) ↔
     resourceIdPattern a = true ∧ volume_pattern "/" v = true ∧ id = appVolumeFileRootId a v) ∧
  (appIdFromFileRoot id = Some a ↔
     resourceIdPattern a = true ∧
     (id = appFileRootId a ∨ ∃ w, volume_pattern "/" w = true ∧ id = appVolumeFileRootId a w)) ∧
  (databaseIdFromFileRoot id = Some a ↔ resourceIdPattern a = true ∧ id = databaseFileRootId a) ∧
  (appIdFromFileRoot id ≠ None → databaseIdFromFileRoot id = None ∧ isRelayFileRoot id = false) ∧
  (databaseIdFromFileRoot id ≠ None → isRelayFileRoot id = false).
Proof.
  split; [|split; [|split; [|split]]].
  - split; [apply appVolume_parse|]. intros (Ha & Hv & ->). by apply appVolume_build.
  - unfold appIdFromFileRoot. split.
    + destruct (strip_prefix APP_FILE_ROOT_PREFIX id) as [rest|] eqn:Hr; [|done].
      destruct (appVolumeFromFileRoot id) as [[a' w]|] eqn:Hv; simpl.
      * intros [= ->]. apply appVolume_parse in Hv as (? & ? & ?). split; [done|]. right. by exists w.
      * destruct (resourceIdPattern rest) eqn:Hp; [|done]. intros [= ->]. split; [done|]. left.
        by apply strip_prefix_Some in Hr.
    + intros [Ha [->|(w & Hw & ->)]].
      * unfold appFileRootId at 1. rewrite strip_app_root.
        destruct (appVolumeFromFileRoot (appFileRootId a)) as [[a' w]|] eqn:Hv; [|by rewrite Ha].
        exfalso. apply appVolume_parse in Hv as (Ha' & _ & E).
        unfold appFileRootId, appVolumeFileRootId in E. apply str_app_inj_l in E.
        apply (f_equal String.length) in E. rewrite !str_length_app in E. simpl in E.
        apply resourceId_length in Ha, Ha'. lia.
      * rewrite appVolume_build by done. unfold appVolumeFileRootId. by rewrite strip_app_root.
  - unfold databaseIdFromFileRoot. split.
    + destruct (strip_prefix DATABASE_FILE_ROOT_PREFIX id) as [rest|] eqn:Hr; [|done].
      destruct (resourceIdPattern rest) eqn:Hp; [|done]. intros [= ->].
      split; [done|]. by apply strip_prefix_Some in Hr.
    + intros [Ha ->]. unfold databaseFileRootId. by rewrite strip_prefix_app, Ha.
  - unfold appIdFromFileRoot. destruct (strip_prefix APP_FILE_ROOT_PREFIX id) as [rest|] eqn:Hr; [|done].
    intros _. apply strip_prefix_Some in Hr as ->. apply app_root_kinds.
  - unfold databaseIdFromFileRoot.
    destruct (strip_prefix DATABASE_FILE_ROOT_PREFIX id) as [rest|] eqn:Hr; [|done]. intros _.
    apply strip_prefix_Some in Hr as ->. apply has_colon_not_relay. exists ":"%char.
    split; [reflexivity|]. by exists "database", "".
Qed.

Definition sample_id : string := "0123456789abcdef0123456789abcdef01234567".

Example file_roots_roundtrip_witness :
  isRelayFileRoot (appVolumeFileRootId sample_id (sample_id +:+ "/world")) = false.
Proof.
  destruct (file_roots_roundtrip (appVolumeFileRootId sample_id (sample_id +:+ "/world"))
    sample_id (sample_id +:+ "/world")) as (_ & _ & _ & H & _).
  destruct H as [_ H]; [|exact H]. vm_compute. discriminate.
Defined.
