(* ===== verification/Plans.v ===== *)
(** * Lane keys and lock plans

    Models [apps/relay/src/operation-lanes.ts] (the lane keys, refusals and
    the Relay's lanes over [Lanes]) and [apps/relay/src/operation-plans.ts]:
    which locks each kind of Relay work takes.

    A resolver that may answer later is a function here: a plan is the locks
    the promise comes to. A request's payload is unchecked JSON. *)
From S2P Require Import Prelude Locks Lanes Protocol AppKeys.

(** ** Lane keys *)

Module laneKeys.
Definition app (id : string) : string := "app:" +:+ id.
Definition appFiles (id : string) : string := "app:" +:+ id +:+ "/files".
Definition appLifecycle (id : string) : string := "app:" +:+ id +:+ "/lifecycle".
Definition appVolumes (id : string) : string := "app:" +:+ id +:+ "/volumes".
Definition database (id : string) : string := "database:" +:+ id.
Definition databaseConnections (id : string) : string := "database:" +:+ id +:+ "/connections".
Definition databaseLifecycle (id : string) : string := "database:" +:+ id +:+ "/lifecycle".
Definition hostFiles : string := "relay:host-files".
Definition hostPackages : string := "relay:host-packages".
Definition instance (id : string) : string := "instance:" +:+ id.
Definition instanceFiles (id : string) : string := "instance:" +:+ id +:+ "/files".
Definition instanceLifecycle (id : string) : string := "instance:" +:+ id +:+ "/lifecycle".
Definition instanceMetadata (id : string) : string := "instance:" +:+ id +:+ "/metadata".
Definition routes : string := "relay:routes".
Definition allocations : string := "relay:allocations".
Definition tailscale : string := "relay:tailscale".
Definition platform : string := "relay:platform".
Definition volume (id : string) : string := "volume:" +:+ id.
Definition volumeFiles (id : string) : string := "volume:" +:+ id +:+ "/files".
Definition dockerCleanup : string := "relay:docker-cleanup".
Definition desktop : string := "relay:desktop".
Definition desktopImage : string := "relay:desktop-image".
End laneKeys.

(** ** The Relay's lanes *)

Inductive ResourceKind := KApp | KDatabase | KInstance.

#[global] Instance ResourceKind_eq_dec : EqDecision ResourceKind.
Proof. solve_decision. Defined.

Abbreviation LaneRefusal := (string → list LaneLock → option string).

(** The first refusal with something to say. *)
Fixpoint firstRefusal (refusals : list LaneRefusal) (label : string) (locks : list LaneLock)
    : option string :=
  match refusals with
  | [] => None
  | refusal :: rest =>
      match truthy (refusal label locks) with
      | Some reason => Some reason
      | None => firstRefusal rest label locks
      end
  end.

Record FrozenResources := MkFrozen {
  fr_has : ResourceKind → string → bool;
  fr_refusal : LaneRefusal;
}.

(** The constructor: the options and the refusals the lanes start with. *)
Definition relay_lanes_options (maxWaiting : option Z) : LanesOptions :=
  lanes_options maxWaiting (Some "The Relay is busy; try again shortly")
    (Some (λ label, label +:+ " didn't run: this Relay is paused")).

Definition relay_refusals (frozen : option FrozenResources) (added : list LaneRefusal)
    : list LaneRefusal :=
  match frozen with Some f => fr_refusal f :: added | None => added end.

(** What the lanes' [refuse] answers, for the refusals added so far. *)
Definition relay_world (refusals : list LaneRefusal) (holds_now : nat → bool) : World :=
  MkWorld (Some (firstRefusal refusals)) holds_now.

Definition refusalFor (refusals : list LaneRefusal) (label : string) (locks : list LaneLock)
    : option string := firstRefusal refusals label locks.

Definition isFrozen (frozen : option FrozenResources) (kind : ResourceKind) (id : string) : bool :=
  match frozen with Some f => fr_has f kind id | None => false end.

(** ** Plans by resource *)

Definition instanceLifecycleLocks (instanceId : string) : list LaneLock :=
  [shared (laneKeys.instance instanceId); exclusive (laneKeys.instanceLifecycle instanceId)].

Definition instanceStartLocks (instanceId : string) : list LaneLock :=
  instanceLifecycleLocks instanceId ++ [shared laneKeys.routes].

Definition instancePowerLocks (instanceId action : string) : list LaneLock :=
  if decide (action = "start" ∨ action = "restart") then instanceStartLocks instanceId
  else instanceLifecycleLocks instanceId.

Definition instanceFileLocks (instanceId : string) : list LaneLock :=
  [shared (laneKeys.instance instanceId); exclusive (laneKeys.instanceFiles instanceId)].

Definition instanceReadLocks (instanceId : string) : list LaneLock :=
  [shared (laneKeys.instance instanceId)].

Definition instanceReplaceLocks (instanceId : string) : list LaneLock :=
  [exclusive (laneKeys.instance instanceId)].

Definition appLifecycleLocks (appId : string) : list LaneLock :=
  [shared (laneKeys.app appId); exclusive (laneKeys.appLifecycle appId)].

Definition appFileLocks (appId : string) : list LaneLock :=
  [shared (laneKeys.app appId); exclusive (laneKeys.appFiles appId)].

Definition appReplaceLocks (appId : string) : list LaneLock := [exclusive (laneKeys.app appId)].

Definition appCreateLocks (appId : string) (databaseIds : list string) : list LaneLock :=
  appReplaceLocks appId ++ ((λ id, shared (laneKeys.databaseConnections id)) <$> databaseIds).

Definition volumeReferenceLocks (volumeIds : list string) : list LaneLock :=
  (λ id, shared (laneKeys.volume id)) <$> js_distinct volumeIds.

Definition appStartLocks (appId : string) (volumeIds : list string) : list LaneLock :=
  appLifecycleLocks appId ++ volumeReferenceLocks volumeIds.

Definition databaseLocks (databaseId : string) : list LaneLock :=
  [exclusive (laneKeys.database databaseId)].

Definition databaseDeleteLocks (databaseId : string) : list LaneLock :=
  databaseLocks databaseId ++ [exclusive (laneKeys.databaseConnections databaseId)].

Definition databaseLifecycleLocks (databaseId : string) : list LaneLock :=
  [shared (laneKeys.database databaseId); exclusive (laneKeys.databaseLifecycle databaseId)].

Definition databaseReadLocks (databaseId : string) : list LaneLock :=
  [shared (laneKeys.database databaseId); shared (laneKeys.databaseLifecycle databaseId)].

Definition resourcePowerLocks (kind : ResourceKind) (id action : string) : list LaneLock :=
  match kind with
  | KInstance => instancePowerLocks id action
  | KApp => appLifecycleLocks id
  | KDatabase => databaseLifecycleLocks id
  end.

Definition containerCommandLocks (is_app : bool) (id : string) : list LaneLock :=
  if is_app then appLifecycleLocks id else databaseLifecycleLocks id.

Definition resourceLaneKey (kind : ResourceKind) (id : string) : string :=
  match kind with
  | KInstance => laneKeys.instance id
  | KApp => laneKeys.app id
  | KDatabase => laneKeys.database id
  end.

Definition appVolumeFileLocks (appId volumeId : string) : list LaneLock :=
  appFileLocks appId ++
  [shared (laneKeys.volume volumeId); exclusive (laneKeys.volumeFiles volumeId)].

Definition resourceReplaceLocks (kind id : string) (resolveInstance : string → string)
    : option (list LaneLock) :=
  if decide (kind = "instance") then Some (instanceReplaceLocks (resolveInstance id))
  else if decide (kind = "app") then Some (appReplaceLocks id)
  else if decide (kind = "database") then Some (databaseLocks id)
  else if decide (kind = "volume") then Some [exclusive (laneKeys.volume id)]
  else None.

(** ** File roots *)

(** The App a root belongs to, when its ID counts as true. *)
Definition app_of_root (rootId : string) : option string := truthy (appIdFromFileRoot rootId).

Definition fileRootWriteLocks (rootId : string) (resolveInstance : string → string)
    : list LaneLock :=
  if isRelayFileRoot rootId then [exclusive laneKeys.hostFiles]
  else
    match appVolumeFromFileRoot rootId with
    | Some (appId, volumeId) => appVolumeFileLocks appId volumeId
    | None =>
        match app_of_root rootId with
        | Some appId => appFileLocks appId
        | None => instanceFileLocks (resolveInstance rootId)
        end
    end.

Definition fileRootTransferLocks (rootId : string) : list LaneLock :=
  if isRelayFileRoot rootId then [shared laneKeys.hostFiles]
  else
    match truthy (databaseIdFromFileRoot rootId) with
    | Some databaseId => databaseReadLocks databaseId
    | None =>
        match appVolumeFromFileRoot rootId with
        | Some (appId, volumeId) =>
            [shared (laneKeys.app appId); shared (laneKeys.volume volumeId)]
        | None =>
            [shared match app_of_root rootId with
                    | Some appId => laneKeys.app appId
                    | None => laneKeys.instance rootId
                    end]
        end
    end.

Definition fileRootCommitLocks (rootId : string) : list LaneLock :=
  if isRelayFileRoot rootId then []
  else
    match truthy (databaseIdFromFileRoot rootId) with
    | Some _ => []
    | None =>
        match appVolumeFromFileRoot rootId with
        | Some (appId, volumeId) =>
            [exclusive (laneKeys.appFiles appId); exclusive (laneKeys.volumeFiles volumeId)]
        | None =>
            [exclusive match app_of_root rootId with
                       | Some appId => laneKeys.appFiles appId
                       | None => laneKeys.instanceFiles rootId
                       end]
        end
    end.

Definition transferPackLocks (rootId : string) : list LaneLock := fileRootTransferLocks rootId.

Definition transferInstallLocks (rootId : string) : list LaneLock :=
  if isRelayFileRoot rootId then [exclusive laneKeys.hostFiles]
  else
    match app_of_root rootId with
    | Some appId => appReplaceLocks appId
    | None => instanceReplaceLocks rootId
    end.

(** ** Backups *)

Inductive BackupKind := BCreate | BRestore | BDelete | BExport | BPrune.

#[global] Instance BackupKind_eq_dec : EqDecision BackupKind.
Proof. solve_decision. Defined.

Inductive BackupTargetKind := TApp | TVolume | TInstance | TDatabase | TPlatform.

(** What of a backup task's input its plan reads. *)
Record BackupTaskInput := MkBackupTask {
  b_kind : BackupKind;
  b_target : BackupTargetKind;
  b_id : string;
  b_consistency : option string;
  b_reason : option string;
  b_appCoverage : option string;
}.

Definition backup_stopped (input : BackupTaskInput) : bool :=
  bool_decide (b_kind input = BCreate) &&
  (bool_decide (b_consistency input = Some "stopped") ||
   bool_decide (b_reason input = Some "final_delete")).

Definition backupTaskLocks (input : BackupTaskInput) (resolveInstance : string → string)
    (resolveVolumeApps : string → list string) : list LaneLock :=
  let id := b_id input in
  let restore := bool_decide (b_kind input = BRestore) in
  let stopped := backup_stopped input in
  if negb (bool_decide (b_kind input = BCreate)) && negb restore then []
  else
    match b_target input with
    | TApp =>
        if restore then appReplaceLocks id
        else if stopped then appLifecycleLocks id else [shared (laneKeys.app id)]
    | TVolume =>
        let locks apps :=
          (if restore || stopped then exclusive (laneKeys.volume id)
           else shared (laneKeys.volume id)) ::
          (if restore || stopped then flat_map appLifecycleLocks (js_distinct apps) else []) in
        if negb restore && negb stopped then locks [] else locks (resolveVolumeApps id)
    | TInstance =>
        (if restore then instanceReplaceLocks else instanceReadLocks) (resolveInstance id)
    | TDatabase => if restore then databaseLocks id else databaseReadLocks id
    | TPlatform =>
        [if restore then exclusive laneKeys.platform else shared laneKeys.platform]
    end.

Definition backupCoverageLocks (input : BackupTaskInput) : list LaneLock :=
  match b_appCoverage input with
  | Some appId =>
      if bool_decide (b_kind input = BCreate) &&
         negb (bool_decide (b_consistency input = Some "stopped")) &&
         negb (bool_decide (b_reason input = Some "final_delete"))
      then [exclusive (laneKeys.appLifecycle appId)] else []
  | None => []
  end.

(** ** Tailscale *)

Record StackBinding := MkBinding { enabled : bool; memberId : string }.

Definition active_members (bindings : list StackBinding) : list string :=
  js_distinct (memberId <$> List.filter enabled bindings).

(** The locks for one member, given whether it joins or leaves. *)
Definition member_locks (frozen : ResourceKind → string → bool) (changes : bool) (member : string)
    : list LaneLock :=
  match appTailscaleMember member with
  | Some (appId, _) =>
      if changes then appLifecycleLocks appId
      else if frozen KApp appId then [] else [shared (laneKeys.app appId)]
  | None =>
      match truthy (databaseTailscaleMember member) with
      | Some databaseId =>
          if changes then databaseLocks databaseId
          else if frozen KDatabase databaseId then [] else [shared (laneKeys.database databaseId)]
      | None =>
          match truthy (instanceTailscaleMember member) with
          | Some instanceId =>
              if changes then instanceLifecycleLocks instanceId
              else if frozen KInstance instanceId then []
              else [shared (laneKeys.instance instanceId)]
          | None => []
          end
      end
  end.

Definition member_changes (saved : list StackBinding) (requested : option (list StackBinding))
    (member : string) : bool :=
  let before := active_members saved in
  let after := match requested with Some r => active_members r | None => [] end in
  negb (Bool.eqb (bool_decide (member ∈ before)) (bool_decide (member ∈ after))).

Definition named_members (saved : list StackBinding) (requested : option (list StackBinding))
    : list string := js_distinct ((memberId <$> saved) ++ (memberId <$> default [] requested)).

Definition tailscaleMemberLocks (saved : list StackBinding) (requested : option (list StackBinding))
    (frozen : ResourceKind → string → bool) : list LaneLock :=
  flat_map (λ member, member_locks frozen (member_changes saved requested member) member)
    (named_members saved requested).

(** ** Payloads *)

Inductive Json :=
  | JNull
  | JBool (b : bool)
  | JNumber (n : Z)
  | JString (s : string)
  | JArray (items : list Json)
  | JObject (fields : list (string * Json)).

Abbreviation Payload := (list (string * Json)).

Definition stringField (payload : Payload) (field : string) : option string :=
  match jm_get field payload with Some (JString s) => truthy (Some s) | _ => None end.

Definition array_field (payload : Payload) (field : string) : list Json :=
  match jm_get field payload with Some (JArray items) => items | _ => [] end.

(** The object's fields; an array has none of those the plans read. *)
Definition object_fields (value : Json) : option Payload :=
  match value with JObject fields => Some fields | JArray _ => Some [] | _ => None end.

Definition strings_of (items : list Json) : list string :=
  omap (λ item, match item with JString s => Some s | _ => None end) items.

(** [stringArray(payload[field])] *)
Definition stringArray (payload : Payload) (field : string) : list string :=
  strings_of (array_field payload field).

Definition requestedTailscaleBindings (payload : Payload) : list StackBinding :=
  omap (λ binding,
    match object_fields binding with
    | None => None
    | Some entry =>
        match stringField entry "memberId" with
        | Some member =>
            Some (MkBinding
              (match jm_get "enabled" entry with Some (JBool false) => false | _ => true end) member)
        | None => None
        end
    end) (array_field payload "bindings").

(** ** Control requests *)

Section ControlRequest.
Variables (resolveInstance : string → string) (resolveAppVolumes : string → list string).
Variable readTailscaleStack : option (string → list StackBinding).
Variable frozen : ResourceKind → string → bool.
Variable payload : Payload.

Definition with_instance (locks : string → list LaneLock) (field : string)
    : option (list LaneLock) :=
  (λ reference, locks (resolveInstance reference)) <$> stringField payload field.

Definition with_id (locks : string → list LaneLock) (field : string) : option (list LaneLock) :=
  locks <$> stringField payload field.

Definition appWithVolumes (locks : string → list LaneLock) : option (list LaneLock) :=
  (λ id, locks id ++ volumeReferenceLocks (resolveAppVolumes id)) <$> stringField payload "appId".

Definition fileRoot : option (list LaneLock) :=
  (λ rootId, fileRootWriteLocks rootId resolveInstance) <$> stringField payload "instanceId".

Definition network_write_locks : option (list LaneLock) :=
  databaseId ← stringField payload "databaseId";
  member ← (jm_get "member" payload ≫= object_fields);
  member_id ← stringField member "id";
  match jm_get "kind" member with
  | Some (JString kind) =>
      if decide (kind = "instance") then
        Some (databaseLocks databaseId ++ instanceLifecycleLocks (resolveInstance member_id))
      else if decide (kind = "app") then
        Some (databaseLocks databaseId ++ appLifecycleLocks member_id)
      else if decide (kind = "database") then
        Some (databaseLocks databaseId ++ databaseLocks member_id)
      else None
  | _ => None
  end.

Definition network_import_locks : list LaneLock :=
  let entries := omap object_fields (array_field payload "apps") in
  let appIds := js_distinct (omap (λ entry, stringField entry "appId") entries) in
  let databaseIds := js_distinct (omap (λ id, truthy (Some id))
                       (flat_map (λ entry, stringArray entry "databaseIds") entries)) in
  ((λ id, shared (laneKeys.app id)) <$> appIds) ++
  ((λ id, shared (laneKeys.database id)) <$> databaseIds).

Definition stack_locks (apply : bool) : option (list LaneLock) :=
  (λ reference,
    let stackId := resolveInstance reference in
    instanceReplaceLocks stackId ++ [shared laneKeys.tailscale] ++
    tailscaleMemberLocks
      (match readTailscaleStack with Some read => read stackId | None => [] end)
      (if apply then Some (requestedTailscaleBindings payload) else None) frozen)
  <$> stringField payload "id".

Definition volume_imports : list string :=
  flat_map (λ app, match object_fields app with
                   | Some fields => stringArray fields "volumeIds"
                   | None => []
                   end) (array_field payload "apps").

(** The cases for the Relay itself: its desktop, platform, routes, volumes and Tailscale. *)
Definition relay_request_locks (operation : RelayControlOperation)
    : option (list LaneLock) :=
  match operation with
  | op_relay_desktop_attach => Some [exclusive laneKeys.desktop]
  | op_relay_platform_action => Some [exclusive laneKeys.platform]
  | op_relay_platform_database_write => Some [shared laneKeys.platform]
  | op_relay_installation_replace => Some [exclusive laneKeys.platform]
  | op_relay_host_packages_update => Some [exclusive laneKeys.hostPackages]
  | op_relay_networking_write | op_relay_proxy_write | op_relay_proxy_trial
  | op_relay_certificates_check => Some [exclusive laneKeys.routes]
  | op_relay_volumes_create | op_relay_volumes_rename | op_relay_volumes_delete =>
      with_id (λ id, [exclusive (laneKeys.volume id)]) "id"
  | op_relay_volumes_references_import => Some (volumeReferenceLocks volume_imports)
  | op_relay_tailscale_install | op_relay_tailscale_write =>
      Some [exclusive laneKeys.tailscale; exclusive laneKeys.routes]
  | op_relay_tailscale_stack_dns =>
      with_instance (λ id, instanceReplaceLocks id ++ [shared laneKeys.tailscale]) "id"
  | op_relay_tailscale_stack_apply => stack_locks true
  | op_relay_tailscale_stack_remove => stack_locks false
  | _ => None
  end.

(** The cases for databases. *)
Definition database_request_locks (operation : RelayControlOperation)
    : option (list LaneLock) :=
  match operation with
  | op_database_create => with_id databaseLocks "id"
  | op_database_limits_write =>
      with_id (λ id, databaseLocks id ++ [exclusive laneKeys.allocations]) "databaseId"
  | op_database_action =>
      with_id (λ id, resourcePowerLocks KDatabase id (default "" (stringField payload "action")))
        "databaseId"
  | op_database_wipe | op_database_delete => with_id databaseDeleteLocks "databaseId"
  | op_database_credentials_rotate | op_database_dump_import | op_database_data_write =>
      with_id databaseLocks "databaseId"
  | op_database_dump_export => with_id databaseReadLocks "databaseId"
  | op_database_network_write => network_write_locks
  | op_database_network_import => Some network_import_locks
  | _ => None
  end.

(** The cases for Apps. *)
Definition app_request_locks (operation : RelayControlOperation)
    : option (list LaneLock) :=
  match operation with
  | op_app_create =>
      with_id (λ id, appCreateLocks id (stringArray payload "databaseIds")) "id"
  | op_app_deployment_abort => with_id (λ id, [shared (laneKeys.app id)]) "appId"
  | op_app_delete => appWithVolumes appReplaceLocks
  | op_app_limits_write | op_app_deploy => with_id appLifecycleLocks "appId"
  | op_app_action => appWithVolumes appLifecycleLocks
  | op_app_network_routes_write =>
      with_id (λ id, appLifecycleLocks id ++ [exclusive laneKeys.routes]) "appId"
  | op_app_volumes_write =>
      with_id (λ id, [shared (laneKeys.app id); exclusive (laneKeys.appVolumes id)] ++
                     volumeReferenceLocks (stringArray payload "volumeIds")) "appId"
  | _ => None
  end.

(** The cases for game servers, and freezing any resource. *)
Definition instance_request_locks (operation : RelayControlOperation)
    : option (list LaneLock) :=
  match operation with
  | op_instance_create => with_instance instanceReplaceLocks "instanceId"
  | op_instance_startup_write | op_instance_delete =>
      with_instance instanceReplaceLocks "instanceId"
  | op_instance_network_databases_remove | op_instance_limits_write =>
      with_instance instanceLifecycleLocks "instanceId"
  | op_instance_rename =>
      with_instance (λ id, [shared (laneKeys.instance id); exclusive (laneKeys.instanceMetadata id)])
        "instanceId"
  | op_instance_action =>
      with_instance
        (λ id, resourcePowerLocks KInstance id (default "" (stringField payload "action")))
        "instanceId"
  | op_instance_console_write | op_instance_console_complete =>
      with_instance instanceLifecycleLocks "instanceId"
  | op_instance_network_ports_write | op_instance_network_routes_write =>
      with_instance (λ id, instanceLifecycleLocks id ++ [exclusive laneKeys.routes]) "instanceId"
  | op_instance_files_write | op_instance_files_put | op_instance_files_upload_url
  | op_instance_files_mutate | op_instance_files_mutate_result
  | op_instance_files_database_write => fileRoot
  | op_resource_freeze | op_resource_unfreeze =>
      kind ← stringField payload "kind";
      id ← stringField payload "id";
      resourceReplaceLocks kind id resolveInstance
  | _ => None
  end.

Definition controlRequestLocks (operation : RelayControlOperation) : option (list LaneLock) :=
  match operation with
  | op_relay_snapshot | op_relay_tunnel_open | op_relay_system_inspect | op_relay_update_status
  | op_relay_resources_read | op_relay_volumes_read | op_relay_docker_storage | op_relay_rename
  | op_relay_audit_list | op_relay_networking_read | op_relay_tailscale_read
  | op_relay_tailscale_stack_list | op_relay_tailscale_stack_state | op_relay_host_read
  | op_relay_database_read | op_relay_proxy_read | op_relay_proxy_config_read
  | op_relay_pairing_create | op_relay_pairing_list | op_relay_pairing_revoke
  | op_relay_clients_list | op_relay_clients_update | op_relay_clients_revoke
  | op_relay_platform_read | op_relay_security_targets | op_relay_security_inventory
  | op_relay_host_packages_read | op_relay_platform_logs | op_relay_platform_database_read
  | op_relay_installation_read | op_browser_authorization_revise | op_brick_catalog
  | op_brick_recipe | op_database_list | op_database_inspect | op_database_resources_read
  | op_database_data_read | op_app_list | op_app_resources_read | op_app_network_routes_read
  | op_app_deployment_read | op_app_image_check | op_instance_resources_read
  | op_instance_files_list | op_instance_files_directory_list
  | op_instance_files_directory_sizes | op_instance_files_search | op_instance_files_stat
  | op_instance_files_read | op_instance_icon_read | op_instance_files_database_read
  | op_instance_console_history | op_instance_logs_share | op_instance_logs_latest
  | op_instance_network_routes_read | op_instance_network_ports_reserve
  | op_instance_network_ports_release | op_relay_desktop_read | op_relay_desktop_heartbeat
  | op_relay_desktop_detach | op_relay_terminal_attach | op_relay_terminal_heartbeat
  | op_relay_terminal_detach | op_relay_terminal_write | op_relay_terminal_claim
  | op_relay_terminal_restart | op_relay_platform_terminal_attach
  | op_relay_platform_terminal_heartbeat | op_relay_platform_terminal_detach
  | op_relay_platform_terminal_write | op_relay_platform_terminal_claim
  | op_relay_platform_terminal_restart | op_database_terminal_attach
  | op_database_terminal_heartbeat | op_database_terminal_detach | op_database_terminal_write
  | op_database_terminal_claim | op_database_terminal_restart | op_app_terminal_attach
  | op_app_terminal_heartbeat | op_app_terminal_detach | op_app_terminal_write
  | op_app_terminal_claim | op_app_terminal_restart | op_relay_update_apply | op_relay_restart
  | op_relay_host_restart | op_relay_host_files_mount | op_relay_docker_cleanup
  | op_backup_task_enqueue | op_backup_task_cancel | op_backup_restore_resolve
  | op_backup_restore_unfinished | op_backup_task_get | op_backup_task_list
  | op_transfer_source_prepare | op_transfer_source_get | op_transfer_source_discard
  | op_transfer_pull_start | op_transfer_pull_get | op_transfer_pull_cancel | op_transfer_space
  | op_schedule_apply | op_schedule_run | op_schedule_remove | op_schedule_overview
  | op_instance_provision_prepare | op_instance_provision_claim | op_instance_provision_cancel
  | op_database_provision_prepare | op_database_provision_claim | op_database_provision_cancel
  | op_app_provision_prepare | op_app_provision_claim | op_app_provision_cancel
  | op_operation_get | op_relay_pause_write | op_hearth_database_terminal_output
  | op_sftp_authorization_resolve | op_relay_volumes_references_hold => None
  | op_relay_desktop_attach | op_relay_platform_action | op_relay_platform_database_write
  | op_relay_installation_replace | op_relay_host_packages_update
  | op_relay_networking_write | op_relay_proxy_write | op_relay_proxy_trial
  | op_relay_certificates_check | op_relay_volumes_create | op_relay_volumes_rename
  | op_relay_volumes_delete | op_relay_volumes_references_import
  | op_relay_tailscale_install | op_relay_tailscale_write | op_relay_tailscale_stack_dns
  | op_relay_tailscale_stack_apply | op_relay_tailscale_stack_remove =>
      relay_request_locks operation
  | op_database_create | op_database_limits_write | op_database_action | op_database_wipe
  | op_database_delete | op_database_credentials_rotate | op_database_dump_import
  | op_database_data_write | op_database_dump_export | op_database_network_write
  | op_database_network_import =>
      database_request_locks operation
  | op_app_create | op_app_deployment_abort | op_app_delete | op_app_limits_write
  | op_app_deploy | op_app_action | op_app_network_routes_write | op_app_volumes_write =>
      app_request_locks operation
  | op_instance_create | op_instance_startup_write | op_instance_delete
  | op_instance_network_databases_remove | op_instance_limits_write | op_instance_rename
  | op_instance_action | op_instance_console_write | op_instance_console_complete
  | op_instance_network_ports_write | op_instance_network_routes_write
  | op_instance_files_write | op_instance_files_put | op_instance_files_upload_url
  | op_instance_files_mutate | op_instance_files_mutate_result
  | op_instance_files_database_write | op_resource_freeze | op_resource_unfreeze =>
      instance_request_locks operation
  end.
End ControlRequest.
