(* ===== verification/PlanFacts.v ===== *)
(** * What the lock plans guarantee

    Properties of [Plans]: which work on a resource excludes which, that
    every request that works on a resource it names holds that resource's
    lane and which requests have no plan, what uploads,
    backups and Tailscale changes hold, and how the plans agree with what a
    paused Relay refuses. *)
From Stdlib Require Import Ascii.
From S2P Require Import Prelude Locks Lanes Protocol AppKeys Plans.

(** ** Lane keys apart

    A key names its resource up to the first slash, so keys of IDs without
    one never coincide. *)

Definition no_slash (c : ascii) : bool := negb (bool_decide (c = "/"%char)).

Definition slash_free (s : string) : bool := str_all no_slash s.

Lemma id_slash_free id : resourceIdPattern id = true → slash_free id = true.
Proof. intros H. apply (id_no_sep id "/"%char); auto. Qed.

(** The rest of a key: nothing, or a part after a slash. *)
Definition suffix_ok (s : string) : bool :=
  match s with EmptyString => true | String c _ => negb (no_slash c) end.

Lemma slash_split i : ∀ j s t,
  slash_free i = true → slash_free j = true → suffix_ok s = true → suffix_ok t = true →
  i +:+ s = j +:+ t → i = j ∧ s = t.
Proof.
  induction i as [|c i IH]; intros [|d j] s t; unfold slash_free; simpl; intros Hi Hj Hs Ht E.
  - done.
  - subst s. simpl in Hs. apply andb_true_iff in Hj as [Hd _]. by rewrite Hd in Hs.
  - subst t. simpl in Ht. apply andb_true_iff in Hi as [Hd _]. by rewrite Hd in Ht.
  - apply andb_true_iff in Hi as [_ Hi], Hj as [_ Hj]. injection E as -> E.
    by destruct (IH j s t) as [-> ->].
Qed.

(** A lock of a plan for some resource: a key of the resource itself, as its
    prefix and part, or a key of the Relay's own. *)
Inductive KeyForm := Own (prefix part : string) | Common (k : string).

Record LockForm := Form { f_key : KeyForm; f_mode : LaneMode }.

Definition render_key (id : string) (k : KeyForm) : string :=
  match k with Own prefix part => prefix +:+ id +:+ part | Common k => k end.

Definition render (id : string) (f : LockForm) : LaneLock :=
  MkLock (render_key id (f_key f)) (f_mode f).

(** Kinds of key start with different letters. *)
Definition first_char (s : string) : option ascii :=
  match s with EmptyString => None | String c _ => Some c end.

Definition prefixes : list string := ["app:"; "database:"; "instance:"; "volume:"].

Definition form_ok (f : LockForm) : bool :=
  match f_key f with
  | Own prefix part => bool_decide (prefix ∈ prefixes) && suffix_ok part
  | Common k => bool_decide (first_char k = Some "r"%char)
  end.

Definition forms_clash (same : bool) (f g : LockForm) : bool :=
  (bool_decide (f_mode f = Exclusive) || bool_decide (f_mode g = Exclusive)) &&
  match f_key f, f_key g with
  | Own p s, Own q t => same && bool_decide (p = q) && bool_decide (s = t)
  | Common k, Common l => bool_decide (k = l)
  | _, _ => false
  end.

Definition plans_clash (same : bool) (fs gs : list LockForm) : bool :=
  existsb (λ f, existsb (forms_clash same f) gs) fs.

Lemma render_key_eq i j k l :
  slash_free i = true → slash_free j = true →
  form_ok (Form k Shared) = true → form_ok (Form l Shared) = true →
  render_key i k = render_key j l ↔
  match k, l with
  | Own p s, Own q t => i = j ∧ p = q ∧ s = t
  | Common k, Common l => k = l
  | _, _ => False
  end.
Proof.
  intros Hi Hj. unfold form_ok. simpl.
  destruct k as [p s|k], l as [q t|l]; rewrite ?andb_true_iff, ?bool_decide_eq_true; simpl.
  - intros [Hp Hs] [Hq Ht]. split; [|naive_solver].
    assert (p = q ∨ p ≠ q ∧ first_char p ≠ first_char q ∧ p ≠ "" ∧ q ≠ "") as [->|(_ & Hf & Hp0 & Hq0)].
    { unfold prefixes in *. set_unfold. destruct_or?; subst; auto; right; repeat split; done. }
    + intros E%str_app_inj_l. by apply slash_split in E as [-> ->].
    + destruct p, q; try done. simpl in *. congruence.
  - intros [Hp Hs] Hl. split; [|done]. intros E. unfold prefixes in Hp. set_unfold.
    destruct_or?; subst; simpl in *; congruence.
  - intros Hl [Hp Hs]. split; [|done]. intros E. unfold prefixes in Hp. set_unfold.
    destruct_or?; subst; simpl in *; congruence.
  - done.
Qed.

(** Plans for two resources are apart exactly when their forms are. *)
Lemma render_compatible i j fs gs :
  slash_free i = true → slash_free j = true →
  forallb form_ok fs = true → forallb form_ok gs = true →
  compatible (render i <$> fs) (render j <$> gs) ↔ plans_clash (bool_decide (i = j)) fs gs = false.
Proof.
  intros Hi Hj Hfs Hgs. rewrite forallb_elem in Hfs, Hgs.
  unfold compatible, plans_clash. rewrite existsb_false. setoid_rewrite existsb_false.
  enough (∀ f g, f ∈ fs → g ∈ gs →
    locks_conflict (render i f) (render j g) = forms_clash (bool_decide (i = j)) f g) as Heq.
  { split.
    - intros H f Hf g Hg. rewrite <-Heq by done. apply H; by apply list_elem_of_fmap_2.
    - intros H x y (f & -> & Hf)%list_elem_of_fmap (g & -> & Hg)%list_elem_of_fmap.
      rewrite Heq by done. auto. }
  intros f g Hf Hg. unfold locks_conflict, forms_clash, render; simpl. rewrite andb_comm. f_equal.
  specialize (Hfs f Hf). specialize (Hgs g Hg).
  pose proof (render_key_eq i j (f_key f) (f_key g) Hi Hj Hfs Hgs) as E.
  destruct f as [[p s|k] m], g as [[q t|l] n]; simpl in *.
  - rewrite (bool_decide_ext _ _ E), !bool_decide_and. by rewrite andb_assoc.
  - apply bool_decide_eq_false. by intros ?%E.
  - apply bool_decide_eq_false. by intros ?%E.
  - by apply bool_decide_ext.
Qed.

(** ** Which work on resources excludes which *)

(** Work on one resource, as the Relay plans it: replacing it (delete,
    restore, reinstall), changing its power, starting it, writing its files
    (a database's dumps being transferred), and reading it whole. *)
Inductive Work := Replace | Power | Start | Files | Read.

Definition kind_word (kind : ResourceKind) : string :=
  match kind with KApp => "app" | KDatabase => "database" | KInstance => "instance" end.

Definition work_locks (kind : ResourceKind) (work : Work) (id : string) : list LaneLock :=
  match work with
  | Replace => default [] (resourceReplaceLocks (kind_word kind) id (λ r, r))
  | Power => resourcePowerLocks kind id "stop"
  | Start => match kind with KApp => appStartLocks id [] | _ => resourcePowerLocks kind id "start" end
  | Files => match kind with
             | KApp => appFileLocks id | KInstance => instanceFileLocks id
             | KDatabase => databaseReadLocks id
             end
  | Read =>
      backupTaskLocks
        (MkBackupTask BCreate
           match kind with KApp => TApp | KDatabase => TDatabase | KInstance => TInstance end
           id (Some "live") None None) (λ r, r) (λ _, [])
  end.

(** Replacing excludes everything, power changes exclude each other, file
    writers exclude each other, and a database's readers need it running. *)
Definition work_clash (kind : ResourceKind) (a b : Work) : bool :=
  match a, b with
  | Replace, _ | _, Replace => true
  | (Power | Start), (Power | Start) => true
  | (Power | Start), _ | _, (Power | Start) => bool_decide (kind = KDatabase)
  | Files, Files => negb (bool_decide (kind = KDatabase))
  | _, _ => false
  end.

Definition work_forms (kind : ResourceKind) (work : Work) : list LockForm :=
  let prefix := kind_word kind +:+ ":" in
  let sh part := Form (Own prefix part) Shared in
  let ex part := Form (Own prefix part) Exclusive in
  match work with
  | Replace => [ex ""]
  | Power => [sh ""; ex "/lifecycle"]
  | Start =>
      [sh ""; ex "/lifecycle"] ++
      match kind with KInstance => [Form (Common "relay:routes") Shared] | _ => [] end
  | Files => match kind with KDatabase => [sh ""; sh "/lifecycle"] | _ => [sh ""; ex "/files"] end
  | Read => match kind with KDatabase => [sh ""; sh "/lifecycle"] | _ => [sh ""] end
  end.

Lemma work_locks_forms kind work id : work_locks kind work id = render id <$> work_forms kind work.
Proof.
  destruct kind, work; cbn; unfold render; cbn;
    unfold laneKeys.app, laneKeys.instance, laneKeys.database;
    rewrite ?str_app_nil; reflexivity.
Qed.

(** Exactly the intended work on a resource excludes other work. Two
    pieces of work may run together unless they are on the same resource and
    one replaces it, both change its running process, both write its files,
    or it is a database whose engine a dump, backup or transfer needs running
    while the other changes its power; work on different resources never
    excludes other work, whatever their kinds. *)
Theorem work_matrix_exact k w i k' w' j :
  slash_free i = true → slash_free j = true →
  compatible (work_locks k w i) (work_locks k' w' j) ↔
  ¬ (k = k' ∧ i = j ∧ work_clash k w w' = true).
Proof.
  intros Hi Hj. rewrite !work_locks_forms, render_compatible;
    [|done|done|by destruct k, w; vm_compute|by destruct k', w'; vm_compute].
  destruct (bool_decide_reflect (i = j)) as [->|Hne].
  - destruct k, k', w, w'; vm_compute; naive_solver.
  - destruct k, k', w, w'; vm_compute; naive_solver.
Qed.

Example work_matrix_exact_witness :
  compatible (work_locks KApp Files "a") (work_locks KApp Start "a") ∧
  ¬ compatible (work_locks KDatabase Read "a") (work_locks KDatabase Power "a").
Proof.
  split.
  - apply (work_matrix_exact KApp Files "a" KApp Start "a"); [reflexivity..|].
    intros (_ & _ & H). discriminate H.
  - intros H. apply (work_matrix_exact KDatabase Read "a" KDatabase Power "a") in H; [|reflexivity..].
    apply H. repeat split.
Defined.

(** ** Requests hold the resource they name *)

(** The resource a control request changes, and the field that names it, of the
    requests that change the one resource a field of theirs names. *)
Definition names (operation : RelayControlOperation) : option (ResourceKind * string) :=
  match operation with
  | op_database_create => Some (KDatabase, "id")
  | op_database_limits_write | op_database_action | op_database_wipe | op_database_delete
  | op_database_credentials_rotate | op_database_dump_import | op_database_dump_export
  | op_database_data_write => Some (KDatabase, "databaseId")
  | op_app_create => Some (KApp, "id")
  | op_app_deployment_abort | op_app_delete | op_app_limits_write | op_app_deploy | op_app_action
  | op_app_network_routes_write | op_app_volumes_write => Some (KApp, "appId")
  | op_instance_create | op_instance_startup_write | op_instance_delete | op_instance_rename
  | op_instance_network_databases_remove | op_instance_limits_write | op_instance_action
  | op_instance_console_write | op_instance_console_complete | op_instance_network_ports_write
  | op_instance_network_routes_write => Some (KInstance, "instanceId")
  | op_relay_tailscale_stack_dns | op_relay_tailscale_stack_apply
  | op_relay_tailscale_stack_remove => Some (KInstance, "id")
  | _ => None
  end.

(** The requests that need the resource to themselves. *)
Definition replaces (operation : RelayControlOperation) : bool :=
  match operation with
  | op_database_create | op_database_limits_write | op_database_wipe | op_database_delete
  | op_database_credentials_rotate | op_database_dump_import | op_database_data_write
  | op_app_create | op_app_delete | op_instance_create | op_instance_startup_write
  | op_instance_delete | op_relay_tailscale_stack_dns | op_relay_tailscale_stack_apply
  | op_relay_tailscale_stack_remove => true
  | _ => false
  end.

(** A plan has a lock on the key, exclusive if need be. *)
Definition holds_key (k : string) (alone : bool) (locks : list LaneLock) : Prop :=
  if alone then exclusive k ∈ locks else exclusive k ∈ locks ∨ shared k ∈ locks.

Lemma holds_key_clash k locks locks' alone :
  holds_key k true locks → holds_key k alone locks' → ¬ compatible locks locks'.
Proof.
  intros H H' C. assert (∃ l, l ∈ locks' ∧ Locks.key l = k) as (l & Hl & <-).
  { destruct alone; [|destruct H' as [H'|H']]; eauto. }
  specialize (C _ _ H Hl). unfold locks_conflict in C. simpl in C.
  rewrite bool_decide_true in C by done. done.
Qed.

Section Requests.
Variables (resolveInstance : string → string) (resolveAppVolumes : string → list string).
Variables (readStack : option (string → list StackBinding)) (frozen : ResourceKind → string → bool).

Abbreviation plan := (controlRequestLocks resolveInstance resolveAppVolumes readStack frozen).

(** The lane of the resource a request's field refers to. *)
Definition named_lane (kind : ResourceKind) (reference : string) : string :=
  resourceLaneKey kind (match kind with KInstance => resolveInstance reference | _ => reference end).

Lemma named_plan payload operation kind field reference :
  names operation = Some (kind, field) → stringField payload field = Some reference →
  ∃ locks, plan payload operation = Some locks ∧
    holds_key (named_lane kind reference) (replaces operation) locks.
Proof.
  destruct operation; try discriminate; intros [= <- <-] Hf; simpl;
    unfold with_id, with_instance, appWithVolumes, stack_locks; rewrite Hf;
    (eexists; split; [reflexivity|]); unfold holds_key, named_lane; simpl;
    try (left; left); try (right; left).
  unfold instancePowerLocks. case_decide; right; left.
Qed.

(** *** Every request *)

(** A resource a request works on: its kind, its ID and whether the request
    needs it to itself. *)
Abbreviation Named := (ResourceKind * string * bool)%type.

Definition resolved (kind : ResourceKind) (reference : string) : string :=
  match kind with KInstance => resolveInstance reference | _ => reference end.

Definition field_named (payload : Payload) (kind : ResourceKind) (field : string) (alone : bool) : list Named :=
  match stringField payload field with Some reference => [(kind, resolved kind reference, alone)] | None => [] end.

(** What a root a request writes files in belongs to; the host's to none. *)
Definition root_named (payload : Payload) : list Named :=
  match stringField payload "instanceId" with
  | None => []
  | Some root =>
      if isRelayFileRoot root then []
      else match appVolumeFromFileRoot root, app_of_root root with
           | Some (app, _), _ | None, Some app => [(KApp, app, false)]
           | None, None => [(KInstance, resolveInstance root, false)]
           end
  end.

(** The kind a word names: a volume is not of these. *)
Definition kind_of_word (word : string) : option ResourceKind :=
  if decide (word = "instance") then Some KInstance
  else if decide (word = "app") then Some KApp
  else if decide (word = "database") then Some KDatabase else None.

Definition freeze_named (payload : Payload) : list Named :=
  match stringField payload "kind" ≫= kind_of_word with Some kind => field_named payload kind "id" true | None => [] end.

(** A connection: the database, and what joins it, a database alone too. *)
Definition connection_named (payload : Payload) : list Named :=
  match jm_get "member" payload ≫= object_fields with
  | None => []
  | Some member =>
      match stringField payload "databaseId", stringField member "id", jm_get "kind" member with
      | Some database, Some id, Some (JString word) =>
          match kind_of_word word with
          | Some kind => [(KDatabase, database, true); (kind, resolved kind id, bool_decide (kind = KDatabase))]
          | None => []
          end
      | _, _, _ => []
      end
  end.

Definition import_named (payload : Payload) : list Named :=
  let entries := omap object_fields (array_field payload "apps") in
  ((λ id, (KApp, id, false)) <$> omap (λ entry, stringField entry "appId") entries) ++
  ((λ id, (KDatabase, id, false)) <$> omap (λ id, truthy (Some id)) (flat_map (λ entry, stringArray entry "databaseIds") entries)).

(** What a Tailscale network's change does to each of its members: one that
    joins or leaves is changed, a database's wholly, and one that stays is only
    kept, unless it is being deleted. *)
Definition member_named (changes : bool) (member : string) : list Named :=
  let kept kind id := if frozen kind id then [] else [(kind, id, false)] in
  match appTailscaleMember member with
  | Some (app, _) => if changes then [(KApp, app, false)] else kept KApp app
  | None =>
      match truthy (databaseTailscaleMember member), truthy (instanceTailscaleMember member) with
      | Some database, _ => if changes then [(KDatabase, database, true)] else kept KDatabase database
      | None, Some instance => if changes then [(KInstance, instance, false)] else kept KInstance instance
      | None, None => []
      end
  end.

Definition members_named (payload : Payload) (apply : bool) : list Named :=
  match stringField payload "id" with
  | None => []
  | Some reference =>
      let saved := match readStack with Some read => read (resolveInstance reference) | None => [] end in
      let requested := if apply then Some (requestedTailscaleBindings payload) else None in
      flat_map (λ member, member_named (member_changes saved requested member) member) (named_members saved requested)
  end.

(** The Apps, databases and game servers a request works on. An App's create
    is not work on the databases it connects to: it takes their connections
    only ([appCreateLocks]). *)
Definition named (payload : Payload) (operation : RelayControlOperation) : list Named :=
  match names operation with Some (kind, field) => field_named payload kind field (replaces operation) | None => [] end ++
  match operation with
  | op_instance_files_write | op_instance_files_put | op_instance_files_upload_url | op_instance_files_mutate
  | op_instance_files_mutate_result | op_instance_files_database_write => root_named payload
  | op_resource_freeze | op_resource_unfreeze => freeze_named payload
  | op_database_network_write => connection_named payload
  | op_database_network_import => import_named payload
  | op_relay_tailscale_stack_apply => members_named payload true
  | op_relay_tailscale_stack_remove => members_named payload false
  | _ => []
  end.

(** The requests that work on the Relay or on its volumes, and the two that
    record what configurations name, which may name nothing. *)
Definition relay_wide (payload : Payload) (operation : RelayControlOperation) : bool :=
  match operation with
  | op_relay_desktop_attach | op_relay_platform_action | op_relay_platform_database_write | op_relay_installation_replace
  | op_relay_host_packages_update | op_relay_networking_write | op_relay_proxy_write | op_relay_proxy_trial
  | op_relay_certificates_check | op_relay_tailscale_install | op_relay_tailscale_write
  | op_relay_volumes_references_import | op_database_network_import => true
  | op_relay_volumes_create | op_relay_volumes_rename | op_relay_volumes_delete => bool_decide (is_Some (stringField payload "id"))
  | op_instance_files_write | op_instance_files_put | op_instance_files_upload_url | op_instance_files_mutate
  | op_instance_files_mutate_result | op_instance_files_database_write =>
      match stringField payload "instanceId" with Some root => isRelayFileRoot root | None => false end
  | op_resource_freeze | op_resource_unfreeze =>
      bool_decide (stringField payload "kind" = Some "volume" ∧ is_Some (stringField payload "id"))
  | _ => false
  end.

(** The plan holds the lane of each resource, alone where it is needed so. *)
Definition holds_all (locks : list LaneLock) (resources : list Named) : Prop :=
  Forall (λ '(kind, id, alone), holds_key (resourceLaneKey kind id) alone locks) resources.

(** What a plan must be for the resources a request works on, and whether it
    works on the Relay or a volume. *)
Definition plans_for (plan : option (list LaneLock)) (resources : list Named) (wide : bool) : Prop :=
  match plan with
  | Some locks => holds_all locks resources ∧ (resources ≠ [] ∨ wide = true)
  | None => resources = [] ∧ wide = false
  end.

(** Finds each resource's lock in a plan that is written out. *)
Ltac hold_each :=
  unfold holds_all; repeat first [apply Forall_nil_2 | apply Forall_cons_2]; unfold holds_key, resourceLaneKey;
  solve [left | right; left | right; right; left | right; right; right; left].

Lemma root_plans_for payload :
  plans_for (fileRoot resolveInstance payload) (root_named payload)
    (match stringField payload "instanceId" with Some root => isRelayFileRoot root | None => false end).
Proof.
  unfold fileRoot, root_named. destruct (stringField payload "instanceId") as [root|]; [cbn|done].
  unfold fileRootWriteLocks. destruct (isRelayFileRoot root); [by split; [constructor|right]|].
  destruct (appVolumeFromFileRoot root) as [[app volume]|]; [|destruct (app_of_root root) as [app|]];
    (split; [hold_each|by left]).
Qed.

Lemma freeze_plans_for payload :
  plans_for (kind ← stringField payload "kind"; id ← stringField payload "id"; resourceReplaceLocks kind id resolveInstance)
    (freeze_named payload) (bool_decide (stringField payload "kind" = Some "volume" ∧ is_Some (stringField payload "id"))).
Proof.
  unfold freeze_named, field_named, resourceReplaceLocks, kind_of_word. destruct (stringField payload "kind") as [word|]; cbn.
  2:{ split; [done|]. apply bool_decide_eq_false. by intros [? _]. }
  destruct (stringField payload "id") as [id|]; cbn.
  2:{ rewrite (bool_decide_false (_ ∧ _)); [|by intros [_ []]]. by repeat case_decide. }
  destruct (decide (word = "instance")) as [->|]; cbn; [split; [hold_each|by left]|].
  destruct (decide (word = "app")) as [->|]; cbn; [split; [hold_each|by left]|].
  destruct (decide (word = "database")) as [->|]; cbn; [split; [hold_each|by left]|].
  destruct (decide (word = "volume")) as [->|]; cbn; [by split; [constructor|right]|].
  split; [done|]. apply bool_decide_eq_false. by intros [[= ?] _].
Qed.

Lemma connection_plans_for payload :
  plans_for (network_write_locks resolveInstance payload) (connection_named payload) false.
Proof.
  unfold network_write_locks, connection_named, kind_of_word.
  destruct (stringField payload "databaseId") as [database|]; cbn; [|by repeat case_match].
  destruct (jm_get "member" payload ≫= object_fields) as [member|]; cbn; [|done].
  destruct (stringField member "id") as [id|]; cbn; [|done].
  destruct (jm_get "kind" member) as [[]|]; try done.
  repeat (case_decide; [cbn; split; [hold_each|by left]|]). done.
Qed.

Lemma import_plans_for payload : plans_for (Some (network_import_locks payload)) (import_named payload) true.
Proof.
  cbn. split; [|by right]. unfold holds_all, import_named, network_import_locks.
  rewrite Forall_app, !Forall_fmap, !Forall_forall. split; intros id Hid; cbn; right; apply elem_of_app.
  - left. apply list_elem_of_fmap. exists id. split; [done|]. by apply js_distinct_elem.
  - right. apply list_elem_of_fmap. exists id. split; [done|]. by apply js_distinct_elem.
Qed.

Lemma member_named_held changes member : holds_all (member_locks frozen changes member) (member_named changes member).
Proof.
  unfold member_locks, member_named. destruct (appTailscaleMember member) as [[app service]|]; cbn.
  - destruct changes; [|destruct (frozen KApp app)]; hold_each.
  - destruct (truthy (databaseTailscaleMember member)) as [database|]; cbn.
    + destruct changes; [|destruct (frozen KDatabase database)]; hold_each.
    + destruct (truthy (instanceTailscaleMember member)) as [instance|]; cbn; [|constructor].
      destruct changes; [|destruct (frozen KInstance instance)]; hold_each.
Qed.

Lemma holds_key_subset k alone locks locks' : locks ⊆ locks' → holds_key k alone locks → holds_key k alone locks'.
Proof. intros Hs. unfold holds_key. destruct alone; [apply Hs|]. intros [H|H]; [left|right]; by apply Hs. Qed.

Lemma holds_all_subset locks locks' resources : locks ⊆ locks' → holds_all locks resources → holds_all locks' resources.
Proof. intros Hs H. unfold holds_all. eapply Forall_impl; [exact H|]. intros [[kind id] alone]. by apply holds_key_subset. Qed.

Lemma members_held saved requested :
  holds_all (tailscaleMemberLocks saved requested frozen)
    (flat_map (λ member, member_named (member_changes saved requested member) member) (named_members saved requested)).
Proof.
  unfold tailscaleMemberLocks. induction (named_members saved requested) as [|m ms IH]; cbn [flat_map]; [constructor|].
  apply Forall_app. split; [eapply holds_all_subset; [|apply member_named_held]|eapply holds_all_subset; [|exact IH]]; set_solver.
Qed.

Lemma stack_plans_for payload apply :
  plans_for (stack_locks resolveInstance readStack frozen payload apply) (field_named payload KInstance "id" true ++ members_named payload apply) false.
Proof.
  unfold stack_locks, field_named, members_named. destruct (stringField payload "id") as [reference|]; cbn; [|done].
  split; [|by left]. constructor; [left|]. eapply holds_all_subset; [|apply members_held]. set_solver.
Qed.

Lemma field_plans_for payload operation kind field :
  names operation = Some (kind, field) → (stringField payload field = None → plan payload operation = None) →
  plans_for (plan payload operation) (field_named payload kind field (replaces operation)) false.
Proof.
  intros Hn Hnone. unfold field_named. destruct (stringField payload field) as [reference|] eqn:Hf; [|by rewrite Hnone].
  destruct (named_plan payload operation kind field reference Hn Hf) as (locks & -> & Hk). cbn. split; [|by left].
  constructor; [|constructor]. by destruct kind.
Qed.

(** What every request's plan is. *)
Lemma every_plan payload operation :
  plans_for (plan payload operation) (named payload operation) (relay_wide payload operation).
Proof.
  destruct operation; try (cbn; split; [done|reflexivity]); try (cbn; split; [constructor|by right]);
    try (unfold named; cbn [names replaces app]; rewrite app_nil_r;
         match goal with |- plans_for (plan _ ?op) _ _ => apply (field_plans_for payload op _ _ eq_refl) end; cbn; unfold with_id, with_instance, appWithVolumes; intros ->; reflexivity);
    try apply root_plans_for; try apply freeze_plans_for; try apply stack_plans_for.
  all: try (cbn; unfold with_id; destruct (stringField payload "id"); cbn; [by split; [constructor|right]|by split]).
  - apply connection_plans_for.
  - apply import_plans_for.
Qed.

End Requests.


(** ** Uploads, volumes and backups *)

Lemma file_root_cases rootId :
  (∃ a v, appVolumeFromFileRoot rootId = Some (a, v)) ∨
  (appVolumeFromFileRoot rootId = None ∧ ∃ a, app_of_root rootId = Some a) ∨
  (appVolumeFromFileRoot rootId = None ∧ app_of_root rootId = None).
Proof.
  destruct (appVolumeFromFileRoot rootId) as [[a v]|]; [by eauto|].
  destruct (app_of_root rootId); eauto.
Qed.

(** A browser upload, which streams beside other work and then takes a
    nested lock to put the file in place, ends up holding exactly what any
    other writer of that root holds, for every root but the host's and a
    database's dumps. So it excludes what a save excludes and nothing more,
    and while it only streams it excludes no other writer of the root. *)
Theorem upload_holds_as_writer rootId :
  isRelayFileRoot rootId = false → databaseIdFromFileRoot rootId = None →
  fileRootTransferLocks rootId ++ fileRootCommitLocks rootId
    ≡ₚ fileRootWriteLocks rootId (λ r, r) ∧
  Forall (λ l, mode l = Shared) (fileRootTransferLocks rootId) ∧
  compatible (fileRootTransferLocks rootId) (fileRootTransferLocks rootId) ∧
  fileRootCommitLocks rootId ≠ [].
Proof.
  intros Hr Hd. unfold fileRootTransferLocks, fileRootCommitLocks, fileRootWriteLocks.
  rewrite Hr, Hd. simpl.
  assert (∀ xs : list LaneLock, Forall (λ l, mode l = Shared) xs → compatible xs xs) as Hsh.
  { intros xs Hxs x y Hx Hy. rewrite Forall_forall in Hxs. unfold locks_conflict.
    by rewrite (Hxs x Hx), (Hxs y Hy), andb_false_r. }
  destruct (file_root_cases rootId) as [(a & v & ->)|[(-> & a & ->)|(-> & ->)]];
    (split; [|split; [|split; [apply Hsh|done]]]); repeat constructor; done.
Qed.

Example upload_holds_as_writer_witness :
  fileRootTransferLocks ("app:" +:+ sample_id) ++ fileRootCommitLocks ("app:" +:+ sample_id)
    ≡ₚ fileRootWriteLocks ("app:" +:+ sample_id) (λ r, r).
Proof. apply (upload_holds_as_writer ("app:" +:+ sample_id)); reflexivity. Defined.

(** A backup task that holds its volume alone: a restore, or a backup of it
    stopped, as a final one is. *)
Definition holds_volume_alone (task : BackupTaskInput) : Prop :=
  b_target task = TVolume ∧ (b_kind task = BRestore ∨ backup_stopped task = true).

(** A live backup of an App or a volume. *)
Definition reads_live (task : BackupTaskInput) : Prop :=
  (b_target task = TVolume ∨ b_target task = TApp) ∧
  b_kind task = BCreate ∧ backup_stopped task = false.

Lemma shared_clash k xs ys : exclusive k ∈ xs → shared k ∈ ys → ¬ compatible xs ys.
Proof. intros Hx Hy. apply (holds_key_clash k xs ys false); simpl; auto. Qed.

Lemma volume_alone_plan task resolve apps :
  holds_volume_alone task →
  exclusive (laneKeys.volume (b_id task)) ∈ backupTaskLocks task resolve apps ∧
  ∀ app, app ∈ apps (b_id task) → ∀ l, l ∈ appLifecycleLocks app →
    l ∈ backupTaskLocks task resolve apps.
Proof.
  intros [Ht Hk]. unfold backupTaskLocks. rewrite Ht.
  assert (negb (bool_decide (b_kind task = BCreate)) && negb (bool_decide (b_kind task = BRestore))
          = false) as ->.
  { destruct Hk as [->|Hs]; [done|]. unfold backup_stopped in Hs.
    apply andb_true_iff in Hs as [-> _]. done. }
  assert (bool_decide (b_kind task = BRestore) || backup_stopped task = true) as Hb.
  { destruct Hk as [->| ->]; [done|]. by rewrite orb_true_r. }
  destruct (negb (bool_decide (b_kind task = BRestore)) && negb (backup_stopped task)) eqn:E.
  { rewrite <-negb_orb, Hb in E. done. }
  rewrite Hb. split; [left|]. intros app Happ l Hl. right. apply list_elem_of_In, in_flat_map.
  exists app. rewrite <-!list_elem_of_In. split; [by apply js_distinct_elem|done].
Qed.

Lemma volume_reference_elem v vols : v ∈ vols → shared (laneKeys.volume v) ∈ volumeReferenceLocks vols.
Proof. intros H. apply list_elem_of_fmap. exists v. split; [done|]. by apply js_distinct_elem. Qed.

Lemma live_plan task resolve apps :
  reads_live task →
  ∃ k, (first_char k = Some "v"%char ∨ k = laneKeys.app (b_id task)) ∧
    backupTaskLocks task resolve apps = [shared k].
Proof.
  intros ([Ht|Ht] & Hk & Hs); unfold backupTaskLocks; rewrite Ht, Hk, Hs; simpl; eauto.
  exists (laneKeys.volume (b_id task)). split; [by left|done].
Qed.

(** A lock on an App's lifecycle is apart from what starting another holds. *)
Lemma lifecycle_apart covered a vols :
  slash_free covered = true → slash_free a = true → covered ≠ a →
  compatible [exclusive (laneKeys.appLifecycle covered)] (appStartLocks a vols).
Proof.
  intros Hc Ha Hne x y Hx Hy. apply list_elem_of_singleton in Hx as ->.
  destruct (locks_conflict (exclusive (laneKeys.appLifecycle covered)) y) eqn:E; [|done]. exfalso.
  apply locks_conflict_true in E as [Ek _]. simpl in Ek. unfold appStartLocks, appLifecycleLocks in Hy.
  rewrite elem_of_app, !elem_of_cons, elem_of_nil in Hy. unfold laneKeys.appLifecycle, laneKeys.app in Ek.
  destruct Hy as [[->|[->|[]]]|Hy].
  - pose proof (str_app_inj_l "app:" (covered +:+ "/lifecycle") a Ek) as E. rewrite <-(str_app_nil a) in E. by apply slash_split in E as [_ ?].
  - pose proof (str_app_inj_l "app:" (covered +:+ "/lifecycle") (a +:+ "/lifecycle") Ek) as E. by apply slash_split in E as [? _].
  - apply list_elem_of_fmap in Hy as (v & -> & _). done.
Qed.

Lemma coverage_spec task :
  backupCoverageLocks task =
  match b_appCoverage task with
  | Some covered => if bool_decide (b_kind task = BCreate) && negb (backup_stopped task) then [exclusive (laneKeys.appLifecycle covered)] else []
  | None => []
  end.
Proof.
  unfold backupCoverageLocks, backup_stopped. destruct (b_appCoverage task); [|done].
  destruct (bool_decide (b_kind task = BCreate)); [|done]. cbn. by rewrite negb_orb.
Qed.

(** C11: A volume restored, or backed up stopped, is nobody else's meanwhile.
    Its plan excludes starting any App that mounts the volume, even one that
    began using it after the volume's Apps were read, any change to the
    processes of the Apps found using it, and writing its files through any
    App. The plan of a live backup of a volume or an App makes no App's start
    wait. Its coverage check does, in a step of its own: only a live backup's
    takes a lock, which keeps changes to the processes of the covered App out
    and no other App's start. That step waits for no live backup, so it cannot
    wait for a start that waits for the backup. *)
Theorem volume_backup_exclusion task resolve apps a vols :
  (holds_volume_alone task →
    (b_id task ∈ vols → ¬ compatible (backupTaskLocks task resolve apps) (appStartLocks a vols)) ∧
    (a ∈ apps (b_id task) →
      ¬ compatible (backupTaskLocks task resolve apps) (appLifecycleLocks a)) ∧
    ¬ compatible (backupTaskLocks task resolve apps) (appVolumeFileLocks a (b_id task))) ∧
  (reads_live task → slash_free a = true → slash_free (b_id task) = true →
    compatible (backupTaskLocks task resolve apps) (appStartLocks a vols)) ∧
  (b_kind task = BCreate ∧ backup_stopped task = false ∧ is_Some (b_appCoverage task) ↔ backupCoverageLocks task ≠ []) ∧
  (∀ covered, b_appCoverage task = Some covered → backupCoverageLocks task ≠ [] → slash_free covered = true →
    ¬ compatible (backupCoverageLocks task) (appLifecycleLocks covered) ∧
    (slash_free a = true → a ≠ covered → compatible (backupCoverageLocks task) (appStartLocks a vols)) ∧
    ∀ live, reads_live live → slash_free (b_id live) = true →
      compatible (backupTaskLocks live resolve apps) (backupCoverageLocks task)).
Proof.
  assert (∀ live b, reads_live live → slash_free b = true → slash_free (b_id live) = true → ∀ vs,
    compatible (backupTaskLocks live resolve apps) (appStartLocks b vs)) as Hlive.
  { intros live b H Hb Hid vs. destruct (live_plan live resolve apps H) as (k & Hk & ->).
    intros x y Hx Hy. apply list_elem_of_singleton in Hx as ->.
    destruct (locks_conflict (shared k) y) eqn:E; [|done]. exfalso.
    apply locks_conflict_true in E as [Ek [?|Em]]; [done|]. simpl in Ek. subst k.
    unfold appStartLocks, appLifecycleLocks in Hy.
    rewrite elem_of_app, !elem_of_cons, elem_of_nil in Hy.
    destruct Hy as [[->|[->|[]]]|Hy]; [done| |].
    + simpl in Hk. destruct Hk as [Hk|Hk]; [done|].
      unfold laneKeys.appLifecycle, laneKeys.app in Hk. apply str_app_inj_l in Hk.
      rewrite <-(str_app_nil (b_id live)) in Hk. by apply slash_split in Hk as [_ ?].
    + apply list_elem_of_fmap in Hy as (v & -> & _). done. }
  split; [|split; [by intros; apply Hlive|split]].
  - intros H. destruct (volume_alone_plan task resolve apps H) as [Hv Happs]. split; [|split].
    + intros Hin. apply (shared_clash _ _ _ Hv). unfold appStartLocks.
      apply elem_of_app. right. by apply volume_reference_elem.
    + intros Hin. apply (holds_key_clash (laneKeys.appLifecycle a) _ _ true); simpl.
      * apply (Happs a Hin). by right; left.
      * by right; left.
    + apply (shared_clash _ _ _ Hv). right; right; left.
  - rewrite coverage_spec. destruct (b_appCoverage task) as [covered|]; [|by split; [intros (_ & _ & [? [=]])|]].
    destruct (bool_decide_reflect (b_kind task = BCreate)) as [Hk|Hk]; [|by split; [intros [? _]|]].
    destruct (backup_stopped task); cbn; [by split; [intros (_ & [=] & _)|]|]. split; [done|]. intros _. by repeat split.
  - intros covered Hc Hne Hs. rewrite coverage_spec, Hc in Hne |- *. destruct (_ && _); [|done]. clear Hne. split; [|split].
    + apply (holds_key_clash (laneKeys.appLifecycle covered) _ _ true); simpl; [left|by right; left].
    + intros Ha Hac. by apply lifecycle_apart.
    + intros live H Hid x y Hx Hy. apply (Hlive live covered H Hs Hid []); [done|]. apply list_elem_of_singleton in Hy as ->.
      right; left.
Qed.

Example volume_backup_exclusion_witness :
  ¬ compatible
    (backupTaskLocks (MkBackupTask BRestore TVolume "v1" None None None) (λ r, r) (λ _, ["a1"]))
    (appStartLocks "a2" ["v0"; "v1"]) ∧
  compatible
    (backupTaskLocks (MkBackupTask BCreate TVolume "v1" (Some "live") None None) (λ r, r) (λ _, ["a1"]))
    (appStartLocks "a1" ["v0"; "v1"]) ∧
  ¬ compatible (backupCoverageLocks (MkBackupTask BCreate TVolume "v1" (Some "live") None (Some "a1"))) (appLifecycleLocks "a1").
Proof.
  destruct (volume_backup_exclusion (MkBackupTask BRestore TVolume "v1" None None None)
    (λ r, r) (λ _, ["a1"]) "a2" ["v0"; "v1"]) as [H _].
  destruct (volume_backup_exclusion (MkBackupTask BCreate TVolume "v1" (Some "live") None None)
    (λ r, r) (λ _, ["a1"]) "a1" ["v0"; "v1"]) as (_ & H' & _).
  destruct (volume_backup_exclusion (MkBackupTask BCreate TVolume "v1" (Some "live") None (Some "a1"))
    (λ r, r) (λ _, ["a1"]) "a1" ["v0"; "v1"]) as (_ & _ & _ & C).
  split; [|split].
  - apply H; [split; [reflexivity|left; reflexivity]|right; left].
  - apply H'; [split; [left; reflexivity|split; reflexivity]|reflexivity..].
  - apply (C "a1"); [reflexivity|discriminate|reflexivity].
Defined.

(** ** Tailscale networks *)

(** The resource a member ID names. *)
Inductive member_names : string → ResourceKind → string → Prop :=
  | names_app id service :
      resourceIdPattern id = true → name_pattern 62 service = true →
      member_names (appTailscaleMemberId id service) KApp id
  | names_database id :
      resourceIdPattern id = true → member_names (databaseTailscaleMemberId id) KDatabase id
  | names_instance id :
      resourceIdPattern id = true → member_names (instanceTailscaleMemberId id) KInstance id.

Lemma appTailscaleMember_Some m a s :
  appTailscaleMember m = Some (a, s) ↔
  m = appTailscaleMemberId a s ∧ resourceIdPattern a = true ∧ name_pattern 62 s = true.
Proof.
  unfold appTailscaleMember, appTailscaleMemberId. split.
  - destruct (strip_prefix "app:" m) as [rest|] eqn:Hr; [|done].
    destruct (strip_prefix ":" (str_drop 40 rest)) as [service|] eqn:Hs; [|done].
    destruct (resourceIdPattern _ && _) eqn:Hp; [|done].
    intros [<- <-]%Some_inj%pair_equal_spec. apply andb_true_iff in Hp.
    apply strip_prefix_Some in Hr as ->, Hs. by rewrite <-Hs, str_take_drop.
  - intros (-> & Ha & Hs). by rewrite strip_prefix_app, drop_id, strip_prefix_app, take_id, Ha, Hs.
Qed.

Lemma member_after_Some prefix m id :
  member_after prefix m = Some id ↔ m = prefix +:+ id ∧ resourceIdPattern id = true.
Proof.
  unfold member_after. split.
  - destruct (strip_prefix prefix m) as [rest|] eqn:Hr; [|done].
    destruct (resourceIdPattern rest) eqn:Hp; [|done]. intros [= <-].
    by apply strip_prefix_Some in Hr.
  - intros [-> Hp]. by rewrite strip_prefix_app, Hp.
Qed.

Lemma truthy_id o id : o = Some id → resourceIdPattern id = true → truthy o = Some id.
Proof. intros -> H. destruct id; [discriminate H|done]. Qed.

(** What a plan holds of a member: what changing its power holds when it
    joins or leaves (a database wholly), and otherwise only the resource,
    unless it is frozen for its deletion. *)
Definition member_held (frozen : ResourceKind → string → bool) (changes : bool)
    (kind : ResourceKind) (id : string) : list LaneLock :=
  if changes then
    match kind with KDatabase => databaseLocks id | _ => resourcePowerLocks kind id "stop" end
  else if frozen kind id then [] else [shared (resourceLaneKey kind id)].

Lemma member_locks_names frozen changes m kind id :
  member_names m kind id → member_locks frozen changes m = member_held frozen changes kind id.
Proof.
  unfold member_locks, member_held.
  intros [a s Ha Hs|d Hd|i Hi].
  - by rewrite (proj2 (appTailscaleMember_Some _ a s)).
  - assert (databaseTailscaleMember (databaseTailscaleMemberId d) = Some d) as E
      by by apply member_after_Some.
    by rewrite (truthy_id _ _ E Hd).
  - assert (instanceTailscaleMember (instanceTailscaleMemberId i) = Some i) as E
      by by apply member_after_Some.
    by rewrite (truthy_id _ _ E Hi).
Qed.

Lemma member_locks_nothing frozen changes m :
  (∀ kind id, ¬ member_names m kind id) → member_locks frozen changes m = [].
Proof.
  intros H. unfold member_locks.
  destruct (appTailscaleMember m) as [[a s]|] eqn:Ha.
  { apply appTailscaleMember_Some in Ha as (-> & ? & ?). by destruct (H KApp a); constructor. }
  destruct (databaseTailscaleMember m) as [d|] eqn:Hd.
  { apply member_after_Some in Hd as (-> & ?). by destruct (H KDatabase d); constructor. }
  destruct (instanceTailscaleMember m) as [i|] eqn:Hi; [|done].
  apply member_after_Some in Hi as (-> & ?). by destruct (H KInstance i); constructor.
Qed.

(** A member ID names one resource, or none. *)
Lemma member_cases m :
  (∃ kind id, member_names m kind id ∧ resourceIdPattern id = true) ∨
  (∀ kind id, ¬ member_names m kind id).
Proof.
  destruct (appTailscaleMember m) as [[a s]|] eqn:Ha.
  { apply appTailscaleMember_Some in Ha as (-> & ? & ?). left. exists KApp, a. split; [by constructor|done]. }
  destruct (databaseTailscaleMember m) as [d|] eqn:Hd.
  { apply member_after_Some in Hd as (-> & ?). left. exists KDatabase, d. split; [by constructor|done]. }
  destruct (instanceTailscaleMember m) as [i|] eqn:Hi.
  { apply member_after_Some in Hi as (-> & ?). left. exists KInstance, i. split; [by constructor|done]. }
  right. intros kind id Hm. revert Ha Hd Hi. destruct Hm as [a s Hp Hs|d Hp|i Hp]; intros Ha Hd Hi.
  - by rewrite (proj2 (appTailscaleMember_Some _ a s)) in Ha.
  - unfold databaseTailscaleMember in Hd. by rewrite (proj2 (member_after_Some _ _ d)) in Hd.
  - unfold instanceTailscaleMember in Hi. by rewrite (proj2 (member_after_Some _ _ i)) in Hi.
Qed.

(** The member takes part in the stack. *)
Definition takes_part (bindings : list StackBinding) (m : string) : Prop :=
  ∃ b, b ∈ bindings ∧ enabled b = true ∧ memberId b = m.

Lemma active_members_elem bindings m : m ∈ active_members bindings ↔ takes_part bindings m.
Proof.
  unfold active_members, takes_part. rewrite js_distinct_elem, list_elem_of_fmap.
  setoid_rewrite elem_of_bfilter. naive_solver.
Qed.

Lemma member_changes_spec saved requested m :
  member_changes saved requested m = true ↔
  ¬ (takes_part saved m ↔ takes_part (default [] requested) m).
Proof.
  unfold member_changes. rewrite <-!active_members_elem.
  assert (m ∈ active_members (default [] requested) ↔
    m ∈ match requested with Some r => active_members r | None => [] end) as -> by by destruct requested.
  rewrite negb_true_iff, eqb_false_iff.
  destruct (bool_decide_reflect (m ∈ active_members saved)),
    (bool_decide_reflect (m ∈ match requested with Some r => active_members r | None => [] end));
    naive_solver.
Qed.

(** A Tailscale change holds exactly the members it must. Each member
    its saved or requested bindings name is held as its power changes are
    when it joins or leaves the network, and only kept from deletion and
    replacement when it stays as it is, not at all if it is frozen for its
    own deletion; names of no known kind hold nothing, and nothing else is
    held. Removing a network takes every member off it. *)
Theorem tailscale_members_exact saved requested frozen l :
  l ∈ tailscaleMemberLocks saved requested frozen ↔
  ∃ b kind id changes,
    b ∈ saved ++ default [] requested ∧ member_names (memberId b) kind id ∧
    (changes = true ↔
       ¬ (takes_part saved (memberId b) ↔ takes_part (default [] requested) (memberId b))) ∧
    l ∈ member_held frozen changes kind id.
Proof.
  unfold tailscaleMemberLocks. rewrite list_elem_of_In, in_flat_map.
  setoid_rewrite <-list_elem_of_In. split.
  - intros (m & Hm & Hl). unfold named_members in Hm.
    rewrite js_distinct_elem, <-fmap_app, list_elem_of_fmap in Hm. destruct Hm as (b & -> & Hb).
    set (ch := member_changes saved requested (memberId b)) in *.
    destruct (member_cases (memberId b)) as [(kind & id & Hn & _)|Hno].
    + exists b, kind, id, ch. rewrite (member_locks_names _ _ _ _ _ Hn) in Hl.
      split; [done|]. split; [done|]. split; [apply member_changes_spec|done].
    + rewrite member_locks_nothing in Hl by done. by apply elem_of_nil in Hl.
  - intros (b & kind & id & ch & Hb & Hn & Hch & Hl). exists (memberId b). split.
    + unfold named_members. rewrite js_distinct_elem, <-fmap_app. by apply list_elem_of_fmap_2.
    + assert (ch = member_changes saved requested (memberId b)) as <-.
      { apply eq_true_iff_eq. by rewrite Hch, member_changes_spec. }
      by rewrite (member_locks_names _ _ _ _ _ Hn).
Qed.

(** ** Plans, changes and a paused Relay *)

(** The protocol's tables agree with the plans. A paused Relay refuses
    every request that would take a lane lock, but a database's dump, which
    its paused lanes refuse instead; every request that takes a lane lock is
    one the Relay records as a change, but the dump, which only reads, and
    taking over the desktop, a session; every audited operation is a change
    or opens or drives a session; and the only changes a paused Relay still
    takes are pausing itself, revoking access and protecting volumes, none of
    which takes a lane lock. What no table covers is input to the terminals
    of Kiln's own services: opening one, claiming it, restarting it and
    typing into it are neither refused nor in a lane. *)
Theorem plans_agree_with_protocol resolveInstance resolveAppVolumes readStack frozen payload op :
  let planned := controlRequestLocks resolveInstance resolveAppVolumes readStack frozen payload op in
  (planned ≠ None → relayControlOperationRefusedWhilePaused op = true ∨ op = op_database_dump_export) ∧
  (planned ≠ None →
     relayControlOperationChanges op = true ∨ op = op_database_dump_export ∨
     op = op_relay_desktop_attach) ∧
  (isAuditedRelayControlOperation op = true →
     relayControlOperationChanges op = true ∨ terminalInputOperations op = true ∨
     op ∈ [op_relay_platform_terminal_attach; op_relay_platform_terminal_restart;
           op_database_dump_export]) ∧
  (relayControlOperationChanges op = true → relayControlOperationRefusedWhilePaused op = false →
     planned = None ∧
     op ∈ [op_relay_pause_write; op_browser_authorization_revise; op_relay_volumes_references_hold;
           op_relay_clients_revoke; op_relay_pairing_revoke]) ∧
  (op ∈ [op_relay_platform_terminal_attach; op_relay_platform_terminal_claim;
         op_relay_platform_terminal_restart; op_relay_platform_terminal_write] →
   relayControlOperationRefusedWhilePaused op = false ∧ planned = None).
Proof.
  cbv zeta. split; [|split; [|split; [|split]]].
  5:{ rewrite !elem_of_cons, elem_of_nil. by intros [->|[->|[->|[->|[]]]]]. }
  all: destruct op; try (intros; exfalso; discriminate);
    try (intros H; exfalso; exact (H eq_refl)); intros; auto;
    try (split; [reflexivity|]); try (right; right; rewrite !elem_of_cons; solve [auto 8]);
    rewrite !elem_of_cons; auto 8.
Qed.

Example plans_agree_with_protocol_witness :
  relayControlOperationRefusedWhilePaused op_app_delete = true ∨ op_app_delete = op_database_dump_export.
Proof.
  apply (plans_agree_with_protocol (λ r, r) (λ _, []) None (λ _ _, false)
    [("appId", JString "a")] op_app_delete). vm_compute. discriminate.
Defined.
