(* ===== verification/Operations.v ===== *)
(** * The Relay's own operations

    Models the decisions of [apps/relay/src/operations/operation.ts]: what
    [runOperation] admits to the lanes, and when an operation inside another
    may run under the locks that one holds. Running the work, and the spans
    and metrics around it, are not modelled. *)
From Stdlib Require Import Ascii.
From S2P Require Import Prelude Locks Lanes LanesInv LanesFacts Protocol AppKeys Plans PlanFacts.

(** The operation an effect runs in, and every lock it holds. *)
Record RunningOperation := MkRunning { op_id : string; op_label : string; op_held : list LaneLock }.

(** What of a definition decides its admission. *)
Record RelayOperation := MkOperation {
  ro_name : string;
  ro_locks : list LaneLock;
  ro_precondition : option bool;
  ro_onlyIfFree : bool;
  ro_carriesOnWhilePaused : bool;
}.

(** [key.indexOf("/")], and the key before it. *)
Fixpoint before_slash (key : string) : option string :=
  match key with
  | EmptyString => None
  | String c rest =>
      if decide (c = "/"%char) then Some ""
      else match before_slash rest with Some whole => Some (String c whole) | None => None end
  end.

(** [new Map(held.map((lock) => [lock.key, lock.mode]))] *)
Definition held_modes (held : list LaneLock) : list (string * LaneMode) :=
  fold_left (λ modes lock, jm_set (key lock) (mode lock) modes) held [].

(** What is held covers one lock. *)
Definition covered (modes : list (string * LaneMode)) (lock : LaneLock) : bool :=
  match jm_get (key lock) modes with
  | Some Exclusive => true
  | Some Shared => bool_decide (mode lock = Shared)
  | None => false
  end ||
  match before_slash (key lock) with
  | Some whole => bool_decide (jm_get whole modes = Some Exclusive)
  | None => false
  end.

Definition uncovered (wanted held : list LaneLock) : list LaneLock :=
  List.filter (λ lock, negb (covered (held_modes held) lock)) wanted.

(** How an operation is taken up: inside another it dies naming what is
    missing, fails as superseded, or runs under the locks that one holds;
    otherwise it asks the lanes. *)
Inductive Taken :=
  | Dies (missing : list string)
  | Superseded
  | RunsNested (held : list LaneLock)
  | Asks (locks : list LaneLock) (when_busy : option WhenBusy) (carries_on : bool).

Definition nested (definition : RelayOperation) (locks : list LaneLock) (parent : RunningOperation)
    : Taken :=
  match uncovered locks (op_held parent) with
  | [] =>
      if bool_decide (ro_precondition definition = Some false) then Superseded
      else RunsNested (op_held parent)
  | missing => Dies (key <$> missing)
  end.

Definition runOperation (definition : RelayOperation) (parent : option RunningOperation) : Taken :=
  let locks := normalizeLocks (ro_locks definition) in
  match parent with
  | Some parent => nested definition locks parent
  | None =>
      Asks locks (if ro_onlyIfFree definition then Some Refuse else None)
        (ro_carriesOnWhilePaused definition)
  end.

(** ** Facts *)

(** A plan that takes part of a resource takes the whole of it too. *)
Definition keeps_wholes (locks : list LaneLock) : Prop :=
  ∀ l whole, l ∈ locks → before_slash (key l) = Some whole →
    ∃ w, w ∈ locks ∧ key w = whole.

Lemma held_modes_get held k m : jm_get k (held_modes held) = Some m → MkLock k m ∈ held.
Proof.
  unfold held_modes.
  enough (∀ modes, jm_get k (fold_left (λ modes lock, jm_set (key lock) (mode lock) modes) held modes)
    = Some m → MkLock k m ∈ held ∨ jm_get k modes = Some m) as H by (by intros [?|?]%H).
  induction held as [|l held IH]; intros modes; cbn; [auto|].
  rewrite elem_of_cons. intros [?|H]%IH; [auto|]. revert H. rewrite jm_get_set.
  case_decide; [|auto]. subst k. intros [= <-]. left. left. by destruct l.
Qed.

Lemma covered_part modes l whole :
  before_slash (key l) = Some whole → jm_get whole modes = Some Exclusive → covered modes l = true.
Proof. unfold covered. intros -> Hm. apply orb_true_iff. right. by apply bool_decide_eq_true. Qed.

Lemma conflict_on a b : key a = key b → mode a = Exclusive ∨ mode b = Exclusive → locks_conflict a b = true.
Proof. intros. by apply locks_conflict_true. Qed.

(** Locks that are covered exclude nothing that what is held does not. *)
Lemma covered_compatible wanted held other :
  uncovered wanted held = [] → keeps_wholes other →
  compatible held other → compatible wanted other.
Proof.
  intros Hun Hkeep Hc l o Hl Ho. destruct (locks_conflict l o) eqn:E; [|done]. exfalso.
  apply locks_conflict_true in E as [Ek Em].
  assert (covered (held_modes held) l = true) as Hcov.
  { destruct (covered (held_modes held) l) eqn:Hcov; [done|]. exfalso.
    assert (l ∈ uncovered wanted held) as H by (apply elem_of_bfilter; by rewrite Hcov).
    rewrite Hun in H. by apply elem_of_nil in H. }
  assert (∀ h o', h ∈ held → o' ∈ other → key h = key o' →
    mode h = Exclusive ∨ mode o' = Exclusive → False) as Hno.
  { intros h o' Hh Ho' E1 E2. specialize (Hc h o' Hh Ho'). by rewrite conflict_on in Hc. }
  unfold covered in Hcov. apply orb_true_iff in Hcov as [Hcov|Hcov].
  - destruct (jm_get (key l) (held_modes held)) as [m|] eqn:Hm; [|done].
    apply held_modes_get in Hm. apply (Hno _ o Hm Ho); [done|]. cbn.
    destruct m; [auto|]. apply bool_decide_eq_true in Hcov. destruct Em; [congruence|auto].
  - destruct (before_slash (key l)) as [whole|] eqn:Hb; [|done].
    apply bool_decide_eq_true, held_modes_get in Hcov.
    rewrite Ek in Hb. destruct (Hkeep o whole Ho Hb) as (w & Hw & Hk).
    apply (Hno _ w Hcov Hw); [by rewrite Hk|by left].
Qed.

(** ** Requests keep wholes *)

Lemma before_slash_free s t :
  slash_free s = true → before_slash (s +:+ t) =
    match before_slash t with Some w => Some (s +:+ w) | None => None end.
Proof.
  induction s as [|c s IH]; cbn; [by destruct (before_slash t)|].
  unfold slash_free. cbn. intros [Hc Hs]%andb_true_iff.
  unfold no_slash in Hc. apply negb_true_iff, bool_decide_eq_false in Hc.
  rewrite decide_False by done. rewrite IH by done. by destruct (before_slash t).
Qed.

Lemma before_slash_none s : slash_free s = true → before_slash s = None.
Proof. intros H. rewrite <-(str_app_nil s), before_slash_free by done. done. Qed.

(** A lock whose key is a part of nothing. *)
Definition whole_lock (l : LaneLock) : Prop := before_slash (key l) = None.

Lemma keeps_wholes_app xs ys : keeps_wholes xs → keeps_wholes ys → keeps_wholes (xs ++ ys).
Proof.
  intros Hx Hy l whole [Hl|Hl]%elem_of_app Hw.
  - destruct (Hx l whole Hl Hw) as (w & ? & ?). exists w. split; [apply elem_of_app; by left|done].
  - destruct (Hy l whole Hl Hw) as (w & ? & ?). exists w. split; [apply elem_of_app; by right|done].
Qed.

Lemma keeps_wholes_whole xs : Forall whole_lock xs → keeps_wholes xs.
Proof. intros H l whole Hl Hw. rewrite Forall_forall in H. specialize (H l Hl). congruence. Qed.

Lemma keeps_wholes_part m m' k part :
  before_slash k = None → before_slash (k +:+ part) = Some k →
  keeps_wholes [MkLock k m; MkLock (k +:+ part) m'].
Proof.
  intros Hk Hp l whole Hl Hw. rewrite !elem_of_cons, elem_of_nil in Hl.
  destruct Hl as [->|[->|[]]]; cbn in Hw; [congruence|]. rewrite Hp in Hw. injection Hw as <-.
  exists (MkLock k m). split; [left|done].
Qed.

Lemma prefixed_free prefix id : slash_free prefix = true → slash_free id = true → slash_free (prefix +:+ id) = true.
Proof.
  intros Hp Hi. induction prefix as [|c s IH]; [done|]. unfold slash_free in *. cbn in *.
  apply andb_true_iff in Hp as [-> Hs]. by apply IH.
Qed.

Lemma resource_key_whole kind id : slash_free id = true → before_slash (resourceLaneKey kind id) = None.
Proof. intros. apply before_slash_none. by destruct kind; apply prefixed_free. Qed.

Lemma keeps_whole kind id m :
  slash_free id = true → keeps_wholes [MkLock (resourceLaneKey kind id) m].
Proof. intros. apply keeps_wholes_whole, Forall_singleton. by apply resource_key_whole. Qed.

Lemma resource_key_part kind id part :
  slash_free id = true →
  before_slash (resourceLaneKey kind id +:+ String "/" part) = Some (resourceLaneKey kind id).
Proof.
  intros H.
  assert (slash_free (resourceLaneKey kind id) = true) as Hf by (by destruct kind; apply prefixed_free).
  rewrite before_slash_free by done. change (before_slash (String "/" part)) with (Some ""). cbv iota beta. by rewrite str_app_nil.
Qed.

Lemma keeps_part kind id part m m' :
  slash_free id = true →
  keeps_wholes [MkLock (resourceLaneKey kind id) m; MkLock (resourceLaneKey kind id +:+ String "/" part) m'].
Proof.
  intros H. apply keeps_wholes_part; [by apply resource_key_whole|by apply resource_key_part].
Qed.

Lemma keeps_common k m : slash_free k = true → keeps_wholes [MkLock k m].
Proof. intros. apply keeps_wholes_whole, Forall_singleton. by apply before_slash_none. Qed.

Lemma keeps_nil : keeps_wholes [].
Proof. intros l w H. by apply elem_of_nil in H. Qed.

Lemma keeps_volumes ids :
  Forall (λ id, slash_free id = true) ids → keeps_wholes (volumeReferenceLocks ids).
Proof.
  intros H. apply keeps_wholes_whole, Forall_forall.
  intros l (v & -> & Hv)%list_elem_of_fmap. rewrite js_distinct_elem in Hv.
  rewrite Forall_forall in H. apply before_slash_none. by apply prefixed_free, H.
Qed.

(** The plans for one resource. *)
Lemma resource_power_wholes kind id action :
  slash_free id = true → keeps_wholes (resourcePowerLocks kind id action).
Proof.
  intros H. destruct kind; [by apply (keeps_part KApp id "lifecycle")
    |by apply (keeps_part KDatabase id "lifecycle")|]. cbn.
  unfold instancePowerLocks, instanceStartLocks.
  pose proof (keeps_part KInstance id "lifecycle" Shared Exclusive H) as Hl.
  case_decide; [|done]. apply (keeps_wholes_app (instanceLifecycleLocks id)); [done|by apply keeps_common].
Qed.

Lemma member_locks_wholes frozen changes m : keeps_wholes (member_locks frozen changes m).
Proof.
  destruct (member_cases m) as [(kind & id & Hm & Hid)|Hno].
  - rewrite (member_locks_names _ _ _ _ _ Hm). unfold member_held.
    destruct changes; [|destruct (frozen kind id); [apply keeps_nil|by apply keeps_whole, id_slash_free]].
    apply id_slash_free in Hid. destruct kind; [by apply (resource_power_wholes KApp)|by apply (keeps_whole KDatabase)
                   |by apply (resource_power_wholes KInstance)].
  - rewrite member_locks_nothing by done. apply keeps_nil.
Qed.

Lemma tailscale_wholes saved requested frozen :
  keeps_wholes (tailscaleMemberLocks saved requested frozen).
Proof.
  unfold tailscaleMemberLocks. induction (named_members saved requested) as [|m ms IH]; cbn.
  - apply keeps_nil.
  - apply keeps_wholes_app; [apply member_locks_wholes|done].
Qed.

(** ** Requests keep wholes *)

(** A plan joins plans of the kinds above. *)
Ltac whole_plan :=
  first [apply keeps_nil | by apply tailscale_wholes | by apply keeps_volumes
        | by apply keeps_common | by apply resource_power_wholes
        | by apply (keeps_whole KApp) | by apply (keeps_whole KDatabase) | by apply (keeps_whole KInstance)
        | by apply (keeps_part KApp) | by apply (keeps_part KDatabase) | by apply (keeps_part KInstance)
        | by apply (resource_power_wholes KApp _ "stop") | by apply (resource_power_wholes KInstance _ "stop")
        | apply keeps_wholes_app; whole_plan].

(** Every plan of a request for a resource, but an App's creation, keeps
    wholes, when the IDs it names have no slash. *)
Lemma named_plan_wholes resolveInstance resolveAppVolumes readStack frozen payload op kind field reference locks :
  names op = Some (kind, field) → op ≠ op_app_create →
  stringField payload field = Some reference →
  slash_free (match kind with KInstance => resolveInstance reference | _ => reference end) = true →
  Forall (λ v, slash_free v = true) (resolveAppVolumes reference ++ stringArray payload "volumeIds") →
  controlRequestLocks resolveInstance resolveAppVolumes readStack frozen payload op = Some locks →
  keeps_wholes locks.
Proof.
  intros Hn Hop Hf Hs [Hv1 Hv2]%Forall_app Hp.
  destruct op; try discriminate Hn; try (by destruct Hop); injection Hn as <- <-;
    unfold controlRequestLocks, relay_request_locks, database_request_locks, app_request_locks,
      instance_request_locks, with_id, with_instance, appWithVolumes, stack_locks in Hp;
    rewrite Hf in Hp; apply Some_inj in Hp; subst locks; cbv beta zeta.
  all: whole_plan.
Qed.

Lemma normalized_wholes locks : keeps_wholes locks → keeps_wholes (normalizeLocks locks).
Proof.
  intros H l whole Hl Hw.
  assert (∃ l', l' ∈ locks ∧ key l' = key l) as (l' & Hl' & Ek).
  { apply normalizeLocks_elem, requested_Some in Hl. destruct (mode l); [|destruct Hl as [_ Hl]];
      (eexists; split; [exact Hl|done]). }
  rewrite <-Ek in Hw. destruct (H l' whole Hl' Hw) as (w & Hin & <-).
  destruct (requested (key w) locks) as [m|] eqn:Hm.
  { exists (MkLock (key w) m). split; [by apply normalizeLocks_elem|done]. }
  pose proof (proj2 (requested_Some (key w) locks Exclusive)) as He.
  pose proof (proj2 (requested_Some (key w) locks Shared)) as Hs. rewrite Hm in He, Hs.
  destruct w as [k []]; [by discriminate He|]. discriminate Hs. split; [|done]. by intros ?%He.
Qed.

(** What an operation run inside another needs. *)
Lemma nested_runs definition parent held :
  runOperation definition (Some parent) = RunsNested held →
  held = op_held parent ∧ ro_precondition definition ≠ Some false ∧
  uncovered (normalizeLocks (ro_locks definition)) (op_held parent) = [].
Proof.
  cbn. unfold nested. destruct (uncovered _ _); [|done]. case_bool_decide; [done|]. by intros [= <-].
Qed.

Lemma connections_escape appId databaseId :
  slash_free databaseId = true →
  uncovered [exclusive (laneKeys.databaseConnections databaseId)] (databaseLocks databaseId) = [] ∧
  compatible (databaseLocks databaseId) (appCreateLocks appId [databaseId]) ∧
  ¬ compatible [exclusive (laneKeys.databaseConnections databaseId)]
      (appCreateLocks appId [databaseId]).
Proof.
  intros Hd.
  pose proof (resource_key_part KDatabase databaseId "connections" Hd) as E.
  pose proof (resource_key_whole KDatabase databaseId Hd) as E'. split; [|split].
  - unfold uncovered. cbn [List.filter]. rewrite (covered_part _ (exclusive (laneKeys.databaseConnections databaseId)) _ E); [done|].
    unfold held_modes. cbn [fold_left databaseLocks]. rewrite jm_get_set. by case_decide.
  - intros l o Hl Ho. unfold databaseLocks in Hl. apply list_elem_of_singleton in Hl as ->.
    unfold appCreateLocks, appReplaceLocks in Ho. cbn in Ho.
    rewrite !elem_of_cons, elem_of_nil in Ho. destruct Ho as [->|[->|[]]]; [done|].
    destruct (locks_conflict _ _) eqn:Hk; [|done]. apply locks_conflict_true in Hk as [Ek _].
    assert (before_slash (key (exclusive (laneKeys.database databaseId))) =
      before_slash (key (shared (laneKeys.databaseConnections databaseId)))) as Hb by by rewrite Ek.
    discriminate (eq_trans (eq_sym E') (eq_trans Hb E)).
  - apply (shared_clash (laneKeys.databaseConnections databaseId)); [left|].
    apply elem_of_app. right. left.
Qed.

(** An operation run inside another never overlaps work it excludes. It
    runs, under the locks its parent holds in the lanes, only when those cover
    its plan and it still applies; and then no request in the lanes beside the
    parent, other than an App's creation, holds anything its plan excludes,
    though the lanes never saw that plan. An App's creation is the exception:
    it takes its databases' connections without the databases, so holding a
    database wholly is taken to cover its connections and does not exclude
    the creation. *)
Theorem nested_never_overlaps options L i j a b la lb definition id label held
    resolveInstance resolveAppVolumes readStack frozen payload op kind field reference plan :
  reachable options L → i ≠ j → active L !! i = Some a → active L !! j = Some b →
  lk L a = Some la → lk L b = Some lb →
  runOperation definition (Some (MkRunning id label la)) = RunsNested held →
  names op = Some (kind, field) →
  stringField payload field = Some reference →
  slash_free (match kind with KInstance => resolveInstance reference | _ => reference end) = true →
  Forall (λ v, slash_free v = true) (resolveAppVolumes reference ++ stringArray payload "volumeIds") →
  controlRequestLocks resolveInstance resolveAppVolumes readStack frozen payload op = Some plan →
  lb = normalizeLocks plan →
  held = la ∧ ro_precondition definition ≠ Some false ∧
  (op ≠ op_app_create → compatible (normalizeLocks (ro_locks definition)) lb) ∧
  (∀ appId databaseId, slash_free databaseId = true →
     uncovered [exclusive (laneKeys.databaseConnections databaseId)] (databaseLocks databaseId) = [] ∧
     compatible (databaseLocks databaseId) (appCreateLocks appId [databaseId]) ∧
     ¬ compatible [exclusive (laneKeys.databaseConnections databaseId)]
         (appCreateLocks appId [databaseId])).
Proof.
  intros Hr Hij Hi Hj Ha Hb Hrun Hn Hf Hs Hv Hp ->.
  apply nested_runs in Hrun as (-> & Hpre & Hun). split; [done|]. split; [done|].
  split; [|intros; by apply connections_escape]. intros Hop.
  apply (covered_compatible _ la); [done| |].
  - apply normalized_wholes. by apply (named_plan_wholes _ _ _ _ _ _ _ _ _ _ Hn Hop Hf Hs Hv Hp).
  - exact (active_compatible _ _ _ _ _ _ _ _ Hr Hij Hi Hj Ha Hb).
Qed.

(** A restore under way, and a start of another server beside it. *)
Definition nested_lanes : Lanes :=
  default empty_lanes (run_events test_options
    [(quiet_world, EvAdmit (simple "restore" (instanceReplaceLocks "f00")) false);
     (quiet_world, EvAdmit (simple "start" (instancePowerLocks "f01" "stop")) false)] empty_lanes).

Example nested_never_overlaps_witness :
  runOperation (MkOperation "firewall" [exclusive (laneKeys.instanceLifecycle "f00")] None false false)
    (Some (MkRunning "op" "restore" (instanceReplaceLocks "f00")))
    = RunsNested (instanceReplaceLocks "f00") ∧
  compatible [exclusive (laneKeys.instanceLifecycle "f00")] (instancePowerLocks "f01" "stop").
Proof.
  split; [vm_compute; reflexivity|].
  assert (reachable test_options nested_lanes) as Hr.
  { eapply run_events_reachable; [apply reachable_empty|].
    instantiate (1 := [(quiet_world, EvAdmit (simple "restore" (instanceReplaceLocks "f00")) false);
      (quiet_world, EvAdmit (simple "start" (instancePowerLocks "f01" "stop")) false)]).
    vm_compute. reflexivity. }
  refine (proj1 (proj2 (proj2 (nested_never_overlaps test_options nested_lanes 0 1 0 1
    (instanceReplaceLocks "f00") (instancePowerLocks "f01" "stop")
    (MkOperation "firewall" [exclusive (laneKeys.instanceLifecycle "f00")] None false false)
    "op" "restore" (instanceReplaceLocks "f00") (λ r, r) (λ _, []) None (λ _ _, false)
    [("instanceId", JString "f01"); ("action", JString "stop")] op_instance_action KInstance
    "instanceId" "f01" (instancePowerLocks "f01" "stop")
    Hr _ _ _ _ _ _ _ _ _ _ _ _))) _);
    solve [discriminate | vm_compute; reflexivity | constructor].
Defined.
