(* ===== verification/Freezes.v ===== *)
(** * Resources frozen for their deletion

    Models [apps/relay/src/resource-freezes.ts] and the rows it keeps in
    [apps/relay/src/effect/state.ts] (the table [relay_resource_freezes]).

    A freeze is written to the table before it counts in memory; what quieting
    a resource is about to change is added in memory, then written, and only
    then changed. Any of those statements may fail, and an operation here takes
    which did: [Written] says how far [freezeResource], two statements, got,
    and the other writes land or fail. A statement of SQLite that fails leaves
    nothing behind. The Relay may stop between any two statements; it then
    reads the table again, so an operation that was cut short is one that got
    as far, followed by [EvRestart].

    The memory map is a finite map: only [reapply] depends on its order, and
    quieting one resource does not touch another's freeze. *)
From Stdlib Require Import Ascii.
From S2P Require Import Prelude Locks Lanes Protocol AppKeys Plans PlanFacts.

(** ** Kinds and what may still run *)

Inductive FrozenKind := FApp | FDatabase | FInstance | FVolume.

#[global] Instance FrozenKind_eq_dec : EqDecision FrozenKind.
Proof. solve_decision. Defined.

#[global] Instance FrozenKind_countable : Countable FrozenKind.
Proof.
  refine (inj_countable'
    (λ k, match k with FApp => 0 | FDatabase => 1 | FInstance => 2 | FVolume => 3 end)
    (λ n, match n with 0 => FApp | 1 => FDatabase | 2 => FInstance | _ => FVolume end) _).
  by intros [].
Defined.

Definition frozen_word (kind : FrozenKind) : string :=
  match kind with
  | FApp => "app" | FDatabase => "database" | FInstance => "instance" | FVolume => "volume"
  end.

(** The kind a word read from a key names, if any. *)
Definition frozen_kind (word : string) : option FrozenKind :=
  list_find (λ kind, frozen_word kind = word) [FApp; FDatabase; FInstance; FVolume]
    ≫= λ '(_, kind), Some kind.

Definition allowed (kind : FrozenKind) : list string :=
  match kind with
  | FApp => ["app.delete"] | FDatabase => ["database.delete"]
  | FInstance => ["instance.delete"] | FVolume => ["relay.volumes.delete"]
  end.

Definition allowedForEvery : list string := ["backup.create"; "resource.freeze"; "resource.unfreeze"].

Definition refusals (kind : FrozenKind) : string :=
  match kind with
  | FApp => "This App is being deleted" | FDatabase => "This database is being deleted"
  | FInstance => "This game server is being deleted" | FVolume => "This volume is being deleted"
  end.

Definition memberNouns (kind : FrozenKind) : string :=
  match kind with
  | FApp => "App" | FDatabase => "Database" | FInstance => "Game server" | FVolume => "Volume"
  end.

(** ** Rows and memory *)

Record RestartPolicy := MkPolicy { maximumRetryCount : Z; policy_name : string }.

#[global] Instance RestartPolicy_eq_dec : EqDecision RestartPolicy.
Proof. solve_decision. Defined.

(** [RelayResourceFreezeUndo], absent policies being none. *)
Abbreviation Undo := (gmap string RestartPolicy).

Record FreezeRecord := MkFreeze { fz_kind : FrozenKind; fz_id : string; fz_deletion : string }.

(** What the table's row and the memory's entry both hold. *)
Record Frozen := MkFrozenEntry { deletionId : string; undo : Undo }.

#[global] Instance Frozen_eq_dec : EqDecision Frozen.
Proof. solve_decision. Defined.

Abbreviation FreezeRows := (gmap (FrozenKind * string) Frozen).

Record ResourceFreezes := MkFreezes { rows : FreezeRows; frozen : gmap string Frozen }.

Definition key (kind : FrozenKind) (id : string) : string := frozen_word kind +:+ ":" +:+ id.

Definition row_key (row : FrozenKind * string) : string := key row.1 row.2.

(** ** The table's statements *)

(** Inserts unless a row is there, and answers who holds the freeze. *)
Definition freezeResource (freeze : FreezeRecord) (table : FreezeRows) : FreezeRows * string :=
  match table !! (fz_kind freeze, fz_id freeze) with
  | Some row => (table, deletionId row)
  | None =>
      (<[(fz_kind freeze, fz_id freeze) := MkFrozenEntry (fz_deletion freeze) ∅]> table,
       fz_deletion freeze)
  end.

Definition setResourceFreezeUndo (freeze : FreezeRecord) (u : Undo) (table : FreezeRows)
    : FreezeRows :=
  match table !! (fz_kind freeze, fz_id freeze) with
  | Some row =>
      if decide (deletionId row = fz_deletion freeze)
      then <[(fz_kind freeze, fz_id freeze) := MkFrozenEntry (deletionId row) u]> table
      else table
  | None => table
  end.

Definition unfreezeResource (freeze : FreezeRecord) (table : FreezeRows) : FreezeRows :=
  match table !! (fz_kind freeze, fz_id freeze) with
  | Some row =>
      if decide (deletionId row = fz_deletion freeze)
      then delete (fz_kind freeze, fz_id freeze) table else table
  | None => table
  end.

Definition forgetResourceFreeze (kind : FrozenKind) (id : string) (table : FreezeRows)
    : FreezeRows := delete (kind, id) table.

(** [listResourceFreezes] and the constructor: the map the rows come to. *)
Definition load (table : FreezeRows) : gmap string Frozen :=
  list_to_map ((λ '(row, f), (row_key row, f)) <$> map_to_list table).

(** ** The class *)

Definition has (st : ResourceFreezes) (kind : FrozenKind) (id : string) : bool :=
  bool_decide (is_Some (frozen st !! key kind id)).

(** What one [record] leaves: changes recorded first win. *)
Definition merge_undo (old changed : Undo) : Undo := old ∪ changed.

(** One [record] of [#apply]: the entry, then its row, whose write may fail.
    The operation holds the resource whole, so the entry it was given stays in
    the map. *)
Definition record (freeze : FreezeRecord) (st : ResourceFreezes) (recorded : Undo * bool)
    : ResourceFreezes :=
  match frozen st !! key (fz_kind freeze) (fz_id freeze) with
  | None => st
  | Some entry =>
      let u := merge_undo (undo entry) recorded.1 in
      MkFreezes (if recorded.2 then setResourceFreezeUndo freeze u (rows st) else rows st)
        (<[key (fz_kind freeze) (fz_id freeze) := MkFrozenEntry (deletionId entry) u]> (frozen st))
  end.

(** What a call may end in. *)
Inductive FreezeError := Refused (message : string) | StateFailed (operation : string) | QuietFailed.

(** What the callback that quiets a resource does: the changes it records, each
    with whether its write landed, and whether it ends in an error. *)
Record Quiet := MkQuiet { q_records : list (Undo * bool); q_fails : bool }.

Definition apply (freeze : FreezeRecord) (q : Quiet) (st : ResourceFreezes)
    : ResourceFreezes * Result FreezeError unit :=
  (fold_left (record freeze) (q_records q) st, if q_fails q then Throw QuietFailed else Ok tt).

Definition already_deleting : string := "Another deletion of it is already under way".

(** How far the two statements of [freezeResource] got. *)
Inductive Written := Answered | NotInserted | NotRead.

Definition freeze (f : FreezeRecord) (written : Written) (q : Quiet) (st : ResourceFreezes)
    : ResourceFreezes * Result FreezeError unit :=
  let '(table, holder) := freezeResource f (rows st) in
  match written with
  | NotInserted => (st, Throw (StateFailed "freeze_resource"))
  | NotRead => (MkFreezes table (frozen st), Throw (StateFailed "freeze_resource"))
  | Answered =>
      if decide (holder ≠ fz_deletion f) then (MkFreezes table (frozen st), Throw (Refused already_deleting))
      else
        let entry := default (MkFrozenEntry (fz_deletion f) ∅)
                       (frozen st !! key (fz_kind f) (fz_id f)) in
        apply f q (MkFreezes table (<[key (fz_kind f) (fz_id f) := entry]> (frozen st)))
  end.

(** The kind and ID a memory key is split into. *)
Fixpoint split_at (c : ascii) (s : string) : string * option string :=
  match s with
  | EmptyString => ("", None)
  | String d rest =>
      if decide (d = c) then ("", Some rest)
      else let '(before, after) := split_at c rest in (String d before, after)
  end.

(** One turn of [reapply]: a frozen resource quieted again. *)
Definition reapply_one (quiets : string → Quiet) (st : ResourceFreezes) (resource : string)
    (entry : Frozen) : ResourceFreezes * Result FreezeError unit :=
  match split_at ":"%char resource with
  | (word, Some rest) =>
      let id := (split_at ":"%char rest).1 in
      match frozen_kind word with
      | Some kind => apply (MkFreeze kind id (deletionId entry)) (quiets resource) st
      | None => (st, Ok tt)
      end
  | (_, None) => (st, Ok tt)
  end.

(** The loop ends at the first that throws. *)
Fixpoint reapply_loop (quiets : string → Quiet) (entries : list (string * Frozen)) (st : ResourceFreezes)
    : ResourceFreezes * Result FreezeError unit :=
  match entries with
  | [] => (st, Ok tt)
  | (resource, entry) :: entries =>
      match reapply_one quiets st resource entry with
      | (st, Ok _) => reapply_loop quiets entries st
      | (st, Throw e) => (st, Throw e)
      end
  end.

Definition reapply (quiets : string → Quiet) (st : ResourceFreezes) : ResourceFreezes * Result FreezeError unit :=
  reapply_loop quiets (map_to_list (frozen st)) st.

(** Answers what it had put back, if the deletion still held the resource;
    [restore] tells whether putting it back succeeded, and [deleted] whether
    the row's delete did. *)
Definition unfreeze (f : FreezeRecord) (restore : Undo → bool) (deleted : bool) (st : ResourceFreezes)
    : ResourceFreezes * option Undo :=
  match frozen st !! key (fz_kind f) (fz_id f) with
  | Some entry =>
      if decide (deletionId entry ≠ fz_deletion f) then (st, None)
      else if restore (undo entry) && deleted
      then (MkFreezes (unfreezeResource f (rows st))
              (delete (key (fz_kind f) (fz_id f)) (frozen st)), Some (undo entry))
      else (st, Some (undo entry))
  | None => (st, None)
  end.

Definition forget (kind : FrozenKind) (id : string) (deleted : bool) (st : ResourceFreezes) : ResourceFreezes :=
  if deleted then MkFreezes (forgetResourceFreeze kind id (rows st)) (delete (key kind id) (frozen st)) else st.

(** A lock's resource, the key up to its first slash. *)
Definition lock_resource (lock : LaneLock) : string := (split_at "/"%char (Locks.key lock)).1.

Definition tailscale_label (label : string) : bool :=
  bool_decide (is_Some (strip_prefix "relay.tailscale.stack." label)).

(** Why one lock is in the way, when its resource is frozen. The map's keys
    all start with a kind's word, so the last case is never met. *)
Definition lock_refusal (st : ResourceFreezes) (label : string) (lock : LaneLock)
    : option (option string) :=
  let resource := lock_resource lock in
  match frozen st !! resource with
  | None => None
  | Some _ =>
      let '(word, id) := split_at ":"%char resource in
      match frozen_kind word with
      | Some kind =>
          if bool_decide (label ∈ allowed kind) then None
          else if tailscale_label label then
            Some (Some (memberNouns kind +:+ " " +:+ str_take 8 (default "" id) +:+
                        " on this network is being deleted"))
          else Some (Some (refusals kind))
      | None => Some None
      end
  end.

Fixpoint refusal_loop (st : ResourceFreezes) (label : string) (locks : list LaneLock)
    : option string :=
  match locks with
  | [] => None
  | lock :: rest =>
      match lock_refusal st label lock with
      | Some answer => answer
      | None => refusal_loop st label rest
      end
  end.

Definition refusal (st : ResourceFreezes) (label : string) (locks : list LaneLock)
    : option string :=
  if bool_decide (frozen st = ∅) || bool_decide (label ∈ allowedForEvery) then None
  else refusal_loop st label locks.

(** ** What happens to the freezes *)

(** The Relay starting again: its memory read from the table. *)
Definition restart (st : ResourceFreezes) : ResourceFreezes :=
  MkFreezes (rows st) (load (rows st)).

(** An operation that ran, with what of it failed, or the Relay starting. *)
Inductive FreezeEvent :=
  | EvFreeze (f : FreezeRecord) (written : Written) (q : Quiet)
  | EvUnfreeze (f : FreezeRecord) (restored deleted : bool)
  | EvForget (kind : FrozenKind) (id : string) (deleted : bool)
  | EvRestart (quiets : string → Quiet).

Definition freeze_event (st : ResourceFreezes) (e : FreezeEvent) : ResourceFreezes :=
  match e with
  | EvFreeze f written q => (freeze f written q st).1
  | EvUnfreeze f restored deleted => (unfreeze f (λ _, restored) deleted st).1
  | EvForget kind id deleted => forget kind id deleted st
  | EvRestart quiets => (reapply quiets (restart st)).1
  end.

Definition freeze_run (es : list FreezeEvent) (st : ResourceFreezes) : ResourceFreezes :=
  fold_left freeze_event es st.

(** The event lets the deletion's resource go. *)
Definition lets_go (kind : FrozenKind) (id deletion : string) (e : FreezeEvent) : Prop :=
  match e with
  | EvUnfreeze f true true => f = MkFreeze kind id deletion
  | EvForget k i true => k = kind ∧ i = id
  | _ => False
  end.

(** Every write of the event lands. *)
Definition all_land (q : Quiet) : Prop := Forall (λ recorded, recorded.2 = true) (q_records q).

Definition writes_land (e : FreezeEvent) : Prop :=
  match e with
  | EvFreeze _ NotRead _ => False
  | EvFreeze _ _ q => all_land q
  | EvRestart quiets => ∀ resource, all_land (quiets resource)
  | _ => True
  end.

(** Every ID of the table is a resource's. *)
Definition table_ok (table : FreezeRows) : Prop :=
  ∀ kind id, is_Some (table !! (kind, id)) → resourceIdPattern id = true.

Definition event_ok (e : FreezeEvent) : Prop :=
  match e with
  | EvFreeze f _ _ => resourceIdPattern (fz_id f) = true
  | _ => True
  end.

(** ** Keys *)

#[local] Instance row_key_inj : Inj (=) (=) row_key.
Proof.
  intros [k i] [k' j]. unfold row_key, key. simpl.
  destruct k, k'; simpl; intros E; try discriminate E; by simplify_eq.
Qed.

Lemma load_kmap table : load table = kmap row_key table.
Proof. unfold load, kmap. f_equal. apply list_fmap_ext. by intros ? [row f] _. Qed.

Lemma load_lookup table kind id : load table !! key kind id = table !! (kind, id).
Proof. rewrite load_kmap. apply (lookup_kmap row_key table (kind, id)). Qed.

Lemma load_insert table kind id entry :
  load (<[(kind, id) := entry]> table) = <[key kind id := entry]> (load table).
Proof. rewrite !load_kmap. apply (kmap_insert row_key table (kind, id)). Qed.

Lemma load_delete table kind id : load (delete (kind, id) table) = delete (key kind id) (load table).
Proof. rewrite !load_kmap. apply (kmap_delete row_key table (kind, id)). Qed.

Lemma load_Some table s entry :
  load table !! s = Some entry → ∃ kind id, s = key kind id ∧ table !! (kind, id) = Some entry.
Proof. rewrite load_kmap. intros ([k i] & -> & H)%lookup_kmap_Some; [|apply _]. by exists k, i. Qed.

Lemma split_at_app c s t :
  str_all (λ d, negb (bool_decide (d = c))) s = true →
  split_at c (s +:+ String c t) = (s, Some t).
Proof.
  induction s as [|d s IH]; simpl; [by rewrite decide_True|].
  intros [Hd Hs]%andb_true_iff. apply negb_true_iff, bool_decide_eq_false in Hd.
  rewrite decide_False by done. by rewrite IH.
Qed.

Lemma split_at_none c s :
  str_all (λ d, negb (bool_decide (d = c))) s = true → split_at c s = (s, None).
Proof.
  induction s as [|d s IH]; simpl; [done|]. intros [Hd Hs]%andb_true_iff.
  apply negb_true_iff, bool_decide_eq_false in Hd. rewrite decide_False by done. by rewrite IH.
Qed.

Lemma split_key kind id : split_at ":"%char (key kind id) = (frozen_word kind, Some id).
Proof. unfold key. apply (split_at_app ":"%char (frozen_word kind) id). by destruct kind. Qed.

Lemma frozen_kind_word kind : frozen_kind (frozen_word kind) = Some kind.
Proof. by destruct kind. Qed.

(** ** The table and the memory *)

Definition of_rows (table : FreezeRows) : ResourceFreezes := MkFreezes table (load table).

Abbreviation row_of f := (fz_kind f, fz_id f).
Abbreviation key_of f := (key (fz_kind f) (fz_id f)).

(** The memory never says less than the table about a resource it has as
    frozen, and a row it does not have says nothing of it yet: its freeze was
    inserted, and never answered. *)
Record synced (st : ResourceFreezes) : Prop := {
  sy_ids : table_ok (rows st);
  sy_memory : ∀ s entry, frozen st !! s = Some entry → ∃ kind id u,
    s = key kind id ∧ rows st !! (kind, id) = Some (MkFrozenEntry (deletionId entry) u) ∧ u ⊆ undo entry;
  sy_rows : ∀ kind id d u, rows st !! (kind, id) = Some (MkFrozenEntry d u) → frozen st !! key kind id = None → u = ∅;
}.

(** The memory is what the table says. *)
Definition agree (st : ResourceFreezes) : Prop := ∀ kind id, frozen st !! key kind id = rows st !! (kind, id).

Lemma has_frozen st kind id : has st kind id = true ↔ is_Some (frozen st !! key kind id).
Proof. unfold has. by rewrite bool_decide_eq_true. Qed.

Lemma has_of_rows table kind id : has (of_rows table) kind id = true ↔ is_Some (table !! (kind, id)).
Proof. rewrite has_frozen. cbn [frozen of_rows]. by rewrite load_lookup. Qed.

Lemma agree_of_rows table : agree (of_rows table).
Proof. intros kind id. apply load_lookup. Qed.

Lemma synced_of_rows table : table_ok table → synced (of_rows table).
Proof.
  intros Hok. split; [done| |].
  - intros s [d u] (kind & id & -> & Hr)%load_Some. by exists kind, id, u.
  - intros kind id d u Hr. cbn in *. by rewrite load_lookup, Hr.
Qed.

(** A memory that agrees with its table is the one a restart reads. *)
Lemma agree_restart st : synced st → agree st → restart st = st.
Proof.
  intros Hs Ha. destruct st as [r m]. unfold restart. cbn. f_equal. apply map_eq. intros s.
  destruct (m !! s) as [entry|] eqn:Em.
  - destruct (sy_memory _ Hs s entry Em) as (kind & id & u & -> & _). rewrite load_lookup, <-Em. symmetry. apply (Ha kind id).
  - destruct (load r !! s) as [entry|] eqn:El; [|done]. apply load_Some in El as (kind & id & -> & Hr).
    specialize (Ha kind id). cbn in Ha. congruence.
Qed.

Lemma synced_at st kind id entry :
  synced st → frozen st !! key kind id = Some entry →
  ∃ u, rows st !! (kind, id) = Some (MkFrozenEntry (deletionId entry) u) ∧ u ⊆ undo entry.
Proof.
  intros Hs Hm. destruct (sy_memory _ Hs _ _ Hm) as (k & i & u & E & Hr & Hu).
  apply (inj row_key (kind, id) (k, i)) in E. simplify_eq. by exists u.
Qed.

(** One resource's entry and row change together, the memory's first. *)
Lemma synced_put st kind id d u v :
  synced st → resourceIdPattern id = true → u ⊆ v →
  synced (MkFreezes (<[(kind, id) := MkFrozenEntry d u]> (rows st)) (<[key kind id := MkFrozenEntry d v]> (frozen st))).
Proof.
  intros Hs Hid Huv. split; cbn.
  - intros k i [e [[[= <- <-] _]|[_ H]]%lookup_insert_Some]; [done|]. apply (sy_ids _ Hs k). by rewrite H.
  - intros s entry [[<- <-]|[Hne Hm]]%lookup_insert_Some.
    + exists kind, id, u. by rewrite lookup_insert_eq.
    + destruct (sy_memory _ Hs s entry Hm) as (k & i & w & -> & Hr & Hw). exists k, i, w.
      rewrite lookup_insert_ne; [done|]. by intros [= -> ->].
  - intros k i d' w [[[= -> ->] _]|[Hne Hr]]%lookup_insert_Some; [by rewrite lookup_insert_eq|].
    rewrite lookup_insert_ne; [by apply (sy_rows _ Hs k i d' w)|]. by intros E%(inj row_key (kind, id) (k, i)).
Qed.

Lemma synced_delete st kind id :
  synced st → synced (MkFreezes (delete (kind, id) (rows st)) (delete (key kind id) (frozen st))).
Proof.
  intros Hs. split; cbn.
  - intros k i [e [_ H]%lookup_delete_Some]. apply (sy_ids _ Hs k). by rewrite H.
  - intros s entry [Hne Hm]%lookup_delete_Some. destruct (sy_memory _ Hs s entry Hm) as (k & i & w & -> & Hr & Hw). exists k, i, w.
    rewrite lookup_delete_ne; [done|]. by intros [= -> ->].
  - intros k i d' w [Hne Hr]%lookup_delete_Some. rewrite lookup_delete_ne; [by apply (sy_rows _ Hs k i d' w)|].
    by intros E%(inj row_key (kind, id) (k, i)).
Qed.

(** ** Quieting *)

(** A resource's freeze only grows: same deletion, and what was recorded. *)
Definition keeps (row : FrozenKind * string) (table table' : FreezeRows) : Prop :=
  ∀ d u, table !! row = Some (MkFrozenEntry d u) →
    ∃ u', table' !! row = Some (MkFrozenEntry d u') ∧ u ⊆ u'.

Lemma keeps_refl row table : keeps row table table.
Proof. intros d u H. eauto. Qed.

Lemma keeps_trans row t1 t2 t3 : keeps row t1 t2 → keeps row t2 t3 → keeps row t1 t3.
Proof.
  intros H12 H23 d u H. destruct (H12 d u H) as (u' & H' & Hu).
  destruct (H23 d u' H') as (u'' & H'' & Hu'). exists u''. split; [done|]. by transitivity u'.
Qed.

Lemma frozen_keeps_put row at_row d u table :
  (∀ d' v, table !! at_row = Some (MkFrozenEntry d' v) → d' = d ∧ v ⊆ u) →
  keeps row table (<[at_row := MkFrozenEntry d u]> table).
Proof.
  intros H d' v Hr. destruct (decide (row = at_row)) as [->|Hne].
  - rewrite lookup_insert_eq. destruct (H d' v Hr) as [-> Hv]. eauto.
  - rewrite lookup_insert_ne by done. eauto.
Qed.

Lemma keeps_delete row row' table : row ≠ row' → keeps row table (delete row' table).
Proof. intros Hne d u Hr. exists u. by rewrite lookup_delete_ne. Qed.

(** Nothing frozen is let go, in the table or in memory. *)
Definition grows (st st' : ResourceFreezes) : Prop :=
  (∀ row, keeps row (rows st) (rows st')) ∧ ∀ kind id, has st kind id = true → has st' kind id = true.

Lemma grows_refl st : grows st st.
Proof. split; [intros row; apply keeps_refl|done]. Qed.

Lemma grows_trans st1 st2 st3 : grows st1 st2 → grows st2 st3 → grows st1 st3.
Proof. intros [K1 H1] [K2 H2]. split; [intros row; by apply keeps_trans with (rows st2)|auto]. Qed.

(** The deletion holds the resource, in the table and in memory. *)
Definition holds (f : FreezeRecord) (st : ResourceFreezes) : Prop :=
  ∃ u, rows st !! row_of f = Some (MkFrozenEntry (fz_deletion f) u) ∧ has st (fz_kind f) (fz_id f) = true.

Lemma frozen_holds_grows f st st' : holds f st → grows st st' → holds f st'.
Proof. intros (u & Hr & Hm) [K H]. destruct (K _ _ _ Hr) as (u' & Hr' & _). exists u'. eauto. Qed.

(** The row has every change of which the write landed. *)
Definition written_down (f : FreezeRecord) (records : list (Undo * bool)) (st : ResourceFreezes) : Prop :=
  ∀ c, (c, true) ∈ records → ∃ u, rows st !! row_of f = Some (MkFrozenEntry (fz_deletion f) u) ∧ dom c ⊆ dom u.

Lemma written_down_grows f records st st' : written_down f records st → grows st st' → written_down f records st'.
Proof.
  intros H [K _] c Hc. destruct (H c Hc) as (u & Hr & Hd). destruct (K _ _ _ Hr) as (u' & Hr' & Hu).
  exists u'. split; [done|]. transitivity (dom u); [done|]. by apply subseteq_dom.
Qed.

(** What quieting a resource leaves. *)
Record quieted (f : FreezeRecord) (records : list (Undo * bool)) (st st' : ResourceFreezes) : Prop := {
  qu_synced : synced st';
  qu_grows : grows st st';
  qu_written : written_down f records st';
  qu_agree : Forall (λ r, r.2 = true) records → agree st → agree st';
}.

Lemma record_put f st c landed u entry :
  rows st !! row_of f = Some (MkFrozenEntry (fz_deletion f) u) → frozen st !! key_of f = Some entry →
  record f st (c, landed) =
  MkFreezes (<[row_of f := MkFrozenEntry (fz_deletion f) (if landed then undo entry ∪ c else u)]> (rows st))
    (<[key_of f := MkFrozenEntry (deletionId entry) (undo entry ∪ c)]> (frozen st)).
Proof.
  intros Hr Hm. unfold record, setResourceFreezeUndo, merge_undo. rewrite Hm, Hr. cbn [fst snd deletionId].
  rewrite decide_True by done. destruct landed; [done|]. by rewrite (insert_id (rows st)).
Qed.

Lemma record_quieted f st r : synced st → holds f st → quieted f [r] st (record f st r).
Proof.
  intros Hs (u & Hr & [entry Hm]%has_frozen). destruct r as [c landed]. rewrite (record_put f st c landed u entry) by done.
  destruct (synced_at _ _ _ _ Hs Hm) as (u' & Hr' & Hu). rewrite Hr in Hr'. injection Hr' as Hd <-. rewrite <-Hd.
  assert (undo entry ⊆ undo entry ∪ c) as Hgrow by apply map_union_subseteq_l.
  split; cbn [rows frozen].
  - apply synced_put; [done| |]; [apply (sy_ids _ Hs (fz_kind f)); by rewrite Hr|]. destruct landed; [done|by transitivity (undo entry)].
  - split; cbn [rows].
    + intros row. apply frozen_keeps_put. rewrite Hr. intros d' v [= <- <-]. split; [done|]. destruct landed; [by transitivity (undo entry)|done].
    + intros k i Hk%has_frozen. apply has_frozen. cbn. destruct (decide (key_of f = key k i)) as [->|Hne]; [rewrite lookup_insert_eq; eauto|].
      by rewrite lookup_insert_ne.
  - intros c' [= -> <-]%list_elem_of_singleton. eexists. cbn. rewrite lookup_insert_eq. split; [done|].
    rewrite dom_union_L. set_solver.
  - intros [Hl _]%Forall_cons Ha k i. cbn in Hl. subst landed. cbn. destruct (decide (row_of f = (k, i))) as [[= <- <-]|Hne].
    + by rewrite !lookup_insert_eq.
    + rewrite !lookup_insert_ne; [apply Ha|done|]. by intros E%(inj row_key (row_of f) (k, i)).
Qed.

Lemma quieted_cons f r records st st' st'' :
  quieted f [r] st st' → quieted f records st' st'' → quieted f (r :: records) st st''.
Proof.
  intros [S1 G1 W1 A1] [S2 G2 W2 A2]. split; [done|by apply grows_trans with st'| |].
  - intros c [E|Hc]%elem_of_cons; [|by apply W2]. apply (written_down_grows f [r] st'); [done..|]. rewrite E. left.
  - intros [Hr Hl]%Forall_cons Ha. apply A2; [done|]. apply A1; [by constructor|done].
Qed.

Lemma records_quieted f records : ∀ st, synced st → holds f st → quieted f records st (fold_left (record f) records st).
Proof.
  induction records as [|r records IH]; intros st Hs Hh; cbn [fold_left].
  - split; [done|apply grows_refl| |done]. intros c Hc. by apply elem_of_nil in Hc.
  - pose proof (record_quieted f st r Hs Hh) as H. apply (quieted_cons f r records st (record f st r)); [done|].
    apply IH; [apply H|]. eapply frozen_holds_grows; [done|apply H].
Qed.

Lemma id_split id : resourceIdPattern id = true → (split_at ":"%char id).1 = id.
Proof. intros H. rewrite split_at_none; [done|]. apply id_no_sep; auto. Qed.

(** Nothing is let go, and the memory still agrees if every write landed. *)
Definition steady (clean : Prop) (st st' : ResourceFreezes) : Prop :=
  synced st' ∧ grows st st' ∧ (clean → agree st → agree st').

Lemma steady_refl clean st : synced st → steady clean st st.
Proof. intros Hs. split; [done|]. split; [apply grows_refl|done]. Qed.

Lemma reapply_one_steady quiets st kind id entry :
  synced st → holds (MkFreeze kind id (deletionId entry)) st →
  steady (∀ resource, all_land (quiets resource)) st (reapply_one quiets st (key kind id) entry).1.
Proof.
  intros Hs Hh. assert (resourceIdPattern id = true) as Hid.
  { destruct Hh as (u & Hr & _). apply (sy_ids _ Hs kind). cbn in Hr. by rewrite Hr. }
  unfold reapply_one. rewrite split_key, frozen_kind_word, id_split by done. cbn [apply fst].
  destruct (records_quieted _ (q_records (quiets (key kind id))) st Hs Hh) as [S G _ A].
  split; [done|]. split; [done|]. intros Hl. apply A, Hl.
Qed.

Lemma reapply_loop_steady quiets entries : ∀ st, synced st →
  (∀ s entry, (s, entry) ∈ entries → ∃ kind id, s = key kind id ∧ holds (MkFreeze kind id (deletionId entry)) st) →
  steady (∀ resource, all_land (quiets resource)) st (reapply_loop quiets entries st).1.
Proof.
  induction entries as [|[s entry] entries IH]; intros st Hs Hin; [by apply steady_refl|]. cbn [reapply_loop].
  destruct (Hin s entry) as (kind & id & -> & Hh); [left|]. pose proof (reapply_one_steady quiets st kind id entry Hs Hh) as (S1 & G1 & A1).
  destruct (reapply_one quiets st (key kind id) entry) as [st1 [|]]; cbn [fst] in *; [|done].
  destruct (IH st1 S1) as (S2 & G2 & A2).
  - intros s' e' He. destruct (Hin s' e') as (k & i & -> & Hh'); [by right|]. exists k, i. split; [done|]. by apply frozen_holds_grows with st.
  - split; [done|]. split; [by apply grows_trans with st1|auto].
Qed.

Lemma reapply_steady quiets st :
  synced st → steady (∀ resource, all_land (quiets resource)) st (reapply quiets st).1.
Proof.
  intros Hs. apply reapply_loop_steady; [done|]. intros s entry Hm%elem_of_map_to_list.
  destruct (sy_memory _ Hs s entry Hm) as (kind & id & u & -> & Hr & _). exists kind, id. split; [done|].
  exists u. split; [done|]. apply has_frozen. eauto.
Qed.

(** ** Every event *)

(** What an event leaves: every freeze it does not let go. *)
Record event_leaves (e : FreezeEvent) (st st' : ResourceFreezes) : Prop := {
  le_synced : synced st';
  le_agree : writes_land e → agree st → agree st';
  le_rows : ∀ kind id d u, rows st !! (kind, id) = Some (MkFrozenEntry d u) → ¬ lets_go kind id d e →
    (∃ u', rows st' !! (kind, id) = Some (MkFrozenEntry d u') ∧ u ⊆ u') ∧
    (has st kind id = true → has st' kind id = true);
}.

Lemma steady_leaves e clean st st' : (writes_land e → clean) → steady clean st st' → event_leaves e st st'.
Proof. intros Hc (S & [K H] & A). split; [done|auto|]. intros kind id d u Hr _. split; [by apply K|apply H]. Qed.

Lemma restart_steady st : synced st → steady True st (restart st).
Proof.
  intros Hs. split; [apply synced_of_rows, Hs|]. split; [|intros _ _; apply agree_of_rows]. split; [intros row; apply keeps_refl|].
  intros kind id [entry Hm]%has_frozen. apply has_of_rows. destruct (synced_at _ _ _ _ Hs Hm) as (u & Hr & _). by rewrite Hr.
Qed.

Lemma deleted_leaves e st kind id :
  synced st → (∀ d u, rows st !! (kind, id) = Some (MkFrozenEntry d u) → lets_go kind id d e) →
  event_leaves e st (MkFreezes (delete (kind, id) (rows st)) (delete (key kind id) (frozen st))).
Proof.
  intros Hs Hgo. split; [by apply synced_delete| |].
  - intros _ Ha k i. cbn. destruct (decide ((kind, id) = (k, i))) as [[= <- <-]|Hne]; [by rewrite !lookup_delete_eq|].
    rewrite !lookup_delete_ne; [apply Ha|done|]. by intros E%(inj row_key (kind, id) (k, i)).
  - intros k i d u Hr Hno. assert ((kind, id) ≠ (k, i)) as Hne by (intros [= <- <-]; destruct Hno; by apply (Hgo d u)).
    split; [exists u; cbn; by rewrite lookup_delete_ne|]. rewrite !has_frozen. cbn. rewrite lookup_delete_ne; [done|].
    by intros E%(inj row_key (kind, id) (k, i)).
Qed.

(** The row is there before the memory has it. *)
Lemma inserted_steady f st :
  resourceIdPattern (fz_id f) = true → synced st → steady False st (MkFreezes (freezeResource f (rows st)).1 (frozen st)).
Proof.
  intros Hid Hs. unfold freezeResource. destruct (rows st !! row_of f) as [row|] eqn:Hr; cbn [fst].
  - destruct st. by apply steady_refl.
  - split; [|split; [|done]].
    + split; cbn.
      * intros k i [e [[[= <- <-] _]|[_ H]]%lookup_insert_Some]; [done|]. apply (sy_ids _ Hs k). by rewrite H.
      * intros s entry Hm. destruct (sy_memory _ Hs s entry Hm) as (k & i & w & -> & Hr' & Hw). exists k, i, w.
        rewrite lookup_insert_ne; [done|]. intros [= <- <-]. congruence.
      * intros k i d' w [[_ [= _ <-]]|[_ Hr']]%lookup_insert_Some; [done|]. by apply (sy_rows _ Hs k i d' w).
    + split; [|done]. intros row. cbn. apply frozen_keeps_put. by rewrite Hr.
Qed.

(** What [freeze] starts quieting from, once its deletion has the row. *)
Lemma taken_steady f st :
  resourceIdPattern (fz_id f) = true → synced st → (freezeResource f (rows st)).2 = fz_deletion f →
  let entry := default (MkFrozenEntry (fz_deletion f) ∅) (frozen st !! key_of f) in
  let st' := MkFreezes (freezeResource f (rows st)).1 (<[key_of f := entry]> (frozen st)) in
  steady True st st' ∧ holds f st'.
Proof.
  intros Hid Hs Hholder entry st'.
  assert (∃ u, (freezeResource f (rows st)).1 = <[row_of f := MkFrozenEntry (fz_deletion f) u]> (rows st) ∧
    deletionId entry = fz_deletion f ∧ u ⊆ undo entry ∧ (agree st → u = undo entry) ∧
    ∀ d' v, rows st !! row_of f = Some (MkFrozenEntry d' v) → d' = fz_deletion f ∧ v ⊆ u) as (u & Et & Ed & Hu & Ha & Hk).
  { unfold entry. unfold freezeResource in *. destruct (rows st !! row_of f) as [[d u]|] eqn:Hr; cbn [fst snd deletionId] in *.
    - subst d. exists u. rewrite insert_id by done. split; [done|]. destruct (frozen st !! key_of f) as [en|] eqn:Hm; cbn.
      + destruct (synced_at _ _ _ _ Hs Hm) as (u' & Hr' & Hu). rewrite Hr in Hr'. injection Hr' as Hd <-.
        split; [done|]. split; [done|]. split; [|by intros d' v [= <- <-]].
        intros Ha. specialize (Ha (fz_kind f) (fz_id f)). rewrite Hm, Hr in Ha. by injection Ha as ->.
      + rewrite (sy_rows _ Hs _ _ _ _ Hr Hm). repeat split; try done; by simplify_eq.
    - exists ∅. split; [done|]. destruct (frozen st !! key_of f) as [en|] eqn:Hm; cbn; [|done].
      destruct (synced_at _ _ _ _ Hs Hm) as (u' & Hr' & _). congruence. }
  assert (entry = MkFrozenEntry (fz_deletion f) (undo entry)) as Ee by (rewrite <-Ed; by destruct entry).
  unfold st'. rewrite Et. split.
  - split; [rewrite Ee; by apply synced_put|]. split.
    + split; cbn; [intros row; by apply frozen_keeps_put|]. intros k i. rewrite !has_frozen. cbn.
      destruct (decide (key_of f = key k i)) as [->|Hne]; [rewrite lookup_insert_eq; eauto|by rewrite lookup_insert_ne].
    + intros _ Hagree k i. cbn. destruct (decide (row_of f = (k, i))) as [[= <- <-]|Hne].
      * rewrite !lookup_insert_eq, Ee. cbn. by rewrite Ha.
      * rewrite !lookup_insert_ne; [apply Hagree|done|]. by intros E%(inj row_key (row_of f) (k, i)).
  - exists u. cbn. rewrite lookup_insert_eq. split; [done|]. apply has_frozen. cbn. rewrite lookup_insert_eq. eauto.
Qed.

Lemma steady_event e clean st st' st'' : (writes_land e → clean) → steady True st st' → steady clean st' st'' → event_leaves e st st''.
Proof.
  intros Hc (_ & G1 & A1) (S2 & G2 & A2). apply (steady_leaves e (writes_land e)); [done|]. split; [done|].
  split; [by apply grows_trans with st'|auto].
Qed.

Lemma freeze_leaves f written q st :
  event_ok (EvFreeze f written q) → synced st → event_leaves (EvFreeze f written q) st (freeze f written q st).1.
Proof.
  intros Hid Hs. cbn in Hid. pose proof (inserted_steady f st Hid Hs) as Hins. pose proof (taken_steady f st Hid Hs) as Htake. unfold freeze.
  destruct (freezeResource f (rows st)) as [table holder] eqn:E. cbn [fst snd] in *. destruct written; cbn [fst].
  - case_decide as Hd; cbn [fst].
    + assert (table = rows st) as ->.
      { unfold freezeResource in E. destruct (rows st !! row_of f); [by injection E|]. by injection E as <- <-. }
      destruct st. apply (steady_leaves _ True); [done|]. by apply steady_refl.
    + destruct Htake as [H1 Hh]; [by destruct (decide (holder = fz_deletion f))|]. cbn in H1.
      destruct (records_quieted f (q_records q) _ (proj1 H1) Hh) as [S G _ A].
      eapply (steady_event _ (all_land q)); [done|exact H1|]. split; [exact S|]. split; [exact G|exact A].
  - apply (steady_leaves _ True); [done|]. by apply steady_refl.
  - by apply (steady_leaves _ False).
Qed.

Lemma unfreeze_leaves f restored deleted st :
  synced st → event_leaves (EvUnfreeze f restored deleted) st (unfreeze f (λ _, restored) deleted st).1.
Proof.
  intros Hs. unfold unfreeze. assert (event_leaves (EvUnfreeze f restored deleted) st st) as Hsame
    by (apply (steady_leaves _ True); [done|by apply steady_refl]).
  destruct (frozen st !! key_of f) as [entry|] eqn:Hm; [|done]. case_decide as Hd; [done|].
  destruct restored, deleted; cbn [andb fst]; try done.
  destruct (synced_at _ _ _ _ Hs Hm) as (u & Hr & _). unfold unfreezeResource. rewrite Hr. cbn [deletionId].
  rewrite decide_True by done. apply deleted_leaves; [done|]. rewrite Hr. intros d v [= <- <-]. cbn. destruct f. cbn in *. by subst.
Qed.

Lemma event_leaves_all e st : event_ok e → synced st → event_leaves e st (freeze_event st e).
Proof.
  intros He Hs. destruct e as [f written q|f restored deleted|kind id deleted|quiets]; cbn [freeze_event].
  - by apply freeze_leaves.
  - by apply unfreeze_leaves.
  - unfold forget. destruct deleted; [by apply deleted_leaves|]. apply (steady_leaves _ True); [done|by apply steady_refl].
  - pose proof (restart_steady st Hs) as H. eapply (steady_event _ (∀ resource, all_land (quiets resource))); [done|exact H|].
    apply reapply_steady, H.
Qed.

Lemma run_leaves es : ∀ st, Forall event_ok es → synced st →
  synced (freeze_run es st) ∧ (Forall writes_land es → agree st → agree (freeze_run es st)) ∧
  ∀ kind id d u, rows st !! (kind, id) = Some (MkFrozenEntry d u) → Forall (λ e, ¬ lets_go kind id d e) es →
    (∃ u', rows (freeze_run es st) !! (kind, id) = Some (MkFrozenEntry d u') ∧ u ⊆ u') ∧
    (has st kind id = true → has (freeze_run es st) kind id = true).
Proof.
  induction es as [|e es IH]; intros st He Hs.
  - split; [done|]. split; [done|]. intros; eauto.
  - apply Forall_cons in He as [He Hes]. destruct (event_leaves_all e st He Hs) as [S1 A1 R1].
    destruct (IH _ Hes S1) as (S2 & A2 & R2). split; [exact S2|]. split.
    + intros [Hl Hls]%Forall_cons Ha. by apply A2; [|apply A1].
    + intros kind id d u Hr [Hno Hnos]%Forall_cons. destruct (R1 kind id d u Hr Hno) as [(u1 & Hr1 & Hu1) H1].
      destruct (R2 kind id d u1 Hr1 Hnos) as [(u2 & Hr2 & Hu2) H2]. split; [|auto]. exists u2. split; [done|]. by transitivity u1.
Qed.

(** ** Exactly, while every write lands *)

Definition landed (changes : list Undo) : list (Undo * bool) := (λ c, (c, true)) <$> changes.

Definition quietly (changes : list Undo) : Quiet := MkQuiet (landed changes) false.

(** The rows after a resource's row is written. *)
Definition with_undo (f : FreezeRecord) (u : Undo) (table : FreezeRows) : FreezeRows :=
  <[row_of f := MkFrozenEntry (fz_deletion f) u]> table.

Lemma record_spec f table u changed :
  table !! row_of f = Some (MkFrozenEntry (fz_deletion f) u) →
  record f (of_rows table) (changed, true) = of_rows (with_undo f (u ∪ changed) table).
Proof.
  intros Hr. rewrite (record_put f _ changed true u (MkFrozenEntry (fz_deletion f) u)); [|done|cbn; by rewrite load_lookup].
  unfold of_rows, with_undo. cbn. by rewrite load_insert.
Qed.

Lemma records_spec f changes : ∀ table u,
  table !! row_of f = Some (MkFrozenEntry (fz_deletion f) u) →
  fold_left (record f) (landed changes) (of_rows table) = of_rows (with_undo f (fold_left (∪) changes u) table).
Proof.
  induction changes as [|c changes IH]; intros table u Hr; simpl.
  - unfold with_undo. by rewrite insert_id.
  - rewrite (record_spec f table u) by done. unfold landed in IH. rewrite (IH _ (u ∪ c)).
    + unfold with_undo. by rewrite insert_insert_eq.
    + unfold with_undo. by rewrite lookup_insert_eq.
Qed.

Lemma union_all_absorbs (changes : list Undo) u :
  (∀ c, c ∈ changes → dom c ⊆ dom u) → fold_left (∪) changes u = u.
Proof.
  induction changes as [|c changes IH]; intros H; simpl; [done|].
  assert (u ∪ c = u) as ->; [|apply IH; intros; apply H; by right].
  apply map_eq. intros k. rewrite lookup_union. destruct (u !! k) eqn:Hu; [by destruct (c !! k)|].
  destruct (c !! k) eqn:Hc; [|done]. exfalso. apply not_elem_of_dom in Hu. apply Hu.
  apply (H c); [left|]. by apply elem_of_dom.
Qed.

Lemma union_all_dom (changes : list Undo) : ∀ u c,
  (dom c ⊆ dom u ∨ c ∈ changes) → dom c ⊆ dom (fold_left (∪) changes u).
Proof.
  induction changes as [|c' changes IH]; intros u c [Hc|Hc]; [done|by apply elem_of_nil in Hc|..]; cbn [fold_left]; apply IH.
  - left. rewrite dom_union_L. set_solver.
  - apply elem_of_cons in Hc as [->|Hc]; [left; rewrite dom_union_L; set_solver|by right].
Qed.

Lemma union_changes_idem (changes : list Undo) u :
  fold_left (∪) changes (fold_left (∪) changes u) = fold_left (∪) changes u.
Proof. apply union_all_absorbs. intros c Hc. apply union_all_dom. by right. Qed.

(** What freezing does to the table, when the deletion may freeze it. *)
Lemma freeze_spec f changes table :
  freeze f Answered (quietly changes) (of_rows table) =
  match table !! row_of f with
  | Some row =>
      if decide (deletionId row = fz_deletion f)
      then (of_rows (with_undo f (fold_left (∪) changes (undo row)) table), Ok tt)
      else (of_rows table, Throw (Refused already_deleting))
  | None => (of_rows (with_undo f (fold_left (∪) changes ∅) table), Ok tt)
  end.
Proof.
  unfold freeze, freezeResource, apply, quietly. cbn [rows frozen of_rows q_records q_fails]. rewrite load_lookup.
  destruct (table !! row_of f) as [[d u]|] eqn:Hr; cbn [deletionId undo default].
  - destruct (decide (d = fz_deletion f)) as [->|]; [|by rewrite decide_True].
    rewrite decide_False by tauto. cbn. f_equal. rewrite <-load_insert, (insert_id table) by done.
    by apply records_spec.
  - rewrite decide_False by tauto. cbn. f_equal. rewrite <-load_insert.
    set (table' := <[row_of f := _]> table).
    change (fold_left (record f) (landed changes) (of_rows table') = of_rows (with_undo f (fold_left (∪) changes ∅) table)).
    rewrite (records_spec f changes table' ∅) by apply lookup_insert_eq.
    unfold with_undo, table'. by rewrite insert_insert_eq.
Qed.

Lemma unfreeze_spec f restored table :
  unfreeze f restored true (of_rows table) =
  match table !! row_of f with
  | Some row =>
      if decide (deletionId row = fz_deletion f)
      then (of_rows (if restored (undo row) then delete (row_of f) table else table), Some (undo row))
      else (of_rows table, None)
  | None => (of_rows table, None)
  end.
Proof.
  unfold unfreeze, unfreezeResource. cbn [rows frozen of_rows]. rewrite load_lookup.
  destruct (table !! row_of f) as [[d u]|] eqn:Hr; [|done]. cbn [deletionId undo].
  destruct (decide (d = fz_deletion f)) as [->|]; [|by rewrite decide_True].
  rewrite decide_False by tauto. destruct (restored u); [|done].
  unfold of_rows. by rewrite load_delete.
Qed.

(** ** The properties *)

(** C12: A freeze outlives the Relay, whatever freezes, lets go, fails or stops
    half way, and however often the Relay starts again, any of the table's
    writes failing. What it has in memory is always at least what its table
    says of it: each resource it has as frozen has a row of the same deletion,
    all of whose recorded changes it has too. While every write lands the two
    say the same, so a restart changes nothing; when one fails, the memory may
    be ahead of the table ([a_failed_write_is_ahead]), or lack a row whose
    freeze was inserted and not answered ([a_failed_read_is_behind]). From any
    such moment, a resource the table has frozen for a deletion stays frozen
    for it there, and in memory if it was, with no change recorded about it
    lost or overwritten, until that deletion lets it go or the resource is
    deleted. And what quieting it is to change, once its write landed, is in
    the table. *)
Theorem freezes_durable table es es' :
  table_ok table → Forall event_ok es → Forall event_ok es' →
  let st := freeze_run es (restart (MkFreezes table ∅)) in
  let st' := freeze_run es' st in
  (∀ kind id entry, frozen st !! key kind id = Some entry →
     ∃ u, rows st !! (kind, id) = Some (MkFrozenEntry (deletionId entry) u) ∧ u ⊆ undo entry) ∧
  (Forall writes_land es → restart st = st ∧ ∀ kind id, has st kind id = true ↔ is_Some (rows st !! (kind, id))) ∧
  (∀ kind id d u, rows st !! (kind, id) = Some (MkFrozenEntry d u) → Forall (λ e, ¬ lets_go kind id d e) es' →
     (∃ u', rows st' !! (kind, id) = Some (MkFrozenEntry d u') ∧ u ⊆ u') ∧
     (has st kind id = true → has st' kind id = true)) ∧
  (∀ f q c, resourceIdPattern (fz_id f) = true → (freezeResource f (rows st)).2 = fz_deletion f → (c, true) ∈ q_records q →
     ∃ u, rows (freeze f Answered q st).1 !! (fz_kind f, fz_id f) = Some (MkFrozenEntry (fz_deletion f) u) ∧ dom c ⊆ dom u).
Proof.
  intros Hok Hes Hes' st st'. destruct (run_leaves es (of_rows table) Hes (synced_of_rows _ Hok)) as (S & A & _).
  change (freeze_run es (of_rows table)) with st in S, A. destruct (run_leaves es' st Hes' S) as (_ & _ & R).
  split; [by intros; apply synced_at|]. split; [|split; [exact R|]].
  - intros Hl. specialize (A Hl (agree_of_rows table)). split; [by apply agree_restart|]. intros kind id. by rewrite has_frozen, (A kind id).
  - intros f q c Hid Hholder Hc. destruct (taken_steady f st Hid S Hholder) as [H Hh]. unfold freeze.
    destruct (freezeResource f (rows st)) as [t holder] eqn:E. cbn [fst snd] in *. rewrite decide_False by tauto.
    by apply (qu_written _ _ _ _ (records_quieted f (q_records q) _ (proj1 H) Hh)).
Qed.

Definition sample_freeze : FreezeRecord := MkFreeze FApp sample_id "d1".
Definition sample_policies : Undo := {["web" := MkPolicy 0 "always"]}.
Definition sample_table : FreezeRows := {[(FApp, sample_id) := MkFrozenEntry "d1" sample_policies]}.

Lemma sample_table_ok : table_ok sample_table.
Proof.
  intros kind id [e H]. unfold sample_table in H.
  apply lookup_singleton_Some in H as [[= <- <-] _]. reflexivity.
Qed.

(** Quieted again after the Relay stopped, with a write that failed before, a
    container set to "no" in the meantime keeps the policy it had first. *)
Example freezes_durable_witness :
  let es := [EvFreeze sample_freeze Answered (MkQuiet [({["db" := MkPolicy 0 "always"]}, false)] true)] in
  let es' := [EvRestart (λ _, quietly [{["web" := MkPolicy 0 "no"]}]); EvUnfreeze (MkFreeze FApp sample_id "d2") true true] in
  let st := freeze_run es (restart (MkFreezes sample_table ∅)) in
  ∃ u', rows (freeze_run es' st) !! (FApp, sample_id) = Some (MkFrozenEntry "d1" u') ∧ sample_policies ⊆ u'.
Proof.
  intros es es' st.
  destruct (freezes_durable sample_table es es' sample_table_ok) as (_ & _ & H & _); [repeat constructor..|].
  apply (H FApp sample_id "d1" sample_policies); [vm_compute; reflexivity|].
  repeat constructor; intros E; try exact E; discriminate E.
Defined.

(** The write of what a freeze is to change fails: the memory has it recorded,
    and the table does not. *)
Example a_failed_write_is_ahead :
  let st := freeze_run [EvFreeze sample_freeze Answered (MkQuiet [(sample_policies, false)] true)] (of_rows ∅) in
  frozen st !! key FApp sample_id = Some (MkFrozenEntry "d1" sample_policies) ∧
  rows st !! (FApp, sample_id) = Some (MkFrozenEntry "d1" ∅).
Proof. split; vm_compute; reflexivity. Qed.

(** A freeze whose row was inserted and whose read failed is not in memory, so
    letting it go does nothing, and the next start finds it frozen. *)
Example a_failed_read_is_behind :
  let st := freeze_run [EvFreeze sample_freeze NotRead (quietly []); EvUnfreeze sample_freeze true true] (of_rows ∅) in
  has st FApp sample_id = false ∧ has (restart st) FApp sample_id = true.
Proof. split; vm_compute; reflexivity. Qed.

(** Freezing and letting go answer each other. A resource another
    deletion holds is not frozen and nothing changes; otherwise it is frozen
    for this deletion, having recorded every change with the first of each
    winning. Letting it go is done only for the deletion that holds it, hands
    over exactly what was recorded, leaves it frozen when putting that back
    fails, and otherwise leaves everything as it was before the freeze. *)
Theorem freeze_unfreeze_roundtrip table f changes :
  let st := restart (MkFreezes table ∅) in
  let go restored := unfreeze f (λ _, restored) true in
  (∀ d u, table !! (fz_kind f, fz_id f) = Some (MkFrozenEntry d u) → d ≠ fz_deletion f →
     freeze f Answered (quietly changes) st = (st, Throw (Refused already_deleting)) ∧ ∀ restored, go restored st = (st, None)) ∧
  (table !! (fz_kind f, fz_id f) = None →
     go true st = (st, None) ∧
     ∃ st', freeze f Answered (quietly changes) st = (st', Ok tt) ∧ has st' (fz_kind f) (fz_id f) = true ∧
       freeze f Answered (quietly changes) st' = (st', Ok tt) ∧
       go true st' = (st, Some (fold_left (∪) changes ∅)) ∧
       go false st' = (st', Some (fold_left (∪) changes ∅))).
Proof.
  intros st go. unfold go. change st with (of_rows table). split.
  - intros d u Hr Hd. rewrite freeze_spec. split; [|intros restored; rewrite unfreeze_spec];
      rewrite Hr; cbn [deletionId]; by rewrite decide_False.
  - intros Hr. rewrite unfreeze_spec, freeze_spec, Hr. split; [done|].
    set (u := fold_left (∪) changes ∅). exists (of_rows (with_undo f u table)).
    split; [done|]. split.
    { apply has_of_rows. unfold with_undo. by rewrite lookup_insert_eq. }
    assert (with_undo f u table !! row_of f = Some (MkFrozenEntry (fz_deletion f) u)) as Hu
      by apply lookup_insert_eq.
    rewrite freeze_spec, !unfreeze_spec, Hu. cbn [deletionId undo]. rewrite !decide_True by done.
    split; [|split; [|done]].
    + unfold u at 1. rewrite union_changes_idem. unfold with_undo. by rewrite insert_insert_eq.
    + do 2 f_equal. unfold with_undo. by apply delete_insert_id.
Qed.

(** The lock is on the resource or a part of it. *)
Definition touches (lock : LaneLock) (kind : FrozenKind) (id : string) : Prop :=
  ∃ part, suffix_ok part = true ∧ Locks.key lock = key kind id +:+ part.

Lemma key_slash_free kind id :
  resourceIdPattern id = true →
  str_all (λ d, negb (bool_decide (d = "/"%char))) (key kind id) = true.
Proof.
  intros H. unfold key. rewrite !str_all_app. pose proof (id_slash_free id H) as E.
  unfold slash_free, no_slash in E. rewrite E. by destruct kind.
Qed.

Lemma split_at_whole c s : ∀ before after, split_at c s = (before, after) →
  s = before +:+ match after with Some rest => String c rest | None => "" end.
Proof.
  induction s as [|d s IH]; simpl; intros before after; [by intros [= <- <-]|].
  case_decide as Hd; [by subst d; intros [= <- <-]|].
  destruct (split_at c s) as [b a]. intros [= <- <-]. simpl. by rewrite (IH b a).
Qed.

Lemma lock_resource_touches lock kind id :
  resourceIdPattern id = true → lock_resource lock = key kind id ↔ touches lock kind id.
Proof.
  intros Hid. unfold lock_resource, touches. split.
  - destruct (split_at "/"%char (Locks.key lock)) as [b a] eqn:E.
    apply split_at_whole in E. simpl. intros ->. eexists. split; [|exact E]. by destruct a.
  - intros (part & Hp & ->). pose proof (key_slash_free kind id Hid) as Hk.
    destruct part as [|c part]; [by rewrite str_app_nil, split_at_none|].
    simpl in Hp. unfold no_slash in Hp. rewrite negb_involutive in Hp.
    apply bool_decide_eq_true in Hp as ->. by rewrite split_at_app.
Qed.

(** What one lock does to an operation. *)
Lemma lock_refusal_spec table label lock :
  table_ok table →
  (lock_refusal (of_rows table) label lock = None ↔
   ∀ kind id, touches lock kind id → is_Some (table !! (kind, id)) → label ∈ allowed kind) ∧
  (∀ answer, lock_refusal (of_rows table) label lock = Some answer →
     ∃ kind id reason, answer = Some reason ∧ reason ≠ "" ∧ touches lock kind id ∧
       is_Some (table !! (kind, id)) ∧ label ∉ allowed kind ∧
       (tailscale_label label = false → reason = refusals kind)).
Proof.
  intros Hok. unfold lock_refusal. cbn [frozen of_rows].
  destruct (load table !! lock_resource lock) as [entry|] eqn:Hl.
  - apply load_Some in Hl as (kind & id & Hres & Hr). rewrite Hres, split_key, frozen_kind_word.
    assert (is_Some (table !! (kind, id))) as Hs by by rewrite Hr.
    assert (touches lock kind id) as Ht by (apply lock_resource_touches; eauto).
    destruct (bool_decide_reflect (label ∈ allowed kind)) as [Ha|Ha].
    + split; [|done]. split; [intros _|done]. intros k i Ht' Hs'.
      apply lock_resource_touches in Ht'; [|by eauto]. rewrite Hres in Ht'.
      apply (inj row_key (kind, id) (k, i)) in Ht'. by simplify_eq.
    + split.
      * split; [by destruct (tailscale_label label)|]. intros H. by destruct Ha; apply (H kind id).
      * intros answer Hans. exists kind, id.
        destruct (tailscale_label label); injection Hans as <-; eexists;
          repeat split; try done; by destruct kind.
  - split; [|done]. split; [intros _|done]. intros kind id Ht [e He].
    apply lock_resource_touches in Ht; [|by eauto]. rewrite Ht, load_lookup in Hl. congruence.
Qed.

Lemma refusal_loop_spec table label locks :
  table_ok table →
  (refusal_loop (of_rows table) label locks = None ↔
   ∀ lock kind id, lock ∈ locks → touches lock kind id → is_Some (table !! (kind, id)) →
     label ∈ allowed kind) ∧
  (∀ reason, refusal_loop (of_rows table) label locks = Some reason →
     reason ≠ "" ∧ ∃ lock kind id, lock ∈ locks ∧ touches lock kind id ∧
       is_Some (table !! (kind, id)) ∧ label ∉ allowed kind ∧
       (tailscale_label label = false → reason = refusals kind)).
Proof.
  intros Hok. induction locks as [|lock locks [IH1 IH2]]; cbn [refusal_loop].
  { split; [|done]. split; [|done]. intros _ lock kind id Hl. by apply elem_of_nil in Hl. }
  destruct (lock_refusal_spec table label lock Hok) as [H1 H2].
  destruct (lock_refusal (of_rows table) label lock) as [answer|].
  - destruct (H2 answer eq_refl) as (kind & id & reason & -> & Hne & Ht & Hs & Ha & Hreason).
    split.
    + split; [done|]. intros H. destruct Ha. apply (H lock kind id); [left|done..].
    + intros r [= <-]. split; [done|]. exists lock, kind, id. split; [left|done].
  - split.
    + rewrite IH1. split.
      * intros H l kind id [->|Hl]%elem_of_cons; [by apply H1|by apply H].
      * intros H l kind id Hl. apply H. by right.
    + intros reason Hr. destruct (IH2 reason Hr) as (Hne & l & kind & id & Hl & Hrest).
      split; [done|]. exists l, kind, id. split; [by right|done].
Qed.

(** The lanes refuse exactly the work a freeze must keep out: an operation
    is let through when its label is one every freeze allows, or every frozen
    resource any of its locks is on, whole or in part, allows it; otherwise
    it is told, never with an empty reason, about a frozen resource one of
    its locks really is on. *)
Theorem refusal_exact table label locks :
  table_ok table →
  (refusal (of_rows table) label locks = None ↔
   label ∈ allowedForEvery ∨
   ∀ lock kind id, lock ∈ locks → touches lock kind id → has (of_rows table) kind id = true →
     label ∈ allowed kind) ∧
  (∀ reason, refusal (of_rows table) label locks = Some reason →
     reason ≠ "" ∧ ∃ lock kind id, lock ∈ locks ∧ touches lock kind id ∧
       has (of_rows table) kind id = true ∧ label ∉ allowed kind ∧
       (tailscale_label label = false → reason = refusals kind)).
Proof.
  intros Hok. setoid_rewrite has_of_rows.
  destruct (refusal_loop_spec table label locks Hok) as [H1 H2]. unfold refusal.
  destruct (bool_decide_reflect (frozen (of_rows table) = ∅)) as [He|_]; cbn [orb].
  - split; [|done]. split; [intros _; right|done]. intros lock kind id _ _ [e Hr]. exfalso.
    cbn [frozen of_rows] in He. pose proof (load_lookup table kind id) as E.
    by rewrite He, lookup_empty, Hr in E.
  - destruct (bool_decide_reflect (label ∈ allowedForEvery)) as [Ha|Ha].
    + split; [|done]. split; auto.
    + split; [|exact H2]. rewrite H1. split; [auto|]. by intros [?|?].
Qed.

Example refusal_exact_witness :
  refusal (of_rows sample_table) "app.action" (appLifecycleLocks sample_id)
    = Some "This App is being deleted" ∧
  refusal (of_rows sample_table) "app.delete" (appReplaceLocks sample_id) = None.
Proof.
  split; [vm_compute; reflexivity|].
  apply (refusal_exact sample_table "app.delete" (appReplaceLocks sample_id) sample_table_ok).
  right. intros lock kind id Hl (part & Hp & E) _.
  apply list_elem_of_singleton in Hl as ->. destruct kind; try (exfalso; discriminate E). left.
Defined.

Definition of_resource (kind : ResourceKind) : FrozenKind :=
  match kind with KApp => FApp | KDatabase => FDatabase | KInstance => FInstance end.

(** The freezes as the Relay's lanes ask them. *)
Definition frozen_resources (st : ResourceFreezes) : FrozenResources :=
  MkFrozen (λ kind id, has st (of_resource kind) id) (refusal st).

Definition named_id (resolveInstance : string → string) (kind : ResourceKind) (reference : string)
    : string := match kind with KInstance => resolveInstance reference | _ => reference end.

(** Nothing a request asks of a resource being deleted gets past the
    lanes. A request that names a frozen App, database or game server, by its
    ID or any reference that resolves to it, has a plan, and the Relay's
    lanes refuse that plan under any label but those a freeze allows, with
    whatever other refusals the Relay adds. *)
Theorem frozen_request_refused table resolveInstance resolveAppVolumes readStack payload
    operation kind field reference label added holds_now :
  table_ok table →
  names operation = Some (kind, field) → stringField payload field = Some reference →
  has (of_rows table) (of_resource kind) (named_id resolveInstance kind reference) = true →
  label ∉ allowedForEvery → label ∉ allowed (of_resource kind) →
  let frozen := frozen_resources (of_rows table) in
  ∃ locks reason,
    controlRequestLocks resolveInstance resolveAppVolumes readStack (fr_has frozen) payload operation
      = Some locks ∧
    refusalFor (relay_refusals (Some frozen) added) label locks = Some reason ∧
    ask_refuse (relay_world (relay_refusals (Some frozen) added) holds_now) label locks = Some reason.
Proof.
  intros Hok Hn Hf Hhas Hevery Hall frozen.
  destruct (named_plan resolveInstance resolveAppVolumes readStack (fr_has frozen)
    payload operation kind field reference Hn Hf) as (locks & Hp & Hk).
  assert (∃ lock, lock ∈ locks ∧
    touches lock (of_resource kind) (named_id resolveInstance kind reference)) as (lock & Hl & Ht).
  { assert (∃ lock, lock ∈ locks ∧ Locks.key lock = named_lane resolveInstance kind reference)
      as (lock & Hl & E).
    { unfold holds_key in Hk. destruct (replaces operation); [|destruct Hk as [Hk|Hk]]; eauto. }
    exists lock. split; [done|]. exists "". split; [done|]. rewrite str_app_nil, E.
    by destruct kind. }
  pose proof (refusal_loop_spec table label locks Hok) as [H1 H2].
  destruct (refusal_loop (of_rows table) label locks) as [reason|] eqn:Hr.
  2:{ exfalso. apply Hall. apply (proj1 H1 eq_refl lock _ _ Hl Ht). by apply has_of_rows. }
  destruct (H2 reason eq_refl) as [Hne _].
  assert (refusal (of_rows table) label locks = Some reason) as E.
  { unfold refusal. rewrite !bool_decide_false; [done|done|].
    intros He. apply has_of_rows in Hhas as [e He']. cbn [Freezes.frozen of_rows] in He.
    rewrite <-load_lookup, He, lookup_empty in He'. done. }
  exists locks, reason. split; [exact Hp|].
  assert (firstRefusal (relay_refusals (Some frozen) added) label locks = Some reason) as Efirst.
  { cbn. rewrite E. unfold truthy. by rewrite decide_False. }
  split; [exact Efirst|]. unfold ask_refuse, relay_world. cbn [refuse]. rewrite Efirst.
  unfold truthy. by rewrite decide_False.
Qed.

Example frozen_request_refused_witness :
  ∃ locks reason,
    controlRequestLocks (λ r, r) (λ _, ["v1"]) None (fr_has (frozen_resources (of_rows sample_table)))
      [("appId", JString sample_id)] op_app_action = Some locks ∧
    refusalFor (relay_refusals (Some (frozen_resources (of_rows sample_table))) []) "app.action" locks
      = Some reason.
Proof.
  destruct (frozen_request_refused sample_table (λ r, r) (λ _, ["v1"]) None
    [("appId", JString sample_id)] op_app_action KApp "appId" sample_id "app.action" [] (λ _, true)
    sample_table_ok) as (locks & reason & Hp & Hr & _);
    [reflexivity|reflexivity|vm_compute; reflexivity| | |].
  - apply (bool_decide_unpack _). vm_compute. exact I.
  - apply (bool_decide_unpack _). vm_compute. exact I.
  - exists locks, reason. split; [exact Hp|exact Hr].
Defined.
