(* ===== verification/Recovery.v ===== *)
(** * Crash recovery of game servers

    Models [apps/relay/src/runtime-recovery.ts] (RuntimeRecoveryManager): a
    record per game server of what it should be doing and how its recovery
    is going, kept in step with the table behind it; the observations that
    move it; and the detached fibers that start or stop a container.

    One server's changes run one at a time ([#lock]), so each is one step
    here. The fibers' own steps are events: a start that is queued for its
    lane, one that is calling Docker, and a stop that is queued. A symbol is
    a number never used before. [Date.parse] is a parameter: it gives the
    time, or nothing where it gives [NaN]. *)
From S2P Require Import Prelude.

(** ** Records *)

Inductive DesiredState := Running | Stopped.
Inductive Phase := Idle | Pending | Restarting | Monitoring | Failed.
Inductive Reason := CleanExit | ProcessExit | OutOfMemory | StartFailed.
Inductive PowerAction := Start | Stop | Restart | Kill.

#[global] Instance DesiredState_eq_dec : EqDecision DesiredState.
Proof. solve_decision. Defined.
#[global] Instance Phase_eq_dec : EqDecision Phase.
Proof. solve_decision. Defined.
#[global] Instance Reason_eq_dec : EqDecision Reason.
Proof. solve_decision. Defined.

(** [RelayRuntimeRecoveryRecord] *)
Record Recovery := MkRecovery {
  attempts : Z;
  desiredState : DesiredState;
  instanceId : string;
  lastExitAt : option Z;
  lastExitCode : option Z;
  lastOomKilled : bool;
  lastReason : option Reason;
  lastRuntimeMs : option Z;
  lastStartedAt : option string;
  nextAttemptAt : option Z;
  phase : Phase;
  stopPending : bool;
  updatedAt : Z;
}.

#[global] Instance Recovery_eq_dec : EqDecision Recovery.
Proof. solve_decision. Defined.

(** [{ ...record, attempts, desiredState, nextAttemptAt, phase, stopPending, updatedAt }] *)
Definition moved (r : Recovery) (a : Z) (d : DesiredState) (next : option Z) (p : Phase)
    (stop : bool) (now : Z) : Recovery :=
  MkRecovery a d (instanceId r) (lastExitAt r) (lastExitCode r) (lastOomKilled r) (lastReason r)
    (lastRuntimeMs r) (lastStartedAt r) next p stop now.

Definition with_reason (reason : Reason) (r : Recovery) : Recovery :=
  MkRecovery (attempts r) (desiredState r) (instanceId r) (lastExitAt r) (lastExitCode r)
    (lastOomKilled r) (Some reason) (lastRuntimeMs r) (lastStartedAt r) (nextAttemptAt r) (phase r)
    (stopPending r) (updatedAt r).

Definition with_started (startedAt : string) (r : Recovery) : Recovery :=
  MkRecovery (attempts r) (desiredState r) (instanceId r) (lastExitAt r) (lastExitCode r)
    (lastOomKilled r) (lastReason r) (lastRuntimeMs r) (Some startedAt) (nextAttemptAt r) (phase r)
    (stopPending r) (updatedAt r).

(** What discovery saw of a server's container. *)
Record Observation := MkObservation {
  dockerRestartConfigured : bool;
  exitCode : Z;
  finishedAt : string;
  installationReady : bool;
  o_instanceId : string;
  managedByRelay : bool;
  oomKilled : bool;
  ready : bool;
  restarting : bool;
  running : bool;
  startedAt : string;
  transitionActive : bool;
}.

Record RecoveryConfig := MkRecoveryConfig {
  initialDelayMs : Z; maxRetries : Z; stabilityMs : Z;
}.

(** A recovery as the snapshot shows it, times left as milliseconds. *)
Record ShownRecovery := MkShown {
  s_attempt : Z; s_exitCode : option Z; s_maxAttempts : Z; s_nextAttemptAt : option Z;
  s_oomKilled : bool; s_phase : Phase; s_reason : Reason; s_runtimeMs : option Z;
}.

Record RecoverySnapshot := MkSnapshot {
  sn_desiredState : DesiredState; sn_recovery : option ShownRecovery;
}.

(** ** The manager *)

(** A fiber of [#performRestart]: queued for its lane, or calling Docker. *)
Record StartWorker := MkStart {
  w_instance : string; w_token : nat; w_requestedAt : Z; w_begun : bool;
}.

(** A fiber of [#performCompensatingStop], queued for its lane. *)
Record StopWorker := MkStop { k_instance : string; k_token : nat }.

#[global] Instance StartWorker_eq_dec : EqDecision StartWorker.
Proof. solve_decision. Defined.
#[global] Instance StopWorker_eq_dec : EqDecision StopWorker.
Proof. solve_decision. Defined.

(** [table] is what the state store holds. *)
Record Manager := MkManager {
  table : gmap string Recovery;
  records : gmap string Recovery;
  activeStarts : gmap string nat;
  activeStops : gmap string nat;
  reportedStopFailures : gset string;
  next_symbol : nat;
  starts : list StartWorker;
  stops : list StopWorker;
}.

Definition set_records t r f (M : Manager) : Manager :=
  MkManager t r (activeStarts M) (activeStops M) f (next_symbol M) (starts M) (stops M).
Definition set_starts a n s (M : Manager) : Manager :=
  MkManager (table M) (records M) a (activeStops M) (reportedStopFailures M) n s (stops M).
Definition set_stops a n s (M : Manager) : Manager :=
  MkManager (table M) (records M) (activeStarts M) a (reportedStopFailures M) n (starts M) s.
Definition set_reported f (M : Manager) : Manager :=
  MkManager (table M) (records M) (activeStarts M) (activeStops M) f (next_symbol M) (starts M)
    (stops M).

Definition state_error : string := "the Relay's state could not be written".

(** [#persist]: the table first, then the memory; [ok] is whether the store
    wrote it. *)
Definition persist (ok : bool) (r : Recovery) (M : Manager) : Result string Manager :=
  if ok then
    Ok (set_records (<[instanceId r := r]> (table M)) (<[instanceId r := r]> (records M))
          (if bool_decide (desiredState r = Running) || negb (stopPending r)
           then reportedStopFailures M ∖ {[instanceId r]} else reportedStopFailures M) M)
  else Throw state_error.

(** [#delete] *)
Definition delete_record (ok : bool) (id : string) (M : Manager) : Result string Manager :=
  if ok then
    Ok (set_records (delete id (table M)) (delete id (records M))
          (reportedStopFailures M ∖ {[id]}) M)
  else Throw state_error.

Definition initialRecoveryRecord (id : string) (d : DesiredState) (now : Z)
    (started : option string) : Recovery :=
  MkRecovery 0 d id None None false None None started None Idle false now.

Definition visible (p : Phase) : bool :=
  match p with Pending | Restarting | Failed => true | _ => false end.

Definition recoverySnapshot (r : Recovery) (maxAttempts : Z) : RecoverySnapshot :=
  MkSnapshot (desiredState r)
    (match lastReason r with
     | Some reason =>
         if visible (phase r) then
           Some (MkShown (attempts r) (lastExitCode r) maxAttempts (nextAttemptAt r)
                   (lastOomKilled r) (phase r) reason (lastRuntimeMs r))
         else None
     | None => None
     end).

Definition unmanagedSnapshot (is_running : bool) : RecoverySnapshot :=
  MkSnapshot (if is_running then Running else Stopped) None.

Definition MAXIMUM_RETRY_DELAY_MS : Z := 60000.
Definition START_CONFIRMATION_TIMEOUT_MS : Z := 30000.

Definition retryDelayMs (attempt initialDelay : Z) : Z :=
  if decide (initialDelay = 0)%Z then 0
  else Z.min (initialDelay * 3 ^ Z.max (attempt - 1) 0) MAXIMUM_RETRY_DELAY_MS.

Definition recoveryReason (o : Observation) : Reason :=
  if oomKilled o then OutOfMemory
  else if decide (exitCode o = 0)%Z then CleanExit else ProcessExit.

Section Manager.
Variable Date_parse : string → option Z.
Variable config : RecoveryConfig.

Definition runtimeDurationMs (o : Observation) : option Z :=
  match Date_parse (startedAt o), Date_parse (finishedAt o) with
  | Some started, Some finished => Some (Z.max (finished - started) 0)
  | _, _ => None
  end.

Definition finishedAtMs (finished : string) (fallback : Z) : Z :=
  default fallback (Date_parse finished).

Abbreviation Step := (Result string (Manager * RecoverySnapshot)).

(** [#entry] *)
Definition entry (r : Recovery) : RecoverySnapshot := recoverySnapshot r (maxRetries config).

(** Persists a record and answers its entry. *)
Definition persist_entry (ok : bool) (r : Recovery) (M : Manager) : Step :=
  let! M' := persist ok r M in Ok (M', entry r).

(** [#exhaust], what it logs and reports aside. *)
Definition exhaust (ok : bool) (r : Recovery) (M : Manager) : Step :=
  persist_entry ok (moved r (attempts r) (desiredState r) None Failed (stopPending r) (updatedAt r)) M.

(** What an exit leaves in the record, before it is decided what follows. *)
Definition exited (r : Recovery) (o : Observation) (now : Z) : Recovery :=
  MkRecovery (attempts r) (desiredState r) (instanceId r) (Some (finishedAtMs (finishedAt o) now))
    (Some (exitCode o)) (oomKilled o) (Some (recoveryReason o)) (runtimeDurationMs o)
    (Some (startedAt o)) (nextAttemptAt r) (phase r) (stopPending r) now.

Definition recordExit (ok : bool) (r : Recovery) (o : Observation) (now : Z) (M : Manager) : Step :=
  let e := exited r o now in
  if decide (attempts r >= maxRetries config)%Z then exhaust ok e M
  else
    let attempt := (attempts r + 1)%Z in
    persist_entry ok
      (moved e attempt (desiredState e) (Some (now + retryDelayMs attempt (initialDelayMs config))%Z)
         Pending (stopPending e) now) M.

Definition recordStartFailure (ok : bool) (r : Recovery) (now : Z) (M : Manager) : Step :=
  if decide (attempts r >= maxRetries config)%Z then
    exhaust ok (with_reason StartFailed
      (moved r (attempts r) (desiredState r) None (phase r) (stopPending r) now)) M
  else
    let attempt := (attempts r + 1)%Z in
    persist_entry ok
      (with_reason StartFailed
         (moved r attempt (desiredState r)
            (Some (now + retryDelayMs attempt (initialDelayMs config))%Z) Pending
            (stopPending r) now)) M.

(** [#requestRestart]: the record, then a fiber that waits for its lane. *)
Definition requestRestart (ok : bool) (r : Recovery) (o : Observation) (now : Z) (M : Manager)
    : Step :=
  let requested := moved r (attempts r) (desiredState r)
    (Some (now + START_CONFIRMATION_TIMEOUT_MS)%Z) Restarting (stopPending r) now in
  let! M' := persist ok requested M in
  let token := next_symbol M' in
  Ok (set_starts (<[o_instanceId o := token]> (activeStarts M')) (S token)
        (starts M' ++ [MkStart (o_instanceId o) token now false]) M', entry requested).

(** [#scheduleCompensatingStop] *)
Definition scheduleCompensatingStop (o : Observation) (M : Manager) : Manager :=
  match activeStops M !! o_instanceId o with
  | Some _ => M
  | None =>
      let token := next_symbol M in
      set_stops (<[o_instanceId o := token]> (activeStops M)) (S token)
        (stops M ++ [MkStop (o_instanceId o) token]) M
  end.

Definition reconcileRunning (ok : bool) (r : Recovery) (o : Observation) (now : Z) (M : Manager)
    : Step :=
  let stable := match Date_parse (startedAt o) with
                | Some started => bool_decide (now - started >= stabilityMs config)%Z
                | None => false
                end in
  if stable && (bool_decide (attempts r > 0)%Z || negb (bool_decide (phase r = Idle))) then
    persist_entry ok (moved r 0 (desiredState r) None Idle false now) M
  else if ready o && bool_decide (phase r = Restarting) then
    persist_entry ok (moved r (attempts r) (desiredState r) None Monitoring false now) M
  else if decide (phase r = Failed) then
    persist_entry ok
      (moved r (attempts r) (desiredState r) None (if ready o then Monitoring else Restarting)
         false now) M
  else if decide (phase r = Pending) then
    persist_entry ok
      (moved r (attempts r) (desiredState r) None (if ready o then Monitoring else Restarting)
         false now) M
  else if stopPending r then
    persist_entry ok
      (moved r (attempts r) (desiredState r) (nextAttemptAt r) (phase r) false now) M
  else Ok (M, entry r).

(** The first observation of a server with no record. *)
Definition reconcile_new (ok : bool) (o : Observation) (now : Z) (M : Manager) : Step :=
  let preserve := running o || (installationReady o &&
    (restarting o || (dockerRestartConfigured o && negb (bool_decide (exitCode o = 0%Z))))) in
  let initial := initialRecoveryRecord (o_instanceId o) (if preserve then Running else Stopped) now
    (if preserve then None else Some (startedAt o)) in
  if preserve && negb (running o) && negb (restarting o)
  then recordExit ok initial o now M else persist_entry ok initial M.

(** A server that should be stopped. *)
Definition reconcile_stopped (ok : bool) (r : Recovery) (o : Observation) (now : Z) (M : Manager)
    : Step :=
  let enforce M := if running o && stopPending r then scheduleCompensatingStop o M else M in
  let pending := if running o then stopPending r else false in
  if bool_decide (phase r = Idle) && bool_decide (attempts r = 0%Z) &&
     bool_decide (nextAttemptAt r = None) && bool_decide (pending = stopPending r)
  then Ok (enforce M, entry r)
  else
    let next := moved r 0 (desiredState r) None Idle pending now in
    let! M' := persist ok next M in Ok (enforce M', entry next).

(** A server that should be running and is not. *)
Definition reconcile_down (ok : bool) (r : Recovery) (o : Observation) (now : Z) (paused : bool)
    (M : Manager) : Step :=
  if negb (installationReady o) then
    persist_entry ok (with_started (startedAt o)
      (moved r (attempts r) Stopped None Idle (stopPending r) now)) M
  else if restarting o then Ok (M, entry r)
  else if bool_decide (phase r = Pending) &&
          match nextAttemptAt r with Some next => bool_decide (next <= now)%Z | None => false end
  then if paused then Ok (M, entry r) else requestRestart ok r o now M
  else if bool_decide (phase r = Restarting) && bool_decide (lastStartedAt r = Some (startedAt o))
  then
    if bool_decide (is_Some (activeStarts M !! o_instanceId o)) then Ok (M, entry r)
    else
      match nextAttemptAt r with
      | None =>
          persist_entry ok (moved r (attempts r) (desiredState r)
            (Some (now + START_CONFIRMATION_TIMEOUT_MS)%Z) (phase r) (stopPending r) now) M
      | Some next =>
          if decide (next > now)%Z then Ok (M, entry r) else recordStartFailure ok r now M
      end
  else if decide (lastStartedAt r = Some (startedAt o)) then Ok (M, entry r)
  else recordExit ok r o now M.

(** [#reconcileObservation]; [paused] is whether the lanes are. *)
Definition reconcileObservation (ok : bool) (o : Observation) (now : Z) (paused : bool)
    (M : Manager) : Step :=
  let existing := records M !! o_instanceId o in
  if negb (managedByRelay o) then
    let shown := unmanagedSnapshot (running o || restarting o) in
    match existing with
    | Some _ => let! M' := delete_record ok (o_instanceId o) M in Ok (M', shown)
    | None => Ok (M, shown)
    end
  else
    match existing with
    | None => reconcile_new ok o now M
    | Some r =>
        if transitionActive o then Ok (M, entry r)
        else if decide (desiredState r = Stopped) then reconcile_stopped ok r o now M
        else if running o then reconcileRunning ok r o now M
        else reconcile_down ok r o now paused M
    end.

(** ** Other changes to a record *)

Definition recordProvisioned (ok : bool) (id : string) (d : DesiredState) (now : Z) (M : Manager)
    : Result string Manager := persist ok (initialRecoveryRecord id d now None) M.

Definition wants (action : PowerAction) : DesiredState :=
  match action with Stop | Kill => Stopped | Start | Restart => Running end.

(** Answers the record it replaced, for [restore]. *)
Definition recordPowerAction (ok : bool) (id : string) (action : PowerAction) (now : Z)
    (M : Manager) : Result string (Manager * option Recovery) :=
  let previous := records M !! id in
  let d := wants action in
  let base := default (initialRecoveryRecord id d now None) previous in
  let! M' := persist ok (moved base 0 d None Idle false now) M in Ok (M', previous).

Definition restore (ok : bool) (id : string) (previous : option Recovery) (M : Manager)
    : Result string Manager :=
  match previous with Some r => persist ok r M | None => delete_record ok id M end.

Definition forget (ok : bool) (id : string) (M : Manager) : Result string Manager :=
  delete_record ok id M.

(** A new process: what the table says, and no fiber of the last one. *)
Definition initialize (M : Manager) : Manager :=
  MkManager (table M) (table M) ∅ ∅ ∅ (next_symbol M) [] [].

Definition snapshot (id : string) (M : Manager) : option RecoverySnapshot :=
  entry <$> records M !! id.

(** ** The fibers *)

Definition stillWanted (w : StartWorker) (M : Manager) : bool :=
  bool_decide (activeStarts M !! w_instance w = Some (w_token w)) &&
  match records M !! w_instance w with
  | Some current =>
      bool_decide (desiredState current = Running) && bool_decide (phase current = Restarting)
  | None => false
  end.

(** The finalizer of a start, and the end of its fiber. *)
Definition finish_start (w : StartWorker) (M : Manager) : Manager :=
  set_starts
    (if bool_decide (activeStarts M !! w_instance w = Some (w_token w))
     then delete (w_instance w) (activeStarts M) else activeStarts M)
    (next_symbol M) (List.filter (λ v, negb (bool_decide (w_token v = w_token w))) (starts M)) M.

Definition waitForResume (ok : bool) (w : StartWorker) (now : Z) (M : Manager) : Manager :=
  match records M !! w_instance w with
  | Some current =>
      if bool_decide (activeStarts M !! w_instance w = Some (w_token w)) &&
         bool_decide (phase current = Restarting)
      then
        match persist ok (moved current (attempts current) (desiredState current) (Some now) Pending
                            (stopPending current) now) M with
        | Ok M' => M' | Throw _ => M
        end
      else M
  | None => M
  end.

Definition recordRestartFailure (ok : bool) (w : StartWorker) (now : Z) (M : Manager) : Manager :=
  match records M !! w_instance w with
  | Some current =>
      if bool_decide (activeStarts M !! w_instance w = Some (w_token w)) &&
         bool_decide (desiredState current = Running) && bool_decide (phase current = Restarting) &&
         bool_decide (updatedAt current = w_requestedAt w)
      then match recordStartFailure ok current now M with Ok (M', _) => M' | Throw _ => M end
      else M
  | None => M
  end.

Definition enforceDesiredStateAfterStart (ok : bool) (w : StartWorker) (o : Observation) (now : Z)
    (M : Manager) : Manager :=
  match records M !! w_instance w with
  | Some current =>
      if decide (desiredState current = Stopped) then
        match persist ok (moved current (attempts current) (desiredState current)
                            (nextAttemptAt current) (phase current) true now) M with
        | Ok M' =>
            scheduleCompensatingStop o
              (set_reported (reportedStopFailures M' ∖ {[w_instance w]}) M')
        | Throw _ => M
        end
      else M
  | None => M
  end.

(** How a start queued for its lane comes to its turn, or does not. *)
Inductive Turn := Granted | PausedFirst | Refused.

Definition begin_start (w : StartWorker) (M : Manager) : Manager :=
  set_starts (activeStarts M) (next_symbol M)
    ((λ v, if bool_decide (w_token v = w_token w)
           then MkStart (w_instance v) (w_token v) (w_requestedAt v) true else v) <$> starts M) M.

(** [#performRestart] up to its call of Docker: granted its lane, it starts
    only if it is still wanted; paused first, its attempt waits. *)
Definition start_turn (ok : bool) (w : StartWorker) (turn : Turn) (now : Z) (M : Manager) : Manager :=
  match turn with
  | Granted => if stillWanted w M then begin_start w M else finish_start w M
  | PausedFirst => finish_start w (waitForResume ok w now M)
  | Refused => finish_start w M
  end.

(** [#performRestart] once Docker has answered. *)
Definition start_done (ok : bool) (w : StartWorker) (o : Observation) (failed : bool) (now : Z)
    (M : Manager) : Manager :=
  finish_start w
    (if failed then recordRestartFailure ok w now M
     else enforceDesiredStateAfterStart ok w o now M).

Definition shouldStop (k : StopWorker) (M : Manager) : bool :=
  bool_decide (activeStops M !! k_instance k = Some (k_token k)) &&
  match records M !! k_instance k with
  | Some r => stopPending r && bool_decide (desiredState r = Stopped)
  | None => false
  end.

(** [#performCompensatingStop]: [granted] is whether its lane was, [stopped]
    whether Docker stopped the container, if it was asked to. *)
Definition stop_turn (k : StopWorker) (granted stopped : bool) (M : Manager) : Manager :=
  let M :=
    if granted && negb (shouldStop k M) then M
    else if granted && stopped then set_reported (reportedStopFailures M ∖ {[k_instance k]}) M
    else set_reported ({[k_instance k]} ∪ reportedStopFailures M) M in
  set_stops
    (if bool_decide (activeStops M !! k_instance k = Some (k_token k))
     then delete (k_instance k) (activeStops M) else activeStops M)
    (next_symbol M) (List.filter (λ v, negb (bool_decide (k_token v = k_token k))) (stops M)) M.

(** ** Events *)

Inductive RecoveryEvent :=
  | EvReconcile (ok : bool) (o : Observation) (now : Z) (paused : bool)
  | EvProvisioned (ok : bool) (id : string) (d : DesiredState) (now : Z)
  | EvPower (ok : bool) (id : string) (action : PowerAction) (now : Z)
  | EvRestore (ok : bool) (id : string) (previous : option Recovery)
  | EvForget (ok : bool) (id : string)
  | EvInitialize
  | EvStartTurn (ok : bool) (w : StartWorker) (turn : Turn) (now : Z)
  | EvStartDone (ok : bool) (w : StartWorker) (o : Observation) (failed : bool) (now : Z)
  | EvStopTurn (k : StopWorker) (granted stopped : bool).

Definition kept {A} (r : Result string A) (f : A → Manager) (M : Manager) : Manager :=
  match r with Ok a => f a | Throw _ => M end.

(** A fiber's event only happens to a fiber there is, at that point. *)
Definition recovery_event (M : Manager) (e : RecoveryEvent) : Manager :=
  match e with
  | EvReconcile ok o now paused => kept (reconcileObservation ok o now paused M) fst M
  | EvProvisioned ok id d now => kept (recordProvisioned ok id d now M) (λ m, m) M
  | EvPower ok id action now => kept (recordPowerAction ok id action now M) fst M
  | EvRestore ok id previous => kept (restore ok id previous M) (λ m, m) M
  | EvForget ok id => kept (forget ok id M) (λ m, m) M
  | EvInitialize => initialize M
  | EvStartTurn ok w turn now =>
      if decide (w ∈ starts M ∧ w_begun w = false) then start_turn ok w turn now M else M
  | EvStartDone ok w o failed now =>
      if decide (w ∈ starts M ∧ w_begun w = true ∧ o_instanceId o = w_instance w)
      then start_done ok w o failed now M else M
  | EvStopTurn k granted stopped =>
      if decide (k ∈ stops M) then stop_turn k granted stopped M else M
  end.

Definition recovery_run (es : list RecoveryEvent) (M : Manager) : Manager :=
  fold_left recovery_event es M.

(** The event is a start's turn, and Docker is called. *)
Definition begins_start (id : string) (M : Manager) (e : RecoveryEvent) : bool :=
  match e with
  | EvStartTurn ok w Granted now =>
      bool_decide (w ∈ starts M ∧ w_begun w = false) && bool_decide (w_instance w = id) &&
      stillWanted w M
  | _ => false
  end.

Fixpoint count_starts (id : string) (es : list RecoveryEvent) (M : Manager) : Z :=
  match es with
  | [] => 0
  | e :: rest => (if begins_start id M e then 1 else 0) + count_starts id rest (recovery_event M e)
  end.
End Manager.
