(* ===== verification/RecoveryFacts.v ===== *)
(** * What crash recovery guarantees

    Properties of [Recovery]: the records stay well formed and on disk, a
    person's stop always wins, a crashing server is started only so often,
    each attempt waits its delay, and a start that lands after a stop is
    undone. *)
From S2P Require Import Prelude Recovery.

Section Facts.
Variable Date_parse : string → option Z.
Variable config : RecoveryConfig.

Abbreviation reconcile := (reconcileObservation Date_parse config).
Abbreviation event := (recovery_event Date_parse config).
Abbreviation run := (recovery_run Date_parse config).

(** ** The invariant *)

(** A record is well formed: attempts within the limit, a time for what is
    pending and none for what is settled, and a stopped server idle. *)
Record rec_ok (r : Recovery) : Prop := {
  rec_attempts : (0 ≤ attempts r ≤ maxRetries config)%Z;
  rec_pending : phase r = Pending → is_Some (nextAttemptAt r);
  rec_settled : phase r = Idle ∨ phase r = Monitoring ∨ phase r = Failed → nextAttemptAt r = None;
  rec_stopped : desiredState r = Stopped → phase r = Idle;
  rec_stop : stopPending r = true → desiredState r = Stopped;
}.

Record manager_ok (M : Manager) : Prop := {
  mgr_table : records M = table M;
  mgr_records : ∀ id r, records M !! id = Some r → instanceId r = id ∧ rec_ok r;
  mgr_tokens : NoDup (w_token <$> starts M);
  mgr_fresh : ∀ w, w ∈ starts M → w_token w < next_symbol M;
  mgr_starts : ∀ id t, activeStarts M !! id = Some t →
    ∃ w, w ∈ starts M ∧ w_instance w = id ∧ w_token w = t;
  mgr_kills : ∀ k, k ∈ stops M → k_token k < next_symbol M;
  mgr_stops : ∀ id t, activeStops M !! id = Some t → MkStop id t ∈ stops M;
  mgr_kill_tokens : NoDup (k_token <$> stops M);
}.

(** What persisting a record leaves when the store writes it. *)
Definition wrote (r : Recovery) (M : Manager) : Manager :=
  set_records (<[instanceId r := r]> (table M)) (<[instanceId r := r]> (records M))
    (if bool_decide (desiredState r = Running) || negb (stopPending r)
     then reportedStopFailures M ∖ {[instanceId r]} else reportedStopFailures M) M.

Lemma persist_eq ok r M : persist ok r M = if ok then Ok (wrote r M) else Throw state_error.
Proof. done. Qed.

Lemma wrote_ok r M : manager_ok M → rec_ok r → manager_ok (wrote r M).
Proof.
  intros [H1 H2 H3 H4 H5 H6 H7 H8] Hr. split; cbn; try done; [by rewrite H1|].
  intros id r' [[<- <-]|[_ H]]%lookup_insert_Some; [done|by apply H2].
Qed.

Lemma set_reported_ok f M : manager_ok M → manager_ok (set_reported f M).
Proof. by intros [H1 H2 H3 H4 H5 H6 H7 H8]; split. Qed.

Lemma schedule_ok o M : manager_ok M → manager_ok (scheduleCompensatingStop o M).
Proof.
  unfold scheduleCompensatingStop. destruct (activeStops M !! o_instanceId o); [done|].
  intros [H1 H2 H3 H4 H5 H6 H7 H8]. split; cbn; try done.
  - intros w Hw. specialize (H4 w Hw). lia.
  - intros k [Hk| ->%list_elem_of_singleton]%elem_of_app; [specialize (H6 k Hk); lia|cbn; lia].
  - intros id t [[<- <-]|[_ H]]%lookup_insert_Some; apply elem_of_app; [right; left|left; auto].
  - rewrite fmap_app. apply NoDup_app. split; [done|]. split; [|apply NoDup_singleton].
    intros t (k & -> & Hk)%list_elem_of_fmap Ht%list_elem_of_singleton. cbn in Ht.
    specialize (H6 k Hk). lia.
Qed.

Lemma queue_start_ok id now M :
  manager_ok M →
  manager_ok (set_starts (<[id := next_symbol M]> (activeStarts M)) (S (next_symbol M))
    (starts M ++ [MkStart id (next_symbol M) now false]) M).
Proof.
  intros [H1 H2 H3 H4 H5 H6 H7 H8]. split; cbn; try done.
  - rewrite fmap_app. apply NoDup_app. split; [done|]. split; [|apply NoDup_singleton].
    intros t (w & -> & Hw)%list_elem_of_fmap Ht%list_elem_of_singleton. cbn in Ht.
    specialize (H4 w Hw). lia.
  - intros w [Hw| ->%list_elem_of_singleton]%elem_of_app; [specialize (H4 w Hw); lia|cbn; lia].
  - intros i t [[<- <-]|[_ H]]%lookup_insert_Some.
    + eexists. split; [apply elem_of_app; right; left|done].
    + destruct (H5 i t H) as (w & Hw & Hi). exists w. split; [apply elem_of_app; by left|done].
  - intros k Hk. specialize (H6 k Hk). lia.
Qed.

Lemma delete_ok ok id M M' : delete_record ok id M = Ok M' → manager_ok M → manager_ok M'.
Proof.
  unfold delete_record. destruct ok; [|done]. intros <-%Ok_inj [H1 H2 H3 H4 H5 H6 H7 H8].
  split; cbn; try done; [by rewrite H1|]. intros i r [_ H]%lookup_delete_Some. by apply H2.
Qed.

(** An operation that may fail keeps the invariant. *)
Definition step_ok {A} (s : Result string (Manager * A)) : Prop :=
  ∀ M a, s = Ok (M, a) → manager_ok M.

Lemma persist_entry_ok ok r M :
  manager_ok M → rec_ok r → step_ok (persist_entry config ok r M).
Proof.
  intros HM Hr M' a. unfold persist_entry. rewrite persist_eq. destruct ok; [|done].
  cbn. intros [<- _]%Ok_inj%pair_equal_spec. by apply wrote_ok.
Qed.

Lemma same_ok {A} (M : Manager) (a : A) : manager_ok M → step_ok (Ok (M, a)).
Proof. intros HM M' a' [<- _]%Ok_inj%pair_equal_spec. done. Qed.

Hypothesis limit : (0 ≤ maxRetries config)%Z.

Lemma initial_ok id d now started : rec_ok (initialRecoveryRecord id d now started).
Proof. split; cbn; try done; lia. Qed.

Lemma recordExit_ok ok r o now M :
  manager_ok M → rec_ok r → desiredState r = Running →
  step_ok (recordExit Date_parse config ok r o now M).
Proof.
  intros HM [H1 H2 H3 H4 H5] Hd. unfold recordExit, exhaust. case_decide as Ha.
  - apply persist_entry_ok; [done|]. split; cbn; try done; congruence.
  - apply persist_entry_ok; [done|]. split; cbn; try done; [lia|naive_solver|congruence].
Qed.

Lemma recordStartFailure_ok ok r now M :
  manager_ok M → rec_ok r → desiredState r = Running →
  step_ok (recordStartFailure config ok r now M).
Proof.
  intros HM [H1 H2 H3 H4 H5] Hd. unfold recordStartFailure, exhaust. case_decide as Ha.
  - apply persist_entry_ok; [done|]. split; cbn; try done; congruence.
  - apply persist_entry_ok; [done|]. split; cbn; try done; [lia|naive_solver|congruence].
Qed.

Lemma reconcileRunning_ok ok r o now M :
  manager_ok M → rec_ok r → desiredState r = Running →
  step_ok (reconcileRunning Date_parse config ok r o now M).
Proof.
  intros HM Hr Hd. pose proof Hr as [H1 H2 H3 H4 H5]. unfold reconcileRunning.
  destruct (_ && (_ || _)); [|destruct (ready o && _); [|case_decide; [|case_decide; [|destruct (stopPending r)]]]];
    try apply persist_entry_ok; try done; try (by apply same_ok);
    split; cbn; try done; try (by destruct (ready o)); try lia; try congruence; try naive_solver.
Qed.

Lemma reconcile_new_ok ok o now M :
  manager_ok M → step_ok (reconcile_new Date_parse config ok o now M).
Proof.
  intros HM. unfold reconcile_new. set (preserve := running o || _).
  destruct preserve, (running o), (restarting o); cbn [andb negb];
    try (apply recordExit_ok; [done|apply initial_ok|done]);
    apply persist_entry_ok; done || apply initial_ok.
Qed.

Lemma reconcile_stopped_ok ok r o now M :
  manager_ok M → rec_ok r → desiredState r = Stopped →
  step_ok (reconcile_stopped config ok r o now M).
Proof.
  intros HM Hr Hd. unfold reconcile_stopped. set (keep := bool_decide _ && _ && _ && _).
  assert (∀ M, manager_ok M →
    manager_ok (if running o && stopPending r then scheduleCompensatingStop o M else M)) as Henf.
  { intros M' HM'. destruct (running o && stopPending r); [by apply schedule_ok|done]. }
  destruct keep.
  - intros M' a [<- _]%Ok_inj%pair_equal_spec. by apply Henf.
  - rewrite persist_eq. destruct ok; [|done]. cbn.
    intros M' a [<- _]%Ok_inj%pair_equal_spec. apply Henf, wrote_ok; [done|].
    destruct Hr as [H1 H2 H3 H4 H5]. split; cbn; try done; lia.
Qed.

Lemma requestRestart_ok ok r o now M :
  manager_ok M → rec_ok r → desiredState r = Running →
  step_ok (requestRestart config ok r o now M).
Proof.
  intros HM [H1 H2 H3 H4 H5] Hd. unfold requestRestart. rewrite persist_eq. destruct ok; [|done].
  cbn. intros M' a [<- _]%Ok_inj%pair_equal_spec.
  apply (queue_start_ok (o_instanceId o) now (wrote _ M)), wrote_ok; [done|].
  split; cbn; try done; [naive_solver|congruence].
Qed.

Lemma reconcile_down_ok ok r o now paused M :
  manager_ok M → rec_ok r → desiredState r = Running →
  step_ok (reconcile_down Date_parse config ok r o now paused M).
Proof.
  intros HM Hr Hd. pose proof Hr as [H1 H2 H3 H4 H5]. unfold reconcile_down.
  destruct (negb (installationReady o)).
  { apply persist_entry_ok; [done|]. split; cbn; try done; congruence. }
  destruct (restarting o); [by apply same_ok|].
  destruct (bool_decide (phase r = Pending) && _).
  { destruct paused; [by apply same_ok|by apply requestRestart_ok]. }
  destruct (bool_decide_reflect (phase r = Restarting)) as [Hp|Hp]; cbn [andb];
    [destruct (bool_decide (lastStartedAt r = _))|].
  - destruct (bool_decide _); [by apply same_ok|]. destruct (nextAttemptAt r).
    + case_decide; [by apply same_ok|by apply recordStartFailure_ok].
    + apply persist_entry_ok; [done|]. split; cbn; try done.
      rewrite Hp. intros [?|[?|?]]; discriminate.
  - case_decide; [by apply same_ok|by apply recordExit_ok].
  - case_decide; [by apply same_ok|by apply recordExit_ok].
Qed.

Lemma reconcile_ok ok o now paused M : manager_ok M → step_ok (reconcile ok o now paused M).
Proof.
  intros HM. unfold reconcileObservation. destruct (records M !! o_instanceId o) as [r|] eqn:Hr.
  - destruct (mgr_records _ HM _ _ Hr) as [_ Hok]. destruct (negb (managedByRelay o)).
    { destruct (delete_record ok (o_instanceId o) M) as [M1|] eqn:Hd; [|done].
      intros M' a [<- _]%Ok_inj%pair_equal_spec. by eapply delete_ok. }
    destruct (transitionActive o); [by apply same_ok|].
    case_decide as Hs; [by apply reconcile_stopped_ok|].
    assert (desiredState r = Running) as Hd by by destruct (desiredState r).
    destruct (running o); [by apply reconcileRunning_ok|by apply reconcile_down_ok].
  - destruct (negb (managedByRelay o)); [by apply same_ok|by apply reconcile_new_ok].
Qed.

Lemma finish_start_ok w M : w ∈ starts M → manager_ok M → manager_ok (finish_start w M).
Proof.
  intros Hw [H1 H2 H3 H4 H5 H6 H7 H8]. split; cbn; try done.
  - by apply NoDup_fmap_bfilter.
  - intros v [Hv _]%elem_of_bfilter. auto.
  - intros id t H.
    assert (activeStarts M !! id = Some t ∧ (t = w_token w → id ≠ w_instance w)) as [Ha Hne].
    { case_bool_decide as E; [apply lookup_delete_Some in H as [? ?]; auto|].
      split; [done|]. intros -> ->. done. }
    destruct (H5 id t Ha) as (v & Hv & Hi & Ht). exists v. split; [|done].
    apply elem_of_bfilter. split; [done|]. apply negb_true_iff, bool_decide_eq_false.
    intros E. rewrite <-Hi, <-Ht in *. apply Hne; [done|]. f_equal.
    by apply (NoDup_fmap_eq w_token (starts M)).
Qed.

Lemma waitForResume_ok ok w now M : manager_ok M → manager_ok (waitForResume ok w now M).
Proof.
  intros HM. unfold waitForResume. destruct (records M !! w_instance w) as [r|] eqn:Hr; [|done].
  destruct (mgr_records _ HM _ _ Hr) as [_ [H1 H2 H3 H4 H5]].
  destruct (bool_decide_reflect (phase r = Restarting)) as [Hp|]; rewrite ?andb_false_r; [|done].
  destruct (bool_decide _); [|done]. rewrite persist_eq. destruct ok; [|done]. cbn [andb].
  apply wrote_ok; [done|]. split; cbn; try done; [naive_solver|].
  intros Hd. rewrite (H4 Hd) in Hp. done.
Qed.

Lemma recordRestartFailure_ok ok w now M :
  manager_ok M → manager_ok (recordRestartFailure config ok w now M).
Proof.
  intros HM. unfold recordRestartFailure.
  destruct (records M !! w_instance w) as [r|] eqn:Hr; [|done].
  destruct (mgr_records _ HM _ _ Hr) as [_ Hok].
  destruct (bool_decide_reflect (desiredState r = Running)) as [Hd|];
    rewrite ?andb_false_r; [|done]. destruct (_ && _); [|done].
  destruct (recordStartFailure config ok r now M) as [[M' a]|] eqn:E; [|done].
  by apply (recordStartFailure_ok ok r now M HM Hok Hd M' a).
Qed.

Lemma enforce_ok ok w o now M :
  manager_ok M → manager_ok (enforceDesiredStateAfterStart ok w o now M).
Proof.
  intros HM. unfold enforceDesiredStateAfterStart.
  destruct (records M !! w_instance w) as [r|] eqn:Hr; [|done].
  destruct (mgr_records _ HM _ _ Hr) as [_ [H1 H2 H3 H4 H5]].
  case_decide; [|done]. rewrite persist_eq. destruct ok; [|done].
  apply schedule_ok, set_reported_ok, wrote_ok; [done|]. by split.
Qed.

Lemma begin_start_token w v : w_token (if bool_decide (w_token v = w_token w)
  then MkStart (w_instance v) (w_token v) (w_requestedAt v) true else v) = w_token v.
Proof. by destruct (bool_decide _). Qed.

Lemma begin_start_ok w M : manager_ok M → manager_ok (begin_start w M).
Proof.
  intros [H1 H2 H3 H4 H5 H6 H7 H8]. split; cbn; try done.
  - rewrite <-list_fmap_compose. erewrite list_fmap_ext; [exact H3|].
    intros i v _. apply begin_start_token.
  - intros v (u & -> & Hu)%list_elem_of_fmap. rewrite begin_start_token. auto.
  - intros id t Ht. destruct (H5 id t Ht) as (v & Hv & <- & <-). eexists. split.
    + apply list_elem_of_fmap_2, Hv.
    + by destruct (bool_decide _).
Qed.

(** What a fiber does to records leaves the fibers alone. *)
Lemma persist_starts ok r M M' : persist ok r M = Ok M' → starts M' = starts M.
Proof. rewrite persist_eq. destruct ok; [|done]. by intros <-%Ok_inj. Qed.

Lemma waitForResume_starts ok w now M : starts (waitForResume ok w now M) = starts M.
Proof.
  unfold waitForResume. repeat case_match; try done. by eapply persist_starts.
Qed.

Lemma recordRestartFailure_starts ok w now M :
  starts (recordRestartFailure config ok w now M) = starts M.
Proof.
  unfold recordRestartFailure. repeat case_match; try done. subst.
  unfold recordStartFailure, exhaust, persist_entry in *.
  repeat case_match; simplify_eq/=; by destruct ok; simplify_eq/=.
Qed.

Lemma schedule_starts o M : starts (scheduleCompensatingStop o M) = starts M.
Proof. unfold scheduleCompensatingStop. by case_match. Qed.

Lemma enforce_starts ok w o now M : starts (enforceDesiredStateAfterStart ok w o now M) = starts M.
Proof.
  unfold enforceDesiredStateAfterStart. repeat case_match; try done.
  rewrite schedule_starts. cbn. by eapply persist_starts.
Qed.

Lemma start_turn_ok ok w turn now M :
  w ∈ starts M → manager_ok M → manager_ok (start_turn ok w turn now M).
Proof.
  intros Hw HM. destruct turn; cbn.
  - destruct (stillWanted w M); [by apply begin_start_ok|by apply finish_start_ok].
  - apply finish_start_ok; [by rewrite waitForResume_starts|by apply waitForResume_ok].
  - by apply finish_start_ok.
Qed.

Lemma kept_ok {A} (s : Result string (Manager * A)) M :
  manager_ok M → step_ok s → manager_ok (kept s fst M).
Proof. intros HM Hs. destruct s as [[M' a]|]; [|done]. by apply (Hs M' a). Qed.

Lemma start_done_ok ok w o failed now M :
  w ∈ starts M → manager_ok M → manager_ok (start_done config ok w o failed now M).
Proof.
  intros Hw HM. unfold start_done. apply finish_start_ok; destruct failed.
  - by rewrite recordRestartFailure_starts.
  - by rewrite enforce_starts.
  - by apply recordRestartFailure_ok.
  - by apply enforce_ok.
Qed.

Lemma stop_turn_ok k granted stopped M :
  k ∈ stops M → manager_ok M → manager_ok (stop_turn k granted stopped M).
Proof.
  intros Hk HM. unfold stop_turn.
  set (M1 := if granted && negb (shouldStop k M) then M else _).
  assert (manager_ok M1 ∧ stops M1 = stops M) as [HM1 Es].
  { unfold M1. destruct (granted && _); [done|]. destruct (granted && stopped);
      (split; [by apply set_reported_ok|done]). }
  clearbody M1. destruct HM1 as [H1 H2 H3 H4 H5 H6 H7 H8]. split; cbn; try done.
  - intros v [Hv _]%elem_of_bfilter. auto.
  - intros id t H. apply elem_of_bfilter. rewrite <-Es in Hk.
    assert (activeStops M1 !! id = Some t ∧ MkStop id t ≠ k) as [Ha Hne].
    { case_bool_decide as E.
      - apply lookup_delete_Some in H as [Hne Ha]. split; [done|]. by intros <-.
      - split; [done|]. by intros <-. }
    split; [by apply H7|]. apply negb_true_iff, bool_decide_eq_false. cbn. intros ->.
    apply Hne. by apply (NoDup_fmap_eq k_token (stops M1)); [|apply H7| |].
  - by apply NoDup_fmap_bfilter.
Qed.

(** What the events are allowed to bring: a record put back is one that was
    recorded. *)
Definition recovery_event_ok (e : RecoveryEvent) : Prop :=
  match e with EvRestore _ id (Some r) => rec_ok r ∧ instanceId r = id | _ => True end.

Lemma event_ok M e : recovery_event_ok e → manager_ok M → manager_ok (event M e).
Proof.
  intros He HM. destruct e as [ok o now paused|ok id d now|ok id action now|ok id previous|ok id|
    |ok w turn now|ok w o failed now|k granted stopped]; cbn [recovery_event].
  - by apply kept_ok, reconcile_ok.
  - unfold recordProvisioned. rewrite persist_eq. destruct ok; [|done].
    apply wrote_ok; [done|apply initial_ok].
  - unfold recordPowerAction. rewrite persist_eq. destruct ok; [|done]. cbn.
    apply wrote_ok; [done|]. split; cbn; try done; lia.
  - unfold restore. destruct previous as [r|].
    + destruct He as [He _]. rewrite persist_eq. destruct ok; [|done]. by apply wrote_ok.
    + destruct (delete_record ok id M) eqn:E; [by eapply delete_ok|done].
  - unfold forget. destruct (delete_record ok id M) eqn:E; [by eapply delete_ok|done].
  - destruct HM as [H1 H2 H3 H4 H5 H6 H7 H8]. split; cbn; try done.
    + by rewrite <-H1.
    + constructor.
    + intros w Hw. by apply elem_of_nil in Hw.
    + intros k Hk. by apply elem_of_nil in Hk.
    + constructor.
  - case_decide as H; [|done]. apply start_turn_ok; tauto.
  - case_decide as H; [|done]. apply start_done_ok; tauto.
  - case_decide as H; [|done]. by apply stop_turn_ok.
Qed.

Lemma run_ok es : ∀ M, Forall recovery_event_ok es → manager_ok M → manager_ok (run es M).
Proof.
  induction es as [|e es IH]; intros M; [done|]. intros [He Hes]%Forall_cons HM.
  apply IH; [done|]. by apply event_ok.
Qed.

(** ** What an event leaves of the other servers *)

(** A start of the server that is still queued for its lane. *)
Definition is_queued (id : string) (active : gmap string nat) (w : StartWorker) : bool :=
  bool_decide (w_instance w = id) && negb (w_begun w) && bool_decide (active !! id = Some (w_token w)).

Definition queued (id : string) (M : Manager) : bool :=
  existsb (is_queued id (activeStarts M)) (starts M).

Definition same (id : string) (M M' : Manager) : Prop :=
  records M' !! id = records M !! id ∧ queued id M' = queued id M.

Definition same_step {A} (id : string) (M : Manager) (s : Result string (Manager * A)) : Prop :=
  ∀ M' a, s = Ok (M', a) → same id M M'.

Lemma same_refl id M : same id M M.
Proof. done. Qed.

Lemma same_trans id M1 M2 M3 : same id M1 M2 → same id M2 M3 → same id M1 M3.
Proof. intros [? ?] [? ?]. split; congruence. Qed.

Lemma wrote_same id r M : instanceId r ≠ id → same id M (wrote r M).
Proof. intros Hne. split; [|done]. cbn. by apply lookup_insert_ne. Qed.

Lemma persist_entry_same id ok r M :
  instanceId r ≠ id → same_step id M (persist_entry config ok r M).
Proof.
  intros Hne M' a. unfold persist_entry. rewrite persist_eq. destruct ok; [|done].
  cbn. intros [<- _]%Ok_inj%pair_equal_spec. by apply wrote_same.
Qed.

Lemma delete_same id ok i M M' : i ≠ id → delete_record ok i M = Ok M' → same id M M'.
Proof.
  intros Hne. unfold delete_record. destruct ok; [|done]. intros <-%Ok_inj.
  split; [|done]. cbn. by apply lookup_delete_ne.
Qed.

Lemma schedule_same id o M : same id M (scheduleCompensatingStop o M).
Proof. unfold scheduleCompensatingStop. by case_match. Qed.

Lemma queue_start_same id i now M :
  i ≠ id →
  same id M (set_starts (<[i := next_symbol M]> (activeStarts M)) (S (next_symbol M))
    (starts M ++ [MkStart i (next_symbol M) now false]) M).
Proof.
  intros Hne. split; [done|]. unfold queued. cbn. rewrite existsb_app. cbn.
  unfold is_queued. rewrite lookup_insert_ne by done. cbn.
  by rewrite (bool_decide_false (i = id)), !orb_false_r.
Qed.

Lemma finish_start_same id w M :
  manager_ok M → w ∈ starts M → w_instance w ≠ id → same id M (finish_start w M).
Proof.
  intros HM Hw Hne. split; [done|]. unfold queued. cbn.
  assert ((if bool_decide (activeStarts M !! w_instance w = Some (w_token w))
           then delete (w_instance w) (activeStarts M) else activeStarts M) !! id
          = activeStarts M !! id) as Ea by (case_match; [by apply lookup_delete_ne|done]).
  unfold is_queued. rewrite Ea. apply eq_true_iff_eq. rewrite !existsb_elem. split.
  - intros (v & [Hv _]%elem_of_bfilter & H). eauto.
  - intros (v & Hv & H). exists v. split; [|done]. apply elem_of_bfilter. split; [done|].
    apply negb_true_iff, bool_decide_eq_false. intros E. apply Hne.
    rewrite <-(NoDup_fmap_eq w_token (starts M) v w) by (done || apply HM).
    rewrite !andb_true_iff, !bool_decide_eq_true in H. tauto.
Qed.

Lemma begin_start_same id w M :
  manager_ok M → w ∈ starts M → w_instance w ≠ id → same id M (begin_start w M).
Proof.
  intros HM Hw Hne. split; [done|]. unfold queued. cbn. apply eq_true_iff_eq.
  rewrite !existsb_elem. split.
  - intros (u & (v & -> & Hv)%list_elem_of_fmap & H). exists v. split; [done|].
    case_bool_decide; [|done]. unfold is_queued in H. cbn in H.
    by rewrite andb_false_r in H.
  - intros (v & Hv & H). exists v. split; [|done]. apply list_elem_of_fmap. exists v.
    split; [|done]. case_bool_decide as E; [|done]. exfalso. apply Hne.
    rewrite <-(NoDup_fmap_eq w_token (starts M) v w) by (done || apply HM).
    unfold is_queued in H. rewrite !andb_true_iff, !bool_decide_eq_true in H. tauto.
Qed.

Lemma same_ok_step {A} id M M' (a : A) : same id M M' → same_step id M (Ok (M', a)).
Proof. intros H M1 a1 [<- _]%Ok_inj%pair_equal_spec. done. Qed.

Lemma requestRestart_same id ok r o now M :
  instanceId r ≠ id → o_instanceId o ≠ id → same_step id M (requestRestart config ok r o now M).
Proof.
  intros Hr Ho. unfold requestRestart. rewrite persist_eq. destruct ok; [|done].
  cbn [result_bind]. apply same_ok_step. set (r' := moved r _ _ _ _ _ _).
  apply (same_trans id M (wrote r' M)); [by apply wrote_same|].
  by apply (queue_start_same id (o_instanceId o) now (wrote r' M)).
Qed.

Lemma reconcile_stopped_same id ok r o now M :
  instanceId r ≠ id → same_step id M (reconcile_stopped config ok r o now M).
Proof.
  intros Hr. unfold reconcile_stopped.
  assert (∀ M', same id M M' →
    same id M (if running o && stopPending r then scheduleCompensatingStop o M' else M')) as Henf.
  { intros M' H. destruct (_ && _); [|done]. eapply same_trans; [exact H|apply schedule_same]. }
  destruct (_ && _ && _ && _); [by apply same_ok_step, Henf|].
  rewrite persist_eq. destruct ok; [|done]. cbn. by apply same_ok_step, Henf, wrote_same.
Qed.

Lemma reconcile_same id ok o now paused M :
  manager_ok M → o_instanceId o ≠ id → same_step id M (reconcile ok o now paused M).
Proof.
  intros HM Hne. unfold reconcileObservation.
  destruct (records M !! o_instanceId o) as [r|] eqn:Hr.
  - destruct (mgr_records _ HM _ _ Hr) as [Hi _]. assert (instanceId r ≠ id) as Hr' by congruence.
    destruct (negb (managedByRelay o)).
    { destruct (delete_record ok (o_instanceId o) M) as [M1|] eqn:Hd; [|done].
      apply same_ok_step. exact (delete_same id ok _ M M1 Hne Hd). }
    destruct (transitionActive o); [by apply same_ok_step|].
    case_decide; [by apply reconcile_stopped_same|].
    destruct (running o).
    + unfold reconcileRunning. cbv zeta. repeat case_match; try (by apply same_ok_step);
        by apply persist_entry_same.
    + unfold reconcile_down, recordStartFailure, recordExit, exhaust. cbv zeta.
      repeat case_match; try (by apply same_ok_step); try (by apply requestRestart_same);
        by apply persist_entry_same.
  - destruct (negb (managedByRelay o)); [by apply same_ok_step|].
    unfold reconcile_new, recordExit, exhaust. cbv zeta.
    repeat case_match; by apply persist_entry_same.
Qed.

(** The server an event is about, if it is about one. *)
Definition subject (e : RecoveryEvent) : option string :=
  match e with
  | EvReconcile _ o _ _ => Some (o_instanceId o)
  | EvProvisioned _ id _ _ | EvPower _ id _ _ | EvRestore _ id _ | EvForget _ id => Some id
  | EvInitialize => None
  | EvStartTurn _ w _ _ | EvStartDone _ w _ _ _ => Some (w_instance w)
  | EvStopTurn k _ _ => Some (k_instance k)
  end.

Lemma kept_same {A} id (s : Result string (Manager * A)) M :
  same_step id M s → same id M (kept s fst M).
Proof. intros Hs. destruct s as [[M' a]|]; [by apply (Hs M' a)|done]. Qed.

Lemma persist_same id ok r M :
  instanceId r ≠ id → same id M (kept (persist ok r M) (λ m, m) M).
Proof. intros H. rewrite persist_eq. destruct ok; [by apply wrote_same|done]. Qed.

Lemma delete_kept_same id ok i M :
  i ≠ id → same id M (kept (delete_record ok i M) (λ m, m) M).
Proof. intros H. destruct (delete_record ok i M) eqn:E; [exact (delete_same id ok i M _ H E)|done]. Qed.

Lemma fiber_record_same id ok w now M :
  manager_ok M → w_instance w ≠ id →
  same id M (waitForResume ok w now M) ∧ same id M (recordRestartFailure config ok w now M) ∧
  ∀ o, same id M (enforceDesiredStateAfterStart ok w o now M).
Proof.
  intros HM Hne. unfold waitForResume, recordRestartFailure, enforceDesiredStateAfterStart.
  destruct (records M !! w_instance w) as [r|] eqn:Hr; [|done].
  destruct (mgr_records _ HM _ _ Hr) as [Hi _]. assert (instanceId r ≠ id) as Hr' by congruence.
  split; [|split].
  - case_match; [|done]. rewrite persist_eq. destruct ok; [by apply wrote_same|done].
  - case_match; [|done]. destruct (recordStartFailure config ok r now M) as [[M' a]|] eqn:E; [|done].
    unfold recordStartFailure, exhaust in E. case_decide;
      (refine (persist_entry_same id ok _ M _ M' a E); done).
  - intros o. case_decide; [|done]. rewrite persist_eq. destruct ok; [|done].
    set (r' := moved r _ _ _ _ _ _). apply (same_trans id M (wrote r' M)); [by apply wrote_same|].
    eapply same_trans; [|apply schedule_same]. by split.
Qed.

Lemma event_other id i M e :
  manager_ok M → recovery_event_ok e → subject e = Some i → i ≠ id → same id M (event M e).
Proof.
  intros HM He Hs Hne. destruct e as [ok o now paused|ok j d now|ok j action now|ok j previous|ok j|
    |ok w turn now|ok w o failed now|k granted stopped]; try discriminate Hs;
    injection Hs as <-; cbn [recovery_event].
  - by apply kept_same, reconcile_same.
  - by apply persist_same.
  - apply kept_same. unfold recordPowerAction. rewrite persist_eq. destruct ok; [|done].
    apply same_ok_step, wrote_same. cbn. destruct (records M !! j) as [r|] eqn:Hr; [|done].
    destruct (mgr_records _ HM _ _ Hr) as [Hi _]. cbn. congruence.
  - unfold restore. destruct previous as [r|]; [|by apply delete_kept_same].
    apply persist_same. by destruct He as [_ ->].
  - by apply delete_kept_same.
  - case_decide as Hw; [|done]. destruct Hw as [Hw _]. destruct turn; cbn [start_turn].
    + case_match; [by apply begin_start_same|by apply finish_start_same].
    + destruct (fiber_record_same id ok w now M HM Hne) as (Hwait & _).
      eapply same_trans; [exact Hwait|]. apply finish_start_same; [by apply waitForResume_ok|by rewrite waitForResume_starts|done].
    + by apply finish_start_same.
  - case_decide as Hw; [|done]. destruct Hw as (Hw & _ & _). unfold start_done.
    destruct (fiber_record_same id ok w now M HM Hne) as (_ & Hf & He').
    destruct failed.
    + apply (same_trans id M (recordRestartFailure config ok w now M)); [exact Hf|].
      apply finish_start_same; [by apply recordRestartFailure_ok| |done].
      by rewrite recordRestartFailure_starts.
    + apply (same_trans id M (enforceDesiredStateAfterStart ok w o now M)); [exact (He' o)|].
      apply finish_start_same; [by apply enforce_ok|by rewrite enforce_starts|done].
  - case_decide; [|done]. unfold stop_turn. by repeat case_match.
Qed.

(** ** A stop wins *)

Definition stopped (id : string) (M : Manager) : Prop :=
  ∃ r, records M !! id = Some r ∧ desiredState r = Stopped.

(** The event does not ask for the server to run, nor forgets it. *)
Definition keeps_intent (id : string) (e : RecoveryEvent) : Prop :=
  match e with
  | EvReconcile _ o _ _ => o_instanceId o = id → managedByRelay o = true
  | EvPower _ i action _ => i = id → wants action = Stopped
  | EvProvisioned _ i _ _ | EvRestore _ i _ | EvForget _ i => i ≠ id
  | _ => True
  end.

Lemma wrote_stopped id r M : instanceId r = id → desiredState r = Stopped → stopped id (wrote r M).
Proof. intros <- Hd. exists r. split; [|done]. cbn. apply lookup_insert_eq. Qed.

Lemma same_stopped id M M' : same id M M' → stopped id M → stopped id M'.
Proof. intros [E _] (r & Hr & Hd). exists r. by rewrite E. Qed.

Lemma reconcile_stays_stopped id ok o now paused M M' a :
  manager_ok M → o_instanceId o = id → managedByRelay o = true → stopped id M →
  reconcile ok o now paused M = Ok (M', a) → stopped id M'.
Proof.
  intros HM <- Hm (r & Hr & Hd). destruct (mgr_records _ HM _ _ Hr) as [Hi _].
  unfold reconcileObservation. rewrite Hr, Hm. cbn [negb].
  destruct (transitionActive o); [intros [<- _]%Ok_inj%pair_equal_spec; by exists r|].
  rewrite decide_True by done. unfold reconcile_stopped.
  assert (∀ M1, stopped (o_instanceId o) M1 →
    stopped (o_instanceId o) (if running o && stopPending r then scheduleCompensatingStop o M1 else M1))
    as Henf.
  { intros M1 H. destruct (_ && _); [|done]. eapply same_stopped; [apply schedule_same|done]. }
  destruct (_ && _ && _ && _).
  - intros [<- _]%Ok_inj%pair_equal_spec. apply Henf. by exists r.
  - rewrite persist_eq. destruct ok; [|done]. intros [<- _]%Ok_inj%pair_equal_spec.
    by apply Henf, wrote_stopped.
Qed.

Lemma fiber_stays_stopped ok w now M :
  manager_ok M → stopped (w_instance w) M →
  waitForResume ok w now M = M ∧ recordRestartFailure config ok w now M = M ∧
  ∀ o, stopped (w_instance w) (enforceDesiredStateAfterStart ok w o now M).
Proof.
  intros HM Hs. pose proof Hs as (r & Hr & Hd). destruct (mgr_records _ HM _ _ Hr) as [Hi Hok].
  unfold waitForResume, recordRestartFailure, enforceDesiredStateAfterStart. rewrite Hr, Hd.
  rewrite (rec_stopped _ Hok Hd). cbn. rewrite !andb_false_r. split; [done|]. split; [done|].
  intros o. rewrite persist_eq. destruct ok; [|done].
  eapply same_stopped; [apply schedule_same|].
  by apply (wrote_stopped (w_instance w) (moved r _ _ _ _ _ _)).
Qed.

Lemma event_stopped id M e :
  manager_ok M → recovery_event_ok e → keeps_intent id e → stopped id M →
  stopped id (event M e) ∧ begins_start id M e = false.
Proof.
  intros HM He Hk Hs. split.
  - destruct (subject e) as [i|] eqn:Hsub.
    2:{ destruct e; try discriminate Hsub. destruct Hs as (r & Hr & Hd). exists r.
        cbn. by rewrite <-(mgr_table _ HM). }
    destruct (decide (i = id)) as [->|Hne].
    2:{ eapply same_stopped; [by eapply event_other|done]. }
    destruct e as [ok o now paused|ok j d now|ok j action now|ok j previous|ok j|
      |ok w turn now|ok w o failed now|k granted st]; try discriminate Hsub;
      injection Hsub as Hsub; cbn [recovery_event keeps_intent] in *; try (exfalso; exact (Hk Hsub)).
    + destruct (reconcile ok o now paused M) as [[M' a]|] eqn:E; [|done].
      exact (reconcile_stays_stopped id ok o now paused M M' a HM Hsub (Hk Hsub) Hs E).
    + unfold recordPowerAction. rewrite persist_eq. destruct ok; [|done]. cbn [result_bind kept fst].
      apply wrote_stopped; [|exact (Hk Hsub)]. subst j. cbn.
      destruct Hs as (r & Hr & _). rewrite Hr. by destruct (mgr_records _ HM _ _ Hr) as [? _].
    + subst id. case_decide as Hw; [|done]. destruct turn; cbn [start_turn].
      * case_match; exact Hs.
      * destruct (fiber_stays_stopped ok w now M HM Hs) as (-> & _ & _). exact Hs.
      * exact Hs.
    + subst id. case_decide as Hw; [|done]. unfold start_done.
      destruct (fiber_stays_stopped ok w now M HM Hs) as (_ & -> & H).
      destruct failed; [exact Hs|exact (H o)].
    + case_decide; [|done]. unfold stop_turn. destruct Hs as (r & Hr & Hd). exists r.
      split; [|done]. by repeat case_match.
  - destruct e as [| | | | | |ok w [] now| |]; try done. cbn.
    destruct (bool_decide_reflect (w_instance w = id)) as [<-|]; [|by rewrite andb_false_r].
    destruct Hs as (r & Hr & Hd). unfold stillWanted. rewrite Hr, Hd. cbn. by rewrite !andb_false_r.
Qed.

(** ** Only so many starts *)

(** The starts a record still allows: an attempt that is pending, or whose
    start is still queued, has been counted but not made. *)
Definition rec_credit (q : bool) (r : Recovery) : Z :=
  match desiredState r with
  | Stopped => 0
  | Running =>
      maxRetries config - attempts r +
      match phase r with Pending => 1 | Restarting => if q then 1 else 0 | _ => 0 end
  end.

Definition credit (id : string) (M : Manager) : Z :=
  match records M !! id with
  | Some r => rec_credit (queued id M) r
  | None => maxRetries config
  end.

(** The container has been up for the stability window. *)
Definition long_running (o : Observation) (now : Z) : bool :=
  match Date_parse (startedAt o) with
  | Some started => bool_decide (now - started >= stabilityMs config)%Z
  | None => false
  end.

(** The event gives the server its attempts back: it was stable, someone acted
    on it or started it themselves, or its record is dropped or replaced. *)
Definition renews (id : string) (M : Manager) (e : RecoveryEvent) : Prop :=
  match e with
  | EvProvisioned _ i _ _ | EvPower _ i _ _ | EvRestore _ i _ | EvForget _ i => i = id
  | EvReconcile _ o now _ =>
      o_instanceId o = id ∧
      (managedByRelay o = false ∨
       running o = true ∧
         (long_running o now = true ∨ ∃ r, records M !! id = Some r ∧ phase r = Failed))
  | _ => False
  end.

Definition spends {A} (id : string) (c : Z) (s : Result string (Manager * A)) : Prop :=
  ∀ M' a, s = Ok (M', a) → (credit id M' ≤ c)%Z.

Lemma rec_credit_mono q r : (rec_credit q r ≤ rec_credit true r)%Z.
Proof. unfold rec_credit. destruct (desiredState r), (phase r), q; lia. Qed.

Lemma rec_credit_nonneg q r : rec_ok r → (0 ≤ rec_credit q r)%Z.
Proof. intros [[_ H] _ _ _ _]. unfold rec_credit. destruct (desiredState r), (phase r), q; lia. Qed.

Lemma credit_nonneg id M : manager_ok M → (0 ≤ credit id M)%Z.
Proof.
  intros HM. unfold credit. destruct (records M !! id) as [r|] eqn:Hr; [|done].
  apply rec_credit_nonneg. by apply (mgr_records _ HM _ _ Hr).
Qed.

Lemma credit_same id M M' : same id M M' → credit id M' = credit id M.
Proof. intros [Er Eq]. unfold credit. by rewrite Er, Eq. Qed.

Lemma credit_wrote r M : credit (instanceId r) (wrote r M) = rec_credit (queued (instanceId r) M) r.
Proof. unfold credit. cbn. by rewrite lookup_insert_eq. Qed.

(** Fibers that only go away take credit with them. *)
Lemma credit_shrink id M M' :
  records M' !! id = records M !! id → (queued id M' = true → queued id M = true) →
  (credit id M' ≤ credit id M)%Z.
Proof.
  intros Er Hq. unfold credit. rewrite Er. destruct (records M !! id) as [r|]; [|lia].
  unfold rec_credit. destruct (desiredState r), (phase r); try lia.
  destruct (queued id M'); [by rewrite Hq|destruct (queued id M); lia].
Qed.

Lemma persist_entry_spends id c ok r M :
  instanceId r = id → (rec_credit (queued id M) r ≤ c)%Z →
  spends id c (persist_entry config ok r M).
Proof.
  intros <- Hc M' a. unfold persist_entry. rewrite persist_eq. destruct ok; [|done].
  intros [<- _]%Ok_inj%pair_equal_spec. by rewrite credit_wrote.
Qed.

Lemma same_spends {A} id c (M : Manager) (a : A) : (credit id M ≤ c)%Z → spends id c (Ok (M, a)).
Proof. intros Hc M' a' [<- _]%Ok_inj%pair_equal_spec. done. Qed.

Ltac credit_of := unfold rec_credit; cbn; repeat case_match; try lia; try congruence.

Lemma recordExit_spends ok r o now M c :
  (maxRetries config - attempts r ≤ c)%Z → rec_ok r →
  spends (instanceId r) c (recordExit Date_parse config ok r o now M).
Proof.
  intros Hc [[_ Ha] _ _ _ _]. unfold recordExit, exhaust.
  case_decide; apply persist_entry_spends; try done; credit_of.
Qed.

Lemma recordStartFailure_spends ok r now M c :
  (maxRetries config - attempts r ≤ c)%Z → rec_ok r →
  spends (instanceId r) c (recordStartFailure config ok r now M).
Proof.
  intros Hc [[_ Ha] _ _ _ _]. unfold recordStartFailure, exhaust.
  case_decide; apply persist_entry_spends; try done; credit_of.
Qed.

Lemma requestRestart_spends ok r o now M c :
  instanceId r = o_instanceId o → phase r = Pending → desiredState r = Running →
  (rec_credit false r ≤ c)%Z → spends (instanceId r) c (requestRestart config ok r o now M).
Proof.
  intros Hi Hp Hd Hc. unfold requestRestart. rewrite persist_eq. destruct ok; [|done].
  cbn [result_bind]. apply same_spends. rewrite Hi. unfold credit. cbn.
  rewrite Hi, lookup_insert_eq. etransitivity; [apply rec_credit_mono|].
  unfold rec_credit in *. cbn. rewrite Hd, Hp in *. lia.
Qed.

Lemma reconcileRunning_spends ok r o now M :
  rec_ok r → desiredState r = Running → long_running o now = false → phase r ≠ Failed →
  spends (instanceId r) (rec_credit (queued (instanceId r) M) r)
    (reconcileRunning Date_parse config ok r o now M) ∨
  ∃ s, reconcileRunning Date_parse config ok r o now M = Ok (M, s).
Proof.
  intros Hr Hd Hlong Hf. unfold long_running in Hlong. unfold reconcileRunning.
  rewrite Hlong. cbn [andb]. destruct (ready o) eqn:Hready; cbn [andb].
  - case_bool_decide as Hp; [left; apply persist_entry_spends; [done|]; credit_of|].
    rewrite decide_False by done. case_decide; [left; apply persist_entry_spends; [done|]; credit_of|].
    destruct (stopPending r); [left; apply persist_entry_spends; [done|]; credit_of|right; eauto].
  - rewrite decide_False by done. case_decide; [left; apply persist_entry_spends; [done|]; credit_of|].
    destruct (stopPending r); [left; apply persist_entry_spends; [done|]; credit_of|right; eauto].
Qed.

Lemma rec_credit_base q r : desiredState r = Running → (maxRetries config - attempts r ≤ rec_credit q r)%Z.
Proof. intros Hd. unfold rec_credit. rewrite Hd. destruct (phase r), q; lia. Qed.

Lemma reconcile_down_spends ok r o now paused M :
  records M !! o_instanceId o = Some r → instanceId r = o_instanceId o →
  rec_ok r → desiredState r = Running →
  spends (instanceId r) (credit (instanceId r) M) (reconcile_down Date_parse config ok r o now paused M).
Proof.
  intros Hr Hi Hok Hd.
  assert (credit (instanceId r) M = rec_credit (queued (instanceId r) M) r) as Ec.
  { unfold credit. by rewrite Hi, Hr. }
  unfold reconcile_down. destruct (negb (installationReady o)).
  { apply persist_entry_spends; [done|]. rewrite Ec.
    etransitivity; [|by apply rec_credit_nonneg]. done. }
  destruct (restarting o); [by apply same_spends|].
  destruct (bool_decide_reflect (phase r = Pending)) as [Hp|Hp]; cbn [andb].
  { destruct (match nextAttemptAt r with Some _ => _ | None => _ end).
    - destruct paused; [by apply same_spends|]. apply requestRestart_spends; try done.
      rewrite Ec. unfold rec_credit. by rewrite Hd, Hp.
    - rewrite bool_decide_false by (rewrite Hp; done). cbn [andb].
      case_decide; [by apply same_spends|]. apply recordExit_spends; [|done].
      rewrite Ec. by apply rec_credit_base. }
  destruct (bool_decide_reflect (phase r = Restarting)) as [Hq|Hq]; cbn [andb];
    [destruct (bool_decide (lastStartedAt r = _))|].
  - destruct (bool_decide _); [by apply same_spends|]. destruct (nextAttemptAt r).
    + case_decide; [by apply same_spends|]. apply recordStartFailure_spends; [|done].
      rewrite Ec. by apply rec_credit_base.
    + apply persist_entry_spends; [done|]. rewrite Ec. unfold rec_credit. cbn. by rewrite Hd, Hq.
  - case_decide; [by apply same_spends|]. apply recordExit_spends; [|done].
    rewrite Ec. by apply rec_credit_base.
  - case_decide; [by apply same_spends|]. apply recordExit_spends; [|done].
    rewrite Ec. by apply rec_credit_base.
Qed.

Lemma reconcile_stopped_spends ok r o now M :
  desiredState r = Stopped → instanceId r = o_instanceId o → records M !! o_instanceId o = Some r →
  spends (instanceId r) 0 (reconcile_stopped config ok r o now M).
Proof.
  intros Hd Hi Hr. unfold reconcile_stopped.
  assert (∀ M1, (credit (instanceId r) M1 ≤ 0)%Z →
    (credit (instanceId r) (if running o && stopPending r then scheduleCompensatingStop o M1 else M1) ≤ 0)%Z)
    as Henf.
  { intros M1 H. destruct (_ && _); [|done]. by rewrite (credit_same _ M1) by apply schedule_same. }
  destruct (_ && _ && _ && _).
  - apply same_spends, Henf. unfold credit. rewrite Hi, Hr. unfold rec_credit. by rewrite Hd.
  - rewrite persist_eq. destruct ok; [|done]. cbn [result_bind]. apply same_spends, Henf.
    set (r' := moved r _ _ _ _ _ _). rewrite (credit_wrote r'). unfold rec_credit. cbn. by rewrite Hd.
Qed.

Lemma reconcile_spends id ok o now paused M :
  manager_ok M → o_instanceId o = id → ¬ renews id M (EvReconcile ok o now paused) →
  spends id (credit id M) (reconcile ok o now paused M).
Proof.
  intros HM <- Hno. unfold reconcileObservation. cbn [renews] in Hno.
  destruct (managedByRelay o); [|by destruct Hno; auto]. cbn [negb].
  destruct (records M !! o_instanceId o) as [r|] eqn:Hr.
  - destruct (mgr_records _ HM _ _ Hr) as [Hi Hok].
    assert (credit (o_instanceId o) M = rec_credit (queued (instanceId r) M) r) as Ec
      by (unfold credit; by rewrite Hr, Hi).
    destruct (transitionActive o); [by apply same_spends|].
    case_decide as Hs.
    { intros M' a E. pose proof (reconcile_stopped_spends ok r o now M Hs Hi Hr M' a E) as H.
      rewrite Hi in H. etransitivity; [exact H|]. by apply credit_nonneg. }
    assert (desiredState r = Running) as Hd by by destruct (desiredState r).
    destruct (running o) eqn:Hrun.
    + destruct (reconcileRunning_spends ok r o now M Hok Hd) as [H|[s ->]].
      * destruct (long_running o now) eqn:E; [|done]. destruct Hno. auto.
      * intros Hp. destruct Hno. split; [done|]. right. split; [done|]. right. eauto.
      * rewrite Ec, <-Hi. exact H.
      * by apply same_spends.
    + rewrite <-Hi. apply reconcile_down_spends; congruence.
  - unfold reconcile_new. cbv zeta. set (preserve := running o || _).
    assert (credit (o_instanceId o) M = maxRetries config) as -> by (unfold credit; by rewrite Hr).
    set (initial := initialRecoveryRecord _ _ _ _).
    assert (instanceId initial = o_instanceId o) as Hi by done.
    destruct (preserve && _ && _).
    + rewrite <-Hi. apply recordExit_spends; [cbn; lia|apply initial_ok].
    + apply persist_entry_spends; [done|]. unfold rec_credit, initial. cbn. destruct preserve; lia.
Qed.

Lemma finish_start_credit id w M : (credit id (finish_start w M) ≤ credit id M)%Z.
Proof.
  apply credit_shrink; [done|]. unfold queued, is_queued. cbn. rewrite !existsb_elem.
  intros (v & [Hv _]%elem_of_bfilter & H). exists v. split; [done|].
  rewrite !andb_true_iff, !bool_decide_eq_true in *. destruct H as [[Hi Hb] Ha].
  split; [done|]. case_bool_decide; [|done]. by apply lookup_delete_Some in Ha as [_ Ha].
Qed.

(** Calling Docker uses up the queued start. *)
Lemma begin_start_credit w M :
  manager_ok M → w ∈ starts M → w_begun w = false → stillWanted w M = true →
  (credit (w_instance w) (begin_start w M) + 1 ≤ credit (w_instance w) M)%Z.
Proof.
  intros HM Hw Hb Hs. unfold stillWanted in Hs. apply andb_true_iff in Hs as [Ha%bool_decide_eq_true Hr].
  unfold credit. change (records (begin_start w M)) with (records M).
  destruct (records M !! w_instance w) as [r|]; [|done].
  rewrite andb_true_iff, !bool_decide_eq_true in Hr. destruct Hr as [Hd Hp].
  assert (queued (w_instance w) M = true) as ->.
  { apply existsb_elem. exists w. split; [done|]. unfold is_queued. rewrite Hb, Ha.
    by rewrite !bool_decide_true. }
  assert (queued (w_instance w) (begin_start w M) = false) as ->.
  { apply existsb_false. intros u (v & -> & Hv)%list_elem_of_fmap. unfold is_queued.
    change (activeStarts (begin_start w M)) with (activeStarts M). rewrite Ha.
    destruct (bool_decide_reflect (w_token v = w_token w)) as [E|E].
    - cbn [w_begun negb]. by rewrite andb_false_r.
    - rewrite (bool_decide_false (Some _ = Some _)); [by rewrite andb_false_r|]. by intros [= E']. }
  unfold rec_credit. rewrite Hd, Hp. lia.
Qed.

Lemma waitForResume_credit ok w now M :
  manager_ok M → w ∈ starts M → w_begun w = false →
  (credit (w_instance w) (waitForResume ok w now M) ≤ credit (w_instance w) M)%Z.
Proof.
  intros HM Hw Hb. unfold waitForResume.
  destruct (records M !! w_instance w) as [r|] eqn:Hr; [|lia].
  destruct (mgr_records _ HM _ _ Hr) as [Hi Hok].
  destruct (_ && _) eqn:Hc; [|lia]. rewrite andb_true_iff, !bool_decide_eq_true in Hc.
  destruct Hc as [Ha Hp]. rewrite persist_eq. destruct ok; [|lia].
  set (r' := moved r _ _ _ _ _ _). rewrite <-Hi at 1. rewrite (credit_wrote r').
  unfold credit. rewrite Hr.
  assert (queued (w_instance w) M = true) as ->.
  { apply existsb_elem. exists w. split; [done|]. unfold is_queued. rewrite Hb, Ha.
    by rewrite !bool_decide_true. }
  unfold rec_credit, r'. cbn. rewrite Hp. destruct (desiredState r); lia.
Qed.

Lemma start_done_credit ok w o failed now M :
  manager_ok M →
  (credit (w_instance w) (start_done config ok w o failed now M) ≤ credit (w_instance w) M)%Z.
Proof.
  intros HM. unfold start_done. etransitivity; [apply finish_start_credit|].
  unfold recordRestartFailure, enforceDesiredStateAfterStart.
  destruct (records M !! w_instance w) as [r|] eqn:Hr; [|by destruct failed].
  destruct (mgr_records _ HM _ _ Hr) as [Hi Hok]. destruct failed.
  - destruct (bool_decide_reflect (desiredState r = Running)) as [Hd|]; rewrite ?andb_false_r; [|done].
    destruct (_ && _); [|done]. destruct (recordStartFailure config ok r now M) as [[M' a]|] eqn:E; [|done].
    rewrite <-Hi. eapply recordStartFailure_spends; [| |exact E]; [|done].
    unfold credit. rewrite Hi, Hr. by apply rec_credit_base.
  - case_decide as Hd; [|done]. rewrite persist_eq. destruct ok; [|done].
    rewrite (credit_same _ (set_reported _ (wrote _ M))) by apply schedule_same.
    set (r' := moved r _ _ _ _ _ _).
    change (credit (w_instance w) (set_reported (reportedStopFailures (wrote r' M) ∖ {[w_instance w]})
      (wrote r' M))) with (credit (w_instance w) (wrote r' M)).
    rewrite <-Hi at 1. rewrite (credit_wrote r'). unfold credit. rewrite Hr.
    unfold rec_credit, r'. cbn. by rewrite Hd.
Qed.

Lemma event_credit id M e :
  manager_ok M → recovery_event_ok e → ¬ renews id M e →
  ((if begins_start id M e then 1 else 0) + credit id (event M e) ≤ credit id M)%Z.
Proof.
  intros HM He Hno. destruct (subject e) as [i|] eqn:Hsub.
  2:{ destruct e; try discriminate Hsub. cbn [begins_start]. rewrite Z.add_0_l.
      apply credit_shrink; [by cbn; rewrite <-(mgr_table _ HM)|done]. }
  destruct (decide (i = id)) as [->|Hne].
  2:{ rewrite (credit_same id M) by by eapply event_other.
      assert (begins_start id M e = false) as ->; [|lia].
      destruct e as [| | | | | |ok w [] now| |]; try done. injection Hsub as <-. cbn.
      by rewrite (bool_decide_false (w_instance w = id)), andb_false_r. }
  destruct e as [ok o now paused|ok j d now|ok j action now|ok j previous|ok j|
    |ok w turn now|ok w o failed now|k granted st]; try discriminate Hsub;
    injection Hsub as Hsub; cbn [recovery_event begins_start] in *;
    try (exfalso; apply Hno; exact Hsub); rewrite ?Z.add_0_l.
  - destruct (reconcile ok o now paused M) as [[M' a]|] eqn:E; [|done].
    exact (reconcile_spends id ok o now paused M HM Hsub Hno M' a E).
  - subst id. destruct turn; rewrite ?Z.add_0_l.
    + case_decide as Hw; [|rewrite bool_decide_false by done; cbn; lia].
      rewrite !bool_decide_true by done. cbn. destruct Hw as [Hw Hb].
      destruct (stillWanted w M) eqn:Hs; cbn.
      * pose proof (begin_start_credit w M HM Hw Hb Hs). lia.
      * pose proof (finish_start_credit (w_instance w) w M). lia.
    + case_decide as Hw; [|lia]. destruct Hw as [Hw Hb]. cbn.
      etransitivity; [apply finish_start_credit|]. by apply waitForResume_credit.
    + case_decide as Hw; [|lia]. apply finish_start_credit.
  - subst id. case_decide as Hw; [|lia]. by apply start_done_credit.
  - case_decide as Hw; [|lia]. apply Z.eq_le_incl, credit_same.
    unfold stop_turn. by repeat case_match.
Qed.

(** No event of the run gives the server its attempts back. *)
Fixpoint never_renewed (id : string) (es : list RecoveryEvent) (M : Manager) : Prop :=
  match es with
  | [] => True
  | e :: rest => ¬ renews id M e ∧ never_renewed id rest (event M e)
  end.

Lemma count_credit id es : ∀ M,
  manager_ok M → Forall recovery_event_ok es → never_renewed id es M →
  (count_starts Date_parse config id es M + credit id (run es M) ≤ credit id M)%Z.
Proof.
  induction es as [|e es IH]; intros M HM Hes Hno; [cbn; lia|].
  apply Forall_cons in Hes as [He Hes]. destruct Hno as [Hn Hno].
  pose proof (event_credit id M e HM He Hn). pose proof (IH (event M e) (event_ok M e He HM) Hes Hno).
  cbn [count_starts]. change (run (e :: es) M) with (run es (event M e)). lia.
Qed.

(** ** When an attempt is made, and when the next one is *)

Lemma retryDelay_spec attempt :
  (0 ≤ initialDelayMs config)%Z →
  (0 ≤ retryDelayMs attempt (initialDelayMs config) ≤ MAXIMUM_RETRY_DELAY_MS)%Z ∧
  (retryDelayMs attempt (initialDelayMs config) ≤ retryDelayMs (attempt + 1) (initialDelayMs config))%Z.
Proof.
  intros Hi. unfold retryDelayMs. case_decide; [unfold MAXIMUM_RETRY_DELAY_MS; lia|].
  assert (0 < 3 ^ Z.max (attempt - 1) 0)%Z as H3 by (apply Z.pow_pos_nonneg; lia).
  assert (3 ^ Z.max (attempt - 1) 0 ≤ 3 ^ Z.max (attempt + 1 - 1) 0)%Z as Hle
    by (apply Z.pow_le_mono_r; lia).
  unfold MAXIMUM_RETRY_DELAY_MS. split; [nia|]. apply Z.min_le_compat_r. nia.
Qed.

(** What the next attempt's time must be when an attempt was counted. *)
Definition counted_at (now : Z) (a : Z) (r' : Recovery) : Prop :=
  (a < attempts r')%Z →
  attempts r' = (a + 1)%Z ∧ phase r' = Pending ∧
  nextAttemptAt r' = Some (now + retryDelayMs (a + 1) (initialDelayMs config))%Z.

(** A step that queues no start, and counts an attempt only with its time. *)
Definition quiet (now : Z) (r : Recovery) (M : Manager)
    (s : Result string (Manager * RecoverySnapshot)) : Prop :=
  ∀ M' a, s = Ok (M', a) →
    starts M' = starts M ∧
    ∀ r', records M' !! instanceId r = Some r' → counted_at now (attempts r) r'.

Lemma quiet_same now r M a : records M !! instanceId r = Some r → quiet now r M (Ok (M, a)).
Proof.
  intros Hr M' a' [<- _]%Ok_inj%pair_equal_spec. split; [done|]. intros r' Hr'.
  rewrite Hr in Hr'. simplify_eq. intros H. lia.
Qed.

Lemma quiet_persist now r r1 ok M :
  instanceId r1 = instanceId r → counted_at now (attempts r) r1 →
  quiet now r M (persist_entry config ok r1 M).
Proof.
  intros Hi Hc M' a. unfold persist_entry. rewrite persist_eq. destruct ok; [|done].
  intros [<- _]%Ok_inj%pair_equal_spec. split; [done|]. intros r'. cbn.
  rewrite Hi, lookup_insert_eq. by intros [= <-].
Qed.

Lemma uncounted now r r1 : (attempts r1 ≤ attempts r)%Z → counted_at now (attempts r) r1.
Proof. intros H Hlt. lia. Qed.

Lemma recordExit_quiet ok r o now M : quiet now r M (recordExit Date_parse config ok r o now M).
Proof.
  unfold recordExit, exhaust. case_decide; apply quiet_persist; try done; by apply uncounted.
Qed.

Lemma recordStartFailure_quiet ok r now M : quiet now r M (recordStartFailure config ok r now M).
Proof.
  unfold recordStartFailure, exhaust. case_decide; apply quiet_persist; try done; by apply uncounted.
Qed.

Lemma reconcileRunning_quiet ok r o now M :
  rec_ok r → records M !! instanceId r = Some r →
  quiet now r M (reconcileRunning Date_parse config ok r o now M).
Proof.
  intros [[Ha _] _ _ _ _] Hr. unfold reconcileRunning. cbv zeta.
  repeat case_match; try (by apply quiet_same); apply quiet_persist; try done; by apply uncounted.
Qed.

Lemma reconcile_stopped_quiet ok r o now M :
  rec_ok r → records M !! instanceId r = Some r →
  quiet now r M (reconcile_stopped config ok r o now M).
Proof.
  intros [[Ha _] _ _ _ _] Hr. unfold reconcile_stopped.
  assert (∀ M1, starts (if running o && stopPending r then scheduleCompensatingStop o M1 else M1)
                  = starts M1 ∧
                records (if running o && stopPending r then scheduleCompensatingStop o M1 else M1)
                  = records M1) as Henf.
  { intros M1. unfold scheduleCompensatingStop. by repeat case_match. }
  destruct (_ && _ && _ && _).
  - intros M' a [<- _]%Ok_inj%pair_equal_spec. destruct (Henf M) as [-> ->].
    split; [done|]. intros r'. rewrite Hr. intros [= <-]. by apply uncounted.
  - rewrite persist_eq. destruct ok; [|done]. intros M' a [<- _]%Ok_inj%pair_equal_spec.
    set (r1 := moved r _ _ _ _ _ _). destruct (Henf (wrote r1 M)) as [-> ->]. split; [done|].
    cbn. intros r'. rewrite lookup_insert_eq. intros [= <-]. by apply uncounted.
Qed.

(** The observation asks for a pending attempt that is due. *)
Definition due (o : Observation) (now : Z) (r : Recovery) : Prop :=
  desiredState r = Running ∧ phase r = Pending ∧
  (∃ next, nextAttemptAt r = Some next ∧ (next ≤ now)%Z) ∧
  installationReady o = true ∧ running o = false ∧ restarting o = false.

Lemma reconcile_down_cases ok r o now paused M :
  rec_ok r → desiredState r = Running → running o = false → records M !! instanceId r = Some r →
  quiet now r M (reconcile_down Date_parse config ok r o now paused M) ∨
  (due o now r ∧ paused = false ∧
   reconcile_down Date_parse config ok r o now paused M = requestRestart config ok r o now M).
Proof.
  intros Hok Hd Hrun Hr. unfold reconcile_down. destruct (installationReady o) eqn:Hi; cbn [negb].
  2:{ left. apply quiet_persist; [done|]. by apply uncounted. }
  destruct (restarting o) eqn:Hre; [left; by apply quiet_same|].
  destruct (bool_decide_reflect (phase r = Pending)) as [Hp|Hp]; cbn [andb].
  { destruct (nextAttemptAt r) as [next|] eqn:Hn; [|].
    - case_bool_decide as Hle.
      + destruct paused; [left; by apply quiet_same|]. right. repeat split; eauto.
      + left. rewrite bool_decide_false by (rewrite Hp; done). cbn [andb].
        case_decide; [by apply quiet_same|apply recordExit_quiet].
    - left. rewrite bool_decide_false by (rewrite Hp; done). cbn [andb].
      case_decide; [by apply quiet_same|apply recordExit_quiet]. }
  left. repeat case_match; try (by apply quiet_same); try apply recordStartFailure_quiet;
    try apply recordExit_quiet; apply quiet_persist; try done; by apply uncounted.
Qed.

Lemma reconcile_cases ok o now paused M r :
  manager_ok M → records M !! o_instanceId o = Some r →
  quiet now r M (reconcile ok o now paused M) ∨
  (due o now r ∧ paused = false ∧ managedByRelay o = true ∧ transitionActive o = false ∧
   reconcile ok o now paused M = requestRestart config ok r o now M).
Proof.
  intros HM Hr. destruct (mgr_records _ HM _ _ Hr) as [Hi Hok].
  unfold reconcileObservation. rewrite Hr. rewrite <-Hi in Hr.
  destruct (managedByRelay o); cbn [negb].
  2:{ left. intros M' a. unfold delete_record. destruct ok; [|done].
      intros [<- _]%Ok_inj%pair_equal_spec. split; [done|]. cbn. intros r'.
      by rewrite <-Hi, lookup_delete_eq. }
  destruct (transitionActive o) eqn:Ht; [left; by apply quiet_same|].
  case_decide as Hs; [left; by apply reconcile_stopped_quiet|].
  assert (desiredState r = Running) as Hd by by destruct (desiredState r).
  destruct (running o) eqn:Hrun; [left; by apply reconcileRunning_quiet|].
  destruct (reconcile_down_cases ok r o now paused M Hok Hd Hrun Hr) as [?|(? & ? & ?)]; [by left|].
  right. auto.
Qed.

(** ** A start that lands late *)

(** A stop is on its way: the record asks for it, and a queued fiber will
    make it when its lane is granted. *)
Definition stop_coming (id : string) (M : Manager) : Prop :=
  (∃ r, records M !! id = Some r ∧ desiredState r = Stopped ∧ stopPending r = true) ∧
  ∃ k, k ∈ stops M ∧ k_instance k = id ∧ shouldStop k M = true.

Lemma schedule_coming o M :
  manager_ok M →
  (∃ r, records M !! o_instanceId o = Some r ∧ desiredState r = Stopped ∧ stopPending r = true) →
  stop_coming (o_instanceId o) (scheduleCompensatingStop o M).
Proof.
  intros HM (r & Hr & Hd & Hp). unfold scheduleCompensatingStop, stop_coming, shouldStop.
  destruct (activeStops M !! o_instanceId o) as [t|] eqn:Ha.
  - split; [by exists r|]. exists (MkStop (o_instanceId o) t).
    split; [by apply (mgr_stops _ HM)|]. split; [done|]. cbn. rewrite Ha, Hr, Hp, Hd.
    by rewrite !bool_decide_true.
  - split; [by exists r|]. exists (MkStop (o_instanceId o) (next_symbol M)). cbn.
    split; [apply elem_of_app; right; left|]. split; [done|].
    rewrite lookup_insert_eq, Hr, Hp, Hd. by rewrite !bool_decide_true.
Qed.

(** ** The properties *)

(** Whatever is observed, asked, fails or comes to its turn, the records
    in memory are those on disk, so a Relay that starts again finds what it
    left; every record is well formed (attempts within the limit, a time for
    exactly what waits for one, a stopped server idle, and only a stopped
    server to be stopped); and every start or stop that is marked active has
    its fiber, so none is blocked by one that is gone. *)
Theorem recovery_consistent M es :
  (∀ id r, table M !! id = Some r → instanceId r = id ∧ rec_ok r) →
  Forall recovery_event_ok es →
  let M' := run es (initialize M) in
  records M' = table M' ∧
  (∀ id r, records M' !! id = Some r → instanceId r = id ∧ rec_ok r) ∧
  (∀ id t, activeStarts M' !! id = Some t →
     ∃ w, w ∈ starts M' ∧ w_instance w = id ∧ w_token w = t) ∧
  (∀ id t, activeStops M' !! id = Some t → MkStop id t ∈ stops M').
Proof.
  intros Ht Hes M'. assert (manager_ok (initialize M)) as H0.
  { split; cbn; try done; try constructor; intros ? H; by apply elem_of_nil in H. }
  destruct (run_ok es _ Hes H0) as [H1 H2 H3 H4 H5 H6 H7 H8]. done.
Qed.

(** C16: A person's stop wins over recovery. Once a stop, a kill or a console
    stop is recorded, the server stays to be stopped and recovery never calls
    Docker to start it, whatever starts were already queued, pending or
    failing, and through restarts of the Relay, until someone asks for it to
    run or its record is dropped or replaced. *)
Theorem stop_wins M id action now es :
  manager_ok M → wants action = Stopped →
  Forall recovery_event_ok es → Forall (keeps_intent id) es →
  let M' := event M (EvPower true id action now) in
  (∃ r, records (run es M') !! id = Some r ∧ desiredState r = Stopped) ∧
  count_starts Date_parse config id es M' = 0%Z.
Proof.
  intros HM Ha Hes Hk M'.
  assert (manager_ok M') as HM' by by apply event_ok.
  assert (stopped id M') as Hs.
  { unfold M'. cbn [recovery_event]. unfold recordPowerAction. rewrite persist_eq.
    apply wrote_stopped; [|done]. cbn. destruct (records M !! id) as [r|] eqn:Hr; [|done].
    by apply (mgr_records _ HM). }
  clearbody M'. revert M' HM' Hs. induction es as [|e es IH]; intros M' HM' Hs; [by split|].
  apply Forall_cons in Hes as [He Hes], Hk as [Hke Hk].
  destruct (event_stopped id M' e HM' He Hke Hs) as [Hs' Hb].
  destruct (IH Hes Hk (event M' e) (event_ok M' e He HM') Hs') as [Hr Hc].
  split; [exact Hr|]. cbn [count_starts]. rewrite Hb. lia.
Qed.

(** C15: A server that keeps crashing is started only so often. Until it has
    been up for its stability window, someone acts on it or starts it
    themselves, recovery calls Docker for it at most as often as its record
    has attempts left (one more when an attempt is already pending or
    queued), however starts fail, are paused, superseded or race with
    observations; and once its recovery has failed, not at all. *)
Theorem crash_loop_bounded M id es :
  manager_ok M → Forall recovery_event_ok es → never_renewed id es M →
  (records M !! id = None → count_starts Date_parse config id es M ≤ maxRetries config)%Z ∧
  ∀ r, records M !! id = Some r →
    (count_starts Date_parse config id es M ≤
       maxRetries config - attempts r +
       match phase r with Pending | Restarting => 1 | _ => 0 end)%Z ∧
    (phase r = Failed → attempts r = maxRetries config → count_starts Date_parse config id es M ≤ 0)%Z.
Proof.
  intros HM Hes Hno. pose proof (count_credit id es M HM Hes Hno) as Hc.
  pose proof (credit_nonneg id (run es M) (run_ok es M Hes HM)) as Hend.
  split.
  - intros Hr. unfold credit at 2 in Hc. rewrite Hr in Hc. lia.
  - intros r Hr. destruct (mgr_records _ HM _ _ Hr) as [_ [[_ Ha] _ _ _ _]].
    assert (credit id M ≤ maxRetries config - attempts r +
      match phase r with Pending | Restarting => 1 | _ => 0 end)%Z as Hle.
    { unfold credit. rewrite Hr. unfold rec_credit.
      destruct (desiredState r), (phase r); try lia. destruct (queued id M); lia. }
    split; [lia|]. intros Hp Hm. rewrite Hp in Hle. lia.
Qed.

(** Recovery waits its turn. Of a server it knows, an observation queues a
    start only when the server should be running, its attempt is pending and
    due, the container is down and not restarting by itself, and the Relay is
    not paused; and whenever an observation counts another attempt, it is the
    next one, pending until its delay has passed, a delay that never shrinks
    from one attempt to the next nor exceeds a minute. *)
Theorem recovery_waits M ok o now paused r M' shown :
  manager_ok M → records M !! o_instanceId o = Some r → (0 ≤ initialDelayMs config)%Z →
  reconcile ok o now paused M = Ok (M', shown) →
  (starts M' ≠ starts M →
     due o now r ∧ paused = false ∧
     starts M' = starts M ++ [MkStart (o_instanceId o) (next_symbol M) now false]) ∧
  (∀ r', records M' !! o_instanceId o = Some r' → (attempts r < attempts r')%Z →
     attempts r' = (attempts r + 1)%Z ∧ phase r' = Pending ∧
     ∃ delay, nextAttemptAt r' = Some (now + delay)%Z ∧
       delay = retryDelayMs (attempts r') (initialDelayMs config) ∧
       (0 ≤ retryDelayMs (attempts r) (initialDelayMs config) ≤ delay ≤ 60000)%Z).
Proof.
  intros HM Hr Hinit E. destruct (mgr_records _ HM _ _ Hr) as [Hi _].
  destruct (reconcile_cases ok o now paused M r HM Hr) as [Hq|(Hdue & Hp & _ & _ & Ereq)].
  - destruct (Hq M' shown E) as [Hs Hc]. split; [done|]. intros r' Hr' Hlt. rewrite Hi in Hc.
    destruct (Hc r' Hr' Hlt) as (Ha & Hph & Hn). split; [done|]. split; [done|].
    exists (retryDelayMs (attempts r + 1) (initialDelayMs config)). rewrite Ha. split; [done|].
    split; [done|]. pose proof (retryDelay_spec (attempts r) Hinit) as [[H0 _] Hm].
    pose proof (retryDelay_spec (attempts r + 1) Hinit) as [[_ H60] _].
    unfold MAXIMUM_RETRY_DELAY_MS in H60. lia.
  - rewrite Ereq in E. unfold requestRestart in E. rewrite persist_eq in E. destruct ok; [|done].
    cbn [result_bind] in E. apply Ok_inj, pair_equal_spec in E as [<- _]. split; [done|].
    cbn. rewrite Hi. intros r'. rewrite lookup_insert_eq. intros [= <-]. cbn. lia.
Qed.

(** A start that lands after the server was stopped is undone. When Docker
    has started a container whose server is to be stopped by then, the record
    asks for a stop and a fiber is queued that will call Docker for it; and
    as long as the server is seen running with that stop pending, each
    observation leaves a fiber that will. *)
Theorem late_start_undone M w o now :
  manager_ok M → w ∈ starts M → w_begun w = true → o_instanceId o = w_instance w →
  stopped (w_instance w) M →
  stop_coming (w_instance w) (event M (EvStartDone true w o false now)) ∧
  ∀ M1 o1 ok1 now1 paused1 M2 shown r,
    manager_ok M1 → o_instanceId o1 = w_instance w →
    records M1 !! w_instance w = Some r → desiredState r = Stopped → stopPending r = true →
    managedByRelay o1 = true → transitionActive o1 = false → running o1 = true →
    reconcile ok1 o1 now1 paused1 M1 = Ok (M2, shown) → stop_coming (w_instance w) M2.
Proof.
  intros HM Hw Hb Ho (r & Hr & Hd). split.
  - cbn [recovery_event]. rewrite decide_True by done. unfold start_done.
    destruct (mgr_records _ HM _ _ Hr) as [Hi Hok].
    unfold enforceDesiredStateAfterStart. rewrite Hr, decide_True, persist_eq by done.
    set (r1 := moved r _ _ _ _ _ _).
    set (M1 := set_reported _ (wrote r1 M)).
    assert (manager_ok M1) as HM1.
    { apply set_reported_ok, wrote_ok; [done|]. destruct Hok as [H1 H2 H3 H4 H5]. by split. }
    assert (stop_coming (w_instance w) (scheduleCompensatingStop o M1)) as [H1 H2].
    { rewrite <-Ho. apply schedule_coming; [done|]. exists r1. split; [|done]. cbn.
      rewrite Ho, Hi. apply lookup_insert_eq. }
    split; [exact H1|]. exact H2.
  - clear r Hr Hd. intros M1 o1 ok1 now1 paused1 M2 shown r HM1 <- Hr Hd Hp Hm Ht Hrun.
    unfold reconcileObservation. rewrite Hr, Hm, Ht. cbn [negb]. rewrite decide_True by done.
    destruct (mgr_records _ HM1 _ _ Hr) as [Hi Hok].
    unfold reconcile_stopped. rewrite Hrun, Hp. cbn [andb].
    destruct (_ && _ && _ && _).
    + intros [<- _]%Ok_inj%pair_equal_spec. apply schedule_coming; eauto.
    + rewrite persist_eq. destruct ok1; [|done]. set (r1 := moved r _ _ _ _ _ _).
      intros [<- _]%Ok_inj%pair_equal_spec. apply schedule_coming.
      * apply wrote_ok; [done|]. destruct Hok as [H1 H2 H3 H4 H5]. split; cbn; try done; lia.
      * exists r1. split; [|done]. cbn. rewrite <-Hi. apply lookup_insert_eq.
Qed.
End Facts.

(** ** Witnesses *)

Definition sample_config : RecoveryConfig := MkRecoveryConfig 5000 2 300000.

(** Times written as a letter, the way the examples need them. *)
Definition sample_parse (s : string) : option Z :=
  if decide (s = "a") then Some 0%Z else if decide (s = "b") then Some 8000%Z else None.

Definition sample_crash (started : string) : Observation :=
  MkObservation false 1 "" true "lobby" true false false false false started false.

Definition empty_manager : Manager := MkManager ∅ ∅ ∅ ∅ ∅ 0 [] [].

(** A server seen crashing twice: its attempt is pending, then queued. *)
Definition sample_events : list RecoveryEvent :=
  [EvProvisioned true "lobby" Running 0; EvReconcile true (sample_crash "a") 10 false;
   EvReconcile true (sample_crash "a") 6000 false].

Definition sample_worker : StartWorker := MkStart "lobby" 0 6000 false.

Definition sample_begun : list RecoveryEvent :=
  sample_events ++ [EvStartTurn true sample_worker Granted 6001].

Lemma empty_ok : manager_ok sample_config empty_manager.
Proof. split; cbn; try done; try constructor; intros ? H; by apply elem_of_nil in H. Qed.

Lemma sample_limit : (0 ≤ maxRetries sample_config)%Z.
Proof. done. Qed.

Lemma sample_run_ok es :
  Forall (recovery_event_ok sample_config) es →
  manager_ok sample_config (recovery_run sample_parse sample_config es empty_manager).
Proof. intros H. apply run_ok; [exact sample_limit|exact H|exact empty_ok]. Qed.

Lemma sample_begun_ok : Forall (recovery_event_ok sample_config) sample_begun.
Proof. repeat constructor. Qed.

Example recovery_consistent_witness :
  records (recovery_run sample_parse sample_config sample_begun (initialize empty_manager)) !! "lobby"
    = table (recovery_run sample_parse sample_config sample_begun (initialize empty_manager)) !! "lobby".
Proof.
  destruct (recovery_consistent sample_parse sample_config sample_limit empty_manager sample_begun)
    as [-> _]; [|exact sample_begun_ok|reflexivity].
  intros id r H. exfalso. revert H. cbn. rewrite lookup_empty. discriminate.
Defined.

(** The start is queued when the server is stopped: it never calls Docker. *)
Example stop_wins_witness :
  count_starts sample_parse sample_config "lobby"
    [EvStartTurn true sample_worker Granted 6001; EvReconcile true (sample_crash "b") 90000 false]
    (recovery_event sample_parse sample_config
       (recovery_run sample_parse sample_config sample_events empty_manager)
       (EvPower true "lobby" Stop 6000)) = 0%Z.
Proof.
  apply (stop_wins sample_parse sample_config sample_limit).
  - apply sample_run_ok. repeat constructor.
  - reflexivity.
  - repeat constructor.
  - repeat constructor.
Defined.

Example crash_loop_bounded_witness :
  (count_starts sample_parse sample_config "lobby" (tail sample_begun)
     (recovery_run sample_parse sample_config [EvProvisioned true "lobby" Running 0] empty_manager)
   ≤ 2)%Z.
Proof.
  destruct (crash_loop_bounded sample_parse sample_config sample_limit
    (recovery_run sample_parse sample_config [EvProvisioned true "lobby" Running 0] empty_manager)
    "lobby" (tail sample_begun)) as [_ H].
  - apply sample_run_ok. repeat constructor.
  - repeat constructor.
  - repeat split; cbn; try (intros [_ [H|[H _]]]; discriminate H); intros [].
  - apply (H (initialRecoveryRecord "lobby" Running 0 None)). reflexivity.
Defined.

Definition sample_pending : Recovery :=
  MkRecovery 1 Running "lobby" (Some 10%Z) (Some 1%Z) false (Some ProcessExit) None (Some "a")
    (Some 5010%Z) Pending false 10.

Example recovery_waits_witness :
  let M := recovery_run sample_parse sample_config
    [EvProvisioned true "lobby" Running 0; EvReconcile true (sample_crash "a") 10 false] empty_manager in
  ∃ M' shown,
    reconcileObservation sample_parse sample_config true (sample_crash "a") 6000 false M = Ok (M', shown) ∧
    due (sample_crash "a") 6000 sample_pending.
Proof.
  intros M. eexists _, _. split; [reflexivity|].
  refine (proj1 (proj1 (recovery_waits sample_parse sample_config M true (sample_crash "a") 6000 false
    sample_pending _ _ _ _ _ _) _)).
  - apply sample_run_ok. repeat constructor.
  - reflexivity.
  - vm_compute. discriminate.
  - reflexivity.
  - vm_compute. discriminate.
Defined.

(** The server is stopped while Docker is starting it. *)
Example late_start_undone_witness :
  stop_coming "lobby"
    (recovery_event sample_parse sample_config
       (recovery_run sample_parse sample_config
          (sample_begun ++ [EvPower true "lobby" Kill 6002]) empty_manager)
       (EvStartDone true (MkStart "lobby" 0 6000 true) (sample_crash "a") false 6003)).
Proof.
  apply (late_start_undone sample_parse sample_config sample_limit
    (recovery_run sample_parse sample_config
       (sample_begun ++ [EvPower true "lobby" Kill 6002]) empty_manager)
    (MkStart "lobby" 0 6000 true) (sample_crash "a") 6003).
  - apply sample_run_ok. repeat constructor.
  - apply (bool_decide_unpack _). vm_compute. exact I.
  - reflexivity.
  - reflexivity.
  - eexists. split; [reflexivity|reflexivity].
Defined.
