(* ===== verification/Restores.v ===== *)
(** * Restores of Apps' folders and volumes

    Models [apps/relay/src/backups/tar-restore-journal.ts], the steps of
    [tar-restore-steps.ts], and what [tar-archives.ts] and [backups.ts] make
    of them: a restore is staged beside what a volume or an App's folder
    holds, then swapped in, and a journal on disk lets a Relay that stopped
    midway, or a swap that failed, finish or undo it.

    What changes the disk is an effect. A run is given the interruptions it
    meets: after some number of effects the next one is cut off, perhaps with
    a part of it done, and the Relay stops or the effect fails. Writing and
    removing a journal are atomic, as [writeFileAtomic] makes them. *)
From Stdlib Require Import Ascii.
From S2P Require Import Prelude Locks Lanes Protocol AppKeys Plans.

(** ** Folders, journals and the Relay's memory *)

(** What a name stands for: a file, or a folder and what is in it. *)
Inductive Node :=
  | File (contents : string)
  | Folder (entries : gmap string Node).

(** The owner, mode and extended attributes of a source's root. *)
Record Attrs := MkAttrs { a_gid : Z; a_mode : Z; a_uid : Z; a_xattrs : gmap string string }.

Record Dir := MkDir { d_entries : gmap string Node; d_attrs : Attrs }.

Inductive TarSource := SVolume (name : string) | SBind (path : string).

#[global] Instance TarSource_eq_dec : EqDecision TarSource.
Proof. solve_decision. Defined.

#[global] Instance TarSource_countable : Countable TarSource.
Proof.
  refine (inj_countable'
    (λ s, match s with SVolume n => inl n | SBind p => inr p end)
    (λ s, match s with inl n => SVolume n | inr p => SBind p end) _).
  by intros [].
Defined.

Record TarRestoreRoot := MkRoot {
  r_gid : Z;
  r_mode : Z;
  r_uid : Z;
  r_xattrs : option (gmap string string);
}.

Inductive TargetKind := TApp | TVolume.

#[global] Instance TargetKind_eq_dec : EqDecision TargetKind.
Proof. solve_decision. Defined.

Record Target := MkTarget { t_id : string; t_kind : TargetKind }.

#[global] Instance Target_eq_dec : EqDecision Target.
Proof. solve_decision. Defined.

Inductive Phase := Staging | Clearing | Installing.

#[global] Instance Phase_eq_dec : EqDecision Phase.
Proof. solve_decision. Defined.

Record TarRestoreJournal := MkJournal {
  consumers : list string;
  phase : Phase;
  root : option TarRestoreRoot;
  source : TarSource;
  target : Target;
  taskId : string;
}.

(** The journals' folder holds one file per task; the fences are the Relay's
    memory, in the order they were set. *)
Record World := MkWorld {
  dirs : gmap TarSource Dir;
  journals : gmap string TarRestoreJournal;
  fences : list (string * TarRestoreJournal);
}.

Definition empty_dir : Dir := MkDir ∅ (MkAttrs 0 493 0 ∅).

Definition dir_of (w : World) (s : TarSource) : Dir := default empty_dir (dirs w !! s).

Definition set_dir (s : TarSource) (d : Dir) (w : World) : World :=
  MkWorld (<[s := d]> (dirs w)) (journals w) (fences w).
Definition set_journals (js : gmap string TarRestoreJournal) (w : World) : World := MkWorld (dirs w) js (fences w).
Definition set_fences (fs : list (string * TarRestoreJournal)) (w : World) : World := MkWorld (dirs w) (journals w) fs.
Definition set_entries (s : TarSource) (entries : gmap string Node) (w : World) : World :=
  set_dir s (MkDir entries (d_attrs (dir_of w s))) w.
Definition set_attrs (s : TarSource) (attrs : Attrs) (w : World) : World :=
  set_dir s (MkDir (d_entries (dir_of w s)) attrs) w.
Definition entries_of (w : World) (s : TarSource) : gmap string Node := d_entries (dir_of w s).

(** ** Runs *)

(** After how many effects the next one is cut off, what is left then of what
    it removes or makes, and whether the Relay stops or the effect fails. *)
Record Cut := MkCut { c_after : nat; c_left : option Node; c_stops : bool }.

Inductive Outcome (A : Type) :=
  | Done (a : A) (w : World) (cuts : list Cut)
  | Failed (message : string) (w : World) (cuts : list Cut)
  | Stopped (w : World).
Arguments Done {A} a w cuts.
Arguments Failed {A} message w cuts.
Arguments Stopped {A} w.

Definition Act (A : Type) : Type := list Cut → World → Outcome A.

#[global] Instance Act_ret : MRet Act := λ A a cuts w, Done a w cuts.
#[global] Instance Act_bind : MBind Act := λ A B k p cuts w,
  match p cuts w with
  | Done a w cuts => k a cuts w
  | Failed message w cuts => Failed message w cuts
  | Stopped w => Stopped w
  end.

Definition fail {A} (message : string) : Act A := λ cuts w, Failed message w cuts.
Definition look : Act World := λ cuts w, Done w w cuts.
(** A change of memory. *)
Definition update (f : World → World) : Act unit := λ cuts w, Done tt (f w) cuts.

Definition effect (f : World → Result string World) (torn : option Node → World → World) : Act unit := λ cuts w,
  let go cuts := match f w with Ok w => Done tt w cuts | Throw message => Failed message w cuts end in
  match cuts with
  | MkCut O part stops :: cuts => if stops then Stopped (torn part w) else Failed "EIO" (torn part w) cuts
  | MkCut (S n) part stops :: cuts => go (MkCut n part stops :: cuts)
  | [] => go []
  end.

(** A promise whose rejection is a value. *)
Definition attempt {A} (p : Act A) : Act (Result string A) := λ cuts w,
  match p cuts w with
  | Done a w cuts => Done (Ok a) w cuts
  | Failed message w cuts => Done (Throw message) w cuts
  | Stopped w => Stopped w
  end.

(** An effect that is done or not. *)
Definition atomic (f : World → Result string World) : Act unit := effect f (λ _, id).

Fixpoint each {A} (f : A → Act unit) (l : list A) : Act unit :=
  match l with
  | [] => mret tt
  | a :: l => _ ← f a; each f l
  end.

(** ** The steps *)

Definition TAR_RESTORE_STAGING_PREFIX : string := ".kiln-restore-".

Definition tarRestoreStagingName (taskId : string) : string := TAR_RESTORE_STAGING_PREFIX +:+ taskId.

Definition startsWith (prefix s : string) : bool := bool_decide (is_Some (strip_prefix prefix s)).

Definition hex_lower (c : ascii) : bool :=
  let n := nat_of_ascii c in ((48 <=? n) && (n <=? 57) || (97 <=? n) && (n <=? 102))%nat.

(** The groups of a UUID's digits. *)
Fixpoint uuid_groups (groups : list nat) (s : string) : bool :=
  match groups with
  | [] => bool_decide (s = "")
  | n :: groups =>
      bool_decide (String.length (str_take n s) = n) && str_all hex_lower (str_take n s) &&
      match groups with
      | [] => bool_decide (str_drop n s = "")
      | _ => match str_drop n s with
             | String c s => bool_decide (c = "-"%char) && uuid_groups groups s
             | EmptyString => false
             end
      end
  end.

(** The [STAGING] pattern: the prefix and a UUID. *)
Definition is_staging (name : string) : bool :=
  match strip_prefix TAR_RESTORE_STAGING_PREFIX name with
  | Some id => uuid_groups [8; 4; 4; 4; 12] id
  | None => false
  end.

Inductive TarRestoreStep := StClear | StDiscard | StInstall | StReserve.

Definition readdir (entries : gmap string Node) : list string := (map_to_list entries).*1.

(** [rm] of a name at the root, forced and recursive: what is left when it is
    cut off is some of what was there. *)
Definition remove (s : TarSource) (name : string) : Act unit :=
  effect (λ w, Ok (set_entries s (delete name (entries_of w s)) w))
    (λ part w, match entries_of w s !! name, part with
               | None, _ => w
               | Some _, Some node => set_entries s (<[name := node]> (entries_of w s)) w
               | Some _, None => set_entries s (delete name (entries_of w s)) w
               end).

Definition make_folder (s : TarSource) (name : string) : Act unit :=
  atomic (λ w, match entries_of w s !! name with
               | Some _ => Throw "EEXIST"
               | None => Ok (set_entries s (<[name := Folder ∅]> (entries_of w s)) w)
               end).

(** [rename] of what a folder at the root holds to the root. *)
Definition move_up (s : TarSource) (folder name : string) : Act unit :=
  atomic (λ w, match entries_of w s !! folder with
               | Some (Folder staged) =>
                   match staged !! name with
                   | Some node =>
                       Ok (set_entries s (<[name := node]> (<[folder := Folder (delete name staged)]> (entries_of w s))) w)
                   | None => Throw "ENOENT"
                   end
               | _ => Throw "ENOENT"
               end).

Definition remove_empty (s : TarSource) (folder : string) : Act unit :=
  atomic (λ w, match entries_of w s !! folder with
               | Some (Folder staged) =>
                   if decide (staged = ∅) then Ok (set_entries s (delete folder (entries_of w s)) w) else Throw "ENOTEMPTY"
               | _ => Throw "ENOENT"
               end).

Definition own (s : TarSource) (uid gid : Z) : Act unit :=
  atomic (λ w, let a := d_attrs (dir_of w s) in Ok (set_attrs s (MkAttrs gid (a_mode a) uid (a_xattrs a)) w)).

Definition change_mode (s : TarSource) (mode : Z) : Act unit :=
  atomic (λ w, let a := d_attrs (dir_of w s) in Ok (set_attrs s (MkAttrs (a_gid a) mode (a_uid a) (a_xattrs a)) w)).

Definition not_staged : string := "The restore isn't staged".

Definition requireStagingFolder (s : TarSource) (staging : string) : Act unit :=
  w ← look;
  match entries_of w s !! staging with
  | Some (Folder _) => mret tt
  | Some (File _) => fail not_staged
  | None => fail "ENOENT"
  end.

Definition optionalEntries (s : TarSource) (staging : string) : Act (option (list string)) :=
  w ← look;
  match entries_of w s !! staging with
  | Some (Folder staged) => mret (Some (readdir staged))
  | Some (File _) => fail not_staged
  | None => mret None
  end.

Definition clear_name (s : TarSource) (staging name : string) : Act unit :=
  if decide (name = staging) then mret tt else remove s name.

Definition install_name (s : TarSource) (staging name : string) : Act unit :=
  if startsWith TAR_RESTORE_STAGING_PREFIX name then fail "The restore holds a staging folder's name"
  else _ ← remove s name; move_up s staging name.

(** [mode & 0o7777] *)
Definition mode_bits (mode : Z) : Z := Z.land mode 4095.

Definition runTarRestoreStep (s : TarSource) (step : TarRestoreStep) (staging : string)
    (owner : option TarRestoreRoot) : Act unit :=
  if negb (is_staging staging) then fail "Invalid staging folder"
  else
    match step with
    | StReserve => make_folder s staging
    | StDiscard => remove s staging
    | StClear =>
        _ ← requireStagingFolder s staging;
        w ← look;
        each (clear_name s staging) (readdir (entries_of w s))
    | StInstall =>
        remaining ← optionalEntries s staging;
        _ ← each (install_name s staging) (default [] remaining);
        _ ← (if decide (is_Some remaining) then remove_empty s staging else mret tt);
        match owner with
        | Some owner =>
            _ ← own s (r_uid owner) (r_gid owner);
            change_mode s (mode_bits (r_mode owner))
        | None => mret tt
        end
    end.

(** ** Journals and fences *)

Definition writeTarRestoreJournal (journal : TarRestoreJournal) : Act unit :=
  atomic (λ w, Ok (set_journals (<[taskId journal := journal]> (journals w)) w)).

Definition removeTarRestoreJournal (id : string) : Act unit :=
  atomic (λ w, Ok (set_journals (delete id (journals w)) w)).

(** The journals' folder, by the files' names. *)
Definition readTarRestoreJournals (w : World) : list TarRestoreJournal :=
  stable_sort (λ a b, String.leb (taskId a) (taskId b)) (map_to_list (journals w)).*2.

Definition targetKey (target : Target) : string :=
  match t_kind target with
  | TApp => laneKeys.app (t_id target)
  | TVolume => laneKeys.volume (t_id target)
  end.

Definition fence (journal : TarRestoreJournal) (w : World) : World :=
  set_fences (jm_set (targetKey (target journal)) journal (fences w)) w.

Definition lift (id : string) (w : World) : World :=
  set_fences (List.filter (λ '(_, journal), negb (bool_decide (taskId journal = id))) (fences w)) w.

(** [find] *)
Definition find_fence (kind : TargetKind) (id : string) (w : World) : option TarRestoreJournal :=
  jm_get (targetKey (MkTarget id kind)) (fences w).

(** [list] *)
Definition list_fences (w : World) : list TarRestoreJournal := (fences w).*2.

(** [TarRestoreFences.load]: the Relay starting. *)
Definition load (w : World) : World :=
  fold_left (λ w journal, if decide (phase journal = Staging) then w else fence journal w)
    (readTarRestoreJournals w) (set_fences [] w).

Definition TAR_RESTORE_RECOVERY_LABEL : string := "backup.restore.recover".

Definition refusalMessage (journal : TarRestoreJournal) : string :=
  match t_kind (target journal) with
  | TApp => "This App's folder is partway through a restore that didn't finish; the restore must finish first"
  | TVolume => "This volume is partway through a restore that didn't finish; the restore must finish first"
  end.

Definition consumer_message : string :=
  "An App that uses a volume whose restore didn't finish can't start until the restore finishes".

(** A lock on a fenced target, or on a part of it. *)
Definition on_target (lock : LaneLock) (entry : string * TarRestoreJournal) : bool :=
  bool_decide (key lock = entry.1) || startsWith (entry.1 +:+ "/") (key lock).

(** A lock that starts, deploys or replaces an App that uses a fenced volume. *)
Definition on_consumer (lock : LaneLock) (entry : string * TarRestoreJournal) : bool :=
  bool_decide (t_kind (target entry.2) = TVolume) &&
  existsb (λ appId, bool_decide (key lock = laneKeys.appLifecycle appId) ||
                    bool_decide (key lock = laneKeys.app appId) && bool_decide (mode lock = Exclusive))
    (consumers entry.2).

Definition lock_refusal (fences : list (string * TarRestoreJournal)) (lock : LaneLock) : option string :=
  match List.find (on_target lock) fences with
  | Some entry => Some (refusalMessage entry.2)
  | None => if existsb (on_consumer lock) fences then Some consumer_message else None
  end.

Fixpoint refusal_loop (fences : list (string * TarRestoreJournal)) (locks : list LaneLock) : option string :=
  match locks with
  | [] => None
  | lock :: locks =>
      match lock_refusal fences lock with
      | Some reason => Some reason
      | None => refusal_loop fences locks
      end
  end.

Definition refusal (fences : list (string * TarRestoreJournal)) (label : string) (locks : list LaneLock)
    : option string :=
  if bool_decide (fences = []) || bool_decide (label = TAR_RESTORE_RECOVERY_LABEL) then None
  else refusal_loop fences locks.

(** ** Restoring *)

Definition with_phase (p : Phase) (j : TarRestoreJournal) : TarRestoreJournal :=
  MkJournal (consumers j) p (root j) (source j) (target j) (taskId j).
Definition with_root (r : option TarRestoreRoot) (j : TarRestoreJournal) : TarRestoreJournal :=
  MkJournal (consumers j) (phase j) r (source j) (target j) (taskId j).

(** Docker sets the attributes as it extracts the root's entry. *)
Definition restoreRootXattrs (s : TarSource) (root : TarRestoreRoot) (xattrs : gmap string string) : Act unit :=
  atomic (λ w, let a := d_attrs (dir_of w s) in
    Ok (set_attrs s (MkAttrs (r_gid root) (mode_bits (r_mode root)) (r_uid root) (xattrs ∪ a_xattrs a)) w)).

Definition installRestore (journal : TarRestoreJournal) : Act unit :=
  let s := source journal in
  let staging := tarRestoreStagingName (taskId journal) in
  _ ← (if decide (phase journal ≠ Installing) then
         let clearing := with_phase Clearing journal in
         _ ← writeTarRestoreJournal clearing;
         _ ← update (fence clearing);
         runTarRestoreStep s StClear staging None
       else mret tt);
  let installing := with_phase Installing journal in
  _ ← writeTarRestoreJournal installing;
  _ ← update (fence installing);
  _ ← runTarRestoreStep s StInstall staging (root journal);
  _ ← match root journal with
      | Some r => match r_xattrs r with Some xattrs => restoreRootXattrs s r xattrs | None => mret tt end
      | None => mret tt
      end;
  _ ← removeTarRestoreJournal (taskId journal);
  update (lift (taskId journal)).

Definition abandonTarRestore (journal : TarRestoreJournal) : Act unit :=
  _ ← runTarRestoreStep (source journal) StDiscard (tarRestoreStagingName (taskId journal)) None;
  _ ← removeTarRestoreJournal (taskId journal);
  update (lift (taskId journal)).

(** Answers whether it finished a restore. *)
Definition finishTarRestore (journal : TarRestoreJournal) : Act bool :=
  if decide (phase journal = Staging) then _ ← abandonTarRestore journal; mret false
  else _ ← installRestore journal; mret true.

(** What a restore is asked, and what it finds: the archive's manifest, what
    the archive holds, checked by its rules, and whether the restore may
    still begin when it is staged. *)
Record RestoreOptions := MkRestore {
  o_backupId : string;
  o_consumers : list string;
  o_source : TarSource;
  o_target : Target;
  o_taskId : string;
  o_manifest : Result string (string * Target);
  o_archive : Result string (gmap string Node * option TarRestoreRoot);
  o_begins : bool;
}.

(** Docker extracting the archive into the staging folder. *)
Definition stage (o : RestoreOptions) (staging : string) : Act (option TarRestoreRoot) :=
  _ ← effect (λ w, match o_archive o with
                   | Ok (staged, _) => Ok (set_entries (o_source o) (<[staging := Folder staged]> (entries_of w (o_source o))) w)
                   | Throw message => Throw message
                   end)
        (λ part w, match part with
                   | Some node => set_entries (o_source o) (<[staging := node]> (entries_of w (o_source o))) w
                   | None => w
                   end);
  match o_archive o with Ok (_, root) => mret root | Throw message => fail message end.

Definition restoreTarBackup (o : RestoreOptions) : Act (list string) :=
  match o_manifest o with
  | Throw message => fail message
  | Ok (backupId, manifest_target) =>
      if negb (bool_decide (backupId = o_backupId o) && bool_decide (manifest_target = o_target o))
      then fail "The archive manifest does not match this backup and its target"
      else
        let staging := tarRestoreStagingName (o_taskId o) in
        _ ← runTarRestoreStep (o_source o) StReserve staging None;
        let journal := MkJournal (o_consumers o) Staging None (o_source o) (o_target o) (o_taskId o) in
        _ ← writeTarRestoreJournal journal;
        staged ← attempt (root ← stage o staging;
                          if o_begins o then mret root else fail "The restore was cancelled");
        match staged with
        | Throw message =>
            _ ← attempt (_ ← runTarRestoreStep (o_source o) StDiscard staging None;
                         removeTarRestoreJournal (o_taskId o));
            fail message
        | Ok root => _ ← installRestore (with_root root journal); mret []
        end
  end.

(** ** Recovery *)

Inductive ResolveAction := Abandon | Finish.

(** The locks a recovery holds, with the Apps that use a volume now. *)
Definition settle_locks (volumeApps : string → list string) (journal : TarRestoreJournal) : list LaneLock :=
  match t_kind (target journal) with
  | TApp => appReplaceLocks (t_id (target journal))
  | TVolume =>
      exclusive (laneKeys.volume (t_id (target journal))) ::
      flat_map appLifecycleLocks (js_distinct (consumers journal ++ volumeApps (t_id (target journal))))
  end.

Definition changed_message : string := "The restore target changed while waiting for its recovery locks".

(** What a recovery does once it holds its locks, for the journal it was
    planned for; [quiet] is whether nothing runs on the target. *)
Definition settleTarRestore (journal : TarRestoreJournal) (action : ResolveAction) (quiet : bool) : Act unit :=
  w ← look;
  match journals w !! taskId journal with
  | None => mret tt
  | Some current =>
      if negb (bool_decide (target current = target journal)) || negb (bool_decide (source current = source journal)) ||
         existsb (λ id, negb (bool_decide (id ∈ consumers journal))) (consumers current)
      then fail changed_message
      else
        match action with
        | Abandon => abandonTarRestore current
        | Finish =>
            if negb (bool_decide (phase current = Staging)) && negb quiet
            then fail "Something runs on the restore's target"
            else _ ← finishTarRestore current; mret tt
        end
  end.
