(* ===== verification/RestoreFacts.v ===== *)
(** * Restores: nothing is lost, whenever they stop

    Properties of [Restores]: a restore that is interrupted anywhere, any
    number of times, leaves the old files or the restored ones, or a target
    the lanes keep fenced until it is finished; and finishing it always
    leaves exactly what was backed up. *)
From Stdlib Require Import Ascii.
From S2P Require Import Prelude Locks Lanes Protocol AppKeys Plans PlanFacts Restores.

(** ** Worlds *)

Section Worlds.
Implicit Types (w : World) (s : TarSource).

Lemma entries_set_entries w s e : entries_of (set_entries s e w) s = e.
Proof. unfold entries_of, dir_of, set_entries, set_dir. cbn. by rewrite lookup_insert_eq. Qed.

Lemma attrs_set_entries w s e : d_attrs (dir_of (set_entries s e w) s) = d_attrs (dir_of w s).
Proof. unfold dir_of at 1, set_entries, set_dir. cbn. by rewrite lookup_insert_eq. Qed.

Lemma entries_set_attrs w s a : entries_of (set_attrs s a w) s = entries_of w s.
Proof. unfold entries_of, dir_of at 1, set_attrs, set_dir. cbn. by rewrite lookup_insert_eq. Qed.

Lemma attrs_set_attrs w s a : d_attrs (dir_of (set_attrs s a w) s) = a.
Proof. unfold dir_of at 1, set_attrs, set_dir. cbn. by rewrite lookup_insert_eq. Qed.
End Worlds.

#[export] Hint Rewrite entries_set_entries attrs_set_entries entries_set_attrs attrs_set_attrs : worlds.

Lemma elem_of_readdir entries name : name ∈ readdir entries ↔ is_Some (entries !! name).
Proof.
  unfold readdir. rewrite list_elem_of_fmap. split.
  - intros ([n node] & -> & H%elem_of_map_to_list). by exists node.
  - intros [node H]. exists (name, node). split; [done|]. by apply elem_of_map_to_list.
Qed.

Lemma readdir_NoDup entries : NoDup (readdir entries).
Proof. apply NoDup_fst_map_to_list. Qed.

(** ** What a run keeps *)

Section Specs.
(** What holds of the disk however a run ends, and of memory unless the Relay
    stopped. *)
Context (disk memory : World → Prop).

(** From a world of [P], a run that is not interrupted gives one of [Q]; a
    strict one fails only where it is interrupted. *)
Definition spec {A} (strict : bool) (p : Act A) (P : World → Prop) (Q : A → World → Prop) : Prop :=
  ∀ cuts w, P w →
    match p cuts w with
    | Done a w' cuts' => Q a w' ∧ (cuts = [] → cuts' = [])
    | Failed _ w' cuts' => disk w' ∧ memory w' ∧ (strict = true → cuts ≠ []) ∧ (cuts = [] → cuts' = [])
    | Stopped w' => disk w' ∧ cuts ≠ []
    end.

Lemma spec_ret {A} strict (a : A) P Q : (∀ w, P w → Q a w) → spec strict (mret a) P Q.
Proof. intros H cuts w Hw. by split; [apply H|]. Qed.

Lemma spec_pre {A} strict (p : Act A) P P' Q : (∀ w, P' w → P w) → spec strict p P Q → spec strict p P' Q.
Proof. intros Hp H cuts w Hw. apply H, Hp, Hw. Qed.

Lemma spec_post {A} strict (p : Act A) P Q Q' : (∀ a w, Q a w → Q' a w) → spec strict p P Q → spec strict p P Q'.
Proof.
  intros Hq H cuts w Hw. specialize (H cuts w Hw). destruct (p cuts w); [|done..]. destruct H. split; [by apply Hq|done].
Qed.

Lemma spec_lax {A} (p : Act A) P Q : spec true p P Q → spec false p P Q.
Proof.
  intros H cuts w Hw. specialize (H cuts w Hw). destruct (p cuts w); [done| |done]. by destruct H as (? & ? & _ & ?).
Qed.

Lemma spec_bind {A B} strict (p : Act A) (k : A → Act B) P Q Q' :
  spec strict p P Q → (∀ a, spec strict (k a) (Q a) Q') → spec strict (p ≫= k) P Q'.
Proof.
  intros Hp Hk cuts w Hw. specialize (Hp cuts w Hw). unfold mbind, Act_bind.
  destruct (p cuts w) as [a w' cuts'|m w' cuts'|w']; [|done..].
  destruct Hp as [HQ Hc]. specialize (Hk a cuts' w' HQ).
  destruct (k a cuts' w') as [b w2 cuts2|m w2 cuts2|w2].
  - destruct Hk as [? Hk]. split; [done|]. intros ->. auto.
  - destruct Hk as (? & ? & Hk & Hk'). split; [done|]. split; [done|]. split; [intros Hs ->; by apply Hk, Hc|].
    intros ->. auto.
  - destruct Hk as [? Hk]. split; [done|]. intros ->. by apply Hk, Hc.
Qed.

Lemma spec_look {B} strict (k : World → Act B) P Q :
  (∀ w, P w → spec strict (k w) (λ w', w' = w) Q) → spec strict (w ← look; k w) P Q.
Proof. intros H cuts w Hw. by apply (H w Hw cuts w). Qed.

Lemma spec_update strict f P Q : (∀ w, P w → Q tt (f w)) → spec strict (update f) P Q.
Proof. intros H cuts w Hw. by split; [apply H|]. Qed.

Lemma spec_fail {A} (message : string) P (Q : A → World → Prop) :
  (∀ w, P w → disk w ∧ memory w) → spec false (fail message) P Q.
Proof. intros H cuts w Hw. destruct (H w Hw). by split. Qed.

(** What the worlds it starts from all imply. *)
Lemma spec_pure {A} strict (p : Act A) P Q (φ : Prop) :
  (∀ w, P w → φ) → (φ → spec strict p P Q) → spec strict p P Q.
Proof. intros Hp H cuts w Hw. exact (H (Hp w Hw) cuts w Hw). Qed.

(** An effect that is cut off, and one that is not. *)
Lemma spec_effect strict f torn P Q :
  (∀ w, P w → match f w with Ok w' => Q tt w' | Throw _ => strict = false ∧ disk w ∧ memory w end) →
  (∀ part w, P w → disk (torn part w) ∧ memory (torn part w)) → spec strict (effect f torn) P Q.
Proof.
  intros Hf Ht cuts w Hw. unfold effect.
  assert (∀ cs cs' : list Cut, (cs = [] → cs' = []) →
    match (match f w with Ok w => Done tt w cs' | Throw message => Failed message w cs' end) with
    | Done a w' cuts' => Q a w' ∧ (cs = [] → cuts' = [])
    | Failed _ w' cuts' => disk w' ∧ memory w' ∧ (strict = true → cs ≠ []) ∧ (cs = [] → cuts' = [])
    | Stopped w' => disk w' ∧ cs ≠ []
    end) as Hgo.
  { intros cs cs' Hcs. specialize (Hf w Hw). destruct (f w); [done|]. destruct Hf as (-> & ? & ?). done. }
  destruct cuts as [|[[|n] part stops] cuts]; [by apply Hgo| |by apply Hgo].
  destruct (Ht part w Hw). destruct stops; done.
Qed.

Lemma spec_atomic strict f P Q :
  (∀ w, P w → match f w with Ok w' => Q tt w' | Throw _ => strict = false end) →
  (∀ w, P w → disk w ∧ memory w) → spec strict (atomic f) P Q.
Proof.
  intros Hf Ht. apply spec_effect.
  - intros w Hw. specialize (Hf w Hw). destruct (f w); [done|]. split; [done|]. by apply Ht.
  - intros _ w Hw. by apply Ht.
Qed.

Lemma spec_assoc {A B C} strict (p : Act A) (k : A → Act B) (h : B → Act C) P Q :
  spec strict ((p ≫= k) ≫= h) P Q → spec strict (p ≫= λ a, k a ≫= h) P Q.
Proof.
  intros H cuts w Hw. specialize (H cuts w Hw). revert H. unfold mbind, Act_bind. by destruct (p cuts w).
Qed.

Lemma spec_unassoc {A B C} strict (p : Act A) (k : A → Act B) (h : B → Act C) P Q :
  spec strict (p ≫= λ a, k a ≫= h) P Q → spec strict ((p ≫= k) ≫= h) P Q.
Proof.
  intros H cuts w Hw. specialize (H cuts w Hw). revert H. unfold mbind, Act_bind. by destruct (p cuts w).
Qed.

(** A loop keeps what each of its turns keeps of those to come. *)
Lemma spec_each {A} strict (f : A → Act unit) (P : list A → World → Prop) l :
  (∀ a l, spec strict (f a) (P (a :: l)) (λ _, P l)) → spec strict (each f l) (P l) (λ _, P []).
Proof.
  intros Hf. induction l as [|a l IH]; [by apply spec_ret|]. cbn [each].
  eapply spec_bind; [apply Hf|]. intros []. exact IH.
Qed.
End Specs.

(** A promise whose rejection is caught, of which more is known. *)
Lemma spec_attempt {A} (disk memory disk' memory' : World → Prop) strict (p : Act A) P Q :
  (∀ w, disk' w → disk w) → spec disk' memory' strict p P Q →
  spec disk memory false (attempt p) P (λ r w, match r with Ok a => Q a w | Throw _ => disk' w ∧ memory' w end).
Proof.
  intros Hd Hp cuts w Hw. specialize (Hp cuts w Hw). unfold attempt.
  destruct (p cuts w) as [a w' cuts'|m w' cuts'|w']; [done| |destruct Hp; auto]. by destruct Hp as (? & ? & _ & ?).
Qed.

(** ** Fences *)

Lemma jm_set_elem {V} (m : list (string * V)) k v k' v' : (k', v') ∈ jm_set k v m → (k' = k ∧ v' = v) ∨ (k', v') ∈ m.
Proof.
  induction m as [|[k0 v0] m IH]; cbn; [intros H%list_elem_of_singleton; left; by simplify_eq|].
  case_decide; rewrite !elem_of_cons; [intros [E|?]; [left; by simplify_eq|by right; right]|].
  intros [E|?]; [right; by left|]. destruct IH; [done|by left|right; by right].
Qed.

(** Nothing in the list fences for the task. *)
Definition unfenced (id : string) (fences : list (string * TarRestoreJournal)) : Prop :=
  ∀ k j, (k, j) ∈ fences → taskId j ≠ id.

Lemma lift_unfenced id w : unfenced id (Restores.fences (lift id w)).
Proof.
  intros k j [_ H]%elem_of_bfilter. by apply negb_true_iff, bool_decide_eq_false in H.
Qed.

Section Restore.
Context (o : RestoreOptions) (w0 : World).

Notation s := (o_source o).
Notation t := (o_taskId o).
Notation tkey := (targetKey (o_target o)).
Notation staging := (tarRestoreStagingName (o_taskId o)).

(** What the archive holds. *)
Definition restored_entries : gmap string Node := match o_archive o with Ok (staged, _) => staged | Throw _ => ∅ end.
Definition restored_root : option TarRestoreRoot := match o_archive o with Ok (_, r) => r | Throw _ => None end.
Notation R := restored_entries.

(** The root as the archive says it was, over what it is. *)
Definition apply_root (a : Attrs) : Attrs :=
  match restored_root with
  | Some r => MkAttrs (r_gid r) (mode_bits (r_mode r)) (r_uid r) (from_option (λ x, x ∪ a_xattrs a) (a_xattrs a) (r_xattrs r))
  | None => a
  end.

Notation attrs0 := (d_attrs (dir_of w0 s)).

(** The files as they were: everything but the staging folder. *)
Definition intact (w : World) : Prop :=
  delete staging (entries_of w s) = delete staging (entries_of w0 s) ∧ d_attrs (dir_of w s) = attrs0.

(** Exactly what was backed up. *)
Definition restored (w : World) : Prop :=
  is_ok (o_archive o) = true ∧ entries_of w s = R ∧ d_attrs (dir_of w s) = apply_root attrs0.

(** Partway: staged whole, or partly moved up. *)
Definition clearing (w : World) : Prop :=
  is_ok (o_archive o) = true ∧ entries_of w s !! staging = Some (Folder R) ∧ d_attrs (dir_of w s) = attrs0.

Definition moved (rest : gmap string Node) (w : World) : Prop :=
  entries_of w s !! staging = Some (Folder rest) ∧ rest ⊆ R ∧
  ∀ name, name ≠ staging → rest !! name = None → entries_of w s !! name = R !! name.

Definition installing (w : World) : Prop :=
  is_ok (o_archive o) = true ∧ apply_root (d_attrs (dir_of w s)) = apply_root attrs0 ∧
  (entries_of w s = R ∨ ∃ rest, moved rest w).

(** The restore's own journal, and everyone else's as they were. *)
Definition own_journal (p : Phase) (r : option TarRestoreRoot) : TarRestoreJournal :=
  MkJournal (o_consumers o) p r s (o_target o) t.

Definition others (w : World) : Prop := ∀ id, id ≠ t → journals w !! id = journals w0 !! id.

Definition disk (w : World) : Prop :=
  others w ∧
  match journals w !! t with
  | None => intact w ∨ restored w
  | Some j =>
      match phase j with
      | Staging => j = own_journal Staging None ∧ intact w
      | Clearing => j = own_journal Clearing restored_root ∧ clearing w
      | Installing => j = own_journal Installing restored_root ∧ installing w
      end
  end.

(** The fences say what the journals say. *)
Definition fenced (w : World) : Prop :=
  ∃ j, jm_get tkey (fences w) = Some j ∧ taskId j = t ∧ target j = o_target o ∧ consumers j = o_consumers o.

Definition memory (w : World) : Prop :=
  match journals w !! t with
  | Some j => if decide (phase j = Staging) then unfenced t (fences w) else fenced w
  | None => unfenced t (fences w)
  end.

Notation spec := (spec disk memory).

Hypothesis task_uuid : uuid_groups [8; 4; 4; 4; 12] t = true.
(** The archive's rules refuse the names of staging folders. *)
Hypothesis staged_names : ∀ name, is_Some (R !! name) → startsWith TAR_RESTORE_STAGING_PREFIX name = false.

Lemma staging_valid : is_staging staging = true.
Proof. unfold is_staging, tarRestoreStagingName. by rewrite strip_prefix_app. Qed.

Lemma staging_not_staged : R !! staging = None.
Proof.
  destruct (R !! staging) eqn:E; [|done]. assert (startsWith TAR_RESTORE_STAGING_PREFIX staging = false) as H by (by apply staged_names).
  unfold startsWith, tarRestoreStagingName in H. rewrite strip_prefix_app in H. by rewrite bool_decide_true in H.
Qed.

Lemma step_runs strict step owner P Q :
  spec strict (runTarRestoreStep s step staging owner) P Q ↔
  spec strict
    match step with
    | StReserve => make_folder s staging
    | StDiscard => remove s staging
    | StClear =>
        _ ← requireStagingFolder s staging;
        w ← look;
        each (clear_name s staging) (readdir (entries_of w s))
    | StInstall =>
        remaining ← optionalEntries s staging;
        _ ← each (install_name s staging) (default [] remaining);
        _ ← (if decide (is_Some remaining) then remove_empty s staging else mret tt);
        match owner with
        | Some owner => _ ← own s (r_uid owner) (r_gid owner); change_mode s (mode_bits (r_mode owner))
        | None => mret tt
        end
    end P Q.
Proof. unfold runTarRestoreStep. by rewrite staging_valid. Qed.

Lemma others_dirs w w' : journals w' = journals w → others w → others w'.
Proof. unfold others. by intros ->. Qed.

(** *** Clearing *)

Definition at_phase (p : Phase) (w : World) : Prop :=
  others w ∧ journals w !! t = Some (own_journal p restored_root) ∧ fenced w.

Lemma at_clearing w : at_phase Clearing w → clearing w → disk w ∧ memory w.
Proof.
  intros (Ho & Hj & Hf) Hc. unfold disk, memory. rewrite Hj. cbn [phase own_journal].
  rewrite decide_False by done. auto.
Qed.

Lemma at_installing w : at_phase Installing w → installing w → disk w ∧ memory w.
Proof.
  intros (Ho & Hj & Hf) Hc. unfold disk, memory. rewrite Hj. cbn [phase own_journal].
  rewrite decide_False by done. auto.
Qed.

Lemma at_phase_set_entries p w e : at_phase p w → at_phase p (set_entries s e w).
Proof. done. Qed.
Lemma at_phase_set_attrs p w a : at_phase p w → at_phase p (set_attrs s a w).
Proof. done. Qed.

(** What is left to clear. *)
Definition to_clear (names : list string) (w : World) : Prop :=
  at_phase Clearing w ∧ clearing w ∧
  ∀ name, name ≠ staging → is_Some (entries_of w s !! name) → name ∈ names.

Lemma clear_spec :
  spec true (runTarRestoreStep s StClear staging None) (λ w, at_phase Clearing w ∧ clearing w) (λ _, to_clear []).
Proof.
  apply step_runs. eapply (spec_bind _ _ _ _ _ _ (λ _ w, at_phase Clearing w ∧ clearing w)).
  - unfold requireStagingFolder. apply spec_look. intros w [Hp Hc]. pose proof Hc as (_ & -> & _).
    apply spec_ret. by intros ? ->.
  - intros []. apply spec_look. intros w [Hp Hc]. eapply spec_pre; [|apply (spec_each _ _ _ _ to_clear)].
    + intros ? ->. split; [done|]. split; [done|]. intros name _ H. by apply elem_of_readdir.
    + clear w Hp Hc. intros name names. unfold clear_name. case_decide as Hname.
      * apply spec_ret. intros w (Hp & Hc & Hn). split; [done|]. split; [done|]. intros n Hne H.
        specialize (Hn n Hne H). apply elem_of_cons in Hn as [|]; [congruence|done].
      * unfold remove. apply spec_effect.
        -- intros w (Hp & (Ha & Hs & Hat) & Hn). split; [by apply at_phase_set_entries|]. split.
           { split; [done|]. autorewrite with worlds. rewrite lookup_delete_ne by done. done. }
           intros n Hne H. autorewrite with worlds in H. apply lookup_delete_is_Some in H as [Hnn H].
           specialize (Hn n Hne H). apply elem_of_cons in Hn as [|]; [congruence|done].
        -- intros part w (Hp & (Ha & Hs & Hat) & Hn). destruct (entries_of w s !! name); [|by apply at_clearing].
           destruct part; (apply at_clearing; [by apply at_phase_set_entries|]); (split; [done|]); autorewrite with worlds.
           ++ by rewrite lookup_insert_ne.
           ++ by rewrite lookup_delete_ne.
Qed.

(** *** Installing *)

Definition same_attrs (w : World) : Prop := apply_root (d_attrs (dir_of w s)) = apply_root attrs0.

(** What is left to move up. *)
Definition to_install (names : list string) (w : World) : Prop :=
  at_phase Installing w ∧ is_ok (o_archive o) = true ∧ same_attrs w ∧
  ∃ rest, moved rest w ∧ NoDup names ∧ ∀ name, name ∈ names ↔ is_Some (rest !! name).

Lemma to_install_ok names w : to_install names w → disk w ∧ memory w.
Proof. intros (Hp & Ha & Hs & rest & Hm & _). apply at_installing; [done|]. split; [done|]. split; [done|]. right. by exists rest. Qed.

Lemma not_staging_name name : is_Some (R !! name) → name ≠ staging.
Proof. intros [node H] ->. by rewrite staging_not_staged in H. Qed.

(** What stands in the way of a name to move may be anything. *)
Lemma to_install_target names name w e :
  to_install names w → name ∈ names → (∀ n, n ≠ name → e !! n = entries_of w s !! n) → to_install names (set_entries s e w).
Proof.
  intros (Hp & Ha & Hs & rest & (Hst & Hsub & Hm) & Hnd & Hin) Hname He.
  assert (is_Some (rest !! name)) as [node Hnode] by (by apply Hin).
  assert (name ≠ staging) as Hne by (apply not_staging_name; exists node; by eapply lookup_weaken).
  split; [done|]. split; [done|]. split; [unfold same_attrs; by autorewrite with worlds|]. exists rest.
  split; [|done]. unfold moved. autorewrite with worlds. split; [by rewrite He|]. split; [done|].
  intros n Hn Hnone. rewrite He; [by apply Hm|]. intros ->. by rewrite Hnode in Hnone.
Qed.

Lemma remove_spec names name :
  name ∈ names → spec true (remove s name) (to_install names) (λ _, to_install names).
Proof.
  intros Hname. apply spec_effect.
  - intros w Hw. apply (to_install_target _ name); [done..|]. intros n Hn. by rewrite lookup_delete_ne.
  - intros part w Hw. destruct (entries_of w s !! name) as [found|]; [|by eapply to_install_ok].
    destruct part as [node|]; apply (to_install_ok names), (to_install_target _ name); try done; intros n Hn.
    + by rewrite lookup_insert_ne.
    + by rewrite lookup_delete_ne.
Qed.

Lemma move_up_spec name names :
  spec true (move_up s staging name) (to_install (name :: names)) (λ _, to_install names).
Proof.
  apply spec_atomic; [|by intros w Hw; eapply to_install_ok].
  intros w (Hp & Ha & Hs & rest & (Hst & Hsub & Hm) & Hnd & Hin).
  assert (is_Some (rest !! name)) as [node Hnode] by (apply Hin; by left).
  assert (name ≠ staging) as Hne by (apply not_staging_name; exists node; by eapply lookup_weaken).
  rewrite Hst, Hnode. apply NoDup_cons in Hnd as [Hni Hnd].
  split; [done|]. split; [done|]. split; [unfold same_attrs; by autorewrite with worlds|].
  exists (delete name rest). unfold moved. autorewrite with worlds. split; [split; [|split]|split; [done|]].
  - rewrite lookup_insert_ne by done. apply lookup_insert_eq.
  - by etrans; [apply delete_subseteq|].
  - intros n Hn Hnone. destruct (decide (n = name)) as [->|Hnn].
    + rewrite lookup_insert_eq. symmetry. by eapply lookup_weaken.
    + rewrite !lookup_insert_ne by done. rewrite lookup_delete_ne in Hnone by done. by apply Hm.
  - intros n. rewrite lookup_delete_is_Some, <-Hin, elem_of_cons. split; [|by intros [? [?|?]]].
    intros Hn. split; [by intros ->|by right].
Qed.

Lemma install_name_spec name names :
  spec true (install_name s staging name) (to_install (name :: names)) (λ _, to_install names).
Proof.
  apply (spec_pure _ _ _ _ _ _ (is_Some (R !! name))).
  - intros w (_ & _ & _ & rest & (_ & Hsub & _) & _ & Hin).
    destruct (proj1 (Hin name) ltac:(by left)) as [node Hnode]. exists node. by eapply lookup_weaken.
  - intros H. unfold install_name. rewrite staged_names by done.
    eapply spec_bind; [apply remove_spec; by left|]. intros []. apply move_up_spec.
Qed.

(** All moved up. *)
Definition placed (w : World) : Prop :=
  at_phase Installing w ∧ is_ok (o_archive o) = true ∧ entries_of w s = R ∧ same_attrs w.

Lemma placed_ok w : placed w → disk w ∧ memory w.
Proof. intros (Hp & Ha & He & Hs). apply at_installing; [done|]. split; [done|]. split; [done|]. by left. Qed.

Lemma remove_empty_spec : spec true (remove_empty s staging) (to_install []) (λ _, placed).
Proof.
  apply spec_atomic; [|by intros w Hw; eapply to_install_ok].
  intros w (Hp & Ha & Hs & rest & (Hst & Hsub & Hm) & Hnd & Hin).
  assert (rest = ∅) as ->.
  { apply map_empty. intros n. apply eq_None_not_Some. intros H%Hin. by apply elem_of_nil in H. }
  rewrite Hst, decide_True by done. split; [done|]. split; [done|]. split; [|unfold same_attrs; by autorewrite with worlds].
  autorewrite with worlds. apply map_eq. intros n. destruct (decide (n = staging)) as [->|Hn].
  - by rewrite lookup_delete_eq, staging_not_staged.
  - rewrite lookup_delete_ne by done. by apply Hm.
Qed.

(** The root's owner and mode, once set. *)
Definition owned (w : World) : Prop :=
  match restored_root with
  | Some r => a_gid (d_attrs (dir_of w s)) = r_gid r ∧ a_uid (d_attrs (dir_of w s)) = r_uid r ∧
              a_mode (d_attrs (dir_of w s)) = mode_bits (r_mode r)
  | None => True
  end.

Lemma placed_attrs w a :
  placed w → apply_root a = apply_root (d_attrs (dir_of w s)) → placed (set_attrs s a w).
Proof.
  intros (Hp & Ha & He & Hs) E. split; [done|]. split; [done|]. split; [by autorewrite with worlds|].
  unfold same_attrs. autorewrite with worlds. by rewrite E.
Qed.

Lemma install_spec :
  spec true (runTarRestoreStep s StInstall staging restored_root) (λ w, at_phase Installing w ∧ installing w)
    (λ _ w, placed w ∧ owned w).
Proof.
  apply step_runs. eapply (spec_bind _ _ _ _ _ _ (λ names w,
    match names with Some names => to_install names w | None => placed w end)).
  - unfold optionalEntries. apply spec_look. intros w [Hp (Ha & Hs & [He|(rest & Hm)])].
    + rewrite He, staging_not_staged. apply spec_ret. by intros ? ->.
    + rewrite (proj1 Hm). apply spec_ret. intros ? ->. split; [done|]. split; [done|]. split; [done|]. exists rest.
      split; [done|]. split; [apply readdir_NoDup|apply elem_of_readdir].
  - intros names. eapply (spec_bind _ _ _ _ _ _ (λ _ w, match names with Some _ => to_install [] w | None => placed w end)).
    { destruct names as [names|]; cbn [default]; [|by apply spec_ret].
      apply (spec_each _ _ _ _ to_install). intros. apply install_name_spec. }
    intros _. eapply (spec_bind _ _ _ _ _ _ (λ _, placed)).
    { destruct names; [|by apply spec_ret]. apply remove_empty_spec. }
    intros _. unfold owned. destruct restored_root as [r|] eqn:Er; [|by apply spec_ret].
    eapply (spec_bind _ _ _ _ _ _ (λ _ w, placed w ∧ a_gid (d_attrs (dir_of w s)) = r_gid r ∧ a_uid (d_attrs (dir_of w s)) = r_uid r)).
    + apply spec_atomic; [|apply placed_ok]. intros w Hw. split.
      * apply placed_attrs; [done|]. unfold apply_root. by rewrite Er.
      * by autorewrite with worlds.
    + intros _. apply spec_atomic; [|by intros w [Hw _]; apply placed_ok]. intros w (Hw & Hg & Hu). split.
      * apply placed_attrs; [done|]. unfold apply_root. by rewrite Er.
      * by autorewrite with worlds.
Qed.

(** *** The whole of a restore *)

(** Staged, and not yet begun to clear. *)
Definition staged (w : World) : Prop :=
  others w ∧ journals w !! t = Some (own_journal Staging None) ∧ unfenced t (fences w) ∧ intact w ∧ clearing w.

Definition staging_only (w : World) : Prop :=
  others w ∧ journals w !! t = Some (own_journal Staging None) ∧ unfenced t (fences w) ∧ intact w.

(** Over, with what was backed up, or undone. *)
Definition finished (w : World) : Prop :=
  others w ∧ journals w !! t = None ∧ unfenced t (fences w) ∧ restored w.
Definition undone (w : World) : Prop :=
  others w ∧ journals w !! t = None ∧ unfenced t (fences w) ∧ intact w.

Lemma staging_only_ok w : staging_only w → disk w ∧ memory w.
Proof. intros (Ho & Hj & Hf & Hi). unfold disk, memory. rewrite Hj. cbn [phase own_journal]. rewrite decide_True by done. auto. Qed.

Lemma over_ok w : others w → journals w !! t = None → unfenced t (fences w) → intact w ∨ restored w → disk w ∧ memory w.
Proof. intros Ho Hj Hf Hi. unfold disk, memory. by rewrite Hj. Qed.

(** Writing a phase and fencing the target, before its step. *)
Lemma begin_phase_spec strict p (P : World → Prop) (X : World → Prop) :
  (∀ w, P w → disk w ∧ memory w ∧ others w ∧ X w) →
  (∀ w w', dirs w' = dirs w → X w → X w') →
  spec strict (_ ← writeTarRestoreJournal (own_journal p restored_root); update (fence (own_journal p restored_root))) P
    (λ _ w, at_phase p w ∧ X w).
Proof.
  intros HP HX. eapply (spec_bind _ _ _ _ _ _ (λ _ w, others w ∧ journals w !! t = Some (own_journal p restored_root) ∧ X w)).
  - apply spec_atomic; [|intros w Hw; by destruct (HP w Hw) as (? & ? & _)].
    intros w Hw. destruct (HP w Hw) as (_ & _ & Ho & Hx). split; [|split; [apply lookup_insert_eq|by apply (HX w)]].
    intros id Hid. cbn. rewrite lookup_insert_ne by done. by apply Ho.
  - intros []. apply spec_update. intros w (Ho & Hj & Hx). split; [|by apply (HX w)]. split; [done|]. split; [done|].
    exists (own_journal p restored_root). cbn. rewrite jm_get_set, decide_True by done. done.
Qed.

Lemma placed_attrs_final w :
  placed w → owned w → match restored_root with Some r => r_xattrs r = None | None => True end →
  d_attrs (dir_of w s) = apply_root attrs0.
Proof.
  intros (_ & _ & _ & <-) Ho Hx. unfold apply_root, owned in *. destruct restored_root as [r|]; [|done].
  rewrite Hx. cbn. destruct Ho as (<- & <- & <-). by destruct (d_attrs _).
Qed.

Lemma xattrs_spec :
  spec true match restored_root with
            | Some r => match r_xattrs r with Some xattrs => restoreRootXattrs s r xattrs | None => mret tt end
            | None => mret tt
            end (λ w, placed w ∧ owned w) (λ _ w, placed w ∧ d_attrs (dir_of w s) = apply_root attrs0).
Proof.
  pose proof placed_attrs_final as Hfinal. destruct restored_root as [r|] eqn:Er; [destruct (r_xattrs r) as [x|] eqn:Ex|].
  - apply spec_atomic; [|by intros w [Hw _]; apply placed_ok]. intros w [Hw _]. pose proof Hw as (_ & _ & _ & Hs).
    assert (apply_root (MkAttrs (r_gid r) (mode_bits (r_mode r)) (r_uid r) (x ∪ a_xattrs (d_attrs (dir_of w s))))
      = apply_root (d_attrs (dir_of w s))) as E.
    { unfold apply_root. rewrite Er, Ex. cbn. f_equal. rewrite (assoc_L (∪)). by rewrite (idemp_L (∪)). }
    split; [by apply placed_attrs|]. autorewrite with worlds. rewrite <-Hs. unfold apply_root. by rewrite Er, Ex.
  - apply spec_ret. intros w [Hw Ho]. split; [done|]. by apply Hfinal.
  - apply spec_ret. intros w [Hw Ho]. split; [done|]. by apply Hfinal.
Qed.

Lemma settled_spec (P : World → Prop) (X : World → Prop) :
  (∀ w, P w → disk w ∧ memory w ∧ others w ∧ X w ∧ (intact w ∨ restored w)) →
  (∀ w w', dirs w' = dirs w → X w → X w') →
  spec true (_ ← removeTarRestoreJournal t; update (lift t)) P
    (λ _ w, others w ∧ journals w !! t = None ∧ unfenced t (fences w) ∧ X w).
Proof.
  intros HP HX. eapply (spec_bind _ _ _ _ _ _ (λ _ w, others w ∧ journals w !! t = None ∧ X w)).
  - apply spec_atomic; [|intros w Hw; by destruct (HP w Hw) as (? & ? & _)].
    intros w Hw. destruct (HP w Hw) as (_ & _ & Ho & Hx & _). split; [|split; [apply lookup_delete_eq|by apply (HX w)]].
    intros id Hid. cbn. rewrite lookup_delete_ne by done. by apply Ho.
  - intros []. apply spec_update. intros w (Ho & Hj & Hx). split; [done|]. split; [done|].
    split; [apply lift_unfenced|by apply (HX w)].
Qed.

Lemma restored_dirs w w' : dirs w' = dirs w → restored w → restored w'.
Proof. unfold restored, entries_of, dir_of. by intros ->. Qed.
Lemma intact_dirs w w' : dirs w' = dirs w → intact w → intact w'.
Proof. unfold intact, entries_of, dir_of. by intros ->. Qed.
Lemma clearing_dirs w w' : dirs w' = dirs w → clearing w → clearing w'.
Proof. unfold clearing, entries_of, dir_of. by intros ->. Qed.
Lemma installing_dirs w w' : dirs w' = dirs w → installing w → installing w'.
Proof. unfold installing, moved, entries_of, dir_of. by intros ->. Qed.

(** From the step that installs to the end. *)
Lemma installing_end_spec (P : World → Prop) :
  (∀ w, P w → disk w ∧ memory w ∧ others w ∧ installing w) →
  spec true
    (_ ← writeTarRestoreJournal (own_journal Installing restored_root);
     _ ← update (fence (own_journal Installing restored_root));
     _ ← runTarRestoreStep s StInstall staging restored_root;
     _ ← match restored_root with
         | Some r => match r_xattrs r with Some xattrs => restoreRootXattrs s r xattrs | None => mret tt end
         | None => mret tt
         end;
     _ ← removeTarRestoreJournal t;
     update (lift t)) P (λ _, finished).
Proof.
  intros HP. apply spec_assoc. eapply spec_bind; [apply (begin_phase_spec _ _ _ installing); [exact HP|apply installing_dirs]|].
  intros []. eapply spec_bind; [apply install_spec|]. intros []. eapply spec_bind; [apply xattrs_spec|]. intros [].
  apply (settled_spec _ restored); [|apply restored_dirs]. intros w [Hw Hattrs].
  assert (restored w) as Hr by (destruct Hw as (_ & Ha & He & _); by split).
  destruct (placed_ok w Hw). split; [done|]. split; [done|]. split; [apply Hw|]. auto.
Qed.

Lemma install_from_spec (p : Phase) (P : World → Prop) :
  (∀ w, P w → disk w ∧ memory w ∧ others w ∧ if decide (p = Installing) then installing w else clearing w) →
  spec true (installRestore (own_journal p restored_root)) P (λ _, finished).
Proof.
  intros HP. unfold installRestore. cbn [source taskId root phase own_journal]. change (with_phase ?q (own_journal p ?r)) with (own_journal q r).
  destruct (decide (p ≠ Installing)) as [Hp|Hp].
  - eapply (spec_bind _ _ _ _ _ _ (λ _ w, at_phase Clearing w ∧ clearing w ∧ installing w)).
    + apply spec_assoc. eapply spec_bind.
      { apply (begin_phase_spec _ _ _ clearing); [|apply clearing_dirs]. intros w Hw. specialize (HP w Hw).
        by rewrite decide_False in HP. }
      intros []. eapply spec_post; [|apply clear_spec]. cbn. intros _ w (Hp' & Hc & Hn). split; [done|]. split; [done|].
      destruct Hc as (Ha & Hs & Hat). split; [done|]. split; [by rewrite Hat|]. right. exists R. split; [done|].
      split; [done|]. intros n Hne Hnone. rewrite Hnone. apply eq_None_not_Some. intros H.
      by apply (Hn n Hne), elem_of_nil in H.
    + intros []. apply installing_end_spec. intros w (Hw & Hc & Hi). destruct (at_clearing w Hw Hc). by destruct Hw.
  - assert (p = Installing) as -> by (by apply dec_stable).
    eapply (spec_bind _ _ _ _ _ _ (λ _, P)); [by apply spec_ret|]. intros []. apply installing_end_spec.
    intros w Hw. specialize (HP w Hw). by rewrite decide_True in HP.
Qed.

(** Undoing: the staging folder goes, and all else stays. *)
Lemma intact_staging w e : intact w → (∀ n, n ≠ staging → e !! n = entries_of w s !! n) → intact (set_entries s e w).
Proof.
  intros [Hi Ha] He. split; [|by autorewrite with worlds]. rewrite <-Hi. autorewrite with worlds. apply map_eq. intros n.
  destruct (decide (n = staging)) as [->|Hn]; [by rewrite !lookup_delete_eq|]. rewrite !lookup_delete_ne by done. by apply He.
Qed.

Lemma staging_only_entries w e :
  staging_only w → (∀ n, n ≠ staging → e !! n = entries_of w s !! n) → staging_only (set_entries s e w).
Proof. intros (Ho & Hj & Hf & Hi) He. split; [done|]. split; [done|]. split; [done|]. by apply intact_staging. Qed.

Definition unstaged (w : World) : Prop := entries_of w s !! staging = None.

Lemma unstaged_dirs w w' : dirs w' = dirs w → unstaged w → unstaged w'.
Proof. unfold unstaged, entries_of, dir_of. by intros ->. Qed.

Lemma discard_spec strict :
  spec strict (runTarRestoreStep s StDiscard staging None) staging_only (λ _ w, staging_only w ∧ unstaged w).
Proof.
  apply step_runs, spec_effect.
  - intros w Hw. split; [|unfold unstaged; autorewrite with worlds; apply lookup_delete_eq].
    apply staging_only_entries; [done|]. intros n Hn. by rewrite lookup_delete_ne.
  - intros part w Hw. apply staging_only_ok. destruct (entries_of w s !! staging); [|done].
    destruct part; (apply staging_only_entries; [done|]); intros n' Hn.
    + by rewrite lookup_insert_ne.
    + by rewrite lookup_delete_ne.
Qed.

Lemma undo_spec strict :
  spec strict (_ ← runTarRestoreStep s StDiscard staging None; removeTarRestoreJournal t) staging_only
    (λ _ w, undone w ∧ unstaged w).
Proof.
  eapply spec_bind; [apply discard_spec|]. intros []. apply spec_atomic; [|intros w [Hw _]; by apply staging_only_ok].
  intros w [(Ho & Hj & Hf & Hi) Hu]. split; [|by apply (unstaged_dirs w)].
  split; [|split; [apply lookup_delete_eq|split; [done|by apply (intact_dirs w)]]].
  intros id Hid. cbn. rewrite lookup_delete_ne by done. by apply Ho.
Qed.

Lemma abandon_staging_spec : spec true (abandonTarRestore (own_journal Staging None)) staging_only (λ _ w, undone w ∧ unstaged w).
Proof.
  unfold abandonTarRestore. cbn [source taskId own_journal]. apply spec_assoc.
  eapply spec_bind; [apply undo_spec|]. intros []. apply spec_update. intros w [(Ho & Hj & Hf & Hi) Hu].
  split; [|by apply (unstaged_dirs w)]. split; [done|]. split; [done|].
  split; [apply lift_unfenced|by apply (intact_dirs w)].
Qed.

(** What a settled world is, by the phase its journal was in. *)
Lemma finish_restore_spec w : disk w → memory w → ∀ j, journals w !! t = Some j →
  spec true (finishTarRestore j) (λ w', w' = w)
    (λ finish w', if decide (phase j = Staging) then finish = false ∧ undone w' ∧ unstaged w' else finish = true ∧ finished w').
Proof.
  intros Hd Hm j Hj. pose proof Hd as [Ho Hd']. pose proof Hm as Hm'. unfold memory in Hm'. rewrite Hj in Hd', Hm'.
  unfold finishTarRestore. destruct (phase j) eqn:Ep.
  - destruct Hd' as [-> Hi]. rewrite !decide_True in * by done. eapply spec_bind.
    + eapply spec_pre; [|apply abandon_staging_spec]. by intros ? ->.
    + intros []. apply spec_ret. intros w' Hw'. by rewrite decide_True.
  - destruct Hd' as [-> Hi]. rewrite !decide_False in * by done. eapply spec_bind.
    + apply (install_from_spec Clearing). by intros ? ->.
    + intros []. apply spec_ret. intros w' Hw'. by rewrite decide_False.
  - destruct Hd' as [-> Hi]. rewrite !decide_False in * by done. eapply spec_bind.
    + apply (install_from_spec Installing). by intros ? ->.
    + intros []. apply spec_ret. intros w' Hw'. by rewrite decide_False.
Qed.

Hypothesis fresh : journals w0 !! t = None ∧ unfenced t (fences w0).

Lemma reserve_spec :
  spec false (runTarRestoreStep s StReserve staging None) (λ w, w = w0) (λ _, undone).
Proof.
  apply step_runs, spec_atomic.
  - intros w ->. destruct (entries_of w0 s !! staging); [done|]. destruct fresh as [Hj Hf].
    split; [done|]. split; [done|]. split; [done|]. apply intact_staging; [by split|].
    intros n Hn. by rewrite lookup_insert_ne.
  - intros w ->. destruct fresh as [Hj Hf]. apply over_ok; [done..|]. left. by split.
Qed.

Lemma stage_spec :
  RestoreFacts.spec staging_only (λ _, True) false
    (root ← stage o staging; if o_begins o then mret root else fail "The restore was cancelled")
    staging_only (λ root w, staging_only w ∧ clearing w ∧ root = restored_root).
Proof.
  unfold stage. apply spec_unassoc. eapply (spec_bind _ _ _ _ _ _ (λ _ w, staging_only w ∧ clearing w)).
  - apply spec_effect.
    + intros w Hw. unfold clearing, restored_entries. destruct (o_archive o) as [[st r]|m]; [|done].
      split; [|split; [done|]].
      * apply staging_only_entries; [done|]. intros n Hn. by rewrite lookup_insert_ne.
      * autorewrite with worlds. split; [apply lookup_insert_eq|]. by destruct Hw as (_ & _ & _ & _ & ?).
    + intros part w Hw. split; [|done]. destruct part as [node|]; [|done].
      apply staging_only_entries; [done|]. intros n Hn. by rewrite lookup_insert_ne.
  - intros []. unfold restored_root. destruct (o_archive o) as [[st r]|m] eqn:Ea.
    + eapply (spec_bind _ _ _ _ _ _ (λ r' w, (staging_only w ∧ clearing w) ∧ r' = r)).
      * apply spec_ret. auto.
      * intros r'. destruct (o_begins o); [apply spec_ret; tauto|]. apply spec_fail. tauto.
    + apply spec_pure with (φ := False); [|done]. intros w [_ (H & _)]. by rewrite Ea in H.
Qed.

Lemma restore_spec : spec false (restoreTarBackup o) (λ w, w = w0) (λ _, finished).
Proof.
  assert (∀ w, w = w0 → disk w ∧ memory w) as H0.
  { intros w ->. destruct fresh as [Hj Hf]. apply over_ok; [done..|]. left. by split. }
  unfold restoreTarBackup. destruct (o_manifest o) as [[backupId tgt]|m]; [|by apply spec_fail].
  destruct (negb _); [by apply spec_fail|]. cbv zeta.
  eapply spec_bind; [apply reserve_spec|]. intros [].
  eapply (spec_bind _ _ _ _ _ _ (λ _, staging_only)).
  { apply spec_atomic.
    - intros w (Ho & Hj & Hf & Hi). split; [|split; [apply lookup_insert_eq|split; [done|by apply (intact_dirs w)]]].
      intros id Hid. cbn. rewrite lookup_insert_ne by done. by apply Ho.
    - intros w (Ho & Hj & Hf & Hi). apply over_ok; auto. }
  intros []. eapply spec_bind.
  { eapply spec_attempt; [|apply stage_spec]. intros w Hw. by apply staging_only_ok. }
  intros [root|message]; cbn beta iota.
  - change (with_root root ?j) with (own_journal Staging root).
    apply (spec_pure _ _ _ _ _ _ (root = restored_root)); [tauto|]. intros ->.
    eapply spec_bind; [apply spec_lax, (install_from_spec Staging)|].
    + intros w (Hw & Hc & _). destruct (staging_only_ok w Hw). rewrite decide_False by done. by destruct Hw.
    + intros []. apply spec_ret. auto.
  - eapply spec_bind.
    + eapply spec_attempt; [|eapply spec_pre; [|apply (undo_spec false)]]; [auto|tauto].
    + intros [[]|]; apply spec_fail; [|tauto]. intros w [(Ho & Hj & Hf & Hi) _]. apply over_ok; auto.
Qed.

(** *** However often it stops *)

(** Every journal is under its own name, and no other restore that began to
    clear is of this target, which its fence would keep from being restored. *)
Hypothesis journals_named : ∀ id j, journals w0 !! id = Some j → taskId j = id.
Hypothesis target_free : ∀ id j, journals w0 !! id = Some j → id ≠ t → phase j ≠ Staging → targetKey (target j) ≠ tkey.

Definition fence_all (l : list TarRestoreJournal) (fs : list (string * TarRestoreJournal)) :=
  fold_left (λ fs j, if decide (phase j = Staging) then fs else jm_set (targetKey (target j)) j fs) l fs.

Lemma load_loop l : ∀ w,
  let w' := fold_left (λ w journal, if decide (phase journal = Staging) then w else fence journal w) l w in
  fences w' = fence_all l (fences w) ∧ dirs w' = dirs w ∧ journals w' = journals w.
Proof. induction l as [|j l IH]; intros w; [done|]. cbn. case_decide; [apply IH|]. apply (IH (fence j w)). Qed.

Lemma load_fences w :
  fences (load w) = fence_all (readTarRestoreJournals w) [] ∧ dirs (load w) = dirs w ∧ journals (load w) = journals w.
Proof. apply (load_loop _ (set_fences [] w)). Qed.

Lemma fence_all_elem l : ∀ fs k j, (k, j) ∈ fence_all l fs → (j ∈ l ∧ phase j ≠ Staging) ∨ (k, j) ∈ fs.
Proof.
  induction l as [|j0 l IH]; intros fs k j H; [by right|]. cbn in H. apply IH in H as [[? ?]|H]; [left; by split; [right|]|].
  case_decide; [by right|]. apply jm_set_elem in H as [[-> ->]|]; [left; by split; [left|]|by right].
Qed.

Lemma fence_all_get k own_j l : ∀ fs,
  (∀ j, j ∈ l → phase j ≠ Staging → targetKey (target j) = k → j = own_j) → phase own_j ≠ Staging → targetKey (target own_j) = k →
  own_j ∈ l ∨ jm_get k fs = Some own_j → jm_get k (fence_all l fs) = Some own_j.
Proof.
  induction l as [|j l IH]; intros fs Hl Hp Hk Hin; [destruct Hin as [H|?]; [by apply elem_of_nil in H|done]|].
  cbn. apply IH; [intros; apply Hl; [by right|done..]|done|done|].
  destruct Hin as [[->|?]%elem_of_cons|Hget]; [right|by left|right].
  - rewrite decide_False by done. by rewrite jm_get_set, decide_True.
  - case_decide as Hj; [done|]. rewrite jm_get_set. case_decide as Hjk; [|done]. f_equal. apply Hl; [by left|done|done].
Qed.

Lemma elem_of_journals w j : j ∈ readTarRestoreJournals w ↔ ∃ id, journals w !! id = Some j.
Proof.
  unfold readTarRestoreJournals. rewrite stable_sort_perm, list_elem_of_fmap. split.
  - intros ([id j'] & -> & H%elem_of_map_to_list). by exists id.
  - intros [id H]. exists (id, j). split; [done|]. by apply elem_of_map_to_list.
Qed.

Lemma disk_load w : disk w → disk (load w).
Proof.
  destruct (load_fences w) as (_ & Hd & Hj). unfold disk, others. rewrite Hj. intros [Ho H]. split; [done|].
  destruct (journals w !! t) as [j|].
  - destruct (phase j); destruct H as [? H]; (split; [done|]);
      [by apply (intact_dirs w)|by apply (clearing_dirs w)|by apply (installing_dirs w)].
  - destruct H; [left; by apply (intact_dirs w)|right; by apply (restored_dirs w)].
Qed.

Lemma memory_load w : disk w → memory (load w).
Proof.
  intros [Ho H]. destruct (load_fences w) as (Hf & _ & Hj). unfold memory, fenced. rewrite Hj, Hf.
  assert (∀ id j, journals w !! id = Some j → id ≠ t → taskId j = id) as Hnamed.
  { intros id j Hid Hne. rewrite Ho in Hid by done. by apply journals_named. }
  assert (∀ j, journals w !! t = Some j → taskId j = t ∧ target j = o_target o ∧ consumers j = o_consumers o) as Hown.
  { intros j Hj'. rewrite Hj' in H. by destruct (phase j); destruct H as [-> _]. }
  assert ((∀ j, journals w !! t = Some j → phase j = Staging) → unfenced t (fence_all (readTarRestoreJournals w) [])) as Hunf.
  { intros Hst k j [[[id Hid]%elem_of_journals Hp]|Hn]%fence_all_elem; [|by apply elem_of_nil in Hn].
    destruct (decide (id = t)) as [->|Hne]; [by apply Hst in Hid|]. by rewrite (Hnamed id j Hid Hne). }
  destruct (journals w !! t) as [j|] eqn:Ej; [|by apply Hunf]. case_decide as Hp.
  - apply Hunf. by intros ? [= <-].
  - destruct (Hown j eq_refl) as (H1 & H2 & H3). exists j. split; [|done]. apply fence_all_get; [|done|by rewrite H2|].
    + intros j' [id Hid]%elem_of_journals Hp' Hk. destruct (decide (id = t)) as [->|Hne]; [by rewrite Ej in Hid; injection Hid|].
      exfalso. apply (target_free id j'); [by rewrite <-Ho|done|done|done].
    + left. apply elem_of_journals. by exists t.
Qed.

(** The world after a run: the Relay starts again where it stopped. *)
Definition after {A} (out : Outcome A) : World :=
  match out with Done _ w _ | Failed _ w _ => w | Stopped w => load w end.

(** What a restore, and any recoveries of it, can make of the world, each
    interrupted anywhere, with the Relay starting again at any time. *)
Inductive restoring : World → Prop :=
  | restoring_begins cuts : restoring (after (restoreTarBackup o cuts w0))
  | restoring_restarts w : restoring w → restoring (load w)
  | restoring_settles w journal quiet cuts :
      restoring w → taskId journal = t → restoring (after (settleTarRestore journal Finish quiet cuts w)).

Lemma after_ok {A} strict (p : Act A) P Q cuts w :
  spec strict p P Q → (∀ a w, Q a w → disk w ∧ memory w) → P w → disk (after (p cuts w)) ∧ memory (after (p cuts w)).
Proof.
  intros Hp HQ Hw. specialize (Hp cuts w Hw). destruct (p cuts w) as [a w' c|m w' c|w']; cbn.
  - destruct Hp as [Hp _]. by eapply HQ.
  - by destruct Hp as (? & ? & _).
  - destruct Hp as [Hd _]. split; [by apply disk_load|by apply memory_load].
Qed.

Lemma finished_ok w : finished w → disk w ∧ memory w.
Proof. intros (? & ? & ? & ?). apply over_ok; auto. Qed.
Lemma undone_ok w : undone w → disk w ∧ memory w.
Proof. intros (? & ? & ? & ?). apply over_ok; auto. Qed.

Lemma settle_spec w journal quiet :
  disk w → memory w → taskId journal = t →
  spec false (settleTarRestore journal Finish quiet) (λ w', w' = w) (λ _ w, disk w ∧ memory w).
Proof.
  intros Hd Hm Ht. unfold settleTarRestore. apply spec_look. intros ? ->. rewrite Ht.
  destruct (journals w !! t) as [current|] eqn:Ej; [|by apply spec_ret; intros ? ->].
  destruct (_ || _); [by apply spec_fail; intros ? ->|]. destruct (_ && _); [by apply spec_fail; intros ? ->|].
  eapply spec_bind; [by apply spec_lax, (finish_restore_spec w Hd Hm)|]. intros finish. apply spec_ret. intros w' Hw'.
  case_decide; [apply undone_ok|apply finished_ok]; tauto.
Qed.

Lemma restoring_ok w : restoring w → disk w ∧ memory w.
Proof.
  induction 1 as [cuts|w _ [Hd Hm]|w journal quiet cuts _ [Hd Hm] Ht].
  - eapply after_ok; [apply restore_spec| |done]. intros ? ?. apply finished_ok.
  - split; [by apply disk_load|by apply memory_load].
  - eapply after_ok; [by apply (settle_spec w)| |done]. auto.
Qed.

(** A lock on the target or a part of it, or, where it is a volume, one that
    starts, deploys or replaces an App that uses it. *)
Definition touches_target (lock : LaneLock) : Prop :=
  key lock = tkey ∨ startsWith (tkey +:+ "/") (key lock) = true ∨
  t_kind (o_target o) = TVolume ∧ ∃ appId, appId ∈ o_consumers o ∧
    (key lock = laneKeys.appLifecycle appId ∨ key lock = laneKeys.app appId ∧ mode lock = Exclusive).

Lemma lock_refusal_said fs lock reason : lock_refusal fs lock = Some reason → reason ≠ "".
Proof.
  unfold lock_refusal, refusalMessage. destruct (List.find _ fs) as [e|].
  - intros [= <-]. by destruct (t_kind _).
  - destruct (existsb _ fs); [|done]. by intros [= <-].
Qed.

Lemma loop_refuses fs locks lock :
  lock ∈ locks → is_Some (lock_refusal fs lock) → ∃ reason, refusal_loop fs locks = Some reason ∧ reason ≠ "".
Proof.
  intros Hin [r Hr]. induction Hin as [lock locks|lock lock' locks Hin IH]; cbn.
  - rewrite Hr. exists r. split; [done|]. by eapply lock_refusal_said.
  - destruct (lock_refusal fs lock') eqn:E; [|by apply IH]. eexists. split; [done|]. by eapply lock_refusal_said.
Qed.

Lemma fenced_lock w lock : fenced w → touches_target lock → is_Some (lock_refusal (fences w) lock).
Proof.
  intros (j & Hj & _ & Ht & Hc) Htouch. assert ((tkey, j) ∈ fences w) as Hin.
  { clear -Hj. induction (fences w) as [|[k v] m IH]; [done|]. cbn in Hj.
    case_decide as E; [injection Hj as ->; rewrite E; by left|right; by apply IH]. }
  unfold lock_refusal. destruct (List.find (on_target lock) (fences w)) eqn:E; [done|].
  assert (on_target lock (tkey, j) = false) as Hon by (eapply List.find_none; [done|by apply list_elem_of_In]).
  unfold on_target in Hon. cbn in Hon. apply orb_false_iff in Hon as [Hon1 Hon2]. apply bool_decide_eq_false in Hon1.
  destruct Htouch as [?|[H|(Hk & appId & Ha & Hl)]]; [done|by rewrite H in Hon2|].
  replace (existsb (on_consumer lock) (fences w)) with true; [done|]. symmetry. apply existsb_elem.
  exists (tkey, j). split; [done|]. unfold on_consumer. cbn. rewrite Ht, bool_decide_true by done. cbn.
  apply existsb_elem. exists appId. rewrite Hc. split; [done|]. apply orb_true_iff.
  destruct Hl as [->|[-> ->]]; [left|right]; by rewrite !bool_decide_true.
Qed.

Lemma fenced_refuses w label locks lock :
  fenced w → label ≠ TAR_RESTORE_RECOVERY_LABEL → lock ∈ locks → touches_target lock →
  ∃ reason, refusal (fences w) label locks = Some reason ∧ reason ≠ "".
Proof.
  intros Hf Hl Hin Ht. unfold refusal. rewrite bool_decide_false, bool_decide_false by (done || (destruct Hf as (? & Hf & _); by intros E; rewrite E in Hf)).
  apply (loop_refuses _ _ lock); [done|]. by apply fenced_lock.
Qed.

Lemma partway_fenced w : restoring w → intact w ∨ restored w ∨ (clearing w ∨ installing w) ∧ fenced w.
Proof.
  intros [Hd Hm]%restoring_ok. destruct Hd as [_ Hd]. unfold memory in Hm.
  destruct (journals w !! t) as [j|]; [|tauto]. destruct (phase j) eqn:Ep; destruct Hd as [_ Hd]; [by left|right; right..];
    (split; [tauto|]); by rewrite decide_False in Hm.
Qed.
End Restore.

Lemma firstRefusal_some refusals refuse label locks reason :
  refuse ∈ refusals → refuse label locks = Some reason → reason ≠ "" → is_Some (firstRefusal refusals label locks).
Proof.
  intros Hin Hr Hne. induction Hin as [refuse refusals|refuse refuse' refusals Hin IH]; cbn; destruct (truthy _) eqn:E; try done.
  - by rewrite Hr in E; unfold truthy in E; rewrite decide_False in E.
  - by apply IH.
Qed.

(** What a restore starts from: a new task, a target that is not fenced, and
    an archive its rules accept. *)
Record restorable (o : RestoreOptions) (w0 : World) : Prop := {
  re_task : uuid_groups [8; 4; 4; 4; 12] (o_taskId o) = true;
  re_names : ∀ name, is_Some (restored_entries o !! name) → startsWith TAR_RESTORE_STAGING_PREFIX name = false;
  re_fresh : journals w0 !! o_taskId o = None ∧ unfenced (o_taskId o) (fences w0);
  re_named : ∀ id j, journals w0 !! id = Some j → taskId j = id;
  re_free : ∀ id j, journals w0 !! id = Some j → id ≠ o_taskId o → phase j ≠ Staging →
    targetKey (target j) ≠ targetKey (o_target o);
}.

(** C30: A restore never leaves a target in pieces that anything can use. However
    often it is interrupted, at any effect on the disk, even one only partly
    done, by an error or by the Relay stopping, and however often it is then
    recovered and interrupted again, the target holds the old files as they
    were, or exactly what was backed up; or it is partway, and the lanes then
    refuse every operation but a recovery that has a lock on it or on a part
    of it, and every start, deployment and replacement of an App that uses
    it, whatever other refusals the Relay's lanes have. *)
Theorem restore_crash_safe o w0 w :
  restorable o w0 → restoring o w0 w →
  intact o w0 w ∨ restored o w0 w ∨
  ∀ label locks lock frozen added,
    label ≠ TAR_RESTORE_RECOVERY_LABEL → lock ∈ locks → touches_target o lock → refusal (fences w) ∈ added →
    is_Some (refusalFor (relay_refusals frozen added) label locks).
Proof.
  intros [H1 H2 H3 H4 H5] Hw. destruct (partway_fenced o w0 H1 H2 H3 H4 H5 w Hw) as [?|[?|[_ Hf]]]; [by left|by right; left|].
  do 2 right. intros label locks lock frozen added Hl Hin Ht Hadded.
  destruct (fenced_refuses o w label locks lock Hf Hl Hin Ht) as (reason & Hr & Hne).
  apply (firstRefusal_some _ (refusal (fences w)) label locks reason); [|done..].
  unfold relay_refusals. destruct frozen; [by right|done].
Qed.

(** C31: A recovery that is not interrupted always settles the restore. After
    any interruptions, with nothing running on the target, finishing an
    unfinished restore succeeds: one that had not begun to clear is undone,
    with the old files as they were and no staging folder; any other leaves
    exactly the files that were backed up and the root's owner, mode and
    attributes. Its journal and its fence are then gone. *)
Theorem restore_recovers o w0 w journal :
  restorable o w0 → restoring o w0 w → journals w !! o_taskId o = Some journal →
  ∃ w', finishTarRestore journal [] w = Done (bool_decide (phase journal ≠ Staging)) w' [] ∧
    journals w' !! o_taskId o = None ∧ unfenced (o_taskId o) (fences w') ∧
    if decide (phase journal = Staging)
    then intact o w0 w' ∧ entries_of w' (o_source o) !! tarRestoreStagingName (o_taskId o) = None
    else restored o w0 w'.
Proof.
  intros [H1 H2 H3 H4 H5] Hw Hj. destruct (restoring_ok o w0 H1 H2 H3 H4 H5 w Hw) as [Hd Hm].
  pose proof (finish_restore_spec o w0 H1 H2 w Hd Hm journal Hj [] w eq_refl) as H.
  destruct (finishTarRestore journal [] w) as [a w' cuts|m w' cuts|w']; [|by destruct H as (_ & _ & H & _); destruct H|by destruct H].
  destruct H as [H ->]; [|done]. exists w'. destruct (decide (phase journal = Staging)) as [Hp|Hp].
  - destruct H as (-> & (_ & Hn & Hu & Hi) & Hs). rewrite bool_decide_false by auto. done.
  - destruct H as (-> & _ & Hn & Hu & Hr). by rewrite bool_decide_true.
Qed.

(** ** An App's folder whose restore stops twice *)

Definition sample_task : string := "0c9f4c7e-3b1d-4a52-9d0e-6f2b8a1c7d34".
Definition sample_source : TarSource := SBind "/srv/apps/a1".
Definition sample_restore : RestoreOptions :=
  MkRestore "b1" [] sample_source (MkTarget "a1" TApp) sample_task (Ok ("b1", MkTarget "a1" TApp))
    (Ok ({["new" := File "restored"]}, Some (MkRoot 1000 448 1000 None))) true.
Definition sample_world : World :=
  MkWorld {[sample_source := MkDir {["old" := File "kept"; "new" := File "older"]} (MkAttrs 0 493 0 ∅)]} ∅ [].

(** The Relay stops as it clears, with a file half removed, and a first
    recovery fails as it moves the restored one up. *)
Definition stopped_world : World :=
  after (restoreTarBackup sample_restore [MkCut 5 (Some (File "hal")) true] sample_world).
Definition sample_journal : TarRestoreJournal :=
  MkJournal [] Clearing (Some (MkRoot 1000 448 1000 None)) sample_source (MkTarget "a1" TApp) sample_task.
Definition failed_world : World :=
  after (settleTarRestore sample_journal Finish true [MkCut 4 None false] stopped_world).

Lemma sample_restorable : restorable sample_restore sample_world.
Proof.
  split.
  - vm_compute. reflexivity.
  - intros name [node H]. cbn in H. apply lookup_singleton_Some in H as [<- _]. vm_compute. reflexivity.
  - split; [reflexivity|]. intros k j H. by apply elem_of_nil in H.
  - intros id j H. change ((∅ : gmap string TarRestoreJournal) !! id = Some j) in H. by rewrite lookup_empty in H.
  - intros id j H. change ((∅ : gmap string TarRestoreJournal) !! id = Some j) in H. by rewrite lookup_empty in H.
Qed.

Example restore_crash_safe_witness :
  is_Some (refusalFor (relay_refusals None [refusal (fences failed_world)]) "app.action" (appLifecycleLocks "a1")) ∧
  entries_of failed_world sample_source !! "old" = None.
Proof.
  split; [|vm_compute; reflexivity].
  assert (restoring sample_restore sample_world failed_world) as Hw.
  { apply restoring_settles; [apply restoring_begins|reflexivity]. }
  destruct (restore_crash_safe sample_restore sample_world failed_world sample_restorable Hw) as [[H _]|[(_ & H & _)|H]].
  - exfalso. apply (f_equal (λ m : gmap string Node, m !! "old")) in H. vm_compute in H. discriminate H.
  - exfalso. apply (f_equal (λ m : gmap string Node, m !! "new")) in H. vm_compute in H. discriminate H.
  - apply (H "app.action" (appLifecycleLocks "a1") (shared (laneKeys.app "a1")) None).
    + discriminate.
    + left.
    + left. reflexivity.
    + left.
Defined.

Example restore_recovers_witness :
  ∃ journal w', journals failed_world !! sample_task = Some journal ∧
    finishTarRestore journal [] failed_world = Done true w' [] ∧ journals w' !! sample_task = None ∧
    entries_of w' sample_source = {["new" := File "restored"]}.
Proof.
  assert (restoring sample_restore sample_world failed_world) as Hw.
  { apply restoring_settles; [apply restoring_begins|reflexivity]. }
  destruct (journals failed_world !! sample_task) as [journal|] eqn:Hj; [|vm_compute in Hj; discriminate Hj].
  destruct (restore_recovers sample_restore sample_world failed_world journal sample_restorable Hw Hj)
    as (w' & Hf & Hn & _ & H).
  assert (option_map phase (journals failed_world !! sample_task) = Some Installing) as Hp by (vm_compute; reflexivity).
  rewrite Hj in Hp. injection Hp as Hp. rewrite Hp in Hf, H. exists journal, w'.
  split; [reflexivity|]. split; [exact Hf|]. split; [exact Hn|].
  destruct (decide (Installing = Staging)) as [E|_]; [discriminate E|]. destruct H as (_ & H & _). exact H.
Defined.
