(* ===== verification/Gate.v ===== *)
(** * The transfer gate

    Models [apps/relay/src/transfers/gate.ts]: how many direct transfers the
    Relay serves at once, in three pools with a share for each principal. A
    permit is held for a transfer's scope and returned once, however it ends.

    The gate keeps counters; what it promises is stated of the permits that
    are out: [gate_refines] shows that the counters are those of the permits,
    whatever order they are taken and returned in. *)
From S2P Require Import Prelude.

Inductive TransferPool := Backup | Browser | Peer.

#[global] Instance TransferPool_eq_dec : EqDecision TransferPool.
Proof. solve_decision. Defined.

Record TransferPoolLimits := MkLimits { total : Z; perPrincipal : Z }.

Definition defaultTransferPoolLimits (pool : TransferPool) : TransferPoolLimits :=
  match pool with
  | Browser => MkLimits 32 8
  | Backup => MkLimits 4 4
  | Peer => MkLimits 8 4
  end.

Record PoolState := MkPool { active : Z; byPrincipal : gmap string Z; limits : TransferPoolLimits }.

Record TransferGate := MkGate { p_backup : PoolState; p_browser : PoolState; p_peer : PoolState }.

Definition new_gate (limits : TransferPool → TransferPoolLimits) : TransferGate :=
  MkGate (MkPool 0 ∅ (limits Backup)) (MkPool 0 ∅ (limits Browser)) (MkPool 0 ∅ (limits Peer)).

Definition pool_of (pool : TransferPool) (G : TransferGate) : PoolState :=
  match pool with Backup => p_backup G | Browser => p_browser G | Peer => p_peer G end.

Definition set_pool (pool : TransferPool) (s : PoolState) (G : TransferGate) : TransferGate :=
  match pool with
  | Backup => MkGate s (p_browser G) (p_peer G)
  | Browser => MkGate (p_backup G) s (p_peer G)
  | Peer => MkGate (p_backup G) (p_browser G) s
  end.

(** [active], of a pool or of all. *)
Definition active_in (pool : option TransferPool) (G : TransferGate) : Z :=
  match pool with
  | Some pool => active (pool_of pool G)
  | None => active (p_backup G) + active (p_browser G) + active (p_peer G)
  end.

Record TransferRejected := MkRejected { status : Z; reason : string }.

Definition full_reason (pool : TransferPool) : string :=
  match pool with
  | Backup => "Relay backup download capacity reached"
  | Peer => "Relay transfer capacity reached"
  | Browser => "Relay file transfer capacity reached"
  end.

Definition admit_transfer (pool : TransferPool) (principal : string) (G : TransferGate) : Result TransferRejected TransferGate :=
  let state := pool_of pool G in
  let held := default 0%Z (byPrincipal state !! principal) in
  if (total (limits state) <=? active state)%Z || (perPrincipal (limits state) <=? held)%Z
  then Throw (MkRejected 429 (full_reason pool))
  else Ok (set_pool pool (MkPool (active state + 1) (<[principal := (held + 1)%Z]> (byPrincipal state)) (limits state)) G).

(** What the scope's finalizer does. *)
Definition release (pool : TransferPool) (principal : string) (G : TransferGate) : TransferGate :=
  let state := pool_of pool G in
  let remaining := (default 1 (byPrincipal state !! principal) - 1)%Z in
  set_pool pool
    (MkPool (active state - 1)
       (if (0 <? remaining)%Z then <[principal := remaining]> (byPrincipal state) else delete principal (byPrincipal state))
       (limits state)) G.

(** ** Runs

    The permits that are out, the newest first. A scope that closes returns
    its own. *)
Inductive Event := Admit (pool : TransferPool) (principal : string) | Close (permit : nat).

Definition step (st : list (TransferPool * string) * TransferGate) (e : Event) : list (TransferPool * string) * TransferGate :=
  let '(out, G) := st in
  match e with
  | Admit pool principal =>
      match admit_transfer pool principal G with
      | Ok G => ((pool, principal) :: out, G)
      | Throw _ => (out, G)
      end
  | Close n =>
      match out !! n with
      | Some (pool, principal) => (delete n out, release pool principal G)
      | None => (out, G)
      end
  end.

Definition run (limits : TransferPool → TransferPoolLimits) (events : list Event) : list (TransferPool * string) * TransferGate :=
  fold_left step events ([], new_gate limits).

(** ** What the counters count *)

Definition in_pool (pool : TransferPool) (permit : TransferPool * string) : bool := bool_decide (permit.1 = pool).
Definition of_principal (pool : TransferPool) (principal : string) (permit : TransferPool * string) : bool :=
  bool_decide (permit = (pool, principal)).

Lemma in_pool_eq pool pool' principal : in_pool pool (pool', principal) = bool_decide (pool' = pool).
Proof. done. Qed.

Lemma of_principal_eq pool principal pool' principal' :
  of_principal pool principal (pool', principal') = bool_decide (pool' = pool ∧ principal' = principal).
Proof. unfold of_principal. apply bool_decide_ext. split; [by intros [= -> ->]|by intros [-> ->]]. Qed.

Definition count (f : TransferPool * string → bool) (out : list (TransferPool * string)) : Z :=
  Z.of_nat (length (List.filter f out)).

Lemma count_cons f x out : count f (x :: out) = (if f x then count f out + 1 else count f out)%Z.
Proof. unfold count. cbn. destruct (f x); cbn; lia. Qed.

Lemma count_delete f out n x : out !! n = Some x → count f (delete n out) = (if f x then count f out - 1 else count f out)%Z.
Proof.
  revert n. induction out as [|y out IH]; intros [|n] H; cbn in *; [done|done| |].
  - injection H as ->. rewrite count_cons. destruct (f x); lia.
  - change (count f (y :: delete n out) = if f x then count f (y :: out) - 1 else count f (y :: out))%Z.
    rewrite !count_cons, (IH n H). destruct (f x), (f y); lia.
Qed.

Lemma count_nonneg f out : (0 <= count f out)%Z.
Proof. unfold count. lia. Qed.

(** The shares of a pool: none is kept at zero. *)
Definition share (n : Z) : option Z := if (0 <? n)%Z then Some n else None.

Record counts (lim : TransferPool → TransferPoolLimits) (out : list (TransferPool * string)) (G : TransferGate) : Prop := MkCounts {
  counts_limits pool : limits (pool_of pool G) = lim pool;
  counts_active pool : active (pool_of pool G) = count (in_pool pool) out;
  counts_share pool principal : byPrincipal (pool_of pool G) !! principal = share (count (of_principal pool principal) out);
}.

Lemma pool_of_set pool pool' s G : pool_of pool (set_pool pool' s G) = if decide (pool' = pool) then s else pool_of pool G.
Proof. by destruct pool, pool'. Qed.

Lemma share_value n d : (0 < n)%Z → default d (share n) = n.
Proof. unfold share. intros H. by rewrite (proj2 (Z.ltb_lt 0 n) H). Qed.

Lemma share_held n : (0 <= n)%Z → default 0%Z (share n) = n.
Proof. unfold share. intros H. destruct (0 <? n)%Z eqn:E; [done|]. apply Z.ltb_ge in E. cbn. lia. Qed.

Lemma admit_counts limits out G pool principal : counts limits out G →
  match admit_transfer pool principal G with
  | Ok G' => counts limits ((pool, principal) :: out) G' ∧
      (count (in_pool pool) out < total (limits pool))%Z ∧
      (count (of_principal pool principal) out < perPrincipal (limits pool))%Z
  | Throw e => e = MkRejected 429 (full_reason pool) ∧
      ((total (limits pool) <= count (in_pool pool) out)%Z ∨
       (perPrincipal (limits pool) <= count (of_principal pool principal) out)%Z)
  end.
Proof.
  intros [Hl Ha Hs]. unfold admit_transfer. rewrite Hl, Ha, Hs, share_held by apply count_nonneg.
  destruct (_ || _) eqn:E.
  - split; [done|]. apply orb_true_iff in E. rewrite !Z.leb_le in E. done.
  - bool_to_prop. split; [|done]. split; intros p; rewrite pool_of_set; case_decide as Hp; subst; cbn; auto.
    + rewrite count_cons. by rewrite in_pool_eq, bool_decide_true.
    + rewrite count_cons. rewrite in_pool_eq, bool_decide_false by done. done.
    + intros q. rewrite count_cons, of_principal_eq. destruct (decide (principal = q)) as [->|Hq].
      * rewrite lookup_insert_eq, bool_decide_true by done. unfold share.
        pose proof (count_nonneg (of_principal p q) out). by rewrite (proj2 (Z.ltb_lt 0 (_ + 1))) by lia.
      * rewrite lookup_insert_ne, bool_decide_false by naive_solver. apply Hs.
    + intros q. rewrite count_cons, of_principal_eq. rewrite bool_decide_false by naive_solver. apply Hs.
Qed.

Lemma release_counts limits out G n pool principal : counts limits out G → out !! n = Some (pool, principal) →
  counts limits (delete n out) (release pool principal G).
Proof.
  intros [Hl Ha Hs] Hn.
  assert (0 < count (of_principal pool principal) out)%Z as Hpos.
  { pose proof (count_delete (of_principal pool principal) out n _ Hn) as H.
    rewrite of_principal_eq, bool_decide_true in H by done. pose proof (count_nonneg (of_principal pool principal) (delete n out)). lia. }
  unfold release. rewrite Hs, share_value by done.
  split; intros p; rewrite pool_of_set; case_decide as Hp; subst; cbn; auto.
  - rewrite (count_delete _ _ _ _ Hn), Ha. by rewrite in_pool_eq, bool_decide_true.
  - rewrite (count_delete _ _ _ _ Hn), Ha. by rewrite in_pool_eq, bool_decide_false.
  - intros q. rewrite (count_delete _ _ _ _ Hn). rewrite of_principal_eq. destruct (decide (principal = q)) as [->|Hq].
    + rewrite bool_decide_true by done. unfold share. destruct (0 <? _)%Z eqn:E; [by rewrite lookup_insert_eq|by rewrite lookup_delete_eq].
    + rewrite bool_decide_false by naive_solver. destruct (0 <? _)%Z; [rewrite lookup_insert_ne by done|rewrite lookup_delete_ne by done]; apply Hs.
  - intros q. rewrite (count_delete _ _ _ _ Hn). rewrite of_principal_eq. rewrite bool_decide_false by naive_solver. apply Hs.
Qed.

Lemma run_counts limits events : counts limits (run limits events).1 (run limits events).2.
Proof.
  unfold run. assert (∀ st, counts limits st.1 st.2 → counts limits (fold_left step events st).1 (fold_left step events st).2) as H.
  { induction events as [|e events IH]; intros [out G] Hc; cbn; [done|]. apply IH. destruct e as [pool principal|n]; cbn.
    - pose proof (admit_counts limits out G pool principal Hc) as Ha. destruct (admit_transfer _ _ _); [apply Ha|done].
    - destruct (out !! n) as [[pool principal]|] eqn:E; [by apply release_counts|done]. }
  apply H. split; intros []; done.
Qed.

Lemma run_within limits events pool principal :
  (count (in_pool pool) (run limits events).1 <= Z.max 0 (total (limits pool)))%Z ∧
  (count (of_principal pool principal) (run limits events).1 <= Z.max 0 (perPrincipal (limits pool)))%Z.
Proof.
  unfold run. assert (∀ st, counts limits st.1 st.2 →
    (count (in_pool pool) st.1 <= Z.max 0 (total (limits pool)))%Z ∧
    (count (of_principal pool principal) st.1 <= Z.max 0 (perPrincipal (limits pool)))%Z →
    (count (in_pool pool) (fold_left step events st).1 <= Z.max 0 (total (limits pool)))%Z ∧
    (count (of_principal pool principal) (fold_left step events st).1 <= Z.max 0 (perPrincipal (limits pool)))%Z) as H.
  { induction events as [|e events IH]; intros [out G] Hc Hb; cbn; [done|]. apply IH; destruct e as [p q|n]; cbn.
    - pose proof (admit_counts limits out G p q Hc) as Ha. destruct (admit_transfer _ _ _); [apply Ha|done].
    - destruct (out !! n) as [[p q]|] eqn:E; [by apply release_counts|done].
    - pose proof (admit_counts limits out G p q Hc) as Ha. destruct (admit_transfer _ _ _); [|done].
      destruct Ha as (_ & Ht & Hp). cbn [fst] in *. rewrite !count_cons. rewrite in_pool_eq, of_principal_eq.
      split; case_bool_decide; destruct_and?; simplify_eq; lia.
    - destruct (out !! n) as [[p q]|] eqn:E; [|done]. cbn [fst] in *. rewrite !(count_delete _ _ _ _ E).
      destruct (in_pool pool (p, q)), (of_principal pool principal (p, q)); lia. }
  apply H; [split; intros []; done|]. cbn. unfold count. cbn. lia.
Qed.

(** C32: The gate's counters are those of the permits out. After any transfers
    have begun and ended, in any order, each pool counts its running transfers
    and each principal's share exactly, forgetting a principal with none; they
    stay within the pool's limits; and the next transfer is let in exactly
    when the pool and the share have room, otherwise refused with status 429
    and nothing changed. *)
Theorem gate_refines limits events pool principal :
  let '(out, G) := run limits events in
  active_in (Some pool) G = count (in_pool pool) out ∧
  active_in None G = Z.of_nat (length out) ∧
  byPrincipal (pool_of pool G) !! principal = share (count (of_principal pool principal) out) ∧
  (count (in_pool pool) out <= Z.max 0 (total (limits pool)))%Z ∧
  (count (of_principal pool principal) out <= Z.max 0 (perPrincipal (limits pool)))%Z ∧
  match admit_transfer pool principal G with
  | Ok _ => (count (in_pool pool) out < total (limits pool))%Z ∧
            (count (of_principal pool principal) out < perPrincipal (limits pool))%Z
  | Throw e => e = MkRejected 429 (full_reason pool) ∧
            ((total (limits pool) <= count (in_pool pool) out)%Z ∨
             (perPrincipal (limits pool) <= count (of_principal pool principal) out)%Z)
  end.
Proof.
  pose proof (run_counts limits events) as Hc. pose proof (run_within limits events pool principal) as [Ht Hp].
  destruct (run limits events) as [out G]. cbn in Hc, Ht, Hp. pose proof (admit_counts limits out G pool principal Hc) as Ha.
  pose proof Hc as [_ Hact Hs]. split; [apply Hact|]. split.
  { cbn. rewrite (Hact Backup : active (p_backup G) = _), (Hact Browser : active (p_browser G) = _), (Hact Peer : active (p_peer G) = _).
    clear. induction out as [|[[] q] out IH]; [done| | |]; rewrite !count_cons, !in_pool_eq, length_cons, Nat2Z.inj_succ, <-IH;
      repeat case_bool_decide; done || lia. }
  do 3 (split; [done|]). destruct (admit_transfer pool principal G); [apply Ha|done].
Qed.
