(* ===== verification/Images.v ===== *)
(** * Which images on the host Kiln may remove

    Models [apps/relay/src/docker-image-retention.ts]: the rules every image
    cleanup follows, over what Docker lists and what the Relay recorded.
    Times are milliseconds, but for an image's own, which Docker counts in
    seconds. *)
From S2P Require Import Prelude.

(** ** What Docker and the Relay's state list *)

Record DockerContainerSummary := MkContainer {
  c_Id : string;
  c_ImageID : option string;
  c_Labels : option (gmap string string);
  c_Names : list string;
  c_State : string;
}.

Record DockerImageSummary := MkImage {
  Id : string;
  Labels : option (gmap string string);
  Created : option Z;
  RepoTags : option (list string);
  RepoDigests : option (list string);
  Size : option Z;
  SharedSize : option Z;
}.

#[global] Instance DockerImageSummary_eq_dec : EqDecision DockerImageSummary.
Proof. solve_decision. Defined.

Record RelayAppDeploymentImage := MkDeployed {
  d_appId : string;
  deploymentId : string;
  finishedAt : Z;
  d_imageId : string;
}.

#[global] Instance RelayAppDeploymentImage_eq_dec : EqDecision RelayAppDeploymentImage.
Proof. solve_decision. Defined.

Record RelayDockerImageRecord := MkRecord {
  r_imageId : string;
  owner : string;
  lastUsedAt : Z;
}.

Inductive KilnComponent := Hearth | Relay.

#[global] Instance KilnComponent_eq_dec : EqDecision KilnComponent.
Proof. solve_decision. Defined.

Definition kilnComponent (value : option string) : option KilnComponent :=
  match value with
  | Some value => if decide (value = "hearth") then Some Hearth else if decide (value = "relay") then Some Relay else None
  | None => None
  end.

Definition APP_IMAGE_LABEL : string := "kiln.app.id".
Definition COMPONENT_LABEL : string := "io.kiln.component".
Definition KEPT_APP_DEPLOYMENTS : nat := 5.
Definition BUILD_GRACE_MS : Z := 24 * 60 * 60000.

Record ImageFacts := MkFacts {
  containers : list DockerContainerSummary;
  deployments : list RelayAppDeploymentImage;
  desktopImageId : option string;
  images : list DockerImageSummary;
  now : Z;
  ownsApp : DockerContainerSummary → option string;
  updates_kept : gset string;
  updates_named : gset string;
  records : list RelayDockerImageRecord;
}.

Record RetentionRules := MkRules {
  unusedGraceMs : Z;
  kilnImages : bool;
  unknownImages : bool;
}.

Inductive ImageRemovalKind := App | Kiln | Unknown | Unused.

#[global] Instance ImageRemovalKind_eq_dec : EqDecision ImageRemovalKind.
Proof. solve_decision. Defined.

Record ImageRemoval := MkRemoval {
  image : DockerImageSummary;
  kind : ImageRemovalKind;
  appId : option string;
}.

#[global] Instance ImageRemoval_eq_dec : EqDecision ImageRemoval.
Proof. solve_decision. Defined.

(** ** The newest deployments *)

Definition finish (finished : list (string * list (string * Z))) (record : RelayAppDeploymentImage)
    : list (string * list (string * Z)) :=
  jm_set (d_appId record)
    (jm_set (deploymentId record) (finishedAt record) (default [] (jm_get (d_appId record) finished))) finished.

(** The comparator [right - left]. *)
Definition newer {A} (time : A → Z) (left right : A) : bool := (time right <=? time left)%Z.

Definition deployment_key (app deployment : string) : string := app +:+ "/" +:+ deployment.

Definition app_kept (entry : string * list (string * Z)) : list string :=
  (λ d, deployment_key entry.1 d.1) <$> take KEPT_APP_DEPLOYMENTS (stable_sort (newer snd) entry.2).

(** Each App's newest successful deployments, as [appId/deploymentId]. *)
Definition keptDeployments (deployments : list RelayAppDeploymentImage) : gset string :=
  list_to_set (flat_map app_kept (fold_left finish deployments [])).

Definition record_key (record : RelayAppDeploymentImage) : string := deployment_key (d_appId record) (deploymentId record).

Definition keptDeploymentImages (deployments : list RelayAppDeploymentImage) : gset string :=
  let kept := keptDeployments deployments in
  list_to_set (d_imageId <$> List.filter (λ record, bool_decide (record_key record ∈ kept)) deployments).

(** ** Images *)

Definition matches (image : DockerImageSummary) (references : gset string) : bool :=
  bool_decide (Id image ∈ references) ||
  existsb (λ digest, bool_decide (digest ∈ references)) (default [] (RepoDigests image)).

Definition tagged (image : DockerImageSummary) : bool :=
  existsb (λ tag, negb (bool_decide (tag = "<none>:<none>"))) (default [] (RepoTags image)).

Definition imageOwnBytes (image : DockerImageSummary) : Z :=
  Z.max 0 (default 0%Z (Size image) - Z.max 0 (default 0%Z (SharedSize image))).

Definition label (image : DockerImageSummary) (name : string) : option string := default ∅ (Labels image) !! name.

Definition created (image : DockerImageSummary) : Z := default 0%Z (Created image).

Section Rules.
Context (facts : ImageFacts) (rules : RetentionRules).

Definition used : gset string := list_to_set (omap c_ImageID (containers facts)).

Definition owner_app (record : RelayDockerImageRecord) : option string := strip_prefix "app:" (owner record).

(** The Apps this Relay deployed, runs, or built for. *)
Definition apps : gset string :=
  list_to_set ((d_appId <$> deployments facts) ++ omap (ownsApp facts) (containers facts) ++
               omap owner_app (records facts)).

Definition lastUsed : list (string * Z) :=
  fold_left (λ m record, jm_set (r_imageId record) (lastUsedAt record) m) (records facts) [].

(** The App of [apps] the image was built for. *)
Definition built_for (image : DockerImageSummary) : option string :=
  match truthy (label image APP_IMAGE_LABEL) with
  | Some app => if decide (app ∈ apps) then Some app else None
  | None => None
  end.

Definition group {K} `{EqDecision K} (k : K) (image : DockerImageSummary) (m : list (K * list DockerImageSummary))
    : list (K * list DockerImageSummary) :=
  jm_set k (default [] (jm_get k m) ++ [image]) m.

Definition legacy_build (builds : list (string * list DockerImageSummary)) (image : DockerImageSummary)
    : list (string * list DockerImageSummary) :=
  match built_for image with
  | Some app =>
      if bool_decide (app ∈ d_appId <$> deployments facts) then builds
      else if bool_decide (is_Some (jm_get (Id image) lastUsed)) then builds
      else group app image builds
  | None => builds
  end.

(** An App's newest unrecorded builds, while it has no deployment recorded. *)
Definition legacyBuilds : gset string :=
  list_to_set (flat_map (λ entry, Id <$> take KEPT_APP_DEPLOYMENTS (stable_sort (newer created) entry.2))
                 (fold_left legacy_build (images facts) [])).

Record Sweep := MkSweep {
  removals : list ImageRemoval;
  oldKiln : list (KilnComponent * list DockerImageSummary);
}.

Definition remove (r : ImageRemoval) (st : Sweep) : Sweep := MkSweep (removals st ++ [r]) (oldKiln st).

(** One image of the loop. *)
Definition consider (st : Sweep) (image : DockerImageSummary) : Sweep :=
  if bool_decide (Id image ∈ used) || bool_decide (Id image ∈ keptDeploymentImages (deployments facts)) then st
  else if bool_decide (desktopImageId facts = Some (Id image)) then st
  else
    match kilnComponent (label image COMPONENT_LABEL) with
    | Some component =>
        if (bool_decide (is_Some (jm_get (Id image) lastUsed)) || matches image (updates_named facts)) &&
           negb (tagged image)
        then MkSweep (removals st) (group component image (oldKiln st)) else st
    | None =>
        match built_for image with
        | Some app =>
            if bool_decide (Id image ∈ legacyBuilds) then st
            else
              let built := Z.max (created image * 1000) (default 0%Z (jm_get (Id image) lastUsed)) in
              if (now facts - built <? BUILD_GRACE_MS)%Z then st else remove (MkRemoval image App (Some app)) st
        | None =>
            match jm_get (Id image) lastUsed with
            | Some last =>
                if (unusedGraceMs rules <=? now facts - last)%Z then remove (MkRemoval image Unused None) st else st
            | None => if unknownImages rules then remove (MkRemoval image Unknown None) st else st
            end
        end
    end.

(** The components whose kept image is on the host. *)
Definition recorded : list KilnComponent :=
  omap (λ image,
          match kilnComponent (label image COMPONENT_LABEL) with
          | Some component => if matches image (updates_kept facts) then Some component else None
          | None => None
          end) (images facts).

(** [reduce]: the newest, the first of those equally new. *)
Definition newest (candidates : list DockerImageSummary) : option DockerImageSummary :=
  match candidates with
  | [] => None
  | first :: rest =>
      Some (fold_left (λ newest image, if (created newest <? created image)%Z then image else newest) rest first)
  end.

Definition keep_of (entry : KilnComponent * list DockerImageSummary) : gset string :=
  list_to_set (Id <$>
    if bool_decide (entry.1 ∈ recorded) then List.filter (λ image, matches image (updates_kept facts)) entry.2
    else match newest entry.2 with Some image => [image] | None => [] end).

Definition old_component (entry : KilnComponent * list DockerImageSummary) : list ImageRemoval :=
  (λ image, MkRemoval image Kiln None) <$>
    List.filter (λ image, negb (bool_decide (Id image ∈ keep_of entry))) entry.2.

Definition removableImages : list ImageRemoval :=
  let st := fold_left consider (images facts) (MkSweep [] []) in
  if kilnImages rules then removals st ++ flat_map old_component (oldKiln st) else removals st.
End Rules.
