(* ===== verification/RetentionFacts.v ===== *)
(** * Image retention: what is in use stays

    Properties of [Images]: which images the rules give up, and that what a
    container, the desktop, an App's newest deployments or a downgrade needs
    is never among them. *)
From S2P Require Import Prelude Images.

(** ** Picking the first of a sorted list *)

Lemma newer_total {A} (time : A → Z) x y : newer time x y = false → newer time y x = true.
Proof. unfold newer. rewrite Z.leb_gt, Z.leb_le. lia. Qed.

Lemma newer_trans {A} (time : A → Z) x y z : newer time x y = true → newer time y z = true → newer time x z = true.
Proof. unfold newer. rewrite !Z.leb_le. lia. Qed.

Lemma newer_sorted {A} (time : A → Z) l : StronglySorted (λ x y, newer time x y = true) (stable_sort (newer time) l).
Proof. apply stable_sort_sorted; [apply newer_total|apply newer_trans]. Qed.

(** What does not make it into the first [n] has [n] others before it. *)
Lemma sorted_beyond {A} (le : A → A → bool) n l x :
  StronglySorted (λ x y, le x y = true) l → x ∈ l → x ∉ take n l → ∀ y, y ∈ take n l → le y x = true.
Proof.
  intros Hs Hx Hn y Hy. rewrite <-(take_drop n l) in Hs, Hx. apply elem_of_app in Hx as [Hx|Hx]; [done|].
  revert Hs. generalize dependent (drop n l). generalize dependent (take n l). clear. intros l1 _ Hy l2 Hx.
  induction l1 as [|a l1 IH]; cbn; [in_nil Hy|]. intros [Hs Hall]%StronglySorted_inv.
  apply elem_of_cons in Hy as [->|Hy]; [|by apply IH].
  rewrite Forall_app in Hall. destruct Hall as [_ Hall]. rewrite Forall_forall in Hall. by apply Hall.
Qed.

(** ** Newest deployments *)

Definition one_finish (deployments : list RelayAppDeploymentImage) : Prop :=
  ∀ d e, d ∈ deployments → e ∈ deployments → d_appId d = d_appId e → deploymentId d = deploymentId e →
    finishedAt d = finishedAt e.

(** The deployments of an App that finished no earlier than one of its own. *)
Definition finished_since (deployments : list RelayAppDeploymentImage) (d : RelayAppDeploymentImage) : list string :=
  js_distinct (deploymentId <$>
    List.filter (λ e, bool_decide (d_appId e = d_appId d) && (finishedAt d <=? finishedAt e)%Z) deployments).

Definition app_finishes (app : string) (deployments : list RelayAppDeploymentImage) : list (string * Z) :=
  default [] (jm_get app (fold_left finish deployments [])).

Section Deployments.
Context (deployments : list RelayAppDeploymentImage).

(** What is collected of the deployments read so far. *)
Definition collected (done : list RelayAppDeploymentImage) (m : list (string * list (string * Z))) : Prop :=
  NoDup m.*1 ∧ ∀ app,
    NoDup (default [] (jm_get app m)).*1 ∧
    (∀ id at_, (id, at_) ∈ default [] (jm_get app m) → MkDeployed app id at_ "" ∈ ((λ d, MkDeployed (d_appId d) (deploymentId d) (finishedAt d) "") <$> done)) ∧
    (∀ d, d ∈ done → d_appId d = app → deploymentId d ∈ (default [] (jm_get app m)).*1).

Lemma finish_collects l : ∀ done m, collected done m → collected (done ++ l) (fold_left finish l m).
Proof.
  induction l as [|d l IH]; intros done m Hm; cbn [fold_left]; [by rewrite app_nil_r|].
  replace (done ++ d :: l) with ((done ++ [d]) ++ l) by by rewrite <-app_assoc.
  apply IH. destruct Hm as [Hk Hm]. split; [by apply jm_set_NoDup|].
  intros app. unfold finish. rewrite jm_get_set. specialize (Hm app) as (Hn & Hin & Hall).
  destruct (decide (d_appId d = app)) as [<-|Hne]; cbn [from_option id].
  - split; [by apply jm_set_NoDup|]. split.
    + intros id at_ H. rewrite fmap_app. apply elem_of_app.
      apply jm_set_NoDup with (k := deploymentId d) (v := finishedAt d) in Hn as Hn'.
      apply jm_get_Some in H; [|done]. rewrite jm_get_set in H. case_decide as Hd.
      * right. injection H as <-. rewrite <-Hd. cbn. by apply list_elem_of_singleton.
      * left. apply Hin. by apply jm_get_Some.
    + intros e [He|He]%elem_of_app Ha; rewrite jm_set_keys; case_decide; try (apply elem_of_app); auto.
      * apply list_elem_of_singleton in He as ->. done.
      * apply list_elem_of_singleton in He as ->. right. by apply list_elem_of_singleton.
  - split; [done|]. split.
    + intros id at_ H. rewrite fmap_app. apply elem_of_app. left. by apply Hin.
    + intros e [He|He]%elem_of_app Ha; [by apply Hall|]. apply list_elem_of_singleton in He as ->. done.
Qed.

Lemma collected_all : collected deployments (fold_left finish deployments []).
Proof.
  apply (finish_collects deployments []). split; [constructor|]. intros app. cbn.
  split; [constructor|]. split; [intros ?? H; in_nil H|]. intros d H. in_nil H.
Qed.

Lemma finishes_elem app id at_ : (id, at_) ∈ app_finishes app deployments →
  ∃ d, d ∈ deployments ∧ d_appId d = app ∧ deploymentId d = id ∧ finishedAt d = at_.
Proof.
  intros H. destruct collected_all as [_ Hc]. destruct (Hc app) as (_ & Hin & _).
  apply Hin in H as ([a i t m] & E & Hd)%list_elem_of_fmap. cbn in E. injection E as -> -> ->. by exists (MkDeployed a i t m).
Qed.

Lemma finishes_of d : one_finish deployments → d ∈ deployments →
  (deploymentId d, finishedAt d) ∈ app_finishes (d_appId d) deployments.
Proof.
  intros Hone Hd. destruct collected_all as [_ Hc]. destruct (Hc (d_appId d)) as (_ & _ & Hall).
  specialize (Hall d Hd eq_refl). apply list_elem_of_fmap in Hall as ([id at_] & E & Hin). cbn in E. subst id.
  destruct (finishes_elem _ _ _ Hin) as (e & He & Ha & Hi & <-). by rewrite (Hone d e) by done.
Qed.

Lemma kept_elem key : key ∈ keptDeployments deployments ↔
  ∃ app, key ∈ app_kept (app, app_finishes app deployments).
Proof.
  unfold keptDeployments. rewrite elem_of_list_to_set, elem_of_flat_map.
  destruct collected_all as [Hn _]. unfold app_finishes. split.
  - intros ([app l] & Hin & Hk). exists app.
    by rewrite (proj2 (jm_get_Some _ _ _ Hn) Hin).
  - intros [app Hk]. destruct (jm_get app _) as [l|] eqn:E; [|unfold app_kept in Hk; cbn in Hk; in_nil Hk].
    exists (app, l). split; [|done]. by apply jm_get_Some in E.
Qed.

(** A deployment that fewer than five others of its App finished after is kept. *)
Lemma newest_kept d : one_finish deployments → d ∈ deployments →
  length (finished_since deployments d) ≤ KEPT_APP_DEPLOYMENTS → record_key d ∈ keptDeployments deployments.
Proof.
  intros Hone Hd Hl. apply kept_elem. exists (d_appId d). unfold app_kept, record_key. cbn [fst snd].
  set (l := app_finishes (d_appId d) deployments).
  set (x := (deploymentId d, finishedAt d)).
  assert (x ∈ stable_sort (newer snd) l) as Hx by (rewrite stable_sort_perm; by apply finishes_of).
  destruct (decide (x ∈ take KEPT_APP_DEPLOYMENTS (stable_sort (newer snd) l))) as [Ht|Ht].
  { apply list_elem_of_fmap. by exists x. }
  pose proof (sorted_beyond _ _ _ _ (newer_sorted snd l) Hx Ht) as Hb.
  exfalso. set (five := take KEPT_APP_DEPLOYMENTS (stable_sort (newer snd) l)) in *.
  assert (NoDup (stable_sort (newer snd) l).*1) as Hn.
  { rewrite stable_sort_perm. destruct collected_all as [_ Hc]. apply Hc. }
  assert (NoDup (x.1 :: five.*1)) as Hnd.
  { apply NoDup_cons. split.
    - intros (y & E & Hy)%list_elem_of_fmap. destruct Ht.
      enough (x = y) as -> by done. apply (NoDup_fmap_eq fst (stable_sort (newer snd) l)); [done|done| |done].
      by apply (elem_of_take _ _ _) in Hy as (i & ? & _); apply list_elem_of_lookup_2 with i.
    - unfold five. rewrite fmap_take. eapply sublist_NoDup; [|apply sublist_take]. exact Hn. }
  assert (length five = KEPT_APP_DEPLOYMENTS) as Hlen.
  { unfold five. rewrite length_take. destruct (decide (KEPT_APP_DEPLOYMENTS ≤ length (stable_sort (newer snd) l))); [lia|].
    exfalso. apply Ht. unfold five. by rewrite take_ge by lia. }
  assert (x.1 :: five.*1 ⊆ finished_since deployments d) as Hsub.
  { intros id Hid. unfold finished_since. apply js_distinct_elem.
    assert (∃ t, (id, t) ∈ l ∧ (finishedAt d <= t)%Z) as (t & Hin & Hge).
    { apply elem_of_cons in Hid as [->|([id' t] & -> & Hy)%list_elem_of_fmap].
      - exists (finishedAt d). split; [|lia]. by apply finishes_of.
      - exists t. specialize (Hb _ Hy). unfold newer in Hb. apply Z.leb_le in Hb. split; [|exact Hb].
        apply (elem_of_take _ _ _) in Hy as (i & Hi & _). apply list_elem_of_lookup_2 in Hi.
        by rewrite stable_sort_perm in Hi. }
    destruct (finishes_elem _ _ _ Hin) as (e & He & Ha & <- & <-). apply list_elem_of_fmap_2, elem_of_bfilter.
    split; [done|]. rewrite Ha, bool_decide_true by done. by apply Z.leb_le. }
  apply (NoDup_submseteq _ _ Hnd) in Hsub. apply submseteq_length in Hsub.
  rewrite length_cons, length_fmap in Hsub. lia.
Qed.
End Deployments.

(** ** Grouping *)

Section Grouping.
Context {K : Type} `{EqDecision K} (key : DockerImageSummary → option K).

Definition regroup (m : list (K * list DockerImageSummary)) (image : DockerImageSummary) :=
  match key image with Some k => group k image m | None => m end.

Lemma regroup_get l : ∀ m k,
  default [] (jm_get k (fold_left regroup l m)) =
  default [] (jm_get k m) ++ List.filter (λ image, bool_decide (key image = Some k)) l.
Proof.
  induction l as [|x l IH]; intros m k; cbn; [by rewrite app_nil_r|]. rewrite IH. unfold regroup.
  destruct (key x) as [k'|]; [|by rewrite bool_decide_false by done].
  unfold group. rewrite jm_get_set. destruct (decide (k' = k)) as [->|Hne]; cbn.
  - rewrite bool_decide_true by done. by rewrite <-app_assoc.
  - by rewrite bool_decide_false by congruence.
Qed.

Lemma regroup_NoDup l : ∀ m, NoDup m.*1 → NoDup (fold_left regroup l m).*1.
Proof.
  induction l as [|x l IH]; intros m Hm; cbn; [done|]. apply IH. unfold regroup.
  destruct (key x); [by apply jm_set_NoDup|done].
Qed.

Lemma regroup_elem l k group :
  (k, group) ∈ fold_left regroup l [] → group = List.filter (λ image, bool_decide (key image = Some k)) l.
Proof.
  intros H. pose proof (regroup_get l [] k) as Hg. apply jm_get_Some in H; [|by apply regroup_NoDup; constructor].
  by rewrite H in Hg.
Qed.

Lemma regroup_has l k image : image ∈ l → key image = Some k →
  (k, List.filter (λ image, bool_decide (key image = Some k)) l) ∈ fold_left regroup l [].
Proof.
  intros Hin Hk. pose proof (regroup_get l [] k) as Hg. cbn in Hg.
  assert (image ∈ List.filter (λ image, bool_decide (key image = Some k)) l) as Hf
    by (apply elem_of_bfilter; split; [done|by apply bool_decide_true]).
  apply jm_get_Some; [apply regroup_NoDup; constructor|].
  destruct (jm_get k _) as [g|]; cbn in Hg; [by rewrite Hg|]. rewrite <-Hg in Hf. in_nil Hf.
Qed.
End Grouping.

(** ** What the loop makes of an image *)

Section Rules.
Context (facts : ImageFacts) (rules : RetentionRules).

(** In use, kept by a deployment, or the desktop's. *)
Definition held (image : DockerImageSummary) : bool :=
  bool_decide (Id image ∈ used facts) || bool_decide (Id image ∈ keptDeploymentImages (deployments facts)) ||
  bool_decide (desktopImageId facts = Some (Id image)).

Definition old_of (image : DockerImageSummary) : option KilnComponent :=
  if held image then None
  else match kilnComponent (label image COMPONENT_LABEL) with
       | Some component =>
           if (bool_decide (is_Some (jm_get (Id image) (lastUsed facts))) || matches image (updates_named facts)) &&
              negb (tagged image)
           then Some component else None
       | None => None
       end.

Definition removal_of (image : DockerImageSummary) : option ImageRemoval :=
  if held image then None
  else match kilnComponent (label image COMPONENT_LABEL) with
       | Some _ => None
       | None =>
           match built_for facts image with
           | Some app =>
               if bool_decide (Id image ∈ legacyBuilds facts) then None
               else if (now facts - Z.max (created image * 1000) (default 0 (jm_get (Id image) (lastUsed facts))) <? BUILD_GRACE_MS)%Z
               then None else Some (MkRemoval image App (Some app))
           | None =>
               match jm_get (Id image) (lastUsed facts) with
               | Some last => if (unusedGraceMs rules <=? now facts - last)%Z then Some (MkRemoval image Unused None) else None
               | None => if unknownImages rules then Some (MkRemoval image Unknown None) else None
               end
           end
       end.

Lemma consider_cases st image :
  consider facts rules st image =
  MkSweep (removals st ++ option_list (removal_of image)) (regroup old_of (oldKiln st) image).
Proof.
  unfold consider, removal_of, regroup, old_of, held, remove. destruct st as [rs olds].
  repeat (case_goal; cbn in *; try congruence); by rewrite ?app_nil_r.
Qed.

Lemma loop_cases l : ∀ st,
  fold_left (consider facts rules) l st =
  MkSweep (removals st ++ omap removal_of l) (fold_left (regroup old_of) l (oldKiln st)).
Proof.
  induction l as [|x l IH]; intros [rs olds]; cbn; [by rewrite app_nil_r|].
  rewrite IH, consider_cases. cbn. f_equal. rewrite <-app_assoc. by destruct (removal_of x).
Qed.

Definition candidates (component : KilnComponent) : list DockerImageSummary :=
  List.filter (λ image, bool_decide (old_of image = Some component)) (images facts).

(** Which removals the rules make. *)
Lemma removable_elem r :
  r ∈ removableImages facts rules ↔
  image r ∈ images facts ∧
  (removal_of (image r) = Some r ∨
   kilnImages rules = true ∧ kind r = Kiln ∧ appId r = None ∧ ∃ component,
     old_of (image r) = Some component ∧ Id (image r) ∉ keep_of facts (component, candidates component)).
Proof.
  unfold removableImages. rewrite loop_cases. cbn.
  assert (r ∈ omap removal_of (images facts) ↔ image r ∈ images facts ∧ removal_of (image r) = Some r) as Ho.
  { rewrite list_elem_of_omap. split; [|by intros []; exists (image r)].
    intros (i & Hi & E). assert (image r = i) as ->; [|done].
    revert E. unfold removal_of. repeat (case_goal; try done); by intros [= <-]. }
  destruct (kilnImages rules); [|rewrite Ho; naive_solver].
  rewrite elem_of_app, Ho, elem_of_flat_map.
  assert (∀ c, (∃ i, r = MkRemoval i Kiln None ∧ i ∈ List.filter (λ i, negb (bool_decide (Id i ∈ keep_of facts (c, candidates c)))) (candidates c)) ↔
    image r ∈ images facts ∧ kind r = Kiln ∧ appId r = None ∧ old_of (image r) = Some c ∧ Id (image r) ∉ keep_of facts (c, candidates c)) as Hc.
  { intros c. unfold candidates at 2. setoid_rewrite elem_of_bfilter. setoid_rewrite elem_of_bfilter.
    setoid_rewrite negb_true_iff. setoid_rewrite bool_decide_eq_false. setoid_rewrite bool_decide_eq_true.
    destruct r as [i k a]; cbn. naive_solver. }
  split.
  - intros [?|([c l] & Hl & Hr)]; [naive_solver|].
    rewrite (regroup_elem _ _ _ _ Hl) in Hr. unfold old_component in Hr. rewrite list_elem_of_fmap in Hr. cbn [snd] in Hr.
    apply Hc in Hr. naive_solver.
  - intros [Hi [?|(_ & Hk & Ha & c & Hold & Hkeep)]]; [by left|]. right.
    exists (c, candidates c). split; [by eapply regroup_has|].
    unfold old_component. rewrite list_elem_of_fmap. cbn [snd]. apply Hc. done.
Qed.

Lemma old_of_Some i c : old_of i = Some c →
  held i = false ∧ kilnComponent (label i COMPONENT_LABEL) = Some c ∧ tagged i = false ∧
  (is_Some (jm_get (Id i) (lastUsed facts)) ∨ matches i (updates_named facts) = true).
Proof.
  unfold old_of. destruct (held i) eqn:Hh; [done|]. destruct (kilnComponent _) as [c'|]; [|done].
  case_goal; [|done]. intros [= ->]. bool_to_prop. split; [done|]. split; [done|]. split; [done|].
  apply orb_true_iff in H. rewrite bool_decide_eq_true in H. tauto.
Qed.

Lemma removed_not_held r : r ∈ removableImages facts rules → image r ∈ images facts ∧ held (image r) = false.
Proof.
  intros [Hi Hr]%removable_elem. split; [done|].
  destruct Hr as [Hr|(_ & _ & _ & c & Hold & _)]; [|by destruct (old_of_Some _ _ Hold)].
  revert Hr. unfold removal_of. by destruct (held (image r)).
Qed.
End Rules.

(** What the state's tables and Docker's list are: keys name one row. *)
Record listed (facts : ImageFacts) : Prop := MkListed {
  listed_deployments : one_finish (deployments facts);
  listed_records : NoDup (r_imageId <$> records facts);
  listed_images : NoDup (Id <$> images facts);
}.

Section Listed.
Context (facts : ImageFacts) (rules : RetentionRules).

Lemma lastUsed_loop l : ∀ m, NoDup (r_imageId <$> l) → (∀ record, record ∈ l → r_imageId record ∉ m.*1) →
  fold_left (λ m record, jm_set (r_imageId record) (lastUsedAt record) m) l m =
  m ++ ((λ record, (r_imageId record, lastUsedAt record)) <$> l).
Proof.
  assert (∀ k v (m : list (string * Z)), k ∉ m.*1 → jm_set k v m = m ++ [(k, v)]) as Hset.
  { intros k v m. induction m as [|[k' v'] m IH]; cbn; [done|]. intros [Hne Hm]%not_elem_of_cons.
    rewrite decide_False by done. by rewrite IH. }
  induction l as [|x l IH]; intros m Hl Hm; csimpl; [by rewrite app_nil_r|].
  apply NoDup_cons in Hl as [Hx Hl]. rewrite Hset by (apply Hm; left). rewrite IH; [by rewrite <-app_assoc|done|].
  intros record Hr. rewrite fmap_app, elem_of_app. csimpl. rewrite list_elem_of_singleton. intros [H|H].
  - eapply Hm; [right|]; done.
  - apply Hx. rewrite <-H. by apply list_elem_of_fmap_2.
Qed.

(** When an image was last used, as its record says. *)
Lemma lastUsed_get id t : NoDup (r_imageId <$> records facts) →
  jm_get id (lastUsed facts) = Some t ↔ ∃ record, record ∈ records facts ∧ r_imageId record = id ∧ lastUsedAt record = t.
Proof.
  intros Hn. unfold lastUsed. rewrite lastUsed_loop; [|done|intros ?? H; in_nil H]. cbn [app].
  rewrite jm_get_Some; [|by rewrite <-list_fmap_compose]. rewrite list_elem_of_fmap. naive_solver.
Qed.

Lemma held_false i : held facts i = false ↔
  (∀ c, c ∈ containers facts → c_ImageID c ≠ Some (Id i)) ∧ Id i ∉ keptDeploymentImages (deployments facts) ∧
  desktopImageId facts ≠ Some (Id i).
Proof.
  unfold held, used. rewrite !orb_false_iff, !bool_decide_eq_false, elem_of_list_to_set, list_elem_of_omap.
  split; [|naive_solver]. intros [[Hu ?] ?]. split; [|done]. intros c Hc E. apply Hu. by exists c.
Qed.

Lemma kept_image d : d ∈ deployments facts → record_key d ∈ keptDeployments (deployments facts) →
  d_imageId d ∈ keptDeploymentImages (deployments facts).
Proof.
  intros Hd Hk. unfold keptDeploymentImages. apply elem_of_list_to_set, list_elem_of_fmap_2, elem_of_bfilter.
  split; [done|]. by apply bool_decide_true.
Qed.

Lemma built_for_Some i app : built_for facts i = Some app → label i APP_IMAGE_LABEL = Some app ∧ app ∈ apps facts.
Proof.
  unfold built_for, truthy. destruct (label i APP_IMAGE_LABEL) as [a|]; [|done].
  case_decide; [done|]. case_decide; [|done]. by intros [= <-].
Qed.

(** The newest of some images is no older than any of them. *)
Lemma newest_spec l : ∀ first, let n := fold_left (λ newest image, if (created newest <? created image)%Z then image else newest) l first in
  n ∈ first :: l ∧ ∀ i, i ∈ first :: l → (created i <= created n)%Z.
Proof.
  induction l as [|x l IH]; intros first; cbn.
  - split; [left|]. by intros i ->%list_elem_of_singleton.
  - set (f := if (created first <? created x)%Z then x else first). destruct (IH f) as [Hin Hmax].
    assert ((created first <= created f)%Z ∧ (created x <= created f)%Z ∧ (f = first ∨ f = x)) as (H1 & H2 & H3).
    { unfold f. destruct (created first <? created x)%Z eqn:E; bool_to_prop; lia || (split; [lia|]; split; [lia|]; auto). }
    split.
    + apply elem_of_cons in Hin as [Hin|Hin]; [|by do 2 right]. destruct H3 as [H3|H3]; rewrite Hin, H3; [left|right; left].
    + intros i [->|[->|Hi]%elem_of_cons]%elem_of_cons; [| |apply Hmax; by right];
        (etrans; [|apply Hmax; left]); done.
Qed.

Lemma newest_elem l i : i ∈ l → ∃ n, newest l = Some n ∧ n ∈ l ∧ (created i <= created n)%Z.
Proof.
  destruct l as [|first l]; [intros H; in_nil H|]. intros Hi. eexists. split; [done|].
  destruct (newest_spec l first) as [Hin Hmax]. split; [done|]. by apply Hmax.
Qed.

Lemma candidates_elem c i : i ∈ candidates facts c ↔ i ∈ images facts ∧ old_of facts i = Some c.
Proof. unfold candidates. by rewrite elem_of_bfilter, bool_decide_eq_true. Qed.

(** An image of a component goes only as an old one of it. *)
Lemma removed_component r c : r ∈ removableImages facts rules → kilnComponent (label (image r) COMPONENT_LABEL) = Some c →
  old_of facts (image r) = Some c ∧ Id (image r) ∉ keep_of facts (c, candidates facts c).
Proof.
  intros [_ [Hr|(_ & _ & _ & c' & Hold & Hk)]]%removable_elem Hc.
  - exfalso. revert Hr. unfold removal_of. rewrite Hc. by destruct (held facts (image r)).
  - destruct (old_of_Some _ _ _ Hold) as (_ & Hc' & _). by simplify_eq.
Qed.

Lemma recorded_elem c : c ∈ recorded facts ↔
  ∃ i, i ∈ images facts ∧ kilnComponent (label i COMPONENT_LABEL) = Some c ∧ matches i (updates_kept facts) = true.
Proof.
  unfold recorded. rewrite list_elem_of_omap. split; intros (i & Hi & H); exists i; (split; [done|]).
  - destruct (kilnComponent _) as [c'|]; [|done]. by destruct (matches i _); simplify_eq.
  - destruct H as [-> ->]. done.
Qed.

(** The image of a component that stands in its stead stays. *)
Lemma stand_in_stays r c i : NoDup (Id <$> images facts) → i ∈ images facts →
  kilnComponent (label i COMPONENT_LABEL) = Some c →
  (i ∈ candidates facts c → Id i ∈ keep_of facts (c, candidates facts c)) →
  r ∈ removableImages facts rules → Id (image r) ≠ Id i.
Proof.
  intros Hn Hi Hc Hkeep Hr E. destruct (removed_not_held _ _ _ Hr) as [Hri _].
  assert (image r = i) as <- by (by eapply (NoDup_fmap_eq Id)).
  destruct (removed_component _ _ Hr Hc) as [Hold Hk]. apply Hk, Hkeep. by apply candidates_elem.
Qed.
End Listed.

(** Cleanup never gives up an image that is in use or kept. Whatever
    Docker and the Relay's tables list, an image to be removed is run by no
    container, is not the desktop's, and every deployment that ran it has five
    that finished no earlier beside it. A build goes a day after it was made
    and last used; an image Kiln ran, once the grace is over; one it never
    ran, only when asked; and one of Hearth or the Relay, only when no tag
    names it and no update runs. *)
Theorem removals_spare_what_is_kept facts rules r :
  listed facts → r ∈ removableImages facts rules →
  let i := image r in
  i ∈ images facts ∧
  (∀ c, c ∈ containers facts → c_ImageID c ≠ Some (Id i)) ∧
  desktopImageId facts ≠ Some (Id i) ∧
  (∀ d, d ∈ deployments facts → d_imageId d = Id i →
     KEPT_APP_DEPLOYMENTS < length (finished_since (deployments facts) d)) ∧
  let since at_ := (∀ record, record ∈ records facts → r_imageId record = Id i → (at_ <= now facts - lastUsedAt record)%Z) in
  match kind r with
  | App => (∃ app, appId r = Some app ∧ label i APP_IMAGE_LABEL = Some app ∧ app ∈ apps facts) ∧
           (BUILD_GRACE_MS <= now facts - created i * 1000)%Z ∧ since BUILD_GRACE_MS
  | Unused => Id i ∈ r_imageId <$> records facts ∧ since (unusedGraceMs rules)
  | Unknown => unknownImages rules = true ∧ Id i ∉ r_imageId <$> records facts
  | Kiln => kilnImages rules = true ∧ is_Some (kilnComponent (label i COMPONENT_LABEL)) ∧ tagged i = false
  end.
Proof.
  intros [Hone Hrec _] Hr i. destruct (removed_not_held _ _ _ Hr) as [Hi Hheld]. split; [done|].
  pose proof (lastUsed_get facts (Id i)) as Hlast.
  apply held_false in Hheld as (Hc & Hk & Hd). split; [done|]. split; [done|]. split.
  { intros d Hdin Hdi. apply Nat.lt_nge. intros Hle. apply Hk. fold i. rewrite <-Hdi. apply kept_image; [done|]. by apply newest_kept. }
  apply removable_elem in Hr as [_ [Hr|(Hkiln & -> & _ & c & Hold & _)]].
  2:{ destruct (old_of_Some _ _ _ Hold) as (_ & Hcomp & Ht & _). fold i in Hcomp, Ht. by rewrite Hcomp. }
  revert Hr. unfold removal_of. fold i. destruct (held facts i); [done|]. destruct (kilnComponent _); [done|].
  destruct (built_for facts i) as [app|] eqn:Hb.
  - destruct (bool_decide (_ ∈ legacyBuilds _)); [done|]. destruct (_ <? _)%Z eqn:Hg; [done|]. intros [= Hr]. rewrite <-Hr. cbn.
    apply Z.ltb_ge in Hg. split; [exists app; split; [done|]; by apply built_for_Some|]. split; [lia|].
    intros record Hin E. rewrite (proj2 (Hlast (lastUsedAt record) Hrec)) in Hg by (by exists record). cbn in Hg. lia.
  - destruct (jm_get (Id i) (lastUsed facts)) as [last|] eqn:Hl.
    + destruct (_ <=? _)%Z eqn:Hg; [|done]. intros [= Hr]. rewrite <-Hr. cbn. apply Z.leb_le in Hg.
      pose proof (proj1 (Hlast last Hrec) eq_refl) as (record & Hin & E & Ht). split; [rewrite <-E; by apply list_elem_of_fmap_2|].
      intros record' Hin' E'. assert (Some last = Some (lastUsedAt record')) as [= ->]; [|done].
      apply Hlast; [done|]. by exists record'.
    + destruct (unknownImages rules); [|done]. intros [= Hr]. rewrite <-Hr. cbn. split; [done|].
      intros (record & E & Hin)%list_elem_of_fmap.
      assert (None = Some (lastUsedAt record)) as [=]. apply Hlast; [done|]. by exists record.
Qed.

(** Hearth and the Relay can always be downgraded. When cleanup gives up
    an old image of one of them, another image of it stays on the host: the
    one its latest update recorded, or, where there is none, one at least as
    new. *)
Theorem downgrade_image_stays facts rules r :
  listed facts → r ∈ removableImages facts rules → kind r = Kiln →
  ∃ component stays, kilnComponent (label (image r) COMPONENT_LABEL) = Some component ∧
    stays ∈ images facts ∧ kilnComponent (label stays COMPONENT_LABEL) = Some component ∧
    (∀ r', r' ∈ removableImages facts rules → Id (image r') ≠ Id stays) ∧
    (matches stays (updates_kept facts) = true ∨
     (∀ i, i ∈ images facts → kilnComponent (label i COMPONENT_LABEL) = Some component →
       matches i (updates_kept facts) = false) ∧ (created (image r) <= created stays)%Z).
Proof.
  intros [_ _ Hn] Hr Hkind. destruct (removed_not_held _ _ _ Hr) as [Hi _].
  assert (∃ c, old_of facts (image r) = Some c) as [c Hold].
  { apply removable_elem in Hr as [_ [Hr|(_ & _ & _ & c & ? & _)]]; [|by exists c]. exfalso. revert Hr Hkind.
    unfold removal_of. repeat (case_goal; try done); by intros [= <-]. }
  destruct (old_of_Some _ _ _ Hold) as (_ & Hc & _). exists c.
  destruct (decide (c ∈ recorded facts)) as [Hrec|Hrec].
  - pose proof (proj1 (recorded_elem facts c) Hrec) as (i & Hin & Hci & Hm). exists i. do 3 (split; [done|]).
    split; [|by left]. intros r' Hr'. apply (stand_in_stays facts rules r' c i); [done..| |done]. intros Hcand.
    unfold keep_of. cbn. rewrite bool_decide_true by done.
    apply elem_of_list_to_set, list_elem_of_fmap_2, elem_of_bfilter. done.
  - destruct (newest_elem (candidates facts c) (image r)) as (i & Hnew & Hcand & Hle); [by apply candidates_elem|].
    pose proof (proj1 (candidates_elem facts c i) Hcand) as [Hin Hio]. destruct (old_of_Some _ _ _ Hio) as (_ & Hci & _).
    exists i. do 3 (split; [done|]). split.
    + intros r' Hr'. apply (stand_in_stays facts rules r' c i); [done..| |done]. intros _.
      unfold keep_of. cbn. rewrite bool_decide_false by done. rewrite Hnew. apply elem_of_list_to_set. left.
    + right. split; [|done]. intros j Hj Hcj. apply not_true_iff_false. intros Hm. apply Hrec, recorded_elem. by exists j.
Qed.

(** ** A host with an App's builds and two Relays *)

Definition sample_image (id : string) (labels : list (string * string)) (created : Z) (tags : list string) : DockerImageSummary :=
  MkImage id (Some (list_to_map labels)) (Some created) (Some tags) None (Some 100%Z) (Some (-1)%Z).

Definition sample_images : list DockerImageSummary :=
  [sample_image "app1" [(APP_IMAGE_LABEL, "a")] 0 [];
   sample_image "app2" [(APP_IMAGE_LABEL, "a")] 0 [];
   sample_image "relay1" [(COMPONENT_LABEL, "relay")] 10 [];
   sample_image "relay2" [(COMPONENT_LABEL, "relay")] 20 [];
   sample_image "mine" [] 0 ["mine:latest"];
   sample_image "game" [] 0 []].

Definition sample_facts : ImageFacts :=
  MkFacts [MkContainer "c1" (Some "relay3") None ["/relay"] "running"] [MkDeployed "a" "d1" 5 "app2"] (Some "desktop")
    sample_images (2 * BUILD_GRACE_MS) (λ _, None) ∅ {["relay1"; "relay2"]} [MkRecord "game" "instance:g" BUILD_GRACE_MS].

Definition sample_rules : RetentionRules := MkRules BUILD_GRACE_MS true false.

Example sample_removals : (λ r, (Id (image r), kind r)) <$> removableImages sample_facts sample_rules =
  [("app1", App); ("game", Unused); ("relay1", Kiln)].
Proof. vm_compute. reflexivity. Qed.

Lemma sample_listed : listed sample_facts.
Proof.
  split; [|apply (bool_decide_eq_true_1 _); vm_compute; reflexivity..]. intros d e Hd He _ _.
  apply list_elem_of_singleton in Hd, He. by subst.
Qed.

Lemma sample_removed id : existsb (λ r, bool_decide (Id (image r) = id)) (removableImages sample_facts sample_rules) = true →
  ∃ r, r ∈ removableImages sample_facts sample_rules ∧ Id (image r) = id.
Proof. intros (r & Hr & E%bool_decide_eq_true)%existsb_elem. by exists r. Qed.

Example removals_spare_what_is_kept_witness :
  ∃ r, r ∈ removableImages sample_facts sample_rules ∧ Id (image r) = "app1" ∧ desktopImageId sample_facts ≠ Some (Id (image r)).
Proof.
  destruct (sample_removed "app1") as (r & Hr & E); [vm_compute; reflexivity|]. exists r. split; [exact Hr|]. split; [exact E|].
  exact (proj1 (proj2 (proj2 (removals_spare_what_is_kept sample_facts sample_rules r sample_listed Hr)))).
Defined.

Example downgrade_image_stays_witness :
  ∃ r component stays, Id (image r) = "relay1" ∧ kilnComponent (label stays COMPONENT_LABEL) = Some component ∧
    (∀ r', r' ∈ removableImages sample_facts sample_rules → Id (image r') ≠ Id stays).
Proof.
  destruct (sample_removed "relay1") as (r & Hr & E); [vm_compute; reflexivity|]. exists r.
  assert (kind r = Kiln) as Hk.
  { assert (forallb (λ r, bool_decide (Id (image r) = "relay1" → kind r = Kiln)) (removableImages sample_facts sample_rules) = true) as H
      by (vm_compute; reflexivity).
    rewrite forallb_elem in H. specialize (H r Hr). apply bool_decide_eq_true in H. exact (H E). }
  destruct (downgrade_image_stays sample_facts sample_rules r sample_listed Hr Hk) as (c & stays & _ & _ & Hc & Hs & _).
  exists c, stays. split; [exact E|]. split; [exact Hc|exact Hs].
Defined.
