(* ===== verification/Cleanup.v ===== *)
(** * Docker cleanup

    Models what [apps/relay/src/docker-cleanup.ts] does in a pass: what
    finished updates left, the containers Docker would not remove, and the
    images nothing keeps ([Images]); with the rows of [effect/state.ts] it
    reads and writes, the containers that are Kiln's
    ([kiln-containers.ts]), and what [system-updates.ts] tells it of updates.

    Docker is a parameter: what it lists, and how it answers each removal it
    is asked, which it may refuse. What the Relay asks it to remove is kept
    in order. The state's statements do not fail here. *)
From S2P Require Import Prelude Images.

(** ** The state's rows *)

Definition noteDockerImageUsed (now : Z) (rows : list RelayDockerImageRecord) (noted : string * string)
    : list RelayDockerImageRecord :=
  let row := MkRecord noted.1 noted.2 now in
  if bool_decide (noted.1 ∈ r_imageId <$> rows)
  then (λ known, if decide (r_imageId known = noted.1) then row else known) <$> rows
  else rows ++ [row].

(** Each image with the key of its owner. *)
Definition noteDockerImagesUsed (noted : list (string * string)) (now : Z) (rows : list RelayDockerImageRecord)
    : list RelayDockerImageRecord :=
  fold_left (noteDockerImageUsed now) noted rows.

Definition forgetDockerImage (id : string) (rows : list RelayDockerImageRecord) : list RelayDockerImageRecord :=
  List.filter (λ row, negb (bool_decide (r_imageId row = id))) rows.

(** [INSERT OR IGNORE] on the App, the deployment and the image. *)
Definition recordAppDeploymentImage (appId deployment : string) (finished : Z) (rows : list RelayAppDeploymentImage)
    (imageId : string) : list RelayAppDeploymentImage :=
  if existsb (λ row, bool_decide (d_appId row = appId ∧ deploymentId row = deployment ∧ d_imageId row = imageId)) rows
  then rows else rows ++ [MkDeployed appId deployment finished imageId].

Definition recordAppDeploymentImages (appId deployment : string) (imageIds : list string) (finished : Z)
    (rows : list RelayAppDeploymentImage) : list RelayAppDeploymentImage :=
  fold_left (recordAppDeploymentImage appId deployment finished) imageIds rows.

(** [None] forgets all of an App's. *)
Definition forgetAppDeploymentImages (appId : string) (ids : option (list string)) (rows : list RelayAppDeploymentImage)
    : list RelayAppDeploymentImage :=
  List.filter (λ row, negb (bool_decide (d_appId row = appId) &&
                            match ids with Some ids => bool_decide (deploymentId row ∈ ids) | None => true end)) rows.

Inductive OwnerKind := OApp | ODatabase | OInstance.

Record RelayDockerCleanupRecord := MkLeftover {
  containerId : string;
  l_owner : option (OwnerKind * string);
  reason : string;
  volumes : bool;
  error : string;
  failures : Z;
  firstFailedAt : Z;
}.

(** A container that is known keeps who it was and counts a failure more. *)
Definition recordDockerCleanup (row : RelayDockerCleanupRecord) (rows : list RelayDockerCleanupRecord)
    : list RelayDockerCleanupRecord :=
  if bool_decide (containerId row ∈ containerId <$> rows)
  then (λ known, if decide (containerId known = containerId row)
                 then MkLeftover (containerId known) (l_owner known) (reason known) (volumes known) (error row)
                        (failures known + 1) (firstFailedAt known)
                 else known) <$> rows
  else rows ++ [row].

Definition forgetDockerCleanup (id : string) (rows : list RelayDockerCleanupRecord) : list RelayDockerCleanupRecord :=
  List.filter (λ row, negb (bool_decide (containerId row = id))) rows.

(** [ORDER BY first_failed_at] *)
Definition listDockerCleanups (rows : list RelayDockerCleanupRecord) : list RelayDockerCleanupRecord :=
  stable_sort (λ a b, (firstFailedAt a <=? firstFailedAt b)%Z) rows.

Record Tables := MkTables {
  t_images : list RelayDockerImageRecord;
  t_deployments : list RelayAppDeploymentImage;
  t_leftovers : list RelayDockerCleanupRecord;
}.

(** ** Whose a container is *)

(** What the Relay's configuration says; [self] is the container it runs as,
    or its host's name. *)
Record RelayConfig := MkConfig {
  installationId : option string;
  platform : bool;
  resourceNamespace : option string;
  self : string;
  serverIdLabel : string;
}.

Inductive ResourceType := RRelay | RApp | RDatabase | RInstance.

Record KilnContainerOwner := MkOwner { component : option string; resource_type : ResourceType; resource_id : string }.

(** The first name, less a leading slash. *)
Definition containerName (container : DockerContainerSummary) : string :=
  let name := from_option id "" (head (c_Names container)) in
  default name (strip_prefix "/" name).

Definition RELAY_OWNER_LABEL : string := "kiln.relay.owner".

Definition relayOwnsLabels (config : RelayConfig) (labels : gmap string string) : bool :=
  let owner := labels !! RELAY_OWNER_LABEL in
  match truthy (resourceNamespace config) with
  | Some namespace => bool_decide (owner = Some namespace)
  | None => bool_decide (truthy owner = None)
  end.

(** A name of [relayResourceNames]. *)
Definition resource_name (config : RelayConfig) (legacyName : string) : string :=
  match truthy (resourceNamespace config) with
  | Some namespace => namespace +:+ "-" +:+ legacyName
  | None => legacyName
  end.

Definition relay_service (config : RelayConfig) (name : string) : option string :=
  jm_get name [(resource_name config "kiln-traefik", "Traefik"); (resource_name config "kiln-coredns", "CoreDNS");
               (resource_name config "kiln-tailscale", "Tailscale"); (resource_name config "kiln-limbo", "Limbo")].

Definition PLATFORM_ROLE_LABEL : string := "io.kiln.platform.role".

(** A role that is none of these is no platform's; names that every
    JavaScript object has are not considered. *)
Definition platform_role (role : string) : option string :=
  jm_get role [("cache", "Valkey"); ("database", "MySQL"); ("hearth", "Hearth")].

Definition relay_owner (component : string) : KilnContainerOwner := MkOwner (Some component) RRelay "relay".

Definition kilnContainerOwner (config : RelayConfig) (container : DockerContainerSummary) : option KilnContainerOwner :=
  let name := containerName container in
  if bool_decide (name = self config) || bool_decide (is_Some (strip_prefix (self config) (c_Id container)))
  then Some (relay_owner "Relay")
  else
    let labels := default ∅ (c_Labels container) in
    if negb (relayOwnsLabels config labels) then None
    else match truthy (labels !! "kiln.app.id") with
    | Some appId => Some (MkOwner (labels !! "kiln.app.service") RApp appId)
    | None =>
    match truthy (labels !! "kiln.database.id") with
    | Some databaseId => Some (MkOwner None RDatabase databaseId)
    | None =>
    let server := match truthy (labels !! serverIdLabel config) with
                  | Some serverId => if decide (labels !! "kiln.relay.managed" = Some "true") then Some serverId else None
                  | None => None
                  end in
    match server with
    | Some serverId => Some (MkOwner None RInstance (to_lower serverId))
    | None =>
    match relay_service config name with
    | Some service => Some (relay_owner service)
    | None =>
    if decide (labels !! "kiln.relay.infrastructure" = Some "desktop") then Some (relay_owner "Desktop")
    else if platform config
    then relay_owner <$> (truthy (labels !! PLATFORM_ROLE_LABEL) ≫= platform_role)
    else None
    end end end end.

Definition ownerKey (owner : KilnContainerOwner) : string :=
  match resource_type owner with
  | RRelay => "relay"
  | RApp => "app:" +:+ resource_id owner
  | RDatabase => "database:" +:+ resource_id owner
  | RInstance => "instance:" +:+ resource_id owner
  end.

(** ** What updates need *)

Inductive UpdateStatus := UFailed | URunning | USucceeded.

#[global] Instance UpdateStatus_eq_dec : EqDecision UpdateStatus.
Proof. solve_decision. Defined.

(** An update's record, of which [Date.parse] reads when it started. *)
Record UpdateOperation := MkUpdate {
  batchId : option string;
  u_component : KilnComponent;
  u_id : string;
  previousImageId : option string;
  helperImage : option string;
  requestedImage : string;
  startedAt : Z;
  status : UpdateStatus;
  targetContainer : string;
}.

Record UpdateCleanupState := MkUpdates {
  finishedHelpers : gset string;
  kept : gset string;
  named : gset string;
  targets : gset string;
  updating : bool;
}.

Definition isNewer (operation than : UpdateOperation) : bool := (startedAt than <? startedAt operation)%Z.

Definition is_running (operation : UpdateOperation) : bool := bool_decide (status operation = URunning).

Definition update_images (operation : UpdateOperation) : list string :=
  requestedImage operation :: option_list (truthy (previousImageId operation)) ++ option_list (truthy (helperImage operation)).

Definition note_latest (latest : list (KilnComponent * UpdateOperation)) (operation : UpdateOperation)
    : list (KilnComponent * UpdateOperation) :=
  if decide (status operation = USucceeded) then
    match jm_get (u_component operation) latest with
    | Some known => if isNewer operation known then jm_set (u_component operation) operation latest else latest
    | None => jm_set (u_component operation) operation latest
    end
  else latest.

Definition latest_updates (operations : list UpdateOperation) : list (KilnComponent * UpdateOperation) :=
  fold_left note_latest operations [].

Definition note_helper (helpers : list (string * bool)) (operation : UpdateOperation) : list (string * bool) :=
  let helper := "kiln-updater-" +:+ default (u_id operation) (batchId operation) in
  jm_set helper (default true (jm_get helper helpers) && negb (is_running operation)) helpers.

(** [busy]: one is starting, or its batch still runs. *)
Definition cleanupState (operations : Result string (list UpdateOperation)) (busy : bool) : UpdateCleanupState :=
  match operations with
  | Throw _ => MkUpdates ∅ ∅ ∅ ∅ true
  | Ok operations =>
      let running := List.filter is_running operations in
      MkUpdates
        (list_to_set (List.filter snd (fold_left note_helper operations [])).*1)
        (list_to_set (flat_map update_images running ++ omap (λ entry, previousImageId entry.2) (latest_updates operations)))
        (list_to_set (flat_map update_images operations))
        (list_to_set (targetContainer <$> List.filter (λ o, negb (is_running o)) operations))
        (negb (bool_decide (running = [])) || busy)
  end.

(** ** A pass *)

(** How Docker answers a removal. *)
Inductive Answer := Gone | Refused (status : Z) (message : string).

Record Outcome := MkOutcome { o_error : option string; o_removed : bool }.

Record DockerCleanupRequest := MkRequest { buildCache : bool; r_unknownImages : bool }.

Record CollectInput := MkInput {
  limit : nat;
  request : DockerCleanupRequest;
  r_unusedGraceMs : Z;
  i_appId : option string;
}.

Record DockerCleanupResult := MkResult {
  buildCacheBytes : Z;
  containers_removed : Z;
  result_error : option string;
  imageBytes : Z;
  images_removed : Z;
}.

Definition NOTHING : DockerCleanupResult := MkResult 0 0 None 0 0.

Definition nothing_but (message : string) : DockerCleanupResult := MkResult 0 0 (Some (str_take 2000 message)) 0 0.

(** [error ??= next] *)
Definition first_error (error next : option string) : option string :=
  match error with Some _ => error | None => next end.

(** What the Relay has asked Docker to remove. *)
Inductive Asked := AskImage (id : string) | AskContainer (id : string) (volumes : bool).

Section Pass.
(** Docker's lists and answers, by what it is asked; when an image it is
    asked for by name is there, its ID; and when a container finished. *)
Context (config : RelayConfig)
  (listContainers : Result string (list DockerContainerSummary))
  (listImages : Result string (list DockerImageSummary))
  (desktopImage : option string)
  (finished_at : string → option Z)
  (pruneBuildCache : Result string (option Z))
  (answer : Asked → Answer)
  (updates : UpdateCleanupState)
  (now : Z).

Definition removeImage (image : DockerImageSummary) : Outcome :=
  match answer (AskImage (Id image)) with
  | Gone => MkOutcome None true
  | Refused status message =>
      if (status =? 404)%Z then MkOutcome None true
      else if (status =? 409)%Z then MkOutcome None false
      else MkOutcome (Some (str_take 2000 message)) false
  end.

Definition removeSwept (id : string) : Outcome :=
  match answer (AskContainer id false) with
  | Gone => MkOutcome None true
  | Refused status message =>
      MkOutcome (if (status =? 404)%Z || (status =? 409)%Z then None else Some (str_take 2000 message)) false
  end.

(** [noteUsed], of the containers listed. *)
Definition noted (containers : list DockerContainerSummary) : list (string * string) :=
  omap (λ container,
          match kilnContainerOwner config container, truthy (c_ImageID container) with
          | Some owner, Some imageId => Some (imageId, ownerKey owner)
          | _, _ => None
          end) containers.

Definition owns_app (container : DockerContainerSummary) : option string :=
  match kilnContainerOwner config container with
  | Some owner => match resource_type owner with RApp => Some (resource_id owner) | _ => None end
  | None => None
  end.

(** What [removals] asks the rules. *)
Definition removal_facts (images : list DockerImageSummary) (containers : list DockerContainerSummary) (tables : Tables)
    : ImageFacts :=
  MkFacts containers (t_deployments tables) desktopImage images now owns_app (kept updates) (named updates) (t_images tables).

Definition removals_now (images : list DockerImageSummary) (containers : list DockerContainerSummary)
    (grace : Z) (unknown : bool) (tables : Tables) : list ImageRemoval :=
  removableImages (removal_facts images containers tables) (MkRules grace (negb (updating updates)) unknown).

(** The records of images that are on the host. *)
Definition forget_absent (images : list DockerImageSummary) (rows : list RelayDockerImageRecord) : list RelayDockerImageRecord :=
  fold_left (λ kept row, if bool_decide (r_imageId row ∈ Id <$> images) then kept else forgetDockerImage (r_imageId row) kept)
    rows rows.

Definition chosen (input : CollectInput) (removals : list ImageRemoval) : list ImageRemoval :=
  take (limit input)
    (List.filter (λ removal, match i_appId input with
                             | None => true
                             | Some app => bool_decide (kind removal = App) && bool_decide (appId removal = Some app)
                             end) removals).

Record Collected := MkCollected {
  g_removed : Z;
  g_bytes : Z;
  g_error : option string;
  g_rows : list RelayDockerImageRecord;
}.

Definition collect_one (st : Collected) (removal : ImageRemoval) : Collected :=
  let outcome := removeImage (image removal) in
  let error := first_error (g_error st) (o_error outcome) in
  if o_removed outcome
  then MkCollected (g_removed st + 1) (g_bytes st + imageOwnBytes (image removal)) error
         (forgetDockerImage (Id (image removal)) (g_rows st))
  else MkCollected (g_removed st) (g_bytes st) error (g_rows st).

(** The deployments no longer among their App's newest, by App. *)
Definition drop_deployment (kept : gset string) (dropped : list (string * list string)) (row : RelayAppDeploymentImage)
    : list (string * list string) :=
  if bool_decide (record_key row ∈ kept) then dropped
  else jm_set (d_appId row) (js_add (deploymentId row) (default [] (jm_get (d_appId row) dropped))) dropped.

Definition forget_old (rows : list RelayAppDeploymentImage) : list RelayAppDeploymentImage :=
  let dropped := fold_left (drop_deployment (keptDeployments rows)) rows [] in
  fold_left (λ rows entry, forgetAppDeploymentImages entry.1 (Some entry.2) rows) dropped rows.

Definition noted_tables (images : list DockerImageSummary) (containers : list DockerContainerSummary) (tables : Tables) : Tables :=
  MkTables (forget_absent images (noteDockerImagesUsed (noted containers) now (t_images tables)))
    (t_deployments tables) (t_leftovers tables).

(** The images it asks Docker to remove, once it has noted what is used. *)
Definition to_remove (input : CollectInput) (images : list DockerImageSummary) (containers : list DockerContainerSummary)
    (tables : Tables) : list ImageRemoval :=
  chosen input (removals_now images containers (r_unusedGraceMs input) (r_unknownImages (request input))
                  (noted_tables images containers tables)).

Definition collect (input : CollectInput) (tables : Tables) : DockerCleanupResult * Tables * list Asked :=
  match listContainers, listImages with
  | Throw message, _ | _, Throw message => (nothing_but message, tables, [])
  | Ok containers, Ok images =>
      let tables := noted_tables images containers tables in
      let removals := chosen input (removals_now images containers (r_unusedGraceMs input) (r_unknownImages (request input)) tables) in
      let st := fold_left collect_one removals (MkCollected 0 0 None (t_images tables)) in
      let tables := MkTables (g_rows st) (forget_old (t_deployments tables)) (t_leftovers tables) in
      let asked := (λ removal, AskImage (Id (image removal))) <$> removals in
      let pruned := if buildCache (request input) then pruneBuildCache else Ok None in
      match pruned with
      | Throw message => (nothing_but message, tables, asked)
      | Ok bytes => (MkResult (default 0%Z bytes) 0 (g_error st) (g_bytes st) (g_removed st), tables, asked)
      end
  end.

(** *** What updates left *)

Definition LEGACY_LEFTOVER_AGE_MS : Z := 24 * 60 * 60000.

Definition UPDATE_HELPER_LABEL : string := "io.kiln.update-helper".
Definition UPDATE_HELPER_PREFIX : string := "kiln-updater-".
Definition KILN_INSTALLATION_LABEL : string := "io.kiln.installation".

Definition exited (container : DockerContainerSummary) : bool :=
  bool_decide (c_State container = "dead") || bool_decide (c_State container = "exited").

Definition digit (c : Ascii.ascii) : bool :=
  let n := Ascii.nat_of_ascii c in ((48 <=? n) && (n <=? 57))%nat.

(** [UPDATE_BACKUP_NAME] on a container's name, which has no line breaks:
    what is before [-kiln-backup-] and the digits that end it. *)
Fixpoint backup_of (name : string) : option string :=
  match name with
  | EmptyString => None
  | String c rest =>
      match strip_prefix "-kiln-backup-" rest with
      | Some digits =>
          if negb (bool_decide (digits = "")) && str_all digit digits then Some (String c "")
          else String c <$> backup_of rest
      | None => String c <$> backup_of rest
      end
  end.

Definition stoppedLongAgo (id : string) : bool :=
  match finished_at id with
  | Some finished => (0 <? finished)%Z && (LEGACY_LEFTOVER_AGE_MS <=? now - finished)%Z
  | None => false
  end.

Definition c_label (container : DockerContainerSummary) (name : string) : option string :=
  default ∅ (c_Labels container) !! name.

Definition is_helper (container : DockerContainerSummary) : bool :=
  bool_decide (c_label container UPDATE_HELPER_LABEL = Some "true").

Definition helper_done (helper : DockerContainerSummary) : bool :=
  let name := containerName helper in
  bool_decide (name ∈ finishedHelpers updates) ||
  bool_decide (is_Some (strip_prefix UPDATE_HELPER_PREFIX name)) && stoppedLongAgo (c_Id helper).

(** The last of that name, as a [Map] of the list has it. *)
Definition by_name (containers : list DockerContainerSummary) (name : string) : option DockerContainerSummary :=
  jm_get name (fold_left (λ m container, jm_set (containerName container) container m) containers []).

Definition set_aside (containers : list DockerContainerSummary) (container : DockerContainerSummary) : bool :=
  negb (bool_decide (c_State container = "running")) &&
  match backup_of (containerName container) with
  | Some original =>
      bool_decide (c_State <$> by_name containers original = Some "running") &&
      bool_decide (is_Some (kilnComponent (c_label container COMPONENT_LABEL))) &&
      (bool_decide (original ∈ targets updates) || stoppedLongAgo (c_Id container)) &&
      match truthy (c_label container KILN_INSTALLATION_LABEL) with
      | Some installation => bool_decide (installationId config = Some installation)
      | None => true
      end
  | None => false
  end.

Definition swept (containers : list DockerContainerSummary) : list DockerContainerSummary :=
  List.filter helper_done (List.filter is_helper containers) ++ List.filter (set_aside containers) containers.

Definition sweep_one (st : option string * Z) (container : DockerContainerSummary) : option string * Z :=
  let outcome := removeSwept (c_Id container) in
  (first_error st.1 (o_error outcome), if o_removed outcome then (st.2 + 1)%Z else st.2).

Definition sweepUpdates : option string * Z * list Asked :=
  if updating updates then (None, 0%Z, [])
  else match listContainers with
  | Throw message => (Some (str_take 2000 message), 0%Z, [])
  | Ok containers =>
      if existsb (λ helper, negb (exited helper)) (List.filter is_helper containers) then (None, 0%Z, [])
      else (fold_left sweep_one (swept containers) (None, 0%Z), (λ c, AskContainer (c_Id c) false) <$> swept containers)
  end.

(** *** Containers Docker would not remove *)

(** The first removal of a container, kept to try again when refused. *)
Definition removeContainer (id : string) (owner : option (OwnerKind * string)) (why : string) (vols : bool)
    (rows : list RelayDockerCleanupRecord) : list RelayDockerCleanupRecord :=
  match answer (AskContainer id vols) with
  | Gone => rows
  | Refused _ message => recordDockerCleanup (MkLeftover id owner why vols message 1 now) rows
  end.

(** Answers whether it is gone. *)
Definition retryRemoval (leftover : RelayDockerCleanupRecord) (rows : list RelayDockerCleanupRecord)
    : bool * list RelayDockerCleanupRecord :=
  match answer (AskContainer (containerId leftover) (volumes leftover)) with
  | Gone => (true, forgetDockerCleanup (containerId leftover) rows)
  | Refused _ message =>
      (false, recordDockerCleanup (MkLeftover (containerId leftover) (l_owner leftover) (reason leftover) (volumes leftover)
                                     message 1 now) rows)
  end.

(** *** The whole *)

(** Which of its operations the lanes let in. *)
Context (admits_sweep admits_collect : bool) (admits_retry : RelayDockerCleanupRecord → bool).

Definition retry_one (st : Z * list RelayDockerCleanupRecord * list Asked) (leftover : RelayDockerCleanupRecord)
    : Z * list RelayDockerCleanupRecord * list Asked :=
  let '(retried, rows, asked) := st in
  if admits_retry leftover then
    let '(gone, rows) := retryRemoval leftover rows in
    (if gone then retried + 1 else retried, rows, asked ++ [AskContainer (containerId leftover) (volumes leftover)])%Z
  else (retried, rows, asked).

Definition cleanup (input : CollectInput) (tables : Tables) : DockerCleanupResult * Tables * list Asked :=
  let '(sweep_error, sweep_removed, sweep_asked) := if admits_sweep then sweepUpdates else (None, 0%Z, []) in
  let '(retried, leftovers, retry_asked) :=
    fold_left retry_one (listDockerCleanups (t_leftovers tables)) (0%Z, t_leftovers tables, []) in
  let tables := MkTables (t_images tables) (t_deployments tables) leftovers in
  let '(collected, tables, collect_asked) := if admits_collect then collect input tables else (NOTHING, tables, []) in
  (MkResult (buildCacheBytes collected) (sweep_removed + retried) (first_error sweep_error (result_error collected))
     (imageBytes collected) (images_removed collected),
   tables, sweep_asked ++ retry_asked ++ collect_asked).
(** *** What calls it *)

Definition UNUSED_IMAGE_GRACE_MS : Z := 24 * 60 * 60000.
Definition IMAGES_PER_PASS : nat := 50.
Definition IMAGES_PER_CLEANUP : nat := 500.

Definition pass (tables : Tables) : DockerCleanupResult * Tables * list Asked :=
  cleanup (MkInput IMAGES_PER_PASS (MkRequest false false) UNUSED_IMAGE_GRACE_MS None) tables.

(** A person's: it does not wait for the grace. *)
Definition cleanNow (asked : DockerCleanupRequest) (tables : Tables) : DockerCleanupResult * Tables * list Asked :=
  cleanup (MkInput IMAGES_PER_CLEANUP asked 0 None) tables.

(** After an App's deployment, of its builds alone. *)
Definition pruneAppImages (app : string) (tables : Tables) : DockerCleanupResult * Tables * list Asked :=
  collect (MkInput IMAGES_PER_CLEANUP (MkRequest false false) UNUSED_IMAGE_GRACE_MS (Some app)) tables.

Definition recordDeployment (app deployment : string) (imageIds : list string) (tables : Tables) : Tables :=
  MkTables (noteDockerImagesUsed ((λ id, (id, "app:" +:+ app)) <$> imageIds) now (t_images tables))
    (recordAppDeploymentImages app deployment imageIds now (t_deployments tables)) (t_leftovers tables).

Definition noteBuild (app imageId : string) (tables : Tables) : Tables :=
  MkTables (noteDockerImagesUsed [(imageId, "app:" +:+ app)] now (t_images tables)) (t_deployments tables) (t_leftovers tables).

(** *** What a person is shown *)

Record CacheRecord := MkCache { InUse : option bool; k_Size : option Z }.

Record Totals := MkTotals { bytes : Z; count : Z }.

Record Figures := MkFigures {
  f_cache_bytes : Z;
  f_cache_reclaimable : Z;
  f_images : Totals;
  f_leftovers : Z;
  f_reclaimable : Totals;
  f_unknown : Totals;
}.

Definition sum (l : list Z) : Z := foldr Z.add 0%Z l.

Definition total (kinds : ImageRemovalKind → bool) (removals : list ImageRemoval) : Totals :=
  let chosen := List.filter (λ removal, kinds (kind removal)) removals in
  MkTotals (sum ((λ removal, imageOwnBytes (image removal)) <$> chosen)) (Z.of_nat (length chosen)).

Definition figures (images : list DockerImageSummary) (layersSize : option Z) (cache : list CacheRecord)
    (containers : list DockerContainerSummary) (tables : Tables) : Figures :=
  let removals := removals_now images containers 0 true tables in
  MkFigures (sum ((λ record, default 0%Z (k_Size record)) <$> cache))
    (sum ((λ record, if default false (InUse record) then 0%Z else default 0%Z (k_Size record)) <$> cache))
    (MkTotals (default (sum (imageOwnBytes <$> images)) layersSize) (Z.of_nat (length images)))
    (Z.of_nat (length (t_leftovers tables)))
    (total (λ kind, negb (bool_decide (kind = Unknown))) removals)
    (total (λ kind, bool_decide (kind = Unknown)) removals).
End Pass.
