(* ===== verification/CleanupFacts.v ===== *)
(** * Docker cleanup: what a pass may remove, and what it may forget

    Properties of [Cleanup], on top of those of the retention rules. *)
From S2P Require Import Prelude Images RetentionFacts Cleanup.

(** ** Sorting and filtering *)

Section SortFilter.
Context {A : Type} (le : A → A → bool) (p : A → bool).
Hypothesis le_total : ∀ x y, le x y = false → le y x = true.
Hypothesis le_trans : ∀ x y z, le x y = true → le y z = true → le x z = true.

Lemma sort_insert_front x l : (∀ y, y ∈ l → le x y = true) → sort_insert le x l = x :: l.
Proof. destruct l as [|y l]; [done|]. intros H. cbn. by rewrite H by left. Qed.

Lemma sort_insert_filter x l : StronglySorted (λ a b, le a b = true) l →
  List.filter p (sort_insert le x l) = if p x then sort_insert le x (List.filter p l) else List.filter p l.
Proof using le_trans.
  induction 1 as [|y l Hs IH Hall]; cbn; [by destruct (p x)|]. destruct (le x y) eqn:Hxy; cbn.
  - destruct (p x) eqn:Hx; [|done]. rewrite sort_insert_front; [done|].
    rewrite Forall_forall in Hall. intros z Hz.
    assert (z ∈ List.filter p (y :: l)) as [[->|Hin]%elem_of_cons _]%elem_of_bfilter by done; [done|].
    apply (le_trans x y z); auto.
  - rewrite IH. destruct (p x), (p y); cbn; by rewrite ?Hxy.
Qed.

(** A stable sort of some of a list is some of the sorted list. *)
Lemma stable_sort_filter l : stable_sort le (List.filter p l) = List.filter p (stable_sort le l).
Proof using le_total le_trans.
  induction l as [|x l IH]; [done|]. cbn.
  pose proof (sort_insert_filter x (stable_sort le l) (stable_sort_sorted le le_total le_trans l)) as H.
  change (foldr (sort_insert le) [] l) with (stable_sort le l). rewrite H.
  destruct (p x); cbn; [|done]. change (foldr (sort_insert le) [] (List.filter p l)) with (stable_sort le (List.filter p l)).
  by rewrite IH.
Qed.

Lemma take_filter n l : (∀ x, x ∈ take n l → p x = true) → take n (List.filter p l) = take n l.
Proof.
  revert n. induction l as [|x l IH]; intros [|n] H; cbn; [done..|].
  rewrite (H x) by left. cbn. f_equal. apply IH. intros y Hy. apply H. by right.
Qed.
End SortFilter.

(** ** Forgetting deployments *)

Section Forgetting.
Context (keep : string → string → bool).

Definition keep_row (row : RelayAppDeploymentImage) : bool := keep (d_appId row) (deploymentId row).

(** Reading only the deployments to keep reads what is kept of all. *)
Lemma finish_filter app rows : ∀ m m',
  (∀ l, jm_get app m = Some l → NoDup l.*1) →
  default [] (jm_get app m') = List.filter (λ d, keep app d.1) (default [] (jm_get app m)) →
  default [] (jm_get app (fold_left finish (List.filter keep_row rows) m')) =
  List.filter (λ d, keep app d.1) (default [] (jm_get app (fold_left finish rows m))).
Proof.
  assert (∀ id t (l : list (string * Z)), keep app id = false →
    List.filter (λ d, keep app d.1) (jm_set id t l) = List.filter (λ d, keep app d.1) l) as Hdrop.
  { intros id t l Hk. induction l as [|[i u] l IH]; cbn; [by rewrite Hk|]. case_decide as Hi; cbn; [subst; by rewrite Hk|by rewrite IH]. }
  assert (∀ id t (l : list (string * Z)), keep app id = true →
    List.filter (λ d, keep app d.1) (jm_set id t l) = jm_set id t (List.filter (λ d, keep app d.1) l)) as Hkeep.
  { intros id t l Hk. induction l as [|[i u] l IH]; cbn; [by rewrite Hk|]. case_decide as Hi; cbn.
    - subst. rewrite Hk. cbn. by rewrite decide_True.
    - destruct (keep app i); cbn; [|done]. rewrite decide_False by done. by rewrite IH. }
  induction rows as [|row rows IH]; intros m m' Hn Hm; cbn; [done|].
  unfold keep_row at 1. destruct (decide (d_appId row = app)) as [Ha|Ha].
  - rewrite Ha. destruct (keep app (deploymentId row)) eqn:Hk; cbn; apply IH; unfold finish; rewrite !jm_get_set, Ha.
    + rewrite decide_True by done. intros l [= <-]. apply jm_set_NoDup. destruct (jm_get app m) eqn:E; [by apply Hn|constructor].
    + rewrite !decide_True by done. cbn. by rewrite Hkeep, Hm.
    + rewrite decide_True by done. intros l [= <-]. apply jm_set_NoDup. destruct (jm_get app m) eqn:E; [by apply Hn|constructor].
    + rewrite decide_True by done. cbn. by rewrite Hdrop, Hm.
  - destruct (keep _ _); cbn; apply IH; unfold finish; rewrite ?jm_get_set, ?(decide_False (P := d_appId row = app)) by done; done.
Qed.
End Forgetting.

(** The kept deployments of what is kept are the same. *)
Lemma kept_of_kept (rows : list RelayAppDeploymentImage) :
  keptDeployments (List.filter (λ row, bool_decide (record_key row ∈ keptDeployments rows)) rows) = keptDeployments rows.
Proof.
  set (keep app id := bool_decide (deployment_key app id ∈ keptDeployments rows)).
  change (λ row, bool_decide (record_key row ∈ keptDeployments rows)) with (keep_row keep).
  assert (∀ app, app_kept (app, app_finishes app (List.filter (keep_row keep) rows)) = app_kept (app, app_finishes app rows)) as Happ.
  { intros app. unfold app_kept. cbn [fst snd]. f_equal. unfold app_finishes.
    rewrite (finish_filter keep app rows [] []); [|done..].
    rewrite stable_sort_filter; [|apply newer_total|apply newer_trans]. apply take_filter.
    intros d Hd. unfold keep. apply bool_decide_true, kept_elem. exists app.
    unfold app_kept. cbn [fst snd]. apply list_elem_of_fmap. by exists d. }
  apply set_eq. intros key. rewrite !kept_elem. by setoid_rewrite Happ.
Qed.

Lemma drop_elem kept rows : ∀ m app, NoDup m.*1 →
  let m' := fold_left (drop_deployment kept) rows m in
  NoDup m'.*1 ∧ ∀ id, id ∈ default [] (jm_get app m') ↔
    id ∈ default [] (jm_get app m) ∨
    ∃ row, row ∈ rows ∧ d_appId row = app ∧ deploymentId row = id ∧ record_key row ∉ kept.
Proof.
  induction rows as [|row rows IH]; intros m app Hm; cbn; [split; [done|]; intros id; split; [by left|]|].
  { intros [?|(row & H & _)]; [done|in_nil H]. }
  unfold drop_deployment at 2. unfold drop_deployment at 3. case_bool_decide as Hk.
  - destruct (IH m app Hm) as [Hn Hid]. split; [done|]. intros id. rewrite Hid. set_solver.
  - destruct (IH (jm_set (d_appId row) (js_add (deploymentId row) (default [] (jm_get (d_appId row) m))) m) app) as [Hn Hid];
      [by apply jm_set_NoDup|]. split; [done|]. intros id. rewrite Hid, jm_get_set. case_decide as Ha; cbn.
    + subst app. rewrite js_add_elem. setoid_rewrite elem_of_cons. split.
      * intros [[->|?]|(r & Hr & ?)]; [right; exists row; by split; [left|]|by left|right; exists r; by split; [right|]].
      * intros [?|(r & [->|Hr] & ? & <- & ?)]; [by left; right|by left; left|right; by exists r].
    + setoid_rewrite elem_of_cons. split.
      * intros [?|(r & Hr & ?)]; [by left|right; exists r; by split; [right|]].
      * intros [?|(r & [->|Hr] & ? & ?)]; [by left|done|right; by exists r].
Qed.

Lemma filter_filter {A} (f g : A → bool) l : List.filter f (List.filter g l) = List.filter (λ x, g x && f x) l.
Proof. induction l as [|x l IH]; cbn; [done|]. destruct (g x); cbn; by rewrite IH. Qed.

Lemma forget_fold dropped : ∀ rows,
  fold_left (λ rows entry, forgetAppDeploymentImages entry.1 (Some entry.2) rows) dropped rows =
  List.filter (λ row, negb (existsb (λ entry : string * list string,
    bool_decide (d_appId row = entry.1) && bool_decide (deploymentId row ∈ entry.2)) dropped)) rows.
Proof.
  induction dropped as [|entry dropped IH]; intros rows; cbn.
  - induction rows as [|row rows IHr]; cbn; [done|]. by rewrite <-IHr.
  - rewrite IH. unfold forgetAppDeploymentImages. rewrite filter_filter. apply List.filter_ext. intros row.
    by rewrite negb_orb.
Qed.

Lemma forget_old_eq rows : forget_old rows = List.filter (λ row, bool_decide (record_key row ∈ keptDeployments rows)) rows.
Proof.
  unfold forget_old. rewrite forget_fold.
  apply List.filter_ext_in. intros row Hrow%list_elem_of_In.
  set (dropped := fold_left (drop_deployment (keptDeployments rows)) rows []).
  assert (NoDup dropped.*1) as Hn by (apply (drop_elem _ rows [] ""); constructor).
  apply eq_true_iff_eq. rewrite negb_true_iff, bool_decide_eq_true, existsb_false. split.
  - intros H. apply dec_stable. intros Hk.
    destruct (drop_elem (keptDeployments rows) rows [] (d_appId row)) as [_ Hid]; [constructor|].
    assert (deploymentId row ∈ default [] (jm_get (d_appId row) dropped)) as Hin by (apply Hid; right; by exists row).
    destruct (jm_get (d_appId row) dropped) as [ids|] eqn:E; [|in_nil Hin]. apply jm_get_Some in E; [|done].
    specialize (H _ E). cbn in H. rewrite !bool_decide_true in H by done. done.
  - intros Hk [app ids] Hin. cbn. apply not_true_iff_false. intros [Ha Hi]%andb_true_iff. bool_to_prop. subst app.
    destruct (drop_elem (keptDeployments rows) rows [] (d_appId row)) as [_ Hid]; [constructor|].
    apply jm_get_Some in Hin; [|done]. fold dropped in Hid. rewrite Hin in Hid.
    apply Hid in Hi as [H|(r & _ & Ha & Hi & Hr)]; [in_nil H|]. apply Hr. unfold record_key. by rewrite Ha, Hi.
Qed.

(** ** Noting what is used *)

Lemma noted_NoDup now l : ∀ rows, NoDup (r_imageId <$> rows) → NoDup (r_imageId <$> noteDockerImagesUsed l now rows).
Proof.
  induction l as [|x l IH]; intros rows Hn; cbn; [done|]. apply IH. unfold noteDockerImageUsed. case_bool_decide as Hin.
  - rewrite <-list_fmap_compose. erewrite list_fmap_ext; [exact Hn|]. intros i row _. cbn. by case_decide.
  - rewrite fmap_app. apply NoDup_app. split; [done|]. split; [|apply NoDup_singleton].
    by intros id Hid ->%list_elem_of_singleton.
Qed.

Lemma forget_absent_NoDup images rows : NoDup (r_imageId <$> rows) → NoDup (r_imageId <$> forget_absent images rows).
Proof.
  intros Hn. unfold forget_absent. assert (∀ l kept, NoDup (r_imageId <$> kept) →
    NoDup (r_imageId <$> fold_left (λ kept row, if bool_decide (r_imageId row ∈ Id <$> images) then kept
                                               else forgetDockerImage (r_imageId row) kept) l kept)) as H; [|by apply H].
  induction l as [|x l IH]; intros kept Hk; cbn; [done|]. apply IH. case_bool_decide; [done|]. by apply NoDup_fmap_bfilter.
Qed.

(** ** The latest updates *)

(** The last successful update of a component: every other is older. *)
Definition last_update (operations : list UpdateOperation) (o : UpdateOperation) : Prop :=
  o ∈ operations ∧ status o = USucceeded ∧
  ∀ o', o' ∈ operations → u_component o' = u_component o → status o' = USucceeded → o' = o ∨ (startedAt o' < startedAt o)%Z.

Lemma latest_loop c o l : ∀ m,
  (∀ o', o' ∈ l → u_component o' = c → status o' = USucceeded → o' = o ∨ (startedAt o' < startedAt o)%Z) →
  (∀ o', jm_get c m = Some o' → o' = o ∨ (startedAt o' < startedAt o)%Z) →
  (o ∈ l ∨ jm_get c m = Some o) → u_component o = c → status o = USucceeded →
  jm_get c (fold_left note_latest l m) = Some o.
Proof.
  induction l as [|x l IH]; intros m Hl Hm Ho Hc Hs; cbn; [destruct Ho as [H|H]; [in_nil H|done]|].
  assert (∀ o', jm_get c (note_latest m x) = Some o' → o' = o ∨ (startedAt o' < startedAt o)%Z) as Hm'.
  { intros o' E. unfold note_latest in E. case_decide as Hx; [|by apply Hm].
    assert (∀ m, jm_get c (jm_set (u_component x) x m) = Some o' → o' = x ∧ u_component x = c ∨ jm_get c m = Some o') as Hset.
    { intros m0. rewrite jm_get_set. case_decide; [by intros [= ->]; left|by right]. }
    assert ((o' = x ∧ u_component x = c) ∨ jm_get c m = Some o') as [[-> ?]|?]; [|apply Hl; [left|done..]|by apply Hm].
    destruct (jm_get (u_component x) m); [destruct (isNewer _ _); [by apply Hset|by right]|by apply Hset]. }
  apply IH; [intros; apply Hl; [by right|done..]|exact Hm'| |done..].
  destruct Ho as [[<-|Ho]%elem_of_cons|Ho]; [|by left|].
  - right. unfold note_latest. rewrite decide_True by done. rewrite Hc.
    destruct (jm_get c m) as [k|] eqn:E; [|by rewrite jm_get_set, decide_True].
    destruct (Hm k eq_refl) as [->|Hlt].
    + destruct (isNewer o o); [by rewrite jm_get_set, decide_True|done].
    + unfold isNewer. apply Z.ltb_lt in Hlt. rewrite Hlt. by rewrite jm_get_set, decide_True.
  - right. unfold note_latest. case_decide as Hx; [|done].
    destruct (decide (u_component x = c)) as [Hxc|Hxc].
    + rewrite Hxc, Ho. destruct (Hl x) as [->|Hlt]; [left|done..| |].
      * destruct (isNewer o o); [by rewrite jm_get_set, decide_True|done].
      * unfold isNewer. assert ((startedAt o <? startedAt x)%Z = false) as -> by (apply Z.ltb_ge; lia). done.
    + destruct (jm_get (u_component x) m); [case_goal; [|done]|]; by rewrite jm_get_set, decide_False.
Qed.

(** An image a component ran before its last update is one to keep. *)
Lemma previous_kept operations busy o id : last_update operations o → previousImageId o = Some id →
  id ∈ kept (cleanupState (Ok operations) busy).
Proof.
  intros (Hin & Hs & Hall) Hp. cbn. apply elem_of_list_to_set, elem_of_app. right.
  apply list_elem_of_omap. exists (u_component o, o). split; [|done].
  assert (∀ l m, NoDup m.*1 → NoDup (fold_left note_latest l m).*1) as Hn.
  { induction l as [|x l IH]; intros m Hm; cbn; [done|]. apply IH. unfold note_latest.
    case_decide; [|done]. destruct (jm_get _ _); [case_goal; [|done]|]; by apply jm_set_NoDup. }
  apply jm_get_Some; [apply Hn; constructor|]. unfold latest_updates. apply latest_loop; auto. done.
Qed.

(** ** What a pass asks of Docker *)

Lemma by_name_elem l name : ∀ m c,
  jm_get name (fold_left (λ m container, jm_set (containerName container) container m) l m) = Some c →
  jm_get name m = Some c ∨ c ∈ l ∧ containerName c = name.
Proof.
  induction l as [|x l IH]; intros m c H; cbn in H; [by left|]. apply IH in H as [H|[? ?]]; [|right; split; [by right|done]].
  rewrite jm_get_set in H. case_decide; [injection H as <-; right; split; [left|done]|by left].
Qed.

Lemma backup_of_Some name original : backup_of name = Some original →
  ∃ digits, name = original +:+ "-kiln-backup-" +:+ digits ∧ digits ≠ "" ∧ str_all digit digits = true.
Proof.
  revert original. induction name as [|c name IH]; intros original; [done|]. cbn [backup_of].
  assert (String c <$> backup_of name = Some original → ∃ digits,
    String c name = original +:+ "-kiln-backup-" +:+ digits ∧ digits ≠ "" ∧ str_all digit digits = true) as Hr.
  { intros (o & (d & -> & ? & ?)%IH & ->)%fmap_Some. by exists d. }
  destruct (strip_prefix "-kiln-backup-" name) as [d|] eqn:E; [|exact Hr].
  destruct (negb _ && _) eqn:Hd; [|exact Hr]. intros [= <-]. bool_to_prop. exists d.
  apply strip_prefix_Some in E as ->. done.
Qed.

Section Pass.
Context (config : RelayConfig) (listContainers : Result string (list DockerContainerSummary))
  (listImages : Result string (list DockerImageSummary)) (desktopImage : option string)
  (finished_at : string → option Z) (pruneBuildCache : Result string (option Z)) (answer : Asked → Answer)
  (operations : Result string (list UpdateOperation)) (busy : bool) (now : Z)
  (admits_sweep admits_collect : bool) (admits_retry : RelayDockerCleanupRecord → bool).

Notation updates := (cleanupState operations busy).
Notation collect := (collect config listContainers listImages desktopImage pruneBuildCache answer updates now).
Notation sweepUpdates := (sweepUpdates config listContainers finished_at answer updates now).
Notation cleanup := (cleanup config listContainers listImages desktopImage finished_at pruneBuildCache answer updates now
                       admits_sweep admits_collect admits_retry).

(** No update runs, as far as their records say. *)
Definition quiet : Prop := ∃ ops, operations = Ok ops ∧ busy = false ∧ ∀ o, o ∈ ops → status o ≠ URunning.

Lemma updating_false : updating updates = false → quiet.
Proof.
  unfold quiet. destruct operations as [ops|]; cbn; [|done]. intros [H ->]%orb_false_iff. exists ops. split; [done|]. split; [done|].
  apply negb_false_iff, bool_decide_eq_true in H. intros o Ho E.
  assert (o ∈ List.filter is_running ops) as Hf by (apply elem_of_bfilter; split; [done|by apply bool_decide_true]).
  rewrite H in Hf. in_nil Hf.
Qed.

(** What a container set aside, or a helper, must be to go. *)
Definition left_by_update (containers : list DockerContainerSummary) (c : DockerContainerSummary) : Prop :=
  c ∈ containers ∧ c_State c ≠ "running" ∧
  (is_helper c = true ∨ ∃ original digits replacement,
     containerName c = original +:+ "-kiln-backup-" +:+ digits ∧ replacement ∈ containers ∧
     containerName replacement = original ∧ c_State replacement = "running").

Lemma sweep_asks a : a ∈ sweepUpdates.2 →
  quiet ∧ ∃ containers c, listContainers = Ok containers ∧ a = AskContainer (c_Id c) false ∧ left_by_update containers c.
Proof.
  unfold Cleanup.sweepUpdates. destruct (updating updates) eqn:Hu; [intros H; in_nil H|].
  destruct listContainers as [cs|]; [|intros H; in_nil H].
  destruct (existsb _ _) eqn:Hh; [intros H; in_nil H|]. cbn [snd]. intros (c & -> & Hc)%list_elem_of_fmap.
  split; [by apply updating_false|]. exists cs, c. do 2 (split; [done|]).
  unfold swept in Hc. apply elem_of_app in Hc as [[[Hc Hi]%elem_of_bfilter _]%elem_of_bfilter|[Hc Hs]%elem_of_bfilter].
  - split; [done|]. split; [|by left]. rewrite existsb_false in Hh.
    assert (negb (exited c) = false) as He by (apply Hh, elem_of_bfilter; done).
    apply negb_false_iff, orb_true_iff in He. rewrite !bool_decide_eq_true in He. intros E. rewrite E in He. by destruct He.
  - split; [done|]. unfold set_aside in Hs. apply andb_true_iff in Hs as [Hr Hs].
    apply negb_true_iff, bool_decide_eq_false in Hr. split; [done|]. right.
    destruct (backup_of _) as [original|] eqn:Hb; [|done]. bool_to_prop.
    destruct (backup_of_Some _ _ Hb) as (digits & Hn & _). destruct (by_name cs original) as [r|] eqn:Hrn; [|done].
    apply by_name_elem in Hrn as [?|[? ?]]; [done|]. exists original, digits, r. cbn in *. by simplify_eq.
Qed.

Lemma retry_asks l : ∀ st a, a ∈ (fold_left (retry_one answer now admits_retry) l st).2 →
  a ∈ st.2 ∨ ∃ leftover, leftover ∈ l ∧ a = AskContainer (containerId leftover) (volumes leftover).
Proof.
  induction l as [|x l IH]; intros [[n rows] asked] a H; cbn in H; [by left|].
  apply IH in H as [H|(r & ? & ?)]; [|right; exists r; split; [by right|done]]. cbn in H.
  destruct (admits_retry x); [|by left]. destruct (retryRemoval _ _ _ _) as [gone rows']. cbn in H.
  apply elem_of_app in H as [?|H]; [by left|]. apply list_elem_of_singleton in H as ->. right. exists x. split; [left|done].
Qed.

(** What the images it asks for are. *)
Lemma collect_asks input tables a : a ∈ (collect input tables).2 →
  ∃ containers images r, listContainers = Ok containers ∧ listImages = Ok images ∧ a = AskImage (Id (image r)) ∧
    r ∈ to_remove config desktopImage updates now input images containers tables.
Proof.
  unfold Cleanup.collect. destruct listContainers as [cs|]; [|intros H; in_nil H].
  destruct listImages as [imgs|]; [|intros H; in_nil H].
  intros H. assert (a ∈ (λ r, AskImage (Id (image r))) <$> to_remove config desktopImage updates now input imgs cs tables) as Hin.
  { revert H. unfold to_remove. destruct (if buildCache _ then _ else _); done. }
  apply list_elem_of_fmap in Hin as (r & -> & Hr). by exists cs, imgs, r.
Qed.

Lemma cleanup_asks input tables a : a ∈ (cleanup input tables).2 →
  a ∈ sweepUpdates.2 ∨
  (∃ leftover, leftover ∈ t_leftovers tables ∧ a = AskContainer (containerId leftover) (volumes leftover)) ∨
  ∃ leftovers, a ∈ (collect input (MkTables (t_images tables) (t_deployments tables) leftovers)).2.
Proof.
  unfold Cleanup.cleanup.
  destruct (if admits_sweep then sweepUpdates else _) as [[e n] asked] eqn:Hs.
  destruct (fold_left _ _ _) as [[k rows] retried] eqn:Hr.
  destruct (if admits_collect then _ else _) as [[res t'] collected] eqn:Hc. cbn [snd].
  intros [H|[H|H]%elem_of_app]%elem_of_app.
  - left. destruct admits_sweep; [by rewrite Hs|]. injection Hs as <- <- <-. in_nil H.
  - right. left. change retried with ((k, rows, retried).2) in H. rewrite <-Hr in H.
    apply retry_asks in H as [H|(l & Hl & ->)]; [in_nil H|]. exists l. split; [|done].
    unfold listDockerCleanups in Hl. by rewrite stable_sort_perm in Hl.
  - do 2 right. destruct admits_collect; [exists rows; by rewrite Hc|]. injection Hc as <- <- <-. in_nil H.
Qed.
End Pass.

Section Whole.
Context (config : RelayConfig) (listContainers : Result string (list DockerContainerSummary))
  (listImages : Result string (list DockerImageSummary)) (desktopImage : option string)
  (finished_at : string → option Z) (pruneBuildCache : Result string (option Z)) (answer : Asked → Answer)
  (operations : Result string (list UpdateOperation)) (busy : bool) (now : Z)
  (admits_sweep admits_collect : bool) (admits_retry : RelayDockerCleanupRecord → bool).

Notation updates := (cleanupState operations busy).
Notation to_remove := (to_remove config desktopImage updates now).
Notation cleanup := (cleanup config listContainers listImages desktopImage finished_at pruneBuildCache answer updates now
                       admits_sweep admits_collect admits_retry).

Lemma chosen_elem input l r : r ∈ chosen input l → r ∈ l.
Proof.
  unfold chosen. intros (i & Hi & _)%elem_of_take. apply list_elem_of_lookup_2, elem_of_bfilter in Hi. tauto.
Qed.

Lemma to_remove_elem input images containers tables r : r ∈ to_remove input images containers tables →
  r ∈ removableImages (removal_facts config desktopImage updates now images containers (noted_tables config now images containers tables))
        (MkRules (r_unusedGraceMs input) (negb (updating updates)) (r_unknownImages (request input))).
Proof. apply chosen_elem. Qed.

(** An old image of Hearth or the Relay goes only while no update runs, and
    never the one an update's last success replaced. *)
Lemma component_removed input images containers tables r c :
  NoDup (Id <$> images) → r ∈ to_remove input images containers tables →
  kilnComponent (label (image r) COMPONENT_LABEL) = Some c →
  tagged (image r) = false ∧ ∃ ops, operations = Ok ops ∧ busy = false ∧ (∀ o, o ∈ ops → status o ≠ URunning) ∧
    ∀ o, last_update ops o → previousImageId o ≠ Some (Id (image r)).
Proof.
  intros Hn Hr Hc. apply to_remove_elem in Hr.
  destruct (removed_component _ _ _ _ Hr Hc) as [Hold Hkeep]. destruct (old_of_Some _ _ _ Hold) as (_ & _ & Ht & _).
  split; [done|]. pose proof (proj1 (removable_elem _ _ _) Hr) as [Hi [Hro|(Hk & _)]].
  { exfalso. revert Hro. unfold removal_of. rewrite Hc. by destruct (held _ _). }
  cbn in Hk. apply negb_true_iff in Hk. destruct (updating_false _ _ Hk) as (ops & -> & -> & Hq).
  exists ops. do 3 (split; [done|]). intros o Ho E. pose proof (previous_kept ops false o _ Ho E) as Hkept.
  apply Hkeep. unfold keep_of. cbn [fst snd].
  assert (matches (image r) (kept (cleanupState (Ok ops) false)) = true) as Hm by (unfold matches; by rewrite bool_decide_true).
  assert (c ∈ recorded (removal_facts config desktopImage (cleanupState (Ok ops) false) now images containers
                          (noted_tables config now images containers tables))) as Hrec.
  { apply recorded_elem. by exists (image r). }
  rewrite bool_decide_true by exact Hrec. apply elem_of_list_to_set, list_elem_of_fmap_2, elem_of_bfilter.
  split; [by apply candidates_elem|exact Hm].
Qed.

Lemma cleanup_tables input tables : ∃ rows,
  t_deployments (cleanup input tables).1.2 = rows ∧
  (rows = t_deployments tables ∨ rows = forget_old (t_deployments tables)).
Proof.
  eexists. split; [done|]. unfold Cleanup.cleanup.
  destruct (if admits_sweep then _ else _) as [[e n] asked]. destruct (fold_left _ _ _) as [[k rows] retried].
  destruct admits_collect; [|by left]. unfold collect.
  destruct listContainers as [cs|]; [|by left]. destruct listImages as [imgs|]; [|by left].
  destruct (if buildCache _ then _ else _); by right.
Qed.
Notation is_image := (λ a, match a with AskImage _ => true | AskContainer _ _ => false end).

Lemma no_images (l : list Asked) : (∀ a, a ∈ l → ∃ id vols, a = AskContainer id vols) → List.filter is_image l = [].
Proof.
  induction l as [|a l IH]; cbn; intros H; [done|]. destruct (H a) as (id & vols & ->); [left|].
  apply IH. intros b Hb. apply H. by right.
Qed.

Lemma cleanup_image_count input tables : length (List.filter is_image (cleanup input tables).2) ≤ limit input.
Proof.
  unfold Cleanup.cleanup.
  destruct (if admits_sweep then _ else _) as [[e n] asked] eqn:Hs. destruct (fold_left _ _ _) as [[k rows] retried] eqn:Hr.
  destruct (if admits_collect then _ else _) as [[res t'] collected] eqn:Hc. cbn [snd].
  rewrite !List.filter_app, (no_images asked), (no_images retried); cbn [app].
  - destruct admits_collect; [|injection Hc as <- <- <-; cbn; lia]. unfold collect in Hc.
    destruct listContainers as [cs|]; [|injection Hc as <- <- <-; cbn; lia].
    destruct listImages as [imgs|]; [|injection Hc as <- <- <-; cbn; lia].
    assert (collected = (λ r, AskImage (Id (image r))) <$> to_remove input imgs cs (MkTables (t_images tables) (t_deployments tables) rows)) as ->
      by (revert Hc; unfold Cleanup.to_remove; destruct (if buildCache _ then _ else _); by intros [= <- <- <-]).
    etrans; [apply List.filter_length_le|]. rewrite length_fmap. unfold Cleanup.to_remove, chosen. rewrite length_take. lia.
  - intros a Ha. change retried with ((k, rows, retried).2) in Ha. rewrite <-Hr in Ha.
    apply retry_asks in Ha as [H|(l & _ & ->)]; [in_nil H|by eexists _, _].
  - intros a Ha. destruct admits_sweep; [|injection Hs as <- <- <-; in_nil Ha].
    change asked with ((e, n, asked).2) in Ha. rewrite <-Hs in Ha. apply sweep_asks in Ha as (_ & cs & c & _ & -> & _). by eexists _, _.
Qed.
End Whole.

(** Forgetting deployments keeps their images' reasons to stay. *)
Lemma forget_old_kept rows :
  keptDeployments (forget_old rows) = keptDeployments rows ∧ keptDeploymentImages (forget_old rows) = keptDeploymentImages rows.
Proof.
  rewrite forget_old_eq. split; [apply kept_of_kept|]. unfold keptDeploymentImages. rewrite kept_of_kept. f_equal. f_equal.
  rewrite filter_filter. apply List.filter_ext. intros row. by destruct (bool_decide _).
Qed.

(** A cleanup leaves updates alone. Each container it asks Docker to
    remove is a recorded leftover, or, while no update runs, one that does not
    run: an update's helper, or a container set aside whose replacement, of
    the name it had, runs. Each old image of Hearth or the Relay it asks for
    has no tag, and no update runs, none of whose records could not be read;
    and it is not the image its component ran before its last successful
    update. *)
Theorem cleanup_spares_updates config listContainers images desktopImage finished_at pruneBuildCache answer operations busy now
    admits_sweep admits_collect admits_retry input tables a :
  NoDup (Id <$> images) →
  a ∈ (cleanup config listContainers (Ok images) desktopImage finished_at pruneBuildCache answer (cleanupState operations busy) now
         admits_sweep admits_collect admits_retry input tables).2 →
  match a with
  | AskContainer id vols =>
      (∃ leftover, leftover ∈ t_leftovers tables ∧ containerId leftover = id ∧ volumes leftover = vols) ∨
      quiet operations busy ∧ vols = false ∧ ∃ containers c, listContainers = Ok containers ∧ c_Id c = id ∧
        left_by_update containers c
  | AskImage id =>
      ∀ i c, i ∈ images → Id i = id → kilnComponent (label i COMPONENT_LABEL) = Some c →
        tagged i = false ∧ ∃ ops, operations = Ok ops ∧ busy = false ∧ (∀ o, o ∈ ops → status o ≠ URunning) ∧
          ∀ o, last_update ops o → previousImageId o ≠ Some id
  end.
Proof.
  intros Hn [H|[(l & Hl & ->)|[rows H]]]%cleanup_asks; [| left; by exists l|].
  - apply sweep_asks in H as (Hq & cs & c & -> & -> & Hc). right. split; [done|]. split; [done|]. by exists cs, c.
  - apply collect_asks in H as (cs & imgs & r & -> & [= <-] & -> & Hr). intros i c Hi E Hc.
    assert (i = image r) as ->.
    { apply (NoDup_fmap_eq Id images); [done..| |done]. by apply to_remove_elem, removed_not_held in Hr as [? _]. }
    by eapply component_removed.
Qed.

(** A cleanup forgets no deployment worth keeping. Whatever Docker lists
    and answers, the deployments whose images are kept are the same after it
    as before, though it forgets the rows of the others; and it never asks
    for an image they or a listed container run, nor for more images than its
    limit. *)
Theorem cleanup_keeps_deployments config listContainers listImages desktopImage finished_at pruneBuildCache answer operations busy now
    admits_sweep admits_collect admits_retry input tables :
  let run := cleanup config listContainers listImages desktopImage finished_at pruneBuildCache answer
               (cleanupState operations busy) now admits_sweep admits_collect admits_retry input tables in
  keptDeployments (t_deployments run.1.2) = keptDeployments (t_deployments tables) ∧
  keptDeploymentImages (t_deployments run.1.2) = keptDeploymentImages (t_deployments tables) ∧
  (∀ id, AskImage id ∈ run.2 →
     id ∉ keptDeploymentImages (t_deployments run.1.2) ∧
     ∀ containers c, listContainers = Ok containers → c ∈ containers → c_ImageID c ≠ Some id) ∧
  length (List.filter (λ a, match a with AskImage _ => true | AskContainer _ _ => false end) run.2) ≤ limit input.
Proof.
  intros run. destruct (cleanup_tables config listContainers listImages desktopImage finished_at pruneBuildCache answer operations busy now
    admits_sweep admits_collect admits_retry input tables) as (rows & Hrows & Hcase).
  assert (keptDeployments (t_deployments run.1.2) = keptDeployments (t_deployments tables) ∧
          keptDeploymentImages (t_deployments run.1.2) = keptDeploymentImages (t_deployments tables)) as [Hk Hki].
  { unfold run. rewrite Hrows. destruct Hcase as [->| ->]; [done|]. apply forget_old_kept. }
  split; [done|]. split; [done|]. split.
  - intros id [H|[(l & Hl & [=])|[ls H]]]%cleanup_asks.
    + by apply sweep_asks in H as (_ & cs & c & _ & [=] & _).
    + apply collect_asks in H as (cs & imgs & r & -> & -> & [= ->] & Hr).
      apply to_remove_elem, removed_not_held in Hr as [_ Hh]. apply held_false in Hh as (Hc & Hkept & _). cbn in Hc, Hkept.
      rewrite Hki. split; [done|]. by intros ? c [= <-] ?; apply Hc.
  - apply cleanup_image_count.
Qed.

(** ** A pass after a Relay's update *)

Definition sample_update : UpdateOperation :=
  MkUpdate None Relay "u1" (Some "relay1") None "relay3" 7 USucceeded "relay".

Definition sample_hosted : list DockerContainerSummary :=
  [MkContainer "c1" (Some "relay3") (Some {[COMPONENT_LABEL := "relay"]}) ["/relay"] "running";
   MkContainer "c2" (Some "relay1") (Some {[COMPONENT_LABEL := "relay"]}) ["/relay-kiln-backup-17"] "exited"].

Definition sample_config : RelayConfig := MkConfig None false None "relay" "kiln.server.id".

Definition sample_tables : Tables := MkTables [MkRecord "relay2" "relay" 0] [MkDeployed "a" "d1" 5 "app2"] [].

Definition sample_run : DockerCleanupResult * Tables * list Asked :=
  cleanup sample_config (Ok sample_hosted) (Ok sample_images) None (λ _, None) (Ok None) (λ _, Gone)
    (cleanupState (Ok [sample_update]) false) (2 * BUILD_GRACE_MS) true true (λ _, true)
    (MkInput 50 (MkRequest false false) BUILD_GRACE_MS None) sample_tables.

Example sample_asked : sample_run.2 = [AskContainer "c2" false; AskImage "app1"; AskImage "relay2"].
Proof. vm_compute. reflexivity. Qed.

Example cleanup_spares_updates_witness :
  AskImage "relay2" ∈ sample_run.2 ∧
  ∃ ops, Ok [sample_update] = Ok (E := string) ops ∧ ∀ o, last_update ops o → Cleanup.previousImageId o ≠ Some "relay2".
Proof.
  assert (AskImage "relay2" ∈ sample_run.2) as H by (rewrite sample_asked; right; right; left).
  split; [exact H|]. assert (NoDup (Id <$> sample_images)) as Hn by (apply (bool_decide_eq_true_1 _); vm_compute; reflexivity).
  pose proof (cleanup_spares_updates _ _ _ _ _ _ _ (Ok [sample_update]) false _ _ _ _ _ _ _ Hn H) as Hs.
  destruct (Hs (sample_image "relay2" [(COMPONENT_LABEL, "relay")] 20 []) Relay) as (_ & ops & E & _ & _ & Ho).
  - right. right. right. left.
  - reflexivity.
  - vm_compute. reflexivity.
  - exists ops. split; [exact E|exact Ho].
Defined.
