(* ===== verification/Volumes.v ===== *)
(** * Docker volumes as the Relay sees them

    Models what [apps/relay/src/volumes.ts] makes of Docker's answers: which
    volumes are Kiln's, which an App's Compose project made, what mounts and
    uses each, what no backup covers, and the name a new volume gets. The
    operations that ask Docker and the state store are in
    [VolumeOperations].

    [nfkd_lower] is [normalize("NFKD").toLowerCase()], and [locale] is
    [localeCompare], negative, zero or positive; Unicode's tables are the
    runtime's. Object keys that every JavaScript object inherits are not
    considered. *)
From Stdlib Require Import Ascii.
From S2P Require Import Prelude AppKeys Images Cleanup.

(** ** What Docker lists *)

Record DockerMount := MkMount {
  Destination : string;
  m_Name : option string;
  RW : bool;
  Source : string;
  Type_ : option string;
}.

Record Container := MkMounting { summary : DockerContainerSummary; Mounts : list DockerMount }.

Record DockerVolume := MkVolume {
  v_CreatedAt : option string;
  v_Labels : option (gmap string string);
  Mountpoint : option string;
  v_Name : string;
}.

#[global] Instance DockerVolume_eq_dec : EqDecision DockerVolume.
Proof. solve_decision. Defined.

Definition KIND_LABEL : string := "kiln.resource.kind".
Definition VOLUME_KIND : string := "volume".
Definition ID_LABEL : string := "kiln.volume.id".
Definition NAME_LABEL : string := "kiln.volume.name".
Definition APP_ID_LABEL : string := "kiln.app.id".
Definition APP_SERVICE_LABEL : string := "kiln.app.service".
Definition COMPOSE_PROJECT_LABEL : string := "com.docker.compose.project".
Definition COMPOSE_VOLUME_LABEL : string := "com.docker.compose.volume".

Definition v_label (volume : DockerVolume) (name : string) : option string := default ∅ (v_Labels volume) !! name.
Definition labels_of (container : Container) : gmap string string := default ∅ (c_Labels (summary container)).

(** ** The App that made a volume *)

Record AppVolumeOwner := MkVolumeOwner { o_appId : string; o_volume : string; rolled : bool }.

#[global] Instance AppVolumeOwner_eq_dec : EqDecision AppVolumeOwner.
Proof. solve_decision. Defined.

(** [^([a-f0-9]{40})(-\d{14})?$] *)
Definition project_pattern (s : string) : option (string * bool) :=
  if resourceIdPattern (str_take 40 s) then
    match str_drop 40 s with
    | EmptyString => Some (str_take 40 s, false)
    | String c digits =>
        if bool_decide (c = "-"%char) && (String.length digits =? 14)%nat && str_all is_digit digits
        then Some (str_take 40 s, true) else None
    end
  else None.

Definition appVolumeOwner (config : RelayConfig) (labels : option (gmap string string)) : option AppVolumeOwner :=
  match labels with
  | None => None
  | Some labels =>
      if decide (labels !! KIND_LABEL = Some VOLUME_KIND) then None
      else
        match truthy (labels !! COMPOSE_PROJECT_LABEL), labels !! COMPOSE_VOLUME_LABEL with
        | Some project, Some volume =>
            if name_pattern 127 volume then
              match strip_prefix (resource_name config "kiln-app-") project with
              | Some rest => (λ m, MkVolumeOwner m.1 volume m.2) <$> project_pattern rest
              | None => None
              end
            else None
        | _, _ => None
        end
  end.

(** ** What mounts a volume *)

Inductive MountKind := MApp | MDatabase | MInstance | MRelay | MOther.

#[global] Instance MountKind_eq_dec : EqDecision MountKind.
Proof. solve_decision. Defined.

Record RelayVolumeMount := MkRelayMount {
  rm_container : string;
  rm_destination : string;
  rm_kind : MountKind;
  readOnly : bool;
  resourceId : option string;
  running : bool;
}.

Definition volumeContainerName (container : Container) : string :=
  match c_Names (summary container) with
  | name :: _ => default name (strip_prefix "/" name)
  | [] => c_Id (summary container)
  end.

(** [ownContainer] is what the environment calls the Relay's own host, if
    anything. *)
Definition containerResource (container : Container) (ownContainer : option string) : MountKind * option string :=
  let labels := labels_of container in
  let own := match truthy ownContainer with
             | Some own => bool_decide (is_Some (strip_prefix own (c_Id (summary container))))
             | None => false
             end in
  if own then (MRelay, None)
  else if decide (labels !! KIND_LABEL = Some "app") then (MApp, labels !! APP_ID_LABEL)
  else if decide (labels !! KIND_LABEL = Some "database") then (MDatabase, labels !! "kiln.database.id")
  else match truthy (labels !! "kiln.server.id") with
       | Some server => (MInstance, Some server)
       | None => (MOther, None)
       end.

(** The name of the volume a mount mounts. *)
Definition mount_volume (mount : DockerMount) : option string :=
  if decide (Type_ mount = Some "volume") then truthy (m_Name mount) else None.

Definition relay_mount (ownContainer : option string) (container : Container) (mount : DockerMount) : RelayVolumeMount :=
  let '(kind, resource) := containerResource container ownContainer in
  MkRelayMount (volumeContainerName container) (Destination mount) kind (negb (RW mount)) resource
    (bool_decide (c_State (summary container) = "running")).

Definition add_mount (ownContainer : option string) (container : Container)
    (mounts : gmap string (list RelayVolumeMount)) (mount : DockerMount) : gmap string (list RelayVolumeMount) :=
  match mount_volume mount with
  | None => mounts
  | Some name => <[name := default [] (mounts !! name) ++ [relay_mount ownContainer container mount]]> mounts
  end.

Definition volumeMounts (containers : list Container) (ownContainer : option string)
    : gmap string (list RelayVolumeMount) :=
  fold_left (λ mounts container, fold_left (add_mount ownContainer container) (Mounts container) mounts) containers ∅.

(** ** Who uses a volume *)

Record RelayVolumeUser := MkUser { u_appId : string; u_configured : bool; u_mounted : bool }.

Definition mounting_app (mount : RelayVolumeMount) : option string :=
  if decide (rm_kind mount = MApp) then truthy (resourceId mount) else None.

Definition volumeUsers (configuredBy : list string) (mounts : list RelayVolumeMount) : list RelayVolumeUser :=
  let mounted := js_distinct (omap mounting_app mounts) in
  let configured := js_distinct configuredBy in
  (λ appId, MkUser appId (bool_decide (appId ∈ configured)) (bool_decide (appId ∈ mounted))) <$>
  stable_sort String.leb (js_distinct (configured ++ mounted)).

Inductive VolumeKind := VApp | VKiln | VRelay.

Record RelayVolume := MkRelayVolume {
  rv_createdAt : option string;
  dockerName : string;
  rv_id : option string;
  rv_kind : VolumeKind;
  rv_mountpoint : option string;
  rv_mounts : list RelayVolumeMount;
  rv_name : string;
  rv_owner : option (string * string);
  sizeBytes : option Z;
  users : list RelayVolumeUser;
}.

(** Without its size. *)
Definition volumeView (volume : DockerVolume) (mounts : gmap string (list RelayVolumeMount)) (id : option string)
    (kind : VolumeKind) (name : string) (owner : option (string * string)) (configuredBy : list string) : RelayVolume :=
  let mounted := default [] (mounts !! v_Name volume) in
  MkRelayVolume (v_CreatedAt volume) (v_Name volume) id kind (Mountpoint volume) mounted name owner None
    (volumeUsers configuredBy mounted).

(** ** What no backup covers *)

Inductive UncoveredKind := UAnonymous | UBind | UVolume.

#[global] Instance UncoveredKind_eq_dec : EqDecision UncoveredKind.
Proof. solve_decision. Defined.

Record RelayUncoveredMount := MkUncovered {
  un_appId : string;
  un_container : string;
  un_destination : string;
  un_kind : UncoveredKind;
  un_service : string;
  un_source : string;
}.

(** The App a container of this Relay's is, by its labels. *)
Definition app_of (config : RelayConfig) (container : Container) : option string :=
  let labels := labels_of container in
  if decide (labels !! KIND_LABEL = Some "app") then
    match labels !! APP_ID_LABEL with
    | Some appId => if resourceIdPattern appId && relayOwnsLabels config labels then Some appId else None
    | None => None
    end
  else None.

(** [join], for a host folder that is absolute and ends with no slash. *)
Definition kept_folders (host appId : string) : list string :=
  (λ folder, host +:+ "/" +:+ folder +:+ "/" +:+ appId) <$> ["apps"; "app-mounts"; "app-sources"].

Definition within (path folder : string) : bool :=
  bool_decide (path = folder) || bool_decide (is_Some (strip_prefix (folder +:+ "/") path)).

Definition anonymous_name (name : string) : bool := (String.length name =? 64)%nat && str_all is_hex name.

Definition uncovered_source (managed : gset string) (kept : list string) (mount : DockerMount)
    : option (UncoveredKind * string) :=
  match mount_volume mount with
  | Some name =>
      if decide (name ∈ managed) then None
      else Some (if anonymous_name name then UAnonymous else UVolume, name)
  | None =>
      if decide (Type_ mount = Some "bind") then
        if existsb (within (Source mount)) kept then None else Some (UBind, Source mount)
      else None
  end.

Definition uncovered_of (config : RelayConfig) (managed : gset string) (host : string) (container : Container)
    : list RelayUncoveredMount :=
  match app_of config container with
  | None => []
  | Some appId =>
      omap (λ mount,
        (λ found, MkUncovered appId (volumeContainerName container) (Destination mount) found.1
                    (default "app" (labels_of container !! APP_SERVICE_LABEL)) found.2)
        <$> uncovered_source managed (kept_folders host appId) mount) (Mounts container)
  end.

Definition uncoveredMounts (config : RelayConfig) (containers : list Container) (managed : gset string)
    (host : string) : list RelayUncoveredMount :=
  containers ≫= uncovered_of config managed host.

(** ** Names of new volumes *)

Definition slug_char (c : ascii) : bool := is_digit c || is_lower c.

(** [replace(/[^a-z0-9]+/gu, "-")]; [dashed] is whether a run is under way. *)
Fixpoint dash_runs (dashed : bool) (s : string) : string :=
  match s with
  | EmptyString => EmptyString
  | String c s =>
      if slug_char c then String c (dash_runs false s)
      else if dashed then dash_runs true s else String "-"%char (dash_runs true s)
  end.

(** [replace(/^-+/u, "")] *)
Fixpoint trim_dashes (s : string) : string :=
  match s with
  | String c rest => if decide (c = "-"%char) then trim_dashes rest else s
  | EmptyString => EmptyString
  end.

(** [replace(/-+$/u, "")] *)
Fixpoint trim_end_dashes (s : string) : string :=
  match s with
  | EmptyString => EmptyString
  | String c rest =>
      let rest := trim_end_dashes rest in
      if decide (c = "-"%char ∧ rest = EmptyString) then EmptyString else String c rest
  end.

Definition relayVolumeSlug (nfkd_lower : string → string) (name : string) : string :=
  let slug := trim_end_dashes (str_take 40 (trim_dashes (dash_runs false (nfkd_lower name)))) in
  if decide (slug = "") then "volume" else slug.

Definition volume_dockerName (nfkd_lower : string → string) (config : RelayConfig) (id name : string) : string :=
  match truthy (resourceNamespace config) with
  | Some namespace => namespace +:+ "-"
  | None => ""
  end +:+ "kiln-" +:+ str_take 8 id +:+ "-" +:+ relayVolumeSlug nfkd_lower name.

(** [^[a-f0-9]{40}$] on the ID's label, among volumes Docker lists as Kiln's. *)
Definition kiln_volumes (config : RelayConfig) (listed : list DockerVolume) : list DockerVolume :=
  List.filter (λ volume, relayOwnsLabels config (default ∅ (v_Labels volume)) &&
                         resourceIdPattern (default "" (v_label volume ID_LABEL))) listed.

Definition volume_with_id (volumes : list DockerVolume) (id : string) : option DockerVolume :=
  List.find (λ volume, bool_decide (v_label volume ID_LABEL = Some id)) volumes.

Definition relayVolumeDockerName (config : RelayConfig) (listed : list DockerVolume) : option string :=
  v_Name <$> List.find (λ volume, relayOwnsLabels config (default ∅ (v_Labels volume))) listed.

(** ** The volumes Apps' projects made *)

Definition appVolumeId (appId name : string) : string := appId +:+ "/" +:+ name.

Section OwnedVolumes.
Context (locale : string → string → Z) (mounts : gmap string (list RelayVolumeMount)).

Definition Candidate : Type := AppVolumeOwner * DockerVolume.

Definition candidate_id (c : Candidate) : string := appVolumeId (o_appId c.1) (o_volume c.1).

(** Whether a container of the App that owns it mounts the candidate. *)
Definition mounted_by_owner (c : Candidate) : bool :=
  existsb (λ mount, bool_decide (rm_kind mount = MApp ∧ resourceId mount = Some (o_appId c.1)))
    (default [] (mounts !! v_Name c.2)).

Definition rank (c : Candidate) : Z * Z := (if mounted_by_owner c then 0 else 1, if rolled c.1 then 1 else 0)%Z.

(** Negative when [left] comes first. *)
Definition compare_candidates (left right : Candidate) : Z :=
  let '(leftMounted, leftRolled) := rank left in
  let '(rightMounted, rightRolled) := rank right in
  if decide (leftMounted - rightMounted ≠ 0)%Z then leftMounted - rightMounted
  else if decide (leftRolled - rightRolled ≠ 0)%Z then leftRolled - rightRolled
  else locale (default "" (v_CreatedAt right.2)) (default "" (v_CreatedAt left.2)).

Fixpoint give_ids (taken : gset string) (ordered : list Candidate) : list (option string * Candidate) :=
  match ordered with
  | [] => []
  | c :: rest =>
      if decide (candidate_id c ∈ taken) then (None, c) :: give_ids taken rest
      else (Some (candidate_id c), c) :: give_ids ({[candidate_id c]} ∪ taken) rest
  end.

Definition ownedVolumes (config : RelayConfig) (volumes : list DockerVolume) : list (option string * Candidate) :=
  let candidates := omap (λ volume, (λ owner, (owner, volume)) <$> appVolumeOwner config (v_Labels volume)) volumes in
  give_ids ∅ (stable_sort (λ left right, (compare_candidates left right <=? 0)%Z) candidates).
End OwnedVolumes.
