(* ===== verification/VolumeStore.v ===== *)
(** * What the state store keeps of volumes

    Models the statements of [apps/relay/src/effect/state.ts] on the names
    volumes are shown by, the Hearths paired with the Relay, the volumes
    Apps' configurations name, and the imports that say so. Each is one
    transaction: one that fails changes nothing. An import's time is left
    out, which nothing here reads. *)
From S2P Require Import Prelude.

Record Client := MkClient { cl_id : string; cl_name : string; revoked : bool }.

(** A client, one of its Apps, and a volume that App's configuration names. *)
Definition Reference : Type := string * string * string.

Record ReferenceImport := MkImport { connectionId : string; unresolvedAppIds : list string }.

Record VolumeTables := MkVolumeTables {
  vt_clients : list Client;
  vt_names : gmap string string;
  vt_references : gset Reference;
  vt_imports : gmap string ReferenceImport;
}.

Definition no_volume_rows : VolumeTables := MkVolumeTables [] ∅ ∅ ∅.

Definition set_names (names : gmap string string) (T : VolumeTables) : VolumeTables :=
  MkVolumeTables (vt_clients T) names (vt_references T) (vt_imports T).
Definition set_references (rows : gset Reference) (T : VolumeTables) : VolumeTables :=
  MkVolumeTables (vt_clients T) (vt_names T) rows (vt_imports T).
Definition set_imports (imports : gmap string ReferenceImport) (T : VolumeTables) : VolumeTables :=
  MkVolumeTables (vt_clients T) (vt_names T) (vt_references T) imports.
Definition set_clients (clients : list Client) (T : VolumeTables) : VolumeTables :=
  MkVolumeTables clients (vt_names T) (vt_references T) (vt_imports T).

(** ** Clients *)

Definition listClients (T : VolumeTables) : list Client := List.filter (λ client, negb (revoked client)) (vt_clients T).

(** Once its invitation and its key were found good. *)
Definition pairClient (id name : string) (T : VolumeTables) : VolumeTables :=
  set_clients
    (if existsb (λ client, bool_decide (cl_id client = id)) (vt_clients T)
     then (λ client, if decide (cl_id client = id) then MkClient id name false else client) <$> vt_clients T
     else vt_clients T ++ [MkClient id name false]) T.

Definition revokeClient (id : string) (T : VolumeTables) : VolumeTables :=
  set_clients ((λ client, if decide (cl_id client = id) then MkClient id (cl_name client) true else client)
                 <$> vt_clients T) T.

(** ** Names *)

Definition setVolumeName (volumeId name : string) (T : VolumeTables) : VolumeTables :=
  set_names (<[volumeId := name]> (vt_names T)) T.

Definition deleteVolumeName (volumeId : string) (T : VolumeTables) : VolumeTables :=
  set_names (delete volumeId (vt_names T)) T.

(** ** References and imports *)

(** The primary key is the whole row, so one that is there fails. *)
Definition insert_reference (row : Reference) (rows : gset Reference) : Result string (gset Reference) :=
  guard! negb (bool_decide (row ∈ rows)) else "UNIQUE constraint failed" in Ok ({[row]} ∪ rows).

Definition insertAppVolumeReferences (clientId appId : string) (volumeIds : list string) (rows : gset Reference)
    : Result string (gset Reference) :=
  result_fold (λ rows volumeId, insert_reference (clientId, appId, volumeId) rows) (js_distinct volumeIds) rows.

(** Takes Apps off what a Hearth still owes, or off every Hearth's. *)
Definition resolveAppVolumeReferences (clientId : option string) (appIds : list string) (T : VolumeTables)
    : VolumeTables :=
  set_imports
    (map_imap (λ client row,
       Some (match clientId with
             | Some id => if decide (id = client)
                          then MkImport (connectionId row) (filter (λ app, app ∉ appIds) (unresolvedAppIds row))
                          else row
             | None => MkImport (connectionId row) (filter (λ app, app ∉ appIds) (unresolvedAppIds row))
             end)) (vt_imports T)) T.

Definition forget_references (clientId appId : string) (T : VolumeTables) : VolumeTables :=
  set_references (filter (λ row, ¬ (row.1.1 = clientId ∧ row.1.2 = appId)) (vt_references T)) T.

Definition replaceAppVolumeReferences (clientId appId : string) (volumeIds : list string) (T : VolumeTables)
    : Result string VolumeTables :=
  let T := forget_references clientId appId T in
  let! rows := insertAppVolumeReferences clientId appId volumeIds (vt_references T) in
  Ok (resolveAppVolumeReferences (Some clientId) [appId] (set_references rows T)).

Definition importAppVolumeReferences (clientId connection : string) (apps : list (string * list string))
    (unresolved : list string) (T : VolumeTables) : Result string VolumeTables :=
  let kept := filter (λ row, row.1.1 ≠ clientId) (vt_references T) in
  let! rows := result_fold (λ rows app, insertAppVolumeReferences clientId app.1 app.2 rows) apps kept in
  Ok (set_imports (<[clientId := MkImport connection (js_distinct unresolved)]> (vt_imports T))
        (set_references rows T)).

Definition deleteAppVolumeReferences (clientId appId : string) (T : VolumeTables) : VolumeTables :=
  resolveAppVolumeReferences (Some clientId) [appId] (forget_references clientId appId T).

Definition holdVolumeReferenceImport (clientId : string) (T : VolumeTables) : VolumeTables :=
  set_imports (delete clientId (vt_imports T)) T.
