(* ===== verification/VolumeOperations.v ===== *)
(** * What the Relay does to volumes

    Models the class [RelayVolumes] of [apps/relay/src/volumes.ts], each
    operation as a program [Op]: what it asks Docker and the state store for,
    several at once where the code does, what it reads and writes in memory
    between, and where it enters and leaves the gate that orders deletions and
    imports with holds. [VolumeWorld] runs them, interleaved.

    A program that fails inside the gate leaves it as it ends. [list] only
    shows what there is, so it is a function of what was read. *)
From stdpp Require Import pretty.
From S2P Require Import Prelude AppKeys Images Cleanup.
From S2P Require Import Volumes VolumeStore.

(** ** Asking *)

Inductive Ask :=
  | ListVolumes (filter : string)
  | ListContainers
  | ListNetworks (filter : string)
  | CreateVolume (name : string) (labels : gmap string string)
  | RemoveVolume (name : string)
  | ReadClients
  | ReadImports
  | ReadReferences
  | ReadNames
  | WriteName (volumeId name : string)
  | DropName (volumeId : string)
  | Replace (clientId appId : string) (volumeIds : list string)
  | Import (clientId connection : string) (apps : list (string * list string)) (unresolved : list string)
  | DropReferences (clientId appId : string)
  | HoldImport (clientId : string).

Definition answer (ask : Ask) : Type :=
  match ask with
  | ListVolumes _ => list DockerVolume
  | ListContainers => list Container
  | ListNetworks _ => list (option (gmap string string))
  | CreateVolume _ _ => DockerVolume
  | ReadClients => list Client
  | ReadImports => gmap string ReferenceImport
  | ReadReferences => list Reference
  | ReadNames => gmap string string
  | _ => unit
  end.

(** What Docker answers, and what it is to an ask of that kind. *)
Inductive DockerAnswer :=
  | Volumes (volumes : list DockerVolume)
  | Containers (containers : list Container)
  | Networks (networks : list (option (gmap string string)))
  | Created (volume : DockerVolume)
  | Removed.

Definition docker_answer (ask : Ask) (given : DockerAnswer) : option (answer ask) :=
  match ask, given return option (answer ask) with
  | ListVolumes _, Volumes volumes => Some volumes
  | ListContainers, Containers containers => Some containers
  | ListNetworks _, Networks networks => Some networks
  | CreateVolume _ _, Created volume => Some volume
  | RemoveVolume _, Removed => Some tt
  | _, _ => None
  end.

(** What the store answers, and what it holds then. *)
Definition store_answer (ask : Ask) (T : VolumeTables) : option (Result string (VolumeTables * answer ask)) :=
  match ask return option (Result string (VolumeTables * answer ask)) with
  | ReadClients => Some (Ok (T, listClients T))
  | ReadImports => Some (Ok (T, vt_imports T))
  | ReadReferences => Some (Ok (T, elements (vt_references T)))
  | ReadNames => Some (Ok (T, vt_names T))
  | WriteName volumeId name => Some (Ok (setVolumeName volumeId name T, tt))
  | DropName volumeId => Some (Ok (deleteVolumeName volumeId T, tt))
  | Replace clientId appId volumeIds =>
      Some (let! T := replaceAppVolumeReferences clientId appId volumeIds T in Ok (T, tt))
  | Import clientId connection apps unresolved =>
      Some (let! T := importAppVolumeReferences clientId connection apps unresolved T in Ok (T, tt))
  | DropReferences clientId appId => Some (Ok (deleteAppVolumeReferences clientId appId T, tt))
  | HoldImport clientId => Some (Ok (holdVolumeReferenceImport clientId T, tt))
  | _ => None
  end.

(** Several asks at once, answered in any order. *)
Inductive Reads := One (ask : Ask) | Both (l r : Reads).

Fixpoint results (reads : Reads) : Type :=
  match reads with One ask => answer ask | Both l r => results l * results r end.

Fixpoint partial (reads : Reads) : Type :=
  match reads with One ask => option (answer ask) | Both l r => partial l * partial r end.

Fixpoint unanswered (reads : Reads) : partial reads :=
  match reads with One _ => None | Both l r => (unanswered l, unanswered r) end.

Fixpoint complete (reads : Reads) : partial reads → option (results reads) :=
  match reads return partial reads → option (results reads) with
  | One _ => λ got, got
  | Both l r => λ got,
      match complete l got.1, complete r got.2 with
      | Some xs, Some ys => Some (xs, ys)
      | _, _ => None
      end
  end.

(** ** Memory and programs *)

Record Sizes := MkSizes {
  covered : gset string;
  measuredAt : Z;
  values : gmap string Z;
}.

Record Memory := MkMemory {
  connections : gmap string string;
  held : gmap string string;
  appMountpoints : gmap (string * string) (Z * string);
  appMountpointsEpoch : Z;
  sizes : Sizes;
  measureFailedAt : Z;
  measuring : bool;
}.

Definition empty_memory : Memory := MkMemory ∅ ∅ ∅ 0 (MkSizes ∅ 0 ∅) 0 false.

Definition set_connections (c : gmap string string) (M : Memory) : Memory :=
  MkMemory c (held M) (appMountpoints M) (appMountpointsEpoch M) (sizes M) (measureFailedAt M) (measuring M).
Definition set_held (h : gmap string string) (M : Memory) : Memory :=
  MkMemory (connections M) h (appMountpoints M) (appMountpointsEpoch M) (sizes M) (measureFailedAt M) (measuring M).
Definition set_mountpoints (m : gmap (string * string) (Z * string)) (epoch : Z) (M : Memory) : Memory :=
  MkMemory (connections M) (held M) m epoch (sizes M) (measureFailedAt M) (measuring M).
Definition set_sizes (s : Sizes) (failedAt : Z) (running : bool) (M : Memory) : Memory :=
  MkMemory (connections M) (held M) (appMountpoints M) (appMountpointsEpoch M) s failedAt running.

Inductive Sharing := Shared | Alone.

#[global] Instance Sharing_eq_dec : EqDecision Sharing.
Proof. solve_decision. Defined.

Inductive Op (A : Type) : Type :=
  | Ret (a : A)
  | Fail (message : string)
  | Await (reads : Reads) (got : partial reads) (k : results reads → Op A)
  | Do (change : Z → Memory → Memory) (k : Z → Memory → Op A)
  | Enter (kind : Sharing) (k : Op A)
  | Leave (k : Op A).
Arguments Ret {A} a.
Arguments Fail {A} message.
Arguments Await {A} reads got k.
Arguments Do {A} change k.
Arguments Enter {A} kind k.
Arguments Leave {A} k.

Fixpoint op_bind {A B} (op : Op A) (h : A → Op B) : Op B :=
  match op with
  | Ret a => h a
  | Fail message => Fail message
  | Await reads got k => Await reads got (λ xs, op_bind (k xs) h)
  | Do change k => Do change (λ now M, op_bind (k now M) h)
  | Enter kind k => Enter kind (op_bind k h)
  | Leave k => Leave (op_bind k h)
  end.

Declare Scope op_scope.
Delimit Scope op_scope with op.
Notation "'let*' x ':=' op 'in' k" := (op_bind op (fun x => k))
  (at level 10, x pattern, op at level 100, k at level 200) : op_scope.
Open Scope op_scope.

Definition asks (reads : Reads) : Op (results reads) := Await reads (unanswered reads) Ret.
Definition asking (ask : Ask) : Op (answer ask) := asks (One ask).
Definition look {A} (read : Z → Memory → A) : Op A := Do (λ _ M, M) (λ now M, Ret (read now M)).
Definition change (f : Z → Memory → Memory) : Op unit := Do f (λ _ _, Ret tt).

(** [ReferenceGate.shared] and [ReferenceGate.alone]. *)
Definition in_gate {A} (kind : Sharing) (op : Op A) : Op A := Enter kind (op_bind op (λ a, Leave (Ret a))).

(** ** The operations *)

Definition SIZE_REFRESH_MS : Z := 60000.
Definition APP_MOUNTPOINT_TTL_MS : Z := 5000.
Definition APP_MOUNTPOINT_MAX_ENTRIES : nat := 256.
Definition RELAY_VOLUME_REFERENCES_PENDING : string := "The Relay doesn't know yet which Apps use its volumes".

Record Protection := MkProtection { ready : bool; reason : option string }.

(** What a paired Hearth still owes. *)
Definition owed (connections : gmap string string) (imports : gmap string ReferenceImport) (client : Client)
    : list string :=
  match connections !! cl_id client with
  | None => ["waiting for " +:+ cl_name client +:+ " to connect"]
  | Some connection =>
      match imports !! cl_id client with
      | Some entry =>
          if decide (connectionId entry = connection) then
            match length (unresolvedAppIds entry) with
            | 0 => []
            | 1 => [cl_name client +:+ " couldn't read an App's configuration"]
            | n => [cl_name client +:+ " couldn't read " +:+ pretty n +:+ " Apps' configurations"]
            end
          else ["waiting for " +:+ cl_name client +:+ " to send its Apps' configurations"]
      | None => ["waiting for " +:+ cl_name client +:+ " to send its Apps' configurations"]
      end
  end.

Definition protection_of (clients : list Client) (imports : gmap string ReferenceImport)
    (connections : gmap string string) : Protection :=
  match clients ≫= owed connections imports with
  | [] => MkProtection true None
  | reasons => MkProtection false (Some (String.concat "; " reasons))
  end.

Definition protection : Op Protection :=
  let* (clients, imports) := asks (Both (One ReadClients) (One ReadImports)) in
  look (λ _ M, protection_of clients imports (connections M)).

Inductive Reply :=
  | RVoid
  | RVolume (volume : RelayVolume)
  | RFound (volume : option RelayVolume)
  | RIds (ids : list string)
  | RMountpoint (path : string).

Record Inventory := MkInventory {
  iv_containers : list Container;
  iv_mounts : gmap string (list RelayVolumeMount);
  iv_volumes : list RelayVolume;
}.

Section Operations.
Context (config : RelayConfig) (ownContainer : option string)
  (nfkd_lower : string → string) (locale : string → string → Z).

Definition volumes : Op (list DockerVolume) :=
  let* listed := asking (ListVolumes (KIND_LABEL +:+ "=" +:+ VOLUME_KIND)) in
  Ret (kiln_volumes config listed).

Definition required (id : string) : Op DockerVolume :=
  let* found := volumes in
  match volume_with_id found id with
  | Some volume => Ret volume
  | None => Fail "Volume not found"
  end.

(** The Apps there are networks for. *)
Definition network_apps (networks : list (option (gmap string string))) : list string :=
  omap (λ labels, if relayOwnsLabels config (default ∅ labels) then truthy (default ∅ labels !! APP_ID_LABEL) else None)
    networks.

Definition configured_uses (references : list Reference) (clients : list Client)
    (networks : list (option (gmap string string))) : list Reference :=
  List.filter (λ use, bool_decide (use.1.1 ∈ cl_id <$> clients) && bool_decide (use.1.2 ∈ network_apps networks))
    references.

Definition use_reads : Reads :=
  Both (One ReadReferences) (Both (One ReadClients) (One (ListNetworks (KIND_LABEL +:+ "=app")))).

Definition configuredUses : Op (list Reference) :=
  let* (references, (clients, networks)) := asks use_reads in
  Ret (configured_uses references clients networks).

Definition plural (n : nat) (one many : string) : string := match n with 1 => one | _ => pretty n +:+ many end.

Definition configured_refusal (apps : list string) : string :=
  plural (length apps) "An App's configuration mounts this volume; remove it there first"
    " Apps' configurations mount this volume; remove it there first".

Definition mounted_refusal (mount : RelayVolumeMount) (mounts : list RelayVolumeMount) : string :=
  plural (length mounts) (rm_container mount +:+ " mounts this volume; remove it first")
    " containers mount this volume; remove them first".

Definition deletable (id : string) : Op DockerVolume :=
  let* volume := required id in
  let* known := protection in
  if ready known then
    let* uses := configuredUses in
    match js_distinct (omap (λ use : Reference, if decide (use.2 = id) then Some use.1.2 else None) uses) with
    | [] =>
        let* containers := asking ListContainers in
        match default [] (volumeMounts containers ownContainer !! v_Name volume) with
        | [] => Ret volume
        | mount :: mounts => Fail (mounted_refusal mount (mount :: mounts))
        end
    | apps => Fail (configured_refusal apps)
    end
  else Fail (RELAY_VOLUME_REFERENCES_PENDING +:+ ": " +:+ default "null" (reason known)).

Definition forgetAppMountpoints : Op unit :=
  change (λ _ M, set_mountpoints ∅ (appMountpointsEpoch M + 1) M).

Definition delete_volume (id : string) : Op Reply :=
  in_gate Shared (
    let* volume := deletable id in
    let* _ := asking (RemoveVolume (v_Name volume)) in
    let* _ := asking (DropName id) in
    let* _ := forgetAppMountpoints in
    Ret RVoid).

Definition requireDeletable (id : string) : Op Reply :=
  in_gate Shared (let* _ := deletable id in Ret RVoid).

Definition volume_labels (id name : string) : gmap string string :=
  let labels := <[KIND_LABEL := VOLUME_KIND]> (<[ID_LABEL := id]> {[NAME_LABEL := name]}) in
  match truthy (resourceNamespace config) with
  | Some namespace => <[RELAY_OWNER_LABEL := namespace]> labels
  | None => labels
  end.

Definition create (id name : string) : Op Reply :=
  let docker := volume_dockerName nfkd_lower config id name in
  let* found := volumes in
  if match volume_with_id found id with
     | Some existing => bool_decide (v_Name existing ≠ docker)
     | None => false
     end
  then Fail "Another volume already has this ID"
  else
    let* created := asking (CreateVolume docker (volume_labels id name)) in
    if decide (v_label created ID_LABEL = Some id) then
      let* _ := asking (WriteName id name) in
      Ret (RVolume (MkRelayVolume (v_CreatedAt created) docker (Some id) VKiln (Mountpoint created) [] name None None []))
    else Fail ("A volume named " +:+ docker +:+ " already exists").

Definition rename (id name : string) : Op Reply :=
  let* _ := required id in
  let* _ := asking (WriteName id name) in
  Ret RVoid.

(** ** The inventory *)

Definition kiln_view (mounts : gmap string (list RelayVolumeMount)) (names : gmap string string)
    (uses : list Reference) (volume : DockerVolume) : RelayVolume :=
  let id := v_label volume ID_LABEL in
  let named := match truthy id with Some id => names !! id | None => None end in
  let configured := match truthy id with
                    | Some id => omap (λ use : Reference, if decide (use.2 = id) then Some use.1.2 else None) uses
                    | None => []
                    end in
  volumeView volume mounts id VKiln
    (default (default (v_Name volume) (v_label volume NAME_LABEL)) named) None configured.

Definition app_view (mounts : gmap string (list RelayVolumeMount)) (owned : option string * Candidate) : RelayVolume :=
  let '(id, (owner, volume)) := owned in
  volumeView volume mounts id VApp (o_volume owner) (Some (o_appId owner, o_volume owner)) [].

Definition inventory_reads : Reads :=
  Both (One (ListVolumes (KIND_LABEL +:+ "=" +:+ VOLUME_KIND)))
  (Both (One (ListVolumes COMPOSE_PROJECT_LABEL))
  (Both (One ListContainers) (Both (One ReadNames) use_reads))).

Definition inventory_of (xs : results inventory_reads) : Inventory :=
  let '(listed, (composed, (containers, (names, (references, (clients, networks)))))) := xs in
  let mounts := volumeMounts containers ownContainer in
  let uses := configured_uses references clients networks in
  MkInventory containers mounts
    ((kiln_view mounts names uses <$> kiln_volumes config listed) ++
     (app_view mounts <$> ownedVolumes locale mounts config composed)).

Definition inventory : Op Inventory :=
  let* xs := asks inventory_reads in
  Ret (inventory_of xs).

(** Whether an App owns or uses a volume. *)
Definition app_uses (appId : string) (volume : RelayVolume) : bool :=
  bool_decide (fst <$> rv_owner volume = Some appId) || existsb (λ user, bool_decide (u_appId user = appId)) (users volume).

Definition find_in (id : string) (inventory : Inventory) : option RelayVolume :=
  List.find (λ volume, bool_decide (rv_id volume = Some id)) (iv_volumes inventory).

Definition find (id : string) : Op Reply :=
  let* inventory := inventory in
  Ret (RFound (find_in id inventory)).

Definition appVolumeIds (appId : string) : Op Reply :=
  let* inventory := inventory in
  Ret (RIds (omap (λ volume, if app_uses appId volume then rv_id volume else None) (iv_volumes inventory))).

Definition ownedAppVolumeIds (appId : string) : Op Reply :=
  let* inventory := inventory in
  Ret (RIds (omap (λ volume, if decide (fst <$> rv_owner volume = Some appId) then rv_id volume else None)
               (iv_volumes inventory))).

Definition idsByDockerName (dockerNames : list string) : Op Reply :=
  let* inventory := inventory in
  Ret (RIds (omap (λ volume, if decide (dockerName volume ∈ dockerNames) then rv_id volume else None)
               (iv_volumes inventory))).

Definition remember (appId id path : string) (epoch : Z) (now : Z) (M : Memory) : Memory :=
  if decide (epoch = appMountpointsEpoch M) then
    let known := if decide (APP_MOUNTPOINT_MAX_ENTRIES ≤ size (appMountpoints M))%nat then ∅ else appMountpoints M in
    set_mountpoints (<[(appId, id) := (now + APP_MOUNTPOINT_TTL_MS, path)%Z]> known) (appMountpointsEpoch M) M
  else M.

(** What is not known is read, begun at [epoch]. *)
Definition readMountpoint (appId id : string) (epoch : Z) : Op Reply :=
  let* inventory := inventory in
  match find_in id inventory with
  | Some volume =>
      match truthy (rv_mountpoint volume), app_uses appId volume with
      | Some path, true =>
          let* _ := change (remember appId id path epoch) in
          Ret (RMountpoint path)
      | _, _ => Fail "This App doesn't use that volume"
      end
  | None => Fail "This App doesn't use that volume"
  end.

Definition appVolumeMountpoint (appId id : string) : Op Reply :=
  let* (known, epoch) := look (λ now M,
     (match appMountpoints M !! (appId, id) with
      | Some (expires, path) => if (now <? expires)%Z then Some path else None
      | None => None
      end, appMountpointsEpoch M)) in
  match known with
  | Some path => Ret (RMountpoint path)
  | None => readMountpoint appId id epoch
  end.

(** ** What Apps' configurations name *)

Definition writeAppReferences (clientId appId : string) (volumeIds : list string) : Op Reply :=
  let* rows := asking ReadReferences in
  let before := omap (λ use : Reference, if decide (use.1 = (clientId, appId)) then Some use.2 else None) rows in
  let added := List.filter (λ id, negb (bool_decide (id ∈ before))) volumeIds in
  let* _ := match added with
       | [] => Ret tt
       | _ =>
           let* existing := volumes in
           if forallb (λ id, bool_decide (Some id ∈ (λ volume, v_label volume ID_LABEL) <$> existing)) added then Ret tt
           else Fail "A volume it mounts no longer exists; choose another"
       end in
  let* _ := asking (Replace clientId appId volumeIds) in
  let* _ := forgetAppMountpoints in
  Ret RVoid.

Definition importAppReferences (clientId connection : string) (apps : list (string * list string))
    (unresolved : list string) : Op Reply :=
  let* _ := in_gate Shared (
    let* (current, over) := look (λ _ M, (connections M !! clientId, held M !! clientId)) in
    if decide (current = Some connection) then
      if decide (over = Some connection)
      then Fail "This Hearth held its Apps' configurations on this connection; send them on a new one"
      else asking (Import clientId connection apps unresolved)
    else Fail "This connection is no longer the Hearth's current one") in
  let* _ := forgetAppMountpoints in
  Ret RVoid.

Definition holdAppReferences (clientId connection : string) : Op Reply :=
  in_gate Alone (
    let* _ := asking (HoldImport clientId) in
    let* _ := change (λ _ M, set_held (<[clientId := connection]> (held M)) M) in
    Ret RVoid).

Definition forgetApp (clientId appId : string) : Op Reply :=
  let* _ := asking (DropReferences clientId appId) in
  let* _ := forgetAppMountpoints in
  Ret RVoid.

Definition clientConnected (clientId connection : string) (M : Memory) : Memory :=
  set_connections (<[clientId := connection]> (connections M)) M.

(** ** Showing them *)

(** Whether a measure is running once this is done, and whether it began. *)
Definition measureSizes (now : Z) (names : list string) (M : Memory) : Memory * bool :=
  if measuring M then (M, true)
  else if (now - measureFailedAt M <? SIZE_REFRESH_MS)%Z then (M, false)
  else if (now - measuredAt (sizes M) <? SIZE_REFRESH_MS)%Z &&
          forallb (λ name, bool_decide (name ∈ covered (sizes M))) names then (M, false)
  else (set_sizes (sizes M) (measureFailedAt M) true M, true).

(** What a measure of [names] found, or that it failed. *)
Definition measured (now : Z) (names : list string) (usage : option (list (string * option Z))) (M : Memory) : Memory :=
  match usage with
  | None => set_sizes (sizes M) now false M
  | Some usage =>
      set_sizes (MkSizes (list_to_set (names ++ usage.*1)) now
                   (foldl (λ values volume,
                      match volume.2 with
                      | Some size => if (0 <=? size)%Z then <[volume.1 := size]> values else values
                      | None => values
                      end) ∅ usage)) (measureFailedAt M) false M
  end.

Definition sized (M : Memory) (volume : RelayVolume) : RelayVolume :=
  MkRelayVolume (rv_createdAt volume) (dockerName volume) (rv_id volume) (rv_kind volume) (rv_mountpoint volume)
    (rv_mounts volume) (rv_name volume) (rv_owner volume) (values (sizes M) !! dockerName volume) (users volume).

(** [list], of what it read: its volumes, the Relay's own first, and the
    mounts nothing covers. *)
Definition list_volumes (inventory : Inventory) (own : option DockerVolume) (host : string) (M : Memory)
    : list RelayVolume * list RelayUncoveredMount :=
  (match own with
   | Some own => [sized M (volumeView own (iv_mounts inventory) None VRelay "Relay data" None [])]
   | None => []
   end ++ stable_sort (λ left right, (locale (rv_name left) (rv_name right) <=? 0)%Z)
            (sized M <$> iv_volumes inventory),
   uncoveredMounts config (iv_containers inventory) (list_to_set (dockerName <$> iv_volumes inventory)) host).

End Operations.
