(* ===== verification/VolumeWorld.v ===== *)
(** * Operations on volumes, interleaved

    Models [ReferenceGate] of [apps/relay/src/volumes.ts] and how the calls of
    [RelayVolumes] run beside each other: a call is a fiber that runs until it
    asks for something or waits at the gate, and goes on when it is answered
    or let in. [volume_event] is one step.

    The gate's semaphore lets a waiting fiber have its permits once enough are
    free; which of those waiting is first is not fixed. Any ask may fail,
    changing nothing, and any fiber may be interrupted where it waits. What is
    asked, answered and done is recorded. *)
From S2P Require Import Prelude AppKeys Images Cleanup.
From S2P Require Import Volumes VolumeStore VolumeOperations.
Open Scope Z_scope.

Definition REFERENCE_PERMITS : Z := 1024.

Definition permits_of (kind : Sharing) : Z := match kind with Shared => 1 | Alone => REFERENCE_PERMITS end.

(** Where a fiber is: outside, waiting for holds to end, told they did,
    waiting for permits, or with them. *)
Inductive Place := Outside | AtDoor | Opened | AtPermits (kind : Sharing) | Inside (kind : Sharing).

#[global] Instance Place_eq_dec : EqDecision Place.
Proof. solve_decision. Defined.

Record Fiber := MkFiber { f_op : Op Reply; f_place : Place }.

Record ReferenceGate := MkGate { free : Z; holds : nat; waiting : list nat }.

Inductive Entry :=
  | LConnected (clientId connection : string)
  | LPaired (clientId : string)
  | LRevoked (clientId : string)
  | LAsked (fiber : nat) (ask : Ask)
  | LAnswered (fiber : nat) (ask : Ask)
  | LDone (fiber : nat) (result : Result string Reply).

Record World := MkWorld {
  w_tables : VolumeTables;
  w_memory : Memory;
  w_gate : ReferenceGate;
  w_fibers : gmap nat Fiber;
  w_log : list Entry;
}.

Definition empty_world (T : VolumeTables) : World :=
  MkWorld T empty_memory (MkGate REFERENCE_PERMITS 0 []) ∅ [].

Definition set_tables (T : VolumeTables) (W : World) : World :=
  MkWorld T (w_memory W) (w_gate W) (w_fibers W) (w_log W).
Definition set_memory (M : Memory) (W : World) : World :=
  MkWorld (w_tables W) M (w_gate W) (w_fibers W) (w_log W).
Definition set_gate (G : ReferenceGate) (W : World) : World :=
  MkWorld (w_tables W) (w_memory W) G (w_fibers W) (w_log W).
Definition set_fiber (f : nat) (fiber : option Fiber) (W : World) : World :=
  MkWorld (w_tables W) (w_memory W) (w_gate W)
    (match fiber with Some fiber => <[f := fiber]> (w_fibers W) | None => delete f (w_fibers W) end) (w_log W).
Definition note (entries : list Entry) (W : World) : World :=
  MkWorld (w_tables W) (w_memory W) (w_gate W) (w_fibers W) (w_log W ++ entries).

(** ** The gate *)

Definition open_fiber (fiber : Fiber) : Fiber :=
  match f_place fiber with AtDoor => MkFiber (f_op fiber) Opened | _ => fiber end.

(** The end of [alone]: the last hold tells those waiting for it. *)
Definition end_hold (W : World) : World :=
  let G := w_gate W in
  match pred (holds G) with
  | 0%nat => MkWorld (w_tables W) (w_memory W) (MkGate (free G) 0 []) (open_fiber <$> w_fibers W) (w_log W)
  | holds => set_gate (MkGate (free G) holds (waiting G)) W
  end.

(** A fiber leaves wherever it is. *)
Definition leave (f : nat) (place : Place) (W : World) : World :=
  let G := w_gate W in
  match place with
  | Outside | Opened | AtPermits Shared => W
  | AtDoor => set_gate (MkGate (free G) (holds G) (List.filter (λ g, negb (bool_decide (g = f))) (waiting G))) W
  | AtPermits Alone => end_hold W
  | Inside Shared => set_gate (MkGate (free G + permits_of Shared) (holds G) (waiting G)) W
  | Inside Alone => end_hold (set_gate (MkGate (free G + permits_of Alone) (holds G) (waiting G)) W)
  end.

(** A fiber comes to the gate: [attempt] of [shared], or [alone]. *)
Definition arrive (f : nat) (kind : Sharing) (op : Op Reply) (W : World) : World :=
  let G := w_gate W in
  match kind with
  | Alone => set_fiber f (Some (MkFiber op (AtPermits Alone))) (set_gate (MkGate (free G) (S (holds G)) (waiting G)) W)
  | Shared =>
      if (0 <? holds G)%nat
      then set_fiber f (Some (MkFiber op AtDoor)) (set_gate (MkGate (free G) (holds G) (waiting G ++ [f])) W)
      else set_fiber f (Some (MkFiber op (AtPermits Shared))) W
  end.

(** ** Running a fiber *)

Fixpoint leaves (reads : Reads) : list Ask :=
  match reads with One ask => [ask] | Both l r => leaves l ++ leaves r end.

Definition finish (f : nat) (place : Place) (result : Result string Reply) (W : World) : World :=
  note [LDone f result] (set_fiber f None (leave f place W)).

(** Until it asks for something, comes to the gate, or ends. *)
Fixpoint settle (f : nat) (now : Z) (op : Op Reply) (place : Place) (W : World) : World :=
  match op with
  | Ret reply => finish f place (Ok reply) W
  | Fail message => finish f place (Throw message) W
  | Await reads got k =>
      note (LAsked f <$> leaves reads) (set_fiber f (Some (MkFiber (Await reads got k) place)) W)
  | Do change k => settle f now (k now (w_memory W)) place (set_memory (change now (w_memory W)) W)
  | Enter kind k => arrive f kind (Enter kind k) W
  | Leave k => settle f now k Outside (leave f place W)
  end.

(** One of the asks a fiber waits for is answered, as [answers] says. *)
Fixpoint answer_at {X : Type} (answers : ∀ ask, option (X * answer ask)) (reads : Reads) (path : list bool)
    : partial reads → option (Ask * X * partial reads) :=
  match reads return partial reads → option (Ask * X * partial reads) with
  | One ask => λ got,
      match path, got with
      | [], None => (λ a, (ask, a.1, Some a.2)) <$> answers ask
      | _, _ => None
      end
  | Both l r => λ got,
      match path with
      | false :: path => (λ a, (a.1, (a.2, got.2))) <$> answer_at answers l path got.1
      | true :: path => (λ a, (a.1, (got.1, a.2))) <$> answer_at answers r path got.2
      | [] => None
      end
  end.

Definition resume (f : nat) (now : Z) (reads : Reads) (got : partial reads) (k : results reads → Op Reply)
    (place : Place) (W : World) : World :=
  match complete reads got with
  | Some xs => settle f now (k xs) place W
  | None => set_fiber f (Some (MkFiber (Await reads got k) place)) W
  end.

Definition from_docker (given : DockerAnswer) (ask : Ask) : option (unit * answer ask) :=
  pair tt <$> docker_answer ask given.

Definition from_store (T : VolumeTables) (ask : Ask) : option (VolumeTables * answer ask) :=
  match store_answer ask T with
  | Some (Ok answered) => Some answered
  | _ => None
  end.

(** ** Events *)

Inductive Call :=
  | CallDelete (id : string)
  | CallRequireDeletable (id : string)
  | CallCreate (id name : string)
  | CallRename (id name : string)
  | CallFind (id : string)
  | CallAppVolumeIds (appId : string)
  | CallOwnedAppVolumeIds (appId : string)
  | CallIdsByDockerName (dockerNames : list string)
  | CallMountpoint (appId id : string)
  | CallWriteReferences (clientId appId : string) (volumeIds : list string)
  | CallImport (clientId connection : string) (apps : list (string * list string)) (unresolved : list string)
  | CallHold (clientId connection : string)
  | CallForgetApp (clientId appId : string).

#[global] Instance Call_eq_dec : EqDecision Call.
Proof. solve_decision. Defined.

Inductive Event :=
  | Started (f : nat) (call : Call)
  | Docker (f : nat) (path : list bool) (given : DockerAnswer)
  | Stored (f : nat) (path : list bool)
  | Errored (f : nat) (message : string)
  | Interrupted (f : nat)
  | Retried (f : nat)
  | Granted (f : nat)
  | Connects (clientId connection : string)
  | Pairs (clientId name : string)
  | Revokes (clientId : string).

Section World.
Context (config : RelayConfig) (ownContainer : option string)
  (nfkd_lower : string → string) (locale : string → string → Z).

Definition op_of (call : Call) : Op Reply :=
  match call with
  | CallDelete id => delete_volume config ownContainer id
  | CallRequireDeletable id => requireDeletable config ownContainer id
  | CallCreate id name => create config nfkd_lower id name
  | CallRename id name => rename config id name
  | CallFind id => find config ownContainer locale id
  | CallAppVolumeIds appId => appVolumeIds config ownContainer locale appId
  | CallOwnedAppVolumeIds appId => ownedAppVolumeIds config ownContainer locale appId
  | CallIdsByDockerName names => idsByDockerName config ownContainer locale names
  | CallMountpoint appId id => appVolumeMountpoint config ownContainer locale appId id
  | CallWriteReferences clientId appId volumeIds => writeAppReferences config clientId appId volumeIds
  | CallImport clientId connection apps unresolved => importAppReferences clientId connection apps unresolved
  | CallHold clientId connection => holdAppReferences clientId connection
  | CallForgetApp clientId appId => forgetApp clientId appId
  end.

Definition volume_event (now : Z) (event : Event) (W : World) : World :=
  match event with
  | Started f call =>
      match w_fibers W !! f with
      | None => settle f now (op_of call) Outside W
      | Some _ => W
      end
  | Docker f path given =>
      match w_fibers W !! f with
      | Some (MkFiber (Await reads got k) place) =>
          match answer_at (from_docker given) reads path got with
          | Some (ask, _, got) => resume f now reads got k place (note [LAnswered f ask] W)
          | None => W
          end
      | _ => W
      end
  | Stored f path =>
      match w_fibers W !! f with
      | Some (MkFiber (Await reads got k) place) =>
          match answer_at (from_store (w_tables W)) reads path got with
          | Some (ask, T, got) => resume f now reads got k place (note [LAnswered f ask] (set_tables T W))
          | None => W
          end
      | _ => W
      end
  | Errored f message =>
      match w_fibers W !! f with
      | Some (MkFiber (Await _ _ _) place) => finish f place (Throw message) W
      | _ => W
      end
  | Interrupted f =>
      match w_fibers W !! f with
      | Some fiber => finish f (f_place fiber) (Throw "interrupted") W
      | None => W
      end
  | Retried f =>
      match w_fibers W !! f with
      | Some (MkFiber op Opened) => arrive f Shared op W
      | _ => W
      end
  | Granted f =>
      match w_fibers W !! f with
      | Some (MkFiber (Enter _ k) (AtPermits kind)) =>
          let G := w_gate W in
          if permits_of kind <=? free G
          then settle f now k (Inside kind) (set_gate (MkGate (free G - permits_of kind) (holds G) (waiting G)) W)
          else W
      | _ => W
      end
  | Connects clientId connection =>
      note [LConnected clientId connection] (set_memory (clientConnected clientId connection (w_memory W)) W)
  | Pairs clientId name => note [LPaired clientId] (set_tables (pairClient clientId name (w_tables W)) W)
  | Revokes clientId => note [LRevoked clientId] (set_tables (revokeClient clientId (w_tables W)) W)
  end.

Definition volume_run (events : list (Z * Event)) (W : World) : World :=
  fold_left (λ W event, volume_event event.1 event.2 W) events W.

End World.
