(* ===== verification/VolumeGate.v ===== *)
(** * The gate of deletions, imports and holds

    What always holds of the gate of [VolumeWorld]: its permits and holds are
    counted exactly, and those waiting at its door are those a hold keeps
    there. *)
From S2P Require Import Prelude AppKeys Images Cleanup.
From S2P Require Import Volumes VolumeStore VolumeOperations VolumeWorld.
Open Scope Z_scope.

(** ** Sums over a map *)

Definition weigh {A} (w : A → Z) (m : gmap nat A) : Z := map_fold (λ _ x n, w x + n) 0 m.

Section Weigh.
Context {A : Type} (w : A → Z).
Implicit Types m : gmap nat A.

Lemma weigh_insert_new m f x : m !! f = None → weigh w (<[f := x]> m) = w x + weigh w m.
Proof. intros Hf. unfold weigh. rewrite map_fold_insert_L; [done|lia|done]. Qed.

Lemma weigh_insert m f x : weigh w (<[f := x]> m) = w x + weigh w (delete f m).
Proof. rewrite <-insert_delete_eq. apply weigh_insert_new, lookup_delete_eq. Qed.

Lemma weigh_delete m f x : m !! f = Some x → weigh w m = w x + weigh w (delete f m).
Proof. intros Hf. rewrite <-(insert_id m f x) at 1 by done. apply weigh_insert. Qed.

Lemma weigh_nonneg m : (∀ x, 0 ≤ w x) → 0 ≤ weigh w m.
Proof.
  intros Hw. induction m as [|f x m Hf IH] using map_ind; [done|].
  rewrite weigh_insert_new by done. specialize (Hw x). lia.
Qed.

Lemma weigh_lookup m f x : (∀ y, 0 ≤ w y) → m !! f = Some x → w x ≤ weigh w m.
Proof. intros Hw Hf. rewrite (weigh_delete _ _ _ Hf). pose proof (weigh_nonneg (delete f m) Hw). lia. Qed.

Lemma weigh_lookup_two m f g x y : (∀ z, 0 ≤ w z) → f ≠ g → m !! f = Some x → m !! g = Some y → w x + w y ≤ weigh w m.
Proof.
  intros Hw Hne Hf Hg. rewrite (weigh_delete _ _ _ Hf).
  assert (delete f m !! g = Some y) as Hg' by (by rewrite lookup_delete_ne).
  pose proof (weigh_lookup _ _ _ Hw Hg'). lia.
Qed.

Lemma weigh_pos m : (∀ x, 0 ≤ w x) → 0 < weigh w m → ∃ f x, m !! f = Some x ∧ 0 < w x.
Proof.
  intros Hw. induction m as [|f x m Hf IH] using map_ind; [done|].
  rewrite weigh_insert_new by done. intros Hpos. destruct (decide (0 < w x)) as [Hx|Hx].
  - exists f, x. by rewrite lookup_insert_eq.
  - destruct IH as (g & y & Hg & Hy); [specialize (Hw x); lia|]. exists g, y. split; [|done].
    rewrite lookup_insert_ne; [done|congruence].
Qed.

Lemma weigh_fmap (h : A → A) m : (∀ x, w (h x) = w x) → weigh w (h <$> m) = weigh w m.
Proof.
  intros Hh. induction m as [|f x m Hf IH] using map_ind; [by rewrite fmap_empty|].
  rewrite fmap_insert, !weigh_insert_new; [by rewrite IH, Hh|done|by rewrite lookup_fmap, Hf].
Qed.
End Weigh.

(** ** Places and the gate *)

Definition held_permits (place : Place) : Z := match place with Inside kind => permits_of kind | _ => 0 end.
Definition is_hold (place : Place) : Z := match place with AtPermits Alone | Inside Alone => 1 | _ => 0 end.

Definition places (W : World) : gmap nat Place := f_place <$> w_fibers W.

Record counts (G : ReferenceGate) (m : gmap nat Place) : Prop := {
  counts_permits : free G + weigh held_permits m = REFERENCE_PERMITS;
  counts_free : 0 ≤ free G;
  counts_holds : Z.of_nat (holds G) = weigh is_hold m;
  counts_waiting : ∀ f, f ∈ waiting G ↔ m !! f = Some AtDoor;
  counts_distinct : NoDup (waiting G);
  counts_open : holds G = 0%nat → waiting G = [];
}.

Lemma held_permits_nonneg place : 0 ≤ held_permits place.
Proof. by destruct place as [| | |[]|[]]. Qed.

Lemma is_hold_nonneg place : 0 ≤ is_hold place.
Proof. by destruct place as [| | |[]|[]]. Qed.

(** ** One fiber's place changes *)

Section Replace.
Context (m : gmap nat Place) (f : nat) (p q : Place).

Lemma weigh_replace (w : Place → Z) : weigh w (<[f := q]> m) = weigh w (<[f := p]> m) - w p + w q.
Proof. rewrite !weigh_insert. lia. Qed.

Lemma weigh_removed (w : Place → Z) : w Outside = 0 → weigh w (delete f m) = weigh w (<[f := Outside]> m).
Proof. rewrite weigh_insert. lia. Qed.

(** Moving between places that do not wait at the door. *)
Lemma counts_replace G G' :
  counts G (<[f := p]> m) → p ≠ AtDoor → q ≠ AtDoor → waiting G' = waiting G →
  free G' = free G + held_permits p - held_permits q → 0 ≤ free G' →
  Z.of_nat (holds G') = Z.of_nat (holds G) - is_hold p + is_hold q →
  (holds G' = 0%nat → waiting G' = []) →
  counts G' (<[f := q]> m).
Proof.
  intros [Hp Hf Hh Hw Hd Ho] Hpd Hqd Ew Ef Hf' Eh Ho'. split; [..|by rewrite Ew|done].
  - rewrite (weigh_replace held_permits). lia.
  - done.
  - rewrite (weigh_replace is_hold). lia.
  - intros g. rewrite Ew, Hw. destruct (decide (g = f)) as [->|Hne].
    + rewrite !lookup_insert_eq. naive_solver.
    + by rewrite !lookup_insert_ne by done.
Qed.
End Replace.

Lemma counts_gone G f m : counts G (<[f := Outside]> m) → counts G (delete f m).
Proof.
  intros [Hp Hf Hh Hw Hd Ho]. split; [..|done|done]; rewrite ?(weigh_removed _ _ held_permits), ?(weigh_removed _ _ is_hold) by done; [done..|].
  intros g. rewrite Hw. destruct (decide (g = f)) as [->|Hne].
  - by rewrite lookup_insert_eq, lookup_delete_eq.
  - by rewrite lookup_insert_ne, lookup_delete_ne by done.
Qed.

Lemma counts_new G f m : counts G m → m !! f = None → counts G (<[f := Outside]> m).
Proof.
  intros [Hp Hf Hh Hw Hd Ho] Hn. split; [..|done|done]; rewrite ?(weigh_insert_new held_permits), ?(weigh_insert_new is_hold) by done; [done..|].
  intros g. rewrite Hw. destruct (decide (g = f)) as [->|Hne].
  - by rewrite lookup_insert_eq, Hn.
  - by rewrite lookup_insert_ne by done.
Qed.

(** ** The last hold opens the door *)

Definition open_place (place : Place) : Place := match place with AtDoor => Opened | _ => place end.

Lemma places_opened (m : gmap nat Fiber) : f_place <$> (open_fiber <$> m) = open_place <$> (f_place <$> m).
Proof. rewrite <-!map_fmap_compose. apply map_fmap_ext. intros f [op []] _; done. Qed.

Lemma counts_opened G m : counts G m → holds G = 0%nat → counts (MkGate (free G) 0 []) (open_place <$> m).
Proof.
  intros [Hp Hf Hh Hw Hd Ho] E. split; cbn; [|done| | |constructor|done].
  - rewrite weigh_fmap; [done|by intros []].
  - rewrite weigh_fmap; [lia|by intros []].
  - intros f. rewrite lookup_fmap. destruct (m !! f) as [[]|]; cbn; set_solver.
Qed.

(** A gate that counts one hold more than there are, as that hold ends. *)
Lemma end_hold_counts W f q :
  q ≠ AtDoor →
  counts (MkGate (free (w_gate W)) (pred (holds (w_gate W)))
            (if decide (pred (holds (w_gate W)) = 0%nat) then [] else waiting (w_gate W)))
    (<[f := q]> (if decide (pred (holds (w_gate W)) = 0%nat) then open_place <$> places W else places W)) →
  counts (w_gate (end_hold W)) (<[f := q]> (places (end_hold W))).
Proof.
  intros Hq. unfold end_hold. destruct (pred (holds (w_gate W))) as [|n]; cbn; [|done].
  unfold places. cbn. by rewrite places_opened.
Qed.

Lemma leave_hold_counts W f p free' :
  is_hold p = 1 → free' = free (w_gate W) + held_permits p →
  counts (w_gate W) (<[f := p]> (places W)) →
  let W' := end_hold (set_gate (MkGate free' (holds (w_gate W)) (waiting (w_gate W))) W) in
  counts (w_gate W') (<[f := Outside]> (places W')).
Proof.
  intros Hp -> Hc. apply end_hold_counts; [done|]. cbn -[Nat.pred].
  assert (p ≠ AtDoor) as Hd by (by intros ->).
  assert (1 ≤ Z.of_nat (holds (w_gate W))) as H1.
  { rewrite (counts_holds _ _ Hc), <-Hp.
    apply (weigh_lookup is_hold _ f); [apply is_hold_nonneg|apply lookup_insert_eq]. }
  pose proof (held_permits_nonneg p). pose proof (counts_free _ _ Hc).
  case_decide as E.
  - rewrite E. change Outside with (open_place Outside). rewrite <-fmap_insert.
    change (f_place <$> w_fibers W) with (places W).
    set (G := MkGate (free (w_gate W) + held_permits p) 0 (waiting (w_gate W))).
    assert (holds (w_gate W) = 1%nat) as E1 by (clear G; lia).
    assert (weigh is_hold (<[f := Outside]> (places W)) = 0) as Hz.
    { rewrite (weigh_replace _ _ p), <-(counts_holds _ _ Hc), Hp, E1. done. }
    split; cbn; [| lia | | |constructor|done].
    + rewrite weigh_fmap by (by intros []). rewrite (weigh_replace _ _ p).
      pose proof (counts_permits _ _ Hc). change (held_permits Outside) with 0. lia.
    + rewrite weigh_fmap; [lia|by intros []].
    + intros g. rewrite lookup_fmap. destruct (<[f:=Outside]> (places W) !! g) as [[]|]; cbn; set_solver.
  - eapply counts_replace; [exact Hc|done|done|done|..]; cbn -[Nat.pred]; [lia..|done].
Qed.

Lemma leave_counts f p W :
  counts (w_gate W) (<[f := p]> (places W)) →
  counts (w_gate (leave f p W)) (<[f := Outside]> (places (leave f p W))).
Proof.
  intros Hc. destruct p as [| | |[]|[]]; cbn [leave].
  - done.
  - destruct Hc as [Hp Hf Hh Hw Hd Ho]. split; cbn [set_gate w_gate free holds waiting places w_fibers].
    + rewrite (weigh_replace _ _ AtDoor). cbn. rewrite <-Hp. unfold places. cbn. lia.
    + done.
    + rewrite (weigh_replace _ _ AtDoor). cbn. rewrite Hh. unfold places. cbn. lia.
    + intros g. rewrite list_elem_of_In, filter_In, <-list_elem_of_In, negb_true_iff, bool_decide_eq_false, Hw.
      unfold places. cbn. destruct (decide (g = f)) as [->|Hne].
      * rewrite !lookup_insert_eq. naive_solver.
      * rewrite !lookup_insert_ne by done. naive_solver.
    + by apply NoDup_bfilter.
    + intros E. by rewrite (Ho E).
  - eapply counts_replace; [exact Hc|done|done|done|..]; cbn; try lia; apply Hc.
  - eapply counts_replace; [exact Hc|done|done|done|..]; cbn; try lia; apply Hc.
  - replace (end_hold W) with (end_hold (set_gate (MkGate (free (w_gate W)) (holds (w_gate W)) (waiting (w_gate W))) W))
      by (by destruct W as [? ? [] ? ?]).
    eapply leave_hold_counts; [..|exact Hc]; [done|cbn; lia].
  - pose proof (counts_free _ _ Hc). eapply counts_replace; [exact Hc|done|done|done|..]; cbn; try lia. apply Hc.
  - eapply leave_hold_counts; [..|exact Hc]; [done|cbn; lia].
Qed.
