(* ===== verification/VolumeLogic.v ===== *)
(** * What programs on volumes may do, whatever they are answered

    A logic for the programs of [VolumeOperations], and that what it says of
    each call holds however calls interleave in [VolumeWorld]. A [Logic] has
    states that a program goes through as it hears answers, enters the gate
    and leaves it; it says what may be asked in each, which answers may be
    relied on, what may be seen in memory and how it may change. *)
From S2P Require Import Prelude AppKeys Images Cleanup.
From S2P Require Import Volumes VolumeStore VolumeOperations VolumeWorld.
Open Scope Z_scope.

(** ** Answers to several asks *)

Section Reads.
Context (P : ∀ ask, answer ask → Prop).

Fixpoint all_results (reads : Reads) : results reads → Prop :=
  match reads with
  | One ask => P ask
  | Both l r => λ xs, all_results l xs.1 ∧ all_results r xs.2
  end.

Fixpoint all_got (reads : Reads) : partial reads → Prop :=
  match reads with
  | One ask => λ got, match got with Some a => P ask a | None => True end
  | Both l r => λ got, all_got l got.1 ∧ all_got r got.2
  end.

Lemma all_got_unanswered reads : all_got reads (unanswered reads).
Proof. induction reads; cbn; auto. Qed.

Lemma all_got_complete reads got xs : complete reads got = Some xs → all_got reads got → all_results reads xs.
Proof.
  revert got xs. induction reads as [ask|l IHl r IHr]; cbn; intros got xs; [by intros E Hg; subst got|].
  change (partial l * partial r)%type in got. destruct got as [gl gr]. cbn.
  destruct (complete l gl) as [ls|] eqn:El, (complete r gr) as [rs|] eqn:Er; try done.
  intros E [Hl Hr]. apply (inj Some) in E. subst xs. cbn. eauto.
Qed.
End Reads.

Lemma all_results_weaken (P Q : ∀ ask, answer ask → Prop) reads xs :
  (∀ ask a, P ask a → Q ask a) → all_results P reads xs → all_results Q reads xs.
Proof. intros HPQ. induction reads as [ask|l IHl r IHr]; cbn; [auto|]. intros []; auto. Qed.

(** What an answer leaves of the asks is what was there with one leaf more. *)
Lemma answer_at_got {X} (answers : ∀ ask, option (X * answer ask)) (P : ∀ ask, answer ask → Prop) reads path got ask x got' :
  answer_at answers reads path got = Some (ask, x, got') →
  all_got P reads got → (∀ a, answers ask = Some (x, a) → P ask a) → all_got P reads got'.
Proof.
  revert path got got'. induction reads as [ask0|l IHl r IHr]; cbn; intros path got got' E Hg Ha.
  - destruct path, got; try done. apply fmap_Some in E as ([y a] & Ea & [= -> -> ->]). cbn. auto.
  - destruct path as [|[] path]; [done|..]; apply fmap_Some in E as ([[ask1 y] got1] & E1 & [= -> -> ->]); cbn in *;
      destruct Hg; split; eauto.
Qed.

Lemma answer_at_answers {X} (answers : ∀ ask, option (X * answer ask)) reads path got ask x got' :
  answer_at answers reads path got = Some (ask, x, got') → ask ∈ leaves reads ∧ ∃ a, answers ask = Some (x, a).
Proof.
  revert path got got'. induction reads as [ask0|l IHl r IHr]; cbn; intros path got got' E.
  - destruct path, got; try done. apply fmap_Some in E as ([y a] & Ea & [= -> -> ->]). split; [set_solver|eauto].
  - destruct path as [|[] path]; [done|..]; apply fmap_Some in E as ([[ask1 y] got1] & E1 & [= -> -> ->]).
    + apply IHr in E1 as [? ?]. split; [set_solver|done].
    + apply IHl in E1 as [? ?]. split; [set_solver|done].
Qed.

(** ** The logic *)

Record Logic := MkLogic {
  St : Type;
  may_ask : St → Ask → Prop;
  relied : St → ∀ ask, answer ask → Prop;
  assumed : St → ∀ ask, answer ask → Prop;
  heard : St → ∀ reads, results reads → St;
  may_see : St → Memory → Prop;
  may_set : St → Memory → Memory → Prop;
  may_enter : St → Sharing → Prop;
  entered : St → Sharing → St;
  may_leave : St → Prop;
  outside : St → St;
}.

Fixpoint checks (L : Logic) {A} (s : St L) (op : Op A) (post : St L → A → Prop) : Prop :=
  match op with
  | Ret a => post s a
  | Fail _ => True
  | Await reads got k =>
      Forall (may_ask L s) (leaves reads) ∧ all_got (relied L s) reads got ∧
      ∀ xs, all_results (assumed L s) reads xs → checks L (heard L s reads xs) (k xs) post
  | Do change k => ∀ now M, may_see L s M → may_set L s M (change now M) ∧ checks L s (k now M) post
  | Enter kind k => may_enter L s kind ∧ checks L (entered L s kind) k post
  | Leave k => may_leave L s ∧ checks L (outside L s) k post
  end.

Section Rules.
Context (L : Logic).

Lemma checks_bind {A B} (op : Op A) (h : A → Op B) s post :
  checks L s op (λ s a, checks L s (h a) post) → checks L s (op_bind op h) post.
Proof.
  revert s. induction op as [a|message|reads got k IH|f k IH|kind k IH|k IH]; cbn; intros s Hop; try done.
  - destruct Hop as (? & ? & Hk). eauto.
  - intros now M HM. destruct (Hop now M HM); eauto.
  - destruct Hop; eauto.
  - destruct Hop; eauto.
Qed.

Lemma checks_weaken {A} (op : Op A) s (post post' : St L → A → Prop) :
  (∀ s a, post s a → post' s a) → checks L s op post → checks L s op post'.
Proof.
  intros Hpost. revert s. induction op as [a|message|reads got k IH|f k IH|kind k IH|k IH]; cbn; intros s Hop; try done.
  - auto.
  - destruct Hop as (? & ? & Hk). eauto.
  - intros now M HM. destruct (Hop now M HM); eauto.
  - destruct Hop; eauto.
  - destruct Hop; eauto.
Qed.

Lemma checks_asks reads s (post : St L → results reads → Prop) :
  Forall (may_ask L s) (leaves reads) → (∀ xs, all_results (assumed L s) reads xs → post (heard L s reads xs) xs) →
  checks L s (asks reads) post.
Proof. intros Hm Hp. split; [done|]. split; [apply all_got_unanswered|done]. Qed.

Lemma checks_look {A} (read : Z → Memory → A) s (post : St L → A → Prop) :
  (∀ now M, may_see L s M → may_set L s M M ∧ post s (read now M)) → checks L s (look read) post.
Proof. intros Hp now M HM. destruct (Hp now M HM). auto. Qed.

Lemma checks_change f s (post : St L → unit → Prop) :
  (∀ now M, may_see L s M → may_set L s M (f now M)) → post s tt → checks L s (change f) post.
Proof. intros Hf Hp now M HM. cbn. auto. Qed.

Lemma checks_gate {A} kind (op : Op A) s (post : St L → A → Prop) :
  may_enter L s kind → checks L (entered L s kind) op (λ s a, may_leave L s ∧ post (outside L s) a) →
  checks L s (in_gate kind op) post.
Proof. intros He Hop. split; [done|]. by apply checks_bind. Qed.
End Rules.

(** Goes through a program; what is left are its obligations. *)
Ltac walk :=
  repeat lazymatch goal with
  | |- checks _ _ (op_bind _ _) _ => apply checks_bind
  | |- checks _ _ (Ret _) _ => cbn [checks]
  | |- checks _ _ (Fail _) _ => exact I
  | |- checks _ _ (in_gate _ _) _ => apply checks_gate
  | |- checks _ _ (asking _) _ => apply checks_asks; [|intros ? ?]
  | |- checks _ _ (asks _) _ => apply checks_asks; [|intros ? ?]
  | |- checks _ _ (look _) _ => apply checks_look; intros ? ? ?; split
  | |- checks _ _ (change _) _ => apply checks_change; [intros ? ? ?|]
  | |- _ ∧ checks _ _ _ _ => split
  | |- checks _ _ (match ?x with _ => _ end) _ => destruct x eqn:?
  | |- context [match ?x with (_, _) => _ end] => destruct x eqn:?
  end.

(** ** Programs run together *)

Definition any_memory (_ : Memory) : Prop := True.

Section Together.
Context (config : RelayConfig) (ownContainer : option string)
  (nfkd_lower : string → string) (locale : string → string → Z).
Context (L : Logic) (at_place : nat → Place → St L → Prop) (post : nat → St L → Reply → Prop) (mem_ok : Memory → Prop).

(** A fiber that runs is outside the gate or let in. *)
Definition runs (place : Place) : Prop := match place with Outside | Inside _ => True | _ => False end.

(** [at_place f place s]: a fiber there may be in that state. *)
Record fits : Prop := {
  fits_grant f kind s :
    at_place f (AtPermits kind) s → may_enter L s kind →
    ∃ s', at_place f (Inside kind) s' ∧ ∀ op, checks L (entered L s kind) op (post f) → checks L s' op (post f);
  fits_arrive f place kind s :
    runs place → at_place f place s → may_enter L s kind →
    place = Outside ∧ at_place f (AtPermits kind) s ∧ (kind = Shared → at_place f AtDoor s);
  fits_retry f s : at_place f Opened s → at_place f (AtPermits Shared) s ∧ at_place f AtDoor s;
  fits_open f s : at_place f AtDoor s → at_place f Opened s;
  fits_leave f place s :
    runs place → at_place f place s → may_leave L s → place ≠ Outside ∧ at_place f Outside (outside L s);
  fits_hear f place s reads xs :
    at_place f place s → all_results (relied L s) reads xs →
    all_results (assumed L s) reads xs ∧ at_place f place (heard L s reads xs);
  fits_see f place s M : at_place f place s → mem_ok M → may_see L s M;
  fits_set f place s M M' : at_place f place s → mem_ok M → may_set L s M M' → mem_ok M';
}.

(** A fiber at the gate is one that comes to it. *)
Definition placed (fiber : Fiber) : Prop :=
  match f_place fiber with
  | AtDoor | Opened => ∃ k, f_op fiber = Enter Shared k
  | AtPermits kind => ∃ k, f_op fiber = Enter kind k
  | Outside | Inside _ => ∃ reads got k, f_op fiber = Await reads got k
  end.

Lemma placed_await reads got k place : runs place → placed (MkFiber (Await reads got k) place).
Proof. destruct place; try done; intros _; by exists reads, got, k. Qed.

Definition fiber_checks (f : nat) (fiber : Fiber) : Prop :=
  placed fiber ∧ ∃ s, at_place f (f_place fiber) s ∧ checks L s (f_op fiber) (post f).

Definition fibers_check (W : World) : Prop :=
  mem_ok (w_memory W) ∧ ∀ f fiber, w_fibers W !! f = Some fiber → fiber_checks f fiber.

(** What may be recorded. *)
Definition entry_ok (entry : Entry) : Prop :=
  match entry with
  | LAsked f ask => ∃ place s, at_place f place s ∧ may_ask L s ask
  | LDone f (Ok reply) => ∃ s, post f s reply
  | _ => True
  end.

Context (Hfits : fits).

Lemma open_fiber_checks f fiber : fiber_checks f fiber → fiber_checks f (open_fiber fiber).
Proof using Hfits.
  destruct fiber as [op []]; try done. intros (Hp & s & Hs & Hop). split; [done|]. exists s. split; [|done].
  by apply fits_open.
Qed.

Lemma end_hold_fibers W g fiber :
  w_fibers (end_hold W) !! g = Some fiber → ∃ fiber', w_fibers W !! g = Some fiber' ∧ (fiber = fiber' ∨ fiber = open_fiber fiber').
Proof.
  unfold end_hold. destruct (pred _); cbn; [|eauto]. rewrite lookup_fmap. intros (fiber' & ? & ?)%fmap_Some. eauto.
Qed.

Lemma leave_fibers f place W g fiber :
  w_fibers (leave f place W) !! g = Some fiber → ∃ fiber', w_fibers W !! g = Some fiber' ∧ (fiber = fiber' ∨ fiber = open_fiber fiber').
Proof.
  destruct place as [| | |[]|[]]; cbn [leave]; try (by eauto); intros H; try (by apply end_hold_fibers in H).
Qed.

Lemma leave_memory f place W : w_memory (leave f place W) = w_memory W.
Proof. destruct place as [| | |[]|[]]; cbn [leave]; unfold end_hold; try done; by destruct (pred _). Qed.

Lemma leave_log f place W : w_log (leave f place W) = w_log W.
Proof. destruct place as [| | |[]|[]]; cbn [leave]; unfold end_hold; try done; by destruct (pred _). Qed.

Lemma leave_tables f place W : w_tables (leave f place W) = w_tables W.
Proof. destruct place as [| | |[]|[]]; cbn [leave]; unfold end_hold; try done; by destruct (pred _). Qed.

Lemma leave_checks f place W : fibers_check W → fibers_check (leave f place W).
Proof using Hfits.
  intros [HM Hf]. split; [by rewrite leave_memory|]. intros g fiber (fiber' & Hg & [-> | ->])%leave_fibers; [by auto|].
  apply open_fiber_checks; auto.
Qed.

Lemma set_fiber_checks f fiber W : fibers_check W → fiber_checks f fiber → fibers_check (set_fiber f (Some fiber) W).
Proof.
  intros [HM Hf] Hc. split; [done|]. cbn. intros g fiber' [[<- <-]|[? ?]]%lookup_insert_Some; auto.
Qed.

(** A world's log grows by entries that are fine. *)
Definition grows (W W' : World) : Prop := ∃ entries, w_log W' = w_log W ++ entries ∧ Forall entry_ok entries.

Lemma log_grows_refl W : grows W W.
Proof. exists []. by rewrite app_nil_r. Qed.

Lemma grows_eq W W' : w_log W' = w_log W → grows W W'.
Proof. intros E. exists []. by rewrite app_nil_r. Qed.

Lemma log_grows_trans W W' W'' : grows W W' → grows W' W'' → grows W W''.
Proof.
  intros (l1 & E1 & H1) (l2 & E2 & H2). exists (l1 ++ l2). rewrite E2, E1, app_assoc.
  split; [done|]. by apply Forall_app.
Qed.

Lemma grows_note entries W : Forall entry_ok entries → grows W (note entries W).
Proof. intros H. by exists entries. Qed.

Lemma finish_checks f place result W :
  fibers_check W → entry_ok (LDone f result) → fibers_check (finish f place result W) ∧ grows W (finish f place result W).
Proof using Hfits.
  intros Hc He. pose proof (leave_checks f place W Hc) as [HM Hf]. split.
  - split; [done|]. cbn. intros g fiber [? ?]%lookup_delete_Some. auto.
  - exists [LDone f result]. unfold finish. cbn. rewrite leave_log. split; [done|]. by repeat constructor.
Qed.

Lemma arrive_checks f kind s k W :
  at_place f (AtPermits kind) s → (kind = Shared → at_place f AtDoor s) → checks L s (Enter kind k) (post f) →
  fibers_check W → fibers_check (arrive f kind (Enter kind k) W) ∧ grows W (arrive f kind (Enter kind k) W).
Proof.
  intros Hp Hd Hk Hc. unfold arrive.
  destruct kind; [case_match|]; (split; [apply set_fiber_checks; [exact Hc|]|by apply grows_eq]);
    (split; [by exists k|]); exists s; auto.
Qed.

Lemma settle_checks f now op : ∀ place s W,
  runs place → at_place f place s → checks L s op (post f) → fibers_check W →
  fibers_check (settle f now op place W) ∧ grows W (settle f now op place W).
Proof using Hfits.
  induction op as [reply|message|reads got k IH|g k IH|kind k IH|k IH]; intros place s W Hr Hs Hop Hc.
  - apply finish_checks; [done|]. exists s. apply Hop.
  - by apply finish_checks.
  - destruct Hop as (Hm & Hg & Hk). cbn [settle]. split.
    + apply (set_fiber_checks f (MkFiber (Await reads got k) place) W); [done|]. split; [by apply placed_await|].
      exists s. done.
    + exists (LAsked f <$> leaves reads). split; [done|]. apply Forall_fmap. eapply Forall_impl; [exact Hm|].
      intros ask Ha. cbn. eauto.
  - destruct Hc as [HM Hf]. destruct (Hop now _ (fits_see Hfits _ _ _ _ Hs HM)) as [HM' Hk]. cbn [settle].
    apply (IH now (w_memory W) place s (set_memory (g now (w_memory W)) W)); [exact Hr|exact Hs|exact Hk|].
    split; [by eapply fits_set|done].
  - destruct Hop as [He Hk]. destruct (fits_arrive Hfits _ _ _ _ Hr Hs He) as (-> & Hp & Hd).
    by apply arrive_checks with s.
  - destruct Hop as [Hl Hk]. destruct (fits_leave Hfits _ _ _ Hr Hs Hl) as [_ Ho]. cbn [settle].
    destruct (IH Outside (outside L s) (leave f place W)) as [H1 H2]; [done..|by apply leave_checks|].
    split; [done|]. eapply log_grows_trans; [|exact H2]. apply grows_eq, leave_log.
Qed.

Lemma resume_checks f now reads got k place s W :
  runs place → at_place f place s → checks L s (Await reads got k) (post f) → fibers_check W →
  fibers_check (resume f now reads got k place W) ∧ grows W (resume f now reads got k place W).
Proof using Hfits.
  intros Hr Hs (Hm & Hg & Hk) Hc. unfold resume. destruct (complete reads got) as [xs|] eqn:E.
  - apply all_got_complete with (1 := E) in Hg. destruct (fits_hear Hfits _ _ _ _ _ Hs Hg) as [Ha Hh].
    apply settle_checks with (heard L s reads xs); auto.
  - split; [|by apply grows_eq]. apply set_fiber_checks; [done|]. split; [by apply placed_await|].
    by exists s.
Qed.

(** What an event has to answer for. *)
Definition event_fits (W : World) (event : Event) : Prop :=
  match event with
  | Started f call => w_fibers W !! f = None → ∃ s, at_place f Outside s ∧
      checks L s (op_of config ownContainer nfkd_lower locale call) (post f)
  | Docker f _ given => ∀ fiber s ask u a, w_fibers W !! f = Some fiber → at_place f (f_place fiber) s →
      from_docker given ask = Some (u, a) → relied L s ask a
  | Stored f _ => ∀ fiber s ask T a, w_fibers W !! f = Some fiber → at_place f (f_place fiber) s →
      from_store (w_tables W) ask = Some (T, a) → relied L s ask a
  | Connects clientId connection => ∀ M, mem_ok M → mem_ok (clientConnected clientId connection M)
  | _ => True
  end.

Lemma note_checks entries W : fibers_check W → fibers_check (note entries W).
Proof. done. Qed.

Theorem event_checks now event W :
  fibers_check W → event_fits W event →
  fibers_check (volume_event config ownContainer nfkd_lower locale now event W) ∧
  grows W (volume_event config ownContainer nfkd_lower locale now event W).
Proof using Hfits.
  intros Hc He. pose proof Hc as [HM Hf].
  destruct event as [f call|f path given|f path|f message|f|f|f|client connection|client name|client]; cbn [volume_event].
  - destruct (w_fibers W !! f) eqn:E; [by split; [|apply log_grows_refl]|]. destruct (He E) as (s & Hs & Hop).
    by apply settle_checks with s.
  - destruct (w_fibers W !! f) as [[op place]|] eqn:E; [|by split; [|apply log_grows_refl]].
    destruct op as [| |reads got k| | |]; try (by split; [|apply log_grows_refl]).
    destruct (answer_at _ _ _ _) as [[[ask u] got']|] eqn:Ea; [|by split; [|apply log_grows_refl]].
    destruct (Hf _ _ E) as [Hp (s & Hs & Hm & Hg & Hk)].
    destruct (resume_checks f now reads got' k place s (note [LAnswered f ask] W)) as [H1 H2]; try done.
    + destruct place; try done; by destruct Hp.
    + split; [done|]. split; [|done]. eapply answer_at_got; [exact Ea|done|]. intros a Hd. by eapply He.
    + split; [done|]. eapply log_grows_trans; [|exact H2]. apply grows_note. by repeat constructor.
  - destruct (w_fibers W !! f) as [[op place]|] eqn:E; [|by split; [|apply log_grows_refl]].
    destruct op as [| |reads got k| | |]; try (by split; [|apply log_grows_refl]).
    destruct (answer_at _ _ _ _) as [[[ask T] got']|] eqn:Ea; [|by split; [|apply log_grows_refl]].
    destruct (Hf _ _ E) as [Hp (s & Hs & Hm & Hg & Hk)].
    destruct (resume_checks f now reads got' k place s (note [LAnswered f ask] (set_tables T W))) as [H1 H2]; try done.
    + destruct place; try done; by destruct Hp.
    + split; [done|]. split; [|done]. eapply answer_at_got; [exact Ea|done|]. intros a Hd. by eapply He.
    + split; [done|]. eapply log_grows_trans; [|exact H2]. by exists [LAnswered f ask]; repeat constructor.
  - destruct (w_fibers W !! f) as [[[] place]|] eqn:E; try (by split; [|apply log_grows_refl]). by apply finish_checks.
  - destruct (w_fibers W !! f) as [fiber|] eqn:E; [|by split; [|apply log_grows_refl]]. by apply finish_checks.
  - destruct (w_fibers W !! f) as [[op []]|] eqn:E; try (by split; [|apply log_grows_refl]).
    destruct (Hf _ _ E) as [[k Ek] (s & Hs & Hop)]. cbn [f_op f_place] in *. subst op.
    destruct (fits_retry Hfits _ _ Hs). by apply arrive_checks with s.
  - destruct (w_fibers W !! f) as [[op place]|] eqn:E; [|by split; [|apply log_grows_refl]].
    destruct op as [| | | |kind' k|]; try (by split; [|apply log_grows_refl]).
    destruct place as [| | |kind|]; try (by split; [|apply log_grows_refl]).
    case_match; [|by split; [|apply log_grows_refl]].
    destruct (Hf _ _ E) as [[k' [= -> ->]] (s & Hs & He' & Hk)]. cbn [f_op f_place] in *.
    set (G := MkGate _ _ _). destruct (fits_grant Hfits _ _ _ Hs He') as (s' & Hs' & Hweak).
    destruct (settle_checks f now k' (Inside kind) s' (set_gate G W)); by auto.
  - split; [split; [by apply He|done]|]. by eexists; repeat constructor.
  - split; [done|]. by eexists; repeat constructor.
  - split; [done|]. by eexists; repeat constructor.
Qed.
End Together.

(** ** What is recorded since *)

Section Log.
Context (config : RelayConfig) (ownContainer : option string)
  (nfkd_lower : string → string) (locale : string → string → Z).
Notation volume_event := (volume_event config ownContainer nfkd_lower locale).
Notation volume_run := (volume_run config ownContainer nfkd_lower locale).

Definition recorded_since (W W' : World) : list Entry := drop (length (w_log W)) (w_log W').

Lemma recorded_grows W W' entries : w_log W' = w_log W ++ entries → recorded_since W W' = entries.
Proof. intros E. unfold recorded_since. by rewrite E, drop_app_length. Qed.

Lemma settle_tables f now op : ∀ place W, w_tables (settle f now op place W) = w_tables W.
Proof.
  induction op as [reply|message|reads got k IH|ch k IH|kind k IH|k IH]; intros place W; cbn [settle].
  - apply (leave_tables f place).
  - apply (leave_tables f place).
  - done.
  - by rewrite IH.
  - unfold arrive. destruct kind; [by case_match|done].
  - by rewrite IH, leave_tables.
Qed.

Lemma settle_log f now op : ∀ place W, ∃ entries, w_log (settle f now op place W) = w_log W ++ entries.
Proof.
  induction op as [reply|message|reads got k IH|ch k IH|kind k IH|k IH]; intros place W; cbn [settle].
  - eexists. cbn. by rewrite leave_log.
  - eexists. cbn. by rewrite leave_log.
  - by eexists.
  - apply (IH now (w_memory W) place (set_memory (ch now (w_memory W)) W)).
  - exists []. rewrite app_nil_r. unfold arrive. destruct kind; [by case_match|done].
  - destruct (IH Outside (leave f place W)) as [entries E]. exists entries. by rewrite E, leave_log.
Qed.

Lemma resume_log f now reads got k place W : ∃ entries, w_log (resume f now reads got k place W) = w_log W ++ entries.
Proof. unfold resume. case_match; [apply settle_log|]. exists []. by rewrite app_nil_r. Qed.

Lemma resume_tables f now reads got k place W : w_tables (resume f now reads got k place W) = w_tables W.
Proof. unfold resume. case_match; [apply settle_tables|done]. Qed.

Lemma event_log now event W : ∃ entries, w_log (volume_event now event W) = w_log W ++ entries.
Proof.
  assert (∃ entries, w_log W = w_log W ++ entries) as Hsame by (exists []; by rewrite app_nil_r).
  assert (∀ entry W', w_log W' = w_log W ++ [entry] → ∀ W'', (∃ entries, w_log W'' = w_log W' ++ entries) →
            ∃ entries, w_log W'' = w_log W ++ entries) as Htrans.
  { intros entry W' E W'' [entries E']. exists (entry :: entries). by rewrite E', E, <-app_assoc. }
  destruct event as [f call|f path given|f path|f message|f|f|f|c connection|c name|c]; cbn [VolumeWorld.volume_event];
    repeat (case_match; try done); try (by eexists).
  - apply settle_log.
  - by eapply Htrans, resume_log.
  - by eapply Htrans, resume_log.
  - eexists. cbn. by rewrite leave_log.
  - eexists. cbn. by rewrite leave_log.
  - exists []. rewrite app_nil_r. unfold arrive. by case_match.
  - match goal with |- context [settle ?f ?now ?k ?place ?W'] => exact (settle_log f now k place W') end.
Qed.

Lemma run_log events : ∀ W, ∃ entries, w_log (volume_run events W) = w_log W ++ entries.
Proof.
  induction events as [|[now event] events IH]; intros W; [exists []; by rewrite app_nil_r|].
  destruct (event_log now event W) as [e1 E1]. destruct (IH (volume_event now event W)) as [e2 E2].
  exists (e1 ++ e2). change (volume_run ((now, event) :: events) W) with (volume_run events (volume_event now event W)).
  by rewrite E2, E1, app_assoc.
Qed.
End Log.
