(* ===== verification/VolumeGateFacts.v ===== *)
(** * The gate's order

    Every call on volumes enters and leaves the gate in turn, so its counts
    always hold; a hold runs alone, nothing new passes it, and nothing waits
    for ever at a gate that is free. *)
From S2P Require Import Prelude AppKeys Images Cleanup.
From S2P Require Import Volumes VolumeStore VolumeOperations VolumeWorld VolumeGate VolumeLogic.
Open Scope Z_scope.

(** ** Entering and leaving in turn *)

Definition is_inside (place : Place) : bool := match place with Inside _ => true | _ => false end.

(** Before a call comes to the gate, in it, and after. *)
Inductive Turn := Before | During | After.

Definition shape : Logic := {|
  St := Turn;
  may_ask _ _ := True;
  relied _ _ _ := True;
  assumed _ _ _ := True;
  heard s _ _ := s;
  may_see _ _ := True;
  may_set _ _ _ := True;
  may_enter s _ := s = Before;
  entered _ _ := During;
  may_leave s := s = During;
  outside _ := After;
|}.

Definition shape_at (_ : nat) (place : Place) (s : Turn) : Prop :=
  match place with Inside _ => s = During | Outside => s ≠ During | _ => s = Before end.
Definition shape_post (_ : nat) (s : Turn) (_ : Reply) : Prop := s ≠ During.

Lemma all_trivial reads xs : all_results (λ _ _, True) reads xs.
Proof. induction reads; cbn; auto. Qed.

Lemma shape_fits : fits shape shape_at shape_post any_memory.
Proof.
  split; cbn; unfold shape_at.
  - by eauto.
  - intros f place kind s Hr Hs ->. by destruct place; try destruct Hr.
  - done.
  - done.
  - intros f place s Hr Hs ->. by destruct place; try destruct Hr.
  - intros f place s reads xs Hs _. split; [apply all_trivial|done].
  - done.
  - done.
Qed.

Section Facts.
Context (config : RelayConfig) (ownContainer : option string)
  (nfkd_lower : string → string) (locale : string → string → Z).
Notation op_of := (op_of config ownContainer nfkd_lower locale).
Notation volume_event := (volume_event config ownContainer nfkd_lower locale).
Notation volume_run := (volume_run config ownContainer nfkd_lower locale).

Lemma required_shape id s (P : Turn → DockerVolume → Prop) :
  (∀ volume, P s volume) → checks shape s (required config id) P.
Proof. intros HP. unfold required, volumes. walk; cbn; auto. all: by repeat constructor. Qed.

Lemma deletable_shape id s (P : Turn → DockerVolume → Prop) :
  (∀ volume, P s volume) → checks shape s (deletable config ownContainer id) P.
Proof.
  intros HP. unfold deletable. apply checks_bind, required_shape. intros volume.
  unfold protection, configuredUses. walk; cbn; auto. all: by repeat constructor.
Qed.

Lemma inventory_shape s (P : Turn → Inventory → Prop) :
  (∀ inventory, P s inventory) → checks shape s (inventory config ownContainer locale) P.
Proof. intros HP. unfold inventory. walk; cbn; auto. by repeat constructor. Qed.

Lemma calls_shape f call : checks shape Before (op_of call) (shape_post f).
Proof.
  destruct call; cbn [VolumeWorld.op_of].
  - unfold delete_volume, forgetAppMountpoints. walk; [done|]. apply deletable_shape. intros volume. walk; cbn; auto.
    all: by repeat constructor.
  - unfold requireDeletable. walk; [done|]. apply deletable_shape. intros volume. by walk.
  - unfold create, volumes. walk; cbn; auto. all: by repeat constructor.
  - unfold rename. walk. apply required_shape. intros volume. walk; cbn; auto. by repeat constructor.
  - unfold find. walk. apply inventory_shape. intros iv. by walk.
  - unfold appVolumeIds. walk. apply inventory_shape. intros iv. by walk.
  - unfold ownedAppVolumeIds. walk. apply inventory_shape. intros iv. by walk.
  - unfold idsByDockerName. walk. apply inventory_shape. intros iv. by walk.
  - unfold appVolumeMountpoint, readMountpoint. walk; [done|done|]. apply inventory_shape. intros iv. by walk.
  - unfold writeAppReferences, volumes, forgetAppMountpoints. walk; cbn; auto. all: by repeat constructor.
  - unfold importAppReferences, forgetAppMountpoints. walk; cbn; auto. all: by repeat constructor.
  - unfold holdAppReferences. walk; cbn; auto. all: by repeat constructor.
  - unfold forgetApp, forgetAppMountpoints. walk; cbn; auto. all: by repeat constructor.
Qed.

(** ** The counts *)

Definition gate_ok (W : World) : Prop :=
  fibers_check shape shape_at shape_post any_memory W ∧ counts (w_gate W) (places W).

Lemma places_set_fiber f fiber W : places (set_fiber f (Some fiber) W) = <[f := f_place fiber]> (places W).
Proof. unfold places. cbn. by rewrite fmap_insert. Qed.

Lemma places_remove f W : places (set_fiber f None W) = delete f (places W).
Proof. unfold places. cbn. by rewrite fmap_delete. Qed.

Lemma places_lookup f fiber W : w_fibers W !! f = Some fiber → places W !! f = Some (f_place fiber).
Proof. intros E. unfold places. by rewrite lookup_fmap, E. Qed.

Lemma places_same f fiber W : w_fibers W !! f = Some fiber → <[f := f_place fiber]> (places W) = places W.
Proof. intros E. by apply insert_id, places_lookup. Qed.

Lemma finish_counts f place result W :
  counts (w_gate W) (<[f := place]> (places W)) →
  counts (w_gate (finish f place result W)) (places (finish f place result W)).
Proof.
  intros Hc%leave_counts%counts_gone. unfold finish.
  change (places (note ?l ?W)) with (places W). by rewrite places_remove.
Qed.

Lemma arrive_counts f kind op place W :
  place = Outside ∨ place = Opened →
  counts (w_gate W) (<[f := place]> (places W)) →
  counts (w_gate (arrive f kind op W)) (places (arrive f kind op W)).
Proof.
  intros Hpl Hc. assert (place ≠ AtDoor ∧ held_permits place = 0 ∧ is_hold place = 0) as (Hd & Hp0 & Hh0)
    by (by destruct Hpl; subst).
  pose proof (counts_free _ _ Hc). unfold arrive. destruct kind; [case_match|]; rewrite places_set_fiber; cbn [f_place].
  - destruct Hc as [Hp Hf Hh Hw Hn Ho].
    change (places (set_gate ?G W)) with (places W). cbn [w_gate set_fiber set_gate].
    assert (f ∉ waiting (w_gate W)) as Hnot by (rewrite Hw, lookup_insert_eq; congruence).
    split; cbn [free holds waiting].
    + rewrite (weigh_replace _ _ place). change (held_permits AtDoor) with 0. lia.
    + done.
    + rewrite (weigh_replace _ _ place). change (is_hold AtDoor) with 0. lia.
    + intros g. rewrite elem_of_app, list_elem_of_singleton, Hw. destruct (decide (g = f)) as [->|Hne].
      * rewrite !lookup_insert_eq. naive_solver.
      * rewrite !lookup_insert_ne by done. naive_solver.
    + apply NoDup_app. split; [done|]. split; [set_solver|apply NoDup_singleton].
    + intros E. match goal with H : (0 <? _)%nat = true |- _ => apply Nat.ltb_lt in H end. lia.
  - eapply counts_replace; [exact Hc|done|done|done|..]; cbn; [lia..|apply Hc].
  - eapply counts_replace; [exact Hc|done|done|done|..]; cbn; [lia..|done].
Qed.

Lemma settle_counts f now op : ∀ place W,
  runs place → counts (w_gate W) (<[f := place]> (places W)) →
  (∃ s, shape_at f place s ∧ checks shape s op (shape_post f)) →
  counts (w_gate (settle f now op place W)) (places (settle f now op place W)).
Proof.
  induction op as [reply|message|reads got k IH|g k IH|kind k IH|k IH]; intros place W Hr Hc (s & Hs & Hop); cbn [settle].
  - by apply finish_counts.
  - by apply finish_counts.
  - change (places (note ?l ?W)) with (places W). by rewrite places_set_fiber.
  - destruct (Hop now (w_memory W) I) as [_ Hk].
    apply (IH now (w_memory W) place (set_memory (g now (w_memory W)) W)); [exact Hr|exact Hc|by exists s].
  - destruct Hop as [-> _]. apply arrive_counts with place; [|done]. by left; destruct place.
  - destruct Hop as [-> Hk]. apply IH; [done|by apply leave_counts|by exists After].
Qed.

Lemma resume_counts f now reads got k place W :
  runs place → counts (w_gate W) (<[f := place]> (places W)) →
  (∃ s, shape_at f place s ∧ ∀ xs, checks shape s (k xs) (shape_post f)) →
  counts (w_gate (resume f now reads got k place W)) (places (resume f now reads got k place W)).
Proof.
  intros Hr Hc (s & Hs & Hk). unfold resume. destruct (complete reads got).
  - apply settle_counts; [done..|]. by exists s.
  - by rewrite places_set_fiber.
Qed.

Lemma gate_fibers W f fiber :
  gate_ok W → w_fibers W !! f = Some fiber →
  placed fiber ∧ (∃ s, shape_at f (f_place fiber) s ∧ checks shape s (f_op fiber) (shape_post f)) ∧
  counts (w_gate W) (<[f := f_place fiber]> (places W)).
Proof.
  intros [[_ Hf] Hc] E. destruct (Hf _ _ E) as [Hp Hop]. split; [done|]. split; [done|].
  by rewrite (places_same _ _ _ E).
Qed.

Lemma event_gate now event W : gate_ok W → gate_ok (volume_event now event W).
Proof.
  intros Hok. split.
  { apply event_checks; [apply shape_fits|apply Hok|]. destruct event; cbn; try done.
    intros _. exists Before. split; [done|]. apply calls_shape. }
  destruct event as [f call|f path given|f path|f message|f|f|f|client connection|client name|client]; cbn [VolumeWorld.volume_event]; try apply Hok.
  - destruct (w_fibers W !! f) eqn:E; [apply Hok|]. apply settle_counts; [done| |by exists Before; split; [|apply calls_shape]].
    apply counts_new; [apply Hok|]. unfold places. by rewrite lookup_fmap, E.
  - destruct (w_fibers W !! f) as [[op place]|] eqn:E; [|apply Hok].
    destruct op as [| |reads got k| | |]; try apply Hok.
    destruct (answer_at _ _ _ _) as [[[ask u] got']|] eqn:Ea; [|apply Hok].
    destruct (gate_fibers _ _ _ Hok E) as (Hp & (s & Hs & _ & _ & Hk) & Hc).
    apply resume_counts; [by destruct place; try destruct Hp|done|]. exists s. split; [done|].
    intros xs. apply Hk, all_trivial.
  - destruct (w_fibers W !! f) as [[op place]|] eqn:E; [|apply Hok].
    destruct op as [| |reads got k| | |]; try apply Hok.
    destruct (answer_at _ _ _ _) as [[[ask T] got']|] eqn:Ea; [|apply Hok].
    destruct (gate_fibers _ _ _ Hok E) as (Hp & (s & Hs & _ & _ & Hk) & Hc).
    apply resume_counts; [by destruct place; try destruct Hp|done|]. exists s. split; [done|].
    intros xs. apply Hk, all_trivial.
  - destruct (w_fibers W !! f) as [[[] place]|] eqn:E; try apply Hok. by apply finish_counts, (gate_fibers _ _ _ Hok E).
  - destruct (w_fibers W !! f) as [fiber|] eqn:E; [|apply Hok]. by apply finish_counts, (gate_fibers _ _ _ Hok E).
  - destruct (w_fibers W !! f) as [[op []]|] eqn:E; try apply Hok.
    apply arrive_counts with Opened; [by right|]. apply (gate_fibers _ _ _ Hok E).
  - destruct (w_fibers W !! f) as [[[| | | |kind' k|] place]|] eqn:E; try apply Hok.
    destruct place as [| | |kind|]; try apply Hok. case_match; [|apply Hok].
    destruct (gate_fibers _ _ _ Hok E) as (Hp & (s & -> & _ & Hk) & Hc). bool_to_prop.
    apply settle_counts; [done| |by exists During].
    change (places (set_gate ?G W)) with (places W). cbn [w_gate set_gate].
    eapply counts_replace; [exact Hc|done|done|done|..]; cbn [free holds waiting f_place];
      [by destruct kind; cbn [held_permits is_hold permits_of] in *; lia..|apply Hc].
Qed.

Lemma gate_ok_empty T : gate_ok (empty_world T).
Proof.
  split; [split; [done|by intros f fiber; cbn; rewrite lookup_empty]|]. unfold places. cbn. rewrite fmap_empty.
  split; cbn; try done; [|by constructor]. intros f. rewrite lookup_empty. split; [by intros []%not_elem_of_nil|done].
Qed.

Lemma run_gate events : ∀ W, gate_ok W → gate_ok (volume_run events W).
Proof. induction events as [|[now event] events IH]; intros W Hok; [done|]. apply IH, event_gate, Hok. Qed.

(** ** What passes while a hold waits or runs *)

Definition place_of (W : World) (f : nat) : option Place := f_place <$> w_fibers W !! f.

(** A call that shares the gate, at its permits or with one. *)
Definition passing (W : World) (f : nat) : Prop :=
  place_of W f = Some (AtPermits Shared) ∨ place_of W f = Some (Inside Shared).

Lemma open_passing W g : passing (MkWorld (w_tables W) (w_memory W) (w_gate W) (open_fiber <$> w_fibers W) (w_log W)) g → passing W g.
Proof.
  unfold passing, place_of. cbn. rewrite lookup_fmap. destruct (w_fibers W !! g) as [[op []]|]; cbn; naive_solver.
Qed.

Lemma leave_passing f place W g : passing (leave f place W) g → passing W g.
Proof.
  assert (∀ W', w_fibers W' = w_fibers W → passing (end_hold W') g → passing W g) as Hend.
  { intros W' E. unfold end_hold. destruct (pred _); intros Hp.
    - apply (open_passing W). unfold passing, place_of in *. cbn in *. by rewrite <-E.
    - unfold passing, place_of in *. cbn in *. by rewrite <-E. }
  destruct place as [| | |[]|[]]; cbn [leave]; try done; by apply Hend.
Qed.

Lemma set_fiber_passing f fiber W g :
  passing (set_fiber f (Some fiber) W) g →
  passing W g ∨ g = f ∧ (f_place fiber = AtPermits Shared ∨ f_place fiber = Inside Shared).
Proof.
  unfold passing, place_of. cbn. destruct (decide (g = f)) as [->|Hne].
  - rewrite lookup_insert_eq. cbn. naive_solver.
  - rewrite lookup_insert_ne by done. auto.
Qed.

Lemma finish_passing f place result W g : passing (finish f place result W) g → passing W g.
Proof.
  unfold finish. intros Hp. apply (leave_passing f place). revert Hp. unfold passing, place_of. cbn.
  destruct (decide (g = f)) as [->|Hne].
  - rewrite lookup_delete_eq. naive_solver.
  - by rewrite lookup_delete_ne.
Qed.

Lemma arrive_passing f kind op W g : (0 < holds (w_gate W))%nat → passing (arrive f kind op W) g → passing W g.
Proof.
  intros Hh. unfold arrive. destruct kind; [rewrite (proj2 (Nat.ltb_lt _ _) Hh)|];
    intros [Hp|[-> [E|E]]]%set_fiber_passing; try done.
Qed.

Lemma settle_passing f now op g : ∀ place s W,
  runs place → shape_at f place s → checks shape s op (shape_post f) → (s = Before → 0 < holds (w_gate W))%nat →
  passing (settle f now op place W) g → passing W g ∨ g = f ∧ place = Inside Shared.
Proof.
  induction op as [reply|message|reads got k IH|ch k IH|kind k IH|k IH]; intros place s W Hr Hs Hop Hh; cbn [settle].
  - intros Hp. left. by eapply finish_passing.
  - intros Hp. left. by eapply finish_passing.
  - intros Hp. apply (set_fiber_passing f (MkFiber (Await reads got k) place) W) in Hp as [Hp|[-> [E|E]]]; [by left| |by right].
    cbn in E. subst. destruct Hr.
  - destruct (Hop now (w_memory W) I) as [_ Hk]. intros Hp.
    apply (IH now (w_memory W) place s (set_memory (ch now (w_memory W)) W)); done.
  - destruct Hop as [-> _]. intros Hp. left. by eapply arrive_passing; [apply Hh|].
  - destruct Hop as [-> Hk]. intros Hp.
    destruct (IH Outside After (leave f place W)) as [Hp'|[_ [=]]]; [done..|]. left. by eapply leave_passing.
Qed.

(** While a hold waits or runs, nothing comes past it. *)
Lemma nothing_passes_hold now event W g :
  gate_ok W → (0 < holds (w_gate W))%nat → passing (volume_event now event W) g → passing W g.
Proof.
  intros Hok Hh.
  assert (∀ f fiber reads got k W', w_fibers W !! f = Some fiber → f_op fiber = Await reads got k →
            w_fibers W' = w_fibers W → w_gate W' = w_gate W →
            ∀ got', passing (resume f now reads got' k (f_place fiber) W') g → passing W g) as Hres.
  { intros f fiber reads got k W' E Eop Ef Eg got'. destruct (gate_fibers _ _ _ Hok E) as (Hp & (s & Hs & Hop) & _).
    rewrite Eop in Hop. destruct Hop as (_ & _ & Hk).
    assert (runs (f_place fiber)) as Hr by (unfold placed in Hp; rewrite Eop in Hp; destruct (f_place fiber); naive_solver).
    assert (∀ h, passing W' h ↔ passing W h) as Hsame by (intros h; unfold passing, place_of; by rewrite Ef).
    assert (g = f → f_place fiber = Inside Shared → passing W g) as Hself.
    { intros -> Ein. right. unfold place_of. by rewrite E, <-Ein. }
    unfold resume. destruct (complete reads got') as [xs|].
    - intros Hpass. destruct (settle_passing f now (k xs) g (f_place fiber) s W') as [Hp'|[-> Ein]]; try done.
      + apply Hk, all_trivial.
      + by rewrite Eg.
      + by apply Hsame.
      + by apply Hself.
    - intros [Hp'|[-> [Ein|Ein]]]%set_fiber_passing; [by apply Hsame| |by apply Hself].
      cbn in Ein. rewrite Ein in Hr. destruct Hr. }
  destruct event as [f call|f path given|f path|f message|f|f|f|client connection|client name|client]; cbn [VolumeWorld.volume_event]; try done.
  - destruct (w_fibers W !! f) eqn:E; [done|]. intros Hp.
    destruct (settle_passing f now (op_of call) g Outside Before W) as [?|[_ [=]]]; try done. apply calls_shape.
  - destruct (w_fibers W !! f) as [[op place]|] eqn:E; [|done]. destruct op as [| |reads got k| | |]; try done.
    destruct (answer_at _ _ _ _) as [[[ask u] got']|]; [|done].
    by apply (Hres f _ reads got k (note [LAnswered f ask] W) E).
  - destruct (w_fibers W !! f) as [[op place]|] eqn:E; [|done]. destruct op as [| |reads got k| | |]; try done.
    destruct (answer_at _ _ _ _) as [[[ask T] got']|]; [|done].
    by apply (Hres f _ reads got k (note [LAnswered f ask] (set_tables T W)) E).
  - destruct (w_fibers W !! f) as [[[] place]|]; try done. apply finish_passing.
  - destruct (w_fibers W !! f) as [fiber|]; [|done]. apply finish_passing.
  - destruct (w_fibers W !! f) as [[op []]|]; try done. by apply arrive_passing.
  - destruct (w_fibers W !! f) as [[[| | | |kind' k|] place]|] eqn:E; try done.
    destruct place as [| | |kind|]; try done. case_match; [|done].
    destruct (gate_fibers _ _ _ Hok E) as (Hp & (s & -> & _ & Hk) & _). intros Hpass.
    destruct (settle_passing f now k g (Inside kind) During (set_gate (MkGate (free (w_gate W) - permits_of kind)
                (holds (w_gate W)) (waiting (w_gate W))) W)) as [?|[-> [= ->]]]; try done.
    left. unfold place_of. by rewrite E.
Qed.

Lemma place_of_places W f : place_of W f = places W !! f.
Proof. unfold place_of, places. by rewrite lookup_fmap. Qed.

Lemma alone_inside W f g kind :
  gate_ok W → place_of W f = Some (Inside Alone) → place_of W g = Some (Inside kind) → g = f.
Proof.
  rewrite !place_of_places. intros [_ Hc] Hf Hg. destruct (decide (g = f)) as [|Hne]; [done|]. exfalso.
  pose proof (weigh_lookup_two held_permits _ _ _ _ _ held_permits_nonneg Hne Hg Hf).
  pose proof (counts_permits _ _ Hc). pose proof (counts_free _ _ Hc). destruct kind; cbn in *; unfold REFERENCE_PERMITS in *; lia.
Qed.

Lemma hold_counted W h :
  gate_ok W → place_of W h = Some (AtPermits Alone) ∨ place_of W h = Some (Inside Alone) → (0 < holds (w_gate W))%nat.
Proof.
  rewrite !place_of_places. intros [_ Hc] Hh. pose proof (counts_holds _ _ Hc).
  destruct Hh as [Hh|Hh]; pose proof (weigh_lookup is_hold _ _ _ is_hold_nonneg Hh); cbn in *; lia.
Qed.

(** If nobody is inside, the gate is free, and what keeps a call at its door
    is a hold at the permits. *)
Lemma free_gate_moves W f :
  gate_ok W → (∀ g kind, place_of W g ≠ Some (Inside kind)) →
  place_of W f = Some AtDoor ∨ place_of W f = Some Opened ∨ (∃ kind, place_of W f = Some (AtPermits kind)) →
  ∃ g, place_of W g = Some Opened ∨ ∃ kind, place_of W g = Some (AtPermits kind) ∧ permits_of kind <= free (w_gate W).
Proof.
  setoid_rewrite place_of_places. intros [_ Hc] Hnone Hf.
  assert (free (w_gate W) = REFERENCE_PERMITS) as Hfree.
  { pose proof (counts_permits _ _ Hc). destruct (decide (0 < weigh held_permits (places W))) as [Hpos|];
      [|pose proof (weigh_nonneg held_permits (places W) held_permits_nonneg); lia].
    apply weigh_pos in Hpos as (g & p & Hg & Hp); [|apply held_permits_nonneg]. destruct p; try done. by edestruct Hnone. }
  assert (∀ kind, permits_of kind <= free (w_gate W)) as Hall by (rewrite Hfree; by intros []).
  destruct Hf as [Hf|[Hf|[kind Hf]]]; [|by eauto..].
  assert (holds (w_gate W) ≠ 0%nat) as Hh.
  { intros E%(counts_open _ _ Hc). apply (counts_waiting _ _ Hc) in Hf. rewrite E in Hf. by apply not_elem_of_nil in Hf. }
  assert (0 < weigh is_hold (places W)) as Hpos by (rewrite <-(counts_holds _ _ Hc); lia).
  apply weigh_pos in Hpos as (g & p & Hg & Hp); [|apply is_hold_nonneg].
  destruct p as [| | |[]|[]]; try done; [|by edestruct Hnone]. eauto.
Qed.

(** C24: The gate of deletions and imports with holds, however the calls on
    volumes interleave, fail and are interrupted: a hold that runs is the only
    call inside; while one waits or runs, no call comes past it that was not
    past before; and when nobody is inside, some call that waits can go on. *)
Theorem holds_run_alone T events now event :
  let W := volume_run events (empty_world T) in
  (∀ f g kind, place_of W f = Some (Inside Alone) → place_of W g = Some (Inside kind) → g = f) ∧
  (∀ h f, place_of W h = Some (AtPermits Alone) ∨ place_of W h = Some (Inside Alone) →
          passing (volume_event now event W) f → passing W f) ∧
  (∀ f, (∀ g kind, place_of W g ≠ Some (Inside kind)) →
        place_of W f = Some AtDoor ∨ place_of W f = Some Opened ∨ (∃ kind, place_of W f = Some (AtPermits kind)) →
        ∃ g, place_of W g = Some Opened ∨
             ∃ kind, place_of W g = Some (AtPermits kind) ∧ permits_of kind <= free (w_gate W)).
Proof.
  intros W. assert (gate_ok W) as Hok by apply run_gate, gate_ok_empty. split; [|split].
  - intros f g kind. by apply alone_inside.
  - intros h f Hh. apply nothing_passes_hold; [done|]. by eapply hold_counted.
  - intros f. by apply free_gate_moves.
Qed.
End Facts.
