(* ===== verification/VolumeFacts.v ===== *)
(** * Deletions of volumes and what configurations name

    Once a Hearth held what it sent of its Apps' configurations, no volume is
    deleted until it sent them again. *)
From S2P Require Import Prelude AppKeys Images Cleanup.
From S2P Require Import Volumes VolumeStore VolumeOperations VolumeWorld VolumeGate VolumeLogic VolumeGateFacts.
Open Scope Z_scope.

Definition is_removal (ask : Ask) : bool := match ask with RemoveVolume _ => true | _ => false end.

(** An answer that says a Hearth is not paired, or that its import counts. *)
Definition shows (client : string) (ask : Ask) : answer ask → bool :=
  match ask return answer ask → bool with
  | ReadClients => λ clients, negb (existsb (λ c, bool_decide (cl_id c = client)) clients)
  | ReadImports => λ imports, bool_decide (is_Some (imports !! client))
  | _ => λ _, false
  end.

Fixpoint shows_any (client : string) (reads : Reads) : results reads → bool :=
  match reads return results reads → bool with
  | One ask => shows client ask
  | Both l r => λ xs, shows_any client l xs.1 || shows_any client r xs.2
  end.

Lemma shows_none client reads xs : all_results (λ ask a, shows client ask a = false) reads xs → shows_any client reads xs = false.
Proof.
  induction reads as [ask|l IHl r IHr]; cbn; [done|]. intros [Hl Hr]. by rewrite IHl, IHr.
Qed.

(** Until an answer heard inside the gate shows one of these, no volume is
    removed. *)
Definition removal (client : string) : Logic := {|
  St := option Sharing * bool;
  may_ask s ask :=
    (s.2 = false → is_removal ask = false) ∧
    (∀ other, ask = HoldImport other → s.1 = Some Alone);
  relied s ask a := s.1 = Some Shared → s.2 = false → shows client ask a = false;
  assumed _ _ _ := True;
  heard s reads xs := (s.1, s.2 || bool_decide (s.1 = Some Shared) && shows_any client reads xs);
  may_see _ _ := True;
  may_set _ _ _ := True;
  may_enter s _ := s.1 = None;
  entered _ kind := (Some kind, false);
  may_leave s := s.1 ≠ None;
  outside _ := (None, false);
|}.

Definition any_post (L : Logic) (_ : nat) (_ : St L) (_ : Reply) : Prop := True.

Lemma removal_shown client op : ∀ stay b f,
  checks (removal client) (stay, b) op (any_post (removal client) f) →
  checks (removal client) (stay, true) op (any_post (removal client) f).
Proof.
  induction op as [reply|message|reads got k IH|ch k IH|kind k IH|k IH]; intros stay b f Hop; try done.
  - destruct Hop as (Hm & Hg & Hk). split; [|split].
    + eapply Forall_impl; [exact Hm|]. by intros ask [_ ?].
    + clear. induction reads as [ask|l IHl r IHr]; cbn; [by destruct got|]. split; [apply IHl|apply IHr].
    + intros xs Hx. by eapply IH, Hk.
  - intros now M HM. destruct (Hop now M HM) as [? Hk]. split; [done|]. by eapply IH.
Qed.

(** ** Every call keeps to it *)

Section Facts.
Context (config : RelayConfig) (ownContainer : option string)
  (nfkd_lower : string → string) (locale : string → string → Z).
Notation op_of := (op_of config ownContainer nfkd_lower locale).
Notation volume_event := (volume_event config ownContainer nfkd_lower locale).
Notation volume_run := (volume_run config ownContainer nfkd_lower locale).

Section Client.
Context (client : string).
Notation L := (removal client).

Lemma not_ready clients imports connections :
  existsb (λ c, bool_decide (cl_id c = client)) clients = true → imports !! client = None →
  ready (protection_of clients imports connections) = false.
Proof.
  intros (c & Hc & E%bool_decide_eq_true_1)%existsb_exists Hi. unfold protection_of.
  destruct (clients ≫= owed connections imports) as [|x l] eqn:Eo; [|done]. exfalso.
  assert (owed connections imports c = []) as Hn.
  { destruct (owed connections imports c) as [|y ys] eqn:Ey; [done|]. exfalso.
    apply (not_elem_of_nil y). rewrite <-Eo. apply list_elem_of_bind. exists c. split; [|by apply list_elem_of_In].
    rewrite Ey. by left. }
  revert Hn. unfold owed. rewrite E, Hi. by case_match.
Qed.

Lemma quiet_asks s reads :
  forallb (λ ask, negb (is_removal ask) && match ask with HoldImport _ => false | _ => true end) (leaves reads) = true →
  Forall (may_ask L s) (leaves reads).
Proof.
  rewrite forallb_forall. intros Hq. apply Forall_forall. intros ask Hin%list_elem_of_In%Hq. bool_to_prop.
  split; [by intros _|]. by intros other ->.
Qed.

Ltac go := walk; try (by apply quiet_asks); cbn; auto.

Lemma required_removal id s (P : St L → DockerVolume → Prop) :
  (∀ volume b, P (s.1, b) volume) → checks L s (required config id) P.
Proof. intros HP. unfold required, volumes. go. Qed.

(** A volume found deletable by a call that shares the gate was found so with
    every paired Hearth's import. *)
Lemma deletable_removal id b (P : St L → DockerVolume → Prop) :
  (∀ volume, P (Some Shared, true) volume) → checks L (Some Shared, b) (deletable config ownContainer id) P.
Proof.
  intros HP. unfold deletable. apply checks_bind, required_removal. intros volume b'. cbn [fst].
  apply checks_bind. unfold protection. apply checks_bind, checks_asks; [by apply quiet_asks|].
  intros [clients imports] _. apply checks_look. intros now M _. split; [done|].
  destruct (ready (protection_of clients imports (connections M))) eqn:Er; [|done].
  match goal with |- checks _ ?s _ _ => assert (s = (Some Shared, true)) as -> end.
  { cbn. f_equal. rewrite bool_decide_true by done. destruct (existsb (λ c, bool_decide (cl_id c = client)) clients) eqn:Ec; [|by destruct b'].
    case_bool_decide as Hi; [by destruct b'|]. apply eq_None_not_Some in Hi.
    by rewrite (not_ready _ _ _ Ec Hi) in Er. }
  unfold configuredUses. go.
Qed.

Lemma inventory_removal s (P : St L → Inventory → Prop) :
  (∀ iv b, P (s.1, b) iv) → checks L s (inventory config ownContainer locale) P.
Proof. intros HP. unfold inventory. go. Qed.

Lemma calls_removal f call : checks L (None, false) (op_of call) (any_post L f).
Proof.
  destruct call; cbn [VolumeWorld.op_of]; unfold any_post.
  - unfold delete_volume, forgetAppMountpoints. walk; [done|]. apply deletable_removal. intros volume.
    walk; try (by apply quiet_asks); try done. by repeat constructor.
  - unfold requireDeletable. walk; [done|]. apply deletable_removal. intros volume. by walk.
  - unfold create, volumes. go.
  - unfold rename. walk. apply required_removal. intros volume b. go.
  - unfold find. walk. apply inventory_removal. by go.
  - unfold appVolumeIds. walk. apply inventory_removal. by go.
  - unfold ownedAppVolumeIds. walk. apply inventory_removal. by go.
  - unfold idsByDockerName. walk. apply inventory_removal. by go.
  - unfold appVolumeMountpoint, readMountpoint. walk; [done|done|]. apply inventory_removal. intros iv b. by walk.
  - unfold writeAppReferences, volumes, forgetAppMountpoints. go.
  - unfold importAppReferences, forgetAppMountpoints. go.
  - unfold holdAppReferences. walk; try done. repeat constructor; by intros ?.
  - unfold forgetApp, forgetAppMountpoints. go.
Qed.

(** ** Before and since a hold *)

(** A call that shares the gate before the hold may have heard anything. *)
Definition before_hold (_ : nat) (place : Place) (s : option Sharing * bool) : Prop :=
  match place with
  | Inside Shared => s = (Some Shared, true)
  | Inside Alone => s = (Some Alone, false)
  | _ => s = (None, false)
  end.

Definition since_hold (_ : nat) (place : Place) (s : option Sharing * bool) : Prop :=
  match place with Inside kind => s = (Some kind, false) | _ => s = (None, false) end.

Lemma before_hold_fits : fits L before_hold (any_post L) any_memory.
Proof.
  split; cbn.
  - intros f [] s -> _; [|by eauto]. eexists. split; [done|]. intros op. by apply removal_shown.
  - intros f place kind s Hr Hs Hn. by destruct place as [| | |[]|[]]; try destruct Hr; cbn in Hs; subst.
  - done.
  - done.
  - intros f place s Hr Hs Hn. by destruct place as [| | |[]|[]]; try destruct Hr; cbn in Hs; subst.
  - intros f place s reads xs Hs _. split; [apply all_trivial|].
    destruct place as [| | |[]|[]]; cbn in Hs; subst; cbn; by rewrite ?bool_decide_false by done.
  - done.
  - done.
Qed.

Lemma since_hold_fits : fits L since_hold (any_post L) any_memory.
Proof.
  split; cbn.
  - intros f kind s -> _. eauto.
  - intros f place kind s Hr Hs Hn. by destruct place; try destruct Hr; cbn in Hs; subst.
  - done.
  - done.
  - intros f place s Hr Hs Hn. by destruct place; try destruct Hr; cbn in Hs; subst.
  - intros f place s reads xs Hs Hx. split; [apply all_trivial|].
    destruct place as [| | |[]|[]]; cbn in Hs; subst; cbn; rewrite ?bool_decide_false by done; try done.
    rewrite bool_decide_true by done. cbn. rewrite shows_none; [done|]. eapply all_results_weaken; [|exact Hx]. by cbn; auto.
  - done.
  - done.
Qed.

(** The Hearth is paired and its import does not count. *)
Definition unsent (T : VolumeTables) : Prop :=
  vt_imports T !! client = None ∧ existsb (λ c, bool_decide (cl_id c = client)) (listClients T) = true.

Lemma unsent_shows_docker given ask u a : from_docker given ask = Some (u, a) → shows client ask a = false.
Proof. unfold from_docker. destruct ask, given; cbn; by intros. Qed.

Lemma unsent_shows T ask T' a : unsent T → from_store T ask = Some (T', a) → shows client ask a = false.
Proof.
  intros [Hi Hc]. unfold from_store. destruct ask; cbn; try done.
  - intros [= <- <-]. by rewrite Hc.
  - intros [= <- <-]. rewrite Hi. done.
Qed.

Lemma unsent_resolved clientId appIds T : unsent T → unsent (resolveAppVolumeReferences clientId appIds T).
Proof. intros [Hi Hc]. split; [|done]. cbn. by rewrite map_lookup_imap, Hi. Qed.

Definition imports_client (ask : Ask) : bool :=
  match ask with Import c _ _ _ => bool_decide (c = client) | _ => false end.

Lemma unsent_stored T ask T' a : imports_client ask = false → unsent T → from_store T ask = Some (T', a) → unsent T'.
Proof.
  intros Hn Hu. unfold from_store.
  destruct ask as [| | | | | | | | | | |c app ids|c conn apps un|c app|c]; cbn; try done; try (by intros [= <- <-]).
  - destruct (replaceAppVolumeReferences c app ids T) as [T1|] eqn:E; [|done]. cbn. intros [= <- <-].
    unfold replaceAppVolumeReferences in E. inv_ok. subst. by apply unsent_resolved.
  - destruct (importAppVolumeReferences c conn apps un T) as [T1|] eqn:E; [|done]. cbn. intros [= <- <-].
    unfold importAppVolumeReferences in E. inv_ok. subst. destruct Hu as [Hi Hc]. split; [|done]. cbn.
    cbn in Hn. apply bool_decide_eq_false in Hn. by rewrite lookup_insert_ne.
  - intros [= <- <-]. by apply unsent_resolved.
  - intros [= <- <-]. destruct Hu as [Hi Hc]. split; [|done]. cbn. apply lookup_delete_None. auto.
Qed.

Lemma listed_client T :
  existsb (λ c, bool_decide (cl_id c = client)) (listClients T) = true ↔
  ∃ c, c ∈ vt_clients T ∧ cl_id c = client ∧ revoked c = false.
Proof.
  rewrite existsb_exists. unfold listClients. setoid_rewrite filter_In. setoid_rewrite <-list_elem_of_In.
  setoid_rewrite bool_decide_eq_true. setoid_rewrite negb_true_iff. naive_solver.
Qed.

Lemma unsent_paired id name T : unsent T → unsent (pairClient id name T).
Proof.
  intros [Hi Hc]. split; [done|]. rewrite listed_client in *. destruct Hc as (c & Hc & Ec & Er). cbn. case_match.
  - destruct (decide (id = client)) as [->|Hne].
    + exists (MkClient client name false). split; [|done]. apply list_elem_of_fmap. exists c. by rewrite decide_True.
    + exists c. split; [|done]. apply list_elem_of_fmap. exists c. by rewrite decide_False by congruence.
  - exists c. split; [|done]. apply elem_of_app. by left.
Qed.

Lemma unsent_revoked id T : id ≠ client → unsent T → unsent (revokeClient id T).
Proof.
  intros Hne [Hi Hc]. split; [done|]. rewrite listed_client in *. destruct Hc as (c & Hc & Ec & Er).
  exists c. split; [|done]. apply list_elem_of_fmap. exists c. by rewrite decide_False by congruence.
Qed.


(** ** Since a hold *)

Definition removes (entry : Entry) : bool := match entry with LAsked _ ask => is_removal ask | _ => false end.
Definition imports (entry : Entry) : bool := match entry with LAnswered _ ask => imports_client ask | _ => false end.

Definition nothing_sent (W : World) : Prop :=
  unsent (w_tables W) ∧ fibers_check L since_hold (any_post L) any_memory W.

Lemma since_hold_quiet entry : entry_ok L since_hold (any_post L) entry → removes entry = false.
Proof.
  destruct entry as [| | |f ask| |]; try done. intros (place & s & Hs & Hm & _). cbn. apply Hm.
  by destruct place as [| | |[]|[]]; cbn in Hs; subst.
Qed.

Lemma since_hold_event now event W :
  nothing_sent W → event ≠ Revokes client →
  let W' := volume_event now event W in
  Forall (λ entry, removes entry = false) (recorded_since W W') ∧
  (nothing_sent W' ∨ Exists (λ entry, imports entry = true) (recorded_since W W')).
Proof.
  intros [Hu Hc] Hne W'. subst W'.
  destruct (event_checks config ownContainer nfkd_lower locale L since_hold (any_post L) any_memory since_hold_fits now event W)
    as [Hc' (entries & El & Hok)]; [done| |].
  { destruct event; cbn; try done.
    - intros _. exists (None, false). split; [done|apply calls_removal].
    - intros fiber s ask u a _ _ Hd _ _. by eapply unsent_shows_docker.
    - intros fiber s ask T a _ _ Hd _ _. by eapply unsent_shows. }
  rewrite (recorded_grows _ _ _ El). split; [eapply Forall_impl; [exact Hok|apply since_hold_quiet]|].
  assert (∀ W', w_tables W' = w_tables W → unsent (w_tables W')) as Hsame by (by intros W' ->).
  unfold nothing_sent. revert El Hc'.
  destruct event as [f call|f path given|f path|f message|f|f|f|c connection|c name|c]; cbn [VolumeWorld.volume_event]; intros El Hc';
    try (by left; split; [|done]).
  - left. split; [|done]. apply Hsame. case_match; [done|]. apply settle_tables.
  - left. split; [|done]. apply Hsame. repeat case_match; try done. by rewrite resume_tables.
  - destruct (w_fibers W !! f) as [[op place]|] eqn:E; [|by left]. destruct op as [| |reads got k| | |]; try (by left).
    destruct (answer_at _ _ _ _) as [[[ask T] got']|] eqn:Ea; [|by left].
    destruct (imports_client ask) eqn:Ei.
    + right. destruct (resume_log f now reads got' k place (note [LAnswered f ask] (set_tables T W))) as [more Em].
      rewrite El in Em. cbn in Em. rewrite <-app_assoc in Em. apply app_inv_head in Em. subst entries. by left.
    + left. split; [|done]. rewrite resume_tables. cbn. apply answer_at_answers in Ea as (_ & a & Ea).
      by eapply unsent_stored.
  - left. split; [|done]. apply Hsame. repeat case_match; try done. unfold finish. cbn. by rewrite leave_tables.
  - left. split; [|done]. apply Hsame. repeat case_match; try done. unfold finish. cbn. by rewrite leave_tables.
  - left. split; [|done]. apply Hsame. repeat case_match; try done; unfold arrive; by case_match.
  - left. split; [|done]. apply Hsame. repeat case_match; try done. by rewrite settle_tables.
  - left. split; [|done]. by apply unsent_paired.
  - left. split; [|done]. apply unsent_revoked; [congruence|done].
Qed.

Lemma since_hold_run events : ∀ W,
  nothing_sent W → (∀ now, (now, Revokes client) ∉ events) →
  Exists (λ entry, removes entry = true) (recorded_since W (volume_run events W)) →
  Exists (λ entry, imports entry = true) (recorded_since W (volume_run events W)).
Proof.
  induction events as [|[now event] events IH]; intros W Hn Hr.
  { unfold recorded_since. cbn. rewrite drop_all. by intros ?%Exists_nil. }
  change (volume_run ((now, event) :: events) W) with (volume_run events (volume_event now event W)).
  destruct (since_hold_event now event W Hn) as [Hq Hor]; [intros ->; apply (Hr now); by left|].
  destruct (event_log config ownContainer nfkd_lower locale now event W) as [e1 E1].
  destruct (run_log config ownContainer nfkd_lower locale events (volume_event now event W)) as [e2 E2].
  rewrite (recorded_grows _ _ _ E1) in Hq, Hor.
  rewrite (recorded_grows W _ (e1 ++ e2)) by (by rewrite E2, E1, app_assoc).
  rewrite !Exists_app. intros [Hx|Hx].
  - apply Exists_exists in Hx as (entry & Hin & Ht). rewrite Forall_forall in Hq. by rewrite (Hq _ Hin) in Ht.
  - destruct Hor as [Hn'|Hi]; [|by left]. right. rewrite <-(recorded_grows _ _ _ E2). apply IH; [done| |].
    + intros now' Hin. apply (Hr now'). by right.
    + by rewrite (recorded_grows _ _ _ E2).
Qed.
End Client.

(** ** Reaching the hold *)

Lemma before_hold_run client events : ∀ W,
  fibers_check (removal client) before_hold (any_post (removal client)) any_memory W →
  fibers_check (removal client) before_hold (any_post (removal client)) any_memory (volume_run events W).
Proof.
  induction events as [|[now event] events IH]; intros W Hc; [done|]. apply IH.
  apply event_checks; [apply before_hold_fits|done|]. destruct event; cbn; try done.
  - intros _. exists (None, false). split; [done|apply calls_removal].
  - intros fiber s ask u a _ Hs _ Hsh Hf. by destruct (f_place fiber) as [| | |[]|[]]; cbn in Hs; subst.
  - intros fiber s ask T a _ Hs _ Hsh Hf. by destruct (f_place fiber) as [| | |[]|[]]; cbn in Hs; subst.
Qed.

(** A call waits for the store to hold a Hearth's import. *)
Definition holding (W : World) (f : nat) (client : string) : bool :=
  match w_fibers W !! f with
  | Some (MkFiber (Await reads got _) _) =>
      match reads return partial reads → bool with
      | One (HoldImport c) => λ got, bool_decide (got = None) && bool_decide (c = client)
      | _ => λ _, false
      end got
  | _ => false
  end.

Lemma holding_spec W f client :
  holding W f client = true →
  ∃ k place, w_fibers W !! f = Some (MkFiber (Await (One (HoldImport client)) None k) place).
Proof.
  unfold holding. destruct (w_fibers W !! f) as [[op place]|]; [|done]. destruct op as [| |reads got k| | |]; try done.
  destruct reads as [[]|]; try done. intros [Hg Hc]%andb_true_iff.
  apply bool_decide_eq_true in Hg, Hc. subst. eauto.
Qed.

Definition paired (client : string) (T : VolumeTables) : bool :=
  existsb (λ c, bool_decide (cl_id c = client)) (listClients T).

Lemma hold_nothing_sent client T events now f :
  let W := volume_run events (empty_world T) in
  holding W f client = true → paired client (w_tables W) = true → nothing_sent client (volume_event now (Stored f []) W).
Proof.
  intros W (k & place & E)%holding_spec Hp.
  assert (fibers_check (removal client) before_hold (any_post (removal client)) any_memory W) as [_ Hf].
  { apply before_hold_run. split; [done|]. intros g fiber. cbn. by rewrite lookup_empty. }
  assert (gate_ok W) as Hok by apply run_gate, gate_ok_empty.
  assert (place = Inside Alone) as ->.
  { destruct (Hf _ _ E) as [_ (s & Hs & Hm & _)]. apply Forall_cons in Hm as [[_ Hm] _].
    specialize (Hm client eq_refl). by destruct place as [| | |[]|[]]; cbn in Hs; subst. }
  assert (fibers_check (removal client) since_hold (any_post (removal client)) any_memory W) as Hsince.
  { split; [done|]. intros g fiber Eg. destruct (Hf _ _ Eg) as [Hpl (s & Hs & Hop)]. split; [done|]. exists s. split; [|done].
    destruct (f_place fiber) as [| | |[]|[]] eqn:Eplace; cbn in *; try done. exfalso.
    assert (g = f) as ->.
    { apply (alone_inside W f g Shared Hok); unfold place_of; [by rewrite E|by rewrite Eg, <-Eplace]. }
    rewrite E in Eg. injection Eg as <-. done. }
  split; [|apply event_checks; [apply since_hold_fits|done|]].
  - cbn [VolumeWorld.volume_event]. rewrite E. cbn. rewrite settle_tables. cbn. split; [|done]. cbn. by rewrite lookup_delete_eq.
  - cbn. intros fiber s ask T' a Eg Hs _ Hsh. rewrite E in Eg. injection Eg as <-. cbn in Hs. by subst.
Qed.

(** C23: From when a Hearth's hold takes effect, and while it stays paired,
    Docker is not asked to remove any volume until an import of that Hearth
    was stored: deletions already under way were waited for, and later ones
    find its earlier import gone, however calls interleave, fail and are
    interrupted. *)
Theorem deletions_wait_for_import client T before now f after g name :
  let W := volume_run before (empty_world T) in
  let held := volume_event now (Stored f []) W in
  let later := volume_run after held in
  holding W f client = true →
  paired client (w_tables W) = true →
  (∀ time, (time, Revokes client) ∉ after) →
  LAsked g (RemoveVolume name) ∈ recorded_since held later →
  ∃ h connection apps unresolved, LAnswered h (Import client connection apps unresolved) ∈ recorded_since held later.
Proof.
  intros W held later Hh Hp Hr Hin.
  assert (nothing_sent client held) as Hn by (by apply hold_nothing_sent).
  destruct (proj1 (Exists_exists _ _) (since_hold_run client after held Hn Hr ltac:(apply Exists_exists; by eexists)))
    as ([| | | |h ask|] & Hi & He); try done.
  destruct ask; try done. cbn in He. apply bool_decide_eq_true_1 in He as ->. by exists h, connection, apps, unresolved.
Qed.
End Facts.

(** ** A run *)

Definition sample_config : RelayConfig := MkConfig None false None "relay" "kiln.server.id".
Definition sample_volume_id : string := "3f9a21c4000000000000000000000000000000ab".
Definition sample_volume : DockerVolume :=
  MkVolume None (Some (<["kiln.resource.kind" := "volume"]> {["kiln.volume.id" := sample_volume_id]})) (Some "/mnt/data") "kiln-data".
Definition sample_tables : VolumeTables := MkVolumeTables [MkClient "hearth" "Hearth" false] ∅ ∅ ∅.
Notation sample_event := (volume_event sample_config None to_lower (λ _ _, 0)).
Notation sample_run := (volume_run sample_config None to_lower (λ _ _, 0)).

Definition sample_before : list (Z * Event) := pair 0 <$>
  [Connects "hearth" "first"; Started 1 (CallImport "hearth" "first" [] []); Granted 1; Stored 1 [];
   Started 2 (CallHold "hearth" "first"); Started 3 (CallDelete sample_volume_id); Granted 2].

Definition sample_after : list (Z * Event) := pair 1 <$>
  [Retried 3; Granted 3; Docker 3 [] (Volumes [sample_volume]); Stored 3 [false];
   Connects "hearth" "second"; Started 4 (CallImport "hearth" "second" [] []); Granted 4; Stored 4 [];
   Stored 3 [true]; Stored 3 [false]; Stored 3 [true; false]; Docker 3 [true; true] (Networks []);
   Docker 3 [] (Containers [])].

Lemma deletions_wait_for_import_witness :
  let W := sample_run sample_before (empty_world sample_tables) in
  let held := sample_event 1 (Stored 2 []) W in
  holding W 2 "hearth" = true ∧
  LAsked 3 (RemoveVolume "kiln-data") ∈ recorded_since held (sample_run sample_after held) ∧
  ∃ h connection apps unresolved,
    LAnswered h (Import "hearth" connection apps unresolved) ∈ recorded_since held (sample_run sample_after held).
Proof.
  intros W held.
  assert (holding W 2 "hearth" = true) as Hh by (vm_compute; reflexivity).
  assert (LAsked 3 (RemoveVolume "kiln-data") ∈ recorded_since held (sample_run sample_after held)) as Hin.
  { apply (list_elem_of_lookup_2 _ 18%nat). vm_compute. reflexivity. }
  split; [exact Hh|]. split; [exact Hin|].
  apply (deletions_wait_for_import sample_config None to_lower (λ _ _, 0) "hearth" sample_tables sample_before 1 2 sample_after
           3 "kiln-data"); [exact Hh|reflexivity| |exact Hin].
  intros time. unfold sample_after. rewrite list_elem_of_fmap. intros (event & [= _ <-] & Hev).
  repeat (apply elem_of_cons in Hev as [Hev|Hev]; [discriminate|]). by apply not_elem_of_nil in Hev.
Defined.
