(* ===== verification/VolumePaths.v ===== *)
(** * Where an App's volumes are

    [appVolumeMountpoint] answers from what it knew, for a while; what it
    knew is forgotten when who uses a volume changes, and a read begun before
    then does not put it back. *)
From S2P Require Import Prelude AppKeys Images Cleanup.
From S2P Require Import Volumes VolumeStore VolumeOperations VolumeWorld VolumeGate VolumeLogic VolumeGateFacts.
Open Scope Z_scope.

(** ** Users of a volume *)

Lemma volumeUsers_apps configuredBy mounts user :
  user ∈ volumeUsers configuredBy mounts → u_appId user ∈ configuredBy ∨ u_appId user ∈ omap mounting_app mounts.
Proof.
  unfold volumeUsers. intros (appId & -> & Hin)%list_elem_of_fmap. cbn.
  rewrite stable_sort_perm, js_distinct_elem, elem_of_app, !js_distinct_elem in Hin. done.
Qed.

Lemma give_ids_elem taken ordered given : given ∈ give_ids taken ordered → given.2 ∈ ordered.
Proof.
  revert taken. induction ordered as [|c rest IH]; intros taken; cbn; [by intros []%not_elem_of_nil|].
  case_decide; intros [->|Hin]%elem_of_cons; cbn; try (by left); right; eauto.
Qed.

Lemma ownedVolumes_owner locale mounts config listed given :
  given ∈ ownedVolumes locale mounts config listed →
  given.2.2 ∈ listed ∧ appVolumeOwner config (v_Labels given.2.2) = Some given.2.1.
Proof.
  unfold ownedVolumes. intros Hin%give_ids_elem. rewrite stable_sort_perm in Hin. destruct given as [rid c]. cbn in *.
  apply list_elem_of_omap in Hin as (volume & Hv & Hg). apply fmap_Some in Hg as (owner & Ho & ->). done.
Qed.

Section Uses.
Context (config : RelayConfig) (ownContainer : option string)
  (nfkd_lower : string → string) (locale : string → string → Z).
Context (appId id : string).

(** An answer that says nothing of the App using the volume. *)
Definition unused (ask : Ask) : answer ask → Prop :=
  match ask return answer ask → Prop with
  | ReadReferences => λ rows, ∀ c, (c, appId, id) ∉ rows
  | ListContainers => λ containers, ∀ name mount,
      mount ∈ default [] (volumeMounts containers ownContainer !! name) → mounting_app mount ≠ Some appId
  | ListVolumes _ => λ listed, ∀ volume owner,
      volume ∈ listed → appVolumeOwner config (v_Labels volume) = Some owner → o_appId owner ≠ appId
  | _ => λ _, True
  end.

Lemma view_unused mounts volume rid kind name owner configuredBy :
  (∀ name mount, mount ∈ default [] (mounts !! name) → mounting_app mount ≠ Some appId) →
  appId ∉ configuredBy → fst <$> owner ≠ Some appId →
  app_uses appId (volumeView volume mounts rid kind name owner configuredBy) = false.
Proof.
  intros Hm Hc Ho. unfold app_uses. cbn [rv_owner users volumeView]. rewrite bool_decide_false by done. cbn.
  destruct (existsb _ _) eqn:E; [|done]. exfalso.
  apply existsb_exists in E as (user & Hu%list_elem_of_In & E%bool_decide_eq_true_1).
  apply volumeUsers_apps in Hu as [Hu|Hu]; rewrite E in Hu; [done|].
  apply list_elem_of_omap in Hu as (mount & Hin & Hmount). by apply (Hm _ _ Hin).
Qed.

Lemma inventory_unused xs volume :
  all_results unused inventory_reads xs → find_in id (inventory_of config ownContainer locale xs) = Some volume →
  app_uses appId volume = false.
Proof.
  destruct xs as (listed & composed & containers & names & references & clients & networks).
  intros (_ & Hc & Hm & _ & Hr & _) Hf. cbn in Hc, Hm, Hr. unfold find_in in Hf.
  apply find_some in Hf as [Hin%list_elem_of_In Hid%bool_decide_eq_true_1]. cbn [iv_volumes inventory_of] in Hin.
  apply elem_of_app in Hin as [Hin|Hin]; apply list_elem_of_fmap in Hin as (given & -> & Hg).
  - apply view_unused; [done| |done]. cbn in Hid. rewrite Hid. unfold truthy.
    case_decide; [apply not_elem_of_nil|]. intros (use & Hu & E)%list_elem_of_omap. case_decide; [|done].
    injection E as E. apply list_elem_of_In, filter_In in Hu as [Hu%list_elem_of_In _].
    apply (Hr use.1.1). destruct use as [[c a] v]. cbn in *. by subst.
  - destruct given as [rid [owner volume']]. apply ownedVolumes_owner in Hg as [Hv Ho]. cbn in *.
    apply view_unused; [done|apply not_elem_of_nil|]. cbn. intros [= E]. by eapply Hc.
Qed.

(** ** What is known and when *)

Notation key := (appId, id).

Definition forgotten (E : Z) (M : Memory) : Prop := E <= appMountpointsEpoch M ∧ appMountpoints M !! key = None.

(** A call is new when all it hears is heard since. *)
Definition paths (E : Z) : Logic := {|
  St := Turn * bool;
  may_ask _ _ := True;
  relied s ask a := s.2 = true → unused ask a;
  assumed s ask a := s.2 = true → unused ask a;
  heard s _ _ := s;
  may_see s M := s.2 = true → forgotten E M;
  may_set _ M M' :=
    appMountpointsEpoch M <= appMountpointsEpoch M' ∧
    (appMountpointsEpoch M < appMountpointsEpoch M' → appMountpoints M' = ∅) ∧
    (forgotten E M → forgotten E M');
  may_enter s _ := s.1 = Before;
  entered s _ := (During, s.2);
  may_leave s := s.1 = During;
  outside s := (After, s.2);
|}.

Notation op_of := (op_of config ownContainer nfkd_lower locale).
Notation volume_event := (volume_event config ownContainer nfkd_lower locale).
Notation volume_run := (volume_run config ownContainer nfkd_lower locale).

Section Calls.
Context (E : Z).
Notation L := (paths E).

Lemma unchanged s M : may_set L s M M.
Proof. cbn. split; [lia|]. split; [lia|done]. Qed.

Lemma held_sets s M h : may_set L s M (set_held h M).
Proof. cbn. split; [lia|]. split; [lia|done]. Qed.

Lemma forget_sets s M : may_set L s M (set_mountpoints ∅ (appMountpointsEpoch M + 1) M).
Proof. cbn. split; [lia|]. split; [done|]. intros [He Hk]. split; cbn; [lia|apply lookup_empty]. Qed.

Lemma remember_sets s appId' id' path epoch now M :
  epoch < E ∨ (appId', id') ≠ key → may_set L s M (remember appId' id' path epoch now M).
Proof.
  intros Hor. unfold remember. case_decide as Ee; [|apply unchanged]. cbn. split; [lia|]. split; [lia|].
  intros [He Hk]. split; [done|]. cbn. destruct Hor as [Hlt|Hne]; [lia|].
  rewrite lookup_insert_ne by done. case_decide; [apply lookup_empty|done].
Qed.

Lemma any_asks s reads : Forall (may_ask L s) (leaves reads).
Proof. by apply Forall_true. Qed.

Ltac go := walk; try apply any_asks; try apply unchanged; try apply forget_sets; try apply held_sets; cbn; auto.

Lemma required_paths vid s (P : St L → DockerVolume → Prop) :
  (∀ volume, P s volume) → checks L s (required config vid) P.
Proof. intros HP. unfold required, volumes. go. Qed.

Lemma deletable_paths vid s (P : St L → DockerVolume → Prop) :
  (∀ volume, P s volume) → checks L s (deletable config ownContainer vid) P.
Proof.
  intros HP. unfold deletable. apply checks_bind, required_paths. intros volume.
  unfold protection, configuredUses. go.
Qed.

Lemma inventory_paths s (P : St L → Inventory → Prop) :
  (∀ xs, all_results (assumed L s) inventory_reads xs → P s (inventory_of config ownContainer locale xs)) →
  checks L s (inventory config ownContainer locale) P.
Proof. intros HP. unfold inventory. walk; [apply any_asks|]. cbn. auto. Qed.

Lemma read_paths appId' id' epoch b (P : St L → Reply → Prop) :
  epoch < E ∨ (appId', id') ≠ key → (∀ path, P (Before, b) (RMountpoint path)) →
  checks L (Before, b) (readMountpoint config ownContainer locale appId' id' epoch) P.
Proof.
  intros Hor HP. unfold readMountpoint. apply checks_bind, inventory_paths. intros xs _. walk; [|done].
  by apply remember_sets.
Qed.

(** A new call for the volume finds that the App does not use it. *)
Lemma new_paths (P : St L → Reply → Prop) :
  checks L (Before, true) (appVolumeMountpoint config ownContainer locale appId id) P.
Proof.
  unfold appVolumeMountpoint. apply checks_bind, checks_look. intros now M HM.
  destruct (HM eq_refl) as [_ ->]. split; [apply unchanged|].
  unfold readMountpoint. apply checks_bind, inventory_paths. intros xs Hxs.
  destruct (find_in id _) as [volume|] eqn:Ef; [|done].
  rewrite (inventory_unused xs volume); [by case_match| |done].
  eapply all_results_weaken; [|exact Hxs]. cbn. auto.
Qed.

Definition ended (s : St L) (_ : Reply) : Prop := s.1 ≠ During.

Lemma calls_paths call b :
  call ≠ CallMountpoint appId id → checks L (Before, b) (op_of call) ended.
Proof.
  intros Hne. destruct call; cbn [VolumeWorld.op_of]; unfold ended.
  - unfold delete_volume, forgetAppMountpoints. walk; [done|]. apply deletable_paths. intros volume. go.
  - unfold requireDeletable. walk; [done|]. apply deletable_paths. intros volume. by go.
  - unfold create, volumes. go.
  - unfold rename. walk. apply required_paths. intros volume. go.
  - unfold find. walk. by apply inventory_paths.
  - unfold appVolumeIds. walk. by apply inventory_paths.
  - unfold ownedAppVolumeIds. walk. by apply inventory_paths.
  - unfold idsByDockerName. walk. by apply inventory_paths.
  - unfold appVolumeMountpoint. walk; [apply unchanged|done|]. apply read_paths; [right; congruence|done].
  - unfold writeAppReferences, volumes, forgetAppMountpoints. go.
  - unfold importAppReferences, forgetAppMountpoints. go.
  - unfold holdAppReferences. go.
  - unfold forgetApp, forgetAppMountpoints. go.
Qed.
End Calls.

(** ** Until it is forgotten *)

Definition epoch_of (W : World) : Z := appMountpointsEpoch (w_memory W).

(** Calls under way began before the epoch [E]. *)
Definition old_at (f : nat) (place : Place) (s : Turn * bool) : Prop := shape_at f place s.1 ∧ s.2 = false.
Definition old_post E (_ : nat) : St (paths E) → Reply → Prop := ended E.
Definition old_memory (e E : Z) (M : Memory) : Prop :=
  e <= appMountpointsEpoch M ∧ (appMountpointsEpoch M < E ∨ forgotten E M).

Lemma old_fits e E : fits (paths E) old_at (old_post E) (old_memory e E).
Proof.
  split; cbn; unfold old_at.
  - intros f kind [t b] [_ ->] _. exists (During, false). by split.
  - intros f place kind [t b] Hr [Hs ->] Ht. cbn in *. subst. by destruct place; try destruct Hr.
  - by intros f [t b] [Hs ->].
  - done.
  - intros f place [t b] Hr [Hs ->] Ht. cbn in *. subst. by destruct place; try destruct Hr.
  - intros f place s reads xs Hs Hx. done.
  - intros f place s M [_ ->] _ [=].
  - intros f place s M M' _ [He Hor] (Hle & Hnew & Hkeep). split; [lia|]. destruct Hor as [Hlt|Hf]; [|by right; auto].
    destruct (decide (appMountpointsEpoch M' < E)) as [|Hge]; [by left|]. right. split; [lia|].
    rewrite Hnew by lia. apply lookup_empty.
Qed.

Lemma old_event e E now event W :
  fibers_check (paths E) old_at (old_post E) (old_memory e E) W → epoch_of W < E →
  fibers_check (paths E) old_at (old_post E) (old_memory e E) (volume_event now event W).
Proof.
  intros Hc He.
  assert (∀ f, event = Started f (CallMountpoint appId id) →
    fibers_check (paths E) old_at (old_post E) (old_memory e E) (volume_event now event W)) as Hstart.
  { intros f ->. cbn [VolumeWorld.volume_event]. destruct (w_fibers W !! f) eqn:Ef; [done|].
    cbn [VolumeWorld.op_of]. unfold appVolumeMountpoint. cbn [op_bind look settle]. set (M := w_memory W).
    match goal with |- fibers_check _ _ _ _ (settle _ _ ?op _ ?W') =>
      destruct (settle_checks (paths E) old_at (old_post E) (old_memory e E) (old_fits e E) f now op Outside (Before, false) W');
        [done|done| |by destruct W|done] end.
    assert (checks (paths E) (Before, false) (readMountpoint config ownContainer locale appId id (appMountpointsEpoch M))
      (old_post E f)) as Hread by (apply read_paths; [by left|done]).
    destruct (appMountpoints M !! key) as [[expires path]|]; [by case_match|done]. }
  assert ((∃ f, event = Started f (CallMountpoint appId id)) ∨ ∀ f, event ≠ Started f (CallMountpoint appId id)) as [[f Ef]|Hno].
  { destruct event as [f call| | | | | | | | |]; try (by right). destruct (decide (call = CallMountpoint appId id)) as [->|];
      [left; by eexists|right; congruence]. }
  { by eapply Hstart. }
  apply event_checks; [apply old_fits|done|]. destruct event; cbn; try done.
  - intros _. exists (Before, false). split; [done|]. apply calls_paths. intros ->. by eapply Hno.
  - intros fiber s ask u a _ [_ ->] _ [=].
  - intros fiber s ask T a _ [_ ->] _ [=].
Qed.

(** In every run, calls under way began in an epoch no later than now. *)
Definition all_old (W : World) : Prop :=
  ∀ E, epoch_of W < E → fibers_check (paths E) old_at (old_post E) (old_memory (epoch_of W) E) W.

Lemma event_old now event W E :
  all_old W → epoch_of W < E →
  fibers_check (paths E) old_at (old_post E) (old_memory (epoch_of W) E) (volume_event now event W).
Proof. intros Ho He. apply old_event; auto. Qed.

Lemma event_epoch now event W : all_old W → epoch_of W <= epoch_of (volume_event now event W).
Proof. intros Ho. by destruct (event_old now event W (epoch_of W + 1) Ho ltac:(lia)) as [[? _] _]. Qed.

Lemma run_old events : ∀ W, all_old W → all_old (volume_run events W).
Proof.
  induction events as [|[now event] events IH]; intros W Ho; [done|]. apply IH. intros E He. cbn [fst snd] in *.
  pose proof (event_epoch now event W Ho). destruct (event_old now event W E Ho ltac:(lia)) as [_ Hf].
  split; [split; [unfold epoch_of; lia|by left]|done].
Qed.

Lemma all_old_empty T : all_old (empty_world T).
Proof. intros E He. split; [split; [done|by left]|]. intros f fiber. cbn. by rewrite lookup_empty. Qed.

(** ** Since it was forgotten *)

(** [g] is a call begun since. *)
Definition new_at (g f : nat) (place : Place) (s : Turn * bool) : Prop := shape_at f place s.1 ∧ (f = g → s.2 = true).
Definition new_post (g : nat) (E : Z) (f : nat) (s : St (paths E)) (_ : Reply) : Prop := s.1 ≠ During ∧ f ≠ g.

Lemma new_fits g E : fits (paths E) (new_at g) (new_post g E) (forgotten E).
Proof.
  split; cbn; unfold new_at; cbn.
  - intros f kind [t b] [_ Hg] _. by exists (During, b).
  - intros f place kind [t b] Hr [Hs Hg] Ht. cbn in *. subst. by destruct place; try destruct Hr.
  - intros f [t b] [Hs Hg]. done.
  - done.
  - intros f place [t b] Hr [Hs Hg] Ht. cbn in *. subst. by destruct place; try destruct Hr.
  - intros f place s reads xs Hs Hx. done.
  - done.
  - intros f place s M M' _ Hf (_ & _ & Hkeep). auto.
Qed.

Definition unused_given (given : DockerAnswer) : Prop :=
  match given with
  | Volumes listed => unused (ListVolumes "") listed
  | Containers containers => unused ListContainers containers
  | _ => True
  end.

(** No configuration of the App names the volume. *)
Definition unnamed (T : VolumeTables) : Prop := ∀ c, (c, appId, id) ∉ vt_references T.

Lemma unused_docker given ask u a : unused_given given → from_docker given ask = Some (u, a) → unused ask a.
Proof. unfold from_docker. destruct ask, given; cbn; try done; by intros ? [= _ <-]. Qed.

Lemma unused_store T ask T' a : unnamed T → from_store T ask = Some (T', a) → unused ask a.
Proof. intros Hn. unfold from_store. destruct ask; cbn; try done. intros [= _ <-] c. rewrite elem_of_elements. apply Hn. Qed.

Lemma new_event g E now event W :
  fibers_check (paths E) (new_at g) (new_post g E) (forgotten E) W →
  (∀ call, event = Started g call → call = CallMountpoint appId id) →
  (∀ f path given, event = Docker f path given → unused_given given) → unnamed (w_tables W) →
  fibers_check (paths E) (new_at g) (new_post g E) (forgotten E) (volume_event now event W) ∧
  grows (paths E) (new_at g) (new_post g E) W (volume_event now event W).
Proof.
  intros Hc Hg Hd Hs. apply event_checks; [apply new_fits|done|]. destruct event as [f call|f path given|f path| | | | | | |]; cbn; try done.
  - intros _. exists (Before, true). split; [done|]. destruct (decide (call = CallMountpoint appId id)) as [->|Hne].
    + apply new_paths.
    + eapply checks_weaken; [|by apply calls_paths]. intros s r Hr. split; [done|]. intros ->. by apply Hne, Hg.
  - intros fiber s ask u a _ _ Ha _. eapply unused_docker; [|exact Ha]. by eapply Hd.
  - intros fiber s ask T a _ _ Ha _. by eapply unused_store.
Qed.

Lemma new_run g E events : ∀ W,
  fibers_check (paths E) (new_at g) (new_post g E) (forgotten E) W →
  (∀ now call, (now, Started g call) ∈ events → call = CallMountpoint appId id) →
  (∀ now f path given, (now, Docker f path given) ∈ events → unused_given given) →
  (∀ n, unnamed (w_tables (volume_run (take n events) W))) →
  grows (paths E) (new_at g) (new_post g E) W (volume_run events W).
Proof.
  induction events as [|[now event] events IH]; intros W Hc Hg Hd Hs; [apply log_grows_refl|].
  destruct (new_event g E now event W Hc) as [Hc' Hgr].
  - intros call ->. apply (Hg now). by left.
  - intros f path given ->. apply (Hd now f path). by left.
  - apply (Hs 0%nat).
  - eapply log_grows_trans; [exact Hgr|]. apply (IH (volume_event now event W)); [done| | |].
    + intros now' call Hin. apply (Hg now'). by right.
    + intros now' f path given Hin. apply (Hd now' f path). by right.
    + intros n. apply (Hs (S n)).
Qed.

(** C25: Once who uses volumes changed and the Relay forgot where they are, a
    call begun since for a volume the App does not use is never answered with
    a path, even if reads begun before the change end after it: what was known
    is gone, and what they saw is not put back. *)
Theorem paths_are_forgotten T before now event after g reply :
  let W := volume_run before (empty_world T) in
  let changed := volume_event now event W in
  epoch_of W < epoch_of changed →
  w_fibers changed !! g = None →
  (∀ time call, (time, Started g call) ∈ after → call = CallMountpoint appId id) →
  (∀ time f path given, (time, Docker f path given) ∈ after → unused_given given) →
  (∀ n, unnamed (w_tables (volume_run (take n after) changed))) →
  LDone g (Ok reply) ∉ recorded_since changed (volume_run after changed).
Proof.
  intros W changed He Hg Hcalls Hdocker Hstored Hin.
  destruct (event_old now event W _ (run_old before _ (all_old_empty T)) He) as [[_ Hor] Hf].
  assert (forgotten (epoch_of changed) (w_memory changed)) as Hforgot by (destruct Hor as [Hlt|]; [by apply Z.lt_irrefl in Hlt|done]).
  destruct (new_run g (epoch_of changed) after changed) as (entries & El & Hok); [|done..|].
  - split; [done|]. intros f fiber Ef. destruct (Hf _ _ Ef) as (Hp & s & [Hs Hb] & Hop).
    assert (f ≠ g) as Hne by congruence. split; [done|]. exists s. split; [done|].
    eapply checks_weaken; [|exact Hop]. by intros s' r Hr.
  - rewrite (recorded_grows _ _ _ El) in Hin. rewrite Forall_forall in Hok. destruct (Hok _ Hin) as (s & _ & Hne). done.
Qed.
End Uses.

(** ** A run *)

Definition paths_app : string := "00000000000000000000000000000000000000aa".
Definition paths_volume_id : string := "3f9a21c4000000000000000000000000000000ab".
Definition paths_volume : DockerVolume :=
  MkVolume None (Some (<["kiln.resource.kind" := "volume"]> {["kiln.volume.id" := paths_volume_id]})) (Some "/mnt/data") "kiln-data".
Definition paths_tables : VolumeTables :=
  MkVolumeTables [MkClient "hearth" "Hearth" false] ∅ {[ ("hearth", paths_app, paths_volume_id) ]} ∅.
Notation paths_event := (volume_event (MkConfig None false None "relay" "kiln.server.id") None to_lower (λ _ _, 0)).
Notation paths_run := (volume_run (MkConfig None false None "relay" "kiln.server.id") None to_lower (λ _ _, 0)).

Definition paths_networks : DockerAnswer := Networks [Some {["kiln.app.id" := paths_app]}].

(** A read that saw the App use the volume, and a write that says it does not. *)
Definition paths_before : list (Z * Event) := pair 0 <$>
  [Started 1 (CallMountpoint paths_app paths_volume_id); Stored 1 [true; true; true; true; false];
   Stored 1 [true; true; true; true; true; false]; Docker 1 [true; true; true; true; true; true] paths_networks;
   Started 2 (CallWriteReferences "hearth" paths_app []); Stored 2 []].

Definition paths_reads (f : nat) : list Event :=
  [Docker f [false] (Volumes [paths_volume]); Docker f [true; false] (Volumes []);
   Docker f [true; true; false] (Containers []); Stored f [true; true; true; false]].

Definition paths_after : list (Z * Event) := pair 1 <$>
  paths_reads 1 ++ Started 3 (CallMountpoint paths_app paths_volume_id) :: paths_reads 3 ++
  [Stored 3 [true; true; true; true; false]; Stored 3 [true; true; true; true; true; false];
   Docker 3 [true; true; true; true; true; true] paths_networks].

Notation paths_unused := (unused_given (MkConfig None false None "relay" "kiln.server.id") None paths_app paths_volume_id).

Lemma paths_answers given :
  given ∈ [Volumes [paths_volume]; Volumes []; Containers []; paths_networks] → paths_unused given.
Proof.
  rewrite !elem_of_cons. intros [->|[->|[->|[->|Hin]]]]; cbn.
  - intros volume owner ->%list_elem_of_singleton. discriminate.
  - intros volume owner Hin. in_nil Hin.
  - intros name mount. rewrite lookup_empty. intros Hin. in_nil Hin.
  - done.
  - in_nil Hin.
Qed.

Lemma paths_after_docker f path given time : (time, Docker f path given) ∈ paths_after → paths_unused given.
Proof.
  unfold paths_after. intros (event & [= _ <-] & Hev)%list_elem_of_fmap. apply paths_answers.
  repeat (apply elem_of_cons in Hev as [Hev|Hev]; [try discriminate; injection Hev as -> -> ->; set_solver|]). in_nil Hev.
Qed.

Lemma paths_after_calls call time : (time, Started 3 call) ∈ paths_after → call = CallMountpoint paths_app paths_volume_id.
Proof.
  unfold paths_after. intros (event & [= _ <-] & Hev)%list_elem_of_fmap.
  repeat (apply elem_of_cons in Hev as [Hev|Hev]; [try discriminate; congruence|]). in_nil Hev.
Qed.

(** Every one of a list's prefixes is one that is counted out. *)
Lemma every_prefix {A} (l : list A) (P : list A → bool) n :
  forallb (λ n, P (take n l)) (seq 0 (S (length l))) = true → P (take n l) = true.
Proof.
  rewrite forallb_forall. intros Hall. destruct (decide (n <= length l)%nat) as [Hle|Hgt].
  - apply (Hall n), in_seq. lia.
  - rewrite take_ge by lia. rewrite <-(firstn_all l) at 1. apply (Hall (length l)), in_seq. lia.
Qed.

Lemma paths_are_forgotten_witness :
  let W := paths_run paths_before (empty_world paths_tables) in
  let changed := paths_event 1 (Stored 2 []) W in
  LDone 1 (Ok (RMountpoint "/mnt/data")) ∈ recorded_since changed (paths_run paths_after changed) ∧
  LDone 3 (Throw "This App doesn't use that volume") ∈ recorded_since changed (paths_run paths_after changed) ∧
  LDone 3 (Ok (RMountpoint "/mnt/data")) ∉ recorded_since changed (paths_run paths_after changed).
Proof.
  intros W changed. split; [|split].
  - apply (list_elem_of_lookup_2 _ 4%nat). vm_compute. reflexivity.
  - apply (list_elem_of_lookup_2 _ 19%nat). vm_compute. reflexivity.
  - apply (paths_are_forgotten (MkConfig None false None "relay" "kiln.server.id") None to_lower (λ _ _, 0)
             paths_app paths_volume_id paths_tables paths_before 1 (Stored 2 []) paths_after 3).
    + vm_compute. reflexivity.
    + vm_compute. reflexivity.
    + intros time call. apply paths_after_calls.
    + intros time f path given. apply paths_after_docker.
    + intros n c. pose proof (every_prefix paths_after (λ events, bool_decide (vt_references (w_tables (paths_run events changed)) = ∅)) n)
        as Hn. specialize (Hn ltac:(vm_compute; reflexivity)). apply bool_decide_eq_true in Hn. subst changed W. by rewrite Hn.
Defined.
