(* ===== verification/VolumeNames.v ===== *)
(** * Which volume an App's name stands for, and volumes' names

    Each name an App's Compose file gives a volume is the ID of one Docker
    volume, the first in rank; a new volume's name is one Docker takes. *)
From Stdlib Require Import Ascii.
From S2P Require Import Prelude AppKeys Images Cleanup Volumes.
Open Scope Z_scope.

(** ** IDs *)

Lemma give_ids_candidates taken ordered : snd <$> give_ids taken ordered = ordered.
Proof. revert taken. induction ordered as [|c rest IH]; intros taken; cbn; [done|]. case_decide; csimpl; by rewrite IH. Qed.

(** Only what is not taken is given, and once. *)
Lemma give_ids_fresh ordered : ∀ taken,
  NoDup (omap fst (give_ids taken ordered)) ∧ ∀ id, id ∈ omap fst (give_ids taken ordered) → id ∉ taken.
Proof.
  induction ordered as [|c rest IH]; intros taken; cbn; [split; [constructor|intros id Hin; in_nil Hin]|].
  case_decide as Hc; cbn; [apply IH|]. destruct (IH ({[candidate_id c]} ∪ taken)) as [Hnd Hfresh]. split.
  - constructor; [|done]. intros Hin%Hfresh. set_solver.
  - intros id [->|Hin%Hfresh]%elem_of_cons; set_solver.
Qed.

(** The first of each ID is given it. *)
Lemma give_ids_holder R ordered : ∀ taken given,
  StronglySorted R ordered → given ∈ give_ids taken ordered → candidate_id given.2 ∉ taken →
  ∃ holder, (Some (candidate_id given.2), holder) ∈ give_ids taken ordered ∧
            candidate_id holder = candidate_id given.2 ∧ (holder = given.2 ∨ R holder given.2).
Proof.
  induction ordered as [|c rest IH]; intros taken given Hs; cbn; [intros Hin; in_nil Hin|].
  inversion Hs as [|? ? Hs' Hall]; subst.
  case_decide as Hc; intros [->|Hin]%elem_of_cons Hfree; cbn in *; try done.
  - destruct (IH taken given Hs' Hin Hfree) as (holder & ? & ? & ?). exists holder. split; [by right|done].
  - exists c. split; [by left|auto].
  - destruct (decide (candidate_id given.2 = candidate_id c)) as [E|Hne].
    + exists c. rewrite E. split; [by left|]. split; [done|]. right. rewrite Forall_forall in Hall. apply Hall.
      apply (list_elem_of_fmap_2 snd) in Hin. by rewrite give_ids_candidates in Hin.
    + destruct (IH ({[candidate_id c]} ∪ taken) given Hs' Hin ltac:(set_solver)) as (holder & ? & ? & ?).
      exists holder. split; [by right|done].
Qed.

(** A given ID is that of what it is given to. *)
Lemma give_ids_own taken ordered id c : (Some id, c) ∈ give_ids taken ordered → id = candidate_id c.
Proof.
  revert taken. induction ordered as [|c' rest IH]; intros taken; cbn; [intros Hin; in_nil Hin|].
  case_decide; intros [[= -> ->]|Hin]%elem_of_cons; eauto.
Qed.

Section Ranking.
Context (locale : string → string → Z) (mounts : gmap string (list RelayVolumeMount)).
Hypothesis locale_total : ∀ a b, locale a b <= 0 ∨ locale b a <= 0.
Hypothesis locale_trans : ∀ a b c, locale a b <= 0 → locale b c <= 0 → locale a c <= 0.

Notation compare := (compare_candidates locale mounts).

(** The three keys in their order. *)
Lemma compare_le left right :
  compare left right <= 0 ↔
  let '(lm, lr) := rank mounts left in let '(rm, rr) := rank mounts right in
  lm < rm ∨ lm = rm ∧ (lr < rr ∨ lr = rr ∧ locale (default "" (v_CreatedAt right.2)) (default "" (v_CreatedAt left.2)) <= 0).
Proof.
  unfold compare_candidates. destruct (rank mounts left) as [lm lr], (rank mounts right) as [rm rr].
  case_decide; [lia|]. case_decide; lia.
Qed.

Lemma compare_total left right : (compare left right <=? 0) = false → (compare right left <=? 0) = true.
Proof using locale_total.
  intros Hn%Z.leb_gt. apply Z.leb_le. rewrite compare_le.
  assert (¬ compare left right <= 0) as Hn' by lia. rewrite compare_le in Hn'.
  destruct (rank mounts left) as [lm lr], (rank mounts right) as [rm rr].
  destruct (locale_total (default "" (v_CreatedAt left.2)) (default "" (v_CreatedAt right.2))); lia.
Qed.

Lemma compare_trans x y z :
  (compare x y <=? 0) = true → (compare y z <=? 0) = true → (compare x z <=? 0) = true.
Proof using locale_trans.
  rewrite !Z.leb_le, !compare_le. pose proof (locale_trans (default "" (v_CreatedAt z.2)) (default "" (v_CreatedAt y.2)) (default "" (v_CreatedAt x.2))).
  destruct (rank mounts x), (rank mounts y), (rank mounts z). lia.
Qed.

(** Every volume this Relay's Apps' Compose projects made is listed once;
    no ID is given twice; and each name an App gives a volume is the ID of
    one, its own, that comes before every other of that name: one the App's
    containers mount, else one its own project made, else the newest. *)
Theorem owned_ids_are_one_each config volumes :
  let owned := ownedVolumes locale mounts config volumes in
  (snd <$> owned ≡ₚ omap (λ volume, (λ owner, (owner, volume)) <$> appVolumeOwner config (v_Labels volume)) volumes) ∧
  NoDup (omap fst owned) ∧
  (∀ id c, (Some id, c) ∈ owned → id = candidate_id c) ∧
  (∀ given, given ∈ owned → ∃ holder, (Some (candidate_id given.2), holder) ∈ owned ∧
     candidate_id holder = candidate_id given.2 ∧ (holder = given.2 ∨ compare holder given.2 <= 0)).
Proof using locale_total locale_trans.
  intros owned. subst owned. unfold ownedVolumes. split; [|split; [|split]].
  - rewrite give_ids_candidates. apply stable_sort_perm.
  - apply give_ids_fresh.
  - intros id c. apply give_ids_own.
  - intros given Hin.
    set (candidates := omap _ volumes) in *.
    pose proof (stable_sort_sorted _ compare_total compare_trans candidates) as Hs.
    destruct (give_ids_holder _ _ ∅ given Hs Hin) as (holder & ? & ? & Hor); [set_solver|].
    exists holder. split; [done|]. split; [done|]. rewrite Z.leb_le in Hor. done.
Qed.
End Ranking.

(** ** Names *)

Definition slug_or_dash (c : ascii) : bool := slug_char c || bool_decide (c = "-"%char).

Lemma dash_runs_chars s : ∀ dashed, str_all slug_or_dash (dash_runs dashed s) = true.
Proof.
  induction s as [|c s IH]; intros dashed; cbn; [done|]. destruct (slug_char c) eqn:E; cbn.
  - unfold slug_or_dash at 1. by rewrite E, IH.
  - destruct dashed; [apply IH|]. cbn. by rewrite IH.
Qed.

Lemma trim_dashes_chars f s : str_all f s = true → str_all f (trim_dashes s) = true.
Proof. induction s as [|c s IH]; cbn; [done|]. intros [Hc Hs]%andb_true_iff. case_decide; [auto|]. cbn. by rewrite Hc, Hs. Qed.

Lemma str_take_chars f n s : str_all f s = true → str_all f (str_take n s) = true.
Proof. intros Hs. rewrite <-(str_take_drop n s), str_all_app in Hs. by apply andb_true_iff in Hs as [? _]. Qed.

Lemma trim_end_chars f s : str_all f s = true → str_all f (trim_end_dashes s) = true.
Proof.
  induction s as [|c s IH]; cbn; [done|]. intros [Hc Hs]%andb_true_iff. case_decide; [done|]. cbn. by rewrite Hc, IH.
Qed.

Lemma trim_end_length s : (String.length (trim_end_dashes s) <= String.length s)%nat.
Proof. induction s as [|c s IH]; cbn; [done|]. case_decide; cbn; lia. Qed.

Lemma str_take_length n s : (String.length (str_take n s) <= n)%nat.
Proof. revert s. induction n as [|n IH]; intros [|c s]; cbn; try lia. specialize (IH s). lia. Qed.

(** A name's part never ends with a dash, and starts with one only if all of
    it is dashes. *)
Lemma trim_end_head c rest s : trim_end_dashes s = String c rest → ∃ rest', s = String c rest'.
Proof. destruct s as [|d s]; cbn; [done|]. case_decide; [done|]. intros [= -> _]. by eexists. Qed.

Lemma trim_dashes_head s rest : trim_dashes s ≠ String "-"%char rest.
Proof. induction s as [|c s IH]; cbn; [done|]. case_decide; [done|]. congruence. Qed.

Lemma trim_end_last s front : trim_end_dashes s ≠ front +:+ "-".
Proof.
  revert front. induction s as [|c s IH]; intros front; cbn; [by destruct front|].
  case_decide as Hc; [by destruct front|]. destruct front as [|d front]; cbn.
  - intros [= -> E]. by apply Hc.
  - intros [= -> E]. by eapply IH.
Qed.

(** The part of a volume's Docker name its name gives is 1 to 40 lowercase
    letters, digits and dashes, with no dash first or last. *)
Lemma slug_is_a_name nfkd_lower name :
  let slug := relayVolumeSlug nfkd_lower name in
  str_all slug_or_dash slug = true ∧ (1 <= String.length slug <= 40)%nat ∧
  (∀ rest, slug ≠ String "-"%char rest) ∧ (∀ front, slug ≠ front +:+ "-").
Proof.
  unfold relayVolumeSlug. set (t := str_take 40 _). case_decide as Hempty; cbn zeta.
  - split; [done|]. split; [cbn; lia|]. split; [done|]. intros front Hf.
    apply (f_equal (λ s, str_drop 5 s)) in Hf as Hd. apply (f_equal String.length) in Hf as Hl.
    rewrite str_length_app in Hl. cbn in Hl. assert (String.length front = 5%nat) as Hfl by lia.
    rewrite <-Hfl, str_drop_app in Hd. rewrite Hfl in Hd. discriminate.
  - split; [|split; [|split]].
    + apply trim_end_chars, str_take_chars, trim_dashes_chars, dash_runs_chars.
    + pose proof (trim_end_length t). pose proof (str_take_length 40 (trim_dashes (dash_runs false (nfkd_lower name)))).
      fold t in H0. destruct (trim_end_dashes t); [done|]. cbn in *. lia.
    + intros rest (rest' & E)%trim_end_head. subst t. destruct (trim_dashes _) as [|c u] eqn:Et; [done|].
      cbn in E. injection E as -> _. by eapply trim_dashes_head.
    + apply trim_end_last.
Qed.

(** ** Two volumes of one name *)

Definition names_config : RelayConfig := MkConfig None false None "relay" "kiln.server.id".
Definition names_app : string := "00000000000000000000000000000000000000aa".

Definition names_volume (name project : string) : DockerVolume :=
  MkVolume None (Some (<["com.docker.compose.project" := project]> {["com.docker.compose.volume" := "data"]})) None name.

(** A rolled deployment's volume, which the App's container mounts, and the
    one its own project made. *)
Definition names_volumes : list DockerVolume :=
  [names_volume "own" ("kiln-app-" +:+ names_app); names_volume "rolled" ("kiln-app-" +:+ names_app +:+ "-20240102030405")].

Definition names_container : Container :=
  MkMounting (MkContainer "c1" None (Some (<["kiln.resource.kind" := "app"]> {["kiln.app.id" := names_app]})) ["/web"] "running")
    [MkMount "/data" (Some "rolled") true "" (Some "volume")].

(** By length, as dates of one length are equal. *)
Definition names_locale (a b : string) : Z := Z.of_nat (String.length a) - Z.of_nat (String.length b).

Lemma owned_ids_are_one_each_witness :
  let owned := ownedVolumes names_locale (volumeMounts [names_container] None) names_config names_volumes in
  (λ given, (given.1, v_Name given.2.2)) <$> owned = [(Some (names_app +:+ "/data"), "rolled"); (None, "own")] ∧
  NoDup (omap fst owned).
Proof.
  intros owned. split; [vm_compute; reflexivity|].
  apply (owned_ids_are_one_each names_locale (volumeMounts [names_container] None)); unfold names_locale; lia.
Defined.

Example slug_of_a_name : relayVolumeSlug to_lower "  Postgres Data!" = "postgres-data".
Proof. reflexivity. Qed.
