(* ===== verification/Bytes.v ===== *)
(** * Bytes, integers and floating-point numbers of a binary file

    What the Relay's binary codecs use of JavaScript: a [DataView]'s
    big-endian integers, signed and unsigned, and its 32- and 64-bit
    floating-point numbers, read ([getFloat32]) and written with rounding
    ([writeFloatBE]). *)
From coqutil Require Export Byte Word.LittleEndianList.
From S2P Require Import Prelude.

Open Scope Z_scope.

(** ** Big-endian integers *)

(** [getUint8], [getUint16] and the like of all the given bytes. *)
Definition get_uint (bs : list byte) : Z := le_combine (rev bs).

(** [writeUInt8], [writeUInt16BE] and the like of a number in range. *)
Definition put_uint (n : nat) (z : Z) : list byte := rev (le_split n z).

(** [getInt8] and its like: the same bits in two's complement. *)
Definition get_int (bs : list byte) : Z :=
  let z := get_uint bs in
  let bits := 8 * Z.of_nat (length bs) in
  if z <? 2 ^ (bits - 1) then z else z - 2 ^ bits.

Definition put_int (n : nat) (z : Z) : list byte := put_uint n (z mod 2 ^ (8 * Z.of_nat n)).

Definition uint_ok (n : nat) (z : Z) : bool := (0 <=? z) && (z <? 2 ^ (8 * Z.of_nat n)).
Definition int_ok (n : nat) (z : Z) : bool :=
  (- 2 ^ (8 * Z.of_nat n - 1) <=? z) && (z <? 2 ^ (8 * Z.of_nat n - 1)).

Lemma put_uint_length n z : length (put_uint n z) = n.
Proof. unfold put_uint. by rewrite length_rev, length_le_split. Qed.

Lemma put_int_length n z : length (put_int n z) = n.
Proof. apply put_uint_length. Qed.

Lemma get_uint_bound bs : 0 <= get_uint bs < 2 ^ (8 * Z.of_nat (length bs)).
Proof.
  unfold get_uint. pose proof (le_combine_bound (rev bs)) as H. rewrite length_rev in H. done.
Qed.

Lemma get_put_uint n z : get_uint (put_uint n z) = z mod 2 ^ (8 * Z.of_nat n).
Proof. unfold get_uint, put_uint. rewrite rev_involutive, le_combine_split. do 2 f_equal. lia. Qed.

Lemma put_get_uint bs : put_uint (length bs) (get_uint bs) = bs.
Proof.
  unfold get_uint, put_uint. rewrite <-(length_rev bs), split_le_combine. apply rev_involutive.
Qed.

Lemma pow8_double n : (0 < n)%nat → 2 ^ (8 * Z.of_nat n) = 2 * 2 ^ (8 * Z.of_nat n - 1) ∧ 0 < 2 ^ (8 * Z.of_nat n - 1).
Proof.
  intros Hn. split; [|lia]. rewrite <-Z.pow_succ_r by lia. f_equal. lia.
Qed.

Lemma get_int_ok bs : (0 < length bs)%nat → int_ok (length bs) (get_int bs) = true.
Proof.
  intros Hn. pose proof (get_uint_bound bs). destruct (pow8_double _ Hn) as [E ?].
  unfold int_ok, get_int. destruct (Z.ltb_spec (get_uint bs) (2 ^ (8 * Z.of_nat (length bs) - 1))); lia.
Qed.

Lemma get_uint_ok bs : uint_ok (length bs) (get_uint bs) = true.
Proof. pose proof (get_uint_bound bs). unfold uint_ok. lia. Qed.

Lemma get_put_int n z : (0 < n)%nat → int_ok n z = true → get_int (put_int n z) = z.
Proof.
  intros Hn Hz. unfold get_int, put_int. rewrite put_uint_length, get_put_uint.
  destruct (pow8_double _ Hn) as [E ?]. unfold int_ok in Hz. rewrite Z.mod_mod by lia.
  set (h := 2 ^ (8 * Z.of_nat n - 1)) in *. rewrite E.
  destruct (Z_lt_le_dec z 0) as [Hneg|Hpos].
  - assert (z mod (2 * h) = z + 2 * h) as ->.
    { symmetry. apply (Z.mod_unique_pos _ _ (-1)); lia. }
    destruct (Z.ltb_spec (z + 2 * h) h); lia.
  - rewrite Z.mod_small by lia. destruct (Z.ltb_spec z h); lia.
Qed.

Lemma put_get_int bs : (0 < length bs)%nat → put_int (length bs) (get_int bs) = bs.
Proof.
  intros Hn. unfold put_int. etrans; [|apply put_get_uint]. f_equal.
  pose proof (get_uint_bound bs). unfold get_int.
  destruct (Z.ltb_spec (get_uint bs) (2 ^ (8 * Z.of_nat (length bs) - 1))).
  - by apply Z.mod_small.
  - symmetry. apply (Z.mod_unique_pos _ _ (-1)); lia.
Qed.

Lemma get_put_uint_ok n z : uint_ok n z = true → get_uint (put_uint n z) = z.
Proof. unfold uint_ok. intros H. rewrite get_put_uint. apply Z.mod_small. lia. Qed.

(** ** Numbers

    A JavaScript number: not a number, infinite, or a sign, a mantissa and
    the power of two it counts. The mantissa is odd, or zero with power zero,
    so that a number is written one way. *)
Inductive JsNumber :=
  | NotANumber
  | Infinite (negative : bool)
  | Finite (negative : bool) (mantissa power : Z).

#[global] Instance JsNumber_eq_dec : EqDecision JsNumber.
Proof. solve_decision. Defined.

(** [Number.isFinite] *)
Definition isFinite (x : JsNumber) : bool := match x with Finite _ _ _ => true | _ => false end.

(** The mantissa with its trailing zeros counted in the power instead. *)
Fixpoint strip_zeros (m : positive) (power : Z) : Z * Z :=
  match m with
  | xO m => strip_zeros m (power + 1)
  | _ => (Z.pos m, power)
  end.

Definition dyadic (negative : bool) (m power : Z) : JsNumber :=
  match m with
  | Z.pos m => let '(m, power) := strip_zeros m power in Finite negative m power
  | _ => Finite negative 0 0
  end.

(** [m * 2^shift] to the nearest integer, halfway to the even one. *)
Definition round_half_even (m shift : Z) : Z :=
  if 0 <=? shift then m * 2 ^ shift
  else
    let unit := 2 ^ (- shift) in
    let below := m / unit in
    let rest := m mod unit in
    if 2 * rest <? unit then below
    else if unit <? 2 * rest then below + 1
    else if Z.even below then below else below + 1.

(** An IEEE 754 format: the bits of its fraction and of its exponent. *)
Section Format.
Variables (fraction exponent : Z).
Hypothesis fraction_pos : 0 < fraction.
Hypothesis exponent_pos : 1 < exponent.

(** The power of two of the smallest number. *)
Definition least_power : Z := 2 - 2 ^ (exponent - 1) - fraction.

(** The bits of infinity, but the sign. *)
Definition infinity_bits : Z := (2 ^ exponent - 1) * 2 ^ fraction.

Definition of_bits (z : Z) : JsNumber :=
  let negative := 2 ^ (fraction + exponent) <=? z in
  let e := (z / 2 ^ fraction) mod 2 ^ exponent in
  let f := z mod 2 ^ fraction in
  if e =? 2 ^ exponent - 1 then if f =? 0 then Infinite negative else NotANumber
  else if e =? 0 then dyadic negative f least_power
  else dyadic negative (f + 2 ^ fraction) (least_power + e - 1).

(** The bits of a finite number's magnitude, rounded: a power that grows by
    one, or reaches infinity, as the mantissa carries. *)
Definition magnitude_bits (m power : Z) : Z :=
  if m =? 0 then 0
  else
    let quantum := Z.max least_power (Z.log2 m + power - fraction) in
    Z.min infinity_bits ((quantum - least_power) * 2 ^ fraction + round_half_even m (power - quantum)).

Definition to_bits (x : JsNumber) : Z :=
  let sign (negative : bool) := if negative then 2 ^ (fraction + exponent) else 0 in
  match x with
  | NotANumber => infinity_bits + 2 ^ (fraction - 1)
  | Infinite negative => sign negative + infinity_bits
  | Finite negative m power => sign negative + magnitude_bits m power
  end.

(** The numbers the format has. *)
Definition in_format (x : JsNumber) : Prop := of_bits (to_bits x) = x.

Lemma strip_zeros_spec n : ∀ q m p,
  strip_zeros n q = (m, p) → ∃ k, 0 <= k ∧ p = q + k ∧ Z.pos n = m * 2 ^ k ∧ 0 < m ∧ Z.odd m = true.
Proof.
  induction n as [n _|n IH|]; intros q m p; cbn [strip_zeros].
  - intros [= <- <-]. exists 0. repeat split; lia.
  - intros (k & Hk & -> & E & Hm & Ho)%IH. exists (k + 1). rewrite Z.pow_add_r by lia. repeat split; (done || lia).
  - intros [= <- <-]. exists 0. repeat split; lia.
Qed.

(** A mantissa of the format's own keeps its place. *)
Lemma magnitude_exact n q m p :
  least_power <= q → Z.pos n < 2 ^ (fraction + 1) → q = least_power ∨ 2 ^ fraction <= Z.pos n →
  strip_zeros n q = (m, p) →
  magnitude_bits m p = Z.min infinity_bits ((q - least_power) * 2 ^ fraction + Z.pos n).
Proof.
  intros Hq Hn Hplace (k & Hk & -> & E & Hm & Ho)%strip_zeros_spec.
  assert (Z.log2 m + (q + k) = Z.log2 (Z.pos n) + q) as Hl.
  { rewrite E, Z.log2_mul_pow2 by lia. lia. }
  assert (Z.log2 (Z.pos n) <= fraction) as Hl1.
  { apply Z.lt_succ_r. apply Z.log2_lt_pow2; [lia|]. by rewrite <-Z.add_1_r. }
  unfold magnitude_bits. rewrite (proj2 (Z.eqb_neq m 0)) by lia. rewrite Hl. cbv zeta.
  replace (Z.max least_power _) with q.
  - unfold round_half_even. replace (q + k - q) with k by lia.
    rewrite (proj2 (Z.leb_le 0 k)) by lia. by rewrite <-E.
  - destruct Hplace as [->|Hge]; [lia|].
    assert (fraction <= Z.log2 (Z.pos n)) by (apply Z.log2_le_pow2; lia). lia.
Qed.

Lemma of_to_bits_magnitude (negative : bool) m q :
  0 <= m → least_power <= q → m < 2 ^ (fraction + 1) → q = least_power ∨ 2 ^ fraction <= m →
  (q - least_power) * 2 ^ fraction + m <= infinity_bits →
  to_bits (dyadic negative m q) =
    (if negative then 2 ^ (fraction + exponent) else 0) +
    (if m =? 0 then 0 else (q - least_power) * 2 ^ fraction + m).
Proof.
  intros Hm Hq Hb Hplace Hinf. destruct m as [|n|n]; [done| |lia]. cbn [dyadic].
  destruct (strip_zeros n q) as [m' p'] eqn:E. cbn [to_bits]. f_equal.
  rewrite (magnitude_exact n q) by done. by rewrite Z.min_r.
Qed.

Lemma powers_pos : 0 < 2 ^ fraction ∧ 0 < 2 ^ exponent ∧
  2 ^ (fraction + exponent) = 2 ^ fraction * 2 ^ exponent ∧ 2 ^ (fraction + 1) = 2 * 2 ^ fraction ∧
  4 <= 2 ^ exponent.
Proof.
  repeat split; [apply Z.pow_pos_nonneg; lia..|apply Z.pow_add_r; lia|rewrite Z.pow_add_r; lia|].
  change 4 with (2 ^ 2). apply Z.pow_le_mono_r; lia.
Qed.

(** The sign, the exponent and the fraction a number's bits hold. *)
Lemma of_bits_parts (negative : bool) e f :
  0 <= e < 2 ^ exponent → 0 <= f < 2 ^ fraction →
  of_bits ((if negative then 2 ^ (fraction + exponent) else 0) + e * 2 ^ fraction + f) =
  if e =? 2 ^ exponent - 1 then if f =? 0 then Infinite negative else NotANumber
  else if e =? 0 then dyadic negative f least_power
  else dyadic negative (f + 2 ^ fraction) (least_power + e - 1).
Proof.
  intros He Hf. destruct powers_pos as (? & ? & Ep & _).
  set (z := _ + f). unfold of_bits.
  set (s := if negative then 1 else 0).
  assert (z = (s * 2 ^ exponent + e) * 2 ^ fraction + f) as Ez.
  { unfold z, s. rewrite Ep. destruct negative; lia. }
  assert (z mod 2 ^ fraction = f) as -> 
    by (symmetry; apply (Z.mod_unique_pos _ _ (s * 2 ^ exponent + e)); lia).
  assert (z / 2 ^ fraction = s * 2 ^ exponent + e) as ->
    by (symmetry; apply (Z.div_unique_pos _ _ _ f); lia).
  assert ((s * 2 ^ exponent + e) mod 2 ^ exponent = e) as ->
    by (symmetry; apply (Z.mod_unique_pos _ _ s); lia).
  assert ((2 ^ (fraction + exponent) <=? z) = negative) as ->; [|done].
  rewrite Ez, Ep. unfold s. destruct negative; [apply Z.leb_le|apply Z.leb_gt]; nia.
Qed.

(** What the format's bits stand for has those bits. *)
Lemma to_of_bits z :
  0 <= z < 2 * 2 ^ (fraction + exponent) → isFinite (of_bits z) = true → to_bits (of_bits z) = z.
Proof.
  intros Hz. unfold of_bits.
  set (e := (z / 2 ^ fraction) mod 2 ^ exponent). set (f := z mod 2 ^ fraction).
  assert (0 < 2 ^ fraction ∧ 0 < 2 ^ exponent) as [Hp1 Hp2] by (split; apply Z.pow_pos_nonneg; lia).
  assert (2 ^ (fraction + exponent) = 2 ^ fraction * 2 ^ exponent) as Hpow by (apply Z.pow_add_r; lia).
  assert (2 ^ (fraction + 1) = 2 * 2 ^ fraction) as Hpow1 by (rewrite Z.pow_add_r; lia).
  assert (0 <= f < 2 ^ fraction) as Hf by (by apply Z.mod_pos_bound).
  assert (0 <= e < 2 ^ exponent) as He by (by apply Z.mod_pos_bound).
  assert (z = (if 2 ^ (fraction + exponent) <=? z then 2 ^ (fraction + exponent) else 0)
    + e * 2 ^ fraction + f) as Ez.
  { pose proof (Z.div_mod z (2 ^ fraction)) as D1. fold f in D1.
    assert (z / 2 ^ fraction = e + (if 2 ^ (fraction + exponent) <=? z then 2 ^ exponent else 0)).
    { assert (0 <= z / 2 ^ fraction < 2 * 2 ^ exponent).
      { split; [apply Z.div_pos; lia|]. apply Z.div_lt_upper_bound; lia. }
      unfold e. destruct (Z.leb_spec (2 ^ (fraction + exponent)) z) as [Hge|Hlt].
      - assert (2 ^ exponent <= z / 2 ^ fraction) by (apply Z.div_le_lower_bound; lia).
        rewrite <-(Z.mod_unique_pos (z / 2 ^ fraction) (2 ^ exponent) 1
          (z / 2 ^ fraction - 2 ^ exponent)) by lia. lia.
      - assert (z / 2 ^ fraction < 2 ^ exponent) by (apply Z.div_lt_upper_bound; lia).
        rewrite Z.mod_small by lia. lia. }
    destruct (2 ^ (fraction + exponent) <=? z); nia. }
  destruct (Z.eqb_spec e (2 ^ exponent - 1)); [by destruct (f =? 0)|].
  assert ((e + 1) * 2 ^ fraction <= infinity_bits) as Hinf.
  { unfold infinity_bits. apply Z.mul_le_mono_nonneg_r; lia. }
  destruct (Z.eqb_spec e 0) as [E0|E0]; intros _.
  - rewrite of_to_bits_magnitude; [|lia..|by left|lia]. etrans; [|symmetry; exact Ez]. rewrite E0.
    destruct (Z.eqb_spec f 0); lia.
  - rewrite of_to_bits_magnitude; [|lia..|right; lia|lia]. etrans; [|symmetry; exact Ez].
    destruct (Z.eqb_spec (f + 2 ^ fraction) 0); lia.
Qed.

Lemma round_half_even_nonneg m shift : 0 <= m → 0 <= round_half_even m shift.
Proof.
  intros Hm. unfold round_half_even. destruct (Z.leb_spec 0 shift) as [H|H].
  - pose proof (Z.pow_pos_nonneg 2 shift). nia.
  - pose proof (Z.pow_pos_nonneg 2 (- shift)).
    assert (0 <= m / 2 ^ (- shift)) by (apply Z.div_pos; lia).
    repeat case_match; lia.
Qed.

Lemma magnitude_range m power : 0 <= m → 0 <= magnitude_bits m power <= infinity_bits.
Proof.
  intros Hm. destruct powers_pos as (? & ? & _). unfold magnitude_bits.
  assert (0 <= infinity_bits) by (unfold infinity_bits; nia).
  destruct (m =? 0); [lia|]. cbv zeta. split; [|lia].
  set (q := Z.max least_power _). pose proof (round_half_even_nonneg m (power - q) Hm).
  apply Z.min_glb; [done|]. assert (0 <= q - least_power) by lia. nia.
Qed.

(** A mantissa that counts up. *)
Definition mantissa_ok (x : JsNumber) : bool :=
  match x with Finite _ m _ => 0 <=? m | _ => true end.

Lemma dyadic_mantissa (negative : bool) m q : mantissa_ok (dyadic negative m q) = true.
Proof.
  destruct m as [|n|n]; [done| |done]. cbn. destruct (strip_zeros n q) as [m p] eqn:E.
  apply strip_zeros_spec in E as (k & _ & _ & _ & H & _). cbn. lia.
Qed.

Lemma of_bits_mantissa z : mantissa_ok (of_bits z) = true.
Proof.
  unfold of_bits. destruct (_ =? _); [by destruct (_ =? _)|].
  destruct (_ =? _); apply dyadic_mantissa.
Qed.

Lemma to_bits_range x : mantissa_ok x = true → 0 <= to_bits x < 2 * 2 ^ (fraction + exponent).
Proof.
  destruct powers_pos as (? & ? & E & E1 & ?). rewrite E.
  assert (infinity_bits + 2 ^ fraction = 2 ^ fraction * 2 ^ exponent) as Ei by (unfold infinity_bits; lia).
  assert (0 <= 2 ^ (fraction - 1) < 2 ^ fraction).
  { split; [apply Z.pow_nonneg; lia|]. apply Z.pow_lt_mono_r; lia. }
  assert (0 <= infinity_bits) by (unfold infinity_bits; nia).
  destruct x as [|negative|negative m power]; cbn [mantissa_ok to_bits]; intros Hm; rewrite ?E.
  - lia.
  - destruct negative; lia.
  - pose proof (magnitude_range m power). destruct negative; lia.
Qed.

Lemma strip_zeros_shift k : ∀ n q m, Z.odd m = true → Z.pos n = m * 2 ^ Z.of_nat k →
  strip_zeros n q = (m, q + Z.of_nat k).
Proof.
  induction k as [|k IH]; intros n q m Hm E.
  - rewrite Z.mul_1_r in E. subst m. destruct n; [|done|]; cbn; f_equal; lia.
  - rewrite Nat2Z.inj_succ, Z.pow_succ_r in E by lia. destruct n as [n|n|]; cbn; [lia| |lia].
    rewrite (IH n (q + 1) m) by (done || lia). f_equal. lia.
Qed.

Lemma dyadic_shift (negative : bool) m q p :
  0 < m → Z.odd m = true → q <= p → dyadic negative (m * 2 ^ (p - q)) q = Finite negative m p.
Proof.
  intros Hm Ho Hq. destruct (m * 2 ^ (p - q)) as [|n|n] eqn:E;
    [pose proof (Z.pow_pos_nonneg 2 (p - q)); nia| |pose proof (Z.pow_pos_nonneg 2 (p - q)); nia].
  cbn [dyadic]. rewrite (strip_zeros_shift (Z.to_nat (p - q)) n q m), Z2Nat.id by
    (done || (rewrite ?Z2Nat.id by lia; lia)). f_equal. lia.
Qed.

(** A number whose mantissa and power fit is one of the format's. *)
Lemma of_to_bits (negative : bool) m p :
  0 < m → Z.odd m = true → Z.log2 m <= fraction → least_power <= p →
  Z.log2 m + p - fraction - least_power < 2 ^ exponent - 2 →
  in_format (Finite negative m p).
Proof.
  intros Hm Ho Hl Hp Hmax. destruct powers_pos as (? & ? & Ep & Ep1 & ?).
  unfold in_format. cbn [to_bits]. unfold magnitude_bits. rewrite (proj2 (Z.eqb_neq m 0)) by lia. cbv zeta.
  set (q := Z.max least_power (Z.log2 m + p - fraction)).
  assert (least_power <= q <= p) as Hq by lia. set (n := m * 2 ^ (p - q)).
  assert (round_half_even m (p - q) = n) as ->.
  { unfold round_half_even. by rewrite (proj2 (Z.leb_le 0 (p - q))) by lia. }
  assert (Z.log2 n = Z.log2 m + (p - q)) as Hn by (unfold n; rewrite Z.log2_mul_pow2; lia).
  assert (0 < n) as Hn0 by (unfold n; pose proof (Z.pow_pos_nonneg 2 (p - q)); nia).
  assert (n < 2 ^ (fraction + 1)) as Hn1.
  { apply Z.log2_lt_pow2; [done|]. lia. }
  assert ((q - least_power) * 2 ^ fraction + n < infinity_bits) as Hinf.
  { unfold infinity_bits. assert (q - least_power <= 2 ^ exponent - 3) by lia. nia. }
  rewrite Z.min_r by lia.
  destruct (Z.lt_ge_cases n (2 ^ fraction)) as [Hlt|Hge].
  - assert (q = least_power) as Hql.
    { destruct (Z.eq_dec q least_power) as [|Hne]; [done|].
      assert (Z.log2 n < fraction) by (by apply Z.log2_lt_pow2). lia. }
    replace (_ + _) with ((if negative then 2 ^ (fraction + exponent) else 0) + 0 * 2 ^ fraction + n)
      by (rewrite Hql; lia).
    rewrite of_bits_parts by lia. rewrite (proj2 (Z.eqb_neq 0 _)) by lia. cbn [Z.eqb].
    rewrite <-Hql. apply dyadic_shift; [done|done|lia].
  - replace (_ + _) with ((if negative then 2 ^ (fraction + exponent) else 0)
      + (q - least_power + 1) * 2 ^ fraction + (n - 2 ^ fraction)) by lia.
    unfold infinity_bits in Hinf. assert (q - least_power + 1 < 2 ^ exponent - 1) by nia.
    rewrite of_bits_parts by lia. rewrite !(proj2 (Z.eqb_neq (q - least_power + 1) _)) by lia.
    replace (n - 2 ^ fraction + 2 ^ fraction) with n by lia.
    replace (least_power + (q - least_power + 1) - 1) with q by lia. apply dyadic_shift; [done|done|lia].
Qed.

Lemma dyadic_in_format (negative : bool) n q :
  0 <= n < 2 ^ (fraction + 1) → least_power <= q →
  Z.log2 n + q - fraction - least_power < 2 ^ exponent - 2 → in_format (dyadic negative n q).
Proof.
  intros Hn Hq Hmax. destruct n as [|n|n]; [| |lia]; cbn [dyadic].
  - unfold in_format. cbn [to_bits]. change (magnitude_bits 0 0) with 0. destruct powers_pos as (? & ? & _ & _ & ?).
    pose proof (of_bits_parts negative 0 0) as E. rewrite Z.mul_0_l, !Z.add_0_r in E.
    rewrite Z.add_0_r, E by lia. rewrite (proj2 (Z.eqb_neq 0 _)) by lia. done.
  - destruct (strip_zeros n q) as [m p] eqn:E.
    apply strip_zeros_spec in E as (k & Hk & -> & E & Hm & Ho).
    assert (Z.log2 (Z.pos n) = k + Z.log2 m) as Hl by (rewrite E, Z.log2_mul_pow2 by lia; lia).
    assert (Z.log2 (Z.pos n) <= fraction).
    { apply Z.lt_succ_r. apply Z.log2_lt_pow2; [lia|]. rewrite <-Z.add_1_r. lia. }
    apply of_to_bits; (done || lia).
Qed.
End Format.

Definition getFloat32 : list byte → JsNumber := λ bs, of_bits 23 8 (get_uint bs).
Definition getFloat64 : list byte → JsNumber := λ bs, of_bits 52 11 (get_uint bs).
Definition writeFloatBE (x : JsNumber) : list byte := put_uint 4 (to_bits 23 8 x).
Definition writeDoubleBE (x : JsNumber) : list byte := put_uint 8 (to_bits 52 11 x).

(** [Math.fround] *)
Definition fround (x : JsNumber) : JsNumber := of_bits 23 8 (to_bits 23 8 x).

(** A JavaScript number: one of the 64-bit format. *)
Definition number_ok (x : JsNumber) : Prop := in_format 52 11 x.

Lemma number_mantissa x : number_ok x → mantissa_ok x = true.
Proof. unfold number_ok, in_format. intros <-. apply of_bits_mantissa. Qed.

Lemma getFloat64_writeDoubleBE x : number_ok x → getFloat64 (writeDoubleBE x) = x.
Proof.
  intros Hx. unfold getFloat64, writeDoubleBE. rewrite get_put_uint_ok; [done|].
  pose proof (to_bits_range 52 11 eq_refl eq_refl x (number_mantissa x Hx)) as H.
  change (2 * 2 ^ (52 + 11)) with (2 ^ (8 * Z.of_nat 8)) in H. apply andb_true_iff.
  split; [apply Z.leb_le|apply Z.ltb_lt]; apply H.
Qed.

Lemma getFloat32_writeFloatBE x : number_ok x → getFloat32 (writeFloatBE x) = fround x.
Proof.
  intros Hx. unfold getFloat32, writeFloatBE. rewrite get_put_uint_ok; [done|].
  pose proof (to_bits_range 23 8 eq_refl eq_refl x (number_mantissa x Hx)) as H.
  change (2 * 2 ^ (23 + 8)) with (2 ^ (8 * Z.of_nat 4)) in H. apply andb_true_iff.
  split; [apply Z.leb_le|apply Z.ltb_lt]; apply H.
Qed.

Lemma writeFloatBE_getFloat32 bs :
  length bs = 4%nat → isFinite (getFloat32 bs) = true → writeFloatBE (getFloat32 bs) = bs.
Proof.
  intros Hl Hf. pose proof (get_uint_bound bs) as Hb. rewrite Hl in Hb.
  unfold writeFloatBE, getFloat32. rewrite to_of_bits; [|done|done|exact Hb|done].
  rewrite <-Hl. apply put_get_uint.
Qed.

Lemma writeDoubleBE_getFloat64 bs :
  length bs = 8%nat → isFinite (getFloat64 bs) = true → writeDoubleBE (getFloat64 bs) = bs.
Proof.
  intros Hl Hf. pose proof (get_uint_bound bs) as Hb. rewrite Hl in Hb.
  unfold writeDoubleBE, getFloat64. rewrite to_of_bits; [|done|done|exact Hb|done].
  rewrite <-Hl. apply put_get_uint.
Qed.

(** What is read is a number. *)
Lemma of_bits_in_format f e z :
  0 < f → 1 < e → f <= 52 → e <= 11 → isFinite (of_bits f e z) = true → number_ok (of_bits f e z).
Proof.
  intros Hf He Hf' He'. unfold of_bits. cbv zeta.
  destruct (Z.eqb_spec ((z / 2 ^ f) mod 2 ^ e) (2 ^ e - 1)) as [_|E1]; [by destruct (z mod 2 ^ f =? 0)|].
  pose proof (powers_pos f e Hf He) as (? & ? & _ & E2 & _).
  pose proof (Z.mod_pos_bound z (2 ^ f)). pose proof (Z.mod_pos_bound (z / 2 ^ f) (2 ^ e)).
  assert (2 ^ e <= 2 ^ 11) by (apply Z.pow_le_mono_r; lia).
  assert (2 ^ f <= 2 ^ 52) by (apply Z.pow_le_mono_r; lia).
  assert (2 ^ e = 2 * 2 ^ (e - 1)) by (rewrite <-Z.pow_succ_r by lia; f_equal; lia).
  assert (∀ n, 0 <= n < 2 ^ (f + 1) → Z.log2 n <= f) as Hlog.
  { intros n Hn. destruct (Z.eq_dec n 0) as [->|]; [cbn; lia|].
    apply Z.lt_succ_r. apply Z.log2_lt_pow2; [lia|]. rewrite <-Z.add_1_r. lia. }
  unfold least_power. destruct (Z.eqb_spec ((z / 2 ^ f) mod 2 ^ e) 0); intros _;
    apply dyadic_in_format; unfold least_power; try done; try lia;
    match goal with |- context [Z.log2 ?n] => specialize (Hlog n) end; lia.
Qed.

Lemma getFloat_ok bs :
  (isFinite (getFloat32 bs) = true → number_ok (getFloat32 bs)) ∧
  (isFinite (getFloat64 bs) = true → number_ok (getFloat64 bs)).
Proof. split; by apply of_bits_in_format. Qed.

Example numbers :
  getFloat32 (put_uint 4 0x3FC00000) = Finite false 3 (-1) ∧
  writeFloatBE (Finite false 3 (-1)) = put_uint 4 0x3FC00000 ∧
  fround (Finite false (2 ^ 24 + 1) 0) = Finite false 1 24 ∧
  fround (Finite true (2 ^ 25 - 1) 103) = Infinite true ∧
  fround (Finite false 1 (-150)) = Finite false 0 0 ∧
  getFloat64 (put_uint 8 0x3FB999999999999A) = Finite false 3602879701896397 (-55) ∧
  of_bits 23 8 1 = Finite false 1 (-149).
Proof. vm_compute. done. Qed.
