(* ===== verification/Utf8.v ===== *)
(** * Text in UTF-16 and UTF-8

    What the Relay's codecs use of JavaScript's strings, which are UTF-16
    code units: [Buffer.from(text, "utf8")], which writes a surrogate without
    its pair as U+FFFD, and a [TextDecoder] that refuses invalid UTF-8 and
    drops a byte order mark. *)
From S2P Require Import Prelude Bytes.

(** A JavaScript string, as its code units. *)
Abbreviation JsString := (list Z).

Definition between (lo hi x : Z) : bool := (lo <=? x) && (x <=? hi).

Definition unit_ok (u : Z) : bool := between 0 0xFFFF u.

(** A code point that is no surrogate. *)
Definition scalar_ok (c : Z) : bool := between 0 0xD7FF c || between 0xE000 0x10FFFF c.

Definition is_high : Z → bool := between 0xD800 0xDBFF.
Definition is_low : Z → bool := between 0xDC00 0xDFFF.

(** The code points of a string, U+FFFD for a surrogate without its pair. *)
Fixpoint to_scalars (us : JsString) : list Z :=
  match us with
  | [] => []
  | u :: rest =>
      if is_high u then
        match rest with
        | l :: rest' =>
            if is_low l then 0x10000 + (u - 0xD800) * 1024 + (l - 0xDC00) :: to_scalars rest'
            else 0xFFFD :: to_scalars rest
        | [] => [0xFFFD]
        end
      else (if is_low u then 0xFFFD else u) :: to_scalars rest
  end.

Definition of_scalar (c : Z) : JsString :=
  if c <? 0x10000 then [c] else [0xD800 + (c - 0x10000) / 1024; 0xDC00 + (c - 0x10000) mod 1024].

Definition of_scalars (cs : list Z) : JsString := flat_map of_scalar cs.

(** [text.toWellFormed()] *)
Definition toWellFormed (us : JsString) : JsString := of_scalars (to_scalars us).

Definition utf8_scalar (c : Z) : list byte :=
  if c <? 0x80 then [byte.of_Z c]
  else if c <? 0x800 then [byte.of_Z (0xC0 + c / 64); byte.of_Z (0x80 + c mod 64)]
  else if c <? 0x10000 then
    [byte.of_Z (0xE0 + c / 4096); byte.of_Z (0x80 + (c / 64) mod 64); byte.of_Z (0x80 + c mod 64)]
  else
    [byte.of_Z (0xF0 + c / 262144); byte.of_Z (0x80 + (c / 4096) mod 64);
     byte.of_Z (0x80 + (c / 64) mod 64); byte.of_Z (0x80 + c mod 64)].

(** [Buffer.from(text, "utf8")] *)
Definition text_encode (us : JsString) : list byte := flat_map utf8_scalar (to_scalars us).

(** A continuation byte. *)
Definition cont : Z → bool := between 0x80 0xBF.

(** The second byte's range, which excludes long forms, surrogates and what
    is past the last code point. *)
Definition second_ok (lead x : Z) : bool :=
  between (if lead =? 0xE0 then 0xA0 else if lead =? 0xF0 then 0x90 else 0x80)
    (if lead =? 0xED then 0x9F else if lead =? 0xF4 then 0x8F else 0xBF) x.

Fixpoint utf8_decode (bs : list byte) : option (list Z) :=
  match bs with
  | [] => Some []
  | b0 :: r0 =>
      let x0 := byte.unsigned b0 in
      if x0 <? 0x80 then cons x0 <$> utf8_decode r0
      else
        match r0 with
        | [] => None
        | b1 :: r1 =>
            let x1 := byte.unsigned b1 in
            if between 0xC2 0xDF x0 then
              if cont x1 then cons ((x0 - 0xC0) * 64 + (x1 - 0x80)) <$> utf8_decode r1 else None
            else
              match r1 with
              | [] => None
              | b2 :: r2 =>
                  let x2 := byte.unsigned b2 in
                  if between 0xE0 0xEF x0 then
                    if second_ok x0 x1 && cont x2 then
                      cons ((x0 - 0xE0) * 4096 + (x1 - 0x80) * 64 + (x2 - 0x80)) <$> utf8_decode r2
                    else None
                  else
                    match r2 with
                    | [] => None
                    | b3 :: r3 =>
                        let x3 := byte.unsigned b3 in
                        if between 0xF0 0xF4 x0 && second_ok x0 x1 && cont x2 && cont x3 then
                          cons ((x0 - 0xF0) * 262144 + (x1 - 0x80) * 4096 + (x2 - 0x80) * 64
                                + (x3 - 0x80)) <$> utf8_decode r3
                        else None
                    end
              end
        end
  end.

(** The byte order mark, dropped once. *)
Definition strip_bom (bs : list byte) : list byte :=
  match bs with
  | b0 :: b1 :: b2 :: rest =>
      if (byte.unsigned b0 =? 0xEF) && (byte.unsigned b1 =? 0xBB) && (byte.unsigned b2 =? 0xBF)
      then rest else bs
  | _ => bs
  end.

(** [new TextDecoder("utf-8", { fatal: true }).decode(bytes)] *)
Definition text_decode (bs : list byte) : option JsString := of_scalars <$> utf8_decode (strip_bom bs).

(** A string without a byte order mark at its start. *)
Definition drop_bom (us : JsString) : JsString :=
  match us with u :: rest => if u =? 0xFEFF then rest else us | [] => [] end.

(** ** Code units and code points *)

Ltac unfold_ranges := unfold scalar_ok, unit_ok, is_high, is_low, cont, second_ok, between in *.

Lemma to_scalars_ok us : forallb unit_ok us = true → forallb scalar_ok (to_scalars us) = true.
Proof.
  remember (length us) as n eqn:En. revert us En.
  induction (lt_wf n) as [n _ IH]. intros us ->.
  destruct us as [|u rest]; [done|]. cbn [forallb to_scalars]. intros [Hu Hr]%andb_true_iff.
  destruct (is_high u) eqn:Eh.
  - destruct rest as [|l rest]; [done|]. destruct (is_low l) eqn:El; cbn [forallb].
    + apply andb_true_iff. split; [unfold_ranges; lia|].
      cbn in Hr. apply andb_true_iff in Hr as [_ Hr]. eapply IH; [|done|done]. cbn. lia.
    + apply andb_true_iff. split; [done|]. eapply IH; [|done|done]. cbn. lia.
  - cbn [forallb]. apply andb_true_iff. split; [destruct (is_low u) eqn:El; unfold_ranges; lia|].
    eapply IH; [|done|done]. cbn. lia.
Qed.

Lemma to_of_scalar c rest :
  scalar_ok c = true → to_scalars (of_scalar c ++ rest) = c :: to_scalars rest.
Proof.
  intros Hc. unfold of_scalar. destruct (Z.ltb_spec c 0x10000) as [H|H].
  - cbn. assert (is_high c = false) as -> by (unfold_ranges; lia).
    by assert (is_low c = false) as -> by (unfold_ranges; lia).
  - cbn [app to_scalars].
    assert (is_high (0xD800 + (c - 0x10000) / 1024) = true) as ->
      by (unfold_ranges; Z.div_mod_to_equations; lia).
    assert (is_low (0xDC00 + (c - 0x10000) mod 1024) = true) as ->
      by (unfold_ranges; Z.div_mod_to_equations; lia).
    f_equal. Z.div_mod_to_equations. lia.
Qed.

Lemma to_of_scalars cs : forallb scalar_ok cs = true → to_scalars (of_scalars cs) = cs.
Proof.
  unfold of_scalars. induction cs as [|c cs IH]; [done|]. cbn [forallb flat_map].
  intros [Hc Hcs]%andb_true_iff. rewrite to_of_scalar by done. by rewrite IH.
Qed.

Lemma of_scalars_ok cs : forallb scalar_ok cs = true → forallb unit_ok (of_scalars cs) = true.
Proof.
  unfold of_scalars. induction cs as [|c cs IH]; [done|]. cbn [forallb flat_map].
  intros [Hc Hcs]%andb_true_iff. rewrite forallb_app, IH by done. rewrite andb_true_r. unfold of_scalar.
  destruct (Z.ltb_spec c 0x10000); cbn; rewrite ?andb_true_r.
  - unfold_ranges; lia.
  - apply andb_true_iff. split; unfold_ranges; Z.div_mod_to_equations; lia.
Qed.

(** ** UTF-8 *)

Lemma unsigned_of_Z_small x : 0 <= x < 256 → byte.unsigned (byte.of_Z x) = x.
Proof. intros. rewrite byte.unsigned_of_Z. by apply Z.mod_small. Qed.

Lemma cons_of_Z x b r r' : x = byte.unsigned b → r = r' → b :: r = byte.of_Z x :: r'.
Proof. intros -> ->. by rewrite byte.of_Z_unsigned. Qed.

Lemma byte_range b : 0 <= byte.unsigned b < 256.
Proof. apply byte.unsigned_range. Qed.

Lemma second_ok_true lead x :
  second_ok lead x = true ↔
  0x80 <= x <= 0xBF ∧ (lead = 0xE0 → 0xA0 <= x) ∧ (lead = 0xF0 → 0x90 <= x) ∧
  (lead = 0xED → x <= 0x9F) ∧ (lead = 0xF4 → x <= 0x8F).
Proof.
  unfold second_ok, between. rewrite andb_true_iff, !Z.leb_le.
  destruct (Z.eqb_spec lead 0xE0), (Z.eqb_spec lead 0xF0), (Z.eqb_spec lead 0xED),
    (Z.eqb_spec lead 0xF4); lia.
Qed.

Lemma utf8_decode_scalar c rest :
  scalar_ok c = true → utf8_decode (utf8_scalar c ++ rest) = cons c <$> utf8_decode rest.
Proof.
  intros Hc. unfold utf8_scalar.
  destruct (Z.ltb_spec c 0x80) as [H1|H1]; [|destruct (Z.ltb_spec c 0x800) as [H2|H2];
    [|destruct (Z.ltb_spec c 0x10000) as [H3|H3]]]; cbn [app utf8_decode];
    rewrite !unsigned_of_Z_small by (unfold_ranges; Z.div_mod_to_equations; lia);
    repeat match goal with
    | |- context [if ?b then _ else _] =>
        first [ replace b with false by (unfold between; Z.div_mod_to_equations; lia)
              | replace b with true by (symmetry; rewrite ?andb_true_iff, ?second_ok_true;
                  unfold_ranges; repeat split; Z.div_mod_to_equations; lia) ]
    end;
    try (match goal with |- (cons ?x <$> _) = _ =>
       replace x with c by (Z.div_mod_to_equations; lia) end); done.
Qed.

Lemma utf8_decode_encode cs :
  forallb scalar_ok cs = true → utf8_decode (flat_map utf8_scalar cs) = Some cs.
Proof.
  induction cs as [|c cs IH]; [done|]. cbn [forallb flat_map]. intros [Hc Hcs]%andb_true_iff.
  rewrite utf8_decode_scalar, IH by done. done.
Qed.

(** The code point read, with what is to be shown of it. *)
Ltac read_one rest :=
  match goal with H : _ <$> utf8_decode rest = Some _ |- _ =>
    apply fmap_Some in H as (? & ? & ->);
    eexists _, _, rest; split; [reflexivity|]; split; [unfold_ranges; lia|];
    split; [|split; [eassumption|cbn; lia]]; unfold utf8_scalar
  end;
  unfold_ranges;
  repeat match goal with
  | |- context [if ?c <? ?k then _ else _] =>
      first [rewrite (proj2 (Z.ltb_lt c k)) by lia | rewrite (proj2 (Z.ltb_ge c k)) by lia]
  end.

Ltac write_back :=
  cbn [app]; repeat (apply cons_of_Z; [Z.div_mod_to_equations; lia|]); reflexivity.

(** Reading the first code point back writes the bytes it was read from. *)
Lemma utf8_decode_inv bs cs :
  utf8_decode bs = Some cs →
  bs = [] ∧ cs = [] ∨
  ∃ c cs' rest, cs = c :: cs' ∧ scalar_ok c = true ∧ bs = utf8_scalar c ++ rest ∧
    utf8_decode rest = Some cs' ∧ (length rest < length bs)%nat.
Proof.
  destruct bs as [|b0 r0]; cbn [utf8_decode]; [intros [= <-]; by left|]. intros H. right.
  pose proof (byte_range b0) as R0.
  destruct (Z.ltb_spec (byte.unsigned b0) 0x80) as [H0|H0].
  { read_one r0. write_back. }
  destruct r0 as [|b1 r1]; [done|]. pose proof (byte_range b1) as R1.
  destruct (between 0xC2 0xDF _) eqn:E0.
  { destruct (cont _) eqn:E1; [|done]. read_one r1. write_back. }
  destruct r1 as [|b2 r2]; [done|]. pose proof (byte_range b2) as R2.
  destruct (between 0xE0 0xEF _) eqn:E1.
  { destruct (_ && _) eqn:E2; [|done]. apply andb_true_iff in E2 as [E2 E3].
    apply second_ok_true in E2. read_one r2. write_back. }
  destruct r2 as [|b3 r3]; [done|]. pose proof (byte_range b3) as R3.
  destruct (_ && _) eqn:E2; [|done].
  apply andb_true_iff in E2 as [[[E2 E3]%andb_true_iff E4]%andb_true_iff E5].
  apply second_ok_true in E3. read_one r3. write_back.
Qed.

Lemma utf8_encode_decode bs : ∀ cs,
  utf8_decode bs = Some cs → forallb scalar_ok cs = true ∧ flat_map utf8_scalar cs = bs.
Proof.
  remember (length bs) as n eqn:En. revert bs En. induction (lt_wf n) as [n _ IH]. intros bs -> cs.
  intros [[-> ->]|(c & cs' & rest & -> & Hc & -> & Hr & Hlen)]%utf8_decode_inv; [done|].
  destruct (IH _ Hlen rest eq_refl cs' Hr) as [Hok E]. cbn [forallb flat_map]. by rewrite Hc, Hok, E.
Qed.

(** ** Strings *)

Lemma text_encode_eq us : text_encode us = flat_map utf8_scalar (to_scalars us).
Proof. done. Qed.

(** The only character whose bytes start with a byte order mark is one. *)
Lemma strip_bom_encode cs :
  forallb scalar_ok cs = true → strip_bom (flat_map utf8_scalar cs) = flat_map utf8_scalar (drop_bom cs).
Proof.
  intros Hok. pose proof (utf8_decode_encode cs Hok) as Hd.
  destruct cs as [|c cs]; [done|]. cbn [drop_bom]. destruct (Z.eqb_spec c 0xFEFF) as [->|Hne]; [done|].
  remember (flat_map utf8_scalar (c :: cs)) as bs eqn:Ebs. clear Ebs.
  destruct bs as [|b0 [|b1 [|b2 rest]]]; [done..|]. cbn [strip_bom].
  destruct (_ && _) eqn:E; [|done]. exfalso.
  apply andb_true_iff in E as [[E0%Z.eqb_eq E1%Z.eqb_eq]%andb_true_iff E2%Z.eqb_eq].
  cbn [utf8_decode] in Hd. rewrite E0, E1, E2 in Hd. cbn in Hd.
  apply fmap_Some in Hd as (cs' & _ & [= -> _]). done.
Qed.

Lemma drop_bom_of_scalars cs :
  forallb scalar_ok cs = true → of_scalars (drop_bom cs) = drop_bom (of_scalars cs).
Proof.
  destruct cs as [|c cs]; [done|]. cbn [forallb]. intros [Hc _]%andb_true_iff. cbn [drop_bom].
  destruct (Z.eqb_spec c 0xFEFF) as [->|Hne]; [done|].
  unfold of_scalars. cbn [flat_map]. unfold of_scalar.
  destruct (Z.ltb_spec c 0x10000); cbn [app drop_bom];
    (rewrite (proj2 (Z.eqb_neq _ _)); [done|]); unfold_ranges; Z.div_mod_to_equations; lia.
Qed.

Lemma drop_bom_ok (p : Z → bool) us : forallb p us = true → forallb p (drop_bom us) = true.
Proof.
  destruct us as [|u us]; [done|]. cbn [forallb drop_bom]. intros [? ?]%andb_true_iff.
  destruct (u =? 0xFEFF); [done|]. cbn. by apply andb_true_iff.
Qed.

(** What is written reads back, but for surrogates without a pair and a byte
    order mark at the start. *)
Lemma text_decode_encode us :
  forallb unit_ok us = true → text_decode (text_encode us) = Some (drop_bom (toWellFormed us)).
Proof.
  intros Hu%to_scalars_ok. unfold text_decode, text_encode, toWellFormed.
  rewrite strip_bom_encode, utf8_decode_encode by (done || by apply drop_bom_ok). cbn.
  by rewrite drop_bom_of_scalars.
Qed.

(** What is read is a well-formed string that writes the bytes read. *)
Lemma text_encode_decode bs us :
  text_decode bs = Some us →
  forallb unit_ok us = true ∧ toWellFormed us = us ∧ text_encode us = strip_bom bs.
Proof.
  unfold text_decode. intros (cs & Hd & ->)%fmap_Some.
  apply utf8_encode_decode in Hd as [Hok E].
  unfold text_encode, toWellFormed. rewrite to_of_scalars by done.
  split; [by apply of_scalars_ok|done].
Qed.

Lemma strip_bom_length bs : (length (strip_bom bs) ≤ length bs)%nat.
Proof. destruct bs as [|b0 [|b1 [|b2 rest]]]; [done..|]. cbn. destruct (_ && _); cbn; lia. Qed.

Lemma strip_bom_eq bs : length (strip_bom bs) = length bs → strip_bom bs = bs.
Proof. destruct bs as [|b0 [|b1 [|b2 rest]]]; [done..|]. cbn. destruct (_ && _); cbn; [lia|done]. Qed.
