(* ===== verification/Nbt.v ===== *)
(** * NBT files

    Models [apps/relay/src/nbt.ts], the codec of the binary files a game
    server keeps its worlds and players in, and the tags it reads and writes
    ([packages/contracts/src/snbt.ts]). Reading takes bytes off the front of
    the file: the reader's offset is what is no longer there. *)
From Stdlib Require Import String.
From stdpp Require Import pretty.
From S2P Require Import Prelude Bytes Utf8.

(** ** Tags *)

Inductive NbtTagType :=
  | tag_end | tag_byte | tag_short | tag_int | tag_long | tag_float | tag_double | tag_byteArray
  | tag_string | tag_list | tag_compound | tag_intArray | tag_longArray.

#[global] Instance NbtTagType_eq_dec : EqDecision NbtTagType.
Proof. solve_decision. Defined.

Definition tagTypeById : list NbtTagType :=
  [tag_end; tag_byte; tag_short; tag_int; tag_long; tag_float; tag_double; tag_byteArray;
   tag_string; tag_list; tag_compound; tag_intArray; tag_longArray].

(** A list's element type is [None] where the source says ["mixed"]. *)
Inductive NbtTag :=
  | TByte (value : Z)
  | TShort (value : Z)
  | TInt (value : Z)
  | TLong (value : Z)
  | TFloat (value : JsNumber)
  | TDouble (value : JsNumber)
  | TByteArray (value : list Z)
  | TString (value : JsString)
  | TList (elementType : option NbtTagType) (value : list NbtTag)
  | TCompound (value : list (JsString * NbtTag))
  | TIntArray (value : list Z)
  | TLongArray (value : list Z).

(** [tag.type] *)
Definition tag_type (tag : NbtTag) : NbtTagType :=
  match tag with
  | TByte _ => tag_byte | TShort _ => tag_short | TInt _ => tag_int | TLong _ => tag_long
  | TFloat _ => tag_float | TDouble _ => tag_double | TByteArray _ => tag_byteArray
  | TString _ => tag_string | TList _ _ => tag_list | TCompound _ => tag_compound
  | TIntArray _ => tag_intArray | TLongArray _ => tag_longArray
  end.

Record NamedNbt := MkNamed { root_name : JsString; root_tag : NbtTag }.

Definition maxNbtDepth : Z := 512.

(** ** Reading *)

Inductive Read (A : Type) :=
  | Got (a : A) (rest : list byte)
  | Fails (message : string)
  | OutOfFuel.
Arguments Got {A} a rest.
Arguments Fails {A} message.
Arguments OutOfFuel {A}.

Definition Reader (A : Type) : Type := list byte → Read A.

#[global] Instance Reader_ret : MRet Reader := λ A a rest, Got a rest.
#[global] Instance Reader_bind : MBind Reader := λ A B k r bs,
  match r bs with
  | Got a rest => k a rest
  | Fails message => Fails message
  | OutOfFuel => OutOfFuel
  end.

Definition fails {A} (message : string) : Reader A := λ _, Fails message.

(** [Array.from({ length }, read)] *)
Fixpoint read_times {A} (n : nat) (read : Reader A) : Reader (list A) :=
  match n with
  | O => mret []
  | S n => a ← read; l ← read_times n read; mret (a :: l)
  end.

Section Reading.
(** [source.byteLength] *)
Variable byteLength : Z.

(** [#ensure] and [subarray] *)
Definition readBytes (length : Z) : Reader (list byte) := λ bs,
  if (length <? 0) || (Z.of_nat (List.length bs) <? length)
  then Fails "NBT file ended before the current tag was complete"
  else Got (take (Z.to_nat length) bs) (drop (Z.to_nat length) bs).

Definition readUnsignedByte : Reader Z := bs ← readBytes 1; mret (get_uint bs).
Definition readSignedByte : Reader Z := bs ← readBytes 1; mret (get_int bs).
Definition readUnsignedShort : Reader Z := bs ← readBytes 2; mret (get_uint bs).
Definition readSignedShort : Reader Z := bs ← readBytes 2; mret (get_int bs).
Definition readSignedInt : Reader Z := bs ← readBytes 4; mret (get_int bs).
Definition readSignedLong : Reader Z := bs ← readBytes 8; mret (get_int bs).

Definition readFloat : Reader JsNumber :=
  bs ← readBytes 4;
  let value := getFloat32 bs in
  if isFinite value then mret value else fails "NBT contains a non-finite float".

Definition readDouble : Reader JsNumber :=
  bs ← readBytes 8;
  let value := getFloat64 bs in
  if isFinite value then mret value else fails "NBT contains a non-finite double".

Definition readType (allowEnd : bool) : Reader NbtTagType :=
  id ← readUnsignedByte;
  match tagTypeById !! Z.to_nat id with
  | Some type =>
      if negb allowEnd && bool_decide (type = tag_end)
      then fails ("Invalid NBT tag type " +:+ pretty id) else mret type
  | None => fails ("Invalid NBT tag type " +:+ pretty id)
  end.

Definition readString : Reader JsString :=
  length ← readUnsignedShort;
  bytes ← readBytes length;
  match text_decode bytes with
  | Some decoded => mret decoded
  | None => fails "NBT contains an invalid UTF-8 string"
  end.

Definition readLength (label : string) : Reader Z :=
  length ← readSignedInt;
  if length <? 0 then fails ("NBT " +:+ label +:+ " has a negative length")
  else if byteLength <? length then fails ("NBT " +:+ label +:+ " length exceeds the file size")
  else mret length.

(** A compound's entries up to its end tag. *)
Fixpoint read_entries (fuel : nat) (readChild : NbtTagType → Reader NbtTag)
    : Reader (list (JsString * NbtTag)) :=
  match fuel with
  | O => λ _, OutOfFuel
  | S fuel =>
      childType ← readType true;
      if decide (childType = tag_end) then mret []
      else
        name ← readString;
        tag ← readChild childType;
        value ← read_entries fuel readChild;
        mret ((name, tag) :: value)
  end.

Fixpoint readPayload (levels : nat) (type : NbtTagType) (depth : Z) : Reader NbtTag :=
  if maxNbtDepth <? depth then fails "NBT nesting exceeds 512 levels"
  else
    match levels with
    | O => λ _, OutOfFuel
    | S levels =>
        match type with
        | tag_end => fails "TAG_End cannot be used as a value"
        | tag_byte => value ← readSignedByte; mret (TByte value)
        | tag_short => value ← readSignedShort; mret (TShort value)
        | tag_int => value ← readSignedInt; mret (TInt value)
        | tag_long => value ← readSignedLong; mret (TLong value)
        | tag_float => value ← readFloat; mret (TFloat value)
        | tag_double => value ← readDouble; mret (TDouble value)
        | tag_byteArray =>
            length ← readLength "byte array";
            bytes ← readBytes length;
            mret (TByteArray ((λ b, if 127 <? byte.unsigned b then byte.unsigned b - 256
                                    else byte.unsigned b) <$> bytes))
        | tag_string => value ← readString; mret (TString value)
        | tag_list =>
            elementType ← readType true;
            length ← readLength "list";
            if (0 <? length) && bool_decide (elementType = tag_end)
            then fails "A non-empty NBT list cannot contain TAG_End"
            else
              value ← read_times (Z.to_nat length) (readPayload levels elementType (depth + 1));
              mret (TList (Some elementType) value)
        | tag_compound =>
            value ← (λ bs, read_entries (S (List.length bs))
                             (λ childType, readPayload levels childType (depth + 1)) bs);
            mret (TCompound value)
        | tag_intArray =>
            length ← readLength "int array";
            value ← read_times (Z.to_nat length) readSignedInt;
            mret (TIntArray value)
        | tag_longArray =>
            length ← readLength "long array";
            value ← read_times (Z.to_nat length) readSignedLong;
            mret (TLongArray value)
        end
    end.
End Reading.

(** Levels enough for the depths the reader allows. *)
Definition nbt_levels : nat := Z.to_nat (maxNbtDepth + 1).

(** [reader.done], checked last. *)
Definition at_end {A} (a : A) : Reader A := λ rest,
  match rest with [] => Got a [] | _ => Fails "NBT file has trailing binary data" end.

Definition read_root (byteLength : Z) : Reader NamedNbt :=
  type ← readType false;
  name ← readString;
  tag ← readPayload byteLength nbt_levels type 0;
  at_end (MkNamed name tag).

Definition decodeNbt (source : list byte) : Read NamedNbt :=
  read_root (Z.of_nat (List.length source)) source.

(** ** Writing *)

Definition out_of_range : string := "ERR_OUT_OF_RANGE".

(** [writeInt8], [writeInt16BE] and the like throw on a value out of range. *)
Definition write_int (n : nat) (value : Z) : Result string (list byte) :=
  guard! int_ok n value else out_of_range in Ok (put_int n value).

Definition write_uint (n : nat) (value : Z) : Result string (list byte) :=
  guard! uint_ok n value else out_of_range in Ok (put_uint n value).

Definition tag_id (type : NbtTagType) : Z :=
  match type with
  | tag_end => 0 | tag_byte => 1 | tag_short => 2 | tag_int => 3 | tag_long => 4 | tag_float => 5
  | tag_double => 6 | tag_byteArray => 7 | tag_string => 8 | tag_list => 9 | tag_compound => 10
  | tag_intArray => 11 | tag_longArray => 12
  end.

Definition writeType (type : NbtTagType) : Result string (list byte) := write_uint 1 (tag_id type).

Definition writeString (value : JsString) : Result string (list byte) :=
  let encoded := text_encode value in
  guard! Z.of_nat (length encoded) <=? 65535 else "NBT strings cannot exceed 65,535 UTF-8 bytes" in
  let! size := write_uint 2 (Z.of_nat (length encoded)) in
  Ok (size ++ encoded).

Definition writeLength (value : Z) : Result string (list byte) :=
  guard! (0 <=? value) && (value <=? 2147483647) else "NBT collection length is out of range" in
  write_int 4 value.

Definition writeFloat (value : JsNumber) : Result string (list byte) :=
  guard! isFinite value else "NBT floats must be finite" in Ok (writeFloatBE value).

Definition writeDouble (value : JsNumber) : Result string (list byte) :=
  guard! isFinite value else "NBT doubles must be finite" in Ok (writeDoubleBE value).

(** The chunks of one element after another. *)
Section WriteEach.
Context {A : Type} (write : A → Result string (list byte)).
Fixpoint write_each (l : list A) : Result string (list byte) :=
  match l with
  | [] => Ok []
  | a :: l =>
      let! chunk := write a in
      let! chunks := write_each l in
      Ok (chunk ++ chunks)
  end.
End WriteEach.

(** [tag.value[0]?.type ?? "end"] *)
Definition first_type (value : list NbtTag) : NbtTagType :=
  match value with tag :: _ => tag_type tag | [] => tag_end end.

Fixpoint writePayload (depth : Z) (tag : NbtTag) : Result string (list byte) :=
  guard! negb (maxNbtDepth <? depth) else "NBT nesting exceeds 512 levels" in
  match tag with
  | TByte value => write_int 1 value
  | TShort value => write_int 2 value
  | TInt value => write_int 4 value
  | TLong value => write_int 8 value
  | TFloat value => writeFloat value
  | TDouble value => writeDouble value
  | TByteArray value =>
      let! size := writeLength (Z.of_nat (length value)) in
      Ok (size ++ ((λ v, byte.of_Z (Z.land v 255)) <$> value))
  | TString value => writeString value
  | TList listType value =>
      let elementType := first_type value in
      guard! negb (bool_decide (listType = None)) &&
             forallb (λ v, bool_decide (tag_type v = elementType)) value
        else "Binary NBT lists must contain one tag type" in
      let! type := writeType elementType in
      let! size := writeLength (Z.of_nat (length value)) in
      let! chunks := write_each (writePayload (depth + 1)) value in
      Ok (type ++ size ++ chunks)
  | TCompound value =>
      let! chunks := write_each (λ entry,
        let! type := writeType (tag_type entry.2) in
        let! name := writeString entry.1 in
        let! chunk := writePayload (depth + 1) entry.2 in
        Ok (type ++ name ++ chunk)) value in
      let! type := writeType tag_end in
      Ok (chunks ++ type)
  | TIntArray value =>
      let! size := writeLength (Z.of_nat (length value)) in
      let! chunks := write_each (write_int 4) value in
      Ok (size ++ chunks)
  | TLongArray value =>
      let! size := writeLength (Z.of_nat (length value)) in
      let! chunks := write_each (write_int 8) value in
      Ok (size ++ chunks)
  end.

Definition encodeNbt (root : NamedNbt) : Result string (list byte) :=
  let! type := writeType (tag_type (root_tag root)) in
  let! name := writeString (root_name root) in
  let! chunk := writePayload 0 (root_tag root) in
  Ok (type ++ name ++ chunk).

Definition sample_nbt : NamedNbt :=
  MkNamed [72; 233] (TCompound [([97], TList (Some tag_int) [TInt 1; TInt (-2)]);
    ([98], TFloat (Finite false 3 (-1))); ([99], TByteArray [1; -1]);
    ([100], TList (Some tag_string) [])]).

Example nbt_sample :
  encodeNbt sample_nbt =
    Ok (byte.of_Z <$> [10; 0; 3; 72; 195; 169; 9; 0; 1; 97; 3; 0; 0; 0; 2; 0; 0; 0; 1; 255; 255; 255; 254;
      5; 0; 1; 98; 63; 192; 0; 0; 7; 0; 1; 99; 0; 0; 0; 2; 1; 255; 9; 0; 1; 100; 0; 0; 0; 0; 0; 0]) ∧
  decodeNbt (byte.of_Z <$> [10; 0; 0; 1; 0; 1; 97; 255; 0]) =
    Got (MkNamed [] (TCompound [([97], TByte (-1))])) [] ∧
  decodeNbt (byte.of_Z <$> [7; 0; 0; 0; 0; 0; 9]) = Fails "NBT byte array length exceeds the file size" ∧
  decodeNbt (byte.of_Z <$> [13]) = Fails "Invalid NBT tag type 13".
Proof. vm_compute. done. Qed.
