(* ===== verification/NbtFacts.v ===== *)
(** * NBT files: what reading and writing guarantee

    Properties of [Nbt]: what is written reads back, exactly; what is read is
    well typed and can be written; reading always ends. *)
From Stdlib Require Import String.
From stdpp Require Import pretty.
From S2P Require Import Prelude Bytes Utf8 Nbt.

(** ** Induction over tags *)

Section TagInd.
Variable P : NbtTag → Prop.
Hypotheses (Pbyte : ∀ v, P (TByte v)) (Pshort : ∀ v, P (TShort v)) (Pint : ∀ v, P (TInt v))
  (Plong : ∀ v, P (TLong v)) (Pfloat : ∀ v, P (TFloat v)) (Pdouble : ∀ v, P (TDouble v))
  (Pbytes : ∀ v, P (TByteArray v)) (Pstring : ∀ v, P (TString v))
  (Plist : ∀ t v, Forall P v → P (TList t v))
  (Pcompound : ∀ v, Forall (λ e, P e.2) v → P (TCompound v))
  (Pints : ∀ v, P (TIntArray v)) (Plongs : ∀ v, P (TLongArray v)).

Fixpoint NbtTag_rect' (tag : NbtTag) : P tag :=
  match tag with
  | TByte v => Pbyte v | TShort v => Pshort v | TInt v => Pint v | TLong v => Plong v
  | TFloat v => Pfloat v | TDouble v => Pdouble v | TByteArray v => Pbytes v
  | TString v => Pstring v
  | TList t v => Plist t v ((fix all v := match v return Forall P v with
                              | [] => Forall_nil_2 _
                              | tag :: v => Forall_cons_2 _ _ _ (NbtTag_rect' tag) (all v)
                              end) v)
  | TCompound v => Pcompound v ((fix all v := match v return Forall (λ e, P e.2) v with
                              | [] => Forall_nil_2 _
                              | e :: v => Forall_cons_2 _ _ _ (NbtTag_rect' e.2) (all v)
                              end) v)
  | TIntArray v => Pints v | TLongArray v => Plongs v
  end.
End TagInd.

(** ** Reading what was written *)

(** What a tag reads back as: floats rounded to 32 bits, bytes wrapped, text
    without surrogates that have no pair and without a byte order mark, lists
    of the type of their elements. *)
Fixpoint reread (tag : NbtTag) : NbtTag :=
  match tag with
  | TFloat v => TFloat (fround v)
  | TByteArray v => TByteArray ((λ v, (v + 128) mod 256 - 128) <$> v)
  | TString v => TString (drop_bom (toWellFormed v))
  | TList _ v => TList (Some (first_type v)) (reread <$> v)
  | TCompound v => TCompound ((λ e, (drop_bom (toWellFormed e.1), reread e.2)) <$> v)
  | _ => tag
  end.

(** No float rounds to infinity. *)
Fixpoint floats_fit (tag : NbtTag) : bool :=
  match tag with
  | TFloat v => isFinite (fround v)
  | TList _ v => forallb floats_fit v
  | TCompound v => forallb (λ e, floats_fit e.2) v
  | _ => true
  end.

(** A JavaScript value of the tag's type: its strings are code units, its
    numbers are of the 64-bit format. *)
Fixpoint js_tag (tag : NbtTag) : Prop :=
  match tag with
  | TFloat v | TDouble v => number_ok v
  | TString v => forallb unit_ok v = true
  | TList _ v => foldr (λ t p, js_tag t ∧ p) True v
  | TCompound v => foldr (λ e p, (forallb unit_ok e.1 = true ∧ js_tag e.2) ∧ p) True v
  | _ => True
  end.

Lemma foldr_and {A} (f : A → Prop) l : foldr (λ a p, f a ∧ p) True l ↔ Forall f l.
Proof. induction l as [|a l IH]; cbn; [by rewrite Forall_nil|]. by rewrite Forall_cons, IH. Qed.

(** A reader takes exactly what a chunk holds off the front, and gives a value. *)
Definition takes {A} (read : Reader A) (chunk : list byte) (a : A) : Prop :=
  ∀ rest, read (chunk ++ rest) = Got a rest.

Lemma takes_ret {A} (a : A) : takes (mret a) [] a.
Proof. by intros rest. Qed.

Lemma takes_bind {A B} (read : Reader A) (k : A → Reader B) c1 c2 a b :
  takes read c1 a → takes (k a) c2 b → takes (read ≫= k) (c1 ++ c2) b.
Proof. intros H1 H2 rest. cbn. unfold mbind, Reader_bind. by rewrite <-app_assoc, H1, H2. Qed.

Lemma takes_map {A B} (read : Reader A) (f : A → B) c a :
  takes read c a → takes (x ← read; mret (f x)) c (f a).
Proof. intros H rest. unfold mbind, Reader_bind. by rewrite H. Qed.

(** Reading what was written gives the value back, unless a float in it does
    not fit. *)
Definition float_message : string := "NBT contains a non-finite float".

Definition outcome {A} (fit : bool) (read : Reader A) (chunk : list byte) (a : A) : Prop :=
  if fit then takes read chunk a else ∀ rest, read (chunk ++ rest) = Fails float_message.

Lemma outcome_takes {A} (read : Reader A) chunk a : takes read chunk a → outcome true read chunk a.
Proof. done. Qed.

Lemma outcome_bind {A B} fit fit' (read : Reader A) (k : A → Reader B) c1 c2 a b :
  outcome fit read c1 a → outcome fit' (k a) c2 b → outcome (fit && fit') (read ≫= k) (c1 ++ c2) b.
Proof.
  unfold outcome. destruct fit; cbn [andb].
  - intros H1 H2. destruct fit'; [by eapply takes_bind|].
    intros rest. unfold mbind, Reader_bind. by rewrite <-app_assoc, H1, H2.
  - intros H1 _ rest. unfold mbind, Reader_bind. by rewrite <-app_assoc, H1.
Qed.

Lemma outcome_after {A B} fit (read : Reader A) (k : A → Reader B) c1 c2 a b :
  takes read c1 a → outcome fit (k a) c2 b → outcome fit (read ≫= k) (c1 ++ c2) b.
Proof. intros H. by apply (outcome_bind true fit). Qed.

Lemma outcome_map {A B} fit (read : Reader A) (f : A → B) c a :
  outcome fit read c a → outcome fit (x ← read; mret (f x)) c (f a).
Proof.
  unfold outcome. destruct fit; [apply takes_map|].
  intros H rest. unfold mbind, Reader_bind. by rewrite H.
Qed.

Lemma readBytes_takes n chunk : n = Z.of_nat (length chunk) → takes (readBytes n) chunk chunk.
Proof.
  intros -> rest. unfold readBytes. rewrite length_app.
  rewrite !(proj2 (Z.ltb_ge _ _)) by lia. cbn [orb]. by rewrite Nat2Z.id, take_app_length, drop_app_length.
Qed.

Lemma read_int_takes n v chunk :
  (0 < n)%nat → write_int n v = Ok chunk → takes (bs ← readBytes (Z.of_nat n); mret (get_int bs)) chunk v.
Proof.
  unfold write_int. intros Hn. destruct (int_ok n v) eqn:Ev; [|done]. intros <-%Ok_inj rest.
  unfold mbind, Reader_bind. rewrite readBytes_takes by by rewrite put_int_length.
  unfold mret, Reader_ret. by rewrite get_put_int.
Qed.

Lemma read_uint_takes n v chunk :
  write_uint n v = Ok chunk → takes (bs ← readBytes (Z.of_nat n); mret (get_uint bs)) chunk v.
Proof.
  unfold write_uint. destruct (uint_ok n v) eqn:Ev; [|done]. intros <-%Ok_inj rest.
  unfold mbind, Reader_bind. rewrite readBytes_takes by by rewrite put_uint_length.
  unfold mret, Reader_ret. by rewrite get_put_uint_ok.
Qed.

Lemma write_int_length n v chunk : write_int n v = Ok chunk → length chunk = n.
Proof. unfold write_int. destruct (int_ok n v); [|done]. intros <-%Ok_inj. apply put_int_length. Qed.

Lemma readType_takes allowEnd type chunk :
  writeType type = Ok chunk → (allowEnd = true ∨ type ≠ tag_end) → takes (readType allowEnd) chunk type.
Proof.
  intros Hw Ht rest. unfold readType, mbind, Reader_bind.
  rewrite (read_uint_takes 1 _ _ Hw). 
  destruct Ht as [->|Ht]; [by destruct type|]. by destruct type, allowEnd.
Qed.

Lemma readString_takes name chunk :
  forallb unit_ok name = true → writeString name = Ok chunk →
  takes readString chunk (drop_bom (toWellFormed name)).
Proof.
  intros Hn. unfold writeString, result_bind. destruct (_ <=? _); [|done].
  destruct (write_uint 2 _) as [sz|] eqn:Hs; [|done]. intros <-%Ok_inj.
  eapply takes_bind; [exact (read_uint_takes 2 _ _ Hs)|].
  intros rest. unfold mbind, Reader_bind. rewrite readBytes_takes by done.
  by rewrite text_decode_encode.
Qed.

Lemma writeLength_ok n chunk :
  writeLength n = Ok chunk → 0 <= n ∧ length chunk = 4%nat ∧ write_int 4 n = Ok chunk.
Proof.
  unfold writeLength. destruct (_ && _) eqn:E; [|done]. intros H.
  split; [lia|]. split; [by eapply write_int_length|done].
Qed.

Lemma readLength_takes byteLength label n chunk :
  writeLength n = Ok chunk → n <= byteLength → takes (readLength byteLength label) chunk n.
Proof.
  intros (Hn & _ & H)%writeLength_ok Hb rest. unfold readLength, mbind, Reader_bind.
  rewrite (read_int_takes 4 _ _ ltac:(lia) H).
  by rewrite (proj2 (Z.ltb_ge _ 0)), (proj2 (Z.ltb_ge byteLength _)) by lia.
Qed.

(** Elements written one after another read one after another. *)
Lemma each_outcome {A B} (write : A → Result string (list byte)) (read : Reader B) (fit : A → bool)
    (value : A → B) l : ∀ chunks,
  write_each write l = Ok chunks →
  Forall (λ a, ∀ chunk, write a = Ok chunk → outcome (fit a) read chunk (value a)) l →
  outcome (forallb fit l) (read_times (length l) read) chunks (value <$> l).
Proof.
  induction l as [|a l IH]; cbn [write_each]; intros chunks.
  { intros <-%Ok_inj _. apply outcome_takes, takes_ret. }
  unfold result_bind. destruct (write a) as [chunk|] eqn:Ha; [|done].
  destruct (write_each write l) as [rest|] eqn:Hl; [|done]. intros <-%Ok_inj [Hw Hws]%Forall_cons.
  cbn [length read_times forallb]. apply (outcome_bind _ _ _ _ _ _ (value a)); [by apply Hw|].
  apply outcome_map with (f := cons (value a)). by apply IH.
Qed.

Lemma each_length {A} (write : A → Result string (list byte)) l : ∀ chunks,
  write_each write l = Ok chunks →
  Forall (λ a, ∀ chunk, write a = Ok chunk → (1 ≤ length chunk)%nat) l →
  (length l ≤ length chunks)%nat.
Proof.
  induction l as [|a l IH]; cbn [write_each]; intros chunks; [cbn; lia|].
  unfold result_bind. destruct (write a) as [chunk|] eqn:Ha; [|done].
  destruct (write_each write l) as [rest|] eqn:Hl; [|done]. intros <-%Ok_inj [Hw Hws]%Forall_cons.
  rewrite length_app. specialize (Hw chunk Ha). specialize (IH rest eq_refl Hws). cbn. lia.
Qed.

Lemma each_part {A} (write : A → Result string (list byte)) l : ∀ chunks a chunk,
  write_each write l = Ok chunks → a ∈ l → write a = Ok chunk → (length chunk ≤ length chunks)%nat.
Proof.
  induction l as [|b l IH]; cbn [write_each]; intros chunks a chunk; [by intros _ ?%elem_of_nil|].
  unfold result_bind. destruct (write b) as [c|] eqn:Hb; [|done].
  destruct (write_each write l) as [rest|] eqn:Hl; [|done]. intros <-%Ok_inj Ha Hw. rewrite length_app.
  apply elem_of_cons in Ha as [->|Ha]; [rewrite Hb in Hw; apply Ok_inj in Hw as <-; lia|].
  specialize (IH rest a chunk eq_refl Ha Hw). lia.
Qed.

(** The next thing written. *)
Ltac next_chunk c H :=
  match goal with |- context [result_bind ?r _] => destruct r as [c|] eqn:H; [|done] end;
  cbn [result_bind].

Lemma writeType_length type chunk : writeType type = Ok chunk → length chunk = 1%nat.
Proof.
  unfold writeType, write_uint. destruct (uint_ok 1 _); [|done]. intros <-%Ok_inj. apply put_uint_length.
Qed.

Lemma chunk_nonempty depth tag chunk : writePayload depth tag = Ok chunk → (1 ≤ length chunk)%nat.
Proof.
  destruct tag; cbn [writePayload]; (destruct (negb _); [|done]).
  1-4: intros ->%write_int_length; lia.
  - unfold writeFloat. destruct (isFinite _); [|done]. intros <-%Ok_inj.
    unfold writeFloatBE. rewrite put_uint_length. lia.
  - unfold writeDouble. destruct (isFinite _); [|done]. intros <-%Ok_inj.
    unfold writeDoubleBE. rewrite put_uint_length. lia.
  - next_chunk sz Hs. intros <-%Ok_inj. apply writeLength_ok in Hs as (_ & Hs & _). rewrite length_app. lia.
  - unfold writeString. destruct (_ <=? _); [|done]. next_chunk sz Hs. intros <-%Ok_inj.
    unfold write_uint in Hs. destruct (uint_ok _ _); [|done]. apply Ok_inj in Hs as <-.
    rewrite length_app, put_uint_length. lia.
  - destruct (_ && _); [|done]. next_chunk t Ht. next_chunk sz Hs. next_chunk cs Hc. intros <-%Ok_inj.
    apply writeType_length in Ht. rewrite length_app. lia.
  - next_chunk cs Hc. next_chunk t Ht. intros <-%Ok_inj. apply writeType_length in Ht. rewrite length_app. lia.
  - next_chunk sz Hs. next_chunk cs Hc. intros <-%Ok_inj. apply writeLength_ok in Hs as (_ & Hs & _).
    rewrite length_app. lia.
  - next_chunk sz Hs. next_chunk cs Hc. intros <-%Ok_inj. apply writeLength_ok in Hs as (_ & Hs & _).
    rewrite length_app. lia.
Qed.

(** What a compound's entry is written as. *)
Definition write_entry (depth : Z) (e : JsString * NbtTag) : Result string (list byte) :=
  let! type := writeType (tag_type e.2) in
  let! name := writeString e.1 in
  let! chunk := writePayload (depth + 1) e.2 in
  Ok (type ++ name ++ chunk).

Definition reread_entry (e : JsString * NbtTag) : JsString * NbtTag :=
  (drop_bom (toWellFormed e.1), reread e.2).

Lemma tag_type_end tag : tag_type tag ≠ tag_end.
Proof. by destruct tag. Qed.

Lemma write_entry_length depth e chunk : write_entry depth e = Ok chunk → (1 ≤ length chunk)%nat.
Proof.
  unfold write_entry. next_chunk t Ht. next_chunk nm Hn. next_chunk cs Hc. intros <-%Ok_inj.
  apply writeType_length in Ht. rewrite length_app. lia.
Qed.

Lemma entries_outcome depth (readChild : NbtTagType → Reader NbtTag) value : ∀ fuel chunks last,
  write_each (write_entry depth) value = Ok chunks → writeType tag_end = Ok last →
  (length value < fuel)%nat →
  Forall (λ e, forallb unit_ok e.1 = true ∧ ∀ chunk, writePayload (depth + 1) e.2 = Ok chunk →
    (length chunk ≤ length chunks)%nat →
    outcome (floats_fit e.2) (readChild (tag_type e.2)) chunk (reread e.2)) value →
  outcome (forallb (λ e, floats_fit e.2) value) (read_entries fuel readChild) (chunks ++ last)
    (reread_entry <$> value).
Proof.
  induction value as [|e value IH]; intros [|fuel] chunks last; cbn [write_each]; try (cbn; lia).
  { intros <-%Ok_inj Hl _ _. cbn [read_entries forallb app]. rewrite <-(app_nil_r last).
    eapply (outcome_after true); [by apply readType_takes; [|left]|]. by apply outcome_takes. }
  next_chunk chunk He. next_chunk rest Hr. intros <-%Ok_inj Hl Hfuel [[Hn Hw] Hws]%Forall_cons.
  revert He. unfold write_entry. next_chunk t Ht. next_chunk nm Hnm. next_chunk cs Hc.
  intros <-%Ok_inj. cbn [read_entries forallb]. rewrite <-!app_assoc.
  eapply outcome_after; [by apply readType_takes; [|left]|].
  rewrite decide_False by apply tag_type_end.
  eapply outcome_after; [by apply readString_takes|].
  eapply outcome_bind; [apply Hw; [done|rewrite !length_app; lia]|].
  apply outcome_map with (f := cons (reread_entry e)). apply IH; [done|done|cbn in Hfuel; lia|].
  eapply Forall_impl; [exact Hws|]. intros e' [? H]. split; [done|]. intros c' ? ?. apply H; [done|].
  rewrite !length_app. lia.
Qed.

Lemma compound_outcome depth (readChild : NbtTagType → Reader NbtTag) value chunks last :
  write_each (write_entry depth) value = Ok chunks → writeType tag_end = Ok last →
  Forall (λ e, forallb unit_ok e.1 = true ∧ ∀ chunk, writePayload (depth + 1) e.2 = Ok chunk →
    (length chunk ≤ length chunks)%nat →
    outcome (floats_fit e.2) (readChild (tag_type e.2)) chunk (reread e.2)) value →
  outcome (forallb (λ e, floats_fit e.2) value)
    (λ bs, read_entries (S (length bs)) readChild bs) (chunks ++ last) (reread_entry <$> value).
Proof.
  intros Hc Hl Hv.
  assert (length value ≤ length chunks)%nat as Hlen.
  { eapply each_length; [exact Hc|]. apply Forall_true. intros e c. apply write_entry_length. }
  assert (∀ rest, outcome (forallb (λ e, floats_fit e.2) value)
    (read_entries (S (length ((chunks ++ last) ++ rest))) readChild) (chunks ++ last)
    (reread_entry <$> value)) as H.
  { intros rest. eapply entries_outcome; [done..| |done]. rewrite !length_app. lia. }
  revert H. unfold outcome. destruct (forallb _ _); intros H rest; apply H.
Qed.

(** A depth within bounds has a level left. *)
Lemma level_left depth levels :
  (maxNbtDepth <? depth) = false → maxNbtDepth + 1 <= depth + Z.of_nat levels →
  ∃ levels', levels = S levels' ∧ maxNbtDepth + 1 <= depth + 1 + Z.of_nat levels'.
Proof. intros H%Z.ltb_ge Hl. destruct levels as [|l]; [lia|]. exists l. split; [done|lia]. Qed.

Lemma byte_array_reread (value : list Z) :
  (λ b, if 127 <? byte.unsigned b then byte.unsigned b - 256 else byte.unsigned b) <$>
    ((λ v, byte.of_Z (Z.land v 255)) <$> value) = (λ v, (v + 128) mod 256 - 128) <$> value.
Proof.
  rewrite <-list_fmap_compose. apply list_fmap_ext. intros _ v _. unfold compose.
  change 255 with (Z.ones 8). rewrite Z.land_ones by lia. change (2 ^ 8) with 256.
  rewrite unsigned_of_Z_small by (apply Z.mod_pos_bound; lia).
  destruct (Z.ltb_spec 127 (v mod 256)); Z.div_mod_to_equations; lia.
Qed.

Lemma float_outcome v chunk :
  number_ok v → writeFloat v = Ok chunk → outcome (isFinite (fround v)) readFloat chunk (fround v).
Proof.
  unfold writeFloat. intros Hv. destruct (isFinite v); [|done]. intros <-%Ok_inj.
  assert (∀ rest, readFloat (writeFloatBE v ++ rest) =
    if isFinite (fround v) then Got (fround v) rest else Fails float_message) as H.
  { intros rest. unfold readFloat, mbind, Reader_bind.
    rewrite readBytes_takes by (unfold writeFloatBE; by rewrite put_uint_length).
    rewrite getFloat32_writeFloatBE by done. by destruct (isFinite (fround v)). }
  unfold outcome. destruct (isFinite (fround v)); intros rest; apply H.
Qed.

Lemma double_takes v chunk : number_ok v → writeDouble v = Ok chunk → takes readDouble chunk v.
Proof.
  unfold writeDouble. intros Hv. destruct (isFinite v) eqn:Hf; [|done]. intros <-%Ok_inj rest.
  unfold readDouble, mbind, Reader_bind.
  rewrite readBytes_takes by (unfold writeDoubleBE; by rewrite put_uint_length).
  by rewrite getFloat64_writeDoubleBE, Hf.
Qed.

Lemma ints_outcome {A} byteLength label n value sz chunks (f : list Z → A) :
  (0 < n)%nat → writeLength (Z.of_nat (length value)) = Ok sz → write_each (write_int n) value = Ok chunks →
  Z.of_nat (length (sz ++ chunks)) <= byteLength →
  takes (length ← readLength byteLength label;
         value ← read_times (Z.to_nat length) (bs ← readBytes (Z.of_nat n); mret (get_int bs));
         mret (f value)) (sz ++ chunks) (f value).
Proof.
  intros Hn Hs Hc Hlen. rewrite length_app in Hlen.
  assert (length value ≤ length chunks)%nat.
  { eapply each_length; [exact Hc|]. apply Forall_true. intros v c Hv. apply write_int_length in Hv. lia. }
  eapply takes_bind; [apply (readLength_takes _ _ _ _ Hs); lia|]. rewrite Nat2Z.id.
  apply takes_map. pose proof (each_outcome (write_int n) (bs ← readBytes (Z.of_nat n); mret (get_int bs))
    (λ _, true) id value chunks Hc) as Ho. rewrite list_fmap_id in Ho.
  replace (forallb (λ _, true) value) with true in Ho by (symmetry; by apply forallb_elem).
  apply Ho. apply Forall_true. intros v c. by apply read_int_takes.
Qed.

Lemma list_outcome byteLength depth levels value elementType ty sz chunks :
  elementType = first_type value →
  forallb (λ v, bool_decide (tag_type v = elementType)) value = true →
  writeType elementType = Ok ty → writeLength (Z.of_nat (length value)) = Ok sz →
  write_each (writePayload (depth + 1)) value = Ok chunks →
  Z.of_nat (length (ty ++ sz ++ chunks)) <= byteLength →
  Forall (λ v, ∀ chunk, writePayload (depth + 1) v = Ok chunk → (length chunk ≤ length chunks)%nat →
    outcome (floats_fit v) (readPayload byteLength levels (tag_type v) (depth + 1)) chunk (reread v)) value →
  outcome (forallb floats_fit value)
    (elementType ← readType true;
     length ← readLength byteLength "list";
     if (0 <? length) && bool_decide (elementType = tag_end)
     then fails "A non-empty NBT list cannot contain TAG_End"
     else
       value ← read_times (Z.to_nat length) (readPayload byteLength levels elementType (depth + 1));
       mret (TList (Some elementType) value))
    (ty ++ sz ++ chunks) (TList (Some (first_type value)) (reread <$> value)).
Proof.
  intros -> Hsame Hty Hs Hc Hlen Hv. rewrite !length_app in Hlen.
  assert (length value ≤ length chunks)%nat.
  { eapply each_length; [exact Hc|]. apply Forall_true. intros v c. apply chunk_nonempty. }
  eapply outcome_after; [by apply readType_takes; [|left]|].
  eapply outcome_after; [apply (readLength_takes _ _ _ _ Hs); lia|].
  assert ((0 <? Z.of_nat (length value)) && bool_decide (first_type value = tag_end) = false) as ->.
  { destruct value as [|v value]; [done|]. rewrite bool_decide_eq_false_2 by apply tag_type_end. apply andb_false_r. }
  rewrite Nat2Z.id. apply outcome_map with (f := TList (Some (first_type value))).
  eapply each_outcome; [exact Hc|]. rewrite Forall_forall in Hv |- *. rewrite forallb_elem in Hsame.
  intros v Hin c Hw. specialize (Hsame v Hin). apply bool_decide_eq_true in Hsame. rewrite <-Hsame.
  apply Hv; [done|done|]. by eapply each_part.
Qed.

Lemma payload_outcome byteLength tag : ∀ depth levels chunk,
  js_tag tag → writePayload depth tag = Ok chunk →
  maxNbtDepth + 1 <= depth + Z.of_nat levels → Z.of_nat (length chunk) <= byteLength →
  outcome (floats_fit tag) (readPayload byteLength levels (tag_type tag) depth) chunk (reread tag).
Proof.
  induction tag as [v|v|v|v|v|v|v|v|t v IH|v IH|v|v] using NbtTag_rect';
    intros depth levels chunk Hjs; cbn [writePayload];
    (destruct (maxNbtDepth <? depth) eqn:Hdepth; [done|]); cbn [negb]; intros Hw Hlev Hlen;
    destruct (level_left _ _ Hdepth Hlev) as (levels' & -> & Hlev');
    cbn [readPayload tag_type]; rewrite Hdepth; cbn [floats_fit reread].
  - apply outcome_map with (f := TByte). by apply outcome_takes, (read_int_takes 1); [lia|].
  - apply outcome_map with (f := TShort). by apply outcome_takes, (read_int_takes 2); [lia|].
  - apply outcome_map with (f := TInt). by apply outcome_takes, (read_int_takes 4); [lia|].
  - apply outcome_map with (f := TLong). by apply outcome_takes, (read_int_takes 8); [lia|].
  - apply outcome_map with (f := TFloat). by apply float_outcome.
  - apply outcome_map with (f := TDouble). by apply outcome_takes, double_takes.
  - revert Hw. next_chunk sz Hs. intros <-%Ok_inj. rewrite length_app, length_fmap in Hlen.
    eapply (outcome_after true); [apply (readLength_takes _ _ _ _ Hs); lia|].
    rewrite <-byte_array_reread.
    refine (outcome_map true _ (λ bytes, TByteArray (_ <$> bytes)) _ _ _).
    apply outcome_takes, readBytes_takes. by rewrite length_fmap.
  - apply outcome_map with (f := TString). by apply outcome_takes, readString_takes.
  - revert Hw. destruct (_ && _) eqn:Hsame; [|done]. next_chunk ty Hty. next_chunk sz Hs. next_chunk cs Hc.
    intros <-%Ok_inj. apply andb_true_iff in Hsame as [_ Hsame]. cbn [js_tag] in Hjs.
    apply foldr_and in Hjs. eapply list_outcome; [done..|]. rewrite Forall_forall in IH, Hjs |- *.
    intros tag Hin c Hw Hc'. rewrite !length_app in Hlen. apply (IH tag Hin); [by apply Hjs|done|done|lia].
  - revert Hw. next_chunk cs Hc. next_chunk ty Hty. intros <-%Ok_inj.
    cbn [js_tag] in Hjs. rewrite foldr_and in Hjs. rewrite length_app in Hlen.
    apply outcome_map with (f := TCompound), (compound_outcome depth _ _ _ _ Hc Hty).
    rewrite Forall_forall in IH, Hjs |- *. intros e Hin. destruct (Hjs e Hin).
    split; [done|]. intros c Hw Hc'. apply (IH e Hin); [done|done|done|lia].
  - revert Hw. next_chunk sz Hs. next_chunk cs Hc. intros <-%Ok_inj.
    by apply outcome_takes, (ints_outcome _ _ 4); [lia|..].
  - revert Hw. next_chunk sz Hs. next_chunk cs Hc. intros <-%Ok_inj.
    by apply outcome_takes, (ints_outcome _ _ 8); [lia|..].
Qed.

Lemma encode_reads root source :
  forallb unit_ok (root_name root) = true → js_tag (root_tag root) →
  encodeNbt root = Ok source →
  decodeNbt source =
    if floats_fit (root_tag root)
    then Got (MkNamed (drop_bom (toWellFormed (root_name root))) (reread (root_tag root))) []
    else Fails "NBT contains a non-finite float".
Proof.
  intros Hn Hjs. unfold encodeNbt. next_chunk ty Hty. next_chunk nm Hnm. next_chunk cs Hc.
  intros <-%Ok_inj. unfold decodeNbt, read_root.
  set (size := Z.of_nat _).
  unfold mbind, Reader_bind.
  rewrite (readType_takes _ _ _ Hty) by (right; apply tag_type_end).
  rewrite (readString_takes _ _ Hn Hnm).
  assert (outcome (floats_fit (root_tag root)) (readPayload size nbt_levels (tag_type (root_tag root)) 0)
    cs (reread (root_tag root))) as H.
  { apply payload_outcome; [done|done|done|]. unfold size. rewrite !length_app. lia. }
  unfold outcome, takes in H.
  destruct (floats_fit (root_tag root)); specialize (H []); rewrite app_nil_r in H; by rewrite H.
Qed.

(** C13: What is written reads back. Whatever [encodeNbt] writes for a tag,
    [decodeNbt] reads all of it, at any nesting the format allows, and gives
    the tag back: floats rounded to 32 bits, the bytes of an array wrapped to
    theirs, text without a byte order mark at its start and with U+FFFD for a
    surrogate without its pair, an empty list without its element type, and
    all else exactly. The one tag that is written and does not read is one
    with a finite float too large for 32 bits, which is written as infinity
    and refused. *)
Theorem nbt_encode_decode root source :
  forallb unit_ok (root_name root) = true → js_tag (root_tag root) →
  encodeNbt root = Ok source →
  decodeNbt source =
    if floats_fit (root_tag root)
    then Got (MkNamed (drop_bom (toWellFormed (root_name root))) (reread (root_tag root))) []
    else Fails "NBT contains a non-finite float".
Proof. apply encode_reads. Qed.

(** A tag with every kind of value that reads back changed, and one that does
    not read back. *)
Definition changed_nbt : NamedNbt :=
  MkNamed [0xFEFF; 97] (TCompound [([0xD800], TFloat (Finite false (2 ^ 24 + 1) 0));
    ([98], TByteArray [200]); ([99], TList (Some tag_int) [])]).

Example nbt_encode_decode_witness :
  (∃ source, encodeNbt changed_nbt = Ok source ∧
     decodeNbt source = Got (MkNamed [97] (TCompound [([0xFFFD], TFloat (Finite false 1 24));
       ([98], TByteArray [-56]); ([99], TList (Some tag_end) [])])) []) ∧
  (∃ source, encodeNbt (MkNamed [] (TFloat (Finite false 1 200))) = Ok source ∧
     decodeNbt source = Fails "NBT contains a non-finite float").
Proof.
  split.
  - destruct (encodeNbt changed_nbt) as [source|] eqn:E; [|vm_compute in E; discriminate E].
    exists source. split; [reflexivity|].
    rewrite (nbt_encode_decode changed_nbt source); [vm_compute; reflexivity|reflexivity| |exact E].
    repeat split; vm_compute; reflexivity.
  - destruct (encodeNbt (MkNamed [] (TFloat (Finite false 1 200)))) as [source|] eqn:E;
      [|vm_compute in E; discriminate E].
    exists source. split; [reflexivity|].
    rewrite (nbt_encode_decode (MkNamed [] (TFloat (Finite false 1 200))) source);
      [vm_compute; reflexivity|reflexivity| |exact E].
    vm_compute; reflexivity.
Defined.

(** ** What is read *)

(** A tag as a file can hold it, at a depth of nesting: integers of their
    width, finite numbers of theirs, well-formed text, lists of one type. *)
Fixpoint nbt_ok (depth : Z) (tag : NbtTag) : Prop :=
  depth <= maxNbtDepth ∧
  match tag with
  | TByte v => int_ok 1 v = true
  | TShort v => int_ok 2 v = true
  | TInt v => int_ok 4 v = true
  | TLong v => int_ok 8 v = true
  | TFloat v => number_ok v ∧ isFinite v = true ∧ fround v = v
  | TDouble v => number_ok v ∧ isFinite v = true
  | TByteArray v => Forall (λ v, int_ok 1 v = true) v
  | TString v => forallb unit_ok v = true ∧ toWellFormed v = v
  | TList elementType v =>
      (∃ type, elementType = Some type ∧ Forall (λ t, tag_type t = type) v) ∧
      foldr (λ t p, nbt_ok (depth + 1) t ∧ p) True v
  | TCompound v =>
      foldr (λ e p, ((forallb unit_ok e.1 = true ∧ toWellFormed e.1 = e.1) ∧ nbt_ok (depth + 1) e.2) ∧ p)
        True v
  | TIntArray v => Forall (λ v, int_ok 4 v = true) v
  | TLongArray v => Forall (λ v, int_ok 8 v = true) v
  end.

(** Everything a tag holds: tags, entries and array elements. *)
Fixpoint weight (tag : NbtTag) : nat :=
  match tag with
  | TByteArray v | TIntArray v | TLongArray v => S (length v)
  | TList _ v => S (foldr (λ t n, weight t + n) 0 v)%nat
  | TCompound v => S (foldr (λ e n, S (weight e.2) + n) 0 v)%nat
  | _ => 1%nat
  end.

(** Every list says the type of its elements, an empty one none. *)
Fixpoint lists_settled (tag : NbtTag) : bool :=
  match tag with
  | TList elementType v =>
      bool_decide (elementType = Some (first_type v)) && forallb lists_settled v
  | TCompound v => forallb (λ e, lists_settled e.2) v
  | _ => true
  end.

(** What is written back for a chunk: no more, and the same if as much. *)
Definition rewrites (settled : bool) (written chunk : list byte) : Prop :=
  (length written ≤ length chunk)%nat ∧
  (settled = true → length written = length chunk → written = chunk).

Lemma rewrites_refl settled chunk : rewrites settled chunk chunk.
Proof. split; [done|auto]. Qed.

Lemma rewrites_app s1 s2 w1 w2 c1 c2 :
  rewrites s1 w1 c1 → rewrites s2 w2 c2 → rewrites (s1 && s2) (w1 ++ w2) (c1 ++ c2).
Proof.
  intros [L1 E1] [L2 E2]. split; rewrite !length_app; [lia|].
  intros [H1 H2]%andb_true_iff Hl. rewrite E1, E2 by (done || lia). done.
Qed.

(** A reader ends, and what it gives is right for the bytes it took. *)
Definition reads {A} (P : A → list byte → Prop) (n : nat) (read : Reader A) : Prop :=
  ∀ bs, (length bs ≤ n)%nat →
    match read bs with
    | Got a rest => ∃ chunk, bs = chunk ++ rest ∧ P a chunk
    | Fails _ => True
    | OutOfFuel => False
    end.

Lemma reads_ret {A} (P : A → list byte → Prop) n a : P a [] → reads P n (mret a).
Proof. intros H bs _. by exists []. Qed.

Lemma reads_fails {A} (P : A → list byte → Prop) n message : reads P n (fails message).
Proof. by intros bs _. Qed.

Lemma reads_bind {A B} (P : A → list byte → Prop) (Q : B → list byte → Prop) n
    (read : Reader A) (k : A → Reader B) :
  reads P n read →
  (∀ a c, (length c ≤ n)%nat → P a c → reads (λ b c', Q b (c ++ c')) (n - length c) (k a)) →
  reads Q n (read ≫= k).
Proof.
  intros Hr Hk bs Hn. unfold mbind, Reader_bind. specialize (Hr bs Hn).
  destruct (read bs) as [a rest|message|]; [|done|done].
  destruct Hr as (c & -> & Hp). rewrite length_app in Hn.
  specialize (Hk a c ltac:(lia) Hp rest ltac:(lia)). destruct (k a rest) as [b rest'|message|]; [|done|done].
  destruct Hk as (c' & -> & Hq). exists (c ++ c'). by rewrite app_assoc.
Qed.

Lemma reads_impl {A} (P Q : A → list byte → Prop) n n' read :
  reads P n read → (n' ≤ n)%nat → (∀ a c, P a c → Q a c) → reads Q n' read.
Proof.
  intros H Hn HPQ bs Hbs. specialize (H bs ltac:(lia)).
  destruct (read bs); [|done|done]. destruct H as (c & -> & Hp). eauto.
Qed.

Lemma reads_map {A B} (P : A → list byte → Prop) (Q : B → list byte → Prop) n read (f : A → B) :
  reads P n read → (∀ a c, P a c → Q (f a) c) → reads Q n (x ← read; mret (f x)).
Proof.
  intros H HPQ. eapply reads_bind; [exact H|]. intros a c _ Hp. apply reads_ret. rewrite app_nil_r. auto.
Qed.

Lemma readBytes_reads length n : reads (λ a c, a = c ∧ Z.of_nat (List.length c) = length) n (readBytes length).
Proof.
  intros bs _. unfold readBytes. destruct (_ || _) eqn:E; [done|].
  apply orb_false_iff in E as [E1%Z.ltb_ge E2%Z.ltb_ge].
  exists (take (Z.to_nat length) bs). split; [by rewrite take_drop|]. split; [done|].
  rewrite length_take. lia.
Qed.

Lemma read_int_reads k n :
  (0 < k)%nat →
  reads (λ v c, int_ok k v = true ∧ write_int k v = Ok c ∧ length c = k) n
    (bs ← readBytes (Z.of_nat k); mret (get_int bs)).
Proof.
  intros Hk. eapply reads_map; [apply readBytes_reads|]. intros a c [-> Hc%Nat2Z.inj]. subst k.
  split; [by apply get_int_ok|]. split; [|done]. unfold write_int.
  rewrite get_int_ok by done. by rewrite put_get_int.
Qed.

Lemma read_uint_reads k n :
  reads (λ v c, write_uint k v = Ok c ∧ length c = k ∧ 0 <= v) n
    (bs ← readBytes (Z.of_nat k); mret (get_uint bs)).
Proof.
  eapply reads_map; [apply readBytes_reads|]. intros a c [-> Hc%Nat2Z.inj]. subst k.
  unfold write_uint. rewrite get_uint_ok, put_get_uint. pose proof (get_uint_bound c). repeat split. lia.
Qed.

Lemma readType_reads allowEnd n :
  reads (λ type c, writeType type = Ok c ∧ length c = 1%nat ∧ (allowEnd = false → type ≠ tag_end)) n
    (readType allowEnd).
Proof.
  eapply reads_bind; [apply (read_uint_reads 1)|]. intros id c _ (Hw & Hl & Hid).
  destruct (tagTypeById !! Z.to_nat id) as [type|] eqn:Ht; [|apply reads_fails].
  destruct (negb allowEnd && _) eqn:Hend; [apply reads_fails|]. apply reads_ret. rewrite app_nil_r.
  split; [|split; [done|]].
  - unfold writeType. replace (tag_id type) with id; [done|].
    rewrite <-(Z2Nat.id id) by done.
    destruct (Z.to_nat id) as [|[|[|[|[|[|[|[|[|[|[|[|[|]]]]]]]]]]]]]; by simplify_eq/=.
  - intros ->. cbn in Hend. by apply bool_decide_eq_false in Hend.
Qed.

Lemma readString_reads n :
  reads (λ us c, (forallb unit_ok us = true ∧ toWellFormed us = us) ∧ (2 ≤ length c)%nat ∧
    ∃ w, writeString us = Ok w ∧ rewrites true w c) n readString.
Proof.
  eapply reads_bind; [apply (read_uint_reads 2)|]. intros size c _ (Hw & Hl & Hs).
  eapply reads_bind; [apply readBytes_reads|]. intros bs c' _ [-> Hc'].
  destruct (text_decode c') as [us|] eqn:Hd; [|apply reads_fails]. apply reads_ret.
  rewrite app_nil_r. apply text_encode_decode in Hd as (Hu & Hwf & Henc).
  split; [done|]. split; [rewrite length_app; lia|].
  unfold writeString. rewrite Henc. pose proof (strip_bom_length c') as Hlen.
  assert (size < 65536).
  { unfold write_uint in Hw. destruct (uint_ok 2 size) eqn:Eu; [|done]. unfold uint_ok in Eu.
    change (2 ^ (8 * Z.of_nat 2)) with 65536 in Eu. lia. }
  rewrite (proj2 (Z.leb_le _ _)) by lia. unfold write_uint.
  replace (uint_ok 2 _) with true.
  2: { symmetry. unfold uint_ok. change (2 ^ (8 * Z.of_nat 2)) with 65536. lia. }
  eexists. split; [reflexivity|]. split; rewrite !length_app, put_uint_length; [lia|].
  intros _ El. rewrite strip_bom_eq by lia. f_equal. rewrite Hc'.
  unfold write_uint in Hw. destruct (uint_ok 2 size); [|done]. by apply Ok_inj in Hw.
Qed.

Lemma readLength_reads byteLength label n :
  reads (λ k c, 0 <= k ∧ writeLength k = Ok c ∧ length c = 4%nat) n (readLength byteLength label).
Proof.
  eapply reads_bind; [by apply (read_int_reads 4); lia|]. intros k c _ (Hk & Hw & Hl).
  destruct (Z.ltb_spec k 0); [apply reads_fails|]. destruct (byteLength <? k); [apply reads_fails|].
  apply reads_ret. rewrite app_nil_r. split; [done|]. split; [|done]. unfold writeLength.
  unfold int_ok in Hk. change (2 ^ (8 * Z.of_nat 4 - 1)) with 2147483648 in Hk.
  by replace (_ && _) with true by lia.
Qed.

Lemma times_reads {A} (P : A → list byte → Prop) (read : Reader A) k : ∀ n,
  (∀ n', (n' ≤ n)%nat → reads P n' read) →
  reads (λ l c, length l = k ∧ ∃ cs, c = concat cs ∧ Forall2 P l cs) n (read_times k read).
Proof.
  induction k as [|k IH]; intros n Hr; cbn [read_times].
  { apply reads_ret. split; [done|]. by exists []. }
  eapply reads_bind; [by apply Hr|]. intros a c _ Hp.
  eapply reads_map; [apply IH; intros; apply Hr; lia|].
  intros l cc [<- (cs & -> & Hl)]. split; [done|]. exists (c :: cs). split; [done|]. by constructor.
Qed.

(** Elements that are written back each are written back together. *)
Lemma each_rewrites {A} (write : A → Result string (list byte)) (settled : A → bool) l cs :
  Forall2 (λ a c, ∃ w, write a = Ok w ∧ rewrites (settled a) w c) l cs →
  ∃ w, write_each write l = Ok w ∧ rewrites (forallb settled l) w (concat cs).
Proof.
  induction 1 as [|a c l cs (w & Hw & Hr) _ (ws & Hws & Hrs)]; cbn [write_each forallb concat].
  { exists []. split; [done|apply rewrites_refl]. }
  exists (w ++ ws). rewrite Hw, Hws. split; [done|]. by apply rewrites_app.
Qed.

Lemma each_weight {A} (f : A → nat) l cs :
  Forall2 (λ a (c : list byte), (f a ≤ length c)%nat) l cs →
  (foldr (λ a n, f a + n) 0 l ≤ length (concat cs))%nat.
Proof. induction 1; cbn; [lia|]. rewrite length_app. lia. Qed.

Lemma Forall2_and_l {A B} (P : A → Prop) (Q : A → B → Prop) l cs :
  Forall2 (λ a c, P a ∧ Q a c) l cs → Forall P l ∧ Forall2 Q l cs.
Proof.
  intros H. split; [|eapply Forall2_impl; [exact H|cbv beta; naive_solver]].
  induction H as [|a c l cs [? ?] _ IH]; by constructor.
Qed.

Lemma Forall2_and_r {A B} (P Q : A → B → Prop) l cs :
  Forall2 (λ a c, P a c ∧ Q a c) l cs → Forall2 P l cs ∧ Forall2 Q l cs.
Proof. intros H. split; (eapply Forall2_impl; [exact H|cbv beta; naive_solver]). Qed.

(** What reading a payload of a type at a depth gives for the bytes it took. *)
Definition payload_read (type : NbtTagType) (depth : Z) (tag : NbtTag) (c : list byte) : Prop :=
  (tag_type tag = type ∧ nbt_ok depth tag) ∧ (weight tag ≤ length c)%nat ∧
  ∃ w, writePayload depth tag = Ok w ∧ rewrites (lists_settled tag) w c.

Definition entry_read (depth : Z) (e : JsString * NbtTag) (c : list byte) : Prop :=
  ((forallb unit_ok e.1 = true ∧ toWellFormed e.1 = e.1) ∧ nbt_ok (depth + 1) e.2) ∧
  (S (weight e.2) ≤ length c)%nat ∧
  ∃ w, write_entry depth e = Ok w ∧ rewrites (lists_settled e.2) w c.

Lemma entries_reads depth readChild : ∀ fuel n,
  (n < fuel)%nat →
  (∀ type n', type ≠ tag_end → (n' ≤ n)%nat → reads (payload_read type (depth + 1)) n' (readChild type)) →
  reads (λ l c, ∃ cs last, c = concat cs ++ last ∧ writeType tag_end = Ok last ∧
    length last = 1%nat ∧ Forall2 (entry_read depth) l cs) n (read_entries fuel readChild).
Proof.
  induction fuel as [|fuel IH]; intros n Hn Hr; [lia|]. cbn [read_entries].
  eapply reads_bind; [apply readType_reads|]. intros type ct Hn1 (Ht & Hl & _).
  destruct (decide (type = tag_end)) as [->|Hne].
  { apply reads_ret. exists [], ct. rewrite app_nil_r. by repeat split. }
  eapply reads_bind; [apply readString_reads|]. intros name cn _ (Hname & Hln & wn & Hwn & Hrn).
  eapply reads_bind; [apply Hr; [done|lia]|]. intros tag cg _ ((Htype & Hok) & Hwt & wg & Hwg & Hrg).
  eapply reads_map; [apply IH; [lia|intros; apply Hr; [done|lia]]|].
  intros l c (cs & last & -> & Hlast & Hl1 & Hall).
  exists ((ct ++ cn ++ cg) :: cs), last. split; [cbn; by rewrite <-!app_assoc|].
  split; [done|]. split; [done|]. constructor; [|done]. split; [done|]. split.
  { cbn [snd]. rewrite !length_app. lia. }
  exists (ct ++ wn ++ wg). unfold write_entry. cbn [fst snd]. rewrite Htype, Ht, Hwn, Hwg. split; [done|].
  cbn [result_bind]. apply (rewrites_app true); [apply rewrites_refl|].
  by apply (rewrites_app true).
Qed.

(** A value read as it is written. *)
Lemma payload_exact type depth tag c w :
  depth <= maxNbtDepth → tag_type tag = type → nbt_ok depth tag → (weight tag ≤ length c)%nat →
  writePayload depth tag = Ok w → rewrites (lists_settled tag) w c →
  payload_read type depth tag c.
Proof. intros ? ? ? ? ? ?. split; [done|]. split; [done|]. by exists w. Qed.

Lemma writePayload_depth depth : depth <= maxNbtDepth → (maxNbtDepth <? depth) = false.
Proof. intros. by apply Z.ltb_ge. Qed.

Lemma scalar_reads (f : Z → NbtTag) k type depth n :
  (0 < k)%nat → depth <= maxNbtDepth →
  (∀ v, tag_type (f v) = type ∧ weight (f v) = 1%nat ∧ lists_settled (f v) = true ∧
    (int_ok k v = true → nbt_ok depth (f v)) ∧ writePayload depth (f v) = write_int k v) →
  reads (payload_read type depth) n (value ← (bs ← readBytes (Z.of_nat k); mret (get_int bs)); mret (f value)).
Proof.
  intros Hk Hd Hf. eapply reads_map; [by apply read_int_reads|]. intros v c (Hok & Hw & Hl).
  destruct (Hf v) as (Ht & Hwt & Hs & Hn & Hwr).
  apply (payload_exact _ _ _ _ c); [done|done|by apply Hn|rewrite Hwt; lia|by rewrite Hwr|].
  apply rewrites_refl.
Qed.

Lemma float_reads n :
  reads (λ v c, number_ok v ∧ isFinite v = true ∧ fround v = v ∧ writeFloat v = Ok c ∧ length c = 4%nat) n readFloat.
Proof.
  eapply reads_bind; [apply readBytes_reads|]. intros bs c _ [-> Hl].
  cbv zeta. destruct (isFinite (getFloat32 c)) eqn:Hf; [|apply reads_fails]. apply reads_ret. rewrite app_nil_r.
  assert (writeFloatBE (getFloat32 c) = c) as E by (apply writeFloatBE_getFloat32; [lia|done]).
  split; [by apply getFloat_ok|]. split; [done|]. split; [|split; [|lia]].
  - rewrite <-getFloat32_writeFloatBE by by apply getFloat_ok. by rewrite E.
  - unfold writeFloat. by rewrite Hf, E.
Qed.

Lemma double_reads n :
  reads (λ v c, number_ok v ∧ isFinite v = true ∧ writeDouble v = Ok c ∧ length c = 8%nat) n readDouble.
Proof.
  eapply reads_bind; [apply readBytes_reads|]. intros bs c _ [-> Hl].
  cbv zeta. destruct (isFinite (getFloat64 c)) eqn:Hf; [|apply reads_fails]. apply reads_ret. rewrite app_nil_r.
  split; [by apply getFloat_ok|]. split; [done|]. split; [|lia].
  unfold writeDouble. rewrite Hf. rewrite writeDoubleBE_getFloat64; [done|lia|done].
Qed.

Lemma bytes_reads byteLength depth n :
  depth <= maxNbtDepth →
  reads (payload_read tag_byteArray depth) n
    (length ← readLength byteLength "byte array";
     bytes ← readBytes length;
     mret (TByteArray ((λ b, if 127 <? byte.unsigned b then byte.unsigned b - 256
                             else byte.unsigned b) <$> bytes))).
Proof.
  intros Hd. eapply reads_bind; [apply readLength_reads|]. intros k c _ (Hk & Hw & Hl).
  eapply reads_map; [apply readBytes_reads|]. intros bs c' [-> Hc'].
  apply (payload_exact _ _ _ _ (c ++ c')); [done|done| | | |apply rewrites_refl].
  - cbn [nbt_ok]. split; [done|]. apply Forall_fmap, Forall_true. intros b.
    pose proof (byte_range b). unfold compose, int_ok.
    change (2 ^ (8 * Z.of_nat 1 - 1)) with 128. destruct (Z.ltb_spec 127 (byte.unsigned b)); lia.
  - cbn [weight]. rewrite length_fmap, length_app. lia.
  - cbn [writePayload]. rewrite writePayload_depth by done. cbn [negb].
    rewrite length_fmap, Hc', Hw. cbn [result_bind]. do 2 f_equal. rewrite <-list_fmap_compose.
    rewrite <-(list_fmap_id c') at 2. apply list_fmap_ext. intros _ b _. unfold compose, id.
    change 255 with (Z.ones 8). rewrite Z.land_ones by lia. change (2 ^ 8) with 256.
    pose proof (byte_range b). rewrite <-(byte.of_Z_unsigned b) at 4. f_equal.
    destruct (Z.ltb_spec 127 (byte.unsigned b)); Z.div_mod_to_equations; lia.
Qed.

Lemma ints_reads byteLength label (f : list Z → NbtTag) k type depth n :
  (0 < k)%nat → depth <= maxNbtDepth →
  (∀ v, tag_type (f v) = type ∧ weight (f v) = S (length v) ∧ lists_settled (f v) = true ∧
    (Forall (λ v, int_ok k v = true) v → nbt_ok depth (f v)) ∧
    writePayload depth (f v) = let! sz := writeLength (Z.of_nat (length v)) in
                               let! chunks := write_each (write_int k) v in Ok (sz ++ chunks)) →
  reads (payload_read type depth) n
    (length ← readLength byteLength label;
     value ← read_times (Z.to_nat length) (bs ← readBytes (Z.of_nat k); mret (get_int bs));
     mret (f value)).
Proof.
  intros Hk Hd Hf. eapply reads_bind; [apply readLength_reads|]. intros m c _ (Hm & Hw & Hl).
  eapply reads_map; [apply times_reads; intros; by apply read_int_reads|].
  intros v c' [Hv (cs & -> & Hall)]. destruct (Hf v) as (Ht & Hwt & Hs & Hok & Hwr).
  apply Forall2_and_l in Hall as [Hints Hall]. apply Forall2_and_r in Hall as [Hws Hlen].
  destruct (each_rewrites (write_int k) (λ _, true) v cs) as (w & Hw' & Hr).
  { eapply Forall2_impl; [exact Hws|]. cbv beta. intros a b ->. exists b. split; [done|apply rewrites_refl]. }
  apply (payload_exact _ _ _ _ (c ++ w)); [done|done|by apply Hok| | |].
  - rewrite Hwt, length_app, Hl. enough (foldr (λ (_ : Z) n, 1 + n) 0 v = length v ∧
      foldr (λ (_ : Z) n, 1 + n) 0 v ≤ length (concat cs))%nat by lia. split.
    + clear. induction v; cbn in *; lia.
    + apply (each_weight (λ _, 1%nat)). eapply Forall2_impl; [exact Hlen|]. cbv beta. lia.
  - rewrite Hwr, Hv, Z2Nat.id, Hw by done. cbn [result_bind]. by rewrite Hw'.
  - rewrite Hs. replace (forallb _ _) with true in Hr by (symmetry; by apply forallb_elem).
    apply (rewrites_app true true); [apply rewrites_refl|done].
Qed.

Lemma list_reads byteLength depth n (readChild : NbtTagType → Reader NbtTag) :
  depth <= maxNbtDepth →
  (∀ type n', reads (payload_read type (depth + 1)) n' (readChild type)) →
  reads (payload_read tag_list depth) n
    (elementType ← readType true;
     length ← readLength byteLength "list";
     if (0 <? length) && bool_decide (elementType = tag_end)
     then fails "A non-empty NBT list cannot contain TAG_End"
     else
       value ← read_times (Z.to_nat length) (readChild elementType);
       mret (TList (Some elementType) value)).
Proof.
  intros Hd Hr. eapply reads_bind; [apply readType_reads|]. intros type ct _ (Ht & Hlt & _).
  eapply reads_bind; [apply readLength_reads|]. intros k ck _ (Hk & Hw & Hlk).
  destruct (_ && _) eqn:Hend; [apply reads_fails|].
  eapply reads_map; [apply times_reads; intros; apply Hr|]. intros v c [Hv (cs & -> & Hall)].
  unfold payload_read in Hall. apply Forall2_and_l in Hall as [Hok Hall].
  apply Forall2_and_r in Hall as [Hwt Hw2].
  destruct (each_rewrites (writePayload (depth + 1)) lists_settled v cs Hw2) as (w & Hws & Hrw).
  assert (Forall (λ t, tag_type t = type) v ∧ Forall (nbt_ok (depth + 1)) v) as [Htypes Hoks].
  { by apply Forall_and. }
  set (sz := ck). set (ty := if decide (v = []) then put_uint 1 0 else ct).
  assert (writeType (first_type v) = Ok ty ∧ length ty = 1%nat) as [Hty Hlty].
  { unfold ty. destruct v as [|t v]; [done|]. apply Forall_cons in Htypes as [Htt _]. cbn [first_type].
    rewrite Htt. done. }
  apply (payload_exact _ _ _ _ (ty ++ sz ++ w)); [done|done| | | |].
  - cbn [nbt_ok]. split; [done|]. split; [by exists type|].
    by apply (foldr_and (nbt_ok (depth + 1))).
  - cbn [weight]. apply each_weight in Hwt. rewrite !length_app. lia.
  - cbn [writePayload]. rewrite writePayload_depth by done. cbn [negb].
    replace (forallb _ v) with true.
    2: { symmetry. apply forallb_elem. intros t Hin. apply bool_decide_eq_true.
         rewrite Forall_forall in Htypes. rewrite (Htypes t Hin).
         destruct v as [|t' v]; [by apply elem_of_nil in Hin|]. symmetry. apply Htypes. by left. }
    cbn. rewrite Hty. cbn. rewrite Hv, Z2Nat.id by done. rewrite Hw. cbn. by rewrite Hws.
  - cbn [lists_settled]. split.
    + rewrite !length_app. destruct Hrw. unfold sz. lia.
    + intros [Hset Hsets]%andb_true_iff Hlen. apply bool_decide_eq_true in Hset.
      injection Hset as ->. unfold sz. rewrite !length_app in Hlen. destruct Hrw as [_ Hrw].
      rewrite Hrw; [|done|unfold sz in Hlen; lia]. f_equal. congruence.
Qed.

Lemma compound_reads depth n (readChild : NbtTagType → Reader NbtTag) :
  depth <= maxNbtDepth →
  (∀ type n', reads (payload_read type (depth + 1)) n' (readChild type)) →
  reads (payload_read tag_compound depth) n
    (value ← (λ bs, read_entries (S (length bs)) readChild bs); mret (TCompound value)).
Proof.
  intros Hd Hr.
  apply (reads_map (λ l c, ∃ cs last, c = concat cs ++ last ∧ writeType tag_end = Ok last ∧
    length last = 1%nat ∧ Forall2 (entry_read depth) l cs)).
  { intros bs _. apply (entries_reads depth readChild (S (length bs)) (length bs)); [lia|auto|done]. }
  intros v c (cs & last & -> & Hlast & Hl1 & Hall). unfold entry_read in Hall.
  apply Forall2_and_l in Hall as [Hok Hall]. apply Forall2_and_r in Hall as [Hwt Hw2].
  destruct (each_rewrites (write_entry depth) (λ e, lists_settled e.2) v cs Hw2) as (w & Hws & Hrw).
  apply (payload_exact _ _ _ _ (w ++ last)); [done|done| | | |].
  - cbn [nbt_ok]. split; [done|].
    apply (foldr_and (λ e, (forallb unit_ok e.1 = true ∧ toWellFormed e.1 = e.1) ∧ nbt_ok (depth + 1) e.2)).
    eapply Forall_impl; [exact Hok|done].
  - cbn [weight]. apply (each_weight (λ e, S (weight e.2))) in Hwt. rewrite length_app. lia.
  - cbn [writePayload]. rewrite writePayload_depth by done. cbn [negb].
    change (write_each _ v) with (write_each (write_entry depth) v). rewrite Hws.
    cbn [result_bind]. by rewrite Hlast.
  - cbn [lists_settled]. rewrite <-(andb_true_r (forallb _ _)).
    apply rewrites_app; [done|apply rewrites_refl].
Qed.

Lemma payload_reads byteLength : ∀ levels type depth n,
  maxNbtDepth + 1 <= depth + Z.of_nat levels →
  reads (payload_read type depth) n (readPayload byteLength levels type depth).
Proof.
  induction levels as [|levels IH]; intros type depth n Hl; cbn [readPayload];
    destruct (Z.ltb_spec maxNbtDepth depth) as [|Hd]; try apply reads_fails; [lia|].
  assert (∀ type n', reads (payload_read type (depth + 1)) n'
    (readPayload byteLength levels type (depth + 1))) as Hr by (intros; apply IH; lia).
  destruct type.
  - apply reads_fails.
  - apply (scalar_reads TByte 1); [lia|done|]. intros v. cbn. by rewrite writePayload_depth.
  - apply (scalar_reads TShort 2); [lia|done|]. intros v. cbn. by rewrite writePayload_depth.
  - apply (scalar_reads TInt 4); [lia|done|]. intros v. cbn. by rewrite writePayload_depth.
  - apply (scalar_reads TLong 8); [lia|done|]. intros v. cbn. by rewrite writePayload_depth.
  - eapply reads_map; [apply float_reads|]. intros v c (? & ? & ? & Hw & ?).
    apply (payload_exact _ _ _ _ c); [done..|cbn; lia| |apply rewrites_refl].
    cbn. by rewrite writePayload_depth.
  - eapply reads_map; [apply double_reads|]. intros v c (? & ? & Hw & ?).
    apply (payload_exact _ _ _ _ c); [done..|cbn; lia| |apply rewrites_refl].
    cbn. by rewrite writePayload_depth.
  - by apply bytes_reads.
  - eapply reads_map; [apply readString_reads|]. intros v c (Hok & Hlc & w & Hw & Hrw).
    apply (payload_exact _ _ _ _ w); [done..|cbn; lia| |exact Hrw].
    cbn. by rewrite writePayload_depth.
  - by apply list_reads.
  - by apply compound_reads.
  - apply (ints_reads _ _ TIntArray 4); [lia|done|]. intros v. cbn. by rewrite writePayload_depth.
  - apply (ints_reads _ _ TLongArray 8); [lia|done|]. intros v. cbn. by rewrite writePayload_depth.
Qed.

(** Everything about reading a whole file. *)
Lemma root_reads source :
  match decodeNbt source with
  | Got root rest =>
      rest = [] ∧ (forallb unit_ok (root_name root) = true ∧ toWellFormed (root_name root) = root_name root) ∧
      nbt_ok 0 (root_tag root) ∧ (weight (root_tag root) + 3 ≤ length source)%nat ∧
      ∃ w, encodeNbt root = Ok w ∧ rewrites (lists_settled (root_tag root)) w source
  | Fails _ => True
  | OutOfFuel => False
  end.
Proof.
  assert (reads (λ root c,
    (forallb unit_ok (root_name root) = true ∧ toWellFormed (root_name root) = root_name root) ∧
    nbt_ok 0 (root_tag root) ∧ (weight (root_tag root) + 3 ≤ length c)%nat ∧
    ∃ w, encodeNbt root = Ok w ∧ rewrites (lists_settled (root_tag root)) w c)
    (length source) (read_root (Z.of_nat (length source)))) as H.
  { unfold read_root. eapply reads_bind; [apply readType_reads|]. intros type ct _ (Ht & Hlt & _).
    eapply reads_bind; [apply readString_reads|]. intros name cn _ (Hname & Hln & wn & Hwn & Hrn).
    eapply reads_bind; [by apply payload_reads|]. intros tag cg _ ((Htype & Hok) & Hwt & wg & Hwg & Hrg).
    intros [|b bs] _; [|done]. exists []. split; [done|]. rewrite app_nil_r. cbn [root_name root_tag].
    split; [done|]. split; [done|]. split; [rewrite !length_app; lia|].
    exists (ct ++ wn ++ wg). unfold encodeNbt. cbn [root_name root_tag].
    rewrite Htype, Ht, Hwn, Hwg. split; [done|].
    apply (rewrites_app true); [apply rewrites_refl|]. by apply (rewrites_app true). }
  specialize (H source (le_n _)). unfold decodeNbt.
  destruct (read_root _ source) as [root rest|m|] eqn:E; [|done|done].
  assert (rest = []) as ->.
  { revert E. unfold read_root, mbind, Reader_bind. repeat (case_match; try done).
    intros Hend. unfold at_end in Hend. case_match; [|done]. by injection Hend. }
  destruct H as (c & -> & H). rewrite app_nil_r. done.
Qed.

(** Reading a file always ends, by giving a tag or refusing the file: the
    levels of nesting the reader allows are enough for every file, however
    its lists and compounds nest, and every loop over a compound's entries
    runs out before the file does. What it builds is bounded by the file: a
    file of [n] bytes gives fewer than [n] tags, entries and array elements,
    whatever lengths it states. *)
Theorem nbt_decode_ends source :
  decodeNbt source ≠ OutOfFuel ∧
  ∀ root rest, decodeNbt source = Got root rest →
    (weight (root_tag root) < length source)%nat.
Proof.
  pose proof (root_reads source) as H. split; [intros E; by rewrite E in H|].
  intros root rest E. rewrite E in H. destruct H as (_ & _ & _ & H & _). lia.
Qed.

(** C14: What is read is well typed. Every integer is in its width's range,
    every float is a finite 32-bit one and every double a finite 64-bit one,
    text is well-formed, every list's elements have its element type, and
    nothing nests deeper than 512 levels, so the tag can be written at once:
    the file written for it is never longer than the one read, and when it is
    as long and no empty list claimed an element type, it is that same file,
    byte for byte. *)
Theorem nbt_decoded_typed source root rest :
  decodeNbt source = Got root rest →
  nbt_ok 0 (root_tag root) ∧ toWellFormed (root_name root) = root_name root ∧
  ∃ written, encodeNbt root = Ok written ∧ (length written ≤ length source)%nat ∧
    (lists_settled (root_tag root) = true → length written = length source → written = source).
Proof.
  intros E. pose proof (root_reads source) as H. rewrite E in H.
  destruct H as (_ & [_ Hn] & Hok & _ & w & Hw & Hl & Heq).
  split; [done|]. split; [done|]. exists w. split; [done|]. split; [done|exact Heq].
Qed.

Example nbt_decode_ends_witness :
  decodeNbt (byte.of_Z <$> [1; 0; 0; 255]) ≠ OutOfFuel ∧ (1 < 4)%nat.
Proof.
  assert (decodeNbt (byte.of_Z <$> [1; 0; 0; 255]) = Got (MkNamed [] (TByte (-1))) []) as E
    by (vm_compute; reflexivity).
  split; [exact (proj1 (nbt_decode_ends _))|].
  exact (proj2 (nbt_decode_ends (byte.of_Z <$> [1; 0; 0; 255])) (MkNamed [] (TByte (-1))) [] E).
Defined.

Example nbt_decoded_typed_witness :
  nbt_ok 0 (TByte (-1)) ∧ toWellFormed [] = [] ∧
  ∃ written, encodeNbt (MkNamed [] (TByte (-1))) = Ok written ∧
    (length written ≤ 4)%nat ∧
    (lists_settled (TByte (-1)) = true → length written = 4%nat →
     written = byte.of_Z <$> [1; 0; 0; 255]).
Proof.
  assert (decodeNbt (byte.of_Z <$> [1; 0; 0; 255]) = Got (MkNamed [] (TByte (-1))) []) as E
    by (vm_compute; reflexivity).
  exact (nbt_decoded_typed (byte.of_Z <$> [1; 0; 0; 255]) (MkNamed [] (TByte (-1))) [] E).
Defined.
