(* ===== verification/Decimals.v ===== *)
(** * Numbers in decimal

    What the codecs use of JavaScript to write numbers as text and to read
    them: [String] of an integer, of a [bigint] and of a number - the fewest
    digits that read back as the number, the closest of those, laid out as
    ECMAScript says - and [Number] of a decimal literal, which is the nearest
    number to the value written. *)
From S2P Require Import Prelude Bytes Utf8.

Open Scope Z_scope.

(** The code units of an ASCII text. *)
Definition js (s : string) : JsString := (λ c, Z.of_nat (Ascii.nat_of_ascii c)) <$> String.list_ascii_of_string s.

Definition is_digit : Z → bool := between 48 57.

(** The characters at the front that satisfy a test, and the rest. *)
Fixpoint span (f : Z → bool) (us : JsString) : JsString * JsString :=
  match us with
  | u :: rest => if f u then let '(front, back) := span f rest in (u :: front, back) else ([], us)
  | [] => ([], [])
  end.

(** ** Integers *)

Fixpoint digits_go (fuel : nat) (n : Z) : JsString :=
  match fuel with
  | O => []
  | S fuel => (if n <? 10 then [] else digits_go fuel (n / 10)) ++ [48 + n mod 10]
  end.

(** The decimal digits of an integer that is not negative. *)
Definition digits (n : Z) : JsString := digits_go (S (Z.to_nat (Z.log2 n))) n.

(** [String] of an integer or a [bigint] *)
Definition print_int (z : Z) : JsString := if z <? 0 then 45 :: digits (- z) else digits z.

Definition read_digits (us : JsString) : Z := fold_left (λ n u, 10 * n + (u - 48)) us 0.

(** ** Numbers from decimals *)

(** The number nearest to [s * 10^e]. Dividing leaves 1100 binary places, more
    than any number or any middle between two has, and a last one that tells
    whether something was left over. *)
Definition decimal_value (negative : bool) (s e : Z) : JsNumber :=
  of_bits 52 11 (to_bits 52 11
    (if 0 <=? e then dyadic negative (s * 10 ^ e) 0
     else
       let unit := 10 ^ (- e) in
       let scaled := s * 2 ^ 1100 in
       dyadic negative (2 * (scaled / unit) + (if scaled mod unit =? 0 then 0 else 1)) (-1101))).

(** [Number] of a decimal literal, or none where the text is none: a sign or
    none, digits with a point among or around them or none, and an exponent
    or none. *)
Definition read_sign (us : JsString) : bool * JsString :=
  match us with
  | u :: rest => if u =? 43 then (false, rest) else if u =? 45 then (true, rest) else (false, us)
  | [] => (false, [])
  end.

Definition read_exponent (us : JsString) : option Z :=
  match us with
  | [] => Some 0
  | u :: rest =>
      if (u =? 101) || (u =? 69) then
        let '(negative, rest) := read_sign rest in
        if forallb is_digit rest && negb (bool_decide (rest = []))
        then Some (if (negative : bool) then - read_digits rest else read_digits rest) else None
      else None
  end.

Definition read_point (us : JsString) : JsString * JsString :=
  match us with
  | u :: rest => if u =? 46 then span is_digit rest else ([], us)
  | [] => ([], [])
  end.

Definition read_decimal (us : JsString) : option JsNumber :=
  let '(negative, us) := read_sign us in
  let '(whole, rest) := span is_digit us in
  let '(part, rest) := read_point rest in
  if bool_decide (whole = []) && bool_decide (part = []) then None
  else
    match read_exponent rest with
    | Some e => Some (decimal_value negative (read_digits (whole ++ part)) (e - Z.of_nat (length part)))
    | None => None
    end.

(** ** Numbers to decimals *)

Section Shortest.
(** The number to write, positive and exactly [n / 10^t], its digits and how
    many they are. *)
Variables (x : JsNumber) (n t count : Z).

(** From [k] digits on: those two of [k] digits nearest to the number, the
    nearer first, the even one where both are as near, until one reads back. *)
Fixpoint shortest_go (fuel : nat) (k : Z) : Z * Z :=
  let unit := 10 ^ (count - k) in
  let below := n / unit in
  let rest := n mod unit in
  let '(first, second) :=
    if (2 * rest <? unit) || ((2 * rest =? unit) && Z.even below) then (below, below + 1)
    else (below + 1, below) in
  let e := count - k - t in
  if decide (decimal_value false first e = x) then (first, e)
  else if decide (decimal_value false second e = x) then (second, e)
  else match fuel with O => (n, - t) | S fuel => shortest_go fuel (k + 1) end.
End Shortest.

Fixpoint strip_tens (fuel : nat) (s e : Z) : Z * Z :=
  match fuel with
  | O => (s, e)
  | S fuel => if s mod 10 =? 0 then strip_tens fuel (s / 10) (e + 1) else (s, e)
  end.

(** The digits and the power of ten of a positive number [m * 2^p]. *)
Definition shortest (m p : Z) : Z * Z :=
  let t := Z.max 0 (- p) in
  let n := m * 2 ^ Z.max 0 p * 5 ^ t in
  let count := Z.of_nat (length (digits n)) in
  let '(s, e) := shortest_go (Finite false m p) n t count (Z.to_nat count) 1 in
  strip_tens (length (digits s)) s e.

Definition zeros (n : Z) : JsString := repeat 48 (Z.to_nat n).

(** The layout of [s * 10^e]. *)
Definition layout (s e : Z) : JsString :=
  let ds := digits s in
  let k := Z.of_nat (length ds) in
  let n := k + e in
  if (k <=? n) && (n <=? 21) then ds ++ zeros (n - k)
  else if (0 <? n) && (n <=? 21) then take (Z.to_nat n) ds ++ 46 :: drop (Z.to_nat n) ds
  else if (-6 <? n) && (n <=? 0) then [48; 46] ++ zeros (- n) ++ ds
  else
    let exponent := 101 :: (if n - 1 <? 0 then 45 else 43) :: digits (Z.abs (n - 1)) in
    match ds with
    | [d] => d :: exponent
    | d :: ds => d :: 46 :: ds ++ exponent
    | [] => []
    end.

(** [String] of a number *)
Definition print_number (x : JsNumber) : JsString :=
  match x with
  | NotANumber => js "NaN"
  | Infinite negative => js (if (negative : bool) then "-Infinity" else "Infinity")
  | Finite negative m p =>
      if m =? 0 then js "0"
      else let '(s, e) := shortest m p in (if (negative : bool) then [45] else []) ++ layout s e
  end.

Example decimals :
  print_number (Finite false 3602879701896397 (-55)) = js "0.1" ∧
  print_number (Finite true 3 (-1)) = js "-1.5" ∧
  print_number (dyadic false (10 ^ 21) 0) = js "1e+21" ∧
  print_number (dyadic false (10 ^ 20) 0) = js "100000000000000000000" ∧
  print_number (fround (Finite false 3602879701896397 (-55))) = js "0.10000000149011612" ∧
  print_number (decimal_value false 123 (-9)) = js "1.23e-7" ∧
  print_number (Finite false 1 (-44)) = js "5.684341886080802e-14" ∧
  read_decimal (js "-.5e1") = Some (Finite true 5 0) ∧
  read_decimal (js "1e400") = Some (Infinite false) ∧
  read_decimal (js "2.e") = None.
Proof. vm_compute. repeat split. Qed.

(** ** Digits *)

Lemma digits_go_step fuel n :
  digits_go (S fuel) n = (if n <? 10 then [] else digits_go fuel (n / 10)) ++ [48 + n mod 10].
Proof. done. Qed.

(** Fuel enough: each step takes more than three binary places off. *)
Lemma digits_enough fuel : ∀ n fuel', 0 <= n → (Z.to_nat (Z.log2 n) < fuel)%nat → (fuel ≤ fuel')%nat →
  digits_go fuel' n = digits_go fuel n.
Proof.
  induction fuel as [|fuel IH]; intros n [|fuel'] Hn Hf Hle; [lia..|].
  rewrite !digits_go_step. destruct (Z.ltb_spec n 10); [done|]. f_equal.
  assert (Z.log2 (n / 10) < Z.log2 n) as Hlog.
  { assert (0 < n / 10) by (apply Z.div_str_pos; lia).
    apply Z.log2_lt_pow2; [done|]. apply Z.div_lt_upper_bound; [lia|].
    pose proof (Z.log2_spec n). assert (2 ^ Z.succ (Z.log2 n) = 2 * 2 ^ Z.log2 n) by (apply Z.pow_succ_r, Z.log2_nonneg).
    lia. }
  pose proof (Z.log2_nonneg (n / 10)). apply IH; [apply Z.div_pos; lia|lia|lia].
Qed.

Lemma digits_eq n : 0 <= n → digits n = (if n <? 10 then [] else digits (n / 10)) ++ [48 + n mod 10].
Proof.
  intros Hn. unfold digits at 1. rewrite digits_go_step. destruct (Z.ltb_spec n 10); [done|]. f_equal.
  unfold digits. apply digits_enough; [apply Z.div_pos; lia|lia|].
  assert (0 < n / 10) by (apply Z.div_str_pos; lia).
  assert (Z.log2 (n / 10) < Z.log2 n); [|pose proof (Z.log2_nonneg (n / 10)); lia].
  apply Z.log2_lt_pow2; [done|]. apply Z.div_lt_upper_bound; [lia|].
  pose proof (Z.log2_spec n). assert (2 ^ Z.succ (Z.log2 n) = 2 * 2 ^ Z.log2 n) by (apply Z.pow_succ_r, Z.log2_nonneg).
  lia.
Qed.

Lemma digits_ind (P : Z → Prop) :
  (∀ n, 0 <= n → (10 <= n → P (n / 10)) → P n) → ∀ n, 0 <= n → P n.
Proof.
  intros H n Hn. revert n Hn. apply (well_founded_ind (Z.lt_wf 0) (λ n, 0 <= n → P n)). intros n IH Hn.
  apply H; [done|]. intros Hge. assert (0 <= n / 10 < n) by (split; [apply Z.div_pos|apply Z.div_lt]; lia).
  apply IH; lia.
Qed.

Lemma last_digit n : is_digit (48 + n mod 10) = true.
Proof. pose proof (Z.mod_pos_bound n 10). unfold is_digit, between. apply andb_true_iff. rewrite !Z.leb_le. lia. Qed.

Lemma digits_are_digits n : 0 <= n → forallb is_digit (digits n) = true.
Proof.
  revert n. apply digits_ind. intros n Hn IH. rewrite digits_eq by done.
  rewrite forallb_app. cbn [forallb]. rewrite last_digit. cbn [andb].
  destruct (Z.ltb_spec n 10); [done|]. by rewrite IH.
Qed.

Lemma read_digits_app us vs : read_digits (us ++ vs) = fold_left (λ n u, 10 * n + (u - 48)) vs (read_digits us).
Proof. apply fold_left_app. Qed.

Lemma read_digits_digits n : 0 <= n → read_digits (digits n) = n.
Proof.
  revert n. apply digits_ind. intros n Hn IH. rewrite digits_eq, read_digits_app by done. cbn [fold_left].
  destruct (Z.ltb_spec n 10) as [Hlt|Hge].
  - rewrite Z.mod_small by lia. cbn. lia.
  - rewrite IH by done. pose proof (Z.div_mod n 10). lia.
Qed.

Lemma digits_nonempty n : 0 <= n → digits n ≠ [].
Proof. intros Hn. rewrite digits_eq by done. by destruct (if n <? 10 then _ else _). Qed.

(** Only zero begins with a zero. *)
Lemma digits_head n : 0 <= n → ∀ us, digits n = 48 :: us → n = 0 ∧ us = [].
Proof.
  revert n. apply (digits_ind (λ n, ∀ us, digits n = 48 :: us → n = 0 ∧ us = [])). intros n Hn IH us.
  rewrite digits_eq by done. destruct (Z.ltb_spec n 10) as [Hlt|Hge]; cbn [app].
  - rewrite Z.mod_small by lia. intros [= ? <-]. split; [lia|done].
  - destruct (digits (n / 10)) as [|u rest] eqn:E; [by destruct (digits_nonempty (n / 10)); [apply Z.div_pos; lia|]|].
    intros [= -> _]. destruct (IH Hge rest eq_refl) as [E0 _].
    assert (1 <= n / 10) by (apply Z.div_le_lower_bound; lia). lia.
Qed.

Lemma read_zeros k us : read_digits (repeat 48 k ++ us) = read_digits us.
Proof.
  rewrite read_digits_app. assert (read_digits (repeat 48 k) = 0) as ->; [|done].
  induction k as [|k IH]; [done|]. unfold read_digits in *. cbn. exact IH.
Qed.

Lemma read_app_zeros k us : read_digits (us ++ repeat 48 k) = read_digits us * 10 ^ Z.of_nat k.
Proof.
  induction k as [|k IH]; [rewrite app_nil_r; cbn; lia|].
  change (repeat 48 (S k)) with (48 :: repeat 48 k). rewrite repeat_cons, app_assoc, read_digits_app, IH.
  cbn [fold_left]. rewrite Nat2Z.inj_succ, Z.pow_succ_r by lia. lia.
Qed.

(** ** Spans *)

Lemma span_app f us rest :
  forallb f us = true → match rest with u :: _ => f u = false | [] => True end → span f (us ++ rest) = (us, rest).
Proof.
  intros Hf Hr. induction us as [|u us IH]; cbn in *.
  - destruct rest as [|u rest]; [done|]. cbn. by rewrite Hr.
  - apply andb_true_iff in Hf as [-> Hf]. by rewrite IH.
Qed.

Lemma span_split f us : us = (span f us).1 ++ (span f us).2 ∧ forallb f (span f us).1 = true.
Proof.
  induction us as [|u us [IH1 IH2]]; [done|]. cbn. destruct (f u) eqn:E; [|done].
  destruct (span f us) as [front back]. cbn in *. split; [by rewrite IH1|].
  by rewrite E.
Qed.

(** ** Reading back what was written *)

Lemma dyadic_scale (negative : bool) m q k : 0 <= k → dyadic negative (m * 2 ^ k) (q - k) = dyadic negative m q.
Proof.
  intros Hk. destruct m as [|n|n].
  - done.
  - cbn [dyadic]. destruct (strip_zeros n q) as [m p] eqn:E.
    apply strip_zeros_spec in E as (j & Hj & -> & E & Hm & Ho). rewrite E.
    assert (m * 2 ^ j * 2 ^ k = m * 2 ^ (q + j - (q - k))) as ->.
    { replace (q + j - (q - k)) with (j + k) by lia. rewrite Z.pow_add_r by lia. lia. }
    apply (dyadic_shift 11); (done || lia).
  - destruct (Z.neg n * 2 ^ k) as [|m|m] eqn:E; cbn; [pose proof (Z.pow_pos_nonneg 2 k); nia|
      pose proof (Z.pow_pos_nonneg 2 k); nia|done].
Qed.

(** Ten times as much of a tenth is the same. *)
Lemma decimal_value_tens negative s e : decimal_value negative (10 * s) e = decimal_value negative s (e + 1).
Proof.
  unfold decimal_value. do 2 f_equal. destruct (Z.leb_spec 0 e) as [He|He].
  - rewrite (proj2 (Z.leb_le 0 (e + 1))) by lia. rewrite Z.pow_add_r by lia. f_equal. lia.
  - cbv zeta. destruct (Z.leb_spec 0 (e + 1)) as [He1|He1].
    + assert (e = -1) as -> by lia. cbn [Z.add Z.opp Z.pow]. change (Z.pow_pos 10 1) with 10.
      replace (10 * s * 2 ^ 1100) with (s * 2 ^ 1100 * 10) by lia.
      rewrite Z.div_mul, Z.mod_mul by lia. cbn [Z.eqb].
      replace (2 * (s * 2 ^ 1100) + 0) with (s * 2 ^ 1101) by (change 1101 with (1 + 1100) at 1; rewrite (Z.pow_add_r 2 1 1100) by lia; lia).
      change (-1101) with (0 - 1101). rewrite dyadic_scale by lia. f_equal. change (10 ^ (-1 + 1)) with 1. lia.
    + replace (10 ^ (- e)) with (10 * 10 ^ (- (e + 1))).
      2: { rewrite <-Z.pow_succ_r by lia. f_equal. lia. }
      pose proof (Z.pow_pos_nonneg 10 (- (e + 1))).
      replace (10 * s * 2 ^ 1100) with (10 * (s * 2 ^ 1100)) by lia.
      rewrite Z.div_mul_cancel_l, Z.mul_mod_distr_l by lia. f_equal. f_equal.
      destruct (Z.eqb_spec ((s * 2 ^ 1100) mod 10 ^ (- (e + 1))) 0) as [->|]; [done|].
      by rewrite (proj2 (Z.eqb_neq _ _)) by lia.
Qed.

Lemma decimal_value_pow negative s e k :
  decimal_value negative (s * 10 ^ Z.of_nat k) e = decimal_value negative s (e + Z.of_nat k).
Proof.
  revert e. induction k as [|k IH]; intros e; [by rewrite Z.mul_1_r, Z.add_0_r|].
  rewrite Nat2Z.inj_succ, Z.pow_succ_r by lia.
  replace (s * (10 * 10 ^ Z.of_nat k)) with (10 * (s * 10 ^ Z.of_nat k)) by lia.
  rewrite decimal_value_tens, IH. f_equal. lia.
Qed.

(** A number's own decimals read as it. *)
Lemma number_parts x negative m p :
  x = Finite negative m p → number_ok x → m = 0 ∧ p = 0 ∨ 0 < m ∧ Z.odd m = true ∧ -1074 <= p.
Proof.
  intros -> Hx. unfold number_ok, in_format in Hx.
  assert (∀ neg n q, -1074 <= q → dyadic neg n q = Finite negative m p →
    m = 0 ∧ p = 0 ∨ 0 < m ∧ Z.odd m = true ∧ -1074 <= p) as Hd.
  { intros neg n q Hq. destruct n as [|n|n]; cbn; [by intros [= <- <- <-]; left| |by intros [= <- <- <-]; left].
    destruct (strip_zeros n q) as [m' p'] eqn:E. apply strip_zeros_spec in E as (k & ? & -> & ? & ? & ?).
    intros [= <- <- <-]. right. split; [done|]. split; [done|lia]. }
  revert Hx. generalize (to_bits 52 11 (Finite negative m p)). intros z. unfold of_bits. cbv zeta.
  change (least_power 52 11) with (-1074).
  destruct (Z.eqb_spec ((z / 2 ^ 52) mod 2 ^ 11) (2 ^ 11 - 1)); [by destruct (_ =? 0)|].
  destruct (Z.eqb_spec ((z / 2 ^ 52) mod 2 ^ 11) 0); apply Hd; [lia|].
  pose proof (Z.mod_pos_bound (z / 2 ^ 52) (2 ^ 11)). lia.
Qed.

Lemma decimal_value_exact negative m p :
  number_ok (Finite negative m p) → 0 < m →
  decimal_value negative (m * 2 ^ Z.max 0 p * 5 ^ Z.max 0 (- p)) (- Z.max 0 (- p)) = Finite negative m p.
Proof.
  intros Hx Hm. destruct (number_parts _ negative m p eq_refl Hx) as [[??]|(_ & Ho & Hp)]; [lia|].
  unfold decimal_value. assert (dyadic negative m p = Finite negative m p) as E.
  { pose proof (dyadic_shift 11 ltac:(lia) negative m p p Hm Ho ltac:(lia)) as E.
    by rewrite Z.sub_diag, Z.pow_0_r, Z.mul_1_r in E. }
  transitivity (of_bits 52 11 (to_bits 52 11 (Finite negative m p))); [|exact Hx].
  do 2 f_equal. rewrite <-E. destruct (Z.leb_spec 0 (- Z.max 0 (- p))) as [H0|H0].
  - replace (Z.max 0 (- p)) with 0 by lia. replace (Z.max 0 p) with p by lia.
    change (- 0) with 0. rewrite !Z.pow_0_r, !Z.mul_1_r. replace 0 with (p - p) by lia. apply dyadic_scale. lia.
  - replace (Z.max 0 (- p)) with (- p) by lia. replace (Z.max 0 p) with 0 by lia. cbv zeta.
    rewrite Z.pow_0_r, Z.mul_1_r, Z.opp_involutive.
    assert (m * 5 ^ (- p) * 2 ^ 1100 = m * 2 ^ (1100 + p) * 10 ^ (- p)) as ->.
    { change 10 with (5 * 2). rewrite Z.pow_mul_l. replace 1100 with (1100 + p + - p) at 1 by lia.
      rewrite (Z.pow_add_r 2 (1100 + p)) by lia. lia. }
    pose proof (Z.pow_pos_nonneg 10 (- p)). rewrite Z.div_mul, Z.mod_mul by lia. cbn [Z.eqb].
    replace (2 * (m * 2 ^ (1100 + p)) + 0) with (m * 2 ^ (1101 + p)).
    2: { replace (1101 + p) with (Z.succ (1100 + p)) by lia. rewrite Z.pow_succ_r by lia. lia. }
    replace (-1101) with (p - (1101 + p)) by lia. apply dyadic_scale. lia.
Qed.

Lemma shortest_go_reads x n t count fuel : ∀ k s e,
  decimal_value false n (- t) = x → shortest_go x n t count fuel k = (s, e) → decimal_value false s e = x.
Proof.
  induction fuel as [|fuel IH]; intros k s e Hn; cbn [shortest_go]; cbv zeta;
    destruct (if _ || _ then _ else _) as [first second];
    (destruct (decide (decimal_value false first _ = x)); [by intros [= <- <-]|]);
    (destruct (decide (decimal_value false second _ = x)); [by intros [= <- <-]|]).
  - by intros [= <- <-].
  - by apply IH.
Qed.

Lemma strip_tens_reads negative fuel : ∀ s e s' e',
  strip_tens fuel s e = (s', e') → decimal_value negative s' e' = decimal_value negative s e.
Proof.
  induction fuel as [|fuel IH]; intros s e s' e'; cbn; [by intros [= <- <-]|].
  destruct (Z.eqb_spec (s mod 10) 0) as [E|]; [|by intros [= <- <-]].
  intros ->%IH. rewrite <-decimal_value_tens. f_equal. pose proof (Z.div_mod s 10). lia.
Qed.

(** Writing the sign of a number changes the sign of what is read. *)
Definition negate (x : JsNumber) : JsNumber :=
  match x with
  | NotANumber => NotANumber
  | Infinite negative => Infinite (negb negative)
  | Finite negative m p => Finite (negb negative) m p
  end.

Lemma of_bits_negate z : 0 <= z < 2 ^ 63 → of_bits 52 11 (2 ^ 63 + z) = negate (of_bits 52 11 z).
Proof.
  intros Hz. unfold of_bits. change (2 ^ (52 + 11)) with (2 ^ 63). cbv zeta.
  rewrite (proj2 (Z.leb_le (2 ^ 63) (2 ^ 63 + z))), (proj2 (Z.leb_gt (2 ^ 63) z)) by lia.
  assert ((2 ^ 63 + z) / 2 ^ 52 = 2 ^ 11 + z / 2 ^ 52) as ->.
  { change (2 ^ 63) with (2 ^ 11 * 2 ^ 52). rewrite Z.add_comm, Z.div_add by lia. lia. }
  assert ((2 ^ 11 + z / 2 ^ 52) mod 2 ^ 11 = (z / 2 ^ 52) mod 2 ^ 11) as ->.
  { rewrite <-(Z.mul_1_l (2 ^ 11)) at 1. rewrite Z.add_comm. apply Z.mod_add. lia. }
  assert ((2 ^ 63 + z) mod 2 ^ 52 = z mod 2 ^ 52) as ->.
  { change (2 ^ 63) with (2 ^ 11 * 2 ^ 52). rewrite Z.add_comm. apply Z.mod_add. lia. }
  assert (∀ m q, dyadic true m q = negate (dyadic false m q)) as Hd.
  { intros [|n|n] q; cbn; [done| |done]. by destruct (strip_zeros n q). }
  destruct (_ =? 2 ^ 11 - 1); [by destruct (_ =? 0)|]. destruct (_ =? 0); apply Hd.
Qed.

Lemma decimal_value_negate s e : 0 <= s → decimal_value true s e = negate (decimal_value false s e).
Proof.
  intros Hs. unfold decimal_value. cbv zeta.
  assert (∀ m q, 0 <= m → of_bits 52 11 (to_bits 52 11 (dyadic true m q)) =
    negate (of_bits 52 11 (to_bits 52 11 (dyadic false m q)))) as Hd.
  { intros m q Hm. rewrite <-of_bits_negate.
    - f_equal. destruct m as [|n|n]; cbn [dyadic]; [done| |lia]. destruct (strip_zeros n q). cbn [to_bits].
      change (2 ^ (52 + 11)) with (2 ^ 63). lia.
    - pose proof (dyadic_mantissa false m q) as Hok.
      assert (∃ m' q', dyadic false m q = Finite false m' q') as (m' & q' & E).
      { destruct m as [|n|n]; cbn; eauto. destruct (strip_zeros n q); eauto. }
      rewrite E in *. cbn [to_bits mantissa_ok] in *. pose proof (magnitude_range 52 11 ltac:(lia) ltac:(lia) m' q').
      assert (infinity_bits 52 11 < 2 ^ 63) by (vm_compute; reflexivity). lia. }
  destruct (0 <=? e); [apply Hd; pose proof (Z.pow_nonneg 10 e); nia|].
  apply Hd. assert (0 <= s * 2 ^ 1100 / 10 ^ (- e)); [|destruct (_ =? 0); lia].
  pose proof (Z.pow_pos_nonneg 2 1100). destruct (Z.le_gt_cases (10 ^ (- e)) 0) as [H0|H0].
  - pose proof (Z.pow_nonneg 10 (- e)). assert (10 ^ (- e) = 0) as -> by lia. by rewrite Z.div_0_r.
  - apply Z.div_pos; nia.
Qed.

(** What [shortest] gives reads as the number. *)
Lemma shortest_go_nonneg x n t count fuel : ∀ k s e,
  0 <= n → shortest_go x n t count fuel k = (s, e) → 0 <= s.
Proof.
  induction fuel as [|fuel IH]; intros k s e Hn; cbn [shortest_go]; cbv zeta;
    assert (0 <= n / 10 ^ (count - k)) as Hb
      by (pose proof (Z.pow_nonneg 10 (count - k)); destruct (Z.eq_dec (10 ^ (count - k)) 0) as [->|];
          [by rewrite Z.div_0_r|apply Z.div_pos; lia]);
    (destruct (if _ || _ then _ else _) as [first second] eqn:E;
     assert (0 <= first ∧ 0 <= second) as [H1 H2] by (destruct (_ || _); injection E as <- <-; lia));
    (destruct (decide (decimal_value false first _ = x)); [by intros [= <- <-]|]);
    (destruct (decide (decimal_value false second _ = x)); [by intros [= <- <-]|]).
  - by intros [= <- <-].
  - by apply IH.
Qed.

Lemma strip_tens_nonneg fuel : ∀ s e s' e', 0 <= s → strip_tens fuel s e = (s', e') → 0 <= s'.
Proof.
  induction fuel as [|fuel IH]; intros s e s' e' Hs; cbn; [by intros [= <- <-]|].
  destruct (_ =? 0); [|by intros [= <- <-]]. apply IH. apply Z.div_pos; lia.
Qed.

Lemma shortest_reads (negative : bool) m p s e :
  number_ok (Finite false m p) → 0 < m → shortest m p = (s, e) →
  0 <= s ∧ decimal_value negative s e = Finite negative m p.
Proof.
  intros Hx Hm. unfold shortest. cbv zeta. set (n := m * _ * _). set (t := Z.max 0 (- p)).
  assert (0 <= n) as Hn.
  { unfold n. pose proof (Z.pow_nonneg 2 (Z.max 0 p)). pose proof (Z.pow_nonneg 5 t). nia. }
  destruct (shortest_go _ n t _ _ 1) as [s0 e0] eqn:Hgo. intros Hstrip.
  pose proof (shortest_go_nonneg _ _ _ _ _ _ _ _ Hn Hgo) as Hs0.
  pose proof (strip_tens_nonneg _ _ _ _ _ Hs0 Hstrip) as Hs. split; [done|].
  assert (decimal_value false s e = Finite false m p) as Hv.
  { rewrite (strip_tens_reads false _ _ _ _ _ Hstrip). eapply shortest_go_reads; [|exact Hgo].
    by apply decimal_value_exact. }
  destruct negative; [|done]. by rewrite decimal_value_negate, Hv by done.
Qed.

Lemma number_ok_negate m p : 0 <= m → number_ok (Finite true m p) → number_ok (Finite false m p).
Proof.
  intros Hm Hx. unfold number_ok, in_format in *.
  assert (to_bits 52 11 (Finite true m p) = 2 ^ 63 + to_bits 52 11 (Finite false m p)) as E by done.
  pose proof (magnitude_range 52 11 ltac:(lia) ltac:(lia) m p Hm).
  assert (infinity_bits 52 11 < 2 ^ 63) by (vm_compute; reflexivity).
  rewrite E, of_bits_negate in Hx by (cbn [to_bits]; lia).
  destruct (of_bits 52 11 _) as [|b|b m' p']; cbn in *; try done. injection Hx as Hb -> ->. by destruct b.
Qed.

(** A literal: a sign, whole digits, a point and digits after it or none, and
    an exponent or none. *)
Definition sign_text (negative : bool) : JsString := if negative then [45] else [].
Definition point_text (part : option JsString) : JsString :=
  match part with Some part => 46 :: part | None => [] end.

Definition after_digits (us : JsString) : Prop := match us with u :: _ => is_digit u = false | [] => True end.

Lemma is_digit_spec u : is_digit u = true ↔ 48 <= u <= 57.
Proof. unfold is_digit, between. by rewrite andb_true_iff, !Z.leb_le. Qed.

Lemma read_sign_text negative us :
  us ≠ [] → forallb is_digit us = true → ∀ rest, read_sign (sign_text negative ++ us ++ rest) = (negative, us ++ rest).
Proof.
  intros Hne Hd rest. destruct us as [|u us]; [done|]. cbn in Hd. apply andb_true_iff in Hd as [Hu%is_digit_spec _].
  destruct negative; [done|]. cbn. rewrite !(proj2 (Z.eqb_neq u _)) by lia. done.
Qed.

Lemma read_literal negative whole part rest e :
  whole ≠ [] → forallb is_digit whole = true → forallb is_digit (default [] part) = true →
  after_digits rest → (part = None → match rest with u :: _ => u ≠ 46 | [] => True end) →
  read_exponent rest = Some e →
  read_decimal (sign_text negative ++ whole ++ point_text part ++ rest) =
    Some (decimal_value negative (read_digits (whole ++ default [] part))
            (e - Z.of_nat (length (default [] part)))).
Proof.
  intros Hne Hw Hp Hr Hpoint He. unfold read_decimal. rewrite read_sign_text by done.
  rewrite span_app; [|done|].
  2: { destruct part as [part|]; [done|]. cbn. exact Hr. }
  assert (read_point (point_text part ++ rest) = (default [] part, rest)) as ->.
  { destruct part as [part|]; cbn.
    - by apply span_app.
    - destruct rest as [|u rest]; [done|]. cbn. by rewrite (proj2 (Z.eqb_neq u 46)) by auto. }
  rewrite bool_decide_false by done. cbn [andb]. by rewrite He.
Qed.

(** What [layout] writes, as a literal of the value. *)
Lemma layout_shape s e (ds := digits s) :
  0 <= s →
  ∃ whole part rest x, layout s e = whole ++ point_text part ++ rest ∧
    whole ≠ [] ∧ forallb is_digit whole = true ∧ forallb is_digit (default [] part) = true ∧
    (rest = [] ∧ x = 0 ∨ ∃ b us, rest = 101 :: (if (b : bool) then 45 else 43) :: us ∧ us ≠ [] ∧
       forallb is_digit us = true ∧ x = if b then - read_digits us else read_digits us) ∧
    ∀ negative, decimal_value negative (read_digits (whole ++ default [] part))
      (x - Z.of_nat (length (default [] part))) = decimal_value negative s e.
Proof.
  intros Hs. pose proof (digits_are_digits s Hs) as Hd. pose proof (digits_nonempty s Hs) as Hne.
  pose proof (read_digits_digits s Hs) as Hv. fold ds in Hd, Hne, Hv. unfold layout. fold ds.
  set (k := Z.of_nat (length ds)). set (n := k + e).
  assert (0 < length ds)%nat as Hk by (destruct ds; [done|cbn; lia]).
  assert (∀ i, forallb is_digit (repeat 48 i) = true) as Hz by (by induction i).
  destruct ((k <=? n) && (n <=? 21)) eqn:E1; [|destruct ((0 <? n) && (n <=? 21)) eqn:E2;
    [|destruct ((-6 <? n) && (n <=? 0)) eqn:E3]]; cbv zeta.
  - apply andb_true_iff in E1 as [E1%Z.leb_le _]. exists (ds ++ zeros (n - k)), None, [], 0.
    cbn [default]. unfold id. rewrite !app_nil_r. split; [done|]. split; [by destruct ds|].
    unfold zeros. rewrite forallb_app, Hd, Hz. split; [done|]. split; [done|]. split; [by left|].
    intros negative. rewrite read_app_zeros, Hv, decimal_value_pow. f_equal. cbn. lia.
  - apply andb_true_iff in E2 as [E2%Z.ltb_lt E2'%Z.leb_le].
    rewrite andb_false_iff, !Z.leb_gt in E1. set (i := Z.to_nat n).
    exists (take i ds), (Some (drop i ds)), [], 0. cbn [default]. unfold id. rewrite app_nil_r. split; [done|].
    assert (0 < i < length ds)%nat as Hi by lia.
    rewrite <-(take_drop i ds), forallb_app in Hd. apply andb_true_iff in Hd as [Hd1 Hd2].
    split; [intros H; assert (length (take i ds) = 0%nat) as H0 by (by rewrite H); rewrite length_take in H0; lia|].
    split; [done|]. split; [done|]. split; [by left|]. intros negative. rewrite take_drop, Hv. f_equal.
    rewrite length_drop. lia.
  - apply andb_true_iff in E3 as [E3%Z.ltb_lt E3'%Z.leb_le].
    exists [48], (Some (zeros (- n) ++ ds)), [], 0. cbn [default]. unfold id. rewrite app_nil_r. split; [done|].
    unfold zeros. rewrite forallb_app, Hd, Hz. do 3 (split; [done|]). split; [by left|]. intros negative.
    change ([48] ++ ?l) with (repeat 48 1 ++ l). rewrite !read_zeros, Hv. f_equal.
    rewrite length_app, repeat_length. lia.
  - set (us := digits (Z.abs (n - 1))).
    assert (us ≠ [] ∧ forallb is_digit us = true ∧ read_digits us = Z.abs (n - 1)) as (Hu1 & Hu2 & Hu3)
      by (unfold us; split; [apply digits_nonempty; lia|split; [apply digits_are_digits; lia|apply read_digits_digits; lia]]).
    destruct ds as [|d ds0] eqn:Eds; [done|]. cbn in Hd. apply andb_true_iff in Hd as [Hd1 Hd2].
    set (rest := 101 :: _ :: us).
    assert (∃ b us', rest = 101 :: (if (b : bool) then 45 else 43) :: us' ∧ us' ≠ [] ∧
      forallb is_digit us' = true ∧ n - 1 = if b then - read_digits us' else read_digits us') as Hrest.
    { exists (n - 1 <? 0), us. split; [by destruct (n - 1 <? 0)|]. split; [done|]. split; [done|].
      rewrite Hu3. destruct (Z.ltb_spec (n - 1) 0); lia. }
    destruct ds0 as [|d' ds0].
    + exists [d], None, rest, (n - 1). cbn [default app]. unfold id. split; [done|]. split; [done|].
      split; [cbn; by rewrite Hd1|]. split; [done|]. split; [by right|]. intros negative. rewrite Hv. f_equal.
      cbn. unfold n, k. cbn. lia.
    + exists [d], (Some (d' :: ds0)), rest, (n - 1). cbn [default]. unfold id. split; [done|]. split; [done|].
      split; [cbn; by rewrite Hd1|]. split; [done|]. split; [by right|]. intros negative. cbn [app]. rewrite Hv. f_equal.
      unfold n, k. cbn [length]. lia.
Qed.
