(* ===== verification/Limits.v ===== *)
(** * Resource limits and what a node has left

    Models [packages/contracts/src/resource-limits.ts] and
    [apps/relay/src/resource-limits.ts], the reservations of game servers
    ([lifecycle.ts]) and Apps ([apps.ts]) made with them, and the limit
    [workload-slice.ts] sets on all workloads together.

    Bytes and thousandths of a core are integers; no limit is [None]. What
    the host says of itself (its memory, its cores, its disk) is a
    parameter. *)
From S2P Require Import Prelude Bytes Utf8 Nbt Decimals.
Open Scope Z_scope.

(** ** Limits *)

Record ResourceLimits := MkResourceLimits {
  cpuMillis : option Z;
  diskBytes : option Z;
  memoryBytes : option Z;
}.

#[global] Instance ResourceLimits_eq_dec : EqDecision ResourceLimits.
Proof. solve_decision. Defined.

(** A field that is missing keeps the current one. *)
Record ResourceLimitsInput := MkLimitsInput {
  in_cpuMillis : option (option Z);
  in_diskBytes : option (option Z);
  in_memoryBytes : option (option Z);
}.

Definition NO_RESOURCE_LIMITS : ResourceLimits := MkResourceLimits None None None.

Definition MINIMUM_MEMORY_LIMIT_BYTES : Z := 64 * 1024 ^ 2.
Definition MINIMUM_CPU_LIMIT_MILLIS : Z := 100.
Definition CPU_LIMIT_MILLIS_PER_CORE : Z := 1000.

(** [Math.round(0.1 * 1024 ** 3)] *)
Definition MINIMUM_INSTANCE_DISK_LIMIT_BYTES : Z := 107374182.

Definition MAX_SAFE_INTEGER : Z := 2 ^ 53 - 1.

(** A field of [resourceLimitsSchema]: zod's integers are safe. *)
Definition limit_field (minimum : Z) (value : option Z) : bool :=
  match value with Some n => (minimum <=? n) && (n <=? MAX_SAFE_INTEGER) | None => true end.

Definition resourceLimits_valid (limits : ResourceLimits) : bool :=
  limit_field MINIMUM_CPU_LIMIT_MILLIS (cpuMillis limits) &&
  limit_field MINIMUM_INSTANCE_DISK_LIMIT_BYTES (diskBytes limits) &&
  limit_field MINIMUM_MEMORY_LIMIT_BYTES (memoryBytes limits).

Definition resolveResourceLimits (current : ResourceLimits) (input : option ResourceLimitsInput) : ResourceLimits :=
  match input with
  | Some input => MkResourceLimits (default (cpuMillis current) (in_cpuMillis input))
                    (default (diskBytes current) (in_diskBytes input)) (default (memoryBytes current) (in_memoryBytes input))
  | None => MkResourceLimits (cpuMillis current) (diskBytes current) (memoryBytes current)
  end.

Definition widest (left_ right_ : option Z) : option Z :=
  match left_, right_ with
  | None, _ => right_
  | _, None => left_
  | Some l, Some r => Some (Z.max l r)
  end.

Definition widestResourceLimits (current next : ResourceLimits) : ResourceLimits :=
  MkResourceLimits (widest (cpuMillis current) (cpuMillis next)) (widest (diskBytes current) (diskBytes next))
    (widest (memoryBytes current) (memoryBytes next)).

Definition resourceLimitsEqual (l r : ResourceLimits) : bool :=
  bool_decide (cpuMillis l = cpuMillis r) && bool_decide (diskBytes l = diskBytes r) && bool_decide (memoryBytes l = memoryBytes r).

(** ** Limits as a container has them *)

Definition DISK_LIMIT_LABEL : string := "kiln.limits.disk-bytes".
Definition NANO_CPUS_PER_MILLI : Z := 1000000.

Record HostConfig := MkHostConfig { Memory : option Z; MemorySwap : option Z; NanoCpus : option Z; MemoryReservation : option Z }.

(** What a container being recreated takes; [reservation] is its old one, if
    that is a number. *)
Definition containerLimitHostConfig (limits : ResourceLimits) (reservation : option Z) : HostConfig :=
  let memory := default 0 (memoryBytes limits) in
  MkHostConfig (Some memory) (Some memory) (Some (default 0 (cpuMillis limits) * NANO_CPUS_PER_MILLI))
    (match reservation, memoryBytes limits with
     | Some r, Some m => Some (Z.min r m)
     | _, _ => None
     end).

Definition resourceLimitLabels (limits : ResourceLimits) : gmap string JsString :=
  {[DISK_LIMIT_LABEL := match diskBytes limits with Some n => print_int n | None => js "none" end]}.

(** The [^\d+$] of a label, and its value while that is a safe integer. *)
Definition diskLimitLabel (value : option JsString) (fallback : option Z) : option Z :=
  match value with
  | Some value =>
      if bool_decide (value = js "none") then None
      else if bool_decide (value = []) || negb (forallb is_digit value) then fallback
      else let bytes := read_digits value in
           if (bytes <=? MAX_SAFE_INTEGER) && (0 <? bytes) then Some bytes else fallback
  | None => fallback
  end.

(** [Math.round] of the quotient, which is exact enough at these sizes. *)
Definition round_div (n d : Z) : Z := (2 * n + d) / (2 * d).

Definition containerResourceLimits (labels : gmap string JsString) (host : option HostConfig) (fallbackDiskBytes : option Z)
    : ResourceLimits :=
  let memory := default 0 (host ≫= Memory) in
  let nanoCpus := default 0 (host ≫= NanoCpus) in
  MkResourceLimits (if 0 <? nanoCpus then Some (round_div nanoCpus NANO_CPUS_PER_MILLI) else None)
    (diskLimitLabel (labels !! DISK_LIMIT_LABEL) fallbackDiskBytes)
    (if 0 <? memory then Some memory else None).

(** ** Allocations *)

Record ResourceAllocation := MkAllocation { a_id : string; a_limits : ResourceLimits }.

(** The object [reserve] pushes, by which its release finds it. *)
Record Reservation := MkReservation { token : nat; r_id : string; r_kind : string; r_limits : ResourceLimits }.

(** Each kind's source with what it would answer, in the order they were
    registered, and what is held meanwhile, newest last. *)
Record ResourceAllocations := MkAllocations {
  sources : list (string * list ResourceAllocation);
  reservations : list Reservation;
  next_token : nat;
}.

Definition NODE_RESERVED_MEMORY_BYTES : Z := 1024 ^ 3.
Definition PLATFORM_RESERVED_MEMORY_BYTES : Z := 2 * 1024 ^ 3.

(** Half of an odd total has half a byte, which no comparison with whole bytes
    sees: what is assignable is rounded down. *)
Definition assignableMemoryBytes (totalmem : Z) (platform : bool) (reservedMemoryBytes : option Z) : Z :=
  let standard := if platform then PLATFORM_RESERVED_MEMORY_BYTES else NODE_RESERVED_MEMORY_BYTES in
  Z.max (totalmem - match reservedMemoryBytes with
                    | Some reserved => reserved
                    | None => if (2 * standard <=? totalmem) then standard else (totalmem + 1) / 2
                    end) 0.

Definition register (kind : string) (source : list ResourceAllocation) (A : ResourceAllocations) : ResourceAllocations :=
  MkAllocations (jm_set kind source (sources A)) (reservations A) (next_token A).

(** Answers the reservation its release is for. *)
Definition reserve (kind id : string) (limits : ResourceLimits) (A : ResourceAllocations) : nat * ResourceAllocations :=
  (next_token A,
   MkAllocations (sources A) (reservations A ++ [MkReservation (next_token A) id kind limits]) (S (next_token A))).

Definition release (t : nat) (A : ResourceAllocations) : ResourceAllocations :=
  MkAllocations (sources A) (List.filter (λ r, negb (bool_decide (token r = t))) (reservations A)) (next_token A).

Definition allocation_key (kind id : string) : string := kind +:+ ":" +:+ id.

(** One reservation per instance: its newest. *)
Definition reserved_map (A : ResourceAllocations) : list (string * ResourceLimits) :=
  fold_left (λ m r, jm_set (allocation_key (r_kind r) (r_id r)) (r_limits r) m) (reservations A) [].

Definition source_others (kind id : string) (reserved : list (string * ResourceLimits))
    (source : string * list ResourceAllocation) : list ResourceLimits :=
  a_limits <$> List.filter (λ allocation,
    negb (bool_decide (source.1 = kind) && bool_decide (a_id allocation = id) ||
          bool_decide (is_Some (jm_get (allocation_key source.1 (a_id allocation)) reserved)))) source.2.

Definition others (kind id : string) (A : ResourceAllocations) : list ResourceLimits :=
  let reserved := jm_delete (allocation_key kind id) (reserved_map A) in
  flat_map (source_others kind id reserved) (sources A) ++ reserved.*2.

(** ** What fits *)

Inductive LimitError :=
  | CpuExceeds (cores : Z)
  | MemoryExceeds (available : Z)
  | DiskExceeds (available : Z)
  | DiskUsed (bytes : Z).

Definition sumLimit (key : ResourceLimits → option Z) (limits : list ResourceLimits) : Z :=
  fold_left (λ total current, total + default 0 (key current)) limits 0.

Definition RELAY_NODE_DISK_RESERVE_BYTES : Z := 10 * 1024 ^ 3.

Definition relayDiskAllocationAvailableBytes (nodeTotalBytes otherAllocatedBytes currentLimitBytes : Z) : Z :=
  let assignableBytes := Z.max (nodeTotalBytes - RELAY_NODE_DISK_RESERVE_BYTES) 0 in
  let remainingBytes := Z.max (assignableBytes - otherAllocatedBytes) 0 in
  Z.max remainingBytes currentLimitBytes.

(** The node: its cores, what its instances may assign, and its disk. *)
Record Node := MkNode { cores : Z; assignable : Z; nodeDiskBytes : Z }.

Definition assertResourceLimitsFit (node : Node) (currentDiskBytes currentMemoryBytes : option Z)
    (limits : ResourceLimits) (others : list ResourceLimits) : Result LimitError unit :=
  if match cpuMillis limits with Some cpu => cores node * CPU_LIMIT_MILLIS_PER_CORE <? cpu | None => false end
  then Throw (CpuExceeds (cores node))
  else
    let memory_available := assignable node - sumLimit memoryBytes others in
    if match memoryBytes limits with
       | Some memory => (default 0 currentMemoryBytes <? memory) && (memory_available <? memory)
       | None => false
       end
    then Throw (MemoryExceeds (Z.max memory_available 0))
    else
      let disk_available :=
        relayDiskAllocationAvailableBytes (nodeDiskBytes node) (sumLimit diskBytes others) (default 0 currentDiskBytes) in
      if match diskBytes limits with Some disk => disk_available <? disk | None => false end
      then Throw (DiskExceeds disk_available)
      else Ok tt.

(** *** Game servers *)

Record AllocationRequest := MkRequest {
  checkExistingUsage : bool;
  currentDiskLimitBytes : option Z;
  currentMemoryLimitBytes : option Z;
  q_id : string;
  q_limits : ResourceLimits;
  holds : option ResourceLimits;
}.

(** [usedBytes]: what the server's directory holds. *)
Definition reserveAllocation (node : Node) (usedBytes : Z) (input : AllocationRequest) (A : ResourceAllocations)
    : Result LimitError (nat * ResourceAllocations) :=
  if checkExistingUsage input && match diskBytes (q_limits input) with Some limit => limit <? usedBytes | None => false end
  then Throw (DiskUsed usedBytes)
  else
    match assertResourceLimitsFit node (currentDiskLimitBytes input) (currentMemoryLimitBytes input) (q_limits input)
            (others "server" (q_id input) A) with
    | Throw e => Throw e
    | Ok _ => Ok (reserve "server" (q_id input) (default (q_limits input) (holds input)) A)
    end.

(** *** Apps *)

Definition combine_cpu (services : list ResourceLimits) : option Z :=
  fold_left (λ widest service, match cpuMillis service with
                               | None => widest
                               | Some cpu => Some (Z.max (default 0 widest) cpu)
                               end) services None.

Definition combine_memory (services : list ResourceLimits) : option Z :=
  fold_left (λ total service, match memoryBytes service with
                              | None => total
                              | Some memory => Some (default 0 total + memory)
                              end) services None.

Definition combinedLimits (services : list ResourceLimits) : ResourceLimits :=
  MkResourceLimits (combine_cpu services) None (combine_memory services).

(** A service's limits, which have no disk of their own. *)
Definition without_disk (limits : ResourceLimits) : ResourceLimits :=
  MkResourceLimits (cpuMillis limits) None (memoryBytes limits).

Fixpoint services_fit (node : Node) (keeps : bool) (services allocated : list ResourceLimits) : Result LimitError unit :=
  match services with
  | [] => Ok tt
  | service :: services =>
      let limits := without_disk service in
      match assertResourceLimitsFit node None (if keeps then memoryBytes limits else None) limits allocated with
      | Throw e => Throw e
      | Ok _ => services_fit node keeps services (allocated ++ [limits])
      end
  end.

Definition assertLimitsFit (node : Node) (appId : string) (services alongside : list ResourceLimits)
    (keepsMemoryBytes : option Z) (A : ResourceAllocations) : Result LimitError unit :=
  let keeps := match keepsMemoryBytes, combine_memory services with
               | Some keeps, Some requested => requested <=? keeps
               | _, _ => false
               end in
  services_fit node keeps services (others "app" appId A ++ (without_disk <$> alongside)).

(** An App's containers: their limits, and whether they run. *)
Definition AppContainer : Type := ResourceLimits * bool.

Definition reserving (node : Node) (appId : string) (services : list ResourceLimits) (containers : list AppContainer)
    (may_surge : bool) (A : ResourceAllocations) : Result LimitError (bool * (nat * ResourceAllocations)) :=
  let current := combinedLimits containers.*1 in
  match assertLimitsFit node appId services [] (memoryBytes current) A with
  | Throw e => Throw e
  | Ok _ =>
      let running := (List.filter snd containers).*1 in
      let surge := may_surge && negb (bool_decide (running = [])) &&
                   match assertLimitsFit node appId services running None A with Ok _ => true | Throw _ => false end in
      let requested := combinedLimits services in
      let wider := widestResourceLimits current requested in
      let held := if surge
                  then MkResourceLimits (cpuMillis wider) (diskBytes wider)
                         match memoryBytes current, memoryBytes requested with
                         | None, None => None
                         | c, r => Some (default 0 c + default 0 r)
                         end
                  else wider in
      Ok (surge, reserve "app" appId held A)
  end.

(** ** The limit on all workloads *)

Definition MEBIBYTE : Z := 1024 ^ 2.

(** Whole mebibytes, and the same rounded up. *)
Definition wholeMebibytes (bytes : Z) : Z := bytes / MEBIBYTE * MEBIBYTE.
Definition mebibytesAbove (bytes : Z) : Z := - (- bytes / MEBIBYTE) * MEBIBYTE.

(** The limit the host has, and whether anything runs under it. *)
Record SliceState := MkSlice { limitBytes : option Z; populated : bool }.

(** The limit the Relay sets, if there is memory to assign; [placed] is
    whether any container was created under it. *)
Definition slice_limit (totalmem assignable : Z) (A : ResourceAllocations) (state : SliceState) (placed : bool) : option Z :=
  if assignable <=? 0 then None
  else
    let assigned := sumLimit memoryBytes (others "" "" A) in
    let wanted := wholeMebibytes (Z.min totalmem (Z.max assignable assigned)) in
    Some match limitBytes state with
         | Some limit => Z.max wanted (mebibytesAbove limit)
         | None => if populated state || placed then mebibytesAbove totalmem else wanted
         end.
