(* ===== verification/LimitFacts.v ===== *)
(** * Resource limits: what is promised fits the node

    Properties of [Limits]: limits read back from the container made with
    them, and what accepted requests assign, which is never more memory than
    the node has but for stopped containers that are held unchecked. *)
From Stdlib Require Import Ascii.
From S2P Require Import Prelude Bytes Utf8 Nbt Decimals Limits.
Open Scope Z_scope.

(** ** Reading limits back *)

Lemma print_int_label n : 0 < n → forallb is_digit (print_int n) = true ∧ print_int n ≠ [] ∧ read_digits (print_int n) = n ∧ print_int n ≠ js "none".
Proof.
  intros H. unfold print_int. assert ((n <? 0) = false) as -> by (apply Z.ltb_ge; lia).
  assert (forallb is_digit (digits n) = true) as Hd by (apply digits_are_digits; lia).
  split; [done|]. split; [apply digits_nonempty; lia|]. split; [apply read_digits_digits; lia|].
  intros E. rewrite E in Hd. vm_compute in Hd. done.
Qed.

Lemma round_div_mul n : round_div (n * NANO_CPUS_PER_MILLI) NANO_CPUS_PER_MILLI = n.
Proof.
  unfold round_div. change NANO_CPUS_PER_MILLI with 1000000. symmetry. apply (Z.div_unique _ _ n 1000000); lia.
Qed.

Lemma limit_field_spec minimum value n : limit_field minimum value = true → value = Some n → minimum <= n <= MAX_SAFE_INTEGER.
Proof. intros H ->. cbn in H. bool_to_prop. done. Qed.

(** ** Sums *)

Notation mem := (sumLimit memoryBytes).
Notation mem_of l := (default 0 (memoryBytes l)).

Lemma sumLimit_go key l : ∀ t, fold_left (λ (total : Z) (current : ResourceLimits), total + default 0 (key current)) l t = t + sumLimit key l.
Proof.
  unfold sumLimit. induction l as [|x l IH]; intros t; cbn [fold_left]; [lia|]. rewrite IH, (IH (0 + _)). lia.
Qed.

Lemma sumLimit_cons key x l : sumLimit key (x :: l) = default 0 (key x) + sumLimit key l.
Proof. unfold sumLimit at 1. cbn [fold_left]. rewrite sumLimit_go. lia. Qed.

Lemma sumLimit_app key l k : sumLimit key (l ++ k) = sumLimit key l + sumLimit key k.
Proof.
  induction l as [|x l IH]; cbn [app]; [done|]. rewrite !sumLimit_cons, IH. lia.
Qed.

Lemma combine_memory_go l : ∀ t,
  default 0 (fold_left (λ (total : option Z) (service : ResourceLimits), match memoryBytes service with
                                         | None => total | Some memory => Some (default 0 total + memory) end) l t) =
  default 0 t + mem l.
Proof.
  induction l as [|x l IH]; intros t; cbn [fold_left]; [unfold sumLimit; cbn; lia|]. rewrite IH, sumLimit_cons.
  destruct (memoryBytes x); cbn; lia.
Qed.

(** An App's memory is that of its services together. *)
Lemma combine_memory_sum l : default 0 (combine_memory l) = mem l.
Proof. unfold combine_memory. rewrite combine_memory_go. done. Qed.

(** ** Instances and their keys *)

Definition named (kind : string) : bool := negb (bool_decide (kind = "")) && str_all (λ c, negb (bool_decide (c = ":"%char))) kind.

Lemma allocation_key_inj k k' i i' : named k = true → named k' = true →
  allocation_key k i = allocation_key k' i' → k = k' ∧ i = i'.
Proof.
  intros [_ Hk]%andb_true_iff [_ Hk']%andb_true_iff. unfold allocation_key.
  revert k' Hk'. induction k as [|c k IH]; intros [|c' k'] Hk' E; cbn in *.
  - by injection E.
  - injection E as <- _. by rewrite bool_decide_true in Hk'.
  - injection E as -> _. by rewrite bool_decide_true in Hk.
  - injection E as -> E. apply andb_true_iff in Hk as [_ Hk], Hk' as [_ Hk']. destruct (IH Hk k' Hk' E). by subst.
Qed.

Lemma allocation_key_nonempty k i : named k = true → allocation_key k i ≠ allocation_key "" "".
Proof.
  intros [Hk Hc]%andb_true_iff. apply negb_true_iff, bool_decide_eq_false in Hk. destruct k as [|c k]; [done|].
  cbn. intros E. injection E as -> _. cbn in Hc. by rewrite bool_decide_true in Hc.
Qed.

(** The kinds an allocation is of have names without a colon. *)
Definition named_kinds (A : ResourceAllocations) : Prop :=
  (∀ source, source ∈ sources A → named source.1 = true) ∧ (∀ r, r ∈ reservations A → named (r_kind r) = true).

Section Own.
Context (kind id : string).

Definition own_source (A : ResourceAllocations) : list ResourceLimits :=
  flat_map (λ source : string * list ResourceAllocation,
              a_limits <$> List.filter (λ a, bool_decide (source.1 = kind) && bool_decide (a_id a = id)) source.2) (sources A).

(** What an instance counts for: what it holds, or what its source says. *)
Definition own (A : ResourceAllocations) : Z :=
  match jm_get (allocation_key kind id) (reserved_map A) with
  | Some limits => mem_of limits
  | None => mem (own_source A)
  end.
End Own.

(** All the memory that is assigned. *)
Definition assigned (A : ResourceAllocations) : Z := mem (others "" "" A).

Lemma reserved_fold_keys l : ∀ m : list (string * ResourceLimits), NoDup m.*1 →
  let m' := fold_left (λ m r, jm_set (allocation_key (r_kind r) (r_id r)) (r_limits r) m) l m in
  NoDup m'.*1 ∧ ∀ k, k ∈ m'.*1 → k ∈ m.*1 ∨ ∃ r, r ∈ l ∧ k = allocation_key (r_kind r) (r_id r).
Proof.
  induction l as [|r l IH]; intros m Hm; cbn; [split; [done|]; by left|].
  destruct (IH (jm_set (allocation_key (r_kind r) (r_id r)) (r_limits r) m)) as [Hn Hk]; [by apply jm_set_NoDup|].
  split; [done|]. intros k H. apply Hk in H as [H|(r' & ? & ?)]; [|right; exists r'; split; [by right|done]].
  rewrite jm_set_keys in H. destruct (decide _) as [_|_]; [by left|].
  apply elem_of_app in H as [H|H]; [by left|]. apply list_elem_of_singleton in H as ->. right. exists r. split; [left|done].
Qed.

Lemma reserved_NoDup A : NoDup (reserved_map A).*1.
Proof. apply (reserved_fold_keys (reservations A) []). constructor. Qed.

Lemma reserved_key A k : k ∈ (reserved_map A).*1 → ∃ r, r ∈ reservations A ∧ k = allocation_key (r_kind r) (r_id r).
Proof.
  intros H. destruct (reserved_fold_keys (reservations A) []) as [_ Hk]; [constructor|].
  by apply Hk in H as [H|H]; [in_nil H|].
Qed.

Lemma jm_delete_absent {V} (m : list (string * V)) k : k ∉ m.*1 → jm_delete k m = m.
Proof.
  unfold jm_delete. induction m as [|[k' v] m IH]; cbn; [done|]. intros [Hne Hm]%not_elem_of_cons.
  rewrite bool_decide_false by done. cbn. by rewrite IH.
Qed.

Lemma jm_delete_sum m k : NoDup m.*1 →
  mem (m : list (string * ResourceLimits)).*2 = from_option (λ l, mem_of l) 0 (jm_get k m) + mem (jm_delete k m).*2.
Proof.
  induction m as [|[k' v] m IH]; intros Hn; [done|]. apply NoDup_cons in Hn as [Hk Hn]. unfold jm_delete. cbn [List.filter jm_get].
  change (((k', v) :: m).*2) with (v :: m.*2). rewrite sumLimit_cons. destruct (decide (k = k')) as [<-|Hne].
  - rewrite bool_decide_true by done. cbn [negb from_option]. fold (jm_delete k m). by rewrite jm_delete_absent.
  - rewrite bool_decide_false by done. cbn [negb]. fold (jm_delete k m).
    change (((k', v) :: jm_delete k m).*2) with (v :: (jm_delete k m).*2). rewrite sumLimit_cons, (IH Hn). lia.
Qed.

(** Splitting an instance's share off. *)
Lemma assigned_split kind id A : named kind = true → named_kinds A →
  assigned A = own kind id A + mem (others kind id A).
Proof.
  intros Hk [Hs Hr]. unfold assigned, others, own. set (R := reserved_map A). set (k := allocation_key kind id).
  assert (allocation_key "" "" ∉ R.*1) as Hempty.
  { intros (r & Hin & E)%reserved_key. by apply (allocation_key_nonempty (r_kind r) (r_id r)); [apply Hr|]. }
  rewrite (jm_delete_absent R _ Hempty), !sumLimit_app, (jm_delete_sum R k) by apply reserved_NoDup.
  enough (mem (flat_map (source_others "" "" R) (sources A)) =
    (if decide (is_Some (jm_get k R)) then 0 else mem (own_source kind id A)) +
    mem (flat_map (source_others kind id (jm_delete k R)) (sources A))) as E.
  { rewrite E. destruct (jm_get k R) as [l|]; [rewrite decide_True by by eexists|rewrite decide_False by by intros []]; cbn; lia. }
  unfold own_source. revert Hs. generalize (sources A). induction l as [|[sk as_] l IH]; intros Hs.
  { case_decide; done. }
  cbn [flat_map]. rewrite !sumLimit_app, IH by (intros s Hin; apply Hs; by right).
  assert (named sk = true) as Hsk by (apply (Hs (sk, as_)); left).
  enough (mem (source_others "" "" R (sk, as_)) =
    (if decide (is_Some (jm_get k R)) then 0
     else mem (a_limits <$> List.filter (λ a, bool_decide (sk = kind) && bool_decide (a_id a = id)) as_)) +
    mem (source_others kind id (jm_delete k R) (sk, as_))) as E.
  { rewrite E. cbn [fst snd]. case_decide; lia. }
  unfold source_others. cbn [fst snd]. rewrite (bool_decide_false (sk = "")) by (intros ->; done). cbn [andb orb].
  clear IH Hs. induction as_ as [|a as_ IH]; [case_decide; done|]. cbn [List.filter].
  destruct (decide (sk = kind ∧ a_id a = id)) as [[-> <-]|Hne].
  - rewrite !(bool_decide_true (kind = kind)) in IH |- * by done. rewrite !(bool_decide_true (a_id a = a_id a)) by done.
    cbn [andb orb negb] in IH |- *. fold k. case_decide as Hd.
    + rewrite bool_decide_true by done. cbn [negb]. rewrite IH. lia.
    + rewrite bool_decide_false by done. cbn [negb]. rewrite !fmap_cons, !sumLimit_cons, IH. lia.
  - assert (bool_decide (sk = kind) && bool_decide (a_id a = id) = false) as ->.
    { apply andb_false_iff. rewrite !bool_decide_eq_false. destruct (decide (sk = kind)); [right|by left]. naive_solver. }
    cbn [orb]. rewrite (bool_decide_ext (is_Some (jm_get (allocation_key sk (a_id a)) (jm_delete k R)))
                          (is_Some (jm_get (allocation_key sk (a_id a)) R))).
    + destruct (bool_decide (is_Some (jm_get (allocation_key sk (a_id a)) R))); cbn [negb];
        [|rewrite !fmap_cons, !sumLimit_cons]; rewrite IH; case_decide; lia.
    + rewrite jm_get_delete, decide_False; [done|]. intros E. apply Hne.
      by destruct (allocation_key_inj kind sk id (a_id a) Hk Hsk E).
Qed.

(** *** Reserving *)

Lemma reserved_reserve kind id limits A :
  reserved_map (reserve kind id limits A).2 = jm_set (allocation_key kind id) limits (reserved_map A).
Proof. unfold reserved_map, reserve. cbn [snd reservations]. by rewrite fold_left_app. Qed.

Lemma jm_delete_set {V} (k : string) (v : V) m : jm_delete k (jm_set k v m) = jm_delete k m.
Proof.
  unfold jm_delete. induction m as [|[k' v'] m IH]; cbn; [by rewrite bool_decide_true|].
  case_decide as E; cbn; [subst; by rewrite !bool_decide_true|]. rewrite !bool_decide_false by done. cbn. by rewrite IH.
Qed.

Lemma others_reserve kind id limits A : others kind id (reserve kind id limits A).2 = others kind id A.
Proof. unfold others. by rewrite reserved_reserve, jm_delete_set. Qed.

Lemma named_reserve kind id limits A : named kind = true → named_kinds A → named_kinds (reserve kind id limits A).2.
Proof.
  intros Hk [Hs Hr]. split; [done|]. intros r [H|H]%elem_of_app; [by apply Hr|]. by apply list_elem_of_singleton in H as ->.
Qed.

Lemma assigned_reserve kind id limits A : named kind = true → named_kinds A →
  assigned (reserve kind id limits A).2 = mem_of limits + mem (others kind id A).
Proof.
  intros Hk HA. rewrite (assigned_split kind id) by (try apply named_reserve; done). rewrite others_reserve. f_equal.
  unfold own. rewrite reserved_reserve, jm_get_set, decide_True by done. done.
Qed.

(** ** What fits *)

Lemma fit_memory node disk memory limits rest : assertResourceLimitsFit node disk memory limits rest = Ok tt →
  ∀ m, memoryBytes limits = Some m → m <= default 0 memory ∨ mem rest + m <= assignable node.
Proof.
  unfold assertResourceLimitsFit. intros H m Hm. rewrite Hm in H.
  destruct (match cpuMillis limits with Some _ => _ | None => _ end); [done|].
  destruct (_ && _) eqn:E; [done|]. apply andb_false_iff in E as [E|E]; apply Z.ltb_ge in E; [by left|right; lia].
Qed.

Lemma services_fit_memory node services : ∀ allocated, services_fit node false services allocated = Ok tt →
  mem allocated + mem services <= Z.max (assignable node) (mem allocated).
Proof.
  induction services as [|s services IH]; intros allocated H; cbn [services_fit] in H.
  - unfold sumLimit at 2. cbn. lia.
  - destruct (assertResourceLimitsFit _ _ _ _ _) as [[]|] eqn:Hf; [|done].
    specialize (IH _ H). rewrite sumLimit_app in IH. change (mem [without_disk s]) with (0 + mem_of (without_disk s)) in IH.
    pose proof (fit_memory _ _ _ _ _ Hf) as Hm. cbn [without_disk memoryBytes] in Hm, IH. rewrite sumLimit_cons.
    destruct (memoryBytes s) as [m|]; cbn in *; [destruct (Hm m eq_refl)|]; lia.
Qed.

(** ** Requests *)

(** A game server's request, which may keep the memory it counts for now. *)
Definition honest (A : ResourceAllocations) (input : AllocationRequest) : Prop :=
  default 0 (currentMemoryLimitBytes input) <= own "server" (q_id input) A ∧
  (holds input = None ∨ ∃ existing, memoryBytes existing = currentMemoryLimitBytes input ∧
     holds input = Some (widestResourceLimits existing (q_limits input))).

Lemma server_fits node used input A t A' : named_kinds A → 0 <= own "server" (q_id input) A → honest A input →
  reserveAllocation node used input A = Ok (t, A') →
  named_kinds A' ∧ assigned A' <= Z.max (assignable node) (assigned A).
Proof.
  intros HA Hown [Hcur Hholds] H. unfold reserveAllocation in H. destruct (_ && _); [done|].
  destruct (assertResourceLimitsFit _ _ _ _ _) as [[]|] eqn:Hf; [|done].
  assert (A' = (reserve "server" (q_id input) (default (q_limits input) (holds input)) A).2) as -> by (by injection H as _ <-).
  split; [by apply named_reserve|].
  rewrite assigned_reserve by done. rewrite (assigned_split "server" (q_id input) A) by done.
  pose proof (fit_memory _ _ _ _ _ Hf) as Hm.
  assert (memoryBytes (default (q_limits input) (holds input)) = memoryBytes (q_limits input) ∨
    memoryBytes (default (q_limits input) (holds input)) = widest (currentMemoryLimitBytes input) (memoryBytes (q_limits input))) as [->| ->].
  { destruct Hholds as [->|(e & <- & ->)]; [by left|by right]. }
  - destruct (memoryBytes (q_limits input)) as [m|]; cbn in *; [destruct (Hm m eq_refl)|]; lia.
  - destruct (memoryBytes (q_limits input)) as [m|], (currentMemoryLimitBytes input) as [c|]; cbn in *;
      try (destruct (Hm m eq_refl)); lia.
Qed.

(** The memory of an App's containers that do not run, which a request that
    starts new ones beside those that run does not check there is room for. *)
Definition unchecked (surge : bool) (containers : list AppContainer) : Z :=
  if surge then Z.max 0 (mem (List.filter (negb ∘ snd) containers).*1) else 0.

Lemma containers_split containers :
  mem containers.*1 = mem (List.filter snd containers).*1 + mem (List.filter (negb ∘ snd) containers).*1.
Proof.
  unfold compose. induction containers as [|[l running] cs IH]; [done|].
  destruct running; cbn [List.filter snd negb]; rewrite !fmap_cons, !sumLimit_cons, IH; cbn [fst]; lia.
Qed.

Lemma without_disk_sum l : mem (without_disk <$> l) = mem l.
Proof. induction l as [|x l IH]; [done|]. rewrite fmap_cons, !sumLimit_cons, IH. done. Qed.

(** An App's containers count for what they are limited to. *)
Lemma app_fits node appId services containers may_surge A surge t A' : named_kinds A → 0 <= own "app" appId A →
  mem containers.*1 <= own "app" appId A →
  reserving node appId services containers may_surge A = Ok (surge, (t, A')) →
  named_kinds A' ∧ assigned A' <= Z.max (assignable node) (assigned A) + unchecked surge containers.
Proof.
  intros HA Hown Hcur H. unfold reserving in H.
  destruct (assertLimitsFit _ _ _ [] _ _) as [[]|] eqn:Hf; [|done].
  set (surges := _ && _) in H. set (held := if surges then _ else _) in H.
  assert (surge = surges ∧ A' = (reserve "app" appId held A).2) as [-> ->] by (by injection H as <- <- <-).
  split; [by apply named_reserve|]. rewrite assigned_reserve by done. rewrite (assigned_split "app" appId A) by done. clear H.
  assert (mem [] = 0) as Hnil by done. pose proof (containers_split containers) as Hsplit.
  unfold held. clear held. destruct surges eqn:Hs; cbn [unchecked].
  - cbn [memoryBytes]. unfold surges in Hs. apply andb_true_iff in Hs as [_ Hs].
    destruct (assertLimitsFit _ _ _ _ None _) as [[]|] eqn:Hf2; [|done].
    unfold assertLimitsFit in Hf2. apply services_fit_memory in Hf2. rewrite sumLimit_app, without_disk_sum in Hf2.
    pose proof (combine_memory_sum containers.*1) as Hc. pose proof (combine_memory_sum services) as Hr.
    cbn [combinedLimits memoryBytes].
    destruct (combine_memory containers.*1), (combine_memory services); cbn in Hc, Hr |- *; lia.
  - cbn [widestResourceLimits combinedLimits memoryBytes]. unfold assertLimitsFit in Hf. cbn [combinedLimits memoryBytes] in Hf.
    rewrite fmap_nil, app_nil_r in Hf. pose proof (combine_memory_sum containers.*1) as Hc. pose proof (combine_memory_sum services) as Hr.
    destruct (combine_memory containers.*1) as [c|], (combine_memory services) as [r|]; cbn in *.
    + destruct (r <=? c) eqn:E; [apply Z.leb_le in E; lia|]. apply Z.leb_gt in E. apply services_fit_memory in Hf. lia.
    + lia.
    + apply services_fit_memory in Hf. lia.
    + lia.
Qed.

(** What the node goes through: requests that are accepted, each with the
    allocations lane to itself, and an instance that settles: what it held is
    let go and its source says no more than it counted for. A change comes
    with the memory it reserved and did not check. *)
Inductive change (node : Node) : Z → ResourceAllocations → ResourceAllocations → Prop :=
  | server_change A used input t A' :
      0 <= own "server" (q_id input) A → honest A input →
      reserveAllocation node used input A = Ok (t, A') → change node 0 A A'
  | app_change A appId services containers may_surge surge t A' :
      0 <= own "app" appId A → mem containers.*1 <= own "app" appId A →
      reserving node appId services containers may_surge A = Ok (surge, (t, A')) →
      change node (unchecked surge containers) A A'
  | settled A kind id A' :
      named kind = true → named_kinds A' → others kind id A' = others kind id A → own kind id A' <= own kind id A →
      change node 0 A A'.

Inductive changes (node : Node) : Z → ResourceAllocations → ResourceAllocations → Prop :=
  | changes_none A : changes node 0 A A
  | changes_next A A' A'' over over' : change node over A A' → changes node over' A' A'' → changes node (over + over') A A''.

Lemma change_fits node over A A' : named_kinds A → change node over A A' →
  named_kinds A' ∧ 0 <= over ∧ assigned A' <= Z.max (assignable node) (assigned A) + over.
Proof.
  intros HA H. revert HA. destruct H as [A1 used input t A2 Ho Hh H|A1 app services cs surge_ok surge t A2 Ho Hm H|A1 kind id A2 Hk HA2 Hot Hle]; intros HA.
  - rewrite Z.add_0_r. destruct (server_fits _ _ _ _ _ _ HA Ho Hh H). by split.
  - destruct (app_fits _ _ _ _ _ _ _ _ _ HA Ho Hm H). split; [done|]. split; [unfold unchecked; destruct surge; lia|done].
  - split; [done|]. split; [done|]. rewrite !(assigned_split kind id) by done. rewrite Hot. lia.
Qed.

(** C33: Memory is not promised twice, but for one kind of request. Whatever
    requests of game servers and Apps a node accepts, in any order, with
    instances settling in between, the memory assigned to all instances
    together, counting what those being replaced hold, never comes to more
    than the node may assign, or than was assigned already, beyond the memory
    of the stopped containers of the Apps that start new ones beside those
    they run: those hold all of it, having checked what runs and what is new
    ([stopped_containers_overcommit]). Where no such App has stopped
    containers, nothing is promised twice. An App's containers, and the memory
    a game server says it has, count for no more than is assigned to it. *)
Theorem memory_never_overcommitted node over A A' :
  named_kinds A → changes node over A A' → 0 <= over ∧ assigned A' <= Z.max (assignable node) (assigned A) + over.
Proof.
  intros HA H. revert HA. induction H as [A|A1 A2 A3 over over' H _ IH]; intros HA; [lia|].
  destruct (change_fits _ _ _ _ HA H) as (HA2 & Hover & Hle). specialize (IH HA2). lia.
Qed.

(** ** Limits a container keeps *)

(** A container's limits read back as they were set. Whatever limits the
    schema takes, and whatever the fallback, the memory, CPU and disk limits
    read from a container recreated with them are those limits; and it has no
    swap, nor a reservation above its memory. *)
Theorem limits_read_back limits reservation fallback :
  resourceLimits_valid limits = true →
  let host := containerLimitHostConfig limits reservation in
  containerResourceLimits (resourceLimitLabels limits) (Some host) fallback = limits ∧
  MemorySwap host = Memory host ∧
  (∀ r, MemoryReservation host = Some r → ∃ m, Memory host = Some m ∧ r <= m).
Proof.
  intros [[Hc Hd]%andb_true_iff Hm]%andb_true_iff host. split; [|split; [done|]].
  - unfold containerResourceLimits, host, containerLimitHostConfig, resourceLimitLabels. cbn [mbind option_bind Memory NanoCpus].
    rewrite lookup_singleton_eq. destruct limits as [cpu disk memory]; cbn [cpuMillis diskBytes memoryBytes] in *. f_equal.
    + destruct cpu as [n|]; [|done]. apply (limit_field_spec _ _ n) in Hc; [|done]. change MINIMUM_CPU_LIMIT_MILLIS with 100 in Hc.
      cbn. rewrite round_div_mul. change NANO_CPUS_PER_MILLI with 1000000.
      by assert ((0 <? n * 1000000) = true) as -> by (apply Z.ltb_lt; lia).
    + destruct disk as [n|]; [|done]. apply (limit_field_spec _ _ n) in Hd; [|done].
      change MINIMUM_INSTANCE_DISK_LIMIT_BYTES with 107374182 in Hd.
      destruct (print_int_label n) as (Hdig & Hne & Hread & Hnone); [lia|].
      unfold diskLimitLabel.
      rewrite (bool_decide_false _ Hnone), (bool_decide_false _ Hne), Hdig, Hread. cbn [negb orb].
      by rewrite (proj2 (Z.leb_le _ _)), (proj2 (Z.ltb_lt 0 n)) by lia.
    + destruct memory as [n|]; [|done]. apply (limit_field_spec _ _ n) in Hm; [|done].
      change MINIMUM_MEMORY_LIMIT_BYTES with 67108864 in Hm. cbn. by rewrite (proj2 (Z.ltb_lt 0 n)) by lia.
  - intros r. unfold host, containerLimitHostConfig. cbn. destruct reservation as [r0|], (memoryBytes limits) as [m|]; try done.
    intros [= <-]. exists m. split; [done|]. cbn. lia.
Qed.

Lemma wholeMebibytes_le n : wholeMebibytes n <= n < wholeMebibytes n + MEBIBYTE.
Proof. unfold wholeMebibytes. change MEBIBYTE with 1048576. pose proof (Z.div_mod n 1048576). pose proof (Z.mod_pos_bound n 1048576). lia. Qed.

Lemma mebibytesAbove_ge n : n <= mebibytesAbove n.
Proof. unfold mebibytesAbove. pose proof (wholeMebibytes_le (- n)). unfold wholeMebibytes in H. lia. Qed.

(** The limit on all workloads is only ever raised, and leaves room for all
    the memory that is assigned, to the mebibyte, as far as there is any. *)
Lemma slice_limit_covers totalmem assignable A state placed limit :
  slice_limit totalmem assignable A state placed = Some limit →
  Z.min totalmem (assigned A) < limit + MEBIBYTE ∧ ∀ before, limitBytes state = Some before → before <= limit.
Proof.
  unfold slice_limit. destruct (_ <=? _); [done|]. fold (assigned A). intros [= <-].
  pose proof (wholeMebibytes_le (Z.min totalmem (Z.max assignable (assigned A)))) as Hw. change MEBIBYTE with 1048576 in *.
  destruct (limitBytes state) as [before|].
  - pose proof (mebibytesAbove_ge before). split; [lia|]. intros b [= <-]. lia.
  - split; [|done]. destruct (_ || _); [pose proof (mebibytesAbove_ge totalmem)|]; lia.
Qed.

(** ** A node that fills up *)

Definition GIB : Z := 1024 ^ 3.

Definition sample_node : Node := MkNode 8 (4 * GIB) (100 * GIB).

Definition of_memory (n : Z) : ResourceLimits := MkResourceLimits None None (Some n).

Definition sample_allocations : ResourceAllocations :=
  MkAllocations [("server", [MkAllocation "s" (of_memory GIB)]); ("app", [MkAllocation "a" (of_memory (2 * GIB))])] [] 0.

Definition sample_request : AllocationRequest :=
  MkRequest true None (Some GIB) "s" (of_memory (2 * GIB)) (Some (widestResourceLimits (of_memory GIB) (of_memory (2 * GIB)))).

Lemma sample_named : named_kinds sample_allocations.
Proof.
  split; [|by intros r Hr; in_nil Hr].
  intros s Hs. apply elem_of_cons in Hs as [->|Hs]; [reflexivity|]. apply list_elem_of_singleton in Hs as ->. reflexivity.
Qed.

Example memory_never_overcommitted_witness :
  ∃ A, changes sample_node 0 sample_allocations A ∧ assigned A = 4 * GIB ∧ assigned A <= 4 * GIB.
Proof.
  set (A := (reserve "server" "s" (of_memory (2 * GIB)) sample_allocations).2). exists A.
  assert (changes sample_node 0 sample_allocations A) as H.
  { apply (changes_next sample_node _ A A 0 0); [|constructor]. apply (server_change sample_node sample_allocations 0 sample_request 0).
    - vm_compute. discriminate.
    - split; [vm_compute; discriminate|]. right. exists (of_memory GIB). split; reflexivity.
    - vm_compute. reflexivity. }
  split; [exact H|]. split; [vm_compute; reflexivity|].
  exact (proj2 (memory_never_overcommitted sample_node 0 sample_allocations A sample_named H)).
Defined.

(** A node of 4 GiB, all its own: an App runs 1 GiB, has 2 GiB stopped, and
    starts 3 GiB beside it. Both checks pass, and 6 GiB are held. *)
Theorem stopped_containers_overcommit :
  let A := MkAllocations [("app", [MkAllocation "a" (of_memory (3 * GIB))])] [] 0 in
  let containers := [(of_memory GIB, true); (of_memory (2 * GIB), false)] in
  ∃ t A', reserving sample_node "a" [of_memory (3 * GIB)] containers true A = Ok (true, (t, A')) ∧
    change sample_node (2 * GIB) A A' ∧ assigned A = 3 * GIB ∧ assigned A' = 6 * GIB ∧ assignable sample_node = 4 * GIB.
Proof.
  intros A containers. assert (∃ t A', reserving sample_node "a" [of_memory (3 * GIB)] containers true A = Ok (true, (t, A')) ∧
    assigned A' = 6 * GIB) as (t & A' & E & H6) by (eexists _, _; split; [reflexivity|vm_compute; reflexivity]).
  exists t, A'. split; [exact E|]. split; [|split; [vm_compute; reflexivity|split; [exact H6|reflexivity]]].
  apply (app_change sample_node A "a" [of_memory (3 * GIB)] containers true true t A'); [vm_compute; discriminate..|exact E].
Qed.

Example limits_read_back_witness :
  containerResourceLimits (resourceLimitLabels (MkResourceLimits (Some 1500) (Some GIB) None))
    (Some (containerLimitHostConfig (MkResourceLimits (Some 1500) (Some GIB) None) None)) None =
  MkResourceLimits (Some 1500) (Some GIB) None.
Proof. apply (limits_read_back (MkResourceLimits (Some 1500) (Some GIB) None) None None). reflexivity. Defined.
