(* ===== verification/Power.v ===== *)
(** * Power of game servers, Apps and databases

    Models [apps/relay/src/power-state.ts]: what a container's state comes to
    for its users, with and without a power action under way; and
    [power-intents.ts] with [resource-power.ts]: the counts by which a
    schedule's power step gives way to a person's change, run in the lanes of
    [Lanes].

    Times are milliseconds; [Date.parse] is a parameter. What a kind does
    around Docker for a power action (its adapter) is outside. *)
From S2P Require Import Prelude Locks Grants Lanes Protocol AppKeys Plans Bytes Utf8 Nbt Decimals.

(** ** What a container's state comes to *)

Inductive InstancePowerAction := Kill | Restart | Start | Stop.

#[global] Instance InstancePowerAction_eq_dec : EqDecision InstancePowerAction.
Proof. solve_decision. Defined.

Record ContainerPowerState := MkState {
  ExitCode : Z;
  Health : option string;
  OOMKilled : bool;
  Restarting : bool;
  IsRunning : bool;
  StartedAt : string;
  Status : string;
}.

Record InstancePowerTransition := MkTransition {
  action : InstancePowerAction;
  commandCompleted : bool;
  initialStartedAt : option string;
  requestedAt : Z;
}.

Inductive RelayObservedState := OFailed | ORunning | OStarting | OStopped | OStopping.

#[global] Instance RelayObservedState_eq_dec : EqDecision RelayObservedState.
Proof. solve_decision. Defined.

Definition INSTANCE_STARTUP_STABILITY_MS : Z := 15000.
Definition INSTANCE_STARTUP_READINESS_TIMEOUT_MS : Z := 120000.

Definition stoppedContainerState (state : ContainerPowerState) : RelayObservedState :=
  if OOMKilled state then OFailed
  else if bool_decide (ExitCode state = 0%Z) || bool_decide (ExitCode state = 143%Z) then OStopped else OFailed.

Section Observed.
(** [Date.parse], where it is finite. *)
Context (parse_date : string → option Z).

Definition is_restarting (state : ContainerPowerState) : bool := Restarting state || bool_decide (Status state = "restarting").

Definition has_health (state : ContainerPowerState) (status : string) : bool := bool_decide (Health state = Some status).

Definition observedContainerState (state : ContainerPowerState) (now : Z) (ready : option bool) : RelayObservedState :=
  if is_restarting state then OStarting
  else if IsRunning state then
    if bool_decide (ready = Some true) || has_health state "healthy" then ORunning
    else if has_health state "unhealthy" then OFailed
    else if has_health state "starting" then OStarting
    else
      let runningFor := match parse_date (StartedAt state) with
                        | Some startedAt => now - startedAt
                        | None => INSTANCE_STARTUP_READINESS_TIMEOUT_MS
                        end%Z in
      if bool_decide (ready = Some false)
      then if (runningFor <? INSTANCE_STARTUP_READINESS_TIMEOUT_MS)%Z then OStarting else ORunning
      else if (runningFor <? INSTANCE_STARTUP_STABILITY_MS)%Z then OStarting else ORunning
  else stoppedContainerState state.

(** A start or a restart under way, past the old container. *)
Definition observed_start (state : ContainerPowerState) (transition : InstancePowerTransition) (now : Z)
    (ready : option bool) : RelayObservedState * bool :=
  if negb (IsRunning state) then
    if commandCompleted transition then (stoppedContainerState state, true) else (OStarting, false)
  else if is_restarting state then (OStarting, false)
  else if bool_decide (ready = Some true) || has_health state "healthy" then (ORunning, true)
  else if has_health state "unhealthy" then (OFailed, true)
  else if has_health state "starting" then (OStarting, false)
  else
    let stableSince := default (requestedAt transition) (parse_date (StartedAt state)) in
    let runningFor := (now - stableSince)%Z in
    if bool_decide (ready = Some false) && (runningFor <? INSTANCE_STARTUP_READINESS_TIMEOUT_MS)%Z
    then (OStarting, false)
    else if (INSTANCE_STARTUP_STABILITY_MS <=? runningFor)%Z then (ORunning, true) else (OStarting, false).

(** The state, and whether the transition is complete. *)
Definition observedInstancePowerState (state : ContainerPowerState) (transition : option InstancePowerTransition)
    (now : Z) (ready : option bool) : RelayObservedState * bool :=
  match transition with
  | None => (observedContainerState state now ready, false)
  | Some transition =>
      match action transition with
      | Stop | Kill => if IsRunning state then (OStopping, false) else (stoppedContainerState state, true)
      | Restart =>
          let replacementStarted := IsRunning state &&
            negb (bool_decide (initialStartedAt transition = Some (StartedAt state))) && negb (bool_decide (StartedAt state = "")) in
          if negb replacementStarted && negb (commandCompleted transition) then (OStopping, false)
          else observed_start state transition now ready
      | Start => observed_start state transition now ready
      end
  end.
End Observed.

(** What a recovery under way says of itself. *)
Record RelayInstanceRecovery := MkRecovery { v_exitCode : option Z; v_phase : string; v_reason : string }.

Inductive RelayInstanceStateReason :=
  | automatic_recovery (exitCode : option Z) (phase reason : string)
  | container_restarting
  | health_check_failed
  | health_check_starting
  | waiting_for_readiness
  | out_of_memory_while_stopping
  | out_of_memory
  | process_exit (exitCode : Z)
  | unknown.

Definition instanceStateReason (state : ContainerPowerState) (observedState : RelayObservedState) (ready : option bool)
    (recovery : option RelayInstanceRecovery) (desired_stopped : bool) : option RelayInstanceStateReason :=
  match recovery with
  | Some recovery => Some (automatic_recovery (v_exitCode recovery) (v_phase recovery) (v_reason recovery))
  | None =>
      if is_restarting state then Some container_restarting
      else if has_health state "unhealthy" then Some health_check_failed
      else if has_health state "starting" then Some health_check_starting
      else if bool_decide (observedState = OStarting) && bool_decide (ready = Some false) then Some waiting_for_readiness
      else if negb (bool_decide (observedState = OFailed)) then None
      else if OOMKilled state then Some (if desired_stopped then out_of_memory_while_stopping else out_of_memory)
      else if negb (bool_decide (ExitCode state = 0%Z)) && negb (bool_decide (ExitCode state = 143%Z))
      then Some (process_exit (ExitCode state))
      else Some unknown
  end.

(** ** Docker's part *)

Definition CONTAINER_STOP_SECONDS : Z := 30.

(** A call of the engine, with its timeout in milliseconds. *)
Inductive EngineCall :=
  | startContainer (timeout : Z)
  | stopContainer (seconds timeout : Z)
  | restartContainer (seconds timeout : Z)
  | killContainer (timeout : Z).

Definition containerPower (action : InstancePowerAction) (stopSeconds : Z) : EngineCall :=
  match action with
  | Start => startContainer 120000
  | Stop => stopContainer stopSeconds ((stopSeconds + 15) * 1000)
  | Restart => restartContainer stopSeconds ((stopSeconds + 120) * 1000)
  | Kill => killContainer ((stopSeconds + 15) * 1000)
  end.

(** ** Intents *)

Definition kind_name (kind : ResourceKind) : string :=
  match kind with KApp => "app" | KDatabase => "database" | KInstance => "instance" end.

Definition power_key (kind : ResourceKind) (id : string) : string := kind_name kind +:+ ":" +:+ id.

Definition action_name (action : InstancePowerAction) : string :=
  match action with Kill => "kill" | Restart => "restart" | Start => "start" | Stop => "stop" end.

(** [PowerIntents.current] *)
Definition current (generations : gmap string Z) (kind : ResourceKind) (id : string) : Z :=
  default 0%Z (generations !! power_key kind id).

Definition advance (generations : gmap string Z) (kind : ResourceKind) (id : string) : gmap string Z :=
  <[power_key kind id := (current generations kind id + 1)%Z]> generations.

(** The intents, the lanes, the replacements counted outside them, and the
    intent each precondition in the lanes compares with. *)
Record ResourcePower := MkPower {
  generations : gmap string Z;
  lanes : Lanes;
  replacements : gmap string Z;
  noted : gmap nat (ResourceKind * string * JsString);
}.

Definition empty_power : ResourcePower := MkPower ∅ empty_lanes ∅ ∅.

Definition replaced (P : ResourcePower) (kind : ResourceKind) (id : string) : Z :=
  default 0%Z (replacements P !! power_key kind id).

(** [join(":")] *)
Definition join3 (a b c : Z) : JsString := print_int a ++ js ":" ++ print_int b ++ js ":" ++ print_int c.

Definition intent (P : ResourcePower) (kind : ResourceKind) (id : string) : JsString :=
  join3 (current (generations P) kind id) (exclusiveGeneration (resourceLaneKey kind id) (lanes P)) (replaced P kind id).

Definition changed (kind : ResourceKind) (id : string) (P : ResourcePower) : ResourcePower :=
  MkPower (advance (generations P) kind id) (lanes P) (replacements P) (noted P).

(** A replacement the lanes do not see. *)
Definition count_replacement (kind : ResourceKind) (id : string) (P : ResourcePower) : ResourcePower :=
  MkPower (generations P) (lanes P) (<[power_key kind id := (replaced P kind id + 1)%Z]> (replacements P)) (noted P).

Definition set_lanes (L : Lanes) (P : ResourcePower) : ResourcePower := MkPower (generations P) L (replacements P) (noted P).

(** What the lanes read outside: who refuses, and whether a step's intent is
    still the one it was given. *)
Definition world (refuse : option (string → list LaneLock → option string)) (P : ResourcePower) : World :=
  MkWorld refuse (λ p, match noted P !! p with
                       | Some (kind, id, intent_then) => bool_decide (intent P kind id = intent_then)
                       | None => true
                       end).

Section Events.
Context (options : LanesOptions) (locks : ResourceKind → string → InstancePowerAction → list LaneLock).

(** The admission [scheduled] makes, once it knows its locks. *)
Definition step_admission (kind : ResourceKind) (id : string) (action : InstancePowerAction) (p : nat) : LaneAdmission :=
  MkAdmission ("schedule." +:+ kind_name kind +:+ ".power") (Known (locks kind id action)) (Some p) false None false.

Inductive PowerEvent :=
  | EvRequested (kind : ResourceKind) (id : string) (action : InstancePowerAction)
  | EvChanged (kind : ResourceKind) (id : string)
  | EvReplaced (kind : ResourceKind) (id : string)
  | EvScheduled (kind : ResourceKind) (id : string) (action : InstancePowerAction) (intent_then : JsString) (p : nat)
  | EvLanes (ev : LaneEvent).

(** What an event does, with the refusals in force then: a precondition is
    new, and the others' operations have none of these. *)
Definition power_event (refuse : option (string → list LaneLock → option string)) (ev : PowerEvent) (P : ResourcePower)
    : option ResourcePower :=
  match ev with
  | EvRequested kind id _ | EvChanged kind id => Some (changed kind id P)
  | EvReplaced kind id => Some (count_replacement kind id P)
  | EvScheduled kind id action intent_then p =>
      if bool_decide (is_Some (noted P !! p)) then None
      else
        let P := MkPower (generations P) (lanes P) (replacements P) (<[p := (kind, id, intent_then)]> (noted P)) in
        Some (set_lanes (admit_waiter options (world refuse P) (step_admission kind id action p) false (lanes P)).2 P)
  | EvLanes ev =>
      match lane_event options (world refuse P) ev (lanes P) with
      | Some L => Some (set_lanes L P)
      | None => None
      end
  end.

Fixpoint power_run (evs : list (option (string → list LaneLock → option string) * PowerEvent)) (P : ResourcePower)
    : option ResourcePower :=
  match evs with
  | [] => Some P
  | (refuse, ev) :: evs => match power_event refuse ev P with Some P => power_run evs P | None => None end
  end.
End Events.
