(* ===== verification/PowerFacts.v ===== *)
(** * Power: a schedule gives way to a person, and a transition ends

    Properties of [Power]: what the lanes grant is checked against its
    precondition at that moment, so a schedule's power step never undoes a
    change made since its occurrence began; and what is observed of a power
    transition agrees with what is observed once it is over, which it always
    is in time. *)
From S2P Require Import Prelude Locks Grants Lanes LanesInv LanesGrant LanesSteps LanesFacts Protocol AppKeys Plans.
From S2P Require Import Bytes Utf8 Nbt Decimals Power.

(** ** What the lanes grant was checked *)

Section Checked.
Context (world : World).

(** Whatever is granted between two states of the lanes has a precondition
    that holds. *)
Definition checked (L L' : Lanes) : Prop :=
  (∀ id w, waiters L !! id = Some w → ∃ w', waiters L' !! id = Some w' ∧ precondition w' = precondition w) ∧
  ∀ id w', waiters L' !! id = Some w' → state w' = Granted →
    (∃ w, waiters L !! id = Some w ∧ state w = Granted) ∨ precondition_holds world w' = true.

Lemma checked_refl L : checked L L.
Proof. split; [intros id w Hw; by exists w|]. intros id w Hw Hs. left. by exists w. Qed.

Lemma checked_trans L1 L2 L3 : checked L1 L2 → checked L2 L3 → checked L1 L3.
Proof.
  intros [H1 G1] [H2 G2]. split.
  - intros id w Hw. destruct (H1 _ _ Hw) as (w2 & Hw2 & E). destruct (H2 _ _ Hw2) as (w3 & ? & E3). exists w3.
    split; [done|congruence].
  - intros id w3 Hw3 Hs. destruct (G2 _ _ Hw3 Hs) as [(w2 & Hw2 & Hs2)|]; [|by right].
    destruct (G1 _ _ Hw2 Hs2) as [?|Hp]; [by left|]. right.
    destruct (H2 _ _ Hw2) as (w3' & Hw3' & E). simplify_eq. unfold precondition_holds in *. by rewrite E.
Qed.

Lemma checked_same L L1 L' : waiters L1 = waiters L' → checked L L1 → checked L L'.
Proof. unfold checked. by intros ->. Qed.

(** A waiter that is changed without being granted. *)
Lemma checked_alter f id L L' : waiters L' = alter f id (waiters L) →
  (∀ w, precondition (f w) = precondition w) → (∀ w, state (f w) = Granted → state w = Granted) → checked L L'.
Proof.
  intros E Hp Hs. split; rewrite E.
  - intros x w Hw. destruct (decide (x = id)) as [->|Hne]; [exists (f w); by rewrite lookup_alter_eq, Hw|].
    exists w. by rewrite lookup_alter_ne.
  - intros x w' Hw' Hg. left. destruct (decide (x = id)) as [->|Hne].
    + rewrite lookup_alter_eq in Hw'. apply fmap_Some in Hw' as (w & Hw & ->). exists w. auto.
    + rewrite lookup_alter_ne in Hw' by done. by exists w'.
Qed.

Lemma remove_waiters id L : waiters (remove id L) = waiters L.
Proof. unfold remove. destruct (waiters L !! id) as [w|]; [|done]. by destruct (nested w). Qed.

Lemma checked_reject id e L L' : waiters L' = waiters (reject id e L) → checked L L'.
Proof. intros E. by eapply (checked_alter (λ w, complete (Failed e) (set_state Done w)) id). Qed.

Lemma checked_start id L : (∀ w, waiters L !! id = Some w → precondition_holds world w = true) → checked L (start id L).
Proof.
  intros Hp. unfold start, update_waiter. split; cbn.
  - intros x w Hw. destruct (decide (x = id)) as [->|Hne]; [|exists w; by rewrite !lookup_alter_ne].
    exists (complete Succeeded (set_state Granted w)). by rewrite !lookup_alter_eq, Hw.
  - intros x w' Hw' Hg. destruct (decide (x = id)) as [->|Hne].
    + right. rewrite !lookup_alter_eq in Hw'. destruct (waiters L !! id) as [w|] eqn:E; [|done].
      injection Hw' as <-. by apply (Hp w).
    + left. rewrite !lookup_alter_ne in Hw' by done. by exists w'.
Qed.

Lemma checked_fold {A} (f : Lanes → A → Lanes) l : (∀ L a, checked L (f L a)) → ∀ L, checked L (fold_left f l L).
Proof.
  intros Hf. induction l as [|a l IH]; intros L; [apply checked_refl|]. cbn. by eapply checked_trans; [apply Hf|].
Qed.

Lemma grant_nested_checked todo : ∀ kept blocked L, checked L (grant_nested world kept todo blocked L).1.
Proof.
  induction todo as [|id rest IH]; intros kept blocked L; [apply checked_refl|]. cbn [grant_nested].
  destruct (waiters L !! id) as [w|] eqn:Hw; [|apply checked_refl].
  destruct (locks w) as [ls|]; [|apply IH]. destruct (existsb _ _); [apply IH|].
  destruct (if continuation w then _ else _) as [message|].
  { eapply checked_trans; [|apply IH]. by eapply checked_reject. }
  destruct (negb (precondition_holds world w)) eqn:Hp.
  { eapply checked_trans; [|apply IH]. by eapply checked_reject. }
  eapply checked_trans; [|apply IH]. eapply checked_trans; [|apply checked_start].
  - eapply checked_same; [|apply checked_refl]. done.
  - cbn. intros w' Hw'. simplify_eq. by apply negb_false_iff in Hp.
Qed.

(** The callback only notes a refusal, and what is selected has its leave. *)
Lemma admit_callback_keeps id heap id' w : heap !! id' = Some w →
  ∃ w', (admit_callback world id heap).2 !! id' = Some w' ∧ precondition w' = precondition w ∧ state w' = state w.
Proof.
  intros Hw. unfold admit_callback. destruct (heap !! id) as [u|] eqn:Hu; [|by exists w].
  destruct (ask_refuse _ _ _) as [m|]; [|by exists w]. cbn. destruct (decide (id' = id)) as [->|Hne].
  - exists (set_refused m w). by rewrite lookup_alter_eq, Hw.
  - exists w. by rewrite lookup_alter_ne.
Qed.

Lemma admit_callback_none id heap id' : heap !! id' = None → (admit_callback world id heap).2 !! id' = None.
Proof.
  intros Hw. unfold admit_callback. destruct (heap !! id) as [u|] eqn:Hu; [|done].
  destruct (ask_refuse _ _ _) as [m|]; [|done]. cbn. destruct (decide (id' = id)) as [->|Hne]; [congruence|].
  by rewrite lookup_alter_ne.
Qed.

Lemma admit_callback_true id heap w : (admit_callback world id heap).1 = true → heap !! id = Some w →
  precondition_holds world w = true.
Proof. unfold admit_callback. intros H Hw. rewrite Hw in H. by destruct (ask_refuse _ _ _). Qed.

(** A heap that differs in refusals alone. *)
Definition same_waiters (heap heap' : gmap nat Waiter) : Prop :=
  (∀ id w, heap !! id = Some w → ∃ w', heap' !! id = Some w' ∧ precondition w' = precondition w ∧ state w' = state w) ∧
  ∀ id, heap !! id = None → heap' !! id = None.

Lemma same_waiters_trans h1 h2 h3 : same_waiters h1 h2 → same_waiters h2 h3 → same_waiters h1 h3.
Proof.
  intros [H1 N1] [H2 N2]. split; [|auto]. intros id w Hw. destruct (H1 _ _ Hw) as (w2 & Hw2 & ? & ?).
  destruct (H2 _ _ Hw2) as (w3 & ? & ? & ?). exists w3. split; [done|]. split; congruence.
Qed.

Lemma select_loop_checked l : ∀ held blocked heap sel held' heap',
  select_loop (Some (admit_callback world)) waiter_locks l held blocked heap = (sel, held', heap') →
  same_waiters heap heap' ∧ ∀ id w, id ∈ granted sel → heap !! id = Some w → precondition_holds world w = true.
Proof.
  induction l as [|x l IH]; intros held blocked heap sel held' heap' H; cbn in H.
  - injection H as <- <- <-. split; [split; [intros id w Hw; by exists w|done]|]. intros id w Hin. in_nil Hin.
  - destruct (waiter_locks heap x) as [ls|]; [|injection H as <- <- <-; split; [split; [intros id w Hw; by exists w|done]|]; intros id w Hin; in_nil Hin].
    destruct (negb (forallb _ _)); [by eapply IH|].
    destruct (admit_callback world x heap) as [admitted heap1] eqn:Ha.
    assert (same_waiters heap heap1) as Hsame.
    { replace heap1 with (admit_callback world x heap).2 by by rewrite Ha.
      split; [intros; by apply admit_callback_keeps|intros; by apply admit_callback_none]. }
    assert (∀ sel1, (∀ id w, id ∈ granted sel1 → heap1 !! id = Some w → precondition_holds world w = true) →
      ∀ id w, id ∈ granted sel1 → heap !! id = Some w → precondition_holds world w = true) as Hback.
    { intros sel1 Hs id w Hin Hw. destruct (proj1 Hsame _ _ Hw) as (w1 & Hw1 & E & _).
      specialize (Hs _ _ Hin Hw1). unfold precondition_holds in *. by rewrite <-E. }
    destruct (negb admitted) eqn:Hadm.
    + destruct (select_loop _ _ l held blocked heap1) as [[sel1 held1] heap2] eqn:Hl. injection H as <- <- <-.
      destruct (IH _ _ _ _ _ _ Hl) as [Hsame2 Hg]. split; [by eapply same_waiters_trans|]. by apply Hback.
    + destruct (select_loop _ _ l (take_locks held ls) blocked heap1) as [[sel1 held1] heap2] eqn:Hl. injection H as <- <- <-.
      destruct (IH _ _ _ _ _ _ Hl) as [Hsame2 Hg]. split; [by eapply same_waiters_trans|].
      intros id w Hin Hw. cbn in Hin. apply elem_of_cons in Hin as [->|Hin]; [|by eapply Hback].
      apply negb_false_iff in Hadm. subst admitted. eapply (admit_callback_true x heap); [by rewrite Ha|done].
Qed.

Lemma grant_checked L : checked L (grant world L).
Proof.
  unfold grant. pose proof (grant_nested_checked (nested_queue L) [] ∅ L) as Hn.
  destruct (grant_nested _ _ _ _ _) as [L1 blocked]. cbn in Hn.
  destruct (selectGrants _ _ _ _ _ _) as [[sel held'] heap] eqn:Hsel. unfold selectGrants in Hsel.
  destruct (select_loop_checked _ _ _ _ _ _ _ Hsel) as [[Hsame Hnone] Hg].
  eapply checked_trans; [exact Hn|]. clear Hn. set (L2 := set_waiters heap (set_held held' L1)).
  assert (checked L1 L2) as H12.
  { split; [intros id w Hw; destruct (Hsame _ _ Hw) as (w' & ? & ? & _); by exists w'|].
    intros id w' Hw' Hs. left. destruct (waiters L1 !! id) as [w|] eqn:E.
    - destruct (Hsame _ _ E) as (w2 & Hw2 & _ & Hst). cbn in Hw'. exists w. split; [done|congruence].
    - apply Hnone in E. cbn in Hw'. congruence. }
  eapply checked_trans; [exact H12|].
  set (L3 := fold_left (λ L id, remove id L) (granted sel ++ dropped sel) L2).
  assert (waiters L3 = heap) as H3.
  { unfold L3. change heap with (waiters L2). generalize L2, (granted sel ++ dropped sel). intros L0 l. revert L0.
    induction l as [|a l IH]; intros L0; [done|]. cbn. by rewrite IH, remove_waiters. }
  assert (∀ id w, id ∈ granted sel → waiters L3 !! id = Some w → precondition_holds world w = true) as Hg3.
  { intros id w Hin Hw. rewrite H3 in Hw. destruct (waiters L1 !! id) as [w1|] eqn:E; [|apply Hnone in E; congruence].
    destruct (Hsame _ _ E) as (w2 & Hw2 & Hp & _). assert (w2 = w) as -> by congruence.
    specialize (Hg id w1 Hin E). unfold precondition_holds in *. by rewrite Hp. }
  eapply checked_trans; [by eapply checked_same; [|apply checked_refl]; symmetry|].
  assert (∀ l L0, (∀ id w, id ∈ granted sel → waiters L0 !! id = Some w → precondition_holds world w = true) →
    checked L0 (fold_left reject_dropped l L0) ∧
    ∀ id w, id ∈ granted sel → waiters (fold_left reject_dropped l L0) !! id = Some w → precondition_holds world w = true) as Hdrop.
  { intros l. induction l as [|a l IH]; intros L0 H0; cbn; [split; [apply checked_refl|done]|].
    assert (checked L0 (reject_dropped L0 a)) as Hc.
    { unfold reject_dropped. destruct (waiters L0 !! a); [by eapply checked_reject|apply checked_refl]. }
    assert (∀ id w, id ∈ granted sel → waiters (reject_dropped L0 a) !! id = Some w → precondition_holds world w = true) as H1.
    { intros id w Hin Hw. unfold reject_dropped in Hw. destruct (waiters L0 !! a) eqn:Ea; [|by eapply H0].
      unfold reject, update_waiter in Hw. cbn in Hw. destruct (decide (id = a)) as [->|Hne].
      - rewrite lookup_alter_eq, Ea in Hw. injection Hw as <-. by apply (H0 a w0).
      - rewrite lookup_alter_ne in Hw by done. by eapply H0. }
    destruct (IH _ H1) as [Hc2 H2]. split; [by eapply checked_trans|done]. }
  destruct (Hdrop (dropped sel) L3 Hg3) as [Hc4 Hg4]. eapply checked_trans; [exact Hc4|].
  revert Hg4. generalize (fold_left reject_dropped (dropped sel) L3). generalize (granted sel). clear.
  induction l as [|a l IH]; intros L Hg; cbn; [apply checked_refl|].
  eapply checked_trans; [apply checked_start; intros w Hw; by apply (Hg a w); [left|]|].
  apply IH. intros id w Hin Hw. unfold start, update_waiter in Hw. cbn in Hw. destruct (decide (id = a)) as [->|Hne].
  - rewrite !lookup_alter_eq in Hw. destruct (waiters L !! a) as [u|] eqn:E; [|done]. injection Hw as <-. by apply (Hg a u); [left|].
  - rewrite !lookup_alter_ne in Hw by done. apply (Hg id w); [by right|done].
Qed.
Lemma checked_settle id c L L' : waiters L' = waiters (update_waiter (λ w, complete c (set_state Done w)) id L) → checked L L'.
Proof. intros E. by eapply (checked_alter (λ w, complete c (set_state Done w)) id). Qed.

Lemma release_checked id L : checked L (release world id L).
Proof.
  unfold release. destruct (waiters L !! id) as [w|]; [|apply checked_refl]. case_decide; [apply checked_refl|].
  eapply checked_trans; [|apply grant_checked]. by eapply (checked_alter (set_state Done) id).
Qed.

Lemma cancel_checked id L : checked L (cancel world id L).2.
Proof.
  unfold cancel. destruct (waiters L !! id) as [w|]; [|apply checked_refl].
  destruct (state w); cbn; try apply checked_refl; [apply release_checked|].
  eapply checked_trans; [|apply grant_checked]. eapply checked_settle. cbn. by rewrite remove_waiters.
Qed.

(** A newcomer is waiting. *)
Lemma checked_newcomer w id L L' : waiters L !! id = None → state w = Waiting → waiters L' = <[id := w]> (waiters L) → checked L L'.
Proof.
  intros Hn Hs E. split; rewrite E.
  - intros x u Hu. exists u. rewrite lookup_insert_ne by congruence. done.
  - intros x u Hu Hg. left. destruct (decide (x = id)) as [->|Hne]; [rewrite lookup_insert_eq in Hu; congruence|].
    rewrite lookup_insert_ne in Hu by done. by exists u.
Qed.

Lemma join_queue_checked admission id w L : checked L (join_queue admission id w L).
Proof.
  unfold join_queue. destruct (a_locks admission), (nested w);
    (by eapply (checked_alter (set_locks _) id)) || (eapply checked_same; [|apply checked_refl]; done).
Qed.

Lemma admit_checked options admission inside L : waiters L !! next L = None →
  checked L (admit_waiter options world admission inside L).2.
Proof.
  intros Hn. unfold admit_waiter. cbn [snd]. set (w := new_waiter admission inside).
  set (L1 := MkLanes _ _ _ _ _ _ _ _).
  assert (checked L L1) as H1 by (by eapply (checked_newcomer w (next L))).
  eapply checked_trans; [exact H1|]. clear H1.
  destruct (_ && _); [by eapply checked_reject|]. destruct (_ && _); [by eapply checked_reject|].
  assert (checked L1 (grant world (join_queue admission (next L) w L1))) as H2.
  { eapply checked_trans; [apply join_queue_checked|apply grant_checked]. }
  destruct (a_whenBusy admission) as [choice|]; [|exact H2]. destruct (has_state _ _ _); [|exact H2].
  destruct (refuses_busy _ _); [|exact H2]. eapply checked_trans; [exact H2|]. unfold refuseBusy.
  eapply checked_settle. unfold reject. cbn. by rewrite remove_waiters.
Qed.

Lemma lookup_checked id result L : checked L (lookup_settled world id result L).
Proof.
  unfold lookup_settled. destruct (has_state _ _ _); [|apply checked_refl].
  destruct result; (eapply checked_trans; [|apply grant_checked]).
  - by eapply (checked_alter (set_locks _) id).
  - eapply checked_settle. cbn. by rewrite remove_waiters.
Qed.

Lemma begins_checked id L : checked L (run_begins id L).2.
Proof.
  unfold run_begins. destruct (waiters L !! id) as [w|]; [|apply checked_refl]. case_decide; [|apply checked_refl].
  by eapply (checked_alter (set_state Running) id).
Qed.

Lemma pause_active_checked options fuel : ∀ visited L, checked L (pause_active options world fuel visited L).
Proof.
  induction fuel as [|fuel IH]; intros visited L; cbn [pause_active]; [apply checked_refl|].
  destruct (List.find _ _) as [id|]; [|apply checked_refl]. destruct (waiters L !! id) as [w|]; [|apply IH].
  destruct (exempt_from_pause w); [apply IH|]. eapply checked_trans; [|apply IH].
  eapply checked_trans; [|apply release_checked]. by eapply (checked_alter (set_refusal _) id).
Qed.

Lemma set_paused_checked options p L : checked L (setPaused options world p L).
Proof.
  unfold setPaused. destruct (negb p); [eapply checked_same; [|apply checked_refl]; done|].
  eapply checked_trans; [|apply grant_checked]. eapply checked_trans; [|apply pause_active_checked].
  eapply checked_trans; [eapply (checked_same _ _ (set_paused p L)); [|apply checked_refl]; done|].
  apply checked_fold. intros L0 id. unfold withdraw_paused. destruct (waiters L0 !! id) as [w|]; [|apply checked_refl].
  eapply checked_settle. cbn. by rewrite remove_waiters.
Qed.

Lemma event_checked options ev L L' : inv L → lane_event options world ev L = Some L' → checked L L'.
Proof.
  intros HL H. destruct ev as [admission inside|id result|id|id|id|p]; cbn in H.
  - injection H as <-. by apply admit_checked, inv_fresh_none.
  - destruct (waiters L !! id) as [w|]; [|done]. assert (L' = lookup_settled world id result L) as ->
      by (by destruct (state w), (locks w); simplify_eq). apply lookup_checked.
  - destruct (await_grant id L) as [[]|]; try done. injection H as <-. apply begins_checked.
  - destruct (has_state _ _ _); [|done]. injection H as <-. apply release_checked.
  - injection H as <-. apply cancel_checked.
  - injection H as <-. apply set_paused_checked.
Qed.
End Checked.

(** ** Intents only move on *)

Lemma count_starts_le ls : ∀ starts k, (default 0 (starts !! k) <= default 0 (count_starts starts ls !! k))%Z.
Proof.
  unfold count_starts. induction ls as [|l ls IH]; intros starts k; cbn; [lia|].
  etrans; [|apply IH]. destruct (mode l); [|lia]. destruct (decide (k = key l)) as [->|Hne].
  - rewrite lookup_insert_eq. cbn. lia.
  - by rewrite lookup_insert_ne.
Qed.

Lemma micro_generation L L' k : micro L L' → (exclusiveGeneration k L <= exclusiveGeneration k L')%Z.
Proof.
  assert (∀ id L, exclusiveStarts (remove id L) = exclusiveStarts L) as Hr by (intros; apply remove_fields).
  unfold exclusiveGeneration. destruct 1; cbn; rewrite ?Hr; try lia.
  all: try apply count_starts_le.
  unfold push. destruct (nested w); cbn; lia.
Qed.

Lemma micros_generation L L' k : rtc micro L L' → (exclusiveGeneration k L <= exclusiveGeneration k L')%Z.
Proof. induction 1 as [|L1 L2 L3 H _ IH]; [lia|]. pose proof (micro_generation _ _ k H). lia. Qed.

Lemma power_key_inj k k' i i' : power_key k i = power_key k' i' → k = k' ∧ i = i'.
Proof. by destruct k, k'; intros [= ->]. Qed.

Lemma join3_inj a b c a' b' c' : (0 <= a)%Z → (0 <= b)%Z → (0 <= c)%Z → (0 <= a')%Z → (0 <= b')%Z → (0 <= c')%Z →
  join3 a b c = join3 a' b' c' → a = a' ∧ b = b' ∧ c = c'.
Proof.
  assert (∀ n, (0 <= n)%Z → print_int n = digits n) as Hp.
  { intros n H. unfold print_int. by rewrite (proj2 (Z.ltb_ge n 0)) by lia. }
  assert (∀ m n us vs, (0 <= m)%Z → (0 <= n)%Z → digits m ++ js ":" ++ us = digits n ++ js ":" ++ vs → m = n ∧ us = vs) as Hsep.
  { intros m n us vs Hm Hn E. apply (f_equal (span is_digit)) in E.
    rewrite !span_app in E by (done || (apply digits_are_digits; lia)). injection E as E1 E2.
    split; [|done]. rewrite <-(read_digits_digits m), <-(read_digits_digits n) by done. by rewrite E1. }
  intros Ha Hb Hc Ha' Hb' Hc'. unfold join3. rewrite !Hp by done. intros E.
  apply Hsep in E as [-> E]; [|done..]. apply Hsep in E as [-> E]; [|done..]. do 2 (split; [done|]).
  by rewrite <-(read_digits_digits c), <-(read_digits_digits c'), E by done.
Qed.

(** ** Schedules and people *)

(** A change that a schedule's later power steps give way to. *)
Definition changes_power (kind : ResourceKind) (id : string) (ev : PowerEvent) : Prop :=
  match ev with
  | EvRequested k i _ | EvChanged k i | EvReplaced k i => k = kind ∧ i = id
  | _ => False
  end.

Section Schedules.
Context (options : LanesOptions) (locks : ResourceKind → string → InstancePowerAction → list LaneLock).

Notation power_event := (power_event options locks).
Notation power_run := (power_run options locks).

Record power_ok (P : ResourcePower) : Prop := MkPowerOk {
  ok_lanes : good options (lanes P);
  ok_generations k : (0 <= default 0 (generations P !! k))%Z;
  ok_starts k : (0 <= exclusiveGeneration k (lanes P))%Z;
  ok_replacements k : (0 <= default 0 (replacements P !! k))%Z;
}.

(** No count goes back, and what was noted stays. *)
Definition moved_on (P P' : ResourcePower) : Prop :=
  (∀ k, default 0 (generations P !! k) <= default 0 (generations P' !! k))%Z ∧
  (∀ k, exclusiveGeneration k (lanes P) <= exclusiveGeneration k (lanes P'))%Z ∧
  (∀ k, default 0 (replacements P !! k) <= default 0 (replacements P' !! k))%Z.

Lemma moved_on_refl P : moved_on P P.
Proof. repeat split; intros; lia. Qed.

Lemma moved_on_trans P1 P2 P3 : moved_on P1 P2 → moved_on P2 P3 → moved_on P1 P3.
Proof. intros (A1 & B1 & C1) (A2 & B2 & C2). repeat split; intros k; etrans; eauto. Qed.

Lemma count_up_le (m : gmap string Z) key k : (default 0 (m !! k) <= default 0 (<[key := (default 0 (m !! key) + 1)%Z]> m !! k))%Z.
Proof. destruct (decide (key = k)) as [->|Hne]; [rewrite lookup_insert_eq; cbn; lia|by rewrite lookup_insert_ne]. Qed.

Lemma count_up_lt (m : gmap string Z) key : (default 0 (m !! key) < default 0 (<[key := (default 0 (m !! key) + 1)%Z]> m !! key))%Z.
Proof. rewrite lookup_insert_eq. cbn. lia. Qed.

Lemma power_ok_moved P P' : power_ok P → moved_on P P' → good options (lanes P') → power_ok P'.
Proof.
  intros [HL Hg Hs Hr] (A & B & C) HL'. split; [done|intros k..];
    [specialize (A k); specialize (Hg k)|specialize (B k); specialize (Hs k)|specialize (C k); specialize (Hr k)]; lia.
Qed.

(** What a lane event does is an event of lanes that stay good. *)
Lemma lanes_move P L ev refuse : power_ok P → lane_event options (world refuse P) ev (lanes P) = Some L →
  good options L ∧ ∀ k, (exclusiveGeneration k (lanes P) <= exclusiveGeneration k L)%Z.
Proof.
  intros HP H. destruct (event_good _ _ _ _ _ (ok_lanes _ HP) H) as [Hm Hg]. split; [done|].
  intros k. by apply micros_generation.
Qed.

Lemma power_event_moves refuse ev P P' : power_ok P → power_event refuse ev P = Some P' →
  power_ok P' ∧ moved_on P P' ∧
  ∀ kind id, changes_power kind id ev →
    (current (generations P) kind id < current (generations P') kind id)%Z ∨ (replaced P kind id < replaced P' kind id)%Z.
Proof.
  intros HP H.
  assert (∀ Q, moved_on P Q → lanes Q = lanes P → power_ok Q) as Hsame.
  { intros Q Hm E. eapply power_ok_moved; [done..|]. rewrite E. apply HP. }
  assert (∀ kind id, moved_on P (changed kind id P) ∧
    (current (generations P) kind id < current (generations (changed kind id P)) kind id)%Z) as Hchanged.
  { intros kind id. split.
    - split; [|split; intros; cbn; lia]. intros k. apply count_up_le.
    - apply count_up_lt. }
  destruct ev as [kind id action|kind id|kind id|kind id action t p|ev]; cbn in H.
  - injection H as <-. destruct (Hchanged kind id). split; [by apply Hsame|]. split; [done|]. intros ? ? [-> ->]. by left.
  - injection H as <-. destruct (Hchanged kind id). split; [by apply Hsame|]. split; [done|]. intros ? ? [-> ->]. by left.
  - injection H as <-. assert (moved_on P (count_replacement kind id P)) as Hm.
    { split; [intros; cbn; lia|]. split; [intros; cbn; lia|]. intros k. apply count_up_le. }
    split; [by apply Hsame|]. split; [done|]. intros ? ? [<- <-]. right. apply count_up_lt.
  - destruct (bool_decide _); [done|]. injection H as <-.
    set (P1 := MkPower (generations P) (lanes P) (replacements P) (<[p := (kind, id, t)]> (noted P))).
    assert (power_ok P1) as HP1 by (by destruct HP).
    destruct (lanes_move P1 _ (EvAdmit (step_admission locks kind id action p) false) refuse HP1 eq_refl) as [Hg Hgen].
    assert (moved_on P (set_lanes (admit_waiter options (world refuse P1) (step_admission locks kind id action p) false (lanes P)).2 P1)) as Hm.
    { split; [intros; cbn; lia|]. split; [apply Hgen|intros; cbn; lia]. }
    split; [by eapply power_ok_moved|]. split; [done|]. intros ? ? [].
  - destruct (lane_event _ _ _ _) as [L|] eqn:E; [|done]. injection H as <-.
    destruct (lanes_move _ _ _ _ HP E) as [Hg Hgen].
    assert (moved_on P (set_lanes L P)) as Hm by (split; [intros; cbn; lia|]; split; [apply Hgen|intros; cbn; lia]).
    split; [by eapply power_ok_moved|]. split; [done|]. intros ? ? [].
Qed.

Lemma power_run_moves evs : ∀ P P', power_ok P → power_run evs P = Some P' →
  power_ok P' ∧ moved_on P P' ∧
  ∀ kind id refuse ev, (refuse, ev) ∈ evs → changes_power kind id ev →
    (current (generations P) kind id < current (generations P') kind id)%Z ∨ (replaced P kind id < replaced P' kind id)%Z.
Proof.
  induction evs as [|[refuse ev] evs IH]; intros P P' HP H; cbn in H.
  - injection H as <-. split; [done|]. split; [apply moved_on_refl|]. intros ???? Hin. in_nil Hin.
  - destruct (power_event refuse ev P) as [P1|] eqn:E; [|done].
    destruct (power_event_moves _ _ _ _ HP E) as (HP1 & Hm & Hc). destruct (IH _ _ HP1 H) as (HP' & Hm' & Hc').
    split; [done|]. split; [by eapply moved_on_trans|].
    destruct Hm as (A & B & C), Hm' as (A' & B' & C'). intros kind id r e Hin He.
    specialize (A (power_key kind id)); specialize (A' (power_key kind id)).
    specialize (C (power_key kind id)); specialize (C' (power_key kind id)). unfold current, replaced in *.
    apply elem_of_cons in Hin as [[= -> ->]|Hin]; [destruct (Hc _ _ He)|destruct (Hc' _ _ _ _ Hin He)]; lia.
Qed.

Lemma empty_power_ok : power_ok empty_power.
Proof. split; [apply reachable_good, reachable_empty|intros k; unfold exclusiveGeneration; cbn; rewrite lookup_empty; cbn; lia..]. Qed.

(** What is granted in an event has a precondition that holds before it. *)
Lemma power_event_checked refuse ev P P' id w p kind rid t : power_ok P → power_event refuse ev P = Some P' →
  waiters (lanes P') !! id = Some w → state w = Granted → precondition w = Some p →
  (∀ u, waiters (lanes P) !! id = Some u → state u ≠ Granted) →
  noted P' !! p = Some (kind, rid, t) → intent P kind rid = t.
Proof.
  intros HP H Hw Hs Hp Hnew Hn.
  assert (∀ P1 lev, noted P1 = noted P' → lanes P1 = lanes P → generations P1 = generations P → replacements P1 = replacements P →
    lane_event options (world refuse P1) lev (lanes P) = Some (lanes P') → intent P kind rid = t) as Hlane.
  { intros P1 lev E1 E2 E3 E4 Hl. destruct (event_checked _ _ _ _ _ (gd_inv _ _ (ok_lanes _ HP)) Hl) as [_ Hc].
    destruct (Hc _ _ Hw Hs) as [(u & Hu & Hus)|Hh]; [by destruct (Hnew u Hu)|].
    unfold precondition_holds in Hh. rewrite Hp in Hh. cbn in Hh. rewrite E1, Hn in Hh. apply bool_decide_eq_true in Hh.
    rewrite <-Hh. unfold intent, replaced. by rewrite E2, E3, E4. }
  destruct ev as [k i a|k i|k i|k i a t' p'|lev]; cbn in H.
  - injection H as <-. by destruct (Hnew w Hw).
  - injection H as <-. by destruct (Hnew w Hw).
  - injection H as <-. by destruct (Hnew w Hw).
  - destruct (bool_decide _); [done|]. injection H as <-.
    by apply (Hlane (MkPower (generations P) (lanes P) (replacements P) (<[p' := (k, i, t')]> (noted P)))
                (EvAdmit (step_admission locks k i a p') false)).
  - destruct (lane_event _ _ _ _) as [L|] eqn:E; [|done]. injection H as <-. by apply (Hlane P lev).
Qed.
End Schedules.

(** C34: A schedule never undoes what a person did since its occurrence began.
    Take any history of the node up to an occurrence's beginning, where it
    notes the intent of a resource, and any history after it. When the lanes
    grant a power step that compares with what was noted, nobody changed the
    resource's power in between, nothing replaced it, and nothing started
    that holds it exclusively. *)
Theorem schedule_gives_way options locks past P0 evs P1 refuse ev P2 id w p kind rid :
  power_run options locks past empty_power = Some P0 →
  power_run options locks evs P0 = Some P1 →
  power_event options locks refuse ev P1 = Some P2 →
  waiters (lanes P2) !! id = Some w → state w = Granted → precondition w = Some p →
  (∀ u, waiters (lanes P1) !! id = Some u → state u ≠ Granted) →
  noted P2 !! p = Some (kind, rid, intent P0 kind rid) →
  (∀ r e, (r, e) ∈ evs → ¬ changes_power kind rid e) ∧
  exclusiveGeneration (resourceLaneKey kind rid) (lanes P1) = exclusiveGeneration (resourceLaneKey kind rid) (lanes P0).
Proof.
  intros Hpast Hevs Hev Hw Hs Hp Hnew Hn.
  destruct (power_run_moves _ _ _ _ _ (empty_power_ok options) Hpast) as (HP0 & _ & _).
  destruct (power_run_moves _ _ _ _ _ HP0 Hevs) as (HP1 & _ & Hc).
  pose proof (power_event_checked _ _ _ _ _ _ _ _ _ _ _ _ HP1 Hev Hw Hs Hp Hnew Hn) as Hi.
  destruct HP0 as [_ G0 S0 R0], HP1 as [_ G1 S1 R1].
  apply join3_inj in Hi as (Hg & Hst & Hr); try apply G0; try apply S0; try apply R0; try apply G1; try apply S1; try apply R1.
  split; [|done]. intros r e Hin He. destruct (Hc _ _ _ _ Hin He); lia.
Qed.

(** ** Transitions *)

(** A power transition ends, and hands over to what is seen without it.
    As Docker has it, a restarting container counts as running. When a
    transition is complete, the state it shows is settled, neither starting
    nor stopping, and is the one shown from then on without a transition. And
    once its command is done, a transition completes in two minutes from the
    container's start: a stop or kill when the container has stopped, a start
    or restart unless the container restarts or its health check runs still. *)
Theorem transition_settles parse_date state transition now ready :
  (is_restarting state = true → IsRunning state = true) →
  (∀ observed, observedInstancePowerState parse_date state (Some transition) now ready = (observed, true) →
     observed ≠ OStarting ∧ observed ≠ OStopping ∧
     observedInstancePowerState parse_date state None now ready = (observed, false)) ∧
  (commandCompleted transition = true →
   match action transition with
   | Stop | Kill => IsRunning state = false
   | Start | Restart => is_restarting state = false ∧ has_health state "starting" = false ∧
       (default (requestedAt transition) (parse_date (StartedAt state)) + INSTANCE_STARTUP_READINESS_TIMEOUT_MS <= now)%Z
   end →
   ∃ observed, observedInstancePowerState parse_date state (Some transition) now ready = (observed, true)).
Proof.
  intros Hdocker.
  assert (stoppedContainerState state ≠ OStarting ∧ stoppedContainerState state ≠ OStopping) as Hstopped.
  { unfold stoppedContainerState. destruct (OOMKilled state); [done|]. by destruct (_ || _). }
  assert (IsRunning state = false → observedContainerState parse_date state now ready = stoppedContainerState state) as Hoff.
  { intros Hr. unfold observedContainerState. destruct (is_restarting state); [rewrite Hdocker in Hr; done|]. by rewrite Hr. }
  assert (∀ observed, observed_start parse_date state transition now ready = (observed, true) →
    observed ≠ OStarting ∧ observed ≠ OStopping ∧ observedContainerState parse_date state now ready = observed) as Hstart.
  { intros observed. unfold observed_start. destruct (IsRunning state) eqn:Hr; cbn [negb].
    - unfold observedContainerState. destruct (is_restarting state); [done|]. rewrite Hr.
      destruct (_ || _); [by intros [= <-]|]. destruct (has_health state "unhealthy"); [by intros [= <-]|].
      destruct (has_health state "starting"); [done|].
      change INSTANCE_STARTUP_READINESS_TIMEOUT_MS with 120000%Z. change INSTANCE_STARTUP_STABILITY_MS with 15000%Z.
      destruct (parse_date (StartedAt state)) as [at_|]; cbn [default from_option].
      + destruct (bool_decide (ready = Some false)); cbn [andb].
        * destruct (_ <? _)%Z; [done|]. by destruct (_ <=? _)%Z; intros [= <-].
        * destruct (_ <=? _)%Z eqn:E; [|done]. apply Z.leb_le in E. cbn [id] in E. rewrite (proj2 (Z.ltb_ge (now - at_) 15000)) by lia. by intros [= <-].
      + destruct (_ && _); [done|]. destruct (_ <=? _)%Z; [|done]. intros [= <-]. by destruct (bool_decide (ready = Some false)).
    - destruct (commandCompleted transition); [|done]. intros [= <-]. rewrite Hoff by done. tauto. }
  split.
  - intros observed H. cbn in H |- *. assert (observed ≠ OStarting ∧ observed ≠ OStopping ∧ observedContainerState parse_date state now ready = observed) as (? & ? & ->); [|done].
    destruct (action transition).
    + destruct (IsRunning state) eqn:Hr; [done|]. injection H as <-. rewrite Hoff by done. tauto.
    + destruct (negb _ && _); [done|]. by apply Hstart.
    + by apply Hstart.
    + destruct (IsRunning state) eqn:Hr; [done|]. injection H as <-. rewrite Hoff by done. tauto.
  - intros Hc. cbn.
    assert (is_restarting state = false ∧ has_health state "starting" = false ∧
      (default (requestedAt transition) (parse_date (StartedAt state)) + INSTANCE_STARTUP_READINESS_TIMEOUT_MS <= now)%Z →
      ∃ observed, observed_start parse_date state transition now ready = (observed, true)) as Hend.
    { intros (Hr & Hh & Ht). unfold observed_start. rewrite Hc, Hr, Hh. destruct (negb _); [by eexists|].
      destruct (_ || _); [by eexists|]. destruct (has_health state "unhealthy"); [by eexists|].
      change INSTANCE_STARTUP_READINESS_TIMEOUT_MS with 120000%Z in *. change INSTANCE_STARTUP_STABILITY_MS with 15000%Z.
      rewrite (proj2 (Z.ltb_ge _ 120000)), andb_false_r by lia. rewrite (proj2 (Z.leb_le 15000 _)) by lia. by eexists. }
    destruct (action transition); intros H; try (rewrite H; by eexists); [|by apply Hend].
    rewrite Hc, andb_false_r. by apply Hend.
Qed.

(** A state that failed always says why. *)
Lemma failed_has_reason state ready recovery desired : is_Some (instanceStateReason state OFailed ready recovery desired).
Proof.
  unfold instanceStateReason. rewrite (bool_decide_true (OFailed = OFailed)) by done. cbn [negb].
  destruct recovery; [by eexists|]. destruct (is_restarting state); [by eexists|].
  destruct (has_health state "unhealthy"); [by eexists|]. destruct (has_health state "starting"); [by eexists|].
  destruct (_ && _); [by eexists|]. destruct (OOMKilled state); [by eexists|]. destruct (_ && _); by eexists.
Qed.

(** ** A step that is granted, and a start that ends *)

Definition sample_options : LanesOptions := lanes_options None None None.

Definition sample_locks (kind : ResourceKind) (id : string) (action : InstancePowerAction) : list LaneLock :=
  resourcePowerLocks kind id (action_name action).

(** Someone changes another App, then a step noted before is asked for. *)
Definition sample_step : PowerEvent := EvScheduled KApp "a" Start (intent empty_power KApp "a") 0.
Definition sample_before : ResourcePower := changed KApp "b" empty_power.
Definition sample_after : ResourcePower :=
  default sample_before (power_event sample_options sample_locks None sample_step sample_before).

Lemma sample_granted : ∃ w, waiters (lanes sample_after) !! 0%nat = Some w ∧ state w = Granted ∧ precondition w = Some 0%nat.
Proof. eexists. split; [vm_compute; reflexivity|]. split; reflexivity. Qed.

Example schedule_gives_way_witness :
  ¬ changes_power KApp "a" (EvChanged KApp "b") ∧
  exclusiveGeneration (resourceLaneKey KApp "a") (lanes sample_before) = 0%Z.
Proof.
  destruct sample_granted as (w & Hw & Hs & Hp).
  destruct (schedule_gives_way sample_options sample_locks [] empty_power [(None, EvChanged KApp "b")] sample_before None
              sample_step sample_after 0 w 0 KApp "a") as [Hno Hgen].
  - reflexivity.
  - reflexivity.
  - vm_compute. reflexivity.
  - exact Hw.
  - exact Hs.
  - exact Hp.
  - intros u Hu. vm_compute in Hu. discriminate Hu.
  - vm_compute. reflexivity.
  - split; [apply (Hno None); left|]. exact Hgen.
Defined.

Definition sample_state : ContainerPowerState := MkState 0 None false false true "2026-01-01T00:00:00Z" "running".

Example transition_settles_witness :
  ∃ observed, observedInstancePowerState (λ _, Some 0%Z) sample_state (Some (MkTransition Start true None 0)) 120000 (Some false) = (observed, true) ∧
    observed ≠ OStarting.
Proof.
  destruct (transition_settles (λ _, Some 0%Z) sample_state (MkTransition Start true None 0) 120000 (Some false)) as [H1 H2].
  - intros _. reflexivity.
  - destruct (H2 eq_refl) as [observed H]; [split; [reflexivity|]; split; [reflexivity|vm_compute; discriminate]|].
    exists observed. split; [exact H|]. exact (proj1 (H1 observed H)).
Defined.
