(* ===== verification/Snbt.v ===== *)
(** * SNBT, the text of NBT

    Models [packages/contracts/src/snbt.ts]: the parser of the text people edit
    an NBT file in, the numbers and escapes it takes, where it says an error
    is, and the formatter that writes the text.

    The parser's [#index] is what is left of the source; an error is where it
    is, as what is left from there. Characters are UTF-16 code units, written
    as numbers where they are tested. *)
From S2P Require Import Prelude Bytes Utf8 Nbt Decimals.

Open Scope Z_scope.

(** ** Characters *)

Abbreviation c_quote := 34.
Abbreviation c_apostrophe := 39.
Abbreviation c_lparen := 40.
Abbreviation c_rparen := 41.
Abbreviation c_plus := 43.
Abbreviation c_comma := 44.
Abbreviation c_minus := 45.
Abbreviation c_point := 46.
Abbreviation c_zero := 48.
Abbreviation c_colon := 58.
Abbreviation c_semicolon := 59.
Abbreviation c_lbracket := 91.
Abbreviation c_backslash := 92.
Abbreviation c_rbracket := 93.
Abbreviation c_underscore := 95.
Abbreviation c_lbrace := 123.
Abbreviation c_rbrace := 125.

(** [/\s/u] *)
Definition is_space (u : Z) : bool :=
  between 9 13 u || (u =? 32) || (u =? 0xA0) || (u =? 0x1680) || between 0x2000 0x200A u ||
  (u =? 0x2028) || (u =? 0x2029) || (u =? 0x202F) || (u =? 0x205F) || (u =? 0x3000) || (u =? 0xFEFF).

Definition is_hex (u : Z) : bool := is_digit u || between 97 102 u || between 65 70 u.

Definition hex_digit (u : Z) : Z := if is_digit u then u - 48 else if between 97 102 u then u - 87 else u - 55.

(** [Number.parseInt] and [BigInt] of digits in base [2^bits]. *)
Definition read_base (base : Z) (us : JsString) : Z := fold_left (λ n u, base * n + hex_digit u) us 0.

(** [value.replaceAll(c, text)] *)
Definition replaceAll (c : Z) (text us : JsString) : JsString :=
  flat_map (λ u, if u =? c then text else [u]) us.

(** ** The parser *)

Inductive Parse (A : Type) :=
  | PGot (a : A) (rest : JsString)
  | PFails (message : JsString) (from : JsString)
  | PFuel.
Arguments PGot {A} a rest.
Arguments PFails {A} message from.
Arguments PFuel {A}.

Definition Parser (A : Type) : Type := JsString → Parse A.

#[global] Instance Parser_ret : MRet Parser := λ A a rest, PGot a rest.
#[global] Instance Parser_bind : MBind Parser := λ A B k p us,
  match p us with
  | PGot a rest => k a rest
  | PFails message from => PFails message from
  | PFuel => PFuel
  end.

Definition fail_here {A} (message : JsString) : Parser A := λ us, PFails message us.
Definition fail_at {A} (message from : JsString) : Parser A := λ _, PFails message from.
Definition here : Parser JsString := λ us, PGot us us.

Definition skip (us : JsString) : JsString := (span is_space us).2.
Definition skipWhitespace : Parser unit := λ us, PGot tt (skip us).

Definition starts (c : Z) (us : JsString) : bool := match us with u :: _ => u =? c | [] => false end.

Definition take_char (c : Z) : Parser bool := λ us,
  if starts c us then PGot true (drop 1 us) else PGot false us.

Definition expect (c : Z) (message : JsString) : Parser unit := λ us,
  if starts c us then PGot tt (drop 1 us) else PFails message us.

Definition bare_char (u : Z) : bool :=
  negb (is_space u || (u =? c_comma) || (u =? c_rbracket) || (u =? c_rbrace) || (u =? c_lparen) ||
        (u =? c_rparen)).
Definition parseBareToken : Parser JsString := λ us, let '(token, rest) := span bare_char us in PGot token rest.

Definition key_char (u : Z) : bool :=
  negb ((u =? c_colon) || is_space u || (u =? c_comma) || (u =? c_rbrace)).
Definition parseKey : Parser JsString := λ us, let '(token, rest) := span key_char us in PGot token rest.

(** ** Quoted strings *)

Definition simple_escape (u : Z) : option JsString :=
  if u =? 98 then Some [8] else if u =? 102 then Some [12] else if u =? 110 then Some [10]
  else if u =? 114 then Some [13] else if u =? 115 then Some [32] else if u =? 116 then Some [9]
  else if (u =? c_backslash) || (u =? c_quote) || (u =? c_apostrophe) then Some [u] else None.

(** How many digits a hexadecimal escape has. *)
Definition escape_digits (u : Z) : nat := if u =? 120 then 2 else if u =? 117 then 4 else if u =? 85 then 8 else 0.

Definition name_char (u : Z) : bool :=
  (u =? c_minus) || between 65 90 u || between 97 122 u || is_digit u || (u =? 32).

(** After the backslash, which the escape began with, at [escape]. *)
Definition parse_escape (binaryCompatible : bool) (escape : JsString) : Parser JsString := λ us,
  let unknown := PFails (js "Unknown escape sequence \" ++ take 1 us) escape in
  match us with
  | [] => unknown
  | escaped :: us =>
      match simple_escape escaped with
      | Some value => PGot value us
      | None =>
          let count := escape_digits escaped in
          if (0 <? count)%nat then
            let encoded := take count us in
            if negb (bool_decide (length encoded = count) && forallb is_hex encoded)
            then PFails (js "Expected " ++ print_int (Z.of_nat count) ++ js " hexadecimal digits") us
            else
              let codePoint := read_base 16 encoded in
              if 0x10ffff <? codePoint then PFails (js "Unicode escape is out of range") escape
              else PGot (of_scalar codePoint) (drop count us)
          else if (escaped =? 78) && starts c_lbrace us then
            let '(name, rest) := span (λ u, negb (u =? c_rbrace)) (drop 1 us) in
            if bool_decide (rest = []) || bool_decide (name = []) || negb (forallb name_char name)
            then PFails (js "Expected a Unicode character name") us
            else if (binaryCompatible : bool) then
              PFails (js "Named Unicode escapes are not supported in binary NBT files; use a \u or \U escape")
                escape
            else PGot (js "\N{" ++ name ++ js "}") (drop 1 rest)
          else unknown
      end
  end.

(** The rest of a string quoted with [quote]. *)
Fixpoint quoted (binaryCompatible : bool) (fuel : nat) (quote : Z) (us : JsString) : Parse JsString :=
  match us with
  | [] => PFails (js "Unterminated quoted string") []
  | u :: rest =>
      match fuel with
      | O => PFuel
      | S fuel =>
          if u =? quote then PGot [] rest
          else if negb (u =? c_backslash) then
            match quoted binaryCompatible fuel quote rest with
            | PGot value rest => PGot (u :: value) rest
            | r => r
            end
          else
            match parse_escape binaryCompatible us rest with
            | PGot chunk rest =>
                match quoted binaryCompatible fuel quote rest with
                | PGot value rest => PGot (chunk ++ value) rest
                | r => r
                end
            | r => r
            end
      end
  end.

Definition parseQuotedString (binaryCompatible : bool) : Parser JsString := λ us,
  match us with
  | quote :: rest => quoted binaryCompatible (length rest) quote rest
  | [] => PFails (js "Unterminated quoted string") []
  end.

(** ** Numbers *)

Inductive Radix := Hex | Binary | Decimal.
Inductive Suffix := SufByte | SufShort | SufInt | SufLong | SufFloat | SufDouble.

#[global] Instance Radix_eq_dec : EqDecision Radix.
Proof. solve_decision. Defined.
#[global] Instance Suffix_eq_dec : EqDecision Suffix.
Proof. solve_decision. Defined.

Definition suffix_letter (u : Z) : option Suffix :=
  if (u =? 98) || (u =? 66) then Some SufByte
  else if (u =? 115) || (u =? 83) then Some SufShort
  else if (u =? 105) || (u =? 73) then Some SufInt
  else if (u =? 108) || (u =? 76) then Some SufLong
  else if (u =? 102) || (u =? 70) then Some SufFloat
  else if (u =? 100) || (u =? 68) then Some SufDouble else None.

Definition without_sign (token : JsString) : JsString :=
  match token with u :: rest => if (u =? c_plus) || (u =? c_minus) then rest else token | [] => [] end.

Definition radix_of (token : JsString) : Radix :=
  match without_sign token with
  | z :: x :: _ =>
      if negb (z =? c_zero) then Decimal
      else if (x =? 120) || (x =? 88) then Hex
      else if (x =? 98) || (x =? 66) then Binary else Decimal
  | _ => Decimal
  end.

(** The suffixes a radix allows alone, and after [s] or [u]. *)
Definition allowed_alone (radix : Radix) (suffix : Suffix) : bool :=
  match radix, suffix with
  | Hex, SufByte => false
  | Hex, (SufFloat | SufDouble) | Binary, (SufFloat | SufDouble) => false
  | _, _ => true
  end.
Definition allowed_signed (radix : Radix) (suffix : Suffix) : bool :=
  match radix, suffix with
  | Decimal, _ => true
  | _, (SufFloat | SufDouble) => false
  | _, _ => true
  end.

(** The body of a token, whether its suffix is unsigned, and its suffix. *)
Definition split_suffix (radix : Radix) (token : JsString) : JsString * bool * option Suffix :=
  match rev token with
  | last :: before =>
      match suffix_letter last with
      | None => (token, false, None)
      | Some suffix =>
          match before with
          | sign :: body =>
              if ((sign =? 115) || (sign =? 117)) && allowed_signed radix suffix
              then (rev body, sign =? 117, Some suffix)
              else if allowed_alone radix suffix then (rev before, false, Some suffix)
              else (token, false, None)
          | [] => if allowed_alone radix suffix then ([], false, Some suffix) else (token, false, None)
          end
      end
  | [] => (token, false, None)
  end.

(** Where a separator is not between digits. *)
Fixpoint bad_separator (radix : Radix) (before : option Z) (offset : nat) (body : JsString) : option nat :=
  match body with
  | [] => None
  | u :: rest =>
      let digit c := match c with
                     | Some c => if decide (radix = Hex) then is_hex c else is_digit c
                     | None => false
                     end in
      if (u =? c_underscore) && negb (digit before && digit (head rest)) then Some offset
      else bad_separator radix (Some u) (S offset) rest
  end.

Inductive Numeric :=
  | NotNumeric
  | NumericTag (tag : NbtTag)
  | NumericThrows (message : JsString) (offset : nat).

(** The value of an integer literal without its sign. *)
Definition read_integer (us : JsString) : option Z :=
  let all f us := forallb f us && negb (bool_decide (us = [])) in
  match us with
  | z :: x :: ds =>
      if (z =? c_zero) && ((x =? 120) || (x =? 88)) then
        if all is_hex ds then Some (read_base 16 ds) else None
      else if (z =? c_zero) && ((x =? 98) || (x =? 66)) then
        if all (λ u, (u =? 48) || (u =? 49)) ds then Some (read_base 2 ds) else None
      else if all is_digit us then Some (read_digits us) else None
  | _ => if all is_digit us then Some (read_digits us) else None
  end.

Definition integer_bits (suffix : option Suffix) : Z :=
  match suffix with Some SufByte => 8 | Some SufShort => 16 | Some SufLong => 64 | _ => 32 end.

Definition integer_tag (suffix : option Suffix) (value : Z) : NbtTag :=
  match suffix with
  | Some SufByte => TByte value | Some SufShort => TShort value | Some SufLong => TLong value
  | _ => TInt value
  end.

Definition integer_word (suffix : option Suffix) (capital : bool) : JsString :=
  js match suffix, capital with
     | Some SufByte, false => "byte" | Some SufByte, true => "Byte"
     | Some SufShort, false => "short" | Some SufShort, true => "Short"
     | Some SufLong, false => "long" | Some SufLong, true => "Long"
     | _, false => "int" | _, true => "Int"
     end.

(** [BigInt.asIntN] *)
Definition asIntN (bits z : Z) : Z := (z + 2 ^ (bits - 1)) mod 2 ^ bits - 2 ^ (bits - 1).

Definition is_point_or_exponent (u : Z) : bool := (u =? c_point) || (u =? 101) || (u =? 69).

Definition parseNumericTag (token : JsString) : Numeric :=
  let radix := radix_of token in
  let '(body, unsigned, suffix) := split_suffix radix token in
  match bad_separator radix None 0 body with
  | Some offset => NumericThrows (js "Numeric separators must appear between digits") offset
  | None =>
      let normalized := replaceAll c_underscore [] body in
      let of_float := bool_decide (suffix = Some SufFloat) || bool_decide (suffix = Some SufDouble) in
      if of_float || (bool_decide (radix = Decimal) && existsb is_point_or_exponent normalized) then
        if negb (bool_decide (suffix = None)) && negb of_float
        then NumericThrows (js "Integer suffix cannot be used on a decimal") 0
        else
          match read_decimal normalized with
          | None => NotNumeric
          | Some value =>
              if negb (isFinite value) then NumericThrows (js "SNBT numbers must be finite") 0
              else NumericTag (if decide (suffix = Some SufFloat) then TFloat value else TDouble value)
          end
      else
        match read_integer (without_sign normalized) with
        | None => NotNumeric
        | Some magnitude =>
            if bool_decide (radix = Decimal) &&
               match without_sign normalized with z :: d :: _ => (z =? c_zero) && is_digit d | _ => false end
            then NumericThrows (js "Non-zero decimal integers cannot start with zero") 0
            else
              let value := if starts c_minus normalized then - magnitude else magnitude in
              let bits := integer_bits suffix in
              if (unsigned : bool) then
                if (value <? 0) || (2 ^ bits - 1 <? value)
                then NumericThrows (js "Unsigned " ++ integer_word suffix false ++ js " is out of range") 0
                else NumericTag (integer_tag suffix (asIntN bits value))
              else if (value <? - 2 ^ (bits - 1)) || (2 ^ (bits - 1) - 1 <? value)
              then NumericThrows (integer_word suffix true ++ js " is out of range") 0
              else NumericTag (integer_tag suffix value)
        end
  end.

Definition numeric_at (start : JsString) (token : JsString) : Parser (option NbtTag) := λ us,
  match parseNumericTag token with
  | NotNumeric => PGot None us
  | NumericTag tag => PGot (Some tag) us
  | NumericThrows message offset => PFails message (drop offset start)
  end.

(** ** Arrays *)

Inductive ArrayKind := ArrayB | ArrayI | ArrayL.

(** The prefixes whose upper case is one letter: a dotless i is an I. *)
Definition array_kind (u : Z) : option ArrayKind :=
  if (u =? 66) || (u =? 98) then Some ArrayB
  else if (u =? 73) || (u =? 105) || (u =? 0x131) then Some ArrayI
  else if (u =? 76) || (u =? 108) then Some ArrayL else None.

Definition array_bits (kind : ArrayKind) : Z := match kind with ArrayB => 8 | ArrayI => 32 | ArrayL => 64 end.

Definition array_word (kind : ArrayKind) : JsString :=
  js match kind with ArrayB => "Byte" | ArrayI => "Int" | ArrayL => "Long" end.

Definition arrayTag (kind : ArrayKind) (numbers : list Z) : NbtTag :=
  match kind with ArrayB => TByteArray numbers | ArrayI => TIntArray numbers | ArrayL => TLongArray numbers end.

(** [isIntegerTag], with its value *)
Definition integer_value (tag : NbtTag) : option Z :=
  match tag with TByte v | TShort v | TInt v | TLong v => Some v | _ => None end.

Definition coerceArrayInteger (kind : ArrayKind) (start : JsString) (value : Z) : Parser Z :=
  let bits := array_bits kind in
  if (value <? - 2 ^ (bits - 1)) || (2 ^ (bits - 1) - 1 <? value)
  then fail_at (array_word kind ++ js " array value is out of range") start else mret value.

Fixpoint parse_numbers (fuel : nat) (kind : ArrayKind) : Parser (list Z) :=
  match fuel with
  | O => λ _, PFuel
  | S fuel =>
      _ ← skipWhitespace;
      start ← here;
      token ← parseBareToken;
      if bool_decide (token = []) then fail_at (js "Expected a numeric array value") start
      else
        numeric ← numeric_at start token;
        match numeric ≫= integer_value with
        | None => fail_at (js "Typed arrays can only contain integers") start
        | Some value =>
            number ← coerceArrayInteger kind start value;
            _ ← skipWhitespace;
            closed ← take_char c_rbracket;
            if (closed : bool) then mret [number]
            else
              _ ← expect c_comma (js "Expected ',' or ']' after the array value");
              _ ← skipWhitespace;
              us ← here;
              if starts c_rbracket us then fail_here (js "Trailing commas are not valid SNBT")
              else numbers ← parse_numbers fuel kind; mret (number :: numbers)
        end
  end.

Definition parseArray (kind : ArrayKind) : Parser NbtTag :=
  _ ← skipWhitespace;
  closed ← take_char c_rbracket;
  if (closed : bool) then mret (arrayTag kind [])
  else us ← here; numbers ← parse_numbers (S (length us)) kind; mret (arrayTag kind numbers).

(** ** Collections and tags *)

Fixpoint parse_entries (binaryCompatible : bool) (child : Parser NbtTag) (fuel : nat)
    : Parser (list (JsString * NbtTag)) :=
  match fuel with
  | O => λ _, PFuel
  | S fuel =>
      _ ← skipWhitespace;
      us ← here;
      name ← (if starts c_quote us || starts c_apostrophe us
              then parseQuotedString binaryCompatible else parseKey);
      if bool_decide (name = []) then fail_here (js "Expected a compound key")
      else
        _ ← skipWhitespace;
        _ ← expect c_colon (js "Expected ':' after the compound key");
        tag ← child;
        _ ← skipWhitespace;
        closed ← take_char c_rbrace;
        if (closed : bool) then mret [(name, tag)]
        else
          _ ← expect c_comma (js "Expected ',' or '}' after the compound value");
          _ ← skipWhitespace;
          us ← here;
          if starts c_rbrace us then fail_here (js "Trailing commas are not valid SNBT")
          else entries ← parse_entries binaryCompatible child fuel; mret ((name, tag) :: entries)
  end.

Fixpoint parse_elements (child : Parser NbtTag) (fuel : nat) : Parser (list NbtTag) :=
  match fuel with
  | O => λ _, PFuel
  | S fuel =>
      tag ← child;
      _ ← skipWhitespace;
      closed ← take_char c_rbracket;
      if (closed : bool) then mret [tag]
      else
        _ ← expect c_comma (js "Expected ',' or ']' after the list value");
        _ ← skipWhitespace;
        us ← here;
        if starts c_rbracket us then fail_here (js "Trailing commas are not valid SNBT")
        else tags ← parse_elements child fuel; mret (tag :: tags)
  end.

Definition wrapped (tag : NbtTag) : NbtTag :=
  if decide (tag_type tag = tag_compound) then tag else TCompound [([], tag)].

Definition list_tag (binaryCompatible : bool) (value : list NbtTag) : NbtTag :=
  let firstType := first_type value in
  if forallb (λ tag, bool_decide (tag_type tag = firstType)) value then TList (Some firstType) value
  else if (binaryCompatible : bool) then TList (Some tag_compound) (wrapped <$> value)
  else TList None value.

Definition parseCompound (binaryCompatible : bool) (child : Parser NbtTag) : Parser NbtTag := λ us,
  (_ ← skipWhitespace;
   closed ← take_char c_rbrace;
   if (closed : bool) then mret (TCompound [])
   else us ← here; value ← parse_entries binaryCompatible child (S (length us)); mret (TCompound value))
  (drop 1 us).

(** The array prefix a list begins with, taken with its semicolon. *)
Definition array_prefix : Parser (option ArrayKind) := λ us,
  match us with
  | u :: rest =>
      match array_kind u with
      | Some kind => if starts c_semicolon (skip rest) then PGot (Some kind) (drop 1 (skip rest)) else PGot None us
      | None => PGot None us
      end
  | [] => PGot None us
  end.

Definition parseListOrArray (binaryCompatible : bool) (child : Parser NbtTag) : Parser NbtTag := λ us,
  (_ ← skipWhitespace;
   prefix ← array_prefix;
   match prefix with
   | Some kind => parseArray kind
   | None =>
       closed ← take_char c_rbracket;
       if (closed : bool) then mret (TList (Some tag_end) [])
       else us ← here; value ← parse_elements child (S (length us)); mret (list_tag binaryCompatible value)
   end)
  (drop 1 us).

Definition uuid_tag (value : JsString) : option NbtTag :=
  let hex := replaceAll c_minus [] value in
  if bool_decide (length hex = 32%nat) && forallb is_hex hex
  then Some (TIntArray ((λ offset, asIntN 32 (read_base 16 (take 8 (drop offset hex)))) <$> [0; 8; 16; 24]%nat))
  else None.

Definition parseOperation (operation : JsString) (child : Parser NbtTag) : Parser NbtTag := λ us,
  (argument ← child;
   _ ← skipWhitespace;
   _ ← expect c_rparen (js "Expected ')' after " ++ operation ++ js " argument");
   if bool_decide (operation = js "bool") then
     match integer_value argument with
     | Some value => mret (TByte (if value =? 0 then 0 else 1))
     | None => fail_here (js "bool() expects a boolean or numeric argument")
     end
   else
     match argument with
     | TString value =>
         match uuid_tag value with
         | Some tag => mret tag
         | None => fail_here (js "uuid() expects a valid UUID")
         end
     | _ => fail_here (js "uuid() expects a string")
     end)
  (drop 1 us).

Definition maxSnbtDepth : Z := 512.

(** A value without quotes, which began at [start]. *)
Definition parse_bare (child : Parser NbtTag) : Parser NbtTag :=
  start ← here;
  token ← parseBareToken;
  if bool_decide (token = []) then fail_at (js "Expected an SNBT value") start
  else
    _ ← skipWhitespace;
    us ← here;
    if starts c_lparen us && (bool_decide (token = js "bool") || bool_decide (token = js "uuid"))
    then parseOperation token child
    else if bool_decide (token = js "true") then mret (TByte 1)
    else if bool_decide (token = js "false") then mret (TByte 0)
    else
      numeric ← numeric_at start token;
      match numeric with
      | Some tag => mret tag
      | None =>
          if existsb (λ u, is_digit u || (u =? c_point) || (u =? c_plus) || (u =? c_minus)) (take 1 token)
          then fail_at (js "Unquoted strings cannot start with a number, '.', '+', or '-'") start
          else mret (TString token)
      end.

Fixpoint parseTag (binaryCompatible : bool) (levels : nat) (depth : Z) : Parser NbtTag :=
  if maxSnbtDepth <? depth then fail_here (js "SNBT nesting exceeds 512 levels")
  else
    match levels with
    | O => λ _, PFuel
    | S levels =>
        let child := parseTag binaryCompatible levels (depth + 1) in
        _ ← skipWhitespace;
        us ← here;
        if starts c_lbrace us then parseCompound binaryCompatible child
        else if starts c_lbracket us then parseListOrArray binaryCompatible child
        else if starts c_quote us || starts c_apostrophe us
        then value ← parseQuotedString binaryCompatible; mret (TString value)
        else parse_bare child
    end.

(** Levels enough for the depths the parser allows. *)
Definition snbt_levels : nat := Z.to_nat (maxSnbtDepth + 1).

Definition parse_root (binaryCompatible : bool) : Parser NbtTag :=
  _ ← skipWhitespace;
  us ← here;
  if bool_decide (us = []) then fail_here (js "Expected an SNBT value")
  else
    tag ← parseTag binaryCompatible snbt_levels 0;
    _ ← skipWhitespace;
    us ← here;
    if bool_decide (us = []) then mret tag else fail_here (js "Unexpected content after the root value").

(** ** Errors *)

Record SnbtParseError := MkParseError {
  e_message : JsString;
  e_line : Z;
  e_column : Z;
  e_index : Z;
}.

(** The line of an index and the column in it, from one. *)
Definition line_column (before : JsString) : Z * Z :=
  fold_left (λ lc u, if u =? 10 then (lc.1 + 1, 1) else (lc.1, lc.2 + 1)) before (1, 1).

Definition parse_error (source message from : JsString) : SnbtParseError :=
  let index := Z.of_nat (length source) - Z.of_nat (length from) in
  let '(line, column) := line_column (take (Z.to_nat index) source) in
  MkParseError (message ++ js " at line " ++ print_int line ++ js ", column " ++ print_int column)
    line column index.

(** [None] would be running out of fuel, which never happens. *)
Definition parseSnbt (source : JsString) (binaryCompatible : bool) : option (Result SnbtParseError NbtTag) :=
  match parse_root binaryCompatible source with
  | PGot tag _ => Some (Ok tag)
  | PFails message from => Some (Throw (parse_error source message from))
  | PFuel => None
  end.

Record SnbtDiagnostic := MkDiagnostic {
  d_column : Z; d_from : Z; d_line : Z; d_message : JsString; d_to : Z;
}.

Definition snbtDiagnostic (source : JsString) (binaryCompatible : bool) : option SnbtDiagnostic :=
  match parseSnbt source binaryCompatible with
  | Some (Throw cause) =>
      Some (MkDiagnostic (e_column cause) (e_index cause) (e_line cause) (e_message cause)
              (Z.min (Z.of_nat (length source)) (e_index cause + 1)))
  | _ => None
  end.

(** ** The formatter *)

Definition non_finite : string := "Cannot format a non-finite NBT number".

Definition formatDecimal (value : JsNumber) : Result string JsString :=
  guard! isFinite value else non_finite in
  let encoded := print_number value in
  Ok (if existsb is_point_or_exponent encoded then encoded else encoded ++ js ".0").

Definition quoteString (value : JsString) : JsString :=
  let value := replaceAll c_backslash (js "\\") value in
  let value := replaceAll c_quote [c_backslash; c_quote] value in
  let value := replaceAll 8 (js "\b") value in
  let value := replaceAll 12 (js "\f") value in
  let value := replaceAll 10 (js "\n") value in
  let value := replaceAll 13 (js "\r") value in
  let value := replaceAll 9 (js "\t") value in
  [c_quote] ++ value ++ [c_quote].

Definition plain_key_char (u : Z) : bool :=
  between 65 90 u || between 97 122 u || is_digit u || (u =? c_point) || (u =? c_underscore) ||
  (u =? c_plus) || (u =? c_minus).

Definition formatKey (value : JsString) : JsString :=
  if forallb plain_key_char value && negb (bool_decide (value = [])) then value else quoteString value.

(** [values.join(separator)] *)
Fixpoint join (separator : JsString) (values : list JsString) : JsString :=
  match values with
  | [] => []
  | [value] => value
  | value :: values => value ++ separator ++ join separator values
  end.

Definition spaces (n : Z) : JsString := repeat 32 (Z.to_nat n).

Definition formatCollection (open close : Z) (values : list JsString) (depth indent : Z) : JsString :=
  if bool_decide (values = []) then [open; close]
  else if indent =? 0 then [open] ++ join (js ", ") values ++ [close]
  else
    let padding := spaces ((depth + 1) * indent) in
    let closingPadding := spaces (depth * indent) in
    [open; 10] ++ padding ++ join ([c_comma; 10] ++ padding) values ++ [10] ++ closingPadding ++ [close].

(** [values.map(format)], which throws as [format] does. *)
Section FormatEach.
Context {A : Type} (format : A → Result string JsString).
Fixpoint format_each (l : list A) : Result string (list JsString) :=
  match l with
  | [] => Ok []
  | a :: l => let! text := format a in let! texts := format_each l in Ok (text :: texts)
  end.
End FormatEach.

Fixpoint formatTag (depth indent : Z) (tag : NbtTag) : Result string JsString :=
  match tag with
  | TByte value => Ok (print_int value ++ js "b")
  | TShort value => Ok (print_int value ++ js "s")
  | TInt value => Ok (print_int value)
  | TLong value => Ok (print_int value ++ js "L")
  | TFloat value => let! text := formatDecimal value in Ok (text ++ js "f")
  | TDouble value => let! text := formatDecimal value in Ok (text ++ js "d")
  | TString value => Ok (quoteString value)
  | TByteArray value => Ok (js "[B; " ++ join (js ", ") ((λ v, print_int v ++ js "b") <$> value) ++ js "]")
  | TIntArray value => Ok (js "[I; " ++ join (js ", ") (print_int <$> value) ++ js "]")
  | TLongArray value => Ok (js "[L; " ++ join (js ", ") ((λ v, print_int v ++ js "L") <$> value) ++ js "]")
  | TList _ value =>
      let! values := format_each (formatTag (depth + 1) indent) value in
      Ok (formatCollection c_lbracket c_rbracket values depth indent)
  | TCompound value =>
      let! values := format_each (λ entry,
        let! text := formatTag (depth + 1) indent entry.2 in
        Ok (formatKey entry.1 ++ js ": " ++ text)) value in
      Ok (formatCollection c_lbrace c_rbrace values depth indent)
  end.

Definition formatSnbt (tag : NbtTag) (indent : Z) : Result string JsString :=
  let! text := formatTag 0 (Z.max 0 indent) tag in Ok (text ++ [10]).
