(* ===== verification/SnbtFacts.v ===== *)
(** * SNBT: what parsing and formatting guarantee

    Properties of [Snbt]: what is formatted parses back, the file that is
    opened and saved unchanged is the same, and the parser ends on every text,
    with a well-typed tag or an error in the text. *)
From S2P Require Import Prelude Bytes Utf8 Nbt NbtFacts Decimals Snbt.

Open Scope Z_scope.

(** ** Spaces and delimiters *)

Lemma skip_spaces ws us : forallb is_space ws = true → skip (ws ++ us) = skip us.
Proof.
  unfold skip. induction ws as [|w ws IH]; cbn; [done|]. intros [-> H]%andb_true_iff. cbn.
  destruct (span is_space (ws ++ us)) eqn:E. cbn in *. by apply IH.
Qed.

Lemma skip_solid us : match us with u :: _ => is_space u = false | [] => True end → skip us = us.
Proof. destruct us as [|u us]; [done|]. unfold skip. cbn. by intros ->. Qed.

Lemma skip_skip us : skip (skip us) = skip us.
Proof.
  unfold skip. induction us as [|u us IH]; [done|]. cbn. destruct (is_space u) eqn:E.
  - by destruct (span is_space us).
  - cbn. by rewrite E.
Qed.

(** What may follow a value in a text: the end, or a character no token takes. *)
Definition stops (rest : JsString) : Prop := match rest with u :: _ => bare_char u = false | [] => True end.

(** The characters of numbers. *)
Definition number_char (u : Z) : bool :=
  is_digit u || (u =? c_minus) || (u =? c_plus) || (u =? c_point) || (u =? 101).

Lemma between_true lo hi u : between lo hi u = true ↔ lo <= u <= hi.
Proof. unfold between. by rewrite andb_true_iff, !Z.leb_le. Qed.

Lemma number_char_range u : number_char u = true → u = 43 ∨ 45 <= u <= 46 ∨ 48 <= u <= 57 ∨ u = 101.
Proof.
  unfold number_char. rewrite !orb_true_iff, is_digit_spec, !Z.eqb_eq. lia.
Qed.

(** Decides tests of a character whose range is known. *)
Ltac by_range :=
  repeat match goal with
  | |- context [?x =? ?y] => rewrite (proj2 (Z.eqb_neq x y)) by lia
  | |- context [between ?lo ?hi ?u] =>
      replace (between lo hi u) with false by (symmetry; unfold between; apply andb_false_iff; rewrite !Z.leb_gt; lia)
  end.

Lemma low_not_space u : 33 <= u <= 126 → is_space u = false.
Proof. intros H. unfold is_space. by_range. done. Qed.

Lemma number_char_bare u : number_char u = true → bare_char u = true.
Proof.
  intros H%number_char_range. unfold bare_char. rewrite low_not_space by lia. by_range. done.
Qed.

Lemma forallb_impl {A} (f g : A → bool) l : (∀ a, f a = true → g a = true) → forallb f l = true → forallb g l = true.
Proof. intros H. rewrite !forallb_forall. auto. Qed.

Lemma digit_number u : is_digit u = true → number_char u = true.
Proof. unfold number_char. by intros ->. Qed.

(** ** Quoted strings *)

Definition escaped (u : Z) : JsString :=
  if u =? c_backslash then [c_backslash; c_backslash] else if u =? c_quote then [c_backslash; c_quote]
  else if u =? 8 then [c_backslash; 98] else if u =? 12 then [c_backslash; 102]
  else if u =? 10 then [c_backslash; 110] else if u =? 13 then [c_backslash; 114]
  else if u =? 9 then [c_backslash; 116] else [u].

Lemma replaceAll_app c text us vs : replaceAll c text (us ++ vs) = replaceAll c text us ++ replaceAll c text vs.
Proof. unfold replaceAll. apply flat_map_app. Qed.

Lemma replaceAll_ne c text u : u ≠ c → replaceAll c text [u] = [u].
Proof. intros H. unfold replaceAll. cbn. by rewrite (proj2 (Z.eqb_neq u c)). Qed.

Lemma replaced_one u :
  replaceAll 9 (js "\t") (replaceAll 13 (js "\r") (replaceAll 10 (js "\n") (replaceAll 12 (js "\f")
    (replaceAll 8 (js "\b") (replaceAll c_quote [c_backslash; c_quote] (replaceAll c_backslash (js "\\") [u]))))))
  = escaped u.
Proof.
  unfold escaped.
  repeat match goal with
  | |- context [u =? ?c] => destruct (Z.eqb_spec u c) as [->|]; [reflexivity|rewrite (replaceAll_ne c) by done]
  end. done.
Qed.

(** The replacements one after another are one pass: none makes a character
    that a later one replaces. *)
Lemma quoteString_eq value : quoteString value = [c_quote] ++ flat_map escaped value ++ [c_quote].
Proof.
  unfold quoteString. cbv zeta. f_equal. f_equal.
  induction value as [|u value IH]; [done|]. change (u :: value) with ([u] ++ value) at 1.
  rewrite !replaceAll_app, IH, replaced_one. done.
Qed.

Lemma quoted_char bc fuel u rest :
  quoted bc (S fuel) c_quote (escaped u ++ rest) =
    match quoted bc fuel c_quote rest with PGot value rest => PGot (u :: value) rest | r => r end.
Proof.
  unfold escaped.
  repeat match goal with
  | |- context [if u =? ?c then _ else _] =>
      destruct (Z.eqb_spec u c) as [->|]; [cbn; by destruct (quoted bc fuel 34 rest)|]
  end.
  cbn [app quoted]. by rewrite !(proj2 (Z.eqb_neq u _)) by done.
Qed.

Lemma quoted_escaped bc value : ∀ fuel rest,
  (length value < fuel)%nat →
  quoted bc fuel c_quote (flat_map escaped value ++ c_quote :: rest) = PGot value rest.
Proof.
  induction value as [|u value IH]; intros [|fuel] rest Hf; cbn in Hf; [lia|done|lia|].
  cbn [flat_map]. rewrite <-app_assoc, quoted_char, IH by lia. done.
Qed.

Lemma escaped_length value : (length value ≤ length (flat_map escaped value))%nat.
Proof.
  induction value as [|u value IH]; cbn; [lia|]. rewrite length_app.
  assert (0 < length (escaped u))%nat; [|lia].
  unfold escaped. repeat (destruct (u =? _); [cbn; lia|]). cbn. lia.
Qed.

Lemma parseQuotedString_quote bc value rest :
  parseQuotedString bc (quoteString value ++ rest) = PGot value rest.
Proof.
  rewrite quoteString_eq. cbn [app parseQuotedString]. rewrite <-app_assoc. cbn [app].
  apply quoted_escaped. rewrite length_app. pose proof (escaped_length value). cbn. lia.
Qed.

(** ** Numbers *)

Lemma print_int_eq v : print_int v = sign_text (v <? 0) ++ digits (Z.abs v).
Proof. unfold print_int. destruct (Z.ltb_spec v 0); cbn; [|by rewrite Z.abs_eq]. by rewrite Z.abs_neq by lia. Qed.

(** A text of digits and the like that ends in a digit. *)
Definition ends_in_digit (us : JsString) : Prop := ∃ front d, us = front ++ [d] ∧ is_digit d = true.

Lemma digits_end us : us ≠ [] → forallb is_digit us = true → ends_in_digit us.
Proof.
  intros Hne Hd. destruct us as [|d front _] using rev_ind; [done|].
  rewrite forallb_app in Hd. apply andb_true_iff in Hd as [_ Hd]. cbn in Hd. rewrite andb_true_r in Hd. by exists front, d.
Qed.

Lemma ends_app us vs : ends_in_digit vs → ends_in_digit (us ++ vs).
Proof. intros (front & d & -> & H). exists (us ++ front), d. by rewrite app_assoc. Qed.

Lemma digit_no_suffix d : is_digit d = true → suffix_letter d = None ∧ (d =? 115) || (d =? 117) = false.
Proof. intros H%is_digit_spec. unfold suffix_letter. by_range. done. Qed.

Lemma split_suffix_none radix us : ends_in_digit us → split_suffix radix us = (us, false, None).
Proof.
  intros (front & d & -> & Hd%digit_no_suffix). unfold split_suffix. rewrite rev_unit. by rewrite (proj1 Hd).
Qed.

Lemma split_suffix_letter radix us c suffix :
  us ≠ [] → forallb number_char us = true → suffix_letter c = Some suffix → allowed_alone radix suffix = true →
  split_suffix radix (us ++ [c]) = (us, false, Some suffix).
Proof.
  intros Hne Hd Hc Ha. destruct us as [|d front _] using rev_ind; [done|].
  rewrite forallb_app in Hd. apply andb_true_iff in Hd as [_ Hd]. cbn in Hd.
  rewrite andb_true_r in Hd. apply number_char_range in Hd.
  unfold split_suffix. rewrite rev_unit, Hc, rev_unit, Ha.
  replace ((d =? 115) || (d =? 117)) with false by (by_range; done). cbn [andb rev]. by rewrite rev_involutive.
Qed.

Lemma no_separator radix us : ∀ before offset,
  forallb number_char us = true → bad_separator radix before offset us = None.
Proof.
  induction us as [|u us IH]; intros before offset; [done|]. cbn [forallb bad_separator].
  intros [Hu%number_char_range Hus]%andb_true_iff. rewrite (proj2 (Z.eqb_neq u c_underscore)) by lia. by apply IH.
Qed.

Lemma replaceAll_id c text us : forallb (λ u, negb (u =? c)) us = true → replaceAll c text us = us.
Proof.
  induction us as [|u us IH]; [done|]. cbn. intros [->%negb_true_iff H]%andb_true_iff. cbn. f_equal. by apply IH.
Qed.

Lemma no_underscore us : forallb number_char us = true → replaceAll c_underscore [] us = us.
Proof.
  intros H. apply replaceAll_id. revert H. apply forallb_impl. intros u Hu%number_char_range.
  by rewrite (proj2 (Z.eqb_neq u c_underscore)) by lia.
Qed.

Definition digit_first (us : JsString) : Prop := match us with u :: _ => is_digit u = true | [] => False end.

Lemma without_sign_text b us : digit_first us → without_sign (sign_text b ++ us) = us.
Proof.
  destruct us as [|u us]; [done|]. cbn [digit_first]. intros Hu%is_digit_spec. destruct b; [done|]. cbn.
  by_range. done.
Qed.

(** A number's second character, where it is one of numbers, names no radix. *)
Lemma radix_decimal b us :
  digit_first us → match us with _ :: x :: _ => x ≠ 120 ∧ x ≠ 88 ∧ x ≠ 98 ∧ x ≠ 66 | _ => True end →
  radix_of (sign_text b ++ us) = Decimal.
Proof.
  intros Hd Hx. unfold radix_of. rewrite without_sign_text by done. destruct us as [|z [|x us]]; [done..|].
  destruct Hx as (H1 & H2 & H3 & H4). destruct (negb (z =? c_zero)); [done|].
  by rewrite (proj2 (Z.eqb_neq x 120) H1), (proj2 (Z.eqb_neq x 88) H2), (proj2 (Z.eqb_neq x 98) H3),
    (proj2 (Z.eqb_neq x 66) H4).
Qed.

Lemma sign_number b us : forallb number_char us = true → forallb number_char (sign_text b ++ us) = true.
Proof. rewrite forallb_app. intros ->. by destruct b. Qed.

Lemma digits_number us : forallb is_digit us = true → forallb number_char us = true.
Proof. apply forallb_impl, digit_number. Qed.

Lemma digits_first n : 0 <= n → digit_first (digits n).
Proof.
  intros Hn. pose proof (digits_nonempty n Hn) as Hne. pose proof (digits_are_digits n Hn) as Hd.
  destruct (digits n) as [|u us]; [done|]. cbn in *. by apply andb_true_iff in Hd as [Hd _].
Qed.

Lemma read_integer_digits n : 0 <= n → read_integer (digits n) = Some n.
Proof.
  intros Hn. pose proof (digits_are_digits n Hn) as Hd. pose proof (digits_nonempty n Hn) as Hne.
  pose proof (read_digits_digits n Hn) as Hv. unfold read_integer.
  destruct (digits n) as [|z [|x ds]] eqn:E; [done| |].
  - rewrite Hd. cbn [andb]. by rewrite bool_decide_false, Hv by done.
  - pose proof Hd as Hd'. cbn in Hd'. rewrite !andb_true_iff in Hd'. destruct Hd' as (_ & Hx%is_digit_spec & _).
    replace ((x =? 120) || (x =? 88)) with false by (by_range; done).
    replace ((x =? 98) || (x =? 66)) with false by (by_range; done).
    rewrite !andb_false_r, Hd. cbn [andb]. by rewrite bool_decide_false, Hv by done.
Qed.

Lemma no_leading_zero n : 0 <= n →
  match digits n with z :: d :: _ => (z =? c_zero) && is_digit d | _ => false end = false.
Proof.
  intros Hn. pose proof (digits_head n Hn) as Hh. destruct (digits n) as [|z [|d ds]]; [done..|].
  destruct (Z.eqb_spec z c_zero) as [->|]; [|done]. destruct (Hh (d :: ds) eq_refl) as [_ ?]. done.
Qed.

Lemma digits_no_point us : forallb is_digit us = true → existsb is_point_or_exponent us = false.
Proof.
  intros H. apply not_true_is_false. intros (u & Hu & Hp)%existsb_exists.
  rewrite forallb_forall in H. apply H, is_digit_spec in Hu. revert Hp. unfold is_point_or_exponent. by_range. done.
Qed.

Lemma sign_no_point b : existsb is_point_or_exponent (sign_text b) = false.
Proof. by destruct b. Qed.

(** The suffixes integers are written with. *)
Definition suffix_text (suffix : option Suffix) : JsString :=
  match suffix with
  | Some SufByte => [98] | Some SufShort => [115] | Some SufLong => [76] | _ => []
  end.

Definition integer_suffix (suffix : option Suffix) : bool :=
  match suffix with Some SufByte | Some SufShort | Some SufLong | None => true | _ => false end.

Lemma integer_radix b n suffix :
  0 <= n → integer_suffix suffix = true →
  let radix := radix_of (sign_text b ++ digits n ++ suffix_text suffix) in
  radix = Decimal ∨ radix = Binary ∧ suffix = Some SufByte.
Proof.
  intros Hn Hsuf radix. pose proof (digits_are_digits n Hn) as Hd. pose proof (digits_first n Hn) as Hf.
  assert (digit_first (digits n ++ suffix_text suffix)) as Hf' by (by destruct (digits n)).
  unfold radix. destruct (digits n) as [|z [|x ds]] eqn:E; [done| |].
  - destruct suffix as [[]|]; try done; cbn [suffix_text app] in *.
    + unfold radix_of. rewrite without_sign_text by done. cbn. destruct (z =? 48); auto.
    + left. apply radix_decimal; [done|]. lia.
    + left. apply radix_decimal; [done|]. lia.
    + left. by apply radix_decimal.
  - left. apply radix_decimal; [done|]. cbn in Hd |- *. rewrite !andb_true_iff, !is_digit_spec in Hd. lia.
Qed.

Lemma split_integer b n suffix :
  0 <= n → integer_suffix suffix = true →
  split_suffix (radix_of (sign_text b ++ digits n ++ suffix_text suffix))
    (sign_text b ++ digits n ++ suffix_text suffix) = (sign_text b ++ digits n, false, suffix).
Proof.
  intros Hn Hsuf. pose proof (integer_radix b n suffix Hn Hsuf) as Hr. cbv zeta in Hr.
  pose proof (digits_nonempty n Hn) as Hne. pose proof (digits_are_digits n Hn) as Hd.
  assert (sign_text b ++ digits n ≠ []) as Hne' by (by destruct b, (digits n)).
  pose proof (sign_number b _ (digits_number _ Hd)) as Hnum.
  destruct suffix as [[]|]; try done; cbn [suffix_text] in *; rewrite app_assoc in *.
  - apply split_suffix_letter; [done..|]. by destruct Hr as [->|[-> _]].
  - apply split_suffix_letter; [done..|]. by destruct Hr as [->|[-> _]].
  - apply split_suffix_letter; [done..|]. by destruct Hr as [->|[-> _]].
  - rewrite app_nil_r. by apply split_suffix_none, ends_app, digits_end.
Qed.

Lemma parse_integer v suffix :
  integer_suffix suffix = true → - 2 ^ (integer_bits suffix - 1) <= v <= 2 ^ (integer_bits suffix - 1) - 1 →
  parseNumericTag (print_int v ++ suffix_text suffix) = NumericTag (integer_tag suffix v).
Proof.
  intros Hsuf Hrange. rewrite print_int_eq, <-app_assoc.
  set (n := Z.abs v). assert (0 <= n) as Hn by lia. set (b := v <? 0).
  pose proof (digits_are_digits n Hn) as Hd. pose proof (digits_first n Hn) as Hf.
  pose proof (integer_radix b n suffix Hn Hsuf) as Hr. cbv zeta in Hr.
  unfold parseNumericTag. rewrite split_integer by done.
  assert (forallb number_char (sign_text b ++ digits n) = true) as Hnum by (by apply sign_number, digits_number).
  rewrite no_separator, no_underscore by done.
  assert (bool_decide (suffix = Some SufFloat) || bool_decide (suffix = Some SufDouble) = false) as ->
    by (by destruct suffix as [[]|]).
  assert (existsb is_point_or_exponent (sign_text b ++ digits n) = false) as ->.
  { by rewrite existsb_app, sign_no_point, digits_no_point by done. }
  rewrite andb_false_r. cbn [orb]. rewrite without_sign_text, read_integer_digits, no_leading_zero by done.
  rewrite andb_false_r.
  assert ((if starts c_minus (sign_text b ++ digits n) then - n else n) = v) as ->.
  { unfold b. destruct (Z.ltb_spec v 0); cbn [sign_text app]; [cbn; lia|].
    destruct (digits n) as [|u us]; [done|]. cbn in Hf |- *. apply is_digit_spec in Hf.
    rewrite (proj2 (Z.eqb_neq u 45)) by lia. lia. }
  cbv zeta. rewrite !(proj2 (Z.ltb_ge _ _)) by lia. done.
Qed.

(** A negative zero is written without its sign. *)
Definition unsigned_zero (x : JsNumber) : JsNumber :=
  match x with Finite _ 0 p => Finite false 0 p | _ => x end.

Lemma read_exponent_text rest x :
  (rest = [] ∧ x = 0 ∨ ∃ b us, rest = 101 :: (if (b : bool) then 45 else 43) :: us ∧ us ≠ [] ∧
     forallb is_digit us = true ∧ x = if b then - read_digits us else read_digits us) →
  read_exponent rest = Some x ∧ forallb number_char rest = true ∧
  after_digits rest ∧ match rest with u :: _ => u ≠ 46 | [] => True end ∧
  (rest ≠ [] → existsb is_point_or_exponent rest = true).
Proof.
  intros [[-> ->]|(b & us & -> & Hne & Hd & ->)]; [done|].
  assert (read_exponent (101 :: (if b then 45 else 43) :: us) = Some (if b then - read_digits us else read_digits us)) as ->.
  { cbn. destruct b; cbn; by rewrite Hd, bool_decide_false by done. }
  split; [done|]. split; [cbn; rewrite (digits_number us Hd); by destruct b|done].
Qed.

Lemma formatDecimal_text v :
  number_ok v → isFinite v = true →
  ∃ b body, formatDecimal v = Ok (sign_text b ++ body) ∧ digit_first body ∧
    forallb number_char body = true ∧ existsb is_point_or_exponent body = true ∧
    read_decimal (sign_text b ++ body) = Some (unsigned_zero v).
Proof.
  intros Hok Hfin. destruct v as [| |negative m p]; [done..|]. unfold formatDecimal. cbn [isFinite print_number].
  destruct (number_parts _ negative m p eq_refl Hok) as [[-> ->]|(Hm & Ho & Hp)].
  { exists false, (js "0.0"). by repeat split. }
  rewrite (proj2 (Z.eqb_neq m 0)) by lia. destruct (shortest m p) as [s e] eqn:Hse.
  assert (number_ok (Finite false m p)) as Hpos.
  { destruct negative; [|done]. apply number_ok_negate; [lia|done]. }
  destruct (shortest_reads negative m p s e Hpos Hm Hse) as [Hs Hv].
  destruct (layout_shape s e Hs) as (whole & part & rest & x & -> & Hne & Hw & Hpart & Hrest & Hval).
  destruct (read_exponent_text rest x Hrest) as (He & Hrn & Hra & Hr46 & Hrp).
  assert (unsigned_zero (Finite negative m p) = Finite negative m p) as -> by (destruct m; [lia|done..]).
  fold (sign_text negative).
  assert (digit_first whole) as Hfirst.
  { destruct whole as [|u whole]; [done|]. cbn in Hw |- *. by apply andb_true_iff in Hw as [? _]. }
  destruct (existsb is_point_or_exponent (whole ++ point_text part ++ rest)) eqn:Hpoint.
  - exists negative, (whole ++ point_text part ++ rest).
    split; [by rewrite existsb_app, sign_no_point, Hpoint|]. split; [by destruct whole|].
    split; [rewrite !forallb_app, (digits_number _ Hw), Hrn; destruct part; cbn in *; [by rewrite (digits_number _ Hpart)|done]|].
    split; [done|]. rewrite (read_literal _ _ _ _ x) by auto. by rewrite Hval, Hv.
  - assert (part = None ∧ rest = []) as [-> ->].
    { rewrite !existsb_app, !orb_false_iff in Hpoint. destruct Hpoint as (_ & Hp' & Hr').
      split; [by destruct part|]. destruct (decide (rest = [])) as [|Hr0]; [done|]. by rewrite (Hrp Hr0) in Hr'. }
    exists negative, (whole ++ js ".0"). cbn [point_text app] in *. rewrite !app_nil_r in *.
    split; [by rewrite existsb_app, sign_no_point, Hpoint, <-app_assoc|]. split; [by destruct whole|].
    split; [by rewrite forallb_app, (digits_number _ Hw)|]. split; [by rewrite existsb_app, orb_true_r|].
    pose proof (read_literal negative whole (Some [48]) [] 0 Hne Hw eq_refl I ltac:(done) eq_refl) as Hlit.
    cbn [point_text app default] in Hlit. unfold id in Hlit. change (js ".0") with [46; 48]. rewrite Hlit.
    f_equal. change [48] with (repeat 48 1). rewrite read_app_zeros, decimal_value_pow.
    pose proof (Hval negative) as Hval'. cbn [default] in Hval'.
    rewrite Hv in Hval'. rewrite <-Hval'.
    destruct Hrest as [[_ ->]|(? & ? & ? & _)]; done.
Qed.

Lemma parse_decimal b body (float : bool) v :
  digit_first body → forallb number_char body = true →
  read_decimal (sign_text b ++ body) = Some v → isFinite v = true →
  parseNumericTag ((sign_text b ++ body) ++ [if float then 102 else 100]) =
    NumericTag (if float then TFloat v else TDouble v).
Proof.
  intros Hf Hnum Hread Hfin. pose proof (sign_number b body Hnum) as Hnum'.
  assert (sign_text b ++ body ≠ []) as Hne by (by destruct b, body).
  assert (radix_of ((sign_text b ++ body) ++ [if float then 102 else 100]) = Decimal) as Hr.
  { rewrite <-app_assoc. apply radix_decimal; [by destruct body|].
    destruct body as [|z [|x body]]; [done| |]; cbn; [destruct float; lia|].
    cbn in Hnum. rewrite !andb_true_iff in Hnum. destruct Hnum as (_ & Hx%number_char_range & _). lia. }
  unfold parseNumericTag. rewrite Hr.
  rewrite (split_suffix_letter _ _ _ (if float then SufFloat else SufDouble)) by (by destruct float).
  rewrite no_separator, no_underscore by done. rewrite Hread, Hfin. by destruct float.
Qed.

(** ** Values without quotes *)

Lemma token_stops token rest : forallb bare_char token = true → stops rest → span bare_char (token ++ rest) = (token, rest).
Proof. intros. by apply span_app. Qed.

Definition number_start (us : JsString) : Prop := match us with u :: _ => u = 45 ∨ is_digit u = true | [] => False end.

Lemma number_start_text b us vs : digit_first us → number_start (sign_text b ++ us ++ vs).
Proof. destruct us as [|u us]; [done|]. cbn. destruct b; cbn; auto. Qed.

Lemma bare_number child token tag rest :
  number_start token → forallb bare_char token = true → parseNumericTag token = NumericTag tag → stops rest →
  parse_bare child (token ++ rest) = PGot tag (skip rest).
Proof.
  intros Hs Hb Hp Hr. unfold parse_bare, here, parseBareToken, skipWhitespace, numeric_at, mbind, Parser_bind.
  rewrite token_stops by done.
  assert (∀ s, match s with u :: _ => u ≠ 45 ∧ is_digit u = false | [] => True end → bool_decide (token = s) = false) as Hno.
  { intros s H. apply bool_decide_eq_false. intros ->. destruct s as [|u s]; [done|]. destruct H as [H1 H2], Hs; congruence. }
  rewrite (bool_decide_false (token = [])) by (by intros ->). rewrite !Hno by done.
  cbn [orb]. rewrite andb_false_r. by rewrite Hp.
Qed.

(** What the numbers of arrays are written as. *)
Definition array_suffix (kind : ArrayKind) : option Suffix :=
  match kind with ArrayB => Some SufByte | ArrayI => None | ArrayL => Some SufLong end.

Lemma integer_bare v suffix : integer_suffix suffix = true → forallb bare_char (print_int v ++ suffix_text suffix) = true.
Proof.
  intros Hs. rewrite print_int_eq, !forallb_app, !andb_true_iff.
  pose proof (digits_number _ (digits_are_digits (Z.abs v) (Z.abs_nonneg v))) as H.
  split; [split; [by destruct (v <? 0)|by apply (forallb_impl number_char), H; apply number_char_bare]|].
  by destruct suffix as [[]|].
Qed.

Lemma integer_start v suffix : number_start (print_int v ++ suffix_text suffix).
Proof. rewrite print_int_eq, <-app_assoc. apply number_start_text, digits_first. lia. Qed.

(** ** Steps of the parser *)

Section Steps.
Context {A B : Type}.
Lemma bind_got (p : Parser A) (k : A → Parser B) us a rest : p us = PGot a rest → (p ≫= k) us = k a rest.
Proof. unfold mbind, Parser_bind. by intros ->. Qed.
Lemma bind_fails (p : Parser A) (k : A → Parser B) us message from :
  p us = PFails message from → (p ≫= k) us = PFails message from.
Proof. unfold mbind, Parser_bind. by intros ->. Qed.
Lemma bind_skip (k : unit → Parser B) us : (skipWhitespace ≫= k) us = k tt (skip us).
Proof. done. Qed.
Lemma bind_here (k : JsString → Parser B) us : (here ≫= k) us = k us us.
Proof. done. Qed.
Lemma bind_ret (a : A) (k : A → Parser B) us : ((mret a : Parser A) ≫= k) us = k a us.
Proof. done. Qed.
Lemma bind_take c (k : bool → Parser B) us :
  (take_char c ≫= k) us = if starts c us then k true (drop 1 us) else k false us.
Proof. unfold mbind, Parser_bind, take_char. by destruct (starts c us). Qed.
Lemma bind_expect c message (k : unit → Parser B) us :
  (expect c message ≫= k) us = if starts c us then k tt (drop 1 us) else PFails message us.
Proof. unfold mbind, Parser_bind, expect. by destruct (starts c us). Qed.
Lemma bind_take_same c (k : bool → Parser B) us : (take_char c ≫= k) (c :: us) = k true us.
Proof. rewrite bind_take. cbn [starts]. by rewrite Z.eqb_refl. Qed.
Lemma bind_take_other c (k : bool → Parser B) us : starts c us = false → (take_char c ≫= k) us = k false us.
Proof. rewrite bind_take. by intros ->. Qed.
Lemma bind_expect_same c message (k : unit → Parser B) us : (expect c message ≫= k) (c :: us) = k tt us.
Proof. rewrite bind_expect. cbn [starts]. by rewrite Z.eqb_refl. Qed.
Lemma bind_if (b : bool) (p q : Parser A) (k : A → Parser B) us :
  ((if b then p else q) ≫= k) us = if b then (p ≫= k) us else (q ≫= k) us.
Proof. by destruct b. Qed.
End Steps.

(** ** Arrays *)

Lemma skip_number us rest : number_start us → skip (us ++ rest) = us ++ rest.
Proof.
  intros H. apply skip_solid. destruct us as [|u us]; [done|]. cbn in *.
  apply low_not_space. destruct H as [->|H%is_digit_spec]; lia.
Qed.

Lemma skip_char c rest : is_space c = false → skip (c :: rest) = c :: rest.
Proof. intros H. by apply skip_solid. Qed.

Lemma skip_space us : skip (32 :: us) = skip us.
Proof. by apply (skip_spaces [32]). Qed.

Lemma join_cons sep t t' ts : join sep (t :: t' :: ts) = t ++ sep ++ join sep (t' :: ts).
Proof. done. Qed.

(** Where no text is empty, there are no more texts than characters. *)
Lemma join_length sep texts : Forall (λ t, t ≠ []) texts → (length texts ≤ length (join sep texts))%nat.
Proof.
  induction 1 as [|t texts Ht _ IH]; [done|].
  assert (0 < length t)%nat by (destruct t; [done|cbn; lia]).
  destruct texts as [|t' texts]; [cbn; lia|]. rewrite join_cons, !length_app. cbn [length] in *. lia.
Qed.

Definition array_bytes (kind : ArrayKind) : nat := match kind with ArrayB => 1 | ArrayI => 4 | ArrayL => 8 end.

Lemma int_ok_range n v : int_ok n v = true →
  - 2 ^ (8 * Z.of_nat n - 1) <= v <= 2 ^ (8 * Z.of_nat n - 1) - 1.
Proof. unfold int_ok. rewrite andb_true_iff, Z.leb_le, Z.ltb_lt. lia. Qed.

Lemma array_number kind v :
  int_ok (array_bytes kind) v = true →
  parseNumericTag (print_int v ++ suffix_text (array_suffix kind)) = NumericTag (integer_tag (array_suffix kind) v).
Proof. intros H%int_ok_range. by apply parse_integer; destruct kind. Qed.

Lemma numbers_read kind vs : ∀ fuel rest,
  vs ≠ [] → (length vs ≤ fuel)%nat → Forall (λ v, int_ok (array_bytes kind) v = true) vs →
  parse_numbers fuel kind
    (join (js ", ") ((λ v, print_int v ++ suffix_text (array_suffix kind)) <$> vs) ++ c_rbracket :: rest) = PGot vs rest.
Proof.
  set (f := λ v, print_int v ++ suffix_text (array_suffix kind)).
  induction vs as [|v vs IH]; intros [|fuel] rest Hne Hf Hok; cbn in Hf; [done..|lia|].
  apply Forall_cons in Hok as [Hv Hok].
  assert (∃ rest1, join (js ", ") (f <$> v :: vs) ++ c_rbracket :: rest = f v ++ rest1 ∧
    if decide (vs = []) then rest1 = c_rbracket :: rest
    else rest1 = c_comma :: 32 :: join (js ", ") (f <$> vs) ++ c_rbracket :: rest) as (rest1 & -> & Hrest1).
  { destruct vs as [|v' vs]; [by exists (c_rbracket :: rest)|]. eexists.
    change (f <$> v :: v' :: vs) with (f v :: f v' :: (f <$> vs)). rewrite join_cons, <-!app_assoc. by split. }
  assert (stops rest1) as Hstop by (case_decide; subst; done).
  pose proof (integer_start v (array_suffix kind)) as Hstart. fold (f v) in Hstart.
  assert (integer_suffix (array_suffix kind) = true) as Hsuf by (by destruct kind).
  pose proof (integer_bare v _ Hsuf) as Hbare. fold (f v) in Hbare.
  cbn [parse_numbers]. rewrite bind_skip, bind_here, skip_number by done.
  rewrite (bind_got parseBareToken _ _ (f v) rest1) by (unfold parseBareToken; by rewrite token_stops).
  rewrite bool_decide_false by (by destruct (f v)).
  rewrite (bind_got _ _ _ (Some (integer_tag (array_suffix kind) v)) rest1)
    by (unfold numeric_at, f; by rewrite array_number).
  assert (Some (integer_tag (array_suffix kind) v) ≫= integer_value = Some v) as -> by (by destruct kind).
  pose proof (int_ok_range _ _ Hv) as Hrange.
  rewrite (bind_got _ _ _ v rest1).
  2: { unfold coerceArrayInteger. cbv zeta. replace ((v <? _) || _) with false; [done|].
       symmetry. apply orb_false_iff. rewrite !Z.ltb_ge. by destruct kind. }
  rewrite bind_skip, bind_take. case_decide as Hvs; subst rest1.
  - by subst vs.
  - rewrite skip_char by done. cbn [starts Z.eqb Pos.eqb]. rewrite bind_expect_same, bind_skip, bind_here.
    destruct vs as [|v' vs]; [done|].
    assert (number_start (join (js ", ") (f <$> v' :: vs))) as Hs'.
    { pose proof (integer_start v' (array_suffix kind)) as H. fold (f v') in H.
      destruct vs; cbn; [done|]. by destruct (f v'). }
    rewrite skip_space, skip_number by done.
    assert (∀ us, starts c_rbracket (join (js ", ") (f <$> v' :: vs) ++ us) = false) as ->.
    { intros us. destruct (join _ _) as [|u ?]; [done|]. cbn in Hs' |- *. apply Z.eqb_neq.
      destruct Hs' as [->|H%is_digit_spec]; lia. }
    rewrite (bind_got _ _ _ (v' :: vs) rest) by (apply IH; (done || lia)). done.
Qed.

Lemma parseArray_reads kind vs rest :
  Forall (λ v, int_ok (array_bytes kind) v = true) vs →
  parseArray kind (32 :: join (js ", ") ((λ v, print_int v ++ suffix_text (array_suffix kind)) <$> vs) ++ c_rbracket :: rest)
    = PGot (arrayTag kind vs) rest.
Proof.
  intros Hok. unfold parseArray. rewrite bind_skip, skip_space. destruct (decide (vs = [])) as [->|Hne]; [done|].
  set (us := join _ _). assert (number_start us) as Hs.
  { unfold us. destruct vs as [|v vs]; [done|]. pose proof (integer_start v (array_suffix kind)) as H.
    destruct vs; cbn; [done|]. by destruct (print_int v ++ _). }
  rewrite skip_number, bind_take by done.
  assert (∀ vs, starts c_rbracket (us ++ vs) = false) as ->.
  { intros ws. destruct us as [|u ?]; [done|]. cbn in Hs |- *. apply Z.eqb_neq.
    destruct Hs as [->|H%is_digit_spec]; lia. }
  rewrite bind_here, (bind_got _ _ _ vs rest); [done|]. apply numbers_read; [done| |done].
  assert (length vs ≤ length us)%nat; [|rewrite length_app; lia].
  unfold us. erewrite <-(length_fmap _ vs). apply join_length, Forall_fmap, Forall_forall. intros v _.
  pose proof (integer_start v (array_suffix kind)). cbn. by destruct (print_int v ++ _).
Qed.

(** ** Collections *)

Definition key_message : JsString := js "Expected a compound key".

(** Whatever follows a chunk, the parser takes the chunk off and gives the
    value, perhaps with spaces after it; or it says a key is missing. *)
Definition gives {A} (fit : bool) (p : Parser A) (chunk : JsString) (a : A) : Prop :=
  ∀ rest, stops rest →
    if fit then ∃ rest', p (chunk ++ rest) = PGot a rest' ∧ skip rest' = skip rest
    else ∃ from, p (chunk ++ rest) = PFails key_message from.

(** How a value's text begins. *)
Definition value_start (us : JsString) : Prop :=
  match us with u :: _ => u = 34 ∨ u = 45 ∨ u = 91 ∨ u = 123 ∨ is_digit u = true | [] => False end.

Lemma value_start_range u us : value_start (u :: us) → u = 34 ∨ u = 45 ∨ u = 91 ∨ u = 123 ∨ 48 <= u <= 57.
Proof. cbn. by rewrite is_digit_spec. Qed.

Lemma value_start_app us vs : value_start us → value_start (us ++ vs).
Proof. by destruct us. Qed.

Lemma skip_value us : value_start us → skip us = us.
Proof.
  intros H. apply skip_solid. destruct us as [|u us]; [done|]. apply value_start_range in H.
  apply low_not_space. lia.
Qed.

Lemma value_not_close c us : (c = c_rbracket ∨ c = c_rbrace ∨ c = c_lparen) → value_start us → starts c us = false.
Proof. intros Hc H. destruct us as [|u us]; [done|]. apply value_start_range in H. cbn. apply Z.eqb_neq. lia. Qed.

Lemma stops_spaces ws rest : forallb is_space ws = true → stops rest → stops (ws ++ rest).
Proof.
  destruct ws as [|w ws]; [done|]. cbn. intros [Hw _]%andb_true_iff _. unfold bare_char. by rewrite Hw.
Qed.

Lemma spaces_space n : forallb is_space (spaces n) = true.
Proof. unfold spaces. by induction (Z.to_nat n). Qed.

(** The layout of a collection: spaces only between what it holds. *)
Lemma formatCollection_shape open close values depth indent :
  values ≠ [] → ∃ w1 w2 w3,
    formatCollection open close values depth indent = [open] ++ w1 ++ join (c_comma :: w2) values ++ w3 ++ [close] ∧
    forallb is_space w1 = true ∧ forallb is_space w2 = true ∧ forallb is_space w3 = true.
Proof.
  intros Hne. unfold formatCollection. rewrite bool_decide_false by done. destruct (indent =? 0).
  - by exists [], [32], [].
  - cbv zeta. exists (10 :: spaces ((depth + 1) * indent)), (10 :: spaces ((depth + 1) * indent)),
      (10 :: spaces (depth * indent)). cbn. rewrite !spaces_space. done.
Qed.

Section Elements.
Context (child : Parser NbtTag) (w2 w3 : JsString).
Hypothesis w2_spaces : forallb is_space w2 = true.
Hypothesis w3_spaces : forallb is_space w3 = true.

Lemma join_step c ts t : ∃ after, join (c_comma :: w2) (t :: ts) ++ w3 ++ [c] = t ++ after ∧
  (ts = [] ∧ after = w3 ++ [c] ∨ ts ≠ [] ∧ after = c_comma :: w2 ++ join (c_comma :: w2) ts ++ w3 ++ [c]).
Proof.
  destruct ts as [|t' ts]; [exists (w3 ++ [c]); auto|]. eexists. rewrite join_cons, <-!app_assoc. cbn [app].
  split; [done|]. right. by split.
Qed.

Lemma elements_read texts fts : ∀ fuel rest,
  texts ≠ [] → (length texts ≤ fuel)%nat →
  Forall2 (λ text (ft : bool * NbtTag), value_start text ∧ gives ft.1 child text ft.2) texts fts →
  let source := join (c_comma :: w2) texts ++ w3 ++ [c_rbracket] in
  if forallb fst fts then parse_elements child fuel (source ++ rest) = PGot fts.*2 rest
  else ∃ from, parse_elements child fuel (source ++ rest) = PFails key_message from.
Proof.
  revert fts. induction texts as [|text texts IH]; intros fts [|fuel] rest Hne Hf HF; cbn in Hf; [done..|lia|].
  apply Forall2_cons_inv_l in HF as ([fit tag] & fts' & [Hstart Hgives] & HF & ->).
  destruct (join_step c_rbracket texts text) as (after & E & Hafter). cbv zeta. rewrite E, <-app_assoc. clear E.
  assert (stops (after ++ rest)) as Hstop.
  { destruct Hafter as [[_ ->]|[_ ->]]; [|done]. rewrite <-app_assoc. by apply stops_spaces. }
  specialize (Hgives _ Hstop). cbn [fst snd] in Hgives. cbn [forallb fst parse_elements]. destruct fit; cbn [andb].
  2: { destruct Hgives as [from Hg]. exists from. by apply bind_fails. }
  destruct Hgives as (rest' & Hg & Hskip). rewrite (bind_got child _ _ _ _ Hg), bind_skip, Hskip.
  destruct Hafter as [[-> ->]|[Hts ->]].
  - apply Forall2_nil_inv_l in HF as ->. cbn [forallb]. rewrite <-app_assoc, skip_spaces by done. done.
  - cbn [app]. rewrite skip_char, bind_take_other, bind_expect_same, bind_skip, bind_here by done.
    rewrite <-app_assoc, skip_spaces by done.
    assert (value_start (join (c_comma :: w2) texts)) as Hs.
    { inversion HF as [|t ft ts fts2 [Ht _] _]; subst; [done|]. destruct ts; cbn; [done|by destruct t]. }
    rewrite skip_value by (by rewrite <-app_assoc; apply value_start_app).
    rewrite value_not_close by (auto || (rewrite <-app_assoc; by apply value_start_app)).
    specialize (IH fts' fuel rest Hts ltac:(lia) HF). cbv zeta in IH. destruct (forallb fst fts').
    + by rewrite (bind_got _ _ _ _ _ IH).
    + destruct IH as [from IH]. exists from. by apply bind_fails.
Qed.
End Elements.

Lemma plain_key_range u : plain_key_char u = true →
  u = 43 ∨ 45 <= u <= 46 ∨ 48 <= u <= 57 ∨ 65 <= u <= 90 ∨ u = 95 ∨ 97 <= u <= 122.
Proof. unfold plain_key_char. rewrite !orb_true_iff, !between_true, is_digit_spec, !Z.eqb_eq. lia. Qed.

Lemma formatKey_cases name :
  formatKey name = name ∧ name ≠ [] ∧ forallb plain_key_char name = true ∨ formatKey name = quoteString name.
Proof.
  unfold formatKey. destruct (forallb plain_key_char name && negb (bool_decide (name = []))) eqn:E; [left|by right].
  apply andb_true_iff in E as [? E]. by apply negb_true_iff, bool_decide_eq_false in E.
Qed.

Lemma formatKey_solid name us : skip (formatKey name ++ us) = formatKey name ++ us ∧
  starts c_rbrace (formatKey name ++ us) = false.
Proof.
  destruct (formatKey_cases name) as [(-> & Hne & Hp)| ->].
  - destruct name as [|u name]; [done|]. cbn in Hp. apply andb_true_iff in Hp as [Hu%plain_key_range _].
    split; [|cbn; apply Z.eqb_neq; lia]. apply skip_char, low_not_space. lia.
  - rewrite quoteString_eq. split; [|done]. by apply skip_char.
Qed.

Lemma key_read bc name rest :
  (if starts c_quote (formatKey name ++ c_colon :: rest) || starts c_apostrophe (formatKey name ++ c_colon :: rest)
   then parseQuotedString bc else parseKey) (formatKey name ++ c_colon :: rest) = PGot name (c_colon :: rest).
Proof.
  destruct (formatKey_cases name) as [(-> & Hne & Hp)| ->].
  - replace (starts c_quote _ || starts c_apostrophe _) with false.
    + unfold parseKey. rewrite span_app; [done| |done]. revert Hp. apply forallb_impl.
      intros u Hu%plain_key_range. unfold key_char. rewrite low_not_space by lia. by_range. done.
    + destruct name as [|u name]; [done|]. cbn in Hp. apply andb_true_iff in Hp as [Hu%plain_key_range _].
      cbn. by_range. done.
  - replace (starts c_quote _ || starts c_apostrophe _) with true by (by rewrite quoteString_eq).
    apply parseQuotedString_quote.
Qed.

Section Entries.
Context (binaryCompatible : bool) (child : Parser NbtTag) (w2 w3 : JsString).
Hypothesis w2_spaces : forallb is_space w2 = true.
Hypothesis w3_spaces : forallb is_space w3 = true.

(** An entry's text, from its name, whether its value's text is read, that text
    and the value. *)
Definition entry_text (e : JsString * (bool * JsString * NbtTag)) : JsString :=
  formatKey e.1 ++ js ": " ++ e.2.1.2.
Definition entry_fit (e : JsString * (bool * JsString * NbtTag)) : bool :=
  negb (bool_decide (e.1 = [])) && e.2.1.1.

Lemma entries_read es : ∀ fuel rest,
  es ≠ [] → (length es ≤ fuel)%nat →
  Forall (λ e, gives e.2.1.1 child (32 :: e.2.1.2) e.2.2) es →
  let source := join (c_comma :: w2) (entry_text <$> es) ++ w3 ++ [c_rbrace] in
  if forallb entry_fit es
  then parse_entries binaryCompatible child fuel (source ++ rest) = PGot ((λ e, (e.1, e.2.2)) <$> es) rest
  else ∃ from, parse_entries binaryCompatible child fuel (source ++ rest) = PFails key_message from.
Proof.
  induction es as [|[name [[fit text] tag]] es IH]; intros [|fuel] rest Hne Hf HF; cbn in Hf; [done..|lia|].
  apply Forall_cons in HF as [Hgives HF]. cbn [fst snd] in Hgives. rewrite fmap_cons.
  destruct (join_step w2 w3 c_rbrace (entry_text <$> es) (entry_text (name, (fit, text, tag)))) as (after & E & Hafter).
  cbv zeta. rewrite E, <-app_assoc. clear E.
  assert (stops (after ++ rest)) as Hstop.
  { destruct Hafter as [[_ ->]|[_ ->]]; [|done]. rewrite <-app_assoc. by apply stops_spaces. }
  specialize (Hgives _ Hstop). cbn [forallb parse_entries]. unfold entry_text at 1 2, entry_fit at 1. cbn [fst snd].
  change (js ": ") with [58; 32]. rewrite <-!app_assoc. cbn [app].
  change (58 :: 32 :: ?us) with (c_colon :: (32 :: us)).
  destruct (formatKey_solid name (c_colon :: (32 :: text) ++ after ++ rest)) as [Hsolid _].
  cbn [app] in Hsolid, Hgives. rewrite bind_skip, Hsolid, bind_here, (bind_got _ _ _ _ _ (key_read _ _ _)).
  destruct (decide (name = [])) as [->|Hname].
  { cbn. eexists. done. }
  rewrite !bool_decide_false by done. cbn [negb andb]. rewrite bind_skip, skip_char, bind_expect_same by done.
  destruct fit; cbn [andb].
  2: { destruct Hgives as [from Hg]. exists from. by apply bind_fails. }
  destruct Hgives as (rest' & Hg & Hskip). rewrite (bind_got child _ _ _ _ Hg), bind_skip, Hskip.
  destruct Hafter as [[Hes ->]|[Hts ->]].
  - apply fmap_nil_inv in Hes as ->. cbn [forallb]. rewrite <-app_assoc, skip_spaces by done. done.
  - assert (es ≠ []) as Hes by (by intros ->).
    cbn [app]. rewrite skip_char, bind_take_other, bind_expect_same, bind_skip, bind_here by done.
    rewrite <-app_assoc, skip_spaces by done.
    assert (∃ name' us, join (c_comma :: w2) (entry_text <$> es) = formatKey name' ++ us) as (name' & us & Ej).
    { destruct es as [|e es]; [done|]. exists e.1. unfold entry_text. destruct es; cbn; rewrite <-?app_assoc; eauto. }
    rewrite Ej, <-!app_assoc. destruct (formatKey_solid name' (us ++ w3 ++ [c_rbrace] ++ rest)) as [-> ->].
    specialize (IH fuel rest Hes ltac:(lia) HF). cbv zeta in IH. rewrite Ej, <-!app_assoc in IH.
    destruct (forallb entry_fit es).
    + by rewrite (bind_got _ _ _ _ _ IH).
    + destruct IH as [from IH]. exists from. by apply bind_fails.
Qed.
End Entries.

(** ** Formatting and parsing *)

(** What a tag's text reads as: zeros without their sign, lists of the type of
    their elements. *)
Fixpoint respell (tag : NbtTag) : NbtTag :=
  match tag with
  | TFloat v => TFloat (unsigned_zero v)
  | TDouble v => TDouble (unsigned_zero v)
  | TList _ v => TList (Some (first_type v)) (respell <$> v)
  | TCompound v => TCompound ((λ e, (e.1, respell e.2)) <$> v)
  | _ => tag
  end.

(** Every entry has a name. *)
Fixpoint keys_named (tag : NbtTag) : bool :=
  match tag with
  | TList _ v => forallb keys_named v
  | TCompound v => forallb (λ e, negb (bool_decide (e.1 = [])) && keys_named e.2) v
  | _ => true
  end.

Lemma respell_type tag : tag_type (respell tag) = tag_type tag.
Proof. by destruct tag. Qed.

Lemma respell_first v : first_type (respell <$> v) = first_type v.
Proof. destruct v; [done|]. apply respell_type. Qed.

Lemma format_each_ok {A B} (f : A → Result string JsString) (P : JsString → B → Prop) (g : A → B) l :
  Forall (λ a, ∃ text, f a = Ok text ∧ P text (g a)) l → ∃ texts, format_each f l = Ok texts ∧ Forall2 P texts (g <$> l).
Proof.
  induction 1 as [|a l (text & Ht & HP) _ (texts & Hts & HF)]; [by exists []|].
  exists (text :: texts). cbn. rewrite Ht, Hts. split; [done|]. by constructor.
Qed.

Section Values.
Context (bc : bool).

Lemma parseTag_space levels depth us :
  depth <= maxSnbtDepth → parseTag bc levels depth (32 :: us) = parseTag bc levels depth us.
Proof.
  intros Hd. destruct levels as [|levels]; cbn [parseTag]; rewrite (proj2 (Z.ltb_ge _ _)) by done; [done|].
  cbv zeta. rewrite !bind_skip. by rewrite skip_space.
Qed.

Lemma parseTag_value levels depth us :
  depth <= maxSnbtDepth → value_start us →
  parseTag bc (S levels) depth us =
    (let child := parseTag bc levels (depth + 1) in
     if starts c_lbrace us then parseCompound bc child
     else if starts c_lbracket us then parseListOrArray bc child
     else if starts c_quote us || starts c_apostrophe us
     then value ← parseQuotedString bc; mret (TString value)
     else parse_bare child) us.
Proof.
  intros Hd Hs. cbn [parseTag]. rewrite (proj2 (Z.ltb_ge _ _)) by done. cbv zeta.
  by rewrite bind_skip, bind_here, skip_value.
Qed.

Lemma number_value us : number_start us → value_start us.
Proof. destruct us; cbn; tauto. Qed.

Lemma number_gives levels depth token tag :
  depth <= maxSnbtDepth → number_start token → forallb bare_char token = true →
  parseNumericTag token = NumericTag tag → gives true (parseTag bc (S levels) depth) token tag.
Proof.
  intros Hd Hs Hb Hp rest Hr. exists (skip rest). split; [|apply skip_skip].
  rewrite parseTag_value by (done || by apply value_start_app, number_value). cbv zeta.
  replace (starts c_lbrace (token ++ rest)) with false; [replace (starts c_lbracket (token ++ rest)) with false;
    [replace (starts c_quote (token ++ rest) || starts c_apostrophe (token ++ rest)) with false|]|];
    [by apply bare_number|..]; symmetry; (destruct token as [|u token]; [done|]); cbn in Hs |- *;
    rewrite is_digit_spec in Hs; by_range; done.
Qed.

Lemma string_gives levels depth value :
  depth <= maxSnbtDepth → gives true (parseTag bc (S levels) depth) (quoteString value) (TString value).
Proof.
  intros Hd rest Hr. exists rest. split; [|done].
  rewrite parseTag_value; [|done|by rewrite quoteString_eq; left]. cbv zeta.
  assert (∀ c, starts c (quoteString value ++ rest) = (34 =? c)) as Hst by (intros; by rewrite quoteString_eq).
  rewrite !Hst. cbn [Z.eqb Pos.eqb orb]. by rewrite (bind_got _ _ _ _ _ (parseQuotedString_quote bc value rest)).
Qed.

(** The letter an array begins with. *)
Definition array_letter (kind : ArrayKind) : Z := match kind with ArrayB => 66 | ArrayI => 73 | ArrayL => 76 end.

Lemma array_gives levels depth kind vs :
  depth <= maxSnbtDepth → Forall (λ v, int_ok (array_bytes kind) v = true) vs →
  gives true (parseTag bc (S levels) depth)
    ([c_lbracket; array_letter kind; c_semicolon; 32] ++
     join (js ", ") ((λ v, print_int v ++ suffix_text (array_suffix kind)) <$> vs) ++ [c_rbracket])
    (arrayTag kind vs).
Proof.
  intros Hd Hok rest Hr. exists rest. split; [|done].
  rewrite <-!app_assoc. cbn [app]. rewrite parseTag_value by (done || (cbn; lia)). cbv zeta. cbn [starts Z.eqb Pos.eqb].
  unfold parseListOrArray. cbn [drop]. rewrite bind_skip, skip_char by (by destruct kind).
  rewrite (bind_got array_prefix _ _ (Some kind)
    (32 :: join (js ", ") ((λ v, print_int v ++ suffix_text (array_suffix kind)) <$> vs) ++ c_rbracket :: rest)).
  - by apply parseArray_reads.
  - unfold array_prefix. assert (array_kind (array_letter kind) = Some kind) as -> by (by destruct kind).
    by rewrite skip_char by done.
Qed.

(** The parser of a collection, given one of what it holds. *)
Lemma list_gives levels depth indent elementType value texts :
  depth <= maxSnbtDepth → Forall (λ t, tag_type t = elementType) value →
  Forall2 (λ text (ft : bool * NbtTag), value_start text ∧ gives ft.1 (parseTag bc levels (depth + 1)) text ft.2)
    texts ((λ t, (keys_named t, respell t)) <$> value) →
  gives (forallb keys_named value) (parseTag bc (S levels) depth)
    (formatCollection c_lbracket c_rbracket texts depth indent) (respell (TList (Some elementType) value)).
Proof.
  intros Hd Htype HF rest Hr. destruct (decide (texts = [])) as [->|Hne].
  { apply Forall2_nil_inv_l, fmap_nil_inv in HF as ->. exists rest. split; [|done].
    rewrite parseTag_value; [done|done|cbn; tauto]. }
  destruct (formatCollection_shape c_lbracket c_rbracket texts depth indent Hne) as (w1 & w2 & w3 & -> & H1 & H2 & H3).
  assert (Forall value_start texts) as Hstart.
  { eapply Forall2_Forall_l; [exact HF|]. apply Forall_true. by intros ft text [? _]. }
  assert (∀ us, value_start (join (c_comma :: w2) texts ++ us)) as Hjoin.
  { intros us. destruct Hstart as [|t ts Ht _]; [done|]. apply value_start_app.
    destruct ts; [done|]. by apply value_start_app. }
  rewrite <-!app_assoc. cbn [app]. rewrite parseTag_value by (done || (cbn; tauto)). cbv zeta. cbn [starts Z.eqb Pos.eqb].
  unfold parseListOrArray. cbn [drop]. rewrite bind_skip, drop_0, skip_spaces, skip_value by done.
  rewrite (bind_got array_prefix _ _ None (join (c_comma :: w2) texts ++ w3 ++ c_rbracket :: rest)).
  2: { specialize (Hjoin (w3 ++ c_rbracket :: rest)). unfold array_prefix. destruct (_ ++ _) as [|u us]; [done|].
       apply value_start_range in Hjoin. unfold array_kind. by_range. done. }
  rewrite bind_take, value_not_close, bind_here by auto.
  assert (length texts ≤ length (join (c_comma :: w2) texts))%nat as Hlen.
  { apply join_length, (Forall_impl _ _ _ Hstart). by intros [|]. }
  pose proof (elements_read _ w2 w3 H2 H3 texts _ (S (length (join (c_comma :: w2) texts ++ w3 ++ c_rbracket :: rest)))
    rest Hne ltac:(rewrite length_app; lia) HF) as Hread.
  cbv zeta in Hread. rewrite <-!app_assoc in Hread. cbn [app] in Hread.
  replace (forallb keys_named value) with (forallb fst ((λ t, (keys_named t, respell t)) <$> value)).
  2: { clear. induction value as [|t value IH]; [done|]. cbn. cbn in IH. by rewrite IH. }
  destruct (forallb fst _).
  - exists rest. split; [|done]. rewrite (bind_got _ _ _ _ _ Hread). unfold list_tag. cbn [respell].
    rewrite <-list_fmap_compose. change (snd ∘ _) with respell. rewrite respell_first.
    replace (forallb _ (respell <$> value)) with true; [done|]. symmetry. apply forallb_forall.
    intros t (t' & -> & Hin)%list_elem_of_In%list_elem_of_fmap. apply bool_decide_eq_true. rewrite respell_type.
    rewrite Forall_forall in Htype. destruct value as [|t0 value]; [by apply not_elem_of_nil in Hin|].
    cbn [first_type]. rewrite (Htype t0) by left. by apply Htype.
  - destruct Hread as [from Hread]. exists from. by apply bind_fails.
Qed.

Lemma entries_texts (child : Parser NbtTag) (format : NbtTag → Result string JsString) value :
  Forall (λ e, ∃ text, format e.2 = Ok text ∧ gives (keys_named e.2) child (32 :: text) (respell e.2)) value →
  ∃ es, format_each (λ e, let! text := format e.2 in Ok (formatKey e.1 ++ js ": " ++ text)) value
          = Ok (entry_text <$> es) ∧
    Forall (λ e, gives e.2.1.1 child (32 :: e.2.1.2) e.2.2) es ∧
    forallb entry_fit es = keys_named (TCompound value) ∧
    (λ e, (e.1, e.2.2)) <$> es = (λ e, (e.1, respell e.2)) <$> value.
Proof.
  induction 1 as [|[name tag] value (text & Ht & Hg) _ (es & He & HF & Hfit & Hes)]; [by exists []|].
  exists ((name, (keys_named tag, text, respell tag)) :: es). cbn in *. rewrite Ht, He, Hfit, Hes.
  split; [done|]. split; [by constructor|]. done.
Qed.

Lemma compound_gives levels depth indent value es :
  depth <= maxSnbtDepth →
  Forall (λ e, gives e.2.1.1 (parseTag bc levels (depth + 1)) (32 :: e.2.1.2) e.2.2) es →
  forallb entry_fit es = keys_named (TCompound value) →
  (λ e, (e.1, e.2.2)) <$> es = (λ e, (e.1, respell e.2)) <$> value →
  gives (keys_named (TCompound value)) (parseTag bc (S levels) depth)
    (formatCollection c_lbrace c_rbrace (entry_text <$> es) depth indent) (respell (TCompound value)).
Proof.
  intros Hd HF Hfit Hes rest Hr. destruct (decide (es = [])) as [->|Hne].
  { symmetry in Hes. apply fmap_nil_inv in Hes as ->. exists rest. split; [|done].
    rewrite parseTag_value; [done|done|cbn; tauto]. }
  destruct (formatCollection_shape c_lbrace c_rbrace (entry_text <$> es) depth indent) as
    (w1 & w2 & w3 & -> & H1 & H2 & H3); [by intros ?%fmap_nil_inv|].
  rewrite <-!app_assoc. cbn [app]. rewrite parseTag_value by (done || (cbn; tauto)). cbv zeta. cbn [starts Z.eqb Pos.eqb].
  unfold parseCompound. cbn [drop]. rewrite drop_0.
  assert (∃ name us, join (c_comma :: w2) (entry_text <$> es) = formatKey name ++ us) as (name & us & Ej).
  { destruct es as [|e es]; [done|]. exists e.1. unfold entry_text. destruct es; cbn; rewrite <-?app_assoc; eauto. }
  assert (length es ≤ length (join (c_comma :: w2) (entry_text <$> es)))%nat as Hlen.
  { rewrite <-(length_fmap entry_text es). apply join_length, Forall_fmap, Forall_true. intros e. unfold entry_text.
    cbn. by destruct (formatKey e.1). }
  pose proof (entries_read bc _ w2 w3 H2 H3 es (S (length (join (c_comma :: w2) (entry_text <$> es) ++ w3 ++ c_rbrace :: rest)))
    rest Hne ltac:(rewrite length_app; lia) HF) as Hread.
  cbv zeta in Hread. rewrite <-!app_assoc in Hread. cbn [app] in Hread.
  destruct (formatKey_solid name (us ++ w3 ++ c_rbrace :: rest)) as [Hsolid Hclose].
  rewrite bind_skip, skip_spaces by done. rewrite Ej in *. rewrite <-!app_assoc in Hread |- *.
  rewrite Hsolid, bind_take, Hclose, bind_here.
  rewrite <-Hfit. destruct (forallb entry_fit es).
  - exists rest. split; [|done]. rewrite (bind_got _ _ _ _ _ Hread). cbn [respell]. by rewrite Hes.
  - destruct Hread as [from Hread]. exists from. by apply bind_fails.
Qed.
Lemma decimal_gives levels depth v (float : bool) :
  depth <= maxSnbtDepth → number_ok v → isFinite v = true →
  ∃ text, formatDecimal v = Ok text ∧ value_start (text ++ [if float then 102 else 100]) ∧
    gives true (parseTag bc (S levels) depth) (text ++ [if float then 102 else 100])
      (if float then TFloat (unsigned_zero v) else TDouble (unsigned_zero v)).
Proof.
  intros Hd Hok Hfin. destruct (formatDecimal_text v Hok Hfin) as (b & body & E & Hf & Hn & _ & Hr).
  exists (sign_text b ++ body). split; [done|].
  assert (number_start ((sign_text b ++ body) ++ [if float then 102 else 100])) as Hs
    by (rewrite <-app_assoc; by apply number_start_text).
  split; [by apply number_value|]. apply number_gives; [done..| |].
  - rewrite forallb_app. apply andb_true_iff. split; [|by destruct float].
    apply (forallb_impl number_char), sign_number, Hn. apply number_char_bare.
  - apply parse_decimal; [done..|]. by destruct v as [| |? [] ?].
Qed.

Lemma integer_gives levels depth v suffix :
  depth <= maxSnbtDepth → integer_suffix suffix = true →
  - 2 ^ (integer_bits suffix - 1) <= v <= 2 ^ (integer_bits suffix - 1) - 1 →
  value_start (print_int v ++ suffix_text suffix) ∧
  gives true (parseTag bc (S levels) depth) (print_int v ++ suffix_text suffix) (integer_tag suffix v).
Proof.
  intros Hd Hs Hv. pose proof (integer_start v suffix). split; [by apply number_value|].
  apply number_gives; [done..|by apply integer_bare|by apply parse_integer].
Qed.

Lemma format_gives tag : ∀ levels depth indent,
  nbt_ok depth tag → (Z.to_nat (maxSnbtDepth - depth) < levels)%nat →
  ∃ text, formatTag depth indent tag = Ok text ∧ value_start text ∧
    gives (keys_named tag) (parseTag bc levels depth) text (respell tag).
Proof.
  induction tag as [v|v|v|v|v|v|v|v|t v IH|v IH|v|v] using NbtTag_rect'; intros [|levels] depth indent [Hd Hok] Hl;
    try lia; cbn [formatTag respell keys_named].
  - eexists. split; [done|]. apply (integer_gives _ _ v (Some SufByte)); [done..|]. by apply (int_ok_range 1).
  - eexists. split; [done|]. apply (integer_gives _ _ v (Some SufShort)); [done..|]. by apply (int_ok_range 2).
  - eexists. split; [done|]. rewrite <-(app_nil_r (print_int v)).
    apply (integer_gives _ _ v None); [done..|]. by apply (int_ok_range 4).
  - eexists. split; [done|]. apply (integer_gives _ _ v (Some SufLong)); [done..|]. by apply (int_ok_range 8).
  - destruct Hok as (Hok & Hfin & _). destruct (decimal_gives levels depth v true Hd Hok Hfin) as (text & -> & H).
    by eexists.
  - destruct Hok as [Hok Hfin]. destruct (decimal_gives levels depth v false Hd Hok Hfin) as (text & -> & H).
    by eexists.
  - eexists. split; [done|]. split; [cbn; tauto|]. by apply (array_gives levels depth ArrayB v).
  - eexists. split; [done|]. split; [rewrite quoteString_eq; by left|]. by apply string_gives.
  - destruct Hok as ((type & -> & Htype) & Hok%foldr_and).
    destruct (format_each_ok (formatTag (depth + 1) indent)
      (λ text ft, value_start text ∧ gives ft.1 (parseTag bc levels (depth + 1)) text ft.2)
      (λ t, (keys_named t, respell t)) v) as (texts & -> & HF).
    { rewrite Forall_forall in IH, Hok |- *. intros t Hin. apply IH; [done|by apply Hok|].
      specialize (Hok t Hin). assert (depth + 1 <= maxSnbtDepth) by (by destruct t, Hok). lia. }
    eexists. split; [done|]. split; [|by apply (list_gives _ _ _ type)].
    unfold formatCollection. repeat case_match; cbn; tauto.
  - apply foldr_and in Hok. destruct (entries_texts (parseTag bc levels (depth + 1)) (formatTag (depth + 1) indent) v)
      as (es & He & HF & Hfit & Hes).
    { rewrite Forall_forall in IH, Hok |- *. intros e Hin. destruct (Hok e Hin) as [_ Hok'].
      assert (depth + 1 <= maxSnbtDepth) by (by destruct e.2, Hok').
      destruct (IH e Hin levels (depth + 1) indent Hok' ltac:(lia)) as (text & Ht & Hs & Hg).
      exists text. split; [done|]. intros rest Hr. cbn [app]. rewrite parseTag_space by done. by apply Hg. }
    rewrite He. eexists. split; [done|]. split; [|by apply compound_gives].
    unfold formatCollection. repeat case_match; cbn; tauto.
  - eexists. split; [done|]. split; [cbn; tauto|]. 
    pose proof (array_gives levels depth ArrayI v Hd Hok) as H.
    rewrite (list_fmap_ext _ print_int) in H; [done|]. intros _ x _. apply app_nil_r.
  - eexists. split; [done|]. split; [cbn; tauto|]. by apply (array_gives levels depth ArrayL v).
Qed.
End Values.

Lemma format_parses bc tag indent :
  nbt_ok 0 tag →
  ∃ text, formatSnbt tag indent = Ok text ∧
    if keys_named tag then parseSnbt text bc = Some (Ok (respell tag))
    else ∃ from, parseSnbt text bc = Some (Throw (parse_error text key_message from)).
Proof.
  intros Hok. destruct (format_gives bc tag snbt_levels 0 (Z.max 0 indent) Hok) as (text & Ht & Hs & Hg).
  { unfold snbt_levels. unfold maxSnbtDepth. lia. }
  unfold formatSnbt. rewrite Ht. exists (text ++ [10]). split; [done|].
  specialize (Hg [10] eq_refl). unfold parseSnbt, parse_root.
  assert (∀ (k : unit → Parser NbtTag), (skipWhitespace ≫= k) (text ++ [10]) = k tt (text ++ [10])) as Hskip.
  { intros k. rewrite bind_skip. by rewrite skip_value by by apply value_start_app. }
  rewrite Hskip, bind_here, bool_decide_false by by destruct text.
  destruct (keys_named tag).
  - destruct Hg as (rest' & Hg & Hr). rewrite (bind_got _ _ _ _ _ Hg), bind_skip, Hr. done.
  - destruct Hg as (from & Hg). exists from. by rewrite (bind_fails _ _ _ _ _ Hg).
Qed.

(** C26: What is formatted parses back. Every tag a file can hold is written
    as text, at any indentation, and parsing the text gives the tag: every
    integer, every float and double digit for digit, every string whatever
    characters it has, every array, list and compound in its order. Only a
    zero loses its sign, and an empty list its element type. The one tag whose
    text is refused is one with an empty key, which is written as
    two quotes and read as no key. *)
Theorem snbt_format_parse tag indent binaryCompatible :
  nbt_ok 0 tag →
  ∃ text, formatSnbt tag indent = Ok text ∧
    if keys_named tag then parseSnbt text binaryCompatible = Some (Ok (respell tag))
    else ∃ from, parseSnbt text binaryCompatible =
      Some (Throw (parse_error text (js "Expected a compound key") from)).
Proof. intros Hok. exact (format_parses binaryCompatible tag indent Hok). Qed.

(** A tag with text to escape and numbers of every kind, and one a mixed list
    becomes, as binary files hold it. *)
Definition sample_snbt : NbtTag :=
  TCompound [([97; 32; 98], TString [34; 92; 10; 0xD83D; 0xDE00]); ([99], TList (Some tag_double)
    [TDouble (Finite true 3 (-1)); TDouble (Finite true 0 0); TDouble (Finite false 1 100)]);
    ([100], TList (Some tag_end) []); ([101], TLongArray [-9223372036854775808]);
    ([102], TFloat (Finite false 5 (-3)))].

Definition keyless_snbt : NbtTag := TList (Some tag_compound) [TCompound [([], TInt 1)]].

(** A tag that is read from what is written for it is one a file can hold. *)
Lemma read_ok tag source : decodeNbt source = Got (MkNamed [] tag) [] → nbt_ok 0 tag.
Proof. intros E. pose proof (root_reads source) as H. rewrite E in H. by destruct H as (_ & _ & H & _). Qed.

Definition bytes_of (tag : NbtTag) : list byte :=
  match encodeNbt (MkNamed [] tag) with Ok source => source | Throw _ => [] end.

Example snbt_format_parse_witness :
  (∃ text, formatSnbt sample_snbt 2 = Ok text ∧
     parseSnbt text true = Some (Ok (respell sample_snbt))) ∧
  (∃ text, formatSnbt keyless_snbt 0 = Ok text ∧
     ∃ from, parseSnbt text true = Some (Throw (parse_error text (js "Expected a compound key") from))).
Proof.
  assert (nbt_ok 0 sample_snbt) as H1 by (apply (read_ok _ (bytes_of sample_snbt)); vm_compute; reflexivity).
  assert (nbt_ok 0 keyless_snbt) as H2 by (apply (read_ok _ (bytes_of keyless_snbt)); vm_compute; reflexivity).
  assert (keys_named sample_snbt = true) as K1 by (vm_compute; reflexivity).
  assert (keys_named keyless_snbt = false) as K2 by (vm_compute; reflexivity).
  pose proof (snbt_format_parse sample_snbt 2 true H1) as W1.
  pose proof (snbt_format_parse keyless_snbt 0 true H2) as W2.
  rewrite K1 in W1. rewrite K2 in W2. exact (conj W1 W2).
Defined.

(** Strings without quotes that are refused as if they were numbers: [oak_log]
    and [stones]. *)
Example strings_taken_for_numbers :
  (∃ from, parseSnbt [111; 97; 107; 95; 108; 111; 103] true = Some (Throw (parse_error [111; 97; 107; 95; 108; 111; 103]
     (js "Numeric separators must appear between digits") from))) ∧
  (∃ from, parseSnbt [115; 116; 111; 110; 101; 115] true = Some (Throw (parse_error [115; 116; 111; 110; 101; 115]
     (js "Integer suffix cannot be used on a decimal") from))).
Proof.
  split; [exists (drop 3 [111; 97; 107; 95; 108; 111; 103])|exists [115; 116; 111; 110; 101; 115]];
    vm_compute; reflexivity.
Qed.
