(* ===== verification/SnbtTotal.v ===== *)
(** * SNBT: the parser on every text

    Properties of [Snbt]'s parser: it ends on every text, the tag it gives is
    well typed, and the error it gives points into the text. *)
From S2P Require Import Prelude Bytes Utf8 Nbt NbtFacts Decimals Snbt SnbtFacts.

Open Scope Z_scope.

(** ** Texts and their ends *)

Lemma suffix_drop n (us : JsString) : drop n us `suffix_of` us.
Proof. exists (take n us). by rewrite take_drop. Qed.

Lemma span_suffix f us : (span f us).2 `suffix_of` us.
Proof. exists (span f us).1. apply span_split. Qed.

Lemma skip_suffix us : skip us `suffix_of` us.
Proof. apply span_suffix. Qed.

Lemma suffix_units us vs : us `suffix_of` vs → forallb unit_ok vs = true → forallb unit_ok us = true.
Proof. intros [k ->]. rewrite forallb_app. by intros [_ H]%andb_true_iff. Qed.

Lemma span_units f us : forallb unit_ok us = true → forallb unit_ok (span f us).1 = true.
Proof. rewrite (proj1 (span_split f us)) at 1. rewrite forallb_app. by intros [H _]%andb_true_iff. Qed.

Lemma starts_shorter c us : starts c us = true → (length (drop 1 us) < length us)%nat.
Proof. destruct us as [|u us]; [done|]. cbn. rewrite drop_0. lia. Qed.

(** ** What a parser does *)

Section Fine.
Context (source : JsString).

(** A parser ends, with a value that is as it should be and what is left of
    the text, or with an error in the source. *)
Definition fine {A} (P : A → Prop) (us : JsString) (r : Parse A) : Prop :=
  match r with
  | PGot a rest => P a ∧ rest `suffix_of` us
  | PFails _ from => from `suffix_of` source
  | PFuel => False
  end.

Lemma fine_weaken {A} (P : A → Prop) us vs r : us `suffix_of` vs → fine P us r → fine P vs r.
Proof. destruct r; cbn; [|done..]. intros Hs [? ?]. split; [done|]. by etrans. Qed.

Lemma fine_impl {A} (P Q : A → Prop) us r : (∀ a, P a → Q a) → fine P us r → fine Q us r.
Proof. destruct r; cbn; [|done..]. intros Hi [? ?]. auto. Qed.

Lemma fine_bind {A B} (Q : A → Prop) (P : B → Prop) (p : Parser A) (k : A → Parser B) us :
  fine Q us (p us) → (∀ a rest, Q a → rest `suffix_of` us → fine P rest (k a rest)) → fine P us ((p ≫= k) us).
Proof.
  unfold mbind, Parser_bind. destruct (p us) as [a rest|m from|]; cbn; [|done..].
  intros [HQ Hs] Hk. by apply (fine_weaken _ rest), Hk.
Qed.

Lemma fine_ret {A} (P : A → Prop) a us : P a → fine P us ((mret a : Parser A) us).
Proof. by split. Qed.

Lemma fine_here {A} (P : A → Prop) (k : JsString → Parser A) us : fine P us (k us us) → fine P us ((here ≫= k) us).
Proof. done. Qed.

Lemma fine_skip {A} (P : A → Prop) (k : unit → Parser A) us :
  (∀ us', us' `suffix_of` us → fine P us' (k tt us')) → fine P us ((skipWhitespace ≫= k) us).
Proof. intros H. rewrite bind_skip. apply (fine_weaken _ (skip us)); [|apply H]; apply skip_suffix. Qed.

Lemma fine_take {A} (P : A → Prop) c (k : bool → Parser A) us :
  (∀ us', us' `suffix_of` us → fine P us' (k true us')) → fine P us (k false us) → fine P us ((take_char c ≫= k) us).
Proof.
  intros H1 H2. rewrite bind_take. destruct (starts c us); [|done].
  apply (fine_weaken _ (drop 1 us)); [|apply H1]; apply suffix_drop.
Qed.

(** A character that is expected is taken, and the text is shorter. *)
Lemma fine_expect {A} (P : A → Prop) c message (k : unit → Parser A) us :
  us `suffix_of` source →
  (∀ us', us' `suffix_of` us → (length us' < length us)%nat → fine P us' (k tt us')) →
  fine P us ((expect c message ≫= k) us).
Proof.
  intros Hs H. rewrite bind_expect. destruct (starts c us) eqn:E; [|done].
  apply (fine_weaken _ (drop 1 us)); [|apply H]; try apply suffix_drop. by apply (starts_shorter c).
Qed.

Lemma fine_fail {A} (P : A → Prop) message from us :
  from `suffix_of` source → fine P us ((fail_at message from : Parser A) us).
Proof. done. Qed.
Lemma fine_fail_here {A} (P : A → Prop) message us :
  us `suffix_of` source → fine P us ((fail_here message : Parser A) us).
Proof. done. Qed.
End Fine.

(** ** Strings and numbers *)

Lemma hex_digit_nonneg u : is_hex u = true → 0 <= hex_digit u.
Proof.
  unfold is_hex, hex_digit. rewrite !orb_true_iff, !between_true, is_digit_spec. intros H.
  destruct (is_digit u) eqn:Ed; [apply is_digit_spec in Ed; lia|]. destruct (between 97 102 u) eqn:Eb.
  - apply between_true in Eb. lia.
  - assert (¬ (48 <= u <= 57)) by (rewrite <-is_digit_spec; congruence).
    assert (¬ (97 <= u <= 102)) by (rewrite <-between_true; congruence). lia.
Qed.

Lemma read_base_nonneg base us : 0 <= base → forallb is_hex us = true → 0 <= read_base base us.
Proof.
  intros Hb. assert (∀ n, 0 <= n → forallb is_hex us = true → 0 <= fold_left (λ n u, base * n + hex_digit u) us n) as H.
  { induction us as [|u us IH]; [done|]. cbn. intros n Hn [Hu%hex_digit_nonneg Hus]%andb_true_iff. apply IH; [nia|done]. }
  by apply H.
Qed.

Lemma of_scalar_units c : 0 <= c <= 0x10ffff → forallb unit_ok (of_scalar c) = true.
Proof.
  intros H. unfold of_scalar, unit_ok, between. destruct (Z.ltb_spec c 0x10000); cbn; [lia|].
  Z.div_mod_to_equations. lia.
Qed.

Lemma asIntN_range bits z : 0 < bits → - 2 ^ (bits - 1) <= asIntN bits z <= 2 ^ (bits - 1) - 1.
Proof.
  intros Hb. unfold asIntN. assert (2 ^ bits = 2 * 2 ^ (bits - 1)) as E by (rewrite <-Z.pow_succ_r by lia; f_equal; lia).
  assert (0 < 2 ^ (bits - 1)) by (apply Z.pow_pos_nonneg; lia). 
  pose proof (Z.mod_pos_bound (z + 2 ^ (bits - 1)) (2 ^ bits)). lia.
Qed.

Lemma int_ok_bits n v : - 2 ^ (8 * Z.of_nat n - 1) <= v <= 2 ^ (8 * Z.of_nat n - 1) - 1 → int_ok n v = true.
Proof. unfold int_ok. rewrite andb_true_iff, Z.leb_le, Z.ltb_lt. lia. Qed.

(** A number that is one of its type. *)
Definition number_tag_ok (tag : NbtTag) : Prop :=
  match tag with
  | TByte v => int_ok 1 v = true
  | TShort v => int_ok 2 v = true
  | TInt v => int_ok 4 v = true
  | TLong v => int_ok 8 v = true
  | TFloat v | TDouble v => number_ok v ∧ isFinite v = true
  | _ => False
  end.

Lemma integer_tag_ok suffix v :
  - 2 ^ (integer_bits suffix - 1) <= v <= 2 ^ (integer_bits suffix - 1) - 1 → number_tag_ok (integer_tag suffix v).
Proof. destruct suffix as [[]|]; cbn [integer_tag number_tag_ok]; intros H; by apply int_ok_bits. Qed.

Lemma decimal_value_ok negative s e : isFinite (decimal_value negative s e) = true → number_ok (decimal_value negative s e).
Proof. unfold decimal_value. repeat case_match; by apply of_bits_in_format. Qed.

Lemma read_decimal_ok us v : read_decimal us = Some v → isFinite v = true → number_ok v.
Proof.
  unfold read_decimal. repeat (case_match; try done). intros [= <-]. apply decimal_value_ok.
Qed.

Lemma parseNumericTag_ok token tag : parseNumericTag token = NumericTag tag → number_tag_ok tag.
Proof.
  unfold parseNumericTag. destruct (split_suffix _ _) as [[body unsigned] suffix].
  destruct (bad_separator _ _ _ _); [done|]. destruct (_ || _ && _).
  - destruct (_ && _); [done|]. destruct (read_decimal _) as [v|] eqn:Ev; [|done].
    destruct (isFinite v) eqn:Ef; [|done]. cbn [negb]. pose proof (read_decimal_ok _ _ Ev Ef).
    destruct (decide _); by intros [= <-].
  - destruct (read_integer _) as [magnitude|]; [|done]. destruct (_ && _); [done|]. cbv zeta.
    set (v := if starts c_minus _ then _ else _). destruct unsigned; destruct (_ || _) eqn:E; try done; intros [= <-].
    + apply integer_tag_ok, asIntN_range. by destruct suffix as [[]|].
    + apply integer_tag_ok. apply orb_false_iff in E. rewrite !Z.ltb_ge in E. lia.
Qed.

(** A tag as a text can give it, at a depth of nesting: numbers of their type,
    text of code units, lists of one type or said to be mixed, which files
    cannot hold. The parser for files nests mixed lists in compounds of its
    own, deeper and without names. *)
Fixpoint snbt_ok (binaryCompatible : bool) (depth : Z) (tag : NbtTag) : Prop :=
  (binaryCompatible = false → depth <= maxSnbtDepth) ∧
  match tag with
  | TByteArray v => Forall (λ v, int_ok 1 v = true) v
  | TIntArray v => Forall (λ v, int_ok 4 v = true) v
  | TLongArray v => Forall (λ v, int_ok 8 v = true) v
  | TString v => forallb unit_ok v = true
  | TList elementType v =>
      match elementType with
      | Some type => Forall (λ t, tag_type t = type) v
      | None => binaryCompatible = false
      end ∧
      foldr (λ t p, snbt_ok binaryCompatible (depth + 1) t ∧ p) True v
  | TCompound v =>
      foldr (λ e p, (forallb unit_ok e.1 = true ∧ (e.1 = [] → binaryCompatible = true) ∧
                     snbt_ok binaryCompatible (depth + 1) e.2) ∧ p) True v
  | _ => number_tag_ok tag
  end.

Lemma number_snbt_ok bc depth tag : (bc = false → depth <= maxSnbtDepth) → number_tag_ok tag → snbt_ok bc depth tag.
Proof. by destruct tag. Qed.

(** Where no depth is a limit, deeper is as good. *)
Lemma snbt_ok_depth tag : ∀ depth depth', snbt_ok true depth tag → snbt_ok true depth' tag.
Proof.
  induction tag as [v|v|v|v|v|v|v|v|t v IH|v IH|v|v] using NbtTag_rect'; intros depth depth' [_ H];
    (split; [done|]); try exact H.
  - destruct H as [Ht H]. split; [done|]. rewrite foldr_and in H |- *. rewrite Forall_forall in IH, H |- *.
    intros t' Hin. by eapply IH, H.
  - rewrite foldr_and in H |- *. rewrite Forall_forall in IH, H |- *. intros e Hin.
    destruct (H e Hin) as (? & ? & He). split; [done|]. split; [done|]. by eapply IH.
Qed.

Section Parsers.
Context (source : JsString) (bc : bool).
Hypothesis source_units : forallb unit_ok source = true.

Notation fine := (fine source).
Notation text_ok := (λ s : JsString, forallb unit_ok s = true).

Lemma at_units us : us `suffix_of` source → forallb unit_ok us = true.
Proof. intros H. by apply (suffix_units _ source). Qed.

Lemma token_fine f us : us `suffix_of` source →
  fine text_ok us (let '(token, rest) := span f us in PGot token rest).
Proof.
  intros Hs. pose proof (span_units f us (at_units _ Hs)). pose proof (span_suffix f us).
  by destruct (span f us) as [token rest].
Qed.

Lemma parse_escape_fine escape us :
  escape `suffix_of` source → us `suffix_of` source → fine text_ok us (parse_escape bc escape us).
Proof.
  intros He Hs. destruct us as [|u us]; [done|]. pose proof (at_units _ Hs) as Hu. cbn in Hu.
  apply andb_true_iff in Hu as [Hu Hus].
  assert (us `suffix_of` u :: us) as H1 by (by exists [u]). assert (us `suffix_of` source) as Hs' by (by etrans).
  unfold parse_escape. destruct (simple_escape u) as [value|] eqn:Ev.
  { split; [|done]. revert Ev. unfold simple_escape. repeat case_match; intros [= <-]; try done. cbn. by rewrite Hu. }
  cbv zeta. destruct (0 <? escape_digits u)%nat.
  - destruct (negb _) eqn:E; [done|]. apply negb_false_iff, andb_true_iff in E as [_ Hhex].
    destruct (Z.ltb_spec 0x10ffff (read_base 16 (take (escape_digits u) us))); [done|]. split.
    + apply of_scalar_units. split; [|done]. by apply read_base_nonneg.
    + etrans; [apply suffix_drop|done].
  - destruct (_ && _); [|done].
    pose proof (span_units (λ u, negb (u =? c_rbrace)) (drop 1 us)
      (suffix_units _ _ (suffix_drop 1 us) Hus)) as Hname.
    pose proof (span_suffix (λ u, negb (u =? c_rbrace)) (drop 1 us)) as Hrest.
    destruct (span _ (drop 1 us)) as [name rest]. cbn [fst snd] in Hname, Hrest. destruct (_ || _); [done|].
    destruct bc; [done|]. split; [by rewrite !forallb_app, Hname|]. etrans; [apply suffix_drop|]. etrans; [done|].
    etrans; [apply suffix_drop|done].
Qed.

Lemma quoted_fine fuel quote : ∀ us,
  us `suffix_of` source → (length us ≤ fuel)%nat → fine text_ok us (quoted bc fuel quote us).
Proof.
  induction fuel as [|fuel IH]; intros [|u us] Hs Hf; cbn in Hf; try lia.
  1,2: cbn; apply suffix_nil.
  assert (us `suffix_of` u :: us) as H1 by (by exists [u]). assert (us `suffix_of` source) as Hs' by (by etrans).
  pose proof (at_units _ Hs) as Hu. cbn in Hu. apply andb_true_iff in Hu as [Hu _].
  cbn [quoted]. destruct (u =? quote); [by split|]. destruct (negb (u =? c_backslash)).
  - specialize (IH us Hs' ltac:(lia)). destruct (quoted bc fuel quote us) as [value rest|m from|]; [|done..].
    destruct IH as [Hv Hr]. split; [cbn; by rewrite Hu, Hv|]. by etrans.
  - pose proof (parse_escape_fine (u :: us) us Hs Hs') as He.
    destruct (parse_escape bc (u :: us) us) as [chunk rest|m from|]; [|done..]. destruct He as [Hc Hr].
    specialize (IH rest ltac:(by etrans)). pose proof (suffix_length _ _ Hr).
    specialize (IH ltac:(lia)). destruct (quoted bc fuel quote rest) as [value rest'|m from|]; [|done..].
    destruct IH as [Hv Hr']. split; [by rewrite forallb_app, Hc, Hv|]. do 2 (etrans; [done|]). done.
Qed.

Lemma parseQuotedString_fine us : us `suffix_of` source → fine text_ok us (parseQuotedString bc us).
Proof.
  intros Hs. destruct us as [|u us]; [by apply suffix_nil|]. assert (us `suffix_of` u :: us) as H1 by (by exists [u]).
  cbn. apply (fine_weaken _ _ us); [done|]. apply quoted_fine; [by etrans|done].
Qed.

Lemma numeric_fine start token us :
  start `suffix_of` source → fine (from_option number_tag_ok True) us (numeric_at start token us).
Proof.
  intros Hs. unfold numeric_at. destruct (parseNumericTag token) eqn:E; cbn; [done| |].
  - split; [by apply parseNumericTag_ok in E|done].
  - etrans; [apply suffix_drop|done].
Qed.
Notation at_source us := (us `suffix_of` source).
Notation number_ok kind := (λ v, int_ok (array_bytes kind) v = true).

Lemma coerce_fine kind start value us :
  at_source start → fine (number_ok kind) us (coerceArrayInteger kind start value us).
Proof.
  intros Hs. unfold coerceArrayInteger. cbv zeta. destruct (_ || _) eqn:E; [done|].
  apply orb_false_iff in E. rewrite !Z.ltb_ge in E. split; [|done]. apply int_ok_bits. destruct kind; cbn in *; lia.
Qed.

Lemma parse_numbers_fine kind : ∀ fuel us,
  at_source us → (length us < fuel)%nat → fine (Forall (number_ok kind)) us (parse_numbers fuel kind us).
Proof.
  induction fuel as [|fuel IH]; intros us Hs Hf; [lia|]. cbn [parse_numbers].
  apply fine_skip. intros us1 H1. assert (at_source us1) as A1 by (by etrans). apply fine_here.
  eapply fine_bind; [by apply token_fine|]. intros token us2 _ H2. assert (at_source us2) as A2 by (by etrans).
  case_bool_decide; [by apply fine_fail|].
  eapply fine_bind; [by apply numeric_fine|]. intros numeric us3 _ H3. assert (at_source us3) as A3 by (by etrans).
  destruct (numeric ≫= integer_value) as [value|]; [|by apply fine_fail].
  eapply fine_bind; [by apply coerce_fine|]. intros number us4 Hn H4. assert (at_source us4) as A4 by (by etrans).
  apply fine_skip. intros us5 H5. assert (at_source us5) as A5 by (by etrans).
  apply fine_take; [intros us6 _; apply fine_ret; by constructor|].
  apply fine_expect; [done|]. intros us6 H6 Hlt. assert (at_source us6) as A6 by (by etrans).
  apply fine_skip. intros us7 H7. assert (at_source us7) as A7 by (by etrans). apply fine_here.
  destruct (starts c_rbracket us7); [by apply fine_fail_here|].
  eapply fine_bind.
  - apply IH; [done|]. apply suffix_length in H1, H2, H3, H4, H5, H6, H7. lia.
  - intros numbers us8 Hns _. apply fine_ret. by constructor.
Qed.

Lemma parseArray_fine kind depth us :
  (bc = false → depth <= maxSnbtDepth) → at_source us → fine (snbt_ok bc depth) us (parseArray kind us).
Proof.
  intros Hd Hs. assert (∀ vs, Forall (number_ok kind) vs → snbt_ok bc depth (arrayTag kind vs)) as Hok by (by destruct kind).
  unfold parseArray. apply fine_skip. intros us1 H1. assert (at_source us1) as A1 by (by etrans).
  apply fine_take; [intros us2 _; apply fine_ret; by apply Hok|]. apply fine_here.
  eapply fine_bind; [apply parse_numbers_fine; [done|lia]|]. intros numbers us3 Hn _. by apply fine_ret, Hok.
Qed.

Section Children.
Context (child : Parser NbtTag) (depth : Z).
Hypothesis depth_ok : bc = false → depth <= maxSnbtDepth.
Hypothesis child_fine : ∀ us, at_source us → fine (snbt_ok bc (depth + 1)) us (child us).

Notation entry_ok := (λ e : JsString * NbtTag,
  forallb unit_ok e.1 = true ∧ (e.1 = [] → bc = true) ∧ snbt_ok bc (depth + 1) e.2).

Lemma parse_entries_fine : ∀ fuel us,
  at_source us → (length us < fuel)%nat → fine (Forall entry_ok) us (parse_entries bc child fuel us).
Proof.
  induction fuel as [|fuel IH]; intros us Hs Hf; [lia|]. cbn [parse_entries].
  apply fine_skip. intros us1 H1. assert (at_source us1) as A1 by (by etrans). apply fine_here.
  apply (fine_bind _ text_ok).
  { destruct (_ || _); [by apply parseQuotedString_fine|by apply token_fine]. }
  intros name us2 Hn H2. assert (at_source us2) as A2 by (by etrans).
  case_bool_decide as Hname; [by apply fine_fail_here|].
  apply fine_skip. intros us3 H3. assert (at_source us3) as A3 by (by etrans).
  apply fine_expect; [done|]. intros us4 H4 Hlt. assert (at_source us4) as A4 by (by etrans).
  eapply fine_bind; [by apply child_fine|]. intros tag us5 Ht H5. assert (at_source us5) as A5 by (by etrans).
  assert (entry_ok (name, tag)) by (split; [done|]; by split).
  apply fine_skip. intros us6 H6. assert (at_source us6) as A6 by (by etrans).
  apply fine_take; [intros us7 _; apply fine_ret; by constructor|].
  apply fine_expect; [done|]. intros us7 H7 _. assert (at_source us7) as A7 by (by etrans).
  apply fine_skip. intros us8 H8. assert (at_source us8) as A8 by (by etrans). apply fine_here.
  destruct (starts c_rbrace us8); [by apply fine_fail_here|].
  eapply fine_bind.
  - apply IH; [done|]. apply suffix_length in H1, H2, H3, H4, H5, H6, H7, H8. lia.
  - intros entries us9 Hes _. apply fine_ret. by constructor.
Qed.

Lemma parse_elements_fine : ∀ fuel us,
  at_source us → (length us < fuel)%nat →
  fine (λ l, l ≠ [] ∧ Forall (snbt_ok bc (depth + 1)) l) us (parse_elements child fuel us).
Proof.
  induction fuel as [|fuel IH]; intros us Hs Hf; [lia|]. cbn [parse_elements].
  eapply fine_bind; [by apply child_fine|]. intros tag us1 Ht H1. assert (at_source us1) as A1 by (by etrans).
  apply fine_skip. intros us2 H2. assert (at_source us2) as A2 by (by etrans).
  apply fine_take; [intros us3 _; apply fine_ret; by repeat constructor|].
  apply fine_expect; [done|]. intros us3 H3 Hlt. assert (at_source us3) as A3 by (by etrans).
  apply fine_skip. intros us4 H4. assert (at_source us4) as A4 by (by etrans). apply fine_here.
  destruct (starts c_rbracket us4); [by apply fine_fail_here|].
  eapply fine_bind.
  - apply IH; [done|]. apply suffix_length in H1, H2, H3, H4. lia.
  - intros tags us5 [_ Hts] _. apply fine_ret. by repeat constructor.
Qed.

Lemma parseCompound_fine us : at_source us → fine (snbt_ok bc depth) us (parseCompound bc child us).
Proof.
  intros Hs. unfold parseCompound. pose proof (suffix_drop 1 us) as H0.
  apply (fine_weaken _ _ _ _ _ H0). apply fine_skip. intros us1 H1. assert (at_source us1) as A1 by (do 2 (etrans; [done|]); done).
  apply fine_take; [by intros us2 _; apply fine_ret|]. apply fine_here.
  eapply fine_bind; [apply parse_entries_fine; [done|lia]|]. intros value us3 Hv _. apply fine_ret.
  split; [done|]. by apply foldr_and.
Qed.

Lemma list_tag_ok value : value ≠ [] → Forall (snbt_ok bc (depth + 1)) value → snbt_ok bc depth (list_tag bc value).
Proof.
  intros Hne Hv. unfold list_tag. destruct (forallb _ value) eqn:E.
  { rewrite forallb_forall in E. split; [done|]. split; [|by apply foldr_and].
    apply Forall_forall. intros t Hin%list_elem_of_In. by eapply bool_decide_eq_true, E. }
  destruct bc; [|split; [done|]; split; [done|]; by apply foldr_and].
  split; [done|]. rewrite foldr_and, !Forall_fmap. split; apply (Forall_impl _ _ _ Hv); intros t Ht; cbn; unfold wrapped;
    (destruct (decide (tag_type t = tag_compound)); [done|]); [done|].
  split; [done|]. cbn. split; [|done]. split; [done|]. split; [done|]. by apply (snbt_ok_depth _ (depth + 1)).
Qed.

Lemma parseListOrArray_fine us : at_source us → fine (snbt_ok bc depth) us (parseListOrArray bc child us).
Proof.
  intros Hs. unfold parseListOrArray. pose proof (suffix_drop 1 us) as H0.
  apply (fine_weaken _ _ _ _ _ H0). apply fine_skip. intros us1 H1. assert (at_source us1) as A1 by (do 2 (etrans; [done|]); done).
  eapply (fine_bind _ (λ _, True)).
  { unfold array_prefix. destruct us1 as [|u us1]; [done|]. destruct (array_kind u); [|done].
    destruct (starts _ _); [|done]. split; [done|]. etrans; [apply suffix_drop|]. etrans; [apply skip_suffix|]. by exists [u]. }
  intros [kind|] us2 _ H2; assert (at_source us2) as A2 by (by etrans); [by apply parseArray_fine|].
  apply fine_take; [by intros us3 _; apply fine_ret|]. apply fine_here.
  eapply fine_bind; [apply parse_elements_fine; [done|lia]|]. intros value us4 [? ?] _. by apply fine_ret, list_tag_ok.
Qed.

Lemma uuid_tag_ok value tag : uuid_tag value = Some tag → snbt_ok bc depth tag.
Proof.
  unfold uuid_tag. destruct (_ && _); [|done]. intros [= <-]. split; [done|]. 
  repeat constructor; apply (int_ok_bits 4), (asIntN_range 32); lia.
Qed.

Lemma parseOperation_fine operation us : at_source us → fine (snbt_ok bc depth) us (parseOperation operation child us).
Proof.
  intros Hs. unfold parseOperation. pose proof (suffix_drop 1 us) as H0.
  apply (fine_weaken _ _ _ _ _ H0). assert (at_source (drop 1 us)) as A0 by (by etrans).
  eapply fine_bind; [by apply child_fine|]. intros argument us1 Ha H1. assert (at_source us1) as A1 by (by etrans).
  apply fine_skip. intros us2 H2. assert (at_source us2) as A2 by (by etrans).
  apply fine_expect; [done|]. intros us3 H3 _. assert (at_source us3) as A3 by (by etrans).
  case_bool_decide.
  - destruct (integer_value argument) as [value|]; [|by apply fine_fail_here]. apply fine_ret.
    apply number_snbt_ok; [done|]. cbn. by destruct (value =? 0).
  - destruct argument; try by apply fine_fail_here. destruct (uuid_tag value) as [tag|] eqn:E; [|by apply fine_fail_here].
    apply fine_ret. by eapply uuid_tag_ok.
Qed.

Lemma parse_bare_fine us : at_source us → fine (snbt_ok bc depth) us (parse_bare child us).
Proof.
  intros Hs. unfold parse_bare. apply fine_here.
  eapply fine_bind; [by apply token_fine|]. intros token us1 Ht H1. assert (at_source us1) as A1 by (by etrans).
  case_bool_decide; [by apply fine_fail|].
  apply fine_skip. intros us2 H2. assert (at_source us2) as A2 by (by etrans). apply fine_here.
  destruct (_ && _); [by apply parseOperation_fine|].
  case_bool_decide; [by apply fine_ret, number_snbt_ok|]. case_bool_decide; [by apply fine_ret, number_snbt_ok|].
  eapply fine_bind; [by apply numeric_fine|]. intros [tag|] us3 Htag _; [by apply fine_ret, number_snbt_ok|].
  destruct (existsb _ _); [by apply fine_fail|]. by apply fine_ret.
Qed.
End Children.

Lemma parseTag_fine : ∀ levels depth us,
  at_source us → (Z.to_nat (maxSnbtDepth + 1 - depth) ≤ levels)%nat →
  fine (snbt_ok bc depth) us (parseTag bc levels depth us).
Proof.
  induction levels as [|levels IH]; intros depth us Hs Hl; cbn [parseTag];
    (destruct (Z.ltb_spec maxSnbtDepth depth); [by apply fine_fail_here|]); [lia|]. cbv zeta.
  assert (∀ us, at_source us → fine (snbt_ok bc (depth + 1)) us (parseTag bc levels (depth + 1) us)) as Hchild.
  { intros us' Hs'. apply IH; [done|lia]. }
  apply fine_skip. intros us1 H1. assert (at_source us1) as A1 by (by etrans). apply fine_here.
  destruct (starts c_lbrace us1); [by apply parseCompound_fine|].
  destruct (starts c_lbracket us1); [by apply parseListOrArray_fine|].
  destruct (_ || _); [|by apply parse_bare_fine].
  eapply fine_bind; [by apply parseQuotedString_fine|]. intros value us2 Hv _. by apply fine_ret.
Qed.

Lemma parse_root_fine : fine (snbt_ok bc 0) source (parse_root bc source).
Proof.
  unfold parse_root. apply fine_skip. intros us1 H1. apply fine_here. case_bool_decide; [by apply fine_fail_here|].
  eapply fine_bind; [apply parseTag_fine; [done|unfold snbt_levels; lia]|]. intros tag us2 Ht H2.
  assert (at_source us2) as A2 by (by etrans). apply fine_skip. intros us3 H3. apply fine_here.
  case_bool_decide; [by apply fine_ret|]. apply fine_fail_here. by etrans.
Qed.
End Parsers.

(** ** Where an error is *)

(** The line and column of what comes after a text, from one: the line feeds
    before, and the characters after the last of them. *)
Definition located (before : JsString) (line column : Z) : Prop :=
  ∃ above text, before = above ++ text ∧ (above = [] ∨ last above = Some 10) ∧ Forall (λ u, u ≠ 10) text ∧
    line = 1 + Z.of_nat (count_occ Z.eq_dec above 10) ∧ column = 1 + Z.of_nat (length text).

Lemma count_line_feeds text : Forall (λ u, u ≠ 10) text → count_occ Z.eq_dec text 10 = 0%nat.
Proof. induction 1; [done|]. by rewrite count_occ_cons_neq. Qed.

Lemma line_column_located before : located before (line_column before).1 (line_column before).2.
Proof.
  induction before as [|u before (above & text & E & Ha & Ht & Hl & Hc)] using rev_ind.
  { exists [], []. split; [done|]. split; [by left|]. by repeat split. }
  unfold line_column in *. rewrite fold_left_app. cbn [fold_left].
  destruct (fold_left _ before (1, 1)) as [line column]. cbn [fst snd] in *. destruct (Z.eqb_spec u 10) as [->|Hu].
  - exists (before ++ [10]), []. rewrite app_nil_r. split; [done|]. split; [right; apply last_snoc|].
    split; [done|]. rewrite E, !count_occ_app, (count_line_feeds text) by done. cbn. lia.
  - exists above, (text ++ [u]). rewrite E, length_app, <-app_assoc. split; [done|]. split; [done|].
    split; [by apply Forall_app_2, Forall_singleton|]. cbn. lia.
Qed.

(** C27: Parsing always ends, on every text, with a tag or an error. The tag is
    well typed: every integer is in its type's range, every float and double
    is a finite number, and every list has one type, its elements' own; only
    where the text is not for a binary file may a list be mixed, and there no
    key is empty and nothing nests deeper than 512 levels. The error points
    into the text: its index is a place in the text or its end, its line is
    one more than the line feeds before the place, and its column one more
    than the characters since the last of them. *)
Theorem snbt_parse_total source binaryCompatible :
  forallb unit_ok source = true →
  match parseSnbt source binaryCompatible with
  | Some (Ok tag) => snbt_ok binaryCompatible 0 tag
  | Some (Throw e) =>
      0 <= e_index e <= Z.of_nat (length source) ∧
      located (take (Z.to_nat (e_index e)) source) (e_line e) (e_column e)
  | None => False
  end.
Proof.
  intros Hu. pose proof (parse_root_fine source binaryCompatible Hu) as H. unfold parseSnbt.
  destruct (parse_root binaryCompatible source) as [tag rest|message from|]; [by destruct H| |done].
  apply suffix_length in H. unfold parse_error.
  pose proof (line_column_located (take (Z.to_nat (Z.of_nat (length source) - Z.of_nat (length from))) source)) as Hl.
  destruct (line_column _) as [line column]. cbn in *. split; [lia|done].
Qed.

Example snbt_parse_total_witness :
  match parseSnbt [123; 97; 58; 10; 49; 95; 125] true with
  | Some (Throw e) =>
      0 <= e_index e <= 7 ∧ located (take (Z.to_nat (e_index e)) [123; 97; 58; 10; 49; 95; 125]) 2 2
  | _ => False
  end.
Proof. exact (snbt_parse_total [123; 97; 58; 10; 49; 95; 125] true eq_refl). Defined.
