(* ===== verification/ScheduleContract.v ===== *)
(** * What a schedule is

    Models [packages/contracts/src/schedules.ts]: a schedule's targets and
    steps, which steps run on which targets, the checks a schedule passes
    beyond its fields' own, the identities a Relay derives for what it runs,
    and the names of scheduled backups.

    Texts are code units, since their lengths and their hashes count them.
    Whether a time zone exists is the runtime's to say and whether a cron
    expression parses is the parser's: both are parameters. *)
From Stdlib Require Import Ascii.
From S2P Require Import Prelude Bytes Utf8 Nbt Decimals Snbt.
Open Scope Z_scope.

(** ** Targets and steps *)

Inductive ScheduleTargetKind := TInstance | TDatabase | TApp | TRelay.

#[global] Instance ScheduleTargetKind_eq_dec : EqDecision ScheduleTargetKind.
Proof. solve_decision. Defined.

Definition target_kind_name (kind : ScheduleTargetKind) : JsString :=
  js match kind with TInstance => "instance" | TDatabase => "database" | TApp => "app" | TRelay => "relay" end.

Record ScheduleTarget := MkTarget {
  t_id : JsString;
  t_kind : ScheduleTargetKind;
  t_name : JsString;
  t_relayId : JsString;
}.

#[global] Instance ScheduleTarget_eq_dec : EqDecision ScheduleTarget.
Proof. solve_decision. Defined.

Inductive ScheduleActionType := AtCommand | AtBackup | AtPower | AtWait.

#[global] Instance ScheduleActionType_eq_dec : EqDecision ScheduleActionType.
Proof. solve_decision. Defined.

Inductive PowerStep := StepStart | StepStop | StepRestart | StepKill.

#[global] Instance PowerStep_eq_dec : EqDecision PowerStep.
Proof. solve_decision. Defined.

Inductive ScheduleWaitUnit := Milliseconds | Seconds | Minutes | Hours | Days.

Inductive BackupMode := Full | Incremental.

#[global] Instance BackupMode_eq_dec : EqDecision BackupMode.
Proof. solve_decision. Defined.

Inductive BackupTargetKind := BInstance | BDatabase | BPlatform | BRelay | BApp | BVolume.

#[global] Instance BackupTargetKind_eq_dec : EqDecision BackupTargetKind.
Proof. solve_decision. Defined.

(** Where a step keeps its backups. *)
Inductive StepDestination := ToLocal | ToStorage (storageId : JsString).

Record S3Credential := MkS3 {
  s3_accessKeyId : option JsString;
  s3_allowPrivateNetwork : bool;
  s3_bucket : JsString;
  s3_endpoint : JsString;
  s3_forcePathStyle : bool;
  s3_region : JsString;
  s3_secretAccessKey : option JsString;
}.

Inductive ResticRepository := RepositoryLocal | RepositoryS3 (credential : S3Credential) (prefix : JsString).

(** A destination as Hearth sends it to the Relay. *)
Inductive DeployedDestination :=
  | DeployedLocal (artifactId : option JsString)
  | DeployedRestic (artifactId : option JsString) (repository : ResticRepository) (password : option JsString)
  | DeployedS3 (credential : S3Credential) (objectKeyPrefix : JsString).

Record BackupExecution := MkExecution {
  x_destination : option DeployedDestination;
  x_maxBytes : option Z;
  x_mode : BackupMode;
  x_refusal : option JsString;
  x_repositoryId : option JsString;
  x_appId : option JsString;
  x_targetId : JsString;
  x_targetKind : BackupTargetKind;
}.

(** A step as Hearth projects it for a Relay. [authorizedTargets] is 2 or
    absent; [services] is the object's entries in its order. *)
Inductive RelayScheduleAction :=
  | ConsoleCommand (authorized : bool) (command : JsString) (id : JsString)
      (services : option (list (JsString * JsString))) (targetKeys : option (list JsString))
  | Backup (stopped : bool) (destination : StepDestination) (executions : list BackupExecution) (id : JsString)
      (mode : BackupMode) (name : JsString) (targetKeys : option (list JsString))
  | PowerStepAction (action : PowerStep) (authorized : bool) (id : JsString) (targetKeys : option (list JsString))
  | Wait (duration : Z) (id : JsString) (unit_ : ScheduleWaitUnit).

Definition action_id (action : RelayScheduleAction) : JsString :=
  match action with ConsoleCommand _ _ id _ _ | Backup _ _ _ id _ _ _ | PowerStepAction _ _ id _ | Wait _ id _ => id end.

Definition action_type (action : RelayScheduleAction) : ScheduleActionType :=
  match action with
  | ConsoleCommand _ _ _ _ _ => AtCommand
  | Backup _ _ _ _ _ _ _ => AtBackup
  | PowerStepAction _ _ _ _ => AtPower
  | Wait _ _ _ => AtWait
  end.

Definition action_targetKeys (action : RelayScheduleAction) : option (list JsString) :=
  match action with
  | ConsoleCommand _ _ _ _ keys | Backup _ _ _ _ _ _ keys | PowerStepAction _ _ _ keys => keys
  | Wait _ _ _ => None
  end.

Definition action_authorized (action : RelayScheduleAction) : bool :=
  match action with ConsoleCommand authorized _ _ _ _ | PowerStepAction _ authorized _ _ => authorized | _ => false end.

Definition is_wait (action : RelayScheduleAction) : bool := bool_decide (action_type action = AtWait).

Record RelayScheduleProjection := MkProjection {
  p_actions : list RelayScheduleAction;
  p_continueOnFailure : bool;
  p_cron : JsString;
  p_enabled : bool;
  p_generation : option Z;
  p_id : JsString;
  p_name : JsString;
  p_revision : Z;
  p_targets : list ScheduleTarget;
  p_timezone : JsString;
}.

(** ** Which steps run on which targets *)

Definition scheduleTargetKey (target : ScheduleTarget) : JsString :=
  t_relayId target ++ [58] ++ target_kind_name (t_kind target) ++ [58] ++ t_id target.

Definition scheduleActionSupportsTarget (action : RelayScheduleAction) (target : ScheduleTarget) : bool :=
  match action with
  | Wait _ _ _ => true
  | ConsoleCommand _ _ _ _ _ => negb (bool_decide (t_kind target = TRelay))
  | PowerStepAction _ _ _ _ => negb (bool_decide (t_kind target = TRelay))
  | Backup _ _ _ _ mode _ _ => if bool_decide (mode = Incremental) then bool_decide (t_kind target = TInstance) else true
  end.

Definition scheduleActionNeedsNamedTarget (action : RelayScheduleAction) (target : ScheduleTarget) : bool :=
  (bool_decide (t_kind target = TDatabase) || bool_decide (t_kind target = TApp)) &&
  match action with
  | ConsoleCommand _ _ _ _ _ => true
  | PowerStepAction step _ _ _ => bool_decide (step = StepKill)
  | _ => false
  end.

Definition scheduleActionAppliesToTarget (action : RelayScheduleAction) (target : ScheduleTarget) : bool :=
  if is_wait action then true
  else if negb (scheduleActionSupportsTarget action target) then false
  else if scheduleActionNeedsNamedTarget action target then
    action_authorized action &&
    match action_targetKeys action with Some keys => bool_decide (scheduleTargetKey target ∈ keys) | None => false end
  else match action_targetKeys action with Some keys => bool_decide (scheduleTargetKey target ∈ keys) | None => true end.

Definition mark_checked (action : RelayScheduleAction) : RelayScheduleAction :=
  match action with
  | ConsoleCommand _ command id services keys => ConsoleCommand true command id services keys
  | PowerStepAction step _ id keys => PowerStepAction step true id keys
  | _ => action
  end.

Definition scheduleActionsForSave (actions : list RelayScheduleAction) : list RelayScheduleAction := mark_checked <$> actions.

(** ** Cron expressions *)

(** A letter as [toLowerCase] leaves it, as far as telling the aliases apart
    goes: besides A to Z only the Kelvin sign becomes an ASCII letter. *)
Definition lower_unit (u : Z) : Z := if between 65 90 u then u + 32 else if u =? 0x212A then 107 else u.

Definition js_trim (us : JsString) : JsString := rev (skip (rev (skip us))).

Definition scheduleCronAliases : list (JsString * JsString) :=
  [(js "daily", js "0 0 * * *"); (js "hourly", js "0 * * * *"); (js "monthly", js "0 0 1 * *"); (js "weekly", js "0 0 * * 0")].

(** What an object literal has of every object under a name in lower case. *)
Definition inherited_names : list JsString := [js "constructor"; js "__proto__"].

(** [None] is an inherited property, which is no text. *)
Definition normalizeScheduleCron (value : JsString) : option JsString :=
  let normalized := lower_unit <$> js_trim value in
  if bool_decide (normalized ∈ inherited_names) then None
  else Some (default (js_trim value) (jm_get normalized scheduleCronAliases)).

(** [value.split(/\s+/u).length] *)
Fixpoint space_runs (inside : bool) (us : JsString) : nat :=
  match us with
  | [] => 0
  | u :: rest => if is_space u then (if inside then space_runs true rest else S (space_runs true rest)) else space_runs false rest
  end.
Definition split_length (us : JsString) : nat := S (space_runs false us).

(** ** The checks of a schedule *)

Inductive ScheduleIssue :=
  | CronInvalid
  | ActionIdsRepeat
  | TargetsRepeat
  | ServiceMissing (action : nat) (name : JsString)
  | ServiceUnknown (action : nat)
  | OverrideRepeats (action : nat)
  | OverrideUnknown (action : nat).

Section Checks.
Context (timezone_exists : JsString → bool) (cron_parses : JsString → JsString → bool).

Definition validateScheduleCron (value timezone : JsString) : bool :=
  timezone_exists timezone &&
  match normalizeScheduleCron value with
  | Some normalized => Nat.eqb (split_length normalized) 5 && cron_parses normalized timezone
  | None => false
  end.

Definition command_targets (action : RelayScheduleAction) (targets : list ScheduleTarget) : list ScheduleTarget :=
  List.filter (λ target, bool_decide (t_kind target = TApp) && scheduleActionAppliesToTarget action target) targets.

(** An empty name is no service either. *)
Definition service_of (services : option (list (JsString * JsString))) (target : ScheduleTarget) : option JsString :=
  match services ≫= jm_get (scheduleTargetKey target) with Some (u :: us) => Some (u :: us) | _ => None end.

Definition service_issues (i : nat) (action : RelayScheduleAction) (targets : list ScheduleTarget) : list ScheduleIssue :=
  match action with
  | ConsoleCommand _ _ _ services _ =>
      let appTargets := command_targets action targets in
      let appKeys := scheduleTargetKey <$> appTargets in
      flat_map (λ target, match service_of services target with Some _ => [] | None => [ServiceMissing i (t_name target)] end)
        appTargets ++
      flat_map (λ entry, if bool_decide (entry.1 ∈ appKeys) then [] else [ServiceUnknown i]) (default [] services)
  | _ => []
  end.

Fixpoint override_issues (i : nat) (targetIds seen keys : list JsString) : list ScheduleIssue :=
  match keys with
  | [] => []
  | key :: rest =>
      (if bool_decide (key ∈ seen) then [OverrideRepeats i] else []) ++
      (if bool_decide (key ∈ targetIds) then [] else [OverrideUnknown i]) ++
      override_issues i targetIds (key :: seen) rest
  end.

Definition action_issues (targets : list ScheduleTarget) (i : nat) (action : RelayScheduleAction) : list ScheduleIssue :=
  service_issues i action targets ++
  (if is_wait action then []
   else match action_targetKeys action with
        | Some keys => override_issues i (scheduleTargetKey <$> targets) [] keys
        | None => []
        end).

Definition repeats (keys : list JsString) : bool := negb (Nat.eqb (length (js_distinct keys)) (length keys)).

(** The checks of [scheduleDefinitionSchema], in the order of its issues. *)
Definition schedule_issues (schedule : RelayScheduleProjection) : list ScheduleIssue :=
  (if validateScheduleCron (p_cron schedule) (p_timezone schedule) then [] else [CronInvalid]) ++
  (if repeats (action_id <$> p_actions schedule) then [ActionIdsRepeat] else []) ++
  (if repeats (scheduleTargetKey <$> p_targets schedule) then [TargetsRepeat] else []) ++
  concat (imap (action_issues (p_targets schedule)) (p_actions schedule)).
End Checks.

(** ** Identities *)

Inductive IdPart := Text (text : JsString) | Num (n : Z).

Definition part_text (part : IdPart) : JsString := match part with Text text => text | Num n => print_int n end.

(** [parts.map(String).join("\u001f")] *)
Fixpoint join_parts (parts : list JsString) : JsString :=
  match parts with
  | [] => []
  | [part] => part
  | part :: rest => part ++ [31] ++ join_parts rest
  end.

Definition fnv_step (hash u : Z) : Z := (Z.lxor hash u * 0x01000193) mod 2 ^ 32.

Definition hex_char (n : Z) : Z := if n <? 10 then 48 + n else 87 + n.

(** [hash.toString(16).padStart(8, "0")] of an unsigned 32-bit integer *)
Definition hex8 (hash : Z) : JsString := (λ k, hex_char ((hash / 16 ^ k) mod 16)) <$> [7; 6; 5; 4; 3; 2; 1; 0].

Definition stable_seeds : list Z := [0x811c9dc5; 0x9e3779b9; 0x85ebca6b; 0xc2b2ae35].

Definition scheduleStableId (parts : list IdPart) : JsString :=
  let value := join_parts (part_text <$> parts) in
  flat_map (λ seed, hex8 (fold_left fnv_step value seed)) stable_seeds.

Definition char_at (i : nat) (us : JsString) : Z := default 48 (us !! i).

Definition slice (first last : nat) (us : JsString) : JsString := take (last - first) (drop first us).

Definition scheduleDeterministicUuid (parts : list IdPart) : JsString :=
  let hash := <[12%nat := 53]> (scheduleStableId parts) in
  let hash := <[16%nat := hex_char (Z.lor (Z.land (hex_digit (char_at 16 hash)) 3) 8)]> hash in
  slice 0 8 hash ++ [45] ++ slice 8 12 hash ++ [45] ++ slice 12 16 hash ++ [45] ++ slice 16 20 hash ++ [45] ++ drop 20 hash.

(** ** Names of scheduled backups *)

(** The date of a day counted from 1 January 1970 (year, month, day). *)
Definition civil (days : Z) : Z * Z * Z :=
  let z := days + 719468 in
  let era := z / 146097 in
  let doe := z mod 146097 in
  let yoe := (doe - doe / 1460 + doe / 36524 - doe / 146096) / 365 in
  let doy := doe - (365 * yoe + yoe / 4 - yoe / 100) in
  let mp := (5 * doy + 2) / 153 in
  let d := doy - (153 * mp + 2) / 5 + 1 in
  let m := if mp <? 10 then mp + 3 else mp - 9 in
  ((yoe + era * 400) + (if m <=? 2 then 1 else 0), m, d).

Definition pad (width : nat) (n : Z) : JsString := repeat 48 (width - length (digits n)) ++ digits n.

(** [new Date(time).toISOString()] of a time that is not negative; [None] is
    the [RangeError] of a time beyond what a date can hold. *)
Definition toISOString (time : Z) : option JsString :=
  if 8640000000000000 <? time then None
  else
    let '(y, m, d) := civil (time / 86400000) in
    let ms := time mod 86400000 in
    Some ((if y <=? 9999 then pad 4 y else [43] ++ pad 6 y) ++ [45] ++ pad 2 m ++ [45] ++ pad 2 d ++ [84] ++
          pad 2 (ms / 3600000) ++ [58] ++ pad 2 (ms / 60000 mod 60) ++ [58] ++ pad 2 (ms / 1000 mod 60) ++ [46] ++
          pad 3 (ms mod 1000) ++ [90]).

Record NameContext := MkNameContext {
  n_backupId : JsString;
  n_instanceId : JsString;
  n_runId : JsString;
  n_scheduleId : JsString;
  n_scheduleName : JsString;
  n_timestamp : Z;
}.

Fixpoint strip_units (p us : JsString) : option JsString :=
  match p, us with
  | [], _ => Some us
  | u :: p', v :: us' => if u =? v then strip_units p' us' else None
  | _, [] => None
  end.

Definition name_tags (context : NameContext) (timestamp : JsString) : list (JsString * JsString) :=
  [(js "<backup_id>", n_backupId context); (js "<instance_id>", n_instanceId context); (js "<run_id>", n_runId context);
   (js "<schedule>", n_scheduleName context); (js "<schedule_id>", n_scheduleId context); (js "<timestamp>", timestamp)].

(** The tag a text starts with, its value and what follows it. *)
Fixpoint match_tag (tags : list (JsString * JsString)) (us : JsString) : option (JsString * JsString) :=
  match tags with
  | [] => None
  | (tag, value) :: tags' => match strip_units tag us with Some rest => Some (value, rest) | None => match_tag tags' us end
  end.

(** [template.replaceAll(/<(?:...)>/gu, tag => tags[tag])]; a round for each
    unit of the template is enough. *)
Fixpoint replace_tags (fuel : nat) (tags : list (JsString * JsString)) (us : JsString) : JsString :=
  match fuel with
  | O => us
  | S fuel =>
      match us with
      | [] => []
      | u :: rest =>
          match match_tag tags us with
          | Some (value, rest') => value ++ replace_tags fuel tags rest'
          | None => u :: replace_tags fuel tags rest
          end
      end
  end.

Definition resolveScheduleBackupName (template : JsString) (context : NameContext) : option JsString :=
  iso ← toISOString (n_timestamp context);
  let timestamp := replaceAll 45 [46] (slice 0 10 iso) ++ [45] ++ replaceAll 58 [46] (slice 11 19 iso) ++ [90] in
  Some (take 120 (replace_tags (length template) (name_tags context timestamp) template)).

(** ** What a run did *)

Inductive AttemptStatus :=
  | AttemptSucceeded | AttemptFailed | SkippedUnsupported | SkippedMissing | SkippedPolicy | AttemptInterrupted | NotRun
  | AttemptUnknown.

#[global] Instance AttemptStatus_eq_dec : EqDecision AttemptStatus.
Proof. solve_decision. Defined.

Record ScheduleCommandResult := MkCommandResult { c_exitCode : option Z; c_output : JsString; c_truncated : bool }.

#[global] Instance ScheduleCommandResult_eq_dec : EqDecision ScheduleCommandResult.
Proof. solve_decision. Defined.

Record ScheduleActionAttempt := MkAttempt {
  a_actionId : JsString;
  a_actionType : ScheduleActionType;
  a_error : option JsString;
  a_finishedAt : Z;
  a_id : JsString;
  a_result : option ScheduleCommandResult;
  a_startedAt : Z;
  a_status : AttemptStatus;
}.

#[global] Instance ScheduleActionAttempt_eq_dec : EqDecision ScheduleActionAttempt.
Proof. solve_decision. Defined.

Inductive TargetRunStatus := TargetSucceeded | TargetNoop | TargetFailed | TargetInterrupted | SkippedOverlap.

#[global] Instance TargetRunStatus_eq_dec : EqDecision TargetRunStatus.
Proof. solve_decision. Defined.

Inductive RunStatus := RunRunning | RunSucceeded | RunPartial | RunFailed | RunNoop | RunInterrupted | RunMissed.

#[global] Instance RunStatus_eq_dec : EqDecision RunStatus.
Proof. solve_decision. Defined.

Record ScheduleTargetRun := MkTargetRun {
  tr_attempts : list ScheduleActionAttempt;
  tr_error : option JsString;
  tr_finishedAt : Z;
  tr_id : JsString;
  tr_startedAt : Z;
  tr_status : TargetRunStatus;
  tr_target : ScheduleTarget;
}.

#[global] Instance ScheduleTargetRun_eq_dec : EqDecision ScheduleTargetRun.
Proof. solve_decision. Defined.

Record ScheduleRun := MkRun {
  run_finishedAt : Z;
  run_id : JsString;
  run_revision : Z;
  run_scheduleId : JsString;
  run_scheduledAt : Z;
  run_sequenceAttempts : list ScheduleActionAttempt;
  run_startedAt : Z;
  run_status : RunStatus;
  run_targetRuns : list ScheduleTargetRun;
}.

(** [z.number().int().nonnegative()], and texts of bounded length *)
Definition time_ok (n : Z) : bool := (0 <=? n) && (n <=? 2 ^ 53 - 1).
Definition at_most (max : nat) (us : JsString) : bool := Nat.leb (length us) max.
Definition error_ok (error : option JsString) : bool := match error with Some error => at_most 2000 error | None => true end.
Definition id_ok (id : JsString) : bool := negb (bool_decide (id = [])) && at_most 128 id.

Definition attempt_ok (attempt : ScheduleActionAttempt) : bool :=
  error_ok (a_error attempt) && time_ok (a_finishedAt attempt) && id_ok (a_id attempt) && time_ok (a_startedAt attempt) &&
  match a_result attempt with Some result => at_most 4096 (c_output result) | None => true end.

Definition targetRun_ok (run : ScheduleTargetRun) : bool :=
  Nat.leb (length (tr_attempts run)) 32 && forallb attempt_ok (tr_attempts run) && error_ok (tr_error run) &&
  time_ok (tr_finishedAt run) && id_ok (tr_id run) && time_ok (tr_startedAt run).

(** Whether [scheduleRunSchema.parse] accepts a run whose schedule, steps and
    targets are a projection's, which has checked their own fields. *)
Definition run_ok (run : ScheduleRun) : bool :=
  time_ok (run_finishedAt run) && id_ok (run_id run) && (0 <? run_revision run) && time_ok (run_scheduledAt run) &&
  Nat.leb (length (run_sequenceAttempts run)) 32 && forallb attempt_ok (run_sequenceAttempts run) &&
  time_ok (run_startedAt run) && Nat.leb (length (run_targetRuns run)) 2000 && forallb targetRun_ok (run_targetRuns run).

Example identities :
  scheduleStableId [Text (js "a"); Num 12; Text (js "relay")] = js "56324b488a244b6c04a2ac0e679c4db8" ∧
  scheduleDeterministicUuid [Text (js "task"); Text (js "x")] = js "4dad68e3-e74e-5de7-ab42-fda568e44653" ∧
  toISOString 1709164799000 = Some (js "2024-02-28T23:59:59.000Z").
Proof. vm_compute. done. Qed.
