(* ===== verification/ScheduleState.v ===== *)
(** * Schedules as a Relay stores them

    Models [apps/relay/src/effect/schedule-state.ts], over the tables of
    schedules, of the revisions they were deleted at and of their runs. An
    operation is one transaction; [claimDue] commits a row at a time, and
    says which rows its caller's storage failed on.

    A stored definition that the schema no longer reads is [None], its
    generation is read apart from it, and the occurrence after a time, which
    the cron parser finds, is a parameter. Identifiers are ASCII, so their
    order in SQL is their code units'. *)
From S2P Require Import Prelude Bytes Utf8 Nbt Decimals Snbt ScheduleContract.
Open Scope Z_scope.

Record ScheduleRow := MkRow {
  w_revision : Z;
  w_enabled : bool;
  w_next_run_at : option Z;
  w_generation : option Z;
  w_definition : option RelayScheduleProjection;
}.

Record RunRow := MkRunRow {
  r_schedule_id : JsString;
  r_revision : Z;
  r_scheduled_at : Z;
  r_started_at : Z;
  r_finished_at : option Z;
  r_status : RunStatus;
  r_sequence_attempts : list ScheduleActionAttempt;
  r_target_runs : list ScheduleTargetRun;
}.

Record ScheduleStore := MkStore {
  schedules : gmap JsString ScheduleRow;
  tombstones : gmap JsString Z;
  runs : gmap JsString RunRow;
}.

Definition historyLimit : nat := 1000.

Record RelayScheduleDeployment := MkDeployment {
  d_acknowledgedGeneration : option Z;
  d_acknowledgedRevision : Z;
  d_nextRunAt : option Z;
  d_scheduleId : JsString;
}.

(** ** Order of rows *)

Fixpoint text_le (us vs : JsString) : bool :=
  match us, vs with
  | [], _ => true
  | _ :: _, [] => false
  | u :: us', v :: vs' => (u <? v) || ((u =? v) && text_le us' vs')
  end.

Definition due_le (a b : JsString * ScheduleRow) : bool :=
  let x := default 0 (w_next_run_at a.2) in let y := default 0 (w_next_run_at b.2) in
  (x <? y) || ((x =? y) && text_le a.1 b.1).

(** [ORDER BY finished_at DESC, run_id DESC] *)
Definition recent_le (a b : JsString * RunRow) : bool :=
  let x := default 0 (r_finished_at a.2) in let y := default 0 (r_finished_at b.2) in
  (y <? x) || ((x =? y) && text_le b.1 a.1).

(** ** Runs *)

Definition set_runs (rs : gmap JsString RunRow) (S : ScheduleStore) : ScheduleStore := MkStore (schedules S) (tombstones S) rs.

Definition run_row (record : ScheduleRun) : RunRow :=
  MkRunRow (run_scheduleId record) (run_revision record) (run_scheduledAt record) (run_startedAt record)
    (if decide (run_status record = RunRunning) then None else Some (run_finishedAt record)) (run_status record)
    (run_sequenceAttempts record) (run_targetRuns record).

(** Whether another run has its schedule and time, which are unique. *)
Definition slot_taken (record : ScheduleRun) (rs : gmap JsString RunRow) : bool :=
  existsb (λ row, bool_decide (r_schedule_id row.2 = run_scheduleId record) &&
                  (r_scheduled_at row.2 =? run_scheduledAt record)) (map_to_list rs).

(** [ON CONFLICT DO NOTHING] *)
Definition insertRun (record : ScheduleRun) (S : ScheduleStore) : ScheduleStore :=
  match runs S !! run_id record with
  | Some _ => S
  | None => if slot_taken record (runs S) then S else set_runs (<[run_id record := run_row record]> (runs S)) S
  end.

(** [ON CONFLICT(run_id) DO UPDATE]; [None] is the other constraint's error. *)
Definition writeRun (record : ScheduleRun) (S : ScheduleStore) : option ScheduleStore :=
  match runs S !! run_id record with
  | Some row =>
      Some (set_runs (<[run_id record :=
        MkRunRow (r_schedule_id row) (r_revision row) (r_scheduled_at row) (r_started_at row)
          (r_finished_at (run_row record)) (run_status record) (run_sequenceAttempts record) (run_targetRuns record)]> (runs S)) S)
  | None => if slot_taken record (runs S) then None else Some (set_runs (<[run_id record := run_row record]> (runs S)) S)
  end.

Definition finished_runs (rs : gmap JsString RunRow) : list (JsString * RunRow) :=
  stable_sort recent_le (List.filter (λ row, negb (bool_decide (r_status row.2 = RunRunning))) (map_to_list rs)).

Definition pruneRuns (S : ScheduleStore) : ScheduleStore :=
  set_runs (foldr (λ id rs, delete id rs) (runs S) (drop historyLimit (finished_runs (runs S))).*1) S.

Definition interruptRuns (now : Z) (S : ScheduleStore) : ScheduleStore :=
  set_runs ((λ row, if decide (r_status row = RunRunning)
                    then MkRunRow (r_schedule_id row) (r_revision row) (r_scheduled_at row) (r_started_at row) (Some now)
                           RunInterrupted (r_sequence_attempts row) (r_target_runs row)
                    else row) <$> runs S) S.

Definition recordProgress (record : ScheduleRun) (S : ScheduleStore) : ScheduleStore :=
  set_runs (alter (λ row, if decide (r_status row = RunRunning)
                          then MkRunRow (r_schedule_id row) (r_revision row) (r_scheduled_at row) (r_started_at row)
                                 (r_finished_at row) (r_status row) (run_sequenceAttempts record) (run_targetRuns record)
                          else row) (run_id record) (runs S)) S.

Definition completeRun (record : ScheduleRun) (S : ScheduleStore) : option ScheduleStore := pruneRuns <$> writeRun record S.

(** ** Schedules *)

Definition set_schedules (ws : gmap JsString ScheduleRow) (S : ScheduleStore) : ScheduleStore := MkStore ws (tombstones S) (runs S).
Definition set_tombstones (ts : gmap JsString Z) (S : ScheduleStore) : ScheduleStore := MkStore (schedules S) ts (runs S).

(** The least of the times there are. *)
Definition min_time (acc time : option Z) : option Z :=
  match acc, time with Some x, Some y => Some (Z.min x y) | None, time => time | acc, None => acc end.

Definition nextRunAt (S : ScheduleStore) : option Z :=
  foldr (λ row acc, if w_enabled row.2 then min_time acc (w_next_run_at row.2) else acc) None (map_to_list (schedules S)).

Definition definition_row (definition : RelayScheduleProjection) (nextRunAt : option Z) : ScheduleRow :=
  MkRow (p_revision definition) (p_enabled definition) nextRunAt (p_generation definition) (Some definition).

(** Whether what is stored is newer than a definition. *)
Definition newer_row (row : ScheduleRow) (definition : RelayScheduleProjection) : bool :=
  (p_revision definition <? w_revision row) ||
  ((w_revision row =? p_revision definition) && (default 0 (p_generation definition) <? default 0 (w_generation row))).

Definition store_definition (definition : RelayScheduleProjection) (nextRunAt : option Z) (S : ScheduleStore)
    : ScheduleStore * RelayScheduleDeployment :=
  (MkStore (<[p_id definition := definition_row definition nextRunAt]> (schedules S)) (delete (p_id definition) (tombstones S)) (runs S),
   MkDeployment (p_generation definition) (p_revision definition) nextRunAt (p_id definition)).

Definition apply_row (definition : RelayScheduleProjection) (nextRunAt : option Z) (S : ScheduleStore)
    : ScheduleStore * RelayScheduleDeployment :=
  match schedules S !! p_id definition with
  | Some row =>
      if newer_row row definition
      then (S, MkDeployment (w_generation row) (w_revision row) (w_next_run_at row) (p_id definition))
      else store_definition definition nextRunAt S
  | None => store_definition definition nextRunAt S
  end.

Definition apply (definition : RelayScheduleProjection) (nextRunAt : option Z) (S : ScheduleStore)
    : ScheduleStore * RelayScheduleDeployment :=
  match tombstones S !! p_id definition with
  | Some deleted =>
      if p_revision definition <=? deleted then (S, MkDeployment None deleted None (p_id definition))
      else apply_row definition nextRunAt S
  | None => apply_row definition nextRunAt S
  end.

Definition remove_row (scheduleId : JsString) (revision : Z) (S : ScheduleStore) : ScheduleStore * RelayScheduleDeployment :=
  let revision := Z.max revision (default 0 (tombstones S !! scheduleId)) in
  (MkStore (delete scheduleId (schedules S)) (<[scheduleId := revision]> (tombstones S)) (runs S),
   MkDeployment None revision None scheduleId).

Definition remove (scheduleId : JsString) (revision : Z) (S : ScheduleStore) : ScheduleStore * RelayScheduleDeployment :=
  match schedules S !! scheduleId with
  | Some row =>
      if revision <? w_revision row then (S, MkDeployment None (w_revision row) (w_next_run_at row) scheduleId)
      else remove_row scheduleId revision S
  | None => remove_row scheduleId revision S
  end.

(** ** State of an older Relay *)

Record LegacySchedule := MkLegacy { l_definition : RelayScheduleProjection; l_nextRunAt : option Z }.

Definition import_schedule (legacy : LegacySchedule) (S : ScheduleStore) : ScheduleStore :=
  let definition := l_definition legacy in
  let id := p_id definition in
  let deleted := match tombstones S !! id with Some r => p_revision definition <=? r | None => false end in
  let older := match schedules S !! id with Some row => p_revision definition <? w_revision row | None => false end in
  let S := if deleted || older then S
           else set_schedules (<[id := definition_row definition (l_nextRunAt legacy)]> (schedules S)) S in
  match tombstones S !! id with
  | Some r => if r <? p_revision definition then set_tombstones (delete id (tombstones S)) S else S
  | None => S
  end.

Definition import_tombstone (entry : JsString * Z) (S : ScheduleStore) : ScheduleStore :=
  let '(id, revision) := entry in
  let S := match schedules S !! id with
           | Some row => if w_revision row <=? revision then set_schedules (delete id (schedules S)) S else S
           | None => S
           end in
  match schedules S !! id with
  | Some _ => S
  | None => set_tombstones (<[id := match tombstones S !! id with Some r => Z.max r revision | None => revision end]> (tombstones S)) S
  end.

Definition importLegacy (legacy : list LegacySchedule) (deleted : list (JsString * Z)) (records : list ScheduleRun)
    (S : ScheduleStore) : ScheduleStore :=
  let S := fold_left (λ S l, import_schedule l S) legacy S in
  let S := fold_left (λ S e, import_tombstone e S) deleted S in
  pruneRuns (fold_left (λ S r, insertRun r S) records S).

(** ** Occurrences *)

Record ScheduleOccurrence := MkOccurrence {
  o_definition : RelayScheduleProjection;
  o_run : ScheduleRun;
  o_scheduledAt : Z;
}.

Definition claim_record (id : JsString) (row : ScheduleRow) (scheduledAt now bootAt : Z) (relayId : JsString) : ScheduleRun :=
  MkRun now (scheduleStableId [Text id; Num scheduledAt; Text relayId]) (w_revision row) id scheduledAt [] now
    (if scheduledAt <=? bootAt then RunMissed else RunRunning) [].

Definition set_next_run_at (next : Z) (row : ScheduleRow) : ScheduleRow :=
  MkRow (w_revision row) (w_enabled row) (Some next) (w_generation row) (w_definition row).

(** The occurrence, or nothing when another run already has its time. *)
Definition claim (id : JsString) (row : ScheduleRow) (definition : RelayScheduleProjection) (nextRunAt now bootAt : Z)
    (relayId : JsString) (S : ScheduleStore) : ScheduleStore * option ScheduleOccurrence :=
  let scheduledAt := default 0 (w_next_run_at row) in
  let record := claim_record id row scheduledAt now bootAt relayId in
  let free := match runs S !! run_id record with Some _ => false | None => negb (slot_taken record (runs S)) end in
  let S := insertRun record S in
  (set_schedules (alter (set_next_run_at nextRunAt) id (schedules S)) S,
   if free then Some (MkOccurrence definition record scheduledAt) else None).

Definition due_rows (now : Z) (limit : nat) (S : ScheduleStore) : list (JsString * ScheduleRow) :=
  take limit (stable_sort due_le (List.filter (λ row,
    w_enabled row.2 && match w_next_run_at row.2 with Some time => time <=? now | None => false end)
    (map_to_list (schedules S)))).

Section Claims.
Context (nextOccurrence : JsString → Z → option Z).

(** What a row's definition says, if it can be read. *)
Definition read_row (now : Z) (row : ScheduleRow) : option (RelayScheduleProjection * Z) :=
  definition ← w_definition row;
  next ← nextOccurrence (p_cron definition) now;
  Some (definition, next).

Record Claimed := MkClaimed { cl_store : ScheduleStore; cl_occurrences : list ScheduleOccurrence; cl_failed : bool }.

Definition claim_row (now bootAt : Z) (relayId : JsString) (fails : JsString → bool) (C : Claimed) (entry : JsString * ScheduleRow)
    : Claimed :=
  let '(id, row) := entry in
  if fails id then MkClaimed (cl_store C) (cl_occurrences C) true
  else
    match read_row now row with
    | None => MkClaimed (set_schedules (delete id (schedules (cl_store C))) (cl_store C)) (cl_occurrences C) (cl_failed C)
    | Some (definition, next) =>
        let '(T, occurrence) := claim id row definition next now bootAt relayId (cl_store C) in
        MkClaimed T (cl_occurrences C ++ match occurrence with Some o => [o] | None => [] end) (cl_failed C)
    end.

(** [fails] are the rows storage failed on, [prune_fails] whether pruning did.
    The answer says whether anything failed and whether more may be due. *)
Definition claimDue (now bootAt : Z) (relayId : JsString) (limit : nat) (fails : JsString → bool) (prune_fails : bool)
    (S : ScheduleStore) : Claimed * bool :=
  let rows := due_rows now limit S in
  let C := fold_left (claim_row now bootAt relayId fails) rows (MkClaimed S [] false) in
  let C := if existsb (λ o, bool_decide (run_status (o_run o) = RunMissed)) (cl_occurrences C)
           then if prune_fails then MkClaimed (cl_store C) (cl_occurrences C) true
                else MkClaimed (pruneRuns (cl_store C)) (cl_occurrences C) (cl_failed C)
           else C in
  (C, Nat.eqb (length rows) limit).
End Claims.

Inductive RunNowAnswer :=
  | NotDeployed
  | OutOfDate
  | Unreadable
  | Started (occurrence : ScheduleOccurrence).

Definition latest_scheduled (scheduleId : JsString) (rs : gmap JsString RunRow) : option Z :=
  foldr (λ row acc, if decide (r_schedule_id row.2 = scheduleId)
                    then Some (match acc with Some t => Z.max t (r_scheduled_at row.2) | None => r_scheduled_at row.2 end)
                    else acc) None (map_to_list rs).

Definition now_time (now : Z) (scheduleId : JsString) (row : ScheduleRow) (S : ScheduleStore) : Z :=
  let scheduledAt := Z.max now (default 0 (latest_scheduled scheduleId (runs S)) + 1) in
  if decide (w_next_run_at row = Some scheduledAt) then scheduledAt + 1 else scheduledAt.

Definition runNow (scheduleId : JsString) (revision now : Z) (relayId : JsString) (S : ScheduleStore)
    : option (ScheduleStore * RunNowAnswer) :=
  match schedules S !! scheduleId with
  | None => Some (S, NotDeployed)
  | Some row =>
      if negb (w_revision row =? revision) then Some (S, OutOfDate)
      else
        match w_definition row with
        | None => Some (S, Unreadable)
        | Some definition =>
            let scheduledAt := now_time now scheduleId row S in
            let record := MkRun now (scheduleStableId [Text scheduleId; Num scheduledAt; Text relayId]) (w_revision row) scheduleId
                            scheduledAt [] now RunRunning [] in
            T ← writeRun record S;
            Some (T, Started (MkOccurrence definition record scheduledAt))
        end
  end.

(** ** What Hearth is shown *)

(** [ORDER BY finished_at IS NOT NULL, finished_at DESC, run_id DESC] *)
Definition overview_le (a b : JsString * RunRow) : bool :=
  match r_finished_at a.2, r_finished_at b.2 with
  | None, Some _ => true
  | Some _, None => false
  | None, None => text_le b.1 a.1
  | Some _, Some _ => recent_le a b
  end.

Definition read_run (id : JsString) (row : RunRow) : ScheduleRun :=
  MkRun (default (r_started_at row) (r_finished_at row)) id (r_revision row) (r_schedule_id row) (r_scheduled_at row)
    (r_sequence_attempts row) (r_started_at row) (r_status row) (r_target_runs row).

Definition asked (scheduleIds : option (list JsString)) (id : JsString) : bool :=
  match scheduleIds with Some ids => bool_decide (id ∈ ids) | None => true end.

(** A row the schema no longer reads is left out. *)
Definition overview (scheduleIds : option (list JsString)) (S : ScheduleStore) : list RelayScheduleDeployment * list ScheduleRun :=
  ((λ row, MkDeployment (w_generation row.2) (w_revision row.2) (w_next_run_at row.2) row.1) <$>
     List.filter (λ row, asked scheduleIds row.1) (map_to_list (schedules S)),
   List.filter run_ok ((λ row, read_run row.1 row.2) <$>
     take historyLimit (stable_sort overview_le
       (List.filter (λ row, asked scheduleIds (r_schedule_id row.2)) (map_to_list (runs S)))))).
