(* ===== verification/ScheduleStateFacts.v ===== *)
(** * Schedules as a Relay stores them: what its operations keep

    Running occurrences keep their rows whatever else is stored; a claim
    makes rows of its own; and what is stored of a schedule only gets newer. *)
From S2P Require Import Prelude Bytes Utf8 Nbt Decimals Snbt ScheduleContract ScheduleState.
Open Scope Z_scope.

(** ** Runs that are kept *)

Definition keeps_running (S T : ScheduleStore) : Prop :=
  ∀ id row, runs S !! id = Some row → r_status row = RunRunning → runs T !! id = Some row.

(** Definitions are stored under their own identifiers. *)
Definition named (S : ScheduleStore) : Prop :=
  ∀ id row definition, schedules S !! id = Some row → w_definition row = Some definition → p_id definition = id.

#[global] Instance keeps_running_preorder : PreOrder keeps_running.
Proof. split; [by intros S id row|]. intros S T U H1 H2 id row H Hs. eauto. Qed.

Lemma keeps_running_same S T : runs T = runs S → keeps_running S T.
Proof. intros H id row. by rewrite H. Qed.

Lemma foldr_delete_lookup {A} (ids : list JsString) (m : gmap JsString A) id :
  foldr (λ i m, delete i m) m ids !! id = if decide (id ∈ ids) then None else m !! id.
Proof.
  induction ids as [|i ids IH]; cbn; [by rewrite decide_False by apply not_elem_of_nil|].
  destruct (decide (i = id)) as [->|Hne]; [rewrite lookup_delete_eq, decide_True by set_solver; done|].
  rewrite lookup_delete_ne, IH by done. destruct (decide (id ∈ ids)); [rewrite decide_True by set_solver|rewrite decide_False by set_solver]; done.
Qed.

Lemma pruneRuns_lookup S id :
  runs (pruneRuns S) !! id =
    if decide (id ∈ (drop historyLimit (finished_runs (runs S))).*1) then None else runs S !! id.
Proof. apply foldr_delete_lookup. Qed.

Lemma finished_runs_elem rs id row : (id, row) ∈ finished_runs rs ↔ rs !! id = Some row ∧ r_status row ≠ RunRunning.
Proof.
  unfold finished_runs. rewrite stable_sort_perm, elem_of_bfilter, elem_of_map_to_list. cbn.
  rewrite negb_true_iff, bool_decide_eq_false. tauto.
Qed.

Lemma elem_of_drop {A} n (l : list A) x : x ∈ drop n l → x ∈ l.
Proof. intros H. rewrite <-(take_drop n l). apply elem_of_app. by right. Qed.

Lemma pruneRuns_keeps S : keeps_running S (pruneRuns S).
Proof.
  intros id row Hr Hs. rewrite pruneRuns_lookup, decide_False; [done|].
  intros ([i r] & -> & Hin)%list_elem_of_fmap. apply elem_of_drop, finished_runs_elem in Hin as [Hr' Hn]. cbn in *. congruence.
Qed.

Lemma insertRun_lookup record S id row : runs S !! id = Some row → runs (insertRun record S) !! id = Some row.
Proof.
  unfold insertRun. intros H. destruct (runs S !! run_id record) eqn:E; [done|]. destruct (slot_taken _ _); [done|]. cbn.
  rewrite lookup_insert_ne; [done|congruence].
Qed.

Lemma insertRun_keeps record S : keeps_running S (insertRun record S).
Proof. intros id row H _. by apply insertRun_lookup. Qed.

Lemma writeRun_keeps record S T :
  writeRun record S = Some T → (∀ row, runs S !! run_id record = Some row → r_status row ≠ RunRunning) → keeps_running S T.
Proof.
  unfold writeRun. intros H Hn id row Hr Hs. destruct (runs S !! run_id record) as [old|] eqn:E.
  - simplify_eq. cbn. rewrite lookup_insert_ne; [done|]. intros <-. rewrite E in Hr. simplify_eq. by eapply Hn.
  - destruct (slot_taken _ _); simplify_eq. cbn. rewrite lookup_insert_ne; [done|congruence].
Qed.

(** Completing a run leaves the others that are running. *)
Lemma completeRun_other record S T id row :
  completeRun record S = Some T → id ≠ run_id record → runs S !! id = Some row → r_status row = RunRunning →
  runs T !! id = Some row.
Proof.
  unfold completeRun. destruct (writeRun record S) as [U|] eqn:E; [|done]. intros [= <-] Hne Hr Hs.
  apply pruneRuns_keeps; [|done]. unfold writeRun in E. destruct (runs S !! run_id record); simplify_eq;
    [|destruct (slot_taken _ _); simplify_eq]; cbn; by rewrite lookup_insert_ne.
Qed.

Lemma completeRun_schedules record S T : completeRun record S = Some T → schedules T = schedules S.
Proof.
  unfold completeRun, writeRun. intros H. destruct (runs S !! run_id record); cbn in H; simplify_eq; [done|].
  destruct (slot_taken _ _); cbn in H; by simplify_eq.
Qed.

Lemma recordProgress_lookup record S id :
  runs (recordProgress record S) !! id =
    if decide (id = run_id record)
    then (λ row, if decide (r_status row = RunRunning)
                 then MkRunRow (r_schedule_id row) (r_revision row) (r_scheduled_at row) (r_started_at row)
                        (r_finished_at row) (r_status row) (run_sequenceAttempts record) (run_targetRuns record)
                 else row) <$> runs S !! id
    else runs S !! id.
Proof. unfold recordProgress. cbn. destruct (decide (id = _)) as [->|Hne]; [by rewrite lookup_alter_eq|by rewrite lookup_alter_ne]. Qed.

Lemma interruptRuns_lookup now S id :
  runs (interruptRuns now S) !! id =
    (λ row, if decide (r_status row = RunRunning)
            then MkRunRow (r_schedule_id row) (r_revision row) (r_scheduled_at row) (r_started_at row) (Some now)
                   RunInterrupted (r_sequence_attempts row) (r_target_runs row)
            else row) <$> runs S !! id.
Proof. unfold interruptRuns. cbn. by rewrite lookup_fmap. Qed.

(** ** Claims *)

Section Claims.
Context (nextOccurrence : JsString → Z → option Z) (now bootAt : Z) (relayId : JsString).

(** What a batch of claims has made so far, from a store [S]. *)
Record claims_ok (S : ScheduleStore) (C : Claimed) : Prop := MkClaimsOk {
  co_keeps : ∀ id row, runs S !! id = Some row → runs (cl_store C) !! id = Some row;
  co_named : named (cl_store C);
  co_new : ∀ o, o ∈ cl_occurrences C → runs S !! run_id (o_run o) = None ∧ runs (cl_store C) !! run_id (o_run o) = Some (run_row (o_run o));
  co_nodup : NoDup ((λ o, run_id (o_run o)) <$> cl_occurrences C);
  co_ids : ∀ o, o ∈ cl_occurrences C →
    run_id (o_run o) = scheduleStableId [Text (p_id (o_definition o)); Num (o_scheduledAt o); Text relayId];
}.

Lemma claim_free id row definition next S :
  let record := claim_record id row (default 0 (w_next_run_at row)) now bootAt relayId in
  (claim id row definition next now bootAt relayId S).2 =
    (if match runs S !! run_id record with Some _ => false | None => negb (slot_taken record (runs S)) end
     then Some (MkOccurrence definition record (default 0 (w_next_run_at row))) else None).
Proof. reflexivity. Qed.

Lemma named_alter id next S : named S → named (set_schedules (alter (set_next_run_at next) id (schedules S)) S).
Proof.
  intros Hn i row d Hr Hd. cbn in Hr. destruct (decide (id = i)) as [<-|Hne].
  - rewrite lookup_alter_eq in Hr. destruct (schedules S !! id) as [old|] eqn:E; [|done]. cbn in Hr. simplify_eq. by apply (Hn _ old).
  - rewrite lookup_alter_ne in Hr by done. by apply (Hn i row).
Qed.

Lemma named_insertRun record S : named S → named (insertRun record S).
Proof. unfold insertRun. destruct (runs S !! _); [done|]. by destruct (slot_taken _ _). Qed.

Lemma claim_ok id row definition next S C :
  claims_ok S C → p_id definition = id →
  let '(T, occurrence) := claim id row definition next now bootAt relayId (cl_store C) in
  claims_ok S (MkClaimed T (cl_occurrences C ++ match occurrence with Some o => [o] | None => [] end) (cl_failed C)).
Proof.
  intros [H1 H2 H3 H4 H5] Hid. unfold claim. set (record := claim_record id row (default 0 (w_next_run_at row)) now bootAt relayId).
  assert (Hkeep : ∀ i r, runs (cl_store C) !! i = Some r → runs (insertRun record (cl_store C)) !! i = Some r) by apply insertRun_lookup.
  assert (Hname : named (set_schedules (alter (set_next_run_at next) id (schedules (insertRun record (cl_store C)))) (insertRun record (cl_store C))))
    by by apply named_alter, named_insertRun.
  destruct (runs (cl_store C) !! run_id record) as [old|] eqn:Eold; [|destruct (slot_taken record (runs (cl_store C))) eqn:Eslot]; cbn [negb].
  1, 2: rewrite app_nil_r; constructor; try done; cbn; [by eauto|]; intros o Ho; destruct (H3 o Ho); split; [done|by apply Hkeep].
  assert (Hnew : runs (insertRun record (cl_store C)) !! run_id record = Some (run_row record)).
  { unfold insertRun. rewrite Eold, Eslot. cbn. by rewrite lookup_insert_eq. }
  assert (Hfree : runs S !! run_id record = None).
  { destruct (runs S !! run_id record) as [r|] eqn:E; [|done]. apply H1 in E. congruence. }
  constructor; try done; cbn.
  - eauto.
  - intros o [Ho| ->%list_elem_of_singleton]%elem_of_app; [|done]. destruct (H3 o Ho). split; [done|by apply Hkeep].
  - rewrite fmap_app. apply NoDup_app. split; [done|]. split; [|by apply NoDup_singleton].
    intros i (o & -> & Ho)%list_elem_of_fmap Hi%list_elem_of_singleton. destruct (H3 o Ho) as [_ Hr]. assert (E : run_id (o_run o) = run_id record) by exact Hi. rewrite E in Hr. congruence.
  - intros o [Ho| ->%list_elem_of_singleton]%elem_of_app; [by auto|]. cbn. by rewrite Hid.
Qed.

Lemma claim_row_ok fails S C id row :
  claims_ok S C → (∀ d, w_definition row = Some d → p_id d = id) →
  claims_ok S (claim_row nextOccurrence now bootAt relayId fails C (id, row)).
Proof.
  intros HC Hd. unfold claim_row. destruct (fails id); [by destruct HC|].
  destruct (read_row nextOccurrence now row) as [[definition next]|] eqn:Er.
  - assert (p_id definition = id).
    { apply Hd. unfold read_row in Er. destruct (w_definition row) as [d|]; [|done]. cbn in Er.
      destruct (nextOccurrence (p_cron d) now); [|done]. cbn in Er. by simplify_eq. }
    pose proof (claim_ok id row definition next S C HC) as Hc.
    destruct (claim id row definition next now bootAt relayId (cl_store C)) as [T o]. auto.
  - destruct HC as [H1 H2 H3 H4 H5]. constructor; try done. cbn. intros i r d Hr. cbn in Hr.
    apply lookup_delete_Some in Hr as [_ Hr]. by apply (H2 i r).
Qed.

Lemma claim_rows_ok fails S rows : ∀ C,
  claims_ok S C → (∀ id row d, (id, row) ∈ rows → w_definition row = Some d → p_id d = id) →
  claims_ok S (fold_left (claim_row nextOccurrence now bootAt relayId fails) rows C).
Proof.
  induction rows as [|[id row] rows IH]; intros C HC Hd; cbn [fold_left]; [done|]. apply IH.
  - apply claim_row_ok; [done|]. intros d. apply (Hd id row). by left.
  - intros i r d Hin. apply (Hd i r). by right.
Qed.

Lemma elem_of_take_inv {A} n (l : list A) x : x ∈ take n l → x ∈ l.
Proof. intros (i & Hi & _)%elem_of_take. by eapply list_elem_of_lookup_2. Qed.

Lemma due_rows_elem limit S id row :
  (id, row) ∈ due_rows now limit S → schedules S !! id = Some row ∧ w_enabled row = true ∧
    ∃ time, w_next_run_at row = Some time ∧ time <= now.
Proof.
  unfold due_rows. intros Hin%elem_of_take_inv. rewrite stable_sort_perm, elem_of_bfilter, elem_of_map_to_list in Hin.
  cbn in Hin. destruct Hin as [Hr [He Hn]%andb_true_iff]. split; [done|]. split; [done|].
  destruct (w_next_run_at row) as [time|]; [|done]. apply Z.leb_le in Hn. eauto.
Qed.

Lemma prune_claims_ok S C : claims_ok S C → (∀ id row, runs S !! id = Some row → r_status row = RunRunning →
  runs (pruneRuns (cl_store C)) !! id = Some row) ∧ named (pruneRuns (cl_store C)) ∧
  (∀ o, o ∈ cl_occurrences C → run_status (o_run o) = RunRunning →
    runs (pruneRuns (cl_store C)) !! run_id (o_run o) = Some (run_row (o_run o))).
Proof.
  intros [H1 H2 H3 H4 H5]. split; [|split; [done|]].
  - intros id row Hr Hs. apply pruneRuns_keeps; eauto.
  - intros o Ho Hs. destruct (H3 o Ho) as [_ Hr]. apply pruneRuns_keeps; [done|]. cbn. done.
Qed.

(** What a tick's claims come to: running runs are kept, and the occurrences
    that are to run have rows of their own, which are running. *)
Lemma claimDue_ok limit fails prune_fails S :
  named S →
  let C := (claimDue nextOccurrence now bootAt relayId limit fails prune_fails S).1 in
  keeps_running S (cl_store C) ∧ named (cl_store C) ∧
  (∀ o, o ∈ cl_occurrences C → run_status (o_run o) = RunRunning →
    runs S !! run_id (o_run o) = None ∧ runs (cl_store C) !! run_id (o_run o) = Some (run_row (o_run o)) ∧
    run_id (o_run o) = scheduleStableId [Text (p_id (o_definition o)); Num (o_scheduledAt o); Text relayId]) ∧
  NoDup ((λ o, run_id (o_run o)) <$> cl_occurrences C).
Proof.
  intros Hn. unfold claimDue. set (rows := due_rows now limit S).
  assert (HC : claims_ok S (fold_left (claim_row nextOccurrence now bootAt relayId fails) rows (MkClaimed S [] false))).
  { apply claim_rows_ok.
    - constructor; try done; cbn; [by intros o Ho%elem_of_nil|constructor|by intros o Ho%elem_of_nil].
    - intros id row d Hin. apply due_rows_elem in Hin as [Hr _]. by apply (Hn id row). }
  set (C := fold_left _ rows _) in *. destruct (prune_claims_ok S C HC) as (Hp1 & Hp2 & Hp3).
  destruct HC as [H1 H2 H3 H4 H5]. cbn [fst].
  destruct (existsb _ (cl_occurrences C)); [destruct prune_fails|]; cbn [cl_store cl_occurrences];
    (split; [intros id row Hr Hs; eauto|split; [done|split; [|done]]]); intros o Ho Hs; destruct (H3 o Ho) as [Ha Hb]; auto.
Qed.
End Claims.

(** ** The other operations *)

Lemma apply_frame definition next S : named S → named (apply definition next S).1 ∧ runs (apply definition next S).1 = runs S.
Proof.
  intros Hn. assert (Hs : named (store_definition definition next S).1).
  { intros id row d Hr Hd. cbn in Hr. apply lookup_insert_Some in Hr as [[<- <-]|[_ Hr]]; [by injection Hd as <-|by apply (Hn id row)]. }
  assert (Hr : named (apply_row definition next S).1 ∧ runs (apply_row definition next S).1 = runs S).
  { unfold apply_row. destruct (schedules S !! p_id definition) as [row|]; [destruct (newer_row row definition)|]; done. }
  unfold apply. destruct (tombstones S !! p_id definition); [destruct (_ <=? _)|]; done.
Qed.

Lemma remove_frame id revision S : named S → named (remove id revision S).1 ∧ runs (remove id revision S).1 = runs S.
Proof.
  intros Hn. assert (Hs : named (remove_row id revision S).1 ∧ runs (remove_row id revision S).1 = runs S).
  { split; [|done]. intros i row d Hr. cbn in Hr. apply lookup_delete_Some in Hr as [_ Hr]. by apply (Hn i row). }
  unfold remove. destruct (schedules S !! id); [|done]. by destruct (_ <? _).
Qed.

Lemma writeRun_schedules record S T : writeRun record S = Some T → schedules T = schedules S.
Proof. unfold writeRun. intros H. destruct (runs S !! run_id record); [by simplify_eq|]. destruct (slot_taken _ _); by simplify_eq. Qed.

(** A run started by hand has a row of its own when no other run has its
    identifier. *)
Lemma runNow_ok id revision now relayId S T answer :
  named S → runNow id revision now relayId S = Some (T, answer) →
  (∀ row, schedules S !! id = Some row →
    runs S !! scheduleStableId [Text id; Num (now_time now id row S); Text relayId] = None) →
  named T ∧ keeps_running S T ∧
  (∀ o, answer = Started o → runs S !! run_id (o_run o) = None ∧ runs T !! run_id (o_run o) = Some (run_row (o_run o)) ∧
    run_status (o_run o) = RunRunning ∧
    run_id (o_run o) = scheduleStableId [Text (p_id (o_definition o)); Num (o_scheduledAt o); Text relayId]).
Proof.
  intros Hn H Hfree. unfold runNow in H. destruct (schedules S !! id) as [row|] eqn:Er; [|by simplify_eq].
  destruct (negb _); [by simplify_eq|]. destruct (w_definition row) as [definition|] eqn:Ed; [|by simplify_eq].
  specialize (Hfree row eq_refl). set (record := MkRun _ _ _ _ _ _ _ _ _) in H.
  destruct (writeRun record S) as [U|] eqn:Ew; [|done]. cbn [mbind option_bind] in H. injection H as <- <-.
  assert (Hid : run_id record = scheduleStableId [Text id; Num (now_time now id row S); Text relayId]) by done.
  split; [intros i r d; rewrite (writeRun_schedules _ _ _ Ew); by apply (Hn i r)|]. split.
  - apply (writeRun_keeps record); [done|]. intros r Hr. rewrite Hid in Hr. congruence.
  - intros o [= <-]. cbn [o_run o_definition o_scheduledAt]. rewrite Hid, (Hn _ _ _ Er Ed). split; [done|].
    split; [|done]. unfold writeRun in Ew. rewrite Hid, Hfree in Ew. destruct (slot_taken _ _); [done|]. injection Ew as <-.
    cbn. by rewrite lookup_insert_eq.
Qed.

Lemma import_named legacy deleted records S : named S → named (importLegacy legacy deleted records S).
Proof.
  intros Hn. unfold importLegacy.
  assert (H1 : named (fold_left (λ S l, import_schedule l S) legacy S)).
  { revert S Hn. induction legacy as [|l legacy IH]; intros S Hn; cbn; [done|]. apply IH. clear IH.
    assert (Hi : named (set_schedules (<[p_id (l_definition l) := definition_row (l_definition l) (l_nextRunAt l)]> (schedules S)) S)).
    { intros id row d Hr Hd. cbn in Hr. apply lookup_insert_Some in Hr as [[<- <-]|[_ Hr]]; [by injection Hd as <-|by apply (Hn id row)]. }
    unfold import_schedule. repeat case_match; done. }
  assert (H2 : named (fold_left (λ S e, import_tombstone e S) deleted (fold_left (λ S l, import_schedule l S) legacy S))).
  { revert H1. generalize (fold_left (λ S l, import_schedule l S) legacy S). clear.
    induction deleted as [|[id r] deleted IH]; intros S Hn; cbn; [done|]. apply IH. clear IH.
    assert (Hd : named (set_schedules (delete id (schedules S)) S)).
    { intros i row d Hr. cbn in Hr. apply lookup_delete_Some in Hr as [_ Hr]. by apply (Hn i row). }
    unfold import_tombstone. destruct (schedules S !! id) as [row|] eqn:E; [destruct (_ <=? _)|]; case_match; done. }
  revert H2. generalize (fold_left (λ S e, import_tombstone e S) deleted (fold_left (λ S l, import_schedule l S) legacy S)). clear.
  induction records as [|r records IH]; intros S Hn; cbn; [done|]. apply IH, named_insertRun, Hn.
Qed.

(** ** History *)

Lemma text_le_total us : ∀ vs, text_le us vs = false → text_le vs us = true.
Proof.
  induction us as [|u us IH]; intros [|v vs] H; cbn in *; try done.
  apply orb_false_iff in H as [Hlt%Z.ltb_ge H]. destruct (Z.ltb_spec v u); [done|].
  replace v with u in * by lia. rewrite Z.eqb_refl in *. cbn in *. auto.
Qed.

Lemma text_le_trans us : ∀ vs ws, text_le us vs = true → text_le vs ws = true → text_le us ws = true.
Proof.
  induction us as [|u us IH]; intros [|v vs] [|w ws] H1 H2; cbn in *; try done.
  apply orb_true_iff in H1, H2. rewrite !andb_true_iff, !Z.ltb_lt, !Z.eqb_eq in *. apply orb_true_iff.
  rewrite andb_true_iff, Z.ltb_lt, Z.eqb_eq. destruct H1 as [?|[-> ?]], H2 as [?|[-> ?]]; try (left; lia).
  right. split; [done|]. eauto.
Qed.

Lemma recent_le_total a b : recent_le a b = false → recent_le b a = true.
Proof.
  unfold recent_le. intros [Hlt%Z.ltb_ge H]%orb_false_iff. apply orb_true_iff. rewrite andb_true_iff, Z.ltb_lt, Z.eqb_eq.
  destruct (Z.eq_dec (default 0 (r_finished_at a.2)) (default 0 (r_finished_at b.2))) as [E|]; [|left; lia].
  right. rewrite E, Z.eqb_refl in H. cbn in H. split; [done|]. by apply text_le_total.
Qed.

Lemma recent_le_trans a b c : recent_le a b = true → recent_le b c = true → recent_le a c = true.
Proof.
  unfold recent_le. rewrite !orb_true_iff, !andb_true_iff, !Z.ltb_lt, !Z.eqb_eq.
  intros [?|[E1 ?]] [?|[E2 ?]]; try (left; lia). right. split; [lia|]. by eapply text_le_trans.
Qed.

Lemma drop_take_sorted {A} (R : A → A → Prop) n l x y :
  StronglySorted R l → x ∈ take n l → y ∈ drop n l → R x y.
Proof.
  revert n. induction l as [|z l IH]; intros [|n] Hs Hx Hy; try (by apply elem_of_nil in Hx).
  apply StronglySorted_inv in Hs as [Hs Hall]. cbn in *. apply elem_of_cons in Hx as [->|Hx]; [|by eapply IH].
  rewrite Forall_forall in Hall. apply Hall. by eapply elem_of_drop.
Qed.

(** Pruning keeps every run that is running and, of those that finished, at most a thousand, none of which finished before one that is let go. *)
Theorem history_keeps_newest S :
  let T := pruneRuns S in
  keeps_running S T ∧ (∀ id row, runs T !! id = Some row → runs S !! id = Some row) ∧
  (length (finished_runs (runs T)) ≤ historyLimit)%nat ∧
  (∀ id row id' row', runs T !! id = Some row → r_status row ≠ RunRunning →
    runs S !! id' = Some row' → runs T !! id' = None → recent_le (id, row) (id', row') = true).
Proof.
  cbv zeta. split; [apply pruneRuns_keeps|].
  assert (Hlook : ∀ id row, runs (pruneRuns S) !! id = Some row → runs S !! id = Some row).
  { intros id row. rewrite pruneRuns_lookup. by case_decide. }
  split; [done|].
  assert (Hkept : ∀ id row, runs (pruneRuns S) !! id = Some row → r_status row ≠ RunRunning →
            (id, row) ∈ take historyLimit (finished_runs (runs S))).
  { intros id row Hr Hs. pose proof (Hlook _ _ Hr) as Hr0. rewrite pruneRuns_lookup in Hr. case_decide as Hd; [done|].
    assert (Hin : (id, row) ∈ finished_runs (runs S)) by by apply finished_runs_elem.
    rewrite <-(take_drop historyLimit (finished_runs (runs S))) in Hin. apply elem_of_app in Hin as [Hin|Hin]; [done|].
    destruct Hd. by apply (list_elem_of_fmap_2 fst) in Hin. }
  split.
  - assert (Hn : NoDup (finished_runs (runs (pruneRuns S)))).
    { unfold finished_runs. rewrite stable_sort_perm. apply NoDup_bfilter, NoDup_map_to_list. }
    transitivity (length (take historyLimit (finished_runs (runs S)))); [|rewrite length_take; lia].
    apply submseteq_length, NoDup_submseteq; [done|]. intros [id row] Hin.
    apply finished_runs_elem in Hin as [Hr Hs]. by apply Hkept.
  - intros id row id' row' Hr Hs Hr' Hgone. rewrite pruneRuns_lookup in Hgone. case_decide as Hd; [|congruence].
    apply list_elem_of_fmap in Hd as ([i r] & -> & Hin). cbn in Hr'.
    assert (r = row') as ->.
    { apply elem_of_drop, finished_runs_elem in Hin as [Hir _]. congruence. }
    apply (drop_take_sorted (λ a b, recent_le a b = true) historyLimit (finished_runs (runs S))); [|by apply Hkept|done].
    apply stable_sort_sorted; [apply recent_le_total|apply recent_le_trans].
Qed.

(** ** What is stored of a schedule only gets newer *)

Definition version : Type := Z * Z * Z.

(** Its revision; then whether it was deleted at it; then its generation. *)
Definition version_of (id : JsString) (S : ScheduleStore) : version :=
  match schedules S !! id with
  | Some row => (w_revision row, 0, default 0 (w_generation row))
  | None => match tombstones S !! id with Some revision => (revision, 1, 0) | None => (0, 0, 0) end
  end.

Definition older (v w : version) : Prop :=
  let '(a, b, c) := v in
  let '(a', b', c') := w in
  a < a' ∨ (a = a' ∧ (b < b' ∨ (b = b' ∧ c < c'))).

Definition no_newer (v w : version) : Prop := older v w ∨ v = w.

Lemma older_trans v w x : older v w → older w x → older v x.
Proof. destruct v as [[a b] c], w as [[d e] f], x as [[g h] i]. cbn. lia. Qed.

#[global] Instance no_newer_preorder : PreOrder no_newer.
Proof.
  split; [by right|]. intros v w x [H1| ->] [H2|E]; subst; try (by left); [|by right]. left. by eapply older_trans.
Qed.

Definition definition_version (definition : RelayScheduleProjection) : version :=
  (p_revision definition, 0, default 0 (p_generation definition)).

(** What may happen to the schedules that are stored, but for the import at
    the start. *)
Inductive StoreOp :=
  | OpApply (definition : RelayScheduleProjection) (nextRunAt : option Z)
  | OpRemove (scheduleId : JsString) (revision : Z)
  | OpClaim (now bootAt : Z) (relayId : JsString) (limit : nat) (fails : JsString → bool) (prune_fails : bool)
  | OpRunNow (scheduleId : JsString) (revision now : Z) (relayId : JsString)
  | OpProgress (record : ScheduleRun)
  | OpComplete (record : ScheduleRun)
  | OpInterrupt (now : Z).

Section Versions.
Context (nextOccurrence : JsString → Z → option Z).

Definition store_op (op : StoreOp) (S : ScheduleStore) : ScheduleStore :=
  match op with
  | OpApply definition next => (apply definition next S).1
  | OpRemove id revision => (remove id revision S).1
  | OpClaim now bootAt relayId limit fails prune_fails =>
      cl_store (claimDue nextOccurrence now bootAt relayId limit fails prune_fails S).1
  | OpRunNow id revision now relayId => match runNow id revision now relayId S with Some (T, _) => T | None => S end
  | OpProgress record => recordProgress record S
  | OpComplete record => default S (completeRun record S)
  | OpInterrupt now => interruptRuns now S
  end.

(** Definitions the schema lets in, and claims that can read the schedule. *)
Definition op_ok (id : JsString) (op : StoreOp) (S : ScheduleStore) : Prop :=
  match op with
  | OpApply definition _ => 0 < p_revision definition ∧ 0 <= default 0 (p_generation definition)
  | OpClaim now _ _ _ _ _ => ∀ row, schedules S !! id = Some row → is_Some (read_row nextOccurrence now row)
  | _ => True
  end.

Fixpoint ops_run (ops : list StoreOp) (S : ScheduleStore) : ScheduleStore :=
  match ops with [] => S | op :: ops => ops_run ops (store_op op S) end.

Fixpoint ops_ok (id : JsString) (ops : list StoreOp) (S : ScheduleStore) : Prop :=
  match ops with [] => True | op :: ops => op_ok id op S ∧ ops_ok id ops (store_op op S) end.

Lemma version_same id S T : schedules T = schedules S → tombstones T = tombstones S → version_of id T = version_of id S.
Proof. intros H1 H2. unfold version_of. by rewrite H1, H2. Qed.

Lemma newer_row_spec row definition :
  newer_row row definition = true ↔ older (definition_version definition) (w_revision row, 0, default 0 (w_generation row)).
Proof. unfold newer_row, older, definition_version. rewrite orb_true_iff, andb_true_iff, !Z.ltb_lt, Z.eqb_eq. lia. Qed.

(** An apply is refused exactly when what is held is newer. *)
Lemma apply_newer_spec definition next S :
  0 < p_revision definition → 0 <= default 0 (p_generation definition) →
  (schedules S !! p_id definition ≠ None → tombstones S !! p_id definition = None) →
  (older (definition_version definition) (version_of (p_id definition) S) ∧ (apply definition next S).1 = S) ∨
  (¬ older (definition_version definition) (version_of (p_id definition) S) ∧
   apply definition next S = store_definition definition next S).
Proof.
  intros Hr Hg Hd. unfold apply, apply_row, version_of.
  destruct (schedules S !! p_id definition) as [row|] eqn:Er.
  - rewrite Hd by done. destruct (newer_row row definition) eqn:En.
    + left. apply newer_row_spec in En. done.
    + right. split; [|done]. intros Ho%newer_row_spec. congruence.
  - destruct (tombstones S !! p_id definition) as [revision|]; [destruct (Z.leb_spec (p_revision definition) revision)|].
    + left. split; [|done]. cbn. lia.
    + right. split; [|done]. cbn. lia.
    + right. split; [|done]. cbn. lia.
Qed.

(** A schedule is stored or deleted, not both. *)
Definition apart (S : ScheduleStore) : Prop := ∀ id, schedules S !! id ≠ None → tombstones S !! id = None.

(** What claims leave of the rows of schedules. *)
Definition rows_kept (S T : ScheduleStore) : Prop :=
  tombstones T = tombstones S ∧
  (∀ id, schedules T !! id ≠ None → schedules S !! id ≠ None) ∧
  (∀ id row, schedules S !! id = Some row → schedules T !! id = None ∨
    ∃ row', schedules T !! id = Some row' ∧ w_revision row' = w_revision row ∧ w_generation row' = w_generation row ∧
      w_definition row' = w_definition row ∧ w_enabled row' = w_enabled row).

Lemma rows_kept_same S T U : rows_kept S T → schedules U = schedules T → tombstones U = tombstones T → rows_kept S U.
Proof. intros (H1 & H2 & H3) E1 E2. unfold rows_kept. rewrite E1, E2. done. Qed.

Lemma claim_schedules id row definition next now bootAt relayId S :
  schedules (claim id row definition next now bootAt relayId S).1 = alter (set_next_run_at next) id (schedules S) ∧
  tombstones (claim id row definition next now bootAt relayId S).1 = tombstones S.
Proof. unfold claim, insertRun. cbn [fst]. destruct (runs S !! _); [done|]. by destruct (slot_taken _ _). Qed.

Lemma claim_row_kept now bootAt relayId fails S C id row :
  rows_kept S (cl_store C) → rows_kept S (cl_store (claim_row nextOccurrence now bootAt relayId fails C (id, row))).
Proof.
  intros (H1 & H2 & H3). unfold claim_row. destruct (fails id); [done|].
  destruct (read_row nextOccurrence now row) as [[definition next]|].
  - pose proof (claim_schedules id row definition next now bootAt relayId (cl_store C)) as [Es Et].
    destruct (claim _ _ _ _ _ _ _ _) as [T o]. cbn in *. unfold rows_kept. rewrite Es, Et. split; [done|]. split.
    + intros i Hi. apply H2. destruct (decide (i = id)) as [->|Hne]; [|by rewrite lookup_alter_ne in Hi].
      rewrite lookup_alter_eq in Hi. by destruct (schedules (cl_store C) !! id).
    + intros i r Hr. destruct (H3 i r Hr) as [Hn|(r' & Hr' & He)].
      * left. destruct (decide (i = id)) as [->|Hne]; [by rewrite lookup_alter_eq, Hn|by rewrite lookup_alter_ne].
      * right. destruct (decide (i = id)) as [->|Hne].
        -- exists (set_next_run_at next r'). by rewrite lookup_alter_eq, Hr'.
        -- exists r'. by rewrite lookup_alter_ne.
  - unfold rows_kept. cbn. split; [done|]. split.
    + intros i Hi. apply H2. intros Hn. apply Hi. rewrite lookup_delete_None. by right.
    + intros i r Hr. destruct (decide (i = id)) as [->|Hne]; [left; by rewrite lookup_delete_eq|].
      rewrite lookup_delete_ne by done. auto.
Qed.

Lemma claims_kept now bootAt relayId limit fails prune_fails S :
  rows_kept S (cl_store (claimDue nextOccurrence now bootAt relayId limit fails prune_fails S).1).
Proof.
  assert (H : ∀ rows C, rows_kept S (cl_store C) →
            rows_kept S (cl_store (fold_left (claim_row nextOccurrence now bootAt relayId fails) rows C))).
  { induction rows as [|[id row] rows IH]; intros C HC; cbn [fold_left]; [done|]. apply IH. by apply claim_row_kept. }
  assert (H0 : rows_kept S (cl_store (MkClaimed S [] false))).
  { split; [done|]. split; [done|]. intros id row Hr. right. by exists row. }
  specialize (H (due_rows now limit S) _ H0). unfold claimDue. cbn [fst].
  destruct (existsb _ _); [destruct prune_fails|]; done.
Qed.

(** A row that can be read is not dropped. *)
Lemma claims_read now bootAt relayId limit fails prune_fails S id row :
  schedules S !! id = Some row → is_Some (read_row nextOccurrence now row) →
  schedules (cl_store (claimDue nextOccurrence now bootAt relayId limit fails prune_fails S).1) !! id ≠ None.
Proof.
  intros Hr Hread.
  assert (H : ∀ rows C, (∀ i r, (i, r) ∈ rows → schedules S !! i = Some r) → schedules (cl_store C) !! id ≠ None →
            schedules (cl_store (fold_left (claim_row nextOccurrence now bootAt relayId fails) rows C)) !! id ≠ None).
  { induction rows as [|[i r] rows IH]; intros C Hin HC; cbn [fold_left]; [done|]. apply IH; [intros ? ? Hx; apply Hin; by right|].
    unfold claim_row. destruct (fails i); [done|]. destruct (read_row nextOccurrence now r) as [[definition next]|] eqn:E.
    - pose proof (claim_schedules i r definition next now bootAt relayId (cl_store C)) as [Es _].
      destruct (claim _ _ _ _ _ _ _ _) as [T o]. cbn in *. rewrite Es. destruct (decide (id = i)) as [->|Hne].
      + rewrite lookup_alter_eq. by destruct (schedules (cl_store C) !! i).
      + by rewrite lookup_alter_ne.
    - cbn. rewrite lookup_delete_ne; [done|]. intros ->. rewrite (Hin id r) in Hr by by left. simplify_eq. rewrite E in Hread.
      by destruct Hread. }
  assert (Hd : ∀ i r, (i, r) ∈ due_rows now limit S → schedules S !! i = Some r) by (intros i r Hin; by apply due_rows_elem in Hin as [? _]).
  specialize (H _ (MkClaimed S [] false) Hd). cbn in H. rewrite Hr in H. specialize (H ltac:(done)).
  unfold claimDue. cbn [fst]. destruct (existsb _ _); [destruct prune_fails|]; done.
Qed.

Lemma store_op_apart op S : apart S → apart (store_op op S).
Proof.
  intros Ha. destruct op; cbn [store_op]; try done.
  - assert (Hs : apart (store_definition definition nextRunAt S).1).
    { intros id. cbn. intros Hi. destruct (decide (id = p_id definition)) as [->|Hne]; [by rewrite lookup_delete_eq|].
      rewrite lookup_delete_ne by done. rewrite lookup_insert_ne in Hi by done. auto. }
    unfold apply, apply_row. repeat case_match; done.
  - assert (Hs : apart (remove_row scheduleId revision S).1).
    { intros id. cbn. intros Hi. destruct (decide (id = scheduleId)) as [->|Hne]; [by rewrite lookup_delete_eq in Hi|].
      rewrite lookup_insert_ne by done. rewrite lookup_delete_ne in Hi by done. auto. }
    unfold remove. repeat case_match; done.
  - destruct (claims_kept now bootAt relayId limit fails prune_fails S) as (Ht & Hk & _). intros id Hi. rewrite Ht. auto.
  - destruct (runNow _ _ _ _ _) as [[T answer]|] eqn:E; [|done]. unfold runNow in E. repeat (case_match; simplify_eq; try done).
    destruct (writeRun _ S) as [U|] eqn:Ew; [|done]. cbn in E. simplify_eq. intros id.
    unfold writeRun in Ew. repeat (case_match; simplify_eq); apply Ha.
  - destruct (completeRun record S) as [U|] eqn:Ew; [|done]. unfold completeRun, writeRun in Ew.
    repeat (case_match; simplify_eq; cbn in Ew); simplify_eq; apply Ha.
Qed.

Lemma store_op_version id op S :
  apart S → op_ok id op S → no_newer (version_of id S) (version_of id (store_op op S)).
Proof.
  intros Ha Hok. destruct op; cbn [store_op op_ok] in *; try (right; done).
  - destruct Hok as [Hr Hg]. destruct (apply_newer_spec definition nextRunAt S Hr Hg (Ha _)) as [[_ ->]|[Hno ->]]; [by right|].
    destruct (decide (id = p_id definition)) as [->|Hne].
    + assert (E : version_of (p_id definition) (store_definition definition nextRunAt S).1 = definition_version definition).
      { unfold version_of. cbn. by rewrite lookup_insert_eq. }
      rewrite E. unfold no_newer, older in *. destruct (version_of (p_id definition) S) as [[a b] c], (definition_version definition) as [[a' b'] c'].
      destruct (decide (a = a' ∧ b = b' ∧ c = c')) as [(-> & -> & ->)|Hn]; [by right|left]. lia.
    + right. unfold version_of. cbn. by rewrite lookup_insert_ne, lookup_delete_ne by done.
  - destruct (decide (id = scheduleId)) as [->|Hne].
    + unfold remove. unfold version_of at 1. destruct (schedules S !! scheduleId) as [row|] eqn:Er.
      * destruct (Z.ltb_spec revision (w_revision row)); [right; unfold version_of; cbn; by rewrite Er|].
        left. unfold version_of. cbn. rewrite lookup_delete_eq, lookup_insert_eq. cbn. lia.
      * unfold version_of. cbn. rewrite lookup_delete_eq, lookup_insert_eq. unfold no_newer, older.
        destruct (tombstones S !! scheduleId) as [t|]; cbn; [|destruct (decide (0 < Z.max revision 0))]; try (left; lia).
        destruct (decide (t < Z.max revision t)); [left; lia|right; repeat f_equal; lia].
    + right. unfold remove. unfold version_of. repeat case_match; simplify_eq; try done; cbn in *;
        rewrite ?lookup_delete_ne, ?lookup_insert_ne in * by done; congruence.
  - destruct (claims_kept now bootAt relayId limit fails prune_fails S) as (Ht & Hk & Hrow). right. unfold version_of. rewrite Ht.
    destruct (schedules S !! id) as [row|] eqn:Er.
    + destruct (Hrow id row Er) as [Hn|(row' & -> & -> & -> & _)]; [|done].
      by destruct (claims_read now bootAt relayId limit fails prune_fails S id row Er (Hok row eq_refl)).
    + destruct (schedules (cl_store _) !! id) eqn:E; [|done]. exfalso. apply (Hk id); [by rewrite E|done].
  - destruct (runNow _ _ _ _ _) as [[T answer]|] eqn:E; [|by right]. right. unfold runNow in E. repeat (case_match; simplify_eq; try done).
    destruct (writeRun _ S) as [U|] eqn:Ew; [|done]. cbn in E. simplify_eq. unfold writeRun in Ew. by repeat (case_match; simplify_eq).
  - right. destruct (completeRun record S) as [U|] eqn:Ew; [|done]. unfold completeRun, writeRun in Ew.
    by repeat (case_match; simplify_eq; cbn in Ew); simplify_eq.
Qed.

Lemma ops_version ops id : ∀ S, apart S → ops_ok id ops S → no_newer (version_of id S) (version_of id (ops_run ops S)) ∧ apart (ops_run ops S).
Proof.
  induction ops as [|op ops IH]; intros S Ha Hok; [done|]. destruct Hok as [Ho Hok]. cbn [ops_run].
  destruct (IH (store_op op S) (store_op_apart op S Ha) Hok) as [Hv Ha']. split; [|done].
  transitivity (version_of id (store_op op S)); [by apply store_op_version|done].
Qed.
End Versions.

(** What a Relay holds of a schedule only gets newer, whatever is applied, removed, claimed and run: an apply changes the store exactly when it is not older than that, so one arriving late undoes neither a newer one nor a deletion. *)
Theorem schedules_only_get_newer nextOccurrence ops definition next S :
  apart S → ops_ok nextOccurrence (p_id definition) ops S → 0 < p_revision definition → 0 <= default 0 (p_generation definition) →
  let T := ops_run nextOccurrence ops S in
  no_newer (version_of (p_id definition) S) (version_of (p_id definition) T) ∧
  (older (definition_version definition) (version_of (p_id definition) S) → (apply definition next T).1 = T) ∧
  (¬ older (definition_version definition) (version_of (p_id definition) T) →
    version_of (p_id definition) (apply definition next T).1 = definition_version definition ∧
    (apply definition next T).2 = MkDeployment (p_generation definition) (p_revision definition) next (p_id definition)).
Proof.
  intros Ha Hok Hr Hg T. destruct (ops_version nextOccurrence ops (p_id definition) S Ha Hok) as [Hv Ha'].
  split; [done|]. destruct (apply_newer_spec definition next T Hr Hg (Ha' _)) as [[Ho E]|[Hno E]]; (split; [intros Hold|intros Hn]); try done.
  - destruct Hno. destruct Hv as [Hv|Hv]; [by eapply older_trans|by rewrite Hv in Hold].
  - rewrite E. split; [|done]. unfold version_of. cbn. by rewrite lookup_insert_eq.
Qed.

(** ** Claims get through what is due *)

Section Due.
Context (nextOccurrence : JsString → Z → option Z) (now bootAt : Z) (relayId : JsString).

(** The parser's next occurrence is after the time it is asked for. *)
Hypothesis next_after : ∀ cron time next, nextOccurrence cron time = Some next → time < next.

Definition due_row (row : ScheduleRow) : bool :=
  w_enabled row && match w_next_run_at row with Some time => time <=? now | None => false end.

Definition due_ids (S : ScheduleStore) : gset JsString := dom (filter (λ entry, due_row entry.2 = true) (schedules S)).

Lemma due_ids_elem S id : id ∈ due_ids S ↔ ∃ row, schedules S !! id = Some row ∧ due_row row = true.
Proof.
  unfold due_ids. rewrite elem_of_dom. split.
  - intros [row H]. apply map_lookup_filter_Some in H. eauto.
  - intros (row & H & Hd). exists row. by apply map_lookup_filter_Some.
Qed.

Lemma claim_row_due fails C id row :
  cl_failed (claim_row nextOccurrence now bootAt relayId fails C (id, row)) = false →
  cl_failed C = false ∧
  due_ids (cl_store (claim_row nextOccurrence now bootAt relayId fails C (id, row))) ⊆ due_ids (cl_store C) ∖ {[ id ]}.
Proof using next_after.
  unfold claim_row. destruct (fails id); [done|].
  destruct (read_row nextOccurrence now row) as [[definition next]|] eqn:Er.
  - assert (Hn : now < next).
    { unfold read_row in Er. destruct (w_definition row) as [d|]; [|done]. cbn in Er.
      destruct (nextOccurrence (p_cron d) now) as [n|] eqn:En; [|done]. cbn in Er. simplify_eq. by eapply next_after. }
    pose proof (claim_schedules id row definition next now bootAt relayId (cl_store C)) as [Es _].
    destruct (claim id row definition next now bootAt relayId (cl_store C)) as [T o]. cbn [fst] in Es. cbn [cl_failed cl_store].
    intros Hf. split; [done|]. intros i Hi. apply due_ids_elem in Hi as (r & Hr & Hd). rewrite Es in Hr.
    destruct (decide (i = id)) as [->|Hne].
    + rewrite lookup_alter_eq in Hr. destruct (schedules (cl_store C) !! id) as [old|]; [|done]. cbn in Hr. simplify_eq.
      unfold due_row in Hd. cbn in Hd. apply andb_true_iff in Hd as [_ Hd%Z.leb_le]. lia.
    + rewrite lookup_alter_ne in Hr by done. apply elem_of_difference. split; [apply due_ids_elem; eauto|set_solver].
  - cbn [cl_failed cl_store]. intros Hf. split; [done|]. intros i Hi. apply due_ids_elem in Hi as (r & Hr & Hd). cbn in Hr.
    apply lookup_delete_Some in Hr as [Hne Hr]. apply elem_of_difference. split; [apply due_ids_elem; eauto|set_solver].
Qed.

Lemma claim_rows_due fails rows : ∀ C,
  cl_failed (fold_left (claim_row nextOccurrence now bootAt relayId fails) rows C) = false →
  cl_failed C = false ∧
  due_ids (cl_store (fold_left (claim_row nextOccurrence now bootAt relayId fails) rows C)) ⊆ due_ids (cl_store C) ∖ list_to_set rows.*1.
Proof using next_after.
  induction rows as [|[id row] rows IH]; intros C Hf; cbn [fold_left] in *; [split; [done|set_solver]|].
  destruct (IH _ Hf) as [Hf1 Hsub]. destruct (claim_row_due _ _ _ _ Hf1) as [Hf0 Hsub0]. split; [done|]. set_solver.
Qed.

Lemma claimDue_due limit fails prune_fails S :
  limit ≠ 0%nat → let '(C, hasMore) := claimDue nextOccurrence now bootAt relayId limit fails prune_fails S in
  cl_failed C = false → hasMore = true → (size (due_ids (cl_store C)) < size (due_ids S))%nat.
Proof using next_after.
  intros Hl. unfold claimDue. set (rows := due_rows now limit S).
  pose proof (claim_rows_due fails rows (MkClaimed S [] false)) as Hr. cbn [cl_store] in Hr.
  set (C := fold_left _ rows _) in *. intros Hf Hmore%Nat.eqb_eq.
  assert (HC : cl_failed C = false) by (destruct (existsb _ _); [destruct prune_fails|]; done).
  assert (Hsub : due_ids (cl_store C) ⊂ due_ids S).
  { destruct (Hr HC) as [_ Hsub]. destruct rows as [|[id row] rest] eqn:Erows; [cbn in Hmore; congruence|].
    assert (Hin : id ∈ due_ids S).
    { apply due_ids_elem. assert (Hd : (id, row) ∈ due_rows now limit S) by (fold rows; rewrite Erows; by left).
      apply due_rows_elem in Hd as (Hd & He & time & Ht & Hle). exists row. split; [done|]. unfold due_row. rewrite He, Ht. by apply Z.leb_le. }
    split; [set_solver|]. intros Hsup. apply Hsup, Hsub, elem_of_difference in Hin as [_ Hno]. apply Hno. cbn. set_solver. }
  assert (Hs : due_ids (cl_store (if existsb (λ o, bool_decide (run_status (o_run o) = RunMissed)) (cl_occurrences C)
      then if prune_fails then MkClaimed (cl_store C) (cl_occurrences C) true
           else MkClaimed (pruneRuns (cl_store C)) (cl_occurrences C) (cl_failed C) else C)) = due_ids (cl_store C)).
  { destruct (existsb _ _); [destruct prune_fails|]; done. }
  rewrite Hs. by apply subset_size.
Qed.
End Due.

Definition sample_definition (revision generation : Z) : RelayScheduleProjection :=
  MkProjection [] false (js "hourly") true (Some generation) (js "s") (js "Nightly") revision [] (js "UTC").

Definition sample_ops : list StoreOp :=
  [OpApply (sample_definition 2 1) (Some 60); OpClaim 60 0 (js "r") 32 (λ _, false) false; OpRemove (js "s") 3;
   OpApply (sample_definition 2 9) None].

Lemma schedules_only_get_newer_witness :
  let next (cron : JsString) time := Some (time + 60) in
  version_of (js "s") (ops_run next sample_ops (MkStore ∅ ∅ ∅)) = (3, 1, 0) ∧
  (apply (sample_definition 4 0) (Some 90) (ops_run next sample_ops (MkStore ∅ ∅ ∅))).2 = MkDeployment (Some 0) 4 (Some 90) (js "s").
Proof.
  split; [vm_compute; reflexivity|].
  apply (schedules_only_get_newer (λ _ time, Some (time + 60)) sample_ops (sample_definition 4 0) (Some 90) (MkStore ∅ ∅ ∅)).
  - intros id. done.
  - split; [split; cbn; lia|]. split; [|split; [done|split; [split; cbn; lia|done]]].
    intros row Hr. vm_compute in Hr. injection Hr as <-. by eexists.
  - cbn. lia.
  - cbn. lia.
  - intros Ho. vm_compute in Ho. destruct Ho as [Ho|[Ho _]]; discriminate.
Defined.
