(* ===== verification/Schedules.v ===== *)
(** * Running schedules

    Models [apps/relay/src/schedules.ts]: the [ScheduleManager], which claims
    the occurrences that fall due, reserves their targets, and runs each
    occurrence's steps in order on up to eight targets at a time.

    What a callback does between two waits is one event. The steps of one
    target within an occurrence move through [TargetPhase]; what the outside
    answers (whether a target exists, how a call went, whether storage wrote)
    comes with the event, as does the time its readings of the clock give.
    [calls] are what is asked of the outside. [close] ends the process's
    occurrences as it stops, and is not an event. *)
From S2P Require Import Prelude Bytes Utf8 Nbt Decimals Snbt ScheduleContract ScheduleState.
Open Scope Z_scope.

Definition scheduleBatchSize : nat := 32.
Definition maximumTimerDurationMs : Z := 2147483647.
Definition targetExecutionConcurrency : nat := 8.
Definition progressWriteRetries : nat := 3.

(** A text that is there and not empty. *)
Definition truthy_text (text : option JsString) : option JsString :=
  match text with Some (u :: us) => Some (u :: us) | _ => None end.
Definition holds_text (text : option JsString) : bool := bool_decide (is_Some (truthy_text text)).

(** ** What an occurrence remembers of a target *)

Record TargetExecutionState := MkTargetState {
  ts_activeKey : option JsString;
  ts_attempts : list ScheduleActionAttempt;
  ts_powerIntent : JsString;
  ts_error : option JsString;
  ts_failure : option JsString;
  ts_inFlight : option ScheduleActionAttempt;
  ts_missing : bool;
  ts_startedAt : Z;
  ts_target : ScheduleTarget;
}.

Definition push_attempt (attempt : ScheduleActionAttempt) (s : TargetExecutionState) : TargetExecutionState :=
  MkTargetState (ts_activeKey s) (ts_attempts s ++ [attempt]) (ts_powerIntent s) (ts_error s) (ts_failure s) (ts_inFlight s)
    (ts_missing s) (ts_startedAt s) (ts_target s).

Definition set_inFlight (attempt : option ScheduleActionAttempt) (s : TargetExecutionState) : TargetExecutionState :=
  MkTargetState (ts_activeKey s) (ts_attempts s) (ts_powerIntent s) (ts_error s) (ts_failure s) attempt
    (ts_missing s) (ts_startedAt s) (ts_target s).

Definition set_failure (failure : JsString) (s : TargetExecutionState) : TargetExecutionState :=
  MkTargetState (ts_activeKey s) (ts_attempts s) (ts_powerIntent s) (Some failure) (Some failure) (ts_inFlight s)
    (ts_missing s) (ts_startedAt s) (ts_target s).

(** The first failure stays the target's error. *)
Definition note_failure (failure : JsString) (s : TargetExecutionState) : TargetExecutionState :=
  if holds_text (ts_failure s) then s else set_failure failure s.

Definition set_missing (s : TargetExecutionState) : TargetExecutionState :=
  MkTargetState (ts_activeKey s) (ts_attempts s) (ts_powerIntent s) (Some (js "Target no longer exists")) (ts_failure s)
    (ts_inFlight s) true (ts_startedAt s) (ts_target s).

Definition active_key (target : ScheduleTarget) : JsString := target_kind_name (t_kind target) ++ [58] ++ t_id target.

Definition attempt (action : RelayScheduleAction) (error : option JsString) (scheduledAt : Z) (scheduleId : JsString)
    (startedAt now : Z) (status : AttemptStatus) (target : ScheduleTarget) : ScheduleActionAttempt :=
  MkAttempt (action_id action) (action_type action) error now
    (scheduleStableId [Text scheduleId; Num scheduledAt; Text (target_kind_name (t_kind target)); Text (t_id target);
                       Text (action_id action)]) None startedAt status.

Definition sequenceAttempt (action : RelayScheduleAction) (error : option JsString) (scheduledAt : Z) (scheduleId : JsString)
    (startedAt now : Z) (status : AttemptStatus) : ScheduleActionAttempt :=
  MkAttempt (action_id action) (action_type action) error now
    (scheduleStableId [Text scheduleId; Num scheduledAt; Text (js "sequence"); Text (action_id action)]) None startedAt status.

Definition with_result (result : option ScheduleCommandResult) (a : ScheduleActionAttempt) : ScheduleActionAttempt :=
  MkAttempt (a_actionId a) (a_actionType a) (a_error a) (a_finishedAt a) (a_id a) result (a_startedAt a) (a_status a).

Definition succeeded_any (attempts : list ScheduleActionAttempt) : bool :=
  existsb (λ a, bool_decide (a_status a = AttemptSucceeded)) attempts.

Definition targetRun (scheduleId : JsString) (scheduledAt now : Z) (s : TargetExecutionState) : ScheduleTargetRun :=
  MkTargetRun (ts_attempts s ++ match ts_inFlight s with Some a => [a] | None => [] end) (ts_error s) now
    (scheduleStableId [Text scheduleId; Num scheduledAt; Text (target_kind_name (t_kind (ts_target s))); Text (t_id (ts_target s))])
    (ts_startedAt s)
    (if decide (ts_activeKey s = None) then SkippedOverlap
     else if decide (is_Some (ts_inFlight s)) then TargetInterrupted
     else if holds_text (ts_failure s) || ts_missing s then TargetFailed
     else if succeeded_any (ts_attempts s) then TargetSucceeded
     else TargetNoop)
    (ts_target s).

Definition is_failed (status : TargetRunStatus) : bool :=
  bool_decide (status = TargetFailed) || bool_decide (status = TargetInterrupted).

Definition aggregateRunStatus (statuses : list TargetRunStatus) : RunStatus :=
  let failed := length (List.filter is_failed statuses) in
  if Nat.eqb failed (length statuses) && Nat.ltb 0 (length statuses) then RunFailed
  else if Nat.ltb 0 failed then RunPartial
  else if existsb (λ status, bool_decide (status = TargetSucceeded)) statuses then RunSucceeded
  else RunNoop.

(** ** Waits *)

Definition waitDurationMs (duration : Z) (unit_ : ScheduleWaitUnit) : Z :=
  duration * match unit_ with Milliseconds => 1 | Seconds => 1000 | Minutes => 60000 | Hours => 3600000 | Days => 86400000 end.

(** The timers of [waitForDuration], one after the other. *)
Fixpoint wait_chunks (fuel : nat) (remainingMs : Z) : list Z :=
  match fuel with
  | O => []
  | S fuel =>
      if 0 <? remainingMs
      then let chunkMs := Z.min remainingMs maximumTimerDurationMs in chunkMs :: wait_chunks fuel (remainingMs - chunkMs)
      else []
  end.

Definition waitForDuration (durationMs : Z) : list Z := wait_chunks (Z.to_nat (durationMs / maximumTimerDurationMs + 1)) durationMs.

(** ** Calls *)

Inductive ArtifactKind := Archive | DatabaseDump | PlatformBundle | ResticSnapshot | TarArchive.

Definition artifact_extension (kind : ArtifactKind) : JsString :=
  js match kind with
     | Archive => "zip" | DatabaseDump => "dmp.gz" | PlatformBundle => "kiln" | ResticSnapshot => "zip" | TarArchive => "tar.gz"
     end.

Definition backupArtifactFilename (backupId : JsString) (kind : ArtifactKind) : JsString :=
  js "backup-" ++ take 8 backupId ++ [46] ++ artifact_extension kind.

(** A destination with the artifact's identity. *)
Inductive TaskDestination :=
  | TaskLocal (artifactId : JsString)
  | TaskRestic (artifactId : JsString) (repository : ResticRepository) (password : option JsString)
  | TaskS3 (artifactId : JsString) (credential : S3Credential) (objectKey : JsString).

Record BackupTaskInput := MkTaskInput {
  b_artifactKind : ArtifactKind;
  b_backupId : JsString;
  b_batch : option (JsString * nat);
  b_catalogBatchId : option JsString;
  b_catalogName : JsString;
  b_catalogRepositoryId : option JsString;
  b_catalogStorageId : option JsString;
  b_coverage : option (JsString * list JsString);
  b_destination : TaskDestination;
  b_maxBytes : option Z;
  b_mode : BackupMode;
  b_stopped : bool;
  b_targetId : JsString;
  b_targetKind : BackupTargetKind;
  b_taskId : JsString;
}.

Inductive Call :=
  | SendConsoleCommand (instanceId command : JsString)
  | RunInDatabase (id command : JsString)
  | RunInApp (id service command : JsString)
  | RunPower (kind : ScheduleTargetKind) (id : JsString) (action : PowerStep) (powerIntent : JsString)
  | ListAppOwnedVolumes (appId : JsString)
  | EnqueueBackup (input : BackupTaskInput).

Definition scheduledBackupDestination (deployed : DeployedDestination) (backupId artifactId : JsString) (kind : ArtifactKind)
    : TaskDestination :=
  match deployed with
  | DeployedLocal _ => TaskLocal artifactId
  | DeployedRestic _ repository password => TaskRestic artifactId repository password
  | DeployedS3 credential prefix =>
      TaskS3 artifactId credential (prefix ++ [47] ++ backupId ++ [47] ++ backupArtifactFilename backupId kind)
  end.

Definition backup_kind_of (kind : ScheduleTargetKind) : BackupTargetKind :=
  match kind with TInstance => BInstance | TDatabase => BDatabase | TApp => BApp | TRelay => BRelay end.

Definition backup_kind_name (kind : BackupTargetKind) : JsString :=
  js match kind with
     | BInstance => "instance" | BDatabase => "database" | BPlatform => "platform" | BRelay => "relay" | BApp => "app"
     | BVolume => "volume"
     end.

Definition backupExecution (executions : list BackupExecution) (target : ScheduleTarget) : option BackupExecution :=
  List.find (λ x, bool_decide (x_targetId x = t_id target) && bool_decide (x_targetKind x = backup_kind_of (t_kind target)))
    executions.

Definition appBackupExecutions (executions : list BackupExecution) (target : ScheduleTarget) : list BackupExecution :=
  List.filter (λ x, (bool_decide (x_targetKind x = BApp) && bool_decide (x_targetId x = t_id target)) ||
                    (bool_decide (x_targetKind x = BVolume) && bool_decide (x_appId x = Some (t_id target)))) executions.

Definition backupRefusal (executions : list BackupExecution) (target : ScheduleTarget) : option JsString :=
  let mine := if decide (t_kind target = TApp) then appBackupExecutions executions target
              else match backupExecution executions target with Some x => [x] | None => [] end in
  List.find (λ x, holds_text (x_refusal x)) mine ≫= x_refusal.

Definition storage_of (destination : StepDestination) : option JsString :=
  match destination with ToLocal => None | ToStorage storageId => Some storageId end.

(** What [#executeAction] does before its first wait. *)
Inductive Execution :=
  | Throws (message : JsString)
  | Asks (calls : list Call)
  | AsksOwned (appId : JsString)
  | Returns.

Section Manager.
Context (relayId platformTargetId : JsString).

Definition run_key (scheduleId : JsString) (scheduledAt : Z) : JsString :=
  scheduleStableId [Text scheduleId; Num scheduledAt; Text relayId].

Definition backup_identity (schedule : RelayScheduleProjection) (scheduledAt : Z) (kind : BackupTargetKind) (id actionId : JsString)
    : JsString :=
  scheduleDeterministicUuid [Text (js "schedule-backup"); Text (p_id schedule); Num scheduledAt; Text (backup_kind_name kind);
                             Text id; Text actionId].

Definition backup_name (schedule : RelayScheduleProjection) (scheduledAt : Z) (name backupId instanceId : JsString)
    : option JsString :=
  resolveScheduleBackupName name
    (MkNameContext backupId instanceId (run_key (p_id schedule) scheduledAt) (p_id schedule) (p_name schedule) scheduledAt).

Definition not_deployed : JsString := js "Scheduled backup destination is not deployed".
Definition invalid_time : JsString := js "Invalid time value".

Definition one_backup (schedule : RelayScheduleProjection) (destination : StepDestination) (executions : list BackupExecution)
    (actionId name : JsString) (mode : BackupMode) (target : ScheduleTarget) (scheduledAt : Z) : Execution :=
  let execution := backupExecution executions target in
  let deployed :=
    match execution ≫= x_destination with
    | Some d => Some d
    | None => match mode, destination with Full, ToLocal => Some (DeployedLocal None) | _, _ => None end
    end in
  match deployed with
  | None => Throws not_deployed
  | Some deployed =>
      let backupId := backup_identity schedule scheduledAt (backup_kind_of (t_kind target)) (t_id target) actionId in
      let targetKind := if decide (t_kind target = TRelay) then BPlatform else backup_kind_of (t_kind target) in
      let artifactKind :=
        if decide (mode = Incremental) then ResticSnapshot
        else if decide (targetKind = BInstance) then Archive
        else if decide (targetKind = BDatabase) then DatabaseDump
        else PlatformBundle in
      match backup_name schedule scheduledAt name backupId (if decide (t_kind target = TInstance) then t_id target else []) with
      | None => Throws invalid_time
      | Some name =>
          Asks [EnqueueBackup
            (MkTaskInput artifactKind backupId None None name
               (if decide (mode = Incremental) then execution ≫= x_repositoryId else None) (storage_of destination) None
               (scheduledBackupDestination deployed backupId (scheduleDeterministicUuid [Text (js "artifact"); Text backupId])
                  artifactKind)
               (execution ≫= x_maxBytes) mode false (if decide (targetKind = BPlatform) then platformTargetId else t_id target)
               targetKind (scheduleDeterministicUuid [Text (js "task"); Text backupId]))]
      end
  end.

Definition executeAction (schedule : RelayScheduleProjection) (action : RelayScheduleAction) (target : ScheduleTarget)
    (scheduledAt : Z) (powerIntent : JsString) : Execution :=
  match action with
  | ConsoleCommand _ command _ services _ =>
      match t_kind target with
      | TInstance => Asks [SendConsoleCommand (t_id target) command]
      | TDatabase => Asks [RunInDatabase (t_id target) command]
      | TApp =>
          match service_of services target with
          | Some service => Asks [RunInApp (t_id target) service command]
          | None => Throws (js "No service was chosen to run the command")
          end
      | TRelay => Returns
      end
  | PowerStepAction step _ _ _ =>
      if decide (t_kind target = TRelay) then Returns else Asks [RunPower (t_kind target) (t_id target) step powerIntent]
  | Backup _ destination executions id mode name _ =>
      if decide (t_kind target = TApp) then
        let mine := appBackupExecutions executions target in
        if bool_decide (mine = []) || existsb (λ x, bool_decide (x_destination x = None)) mine then Throws not_deployed
        else AsksOwned (t_id target)
      else one_backup schedule destination executions id name mode target scheduledAt
  | Wait _ _ _ => Returns
  end.

(** An App's backups once its own volumes are known. *)
Definition is_volume (x : BackupExecution) : bool := bool_decide (x_targetKind x = BVolume).

Definition app_backup_input (schedule : RelayScheduleProjection) (stopped : bool) (destination : StepDestination)
    (actionId name batchId : JsString) (mine : list BackupExecution) (target : ScheduleTarget) (scheduledAt : Z)
    (x : BackupExecution) : option BackupTaskInput :=
  let backupId := backup_identity schedule scheduledAt (x_targetKind x) (x_targetId x) actionId in
  deployed ← x_destination x;
  name ← backup_name schedule scheduledAt name backupId (t_id target);
  Some (MkTaskInput TarArchive backupId
          (if Nat.leb 2 (length mine) then Some (batchId, length mine) else None) (Some batchId) name None (storage_of destination)
          (Some (t_id target, x_targetId <$> List.filter is_volume mine))
          (scheduledBackupDestination deployed backupId (scheduleDeterministicUuid [Text (js "artifact"); Text backupId]) TarArchive)
          (x_maxBytes x) Full stopped (x_targetId x) (if is_volume x then BVolume else BApp)
          (scheduleDeterministicUuid [Text (js "task"); Text backupId])).

Definition coverage_changed : JsString := js "App backup coverage changed; waiting for Hearth to refresh the schedule".

Definition backUpApp (schedule : RelayScheduleProjection) (action : RelayScheduleAction) (target : ScheduleTarget)
    (scheduledAt : Z) (owned : list JsString) : Execution :=
  match action with
  | Backup stopped destination executions id mode name _ =>
      let mine := appBackupExecutions executions target in
      let projected := js_distinct (x_targetId <$> List.filter is_volume mine) in
      if negb (Nat.eqb (length owned) (length projected)) || existsb (λ v, negb (bool_decide (v ∈ projected))) owned
      then Throws coverage_changed
      else
        let batchId := scheduleDeterministicUuid
          [Text (js "schedule-backup-batch"); Text (p_id schedule); Num scheduledAt; Text (t_id target); Text id] in
        match mapM (app_backup_input schedule stopped destination id name batchId mine target scheduledAt) mine with
        | Some inputs => Asks (EnqueueBackup <$> inputs)
        | None => Throws invalid_time
        end
  | _ => Returns
  end.
End Manager.
