(* ===== verification/ScheduleManager.v ===== *)
(** * The schedule manager's state and its events

    Models the class [ScheduleManager] of [apps/relay/src/schedules.ts]: the
    occurrences that run, the targets they hold, and the storage they record
    themselves in. [manager_event] is one event; what it asks of the outside
    is its second result. *)
From S2P Require Import Prelude Lanes.
From S2P Require Import Bytes Utf8 Nbt Decimals Snbt ScheduleContract ScheduleState Schedules.
Open Scope Z_scope.

(** ** How a call went *)

Record ContainerCommandResult := MkResult {
  cc_exitCode : option Z;
  cc_output : JsString;
  cc_truncated : bool;
  cc_unknown : option JsString;
}.

Inductive TaskStatus := TaskQueued | TaskRunning | TaskSucceeded | TaskFailed | TaskCancelled.

#[global] Instance TaskStatus_eq_dec : EqDecision TaskStatus.
Proof. solve_decision. Defined.

Definition task_status_name (status : TaskStatus) : JsString :=
  js match status with
     | TaskQueued => "queued" | TaskRunning => "running" | TaskSucceeded => "succeeded" | TaskFailed => "failed"
     | TaskCancelled => "cancelled"
     end.

(** A backup's task as it was queued and what each look at it found. *)
Inductive Poll := PollFails | PollGone | PollTask (status : TaskStatus) (error : option JsString).

Record BackupWatch := MkWatch { bw_status : TaskStatus; bw_error : option JsString; bw_polls : list Poll; bw_timed_out : bool }.

Definition is_pending (status : TaskStatus) : bool := match status with TaskQueued | TaskRunning => true | _ => false end.

(** [None] while the task is not over. *)
Fixpoint poll_backup (status : TaskStatus) (error : option JsString) (polls : list Poll) : option (Result JsString unit) :=
  if is_pending status then
    match polls with
    | [] => None
    | PollFails :: _ => Some (Throw (js "Could not inspect the scheduled backup"))
    | PollGone :: _ => Some (Throw (js "Scheduled backup disappeared from the queue"))
    | PollTask status error :: polls => poll_backup status error polls
    end
  else if decide (status = TaskSucceeded) then Some (Ok tt)
  else Some (Throw (default (js "Scheduled backup " ++ task_status_name status) error)).

Definition waitForBackup (watch : BackupWatch) : option (Result JsString unit) :=
  match poll_backup (bw_status watch) (bw_error watch) (bw_polls watch) with
  | Some result => Some result
  | None => if bw_timed_out watch then Some (Throw (js "Scheduled backup timed out")) else None
  end.

(** Backups in the order they ended: the first that failed decides. *)
Fixpoint waitForBackups (watches : list BackupWatch) : option (Result JsString unit) :=
  match watches with
  | [] => Some (Ok tt)
  | watch :: rest =>
      match waitForBackup watch with
      | Some (Ok _) => waitForBackups rest
      | other => other
      end
  end.

Inductive CallAnswer :=
  | AnsweredError (message : JsString)
  | AnsweredRejected (reason : RejectReason) (message : JsString)
  | AnsweredDone
  | AnsweredCommand (result : ContainerCommandResult)
  | AnsweredBackups (watches : list BackupWatch).

Inductive Outcome :=
  | Failure (message : JsString)
  | Rejection (reason : RejectReason) (message : JsString)
  | Success (result : option ContainerCommandResult).

Definition outcome_of (answer : CallAnswer) : option Outcome :=
  match answer with
  | AnsweredError message => Some (Failure message)
  | AnsweredRejected reason message => Some (Rejection reason message)
  | AnsweredDone => Some (Success None)
  | AnsweredCommand result => Some (Success (Some result))
  | AnsweredBackups watches =>
      match waitForBackups watches with
      | Some (Ok _) => Some (Success None)
      | Some (Throw message) => Some (Failure message)
      | None => None
      end
  end.

(** ** A target's step *)

Inductive RecordKind := BeforeCommand | AfterCommand.

Inductive TargetPhase :=
  | Idle
  | Checking
  | RecordWaiting (kind : RecordKind) (startedAt : Z) (retries : nat)
  | RecordWriting (kind : RecordKind) (startedAt : Z) (retries : nat) (record : ScheduleRun)
  | RecordAnswered (startedAt : Z) (landed : bool)
  | ListingOwned (startedAt : Z)
  | Executing (startedAt : Z)
  | Settled (startedAt : Z) (outcome : Outcome)
  | Ended.

Definition is_idle (phase : TargetPhase) : bool := match phase with Idle => true | _ => false end.
Definition is_ended (phase : TargetPhase) : bool := match phase with Ended => true | _ => false end.
Definition is_writing (phase : TargetPhase) : bool := match phase with RecordWriting _ _ _ _ => true | _ => false end.

Record Target := MkTargetLane { tg_state : TargetExecutionState; tg_phase : TargetPhase }.

(** [Abandoned] is of an occurrence one of whose records was refused in its
    step [i]: its promise rejected and it let its targets go, and what the
    others were doing in that step goes on. *)
Inductive Stage :=
  | Checks
  | Step (i : nat)
  | Waiting (i : nat) (startedAt : Z)
  | Completing (record : ScheduleRun)
  | Abandoned (i : nat).

Record Occurrence := MkOcc {
  oc_definition : RelayScheduleProjection;
  oc_scheduledAt : Z;
  oc_startedAt : Z;
  oc_targets : list Target;
  oc_sequenceAttempts : list ScheduleActionAttempt;
  oc_sequenceFailure : option JsString;
  oc_stage : Stage;
}.

Definition set_targets (ts : list Target) (O : Occurrence) : Occurrence :=
  MkOcc (oc_definition O) (oc_scheduledAt O) (oc_startedAt O) ts (oc_sequenceAttempts O) (oc_sequenceFailure O) (oc_stage O).
Definition set_stage (stage : Stage) (O : Occurrence) : Occurrence :=
  MkOcc (oc_definition O) (oc_scheduledAt O) (oc_startedAt O) (oc_targets O) (oc_sequenceAttempts O) (oc_sequenceFailure O) stage.
Definition push_sequence (a : ScheduleActionAttempt) (failure : option JsString) (O : Occurrence) : Occurrence :=
  MkOcc (oc_definition O) (oc_scheduledAt O) (oc_startedAt O) (oc_targets O) (oc_sequenceAttempts O ++ [a]) failure (oc_stage O).

Definition current_action (O : Occurrence) : option RelayScheduleAction :=
  match oc_stage O with
  | Step i => p_actions (oc_definition O) !! i
  | Waiting i _ => p_actions (oc_definition O) !! i
  | Abandoned i => p_actions (oc_definition O) !! i
  | _ => None
  end.

Definition is_abandoned (O : Occurrence) : bool := match oc_stage O with Abandoned _ => true | _ => false end.

(** The step that targets are at work in. *)
Definition as_step (stage : Stage) : Stage := match stage with Abandoned i => Step i | _ => stage end.

(** What [Effect.forEach] starts next: in order, and so many at a time. *)
Definition may_begin (ts : list Target) (k : nat) : bool :=
  forallb (λ t, negb (is_idle (tg_phase t))) (take k ts) &&
  Nat.ltb (length (List.filter (λ t, negb (is_idle (tg_phase t)) && negb (is_ended (tg_phase t))) ts)) targetExecutionConcurrency.

Definition all_ended (O : Occurrence) : bool := forallb (λ t, is_ended (tg_phase t)) (oc_targets O).

Definition all_idle (ts : list Target) : list Target := (λ t, MkTargetLane (tg_state t) Idle) <$> ts.

Definition powerOwner (target : ScheduleTarget) : JsString :=
  js match t_kind target with TDatabase => "the database's" | TApp => "the App's" | _ => "the server's" end.

Definition in_container (action : RelayScheduleAction) (target : ScheduleTarget) : bool :=
  bool_decide (action_type action = AtCommand) && negb (bool_decide (t_kind target = TInstance)).

Section Manager.
Context (relayId platformTargetId : JsString).

Definition attempt_of (O : Occurrence) (action : RelayScheduleAction) (s : TargetExecutionState) (error : option JsString)
    (startedAt now : Z) (status : AttemptStatus) : ScheduleActionAttempt :=
  attempt action error (oc_scheduledAt O) (p_id (oc_definition O)) startedAt now status (ts_target s).

Definition progress_run (O : Occurrence) (now : Z) : ScheduleRun :=
  let schedule := oc_definition O in
  MkRun now (run_key relayId (p_id schedule) (oc_scheduledAt O)) (p_revision schedule) (p_id schedule) (oc_scheduledAt O)
    (oc_sequenceAttempts O) (oc_startedAt O) RunRunning
    ((λ t, targetRun (p_id schedule) (oc_scheduledAt O) now (tg_state t)) <$> oc_targets O).

(** Asking for what a step does. *)
Definition start_execution (startedAt : Z) (execution : Execution) (s : TargetExecutionState) : Target * list Call :=
  match execution with
  | Throws message => (MkTargetLane (set_inFlight None s) (Settled startedAt (Failure message)), [])
  | Returns => (MkTargetLane (set_inFlight None s) (Settled startedAt (Success None)), [])
  | AsksOwned appId => (MkTargetLane s (ListingOwned startedAt), [ListAppOwnedVolumes appId])
  | Asks calls => (MkTargetLane s (Executing startedAt), calls)
  end.

Definition execute (O : Occurrence) (action : RelayScheduleAction) (startedAt : Z) (s : TargetExecutionState) : Target * list Call :=
  start_execution startedAt
    (executeAction relayId platformTargetId (oc_definition O) action (ts_target s) (oc_scheduledAt O) (ts_powerIntent s)) s.

Definition unknown_before_end : JsString := js "The Relay stopped before this command finished, so it may have run".
Definition not_recorded : JsString := js "Not run: the Relay couldn't record the command before sending it".

Definition refused_step (action : RelayScheduleAction) (target : ScheduleTarget) : option JsString :=
  match action with Backup _ _ executions _ _ _ _ => truthy_text (backupRefusal executions target) | _ => None end.

(** Why a step is not run on a target, with what is recorded of it. *)
Definition step_refusal (O : Occurrence) (action : RelayScheduleAction) (paused : bool) (s : TargetExecutionState)
    : option (option JsString * AttemptStatus) :=
  if holds_text (oc_sequenceFailure O) then Some (Some (js "A previous sequence action failed"), NotRun)
  else if holds_text (ts_failure s) && negb (p_continueOnFailure (oc_definition O))
  then Some (Some (js "A previous action failed"), NotRun)
  else if ts_missing s then Some (Some (js "Target no longer exists"), SkippedMissing)
  else if paused then Some (Some (js "Not run: the Relay is paused"), NotRun)
  else if negb (scheduleActionSupportsTarget action (ts_target s)) then Some (None, SkippedUnsupported)
  else if negb (scheduleActionAppliesToTarget action (ts_target s)) then Some (None, SkippedPolicy)
  else match refused_step action (ts_target s) with
       | Some refusal => Some (Some (js "Not run: " ++ refusal), NotRun)
       | None => None
       end.

(** [#executeTargetAction] up to its first wait. *)
Definition begin_step (O : Occurrence) (action : RelayScheduleAction) (paused : bool) (now : Z) (s : TargetExecutionState)
    : Target * list Call :=
  if decide (ts_activeKey s = None) then (MkTargetLane s Ended, [])
  else
    match step_refusal O action paused s with
    | Some (error, status) => (MkTargetLane (push_attempt (attempt_of O action s error now now status) s) Ended, [])
    | None =>
        if in_container action (ts_target s) then
          (MkTargetLane (set_inFlight (Some (attempt_of O action s (Some unknown_before_end) now now AttemptUnknown)) s)
             (RecordWaiting BeforeCommand now progressWriteRetries), [])
        else execute O action now s
    end.

(** A record answered for: whether it landed. *)
Definition resume_step (O : Occurrence) (action : RelayScheduleAction) (startedAt : Z) (landed : bool) (now : Z)
    (s : TargetExecutionState) : Target * list Call :=
  if landed then execute O action startedAt s
  else
    let s := note_failure not_recorded (set_inFlight None s) in
    (MkTargetLane (push_attempt (attempt_of O action s (Some not_recorded) startedAt now AttemptFailed) s) Ended, []).

Definition gives_way (reason : RejectReason) : bool :=
  match reason with Superseded | Paused | Refused => true | _ => false end.

Definition rejection_text (reason : RejectReason) (message : JsString) (target : ScheduleTarget) : JsString :=
  match reason with
  | Paused => js "Not run: the Relay is paused"
  | Refused => js "Not run: " ++ message
  | _ => js "Not run: " ++ powerOwner target ++ js " power was changed during the schedule"
  end.

Definition after_step (action : RelayScheduleAction) (startedAt : Z) (s : TargetExecutionState) : Target :=
  MkTargetLane s (if in_container action (ts_target s) then RecordWaiting AfterCommand startedAt 0 else Ended).

Definition exit_text (code : option Z) : JsString :=
  js "The command exited with code " ++ match code with Some code => print_int code | None => js "null" end.

Definition outcome_failure (outcome : Outcome) : option JsString :=
  match outcome with
  | Failure message | Rejection _ message => Some message
  | Success None => None
  | Success (Some result) =>
      match truthy_text (cc_unknown result) with
      | Some unknown => Some unknown
      | None => if decide (cc_exitCode result = Some 0) then None else Some (exit_text (cc_exitCode result))
      end
  end.

Definition outcome_result (outcome : Outcome) : option ScheduleCommandResult :=
  match outcome with
  | Success (Some result) => Some (MkCommandResult (cc_exitCode result) (cc_output result) (cc_truncated result))
  | _ => None
  end.

Definition outcome_status (outcome : Outcome) : AttemptStatus :=
  match outcome with
  | Success (Some result) =>
      if holds_text (cc_unknown result) then AttemptUnknown
      else if holds_text (outcome_failure outcome) then AttemptFailed
      else AttemptSucceeded
  | _ => if holds_text (outcome_failure outcome) then AttemptFailed else AttemptSucceeded
  end.

(** What a step that gave way records. *)
Definition gave_way (outcome : Outcome) (target : ScheduleTarget) : option JsString :=
  match outcome with
  | Rejection reason message => if gives_way reason then Some (rejection_text reason message target) else None
  | _ => None
  end.

(** What follows an executed action: the attempt, and its record. *)
Definition settle_step (O : Occurrence) (action : RelayScheduleAction) (startedAt : Z) (outcome : Outcome) (now : Z)
    (s : TargetExecutionState) : Target :=
  match gave_way outcome (ts_target s) with
  | Some error => after_step action startedAt (push_attempt (attempt_of O action s (Some error) startedAt now NotRun) s)
  | None =>
      let failure := outcome_failure outcome in
      let s := match truthy_text failure with Some failure => note_failure failure s | None => s end in
      after_step action startedAt
        (push_attempt (with_result (outcome_result outcome)
          (attempt_of O action s failure startedAt now (outcome_status outcome))) s)
  end.

(** ** The manager *)

(** [m_fibers] has the occurrences that run, and those that were abandoned,
    which are in [#occurrenceFibers] no more. *)
Record Manager := MkManager {
  m_store : ScheduleStore;
  m_active : gset JsString;
  m_fibers : gmap nat Occurrence;
  m_next : nat;
  m_nextRunAt : option (option Z);
  m_nextClaimAttemptAt : Z;
  m_claimFailures : nat;
  m_bootAt : Z;
}.

Definition running (fibers : gmap nat Occurrence) : nat := size (filter (λ entry, is_abandoned entry.2 = false) fibers).

Definition set_store (S : ScheduleStore) (M : Manager) : Manager :=
  MkManager S (m_active M) (m_fibers M) (m_next M) (m_nextRunAt M) (m_nextClaimAttemptAt M) (m_claimFailures M) (m_bootAt M).
Definition set_fibers (fibers : gmap nat Occurrence) (M : Manager) : Manager :=
  MkManager (m_store M) (m_active M) fibers (m_next M) (m_nextRunAt M) (m_nextClaimAttemptAt M) (m_claimFailures M) (m_bootAt M).
Definition set_nextRunAt (next : option (option Z)) (M : Manager) : Manager :=
  MkManager (m_store M) (m_active M) (m_fibers M) (m_next M) next (m_nextClaimAttemptAt M) (m_claimFailures M) (m_bootAt M).
Definition set_failures (at_ : Z) (failures : nat) (M : Manager) : Manager :=
  MkManager (m_store M) (m_active M) (m_fibers M) (m_next M) (m_nextRunAt M) at_ failures (m_bootAt M).

(** [make]: the runs of before the start are interrupted. *)
Definition make (now : Z) (legacy : option (list LegacySchedule * list (JsString * Z) * list ScheduleRun)) (S : ScheduleStore)
    : Manager :=
  let S := match legacy with Some (old, deleted, records) => importLegacy old deleted records S | None => S end in
  MkManager (interruptRuns now S) ∅ ∅ 0 None 0 0 now.

Definition claimFailed (now : Z) (M : Manager) : Manager :=
  set_failures (now + Z.min 60000 (1000 * 2 ^ Z.min (Z.of_nat (m_claimFailures M)) 6)) (S (m_claimFailures M)) M.

(** What an occurrence takes of the targets that no other one holds. *)
Fixpoint reserve_targets (intent : ScheduleTargetKind → JsString → JsString) (now : Z) (targets : list ScheduleTarget)
    (active : gset JsString) : list Target * gset JsString :=
  match targets with
  | [] => ([], active)
  | target :: rest =>
      let key := active_key target in
      let overlapping := bool_decide (key ∈ active) in
      let '(ts, active') := reserve_targets intent now rest (if overlapping then active else {[ key ]} ∪ active) in
      (MkTargetLane
         (MkTargetState (if overlapping then None else Some key) []
            (if decide (t_kind target = TRelay) then [] else intent (t_kind target) (t_id target)) None None None false now target)
         Idle :: ts, active')
  end.

Definition launchOccurrence (intent : ScheduleTargetKind → JsString → JsString) (now : Z) (definition : RelayScheduleProjection)
    (scheduledAt : Z) (M : Manager) : Manager :=
  let '(ts, active) := reserve_targets intent now (p_targets definition) (m_active M) in
  MkManager (m_store M) active (<[m_next M := MkOcc definition scheduledAt now ts [] None Checks]> (m_fibers M)) (S (m_next M))
    (m_nextRunAt M) (m_nextClaimAttemptAt M) (m_claimFailures M) (m_bootAt M).

Definition held_keys (ts : list Target) : list JsString := omap (λ t, ts_activeKey (tg_state t)) ts.

(** The occurrence lets its targets go. *)
Definition release_targets (ts : list Target) (M : Manager) : Manager :=
  MkManager (m_store M) (m_active M ∖ list_to_set (held_keys ts)) (m_fibers M) (m_next M) (m_nextRunAt M)
    (m_nextClaimAttemptAt M) (m_claimFailures M) (m_bootAt M).

(** An occurrence whose result is refused is over, with all its steps. *)
Definition fail_occurrence (f : nat) (O : Occurrence) (M : Manager) : Manager :=
  release_targets (oc_targets O) (set_fibers (delete f (m_fibers M)) M).

Definition completed_run (O : Occurrence) (now : Z) : ScheduleRun :=
  let schedule := oc_definition O in
  let targetRuns := (λ t, targetRun (p_id schedule) (oc_scheduledAt O) now (tg_state t)) <$> oc_targets O in
  let failed := existsb (λ a, bool_decide (a_status a = AttemptFailed) || bool_decide (a_status a = AttemptInterrupted))
                  (oc_sequenceAttempts O) in
  let targetStatus := aggregateRunStatus (tr_status <$> targetRuns) in
  MkRun now (run_key relayId (p_id schedule) (oc_scheduledAt O)) (p_revision schedule) (p_id schedule) (oc_scheduledAt O)
    (oc_sequenceAttempts O) (oc_startedAt O)
    (if failed then if decide (targetStatus = RunSucceeded ∨ targetStatus = RunPartial) then RunPartial else RunFailed
     else targetStatus) targetRuns.

(** ** Events *)

Record RoundAnswer := MkRound { ra_select_fails : bool; ra_fails : JsString → bool; ra_prune_fails : bool }.

Section Steps.
Context (nextOccurrence : JsString → Z → option Z).

Definition launch_claimed (intent : ScheduleTargetKind → JsString → JsString) (now : Z) (M : Manager) (o : ScheduleOccurrence)
    : Manager :=
  if decide (run_status (o_run o) = RunRunning) then launchOccurrence intent now (o_definition o) (o_scheduledAt o) M else M.

(** The rounds of a tick; [None] is out of fuel. *)
Fixpoint tick_rounds (fuel : nat) (intent : ScheduleTargetKind → JsString → JsString) (now : Z) (answers : nat → RoundAnswer)
    (round : nat) (M : Manager) : option Manager :=
  match fuel with
  | O => None
  | S fuel =>
      let available := (scheduleBatchSize - running (m_fibers M))%nat in
      if decide (available = 0%nat) then Some M
      else
        let answer := answers round in
        if ra_select_fails answer then Some (claimFailed now M)
        else
          let '(claimed, hasMore) :=
            claimDue nextOccurrence now (m_bootAt M) relayId available (ra_fails answer) (ra_prune_fails answer) (m_store M) in
          let M := fold_left (launch_claimed intent now) (cl_occurrences claimed) (set_store (cl_store claimed) M) in
          if cl_failed claimed then Some (claimFailed now M)
          else
            let M := set_failures (m_nextClaimAttemptAt M) 0 M in
            if hasMore then tick_rounds fuel intent now answers (S round) M else Some M
  end.

(** A round beyond the first claims or drops as many rows as it may, so the
    rows there are bound the rounds. *)
Definition tick_fuel (M : Manager) : nat := S (size (schedules (m_store M))).

Definition tick (intent : ScheduleTargetKind → JsString → JsString) (now : Z) (read_fails : bool) (answers : nat → RoundAnswer)
    (M : Manager) : option Manager :=
  if now <? m_nextClaimAttemptAt M then Some M
  else
    match m_nextRunAt M, read_fails with
    | None, true => Some (claimFailed now M)
    | cached, _ =>
        let next := match cached with Some next => next | None => nextRunAt (m_store M) end in
        let M := set_nextRunAt (Some next) M in
        match next with
        | Some time =>
            if now <? time then Some (set_failures (m_nextClaimAttemptAt M) 0 M)
            else tick_rounds (tick_fuel M) intent now answers 0 (set_nextRunAt None M)
        | None => Some (set_failures (m_nextClaimAttemptAt M) 0 M)
        end
    end.

Inductive ScheduleEvent :=
  | EApply (definition : RelayScheduleProjection) (asked_at : Z)
  | ERemove (scheduleId : JsString) (revision : Z)
  | ERunNow (scheduleId : JsString) (revision : Z) (intent : ScheduleTargetKind → JsString → JsString) (now : Z)
  | ETick (intent : ScheduleTargetKind → JsString → JsString) (now : Z) (read_fails : bool) (answers : nat → RoundAnswer)
  | ECheck (f k : nat)
  | EChecked (f k : nat) (answer : Result JsString bool)
  | ENextStep (f : nat)
  | EBeginWait (f : nat) (now : Z)
  | EWaited (f : nat) (now : Z) (answer : Result JsString unit)
  | EBegin (f k : nat) (paused : bool) (now : Z)
  | EWrite (f k : nat) (now : Z)
  | EWritten (f k : nat) (ok : bool)
  | EResume (f k : nat) (now : Z)
  | EOwned (f k : nat) (answer : Result JsString (list JsString))
  | EAnswer (f k : nat) (answer : CallAnswer)
  | ESettle (f k : nat) (now : Z)
  | EFinish (f : nat) (now : Z)
  | EComplete (f : nat) (ok : bool).

Definition put_occurrence (f : nat) (O : Occurrence) (M : Manager) : Manager := set_fibers (<[f := O]> (m_fibers M)) M.

Definition put_target (f k : nat) (t : Target) (O : Occurrence) (M : Manager) : Manager :=
  put_occurrence f (set_targets (<[k := t]> (oc_targets O)) O) M.

(** The schema refuses a record: the promise of the target's step rejects, and
    with it the occurrence's, which lets its targets go and begins nothing
    more. The steps of its other targets, which nothing stops, go on. *)
Definition abandon (f k : nat) (O : Occurrence) (t : Target) (M : Manager) : Manager :=
  let O' := set_targets (<[k := MkTargetLane (tg_state t) Ended]> (oc_targets O)) O in
  match oc_stage O with
  | Step i => release_targets (oc_targets O) (put_occurrence f (set_stage (Abandoned i) O') M)
  | _ => put_occurrence f O' M
  end.

(** One event on one target of an occurrence. *)
Definition target_event (ev : ScheduleEvent) (f k : nat) (O : Occurrence) (t : Target) (M : Manager)
    : option (Manager * list Call) :=
  let s := tg_state t in
  match ev, as_step (oc_stage O), tg_phase t with
  | ECheck _ _, Checks, Idle =>
      if may_begin (oc_targets O) k
      then Some (put_target f k (MkTargetLane s (if decide (ts_activeKey s = None) then Ended else Checking)) O M, [])
      else None
  | EChecked _ _ answer, Checks, Checking =>
      let answer := if decide (t_kind (ts_target s) = TRelay) then Ok (bool_decide (t_id (ts_target s) = relayId)) else answer in
      let s := match answer with
               | Throw message => set_failure message s
               | Ok false => set_missing s
               | Ok true => s
               end in
      Some (put_target f k (MkTargetLane s Ended) O M, [])
  | EBegin _ _ paused now, Step i, Idle =>
      match current_action O with
      | Some action =>
          if is_wait action || (is_abandoned O || negb (may_begin (oc_targets O) k)) then None
          else let '(t', calls) := begin_step O action paused now s in Some (put_target f k t' O M, calls)
      | None => None
      end
  | EWrite _ _ now, Step _, RecordWaiting kind startedAt retries =>
      if existsb (λ t, is_writing (tg_phase t)) (oc_targets O) then None
      else
        let record := progress_run O now in
        if run_ok record
        then Some (put_target f k (MkTargetLane s (RecordWriting kind startedAt retries record)) O M, [])
        else Some (abandon f k O t M, [])
  | EWritten _ _ ok, Step _, RecordWriting kind startedAt retries record =>
      if ok then
        Some (put_target f k (MkTargetLane s (match kind with BeforeCommand => RecordAnswered startedAt true | AfterCommand => Ended end)) O
                (set_store (recordProgress record (m_store M)) M), [])
      else
        Some (put_target f k (MkTargetLane s
          (match retries with
           | S retries => RecordWaiting kind startedAt retries
           | O => match kind with BeforeCommand => RecordAnswered startedAt false | AfterCommand => Ended end
           end)) O M, [])
  | EResume _ _ now, Step _, RecordAnswered startedAt landed =>
      match current_action O with
      | Some action => let '(t', calls) := resume_step O action startedAt landed now s in Some (put_target f k t' O M, calls)
      | None => None
      end
  | EOwned _ _ answer, Step _, ListingOwned startedAt =>
      match current_action O with
      | Some action =>
          let execution := match answer with
                           | Ok owned => backUpApp relayId (oc_definition O) action (ts_target s) (oc_scheduledAt O) owned
                           | Throw message => Throws message
                           end in
          let '(t', calls) := start_execution startedAt execution s in
          Some (put_target f k t' O M, calls)
      | None => None
      end
  | EAnswer _ _ answer, Step _, Executing startedAt =>
      match outcome_of answer with
      | Some outcome => Some (put_target f k (MkTargetLane (set_inFlight None s) (Settled startedAt outcome)) O M, [])
      | None => None
      end
  | ESettle _ _ now, Step _, Settled startedAt outcome =>
      match current_action O with
      | Some action => Some (put_target f k (settle_step O action startedAt outcome now s) O M, [])
      | None => None
      end
  | _, _, _ => None
  end.

Definition on_target (ev : ScheduleEvent) (f k : nat) (M : Manager) : option (Manager * list Call) :=
  O ← m_fibers M !! f;
  t ← oc_targets O !! k;
  target_event ev f k O t M.

Definition can_continue (O : Occurrence) : bool :=
  existsb (λ t, bool_decide (is_Some (ts_activeKey (tg_state t))) &&
                (p_continueOnFailure (oc_definition O) || negb (holds_text (ts_failure (tg_state t)))) &&
                negb (ts_missing (tg_state t))) (oc_targets O).

Definition sequence_of (O : Occurrence) (action : RelayScheduleAction) (error : option JsString) (startedAt now : Z)
    (status : AttemptStatus) : ScheduleActionAttempt :=
  sequenceAttempt action error (oc_scheduledAt O) (p_id (oc_definition O)) startedAt now status.

(** One event of a running occurrence as a whole. *)
Definition occurrence_event (ev : ScheduleEvent) (f : nat) (O : Occurrence) (M : Manager) : option (Manager * list Call) :=
  match ev, oc_stage O with
  | ENextStep _, Checks =>
      if all_ended O then Some (put_occurrence f (set_targets (all_idle (oc_targets O)) (set_stage (Step 0) O)) M, []) else None
  | ENextStep _, Step i =>
      match current_action O with
      | Some action =>
          if is_wait action || negb (all_ended O) then None
          else Some (put_occurrence f (set_targets (all_idle (oc_targets O)) (set_stage (Step (S i)) O)) M, [])
      | None => None
      end
  | EBeginWait _ now, Step i =>
      match current_action O with
      | Some action =>
          if negb (is_wait action) then None
          else if holds_text (oc_sequenceFailure O) || negb (can_continue O) then
            Some (put_occurrence f (set_stage (Step (S i)) (push_sequence
              (sequence_of O action
                 (Some (js (if holds_text (oc_sequenceFailure O) then "A previous sequence action failed" else "No targets can continue")))
                 now now NotRun) (oc_sequenceFailure O) O)) M, [])
          else Some (put_occurrence f (set_stage (Waiting i now) O) M, [])
      | None => None
      end
  | EWaited _ now answer, Waiting i startedAt =>
      match current_action O with
      | Some action =>
          let O' := match answer with
                    | Ok _ => push_sequence (sequence_of O action None startedAt now AttemptSucceeded) (oc_sequenceFailure O) O
                    | Throw message => push_sequence (sequence_of O action (Some message) startedAt now AttemptFailed) (Some message) O
                    end in
          Some (put_occurrence f (set_stage (Step (S i)) O') M, [])
      | None => None
      end
  | EFinish _ now, Step i =>
      match current_action O with
      | Some _ => None
      | None =>
          let record := completed_run O now in
          if run_ok record
          then Some (release_targets (oc_targets O) (put_occurrence f (set_stage (Completing record) O) M), [])
          else Some (fail_occurrence f O M, [])
      end
  | EComplete _ ok, Completing record =>
      match ok, completeRun record (m_store M) with
      | true, Some T => Some (set_fibers (delete f (m_fibers M)) (set_store T M), [])
      | _, _ => Some (M, [])
      end
  | _, _ => None
  end.

Definition on_occurrence (ev : ScheduleEvent) (f : nat) (M : Manager) : option (Manager * list Call) :=
  O ← m_fibers M !! f;
  occurrence_event ev f O M.

Definition apply_event (definition : RelayScheduleProjection) (asked_at : Z) (M : Manager) : Manager :=
  match (if p_enabled definition then Some <$> nextOccurrence (p_cron definition) asked_at else Some None) with
  | Some next => set_nextRunAt None (set_store (apply definition next (m_store M)).1 M)
  | None => M
  end.

Definition runNow_event (scheduleId : JsString) (revision : Z) (intent : ScheduleTargetKind → JsString → JsString) (now : Z)
    (M : Manager) : Manager :=
  if Nat.leb scheduleBatchSize (running (m_fibers M)) then M
  else
    match runNow scheduleId revision now relayId (m_store M) with
    | Some (T, Started o) => launchOccurrence intent now (o_definition o) (o_scheduledAt o) (set_store T M)
    | Some (T, _) => set_store T M
    | None => M
    end.

Definition manager_event (ev : ScheduleEvent) (M : Manager) : option (Manager * list Call) :=
  match ev with
  | EApply definition asked_at => Some (apply_event definition asked_at M, [])
  | ERemove scheduleId revision => Some (set_nextRunAt None (set_store (remove scheduleId revision (m_store M)).1 M), [])
  | ERunNow scheduleId revision intent now => Some (runNow_event scheduleId revision intent now M, [])
  | ETick intent now read_fails answers => M' ← tick intent now read_fails answers M; Some (M', [])
  | ENextStep f | EBeginWait f _ | EWaited f _ _ | EFinish f _ | EComplete f _ => on_occurrence ev f M
  | ECheck f k | EChecked f k _ | EBegin f k _ _ | EWrite f k _ | EWritten f k _ | EResume f k _ | EOwned f k _
  | EAnswer f k _ | ESettle f k _ => on_target ev f k M
  end.

Fixpoint manager_run (evs : list ScheduleEvent) (M : Manager) : option Manager :=
  match evs with
  | [] => Some M
  | ev :: evs => '(M', _) ← manager_event ev M; manager_run evs M'
  end.
End Steps.
End Manager.
