(* ===== verification/ScheduleChecks.v ===== *)
(** * Schedules that pass their checks

    What the checks of a schedule accept, exactly, and what that gives the
    Relay; the shape of the identities derived for what it runs, the bound on
    backups' names, and the timers of a long wait. *)
From S2P Require Import Prelude Bytes Utf8 Nbt Decimals Snbt ScheduleContract Schedules.
Open Scope Z_scope.

(** ** What the checks accept *)

Lemma repeats_NoDup keys : repeats keys = false ↔ NoDup keys.
Proof.
  unfold repeats. rewrite negb_false_iff, Nat.eqb_eq.
  assert (Hsub : js_distinct keys ⊆+ keys).
  { apply NoDup_submseteq; [apply js_distinct_NoDup|]. intros x. by rewrite js_distinct_elem. }
  split.
  - intros Hl. rewrite <-(submseteq_length_Permutation _ _ Hsub) by lia. apply js_distinct_NoDup.
  - intros Hn. apply Nat.le_antisymm; [by apply submseteq_length|]. apply submseteq_length, NoDup_submseteq; [done|].
    intros x. by rewrite js_distinct_elem.
Qed.

Lemma override_issues_nil i targetIds keys : ∀ seen,
  override_issues i targetIds seen keys = [] ↔ NoDup keys ∧ (∀ key, key ∈ keys → key ∉ seen) ∧ (∀ key, key ∈ keys → key ∈ targetIds).
Proof.
  induction keys as [|key keys IH]; intros seen; cbn [override_issues].
  - split; [|done]. intros _. split; [constructor|]. split; intros k Hk; by apply elem_of_nil in Hk.
  - rewrite NoDup_cons. destruct (bool_decide (key ∈ seen)) eqn:Es; [apply bool_decide_eq_true in Es|apply bool_decide_eq_false in Es].
    { split; [done|]. intros (_ & H & _). destruct (H key); [by left|done]. }
    destruct (bool_decide (key ∈ targetIds)) eqn:Et; [apply bool_decide_eq_true in Et|apply bool_decide_eq_false in Et].
    2: { split; [done|]. intros (_ & _ & H). destruct Et. apply H. by left. }
    cbn [app]. rewrite IH. set_solver.
Qed.

Definition command_ok (targets : list ScheduleTarget) (action : RelayScheduleAction) : Prop :=
  match action with
  | ConsoleCommand _ _ _ services _ =>
      (∀ target, target ∈ targets → t_kind target = TApp → scheduleActionAppliesToTarget action target = true →
        is_Some (service_of services target)) ∧
      (∀ key service, (key, service) ∈ default [] services → ∃ target, target ∈ targets ∧ t_kind target = TApp ∧
        scheduleActionAppliesToTarget action target = true ∧ key = scheduleTargetKey target)
  | _ => True
  end.

Definition overrides_ok (targets : list ScheduleTarget) (action : RelayScheduleAction) : Prop :=
  ∀ keys, action_targetKeys action = Some keys → NoDup keys ∧ ∀ key, key ∈ keys → ∃ target, target ∈ targets ∧ key = scheduleTargetKey target.

Lemma command_targets_elem action targets target :
  target ∈ command_targets action targets ↔
    target ∈ targets ∧ t_kind target = TApp ∧ scheduleActionAppliesToTarget action target = true.
Proof. unfold command_targets. rewrite elem_of_bfilter, andb_true_iff, bool_decide_eq_true. done. Qed.

Lemma flat_map_nil {A B} (f : A → list B) l : flat_map f l = [] ↔ ∀ x, x ∈ l → f x = [].
Proof.
  induction l as [|x l IH]; cbn; [split; [intros _ x Hx; by apply elem_of_nil in Hx|done]|].
  split.
  - intros [H1 H2]%app_eq_nil y [->|Hy]%elem_of_cons; [done|]. by apply IH.
  - intros H. rewrite (H x) by by left. apply IH. intros y Hy. apply H. by right.
Qed.

Lemma service_issues_nil i action targets : service_issues i action targets = [] ↔ command_ok targets action.
Proof.
  destruct action as [a command id services keys| | |]; try done. unfold service_issues, command_ok.
  set (action := ConsoleCommand a command id services keys). split.
  - intros [H1 H2]%app_eq_nil. rewrite flat_map_nil in H1. rewrite flat_map_nil in H2. split.
    + intros target Hin Hk Ha. specialize (H1 target ltac:(by apply command_targets_elem)). by destruct (service_of services target).
    + intros key service Hin. specialize (H2 _ Hin). cbn in H2.
      destruct (bool_decide (key ∈ scheduleTargetKey <$> command_targets action targets)) eqn:E; [|done].
      apply bool_decide_eq_true, list_elem_of_fmap in E as (target & -> & Ht). apply command_targets_elem in Ht. naive_solver.
  - intros [H1 H2]. apply app_nil. split; apply flat_map_nil.
    + intros target (Hin & Hk & Ha)%command_targets_elem. by destruct (H1 target Hin Hk Ha) as [service ->].
    + intros [key service] Hin. cbn. destruct (H2 key service Hin) as (target & Ht & Hk & Ha & ->).
      rewrite bool_decide_eq_true_2; [done|]. apply list_elem_of_fmap. exists target. split; [done|]. by apply command_targets_elem.
Qed.

Lemma action_issues_nil targets i action : action_issues targets i action = [] ↔ command_ok targets action ∧ overrides_ok targets action.
Proof.
  unfold action_issues, overrides_ok.
  assert (Hover : (if is_wait action then [] else match action_targetKeys action with
            | Some keys => override_issues i (scheduleTargetKey <$> targets) [] keys | None => [] end) = [] ↔
            ∀ keys, action_targetKeys action = Some keys → NoDup keys ∧ ∀ key, key ∈ keys → ∃ target, target ∈ targets ∧ key = scheduleTargetKey target).
  { destruct (is_wait action) eqn:Ew; [by destruct action|]. destruct (action_targetKeys action) as [keys|]; [|done].
    rewrite override_issues_nil. split.
    - intros (Hn & _ & Hin) ks [= <-]. split; [done|]. intros key Hk. apply Hin, list_elem_of_fmap in Hk as (t & -> & Ht). eauto.
    - intros H. destruct (H keys eq_refl) as [Hn Hin]. split; [done|]. split; [intros key _ Hk; by apply elem_of_nil in Hk|].
      intros key Hk. destruct (Hin key Hk) as (t & Ht & ->). apply list_elem_of_fmap. eauto. }
  rewrite <-(service_issues_nil i), <-Hover. split.
  - by intros [? ?]%app_eq_nil.
  - intros [-> ->]. done.
Qed.

Lemma concat_imap_nil {A B} (f : nat → A → list B) l : concat (imap f l) = [] ↔ ∀ i x, l !! i = Some x → f i x = [].
Proof.
  revert f. induction l as [|x l IH]; intros f; cbn; [done|]. split.
  - intros [H1 H2]%app_eq_nil [|i] y Hy; cbn in Hy; [by simplify_eq|]. by apply (IH (f ∘ S)).
  - intros H. rewrite (H 0%nat x) by done. apply (IH (f ∘ S)). intros i y Hy. by apply (H (S i)).
Qed.

(** C39: The checks accept exactly the schedules whose cron expression is valid, whose steps and targets have identifiers of their own, whose commands name a service for each App they reach and for nothing else, and whose overrides name targets of the schedule, once each. *)
Theorem schedule_checks_exact timezone_exists cron_parses schedule :
  schedule_issues timezone_exists cron_parses schedule = [] ↔
    validateScheduleCron timezone_exists cron_parses (p_cron schedule) (p_timezone schedule) = true ∧
    NoDup (action_id <$> p_actions schedule) ∧ NoDup (scheduleTargetKey <$> p_targets schedule) ∧
    ∀ action, action ∈ p_actions schedule → command_ok (p_targets schedule) action ∧ overrides_ok (p_targets schedule) action.
Proof.
  unfold schedule_issues. rewrite <-!repeats_NoDup.
  destruct (validateScheduleCron _ _ _ _); [|split; [done|by intros [? _]]].
  destruct (repeats (action_id <$> _)); [split; [done|by intros (_ & ? & _)]|].
  destruct (repeats (scheduleTargetKey <$> _)); [split; [done|by intros (_ & _ & ? & _)]|].
  cbn [app]. rewrite concat_imap_nil. split.
  - intros H. do 3 (split; [done|]). intros action [i Hi]%list_elem_of_lookup_1. by apply (action_issues_nil _ i), H.
  - intros (_ & _ & _ & H) i action Hi. apply action_issues_nil, H. by eapply list_elem_of_lookup_2.
Qed.

(** In a schedule that passed, a command's service is there on every App. *)
Lemma command_has_service relayId platformTargetId schedule action target scheduledAt intent message :
  command_ok (p_targets schedule) action → target ∈ p_targets schedule → action_type action = AtCommand →
  scheduleActionAppliesToTarget action target = true →
  executeAction relayId platformTargetId schedule action target scheduledAt intent ≠ Throws message.
Proof.
  intros Hc Hin Ht Ha. unfold executeAction. destruct action as [a command id services keys| | |]; try done.
  destruct (t_kind target) eqn:Ek; try done. destruct Hc as [Hc _]. by destruct (Hc target Hin Ek Ha) as [service ->].
Qed.

(** ** Identities *)

Definition is_lower_hex (u : Z) : bool := between 48 57 u || between 97 102 u.

Lemma hex_char_ok n : 0 <= n < 16 → is_lower_hex (hex_char n) = true.
Proof. intros H. unfold hex_char, is_lower_hex, between. destruct (Z.ltb_spec n 10); apply orb_true_iff; [left|right]; lia. Qed.

Lemma hex8_ok hash : length (hex8 hash) = 8%nat ∧ forallb is_lower_hex (hex8 hash) = true.
Proof.
  split; [done|]. apply forallb_elem. unfold hex8. intros u (k & -> & _)%list_elem_of_fmap. apply hex_char_ok, Z.mod_pos_bound. lia.
Qed.

Lemma scheduleStableId_ok parts : length (scheduleStableId parts) = 32%nat ∧ forallb is_lower_hex (scheduleStableId parts) = true.
Proof.
  unfold scheduleStableId. set (value := join_parts _). cbn [flat_map stable_seeds]. rewrite app_nil_r.
  split; [done|]. rewrite !forallb_app. by rewrite !(proj2 (hex8_ok _)).
Qed.

(** The layout of RFC 9562: groups of 8, 4, 4, 4 and 12 digits, version 5
    and variant 8 to b. *)
Definition uuid_ok (us : JsString) : Prop :=
  ∃ a b c d e, us = a ++ [45] ++ b ++ [45] ++ (53 :: c) ++ [45] ++ d ++ [45] ++ e ∧
    length a = 8%nat ∧ length b = 4%nat ∧ length c = 3%nat ∧ length d = 4%nat ∧ length e = 12%nat ∧
    forallb is_lower_hex (a ++ b ++ c ++ d ++ e) = true ∧ (∃ v, head d = Some v ∧ v ∈ js "89ab").

Lemma variant_ok n : 0 <= n < 16 → hex_char (Z.lor (Z.land n 3) 8) ∈ js "89ab".
Proof.
  intros H. assert (Hin : n ∈ [0;1;2;3;4;5;6;7;8;9;10;11;12;13;14;15]).
  { assert (n = 0 ∨ n = 1 ∨ n = 2 ∨ n = 3 ∨ n = 4 ∨ n = 5 ∨ n = 6 ∨ n = 7 ∨ n = 8 ∨ n = 9 ∨ n = 10 ∨ n = 11 ∨ n = 12 ∨ n = 13 ∨
      n = 14 ∨ n = 15) as Hn by lia. repeat (destruct Hn as [->|Hn]; [set_solver|]). subst. set_solver. }
  revert n Hin H. assert (Hall : Forall (λ n, bool_decide (hex_char (Z.lor (Z.land n 3) 8) ∈ js "89ab") = true)
    [0;1;2;3;4;5;6;7;8;9;10;11;12;13;14;15]) by (vm_compute; repeat constructor).
  rewrite Forall_forall in Hall. intros n Hin _. by apply bool_decide_eq_true_1 with (1 := Hall n Hin).
Qed.

Lemma hex_digit_range u : is_lower_hex u = true → 0 <= hex_digit u < 16.
Proof. unfold is_lower_hex, hex_digit, is_digit, between. intros H. destruct ((48 <=? u) && (u <=? 57)) eqn:E; [lia|]. cbn in H. rewrite H. lia. Qed.

Lemma js_variants_hex v : v ∈ js "89ab" → is_lower_hex v = true.
Proof. intros H. assert (Hall : forallb is_lower_hex (js "89ab") = true) by reflexivity. rewrite forallb_elem in Hall. auto. Qed.

(** What the tasks and artifacts of scheduled backups are called is a UUID. *)
Theorem deterministic_uuid parts : uuid_ok (scheduleDeterministicUuid parts).
Proof.
  destruct (scheduleStableId_ok parts) as [Hl Hh]. unfold scheduleDeterministicUuid.
  destruct (scheduleStableId parts) as [|u0 h]; [done|].
  do 31 (destruct h as [|? h]; [done|]). destruct h; [|done]. cbn in Hh. rewrite !andb_true_iff in Hh.
  destruct_and! Hh. cbn [list_insert insert char_at lookup list_lookup from_option id slice take drop Nat.sub app].
  set (v := hex_char _).
  assert (Hv : v ∈ js "89ab") by by apply variant_ok, hex_digit_range.
  eexists [_;_;_;_;_;_;_;_], [_;_;_;_], [_;_;_], [_;_;_;_], [_;_;_;_;_;_;_;_;_;_;_;_]. split; [reflexivity|].
  do 5 (split; [done|]). split; [|eexists; split; [reflexivity|done]].
  cbn. rewrite !andb_true_iff. apply js_variants_hex in Hv. repeat split; done.
Qed.

(** ** Names and waits *)

Lemma backup_name_bound template context name :
  resolveScheduleBackupName template context = Some name → (length name ≤ 120)%nat.
Proof.
  unfold resolveScheduleBackupName. destruct (toISOString _); [|done]. cbn [mbind option_bind]. intros [= <-]. rewrite length_take. lia.
Qed.

Fixpoint total (ms : list Z) : Z := match ms with [] => 0 | m :: ms => m + total ms end.

Lemma wait_chunks_ok fuel : ∀ ms, 0 <= ms → (Z.of_nat fuel * maximumTimerDurationMs >= ms)%Z →
  total (wait_chunks fuel ms) = ms ∧ Forall (λ m, 0 < m <= maximumTimerDurationMs) (wait_chunks fuel ms).
Proof.
  induction fuel as [|fuel IH]; intros ms H0 Hf; cbn [wait_chunks]; [split; [cbn; lia|done]|].
  destruct (Z.ltb_spec 0 ms); [|split; [cbn; lia|done]]. unfold maximumTimerDurationMs in *.
  destruct (IH (ms - Z.min ms 2147483647)) as [Ht Hall]; [lia|lia|]. cbn [total]. rewrite Ht. split; [lia|]. constructor; [lia|done].
Qed.

(** A wait's timers take its time together, none longer than a timer may be. *)
Theorem wait_takes_its_time duration unit_ :
  0 <= duration →
  let timers := waitForDuration (waitDurationMs duration unit_) in
  total timers = waitDurationMs duration unit_ ∧ Forall (λ m, 0 < m <= maximumTimerDurationMs) timers.
Proof.
  intros H. assert (Hms : 0 <= waitDurationMs duration unit_) by (unfold waitDurationMs; destruct unit_; lia).
  apply wait_chunks_ok; [done|]. unfold maximumTimerDurationMs.
  pose proof (Z.div_mod (waitDurationMs duration unit_) 2147483647). pose proof (Z.mod_pos_bound (waitDurationMs duration unit_) 2147483647).
  pose proof (Z.div_pos (waitDurationMs duration unit_) 2147483647). lia.
Qed.
