(* ===== verification/ScheduleInv.v ===== *)
(** * What always holds of an occurrence

    The invariant of a running occurrence, target by target, and that every
    event keeps it: what a target is doing fits the step the occurrence is
    at, each step has left one attempt on each target, and what is going on
    passed the checks when it began. *)
From S2P Require Import Prelude Lanes.
From S2P Require Import Bytes Utf8 Nbt Decimals Snbt ScheduleContract ScheduleState Schedules ScheduleManager.
Open Scope Z_scope.

(** ** The steps there have been *)

Definition target_steps (actions : list RelayScheduleAction) : list JsString :=
  action_id <$> List.filter (λ a, negb (is_wait a)) actions.
Definition sequence_steps (actions : list RelayScheduleAction) : list JsString := action_id <$> List.filter is_wait actions.

(** A target that another occurrence holds leaves no attempts. *)
Definition attempted (n : nat) (O : Occurrence) (s : TargetExecutionState) : Prop :=
  a_actionId <$> ts_attempts s =
    if decide (ts_activeKey s = None) then [] else target_steps (take n (p_actions (oc_definition O))).

Definition failing (status : AttemptStatus) : bool :=
  bool_decide (status = AttemptFailed) || bool_decide (status = AttemptUnknown).

(** After an attempt that failed come only steps that were not run. *)
Definition stops_after (attempts : list ScheduleActionAttempt) : Prop :=
  ∀ i j a b, attempts !! i = Some a → attempts !! j = Some b → (i < j)%nat → failing (a_status a) = true → a_status b = NotRun.

Definition failures_kept (O : Occurrence) (s : TargetExecutionState) : Prop :=
  (∀ a, a ∈ ts_attempts s → failing (a_status a) = true → holds_text (ts_failure s) = true) ∧
  (p_continueOnFailure (oc_definition O) = false → stops_after (ts_attempts s)).

(** ** A target within its step *)

Definition allowed (O : Occurrence) (action : RelayScheduleAction) (s : TargetExecutionState) : Prop :=
  step_refusal O action false s = None ∧ ts_activeKey s ≠ None.

Definition in_flight (action : RelayScheduleAction) (s : TargetExecutionState) : Prop :=
  ∃ a, ts_inFlight s = Some a ∧ a_actionId a = action_id action ∧ a_status a = AttemptUnknown.

Definition phase_ok (O : Occurrence) (i : nat) (action : RelayScheduleAction) (t : Target) : Prop :=
  let s := tg_state t in
  match tg_phase t with
  | Idle => attempted i O s ∧ ts_inFlight s = None
  | Checking => False
  | Ended | RecordWaiting AfterCommand _ _ | RecordWriting AfterCommand _ _ _ =>
      attempted (S i) O s ∧ ts_inFlight s = None
  | RecordWaiting BeforeCommand _ _ | RecordWriting BeforeCommand _ _ _ | RecordAnswered _ _ =>
      attempted i O s ∧ allowed O action s ∧ in_container action (ts_target s) = true ∧ in_flight action s
  | ListingOwned _ =>
      attempted i O s ∧ allowed O action s ∧ in_container action (ts_target s) = false ∧ t_kind (ts_target s) = TApp ∧ ts_inFlight s = None
  | Executing _ =>
      attempted i O s ∧ allowed O action s ∧
      if in_container action (ts_target s) then in_flight action s else ts_inFlight s = None
  | Settled _ _ => attempted i O s ∧ allowed O action s ∧ ts_inFlight s = None
  end.

Definition at_rest (n : nat) (O : Occurrence) (t : Target) : Prop :=
  tg_phase t = Idle ∧ attempted n O (tg_state t) ∧ ts_inFlight (tg_state t) = None.

Definition stage_phase (O : Occurrence) (t : Target) : Prop :=
  match oc_stage O with
  | Checks =>
      (tg_phase t = Idle ∨ tg_phase t = Checking ∨ tg_phase t = Ended) ∧ attempted 0 O (tg_state t) ∧
      ts_inFlight (tg_state t) = None
  | Step i =>
      match p_actions (oc_definition O) !! i with
      | Some action => if is_wait action then at_rest i O t else phase_ok O i action t
      | None => at_rest i O t
      end
  | Waiting i _ => at_rest i O t
  | Completing _ => at_rest (length (p_actions (oc_definition O))) O t
  | Abandoned i =>
      match p_actions (oc_definition O) !! i with
      | Some action => is_wait action = false ∧ (tg_phase t = Ended ∨ phase_ok O i action t)
      | None => False
      end
  end.

Definition target_ok (O : Occurrence) (t : Target) : Prop :=
  let s := tg_state t in
  (ts_activeKey s = None ∨ ts_activeKey s = Some (active_key (ts_target s))) ∧
  (ts_activeKey s = None → tg_phase t = Idle ∨ tg_phase t = Ended) ∧
  failures_kept O s ∧ stage_phase O t.

Definition stage_ok (O : Occurrence) : Prop :=
  let steps n := a_actionId <$> oc_sequenceAttempts O = sequence_steps (take n (p_actions (oc_definition O))) in
  match oc_stage O with
  | Checks => steps 0%nat
  | Step i | Abandoned i => (i ≤ length (p_actions (oc_definition O)))%nat ∧ steps i
  | Waiting i _ => steps i ∧ ∃ action, p_actions (oc_definition O) !! i = Some action ∧ is_wait action = true
  | Completing record =>
      steps (length (p_actions (oc_definition O))) ∧ run_sequenceAttempts record = oc_sequenceAttempts O ∧
      ∃ now, run_targetRuns record =
        (λ t, targetRun (p_id (oc_definition O)) (oc_scheduledAt O) now (tg_state t)) <$> oc_targets O
  end.

Definition occ_ok (O : Occurrence) : Prop := stage_ok O ∧ Forall (target_ok O) (oc_targets O).

(** ** Texts that are there *)

Lemma holds_text_truthy text : holds_text text = false ↔ truthy_text text = None.
Proof. unfold holds_text. destruct (truthy_text text); split; intros H; try done; by apply bool_decide_eq_false in H; eauto. Qed.

Lemma holds_text_Some u us : holds_text (Some (u :: us)) = true.
Proof. unfold holds_text. by rewrite bool_decide_eq_true_2 by (cbn; eauto). Qed.

Lemma truthy_text_eq text us : truthy_text text = Some us → text = Some us ∧ holds_text (Some us) = true.
Proof. destruct text as [[|u vs]|]; cbn; intros [= <-]. split; [done|apply holds_text_Some]. Qed.

(** ** Steps taken *)

Lemma target_steps_next actions i action :
  actions !! i = Some action →
  target_steps (take (S i) actions) = target_steps (take i actions) ++ (if is_wait action then [] else [action_id action]).
Proof.
  intros H. rewrite (take_S_r _ _ _ H). unfold target_steps. rewrite List.filter_app, fmap_app. cbn [List.filter].
  destruct (is_wait action); done.
Qed.

Lemma sequence_steps_next actions i action :
  actions !! i = Some action →
  sequence_steps (take (S i) actions) = sequence_steps (take i actions) ++ (if is_wait action then [action_id action] else []).
Proof.
  intros H. rewrite (take_S_r _ _ _ H). unfold sequence_steps. rewrite List.filter_app, fmap_app. cbn [List.filter].
  destruct (is_wait action); done.
Qed.

Lemma attempted_wait O i action s :
  p_actions (oc_definition O) !! i = Some action → is_wait action = true → attempted i O s → attempted (S i) O s.
Proof.
  intros H Hw. unfold attempted. rewrite (target_steps_next _ _ _ H), Hw, app_nil_r. done.
Qed.

Lemma attempted_end O i s :
  p_actions (oc_definition O) !! i = None → attempted i O s → attempted (length (p_actions (oc_definition O))) O s.
Proof.
  intros H. apply lookup_ge_None_1 in H. unfold attempted. by rewrite firstn_all, (take_ge _ i) by done.
Qed.

Lemma attempted_push O i action s a :
  p_actions (oc_definition O) !! i = Some action → is_wait action = false → ts_activeKey s ≠ None →
  attempted i O s → a_actionId a = action_id action → attempted (S i) O (push_attempt a s).
Proof.
  intros H Hw Hk Ha Hid. unfold attempted in *. cbn [push_attempt ts_attempts ts_activeKey].
  rewrite decide_False in * by done.
  by rewrite (target_steps_next _ _ _ H), Hw, fmap_app, Ha, <-Hid.
Qed.

(** ** Failures stay *)

Lemma stops_after_push attempts a :
  stops_after attempts → ((∃ b, b ∈ attempts ∧ failing (a_status b) = true) → a_status a = NotRun) →
  stops_after (attempts ++ [a]).
Proof.
  intros H Ha i j b c Hi Hj Hlt Hf. destruct (decide (j < length attempts)%nat) as [Hl|Hl].
  - rewrite lookup_app_l in Hj by done. rewrite lookup_app_l in Hi by lia. eauto.
  - rewrite lookup_app_r in Hj by lia. apply list_lookup_singleton_Some in Hj as [Hj <-].
    rewrite lookup_app_l in Hi by lia. apply Ha. exists b. split; [by eapply list_elem_of_lookup_2|done].
Qed.

(** A failure that is noted stays noted. *)
Lemma note_failure_holds failure s :
  holds_text (ts_failure s) = true ∨ holds_text (Some failure) = true → holds_text (ts_failure (note_failure failure s)) = true.
Proof. unfold note_failure. destruct (holds_text (ts_failure s)) eqn:E; [done|]. intros [?|H]; [done|]. exact H. Qed.

Lemma note_failure_same failure s :
  ts_activeKey (note_failure failure s) = ts_activeKey s ∧ ts_attempts (note_failure failure s) = ts_attempts s ∧
  ts_target (note_failure failure s) = ts_target s ∧ ts_inFlight (note_failure failure s) = ts_inFlight s.
Proof. unfold note_failure. by destruct (holds_text (ts_failure s)). Qed.

Lemma failures_kept_push O s s' a :
  failures_kept O s → ts_attempts s' = ts_attempts s → (holds_text (ts_failure s) = true → holds_text (ts_failure s') = true) →
  (failing (a_status a) = true → holds_text (ts_failure s') = true) →
  (p_continueOnFailure (oc_definition O) = false → holds_text (ts_failure s) = true → a_status a = NotRun) →
  failures_kept O (push_attempt a s').
Proof.
  intros [Hk Hs] He Hf Ha Hn. split.
  - cbn. rewrite He. intros b Hb%elem_of_app Hfb. destruct Hb as [Hb|Hb]; [by apply Hf, (Hk b)|].
    apply list_elem_of_singleton in Hb as ->. auto.
  - cbn. rewrite He. intros Hc. apply stops_after_push; [auto|]. intros (b & Hb & Hfb). apply Hn; [done|]. eauto.
Qed.

(** ** Steps of one target *)

Lemma allowed_goes_on O action s :
  allowed O action s → holds_text (oc_sequenceFailure O) = false ∧
    (p_continueOnFailure (oc_definition O) = false → holds_text (ts_failure s) = false) ∧ ts_missing s = false ∧
    scheduleActionAppliesToTarget action (ts_target s) = true ∧ refused_step action (ts_target s) = None.
Proof.
  intros [H _]. unfold step_refusal in H. destruct (holds_text (oc_sequenceFailure O)); [done|].
  destruct (holds_text (ts_failure s) && negb (p_continueOnFailure (oc_definition O))) eqn:E; [done|].
  destruct (ts_missing s); [done|]. destruct (scheduleActionSupportsTarget action (ts_target s)); [|done].
  destruct (scheduleActionAppliesToTarget action (ts_target s)); [|done]. cbn in H.
  destruct (refused_step action (ts_target s)); [done|]. repeat split; try done.
  intros Hc. rewrite Hc, andb_true_r in E. done.
Qed.


(** What counts as a failure has a text that says so. *)
Lemma outcome_status_failing outcome : failing (outcome_status outcome) = true → holds_text (outcome_failure outcome) = true.
Proof.
  destruct (holds_text (outcome_failure outcome)) eqn:E; [done|]. unfold outcome_status. rewrite E.
  destruct outcome as [m|r m|[result|]]; try done. destruct (holds_text (cc_unknown result)) eqn:Eu; [|done].
  unfold outcome_failure in E. destruct (truthy_text (cc_unknown result)) as [unknown|] eqn:Et.
  - apply truthy_text_eq in Et as [_ Et]. congruence.
  - apply holds_text_truthy in Et. congruence.
Qed.

(** What stays of a target whatever its steps do. *)
Definition same_target (s s' : TargetExecutionState) : Prop :=
  ts_activeKey s' = ts_activeKey s ∧ ts_target s' = ts_target s.

Lemma as_step_cases stage i : as_step stage = Step i → stage = Step i ∨ stage = Abandoned i.
Proof. destruct stage; cbn; intros [= <-]; auto. Qed.

Lemma stage_phase_at O i action t :
  as_step (oc_stage O) = Step i → p_actions (oc_definition O) !! i = Some action → is_wait action = false →
  phase_ok O i action t → stage_phase O t.
Proof. intros Hs Ha Hw Hp. unfold stage_phase. destruct (as_step_cases _ _ Hs) as [-> | ->]; rewrite Ha; [by rewrite Hw|auto]. Qed.

Lemma target_ok_step O i action t t' :
  as_step (oc_stage O) = Step i → p_actions (oc_definition O) !! i = Some action → is_wait action = false →
  target_ok O t → same_target (tg_state t) (tg_state t') → ts_activeKey (tg_state t) ≠ None →
  failures_kept O (tg_state t') → phase_ok O i action t' → target_ok O t'.
Proof.
  intros Hs Ha Hw (Hk & _ & _ & _) [Ek Et] Hn Hf Hp. unfold target_ok. rewrite Ek, Et.
  split; [done|]. split; [done|]. split; [done|]. by apply (stage_phase_at O i action).
Qed.

Lemma target_ok_phase O i action t :
  oc_stage O = Step i → p_actions (oc_definition O) !! i = Some action → is_wait action = false →
  target_ok O t → phase_ok O i action t.
Proof. intros Hs Ha Hw (_ & _ & _ & H). unfold stage_phase in H. by rewrite Hs, Ha, Hw in H. Qed.

(** Of an abandoned occurrence too, while the target's step is not over. *)
Lemma target_ok_busy O i action t :
  as_step (oc_stage O) = Step i → p_actions (oc_definition O) !! i = Some action → is_wait action = false →
  target_ok O t → tg_phase t ≠ Ended → phase_ok O i action t.
Proof.
  intros Hs Ha Hw (_ & _ & _ & H) He. unfold stage_phase in H.
  destruct (as_step_cases _ _ Hs) as [E|E]; rewrite E, Ha in H; [by rewrite Hw in H|]. by destruct H as [_ [?|?]].
Qed.

Section OneTarget.
Context (relayId platformTargetId : JsString) (O : Occurrence) (i : nat) (action : RelayScheduleAction).
Context (Hstage : as_step (oc_stage O) = Step i) (Haction : p_actions (oc_definition O) !! i = Some action) (Hw : is_wait action = false).

Lemma attempt_of_id s error startedAt now status : a_actionId (attempt_of O action s error startedAt now status) = action_id action.
Proof. done. Qed.

Lemma start_execution_ok startedAt execution t s' :
  target_ok O t → same_target (tg_state t) s' → failures_kept O s' → attempted i O s' → allowed O action s' →
  (if in_container action (ts_target s') then in_flight action s' else ts_inFlight s' = None) →
  (∀ appId, execution = AsksOwned appId → in_container action (ts_target s') = false ∧ t_kind (ts_target s') = TApp) →
  target_ok O (start_execution startedAt execution s').1.
Proof.
  intros Ht Hsame Hf Ha Hal Hin Ho.
  assert (Hkey : ts_activeKey (tg_state t) ≠ None) by (destruct Hsame as [<- _]; apply Hal).
  eapply target_ok_step; try done; destruct execution; try done; unfold phase_ok; cbn; auto.
  split; [done|]. split; [done|]. destruct (Ho appId eq_refl) as [Hc Hk]. by rewrite Hc in *.
Qed.

Lemma execute_owned s appId :
  executeAction relayId platformTargetId (oc_definition O) action (ts_target s) (oc_scheduledAt O) (ts_powerIntent s) = AsksOwned appId →
  in_container action (ts_target s) = false ∧ t_kind (ts_target s) = TApp.
Proof.
  unfold executeAction, in_container. destruct action; cbn [action_type]; try done.
  - destruct (t_kind (ts_target s)); try done. by destruct (service_of _ _).
  - case_decide; [done|]. unfold one_backup. by repeat case_match.
  - by case_decide.
Qed.

Lemma execute_ok startedAt t s' :
  target_ok O t → same_target (tg_state t) s' → failures_kept O s' → attempted i O s' → allowed O action s' →
  (if in_container action (ts_target s') then in_flight action s' else ts_inFlight s' = None) →
  target_ok O (execute relayId platformTargetId O action startedAt s').1.
Proof.
  intros Ht Hsame Hf Ha Hal Hin. apply (start_execution_ok _ _ t); try done. intros appId. apply execute_owned.
Qed.

Lemma step_refusal_unpaused paused s : step_refusal O action paused s = None → step_refusal O action false s = None.
Proof.
  unfold step_refusal. destruct (holds_text _); [done|]. destruct (_ && _); [done|]. destruct (ts_missing s); [done|].
  by destruct paused.
Qed.

Lemma begin_step_ok paused now t :
  target_ok O t → tg_phase t = Idle → target_ok O (begin_step relayId platformTargetId O action paused now (tg_state t)).1.
Proof.
  intros Ht Hi. pose proof (target_ok_busy _ _ _ _ Hstage Haction Hw Ht ltac:(congruence)) as Hp.
  unfold phase_ok in Hp. rewrite Hi in Hp. destruct Hp as [Ha Hn]. destruct (Ht) as (Hk & _ & Hf & Hst).
  unfold begin_step. destruct (decide (ts_activeKey (tg_state t) = None)) as [Hkey|Hkey].
  { unfold target_ok. cbn. split; [done|]. split; [auto|]. split; [done|].
    apply (stage_phase_at O i action); [done..|]. unfold phase_ok. cbn. split; [|done]. unfold attempted in *. by rewrite decide_True in * by done. }
  destruct (step_refusal O action paused (tg_state t)) as [[error status]|] eqn:E.
  - eapply target_ok_step; try done; cbn.
    + apply (failures_kept_push O (tg_state t)); try done; cbn.
      * intros Hfail. unfold step_refusal in E. repeat (case_match; simplify_eq; try done).
      * intros Hc Hh. unfold step_refusal in E. rewrite Hc, Hh in E. cbn in E. by destruct (holds_text _); simplify_eq.
    + split; [|done]. by apply (attempted_push O i action).
  - apply step_refusal_unpaused in E. destruct (in_container action (ts_target (tg_state t))) eqn:Ec.
    + eapply target_ok_step; try done; cbn.
      split; [done|]. split; [done|]. split; [done|]. eexists; repeat split.
    + apply (execute_ok now t); try done. by rewrite Ec.
Qed.

Lemma resume_step_ok startedAt landed now t :
  target_ok O t → tg_phase t = RecordAnswered startedAt landed →
  target_ok O (resume_step relayId platformTargetId O action startedAt landed now (tg_state t)).1.
Proof.
  intros Ht Hi. pose proof (target_ok_busy _ _ _ _ Hstage Haction Hw Ht ltac:(congruence)) as Hp.
  unfold phase_ok in Hp. rewrite Hi in Hp. destruct Hp as (Ha & Hal & Hc & Hin). destruct (Ht) as (Hk & _ & Hf & Hst).
  unfold resume_step. destruct landed.
  { apply (execute_ok startedAt t); try done. by rewrite Hc. }
  destruct (note_failure_same not_recorded (set_inFlight None (tg_state t))) as (Ek & Ea & Et & Ei).
  eapply target_ok_step; try done; cbn [tg_state tg_phase fst]; [apply Hal| |].
  - apply (failures_kept_push O (tg_state t)); try done.
    + intros Hh. apply note_failure_holds. by left.
    + intros _. apply note_failure_holds. by right.
    + intros Hcont Hh. destruct (allowed_goes_on _ _ _ Hal) as (_ & H & _). by rewrite H in Hh.
  - split; [|exact Ei]. apply (attempted_push O i action _ _ Haction Hw); [by rewrite Ek; apply Hal| |done].
    unfold attempted. by rewrite Ek, Ea.
Qed.

Lemma settle_step_ok startedAt outcome now t :
  target_ok O t → tg_phase t = Settled startedAt outcome → target_ok O (settle_step O action startedAt outcome now (tg_state t)).
Proof.
  intros Ht Hi. pose proof (target_ok_busy _ _ _ _ Hstage Haction Hw Ht ltac:(congruence)) as Hp.
  unfold phase_ok in Hp. rewrite Hi in Hp. destruct Hp as (Ha & Hal & Hin). destruct (Ht) as (Hk & _ & Hf & Hst).
  destruct (allowed_goes_on _ _ _ Hal) as (_ & Hgo & _).
  assert (Hafter : ∀ a s', same_target (tg_state t) s' → ts_attempts s' = ts_attempts (tg_state t) → ts_inFlight s' = None →
            (holds_text (ts_failure (tg_state t)) = true → holds_text (ts_failure s') = true) →
            (failing (a_status a) = true → holds_text (ts_failure s') = true) → a_actionId a = action_id action →
            target_ok O (after_step action startedAt (push_attempt a s'))).
  { intros a s' [Ek Et] Eat Ein Hh Hfail Hid. eapply target_ok_step; try done; cbn; [apply Hal| |].
    - apply (failures_kept_push O (tg_state t)); try done.
      intros Hcont Hh'. by rewrite Hgo in Hh'.
    - assert (attempted (S i) O (push_attempt a s')).
      { apply (attempted_push O i action); try done; [by rewrite Ek; apply Hal|]. unfold attempted. by rewrite Ek, Eat. }
      unfold phase_ok, after_step. cbn. by destruct (in_container action (ts_target s')). }
  unfold settle_step. destruct (gave_way outcome (ts_target (tg_state t))) as [error|]; [by apply Hafter|].
  destruct (truthy_text (outcome_failure outcome)) as [failure|] eqn:E.
  - apply truthy_text_eq in E as [Ef Eh]. destruct (note_failure_same failure (tg_state t)) as (Ek & Ea' & Et & Ei).
    apply Hafter; try done; [by rewrite Ei|..]; intros _; apply note_failure_holds; auto.
  - apply Hafter; try done. cbn. intros H%outcome_status_failing. apply holds_text_truthy in E. congruence.
Qed.
End OneTarget.

(** ** Events of an occurrence *)

Lemma set_store_same M : set_store (m_store M) M = M.
Proof. by destruct M. Qed.

Section Events.
Context (relayId platformTargetId : JsString).

Notation target_event := (target_event relayId platformTargetId).
Notation occurrence_event := (occurrence_event relayId).

Definition stored_by (t : Target) (M : Manager) (T : ScheduleStore) : Prop :=
  T = m_store M ∨ ∃ kind startedAt retries record,
    tg_phase t = RecordWriting kind startedAt retries record ∧ T = recordProgress record (m_store M).

(** What an event on one target does to the manager. *)
Definition moves_target (f k : nat) (O : Occurrence) (t : Target) (M M' : Manager) : Prop :=
  (∃ i action, oc_stage O = Step i ∧ p_actions (oc_definition O) !! i = Some action ∧ is_wait action = false ∧ M' = abandon f k O t M) ∨
  ∃ t' T, M' = put_target f k t' O (set_store T M) ∧ target_ok O t' ∧ same_target (tg_state t) (tg_state t') ∧ stored_by t M T.

Lemma moves_put f k O t t' M :
  target_ok O t' → same_target (tg_state t) (tg_state t') → moves_target f k O t M (put_target f k t' O M).
Proof. intros Ht Hs. right. exists t', (m_store M). rewrite set_store_same. split; [done|]. split; [done|]. split; [done|]. by left. Qed.

Lemma start_execution_same startedAt execution s : same_target s (tg_state (start_execution startedAt execution s).1).
Proof. by destruct execution. Qed.

Lemma begin_step_same O action paused now s :
  same_target s (tg_state (begin_step relayId platformTargetId O action paused now s).1).
Proof.
  unfold begin_step. case_decide; [done|]. destruct (step_refusal _ _ _ _) as [[]|]; [done|].
  destruct (in_container _ _); [done|]. apply start_execution_same.
Qed.

Lemma resume_step_same O action startedAt landed now s :
  same_target s (tg_state (resume_step relayId platformTargetId O action startedAt landed now s).1).
Proof.
  unfold resume_step. destruct landed; [apply start_execution_same|].
  destruct (note_failure_same not_recorded (set_inFlight None s)) as (E & _ & Et & _). by split; cbn.
Qed.

Lemma settle_step_same O action startedAt outcome now s : same_target s (tg_state (settle_step O action startedAt outcome now s)).
Proof.
  unfold settle_step. destruct (gave_way _ _); [done|]. destruct (truthy_text _) as [failure|]; [|done].
  destruct (note_failure_same failure s) as (E & _ & Et & _). by split; cbn.
Qed.

Lemma current_at_step O i action : as_step (oc_stage O) = Step i → current_action O = Some action → p_actions (oc_definition O) !! i = Some action.
Proof. intros Hs. unfold current_action. by destruct (as_step_cases _ _ Hs) as [-> | ->]. Qed.

Lemma attempted_none O s : attempted 0 O s → ts_attempts s = [].
Proof. unfold attempted. cbn. intros H. apply (f_equal length) in H. rewrite length_fmap in H. destruct (ts_attempts s); [done|]. by case_decide. Qed.

Lemma failures_kept_none O s : ts_attempts s = [] → failures_kept O s.
Proof. intros H. unfold failures_kept. rewrite H. split; [by intros a Ha%elem_of_nil|]. by intros _ i j a b Hi. Qed.

(** Someone is at work only where the step is no wait. *)
Lemma busy_step O i t :
  as_step (oc_stage O) = Step i → target_ok O t → tg_phase t ≠ Idle → tg_phase t ≠ Ended →
  ∃ action, p_actions (oc_definition O) !! i = Some action ∧ is_wait action = false ∧ phase_ok O i action t.
Proof.
  intros Hs (_ & _ & _ & H) Hi He. unfold stage_phase in H. destruct (as_step_cases _ _ Hs) as [E|E]; rewrite E in H.
  2:{ destruct (p_actions (oc_definition O) !! i) as [action|]; [|done]. destruct H as [Hw [?|?]]; [done|]. eauto. }
  destruct (p_actions (oc_definition O) !! i) as [action|]; [|by destruct H].
  destruct (is_wait action) eqn:Ew; [by destruct H|]. eauto.
Qed.

Lemma written_ok O i action kind startedAt retries record t (phase : TargetPhase) :
  as_step (oc_stage O) = Step i → p_actions (oc_definition O) !! i = Some action → is_wait action = false → target_ok O t →
  tg_phase t = RecordWriting kind startedAt retries record ∨ tg_phase t = RecordWaiting kind startedAt retries →
  match kind with
  | BeforeCommand => (∃ landed, phase = RecordAnswered startedAt landed) ∨ (∃ r, phase = RecordWaiting BeforeCommand startedAt r) ∨
                     (∃ r x, phase = RecordWriting BeforeCommand startedAt r x)
  | AfterCommand => phase = Ended ∨ (∃ r, phase = RecordWaiting AfterCommand startedAt r) ∨
                    (∃ r x, phase = RecordWriting AfterCommand startedAt r x)
  end →
  target_ok O (MkTargetLane (tg_state t) phase).
Proof.
  intros Hs Ha Hw Ht Hphase Hk. pose proof (target_ok_busy _ _ _ _ Hs Ha Hw Ht ltac:(destruct Hphase; congruence)) as Hp.
  assert (ts_activeKey (tg_state t) ≠ None).
  { intros Hn. destruct (Ht) as (_ & Hb & _). destruct (Hb Hn), Hphase; congruence. }
  eapply target_ok_step; try done; [by destruct Ht as (_ & _ & ? & _)|].
  unfold phase_ok in *. cbn. destruct kind; destruct Hphase as [E|E]; rewrite E in Hp;
    (destruct Hk as [[? ->]|[[? ->]|(? & ? & ->)]] || destruct Hk as [->|[[? ->]|(? & ? & ->)]]); done.
Qed.

(** A record that is refused, whether or not one was before. *)
Lemma moves_abandon f k O t i action kind startedAt retries M :
  as_step (oc_stage O) = Step i → p_actions (oc_definition O) !! i = Some action → is_wait action = false → target_ok O t →
  tg_phase t = RecordWaiting kind startedAt retries → moves_target f k O t M (abandon f k O t M).
Proof.
  intros Hs Ha Hw Ht Hph. destruct (as_step_cases _ _ Hs) as [E|E]; [left; by exists i, action|].
  unfold abandon. rewrite E. apply moves_put; [|done]. destruct (Ht) as (Hk & _ & Hf & _).
  unfold target_ok. cbn. split; [done|]. split; [auto|]. split; [done|]. unfold stage_phase. rewrite E, Ha. auto.
Qed.

Lemma target_event_moves ev f k O t M M' calls :
  oc_targets O !! k = Some t → target_ok O t → target_event ev f k O t M = Some (M', calls) → moves_target f k O t M M'.
Proof.
  intros Hk Ht H. destruct ev; unfold ScheduleManager.target_event in H; destruct (as_step (oc_stage O)) as [|i| | |] eqn:Hs;
    try done; destruct (tg_phase t) eqn:Hph; try done.
  - assert (oc_stage O = Checks) as Hc by (by destruct (oc_stage O)). destruct (may_begin _ _); simplify_eq. apply moves_put; [|done].
    destruct Ht as (Hkey & Hn & Hf & Hst). unfold target_ok, stage_phase in *. rewrite Hc in *. cbn.
    destruct Hst as (_ & Ha & Hin). case_decide; naive_solver.
  - assert (oc_stage O = Checks) as Hc by (by destruct (oc_stage O)). simplify_eq. destruct Ht as (Hkey & Hn & Hf & Hst).
    unfold stage_phase in Hst. rewrite Hc in Hst. destruct Hst as (_ & Ha & Hin). pose proof (attempted_none _ _ Ha) as Hz.
    assert (ts_activeKey (tg_state t) ≠ None) by (intros E; destruct (Hn E); congruence).
    apply moves_put; [|by destruct (if decide _ then _ else _) as [[]|]].
    unfold target_ok, stage_phase. rewrite Hc. cbn.
    destruct (if decide _ then _ else _) as [[]|message]; cbn; (split; [done|]; split; [done|]; split; [|by auto]);
      by apply failures_kept_none.
  - destruct (current_action O) as [action|] eqn:Hc; [|done]. pose proof (current_at_step _ _ _ Hs Hc) as Ha.
    destruct (is_wait action) eqn:Hw; [done|]. destruct (is_abandoned O); [done|]. destruct (may_begin _ _); [|done]. cbn [negb orb] in H.
    pose proof (begin_step_ok relayId platformTargetId O i action Hs Ha Hw paused now t Ht Hph) as Hok.
    pose proof (begin_step_same O action paused now (tg_state t)) as Hsame.
    destruct (begin_step _ _ _ _ _ _ _) as [t' calls']. simplify_eq. by apply moves_put.
  - assert (Hi : tg_phase t ≠ Idle) by congruence. destruct (busy_step O i t Hs Ht Hi ltac:(congruence)) as (action & Ha & Hw & _).
    destruct (existsb _ _); [done|]. destruct (run_ok _); simplify_eq; [|by eapply (moves_abandon f k O t i action)]. apply moves_put; [|done].
    apply (written_ok O i action kind startedAt retries (progress_run relayId O now)); auto. destruct kind; eauto 10.
  - assert (Hi : tg_phase t ≠ Idle) by congruence. destruct (busy_step O i t Hs Ht Hi ltac:(congruence)) as (action & Ha & Hw & _).
    destruct ok; simplify_eq.
    + right. eexists _, _. split; [done|]. split; [|split; [done|right; by eauto 10]].
      eapply (written_ok O i action kind); eauto. destruct kind; eauto 10.
    + apply moves_put; [|done]. eapply (written_ok O i action kind); eauto. destruct retries, kind; eauto 10.
  - destruct (current_action O) as [action|] eqn:Hc; [|done]. pose proof (current_at_step _ _ _ Hs Hc) as Ha.
    assert (Hi : tg_phase t ≠ Idle) by congruence. destruct (busy_step O i t Hs Ht Hi ltac:(congruence)) as (action' & Ha' & Hw & _).
    assert (action' = action) as -> by congruence.
    pose proof (resume_step_ok relayId platformTargetId O i action Hs Ha Hw startedAt landed now t Ht Hph) as Hok.
    pose proof (resume_step_same O action startedAt landed now (tg_state t)) as Hsame.
    destruct (resume_step _ _ _ _ _ _ _ _) as [t' calls']. simplify_eq. by apply moves_put.
  - destruct (current_action O) as [action|] eqn:Hc; [|done]. pose proof (current_at_step _ _ _ Hs Hc) as Ha.
    assert (Hi : tg_phase t ≠ Idle) by congruence. destruct (busy_step O i t Hs Ht Hi ltac:(congruence)) as (action' & Ha' & Hw & Hp).
    assert (action' = action) as -> by congruence.
    unfold phase_ok in Hp. rewrite Hph in Hp. destruct Hp as (Hat & Hal & Hcont & Happ & Hin).
    match type of H with (let '(_, _) := start_execution ?x ?e ?s in _) = _ =>
      pose proof (start_execution_same x e s) as Hsame;
      assert (Hok : target_ok O (start_execution x e s).1) end.
    { apply (start_execution_ok O i action Hs Ha Hw _ _ t); try done; [by destruct Ht as (_ & _ & ? & _)|by rewrite Hcont]. }
    destruct (start_execution _ _ _) as [t' calls']. simplify_eq. by apply moves_put.
  - assert (Hi : tg_phase t ≠ Idle) by congruence. destruct (busy_step O i t Hs Ht Hi ltac:(congruence)) as (action & Ha & Hw & Hp).
    destruct (outcome_of answer); simplify_eq. apply moves_put; [|done].
    unfold phase_ok in Hp. rewrite Hph in Hp. destruct Hp as (Hat & Hal & _).
    eapply target_ok_step; try done; [apply Hal|by destruct Ht as (_ & _ & ? & _)].
  - destruct (current_action O) as [action|] eqn:Hc; [|done]. pose proof (current_at_step _ _ _ Hs Hc) as Ha.
    assert (Hi : tg_phase t ≠ Idle) by congruence. destruct (busy_step O i t Hs Ht Hi ltac:(congruence)) as (action' & Ha' & Hw & _).
    assert (action' = action) as -> by congruence.
    injection H as <- <-. apply moves_put; [by apply (settle_step_ok O i action Hs Ha Hw)|apply settle_step_same].
Qed.

(** *** Events of an occurrence as a whole *)

Definition holding (O : Occurrence) : list JsString :=
  match oc_stage O with Completing _ | Abandoned _ => [] | _ => held_keys (oc_targets O) end.

Lemma held_keys_idle ts : held_keys (all_idle ts) = held_keys ts.
Proof.
  induction ts as [|t ts IH]; [done|]. unfold held_keys, all_idle in *. cbn. by destruct (ts_activeKey (tg_state t)); rewrite IH.
Qed.

Lemma target_ok_rest O O' t n :
  oc_definition O' = oc_definition O → (p_actions (oc_definition O) !! n = None ∨
    ∃ action, p_actions (oc_definition O) !! n = Some action) →
  oc_stage O' = Step n → target_ok O t → tg_phase t = Idle ∨ tg_phase t = Ended →
  attempted n O (tg_state t) → ts_inFlight (tg_state t) = None → target_ok O' (MkTargetLane (tg_state t) Idle).
Proof.
  intros Hd Hn Hs (Hk & _ & Hf & _) Hp Ha Hi. unfold target_ok, failures_kept, attempted in *. cbn. rewrite Hd.
  split; [done|]. split; [auto|]. split; [done|]. unfold stage_phase. rewrite Hs, Hd.
  assert (Hat : attempted n O' (tg_state t)) by (unfold attempted; by rewrite Hd).
  destruct (p_actions (oc_definition O) !! n) as [action|]; [|done]. by destruct (is_wait action).
Qed.

Lemma all_ended_phase O t : all_ended O = true → t ∈ oc_targets O → tg_phase t = Ended.
Proof. unfold all_ended. rewrite forallb_elem. intros H Hin. specialize (H t Hin). by destruct (tg_phase t). Qed.

Lemma next_step_ok O O' n :
  oc_definition O' = oc_definition O → oc_targets O' = all_idle (oc_targets O) → oc_stage O' = Step n →
  occ_ok O → all_ended O = true → stage_ok O' →
  (∀ t, t ∈ oc_targets O → attempted n O (tg_state t) ∧ ts_inFlight (tg_state t) = None) → occ_ok O'.
Proof.
  intros Hd Ht Hs [_ HF] Hall Hst Hat. split; [done|]. rewrite Ht. unfold all_idle. apply Forall_fmap, Forall_forall.
  intros t Hin. rewrite Forall_forall in HF. destruct (Hat t Hin). cbn.
  apply (target_ok_rest O O' t n); auto; [destruct (p_actions (oc_definition O) !! n); eauto|].
  right. by apply (all_ended_phase O).
Qed.

(** A wait leaves the targets as they are. *)
Lemma wait_step_ok O O' i action :
  oc_definition O' = oc_definition O → oc_targets O' = oc_targets O →
  p_actions (oc_definition O) !! i = Some action → is_wait action = true →
  oc_stage O' = Step (S i) ∨ (∃ at_, oc_stage O' = Waiting i at_) →
  occ_ok O → (∀ t, t ∈ oc_targets O → at_rest i O t) → stage_ok O' → occ_ok O'.
Proof.
  intros Hd Ht Ha Hw Hs [_ HF] Hrest Hst. split; [done|]. rewrite Ht, Forall_forall. rewrite Forall_forall in HF. intros t Hin.
  destruct (HF t Hin) as (Hk & Hn & Hf & _), (Hrest t Hin) as (Hi & Hat & Hin').
  unfold target_ok, failures_kept in *. rewrite Hd. split; [done|]. split; [done|]. split; [done|].
  assert (Hup : attempted (S i) O' (tg_state t)).
  { apply (attempted_wait O' i action); rewrite ?Hd; try done. unfold attempted in *. by rewrite Hd. }
  unfold stage_phase. destruct Hs as [->|[at_ ->]]; rewrite ?Hd.
  - destruct (p_actions (oc_definition O) !! S i) as [a|]; [|done]. destruct (is_wait a); [done|].
    unfold phase_ok. by rewrite Hi.
  - split; [done|]. split; [|done]. unfold attempted in *. by rewrite Hd.
Qed.

Definition same_occurrence (O O' : Occurrence) : Prop :=
  oc_definition O' = oc_definition O ∧ oc_scheduledAt O' = oc_scheduledAt O.

Definition is_completing (O : Occurrence) : bool := match oc_stage O with Completing _ => true | _ => false end.

(** The occurrence has let its targets go. *)
Definition released (O : Occurrence) : bool := is_completing O || is_abandoned O.

Lemma held_holding O : released O = false → holding O = held_keys (oc_targets O).
Proof. unfold released, is_completing, is_abandoned, holding. by destruct (oc_stage O). Qed.

Definition moves_occurrence (f : nat) (O : Occurrence) (M M' : Manager) : Prop :=
  (∃ O', M' = put_occurrence f O' M ∧ occ_ok O' ∧ holding O' = holding O ∧ same_occurrence O O') ∨
  (∃ O', M' = release_targets (oc_targets O) (put_occurrence f O' M) ∧ released O = false ∧ occ_ok O' ∧ holding O' = [] ∧
         same_occurrence O O') ∨
  (M' = fail_occurrence f O M ∧ released O = false) ∨
  (∃ record T, oc_stage O = Completing record ∧ completeRun record (m_store M) = Some T ∧
     M' = set_fibers (delete f (m_fibers M)) (set_store T M)) ∨
  M' = M.

Lemma moves_next f O O' M :
  occ_ok O' → holding O' = holding O → same_occurrence O O' → moves_occurrence f O M (put_occurrence f O' M).
Proof. intros. left. eauto 10. Qed.

Lemma stage_steps O i action :
  oc_stage O = Step i → p_actions (oc_definition O) !! i = Some action → stage_ok O →
  a_actionId <$> oc_sequenceAttempts O = sequence_steps (take i (p_actions (oc_definition O))) ∧
  (S i ≤ length (p_actions (oc_definition O)))%nat.
Proof.
  intros Hs Ha Ho. unfold stage_ok in Ho. rewrite Hs in Ho. destruct Ho as [_ Ho]. split; [done|].
  apply lookup_lt_Some in Ha. lia.
Qed.

Lemma wait_rest O i action t :
  oc_stage O = Step i → p_actions (oc_definition O) !! i = Some action → is_wait action = true → target_ok O t → at_rest i O t.
Proof. intros Hs Ha Hw (_ & _ & _ & H). unfold stage_phase in H. by rewrite Hs, Ha, Hw in H. Qed.

Lemma next_step_moves f g O M M' calls :
  occ_ok O → occurrence_event (ENextStep g) f O M = Some (M', calls) → moves_occurrence f O M M'.
Proof.
  intros Hok H. unfold ScheduleManager.occurrence_event in H. destruct Hok as [Hst HF]. destruct (oc_stage O) as [|i| | |] eqn:Hs; try done.
  - destruct (all_ended O) eqn:Hall; simplify_eq. apply moves_next; [|unfold holding; rewrite Hs; apply held_keys_idle|done].
    apply (next_step_ok O _ 0); try done.
    + unfold stage_ok in *. rewrite Hs in Hst. cbn. split; [lia|done].
    + intros t Hin. rewrite Forall_forall in HF. destruct (HF t Hin) as (_ & _ & _ & Hp). unfold stage_phase in Hp.
      rewrite Hs in Hp. by destruct Hp as (_ & ? & ?).
  - destruct (current_action O) as [action|] eqn:Hc; [|done]. pose proof (current_at_step O i action ltac:(by rewrite Hs) Hc) as Ha.
    destruct (is_wait action) eqn:Hw; [done|]. destruct (all_ended O) eqn:Hall; [|done]. cbn in H. simplify_eq.
    destruct (stage_steps _ _ _ Hs Ha Hst) as [Hseq Hle].
    apply moves_next; [|unfold holding; rewrite Hs; apply held_keys_idle|done].
    apply (next_step_ok O _ (S i)); try done.
    + unfold stage_ok. cbn. split; [done|]. by rewrite (sequence_steps_next _ _ _ Ha), Hw, app_nil_r.
    + intros t Hin. pose proof (all_ended_phase _ _ Hall Hin) as He. rewrite Forall_forall in HF.
      pose proof (target_ok_phase _ _ _ _ Hs Ha Hw (HF t Hin)) as Hp. unfold phase_ok in Hp. by rewrite He in Hp.
Qed.

Lemma begin_wait_moves f g now O M M' calls :
  occ_ok O → occurrence_event (EBeginWait g now) f O M = Some (M', calls) → moves_occurrence f O M M'.
Proof.
  intros Hok H. unfold ScheduleManager.occurrence_event in H. destruct (oc_stage O) as [|i| | |] eqn:Hs; try done.
  destruct (current_action O) as [action|] eqn:Hc; [|done]. pose proof (current_at_step O i action ltac:(by rewrite Hs) Hc) as Ha.
  destruct (is_wait action) eqn:Hw; [|done]. cbn [negb] in H. destruct Hok as [Hst HF].
  destruct (stage_steps _ _ _ Hs Ha Hst) as [Hseq Hle].
  assert (Hrest : ∀ t, t ∈ oc_targets O → at_rest i O t).
  { intros t Hin. rewrite Forall_forall in HF. by apply (wait_rest O i action), HF. }
  destruct (_ || _); simplify_eq; (apply moves_next; [|unfold holding; by rewrite Hs|done]).
  - apply (wait_step_ok O _ i action); try done; [by left|].
    unfold stage_ok. cbn. split; [done|]. by rewrite (sequence_steps_next _ _ _ Ha), Hw, fmap_app, Hseq.
  - apply (wait_step_ok O _ i action); try done; [right; by eexists|]. unfold stage_ok. cbn. eauto.
Qed.

Lemma waited_moves f g now answer O M M' calls :
  occ_ok O → occurrence_event (EWaited g now answer) f O M = Some (M', calls) → moves_occurrence f O M M'.
Proof.
  intros Hok H. unfold ScheduleManager.occurrence_event in H. destruct (oc_stage O) as [| |i st| |] eqn:Hs; try done.
  destruct (current_action O) as [action|] eqn:Hc; [|done]. unfold current_action in Hc. rewrite Hs in Hc.
  destruct (Hok) as [Hst HF]. unfold stage_ok in Hst. rewrite Hs in Hst. destruct Hst as (Hseq & a & Ha & Hw).
  rewrite Hc in Ha. injection Ha as <-. pose proof (lookup_lt_Some _ _ _ Hc).
  assert (Hrest : ∀ t, t ∈ oc_targets O → at_rest i O t).
  { intros t Hin. rewrite Forall_forall in HF. destruct (HF t Hin) as (_ & _ & _ & Hp). unfold stage_phase in Hp. by rewrite Hs in Hp. }
  destruct answer; simplify_eq; (apply moves_next; [|unfold holding; by rewrite Hs|done]);
    (apply (wait_step_ok O _ i action); try done; [by left|]; unfold stage_ok; cbn; split; [lia|];
     by rewrite (sequence_steps_next _ _ _ Hc), Hw, fmap_app, Hseq).
Qed.

Lemma finish_moves f g now O M M' calls :
  occ_ok O → occurrence_event (EFinish g now) f O M = Some (M', calls) → moves_occurrence f O M M'.
Proof.
  intros Hok H. unfold ScheduleManager.occurrence_event in H. destruct (oc_stage O) as [|i| | |] eqn:Hs; try done.
  unfold current_action in H. rewrite Hs in H. destruct (p_actions (oc_definition O) !! i) eqn:Ha; [done|].
  assert (Hc : released O = false) by (unfold released, is_completing, is_abandoned; by rewrite Hs).
  destruct (run_ok _); simplify_eq; [|by right; right; left]. right. left. eexists. split; [done|]. split; [done|].
  split; [|done]. destruct Hok as [Hst HF]. unfold stage_ok in Hst. rewrite Hs in Hst. destruct Hst as [Hle Hseq]. split.
  - unfold stage_ok. cbn. split; [|by eauto]. apply lookup_ge_None_1 in Ha. by rewrite firstn_all, Hseq, take_ge by done.
  - cbn. rewrite Forall_forall in *. intros t Hin. destruct (HF t Hin) as (Hk & Hn & Hf & Hp).
    unfold stage_phase in Hp. rewrite Hs, Ha in Hp. destruct Hp as (Hi & Hat & Hin').
    split; [done|]. split; [done|]. split; [done|]. unfold stage_phase. cbn. split; [done|]. split; [|done].
    by apply (attempted_end O i).
Qed.

Lemma occurrence_event_moves ev f O M M' calls :
  occ_ok O → occurrence_event ev f O M = Some (M', calls) → moves_occurrence f O M M'.
Proof.
  intros Hok H. destruct ev; try (by unfold ScheduleManager.occurrence_event in H; destruct (oc_stage O)).
  - by eapply next_step_moves.
  - by eapply begin_wait_moves.
  - by eapply waited_moves.
  - by eapply finish_moves.
  - unfold ScheduleManager.occurrence_event in H. destruct (oc_stage O) eqn:Hs; try done.
    destruct ok; [|simplify_eq; by repeat right]. destruct (completeRun record (m_store M)) as [T|] eqn:E; simplify_eq.
    + right. right. right. left. eauto.
    + by repeat right.
Qed.
End Events.
