(* ===== verification/ScheduleFacts.v ===== *)
(** * Schedules: what always holds of the manager

    The targets the manager holds are those of its occurrences, no two of
    which hold the same one, and storage has each of their runs. *)
From S2P Require Import Prelude Lanes.
From S2P Require Import Bytes Utf8 Nbt Decimals Snbt ScheduleContract ScheduleState Schedules ScheduleManager ScheduleInv.
Open Scope Z_scope.

Record manager_ok (M : Manager) : Prop := MkManagerOk {
  mo_occ : ∀ f O, m_fibers M !! f = Some O → occ_ok O;
  mo_next : ∀ f O, m_fibers M !! f = Some O → (f < m_next M)%nat;
  mo_nodup : ∀ f O, m_fibers M !! f = Some O → NoDup (holding O);
  mo_disjoint : ∀ f g O P key, m_fibers M !! f = Some O → m_fibers M !! g = Some P →
    key ∈ holding O → key ∈ holding P → f = g;
  mo_active : ∀ key, key ∈ m_active M ↔ ∃ f O, m_fibers M !! f = Some O ∧ key ∈ holding O;
}.

Lemma manager_ok_same M M' :
  m_fibers M' = m_fibers M → m_next M' = m_next M → m_active M' = m_active M → manager_ok M → manager_ok M'.
Proof. intros Hf Hn Ha [H1 H2 H3 H4 H5]. constructor; rewrite ?Hf, ?Hn, ?Ha; done. Qed.

(** ** An occurrence in place of another *)

Lemma put_occurrence_ok f O O' T M :
  manager_ok M → m_fibers M !! f = Some O → occ_ok O' → holding O' = holding O → manager_ok (put_occurrence f O' (set_store T M)).
Proof.
  intros [H1 H2 H3 H4 H5] Hf Ho Hh.
  assert (Hlook : ∀ g P, <[f:=O']> (m_fibers M) !! g = Some P →
            occ_ok P ∧ ∃ P', m_fibers M !! g = Some P' ∧ holding P = holding P').
  { intros g P. rewrite lookup_insert_Some. intros [[<- <-]|[Hne Hg]]; split; eauto. }
  constructor; cbn.
  - intros g P Hg. by destruct (Hlook g P Hg).
  - intros g P Hg. destruct (Hlook g P Hg) as (_ & P' & Hg' & _). eauto.
  - intros g P Hg. destruct (Hlook g P Hg) as (_ & P' & Hg' & ->). eauto.
  - intros g h P Q key Hg Hi. destruct (Hlook g P Hg) as (_ & P' & Hg' & ->), (Hlook h Q Hi) as (_ & Q' & Hi' & ->). eauto.
  - intros key. rewrite H5. split; intros (g & P & Hg & Hin).
    + destruct (decide (g = f)) as [->|Hne]; [|by exists g, P; rewrite lookup_insert_ne].
      exists f, O'. rewrite lookup_insert_eq, Hh. split; [done|]. congruence.
    + destruct (Hlook g P Hg) as (_ & P' & Hg' & Hp). rewrite Hp in Hin. eauto.
Qed.

(** An occurrence that lets its targets go, and stays or leaves. *)
Lemma release_held_ok f O M M' :
  manager_ok M → m_fibers M !! f = Some O → m_next M' = m_next M → m_active M' = m_active M ∖ list_to_set (holding O) →
  (∀ g, g ≠ f → m_fibers M' !! g = m_fibers M !! g) → (∀ O', m_fibers M' !! f = Some O' → occ_ok O' ∧ holding O' = []) →
  manager_ok M'.
Proof.
  intros [H1 H2 H3 H4 H5] Hf Hn Ha Hg Hf'.
  assert (Hlook : ∀ g P key, m_fibers M' !! g = Some P → key ∈ holding P → g ≠ f ∧ m_fibers M !! g = Some P).
  { intros g P key HP Hk. destruct (decide (g = f)) as [->|Hne]; [|by rewrite <-Hg].
    destruct (Hf' P HP) as [_ E]. rewrite E in Hk. by apply elem_of_nil in Hk. }
  constructor.
  - intros g P HP. destruct (decide (g = f)) as [->|Hne]; [by apply Hf'|]. rewrite Hg in HP by done. eauto.
  - intros g P HP. rewrite Hn. destruct (decide (g = f)) as [->|Hne]; [by eauto|]. rewrite Hg in HP by done. eauto.
  - intros g P HP. destruct (decide (g = f)) as [->|Hne]; [destruct (Hf' P HP) as [_ ->]; constructor|]. rewrite Hg in HP by done. eauto.
  - intros g h P Q key HP HQ Hk Hk'. destruct (Hlook _ _ _ HP Hk) as [_ HP'], (Hlook _ _ _ HQ Hk') as [_ HQ']. eauto.
  - intros key. rewrite Ha, elem_of_difference, elem_of_list_to_set, H5. split.
    + intros [(g & P & HP & Hk) Hno]. assert (g ≠ f) by (intros ->; by simplify_eq). exists g, P. by rewrite Hg.
    + intros (g & P & HP & Hk). destruct (Hlook _ _ _ HP Hk) as [Hne HP']. split; [by eauto|].
      intros Hin. apply Hne. eauto.
Qed.

(** ** Targets taken at the start *)

Lemma reserve_targets_spec intent now targets : ∀ active ts active',
  reserve_targets intent now targets active = (ts, active') →
  NoDup (held_keys ts) ∧ (∀ key, key ∈ held_keys ts → key ∉ active) ∧ active' = active ∪ list_to_set (held_keys ts) ∧
  (λ t, ts_target (tg_state t)) <$> ts = targets ∧
  Forall (λ t, tg_phase t = Idle ∧ ts_attempts (tg_state t) = [] ∧ ts_inFlight (tg_state t) = None ∧
    (ts_activeKey (tg_state t) = None ∨ ts_activeKey (tg_state t) = Some (active_key (ts_target (tg_state t))))) ts.
Proof.
  induction targets as [|target rest IH]; intros active ts active' H; cbn in H.
  - injection H as <- <-. split; [constructor|]. split; [by intros key Hk%elem_of_nil|]. split; [set_solver|]. done.
  - destruct (bool_decide (active_key target ∈ active)) eqn:E.
    + destruct (reserve_targets intent now rest active) as [ts0 active0] eqn:Er. injection H as <- <-.
      destruct (IH _ _ _ Er) as (H1 & H2 & H3 & H4 & H5). cbn. split; [done|]. split; [done|]. split; [done|].
      split; [by f_equal|]. constructor; [|done]. cbn. auto.
    + apply bool_decide_eq_false in E.
      destruct (reserve_targets intent now rest ({[active_key target]} ∪ active)) as [ts0 active0] eqn:Er. injection H as <- <-.
      destruct (IH _ _ _ Er) as (H1 & H2 & H3 & H4 & H5). cbn. split; [|split; [|split; [|split; [by f_equal|]]]].
      * constructor; [|done]. intros Hin. apply H2 in Hin. set_solver.
      * intros key [->|Hin]%elem_of_cons; [done|]. apply H2 in Hin. set_solver.
      * rewrite H3. apply set_eq. intros key. cbn. set_solver.
      * constructor; [|done]. cbn. auto.
Qed.

Lemma launch_ok intent now definition scheduledAt M :
  manager_ok M → manager_ok (launchOccurrence intent now definition scheduledAt M).
Proof.
  intros [H1 H2 H3 H4 H5]. unfold launchOccurrence.
  destruct (reserve_targets intent now (p_targets definition) (m_active M)) as [ts active] eqn:Er.
  destruct (reserve_targets_spec _ _ _ _ _ _ Er) as (Hn & Hfree & -> & _ & HF).
  set (O := MkOcc definition scheduledAt now ts [] None Checks).
  assert (Hfresh : ∀ g P, m_fibers M !! g = Some P → g ≠ m_next M) by (intros g P HP ->; specialize (H2 _ _ HP); lia).
  assert (Hh : holding O = held_keys ts) by done.
  constructor; cbn.
  - intros g P [[<- <-]|[_ HP]]%lookup_insert_Some; [|eauto]. split; [done|]. cbn. rewrite Forall_forall in *.
    intros t Hin. destruct (HF t Hin) as (Hi & Ha & Hf & Hk). unfold target_ok, stage_phase. cbn.
    split; [done|]. split; [auto|]. split; [by apply failures_kept_none|]. split; [auto|]. split; [|done].
    unfold attempted. rewrite Ha. by case_decide.
  - intros g P [[<- <-]|[_ HP]]%lookup_insert_Some; [lia|]. specialize (H2 _ _ HP). lia.
  - intros g P [[<- <-]|[_ HP]]%lookup_insert_Some; [done|eauto].
  - intros g h P Q key [[<- <-]|[Hg HP]]%lookup_insert_Some [[<- <-]|[Hh' HQ]]%lookup_insert_Some; intros Hk Hk'; try done; [| |by eauto].
    + destruct (Hfree key Hk). apply H5. eauto.
    + destruct (Hfree key Hk'). apply H5. eauto.
  - intros key. rewrite elem_of_union, elem_of_list_to_set, H5. split.
    + intros [(g & P & HP & Hk)|Hk].
      * exists g, P. rewrite lookup_insert_ne by (symmetry; by eapply Hfresh). done.
      * exists (m_next M), O. by rewrite lookup_insert_eq.
    + intros (g & P & [[<- <-]|[_ HP]]%lookup_insert_Some & Hk); [by right|left; eauto].
Qed.

(** ** Every event *)

Section Events.
Context (relayId platformTargetId : JsString) (nextOccurrence : JsString → Z → option Z).

Lemma moves_occurrence_ok f O M M' :
  manager_ok M → m_fibers M !! f = Some O → moves_occurrence f O M M' → manager_ok M'.
Proof.
  intros Hm Hf [(O' & -> & Ho & Hh & _)|[(O' & -> & Hc & Ho & Hh & _)|[[-> Hc]|[(record & T & Hs & _ & ->)| ->]]]]; [| | | |done].
  - rewrite <-(set_store_same M). by apply (put_occurrence_ok f O).
  - apply (release_held_ok f O M); try done; cbn.
    + by rewrite (held_holding O Hc).
    + intros g Hg. by rewrite lookup_insert_ne.
    + intros P. rewrite lookup_insert_eq. by intros [= <-].
  - apply (release_held_ok f O M); try done; cbn.
    + by rewrite (held_holding O Hc).
    + intros g Hg. by rewrite lookup_delete_ne.
    + intros P. by rewrite lookup_delete_eq.
  - apply (release_held_ok f O M); try done; cbn.
    + unfold holding. rewrite Hs. cbn. set_solver.
    + intros g Hg. by rewrite lookup_delete_ne.
    + intros P. by rewrite lookup_delete_eq.
Qed.

Lemma held_keys_insert k t t' ts :
  ts !! k = Some t → ts_activeKey (tg_state t') = ts_activeKey (tg_state t) → held_keys (<[k:=t']> ts) = held_keys ts.
Proof.
  revert k. induction ts as [|u ts IH]; intros [|k] Hk He; try done; cbn in Hk; unfold held_keys in *; cbn.
  - simplify_eq. by rewrite He.
  - by rewrite IH.
Qed.

(** The occurrence as a refused record leaves it. *)
Definition abandoned_at (i k : nat) (O : Occurrence) (t : Target) : Occurrence :=
  set_stage (Abandoned i) (set_targets (<[k:=MkTargetLane (tg_state t) Ended]> (oc_targets O)) O).

Lemma abandoned_ok i k O t action :
  oc_stage O = Step i → p_actions (oc_definition O) !! i = Some action → is_wait action = false → occ_ok O →
  oc_targets O !! k = Some t → occ_ok (abandoned_at i k O t).
Proof.
  intros Hs Ha Hw [Hst HF] Hk. split; [unfold stage_ok in *; by rewrite Hs in Hst|]. cbn.
  assert (Hother : ∀ u, target_ok O u → target_ok (abandoned_at i k O t) u).
  { intros u Hu. pose proof (target_ok_phase _ _ _ _ Hs Ha Hw Hu) as Hp. destruct Hu as (Hkey & Hn & Hf & _).
    split; [done|]. split; [done|]. split; [done|]. unfold stage_phase. cbn. rewrite Ha. split; [done|]. by right. }
  apply (Forall_insert (target_ok _)); [by eapply Forall_impl|].
  pose proof (Forall_lookup_1 _ _ _ _ HF Hk) as (Hkey & Hn & Hf & _).
  split; [done|]. split; [by right|]. split; [done|]. unfold stage_phase. cbn. rewrite Ha. auto.
Qed.

(** An event on a target is one of the occurrence. *)
Lemma moves_target_occurrence f k O t M M' :
  occ_ok O → oc_targets O !! k = Some t → is_completing O = false → moves_target f k O t M M' →
  (∃ O', M' = release_targets (oc_targets O) (put_occurrence f O' M) ∧ released O = false ∧ occ_ok O' ∧ holding O' = [] ∧
         same_occurrence O O') ∨
  ∃ O' T, M' = put_occurrence f O' (set_store T M) ∧ occ_ok O' ∧ holding O' = holding O ∧
    same_occurrence O O' ∧ stored_by t M T.
Proof.
  intros Ho Hk Hc [(i & action & Hs & Ha & Hw & ->)|(t' & T & -> & Ht & [Ek Et] & Hs)].
  - left. exists (abandoned_at i k O t). unfold abandon. rewrite Hs. split; [done|].
    split; [unfold released, is_abandoned; by rewrite Hc, Hs|]. split; [by apply (abandoned_ok i k O t action)|]. done.
  - right. exists (set_targets (<[k:=t']> (oc_targets O)) O), T. destruct Ho as [Hst HF].
    split; [done|]. split; [|split; [|done]].
    + split; [unfold stage_ok, is_completing in *; cbn; by destruct (oc_stage O)|]. cbn. apply (Forall_insert (target_ok O)); done.
    + unfold holding. cbn. destruct (oc_stage O); try done; by apply (held_keys_insert k t).
Qed.

Lemma target_event_stage ev f k O t M M' calls :
  target_event relayId platformTargetId ev f k O t M = Some (M', calls) → is_completing O = false.
Proof. unfold is_completing. destruct ev; cbn; by destruct (oc_stage O). Qed.

Lemma on_target_ok ev f k M M' calls :
  manager_ok M → on_target relayId platformTargetId ev f k M = Some (M', calls) → manager_ok M'.
Proof.
  intros Hm H. unfold on_target in H. destruct (m_fibers M !! f) as [O|] eqn:Hf; [|done]. cbn in H.
  destruct (oc_targets O !! k) as [t|] eqn:Hk; [|done]. cbn in H.
  pose proof (mo_occ _ Hm _ _ Hf) as Ho. pose proof (target_event_stage _ _ _ _ _ _ _ _ H) as Hc.
  assert (Ht : target_ok O t) by (destruct Ho as [_ HF]; by apply (Forall_lookup_1 _ _ _ _ HF Hk)).
  pose proof (target_event_moves _ _ _ _ _ _ _ _ _ _ Hk Ht H) as Hmv.
  destruct (moves_target_occurrence _ _ _ _ _ _ Ho Hk Hc Hmv) as [Hab|(O' & T & -> & Ho' & Hh & _)].
  - apply (moves_occurrence_ok f O M); try done. by right; left.
  - by apply (put_occurrence_ok f O).
Qed.

Lemma launch_claimed_ok intent now os : ∀ M, manager_ok M → manager_ok (fold_left (launch_claimed intent now) os M).
Proof.
  induction os as [|o os IH]; intros M Hm; cbn; [done|]. apply IH. unfold launch_claimed. case_decide; [by apply launch_ok|done].
Qed.

Lemma tick_rounds_eq fuel intent now answers round M :
  tick_rounds relayId nextOccurrence (S fuel) intent now answers round M =
    let available := (scheduleBatchSize - running (m_fibers M))%nat in
    if decide (available = 0%nat) then Some M
    else if ra_select_fails (answers round) then Some (claimFailed now M)
    else
      let '(claimed, hasMore) := claimDue nextOccurrence now (m_bootAt M) relayId available (ra_fails (answers round))
                                   (ra_prune_fails (answers round)) (m_store M) in
      let M := fold_left (launch_claimed intent now) (cl_occurrences claimed) (set_store (cl_store claimed) M) in
      if cl_failed claimed then Some (claimFailed now M)
      else if hasMore then tick_rounds relayId nextOccurrence fuel intent now answers (S round) (set_failures (m_nextClaimAttemptAt M) 0 M)
      else Some (set_failures (m_nextClaimAttemptAt M) 0 M).
Proof. reflexivity. Qed.

Lemma tick_rounds_ok fuel intent now answers : ∀ round M M',
  manager_ok M → tick_rounds relayId nextOccurrence fuel intent now answers round M = Some M' → manager_ok M'.
Proof.
  induction fuel as [|fuel IH]; intros round M M' Hm H; [done|]. rewrite tick_rounds_eq in H. cbv zeta in H. case_decide; [by simplify_eq|].
  destruct (ra_select_fails _); [simplify_eq; by apply (manager_ok_same M)|].
  destruct (claimDue _ _ _ _ _ _ _ _) as [claimed hasMore].
  assert (Hl : manager_ok (fold_left (launch_claimed intent now) (cl_occurrences claimed) (set_store (cl_store claimed) M)))
    by (apply launch_claimed_ok; by apply (manager_ok_same M)).
  destruct (cl_failed claimed); [simplify_eq; by apply (manager_ok_same (fold_left (launch_claimed intent now) (cl_occurrences claimed) (set_store (cl_store claimed) M)))|].
  destruct hasMore; [|simplify_eq; by apply (manager_ok_same (fold_left (launch_claimed intent now) (cl_occurrences claimed) (set_store (cl_store claimed) M)))].
  eapply IH; [|done]. by apply (manager_ok_same (fold_left (launch_claimed intent now) (cl_occurrences claimed) (set_store (cl_store claimed) M))).
Qed.

Lemma tick_ok intent now read_fails answers M M' :
  manager_ok M → tick relayId nextOccurrence intent now read_fails answers M = Some M' → manager_ok M'.
Proof.
  intros Hm H. unfold tick in H.
  repeat (case_match; simplify_eq; try done); try (by apply (manager_ok_same M));
    (eapply tick_rounds_ok; [|done]; by apply (manager_ok_same M)).
Qed.

Lemma manager_event_ok ev M M' calls :
  manager_ok M → manager_event relayId platformTargetId nextOccurrence ev M = Some (M', calls) → manager_ok M'.
Proof.
  intros Hm H. destruct ev; cbn [manager_event] in H;
    try (by eapply on_target_ok); try (simplify_eq; by apply (manager_ok_same M));
    try (unfold on_occurrence in H; destruct (m_fibers M !! f) as [O|] eqn:Hf; [|done]; cbn [mbind option_bind] in H;
         apply (moves_occurrence_ok f O M); [done|done|]; eapply (occurrence_event_moves relayId); [by apply (mo_occ M Hm f)|done]).
  - simplify_eq. unfold apply_event. destruct (if p_enabled _ then _ else _); [|done]. by apply (manager_ok_same M).
  - simplify_eq. unfold runNow_event. destruct (Nat.leb _ _); [done|].
    destruct (runNow _ _ _ _ _) as [[T []]|]; try done; try (by apply (manager_ok_same M)).
    apply launch_ok. by apply (manager_ok_same M).
  - destruct (tick _ _ _ _ _ _ _) as [M1|] eqn:E; [|done]. cbn in H. simplify_eq. by eapply tick_ok.
Qed.

Lemma make_ok now legacy S : manager_ok (make now legacy S).
Proof. constructor; cbn; try done. intros key. split; [set_solver|]. by intros (f & O & Hf & _). Qed.

Lemma manager_run_ok evs : ∀ M M',
  manager_ok M → manager_run relayId platformTargetId nextOccurrence evs M = Some M' → manager_ok M'.
Proof.
  induction evs as [|ev evs IH]; intros M M' Hm H; cbn in H; [by simplify_eq|].
  destruct (manager_event _ _ _ ev M) as [[M1 calls]|] eqn:E; [|done]. cbn in H. eapply IH; [|done]. by eapply manager_event_ok.
Qed.
End Events.
