(* ===== verification/ScheduleRecords.v ===== *)
(** * Schedules: what storage says of running occurrences

    Every running occurrence has a row of its own that says it runs, and a
    command that may be running in a container is in it, as unknown: what was
    recorded before it was sent stays recorded until it ends, whatever the
    occurrence's other targets record meanwhile. *)
From S2P Require Import Prelude Lanes.
From S2P Require Import Bytes Utf8 Nbt Decimals Snbt ScheduleContract ScheduleState ScheduleStateFacts.
From S2P Require Import Schedules ScheduleManager ScheduleInv ScheduleFacts.
Open Scope Z_scope.

Section Records.
Context (relayId platformTargetId : JsString) (nextOccurrence : JsString → Z → option Z).

Definition key_of (O : Occurrence) : JsString := run_key relayId (p_id (oc_definition O)) (oc_scheduledAt O).

(** A command that was recorded and is being sent, or was sent. *)
Definition sent (O : Occurrence) (t : Target) : Prop :=
  (∃ action, current_action O = Some action ∧ in_container action (ts_target (tg_state t)) = true) ∧
  ((∃ startedAt, tg_phase t = RecordAnswered startedAt true) ∨ (∃ startedAt, tg_phase t = Executing startedAt)).

Definition recording (t : Target) : Prop := ∃ startedAt retries record, tg_phase t = RecordWriting BeforeCommand startedAt retries record.

(** A target's runs end with what is in flight on it. *)
Definition shown (targetRuns : list ScheduleTargetRun) (k : nat) (t : Target) : Prop :=
  ∃ tr a, targetRuns !! k = Some tr ∧ tr_target tr = ts_target (tg_state t) ∧ ts_inFlight (tg_state t) = Some a ∧
    last (tr_attempts tr) = Some a.

Definition row_shows (O : Occurrence) (row : RunRow) : Prop :=
  ∀ k t, oc_targets O !! k = Some t → sent O t → shown (r_target_runs row) k t.

Record writes_ok (O : Occurrence) : Prop := MkWritesOk {
  wo_one : ∀ k l t u, oc_targets O !! k = Some t → oc_targets O !! l = Some u → is_writing (tg_phase t) = true →
    is_writing (tg_phase u) = true → k = l;
  wo_record : ∀ k t kind startedAt retries record, oc_targets O !! k = Some t →
    tg_phase t = RecordWriting kind startedAt retries record → run_id record = key_of O ∧
    ∀ l u, oc_targets O !! l = Some u → sent O u ∨ recording u → shown (run_targetRuns record) l u;
  wo_complete : ∀ record, oc_stage O = Completing record → run_id record = key_of O;
}.

Definition row_ok (O : Occurrence) (S : ScheduleStore) : Prop :=
  ∃ row, runs S !! key_of O = Some row ∧ r_status row = RunRunning ∧ row_shows O row.

Record records_ok (M : Manager) : Prop := MkRecordsOk {
  ro_named : named (m_store M);
  ro_row : ∀ f O, m_fibers M !! f = Some O → row_ok O (m_store M);
  ro_distinct : ∀ f g O P, m_fibers M !! f = Some O → m_fibers M !! g = Some P → key_of O = key_of P → f = g;
  ro_writes : ∀ f O, m_fibers M !! f = Some O → writes_ok O;
}.

(** ** Changes of the manager *)

Lemma records_store M M' :
  records_ok M → m_fibers M' = m_fibers M → keeps_running (m_store M) (m_store M') → named (m_store M') → records_ok M'.
Proof.
  intros [H1 H2 H3 H4] Hf Hk Hn. constructor; rewrite ?Hf; try done.
  intros f O HO. destruct (H2 f O HO) as (row & Hr & Hs & Hsh). exists row. eauto.
Qed.

Lemma records_put f O O' T M :
  records_ok M → m_fibers M !! f = Some O → same_occurrence O O' → named T →
  (∀ id row, id ≠ key_of O → runs (m_store M) !! id = Some row → r_status row = RunRunning → runs T !! id = Some row) →
  row_ok O' T → writes_ok O' → records_ok (put_occurrence f O' (set_store T M)).
Proof.
  intros [H1 H2 H3 H4] Hf [Ed Es] Hn Hother Hrow Hw.
  assert (Hkey : key_of O' = key_of O) by (unfold key_of; by rewrite Ed, Es).
  assert (Hlook : ∀ g P, <[f:=O']> (m_fibers M) !! g = Some P →
            (g = f ∧ P = O') ∨ (g ≠ f ∧ m_fibers M !! g = Some P ∧ key_of P ≠ key_of O)).
  { intros g P. rewrite lookup_insert_Some. intros [[<- <-]|[Hne Hg]]; [by left|right]. split; [done|]. split; [done|].
    intros E. apply Hne. symmetry. by eapply H3. }
  constructor; cbn [m_store m_fibers put_occurrence set_fibers set_store launchOccurrence].
  - done.
  - intros g P Hg. destruct (Hlook g P Hg) as [[-> ->]|(_ & HP & Hne)]; [done|].
    destruct (H2 g P HP) as (row & Hr & Hs & Hsh). exists row. eauto.
  - intros g h P Q Hg Hh E. destruct (Hlook g P Hg) as [[-> ->]|(? & HP & Hne)], (Hlook h Q Hh) as [[-> ->]|(? & HQ & Hne')];
      try congruence. by eapply H3.
  - intros g P Hg. destruct (Hlook g P Hg) as [[-> ->]|(_ & HP & _)]; eauto.
Qed.

Lemma records_put_same f O O' M :
  records_ok M → m_fibers M !! f = Some O → same_occurrence O O' → row_ok O' (m_store M) → writes_ok O' →
  records_ok (put_occurrence f O' M).
Proof.
  intros Hr Hf Hs Hrow Hw. pose proof (records_put f O O' (m_store M) M Hr Hf Hs) as H. rewrite set_store_same in H.
  apply H; [apply Hr|auto|done|done].
Qed.

(** Without an occurrence, whose own row may change. *)
Lemma records_drop f M M' :
  records_ok M → m_fibers M' = delete f (m_fibers M) → named (m_store M') →
  (∀ id row, (∀ O, m_fibers M !! f = Some O → id ≠ key_of O) → runs (m_store M) !! id = Some row → r_status row = RunRunning →
    runs (m_store M') !! id = Some row) →
  records_ok M'.
Proof.
  intros [H1 H2 H3 H4] Hf Hn Hother.
  assert (Hlook : ∀ g P, m_fibers M' !! g = Some P → m_fibers M !! g = Some P ∧ g ≠ f).
  { intros g P. rewrite Hf, lookup_delete_Some. by intros [? ?]. }
  constructor; [done|..].
  - intros g P Hg. destruct (Hlook g P Hg) as [HP Hne]. destruct (H2 g P HP) as (row & Hr & Hs & Hsh).
    exists row. split; [|done]. apply Hother; [|done|done]. intros O HO E. apply Hne. by eapply H3.
  - intros g h P Q Hg Hh. destruct (Hlook g P Hg), (Hlook h Q Hh). eauto.
  - intros g P Hg. destruct (Hlook g P Hg). eauto.
Qed.

Lemma nothing_sent O row : current_action O = None → row_shows O row.
Proof. intros Hc k t _ [(action & Ha & _) _]. congruence. Qed.

Lemma rest_sent O row : (∀ t, t ∈ oc_targets O → tg_phase t = Idle) → row_shows O row.
Proof.
  intros H k t Hk [_ [[s Hs]|[s Hs]]]; rewrite H in Hs by (by eapply list_elem_of_lookup_2); done.
Qed.

Lemma nothing_written O :
  (∀ t, t ∈ oc_targets O → is_writing (tg_phase t) = false) →
  (∀ record, oc_stage O = Completing record → run_id record = key_of O) → writes_ok O.
Proof.
  intros H Hc. constructor; [..|done].
  - intros k l t u Hk _ Hw. rewrite H in Hw by (by eapply list_elem_of_lookup_2). done.
  - intros k t kind s r record Hk Hp. apply list_elem_of_lookup_2, H in Hk. by rewrite Hp in Hk.
Qed.

Lemma launch_records intent now definition scheduledAt M row :
  records_ok M → manager_ok M → runs (m_store M) !! run_key relayId (p_id definition) scheduledAt = Some row →
  r_status row = RunRunning → (∀ f O, m_fibers M !! f = Some O → key_of O ≠ run_key relayId (p_id definition) scheduledAt) →
  records_ok (launchOccurrence intent now definition scheduledAt M).
Proof.
  intros [H1 H2 H3 H4] Hm Hr Hs Hfree. unfold launchOccurrence.
  destruct (reserve_targets intent now (p_targets definition) (m_active M)) as [ts active] eqn:Er.
  destruct (reserve_targets_spec _ _ _ _ _ _ Er) as (_ & _ & _ & _ & HF).
  set (O := MkOcc definition scheduledAt now ts [] None Checks).
  assert (Hk : key_of O = run_key relayId (p_id definition) scheduledAt) by done.
  constructor; cbn [m_store m_fibers put_occurrence set_fibers set_store launchOccurrence].
  - done.
  - intros g P [[<- <-]|[_ HP]]%lookup_insert_Some; [|by apply (H2 g)]. exists row. rewrite Hk. split; [done|]. split; [done|].
    by apply nothing_sent.
  - intros g h P Q [[<- <-]|[Hg HP]]%lookup_insert_Some [[<- <-]|[Hh HQ]]%lookup_insert_Some E; try done.
    + rewrite Hk in E. by destruct (Hfree h Q HQ).
    + rewrite Hk in E. by destruct (Hfree g P HP).
    + by eapply H3.
  - intros g P [[<- <-]|[_ HP]]%lookup_insert_Some; [|by apply (H4 g)]. apply nothing_written; [|done]. cbn. intros t Hin.
    rewrite Forall_forall in HF. by destruct (HF t Hin) as [-> _].
Qed.

(** ** Events on a target *)

(** A change that sends no command and writes nothing. *)
Definition quiet (O : Occurrence) (t t' : Target) : Prop :=
  is_writing (tg_phase t') = false ∧ ts_target (tg_state t') = ts_target (tg_state t) ∧
  (sent O t' → sent O t ∧ ts_inFlight (tg_state t') = ts_inFlight (tg_state t)).

Lemma shown_same targetRuns k t t' :
  shown targetRuns k t → ts_target (tg_state t') = ts_target (tg_state t) →
  ts_inFlight (tg_state t') = ts_inFlight (tg_state t) → shown targetRuns k t'.
Proof. intros (tr & a & H1 & H2 & H3 & H4) Et Ei. exists tr, a. by rewrite Et, Ei. Qed.

Lemma insert_cases (k : nat) (t t' : Target) (ts : list Target) (l : nat) u :
  ts !! k = Some t → <[k:=t']> ts !! l = Some u → (l = k ∧ u = t') ∨ (l ≠ k ∧ ts !! l = Some u).
Proof.
  intros Hk Hl. destruct (decide (l = k)) as [->|Hne].
  - left. split; [done|]. rewrite list_lookup_insert_eq in Hl by (by eapply lookup_lt_Some). by injection Hl as <-.
  - right. split; [done|]. by rewrite list_lookup_insert_ne in Hl.
Qed.

Lemma quiet_shows O k t t' row :
  oc_targets O !! k = Some t → quiet O t t' → row_shows O row → row_shows (set_targets (<[k:=t']> (oc_targets O)) O) row.
Proof.
  intros Hk (_ & Et & Hs) Hrow l u Hl Hu. change (sent O u) in Hu. cbn in Hl.
  destruct (insert_cases _ _ _ _ _ _ Hk Hl) as [[-> ->]|[_ Hl']]; [|by apply Hrow].
  destruct (Hs Hu) as [Hst Ei]. apply (shown_same _ _ t); [by apply Hrow|done|done].
Qed.

Lemma quiet_writes O k t t' :
  oc_targets O !! k = Some t → quiet O t t' → writes_ok O → writes_ok (set_targets (<[k:=t']> (oc_targets O)) O).
Proof.
  intros Hk (Hw & Et & Hs) [W1 W2 W3]. constructor; cbn [oc_targets set_targets oc_stage]; [..|done].
  - intros i j u v Hi Hj Hwu Hwv. destruct (insert_cases _ _ _ _ _ _ Hk Hi) as [[-> ->]|[_ Hi']]; [congruence|].
    destruct (insert_cases _ _ _ _ _ _ Hk Hj) as [[-> ->]|[_ Hj']]; [congruence|]. by eapply W1.
  - intros i u kind s r record Hi Hp. destruct (insert_cases _ _ _ _ _ _ Hk Hi) as [[-> ->]|[_ Hi']]; [by rewrite Hp in Hw|].
    destruct (W2 _ _ _ _ _ _ Hi' Hp) as [Hid Hsh]. split; [done|]. intros l v Hl Hv.
    destruct (insert_cases _ _ _ _ _ _ Hk Hl) as [[-> ->]|[_ Hl']]; [|by apply Hsh].
    destruct Hv as [Hv|(? & ? & ? & Hv)]; [|by rewrite Hv in Hw]. destruct (Hs Hv) as [Hst Ei].
    apply (shown_same _ _ t); [|done|done]. apply Hsh; [done|by left].
Qed.

Lemma quiet_records f O k t t' M :
  records_ok M → m_fibers M !! f = Some O → oc_targets O !! k = Some t → quiet O t t' → records_ok (put_target f k t' O M).
Proof.
  intros Hr Hf Hk Hq. apply (records_put_same f O); try done.
  - destruct (ro_row _ Hr f O Hf) as (row & Hrow & Hs & Hsh). exists row. split; [done|]. split; [done|]. by apply (quiet_shows O k t).
  - apply (quiet_writes O k t); [done|done|]. by apply (ro_writes _ Hr f).
Qed.

(** Asking for an action sends no command that was not recorded. *)
Lemma start_execution_quiet O startedAt execution t s' :
  ts_target s' = ts_target (tg_state t) →
  (sent O (MkTargetLane s' (Executing startedAt)) → sent O t ∧ ts_inFlight s' = ts_inFlight (tg_state t)) →
  quiet O t (start_execution startedAt execution s').1.
Proof. intros Et Hs. unfold quiet. destruct execution; cbn; (split; [done|]; split; [done|]); [|done|..]; intros [_ [[? H]|[? H]]]; done. Qed.

Lemma settled_quiet O t t' :
  is_writing (tg_phase t') = false → ts_target (tg_state t') = ts_target (tg_state t) →
  (∀ s, tg_phase t' ≠ RecordAnswered s true) → (∀ s, tg_phase t' ≠ Executing s) → quiet O t t'.
Proof. intros Hw Et H1 H2. split; [done|]. split; [done|]. intros [_ [[s Hs]|[s Hs]]]; [by destruct (H1 s)|by destruct (H2 s)]. Qed.

Lemma last_snoc_eq {A} (l : list A) x : last (l ++ [x]) = Some x.
Proof. by rewrite last_snoc. Qed.

(** A snapshot shows whatever is in flight. *)
Lemma progress_shows O now k t a :
  oc_targets O !! k = Some t → ts_inFlight (tg_state t) = Some a → shown (run_targetRuns (progress_run relayId O now)) k t.
Proof.
  intros Hk Hi. exists (targetRun (p_id (oc_definition O)) (oc_scheduledAt O) now (tg_state t)), a. cbn [progress_run run_targetRuns].
  rewrite list_lookup_fmap, Hk. split; [done|]. split; [done|]. split; [done|]. cbn. rewrite Hi. apply last_snoc_eq.
Qed.

Lemma sent_in_flight O i t :
  as_step (oc_stage O) = Step i → target_ok O t → sent O t ∨ recording t ∨ (∃ s r, tg_phase t = RecordWaiting BeforeCommand s r) →
  ∃ a, ts_inFlight (tg_state t) = Some a.
Proof.
  intros Hs Ht H. assert (Hi : tg_phase t ≠ Idle) by (intros E; destruct H as [[_ [[s Hp]|[s Hp]]]|[(s & r & x & Hp)|(s & r & Hp)]]; congruence).
  assert (He : tg_phase t ≠ Ended) by (intros E; destruct H as [[_ [[s Hp]|[s Hp]]]|[(s & r & x & Hp)|(s & r & Hp)]]; congruence).
  destruct (busy_step O i t Hs Ht Hi He) as (action & Ha & Hw & Hp). unfold phase_ok in Hp.
  destruct H as [[(action' & Ha' & Hc) [[s Hph]|[s Hph]]]|[(s & r & x & Hph)|(s & r & Hph)]]; rewrite Hph in Hp.
  - destruct Hp as (_ & _ & _ & a & Hin & _). eauto.
  - destruct Hp as (_ & _ & Hin). pose proof (current_at_step _ _ _ Hs Ha'). assert (action' = action) as -> by congruence.
    rewrite Hc in Hin. destruct Hin as (a & Hin & _). eauto.
  - destruct Hp as (_ & _ & _ & a & Hin & _). eauto.
  - destruct Hp as (_ & _ & _ & a & Hin & _). eauto.
Qed.

Lemma no_writer O : existsb (λ t, is_writing (tg_phase t)) (oc_targets O) = false → ∀ k t, oc_targets O !! k = Some t → is_writing (tg_phase t) = false.
Proof. intros H k t Hk. rewrite existsb_false in H. apply H. by eapply list_elem_of_lookup_2. Qed.

(** A write that begins. *)
Lemma write_records f O i k t kind startedAt retries now M :
  records_ok M → m_fibers M !! f = Some O → oc_targets O !! k = Some t → occ_ok O → as_step (oc_stage O) = Step i →
  tg_phase t = RecordWaiting kind startedAt retries → existsb (λ t, is_writing (tg_phase t)) (oc_targets O) = false →
  records_ok (put_target f k (MkTargetLane (tg_state t) (RecordWriting kind startedAt retries (progress_run relayId O now))) O M).
Proof.
  intros Hr Hf Hk [_ HF] Hs Hph Hnw. pose proof (no_writer _ Hnw) as Hno. rewrite Forall_forall in HF.
  set (t' := MkTargetLane (tg_state t) _). apply (records_put_same f O); try done.
  - destruct (ro_row _ Hr f O Hf) as (row & Hrow & Hst & Hsh). exists row. split; [done|]. split; [done|].
    intros l u Hl Hu. cbn in Hl. destruct (insert_cases _ _ _ _ _ _ Hk Hl) as [[-> ->]|[_ Hl']]; [|by apply Hsh].
    destruct Hu as [_ [[s H]|[s H]]]; done.
  - constructor; cbn [oc_targets set_targets]; [..|by apply (ro_writes _ Hr f O Hf)].
    + intros x y u v Hx Hy Hu Hv. destruct (insert_cases _ _ _ _ _ _ Hk Hx) as [[-> ->]|[_ Hx']]; [|by rewrite (Hno _ _ Hx') in Hu].
      destruct (insert_cases _ _ _ _ _ _ Hk Hy) as [[-> ->]|[_ Hy']]; [done|by rewrite (Hno _ _ Hy') in Hv].
    + intros x u kind' s r record Hx Hp. destruct (insert_cases _ _ _ _ _ _ Hk Hx) as [[-> ->]|[_ Hx']];
        [|pose proof (Hno _ _ Hx') as Hw; by rewrite Hp in Hw].
      cbn in Hp. injection Hp as <- <- <- <-. split; [done|]. intros l v Hl Hv.
      destruct (insert_cases _ _ _ _ _ _ Hk Hl) as [[-> ->]|[_ Hl']].
      * destruct (sent_in_flight O i t Hs) as [a Ha].
        { apply HF. by eapply list_elem_of_lookup_2. }
        { destruct Hv as [[_ [[? H]|[? H]]]|(? & ? & ? & H)]; try done. cbn in H. simplify_eq. eauto. }
        apply (shown_same _ _ t); [|done|done]. by eapply progress_shows.
      * destruct (sent_in_flight O i v Hs) as [a Ha]; [apply HF; by eapply list_elem_of_lookup_2|destruct Hv; eauto|].
        by eapply progress_shows.
Qed.

(** A write that landed. *)
Lemma landed_records f O k t kind startedAt retries record M :
  records_ok M → m_fibers M !! f = Some O → oc_targets O !! k = Some t →
  tg_phase t = RecordWriting kind startedAt retries record →
  records_ok (put_target f k (MkTargetLane (tg_state t) (match kind with BeforeCommand => RecordAnswered startedAt true | AfterCommand => Ended end))
                O (set_store (recordProgress record (m_store M)) M)).
Proof.
  intros Hr Hf Hk Hph. destruct (ro_writes _ Hr f O Hf) as [W1 W2 W3]. destruct (W2 _ _ _ _ _ _ Hk Hph) as [Hid Hsh].
  set (t' := MkTargetLane _ _). destruct (ro_row _ Hr f O Hf) as (row & Hrow & Hs & _).
  assert (Hno : ∀ l u, <[k:=t']> (oc_targets O) !! l = Some u → is_writing (tg_phase u) = false).
  { intros l u Hl. destruct (insert_cases _ _ _ _ _ _ Hk Hl) as [[-> ->]|[Hne Hl']]; [by destruct kind|].
    destruct (is_writing (tg_phase u)) eqn:E; [|done]. destruct Hne. apply (W1 l k u t); [done|done|done|by rewrite Hph]. }
  apply (records_put f O); try done.
  - apply Hr.
  - intros id r Hne Hi _. by rewrite recordProgress_lookup, decide_False by congruence.
  - eexists. rewrite recordProgress_lookup, decide_True by (by rewrite Hid). change (key_of (set_targets (<[k:=t']> (oc_targets O)) O)) with (key_of O).
    rewrite Hrow. cbn. rewrite decide_True by done. split; [done|]. split; [done|]. intros l u Hl Hu. cbn in Hl |- *.
    change (sent O u) in Hu. destruct (insert_cases _ _ _ _ _ _ Hk Hl) as [[-> ->]|[Hne Hl']]; [|apply Hsh; auto].
    apply (shown_same _ _ t); [|done|done]. apply Hsh; [done|]. right. destruct kind; [by exists startedAt, retries, record|].
    destruct Hu as [_ [[? H]|[? H]]]; done.
  - apply nothing_written; [|done]. intros u Hin. apply list_elem_of_lookup_1 in Hin as [l Hl]. by eapply Hno.
Qed.

Lemma begin_step_quiet O i action paused now t :
  as_step (oc_stage O) = Step i → current_action O = Some action →
  quiet O t (begin_step relayId platformTargetId O action paused now (tg_state t)).1.
Proof.
  intros Hs Hc. unfold begin_step. case_decide; [by apply settled_quiet|].
  destruct (step_refusal _ _ _ _) as [[]|]; [by apply settled_quiet|].
  destruct (in_container _ _) eqn:Ec; [by apply settled_quiet|].
  apply start_execution_quiet; [done|]. intros [(a & Ha & Hin) _]. cbn in Hin. congruence.
Qed.

Lemma resume_step_quiet O action startedAt landed now t :
  current_action O = Some action → tg_phase t = RecordAnswered startedAt landed →
  quiet O t (resume_step relayId platformTargetId O action startedAt landed now (tg_state t)).1.
Proof.
  intros Hc Hph. unfold resume_step. destruct landed.
  - apply start_execution_quiet; [done|]. intros [Ha _]. split; [|done]. split; [done|]. left. eauto.
  - destruct (note_failure_same not_recorded (set_inFlight None (tg_state t))) as (_ & _ & Et & _). by apply settled_quiet.
Qed.

Lemma settle_step_quiet O action startedAt outcome now t : quiet O t (settle_step O action startedAt outcome now (tg_state t)).
Proof.
  pose proof (settle_step_same O action startedAt outcome now (tg_state t)) as [_ Et].
  apply settled_quiet; [|done|..]; unfold settle_step, after_step; (destruct (gave_way _ _); [|destruct (truthy_text _)]);
    cbn; destruct (in_container _ _); done.
Qed.

Lemma drop_records f O M :
  records_ok M → m_fibers M !! f = Some O → records_ok (fail_occurrence f O M).
Proof. intros Hr Hf. apply (records_drop f M); try done. apply Hr. Qed.

Lemma abandoned_sent i k O t u : oc_stage O = Step i → sent (abandoned_at i k O t) u → sent O u.
Proof. intros Hs [(action & Ha & Hin) Hp]. split; [|done]. exists action. unfold current_action in *. by rewrite Hs. Qed.

Lemma records_release ts M : records_ok M → records_ok (release_targets ts M).
Proof. intros Hr. apply (records_store M); try done. apply Hr. Qed.

(** A refused record leaves what the other targets sent where it is. *)
Lemma abandon_records f k O t i M :
  records_ok M → m_fibers M !! f = Some O → oc_targets O !! k = Some t → as_step (oc_stage O) = Step i →
  records_ok (abandon f k O t M).
Proof.
  intros Hr Hf Hk Hs. assert (Hq : quiet O t (MkTargetLane (tg_state t) Ended)) by by apply settled_quiet.
  unfold abandon. destruct (as_step_cases _ _ Hs) as [E|E]; rewrite E; [|by apply (quiet_records f O k t)].
  apply records_release, (records_put_same f O); try done.
  - destruct (ro_row _ Hr f O Hf) as (row & Hrow & Hrun & Hsh). exists row. split; [done|]. split; [done|].
    intros l u Hl Hu. apply (quiet_shows O k t _ row Hk Hq Hsh l u Hl). by apply (abandoned_sent i k O t u).
  - destruct (quiet_writes O k t _ Hk Hq (ro_writes _ Hr f O Hf)) as [W1 W2 W3]. constructor; [done| |done].
    intros l u kind s n record Hl Hp. destruct (W2 l u kind s n record Hl Hp) as [Hid Hsh]. split; [done|].
    intros m v Hm [Hv|Hv]; apply (Hsh m v Hm); [left; by apply (abandoned_sent i k O t v)|by right].
Qed.

Lemma target_event_records ev f k O t M M' calls :
  records_ok M → manager_ok M → m_fibers M !! f = Some O → oc_targets O !! k = Some t →
  target_event relayId platformTargetId ev f k O t M = Some (M', calls) → records_ok M'.
Proof.
  intros Hr Hm Hf Hk H. pose proof (mo_occ _ Hm f O Hf) as Ho.
  assert (Ht : target_ok O t) by (destruct Ho as [_ HF]; by apply (Forall_lookup_1 _ _ _ _ HF Hk)).
  destruct ev; unfold target_event in H; destruct (as_step (oc_stage O)) as [|i| | |] eqn:Hs; try done; destruct (tg_phase t) eqn:Hph; try done.
  - destruct (may_begin _ _); simplify_eq. apply (quiet_records f O k t); try done. apply settled_quiet; try done; cbn; by case_decide.
  - injection H as <- <-. apply (quiet_records f O k t); try done. apply settled_quiet; try done. cbn.
    by destruct (if decide _ then _ else _) as [[]|].
  - destruct (current_action O) as [action|] eqn:Hc; [|done]. destruct (_ || _); [done|].
    pose proof (begin_step_quiet O i action paused now t Hs Hc) as Hq.
    destruct (begin_step _ _ _ _ _ _ _) as [t' calls']. simplify_eq. by apply (quiet_records f O k t).
  - destruct (existsb _ _) eqn:Hnw; [done|]. destruct (run_ok _); simplify_eq; [by eapply write_records|by eapply abandon_records].
  - destruct ok; simplify_eq; [by eapply landed_records|]. apply (quiet_records f O k t); try done.
    by apply settled_quiet; destruct retries, kind.
  - destruct (current_action O) as [action|] eqn:Hc; [|done].
    pose proof (resume_step_quiet O action startedAt landed now t Hc Hph) as Hq.
    destruct (resume_step _ _ _ _ _ _ _ _) as [t' calls']. simplify_eq. by apply (quiet_records f O k t).
  - destruct (current_action O) as [action|] eqn:Hc; [|done].
    assert (Hi : tg_phase t ≠ Idle) by congruence. destruct (busy_step O i t Hs Ht Hi ltac:(congruence)) as (action' & Ha' & Hw & Hp).
    pose proof (current_at_step _ _ _ Hs Hc). assert (action' = action) as -> by congruence.
    unfold phase_ok in Hp. rewrite Hph in Hp. destruct Hp as (_ & _ & Hcont & _).
    match type of H with (let '(_, _) := start_execution ?x ?e ?s in _) = _ =>
      assert (Hq : quiet O t (start_execution x e s).1) end.
    { apply start_execution_quiet; [done|]. intros [(a & Ha & Hin) _]. cbn in Hin. congruence. }
    destruct (start_execution _ _ _) as [t' calls']. simplify_eq. by apply (quiet_records f O k t).
  - destruct (outcome_of answer); simplify_eq. apply (quiet_records f O k t); try done. by apply settled_quiet.
  - destruct (current_action O) as [action|] eqn:Hc; [|done]. injection H as <- <-. apply (quiet_records f O k t); try done.
    apply settle_step_quiet.
Qed.

(** ** Events of an occurrence and of the manager *)

Lemma resting_records f O O' M :
  records_ok M → m_fibers M !! f = Some O → same_occurrence O O' → (∀ t, t ∈ oc_targets O' → tg_phase t = Idle) →
  (∀ record, oc_stage O' = Completing record → run_id record = key_of O') → records_ok (put_occurrence f O' M).
Proof.
  intros Hr Hf Hs Hi Hc. apply (records_put_same f O); try done.
  - destruct (ro_row _ Hr f O Hf) as (row & Hrow & Hst & _). exists row. destruct Hs as [Ed Es].
    assert (key_of O' = key_of O) as -> by (unfold key_of; by rewrite Ed, Es). split; [done|]. split; [done|]. by apply rest_sent.
  - apply nothing_written; [|done]. intros t Hin. by rewrite Hi.
Qed.

Lemma stage_rest O t n : occ_ok O → t ∈ oc_targets O →
  (oc_stage O = Step n ∧ (∀ a, p_actions (oc_definition O) !! n = Some a → is_wait a = true)) ∨ (∃ at_, oc_stage O = Waiting n at_) →
  tg_phase t = Idle.
Proof.
  intros [_ HF] Hin Hs. rewrite Forall_forall in HF. destruct (HF t Hin) as (_ & _ & _ & Hp). unfold stage_phase in Hp.
  destruct Hs as [[Hs Ha]|[at_ Hs]]; rewrite Hs in Hp; [|by destruct Hp].
  destruct (p_actions (oc_definition O) !! n) as [a|]; [|by destruct Hp]. rewrite (Ha a eq_refl) in Hp. by destruct Hp.
Qed.

Lemma occurrence_event_records ev f O M M' calls :
  records_ok M → manager_ok M → m_fibers M !! f = Some O → occurrence_event relayId ev f O M = Some (M', calls) → records_ok M'.
Proof.
  intros Hr Hm Hf H. pose proof (mo_occ _ Hm f O Hf) as Ho. unfold occurrence_event in H.
  destruct ev; destruct (oc_stage O) as [|i|i st|record|] eqn:Hs; try done.
  - destruct (all_ended O); simplify_eq. apply (resting_records f O); try done. cbn. unfold all_idle.
    by intros t (u & -> & _)%list_elem_of_fmap.
  - destruct (current_action O); [|done]. destruct (_ || _); simplify_eq. apply (resting_records f O); try done. cbn.
    unfold all_idle. by intros t (u & -> & _)%list_elem_of_fmap.
  - destruct (current_action O) as [action|] eqn:Hc; [|done]. pose proof (current_at_step O i action ltac:(by rewrite Hs) Hc) as Ha.
    destruct (is_wait action) eqn:Hw; [|done]. cbn [negb] in H.
    assert (Hrest : ∀ t, t ∈ oc_targets O → tg_phase t = Idle).
    { intros t Hin. apply (stage_rest O t i Ho Hin). left. split; [done|]. intros a Ha'. congruence. }
    destruct (_ || _); simplify_eq; by apply (resting_records f O).
  - destruct (current_action O) as [action|] eqn:Hc; [|done].
    assert (Hrest : ∀ t, t ∈ oc_targets O → tg_phase t = Idle) by (intros t Hin; apply (stage_rest O t i Ho Hin); eauto).
    destruct answer; simplify_eq; by apply (resting_records f O).
  - destruct (current_action O) as [action|] eqn:Hc; [done|].
    assert (Hrest : ∀ t, t ∈ oc_targets O → tg_phase t = Idle).
    { intros t Hin. apply (stage_rest O t i Ho Hin). left. split; [done|]. intros a Ha. unfold current_action in Hc.
      rewrite Hs in Hc. congruence. }
    destruct (run_ok _); simplify_eq; [|by apply drop_records]. apply records_release. apply (resting_records f O); try done.
    cbn. by intros record [= <-].
  - destruct ok; [|by simplify_eq]. destruct (completeRun record (m_store M)) as [T|] eqn:E; simplify_eq; [|done].
    destruct Ho as [Hst _]. apply (records_drop f M); try done; cbn.
    + intros id row d Hrow. rewrite (completeRun_schedules _ _ _ E) in Hrow. by apply (ro_named _ Hr id row d).
    + intros id row Hne Hrow Hrun. apply (completeRun_other _ _ _ _ _ E); try done. rewrite (wo_complete _ (ro_writes _ Hr f O Hf) _ Hs).
      by apply Hne.
Qed.

(** Storage of its own for each launched occurrence. *)
Lemma launch_claimed_records intent now os : ∀ M,
  records_ok M → manager_ok M → NoDup ((λ o, run_id (o_run o)) <$> os) →
  (∀ o, o ∈ os → run_status (o_run o) = RunRunning →
    run_id (o_run o) = run_key relayId (p_id (o_definition o)) (o_scheduledAt o) ∧
    (∃ row, runs (m_store M) !! run_id (o_run o) = Some row ∧ r_status row = RunRunning) ∧
    ∀ f O, m_fibers M !! f = Some O → key_of O ≠ run_id (o_run o)) →
  records_ok (fold_left (launch_claimed intent now) os M).
Proof.
  induction os as [|o os IH]; intros M Hr Hm Hn Ho; cbn [fold_left]; [done|]. rewrite fmap_cons in Hn.
  apply NoDup_cons in Hn as [Hnew Hn]. unfold launch_claimed at 2. case_decide as Hs.
  - destruct (Ho o ltac:(by left) Hs) as (Hid & (row & Hrow & Hrun) & Hfree).
    apply IH; [|by apply launch_ok|done|].
    + apply (launch_records _ _ _ _ _ row); try done; [by rewrite <-Hid|]. intros f O HO. rewrite <-Hid. by eapply Hfree.
    + intros o' Hin Hs'. destruct (Ho o' ltac:(by right) Hs') as (Hid' & Hrow' & Hfree'). split; [done|].
      unfold launchOccurrence. destruct (reserve_targets _ _ _ _) as [ts active]. split; [done|]. cbn.
      intros f O [[<- <-]|[_ HO]]%lookup_insert_Some; [|by eapply Hfree']. intros E.
      change (run_key relayId (p_id (o_definition o)) (o_scheduledAt o) = run_id (o_run o')) in E. rewrite <-Hid in E.
      apply Hnew. rewrite E. apply list_elem_of_fmap. by exists o'.
  - apply IH; try done. intros o' Hin. apply Ho. by right.
Qed.

Lemma tick_rounds_records fuel intent now answers : ∀ round M M',
  records_ok M → manager_ok M → tick_rounds relayId nextOccurrence fuel intent now answers round M = Some M' → records_ok M'.
Proof.
  induction fuel as [|fuel IH]; intros round M M' Hr Hm H; [done|]. rewrite tick_rounds_eq in H. cbv zeta in H.
  assert (Hsame : ∀ N N', records_ok N → m_fibers N' = m_fibers N → m_store N' = m_store N → records_ok N').
  { intros N N' HN Hf Hs. apply (records_store N); rewrite ?Hs; try done. apply HN. }
  case_decide; [by simplify_eq|]. destruct (ra_select_fails _); [simplify_eq; by apply (Hsame M)|].
  destruct (claimDue nextOccurrence now (m_bootAt M) relayId _ (ra_fails (answers round)) (ra_prune_fails (answers round)) (m_store M))
    as [claimed hasMore] eqn:Ec.
  pose proof (claimDue_ok nextOccurrence now (m_bootAt M) relayId (scheduleBatchSize - running (m_fibers M)) (ra_fails (answers round))
    (ra_prune_fails (answers round)) (m_store M) (ro_named _ Hr)) as Hc. rewrite Ec in Hc. cbn [fst] in Hc. cbv zeta in Hc.
  destruct Hc as (Hkeep & Hnamed & Hnew & Hnodup).
  assert (Hst : records_ok (set_store (cl_store claimed) M)) by by apply (records_store M).
  assert (Hl : records_ok (fold_left (launch_claimed intent now) (cl_occurrences claimed) (set_store (cl_store claimed) M))).
  { apply launch_claimed_records; [done|by apply (manager_ok_same M)|done|]. intros o Hin Hrun.
    destruct (Hnew o Hin Hrun) as (Hfree & Hrow & Hid). split; [done|]. split.
    - eexists. split; [done|]. cbn. done.
    - intros f O HO E. destruct (ro_row _ Hr f O HO) as (row & Hrow' & _). rewrite E in Hrow'. congruence. }
  assert (Hml : manager_ok (fold_left (launch_claimed intent now) (cl_occurrences claimed) (set_store (cl_store claimed) M)))
    by (apply launch_claimed_ok; by apply (manager_ok_same M)).
  destruct (cl_failed claimed); [simplify_eq; by apply (Hsame _ _ Hl)|].
  destruct hasMore; [|simplify_eq; by apply (Hsame _ _ Hl)].
  eapply IH; [..|exact H]; [by apply (Hsame _ _ Hl)|by apply (manager_ok_same (fold_left (launch_claimed intent now) (cl_occurrences claimed) (set_store (cl_store claimed) M)))].
Qed.

(** No two runs of a Relay have the same identifier, which hashes to 128
    bits: the run that one started by hand would have is not there yet. *)
Definition no_collision (ev : ScheduleEvent) (M : Manager) : Prop :=
  match ev with
  | ERunNow id _ _ now => ∀ row, schedules (m_store M) !! id = Some row →
      runs (m_store M) !! run_key relayId id (now_time now id row (m_store M)) = None
  | _ => True
  end.

Lemma manager_event_records ev M M' calls :
  records_ok M → manager_ok M → no_collision ev M →
  manager_event relayId platformTargetId nextOccurrence ev M = Some (M', calls) → records_ok M'.
Proof.
  intros Hr Hm Hc H.
  assert (Hsame : ∀ N N', records_ok N → m_fibers N' = m_fibers N → m_store N' = m_store N → records_ok N').
  { intros N N' HN Hf Hs. apply (records_store N); rewrite ?Hs; try done. apply HN. }
  destruct ev; cbn [manager_event] in H;
    try (unfold on_target in H; destruct (m_fibers M !! f) as [O|] eqn:Hf; [|done]; cbn [mbind option_bind] in H;
         destruct (oc_targets O !! k) as [t|] eqn:Hk; [|done]; cbn [mbind option_bind] in H; by eapply target_event_records);
    try (unfold on_occurrence in H; destruct (m_fibers M !! f) as [O|] eqn:Hf; [|done]; cbn [mbind option_bind] in H;
         by eapply occurrence_event_records).
  - simplify_eq. unfold apply_event. destruct (if p_enabled _ then _ else _) as [next|]; [|done].
    destruct (apply_frame definition next (m_store M) (ro_named _ Hr)) as [Hn Hruns].
    apply (records_store M); try done. by apply keeps_running_same.
  - simplify_eq. destruct (remove_frame scheduleId revision (m_store M) (ro_named _ Hr)) as [Hn Hruns].
    apply (records_store M); try done. by apply keeps_running_same.
  - simplify_eq. unfold runNow_event. destruct (Nat.leb _ _); [done|].
    destruct (runNow scheduleId revision now relayId (m_store M)) as [[T answer]|] eqn:E; [|done].
    destruct (runNow_ok _ _ _ _ _ _ _ (ro_named _ Hr) E Hc) as (Hn & Hkeep & Hnew).
    assert (HT : records_ok (set_store T M)) by by apply (records_store M).
    destruct answer as [| | |o]; try done. destruct (Hnew o eq_refl) as (Hfree & Hrow & Hrun & Hid).
    apply (launch_records _ _ _ _ _ (run_row (o_run o))); try done; [by apply (manager_ok_same M)|by rewrite <-Hrow, Hid|].
    intros f O HO E'. destruct (ro_row _ Hr f O HO) as (row & Hrow' & _). unfold run_key in E'. rewrite E', <-Hid in Hrow'. congruence.
  - destruct (tick _ _ _ _ _ _ _) as [M1|] eqn:E; [|done]. cbn in H. simplify_eq. unfold tick in E.
    repeat (case_match; simplify_eq; try done); try (by apply (Hsame M));
      (eapply tick_rounds_records; [..|done]; [by apply (Hsame M)|by apply (manager_ok_same M)]).
Qed.

(** The states a Relay reaches from its start on. *)
Inductive reached : Manager → Prop :=
  | reached_start now legacy S : named S → reached (make now legacy S)
  | reached_event ev M M' calls : reached M → no_collision ev M →
      manager_event relayId platformTargetId nextOccurrence ev M = Some (M', calls) → reached M'.

Lemma reached_ok M : reached M → manager_ok M ∧ records_ok M.
Proof.
  induction 1 as [now legacy S Hn|ev M M' calls _ [Hm Hr] Hc H].
  - split; [apply make_ok|]. constructor; cbn; try done.
    assert (Hn' : named (match legacy with Some (old, deleted, records) => importLegacy old deleted records S | None => S end)).
    { destruct legacy as [[[old deleted] records]|]; [by apply import_named|done]. }
    intros id row d. cbn. apply Hn'.
  - split; [by eapply manager_event_ok|by eapply manager_event_records].
Qed.
End Records.
