(* ===== verification/ScheduleFinal.v ===== *)
(** * Schedules: the properties

    What the invariants of [ScheduleInv], [ScheduleFacts] and
    [ScheduleRecords] come to: occurrences never run on the same target at
    once, while none was abandoned; a command that may run is on record; only what was allowed is
    asked for; each step leaves its attempt; and a tick ends. *)
From S2P Require Import Prelude Lanes.
From S2P Require Import Bytes Utf8 Nbt Decimals Snbt ScheduleContract ScheduleState ScheduleStateFacts.
From S2P Require Import Schedules ScheduleManager ScheduleInv ScheduleFacts ScheduleRecords.
Open Scope Z_scope.

(** ** One occurrence to a target *)

Definition at_work (t : Target) : bool := negb (is_idle (tg_phase t)) && negb (is_ended (tg_phase t)).

Lemma held_keys_lookup ts : ∀ k t key, ts !! k = Some t → ts_activeKey (tg_state t) = Some key → key ∈ held_keys ts.
Proof.
  intros k t key Hk Ha. unfold held_keys. apply list_elem_of_omap. exists t. split; [by eapply list_elem_of_lookup_2|done].
Qed.

Lemma held_keys_index ts : ∀ k l t u key, NoDup (held_keys ts) → ts !! k = Some t → ts !! l = Some u →
  ts_activeKey (tg_state t) = Some key → ts_activeKey (tg_state u) = Some key → k = l.
Proof.
  induction ts as [|v ts IH]; intros k l t u key Hn Hk Hl Ht Hu; [done|].
  assert (Hnext : NoDup (held_keys ts)) by (unfold held_keys in *; cbn in Hn; destruct (ts_activeKey (tg_state v)); [by apply NoDup_cons in Hn as [_ Hn]|done]).
  destruct k as [|k], l as [|l]; cbn in Hk, Hl; simplify_eq; [done|..].
  - unfold held_keys in Hn. cbn in Hn. rewrite Ht in Hn. apply NoDup_cons in Hn as [Hno _]. destruct Hno. by eapply held_keys_lookup.
  - unfold held_keys in Hn. cbn in Hn. rewrite Hu in Hn. apply NoDup_cons in Hn as [Hno _]. destruct Hno. by eapply held_keys_lookup.
  - f_equal. by eapply IH.
Qed.

Lemma at_work_held O k t :
  occ_ok O → oc_targets O !! k = Some t → at_work t = true → is_abandoned O = false →
  ts_activeKey (tg_state t) = Some (active_key (ts_target (tg_state t))) ∧ active_key (ts_target (tg_state t)) ∈ holding O.
Proof.
  intros [_ HF] Hk Hw Hab. destruct (Forall_lookup_1 _ _ _ _ HF Hk) as (Hkey & Hn & _ & Hp). unfold at_work in Hw.
  assert (E : ts_activeKey (tg_state t) = Some (active_key (ts_target (tg_state t)))).
  { destruct Hkey as [Hkey|Hkey]; [|done]. destruct (Hn Hkey) as [E|E]; by rewrite E in Hw. }
  split; [done|]. rewrite held_holding; [by eapply held_keys_lookup|]. unfold released. rewrite Hab, orb_false_r.
  unfold is_completing, stage_phase in *. destruct (oc_stage O); try done. destruct Hp as [Ei _]. by rewrite Ei in Hw.
Qed.

(** C36: Two steps at work on the same game server, App or database are one and the same: no occurrence interleaves with another on a target, whatever starts, ends or is claimed in between. This is of occurrences that are not over: one whose record the schema refused ends at once and lets its targets go, while what its other targets were doing in that step goes on, and that is where two can meet. *)
Theorem occurrences_never_interleave relayId platformTargetId nextOccurrence evs now legacy S M f g O P k l t u :
  manager_run relayId platformTargetId nextOccurrence evs (make now legacy S) = Some M →
  m_fibers M !! f = Some O → m_fibers M !! g = Some P → oc_targets O !! k = Some t → oc_targets P !! l = Some u →
  is_abandoned O = false → is_abandoned P = false →
  at_work t = true → at_work u = true → active_key (ts_target (tg_state t)) = active_key (ts_target (tg_state u)) →
  f = g ∧ k = l.
Proof.
  intros Hrun Hf Hg Hk Hl HaO HaP Ht Hu E.
  pose proof (manager_run_ok relayId platformTargetId nextOccurrence evs _ _ (make_ok now legacy S) Hrun) as Hm.
  destruct (at_work_held O k t (mo_occ _ Hm _ _ Hf) Hk Ht HaO) as [Kt HO], (at_work_held P l u (mo_occ _ Hm _ _ Hg) Hl Hu HaP) as [Ku HP].
  assert (f = g) as -> by (apply (mo_disjoint _ Hm f g O P (active_key (ts_target (tg_state t)))); [done|done|done|by rewrite E]).
  assert (P = O) as -> by congruence. split; [done|].
  apply (held_keys_index (oc_targets O) k l t u (active_key (ts_target (tg_state t)))); try done; [|congruence].
  pose proof (mo_nodup _ Hm g O Hg) as Hn. destruct (released O) eqn:Er; [|by rewrite <-(held_holding O Er)].
  exfalso. unfold holding, released, is_completing in *. rewrite HaO, orb_false_r in Er. destruct (oc_stage O); try done.
  by apply elem_of_nil in HO.
Qed.

(** ** Commands on record *)

(** C35: While a command may be running in a container, storage says so: if the Relay stopped now and started again, the interrupted run would end, for that target, with the command as unknown. *)
Theorem command_never_unseen relayId platformTargetId nextOccurrence M f O k t action startedAt now :
  reached relayId platformTargetId nextOccurrence M → m_fibers M !! f = Some O → oc_targets O !! k = Some t →
  current_action O = Some action → tg_phase t = Executing startedAt → in_container action (ts_target (tg_state t)) = true →
  ∃ row tr a, runs (m_store (make now None (m_store M))) !! key_of relayId O = Some row ∧ r_status row = RunInterrupted ∧
    r_target_runs row !! k = Some tr ∧ tr_target tr = ts_target (tg_state t) ∧ last (tr_attempts tr) = Some a ∧
    a_actionId a = action_id action ∧ a_status a = AttemptUnknown.
Proof.
  intros Hr Hf Hk Hc Hp Hin. apply reached_ok in Hr as [Hm Hr].
  destruct (ro_row _ _ Hr f O Hf) as (row & Hrow & Hs & Hsh).
  destruct (Hsh k t Hk) as (tr & a & Htr & Htt & Ha & Hl).
  { split; [eauto|]. right. eauto. }
  destruct (mo_occ _ Hm f O Hf) as [_ HF]. pose proof (Forall_lookup_1 _ _ _ _ HF Hk) as Ht.
  assert (Hst : ∃ i, as_step (oc_stage O) = Step i).
  { destruct Ht as (_ & _ & _ & Hph). unfold stage_phase in Hph. destruct (oc_stage O) as [|i|i s|record|i]; [|by exists i| | |by exists i].
    - unfold current_action in Hc. destruct Hph as [[E|[E|E]] _]; congruence.
    - destruct Hph as [E _]; congruence.
    - destruct Hph as [E _]; congruence. }
  destruct Hst as [i Hs']. destruct (busy_step O i t Hs' Ht ltac:(congruence) ltac:(congruence)) as (action' & Ha' & _ & Hphase).
  pose proof (current_at_step _ _ _ Hs' Hc). assert (action' = action) as -> by congruence.
  unfold phase_ok in Hphase. rewrite Hp in Hphase. destruct Hphase as (_ & _ & Hfl). rewrite Hin in Hfl.
  destruct Hfl as (b & Hb & Hid & Hst). rewrite Ha in Hb. injection Hb as ->.
  exists (MkRunRow (r_schedule_id row) (r_revision row) (r_scheduled_at row) (r_started_at row) (Some now)
            RunInterrupted (r_sequence_attempts row) (r_target_runs row)), tr, b.
  cbn [make m_store]. rewrite interruptRuns_lookup, Hrow. cbn. rewrite decide_True by done. done.
Qed.

(** ** Only what was allowed is asked for *)

(** A call a step makes of a target. *)
Definition call_for (action : RelayScheduleAction) (s : TargetExecutionState) (call : Call) : Prop :=
  let target := ts_target s in
  match call, action with
  | SendConsoleCommand id command, ConsoleCommand _ command' _ _ _ => t_kind target = TInstance ∧ id = t_id target ∧ command = command'
  | RunInDatabase id command, ConsoleCommand _ command' _ _ _ => t_kind target = TDatabase ∧ id = t_id target ∧ command = command'
  | RunInApp id service command, ConsoleCommand _ command' _ services _ =>
      t_kind target = TApp ∧ id = t_id target ∧ command = command' ∧ service_of services target = Some service
  | RunPower kind id step intent, PowerStepAction step' _ _ _ =>
      kind = t_kind target ∧ kind ≠ TRelay ∧ id = t_id target ∧ step = step' ∧ intent = ts_powerIntent s
  | ListAppOwnedVolumes id, Backup _ _ _ _ _ _ _ => t_kind target = TApp ∧ id = t_id target
  | EnqueueBackup input, Backup _ _ executions _ mode _ _ =>
      if decide (t_kind target = TApp) then
        ∃ x, x ∈ appBackupExecutions executions target ∧ b_targetId input = x_targetId x
      else b_mode input = mode ∧ (t_kind target = TRelay ∨ b_targetId input = t_id target)
  | _, _ => False
  end.

Lemma one_backup_calls relayId platformTargetId schedule destination executions id name mode target scheduledAt calls call :
  one_backup relayId platformTargetId schedule destination executions id name mode target scheduledAt = Asks calls → call ∈ calls →
  ∃ input, call = EnqueueBackup input ∧ b_mode input = mode ∧ (t_kind target = TRelay ∨ b_targetId input = t_id target).
Proof.
  unfold one_backup. intros H Hin.
  destruct (match backupExecution executions target ≫= x_destination with Some d => Some d | None => _ end) as [deployed|]; [|done].
  destruct (backup_name _ _ _ _ _ _) as [text|]; [|done]. injection H as <-. apply list_elem_of_singleton in Hin as ->.
  eexists. split; [done|]. cbn. split; [done|]. destruct (decide (t_kind target = TRelay)) as [E|E]; [by left|right].
  rewrite decide_False; [done|]. by destruct (t_kind target).
Qed.

Lemma execute_calls relayId platformTargetId schedule action s scheduledAt calls call :
  executeAction relayId platformTargetId schedule action (ts_target s) scheduledAt (ts_powerIntent s) = Asks calls → call ∈ calls →
  call_for action s call.
Proof.
  unfold executeAction. intros H Hin. destruct action as [a command id services keys|stopped destination executions id mode name keys|step a id keys|].
  - destruct (t_kind (ts_target s)) eqn:Ek; [| |destruct (service_of services (ts_target s)) eqn:Es|]; simplify_eq;
      apply list_elem_of_singleton in Hin as ->; done.
  - case_decide as Ek; [by destruct (_ || _)|]. apply (one_backup_calls _ _ _ _ _ _ _ _ _ _ _ _ H) in Hin as (input & -> & Hm & Ht).
    cbn. by rewrite decide_False.
  - case_decide as Ek; simplify_eq. apply list_elem_of_singleton in Hin as ->. done.
  - done.
Qed.

Lemma app_backup_target relayId schedule stopped destination id name batchId mine target scheduledAt x input :
  app_backup_input relayId schedule stopped destination id name batchId mine target scheduledAt x = Some input → b_targetId input = x_targetId x.
Proof.
  unfold app_backup_input. destruct (x_destination x); [|done]. cbn [mbind option_bind].
  destruct (backup_name _ _ _ _ _ _); [|done]. cbn [mbind option_bind]. by intros [= <-].
Qed.

Lemma backup_app_calls relayId schedule action s scheduledAt owned calls call :
  t_kind (ts_target s) = TApp → backUpApp relayId schedule action (ts_target s) scheduledAt owned = Asks calls → call ∈ calls →
  call_for action s call.
Proof.
  intros Ek H Hin. unfold backUpApp in H. destruct action as [| stopped destination executions id mode name keys| |]; try done.
  destruct (_ || _); [done|]. destruct (mapM _ _) as [inputs|] eqn:Em; [|done]. injection H as <-.
  apply list_elem_of_fmap in Hin as (input & -> & Hin). cbn. rewrite decide_True by done.
  apply mapM_Some in Em. apply list_elem_of_lookup_1 in Hin as [j Hj].
  destruct (Forall2_lookup_r _ _ _ _ _ Em Hj) as (x & Hx & Hxi). exists x. split; [by eapply list_elem_of_lookup_2|].
  by eapply app_backup_target.
Qed.

Lemma start_execution_calls startedAt execution s calls call t' :
  start_execution startedAt execution s = (t', calls) → call ∈ calls →
  execution = Asks calls ∨ ∃ appId, execution = AsksOwned appId ∧ call = ListAppOwnedVolumes appId.
Proof.
  destruct execution; cbn; intros [= <- <-] Hin; try (by apply elem_of_nil in Hin); [by left|right].
  apply list_elem_of_singleton in Hin as ->. eauto.
Qed.

Lemma execute_event_calls relayId platformTargetId O action startedAt s calls call t' :
  execute relayId platformTargetId O action startedAt s = (t', calls) → call ∈ calls → call_for action s call.
Proof.
  intros H Hin. destruct (start_execution_calls _ _ _ _ _ _ H Hin) as [E|(appId & E & ->)]; [by eapply execute_calls|].
  unfold executeAction in E. destruct action; try done.
  - destruct (t_kind (ts_target s)); try done. by destruct (service_of _ _).
  - case_decide as Ek; [|unfold one_backup in E; by repeat case_match]. destruct (_ || _); [done|]. injection E as <-. done.
  - by case_decide.
Qed.

(** What was checked when a step began. *)
Definition step_allowed (O : Occurrence) (action : RelayScheduleAction) (s : TargetExecutionState) : Prop :=
  holds_text (oc_sequenceFailure O) = false ∧
  (p_continueOnFailure (oc_definition O) = false → holds_text (ts_failure s) = false) ∧ ts_missing s = false ∧
  scheduleActionAppliesToTarget action (ts_target s) = true ∧ refused_step action (ts_target s) = None ∧
  (scheduleActionNeedsNamedTarget action (ts_target s) = true →
    action_authorized action = true ∧ ∃ keys, action_targetKeys action = Some keys ∧ scheduleTargetKey (ts_target s) ∈ keys) ∧
  ts_activeKey s = Some (active_key (ts_target s)).

Lemma applies_named action target :
  is_wait action = false → scheduleActionAppliesToTarget action target = true → scheduleActionNeedsNamedTarget action target = true →
  action_authorized action = true ∧ ∃ keys, action_targetKeys action = Some keys ∧ scheduleTargetKey target ∈ keys.
Proof.
  intros Hw Ha Hn. unfold scheduleActionAppliesToTarget in Ha. rewrite Hw, Hn in Ha.
  destruct (scheduleActionSupportsTarget action target); [|done]. cbn [negb] in Ha. apply andb_true_iff in Ha as [H1 H2].
  split; [done|]. destruct (action_targetKeys action) as [keys|]; [|done]. exists keys. split; [done|]. by apply bool_decide_eq_true in H2.
Qed.

Lemma allowed_step O action t :
  is_wait action = false → target_ok O t → allowed O action (tg_state t) → step_allowed O action (tg_state t).
Proof.
  intros Hw (Hk & _) Ha. destruct (allowed_goes_on _ _ _ Ha) as (H1 & H2 & H3 & H4 & H5). destruct Ha as [_ Hn].
  split; [done|]. split; [done|]. split; [done|]. split; [done|]. split; [done|]. split; [by apply applies_named|].
  by destruct Hk.
Qed.

Lemma target_event_calls relayId platformTargetId ev f k O t M M' calls call :
  occ_ok O → oc_targets O !! k = Some t → target_event relayId platformTargetId ev f k O t M = Some (M', calls) → call ∈ calls →
  ∃ action, current_action O = Some action ∧ step_allowed O action (tg_state t) ∧ call_for action (tg_state t) call ∧
    (in_container action (ts_target (tg_state t)) = true → ∃ startedAt, tg_phase t = RecordAnswered startedAt true).
Proof.
  intros [_ HF] Hk H Hin. pose proof (Forall_lookup_1 _ _ _ _ HF Hk) as Ht.
  destruct ev; unfold target_event in H; destruct (as_step (oc_stage O)) as [|i| | |] eqn:Hs; try done; destruct (tg_phase t) eqn:Hph; try done;
    try (repeat case_match; simplify_eq; by apply elem_of_nil in Hin).
  - destruct (current_action O) as [action|] eqn:Hc; [|done]. destruct (is_wait action) eqn:Hw; [done|].
    destruct (is_abandoned O); [done|]. destruct (may_begin _ _); [|done]. cbn [negb orb] in H. unfold begin_step in H. case_decide as Hkey; [by simplify_eq; apply elem_of_nil in Hin|].
    destruct (step_refusal O action paused (tg_state t)) as [[e st]|] eqn:Er; [by simplify_eq; apply elem_of_nil in Hin|].
    destruct (in_container action _) eqn:Econ; [by simplify_eq; apply elem_of_nil in Hin|].
    destruct (execute _ _ _ _ _ _) as [t' calls'] eqn:Ee. simplify_eq. exists action. split; [done|]. split; [|split; [by eapply execute_event_calls|by rewrite Econ]].
    apply allowed_step; [done|done|]. split; [by eapply step_refusal_unpaused|done].
  - destruct (current_action O) as [action|] eqn:Hc; [|done]. pose proof (current_at_step _ _ _ Hs Hc).
    destruct (busy_step O i t Hs Ht ltac:(congruence) ltac:(congruence)) as (action' & Ha' & Hw & Hp). assert (action' = action) as -> by congruence.
    unfold phase_ok in Hp. rewrite Hph in Hp. destruct Hp as (_ & Hal & Hcont & _).
    unfold resume_step in H. destruct landed; [|by simplify_eq; apply elem_of_nil in Hin].
    destruct (execute _ _ _ _ _ _) as [t' calls'] eqn:Ee. simplify_eq. exists action. split; [done|].
    split; [by apply allowed_step|]. split; [by eapply execute_event_calls|eauto].
  - destruct (current_action O) as [action|] eqn:Hc; [|done]. pose proof (current_at_step _ _ _ Hs Hc).
    destruct (busy_step O i t Hs Ht ltac:(congruence) ltac:(congruence)) as (action' & Ha' & Hw & Hp). assert (action' = action) as -> by congruence.
    unfold phase_ok in Hp. rewrite Hph in Hp. destruct Hp as (_ & Hal & Hcont & Happ & _).
    destruct (start_execution _ _ _) as [t' calls'] eqn:Ee. simplify_eq. exists action. split; [done|].
    split; [by apply allowed_step|]. split; [|by rewrite Hcont].
    destruct (start_execution_calls _ _ _ _ _ _ Ee Hin) as [E|(appId & E & ->)]; destruct answer as [owned|message]; try done.
    + by eapply backup_app_calls.
    + unfold backUpApp in E. by repeat case_match.
Qed.

Lemma occurrence_event_calls relayId ev f O M M' calls : occurrence_event relayId ev f O M = Some (M', calls) → calls = [].
Proof. unfold occurrence_event. intros H. by repeat (case_match; simplify_eq). Qed.

(** C37: Whatever a schedule asks of a target passed the checks when the step began: nothing before it failed (unless the schedule goes on), the target is there and held, the step applies to it and Hearth did not refuse it; a command or kill reaches a database or App only where it was named and checked there, and a command goes to a container only once that is on record. *)
Theorem calls_are_allowed relayId platformTargetId nextOccurrence evs now legacy S M ev M' calls call :
  manager_run relayId platformTargetId nextOccurrence evs (make now legacy S) = Some M →
  manager_event relayId platformTargetId nextOccurrence ev M = Some (M', calls) → call ∈ calls →
  ∃ f O k t action, m_fibers M !! f = Some O ∧ oc_targets O !! k = Some t ∧ current_action O = Some action ∧
    step_allowed O action (tg_state t) ∧ call_for action (tg_state t) call ∧
    (in_container action (ts_target (tg_state t)) = true → ∃ startedAt, tg_phase t = RecordAnswered startedAt true).
Proof.
  intros Hrun H Hin. pose proof (manager_run_ok relayId platformTargetId nextOccurrence evs _ _ (make_ok now legacy S) Hrun) as Hm.
  destruct ev; cbn [manager_event] in H; try (by simplify_eq; apply elem_of_nil in Hin);
    try (unfold on_target in H; destruct (m_fibers M !! f) as [O|] eqn:Hf; [|done]; cbn [mbind option_bind] in H;
         destruct (oc_targets O !! k) as [t|] eqn:Hk; [|done]; cbn [mbind option_bind] in H; exists f, O, k, t;
         destruct (target_event_calls _ _ _ _ _ _ _ _ _ _ _ (mo_occ _ Hm _ _ Hf) Hk H Hin) as (action & ?); eauto 10);
    try (unfold on_occurrence in H; destruct (m_fibers M !! f) as [O|] eqn:Hf; [|done]; cbn [mbind option_bind] in H;
         apply occurrence_event_calls in H as ->; by apply elem_of_nil in Hin).
  destruct (tick _ _ _ _ _ _ _); [|done]. cbn in H. simplify_eq. by apply elem_of_nil in Hin.
Qed.

(** ** Every step leaves its attempt *)

Definition failed_step (tr : ScheduleTargetRun) : bool := existsb (λ a, failing (a_status a)) (tr_attempts tr).

(** C38: When an occurrence is over, its record has one attempt for each wait and, for each target it held, one for each other step, in their order; a target none of whose attempts failed is the only one that can be recorded as anything but failed, and without going on after failures every attempt after a failed one was not run. *)
Theorem every_step_accounted relayId platformTargetId nextOccurrence evs now legacy S M f O record :
  manager_run relayId platformTargetId nextOccurrence evs (make now legacy S) = Some M →
  m_fibers M !! f = Some O → oc_stage O = Completing record →
  let actions := p_actions (oc_definition O) in
  a_actionId <$> run_sequenceAttempts record = sequence_steps actions ∧
  length (run_targetRuns record) = length (oc_targets O) ∧
  ∀ tr, tr ∈ run_targetRuns record →
    (tr_status tr = SkippedOverlap ∧ tr_attempts tr = []) ∨
    (a_actionId <$> tr_attempts tr = target_steps actions ∧ (failed_step tr = true → tr_status tr = TargetFailed) ∧
     (p_continueOnFailure (oc_definition O) = false → stops_after (tr_attempts tr))).
Proof.
  intros Hrun Hf Hs actions. pose proof (manager_run_ok relayId platformTargetId nextOccurrence evs _ _ (make_ok now legacy S) Hrun) as Hm.
  destruct (mo_occ _ Hm _ _ Hf) as [Hst HF]. unfold stage_ok in Hst. rewrite Hs in Hst. destruct Hst as (Hseq & Hsa & at_ & Htr).
  rewrite firstn_all in Hseq. split; [by rewrite Hsa|]. split; [by rewrite Htr, length_fmap|].
  intros tr Hin. rewrite Htr in Hin. apply list_elem_of_fmap in Hin as (t & -> & Hin). rewrite Forall_forall in HF.
  destruct (HF t Hin) as (_ & _ & [Hk1 Hk2] & Hp). unfold stage_phase in Hp. rewrite Hs in Hp. destruct Hp as (_ & Hat & Hin').
  unfold attempted in Hat. rewrite firstn_all in Hat. unfold targetRun, failed_step. cbn [tr_status tr_attempts]. rewrite Hin', app_nil_r.
  destruct (decide (ts_activeKey (tg_state t) = None)) as [E|E].
  - left. split; [done|]. by destruct (ts_attempts (tg_state t)).
  - right. split; [done|]. split; [|done]. intros (a & Ha & Hfa)%existsb_elem. rewrite decide_False by (by intros [? ?]).
    by rewrite (Hk1 a Ha Hfa).
Qed.

(** ** A tick ends *)

(** C40: A tick always ends: as the parser's next occurrence is after the time it is asked for, every round leaves fewer schedules due, so there are no more rounds than schedules. *)
Theorem tick_ends relayId nextOccurrence intent now read_fails answers M :
  (∀ cron time next, nextOccurrence cron time = Some next → time < next) →
  is_Some (tick relayId nextOccurrence intent now read_fails answers M).
Proof.
  intros Hnext. assert (Hrounds : ∀ fuel round N, (size (due_ids now (m_store N)) < fuel)%nat →
            is_Some (tick_rounds relayId nextOccurrence fuel intent now answers round N)).
  { induction fuel as [|fuel IH]; intros round N Hlt; [lia|]. rewrite tick_rounds_eq. cbv zeta.
    case_decide as Ha; [done|]. destruct (ra_select_fails _); [done|].
    pose proof (claimDue_due nextOccurrence now (m_bootAt N) relayId Hnext _ (ra_fails (answers round)) (ra_prune_fails (answers round))
      (m_store N) Ha) as Hd.
    destruct (claimDue _ _ _ _ _ _ _ _) as [claimed hasMore]. destruct (cl_failed claimed); [done|]. destruct hasMore; [|done].
    apply IH. cbn [set_failures m_store].
    assert (E : ∀ os K, m_store (fold_left (launch_claimed intent now) os K) = m_store K).
    { induction os as [|o os IHo]; intros K; cbn [fold_left]; [done|]. rewrite IHo. unfold launch_claimed. case_decide; [|done].
      unfold launchOccurrence. by destruct (reserve_targets _ _ _ _). }
    rewrite E. cbn. specialize (Hd eq_refl eq_refl). lia. }
  assert (Hfuel : ∀ N, (size (due_ids now (m_store N)) < tick_fuel N)%nat).
  { intros N. unfold tick_fuel, due_ids. rewrite <-(size_dom (schedules (m_store N))).
    enough (size (dom (filter (λ entry : JsString * ScheduleRow, due_row now entry.2 = true) (schedules (m_store N)))) ≤
            size (dom (schedules (m_store N))))%nat by lia.
    apply subseteq_size, subseteq_dom, map_filter_subseteq. }
  assert (Hnow : ∀ next : option Z, is_Some
    match next with
    | Some time => if now <? time then Some (set_failures (m_nextClaimAttemptAt (set_nextRunAt (Some next) M)) 0 (set_nextRunAt (Some next) M))
                   else tick_rounds relayId nextOccurrence (tick_fuel (set_nextRunAt (Some next) M)) intent now answers 0
                          (set_nextRunAt None (set_nextRunAt (Some next) M))
    | None => Some (set_failures (m_nextClaimAttemptAt (set_nextRunAt (Some next) M)) 0 (set_nextRunAt (Some next) M))
    end).
  { intros [time|]; [|done]. destruct (now <? time); [done|]. apply Hrounds, (Hfuel M). }
  unfold tick. destruct (now <? _); [done|]. destruct (m_nextRunAt M) as [next|]; [apply Hnow|].
  destruct read_fails; [done|apply Hnow].
Qed.

(** ** An occurrence as an example *)

Definition sample_target : ScheduleTarget := MkTarget (js "a") TApp (js "App") (js "r").

Definition sample_action : RelayScheduleAction :=
  ConsoleCommand true (js "backup.sh") (js "c") (Some [(js "r:app:a", js "web")]) (Some [js "r:app:a"]).

Definition sample_definition : RelayScheduleProjection :=
  MkProjection [Wait 5 (js "w") Seconds; sample_action; PowerStepAction StepRestart true (js "p") None] false (js "hourly") true (Some 1)
    (js "s") (js "Nightly") 3 [sample_target; MkTarget (js "b") TDatabase (js "Database") (js "r"); sample_target] (js "UTC").

Definition sample_next (cron : JsString) (time : Z) : option Z := Some (time + 60000).
Definition sample_intent (kind : ScheduleTargetKind) (id : JsString) : JsString := js "0:0:0".
Definition sample_answers (round : nat) : RoundAnswer := MkRound false (λ _, false) false.

Definition sample_events : list ScheduleEvent :=
  [EApply sample_definition 0; ETick sample_intent 60000 false sample_answers;
   ECheck 0 0; ECheck 0 1; EChecked 0 1 (Ok true); EChecked 0 0 (Ok true); ECheck 0 2; ENextStep 0;
   EBeginWait 0 60001; EWaited 0 65001 (Ok tt);
   EBegin 0 0 false 65002; EBegin 0 1 false 65002; EWrite 0 0 65003; EWritten 0 0 false; EWrite 0 0 65203; EWritten 0 0 true].

Definition sample_store : ScheduleStore := MkStore ∅ ∅ ∅.
Definition sample_start : Manager := make 0 None sample_store.
Definition sample_run (evs : list ScheduleEvent) : Manager := default sample_start (manager_run (js "r") [] sample_next evs sample_start).
Definition sample_occurrence (evs : list ScheduleEvent) : Occurrence :=
  default (MkOcc sample_definition 0 0 [] [] None Checks) (m_fibers (sample_run evs) !! 0%nat).
Definition sample_lane (evs : list ScheduleEvent) (k : nat) : Target :=
  default (MkTargetLane (MkTargetState None [] [] None None None false 0 sample_target) Ended) (oc_targets (sample_occurrence evs) !! k).

Definition sent_events : list ScheduleEvent := sample_events ++ [EResume 0 0 65204].

Definition over_events : list ScheduleEvent :=
  sent_events ++ [EAnswer 0 0 (AnsweredCommand (MkResult (Some 1) [] false None)); ESettle 0 0 66000; EWrite 0 0 66000; EWritten 0 0 true;
    EBegin 0 2 false 66000; ENextStep 0; EBegin 0 0 false 66001; EBegin 0 1 false 66001; EBegin 0 2 false 66001;
    EAnswer 0 1 (AnsweredRejected Superseded []); ESettle 0 1 66002; ENextStep 0; EFinish 0 66003].

Definition started_by_hand (ev : ScheduleEvent) : bool := match ev with ERunNow _ _ _ _ => true | _ => false end.

Lemma reached_run relayId platformTargetId nextOccurrence evs : ∀ M M',
  reached relayId platformTargetId nextOccurrence M → forallb (λ ev, negb (started_by_hand ev)) evs = true →
  manager_run relayId platformTargetId nextOccurrence evs M = Some M' → reached relayId platformTargetId nextOccurrence M'.
Proof.
  induction evs as [|ev evs IH]; intros M M' Hr Hh H; cbn in H; [by simplify_eq|].
  cbn in Hh. apply andb_true_iff in Hh as [He Hh].
  destruct (manager_event _ _ _ ev M) as [[M1 calls]|] eqn:E; [|done]. cbn in H. apply (IH M1); [|done|done].
  eapply reached_event; [done| |done]. by destruct ev.
Qed.

Lemma occurrences_never_interleave_witness : 0%nat = 0%nat ∧ 0%nat = 0%nat.
Proof.
  apply (occurrences_never_interleave (js "r") [] sample_next sent_events 0 None sample_store (sample_run sent_events) 0 0
    (sample_occurrence sent_events) (sample_occurrence sent_events) 0 0 (sample_lane sent_events 0) (sample_lane sent_events 0));
    vm_compute; reflexivity.
Defined.

Lemma command_never_unseen_witness :
  ∃ row tr a, runs (m_store (make 70000 None (m_store (sample_run sent_events)))) !! key_of (js "r") (sample_occurrence sent_events) = Some row ∧
    r_status row = RunInterrupted ∧ r_target_runs row !! 0%nat = Some tr ∧ tr_target tr = sample_target ∧ last (tr_attempts tr) = Some a ∧
    a_actionId a = js "c" ∧ a_status a = AttemptUnknown.
Proof.
  apply (command_never_unseen (js "r") [] sample_next (sample_run sent_events) 0 (sample_occurrence sent_events) 0
    (sample_lane sent_events 0) sample_action 65002 70000); [|vm_compute; reflexivity..].
  apply (reached_run _ _ _ sent_events sample_start); [|vm_compute; reflexivity..].
  apply reached_start. intros id row d Hr. cbn in Hr. rewrite lookup_empty in Hr. discriminate.
Defined.

Lemma calls_are_allowed_witness : ∃ f O k t action, m_fibers (sample_run sample_events) !! f = Some O ∧ oc_targets O !! k = Some t ∧
  current_action O = Some action ∧ step_allowed O action (tg_state t) ∧
  call_for action (tg_state t) (RunInApp (js "a") (js "web") (js "backup.sh")) ∧
  (in_container action (ts_target (tg_state t)) = true → ∃ startedAt, tg_phase t = RecordAnswered startedAt true).
Proof.
  apply (calls_are_allowed (js "r") [] sample_next sample_events 0 None sample_store (sample_run sample_events) (EResume 0 0 65204)
    (sample_run sent_events) [RunInApp (js "a") (js "web") (js "backup.sh")]);
    [vm_compute; reflexivity..|by left].
Defined.

Definition sample_record : ScheduleRun :=
  match oc_stage (sample_occurrence over_events) with Completing record => record | _ => completed_run (js "r") (sample_occurrence []) 0 end.

Lemma every_step_accounted_witness : a_actionId <$> run_sequenceAttempts sample_record = [js "w"] ∧
  (λ tr, (tr_status tr, a_status <$> tr_attempts tr)) <$> run_targetRuns sample_record =
    [(TargetFailed, [AttemptFailed; NotRun]); (TargetNoop, [SkippedPolicy; NotRun]); (SkippedOverlap, [])].
Proof.
  split; [|vm_compute; reflexivity].
  apply (every_step_accounted (js "r") [] sample_next over_events 0 None sample_store (sample_run over_events) 0
    (sample_occurrence over_events) sample_record); vm_compute; reflexivity.
Defined.

Lemma tick_ends_witness : is_Some (tick (js "r") sample_next sample_intent 60000 false sample_answers sample_start).
Proof. apply tick_ends. intros cron time next [= <-]. lia. Defined.

(** ** What is lost *)

Definition both_definition : RelayScheduleProjection :=
  MkProjection [ConsoleCommand true (js "x") (js "c") (Some [(js "r:app:a", js "web")]) (Some [js "r:app:a"; js "r:database:b"])] false
    (js "hourly") true None (js "s") (js "Both") 1 [sample_target; MkTarget (js "b") TDatabase (js "Database") (js "r")] (js "UTC").

Definition both_sent : list ScheduleEvent :=
  [EApply both_definition 0; ETick sample_intent 60000 false sample_answers;
   ECheck 0 0; ECheck 0 1; EChecked 0 0 (Ok true); EChecked 0 1 (Ok true); ENextStep 0;
   EBegin 0 0 false 60001; EBegin 0 1 false 60001; EWrite 0 0 60001; EWritten 0 0 true; EWrite 0 1 60001; EWritten 0 1 true;
   EResume 0 0 60002; EResume 0 1 60002].

(** The first command has ended, and the second's record is written before
    the first has left its attempt: the first is on record no more, and a
    restart before its own record lands never reports that it ran. *)
Definition both_ended : list ScheduleEvent :=
  both_sent ++ [EAnswer 0 0 (AnsweredCommand (MkResult (Some 0) [] false None)); EAnswer 0 1 (AnsweredCommand (MkResult (Some 0) [] false None));
    ESettle 0 1 60003; EWrite 0 1 60003; EWritten 0 1 true].

Definition recorded_statuses (evs : list ScheduleEvent) : list (list AttemptStatus) :=
  match runs (m_store (sample_run evs)) !! key_of (js "r") (sample_occurrence evs) with
  | Some row => (λ tr, a_status <$> tr_attempts tr) <$> r_target_runs row
  | None => []
  end.

Example ended_command_unrecorded :
  recorded_statuses both_sent = [[AttemptUnknown]; [AttemptUnknown]] ∧ recorded_statuses both_ended = [[]; [AttemptSucceeded]].
Proof. split; vm_compute; reflexivity. Qed.

(** An error longer than a run may hold ends the occurrence without a result:
    its row says that it runs until the Relay starts again. *)
Definition long_error : list ScheduleEvent :=
  over_events ++ [EComplete 0 true; ERunNow (js "s") 3 sample_intent 70000; ECheck 1 0; ECheck 1 1; ECheck 1 2;
    EChecked 1 0 (Throw (repeat 120 2001)); EChecked 1 1 (Ok false); ENextStep 1; EBeginWait 1 70001; EBegin 1 0 false 70002;
    EBegin 1 1 false 70002; EBegin 1 2 false 70002; ENextStep 1; EBegin 1 0 false 70002; EBegin 1 1 false 70002; EBegin 1 2 false 70002;
    ENextStep 1; EFinish 1 70003].

Example long_error_loses_run :
  map_to_list (m_fibers (sample_run long_error)) = [] ∧
  r_status <$> runs (m_store (sample_run long_error)) !! run_key (js "r") (js "s") 70000 = Some RunRunning.
Proof. split; vm_compute; reflexivity. Qed.

(** A record that is refused lets the occurrence's targets go while a console
    command of the same step is still being sent: the next occurrence sends
    one to that server beside it. *)
Definition server_target : ScheduleTarget := MkTarget (js "i") TInstance (js "Server") (js "r").

Definition three_definition : RelayScheduleProjection :=
  MkProjection [ConsoleCommand true (js "save") (js "c") (Some [(js "r:app:a", js "web")]) (Some [js "r:instance:i"; js "r:app:a"; js "r:database:b"])] false
    (js "hourly") true None (js "s") (js "Three") 1 [server_target; sample_target; MkTarget (js "b") TDatabase (js "Database") (js "r")]
    (js "UTC").

Definition refused_record : list ScheduleEvent :=
  [EApply three_definition 0; ETick sample_intent 60000 false sample_answers;
   ECheck 0 0; ECheck 0 1; ECheck 0 2; EChecked 0 0 (Ok true); EChecked 0 1 (Ok true); EChecked 0 2 (Throw (repeat 120 2001));
   ENextStep 0; EBegin 0 0 false 60001; EBegin 0 1 false 60001; EBegin 0 2 false 60001; EWrite 0 1 60001].

Definition beside_it : list ScheduleEvent :=
  refused_record ++ [ERunNow (js "s") 1 sample_intent 70000; ECheck 1 0; ECheck 1 1; ECheck 1 2; EChecked 1 0 (Ok true);
    EChecked 1 1 (Ok true); EChecked 1 2 (Ok true); ENextStep 1; EBegin 1 0 false 70001].

Definition server_work (f : nat) (M : Manager) : option (bool * option (JsString * TargetPhase)) :=
  (λ O, (is_abandoned O, (λ t, (active_key (ts_target (tg_state t)), tg_phase t)) <$> oc_targets O !! 0%nat)) <$> m_fibers M !! f.

Example refused_record_lets_in :
  server_work 0 (sample_run beside_it) = Some (true, Some (js "instance:i", Executing 60001)) ∧
  server_work 1 (sample_run beside_it) = Some (false, Some (js "instance:i", Executing 70001)).
Proof. split; vm_compute; reflexivity. Qed.
