(* ===== verification/NbtFiles.v ===== *)
(** * Opening and saving files

    Models how [apps/relay/src/files.ts] turns a file's bytes into the text an
    editor shows, [read], and the text back into bytes, [prepareFileWrite]:
    binary NBT is shown and edited as SNBT. [save] is a request to save such a
    text, as its schema and [prepareFileWrite] take it. What the file system does before
    and after is not modelled, nor is zlib: how bytes are compressed is a
    parameter. A path is given in lower case, as the code tests it. *)
From Stdlib Require Import String.
From S2P Require Import Prelude Bytes Utf8 Nbt Decimals Snbt.

Open Scope Z_scope.

Definition MAX_FILE_BYTES : Z := 2 * 1024 * 1024.

(** What [makeFilesystemError] makes; what is thrown where nothing catches it,
    which kills the request; and input that its schema turns away. *)
Inductive FileFailure :=
  | RelayFilesystemError (code operation reason : JsString)
  | Dies (message : JsString)
  | InvalidInput.

Definition makeFilesystemError (code operation : string) (reason : JsString) : FileFailure :=
  RelayFilesystemError (js code) (js operation) reason.

(** [value.endsWith(end)] *)
Definition endsWith (value : JsString) (ending : string) : bool := bool_decide (js ending `suffix_of` value).

Definition isBinaryNbtPath (lowerPath : JsString) : bool :=
  endsWith lowerPath ".dat" || endsWith lowerPath ".dat_old" || endsWith lowerPath ".nbt".

Definition isGzip (source : list byte) : bool :=
  match source with b0 :: b1 :: _ => (byte.unsigned b0 =? 0x1f) && (byte.unsigned b1 =? 0x8b) | _ => false end.

Definition tryDecodeNbt (source : list byte) : option NamedNbt :=
  match decodeNbt source with Got root _ => Some root | _ => None end.

Definition decodeUtf8 (source : list byte) : option JsString := text_decode source.

Definition looksLikeSnbt (source : JsString) : bool :=
  starts c_lbrace (skip source) || starts c_lbracket (skip source).

(** [RelayFileContent], without what the file system says of the file. *)
Record FileContent := MkContent {
  fc_content : JsString;
  fc_size : Z;
  fc_decodedSize : Z;
  fc_encoding : JsString;
  fc_readOnly : bool;
}.

Section Files.
(** [gunzipAsync] with the most bytes it may give, and [gzipAsync]; each fails
    with a message. *)
Variable gunzipAsync : list byte → Z → Result JsString (list byte).
Variable gzipAsync : list byte → Result JsString (list byte).

Definition gunzip_or (failure : FileFailure) (source : list byte) : Result FileFailure (list byte) :=
  match gunzipAsync source MAX_FILE_BYTES with Ok bytes => Ok bytes | Throw _ => Throw failure end.

Definition bytes_text : JsString := print_int MAX_FILE_BYTES ++ js " bytes".

(** The content of a file at a path for binary NBT, or none where it is
    neither that nor SNBT. *)
Definition read_nbt (size : Z) (source : list byte) : Result FileFailure (option FileContent) :=
  let! nbtSource :=
    if isGzip source then
      gunzip_or (makeFilesystemError "invalid_nbt" "read.nbt.decompress"
        (js "The NBT file is invalid or expands beyond " ++ bytes_text)) source
    else Ok source in
  let decodedSize := Z.of_nat (List.length nbtSource) in
  match tryDecodeNbt nbtSource with
  | Some parsed =>
      match formatSnbt (root_tag parsed) 2 with
      | Ok content =>
          Ok (Some (MkContent content size decodedSize (js (if isGzip source then "nbt-gzip" else "nbt")) false))
      | Throw message => Throw (Dies (js message))
      end
  | None =>
      match decodeUtf8 nbtSource with
      | Some rawText =>
          if looksLikeSnbt rawText
          then Ok (Some (MkContent rawText size decodedSize (js (if isGzip source then "snbt-gzip" else "snbt")) false))
          else Ok None
      | None => Ok None
      end
  end.

(** [read] of a file of [size] bytes, [source]. *)
Definition read (lowerPath : JsString) (size : Z) (source : list byte) : Result FileFailure FileContent :=
  guard! negb (MAX_FILE_BYTES <? size)
    else makeFilesystemError "file_too_large" "read"
      (js "Files larger than " ++ bytes_text ++ js " cannot be edited") in
  let compressed := endsWith lowerPath ".log.gz" in
  guard! negb (endsWith lowerPath ".gz" && negb compressed)
    else makeFilesystemError "unsupported_file" "read" (js "Only Minecraft .log.gz archives can be previewed") in
  let! nbt := if isBinaryNbtPath lowerPath then read_nbt size source else Ok None in
  match nbt with
  | Some content => Ok content
  | None =>
      let! decoded :=
        if (compressed : bool) then
          gunzip_or (makeFilesystemError "invalid_gzip" "read.decompress"
            (js "The archived log is invalid or expands beyond " ++ bytes_text)) source
        else Ok source in
      match text_decode decoded with
      | Some content =>
          Ok (MkContent content size (Z.of_nat (List.length decoded))
            (js (if endsWith lowerPath ".snbt" then "snbt" else if compressed then "gzip" else "utf8")) compressed)
      | None =>
          Throw (makeFilesystemError "unsupported_file" "read.decode"
            (js "This file is binary and cannot be previewed as text"))
      end
  end.

(** [parseSnbt(content, { binaryCompatible: true })] and [encodeNbt] of it. *)
Definition convert (name content : JsString) : option (Result JsString (list byte)) :=
  match parseSnbt content true with
  | Some (Ok tag) =>
      Some match encodeNbt (MkNamed name tag) with
           | Ok written => Ok written
           | Throw message => Throw (js message)
           end
  | Some (Throw cause) => Some (Throw (e_message cause))
  | None => None
  end.

(** What the promise of [prepareFileWrite] gives or rejects with; [None] would
    be running out of fuel. *)
Definition file_bytes (lowerPath : JsString) (current : list byte) (content : JsString) (force : bool)
    : option (Result JsString (list byte)) :=
  let raw := text_encode content in
  if endsWith lowerPath ".snbt" then
    if force then Some (Ok raw)
    else match parseSnbt content false with
         | Some (Ok _) => Some (Ok raw)
         | Some (Throw cause) => Some (Throw (e_message cause))
         | None => None
         end
  else if negb (isBinaryNbtPath lowerPath) then Some (Ok raw)
  else
    let compressed := isGzip current in
    match (if compressed then gunzipAsync current MAX_FILE_BYTES else Ok current) with
    | Throw message => Some (Throw message)
    | Ok decodedCurrent =>
        let currentNbt := tryDecodeNbt decodedCurrent in
        let rawSnbt :=
          match currentNbt with
          | Some _ => false
          | None => match decodeUtf8 decodedCurrent with Some rawText => looksLikeSnbt rawText | None => false end
          end in
        if negb (bool_decide (is_Some currentNbt)) && negb rawSnbt then Some (Ok raw)
        else
          match convert (from_option root_name [] currentNbt) content with
          | Some (Throw message) =>
              if force then Some (if compressed then gzipAsync raw else Ok raw) else Some (Throw message)
          | Some (Ok converted) => Some (if compressed then gzipAsync converted else Ok converted)
          | None => None
          end
    end.

Definition prepareFileWrite (lowerPath : JsString) (current : list byte) (content : JsString) (force : bool)
    : option (Result FileFailure (list byte)) :=
  (λ r, match r with
        | Ok bytes => Ok bytes
        | Throw reason => Throw (makeFilesystemError "invalid_snbt" "write.nbt" reason)
        end) <$> file_bytes lowerPath current content force.

(** [relaySaveFileInputSchema] takes texts of up to this many code units. *)
Definition save_input_ok (content : JsString) : bool := Z.of_nat (List.length content) <=? 2 * 1024 * 1024.

(** A request to save a text, up to what is written: its input is parsed, then
    [write] turns the text into bytes. *)
Definition save (lowerPath : JsString) (current : list byte) (content : JsString) (force : bool)
    : option (Result FileFailure (list byte)) :=
  if negb (save_input_ok content) then Some (Throw InvalidInput)
  else if endsWith lowerPath ".log.gz"
  then Some (Throw (makeFilesystemError "read_only" "write" (js "Archived logs are read-only")))
  else prepareFileWrite lowerPath current content force.
End Files.
