(* ===== verification/NbtFilesFacts.v ===== *)
(** * Opening and saving files: what is kept

    Properties of [NbtFiles]: a file of binary NBT that is opened and saved
    unchanged, and what saving an edited text does. *)
From Stdlib Require Import String.
From S2P Require Import Prelude Bytes Utf8 Nbt NbtFacts Decimals Snbt SnbtFacts SnbtTotal NbtFiles.

Open Scope Z_scope.

(** ** Writing what was respelled *)

(** No zero has a sign. *)
Fixpoint zeros_unsigned (tag : NbtTag) : bool :=
  match tag with
  | TFloat v | TDouble v => bool_decide (unsigned_zero v = v)
  | TList _ v => forallb zeros_unsigned v
  | TCompound v => forallb (λ e, zeros_unsigned e.2) v
  | _ => true
  end.

(** A second writer writes as much for an element, and the same where the
    element says so. *)
Definition same_size {A} (same : A → bool) (w w' : A → Result string (list byte)) (a : A) : Prop :=
  ∀ c, w a = Ok c → ∃ c', w' a = Ok c' ∧ length c' = length c ∧ (same a = true → c' = c).

Lemma each_same_size {A} (same : A → bool) (w w' : A → Result string (list byte)) l :
  Forall (same_size same w w') l → same_size (forallb same) (write_each w) (write_each w') l.
Proof.
  induction 1 as [|a l Ha _ IH]; intros c; cbn; [intros <-%Ok_inj; by exists []|].
  destruct (w a) as [c1|] eqn:E1; [|done]. cbn. destruct (write_each w l) as [c2|] eqn:E2; [|done].
  intros <-%Ok_inj. destruct (Ha _ E1) as (c1' & -> & L1 & S1). destruct (IH _ E2) as (c2' & E & L2 & S2).
  cbn. rewrite E. exists (c1' ++ c2'). cbn. split; [done|]. rewrite !length_app. split; [lia|].
  intros [H1 H2]%andb_true_iff. by rewrite S1, S2.
Qed.

Lemma write_each_fmap {A B} (w : B → Result string (list byte)) (f : A → B) l :
  write_each w (f <$> l) = write_each (λ a, w (f a)) l.
Proof. induction l as [|a l IH]; [done|]. cbn. by rewrite IH. Qed.

Lemma respell_same_size tag depth : same_size zeros_unsigned (writePayload depth) (λ t, writePayload depth (respell t)) tag.
Proof.
  revert depth. induction tag as [v|v|v|v|v|v|v|v|t v IH|v IH|v|v] using NbtTag_rect'; intros depth c; cbn [respell];
    try (intros ->; by exists c); cbn [writePayload]; destruct (negb _); try done; cbn [zeros_unsigned].
  - unfold writeFloat. destruct v as [| |b m p]; try done. intros <-%Ok_inj.
    assert (isFinite (unsigned_zero (Finite b m p)) = true) as -> by (by destruct m).
    eexists. split; [done|]. split; [unfold writeFloatBE; by rewrite !put_uint_length|].
    by intros ->%bool_decide_eq_true.
  - unfold writeDouble. destruct v as [| |b m p]; try done. intros <-%Ok_inj.
    assert (isFinite (unsigned_zero (Finite b m p)) = true) as -> by (by destruct m).
    eexists. split; [done|]. split; [unfold writeDoubleBE; by rewrite !put_uint_length|].
    by intros ->%bool_decide_eq_true.
  - rewrite respell_first, write_each_fmap, length_fmap. destruct (_ && _) eqn:E; [|done].
    apply andb_true_iff in E as [_ E]. 
    assert (forallb (λ t, bool_decide (tag_type t = first_type v)) (respell <$> v) = true) as ->.
    { rewrite forallb_forall in E |- *. intros t' (t0 & -> & Hin)%list_elem_of_In%list_elem_of_fmap.
      rewrite respell_type. by apply E, list_elem_of_In. }
    cbn [negb andb bool_decide]. next_chunk ty Hty. next_chunk sz Hs. next_chunk cs Hc. intros <-%Ok_inj.
    destruct (each_same_size zeros_unsigned (writePayload (depth + 1)) (λ t, writePayload (depth + 1) (respell t)) v)
      with (c := cs) as (cs' & -> & L & S); [|done|].
    { apply (Forall_impl _ _ _ IH). auto. }
    eexists. split; [done|]. rewrite !length_app, L. split; [done|]. intros H. by rewrite S.
  - rewrite write_each_fmap. next_chunk cs Hc. next_chunk ty Hty. intros <-%Ok_inj.
    destruct (each_same_size (λ e, zeros_unsigned e.2) (write_entry depth) (λ e, write_entry depth (e.1, respell e.2)) v)
      with (c := cs) as (cs' & E & L & S); [|done|].
    { apply (Forall_impl _ _ _ IH). intros [name t] Ht c. unfold write_entry. cbn [fst snd] in *. rewrite respell_type.
      next_chunk ty' Hty'. next_chunk nm Hnm. next_chunk ch Hch. intros <-%Ok_inj.
      destruct (Ht _ _ Hch) as (ch' & -> & L' & S'). eexists. split; [done|]. rewrite !length_app, L'. split; [done|].
      intros H. by rewrite S'. }
    unfold write_entry in E. cbn [fst snd] in *. rewrite E. cbn. 
    eexists. split; [done|]. rewrite !length_app, L. split; [done|]. intros H. by rewrite S.
Qed.

(** ** Writing what was parsed *)

(** What binary files cannot hold of a tag that is well typed. *)
Definition limits : list string :=
  ["NBT nesting exceeds 512 levels"; "NBT strings cannot exceed 65,535 UTF-8 bytes";
   "NBT collection length is out of range"]%string.

Definition within {A} (r : Result string A) : Prop := match r with Ok _ => True | Throw message => message ∈ limits end.

Lemma within_bind {A B} (r : Result string A) (k : A → Result string B) :
  within r → (∀ a, within (k a)) → within (result_bind r k).
Proof. destruct r; cbn; auto. Qed.

Lemma within_each {A} (w : A → Result string (list byte)) l : Forall (λ a, within (w a)) l → within (write_each w l).
Proof. induction 1 as [|a l Ha _ IH]; [done|]. cbn. apply within_bind; [done|]. intros c. by apply within_bind. Qed.

Lemma within_type type : within (writeType type).
Proof. by destruct type. Qed.

Lemma within_int n v : int_ok n v = true → within (write_int n v).
Proof. unfold write_int. by intros ->. Qed.

Lemma within_string value : within (writeString value).
Proof.
  unfold writeString. cbv zeta. destruct (Z.leb_spec (Z.of_nat (length (text_encode value))) 65535).
  - unfold write_uint, uint_ok. rewrite (proj2 (Z.leb_le _ _)), (proj2 (Z.ltb_lt _ _)) by (cbn; lia). done.
  - right. by left.
Qed.

Lemma within_length n : within (writeLength n).
Proof.
  unfold writeLength. destruct (Z.leb_spec 0 n); [|by do 2 right; left].
  destruct (Z.leb_spec n 2147483647); [|by do 2 right; left]. cbn [andb]. apply within_int.
  unfold int_ok. apply andb_true_iff. rewrite Z.leb_le, Z.ltb_lt. cbn. lia.
Qed.

Lemma within_ints n vs : Forall (λ v, int_ok n v = true) vs → within (write_each (write_int n) vs).
Proof. intros H. apply within_each, (Forall_impl _ _ _ H). apply within_int. Qed.

Lemma parsed_within tag : ∀ depth d, snbt_ok true d tag → within (writePayload depth tag).
Proof.
  induction tag as [v|v|v|v|v|v|v|v|t v IH|v IH|v|v] using NbtTag_rect'; intros depth d [_ H]; cbn [writePayload];
    (destruct (negb (maxNbtDepth <? depth)); [|by left]).
  1-4: by apply within_int.
  - destruct H as [_ H]. unfold writeFloat. by rewrite H.
  - destruct H as [_ H]. unfold writeDouble. by rewrite H.
  - apply within_bind; [apply within_length|done].
  - apply within_string.
  - destruct H as [Ht H%foldr_and]. destruct t as [type|]; [|done].
    replace (forallb _ v) with true.
    2: { symmetry. apply forallb_forall. intros t Hin%list_elem_of_In. rewrite Forall_forall in Ht.
         destruct v as [|t0 v]; [by apply not_elem_of_nil in Hin|]. cbn [first_type].
         apply bool_decide_eq_true. rewrite (Ht t0) by left. by apply Ht. }
    cbn [bool_decide negb andb]. apply within_bind; [apply within_type|]. intros ty.
    apply within_bind; [apply within_length|]. intros sz. apply within_bind; [|done].
    apply within_each. rewrite Forall_forall in IH, H |- *. intros t Hin. eapply IH; [done|]. by apply H.
  - apply foldr_and in H. apply within_bind; [|intros c; apply within_bind; [apply within_type|done]].
    apply within_each. rewrite Forall_forall in IH, H |- *. intros e Hin. apply within_bind; [apply within_type|]. intros ty.
    apply within_bind; [apply within_string|]. intros nm. apply within_bind; [|done].
    eapply IH; [done|]. by apply H.
  - apply within_bind; [apply within_length|]. intros sz. apply within_bind; [by apply within_ints|done].
  - apply within_bind; [apply within_length|]. intros sz. apply within_bind; [by apply within_ints|done].
Qed.

Lemma parsed_js tag : ∀ d, snbt_ok true d tag → js_tag tag.
Proof.
  induction tag as [v|v|v|v|v|v|v|v|t v IH|v IH|v|v] using NbtTag_rect'; intros d [_ H]; cbn [js_tag]; try done.
  - apply H.
  - apply H.
  - destruct H as [_ H]. rewrite foldr_and in H |- *. rewrite Forall_forall in IH, H |- *. intros t' Hin. by eapply IH, H.
  - rewrite foldr_and in H |- *. rewrite Forall_forall in IH, H |- *. intros e Hin. destruct (H e Hin) as (? & _ & He).
    split; [done|]. by eapply IH.
Qed.

(** ** Opening and saving *)

(** No path has two of these endings. *)
Lemma endings_differ path e1 e2 :
  (∀ k1 k2, rev (js e1) ++ k1 = rev (js e2) ++ k2 → False) → endsWith path e1 = true → endsWith path e2 = false.
Proof.
  intros H [k1 ->]%bool_decide_eq_true. apply bool_decide_eq_false. intros [k2 E]. apply (H (rev k1) (rev k2)).
  by rewrite <-!rev_app_distr, E.
Qed.

Lemma binary_not_text path : isBinaryNbtPath path = true → endsWith path ".snbt" = false.
Proof.
  unfold isBinaryNbtPath. rewrite !orb_true_iff. intros [[H|H]|H]; revert H; apply endings_differ;
    intros k1 k2 E; vm_compute in E; discriminate.
Qed.

Section Saving.
Context (gunzipAsync : list byte → Z → Result JsString (list byte)) (gzipAsync : list byte → Result JsString (list byte)).

Definition refusal (reason : JsString) : FileFailure := makeFilesystemError "invalid_snbt" "write.nbt" reason.

(** The bytes of a file, from what they hold: compressed where the file was. *)
Definition packed (current bytes : list byte) : Result FileFailure (list byte) :=
  match (if isGzip current then gzipAsync bytes else Ok bytes) with
  | Ok bytes => Ok bytes
  | Throw message => Throw (refusal message)
  end.

(** The bytes a file holds. *)
Definition holds (current bytes : list byte) : Prop :=
  if isGzip current then gunzipAsync current MAX_FILE_BYTES = Ok bytes else current = bytes.

Lemma save_nbt lowerPath current bytes root content force :
  isBinaryNbtPath lowerPath = true → holds current bytes → decodeNbt bytes = Got root [] →
  prepareFileWrite gunzipAsync gzipAsync lowerPath current content force =
    match convert (root_name root) content with
    | Some (Ok written) => Some (packed current written)
    | Some (Throw reason) => Some (if force then packed current (text_encode content) else Throw (refusal reason))
    | None => None
    end.
Proof.
  intros Hp Hh Hd. unfold prepareFileWrite, file_bytes. rewrite binary_not_text, Hp by done. cbn [negb]. cbv zeta.
  assert ((if isGzip current then gunzipAsync current MAX_FILE_BYTES else Ok current) = Ok bytes) as ->.
  { unfold holds in Hh. destruct (isGzip current); [done|by subst]. }
  unfold tryDecodeNbt. rewrite Hd. cbn [from_option]. unfold packed.
  destruct (convert _ _) as [[written|reason]|]; [|destruct force|]; done.
Qed.

Lemma read_opens lowerPath size source file :
  isBinaryNbtPath lowerPath = true → read gunzipAsync lowerPath size source = Ok file →
  fc_encoding file = js "nbt" ∨ fc_encoding file = js "nbt-gzip" →
  ∃ bytes root, holds source bytes ∧ decodeNbt bytes = Got root [] ∧
    formatSnbt (root_tag root) 2 = Ok (fc_content file).
Proof.
  intros Hp. unfold read. destruct (negb _); [|done]. cbv zeta. destruct (negb _); [|done]. rewrite Hp. unfold read_nbt.
  assert (∀ content size' decoded encoding readOnly,
    encoding ∈ (js <$> ["snbt-gzip"; "snbt"; "gzip"; "utf8"])%string →
    (Ok (MkContent content size' decoded encoding readOnly) : Result FileFailure FileContent) = Ok file →
    fc_encoding file = js "nbt" ∨ fc_encoding file = js "nbt-gzip" → False) as Hother.
  { intros ? ? ? ? ? H <-%Ok_inj He. revert H. cbn [fc_encoding] in He.
    destruct He as [->| ->]; vm_compute; intros H; repeat (apply elem_of_cons in H as [H|H]; [discriminate H|]);
      by apply elem_of_nil in H. }
  intros Hr He. 
  assert (∃ nbtSource, holds source nbtSource ∧
    (if isGzip source then gunzip_or gunzipAsync (makeFilesystemError "invalid_nbt" "read.nbt.decompress"
        (js "The NBT file is invalid or expands beyond " ++ bytes_text)) source else Ok source) = Ok nbtSource)
    as (bytes & Hh & E).
  { unfold holds, gunzip_or in *. destruct (isGzip source); [|by exists source].
    destruct (gunzipAsync source MAX_FILE_BYTES) as [bytes|]; [by exists bytes|done]. }
  rewrite E in Hr. cbn [result_bind] in Hr. unfold tryDecodeNbt in Hr. pose proof (root_reads bytes) as Hroot.
  assert (∀ r : Result FileFailure (list byte),
    (let! decoded := r in
     match text_decode decoded with
     | Some content => Ok (MkContent content size (Z.of_nat (List.length decoded))
         (js (if endsWith lowerPath ".snbt" then "snbt" else if endsWith lowerPath ".log.gz" then "gzip" else "utf8"))
         (endsWith lowerPath ".log.gz"))
     | None => Throw (makeFilesystemError "unsupported_file" "read.decode"
         (js "This file is binary and cannot be previewed as text"))
     end) = Ok file → False) as Hplain.
  { intros r Hf. destruct r as [decoded|]; [|done]. cbn [result_bind] in Hf.
    destruct (text_decode decoded); [|done]. revert Hf He. apply Hother.
    destruct (endsWith _ _), (endsWith _ _); by eapply bool_decide_unpack; vm_compute. }
  destruct (decodeNbt bytes) as [root rest|m|] eqn:Ed; [|exfalso|done].
  - exists bytes, root. destruct Hroot as [-> _]. split; [done|]. split; [done|].
    destruct (formatSnbt (root_tag root) 2) as [content|]; [|done]. cbn [result_bind] in Hr.
    by apply Ok_inj in Hr as <-.
  - destruct (decodeUtf8 bytes) as [rawText|]; [|by apply Hplain in Hr].
    destruct (looksLikeSnbt rawText); [|by apply Hplain in Hr]. cbn [result_bind] in Hr. revert Hr He. apply Hother.
    destruct (isGzip source); by eapply bool_decide_unpack; vm_compute.
Qed.

(** What a save of an opened text converts to. *)
Lemma opened_converts name root text bytes :
  decodeNbt bytes = Got root [] → formatSnbt (root_tag root) 2 = Ok text → name = root_name root →
  if keys_named (root_tag root) then
    ∃ written, convert name text = Some (Ok written) ∧ (length written ≤ length bytes)%nat ∧
      (zeros_unsigned (root_tag root) = true → encodeNbt root = Ok written ∧
         (lists_settled (root_tag root) = true → length written = length bytes → written = bytes))
  else ∃ from, convert name text = Some (Throw (e_message (parse_error text key_message from))).
Proof.
  intros Hd Ht ->. pose proof (root_reads bytes) as H. rewrite Hd in H. destruct H as (_ & _ & Hok & _ & w & Hw & Hl & Heq).
  destruct (format_parses true (root_tag root) 2 Hok) as (text' & Ht' & H). rewrite Ht in Ht'. apply Ok_inj in Ht' as <-.
  unfold convert. destruct (keys_named (root_tag root)); [|destruct H as [from ->]; by exists from].
  rewrite H. revert Hw. unfold encodeNbt. cbn [root_name root_tag]. rewrite respell_type.
  next_chunk ty Hty. next_chunk nm Hnm. next_chunk cs Hc. intros <-%Ok_inj.
  destruct (respell_same_size (root_tag root) 0 cs Hc) as (cs' & E & L & S). rewrite E. cbn [result_bind].
  exists (ty ++ nm ++ cs'). split; [done|]. rewrite !length_app in Hl |- *. split; [lia|].
  intros Hz. rewrite !length_app in Heq. rewrite S by done. by split.
Qed.

Lemma nbt_not_archived lowerPath : isBinaryNbtPath lowerPath = true → endsWith lowerPath ".log.gz" = false.
Proof.
  intros H. apply bool_decide_eq_false. intros [y ->]. unfold isBinaryNbtPath, endsWith in H.
  rewrite !orb_true_iff, !bool_decide_eq_true in H. destruct H as [[[x E]|[x E]]|[x E]];
    apply (f_equal last) in E; rewrite !last_app in E; vm_compute in E; discriminate E.
Qed.

(** C28: A file of binary NBT that is opened and saved as it is keeps what it
    holds, but for the signs of its negative zeros and the byte order marks
    its names and strings begin with. Whatever the file, compressed or not,
    asking to save the text it is shown as, unchanged, writes no more bytes
    than the file held; where no zero in it is negative they are what the
    file's tag, as it was read, is written as, and where the file is also as
    its writer writes it they are the very bytes it held; they are compressed
    again where they were. Two files open and are refused: one whose text is
    longer than 2 MiB, by the request's schema, and one with an empty key,
    whose own text misses a key to the parser. *)
Theorem nbt_open_save lowerPath size source file :
  isBinaryNbtPath lowerPath = true → read gunzipAsync lowerPath size source = Ok file →
  fc_encoding file = js "nbt" ∨ fc_encoding file = js "nbt-gzip" →
  ∃ bytes root, holds source bytes ∧ decodeNbt bytes = Got root [] ∧
    let saved := save gunzipAsync gzipAsync lowerPath source (fc_content file) false in
    if negb (save_input_ok (fc_content file)) then saved = Some (Throw InvalidInput)
    else if keys_named (root_tag root) then
      ∃ written, saved = Some (packed source written) ∧ (length written ≤ length bytes)%nat ∧
        (zeros_unsigned (root_tag root) = true → encodeNbt root = Ok written ∧
           (lists_settled (root_tag root) = true → length written = length bytes → written = bytes))
    else ∃ from, saved =
      Some (Throw (refusal (e_message (parse_error (fc_content file) (js "Expected a compound key") from)))).
Proof.
  intros Hp Hr He. destruct (read_opens _ _ _ _ Hp Hr He) as (bytes & root & Hh & Hd & Ht).
  exists bytes, root. split; [done|]. split; [done|]. cbv zeta. unfold save. rewrite nbt_not_archived by done.
  destruct (save_input_ok (fc_content file)); [|done]. cbn [negb]. rewrite (save_nbt _ _ bytes root) by done.
  pose proof (opened_converts (root_name root) root _ bytes Hd Ht eq_refl) as H.
  destruct (keys_named (root_tag root)).
  - destruct H as (written & -> & H). by exists written.
  - destruct H as (from & ->). by exists from.
Qed.

(** C29: What an edited text of binary NBT is saved as reads back. Where the
    text parses, the file is written, or the save is refused because of one of
    the three limits of the format, its nesting, its strings and its
    collections, never because of a number or a list; and what is written
    reads back as the tag that was parsed under the file's own name, or, where
    the text has a float too large for 32 bits, does not read at all. Where
    the text does not parse the save is refused with the parser's message, and
    only a forced one writes the text itself. *)
Theorem nbt_save_reads lowerPath current bytes root content force :
  forallb unit_ok content = true → isBinaryNbtPath lowerPath = true →
  holds current bytes → decodeNbt bytes = Got root [] →
  let saved := prepareFileWrite gunzipAsync gzipAsync lowerPath current content force in
  let refused reason := saved = Some (if force then packed current (text_encode content) else Throw (refusal reason)) in
  match parseSnbt content true with
  | Some (Ok tag) =>
      (∃ written, saved = Some (packed current written) ∧
         decodeNbt written =
           if floats_fit tag then Got (MkNamed (drop_bom (root_name root)) (reread tag)) []
           else Fails "NBT contains a non-finite float") ∨
      (∃ message, message ∈ limits ∧ refused (js message))
  | Some (Throw cause) => refused (e_message cause)
  | None => False
  end.
Proof.
  intros Hu Hp Hh Hd. cbv zeta. rewrite (save_nbt _ _ bytes root) by done. unfold convert.
  pose proof (parse_root_fine content true Hu) as H. unfold parseSnbt.
  destruct (parse_root true content) as [tag rest|m from|]; [|done|done]. destruct H as [Hok _].
  pose proof (root_reads bytes) as Hroot. rewrite Hd in Hroot. destruct Hroot as (_ & [Hnu Hnw] & _ & _ & w & Hw & _).
  assert (within (encodeNbt (MkNamed (root_name root) tag))) as Hin.
  { unfold encodeNbt. cbn [root_name root_tag]. apply within_bind; [apply within_type|]. intros ty.
    apply within_bind; [apply within_string|]. intros nm. apply within_bind; [by eapply parsed_within|done]. }
  destruct (encodeNbt (MkNamed (root_name root) tag)) as [written|message] eqn:E; [left|right].
  - exists written. split; [done|].
    rewrite (encode_reads (MkNamed (root_name root) tag) written); [|done|by eapply parsed_js|done].
    cbn [root_name root_tag]. by rewrite Hnw.
  - exists message. split; [exact Hin|]. done.
Qed.
End Saving.

(** A world's file that is not compressed, in a game of no compression. *)
Definition no_gunzip (source : list byte) (most : Z) : Result JsString (list byte) := Throw (js "incorrect header check").
Definition no_gzip (bytes : list byte) : Result JsString (list byte) := Ok bytes.

Definition opened_file : FileContent :=
  match read no_gunzip (js "level.dat") 9 (bytes_of sample_snbt) with
  | Ok file => file
  | Throw _ => MkContent [] 0 0 [] false
  end.

Example nbt_open_save_witness :
  save_input_ok (fc_content opened_file) = true ∧
  ∃ bytes root, holds no_gunzip (bytes_of sample_snbt) bytes ∧ decodeNbt bytes = Got root [] ∧
    let saved := save no_gunzip no_gzip (js "level.dat") (bytes_of sample_snbt) (fc_content opened_file) false in
    if negb (save_input_ok (fc_content opened_file)) then saved = Some (Throw InvalidInput)
    else if keys_named (root_tag root) then
      ∃ written, saved = Some (packed no_gzip (bytes_of sample_snbt) written) ∧ (length written ≤ length bytes)%nat ∧
        (zeros_unsigned (root_tag root) = true → encodeNbt root = Ok written ∧
           (lists_settled (root_tag root) = true → length written = length bytes → written = bytes))
    else ∃ from, saved =
      Some (Throw (refusal (e_message (parse_error (fc_content opened_file) (js "Expected a compound key") from)))).
Proof.
  split; [vm_compute; reflexivity|].
  apply (nbt_open_save no_gunzip no_gzip (js "level.dat") 9 (bytes_of sample_snbt) opened_file).
  - vm_compute. reflexivity.
  - vm_compute. reflexivity.
  - left. vm_compute. reflexivity.
Defined.

(** A float that is too large, saved in the place of a byte. *)
Example nbt_save_reads_witness :
  ∃ written, prepareFileWrite no_gunzip no_gzip (js "level.dat") (bytes_of (TByte 1)) (js "1e39f") false =
      Some (Ok written) ∧ decodeNbt written = Fails "NBT contains a non-finite float".
Proof.
  assert (parseSnbt (js "1e39f") true = Some (Ok (TFloat (decimal_value false 1 39)))) as E by (vm_compute; reflexivity).
  assert (forallb unit_ok (js "1e39f") = true) as Hu by (vm_compute; reflexivity).
  assert (isBinaryNbtPath (js "level.dat") = true) as Hp by (vm_compute; reflexivity).
  assert (decodeNbt (bytes_of (TByte 1)) = Got (MkNamed [] (TByte 1)) []) as Hd by (vm_compute; reflexivity).
  pose proof (nbt_save_reads no_gunzip no_gzip (js "level.dat") (bytes_of (TByte 1)) (bytes_of (TByte 1))
    (MkNamed [] (TByte 1)) (js "1e39f") false Hu Hp eq_refl Hd) as H.
  cbv zeta in H. rewrite E in H.
  destruct H as [(written & Hs & Hw)|(message & Hm & Hs)].
  - exists written. split; [exact Hs|exact Hw].
  - exfalso. revert Hs. vm_compute. discriminate.
Defined.
