(* ===== verification/Sessions.v ===== *)
(** * Browser sessions and capabilities

    Models [apps/relay/src/browser-session-registry.ts], which sessions and
    transfers of browsers are authorised now, and from
    [apps/relay/src/browser-capability.ts] and
    [apps/relay/src/browser-security.ts] what a capability has to be.

    A socket is a number and its [readyState === OPEN] an argument, as is the
    clock, read once per call. Closing a socket and aborting a transfer are
    recorded. An object handed out by [registerTransfer] is known by its number:
    it is active while it is among the transfers, since every place that takes
    it out also marks it inactive. *)
From S2P Require Import Prelude.

Open Scope Z_scope.

(** ** Times ([browser-security.ts]) *)

Definition BROWSER_READ_LEASE_MAX_MS : Z := 60000.
Definition BROWSER_WRITE_LEASE_MAX_MS : Z := 30000.
Definition BROWSER_ISSUED_AT_SKEW_MS : Z := 5000.
Definition BROWSER_AUTHORIZATION_FLOOR_RETENTION_MS : Z :=
  5 * Z.max BROWSER_READ_LEASE_MAX_MS BROWSER_WRITE_LEASE_MAX_MS + BROWSER_ISSUED_AT_SKEW_MS.
Definition FLOOR_PRUNE_INTERVAL_MS : Z := 30000.

(** ** Capabilities *)

Inductive OperationKind := OpConsole | OpFile | OpResources.
Inductive BrowserResource := RInstance | RDatabase | RApp | RRelay | RPlatform.

#[global] Instance OperationKind_eq_dec : EqDecision OperationKind.
Proof. solve_decision. Defined.
#[global] Instance BrowserResource_eq_dec : EqDecision BrowserResource.
Proof. solve_decision. Defined.

Definition resource_kind_word (kind : BrowserResource) : string :=
  match kind with
  | RInstance => "instance" | RDatabase => "database" | RApp => "app"
  | RRelay => "relay" | RPlatform => "platform"
  end.

Record Capability := MkCapability {
  c_version : Z;
  c_actions : list string;
  c_audience : string;
  c_authorizationRevision : Z;
  c_capabilityId : string;
  c_expiresAt : Z;
  c_instanceId : string;
  c_issuedAt : Z;
  c_issuer : string;
  c_issuerGeneration : Z;
  c_keyThumbprint : string;
  c_loginSessionId : string;
  c_operation : OperationKind;
  c_origin : string;
  c_path : option string;
  c_resourceKind : option BrowserResource;
  c_subject : string;
}.

Definition relayConsoleReadActions (kind : BrowserResource) : string :=
  match kind with
  | RApp => "app.logs.read" | RDatabase => "database.logs.read"
  | RInstance => "instance.console.read"
  | RPlatform => "relay.logs.read" | RRelay => "relay.logs.read"
  end.

Definition browserCapabilityActions (kind : BrowserResource) (operation : OperationKind)
    : list string :=
  match kind, operation with
  | RApp, OpConsole => [relayConsoleReadActions RApp]
  | RApp, OpFile => ["app.files.download"; "app.files.upload"]
  | RApp, OpResources => ["app.read"]
  | RDatabase, OpConsole => [relayConsoleReadActions RDatabase]
  | RDatabase, OpFile => ["database.dump.export"; "database.dump.import"]
  | RDatabase, OpResources => ["database.read"]
  | RInstance, OpConsole => [relayConsoleReadActions RInstance; "instance.console.write"]
  | RInstance, OpFile => ["instance.files.download"; "instance.files.upload"]
  | RInstance, OpResources => ["instance.read"]
  | RRelay, OpConsole => [relayConsoleReadActions RRelay]
  | RRelay, OpFile => ["relay.files.download"; "relay.files.upload"]
  | RRelay, OpResources => []
  | RPlatform, OpConsole => [relayConsoleReadActions RPlatform]
  | RPlatform, OpFile => []
  | RPlatform, OpResources => []
  end.

Definition isSafeInteger (z : Z) : bool := (- 2 ^ 53 <? z) && (z <? 2 ^ 53).

Definition write_actions : list string :=
  ["instance.console.write"; "instance.files.upload"; "app.files.upload"; "relay.files.upload";
   "database.dump.import"].

(** The [length] of a string, in UTF-16 units: the bytes of its UTF-8 that
    begin a character count one, or two for one outside the basic plane. *)
Fixpoint js_length (s : string) : nat :=
  match s with
  | EmptyString => 0
  | String c s =>
      let b := Ascii.nat_of_ascii c in
      (if (b <? 128)%nat then 1 else if (b <? 192)%nat then 0 else if (b <? 240)%nat then 1 else 2)
      + js_length s
  end%nat.

Definition bounded_text (s : string) : bool :=
  negb (js_length s =? 0)%nat && (js_length s <=? 240)%nat.

(** [validateCapabilityV2], whether it returns rather than throws. *)
Definition validateCapabilityV2 (capability : Capability) (now : Z) : bool :=
  let allowed := browserCapabilityActions (default RInstance (c_resourceKind capability))
                   (c_operation capability) in
  let writes := existsb (λ action, bool_decide (action ∈ write_actions)) (c_actions capability) in
  let maximumLease := if writes then BROWSER_WRITE_LEASE_MAX_MS else BROWSER_READ_LEASE_MAX_MS in
  isSafeInteger (c_issuedAt capability) &&
  isSafeInteger (c_expiresAt capability) &&
  isSafeInteger (c_authorizationRevision capability) &&
  isSafeInteger (c_issuerGeneration capability) &&
  (0 <=? c_authorizationRevision capability) &&
  (0 <=? c_issuerGeneration capability) &&
  (c_issuedAt capability <? c_expiresAt capability) &&
  (c_expiresAt capability - c_issuedAt capability <=? maximumLease) &&
  (c_issuedAt capability <=? now + BROWSER_ISSUED_AT_SKEW_MS) &&
  (length (c_actions capability) <=? length allowed)%nat &&
  forallb (λ action, bool_decide (action ∈ allowed)) (c_actions capability) &&
  (length (js_distinct (c_actions capability)) =? length (c_actions capability))%nat &&
  bounded_text (c_loginSessionId capability) &&
  bounded_text (c_subject capability) &&
  bounded_text (c_capabilityId capability) &&
  Bool.eqb (bool_decide (c_operation capability = OpFile)) (bool_decide (c_path capability ≠ None)) &&
  (js_length (default "" (c_path capability)) <=? 2048)%nat.

(** The client a capability's issuer is paired as, with the actions its role
    grants ([actionsForRole]) and whether its key signed the capability
    ([verify]). *)
Record ClientGrant := MkClient {
  cl_actions : list string;
  cl_origins : list string;
  cl_verifies : Capability → bool;
}.

(** [validateCapability], whether it returns rather than throws. *)
Definition validateCapability (capability : Capability) (client : ClientGrant)
    (origin relayId : string) (requiredAction : option string) (now : Z) : bool :=
  (negb (c_version capability =? 2) || validateCapabilityV2 capability now) &&
  bool_decide (c_audience capability = relayId) &&
  (now <? c_expiresAt capability) &&
  (c_issuedAt capability <=? now + 5000) &&
  bool_decide (c_origin capability = origin) &&
  bool_decide (origin ∈ cl_origins client) &&
  negb (length (c_actions capability) =? 0)%nat &&
  match requiredAction with
  | Some action => bool_decide (action ∈ cl_actions client) &&
                   bool_decide (action ∈ c_actions capability)
  | None => true
  end &&
  forallb (λ action, bool_decide (action ∈ cl_actions client)) (c_actions capability) &&
  cl_verifies client capability.

(** ** Authorities *)

Record Authority := MkAuthority {
  a_actions : list string;
  a_expiresAt : Z;
  a_instanceId : string;
  a_issuer : string;
  a_issuerGeneration : Z;
  a_keyThumbprint : string;
  a_loginSessionId : option string;
  a_operation : option OperationKind;
  a_origin : string;
  a_resourceKind : BrowserResource;
  a_revision : Z;
  a_subject : string;
  a_version : Z;
}.

Definition authorityFromCapability (capability : Capability) : Authority :=
  MkAuthority (c_actions capability) (c_expiresAt capability) (c_instanceId capability)
    (c_issuer capability) (c_issuerGeneration capability) (c_keyThumbprint capability)
    (Some (c_loginSessionId capability)) (Some (c_operation capability)) (c_origin capability)
    (default RInstance (c_resourceKind capability)) (c_authorizationRevision capability)
    (c_subject capability) 2.

Definition capabilityResourceKind (capability : Capability) : BrowserResource :=
  if c_version capability =? 2 then default RInstance (c_resourceKind capability) else RInstance.

(** The server whose access revisions apply to a capability. *)
Definition serverScopeId (capability : Capability) : option string :=
  if bool_decide (capabilityResourceKind capability = RInstance)
  then Some (c_instanceId capability) else None.

Definition browserAuthority (capability : Capability) : Authority :=
  if c_version capability =? 2 then authorityFromCapability capability
  else
    MkAuthority (c_actions capability) (c_expiresAt capability) (c_instanceId capability)
      (c_issuer capability) 0 (c_keyThumbprint capability) None
      (Some (if bool_decide ("instance.read" ∈ c_actions capability) then OpResources else OpConsole))
      (c_origin capability) RInstance 0 (c_subject capability) 1.

Definition sameResourceAs (left right : Authority) : bool :=
  bool_decide (a_resourceKind left = a_resourceKind right) &&
  bool_decide (a_instanceId left = a_instanceId right).

Definition sameOwner (left right : Authority) : bool :=
  bool_decide (a_issuer left = a_issuer right) &&
  bool_decide (a_subject left = a_subject right) &&
  bool_decide (a_loginSessionId left = a_loginSessionId right) &&
  bool_decide (a_origin left = a_origin right) &&
  bool_decide (a_keyThumbprint left = a_keyThumbprint right) &&
  sameResourceAs left right &&
  bool_decide (a_operation left = a_operation right).

(** ** The registry's state *)

Inductive FloorScope :=
  | SubjectRelay
  | InstanceScope (instanceId : string)
  | LoginSessionScope (loginSessionId : string).

(** What Hearth sends when it revises what a person may do. *)
Record Revision := MkRevision {
  rv_minimumRevision : Z;
  rv_scope : FloorScope;
  rv_subject : string;
}.

Record FloorState := MkFloor {
  f_issuer : string;
  f_minimumRevision : Z;
  f_receivedAt : Z;
  f_scope : FloorScope;
  f_subject : string;
}.

(** [expiryTimer] is when it fires. *)
Record ActiveSession := MkSession {
  s_active : bool;
  s_authority : Authority;
  s_expiryTimer : option Z;
  s_renewalNonce : option string;
  s_renewalNonceExpiresAt : option Z;
  s_sessionId : string;
}.

Record BrowserLimits := MkLimits {
  pendingHandshakes : Z;
  pendingHandshakesPerIp : Z;
  sessions : Z;
  sessionsPerInstance : Z;
  sessionsPerUser : Z;
  sessionsPerUserInstance : Z;
  sublimitsEnforced : bool;
}.

Record Registry := MkRegistry {
  clientConfiguration : nat;
  established : list (nat * ActiveSession);
  floorState : list (string * FloorState);
  issuerGenerations : list (string * Z);
  pending : list (nat * string);
  pendingByIp : list (string * Z);
  transfers : list (nat * Authority);
  nextFloorPruneAt : Z;
  (** The next transfer's number, and what was closed and aborted so far. *)
  next_transfer : nat;
  closes : list (nat * Z * string);
  aborted : list nat;
}.

Definition empty_registry : Registry := MkRegistry 0 [] [] [] [] [] [] 0 0 [] [].

Definition set_established v R :=
  MkRegistry (clientConfiguration R) v (floorState R) (issuerGenerations R) (pending R)
    (pendingByIp R) (transfers R) (nextFloorPruneAt R) (next_transfer R) (closes R) (aborted R).
Definition set_floors v at_ R :=
  MkRegistry (clientConfiguration R) (established R) v (issuerGenerations R) (pending R)
    (pendingByIp R) (transfers R) at_ (next_transfer R) (closes R) (aborted R).
Definition set_generations v R :=
  MkRegistry (clientConfiguration R) (established R) (floorState R) v (pending R)
    (pendingByIp R) (transfers R) (nextFloorPruneAt R) (next_transfer R) (closes R) (aborted R).
Definition set_pending v w R :=
  MkRegistry (clientConfiguration R) (established R) (floorState R) (issuerGenerations R) v w
    (transfers R) (nextFloorPruneAt R) (next_transfer R) (closes R) (aborted R).
Definition set_transfers v next R :=
  MkRegistry (clientConfiguration R) (established R) (floorState R) (issuerGenerations R) (pending R)
    (pendingByIp R) v (nextFloorPruneAt R) next (closes R) (aborted R).
Definition set_configuration v R :=
  MkRegistry v (established R) (floorState R) (issuerGenerations R) (pending R)
    (pendingByIp R) (transfers R) (nextFloorPruneAt R) (next_transfer R) (closes R) (aborted R).
Definition close_socket (socket : nat) (code : Z) (reason : string) R :=
  MkRegistry (clientConfiguration R) (established R) (floorState R) (issuerGenerations R) (pending R)
    (pendingByIp R) (transfers R) (nextFloorPruneAt R) (next_transfer R)
    (closes R ++ [(socket, code, reason)]) (aborted R).
Definition abort_transfer (id : nat) R :=
  MkRegistry (clientConfiguration R) (established R) (floorState R) (issuerGenerations R) (pending R)
    (pendingByIp R) (jm_delete id (transfers R)) (nextFloorPruneAt R) (next_transfer R) (closes R)
    (aborted R ++ [id]).

(** ** Floors *)

(** The character U+0000, which parts a floor's key. *)
Definition nul : string := String (Ascii.ascii_of_nat 0) EmptyString.

Definition floorKey (issuer subject : string) (scope : FloorScope) : string :=
  let '(kind, id) :=
    match scope with
    | InstanceScope instanceId => ("instance", instanceId)
    | LoginSessionScope loginSessionId => ("login_session", loginSessionId)
    | SubjectRelay => ("subject_relay", "")
    end in
  issuer +:+ nul +:+ subject +:+ nul +:+ kind +:+ nul +:+ id.

Definition pruneFloors (now : Z) (R : Registry) : Registry :=
  if now <? nextFloorPruneAt R then R
  else
    let cutoff := now - BROWSER_AUTHORIZATION_FLOOR_RETENTION_MS in
    set_floors (List.filter (λ '(_, floor), negb (f_receivedAt floor <=? cutoff)) (floorState R))
      (now + FLOOR_PRUNE_INTERVAL_MS) R.

(** The scopes that revise an authority. *)
Definition scopes_of (authority : Authority) : list FloorScope :=
  [SubjectRelay] ++
  (if bool_decide (a_resourceKind authority = RInstance)
   then [InstanceScope (a_instanceId authority)] else []) ++
  match truthy (a_loginSessionId authority) with
  | Some loginSessionId => [LoginSessionScope loginSessionId]
  | None => []
  end.

Definition floor_of (R : Registry) (key : string) : Z :=
  match jm_get key (floorState R) with Some floor => f_minimumRevision floor | None => 0 end.

Definition minimumRevision (now : Z) (authority : Authority) (R : Registry) : Z * Registry :=
  let R := pruneFloors now R in
  (fold_left
     (λ minimum scope,
       Z.max minimum (floor_of R (floorKey (a_issuer authority) (a_subject authority) scope)))
     (scopes_of authority) 0, R).

Definition generation_of (R : Registry) (issuer : string) : Z :=
  default 0 (jm_get issuer (issuerGenerations R)).

(** Notes the newest generation of an issuer. *)
Definition raise_generation (issuer : string) (generation : Z) (R : Registry) : Registry :=
  set_generations (jm_set issuer (Z.max (generation_of R issuer) generation) (issuerGenerations R)) R.

Definition authorityIsCurrent (now : Z) (authority : Authority) (R : Registry) : bool * Registry :=
  if negb (a_version authority =? 2) then (true, R)
  else if negb (a_issuerGeneration authority =? generation_of R (a_issuer authority)) then (false, R)
  else
    let '(minimum, R) := minimumRevision now authority R in
    (minimum <=? a_revision authority, R).

(** ** Pending sockets *)

Definition acquirePending (limits : BrowserLimits) (socket : nat) (peerIp : string)
    (enforceIp : bool) (R : Registry) : bool * Registry :=
  if pendingHandshakes limits <=? Z.of_nat (length (pending R)) then (false, R)
  else
    let current := default 0 (jm_get peerIp (pendingByIp R)) in
    if enforceIp && (pendingHandshakesPerIp limits <=? current) then (false, R)
    else
      (true, set_pending (jm_set socket peerIp (pending R))
               (jm_set peerIp (current + 1) (pendingByIp R)) R).

Definition releasePending (socket : nat) (R : Registry) : Registry :=
  match truthy (jm_get socket (pending R)) with
  | None => R
  | Some peerIp =>
      let next := default 1 (jm_get peerIp (pendingByIp R)) - 1 in
      set_pending (jm_delete socket (pending R))
        (if 0 <? next then jm_set peerIp next (pendingByIp R) else jm_delete peerIp (pendingByIp R)) R
  end.

(** ** Sessions *)

Definition update_session (socket : nat) (f : ActiveSession → ActiveSession) (R : Registry) : Registry :=
  match jm_get socket (established R) with
  | Some session => set_established (jm_set socket (f session) (established R)) R
  | None => R
  end.

Definition release (socket : nat) (R : Registry) : Registry :=
  let R := releasePending socket R in
  set_established (jm_delete socket (established R)) R.

Definition deactivated (session : ActiveSession) : ActiveSession :=
  MkSession false (s_authority session) (s_expiryTimer session) (s_renewalNonce session)
    (s_renewalNonceExpiresAt session) (s_sessionId session).

Definition deactivate (socket : nat) (reason : string) (R : Registry) : Registry :=
  match jm_get socket (established R) with
  | None => R
  | Some _ => close_socket socket 4403 reason (update_session socket deactivated R)
  end.

(** A timer of more than 2^31-1 ms fires after one. *)
Definition timer_at (now delay : Z) : Z :=
  if 2147483647 <? delay then now + 1 else now + Z.max 1 delay.

Definition with_expiry (now : Z) (session : ActiveSession) : ActiveSession :=
  MkSession (s_active session) (s_authority session)
    (Some (timer_at now (Z.max 0 (a_expiresAt (s_authority session) - now))))
    (s_renewalNonce session) (s_renewalNonceExpiresAt session) (s_sessionId session).

Definition withinLimits (limits : BrowserLimits) (authority : Authority) (R : Registry) : bool :=
  if sessions limits <=? Z.of_nat (length (established R)) then false
  else if negb (sublimitsEnforced limits) then true
  else
    let others := List.filter (λ '(_, session),
                    bool_decide (a_issuer (s_authority session) = a_issuer authority)) (established R) in
    let count f := Z.of_nat (length (List.filter (λ '(_, session), f (s_authority session)) others)) in
    let user existing := bool_decide (a_subject existing = a_subject authority) in
    let resource existing := sameResourceAs existing authority in
    (count resource <? sessionsPerInstance limits) &&
    (count user <? sessionsPerUser limits) &&
    (count (λ existing, user existing && resource existing) <? sessionsPerUserInstance limits).

Inductive Activation :=
  | Accepted (replaced : option nat)
  | RefusedAuthorization
  | RefusedCapacity (replaced : option nat).

Record Current := MkCurrent { cur_generation : Z; cur_revision : Z }.

(** The session an authority's owner has on another socket. *)
Definition same_owner_elsewhere (socket : nat) (authority : Authority) (R : Registry) : option nat :=
  fst <$> List.find (λ '(candidate, session),
    negb (candidate =? socket)%nat && sameOwner (s_authority session) authority) (established R).

(** Whether [activate] turns an authority away as stale. *)
Definition stale (now : Z) (authority : Authority) (current : Current) (R : Registry) : bool * Registry :=
  if a_expiresAt authority <=? now then (true, R)
  else if negb (a_version authority =? 2) then (false, R)
  else if negb (a_issuerGeneration authority =? cur_generation current) ||
          negb (a_issuerGeneration authority =? generation_of R (a_issuer authority)) ||
          (a_revision authority <? cur_revision current) then (true, R)
  else
    let '(minimum, R) := minimumRevision now authority R in
    (a_revision authority <? minimum, R).

Definition activate (limits : BrowserLimits) (now : Z) (is_open : bool) (socket : nat)
    (authority : Authority) (sessionId : string) (current : Current)
    (renewal : option (string * Z)) (R : Registry) : Activation * Registry :=
  if negb (bool_decide (is_Some (jm_get socket (pending R)))) || negb is_open
  then (RefusedAuthorization, R)
  else
    let R := releasePending socket R in
    let R := raise_generation (a_issuer authority) (cur_generation current) R in
    let '(is_stale, R) := stale now authority current R in
    if is_stale then (RefusedAuthorization, R)
    else
      let replaced := same_owner_elsewhere socket authority R in
      let R := match replaced with
               | Some candidate => close_socket candidate 1012 "Browser session replaced" (release candidate R)
               | None => R
               end in
      if negb (withinLimits limits authority R) then (RefusedCapacity replaced, R)
      else
        let session := with_expiry now (MkSession true authority None (fst <$> renewal)
                                          (snd <$> renewal) sessionId) in
        (Accepted replaced, set_established (jm_set socket session (established R)) R).

Definition renew (now : Z) (is_open : bool) (socket : nat) (authority : Authority) (nonce : string)
    (nonceExpiresAt : Z) (R : Registry) : bool * Registry :=
  match jm_get socket (established R) with
  | None => (false, R)
  | Some session =>
      if negb (s_active session) || negb is_open ||
         (a_expiresAt (s_authority session) <=? now) ||
         (a_expiresAt authority <=? now) ||
         negb (sameOwner (s_authority session) authority) ||
         negb (a_version authority =? 2) ||
         negb (a_issuerGeneration authority =? generation_of R (a_issuer authority))
      then (false, R)
      else
        let '(minimum, R) := minimumRevision now authority R in
        if a_revision authority <? minimum then (false, R)
        else
          (true, update_session socket
                   (λ session, with_expiry now
                      (MkSession (s_active session) authority (s_expiryTimer session) (Some nonce)
                         (Some nonceExpiresAt) (s_sessionId session))) R)
  end.

Definition renewalChallenge (socket : nat) (R : Registry) : option (string * Z * string) :=
  match jm_get socket (established R) with
  | None => None
  | Some session =>
      if negb (s_active session) then None
      else
        match truthy (s_renewalNonce session), s_renewalNonceExpiresAt session with
        | Some nonce, Some at_ => if at_ =? 0 then None else Some (nonce, at_, s_sessionId session)
        | _, _ => None
        end
  end.

Definition authority_of (socket : nat) (R : Registry) : option Authority :=
  s_authority <$> jm_get socket (established R).

Definition isActive (now : Z) (socket : nat) (requiredAction : option string) (R : Registry)
    : bool * Registry :=
  match jm_get socket (established R) with
  | None => (false, R)
  | Some session =>
      if negb (s_active session) then (false, R)
      else if a_expiresAt (s_authority session) <=? now
      then (false, deactivate socket "Browser capability expired" R)
      else
        (match truthy requiredAction with
         | None => true
         | Some action => bool_decide (action ∈ a_actions (s_authority session))
         end, R)
  end.

(** The expiry timer of a session fires. *)
Definition expire (now : Z) (socket : nat) (R : Registry) : Registry :=
  match jm_get socket (established R) with
  | Some session =>
      match s_expiryTimer session with
      | Some due =>
          if due <=? now then
            deactivate socket "Browser capability expired"
              (update_session socket (λ session,
                 MkSession (s_active session) (s_authority session) None (s_renewalNonce session)
                   (s_renewalNonceExpiresAt session) (s_sessionId session)) R)
          else R
      | None => R
      end
  | None => R
  end.

(** ** Transfers *)

(** The transfer's number and whether it was taken up. *)
Definition registerTransfer (now : Z) (authority : Authority) (current : Current) (R : Registry)
    : nat * bool * Registry :=
  let R := raise_generation (a_issuer authority) (cur_generation current) R in
  let id := next_transfer R in
  let '(active, R) :=
    if a_expiresAt authority <=? now then (false, R)
    else
      let '(is_current, R) := authorityIsCurrent now authority R in
      (is_current &&
       ((a_version authority =? 1) ||
        ((a_issuerGeneration authority =? cur_generation current) &&
         (cur_revision current <=? a_revision authority))), R) in
  (id, active,
    set_transfers (if active then jm_set id authority (transfers R) else transfers R) (S id) R).

Definition releaseTransfer (id : nat) (R : Registry) : Registry :=
  set_transfers (jm_delete id (transfers R)) (next_transfer R) R.

Definition transferActive (now : Z) (id : nat) (R : Registry) : bool * Registry :=
  match jm_get id (transfers R) with
  | None => (false, R)
  | Some authority => authorityIsCurrent now authority R
  end.

(** ** Revisions *)

Definition revise_item (issuer : string) (now : Z) (R : Registry) (item : Revision) : Registry :=
  let key := floorKey issuer (rv_subject item) (rv_scope item) in
  let floor :=
    match jm_get key (floorState R) with
    | Some current =>
        if f_minimumRevision current <? rv_minimumRevision item
        then MkFloor issuer (rv_minimumRevision item) now (rv_scope item) (rv_subject item)
        else MkFloor (f_issuer current) (f_minimumRevision current) now (f_scope current)
               (f_subject current)
    | None => MkFloor issuer (rv_minimumRevision item) now (rv_scope item) (rv_subject item)
    end in
  set_floors (jm_set key floor (floorState R)) (nextFloorPruneAt R) R.

Definition revise_session (now : Z) (R : Registry) (entry : nat * ActiveSession) : Registry :=
  let '(current, R) := authorityIsCurrent now (s_authority (snd entry)) R in
  if current then R else deactivate (fst entry) "Browser authorization changed" R.

Definition revise_transfer (now : Z) (R : Registry) (entry : nat * Authority) : Registry :=
  let '(current, R) := authorityIsCurrent now (snd entry) R in
  if current then R else abort_transfer (fst entry) R.

Definition revise (issuer : string) (items : list Revision) (issuerGeneration now : Z)
    (R : Registry) : Registry :=
  let R := pruneFloors now R in
  let R := raise_generation issuer issuerGeneration R in
  let R := fold_left (revise_item issuer now) items R in
  let R := fold_left (revise_session now) (established R) R in
  fold_left (revise_transfer now) (transfers R) R.

Definition revokeIssuer (issuer : string) (R : Registry) : Registry :=
  let R := set_configuration (S (clientConfiguration R)) R in
  let R := fold_left (λ R '(socket, session),
             if bool_decide (a_issuer (s_authority session) = issuer)
             then deactivate socket "Capability issuer changed" R else R) (established R) R in
  fold_left (λ R '(id, authority),
    if bool_decide (a_issuer authority = issuer) then abort_transfer id R else R) (transfers R) R.

Definition close (R : Registry) : Registry :=
  let R := fold_left (λ R socket, release socket R) (established R).*1 R in
  let R := fold_left (λ R socket, releasePending socket R) (pending R).*1 R in
  fold_left (λ R id, abort_transfer id R) (transfers R).*1 R.

(** ** Calls and time *)

Inductive Call :=
  | CAcquire (socket : nat) (peerIp : string) (enforceIp : bool)
  | CActivate (is_open : bool) (socket : nat) (authority : Authority) (sessionId : string)
      (current : Current) (renewal : option (string * Z))
  | CRenew (is_open : bool) (socket : nat) (authority : Authority) (nonce : string) (nonceExpiresAt : Z)
  | CIsActive (socket : nat) (requiredAction : option string)
  | CExpire (socket : nat)
  | CMinimumRevision (authority : Authority)
  | CRegister (authority : Authority) (current : Current)
  | CReleaseTransfer (id : nat)
  | CTransferActive (id : nat)
  | CRevise (issuer : string) (items : list Revision) (issuerGeneration : Z)
  | CRevokeIssuer (issuer : string)
  | CReleasePending (socket : nat)
  | CRelease (socket : nat)
  | CClose.

Definition call (limits : BrowserLimits) (now : Z) (c : Call) (R : Registry) : Registry :=
  match c with
  | CAcquire socket peerIp enforceIp => (acquirePending limits socket peerIp enforceIp R).2
  | CActivate is_open socket authority sessionId current renewal =>
      (activate limits now is_open socket authority sessionId current renewal R).2
  | CRenew is_open socket authority nonce at_ => (renew now is_open socket authority nonce at_ R).2
  | CIsActive socket action => (isActive now socket action R).2
  | CExpire socket => expire now socket R
  | CMinimumRevision authority => (minimumRevision now authority R).2
  | CRegister authority current => (registerTransfer now authority current R).2
  | CReleaseTransfer id => releaseTransfer id R
  | CTransferActive id => (transferActive now id R).2
  | CRevise issuer items generation => revise issuer items generation now R
  | CRevokeIssuer issuer => revokeIssuer issuer R
  | CReleasePending socket => releasePending socket R
  | CRelease socket => release socket R
  | CClose => close R
  end.

(** Calls over time, which does not go back. *)
Inductive later (limits : BrowserLimits) : Z * Registry → Z * Registry → Prop :=
  | later_same s : later limits s s
  | later_call now R now' c s :
      now <= now' → later limits (now', call limits now' c R) s → later limits (now, R) s.

Definition reached (limits : BrowserLimits) (now : Z) (R : Registry) : Prop :=
  ∃ start, later limits (start, empty_registry) (now, R).
