(* ===== verification/SessionFacts.v ===== *)
(** * Browser sessions: what the registry guarantees

    Properties of [Sessions]: a revocation holds for every capability minted
    before it, and the limits on sessions and handshakes are kept. *)
From S2P Require Import Prelude Sessions.

Open Scope Z_scope.

Lemma fold_left_preorder {A B} (rel : relation A) `{!PreOrder rel} (f : A → B → A) l : ∀ a,
  (∀ a b, rel a (f a b)) → rel a (fold_left f l a).
Proof. induction l as [|b l IH]; intros a Hf; cbn; [done|]. etrans; [apply Hf|by apply IH]. Qed.

(** ** Revocation *)

Section Revocation.
Context (limits : BrowserLimits).
(** A floor received at a time, and what it revokes: what was minted by then
    for the scope with an older revision. *)
Context (issuer subject : string) (scope : FloorScope) (m t0 : Z).

Definition last_minted_expiry : Z :=
  t0 + BROWSER_ISSUED_AT_SKEW_MS + Z.max BROWSER_READ_LEASE_MAX_MS BROWSER_WRITE_LEASE_MAX_MS.

Definition revoked_authority (a : Authority) : Prop :=
  a_version a = 2 ∧ a_issuer a = issuer ∧ a_subject a = subject ∧ scope ∈ scopes_of a ∧
  a_revision a < m ∧ a_expiresAt a <= last_minted_expiry.

(** While the floor is kept, it is there. *)
Definition floor_held (now : Z) (R : Registry) : Prop :=
  now < t0 + BROWSER_AUTHORIZATION_FLOOR_RETENTION_MS →
  ∃ f, jm_get (floorKey issuer subject scope) (floorState R) = Some f ∧
    m <= f_minimumRevision f ∧ t0 <= f_receivedAt f.

(** Nothing became active, and the floor stays. *)
Record tame (now : Z) (R R' : Registry) : Prop := {
  tame_sessions : ∀ s x', jm_get s (established R') = Some x' → s_active x' = true →
    ∃ x, jm_get s (established R) = Some x ∧ s_active x = true ∧ s_authority x' = s_authority x;
  tame_transfers : ∀ id a, jm_get id (transfers R') = Some a → jm_get id (transfers R) = Some a;
  tame_floor : floor_held now R → floor_held now R';
}.

#[local] Instance tame_preorder now : PreOrder (tame now).
Proof.
  split.
  - intros R. split; eauto.
  - intros R1 R2 R3 [S1 T1 F1] [S2 T2 F2]. split; [|eauto|eauto].
    intros s x' H Ha. destruct (S2 s x' H Ha) as (x & Hx & Hxa & E).
    destruct (S1 s x Hx Hxa) as (y & Hy & Hya & E'). exists y. by rewrite E, E'.
Qed.

Lemma fold_tame {B} now (f : Registry → B → Registry) l R :
  (∀ R b, tame now R (f R b)) → tame now R (fold_left f l R).
Proof. intros. by apply (fold_left_preorder (tame now)). Qed.

(** What keeps the sessions, transfers and floors is tame. *)
Lemma tame_same now R R' :
  established R' = established R → transfers R' = transfers R → floorState R' = floorState R →
  tame now R R'.
Proof. intros E1 E2 E3. split; [rewrite E1; eauto|by rewrite E2|unfold floor_held; by rewrite E3]. Qed.

Lemma pruned_floor now (floors : list (string * FloorState)) k f :
  jm_get k floors = Some f → now - BROWSER_AUTHORIZATION_FLOOR_RETENTION_MS < f_receivedAt f →
  jm_get k (List.filter (λ '(_, floor), negb (f_receivedAt floor <=?
    now - BROWSER_AUTHORIZATION_FLOOR_RETENTION_MS)) floors) = Some f.
Proof.
  induction floors as [|[k' f'] floors IH]; [done|]. cbn [jm_get List.filter].
  destruct (decide (k = k')) as [->|Hne].
  - intros [= ->] Hf. rewrite (proj2 (Z.leb_gt _ _)) by lia. cbn. by rewrite decide_True.
  - intros Hg Hf. destruct (negb _); [|by apply IH]. cbn [jm_get]. rewrite decide_False by done. by apply IH.
Qed.

Lemma prune_tame now R : tame now R (pruneFloors now R).
Proof.
  unfold pruneFloors. destruct (now <? nextFloorPruneAt R); [done|].
  split; [eauto|done|]. intros Hf Hnow. destruct (Hf Hnow) as (f & Hk & Hm & Ht). exists f.
  split; [|done]. cbn. apply pruned_floor; [done|]. lia.
Qed.

Lemma minimum_tame now a R : tame now R (minimumRevision now a R).2.
Proof. apply prune_tame. Qed.

Lemma raise_tame now i g R : tame now R (raise_generation i g R).
Proof. by apply tame_same. Qed.

Lemma current_tame now a R : tame now R (authorityIsCurrent now a R).2.
Proof.
  unfold authorityIsCurrent. destruct (negb _); [done|]. destruct (negb _); [done|].
  cbn. apply prune_tame.
Qed.

Lemma releasePending_tame now s R : tame now R (releasePending s R).
Proof. unfold releasePending. destruct (truthy _); by apply tame_same. Qed.

Lemma update_tame now s f R :
  (∀ x, s_authority (f x) = s_authority x ∧ (s_active (f x) = true → s_active x = true)) →
  tame now R (update_session s f R).
Proof.
  intros Hf. unfold update_session. destruct (jm_get s (established R)) as [x|] eqn:Hx; [|done].
  split; [|done|done]. cbn. intros s' x'. rewrite jm_get_set. case_decide as E.
  - subst s'. intros [= <-] Ha. destruct (Hf x) as [Hau Hact]. exists x. auto.
  - eauto.
Qed.

Lemma deactivate_tame now s reason R : tame now R (deactivate s reason R).
Proof.
  unfold deactivate. destruct (jm_get s (established R)); [|done].
  etrans; [by apply (update_tame now s deactivated); intros x; split|by apply tame_same].
Qed.

Lemma release_tame now s R : tame now R (release s R).
Proof.
  unfold release. etrans; [apply releasePending_tame|]. split; [|exact (λ _ _ h, h)|exact (λ h, h)]. cbn.
  intros s' x'. rewrite jm_get_delete. case_decide; [done|eauto].
Qed.

Lemma abort_tame now id R : tame now R (abort_transfer id R).
Proof. split; [eauto| |done]. cbn. intros id' a. rewrite jm_get_delete. by case_decide. Qed.

Lemma revise_item_tame now i R item : t0 <= now → tame now R (revise_item i now R item).
Proof.
  intros Hnow. split; [eauto|done|]. intros Hf Hlt. destruct (Hf Hlt) as (f & Hk & Hm & Ht).
  unfold revise_item. cbn. rewrite jm_get_set. case_decide as E; [|eauto].
  rewrite E, Hk. eexists. split; [reflexivity|].
  destruct (Z.ltb_spec (f_minimumRevision f) (rv_minimumRevision item)); cbn; lia.
Qed.

Lemma revise_session_tame now R e : tame now R (revise_session now R e).
Proof.
  unfold revise_session. pose proof (current_tame now (s_authority e.2) R) as H.
  destruct (authorityIsCurrent _ _ _) as [[] R']; [done|]. etrans; [exact H|apply deactivate_tame].
Qed.

Lemma revise_transfer_tame now R e : tame now R (revise_transfer now R e).
Proof.
  unfold revise_transfer. pose proof (current_tame now e.2 R) as H.
  destruct (authorityIsCurrent _ _ _) as [[] R']; [done|]. etrans; [exact H|apply abort_tame].
Qed.

Lemma revise_tame i items g now R : t0 <= now → tame now R (revise i items g now R).
Proof.
  intros Ht. unfold revise. cbv zeta.
  etrans; [|apply fold_tame; intros; apply revise_transfer_tame].
  etrans; [|apply fold_tame; intros; apply revise_session_tame].
  etrans; [|apply fold_tame; intros; by apply revise_item_tame].
  etrans; [apply prune_tame|apply raise_tame].
Qed.

Lemma revokeIssuer_tame now i R : tame now R (revokeIssuer i R).
Proof.
  unfold revokeIssuer. cbv zeta.
  etrans; [|apply fold_tame]. etrans; [|apply fold_tame].
  - by apply tame_same.
  - intros R' [s x]. case_bool_decide; [apply deactivate_tame|done].
  - intros R' [id a]. case_bool_decide; [apply abort_tame|done].
Qed.

Lemma close_tame now R : tame now R (close R).
Proof.
  unfold close. cbv zeta.
  etrans; [|apply fold_tame; intros; apply abort_tame].
  etrans; [|apply fold_tame; intros; apply releasePending_tame].
  apply fold_tame; intros; apply release_tame.
Qed.

(** What is revoked is not active, and while the floor may be gone, expired. *)
Record revoked (now : Z) (R : Registry) : Prop := {
  revoked_floor : floor_held now R;
  revoked_sessions : ∀ s x, jm_get s (established R) = Some x → s_active x = true →
    ¬ revoked_authority (s_authority x);
  revoked_transfers : ∀ id a, jm_get id (transfers R) = Some a → ¬ revoked_authority a;
}.

Lemma tame_revoked now R R' : tame now R R' → revoked now R → revoked now R'.
Proof.
  intros [S T F] [Hf Hs Ht]. split; [auto| |eauto].
  intros s x' Hx Ha. destruct (S s x' Hx Ha) as (x & Hx' & Hxa & ->). eauto.
Qed.

Lemma revoked_later now now' R : now <= now' → revoked now R → revoked now' R.
Proof. intros Hn [Hf Hs Ht]. split; [|done|done]. intros Hlt. apply Hf. lia. Qed.

Lemma fold_max_ge {A} (f : A → Z) l x acc : x ∈ l → f x <= fold_left (λ acc x, Z.max acc (f x)) l acc.
Proof.
  assert (∀ l acc, acc <= fold_left (λ acc x, Z.max acc (f x)) l acc) as Hacc.
  { clear. induction l as [|y l IH]; intros acc; cbn; [lia|]. specialize (IH (Z.max acc (f y))). lia. }
  revert acc. induction l as [|y l IH]; intros acc; [by intros ?%elem_of_nil|]. cbn.
  intros [->|Hx]%elem_of_cons; [|by apply IH]. specialize (Hacc l (Z.max acc (f y))). lia.
Qed.

Lemma floor_minimum now a R :
  floor_held now R → now < t0 + BROWSER_AUTHORIZATION_FLOOR_RETENTION_MS →
  a_issuer a = issuer → a_subject a = subject → scope ∈ scopes_of a →
  m <= (minimumRevision now a R).1.
Proof.
  intros Hf Hlt Hi Hs Hin. pose proof (tame_floor _ _ _ (prune_tame now R) Hf Hlt) as (f & Hk & Hm & _).
  unfold minimumRevision. cbn [fst]. etrans; [|apply (fold_max_ge _ _ scope); exact Hin].
  cbv beta. unfold floor_of. by rewrite Hi, Hs, Hk.
Qed.

(** While the floor is kept, a revoked authority is not current. *)
Lemma revoked_not_current now a R :
  floor_held now R → revoked_authority a → now < t0 + BROWSER_AUTHORIZATION_FLOOR_RETENTION_MS →
  (authorityIsCurrent now a R).1 = false.
Proof.
  intros Hf (Hv & Hi & Hs & Hin & Hr & He) Hlt. unfold authorityIsCurrent.
  rewrite Hv. change (negb (2 =? 2)) with false. cbv iota.
  destruct (negb _); [done|]. destruct (minimumRevision now a R) as [mn R'] eqn:E. cbn.
  pose proof (floor_minimum now a R Hf Hlt Hi Hs Hin) as H. rewrite E in H. cbn in H.
  apply Z.leb_gt. lia.
Qed.

(** What was minted by then has expired by the time the floor may go. *)
Lemma revoked_expired_in_time now a :
  revoked_authority a → now < a_expiresAt a → now < t0 + BROWSER_AUTHORIZATION_FLOOR_RETENTION_MS.
Proof.
  intros (_ & _ & _ & _ & _ & He). unfold last_minted_expiry, BROWSER_AUTHORIZATION_FLOOR_RETENTION_MS,
    BROWSER_READ_LEASE_MAX_MS, BROWSER_WRITE_LEASE_MAX_MS, BROWSER_ISSUED_AT_SKEW_MS in *. lia.
Qed.

Lemma stale_tame now a current R : tame now R (stale now a current R).2.
Proof.
  unfold stale. repeat (destruct (_ : bool); [done|]). destruct (minimumRevision now a R) as [mn R'] eqn:E.
  cbn. pose proof (minimum_tame now a R) as H. by rewrite E in H.
Qed.

(** A revoked authority is turned away. *)
Lemma revoked_stale now a current R :
  floor_held now R → revoked_authority a → (stale now a current R).1 = true.
Proof.
  intros Hf Ha. pose proof Ha as (Hv & Hi & Hs & Hin & Hr & He). unfold stale.
  destruct (Z.leb_spec (a_expiresAt a) now) as [|Hlt]; [done|].
  rewrite Hv. change (negb (2 =? 2)) with false. cbv iota.
  destruct (_ || _); [done|]. destruct (minimumRevision now a R) as [mn R'] eqn:E. cbn.
  pose proof (floor_minimum now a R Hf (revoked_expired_in_time _ _ Ha Hlt) Hi Hs Hin) as H.
  rewrite E in H. cbn in H. apply Z.ltb_lt. lia.
Qed.

Lemma with_session_revoked now s x R :
  revoked now R → ¬ revoked_authority (s_authority x) →
  revoked now (set_established (jm_set s x (established R)) R).
Proof.
  intros [Hf Hs Ht] Hx. split; [done| |done]. cbn. intros s' x'. rewrite jm_get_set.
  case_decide; [by intros [= <-]|eauto].
Qed.

Lemma activate_revoked now is_open s a sid current renewal R :
  revoked now R →
  revoked now (activate limits now is_open s a sid current renewal R).2 ∧
  (revoked_authority a → (activate limits now is_open s a sid current renewal R).1 = RefusedAuthorization).
Proof.
  intros HR. unfold activate. destruct (_ || _); [done|]. cbv zeta.
  set (R1 := raise_generation _ _ _).
  assert (revoked now R1) as H1.
  { eapply tame_revoked; [|exact HR]. etrans; [apply releasePending_tame|apply raise_tame]. }
  destruct (stale now a current R1) as [st R2] eqn:Es.
  pose proof (stale_tame now a current R1) as T. rewrite Es in T. cbn in T.
  pose proof (revoked_stale now a current R1 (revoked_floor _ _ H1)) as Hst. rewrite Es in Hst. cbn in Hst.
  pose proof (tame_revoked _ _ _ T H1) as H2. destruct st; [done|].
  assert (¬ revoked_authority a) as Ha by (by intros ?%Hst).
  set (R3 := match same_owner_elsewhere s a R2 with Some _ => _ | None => _ end).
  assert (revoked now R3) as H3.
  { unfold R3. destruct (same_owner_elsewhere s a R2); [|done].
    eapply tame_revoked; [|exact H2]. etrans; [apply release_tame|by apply tame_same]. }
  destruct (negb _); [done|]. split; [|done]. by apply with_session_revoked.
Qed.

Lemma renew_revoked now is_open s a nonce at_ R :
  revoked now R →
  revoked now (renew now is_open s a nonce at_ R).2 ∧
  (revoked_authority a → (renew now is_open s a nonce at_ R).1 = false).
Proof.
  intros HR. unfold renew. destruct (jm_get s (established R)) as [x|] eqn:Hx; [|done].
  destruct (_ || _) eqn:Eg; [done|]. rewrite !orb_false_iff in Eg.
  destruct Eg as [[[[[[_ _] _] He] _] Hv] _]. apply Z.leb_gt in He.
  destruct (minimumRevision now a R) as [mn R'] eqn:E.
  pose proof (minimum_tame now a R) as T. rewrite E in T. cbn in T.
  pose proof (tame_revoked _ _ _ T HR) as H'.
  destruct (Z.ltb_spec (a_revision a) mn) as [Hlt|Hge]; [done|].
  assert (¬ revoked_authority a) as Ha.
  { intros Ha. pose proof Ha as (_ & Hi & Hs & Hin & Hr & Hex).
    pose proof (floor_minimum now a R (revoked_floor _ _ HR)
      (revoked_expired_in_time _ _ Ha He) Hi Hs Hin) as H. rewrite E in H. cbn in H. lia. }
  split; [|done]. cbn [snd]. unfold update_session. destruct (jm_get s (established R')); [|done].
  by apply with_session_revoked.
Qed.

Lemma register_revoked now a current R :
  revoked now R →
  revoked now (registerTransfer now a current R).2 ∧
  (revoked_authority a → (registerTransfer now a current R).1.2 = false).
Proof.
  intros HR. unfold registerTransfer. cbv zeta. set (R1 := raise_generation _ _ _).
  assert (revoked now R1) as H1 by (eapply tame_revoked; [apply raise_tame|exact HR]).
  assert (∀ (active : bool) R2, revoked now R2 → (active = true → ¬ revoked_authority a) →
    revoked now (set_transfers (if active then jm_set (next_transfer R1) a (transfers R2) else transfers R2)
      (S (next_transfer R1)) R2)) as Hset.
  { intros active R2 [Hf Hs Ht] Ha. split; [done|done|]. cbn. intros id a'. destruct active; [|eauto].
    rewrite jm_get_set. case_decide; [intros [= <-]; auto|eauto]. }
  destruct (Z.leb_spec (a_expiresAt a) now) as [|Hlt]; [by split; [apply (Hset false)|]|].
  pose proof (revoked_not_current now a R1 (revoked_floor _ _ H1)) as Hc.
  pose proof (current_tame now a R1) as T.
  destruct (authorityIsCurrent now a R1) as [c R2]. cbn in Hc, T.
  pose proof (tame_revoked _ _ _ T H1) as H2.
  split; [apply Hset; [done|]|]; cbn.
  - intros [-> _]%andb_true_iff Ha. by specialize (Hc Ha (revoked_expired_in_time _ _ Ha Hlt)).
  - intros Ha. by rewrite (Hc Ha (revoked_expired_in_time _ _ Ha Hlt)).
Qed.

Lemma isActive_tame now s action R : tame now R (isActive now s action R).2.
Proof.
  unfold isActive. destruct (jm_get s (established R)); [|done]. destruct (negb _); [done|].
  destruct (_ <=? _); [apply deactivate_tame|done].
Qed.

Lemma expire_tame now s R : tame now R (expire now s R).
Proof.
  unfold expire. destruct (jm_get s (established R)) as [x|]; [|done].
  destruct (s_expiryTimer x); [|done]. destruct (_ <=? _); [|done].
  etrans; [|apply deactivate_tame]. by apply update_tame.
Qed.

Lemma call_revoked now c R : t0 <= now → revoked now R → revoked now (call limits now c R).
Proof.
  intros Ht HR. destruct c; cbn [call].
  2: by apply activate_revoked.
  2: by apply renew_revoked.
  5: by apply register_revoked.
  all: eapply tame_revoked; [|exact HR].
  - unfold acquirePending. destruct (_ <=? _); [done|]. cbv zeta. destruct (_ && _); [done|by apply tame_same].
  - apply isActive_tame.
  - apply expire_tame.
  - apply minimum_tame.
  - split; [eauto| |eauto]. cbn. intros id' a. rewrite jm_get_delete. by case_decide.
  - unfold transferActive. destruct (jm_get id (transfers R)); [apply current_tame|done].
  - by apply revise_tame.
  - apply revokeIssuer_tame.
  - apply releasePending_tame.
  - apply release_tame.
  - apply close_tame.
Qed.

Lemma later_revoked s s' : later limits s s' → t0 <= s.1 → revoked s.1 s.2 → revoked s'.1 s'.2.
Proof.
  induction 1 as [|now R now' c s Hn _ IH]; [done|]. cbn. intros Ht HR. apply IH; cbn; [lia|].
  apply call_revoked; [lia|]. by eapply revoked_later.
Qed.

(** ** Revising *)

Lemma deactivate_off s reason R x :
  jm_get s (established (deactivate s reason R)) = Some x → s_active x = false.
Proof.
  unfold deactivate. destruct (jm_get s (established R)) as [y|] eqn:Hy; [|congruence].
  cbn. unfold update_session. rewrite Hy. cbn. rewrite jm_get_set, decide_True by done. by intros [= <-].
Qed.

Lemma floor_retained : t0 < t0 + BROWSER_AUTHORIZATION_FLOOR_RETENTION_MS.
Proof.
  unfold BROWSER_AUTHORIZATION_FLOOR_RETENTION_MS, BROWSER_READ_LEASE_MAX_MS,
    BROWSER_WRITE_LEASE_MAX_MS, BROWSER_ISSUED_AT_SKEW_MS. lia.
Qed.

Lemma revise_sessions_off l : ∀ R s x x',
  floor_held t0 R → (s, x) ∈ l → revoked_authority (s_authority x) →
  jm_get s (established (fold_left (revise_session t0) l R)) = Some x' → s_active x' = false.
Proof.
  induction l as [|e l IH]; intros R s x x' Hf Hin Ha; [by apply elem_of_nil in Hin|].
  cbn [fold_left]. apply elem_of_cons in Hin as [<-|Hin].
  - intros Hx. destruct (s_active x') eqn:Hact; [exfalso|done].
    assert (tame t0 (revise_session t0 R (s, x)) (fold_left (revise_session t0) l (revise_session t0 R (s, x))))
      as T by (apply fold_tame; intros; apply revise_session_tame).
    destruct (tame_sessions _ _ _ T s x' Hx Hact) as (y & Hy & Hya & _).
    revert Hy. unfold revise_session. cbn [fst snd].
    pose proof (revoked_not_current t0 _ R Hf Ha floor_retained) as Hc.
    destruct (authorityIsCurrent _ _ _) as [c R']. cbn in Hc. subst c.
    intros Hy%deactivate_off. congruence.
  - apply (IH _ _ x); [|done|done]. by apply (tame_floor _ _ _ (revise_session_tame t0 R e)).
Qed.

Lemma revise_transfers_off l : ∀ R id a,
  floor_held t0 R → (id, a) ∈ l → revoked_authority a →
  jm_get id (transfers (fold_left (revise_transfer t0) l R)) = None.
Proof.
  induction l as [|e l IH]; intros R id a Hf Hin Ha; [by apply elem_of_nil in Hin|].
  cbn [fold_left]. apply elem_of_cons in Hin as [<-|Hin].
  - destruct (jm_get id _) as [a'|] eqn:Hx; [exfalso|done].
    assert (tame t0 (revise_transfer t0 R (id, a)) (fold_left (revise_transfer t0) l (revise_transfer t0 R (id, a))))
      as T by (apply fold_tame; intros; apply revise_transfer_tame).
    apply (tame_transfers _ _ _ T) in Hx. revert Hx. unfold revise_transfer. cbn [fst snd].
    pose proof (revoked_not_current t0 _ R Hf Ha floor_retained) as Hc.
    destruct (authorityIsCurrent _ _ _) as [c R']. cbn in Hc. subst c.
    cbn. rewrite jm_get_delete. by rewrite decide_True.
  - apply (IH _ _ a); [|done|done]. by apply (tame_floor _ _ _ (revise_transfer_tame t0 R e)).
Qed.

Lemma revise_items_floor items : ∀ R,
  (∃ item, item ∈ items ∧ rv_subject item = subject ∧ rv_scope item = scope ∧ m <= rv_minimumRevision item) →
  floor_held t0 (fold_left (revise_item issuer t0) items R).
Proof.
  induction items as [|i items IH]; intros R (item & Hin & Hs & Hc & Hm); [by apply elem_of_nil in Hin|].
  cbn [fold_left]. apply elem_of_cons in Hin as [->|Hin]; [|by apply IH; eauto].
  assert (floor_held t0 (revise_item issuer t0 R i)) as H.
  { intros _. unfold revise_item. rewrite Hs, Hc. cbn. rewrite jm_get_set, decide_True by done.
    eexists. split; [reflexivity|]. destruct (jm_get _ (floorState R)) as [f|]; [|by cbn; lia].
    destruct (Z.ltb_spec (f_minimumRevision f) (rv_minimumRevision i)); cbn; lia. }
  eapply tame_floor; [|exact H]. apply fold_tame. intros. by apply revise_item_tame.
Qed.

Lemma jm_get_elem {V} (l : list (nat * V)) k v : jm_get k l = Some v → (k, v) ∈ l.
Proof.
  induction l as [|[k' v'] l IH]; cbn; [done|]. rewrite elem_of_cons.
  case_decide; [intros [= ->]; left; by subst|auto].
Qed.

Lemma revise_revokes items g R :
  (∃ item, item ∈ items ∧ rv_subject item = subject ∧ rv_scope item = scope ∧ m <= rv_minimumRevision item) →
  revoked t0 (revise issuer items g t0 R).
Proof.
  intros Hitem. unfold revise. cbv zeta.
  set (R3 := fold_left (revise_item issuer t0) items _).
  assert (floor_held t0 R3) as H3 by (by apply revise_items_floor).
  set (R4 := fold_left (revise_session t0) (established R3) R3).
  assert (tame t0 R3 R4) as T4 by (apply fold_tame; intros; apply revise_session_tame).
  assert (tame t0 R4 (fold_left (revise_transfer t0) (transfers R4) R4)) as T5
    by (apply fold_tame; intros; apply revise_transfer_tame).
  pose proof (tame_floor _ _ _ T4 H3) as H4.
  split; [by apply (tame_floor _ _ _ T5)| |].
  - intros s x' Hx Hact. destruct (tame_sessions _ _ _ T5 s x' Hx Hact) as (y & Hy & Hya & ->).
    destruct (tame_sessions _ _ _ T4 s y Hy Hya) as (z & Hz & _ & E). rewrite E. intros Ha.
    rewrite (revise_sessions_off (established R3) R3 s z y H3 (jm_get_elem _ _ _ Hz) Ha Hy) in Hya. done.
  - intros id a Ha Hr. pose proof (tame_transfers _ _ _ T5 id a Ha) as Ha4.
    by rewrite (revise_transfers_off (transfers R4) R4 id a H4 (jm_get_elem _ _ _ Ha4) Hr) in Ha.
Qed.

Lemma revoked_inactive now s action R :
  revoked now R → (∃ a, authority_of s R = Some a ∧ revoked_authority a) → (isActive now s action R).1 = false.
Proof.
  intros HR (a & Ha & Hr). unfold authority_of in Ha. apply fmap_Some in Ha as (x & Hx & ->).
  unfold isActive. rewrite Hx. destruct (s_active x) eqn:Hact; [|done].
  by destruct (revoked_sessions _ _ HR s x Hx Hact).
Qed.
End Revocation.

(** A valid capability's lease is bounded. *)
Lemma validated_lease capability now :
  validateCapabilityV2 capability now = true →
  c_expiresAt capability - c_issuedAt capability <=
    Z.max BROWSER_READ_LEASE_MAX_MS BROWSER_WRITE_LEASE_MAX_MS.
Proof.
  unfold validateCapabilityV2. rewrite !andb_true_iff. intros H. destruct_and?.
  match goal with H : (_ <=? (if _ then _ else _)) = true |- _ => apply Z.leb_le in H; revert H end.
  case_match; lia.
Qed.

(** A valid capability minted before a revision, by the clocks, is among what
    the revision revokes. *)
Lemma capability_revoked capability client origin relayId action tv issuer subject scope m t0 :
  validateCapability capability client origin relayId action tv = true →
  c_version capability = 2 → c_issuedAt capability <= t0 + BROWSER_ISSUED_AT_SKEW_MS →
  c_issuer capability = issuer → c_subject capability = subject →
  scope ∈ scopes_of (browserAuthority capability) → c_authorizationRevision capability < m →
  revoked_authority issuer subject scope m t0 (browserAuthority capability).
Proof.
  intros Hval Hv Hissued Hi Hs Hscope Hrev.
  unfold validateCapability in Hval. rewrite Hv in Hval. change (negb (2 =? 2)) with false in Hval.
  rewrite orb_false_l, !andb_true_iff in Hval. destruct_and?.
  assert (c_expiresAt capability - c_issuedAt capability <=
    Z.max BROWSER_READ_LEASE_MAX_MS BROWSER_WRITE_LEASE_MAX_MS) as Hlease by by eapply validated_lease.
  unfold browserAuthority in *. rewrite Hv in *. cbn in *.
  repeat split; [done..|]. unfold last_minted_expiry. cbn. lia.
Qed.

(** A revision holds whatever calls follow. *)
Lemma revision_holds limits issuer items generation t0 R item now R' now' :
  item ∈ items → later limits (t0, revise issuer items generation t0 R) (now, R') →
  t0 <= now → now <= now' →
  revoked issuer (rv_subject item) (rv_scope item) (rv_minimumRevision item) t0 now' R'.
Proof.
  intros Hitem Hlater Ht Hn. eapply revoked_later; [exact Hn|].
  apply (later_revoked limits _ _ _ _ _ _ _ Hlater); cbn; [lia|]. apply revise_revokes.
  exists item. repeat split; [done|lia].
Qed.

(** C17: A revocation is final for everything minted before it. Once the
    Relay is told that a person's access, on the Relay, on a server or in a
    login session, needs a newer revision, no capability minted before
    with an older one authorises anything again, whatever calls follow and
    however long: it cannot open a session, renew one or start a transfer, a
    session it had is not active, and a transfer it had is aborted. The
    revision itself is forgotten in time, but not before every such
    capability has expired, clocks apart included. *)
Theorem revocation_final limits R issuer items issuerGeneration t0 item capability client origin relayId
    action tv now R' now' :
  item ∈ items →
  validateCapability capability client origin relayId action tv = true →
  c_version capability = 2 → c_issuedAt capability <= t0 + BROWSER_ISSUED_AT_SKEW_MS →
  c_issuer capability = issuer → c_subject capability = rv_subject item →
  rv_scope item ∈ scopes_of (browserAuthority capability) →
  c_authorizationRevision capability < rv_minimumRevision item →
  later limits (t0, revise issuer items issuerGeneration t0 R) (now, R') → t0 <= now → now <= now' →
  let a := browserAuthority capability in
  (∀ is_open s sessionId current renewal,
     (activate limits now' is_open s a sessionId current renewal R').1 = RefusedAuthorization) ∧
  (∀ is_open s nonce at_, (renew now' is_open s a nonce at_ R').1 = false) ∧
  (∀ current, (registerTransfer now' a current R').1.2 = false) ∧
  (∀ s required, authority_of s R' = Some a → (isActive now' s required R').1 = false) ∧
  (∀ id, jm_get id (transfers R') ≠ Some a).
Proof.
  intros Hitem Hval Hv Hissued Hi Hs Hscope Hrev Hlater Ht Hn a.
  assert (revoked_authority issuer (rv_subject item) (rv_scope item) (rv_minimumRevision item) t0 a) as Ha
    by (by eapply capability_revoked).
  assert (revoked issuer (rv_subject item) (rv_scope item) (rv_minimumRevision item) t0 now' R') as HR
    by (by eapply revision_holds).
  repeat split.
  - intros. by apply (activate_revoked limits _ _ _ _ _ now' is_open s a sessionId current renewal R' HR).
  - intros. by apply (renew_revoked _ _ _ _ _ now' is_open s a nonce at_ R' HR).
  - intros. by apply (register_revoked _ _ _ _ _ now' a current R' HR).
  - intros. eapply revoked_inactive; eauto.
  - intros id Hid. by destruct (revoked_transfers _ _ _ _ _ _ _ HR id a Hid).
Qed.

Definition sample_capability : Capability :=
  MkCapability 2 ["instance.console.read"] "relay" 3 "cap" 60000 "f00" 0 "hearth" 1 "key" "login"
    OpConsole "https://hearth" None None "ada".

Example revocation_final_witness :
  validateCapability sample_capability (MkClient ["instance.console.read"] ["https://hearth"] (λ _, true))
    "https://hearth" "relay" None 10 = true ∧
  (activate (MkLimits 8 8 8 8 8 8 true) 4000 true 0 (browserAuthority sample_capability) "s"
     (MkCurrent 1 0) None
     (acquirePending (MkLimits 8 8 8 8 8 8 true) 0 "::1" true
        (revise "hearth" [MkRevision 4 (InstanceScope "f00") "ada"] 1 2000 empty_registry)).2).1
    = RefusedAuthorization.
Proof.
  split; [vm_compute; reflexivity|].
  refine (proj1 (revocation_final (MkLimits 8 8 8 8 8 8 true) empty_registry "hearth"
    [MkRevision 4 (InstanceScope "f00") "ada"] 1 2000 (MkRevision 4 (InstanceScope "f00") "ada")
    sample_capability (MkClient ["instance.console.read"] ["https://hearth"] (λ _, true))
    "https://hearth" "relay" None 10 3000 _ 4000 _ _ _ _ _ _ _ _ _ _ _) _ _ _ _ _).
  - left.
  - vm_compute. reflexivity.
  - reflexivity.
  - vm_compute. discriminate.
  - reflexivity.
  - reflexivity.
  - right. left.
  - reflexivity.
  - exact (later_call _ 2000 _ 3000 (CAcquire 0 "::1" true) _ ltac:(lia) (later_same _ _)).
  - lia.
  - lia.
Defined.

(** ** Limits *)

Section Limits.
Context (limits : BrowserLimits).

(** Which authority each socket's session has. *)
Definition owners (R : Registry) : list (nat * Authority) := prod_map id s_authority <$> established R.

(** The sessions a test on their authority picks out. *)
Definition session_count (P : Authority → bool) (l : list (nat * Authority)) : Z :=
  Z.of_nat (length (List.filter (λ '(_, x), P x) l)).

Definition of_resource (a : Authority) (x : Authority) : bool :=
  bool_decide (a_issuer x = a_issuer a) && sameResourceAs x a.
Definition of_user (a : Authority) (x : Authority) : bool :=
  bool_decide (a_issuer x = a_issuer a) && bool_decide (a_subject x = a_subject a).
Definition of_user_resource (a : Authority) (x : Authority) : bool :=
  bool_decide (a_issuer x = a_issuer a) && (bool_decide (a_subject x = a_subject a) && sameResourceAs x a).

(** Sockets waiting from an address. *)
Definition ip_count (ip : string) (l : list (nat * string)) : Z :=
  Z.of_nat (length (List.filter (λ '(_, ip'), bool_decide (ip' = ip)) l)).

Record sessions_ok (l : list (nat * Authority)) : Prop := {
  ok_established : NoDup l.*1;
  ok_sessions : Z.of_nat (length l) <= sessions limits;
  ok_sublimits : sublimitsEnforced limits = true → ∀ a,
    session_count (of_resource a) l <= sessionsPerInstance limits ∧
    session_count (of_user a) l <= sessionsPerUser limits ∧
    session_count (of_user_resource a) l <= sessionsPerUserInstance limits;
  ok_owners : ∀ s s' x x', (s, x) ∈ l → (s', x') ∈ l → sameOwner x x' = true → s = s';
}.

Record pending_ok (l : list (nat * string)) (byIp : list (string * Z)) : Prop := {
  ok_pending : NoDup l.*1;
  ok_pending_limit : Z.of_nat (length l) <= pendingHandshakes limits;
  ok_ips : ∀ s ip, (s, ip) ∈ l → ip ≠ "";
  ok_counts : ∀ ip, default 0 (jm_get ip byIp) = ip_count ip l;
}.

Definition registry_ok (R : Registry) : Prop :=
  sessions_ok (owners R) ∧ pending_ok (pending R) (pendingByIp R) ∧
  (∀ s, s ∈ (pending R).*1 → s ∉ (owners R).*1).

(** What the callers see to: a socket waits once, when it connects, from an
    address. *)
Definition proper (c : Call) (R : Registry) : Prop :=
  match c with
  | CAcquire socket peerIp _ =>
      peerIp ≠ "" ∧ socket ∉ (pending R).*1 ∧ socket ∉ (owners R).*1
  | _ => True
  end.

Lemma sameOwner_spec l r :
  sameOwner l r = true ↔
  a_issuer l = a_issuer r ∧ a_subject l = a_subject r ∧ a_loginSessionId l = a_loginSessionId r ∧
  a_origin l = a_origin r ∧ a_keyThumbprint l = a_keyThumbprint r ∧
  a_resourceKind l = a_resourceKind r ∧ a_instanceId l = a_instanceId r ∧
  a_operation l = a_operation r.
Proof. unfold sameOwner, sameResourceAs. rewrite !andb_true_iff, !bool_decide_eq_true. tauto. Qed.

Lemma sameOwner_refl a : sameOwner a a = true.
Proof. by apply sameOwner_spec. Qed.

Lemma sameOwner_sym a b : sameOwner a b = true → sameOwner b a = true.
Proof. rewrite !sameOwner_spec. intros H. destruct_and?. by repeat split. Qed.

Lemma sameOwner_trans a b c : sameOwner a b = true → sameOwner b c = true → sameOwner a c = true.
Proof. rewrite !sameOwner_spec. intros H1 H2. destruct_and?. repeat split; congruence. Qed.

Lemma count_filter_le {A} (P Q : A → bool) l :
  (∀ a, P a = true → Q a = true) → (length (List.filter P l) ≤ length (List.filter Q l))%nat.
Proof.
  intros H. induction l as [|a l IH]; [done|]. cbn. destruct (P a) eqn:Ea; [rewrite (H a Ea); cbn; lia|].
  destruct (Q a); cbn; lia.
Qed.

Lemma filter_all {A} (P : A → bool) l : (∀ a, a ∈ l → P a = true) → List.filter P l = l.
Proof.
  induction l as [|a l IH]; intros H; [done|]. cbn. rewrite H by left. f_equal. apply IH.
  intros b Hb. apply H. by right.
Qed.

Lemma filter_jm_delete {K V} `{EqDecision K} (P : K * V → bool) k (l : list (K * V)) :
  (length (List.filter P (jm_delete k l)) ≤ length (List.filter P l))%nat.
Proof.
  unfold jm_delete. induction l as [|[k' v] l IH]; [done|]. cbn.
  destruct (negb _); cbn; destruct (P (k', v)); cbn; lia.
Qed.

Lemma filter_jm_set {K V} `{EqDecision K} (P : K * V → bool) k v (l : list (K * V)) :
  (length (List.filter P (jm_set k v l)) ≤ S (length (List.filter P l)))%nat.
Proof.
  induction l as [|[k' v'] l IH]; cbn; [destruct (P (k, v)); cbn; lia|].
  case_decide; cbn; destruct (P (k', v)), (P (k', v')); cbn; lia.
Qed.

(** Replacing a value that tests the same changes no count. *)
Lemma filter_jm_same {K V} `{EqDecision K} (P : K * V → bool) k v w (l : list (K * V)) :
  jm_get k l = Some w → P (k, v) = P (k, w) →
  length (List.filter P (jm_set k v l)) = length (List.filter P l).
Proof.
  induction l as [|[k' v'] l IH]; cbn; [done|]. case_decide as E.
  - intros [= ->] HP. subst k'. cbn. rewrite HP. by destruct (P (k, w)).
  - intros Hg HP. cbn. specialize (IH Hg HP). destruct (P (k', v')); cbn; lia.
Qed.

(** ** Pending sockets *)

Lemma ip_count_nonneg ip l : 0 <= ip_count ip l.
Proof. unfold ip_count. lia. Qed.

Lemma ip_count_set ip s ip' l :
  s ∉ l.*1 → ip_count ip (jm_set s ip' l) = ip_count ip l + if bool_decide (ip' = ip) then 1 else 0.
Proof.
  unfold ip_count. induction l as [|[s0 ip0] l IH]; cbn; [case_bool_decide; cbn; lia|].
  intros [Hs Hl]%not_elem_of_cons. rewrite decide_False by done. cbn. specialize (IH Hl).
  destruct (bool_decide (ip0 = ip)); cbn; lia.
Qed.

Lemma ip_count_delete ip s ip' l :
  NoDup l.*1 → jm_get s l = Some ip' →
  ip_count ip (jm_delete s l) = ip_count ip l - if bool_decide (ip' = ip) then 1 else 0.
Proof.
  unfold ip_count, jm_delete. induction l as [|[s0 ip0] l IH]; [done|]. cbn [fmap list_fmap fst jm_get List.filter].
  intros [Hs Hnd]%NoDup_cons. destruct (decide (s = s0)) as [->|Hne].
  - intros [= ->]. rewrite bool_decide_true by done. cbn [negb].
    rewrite (filter_all (λ '(k', _), negb (bool_decide (s0 = k'))) l).
    + destruct (bool_decide (ip' = ip)); cbn; lia.
    + intros [k v] Hin. apply negb_true_iff, bool_decide_eq_false. intros ->.
      destruct Hs. by apply (list_elem_of_fmap_2 fst) in Hin.
  - intros Hg. rewrite bool_decide_false by done. cbn [negb List.filter]. specialize (IH Hnd Hg).
    destruct (bool_decide (ip0 = ip)); cbn; lia.
Qed.

Lemma acquire_ok socket ip l byIp (current := default 0 (jm_get ip byIp)) :
  ip ≠ "" → socket ∉ l.*1 → Z.of_nat (length l) < pendingHandshakes limits →
  pending_ok l byIp → pending_ok (jm_set socket ip l) (jm_set ip (current + 1) byIp).
Proof.
  intros Hip Hs Hlim [Hnd Hl Hips Hc]. split.
  - by apply jm_set_NoDup.
  - rewrite <-(length_fmap fst), jm_set_keys, decide_False, length_app, length_fmap by done. cbn. lia.
  - intros s' ip' Hin. apply jm_get_Some in Hin; [|by apply jm_set_NoDup].
    rewrite jm_get_set in Hin. case_decide; [by injection Hin as <-|].
    apply jm_get_Some in Hin; [by eapply Hips|done].
  - intros ip'. rewrite jm_get_set, ip_count_set by done. case_decide as E.
    + subst ip'. rewrite bool_decide_true by done. cbn. unfold current. by rewrite Hc.
    + rewrite bool_decide_false by done. rewrite Hc. lia.
Qed.

Lemma releasePending_lists socket R :
  pending_ok (pending R) (pendingByIp R) →
  pending_ok (pending (releasePending socket R)) (pendingByIp (releasePending socket R)) ∧
  pending (releasePending socket R) = jm_delete socket (pending R) ∧
  owners (releasePending socket R) = owners R.
Proof.
  intros HR. pose proof HR as [Hnd Hl Hips Hc]. unfold releasePending, truthy.
  destruct (jm_get socket (pending R)) as [ip|] eqn:Hg.
  - assert (ip ≠ "") as Hip by (apply (Hips socket); by apply jm_get_Some).
    rewrite decide_False by done. cbn. split; [|done]. split.
    + rewrite jm_delete_keys. by apply NoDup_bfilter.
    + pose proof (filter_jm_delete (λ _, true) socket (pending R)) as H.
      rewrite !filter_all in H by done. lia.
    + intros s' ip' [_ Hin]%jm_delete_elem. by eapply Hips.
    + intros ip'. rewrite (ip_count_delete _ _ _ _ Hnd Hg).
      pose proof (ip_count_delete ip socket ip _ Hnd Hg) as Hself. rewrite bool_decide_true in Hself by done.
      pose proof (ip_count_nonneg ip (jm_delete socket (pending R))).
      assert (1 <= ip_count ip (pending R)) as Hpos by lia. rewrite <-Hc in Hpos.
      destruct (jm_get ip (pendingByIp R)) as [n|] eqn:Hn; cbn in Hpos; [|lia].
      pose proof (Hc ip) as Hcn. rewrite Hn in Hcn. cbn in *.
      case_bool_decide as E.
      * subst ip'. destruct (Z.ltb_spec 0 (n - 1)).
        -- rewrite jm_get_set, decide_True by done. cbn. lia.
        -- rewrite jm_get_delete, decide_True by done. cbn. lia.
      * rewrite <-Hc, Z.sub_0_r. destruct (0 <? n - 1);
          [rewrite jm_get_set|rewrite jm_get_delete]; by rewrite decide_False.
  - split; [done|]. split; [|done]. symmetry. apply filter_all. intros [k v] Hin.
    apply negb_true_iff, bool_decide_eq_false. intros ->. apply jm_get_None in Hg.
    destruct Hg. by apply (list_elem_of_fmap_2 fst) in Hin.
Qed.

(** ** Sessions *)

Lemma filter_jm_set_out {K V} `{EqDecision K} (P : K * V → bool) k v (l : list (K * V)) :
  P (k, v) = false → (length (List.filter P (jm_set k v l)) ≤ length (List.filter P l))%nat.
Proof.
  intros HP. induction l as [|[k' v'] l IH]; cbn; [by rewrite HP|].
  case_decide as E; cbn; [subst; rewrite HP; destruct (P (k', v')); cbn; lia|].
  destruct (P (k', v')); cbn; lia.
Qed.

Lemma same_tests a b :
  a_issuer a = a_issuer b → a_subject a = a_subject b → a_resourceKind a = a_resourceKind b →
  a_instanceId a = a_instanceId b →
  ∀ c, of_resource c a = of_resource c b ∧ of_user c a = of_user c b ∧
       of_user_resource c a = of_user_resource c b.
Proof. intros E1 E2 E3 E4 c. unfold of_resource, of_user, of_user_resource, sameResourceAs. by rewrite E1, E2, E3, E4. Qed.

Lemma sessions_delete s l : sessions_ok l → sessions_ok (jm_delete s l).
Proof.
  intros [Hnd Hl Hsub Ho]. split.
  - rewrite jm_delete_keys. by apply NoDup_bfilter.
  - pose proof (filter_jm_delete (λ _, true) s l) as H. rewrite !filter_all in H by done. lia.
  - intros He a. destruct (Hsub He a) as (H1 & H2 & H3). unfold session_count in *.
    pose proof (filter_jm_delete (λ '(_, x), of_resource a x) s l).
    pose proof (filter_jm_delete (λ '(_, x), of_user a x) s l).
    pose proof (filter_jm_delete (λ '(_, x), of_user_resource a x) s l). lia.
  - intros s1 s2 x1 x2 [_ H1]%jm_delete_elem [_ H2]%jm_delete_elem. eauto.
Qed.

(** A session of the same owner takes its place. *)
Lemma sessions_same s a b l :
  jm_get s l = Some b → sameOwner b a = true → sessions_ok l → sessions_ok (jm_set s a l).
Proof.
  intros Hg Hab [Hnd Hl Hsub Ho]. pose proof Hab as (E1 & E2 & _ & _ & _ & E3 & E4 & _)%sameOwner_spec.
  assert (jm_set_NoDup := jm_set_NoDup l s a Hnd). split; [done| | |].
  - pose proof (filter_jm_same (λ _, true) s a b l Hg eq_refl) as H. rewrite !filter_all in H by done. lia.
  - intros He c. destruct (Hsub He c) as (H1 & H2 & H3). unfold session_count in *.
    destruct (same_tests b a E1 E2 E3 E4 c) as (T1 & T2 & T3).
    rewrite (filter_jm_same _ s a b l Hg) by (symmetry; exact T1).
    rewrite (filter_jm_same _ s a b l Hg) by (symmetry; exact T2).
    rewrite (filter_jm_same _ s a b l Hg) by (symmetry; exact T3). done.
  - assert (∀ s' x, (s', x) ∈ jm_set s a l → ∃ y, (s', y) ∈ l ∧ sameOwner y x = true) as Hold.
    { intros s' x Hx. apply jm_get_Some in Hx; [|done]. rewrite jm_get_set in Hx. case_decide as E.
      - subst s'. injection Hx as <-. exists b. split; [by apply jm_get_Some|done].
      - exists x. split; [by apply jm_get_Some|apply sameOwner_refl]. }
    intros s1 s2 x1 x2 H1 H2 H12. destruct (Hold _ _ H1) as (y1 & Hy1 & O1), (Hold _ _ H2) as (y2 & Hy2 & O2).
    apply (Ho s1 s2 y1 y2 Hy1 Hy2). eapply sameOwner_trans; [exact O1|].
    eapply sameOwner_trans; [exact H12|]. by apply sameOwner_sym.
Qed.

(** Authorities a test does not tell apart. *)
Lemma tests_agree c a :
  (of_resource c a = true → ∀ x, of_resource c x = of_resource a x) ∧
  (of_user c a = true → ∀ x, of_user c x = of_user a x) ∧
  (of_user_resource c a = true → ∀ x, of_user_resource c x = of_user_resource a x).
Proof.
  unfold of_resource, of_user, of_user_resource, sameResourceAs.
  rewrite !andb_true_iff, !bool_decide_eq_true.
  split; [intros (E1 & E2 & E3)|split; [intros (E1 & E2)|intros (E1 & E2 & E3 & E4)]];
    intros x; by rewrite E1, E2, ?E3, ?E4.
Qed.

(** What [withinLimits] counts. *)
Lemma withinLimits_spec a R :
  withinLimits limits a R = true →
  Z.of_nat (length (owners R)) < sessions limits ∧
  (sublimitsEnforced limits = true →
    session_count (of_resource a) (owners R) < sessionsPerInstance limits ∧
    session_count (of_user a) (owners R) < sessionsPerUser limits ∧
    session_count (of_user_resource a) (owners R) < sessionsPerUserInstance limits).
Proof.
  unfold withinLimits, owners. rewrite length_fmap.
  destruct (Z.leb_spec (sessions limits) (Z.of_nat (length (established R)))) as [|Hlt]; [done|].
  intros H. split; [done|]. intros He. rewrite He in H. cbn [negb] in H. cbv beta zeta in H.
  assert (∀ f : Authority → bool, length (List.filter (λ '(_, x), f (s_authority x))
      (List.filter (λ '(_, x), bool_decide (a_issuer (s_authority x) = a_issuer a)) (established R))) =
    length (List.filter (λ '(_, x), bool_decide (a_issuer x = a_issuer a) && f x)
      (prod_map id s_authority <$> established R))) as Hcount.
  { intros f. clear H Hlt He. induction (established R) as [|[s x] l IH]; [done|]. cbn.
    destruct (bool_decide (a_issuer (s_authority x) = a_issuer a)); cbn; [|exact IH].
    destruct (f (s_authority x)); cbn; [f_equal|]; exact IH. }
  unfold session_count, of_resource, of_user, of_user_resource.
  pose proof (Hcount (λ x, sameResourceAs x a)) as C1.
  pose proof (Hcount (λ x, bool_decide (a_subject x = a_subject a))) as C2.
  pose proof (Hcount (λ x, bool_decide (a_subject x = a_subject a) && sameResourceAs x a)) as C3.
  cbv beta in C1, C2, C3. rewrite C1, C2, C3 in H.
  rewrite !andb_true_iff, !Z.ltb_lt in H. tauto.
Qed.

Lemma sessions_new s a l :
  Z.of_nat (length l) < sessions limits →
  (sublimitsEnforced limits = true →
    session_count (of_resource a) l < sessionsPerInstance limits ∧
    session_count (of_user a) l < sessionsPerUser limits ∧
    session_count (of_user_resource a) l < sessionsPerUserInstance limits) →
  (∀ s' x, (s', x) ∈ l → s' ≠ s → sameOwner x a = false) →
  sessions_ok l → sessions_ok (jm_set s a l).
Proof.
  intros Hlim Hsubs Hothers [Hnd Hl Hsub Ho].
  assert (NoDup (jm_set s a l).*1) as Hnd' by (by apply jm_set_NoDup). split; [done| | |].
  - pose proof (filter_jm_set (λ _, true) s a l) as H. rewrite !filter_all in H by done. lia.
  - intros He c. destruct (Hsub He c) as (H1 & H2 & H3), (Hsubs He) as (S1 & S2 & S3).
    assert (∀ (P : Authority → Authority → bool) limit,
      (P c a = true → ∀ x, P c x = P a x) → session_count (P c) l <= limit →
      session_count (P a) l < limit → session_count (P c) (jm_set s a l) <= limit) as Hone.
    { intros P limit Hsame Hle Hlt. unfold session_count in *. destruct (P c a) eqn:Eca.
      - pose proof (filter_jm_set (λ '(_, x), P c x) s a l) as Hn.
        assert (List.filter (λ '(_, x), P c x) l = List.filter (λ '(_, x), P a x) l) as E
          by (apply List.filter_ext; intros [? ?]; by apply Hsame). rewrite E in Hn. lia.
      - pose proof (filter_jm_set_out (λ '(_, x), P c x) s a l Eca). lia. }
    destruct (tests_agree c a) as (T1 & T2 & T3). split; [|split]; by apply Hone.
  - intros s1 s2 x1 x2 H1 H2 H12. rewrite <-jm_get_Some, jm_get_set in H1, H2 by done.
    case_decide as E1; case_decide as E2; try congruence.
    + subst s2. injection H2 as <-. apply jm_get_Some in H1; [|done].
      rewrite (Hothers s1 x1 H1) in H12; congruence.
    + subst s1. injection H1 as <-. apply jm_get_Some in H2; [|done].
      pose proof (sameOwner_sym _ _ H12) as H12'. rewrite (Hothers s2 x2 H2) in H12'; congruence.
    + apply jm_get_Some in H1, H2; [|done..]. eauto.
Qed.

(** ** Calls *)

(** Calls that change neither who has a session nor who waits for one. *)
Definition quiet (R R' : Registry) : Prop :=
  owners R' = owners R ∧ pending R' = pending R ∧ pendingByIp R' = pendingByIp R.

#[local] Instance quiet_preorder : PreOrder quiet.
Proof.
  split; [done|]. intros R1 R2 R3 (A1 & A2 & A3) (B1 & B2 & B3).
  split; [|split]; congruence.
Qed.

Lemma fold_quiet {B} (f : Registry → B → Registry) l R :
  (∀ R b, quiet R (f R b)) → quiet R (fold_left f l R).
Proof. intros. by apply (fold_left_preorder quiet). Qed.

Lemma quiet_ok R R' : quiet R R' → registry_ok R → registry_ok R'.
Proof. unfold registry_ok. by intros (-> & -> & ->). Qed.

Lemma prune_quiet now R : quiet R (pruneFloors now R).
Proof. unfold pruneFloors. by destruct (_ <? _). Qed.

Lemma current_quiet now a R : quiet R (authorityIsCurrent now a R).2.
Proof.
  unfold authorityIsCurrent. destruct (negb _); [done|]. destruct (negb _); [done|]. apply prune_quiet.
Qed.

Lemma owners_set s x (l : list (nat * ActiveSession)) :
  prod_map id s_authority <$> jm_set s x l = jm_set s (s_authority x) (prod_map id s_authority <$> l).
Proof. induction l as [|[s' y] l IH]; [done|]. csimpl. case_decide; csimpl; [done|]. by rewrite IH. Qed.

Lemma owners_delete s (l : list (nat * ActiveSession)) :
  prod_map id s_authority <$> jm_delete s l = jm_delete s (prod_map id s_authority <$> l).
Proof.
  unfold jm_delete. induction l as [|[s' y] l IH]; [done|]. csimpl. case_bool_decide; csimpl; by rewrite IH.
Qed.

Lemma owners_get s (l : list (nat * ActiveSession)) :
  jm_get s (prod_map id s_authority <$> l) = s_authority <$> jm_get s l.
Proof. induction l as [|[s' y] l IH]; [done|]. csimpl. by case_decide. Qed.

Lemma jm_set_get {V} s (v : V) (l : list (nat * V)) : jm_get s l = Some v → jm_set s v l = l.
Proof.
  induction l as [|[s' w] l IH]; cbn; [done|]. case_decide as E; [by intros [= ->]|].
  intros H. by rewrite IH.
Qed.

Lemma update_quiet s f R : (∀ x, s_authority (f x) = s_authority x) → quiet R (update_session s f R).
Proof.
  intros Hf. unfold update_session. destruct (jm_get s (established R)) as [x|] eqn:Hx; [|done].
  split; [|done]. unfold owners. cbn. rewrite owners_set, Hf. apply jm_set_get. by rewrite owners_get, Hx.
Qed.

Lemma deactivate_quiet s reason R : quiet R (deactivate s reason R).
Proof.
  unfold deactivate. destruct (jm_get s (established R)); [|done].
  etrans; [by apply (update_quiet s deactivated)|done].
Qed.

Lemma releasePending_ok s R : registry_ok R → registry_ok (releasePending s R).
Proof.
  intros (Hs & Hp & Ha). destruct (releasePending_lists s R Hp) as (Hp' & El & Eo).
  split; [by rewrite Eo|]. split; [done|]. intros s'. rewrite El, Eo, jm_delete_keys, elem_of_bfilter.
  intros [H _]. by apply Ha.
Qed.

Lemma release_ok s R : registry_ok R → registry_ok (release s R).
Proof.
  intros H%(releasePending_ok s). revert H. unfold release. generalize (releasePending s R). clear R. intros R.
  intros (Hs & Hp & Ha). split; [|split; [done|]]; unfold owners; cbn; rewrite owners_delete.
  - by apply sessions_delete.
  - intros s' Hs'. cbn in Hs'. rewrite jm_delete_keys, elem_of_bfilter. intros [Hin _]. by apply (Ha s').
Qed.

Lemma fold_ok {B} (f : Registry → B → Registry) l : ∀ R,
  (∀ R b, registry_ok R → registry_ok (f R b)) → registry_ok R → registry_ok (fold_left f l R).
Proof. induction l as [|b l IH]; intros R Hf HR; cbn; [done|]. apply IH; auto. Qed.

Lemma stale_quiet now a current R : quiet R (stale now a current R).2.
Proof.
  unfold stale. repeat (destruct (_ : bool); [done|]). apply prune_quiet.
Qed.

Lemma find_owner s a R :
  match same_owner_elsewhere s a R with
  | Some c => c ≠ s ∧ ∃ x, (c, x) ∈ owners R ∧ sameOwner x a = true
  | None => ∀ s' x, (s', x) ∈ owners R → s' ≠ s → sameOwner x a = false
  end.
Proof.
  unfold same_owner_elsewhere, owners. induction (established R) as [|[c y] l IH]; cbn.
  { intros s' x H. by apply elem_of_nil in H. }
  destruct (negb (c =? s)%nat && sameOwner (s_authority y) a) eqn:E; cbn.
  - apply andb_true_iff in E as [E1%negb_true_iff%Nat.eqb_neq E2]. split; [done|].
    eexists. split; [left|done].
  - destruct (List.find _ l) as [[c' y']|]; cbn in *.
    + destruct IH as [Hne (x & Hx & Ho)]. split; [done|]. exists x. split; [by right|done].
    + intros s' x [[= -> ->]|Hin]%elem_of_cons Hne; [|by apply (IH s')].
      apply andb_false_iff in E as [E|E]; [|done]. apply negb_false_iff, Nat.eqb_eq in E. done.
Qed.

Lemma activate_ok now is_open s a sid current renewal R :
  registry_ok R → registry_ok (activate limits now is_open s a sid current renewal R).2.
Proof.
  intros HR. unfold activate. destruct (_ || _); [done|]. cbv zeta.
  assert (registry_ok (raise_generation (a_issuer a) (cur_generation current) (releasePending s R)))
    as H1 by (by apply (releasePending_ok s) in HR).
  assert (s ∉ (pending (raise_generation (a_issuer a) (cur_generation current) (releasePending s R))).*1)
    as Hs1.
  { destruct HR as (_ & Hp & _). destruct (releasePending_lists s R Hp) as (_ & El & _). cbn.
    rewrite El, jm_delete_keys, elem_of_bfilter. intros [_ H]. by rewrite bool_decide_true in H. }
  revert H1 Hs1. generalize (raise_generation (a_issuer a) (cur_generation current) (releasePending s R)).
  intros R1 H1 Hs1. pose proof (stale_quiet now a current R1) as Q.
  destruct (stale now a current R1) as [st R2]. cbn in Q.
  pose proof (quiet_ok _ _ Q H1) as H2. destruct st; [done|].
  pose proof (find_owner s a R2) as Hfind.
  set (R3 := match same_owner_elsewhere s a R2 with Some _ => _ | None => _ end).
  assert (registry_ok R3 ∧ (∀ s' x, (s', x) ∈ owners R3 → s' ≠ s → sameOwner x a = false) ∧
    s ∉ (pending R3).*1) as (H3 & Hothers & Hs3).
  { unfold R3. destruct Q as (_ & Qp & _). destruct (same_owner_elsewhere s a R2) as [c|].
    - destruct Hfind as (Hne & x & Hx & Hxa). split; [by apply release_ok|].
      pose proof H2 as (Hs2 & Hp2 & _). destruct (releasePending_lists c R2 Hp2) as (_ & El & Eo). split.
      + intros s' y Hy Hns. destruct (sameOwner y a) eqn:Ey; [exfalso|done].
        unfold owners in Hy. cbn in Hy. rewrite owners_delete in Hy.
        apply jm_delete_elem in Hy as [Hc Hy]. fold (owners (releasePending c R2)) in Hy. rewrite Eo in Hy.
        destruct Hc. apply (ok_owners _ Hs2 c s' x y Hx Hy).
        eapply sameOwner_trans; [exact Hxa|by apply sameOwner_sym].
      + cbn. rewrite El, jm_delete_keys, elem_of_bfilter, Qp. tauto.
    - split; [done|]. split; [done|]. by rewrite Qp. }
  destruct (withinLimits limits a R3) eqn:Hw; [|done]. cbn [negb snd].
  apply withinLimits_spec in Hw as [Hlen Hsubs]. destruct H3 as (Hs & Hp & Hap).
  split; [|split; [done|]]; unfold owners; cbn; rewrite owners_set.
  - by apply sessions_new.
  - intros s' Hs'. cbn in Hs'. rewrite jm_set_keys. case_decide; [by apply Hap|].
    intros [Hin|Hin]%elem_of_app; [by apply (Hap s')|].
    apply list_elem_of_singleton in Hin. by subst s'.
Qed.

Lemma renew_ok now is_open s a nonce at_ R :
  registry_ok R → registry_ok (renew now is_open s a nonce at_ R).2.
Proof.
  intros HR. unfold renew. destruct (jm_get s (established R)) as [x|] eqn:Hx; [|done].
  destruct (_ || _) eqn:Eg; [done|]. rewrite !orb_false_iff in Eg.
  destruct_and?. match goal with H : negb (sameOwner _ _) = false |- _ => apply negb_false_iff in H end.
  assert (jm_get s (established (pruneFloors now R)) = Some x) as Hx'.
  { unfold pruneFloors. by destruct (_ <? _). }
  pose proof (quiet_ok _ _ (prune_quiet now R) HR) as H'. unfold minimumRevision. cbv zeta.
  destruct (_ <? _); [done|]. cbn [snd]. destruct H' as (Hs & Hp & Ha).
  unfold update_session. rewrite Hx'.
  assert (jm_get s (owners (pruneFloors now R)) = Some (s_authority x)) as Hg
    by (unfold owners; by rewrite owners_get, Hx').
  split; [|split; [done|]]; unfold owners; cbn; rewrite owners_set; cbn.
  - by apply (sessions_same s a (s_authority x)).
  - intros s' Hs'. cbn in Hs'. rewrite jm_set_keys, decide_True; [by apply Ha|].
    apply jm_get_Some in Hg; [|apply Hs]. by apply (list_elem_of_fmap_2 fst) in Hg.
Qed.

Lemma call_ok now c R : proper c R → registry_ok R → registry_ok (call limits now c R).
Proof.
  intros Hc HR. destruct c; cbn [call].
  - destruct Hc as (Hip & Hs & Ho). unfold acquirePending.
    destruct (Z.leb_spec (pendingHandshakes limits) (Z.of_nat (length (pending R)))); [done|]. cbv zeta.
    destruct (_ && _); [done|]. destruct HR as (HS & HP & HA). split; [done|].
    split; [by apply acquire_ok|]. cbn. intros s'. rewrite jm_set_keys, decide_False by done.
    intros [Hin|Hin]%elem_of_app; [by apply HA|]. apply list_elem_of_singleton in Hin. by subst s'.
  - by apply activate_ok.
  - by apply renew_ok.
  - eapply quiet_ok; [|exact HR]. unfold isActive. destruct (jm_get socket (established R)); [|done].
    destruct (negb _); [done|]. destruct (_ <=? _); [apply deactivate_quiet|done].
  - eapply quiet_ok; [|exact HR]. unfold expire. destruct (jm_get socket (established R)) as [x|]; [|done].
    destruct (s_expiryTimer x); [|done]. destruct (_ <=? _); [|done].
    etrans; [|apply deactivate_quiet]. by apply update_quiet.
  - eapply quiet_ok; [apply prune_quiet|done].
  - eapply quiet_ok; [|exact HR]. unfold registerTransfer. cbv zeta.
    set (R1 := raise_generation _ _ R). destruct (_ <=? _); [done|].
    pose proof (current_quiet now authority R1) as Q. by destruct (authorityIsCurrent _ _ _) as [b R2].
  - done.
  - eapply quiet_ok; [|exact HR]. unfold transferActive.
    destruct (jm_get id (transfers R)); [apply current_quiet|done].
  - eapply quiet_ok; [|exact HR]. unfold revise. cbv zeta.
    etrans; [|apply fold_quiet; intros R' [id a]; unfold revise_transfer; cbn [fst snd]].
    + etrans; [|apply fold_quiet; intros R' [s x]; unfold revise_session; cbn [fst snd]].
      * etrans; [|apply fold_quiet; done]. etrans; [apply prune_quiet|done].
      * pose proof (current_quiet now (s_authority x) R') as Q. destruct (authorityIsCurrent _ _ _) as [[] R2];
          [done|]. etrans; [exact Q|apply deactivate_quiet].
    + pose proof (current_quiet now a R') as Q. by destruct (authorityIsCurrent _ _ _) as [[] R2].
  - eapply quiet_ok; [|exact HR]. unfold revokeIssuer. cbv zeta.
    etrans; [|apply fold_quiet; intros R' [id a]; by case_bool_decide].
    etrans; [|apply fold_quiet; intros R' [s x]; case_bool_decide; [apply deactivate_quiet|done]]. done.
  - by apply releasePending_ok.
  - by apply release_ok.
  - unfold close. cbv zeta. eapply quiet_ok; [by apply fold_quiet|].
    apply fold_ok; [intros; by apply releasePending_ok|]. apply fold_ok; [intros; by apply release_ok|done].
Qed.
End Limits.

(** Runs of calls as the Relay makes them. *)
Inductive proper_run (limits : BrowserLimits) : Z → Registry → Prop :=
  | run_starts now : proper_run limits now empty_registry
  | run_calls now R now' c :
      proper_run limits now R → now <= now' → proper c R → proper_run limits now' (call limits now' c R).

(** The registry never holds more than it may. However sockets connect,
    authenticate, renew, expire, are replaced, revoked and released, the
    sessions stay within the Relay's limit and, where enforced, within those
    per resource, per person and per person and resource of each Hearth; no
    owner has two sessions; no socket is both waiting and established; and
    the waiting sockets stay within theirs, each address counted exactly, so
    that none is let in or kept out by a slot that leaked. *)
Theorem registry_limits limits now R :
  0 <= sessions limits → 0 <= sessionsPerInstance limits → 0 <= sessionsPerUser limits →
  0 <= sessionsPerUserInstance limits → 0 <= pendingHandshakes limits →
  proper_run limits now R → registry_ok limits R.
Proof.
  intros H1 H2 H3 H4 H5. induction 1 as [now|now R now' c _ IH _ Hc]; [|by apply call_ok].
  split; [|split].
  - split; [constructor|done|intros _ a; cbn; auto|intros s s' x x' H; by apply elem_of_nil in H].
  - split; [constructor|done|intros s ip H; by apply elem_of_nil in H|done].
  - intros s H. by apply elem_of_nil in H.
Qed.

Example registry_limits_witness :
  registry_ok (MkLimits 2 1 1 1 1 1 true)
    (call (MkLimits 2 1 1 1 1 1 true) 5
       (CActivate true 0 (browserAuthority sample_capability) "s" (MkCurrent 1 0) None)
       (call (MkLimits 2 1 1 1 1 1 true) 4 (CAcquire 0 "::1" true) empty_registry)).
Proof.
  apply (registry_limits (MkLimits 2 1 1 1 1 1 true) 5); [discriminate..|].
  apply (run_calls _ 4); [|discriminate|exact I].
  apply (run_calls _ 0); [apply run_starts|discriminate|].
  split; [discriminate|]. split; intros H; inversion H.
Defined.
