(* ===== verification/Outbox.v ===== *)
(** * The browser outbox

    Models [apps/relay/src/browser-outbox.ts]: the messages waiting for one
    browser, bounded, with priority and with only the newest resource
    reading kept, and those waiting for room in it.

    The socket's state and whether the session may have a message are
    arguments of each event. What is handed to the socket, what is dropped
    unsent, how the socket is closed and how waits end are recorded, each in
    its order. *)
From S2P Require Import Prelude Bytes Utf8.

Open Scope Z_scope.

Record OutboxItem := MkItem { it_action : option string; it_bytes : Z; it_encoded : JsString }.

Inductive BrowserOutboxKind := Console | Priority | Resource.

#[global] Instance BrowserOutboxKind_eq_dec : EqDecision BrowserOutboxKind.
Proof. solve_decision. Defined.

Inductive ReadyState := CONNECTING | OPEN | CLOSING | CLOSED.

#[global] Instance ReadyState_eq_dec : EqDecision ReadyState.
Proof. solve_decision. Defined.

(** A wait for room, by its number. *)
Record RoomWaiter := MkRoomWaiter { rw_id : nat; rw_bytes : Z }.

Record Outbox := MkOutbox {
  normal : list OutboxItem;
  priority : list OutboxItem;
  roomWaiters : list RoomWaiter;
  bytes : Z;
  closed : bool;
  resource : option OutboxItem;
  sending : bool;
  (** [setImmediate] calls of [#wakeRoomWaiter] that are due. *)
  wakes : nat;
  next_wait : nat;
  sent : list (BrowserOutboxKind * OutboxItem);
  dropped : list (BrowserOutboxKind * OutboxItem);
  socket_closes : list (Z * string);
  resolved : list (nat * bool);
}.

Definition empty_outbox : Outbox := MkOutbox [] [] [] 0 false None false 0 0 [] [] [] [].

Section Outbox.
Variables (maxBytes maxMessages : Z).
(** The socket's state and what the session may have, as the event happens. *)
Variables (readyState : ReadyState) (authorize : option string → bool).

Definition messageCount (O : Outbox) : Z :=
  Z.of_nat (length (priority O)) + Z.of_nat (length (normal O)) +
  (if resource O then 1 else 0).

Definition hasRoomFor (n : Z) (O : Outbox) : bool :=
  (messageCount O =? 0) ||
  ((2 * (bytes O + n) <=? maxBytes) && (2 * messageCount O <? maxMessages)).

Definition close (O : Outbox) : Outbox :=
  MkOutbox [] [] [] 0 true None (sending O) (wakes O) (next_wait O) (sent O) (dropped O)
    (socket_closes O) (resolved O ++ ((λ w, (rw_id w, false)) <$> roomWaiters O)).

Definition close_socket (reason : string) (O : Outbox) : Outbox :=
  MkOutbox (normal O) (priority O) (roomWaiters O) (bytes O) (closed O) (resource O) (sending O)
    (wakes O) (next_wait O) (sent O) (dropped O) (socket_closes O ++ [(1013, reason)]) (resolved O).

Definition overflow (O : Outbox) : Outbox :=
  let O := close O in
  if decide (readyState = OPEN ∨ readyState = CONNECTING)
  then close_socket "Browser is not consuming messages" O else O.

Definition wakeRoomWaiter (O : Outbox) : Outbox :=
  match roomWaiters O with
  | [] => O
  | waiter :: rest =>
      if closed O || negb (hasRoomFor (rw_bytes waiter) O) then O
      else
        MkOutbox (normal O) (priority O) rest (bytes O) (closed O) (resource O) (sending O)
          (match rest with [] => wakes O | _ => S (wakes O) end)
          (next_wait O) (sent O) (dropped O) (socket_closes O) (resolved O ++ [(rw_id waiter, true)])
  end.

Definition set_queues (ps ns : list OutboxItem) (r : option OutboxItem) (n : Z) (O : Outbox) : Outbox :=
  MkOutbox ns ps (roomWaiters O) n (closed O) r (sending O) (wakes O) (next_wait O) (sent O)
    (dropped O) (socket_closes O) (resolved O).

(** The next message, with the queue it was in. *)
Definition next (O : Outbox) : option (BrowserOutboxKind * OutboxItem) * Outbox :=
  match priority O with
  | item :: rest =>
      (Some (Priority, item), set_queues rest (normal O) (resource O) (bytes O - it_bytes item) O)
  | [] =>
      match normal O with
      | item :: rest =>
          (Some (Console, item), set_queues [] rest (resource O) (bytes O - it_bytes item) O)
      | [] =>
          match resource O with
          | Some item => (Some (Resource, item), set_queues [] [] None (bytes O - it_bytes item) O)
          | None => (None, O)
          end
      end
  end.

Definition drop_item (m : BrowserOutboxKind * OutboxItem) (O : Outbox) : Outbox :=
  MkOutbox (normal O) (priority O) (roomWaiters O) (bytes O) (closed O) (resource O) (sending O)
    (wakes O) (next_wait O) (sent O) (dropped O ++ [m]) (socket_closes O) (resolved O).

Definition hand_over (m : BrowserOutboxKind * OutboxItem) (O : Outbox) : Outbox :=
  MkOutbox (normal O) (priority O) (roomWaiters O) (bytes O) (closed O) (resource O) true
    (wakes O) (next_wait O) (sent O ++ [m]) (dropped O) (socket_closes O) (resolved O).

Fixpoint drain_loop (fuel : nat) (O : Outbox) : Outbox :=
  if sending O || closed O then O
  else
    match next O with
    | (None, O') => wakeRoomWaiter O'
    | (Some m, O') =>
        if authorize (it_action (snd m)) then hand_over m O'
        else
          match fuel with
          | 0%nat => drop_item m O'
          | S rest => drain_loop rest (drop_item m O')
          end
    end.

(** Each round takes a message out, so there are no more rounds than messages. *)
Definition drain (O : Outbox) : Outbox := drain_loop (Z.to_nat (messageCount O)) O.

Definition send (encoded : JsString) (kind : BrowserOutboxKind) (action : option string)
    (O : Outbox) : bool * Outbox :=
  if closed O || negb (bool_decide (readyState = OPEN)) || negb (authorize action) then (false, O)
  else
    let item := MkItem action (Z.of_nat (length (text_encode encoded))) encoded in
    if maxBytes <? it_bytes item then (false, overflow O)
    else
      let O :=
        match kind with
        | Resource =>
            let n := match resource O with Some r => bytes O - it_bytes r | None => bytes O end in
            set_queues (priority O) (normal O) (Some item) (n + it_bytes item) O
        | Priority =>
            set_queues (priority O ++ [item]) (normal O) (resource O) (bytes O + it_bytes item) O
        | Console =>
            set_queues (priority O) (normal O ++ [item]) (resource O) (bytes O + it_bytes item) O
        end in
      if (maxBytes <? bytes O) || (maxMessages <? messageCount O) then (false, overflow O)
      else (true, drain O).

(** The wait's number; it has ended already when it is among the resolved. *)
Definition whenRoomFor (n : Z) (O : Outbox) : nat * Outbox :=
  let id := next_wait O in
  let with_wait waiters ended :=
    MkOutbox (normal O) (priority O) waiters (bytes O) (closed O) (resource O) (sending O) (wakes O)
      (S id) (sent O) (dropped O) (socket_closes O) (resolved O ++ ended) in
  (id,
    if closed O then with_wait (roomWaiters O) [(id, false)]
    else if bool_decide (roomWaiters O = []) && hasRoomFor n O then with_wait [] [(id, true)]
    else with_wait (roomWaiters O ++ [MkRoomWaiter id n]) []).

(** The socket's answer to the message handed to it. *)
Definition delivered (failed : bool) (O : Outbox) : Outbox :=
  let O := MkOutbox (normal O) (priority O) (roomWaiters O) (bytes O) (failed || closed O)
             (resource O) false (wakes O) (next_wait O) (sent O) (dropped O) (socket_closes O)
             (resolved O) in
  if failed then
    if decide (readyState = OPEN) then close_socket "Browser delivery failed" O else O
  else drain (wakeRoomWaiter O).

(** ** Events *)

Inductive OutboxEvent :=
  | EvSend (encoded : JsString) (kind : BrowserOutboxKind) (action : option string)
  | EvWhenRoomFor (n : Z)
  | EvClose
  | EvDelivered (failed : bool)
  | EvWake.

(** What the event does, where it can happen: the socket answers only what it
    was handed, and only due calls are made. *)
Definition outbox_event (ev : OutboxEvent) (O : Outbox) : option Outbox :=
  match ev with
  | EvSend encoded kind action => Some (send encoded kind action O).2
  | EvWhenRoomFor n => Some (whenRoomFor n O).2
  | EvClose => Some (close O)
  | EvDelivered failed => if sending O then Some (delivered failed O) else None
  | EvWake =>
      match wakes O with
      | 0%nat => None
      | S w =>
          Some (wakeRoomWaiter
            (MkOutbox (normal O) (priority O) (roomWaiters O) (bytes O) (closed O) (resource O)
               (sending O) w (next_wait O) (sent O) (dropped O) (socket_closes O) (resolved O)))
      end
  end.

(** The message an event takes up. *)
Definition accepted (ev : OutboxEvent) (O : Outbox) : list (BrowserOutboxKind * OutboxItem) :=
  match ev with
  | EvSend encoded kind action =>
      if (send encoded kind action O).1
      then [(kind, MkItem action (Z.of_nat (length (text_encode encoded))) encoded)] else []
  | _ => []
  end.
End Outbox.

(** The states a run of events reaches, with the messages taken up. *)
Inductive outbox_run (maxBytes maxMessages : Z)
    : Outbox → list (BrowserOutboxKind * OutboxItem) → Prop :=
  | run_empty : outbox_run maxBytes maxMessages empty_outbox []
  | run_event O taken readyState authorize ev O' :
      outbox_run maxBytes maxMessages O taken →
      outbox_event maxBytes maxMessages readyState authorize ev O = Some O' →
      outbox_run maxBytes maxMessages O'
        (taken ++ accepted maxBytes maxMessages readyState authorize ev O).
