(* ===== verification/OutboxFacts.v ===== *)
(** * The browser outbox: what it guarantees

    Properties of [Outbox] over every run of its events: its bounds and its
    waits, the order and completeness of what is sent, and, with the sessions
    of [Sessions] deciding, who gets anything at all. *)
From S2P Require Import Prelude Bytes Utf8 Sessions SessionFacts Outbox.

Open Scope Z_scope.

Definition queued (O : Outbox) : list OutboxItem :=
  priority O ++ normal O ++ option_list (resource O).

Definition total (items : list OutboxItem) : Z := foldr (λ item n, it_bytes item + n) 0 items.

Lemma total_app l1 l2 : total (l1 ++ l2) = total l1 + total l2.
Proof. unfold total. induction l1 as [|i l1 IH]; cbn; lia. Qed.

Lemma total_nonneg items : Forall (λ item, 0 <= it_bytes item) items → 0 <= total items.
Proof. unfold total. induction 1; cbn; lia. Qed.

Lemma messageCount_queued O : messageCount O = Z.of_nat (length (queued O)).
Proof. unfold messageCount, queued. rewrite !length_app. destruct (resource O); cbn; lia. Qed.

Lemma messageCount_nonneg O : 0 <= messageCount O.
Proof. rewrite messageCount_queued. lia. Qed.

(** ** Draining *)

Section Drain.
Context (maxBytes maxMessages : Z).
Context (readyState : ReadyState) (authorize : option string → bool).

(** The rounds of [drain]: messages the session may no longer have are
    dropped until one is handed over or none is left. *)
Inductive rounds : Outbox → Outbox → Prop :=
  | rounds_busy O : sending O = true ∨ closed O = true → rounds O O
  | rounds_idle O :
      sending O = false → closed O = false → messageCount O = 0 →
      rounds O (wakeRoomWaiter maxBytes maxMessages O)
  | rounds_send O m O' :
      sending O = false → closed O = false → next O = (Some m, O') →
      authorize (it_action (snd m)) = true → rounds O (hand_over m O')
  | rounds_drop O m O' O'' :
      sending O = false → closed O = false → next O = (Some m, O') →
      authorize (it_action (snd m)) = false → rounds (drop_item m O') O'' → rounds O O''.

Lemma next_None O O' : next O = (None, O') → O' = O ∧ messageCount O = 0.
Proof.
  unfold next, messageCount. destruct (priority O), (normal O), (resource O); cbn; try done.
  by intros [= <-].
Qed.

(** Taking a message out: its queue was the first that has any. *)
Lemma next_Some O m O' :
  next O = (Some m, O') →
  ∃ ps ns r, O' = set_queues ps ns r (bytes O - it_bytes m.2) O ∧
    match m.1 with
    | Priority => priority O = m.2 :: ps ∧ normal O = ns ∧ resource O = r
    | Console => priority O = [] ∧ ps = [] ∧ normal O = m.2 :: ns ∧ resource O = r
    | Resource => priority O = [] ∧ ps = [] ∧ normal O = [] ∧ ns = [] ∧ resource O = Some m.2 ∧ r = None
    end.
Proof.
  unfold next. destruct (priority O) as [|p ps] eqn:Ep; [destruct (normal O) as [|n ns] eqn:En;
    [destruct (resource O) as [r|] eqn:Er|]|]; intros [= <- <-] || done; cbn; eauto 10.
Qed.

Lemma next_queued O m O' :
  next O = (Some m, O') → queued O ≡ₚ m.2 :: queued O' ∧ bytes O' = bytes O - it_bytes m.2.
Proof.
  intros (ps & ns & r & -> & H)%next_Some. unfold queued. cbn. split; [|done].
  destruct m as [[] i]; cbn in *.
  - destruct H as (-> & -> & -> & ->). done.
  - destruct H as (-> & -> & ->). done.
  - destruct H as (-> & -> & -> & -> & -> & ->). done.
Qed.

Lemma drain_loop_rounds fuel : ∀ O,
  messageCount O <= Z.of_nat fuel → rounds O (drain_loop maxBytes maxMessages authorize fuel O).
Proof.
  induction fuel as [|fuel IH]; intros O Hf; cbn [drain_loop];
    destruct (sending O) eqn:Hs; cbn; [apply rounds_busy; auto| |apply rounds_busy; auto|];
    (destruct (closed O) eqn:Hc; [apply rounds_busy; auto|]);
    destruct (next O) as [[m|] O'] eqn:Hn;
    [| destruct (next_None O O' Hn) as [-> ?]; by apply rounds_idle
     | | destruct (next_None O O' Hn) as [-> ?]; by apply rounds_idle];
    pose proof (next_queued O m O' Hn) as [Hq%Permutation_length _];
    rewrite messageCount_queued, Hq in Hf; cbn in Hf; [lia|].
  destruct (authorize _) eqn:Ha; [by eapply rounds_send|].
  eapply rounds_drop; [done..|]. apply IH. rewrite messageCount_queued. unfold queued in *. cbn in *. lia.
Qed.

(** There is fuel enough: [drain] stops because nothing is left to do. *)
Lemma drain_rounds O : rounds O (drain maxBytes maxMessages authorize O).
Proof. apply drain_loop_rounds. pose proof (messageCount_nonneg O). lia. Qed.
End Drain.

(** ** Bounds and waits *)

Record waits_ok (O : Outbox) : Prop := {
  waits_once : (resolved O).*1 ++ (rw_id <$> roomWaiters O) ≡ₚ seq 0 (next_wait O);
  waits_in_turn : closed O = false →
    (resolved O).*1 ++ (rw_id <$> roomWaiters O) = seq 0 (next_wait O);
}.

Section Bounds.
Context (maxBytes maxMessages : Z).

Record sizes_ok (O : Outbox) : Prop := {
  ok_bytes : bytes O = total (queued O);
  ok_items : Forall (λ item, 0 <= it_bytes item) (queued O);
  ok_max_bytes : bytes O <= maxBytes;
  ok_max_messages : messageCount O <= maxMessages;
}.

(** A message waits only behind one that is being sent, and a waiter only
    behind one, or behind a call that will look again. *)
Record live (O : Outbox) : Prop := {
  live_messages : closed O = false → sending O = false → messageCount O = 0;
  live_waiters : closed O = false → roomWaiters O ≠ [] → sending O = true ∨ (0 < wakes O)%nat;
}.

Definition outbox_ok (O : Outbox) : Prop := sizes_ok O ∧ waits_ok O ∧ live O.

Lemma wake_sizes O : sizes_ok O → sizes_ok (wakeRoomWaiter maxBytes maxMessages O).
Proof. unfold wakeRoomWaiter. destruct (roomWaiters O); [done|]. case_match; [done|]. by intros []. Qed.

Lemma wake_waits O : waits_ok O → waits_ok (wakeRoomWaiter maxBytes maxMessages O).
Proof.
  unfold wakeRoomWaiter. destruct (roomWaiters O) as [|w ws] eqn:Hw; [done|].
  destruct (_ || _) eqn:Hg; [done|]. intros [H1 H2]. rewrite Hw in H1, H2.
  assert ((resolved O ++ [(rw_id w, true)]).*1 ++ (rw_id <$> ws) =
    (resolved O).*1 ++ (rw_id <$> w :: ws)) as E by (by rewrite fmap_app, <-app_assoc).
  split; cbn [resolved roomWaiters next_wait closed]; by rewrite E.
Qed.

(** Where there is no message, a waiter is woken, and a call is due while
    another is left. *)
Lemma wake_live O :
  messageCount O = 0 → live (wakeRoomWaiter maxBytes maxMessages O).
Proof.
  intros H0. unfold wakeRoomWaiter. destruct (roomWaiters O) as [|w ws] eqn:Hw; [split; [done|by rewrite Hw]|].
  unfold hasRoomFor. rewrite H0. cbn. rewrite orb_false_r. destruct (closed O) eqn:Hc; [split; by rewrite Hc|].
  split; [done|]. cbn. intros _. destruct ws; [done|]. right. lia.
Qed.

Lemma wake_live_sending O :
  (closed O = false → sending O = false → messageCount O = 0) →
  live (wakeRoomWaiter maxBytes maxMessages O).
Proof.
  intros HL. destruct (decide (messageCount O = 0)) as [H0|H0]; [by apply wake_live|].
  assert (closed O = false → sending O = true) as Hs.
  { intros Hc. destruct (sending O); [done|]. by destruct H0; apply HL. }
  unfold wakeRoomWaiter. destruct (roomWaiters O); [by split; auto|].
  destruct (_ || _); (split; [exact HL|intros; left; by apply Hs]).
Qed.

Lemma next_sizes O m O' : next O = (Some m, O') → sizes_ok O → sizes_ok O'.
Proof.
  intros Hn [Hb Hi Hmb Hmm]. pose proof (next_queued O m O' Hn) as [Hq Hb'].
  rewrite Hq in Hi. apply Forall_cons in Hi as [Hm Hi].
  assert (total (queued O) = it_bytes m.2 + total (queued O')) as Ht.
  { clear -Hq. change (it_bytes m.2 + _) with (total (m.2 :: queued O')).
    induction Hq; unfold total in *; cbn; lia. }
  apply Permutation_length in Hq. cbn in Hq. rewrite messageCount_queued in Hmm.
  split; [lia|done|lia|]. rewrite messageCount_queued. lia.
Qed.

Lemma next_rest O m O' : next O = (Some m, O') →
  resolved O' = resolved O ∧ roomWaiters O' = roomWaiters O ∧ next_wait O' = next_wait O ∧
  closed O' = closed O ∧ sending O' = sending O ∧ sent O' = sent O ∧ dropped O' = dropped O.
Proof. intros (ps & ns & r & -> & _)%next_Some. done. Qed.

Lemma next_waits O m O' : next O = (Some m, O') → waits_ok O → waits_ok O'.
Proof. intros (E1 & E2 & E3 & E4 & _)%next_rest []. split; by rewrite E1, E2, E3, ?E4. Qed.

Lemma rounds_ok auth O O' :
  rounds maxBytes maxMessages auth O O' → sizes_ok O → waits_ok O → outbox_ok O'.
Proof.
  induction 1 as [O Hbusy|O Hs Hc H0|O m O' Hs Hc Hn Ha|O m O' O'' Hs Hc Hn Ha _ IH]; intros HS HW.
  - split; [done|]. split; [done|]. split.
    + intros. destruct Hbusy; congruence.
    + intros Hc _. destruct Hbusy; [by left|congruence].
  - split; [by apply wake_sizes|]. split; [by apply wake_waits|by apply wake_live].
  - pose proof (next_sizes _ _ _ Hn HS) as []. pose proof (next_waits _ _ _ Hn HW) as [].
    split; [by split|]. split; [by split|]. split; [done|]. intros. by left.
  - pose proof (next_sizes _ _ _ Hn HS) as []. pose proof (next_waits _ _ _ Hn HW) as [].
    by apply IH.
Qed.

Section Events.
Context (readyState : ReadyState) (authorize : option string → bool).
Hypothesis maxBytes_nonneg : 0 <= maxBytes.
Hypothesis maxMessages_nonneg : 0 <= maxMessages.

Lemma drain_ok O : sizes_ok O → waits_ok O → outbox_ok (drain maxBytes maxMessages authorize O).
Proof. apply rounds_ok with (auth := authorize), drain_rounds. Qed.

Lemma close_ok O : waits_ok O → outbox_ok (close O).
Proof.
  intros [H1 H2]. split; [by split|]. split; [|by split].
  split; cbn; [|done]. rewrite fmap_app, app_nil_r, <-list_fmap_compose. exact H1.
Qed.

Lemma overflow_ok O : waits_ok O → outbox_ok (overflow readyState O).
Proof.
  intros H%close_ok. unfold overflow. cbv zeta. destruct (decide _); [|done].
  destruct H as ([] & [] & []). by repeat split.
Qed.

Lemma set_queues_waits ps ns r n O : waits_ok O → waits_ok (set_queues ps ns r n O).
Proof. by intros []. Qed.

(** The item a message becomes. *)
Definition item_of (encoded : JsString) (action : option string) : OutboxItem :=
  MkItem action (Z.of_nat (length (text_encode encoded))) encoded.

(** The outbox with a message put in its place. *)
Definition put (kind : BrowserOutboxKind) (item : OutboxItem) (O : Outbox) : Outbox :=
  match kind with
  | Resource =>
      let n := match resource O with Some r => bytes O - it_bytes r | None => bytes O end in
      set_queues (priority O) (normal O) (Some item) (n + it_bytes item) O
  | Priority => set_queues (priority O ++ [item]) (normal O) (resource O) (bytes O + it_bytes item) O
  | Console => set_queues (priority O) (normal O ++ [item]) (resource O) (bytes O + it_bytes item) O
  end.

Lemma send_cases encoded kind action O :
  let result := send maxBytes maxMessages readyState authorize encoded kind action O in
  let item := item_of encoded action in
  (result = (false, O)) ∨
  (result = (false, overflow readyState O)) ∨
  (result = (false, overflow readyState (put kind item O))) ∨
  (result = (true, drain maxBytes maxMessages authorize (put kind item O)) ∧
   closed O = false ∧ authorize action = true ∧
   bytes (put kind item O) <= maxBytes ∧ messageCount (put kind item O) <= maxMessages).
Proof.
  cbv zeta. unfold send. destruct (_ || _ || _) eqn:Hg; [by left|]. fold (item_of encoded action).
  rewrite !orb_false_iff, !negb_false_iff in Hg. destruct (maxBytes <? _); [auto|]. cbv zeta.
  fold (put kind (item_of encoded action) O). destruct (_ || _) eqn:Ho; [auto|].
  rewrite orb_false_iff, !Z.ltb_ge in Ho. tauto.
Qed.

Lemma put_waits kind item O : waits_ok O → waits_ok (put kind item O).
Proof. destruct kind; apply set_queues_waits. Qed.

Lemma put_sizes kind item O :
  0 <= it_bytes item → bytes (put kind item O) <= maxBytes →
  messageCount (put kind item O) <= maxMessages → sizes_ok O → sizes_ok (put kind item O).
Proof.
  intros Hi Hb Hm [Hbytes Hitems _ _]. split; [| |done|done].
  - revert Hbytes. unfold queued. destruct kind, (resource O) as [r|] eqn:Er; cbn [put set_queues
      priority normal resource bytes]; rewrite ?Er, !total_app; unfold total; cbn; lia.
  - revert Hitems. unfold queued. destruct kind, (resource O) as [r|] eqn:Er; cbn [put set_queues
      priority normal resource]; rewrite ?Er; rewrite ?Forall_app; cbn; rewrite ?Forall_cons, ?Forall_nil;
      tauto.
Qed.

Lemma send_ok encoded kind action O :
  outbox_ok O → outbox_ok (send maxBytes maxMessages readyState authorize encoded kind action O).2.
Proof.
  intros (HS & HW & HL).
  destruct (send_cases encoded kind action O) as [->|[->|[->|(-> & _ & _ & Hb & Hm)]]]; cbn [snd].
  - done.
  - by apply overflow_ok.
  - by apply overflow_ok, put_waits.
  - apply drain_ok; [|by apply put_waits]. apply put_sizes; [cbn; lia|done..].
Qed.

Lemma whenRoomFor_ok n O : outbox_ok O → outbox_ok (whenRoomFor maxBytes maxMessages n O).2.
Proof.
  intros ([] & [W1 W2] & [L1 L2]). unfold whenRoomFor. cbn [snd].
  assert (seq 0 (S (next_wait O)) = seq 0 (next_wait O) ++ [next_wait O]) as Es by apply seq_S.
  destruct (closed O) eqn:Hc.
  { split; [by split|]. split; [|by split]. split; [|done].
    cbn [resolved roomWaiters next_wait]. rewrite Es, <-W1, fmap_app. cbn. solve_Permutation. }
  assert (∀ R W, R ++ W = ((resolved O).*1 ++ (rw_id <$> roomWaiters O)) ++ [next_wait O] →
    R ++ W = seq 0 (S (next_wait O))) as Hone by (intros R W ->; by rewrite W2, <-Es).
  destruct (bool_decide (roomWaiters O = []) && _) eqn:Hr.
  - apply andb_true_iff in Hr as [Hr%bool_decide_eq_true _].
    assert ((resolved O ++ [(next_wait O, true)]).*1 ++ (rw_id <$> []) = seq 0 (S (next_wait O))) as E.
    { apply Hone. by rewrite Hr, fmap_app, !app_nil_r. }
    split; [by split|]. split; [split; cbn in *; [by rewrite E|done]|by split].
  - assert ((resolved O ++ []).*1 ++ (rw_id <$> roomWaiters O ++ [MkRoomWaiter (next_wait O) n]) =
      seq 0 (S (next_wait O))) as E.
    { apply Hone. by rewrite app_nil_r, fmap_app, <-app_assoc. }
    split; [by split|]. split; [split; cbn in *; [by rewrite E|done]|]. split; [done|]. cbn. intros _ _.
    destruct (decide (roomWaiters O = [])) as [Hw|Hw]; [|auto].
    rewrite bool_decide_true in Hr by done. unfold hasRoomFor in Hr.
    destruct (sending O) eqn:Hs; [by left|]. by rewrite L1 in Hr.
Qed.

Lemma delivered_ok failed O :
  outbox_ok O → outbox_ok (delivered maxBytes maxMessages readyState authorize failed O).
Proof.
  intros ([] & [] & _). unfold delivered. cbv zeta. destruct failed.
  - destruct (decide _); (split; [by split|split; by split]).
  - apply drain_ok; [apply wake_sizes|apply wake_waits]; by split.
Qed.

Lemma outbox_event_ok ev O O' :
  outbox_event maxBytes maxMessages readyState authorize ev O = Some O' → outbox_ok O → outbox_ok O'.
Proof.
  intros Hev HO. destruct ev; cbn [outbox_event] in Hev.
  - injection Hev as <-. by apply send_ok.
  - injection Hev as <-. by apply whenRoomFor_ok.
  - injection Hev as <-. apply close_ok, HO.
  - destruct (sending O); [|done]. injection Hev as <-. by apply delivered_ok.
  - destruct (wakes O) as [|w] eqn:Hw; [done|]. injection Hev as <-.
    set (O1 := MkOutbox _ _ _ _ _ _ _ w _ _ _ _ _).
    assert (sizes_ok O1 ∧ waits_ok O1) as [H1 H2] by (destruct HO as ([] & [] & _); by split).
    split; [by apply wake_sizes|]. split; [by apply wake_waits|].
    destruct HO as (_ & _ & [HL _]). apply wake_live_sending. exact HL.
Qed.
End Events.
End Bounds.

(** C18: The outbox keeps its bounds, and strands nobody while it is open. In
    every run of its events, whatever the socket answers and the session loses,
    the bytes it counts are those of the messages it holds, within its limits,
    and a wait for room is ended at most once. While it is open no message
    waits unless one is being sent, waits end in the order they began, and one
    is left only behind a message being sent or a call that will look again.
    Once a delivery failed it is closed with what it holds: what waits then
    stays so until [close], which the end of its socket calls, drops the
    messages and ends every wait that is left, so that each began was ended
    once. *)
Theorem outbox_bounded maxBytes maxMessages O taken :
  0 <= maxBytes → 0 <= maxMessages →
  outbox_run maxBytes maxMessages O taken →
  outbox_ok maxBytes maxMessages O ∧
  queued (close O) = [] ∧ roomWaiters (close O) = [] ∧ (resolved (close O)).*1 ≡ₚ seq 0 (next_wait O).
Proof.
  intros Hb Hm Hrun. assert (outbox_ok maxBytes maxMessages O) as HO.
  { induction Hrun; [|by eapply outbox_event_ok]. split; [|split; by split]. by split. }
  split; [done|]. split; [done|]. split; [done|].
  destruct (close_ok maxBytes maxMessages Hb Hm O (proj1 (proj2 HO))) as (_ & [H _] & _). cbn in H |- *. by rewrite app_nil_r in H.
Qed.

(** ** Delivery *)

Definition of_kind (kind : BrowserOutboxKind) (l : list (BrowserOutboxKind * OutboxItem)) :
    list (BrowserOutboxKind * OutboxItem) :=
  List.filter (λ m, bool_decide (m.1 = kind)) l.

(** What waits in a kind's queue. *)
Definition waiting (kind : BrowserOutboxKind) (O : Outbox) : list (BrowserOutboxKind * OutboxItem) :=
  pair kind <$> match kind with
                | Console => normal O
                | Priority => priority O
                | Resource => option_list (resource O)
                end.

(** The messages taken out so far, each with whether it was sent. *)
Record delivery (out : list (bool * (BrowserOutboxKind * OutboxItem)))
    (taken : list (BrowserOutboxKind * OutboxItem)) (O : Outbox) : Prop := {
  out_sent : sent O = (List.filter fst out).*2;
  out_dropped : dropped O = (List.filter (negb ∘ fst) out).*2;
  out_order : ∀ kind, of_kind kind out.*2 ++ waiting kind O `sublist_of` of_kind kind taken;
  out_complete : ∀ kind, kind ≠ Resource → closed O = false →
    of_kind kind out.*2 ++ waiting kind O = of_kind kind taken;
  out_newest : ∀ item, resource O = Some item → last (of_kind Resource taken) = Some (Resource, item);
}.

Lemma of_kind_app kind l1 l2 : of_kind kind (l1 ++ l2) = of_kind kind l1 ++ of_kind kind l2.
Proof. apply List.filter_app. Qed.

Section Delivery.
Context (maxBytes maxMessages : Z).
Context (readyState : ReadyState) (authorize : option string → bool).

(** Changes that leave the messages alone. *)
Lemma delivery_same out taken O O' :
  delivery out taken O → sent O' = sent O → dropped O' = dropped O → normal O' = normal O →
  priority O' = priority O → resource O' = resource O → (closed O' = false → closed O = false) →
  delivery out taken O'.
Proof.
  intros [D1 D2 D3 D4 D5] E1 E2 E3 E4 E5 E6.
  assert (∀ kind, waiting kind O' = waiting kind O) as Ew by (intros []; cbn; by rewrite ?E3, ?E4, ?E5).
  split; rewrite ?E1, ?E2, ?E5; [done..| | |done]; intros kind; rewrite Ew; auto.
Qed.

Lemma wake_delivery out taken O :
  delivery out taken O → delivery out taken (wakeRoomWaiter maxBytes maxMessages O).
Proof.
  intros D. apply (delivery_same out taken O); [done|..]; unfold wakeRoomWaiter;
    (destruct (roomWaiters O); [done|]); by destruct (_ || _).
Qed.

(** A message taken out, and what became of it. *)
Lemma next_delivery out taken O m O' (was_sent : bool) :
  next O = (Some m, O') → delivery out taken O →
  delivery (out ++ [(was_sent, m)]) taken (if was_sent then hand_over m O' else drop_item m O').
Proof.
  intros Hn [D1 D2 D3 D4 D5].
  assert (∀ kind, waiting kind O = of_kind kind [m] ++ waiting kind O') as Hw.
  { apply next_Some in Hn as (ps & ns & r & -> & Hm). destruct m as [[] i]; cbn in Hm.
    - destruct Hm as (Ep & -> & En & Er). intros []; cbn; by rewrite ?Ep, ?En, ?Er.
    - destruct Hm as (Ep & En & Er). intros []; cbn; by rewrite ?Ep, ?En, ?Er.
    - destruct Hm as (Ep & -> & En & -> & Er & ->). intros []; cbn; by rewrite ?Ep, ?En, ?Er. }
  assert (∀ kind, of_kind kind (out ++ [(was_sent, m)]).*2 ++ waiting kind O' =
    of_kind kind out.*2 ++ waiting kind O) as Ho.
  { intros kind. by rewrite fmap_app, of_kind_app, <-app_assoc, Hw. }
  assert (∀ kind, waiting kind (if was_sent then hand_over m O' else drop_item m O') = waiting kind O')
    as Ew by (by destruct was_sent, kind).
  pose proof (next_rest _ _ _ Hn) as (_ & _ & _ & Ec & _ & Es & Ed).
  split.
  - rewrite List.filter_app, fmap_app, <-D1, <-Es. destruct was_sent; cbn; by rewrite ?app_nil_r.
  - rewrite List.filter_app, fmap_app, <-D2, <-Ed. destruct was_sent; cbn; by rewrite ?app_nil_r.
  - intros kind. by rewrite Ew, Ho.
  - intros kind Hk Hc. rewrite Ew, Ho. apply D4; [done|]. rewrite <-Ec. by destruct was_sent.
  - intros item Hr. apply D5. apply next_Some in Hn as (ps & ns & r & -> & Hm).
    assert (r = Some item) as -> by (by destruct was_sent).
    destruct m as [[] i]; cbn in Hm; destruct_and?; by simplify_eq.
Qed.

Lemma rounds_delivery out taken O O' :
  rounds maxBytes maxMessages authorize O O' → delivery out taken O →
  ∃ out', delivery (out ++ out') taken O'.
Proof.
  intros Hr. revert out. induction Hr as [O _|O _ _ _|O m O' _ _ Hn _|O m O' O'' _ _ Hn _ _ IH]; intros out D.
  - exists []. by rewrite app_nil_r.
  - exists []. rewrite app_nil_r. by apply wake_delivery.
  - eexists. by apply (next_delivery out taken O m O' true).
  - destruct (IH _ (next_delivery out taken O m O' false Hn D)) as [out' D'].
    exists ([(false, m)] ++ out'). by rewrite app_assoc.
Qed.

Lemma close_delivery out taken O : delivery out taken O → delivery out taken (close O).
Proof.
  intros [D1 D2 D3 D4 D5]. split; [done..| | |].
  - intros kind. etrans; [|apply D3]. apply sublist_app; [done|]. destruct kind; apply sublist_nil_l.
  - done.
  - done.
Qed.

(** What overflows is dropped with all that waits. *)
Lemma overflow_put_delivery out taken kind item O :
  delivery out taken O → delivery out taken (overflow readyState (put kind item O)).
Proof.
  intros H%close_delivery. apply (delivery_same out taken (close O)); [done|..];
    unfold overflow; cbv zeta; by destruct kind, (decide _).
Qed.

Lemma overflow_delivery out taken O : delivery out taken O → delivery out taken (overflow readyState O).
Proof.
  intros H%close_delivery. unfold overflow. cbv zeta. destruct (decide _); [|done].
  by apply (delivery_same out taken (close O)).
Qed.

Lemma put_delivery out taken kind item O :
  closed O = false → delivery out taken O → delivery out (taken ++ [(kind, item)]) (put kind item O).
Proof.
  intros Hc [D1 D2 D3 D4 D5].
  assert (∀ k, k ≠ Resource →
    waiting k (put kind item O) = waiting k O ++ of_kind k [(kind, item)]) as Hw.
  { intros k Hk. destruct k, kind; cbn; rewrite ?fmap_app, ?app_nil_r; done. }
  assert (∀ k, k ≠ Resource → of_kind k out.*2 ++ waiting k (put kind item O) =
    of_kind k (taken ++ [(kind, item)])) as Hall.
  { intros k Hk. by rewrite Hw, app_assoc, D4, of_kind_app. }
  split; [by destruct kind|by destruct kind| |auto|].
  - intros k. destruct (decide (k = Resource)) as [->|Hk]; [|by rewrite Hall].
    rewrite of_kind_app. destruct kind; cbn; rewrite ?app_nil_r; [apply D3..|].
    apply sublist_app; [|done]. etrans; [|apply D3]. by apply sublist_inserts_r.
  - intros i Hi. rewrite of_kind_app. destruct kind; cbn in *; rewrite ?app_nil_r; [auto..|].
    rewrite bool_decide_true by done. rewrite last_snoc. congruence.
Qed.

Lemma accepted_after out taken O ev O' :
  outbox_event maxBytes maxMessages readyState authorize ev O = Some O' → delivery out taken O →
  ∃ out', delivery (out ++ out')
    (taken ++ accepted maxBytes maxMessages readyState authorize ev O) O'.
Proof.
  intros Hev D.
  assert (∀ O1, delivery out taken O1 → ∃ out', delivery (out ++ out') (taken ++ []) O1) as Hnone.
  { intros O1 D1. exists []. by rewrite !app_nil_r. }
  destruct ev as [encoded kind action|n| |failed|]; cbn [outbox_event accepted] in *.
  - injection Hev as <-. fold (item_of encoded action).
    destruct (send_cases maxBytes maxMessages readyState authorize encoded kind action O)
      as [->|[->|[->|(-> & Hc & _)]]]; cbn [fst snd].
    + by apply Hnone.
    + by apply Hnone, overflow_delivery.
    + by apply Hnone, overflow_put_delivery.
    + eapply rounds_delivery; [apply drain_rounds|]. by apply put_delivery.
  - injection Hev as <-. apply Hnone. apply (delivery_same out taken O); [done|..];
      unfold whenRoomFor; cbn [snd]; (destruct (closed O) eqn:Hc; [done|]);
      by destruct (_ && _).
  - injection Hev as <-. by apply Hnone, close_delivery.
  - destruct (sending O); [|done]. injection Hev as <-. rewrite app_nil_r. unfold delivered. cbv zeta.
    destruct failed.
    + exists []. rewrite app_nil_r. destruct (decide _); by apply (delivery_same out taken O).
    + eapply rounds_delivery; [apply drain_rounds|]. apply wake_delivery.
      by apply (delivery_same out taken O).
  - destruct (wakes O); [done|]. injection Hev as <-. apply Hnone, wake_delivery.
    by apply (delivery_same out taken O).
Qed.
End Delivery.

(** C19: The outbox delivers what it took, in order. In every run of its
    events there is one history of the messages taken out, each either handed
    to the socket or dropped as no longer allowed, such that for each kind
    the history followed by what still waits is, in order, part of what the
    outbox took; while it is open, nothing of the console's and of the
    priority messages is missing or doubled; and of resource readings, whose
    predecessors are replaced, the one that waits is the newest taken. *)
Theorem outbox_delivers maxBytes maxMessages O taken :
  outbox_run maxBytes maxMessages O taken → ∃ out, delivery out taken O.
Proof.
  induction 1 as [|O taken readyState authorize ev O' _ [out D] Hev].
  - exists []. split; [done|done|by intros []|by intros []|done].
  - destruct (accepted_after maxBytes maxMessages readyState authorize out taken O ev O' Hev D) as [out' D'].
    eauto.
Qed.

(** ** Who gets messages *)

(** What an event may hand to the socket: one message, allowed now, and of
    the first kind that has any. *)
Definition hands_over (authorize : option string → bool) (O O' : Outbox) : Prop :=
  sent O' = sent O ∨
  ∃ kind item, sent O' = sent O ++ [(kind, item)] ∧ closed O' = false ∧
    authorize (it_action item) = true ∧
    (kind ≠ Priority → priority O' = []) ∧ (kind = Resource → normal O' = []).

Lemma rounds_hand_over maxBytes maxMessages authorize O O' :
  rounds maxBytes maxMessages authorize O O' → hands_over authorize O O'.
Proof.
  induction 1 as [O _|O _ _ _|O [kind item] O' _ Hc Hn Ha|O m O' O'' _ _ Hn _ _ IH].
  - by left.
  - left. unfold wakeRoomWaiter. destruct (roomWaiters O); [done|]. by destruct (_ || _).
  - right. exists kind, item. pose proof (next_rest _ _ _ Hn) as (_ & _ & _ & Ec & _ & Es & _).
    apply next_Some in Hn as (ps & ns & r & -> & Hm). cbn in *. rewrite Hc.
    destruct kind; destruct_and?; subst; by repeat split.
  - pose proof (next_rest _ _ _ Hn) as (_ & _ & _ & _ & _ & Es & _). unfold hands_over in *. cbn in IH.
    by rewrite Es in IH.
Qed.

Lemma event_hands_over maxBytes maxMessages readyState authorize ev O O' :
  outbox_event maxBytes maxMessages readyState authorize ev O = Some O' → hands_over authorize O O'.
Proof.
  assert (∀ O1, sent (wakeRoomWaiter maxBytes maxMessages O1) = sent O1) as Hwake.
  { intros O1. unfold wakeRoomWaiter. destruct (roomWaiters O1); [done|]. by destruct (_ || _). }
  assert (∀ O1, sent (overflow readyState O1) = sent O1) as Hover.
  { intros O1. unfold overflow. cbv zeta. by destruct (decide _). }
  assert (∀ O1, sent O1 = sent O →
    hands_over authorize O (drain maxBytes maxMessages authorize O1)) as Hdrain.
  { intros O1 E. pose proof (rounds_hand_over _ _ _ _ _ (drain_rounds maxBytes maxMessages authorize O1)) as H.
    unfold hands_over in *. by rewrite E in H. }
  intros Hev. destruct ev as [encoded kind action|n| |failed|]; cbn [outbox_event] in Hev.
  - injection Hev as <-.
    destruct (send_cases maxBytes maxMessages readyState authorize encoded kind action O)
      as [->|[->|[->|(-> & _)]]]; cbn [snd]; [by left|left; apply Hover|left; rewrite Hover; by destruct kind|].
    apply Hdrain. by destruct kind.
  - injection Hev as <-. left. unfold whenRoomFor. cbn [snd]. destruct (closed O); [done|]. by destruct (_ && _).
  - injection Hev as <-. by left.
  - destruct (sending O); [|done]. injection Hev as <-. unfold delivered. cbv zeta.
    destruct failed; [left; by destruct (decide _)|]. apply Hdrain. by rewrite Hwake.
  - destruct (wakes O); [done|]. injection Hev as <-. left. by rewrite Hwake.
Qed.

(** Only a browser that may have a message gets it. With the registry of
    sessions deciding, whatever happens to the outbox hands the socket at most
    one message, and only while the socket's session is established, active
    and not expired and its capability allows the message's action - however
    long before it was queued; and no console message passes a priority one,
    nor a resource reading either. *)
Theorem outbox_confined maxBytes maxMessages readyState now socket R ev O O' :
  outbox_event maxBytes maxMessages readyState (λ action, (isActive now socket action R).1) ev O = Some O' →
  sent O' = sent O ∨
  ∃ kind item session,
    sent O' = sent O ++ [(kind, item)] ∧ closed O' = false ∧
    jm_get socket (established R) = Some session ∧ s_active session = true ∧
    now < a_expiresAt (s_authority session) ∧
    (∀ action, truthy (it_action item) = Some action → action ∈ a_actions (s_authority session)) ∧
    (kind ≠ Priority → priority O' = []) ∧ (kind = Resource → normal O' = []).
Proof.
  intros [|(kind & item & Es & Hc & Ha & Hp & Hn)]%event_hands_over; [by left|right].
  unfold isActive in Ha. destruct (jm_get socket (established R)) as [session|] eqn:Hx; [|done].
  destruct (s_active session) eqn:Hact; [|done].
  destruct (Z.leb_spec (a_expiresAt (s_authority session)) now); [done|]. cbn in Ha.
  exists kind, item, session. repeat split; auto.
  intros action Hact'. rewrite Hact' in Ha. by apply bool_decide_eq_true in Ha.
Qed.

(** C20: A revocation silences a browser at once. After the Relay was told
    that a person's access needs a newer revision, and whatever calls follow,
    a browser whose session rests on a capability from before gets nothing
    more: no event of its outbox hands anything to its socket, messages
    queued for it already included, and nothing more is taken up for it. *)
Theorem revoked_browser_silent limits R issuer items issuerGeneration t0 item capability client origin
    relayId action tv now R' now' socket maxBytes maxMessages readyState ev O O' :
  item ∈ items →
  validateCapability capability client origin relayId action tv = true →
  c_version capability = 2 → c_issuedAt capability <= t0 + BROWSER_ISSUED_AT_SKEW_MS →
  c_issuer capability = issuer → c_subject capability = rv_subject item →
  rv_scope item ∈ scopes_of (browserAuthority capability) →
  c_authorizationRevision capability < rv_minimumRevision item →
  later limits (t0, revise issuer items issuerGeneration t0 R) (now, R') → t0 <= now → now <= now' →
  authority_of socket R' = Some (browserAuthority capability) →
  let authorize := λ action, (isActive now' socket action R').1 in
  outbox_event maxBytes maxMessages readyState authorize ev O = Some O' →
  sent O' = sent O ∧ accepted maxBytes maxMessages readyState authorize ev O = [].
Proof.
  intros Hitem Hval Hv Hissued Hi Hs Hscope Hrev Hlater Ht Hn Hauth authorize Hev.
  assert (∀ action, authorize action = false) as Hno.
  { intros required. eapply revoked_inactive; [by eapply revision_holds|].
    exists (browserAuthority capability). split; [done|]. by eapply capability_revoked. }
  split.
  - destruct (event_hands_over _ _ _ _ _ _ _ Hev) as [|(kind & item' & _ & _ & Ha & _)]; [done|].
    by rewrite Hno in Ha.
  - destruct ev as [encoded kind required| | | |]; [|done..]. cbn [accepted].
    destruct (send_cases maxBytes maxMessages readyState authorize encoded kind required O)
      as [->|[->|[->|(_ & _ & Ha & _)]]]; [done..|]. by rewrite Hno in Ha.
Qed.

(** ** Witnesses *)

(** A console message is sent and answered while two more wait. *)
Definition sample_text : JsString := [123; 125].

Definition sample_events : list OutboxEvent :=
  [EvSend sample_text Console None; EvSend sample_text Resource (Some "instance.read");
   EvSend sample_text Priority None; EvWhenRoomFor 60; EvDelivered false].

(** A run with its events and what was taken up, evaluated. *)
Fixpoint run_events (evs : list OutboxEvent) (s : Outbox * list (BrowserOutboxKind * OutboxItem)) :
    option (Outbox * list (BrowserOutboxKind * OutboxItem)) :=
  match evs with
  | [] => Some s
  | ev :: evs =>
      O' ← outbox_event 100 8 OPEN (λ _, true) ev s.1;
      run_events evs (O', s.2 ++ accepted 100 8 OPEN (λ _, true) ev s.1)
  end.

Lemma run_events_run evs : ∀ O taken O' taken',
  outbox_run 100 8 O taken → run_events evs (O, taken) = Some (O', taken') → outbox_run 100 8 O' taken'.
Proof.
  induction evs as [|ev evs IH]; intros O taken O' taken' Hrun; cbn; [by intros [= <- <-]|].
  destruct (outbox_event _ _ _ _ ev O) as [O1|] eqn:Hev; [|done]. apply IH.
  by apply (run_event _ _ O taken OPEN (λ _, true) ev O1).
Qed.

Definition sample_outbox : Outbox :=
  default empty_outbox (fst <$> run_events sample_events (empty_outbox, [])).

Definition sample_taken : list (BrowserOutboxKind * OutboxItem) :=
  (λ kind_action, (kind_action.1, MkItem kind_action.2 2 sample_text)) <$>
    [(Console, None); (Resource, Some "instance.read"); (Priority, None)].

Lemma sample_run : outbox_run 100 8 sample_outbox sample_taken.
Proof.
  assert (run_events sample_events (empty_outbox, []) = Some (sample_outbox, sample_taken)) as H
    by (vm_compute; reflexivity).
  exact (run_events_run sample_events _ _ _ _ (run_empty 100 8) H).
Qed.

Example outbox_bounded_witness : bytes sample_outbox = 2 ∧ outbox_ok 100 8 sample_outbox.
Proof.
  split; [vm_compute; reflexivity|].
  exact (proj1 (outbox_bounded 100 8 sample_outbox sample_taken ltac:(discriminate) ltac:(discriminate) sample_run)).
Defined.

(** After a delivery failed, a message and a wait are left until [close]. *)
Example a_failed_delivery_leaves_waiters :
  ∃ O taken, run_events [EvSend sample_text Console None; EvSend sample_text Console None; EvWhenRoomFor 60; EvDelivered true]
      (empty_outbox, []) = Some (O, taken) ∧
    closed O = true ∧ sending O = false ∧ messageCount O = 1 ∧ length (roomWaiters O) = 1%nat ∧ resolved O = [] ∧
    resolved (close O) = [(0%nat, false)].
Proof. eexists _, _. split; [vm_compute; reflexivity|]. by vm_compute. Qed.

Example outbox_delivers_witness :
  (sent sample_outbox).*1 = [Console; Priority] ∧ ∃ out, delivery out sample_taken sample_outbox.
Proof.
  split; [vm_compute; reflexivity|].
  exact (outbox_delivers 100 8 sample_outbox sample_taken sample_run).
Defined.

(** A session that reads its server's resources, and its registry. *)
Definition sample_registry : Registry :=
  (activate (MkLimits 8 8 8 8 8 8 true) 1000 true 0 (browserAuthority sample_capability) "s"
     (MkCurrent 1 0) None (acquirePending (MkLimits 8 8 8 8 8 8 true) 0 "::1" true empty_registry).2).2.

Definition send_to_session (R : Registry) : OutboxEvent → Outbox → option Outbox :=
  outbox_event 100 8 OPEN (λ action, (isActive 2000 0 action R).1).

Definition first_message : OutboxEvent := EvSend sample_text Console (Some "instance.console.read").

Definition after_first : Outbox :=
  default empty_outbox (send_to_session sample_registry first_message empty_outbox).

Example outbox_confined_witness :
  length (sent after_first) = 1%nat ∧
  (sent after_first = [] ∨
   ∃ kind item session,
     sent after_first = [(kind, item)] ∧ closed after_first = false ∧
     jm_get 0%nat (established sample_registry) = Some session ∧ s_active session = true ∧
     2000 < a_expiresAt (s_authority session) ∧
     (∀ action, truthy (it_action item) = Some action → action ∈ a_actions (s_authority session)) ∧
     (kind ≠ Priority → priority after_first = []) ∧ (kind = Resource → normal after_first = [])).
Proof.
  split; [vm_compute; reflexivity|].
  assert (send_to_session sample_registry first_message empty_outbox = Some after_first) as H
    by (vm_compute; reflexivity).
  exact (outbox_confined 100 8 OPEN 2000 0 sample_registry first_message empty_outbox after_first H).
Defined.

#[local] Notation revised_registry :=
  (revise "hearth" [MkRevision 4 (InstanceScope "f00") "ada"] 1 1500 sample_registry).

(** A message queued behind the one being sent. *)
Definition second_queued : Outbox := put Priority (MkItem None 2 sample_text) after_first.

Definition after_second : Outbox :=
  default empty_outbox (send_to_session revised_registry (EvDelivered false) second_queued).

Example revoked_browser_silent_witness :
  length (dropped after_second) = 1%nat ∧ sent after_second = sent second_queued.
Proof.
  split; [vm_compute; reflexivity|].
  assert (send_to_session revised_registry (EvDelivered false) second_queued = Some after_second) as H
    by (vm_compute; reflexivity).
  refine (proj1 (revoked_browser_silent (MkLimits 8 8 8 8 8 8 true) sample_registry "hearth"
    [MkRevision 4 (InstanceScope "f00") "ada"] 1 1500 (MkRevision 4 (InstanceScope "f00") "ada")
    sample_capability (MkClient ["instance.console.read"] ["https://hearth"] (λ _, true))
    "https://hearth" "relay" None 10 1500 revised_registry 2000 0 100 8 OPEN (EvDelivered false)
    second_queued after_second _ _ _ _ _ _ _ _ _ _ _ _ H)).
  - left.
  - vm_compute. reflexivity.
  - reflexivity.
  - vm_compute. discriminate.
  - reflexivity.
  - reflexivity.
  - right. left.
  - reflexivity.
  - apply later_same.
  - lia.
  - lia.
  - vm_compute. reflexivity.
Defined.
