(* ===== verification/Commands.v ===== *)
(** * Commands in containers

    Models [relay/src/container-commands.ts], a command run once in an App's
    service or a database's container, and of [relay/src/docker-engine.ts]
    how Docker's streams are read: [demultiplexer], which cuts them into the
    pieces stdout and stderr printed, and [outputCollector], which keeps what
    they printed up to a limit.

    What Docker answers is given; a command says what it asked Docker for and
    how it went. [buffer_text] is [buffer.toString("utf8")], which reads
    what is no UTF-8 as U+FFFD, one for each longest start of a character.

    A command's result keeps the end of what it printed, in whatever chunks it
    came and wherever the limit falls, and one that fails did not run. *)
From stdpp Require Import pretty.
From S2P Require Import Prelude Locks Plans Bytes Utf8 Decimals Snbt ScheduleContract.
Open Scope Z_scope.

(** ** Text of any bytes *)

Fixpoint utf8_lossy (bs : list byte) : list Z :=
  match bs with
  | [] => []
  | b0 :: r0 =>
      let x0 := byte.unsigned b0 in
      if x0 <? 0x80 then x0 :: utf8_lossy r0
      else
        match r0 with
        | [] => [0xFFFD]
        | b1 :: r1 =>
            let x1 := byte.unsigned b1 in
            if between 0xC2 0xDF x0 && cont x1 then (x0 - 0xC0) * 64 + (x1 - 0x80) :: utf8_lossy r1
            else if between 0xE0 0xF4 x0 && second_ok x0 x1 then
              match r1 with
              | [] => [0xFFFD]
              | b2 :: r2 =>
                  let x2 := byte.unsigned b2 in
                  if negb (cont x2) then 0xFFFD :: utf8_lossy r1
                  else if x0 <? 0xF0 then (x0 - 0xE0) * 4096 + (x1 - 0x80) * 64 + (x2 - 0x80) :: utf8_lossy r2
                  else
                    match r2 with
                    | [] => [0xFFFD]
                    | b3 :: r3 =>
                        let x3 := byte.unsigned b3 in
                        if negb (cont x3) then 0xFFFD :: utf8_lossy r2
                        else
                          (x0 - 0xF0) * 262144 + (x1 - 0x80) * 4096 + (x2 - 0x80) * 64 + (x3 - 0x80) :: utf8_lossy r3
                    end
              end
            else 0xFFFD :: utf8_lossy r0
        end
  end.

Definition buffer_text (bs : list byte) : JsString := of_scalars (utf8_lossy bs).

(** ** Docker's streams *)

Inductive Stream := Stdout | Stderr.

#[global] Instance Stream_eq_dec : EqDecision Stream.
Proof. solve_decision. Defined.

(** Why reading stops; an empty text is no reason. *)
Definition problem_of (problem : option JsString) : option JsString :=
  match problem with Some [] => None | problem => problem end.

Section Demultiplexer.
Context {S : Type} (onFrame : Stream → list byte → S → S * option JsString).

Record Demultiplexer := MkDemultiplexer { pending : list byte; reader : S }.

(** A whole frame's type, payload and what follows it. *)
Definition next_frame (bs : list byte) : option (Z * list byte * list byte) :=
  if (length bs <? 8)%nat then None
  else
    let len := Z.to_nat (get_uint (take 4 (drop 4 bs))) in
    if (length bs <? 8 + len)%nat then None
    else Some (byte.unsigned (nth 0 bs Byte.x00), take len (drop 8 bs), drop (8 + len) bs).

Definition on_frame (type : Z) (payload : list byte) (s : S) : S * option JsString :=
  if (type =? 0) || (type =? 1) then onFrame Stdout payload s
  else if type =? 2 then onFrame Stderr payload s
  else if type =? 3 then (s, Some (js "Error from daemon in stream: " ++ js_trim (buffer_text payload)))
  else (s, Some (js "Docker sent an unrecognized stream type " ++ print_int type)).

Fixpoint read_frames (fuel : nat) (bs : list byte) (s : S) : Demultiplexer * option JsString :=
  match next_frame bs with
  | None => (MkDemultiplexer bs s, None)
  | Some (type, payload, rest) =>
      let '(s, problem) := on_frame type payload s in
      match problem_of problem, fuel with
      | Some problem, _ => (MkDemultiplexer rest s, Some problem)
      | None, O => (MkDemultiplexer rest s, None)
      | None, Datatypes.S fuel => read_frames fuel rest s
      end
  end.

(** A chunk of a stream without a terminal. *)
Definition demultiplex (chunk : list byte) (d : Demultiplexer) : Demultiplexer * option JsString :=
  let bs := pending d ++ chunk in read_frames (length bs) bs (reader d).

(** A chunk of a terminal's stream. *)
Definition demultiplex_tty (chunk : list byte) (s : S) : S * option JsString := onFrame Stdout chunk s.

(** Chunks until one is a problem. *)
Fixpoint demultiplex_all (chunks : list (list byte)) (d : Demultiplexer) : Demultiplexer * option JsString :=
  match chunks with
  | [] => (d, None)
  | chunk :: chunks =>
      match demultiplex chunk d with
      | (d, None) => demultiplex_all chunks d
      | stopped => stopped
      end
  end.
End Demultiplexer.
Arguments Demultiplexer : clear implicits.
Arguments MkDemultiplexer {S}.

(** [outputCollector] *)
Record Collected := MkCollected { c_stdout : list byte; c_stderr : list byte; c_size : Z }.

Definition collect (maxBytes : Z) (overflow : JsString) (stream : Stream) (payload : list byte) (c : Collected) : Collected * option JsString :=
  let size := c_size c + Z.of_nat (length payload) in
  if maxBytes <? size then (MkCollected (c_stdout c) (c_stderr c) size, Some overflow)
  else
    (match stream with
     | Stderr => MkCollected (c_stdout c) (c_stderr c ++ payload) size
     | Stdout => MkCollected (c_stdout c ++ payload) (c_stderr c) size
     end, None).

Definition collected_output (c : Collected) : JsString * JsString := (buffer_text (c_stdout c), buffer_text (c_stderr c)).

(** ** The end of an output *)

Record Tail := MkTail { limit : Z; chunks : list (list byte); kept : Z; dropped : bool }.

Definition new_tail (limit : Z) : Tail := MkTail limit [] 0 false.

(** While more is kept than fits, of the chunks from the first. *)
Fixpoint drop_excess (limit : Z) (chunks : list (list byte)) (kept : Z) (dropped : bool) : Tail :=
  if kept <=? limit then MkTail limit chunks kept dropped
  else
    match chunks with
    | [] => MkTail limit [] kept true
    | first :: rest =>
        let excess := kept - limit in
        if Z.of_nat (length first) <=? excess then drop_excess limit rest (kept - Z.of_nat (length first)) true
        else MkTail limit (drop (Z.to_nat excess) first :: rest) (kept - excess) true
    end.

Definition tail_add (chunk : list byte) (t : Tail) : Tail :=
  drop_excess (limit t) (chunks t ++ [chunk]) (kept t + Z.of_nat (length chunk)) (dropped t).

(** [text.replace(/^\uFFFD+/u, "")] *)
Fixpoint strip_replacements (us : JsString) : JsString :=
  match us with u :: rest => if u =? 0xFFFD then strip_replacements rest else us | [] => [] end.

(** The text kept, and whether some was not. *)
Definition tail_read (t : Tail) : JsString * bool :=
  let text := buffer_text (concat (chunks t)) in
  (if dropped t then strip_replacements text else text, dropped t).

(** ** Commands *)

Definition containerCommandTimeoutMs : Z := 600000.
Definition containerCommandOutputBytes : Z := 4096.

Inductive ContainerCommandTarget :=
  | DatabaseCommand (id : string)
  | AppCommand (id service : string).

Record ContainerCommandResult := MkCommandResult {
  r_exitCode : option Z;
  r_output : JsString;
  r_truncated : bool;
  r_unknown : option string;
}.

(** [ContainerCommandError]: the command did not run. *)
Abbreviation CommandError := string.

(** What Docker is asked for. *)
Inductive DockerCall :=
  | CreateExec (container command : string)
  | StartExec (exec : string)
  | KillExec (exec : string)
  | InspectExec (exec : string).

(** A failure of the engine: the daemon's status, when it answered, and why. *)
Record EngineError := MkEngineError { e_status : option Z; e_reason : string }.

Definition isDockerNotFound (e : EngineError) : bool := bool_decide (e_status e = Some 404).

(** How a process that started ended: a failure of its stream or its exit
    code, its exit code, or not before the timeout. *)
Inductive Exited := ExitFailed (e : EngineError) | ExitCode (code : Z) | StillRunning.

Record DockerAnswers := MkAnswers {
  a_created : Result EngineError string;
  a_started : Result EngineError unit;
  a_output : list (list byte);
  a_exited : Exited;
  a_inspected : Result EngineError Z;
}.

Definition targetName (target : ContainerCommandTarget) : string :=
  match target with AppCommand _ service => service | DatabaseCommand _ => "The database" end.

Definition lost (reason : string) (output : Tail) : ContainerCommandResult :=
  let '(text, truncated) := tail_read output in MkCommandResult None text truncated (Some reason).

Definition printed (a : DockerAnswers) : Tail := fold_left (λ t chunk, tail_add chunk t) (a_output a) (new_tail containerCommandOutputBytes).

(** Runs a command: what Docker was asked, and how it went. *)
Definition execute (a : DockerAnswers) (container command name : string)
    : list DockerCall * Result CommandError ContainerCommandResult :=
  let create := CreateExec container command in
  match a_created a with
  | Throw e =>
      ([create], Throw (if isDockerNotFound e then name +:+ "'s container was replaced; the command didn't run"
                        else "The command didn't run: " +:+ e_reason e))
  | Ok exec =>
      match a_started a with
      | Throw e =>
          ([create; StartExec exec],
           match e_status e with
           | Some _ => Throw ("The command didn't run: " +:+ e_reason e)
           | None =>
               Ok (lost ("Docker didn't answer as the command started (" +:+ e_reason e +:+ "), so it may have run") (new_tail 0))
           end)
      | Ok _ =>
          let calls := [create; StartExec exec; KillExec exec] in
          let output := printed a in
          match a_exited a with
          | ExitFailed e =>
              (calls, Ok (lost ("Kiln lost track of the command (" +:+ e_reason e +:+ "), so it may still be running") output))
          | StillRunning =>
              (calls, Ok (lost ("The command didn't finish within " +:+ pretty (containerCommandTimeoutMs / 60000) +:+
                                " minutes and may still be running") output))
          | ExitCode code =>
              let '(text, truncated) := tail_read output in
              let finished := Ok (MkCommandResult (Some code) text truncated None) in
              if (code =? 126) || (code =? 127) then
                (calls ++ [InspectExec exec],
                 match a_inspected a with
                 | Ok 0 => Throw (if code =? 127 then name +:+ "'s container has no sh to run the command"
                                  else "Docker couldn't start sh in " +:+ name +:+ "'s container")
                 | _ => finished
                 end)
              else (calls, finished)
          end
      end
  end.

(** Where a command finds its container, when its turn comes: one that
    throws, none, or its ID and whether it runs. *)
Abbreviation Found := (Result (option string) (option (string * bool))).

(** What a database answers, by its container and its state. *)
Definition database_container (containerId : option string) (observedState : string) : option (string * bool) :=
  match containerId with
  | Some id =>
      if decide (id = "") then None
      else Some (id, bool_decide (observedState = "running") || bool_decide (observedState = "starting"))
  | None => None
  end.

(** [app_containers] is how many containers the App has, when it answered. *)
Definition missingService (app_containers : option nat) (service : string) : string :=
  match app_containers with
  | Some (Datatypes.S _) => "The App has no service named " +:+ service
  | _ => service +:+ " has no container; deploy the App first"
  end.

(** The work of a command in its resource's lifecycle lane. *)
Definition command_work (target : ContainerCommandTarget) (command : string) (found : Found) (app_containers : option nat) (a : DockerAnswers)
    : list DockerCall * Result CommandError ContainerCommandResult :=
  match found with
  | Throw message => ([], Throw (default "Not found" message))
  | Ok None =>
      ([], Throw (match target with
                  | DatabaseCommand _ => "The database has no container"
                  | AppCommand _ service => missingService app_containers service
                  end))
  | Ok (Some (container, running)) =>
      if running then execute a container command (targetName target)
      else ([], Throw (targetName target +:+ " isn't running"))
  end.

(** Its label and locks in the lanes. *)
Definition command_lane (target : ContainerCommandTarget) : string * list LaneLock :=
  match target with
  | AppCommand id _ => ("app.command", containerCommandLocks true id)
  | DatabaseCommand id => ("database.command", containerCommandLocks false id)
  end.

(** ** The end that is kept *)

Lemma drop_excess_keeps lim cs : ∀ k b,
  0 <= lim → k = Z.of_nat (length (concat cs)) →
  let t := drop_excess lim cs k b in
  limit t = lim ∧ concat (chunks t) = drop (Z.to_nat (k - lim)) (concat cs) ∧
  kept t = Z.of_nat (length (concat (chunks t))) ∧ dropped t = b || (lim <? k).
Proof.
  induction cs as [|first cs IH]; intros k b Hlim Hk; cbn [drop_excess].
  - cbn in Hk. destruct (Z.leb_spec k lim); [|lia]. cbn. split; [done|]. split; [by rewrite drop_nil|]. split; [done|].
    rewrite (proj2 (Z.ltb_ge lim k)) by done. by rewrite orb_false_r.
  - cbn [concat] in *. rewrite length_app in Hk. destruct (Z.leb_spec k lim) as [Hle|Hlt].
    + cbn. rewrite (proj2 (Z.ltb_ge lim k)) by done. rewrite orb_false_r, length_app.
      replace (Z.to_nat (k - lim)) with 0%nat by lia. by rewrite drop_0.
    + rewrite (proj2 (Z.ltb_lt lim k)), orb_true_r by done. destruct (Z.leb_spec (Z.of_nat (length first)) (k - lim)).
      * destruct (IH (k - Z.of_nat (length first)) true) as (H1 & H2 & H3 & H4); [done|lia|]. split; [done|]. split.
        { rewrite H2, drop_app_ge by lia. f_equal. lia. }
        split; [done|]. by rewrite H4.
      * cbn. split; [done|]. split; [by rewrite drop_app_le by lia|]. split; [|done]. rewrite length_app, length_drop. lia.
Qed.

(** What a tail that was added to keeps. *)
Definition keeps (lim : Z) (bs : list byte) (t : Tail) : Prop :=
  limit t = lim ∧ concat (chunks t) = drop (Z.to_nat (Z.of_nat (length bs) - lim)) bs ∧
  kept t = Z.of_nat (length (concat (chunks t))) ∧ dropped t = (lim <? Z.of_nat (length bs)).

Lemma tail_add_keeps lim bs t chunk : 0 <= lim → keeps lim bs t → keeps lim (bs ++ chunk) (tail_add chunk t).
Proof.
  intros Hlim (H1 & H2 & H3 & H4). unfold tail_add. rewrite H1, H3, H4.
  assert (concat (chunks t ++ [chunk]) = drop (Z.to_nat (Z.of_nat (length bs) - lim)) (bs ++ chunk)) as Hc.
  { rewrite concat_app, H2. cbn. rewrite app_nil_r, drop_app_le; [done|lia]. }
  destruct (drop_excess_keeps lim (chunks t ++ [chunk]) (Z.of_nat (length (concat (chunks t))) + Z.of_nat (length chunk))
    (lim <? Z.of_nat (length bs))) as (E1 & E2 & E3 & E4); [done| |].
  { rewrite concat_app, length_app. cbn. rewrite app_nil_r. lia. }
  assert (length (concat (chunks t)) = length bs - Z.to_nat (Z.of_nat (length bs) - lim))%nat as HL by (by rewrite H2, length_drop).
  set (t' := drop_excess _ _ _ _) in *. clearbody t'. split; [done|]. split; [|split; [done|]]; rewrite length_app.
  - rewrite E2, Hc, drop_drop. f_equal. lia.
  - rewrite E4. destruct (Z.ltb_spec lim (Z.of_nat (length bs))); cbn [orb]; [symmetry; apply Z.ltb_lt; lia|f_equal; lia].
Qed.

Lemma tail_keeps lim cs : 0 <= lim → keeps lim (concat cs) (fold_left (λ t chunk, tail_add chunk t) cs (new_tail lim)).
Proof.
  intros Hlim. induction cs as [|chunk cs IH] using rev_ind.
  - cbn. unfold keeps. cbn. rewrite drop_nil. split; [done|]. split; [done|]. split; [done|]. symmetry. by apply Z.ltb_ge.
  - rewrite fold_left_app, concat_app. cbn. rewrite app_nil_r. by apply tail_add_keeps.
Qed.

(** ** Text cut anywhere *)

Definition continues (b : byte) : bool := cont (byte.unsigned b).

Lemma lossy_continues b rest : continues b = true → utf8_lossy (b :: rest) = 0xFFFD :: utf8_lossy rest.
Proof.
  unfold continues. intros Hb. cbn [utf8_lossy]. set (x := byte.unsigned b) in *. unfold_ranges.
  rewrite (proj2 (Z.ltb_ge x 128)) by lia. destruct rest as [|b1 rest]; [done|].
  replace (194 <=? x) with false by lia. replace (224 <=? x) with false by lia. done.
Qed.

Lemma lossy_scalar c rest : scalar_ok c = true → utf8_lossy (utf8_scalar c ++ rest) = c :: utf8_lossy rest.
Proof.
  intros Hc. unfold utf8_scalar.
  destruct (Z.ltb_spec c 0x80) as [H1|H1]; [|destruct (Z.ltb_spec c 0x800) as [H2|H2];
    [|destruct (Z.ltb_spec c 0x10000) as [H3|H3]]]; cbn [app utf8_lossy];
    rewrite !unsigned_of_Z_small by (unfold_ranges; Z.div_mod_to_equations; lia);
    repeat match goal with
    | |- context [if ?b then _ else _] =>
        first [ replace b with false by (symmetry; rewrite ?andb_false_iff, ?negb_false_iff; unfold_ranges; Z.div_mod_to_equations; lia)
              | replace b with true by (symmetry; rewrite ?andb_true_iff, ?second_ok_true;
                  unfold_ranges; repeat split; Z.div_mod_to_equations; lia) ]
    end; f_equal; Z.div_mod_to_equations; lia.
Qed.

Lemma lossy_encode cs : forallb scalar_ok cs = true → utf8_lossy (flat_map utf8_scalar cs) = cs.
Proof.
  induction cs as [|c cs IH]; [done|]. cbn [forallb flat_map]. intros [Hc Hcs]%andb_true_iff. by rewrite lossy_scalar, IH.
Qed.

Lemma lossy_all_continue bs rest :
  forallb continues bs = true → utf8_lossy (bs ++ rest) = replicate (length bs) 0xFFFD ++ utf8_lossy rest.
Proof.
  induction bs as [|b bs IH]; [done|]. cbn [forallb]. intros [Hb Hbs]%andb_true_iff. cbn [app]. rewrite lossy_continues by done. by rewrite IH.
Qed.

(** After its first byte a character only continues. *)
Lemma scalar_tail c : scalar_ok c = true → ∃ b bs, utf8_scalar c = b :: bs ∧ forallb continues bs = true ∧ (length bs <= 3)%nat.
Proof.
  intros Hc. unfold utf8_scalar.
  destruct (Z.ltb_spec c 0x80) as [H1|H1]; [|destruct (Z.ltb_spec c 0x800) as [H2|H2]; [|destruct (Z.ltb_spec c 0x10000) as [H3|H3]]];
    (eexists _, _; split; [reflexivity|]; split; [|cbn; lia]); cbn [forallb]; unfold continues;
    rewrite ?unsigned_of_Z_small by (unfold_ranges; Z.div_mod_to_equations; lia);
    rewrite ?andb_true_iff; unfold_ranges; repeat split; Z.div_mod_to_equations; lia.
Qed.

(** Cut anywhere, what is left of a text is at most three bytes of the
    character that was cut, and the characters after it. *)
Lemma cut_text cs : ∀ n, forallb scalar_ok cs = true →
  ∃ pre bs cs', cs = pre ++ cs' ∧ drop n (flat_map utf8_scalar cs) = bs ++ flat_map utf8_scalar cs' ∧
    forallb continues bs = true ∧ (length bs <= 3)%nat ∧ (n = 0%nat → pre = []).
Proof.
  induction cs as [|c cs IH]; intros n Hok; [exists [], [], []; destruct n; repeat split; cbn; lia|].
  destruct n as [|n]; [exists [], [], (c :: cs); repeat split; cbn; lia|].
  cbn [forallb flat_map] in *. apply andb_true_iff in Hok as [Hc Hok].
  destruct (scalar_tail c Hc) as (b & bs & -> & Hbs & Hl). cbn [app drop].
  destruct (decide (length bs <= n)%nat) as [Hle|Hlt].
  - rewrite drop_app_ge by done. destruct (IH (n - length bs)%nat Hok) as (pre & bs' & cs' & -> & E & H1 & H2 & _).
    by exists (c :: pre), bs', cs'.
  - rewrite drop_app_le by lia. exists [c], (drop n bs), cs. split; [done|]. split; [done|].
    rewrite <-(take_drop n bs), forallb_app in Hbs. apply andb_true_iff in Hbs as [_ Hbs]. split; [done|]. rewrite length_drop. split; [lia|done].
Qed.

(** ** What the result says was printed *)

Lemma strip_of_scalars cs : forallb scalar_ok cs = true →
  ∃ n cs', cs = replicate n 0xFFFD ++ cs' ∧ strip_replacements (of_scalars cs) = of_scalars cs'.
Proof.
  induction cs as [|c cs IH]; intros Hok; [by exists 0%nat, []|]. cbn [forallb] in Hok. apply andb_true_iff in Hok as [Hc Hok].
  destruct (Z.eq_dec c 0xFFFD) as [->|Hne].
  - destruct (IH Hok) as (n & cs' & -> & E). by exists (S n), cs'.
  - exists 0%nat, (c :: cs). split; [done|]. unfold of_scalars. cbn [flat_map]. unfold of_scalar at 1 3.
    destruct (Z.ltb_spec c 0x10000); cbn [app strip_replacements].
    + by rewrite (proj2 (Z.eqb_neq c 0xFFFD)).
    + rewrite (proj2 (Z.eqb_neq _ 0xFFFD)); [done|]. unfold_ranges. Z.div_mod_to_equations. lia.
Qed.

Lemma strip_replicate n us : strip_replacements (replicate n 0xFFFD ++ us) = strip_replacements us.
Proof. by induction n. Qed.

Lemma of_scalars_replicate n cs : of_scalars (replicate n 0xFFFD ++ cs) = replicate n 0xFFFD ++ of_scalars cs.
Proof. unfold of_scalars. induction n as [|n IH]; [done|]. cbn [replicate app flat_map]. by rewrite IH. Qed.

(** C22: A command's result keeps the end of what it printed, and says whether
    there was more. However the bytes of a text come in chunks, what is read
    back is the whole text where it fits the limit; where it does not, it is
    the text's end, as much of it as the limit holds but for at most three
    bytes of a character that was cut, and for characters that are themselves
    U+FFFD where the cut falls on them. *)
Theorem command_output_is_the_end lim cs pieces :
  0 <= lim → forallb scalar_ok cs = true → concat pieces = flat_map utf8_scalar cs →
  let size cs := Z.of_nat (length (flat_map utf8_scalar cs)) in
  ∃ pre fs cs', cs = pre ++ fs ++ cs' ∧ Forall (λ c, c = 0xFFFD) fs ∧
    tail_read (fold_left (λ t chunk, tail_add chunk t) pieces (new_tail lim)) = (of_scalars cs', lim <? size cs) ∧
    (size cs <= lim → cs' = cs) ∧ (lim < size cs → size (fs ++ cs') <= lim <= size (fs ++ cs') + 3).
Proof.
  intros Hlim Hok Hcs size. destruct (tail_keeps lim pieces Hlim) as (_ & Hk & _ & Hd).
  set (t := fold_left _ pieces _) in *. clearbody t. rewrite Hcs in Hk, Hd. fold (size cs) in Hk, Hd.
  unfold tail_read. rewrite Hd, Hk. destruct (Z.ltb_spec lim (size cs)) as [Hlt|Hle].
  - destruct (cut_text cs (Z.to_nat (size cs - lim)) Hok) as (pre & bs & cs1 & -> & E & Hbs & Hl & _).
    pose proof (f_equal length E) as Hlen. rewrite length_drop, length_app in Hlen. rewrite E.
    rewrite forallb_app in Hok. apply andb_true_iff in Hok as [_ Hok]. unfold buffer_text.
    rewrite lossy_all_continue, lossy_encode, of_scalars_replicate, strip_replicate by done.
    destruct (strip_of_scalars cs1 Hok) as (n & cs' & -> & ->). exists pre, (replicate n 0xFFFD), cs'. split; [done|].
    split; [by apply Forall_replicate|]. split; [done|]. split; [lia|]. intros _. subst size. cbn beta in *. lia.
  - exists [], [], cs. split; [done|]. split; [done|]. replace (Z.to_nat (size cs - lim)) with 0%nat by lia.
    unfold buffer_text. rewrite drop_0, lossy_encode by done. split; [done|]. split; [done|lia].
Qed.

Lemma command_output_is_the_end_witness :
  ∃ pre fs cs', [97; 98; 0x20AC; 99] = pre ++ fs ++ cs' ∧
    tail_read (fold_left (λ t chunk, tail_add chunk t) (flat_map (λ b, [[b]]) (flat_map utf8_scalar [97; 98; 0x20AC; 99])) (new_tail 3)) = (of_scalars cs', true).
Proof.
  destruct (command_output_is_the_end 3 [97; 98; 0x20AC; 99] (flat_map (λ b, [[b]]) (flat_map utf8_scalar [97; 98; 0x20AC; 99])))
    as (pre & fs & cs' & E & _ & Hr & _); [lia|reflexivity|reflexivity|]. exists pre, fs, cs'. split; [exact E|]. exact Hr.
Defined.

(** ** Frames in any chunks *)

Section Frames.
Context {S : Type} (onFrame : Stream → list byte → S → S * option JsString).

Lemma next_frame_app bs more type payload rest :
  next_frame bs = Some (type, payload, rest) → next_frame (bs ++ more) = Some (type, payload, rest ++ more).
Proof.
  unfold next_frame. destruct (Nat.ltb_spec (length bs) 8) as [|H8]; [done|].
  assert (take 4 (drop 4 (bs ++ more)) = take 4 (drop 4 bs)) as E.
  { rewrite drop_app_le by lia. rewrite take_app_le; [done|]. rewrite length_drop. lia. }
  rewrite E. set (len := Z.to_nat _). destruct (Nat.ltb_spec (length bs) (8 + len)) as [|Hlen]; [done|]. intros [= <- <- <-].
  rewrite length_app. destruct (Nat.ltb_spec (length bs + length more) 8); [lia|].
  destruct (Nat.ltb_spec (length bs + length more) (8 + len)); [lia|]. rewrite app_nth1 by lia. f_equal. f_equal; [f_equal|].
  - rewrite drop_app_le, take_app_le; [done|rewrite length_drop; lia|lia].
  - by rewrite drop_app_le by lia.
Qed.

Lemma next_frame_shorter bs type payload rest : next_frame bs = Some (type, payload, rest) → (length rest < length bs)%nat.
Proof.
  unfold next_frame. destruct (Nat.ltb_spec (length bs) 8); [done|]. match goal with |- context [(_ <? ?k)%nat] => destruct (Nat.ltb_spec (length bs) k); [done|] end.
  intros [= _ _ <-]. rewrite length_drop. lia.
Qed.

Lemma read_frames_fuel bs : ∀ fuel fuel' s,
  (length bs <= fuel)%nat → (length bs <= fuel')%nat → read_frames onFrame fuel bs s = read_frames onFrame fuel' bs s.
Proof.
  remember (length bs) as n eqn:En. revert bs En. induction (lt_wf n) as [n _ IH]. intros bs -> fuel fuel' s H H'.
  destruct fuel as [|fuel], fuel' as [|fuel']; cbn [read_frames]; try done;
    destruct (next_frame bs) as [[[type payload] rest]|] eqn:E; try done; pose proof (next_frame_shorter _ _ _ _ E); try lia.
  destruct (on_frame onFrame type payload s) as [s' problem]. destruct (problem_of problem); [done|].
  eapply IH; [|reflexivity| |]; lia.
Qed.

(** What is read of some bytes is read of them with more after them. *)
Lemma read_frames_app bs more : ∀ s,
  read_frames onFrame (length (bs ++ more)) (bs ++ more) s =
  match read_frames onFrame (length bs) bs s with
  | (d, None) => let rest := pending d ++ more in read_frames onFrame (length rest) rest (reader d)
  | (d, Some problem) => (MkDemultiplexer (pending d ++ more) (reader d), Some problem)
  end.
Proof.
  remember (length bs) as n eqn:En. revert bs En. induction (lt_wf n) as [n _ IH]. intros bs -> s.
  destruct (next_frame bs) as [[[type payload] rest]|] eqn:E.
  - pose proof (next_frame_shorter _ _ _ _ E) as Hs. pose proof (next_frame_app _ more _ _ _ E) as E'.
    rewrite length_app. destruct (length bs) as [|n] eqn:El; [lia|]. cbn [Nat.add read_frames]. rewrite E, E'.
    destruct (on_frame onFrame type payload s) as [s' problem]. destruct (problem_of problem); [done|].
    specialize (IH (length rest) Hs rest eq_refl s').
    rewrite (read_frames_fuel (rest ++ more) _ (length (rest ++ more))) by (rewrite ?length_app; lia).
    rewrite IH. by rewrite (read_frames_fuel rest n (length rest)) by lia.
  - assert (∀ fuel, read_frames onFrame fuel bs s = (MkDemultiplexer bs s, None)) as Hn by (intros []; cbn; by rewrite E).
    by rewrite Hn.
Qed.

(** Chunks are read as what they are together, if nothing stops it. *)
Lemma read_frames_leaves bs : ∀ s d, read_frames onFrame (length bs) bs s = (d, None) → next_frame (pending d) = None.
Proof.
  remember (length bs) as n eqn:En. revert bs En. induction (lt_wf n) as [n _ IH]. intros bs -> s d E.
  destruct (length bs) as [|n] eqn:El; cbn [read_frames] in E; destruct (next_frame bs) as [[[type payload] rest]|] eqn:Ef;
    try (by injection E as <-); pose proof (next_frame_shorter _ _ _ _ Ef) as Hs; [lia|].
  destruct (on_frame onFrame type payload s) as [s' problem]. destruct (problem_of problem); [done|].
  rewrite (read_frames_fuel rest n (length rest)) in E by lia. by eapply (IH (length rest)); [lia| |].
Qed.

Lemma demultiplex_all_concat chunks : ∀ d,
  next_frame (pending d) = None →
  let whole := read_frames onFrame (length (pending d ++ concat chunks)) (pending d ++ concat chunks) (reader d) in
  demultiplex_all onFrame chunks d = whole ∨ ∃ problem, whole.2 = Some problem ∧ (demultiplex_all onFrame chunks d).2 = Some problem.
Proof.
  induction chunks as [|chunk chunks IH]; intros [bs s] Hbs; cbn [pending reader concat demultiplex_all] in *.
  - left. rewrite app_nil_r. destruct (length bs); cbn [read_frames]; by rewrite Hbs.
  - rewrite app_assoc, read_frames_app. unfold demultiplex. cbn [pending reader].
    destruct (read_frames onFrame (length (bs ++ chunk)) (bs ++ chunk) s) as [d1 [problem|]] eqn:E1; [by right; exists problem|].
    apply IH. by eapply read_frames_leaves.
Qed.
End Frames.

(** A frame as Docker sends one. *)
Definition frame (stream : Stream) (payload : list byte) : list byte :=
  [byte.of_Z (match stream with Stdout => 1 | Stderr => 2 end); Byte.x00; Byte.x00; Byte.x00] ++
  put_uint 4 (Z.of_nat (length payload)) ++ payload.

Definition frames (sent : list (Stream * list byte)) : list byte := flat_map (λ entry, frame entry.1 entry.2) sent.

Definition fits (sent : list (Stream * list byte)) : Prop := Forall (λ entry, Z.of_nat (length entry.2) < 2 ^ 32) sent.

Definition of_stream (stream : Stream) (sent : list (Stream * list byte)) : list byte :=
  flat_map (λ entry, if decide (entry.1 = stream) then entry.2 else []) sent.

Definition sent_size (sent : list (Stream * list byte)) : Z := Z.of_nat (length (flat_map snd sent)).

Lemma next_frame_frame stream payload rest :
  Z.of_nat (length payload) < 2 ^ 32 →
  next_frame (frame stream payload ++ rest) = Some (match stream with Stdout => 1 | Stderr => 2 end, payload, rest).
Proof.
  intros Hl. unfold next_frame, frame. set (head := [_; _; _; _]). set (size := put_uint 4 _).
  assert (length head = 4%nat) as Hh by done. assert (length size = 4%nat) as Hs by apply put_uint_length.
  assert (get_uint size = Z.of_nat (length payload)) as Hg.
  { apply get_put_uint_ok. unfold uint_ok. change (2 ^ (8 * Z.of_nat 4)) with (2 ^ 32). lia. }
  assert (nth 0 ((head ++ size ++ payload) ++ rest) Byte.x00 = byte.of_Z (match stream with Stdout => 1 | Stderr => 2 end)) as -> by done.
  clearbody head size. rewrite <-!app_assoc.
  rewrite (drop_app_length' head _ 4), (take_app_length' size _ 4), Hg, Nat2Z.id by done.
  rewrite (app_assoc head), (drop_app_length' (head ++ size) _ 8) by (by rewrite length_app, Hh, Hs).
  rewrite take_app_length, (app_assoc (head ++ size)), (drop_app_length' ((head ++ size) ++ payload)) by (rewrite !length_app; lia).
  rewrite !length_app, Hh, Hs. destruct (Nat.ltb_spec (4 + 4 + length payload + length rest) 8); [lia|].
  destruct (Nat.ltb_spec (4 + 4 + length payload + length rest) (8 + length payload)); [lia|]. by destruct stream.
Qed.

Section Collecting.
Context (maxBytes : Z) (overflow : JsString) (overflows : overflow ≠ []).

(** What is collected once more was sent. *)
Definition and_sent (sent : list (Stream * list byte)) (c : Collected) : Collected :=
  MkCollected (c_stdout c ++ of_stream Stdout sent) (c_stderr c ++ of_stream Stderr sent) (c_size c + sent_size sent).

Lemma read_sent sent : ∀ fuel c,
  fits sent → (length (frames sent) <= fuel)%nat →
  let read := read_frames (collect maxBytes overflow) fuel (frames sent) c in
  (c_size c + sent_size sent <= maxBytes → read = (MkDemultiplexer [] (and_sent sent c), None)) ∧
  (c_size c <= maxBytes < c_size c + sent_size sent → read.2 = Some overflow).
Proof.
  induction sent as [|[stream payload] sent IH]; intros fuel c Hf Hl.
  - assert (read_frames (collect maxBytes overflow) fuel (frames []) c = (MkDemultiplexer [] c, None)) as -> by (by destruct fuel).
    split; [|unfold sent_size; cbn; lia]. intros _. do 2 f_equal. destruct c. unfold and_sent, sent_size. cbn. rewrite !app_nil_r. f_equal. lia.
  - apply Forall_cons in Hf as [Hp Hf]. cbn [fst snd] in Hp. unfold frames in *. cbn [flat_map fst snd] in *.
    rewrite length_app in Hl. assert (8 <= length (frame stream payload))%nat as H8.
    { unfold frame. rewrite !length_app, put_uint_length. cbn. lia. }
    destruct fuel as [|fuel]; [lia|]. cbn [read_frames]. rewrite next_frame_frame by done.
    assert (sent_size ((stream, payload) :: sent) = Z.of_nat (length payload) + sent_size sent) as Es.
    { unfold sent_size. cbn. rewrite length_app. lia. }
    assert (0 <= sent_size sent) by (unfold sent_size; lia).
    set (type := match stream with Stdout => 1 | Stderr => 2 end).
    assert (on_frame (collect maxBytes overflow) type payload c = collect maxBytes overflow stream payload c) as -> by (by destruct stream).
    unfold collect at 1 3. rewrite Es. destruct (Z.ltb_spec maxBytes (c_size c + Z.of_nat (length payload))) as [Hover|Hok].
    + cbn [problem_of]. destruct overflow as [|u us]; [done|]. split; [lia|done].
    + set (c' := match stream with Stderr => _ | Stdout => _ end).
      assert (c_size c' = c_size c + Z.of_nat (length payload)) as Ec by (by destruct stream).
      assert (and_sent ((stream, payload) :: sent) c = and_sent sent c') as ->.
      { subst c'. unfold and_sent, of_stream. rewrite Es. destruct stream; cbn; rewrite <-?app_assoc; f_equal; lia. }
      cbn [problem_of]. destruct (IH fuel c' Hf) as [H1 H2]; [lia|]. split; intros ?; [apply H1|apply H2]; lia.
Qed.
End Collecting.

(** What Docker's stdout and stderr printed is collected as it was,
    whatever chunks its frames come in: up to the limit, each holds what was
    sent of it, in order, and nothing is left over; past it, reading stops and
    says so. *)
Theorem streams_come_whole maxBytes overflow sent pieces :
  fits sent → concat pieces = frames sent → overflow ≠ [] →
  let read := demultiplex_all (collect maxBytes overflow) pieces (MkDemultiplexer [] (MkCollected [] [] 0)) in
  if sent_size sent <=? maxBytes
  then read = (MkDemultiplexer [] (MkCollected (of_stream Stdout sent) (of_stream Stderr sent) (sent_size sent)), None)
  else 0 <= maxBytes → read.2 = Some overflow.
Proof.
  intros Hf Hp Ho read. destruct (read_sent maxBytes overflow Ho sent (length (frames sent)) (MkCollected [] [] 0) Hf) as [Hok Hover]; [done|].
  destruct (demultiplex_all_concat (collect maxBytes overflow) pieces (MkDemultiplexer [] (MkCollected [] [] 0)) eq_refl) as [E|(problem & E & E')];
    cbn [pending reader] in *; rewrite app_nil_l, Hp in E; fold read in E; [|fold read in E'];
    destruct (Z.leb_spec (sent_size sent) maxBytes) as [Hle|Hgt]; cbn [c_size] in *.
  - rewrite E, Hok by lia. done.
  - intros ?. rewrite E. apply Hover. lia.
  - rewrite Hok in E by lia. done.
  - intros ?. rewrite E', <-E. apply Hover. lia.
Qed.

Lemma streams_come_whole_witness :
  let sent := [(Stdout, [Byte.x61]); (Stderr, [Byte.x62]); (Stdout, [Byte.x63])] in
  demultiplex_all (collect 3 (js "full")) (flat_map (λ b, [[b]]) (frames sent)) (MkDemultiplexer [] (MkCollected [] [] 0)) =
  (MkDemultiplexer [] (MkCollected [Byte.x61; Byte.x63] [Byte.x62] 3), None).
Proof.
  intros sent. refine (streams_come_whole 3 (js "full") sent _ _ _ _); [repeat constructor|vm_compute; reflexivity|discriminate].
Defined.

(** ** Commands that fail *)

(** Docker was asked to start the command and did not say it has not. *)
Definition may_have_run (a : DockerAnswers) (calls : list DockerCall) : bool :=
  existsb (λ call, match call with StartExec _ => true | _ => false end) calls &&
  match a_started a with
  | Throw e => bool_decide (e_status e = None)
  | Ok _ =>
      match a_exited a, a_inspected a with
      | ExitCode code, Ok 0 => negb ((code =? 126) || (code =? 127))
      | _, _ => true
      end
  end.

(** One way a command goes. *)
Ltac branch :=
  intros [= <- <-]; split;
  [cbn -[Z.eqb]; repeat match goal with H : _ = _ |- _ => rewrite H end; done|];
  split; [intros ? Hr; first [discriminate Hr|injection Hr as <-; cbn; split; congruence]|];
  split; [cbn; lia|set_solver].

(** A command that fails did not run, and one that may have run never
    fails: its result is the code it exited with, or says why that is not
    known. It is started at most once, and once it started its connection is
    closed. *)
Theorem command_error_never_ran target command found app_containers a calls result :
  command_work target command found app_containers a = (calls, result) →
  (may_have_run a calls = match result with Throw _ => false | Ok _ => true end) ∧
  (∀ r, result = Ok r → r_exitCode r = None ↔ r_unknown r ≠ None) ∧
  (length (List.filter (λ call, match call with StartExec _ => true | _ => false end) calls) <= 1)%nat ∧
  (∀ exec, StartExec exec ∈ calls → a_started a = Ok () → KillExec exec ∈ calls).
Proof.
  unfold command_work. destruct found as [[[container running]|]|message]; [|by branch|by branch].
  destruct running; [|by branch]. unfold execute, may_have_run, lost. destruct (a_created a) as [exec|e]; [|by branch].
  destruct (a_started a) as [[]|e].
  - destruct (tail_read (printed a)) as [text truncated]. destruct (a_exited a) as [e|code|]; [branch| |branch].
    destruct ((code =? 126) || (code =? 127)) eqn:Ec; destruct (a_inspected a) as [[|pid|pid]|e]; branch.
  - destruct (tail_read (new_tail 0)) as [text truncated]. destruct (e_status e) as [status|] eqn:Es; branch.
Qed.

Definition exited_127 : DockerAnswers :=
  MkAnswers (Ok "exec") (Ok ()) [[Byte.x61]] (ExitCode 127) (Ok 12).

Lemma command_error_never_ran_witness :
  ∃ calls r, command_work (AppCommand "app" "web") "true" (Ok (Some ("c", true))) None exited_127 = (calls, Ok r) ∧ may_have_run exited_127 calls = true.
Proof.
  destruct (command_work (AppCommand "app" "web") "true" (Ok (Some ("c", true))) None exited_127) as [calls [r|e]] eqn:E;
    [|vm_compute in E; discriminate E].
  exists calls, r. split; [reflexivity|]. exact (proj1 (command_error_never_ran _ _ _ _ _ _ _ E)).
Defined.
