(* ===== verification/Versions.v ===== *)
(** * Release versions

    Models [contracts/src/release-version.ts] and
    [web/src/lib/release-version.ts]: how the version of a Kiln release is
    read, which of two is newer, and which release of a feed an installed
    build is told of. A version is a text of UTF-16 code units; a number in it
    is the JavaScript number nearest to its digits. [Date.UTC] and the fields
    of a date are written out for whole seconds, as ECMAScript defines them.

    When a release was published is read by [Date.parse], and [sort] is
    [Array.prototype.sort], which may order a list as it likes where what it
    is to sort by contradicts itself: both are parameters.

    Comparing two versions is shown to be comparing their numbers, in order:
    the three of a version, then whether it is a nightly counted up, a nightly
    of a time that was, or a release; then what it counts. *)
From S2P Require Import Prelude Bytes Utf8 Decimals Snbt ScheduleContract.
Open Scope Z_scope.

(** ** Numbers *)

(** [Number] of digits. *)
Definition number (ds : JsString) : JsNumber := decimal_value false (read_digits ds) 0.

Definition signed (negative : bool) (m : Z) : Z := if negative then - m else m.

(** [left < right] *)
Definition js_less (left right : JsNumber) : bool :=
  match left, right with
  | NotANumber, _ | _, NotANumber => false
  | Infinite l, Infinite r => l && negb r
  | Infinite l, Finite _ _ _ => l
  | Finite _ _ _, Infinite r => negb r
  | Finite l m p, Finite r n q =>
      let least := Z.min p q in signed l m * 2 ^ (p - least) <? signed r n * 2 ^ (q - least)
  end.

(** [left === right] *)
Definition js_equal (left right : JsNumber) : bool :=
  match left, right with
  | NotANumber, _ | _, NotANumber => false
  | Finite l m p, Finite r n q => bool_decide (signed l m = signed r n ∧ p = q)
  | _, _ => bool_decide (left = right)
  end.

(** [left - right !== 0], of numbers that are not negative. *)
Definition differ (left right : JsNumber) : bool := negb (isFinite left && js_equal left right).

(** ** Dates *)

Definition leap (year : Z) : bool := (year mod 4 =? 0) && (negb (year mod 100 =? 0) || (year mod 400 =? 0)).

(** The day a year begins, counted from 1970. *)
Definition year_start (year : Z) : Z :=
  365 * (year - 1970) + (year - 1969) / 4 - (year - 1901) / 100 + (year - 1601) / 400.

Definition month_starts (leap : bool) : list Z :=
  (λ day, if (leap : bool) && (59 <=? day) then day + 1 else day) <$> [0; 31; 59; 90; 120; 151; 181; 212; 243; 273; 304; 334].

Definition month_start (leap : bool) (month : Z) : Z := nth (Z.to_nat month) (month_starts leap) 0.

(** The month of a day of a year. *)
Definition month_at (leap : bool) (day : Z) : Z :=
  Z.of_nat (length (List.filter (λ start, start <=? day) (month_starts leap))) - 1.

(** [Date.UTC] in seconds; the first hundred years stand for those of 1900. *)
Definition date_utc (year month day hours minutes seconds : Z) : Z :=
  let year := if (0 <=? year) && (year <=? 99) then 1900 + year else year in
  let year := year + month / 12 in
  let days := year_start year + month_start (leap year) (month mod 12) + day - 1 in
  days * 86400 + hours * 3600 + minutes * 60 + seconds.

(** The last year from [year] down that has begun by [day]. *)
Fixpoint year_down (fuel : nat) (day year : Z) : Z :=
  if year_start year <=? day then year
  else match fuel with O => year | S fuel => year_down fuel day (year - 1) end.

(** [getUTCFullYear] of a day; no year has fewer than 365 days or more than 366. *)
Definition year_of (day : Z) : Z :=
  year_down (S (Z.to_nat (Z.abs (day / 365 - day / 366)))) day
    (1971 + (if 0 <=? day then day / 365 else day / 366)).

Definition day_in_year (day : Z) : Z := day - year_start (year_of day).

(** [getUTCMonth] *)
Definition month_of (day : Z) : Z := month_at (leap (year_of day)) (day_in_year day).

(** [getUTCDate] *)
Definition date_of (day : Z) : Z := day_in_year day - month_start (leap (year_of day)) (month_of day) + 1.

(** ** Versions *)

Inductive Nightly :=
  | Legacy (sequence : JsNumber)
  | Timestamp (date time : JsNumber).

Record ParsedKilnReleaseVersion := MkParsed { core : list JsNumber; nightly : option Nightly }.

(** What follows a text at the front. *)
Fixpoint after (text us : JsString) : option JsString :=
  match text, us with
  | [], _ => Some us
  | t :: text, u :: us => if t =? u then after text us else None
  | _ :: _, [] => None
  end.

(** [\d+] *)
Definition some_digits (us : JsString) : option (JsString * JsString) :=
  let '(ds, rest) := span is_digit us in if bool_decide (ds = []) then None else Some (ds, rest).

(** What a nightly's name has after [-nightly.]. *)
Inductive NightlyDigits := TimestampDigits (date time : JsString) | LegacyDigits (sequence : JsString).

(** [(?:(\d{8})\.(\d{6})|(\d+))$] *)
Definition nightly_digits (us : JsString) : option NightlyDigits :=
  '(ds, rest) ← some_digits us;
  match rest with
  | [] => Some (LegacyDigits ds)
  | _ =>
      rest ← after (js ".") rest;
      if bool_decide (length ds = 8%nat ∧ length rest = 6%nat) && forallb is_digit rest
      then Some (TimestampDigits ds rest) else None
  end.

Definition nightly_mark : JsString := js "-nightly.".

(** What [kilnReleaseVersionPattern] captures. *)
Definition version_groups (us : JsString) : option (list JsString * option NightlyDigits) :=
  '(major, us) ← some_digits us;
  us ← after (js ".") us;
  '(minor, us) ← some_digits us;
  us ← after (js ".") us;
  '(patch, us) ← some_digits us;
  match us with
  | [] => Some ([major; minor; patch], None)
  | _ =>
      us ← after nightly_mark us;
      found ← nightly_digits us;
      Some ([major; minor; patch], Some found)
  end.

Definition parseTimestampNightly (dateIdentifier timeIdentifier : JsString) : option Nightly :=
  let year := read_digits (slice 0 4 dateIdentifier) in
  let month := read_digits (slice 4 6 dateIdentifier) in
  let day := read_digits (slice 6 8 dateIdentifier) in
  let hour := read_digits (slice 0 2 timeIdentifier) in
  let minute := read_digits (slice 2 4 timeIdentifier) in
  let second := read_digits (slice 4 6 timeIdentifier) in
  let date := date_utc year (month - 1) day hour minute second in
  let days := date / 86400 in
  if negb (year_of days =? year) || negb (month_of days =? month - 1) || negb (date_of days =? day) ||
     negb ((date / 3600) mod 24 =? hour) || negb ((date / 60) mod 60 =? minute) || negb (date mod 60 =? second)
  then None
  else Some (Timestamp (number dateIdentifier) (number timeIdentifier)).

Definition parseKilnReleaseVersion (version : JsString) : option ParsedKilnReleaseVersion :=
  '(parts, found) ← version_groups (js_trim version);
  match found with
  | None => Some (MkParsed (number <$> parts) None)
  | Some (LegacyDigits sequence) => Some (MkParsed (number <$> parts) (Some (Legacy (number sequence))))
  | Some (TimestampDigits date time) =>
      nightly ← parseTimestampNightly date time;
      Some (MkParsed (number <$> parts) (Some nightly))
  end.

Definition isKilnReleaseVersion (version : option JsString) : bool :=
  match version with
  | Some version => bool_decide (is_Some (parseKilnReleaseVersion (js_trim version)))
  | None => false
  end.

Definition isKilnNightlyVersion (version : JsString) : bool :=
  match parseKilnReleaseVersion version with
  | Some parsed => bool_decide (is_Some (nightly parsed))
  | None => false
  end.

(** The text before a nightly's mark and digits at its end. *)
Fixpoint kilnReleaseVersionCore (version : JsString) : JsString :=
  match version with
  | [] => []
  | u :: rest =>
      match after nightly_mark version ≫= nightly_digits with
      | Some _ => []
      | None => u :: kilnReleaseVersionCore rest
      end
  end.

(** ** Which is newer *)

(** [-1], [0] or [1] *)
Definition compareNumbers (left right : JsNumber) : Z :=
  if js_equal left right then 0 else if js_less left right then -1 else 1.

Fixpoint compare_cores (left right : list JsNumber) : option Z :=
  match left, right with
  | l :: ls, r :: rs =>
      if differ l r then Some (if js_less l r then -1 else 1) else compare_cores ls rs
  | _, _ => None
  end.

Definition compare_nightlies (left right : option Nightly) : Z :=
  match left, right with
  | Some (Timestamp _ _), Some (Legacy _) => 1
  | Some (Legacy _), Some (Timestamp _ _) => -1
  | Some (Legacy l), Some (Legacy r) => compareNumbers l r
  | Some (Timestamp date time), Some (Timestamp date' time') =>
      let dateOrder := compareNumbers date date' in
      if dateOrder =? 0 then compareNumbers time time' else dateOrder
  | None, None => 0
  | None, Some _ => 1
  | Some _, None => -1
  end.

Definition compareKilnReleaseVersions (left right : JsString) : option Z :=
  leftVersion ← parseKilnReleaseVersion left;
  rightVersion ← parseKilnReleaseVersion right;
  Some (match compare_cores (core leftVersion) (core rightVersion) with
        | Some order => order
        | None => compare_nightlies (nightly leftVersion) (nightly rightVersion)
        end).

(** ** Hearth's feed of releases *)

Inductive Channel := NightlyChannel | StableChannel.

#[global] Instance Channel_eq_dec : EqDecision Channel.
Proof. solve_decision. Defined.

Record Release := MkRelease {
  rl_version : JsString;
  rl_publishedAt : option JsString;
  rl_aliases : list JsString;
  rl_channel : Channel;
}.

Section Feed.
Context (date_parse : JsString → JsNumber) (sort : (Release → Release → Z) → list Release → list Release).

(** [null] where one has no date. *)
Definition comparePublishedAt (left right : option JsString) : option Z :=
  match left, right with
  | Some l, Some r =>
      if bool_decide (l = []) || bool_decide (r = []) then None
      else if isFinite (date_parse l) && isFinite (date_parse r)
      then Some (compareNumbers (date_parse l) (date_parse r)) else None
  | _, _ => None
  end.

Definition publication_dates (releases : list Release) : list (JsString * option JsString) :=
  fold_left (λ dates release, jm_set (rl_version release) (rl_publishedAt release) dates) releases [].

Definition published (dates : list (JsString * option JsString)) (version : JsString) : option JsString :=
  default None (jm_get version dates).

Definition compareReleaseVersions (left : JsString) (right : option JsString) (dates : list (JsString * option JsString)) : Z :=
  match right with
  | None | Some [] => 1
  | Some other =>
      if decide (left = other) then 0
      else
        match compareKilnReleaseVersions left other with
        | None => 0
        | Some order =>
            if negb (bool_decide (kilnReleaseVersionCore left = kilnReleaseVersionCore other)) ||
               Bool.eqb (isKilnNightlyVersion left) (isKilnNightlyVersion other)
            then order
            else default order (comparePublishedAt (published dates left) (published dates other))
        end
  end.

Definition orderKilnReleases (releases : list Release) : list Release :=
  let dates := publication_dates releases in
  sort (λ left right, - compareReleaseVersions (rl_version left) (Some (rl_version right)) dates) releases.

Definition findKilnRelease (releases : list Release) (version : option JsString) : option Release :=
  match version with
  | None | Some [] => None
  | Some version =>
      List.find (λ release, bool_decide (rl_version release = version) || bool_decide (version ∈ rl_aliases release)) releases
  end.

(** A known build under the version the feed lists it as. *)
Definition listed_version (releases : list Release) (version : JsString) : JsString :=
  match findKilnRelease releases (Some version) with Some release => rl_version release | None => version end.

Definition compareLatestReleaseVersion (currentVersion : option JsString) (releases : list Release) : option Z :=
  let ordered := orderKilnReleases releases in
  match ordered, currentVersion with
  | latest :: _, Some current =>
      if negb (isKilnReleaseVersion (Some current)) then None
      else
        let canonical := listed_version releases current in
        if decide (rl_version latest = canonical) then Some 0
        else
          let comparison := compareReleaseVersions (rl_version latest) (Some canonical) (publication_dates ordered) in
          if (comparison =? -1) && bool_decide (kilnReleaseVersionCore (rl_version latest) = kilnReleaseVersionCore canonical)
          then Some 1 else Some comparison
  | _, _ => None
  end.

(** The newest stable release when it is newer than the installed build. *)
Definition newerStableRelease (currentVersion : option JsString) (releases : list Release) : option Release :=
  match currentVersion, List.find (λ release, bool_decide (rl_channel release = StableChannel)) (orderKilnReleases releases) with
  | Some current, Some stable =>
      if negb (isKilnReleaseVersion (Some current)) then None
      else if bool_decide (rl_version stable = current) || bool_decide (current ∈ rl_aliases stable) then None
      else
        let installed := listed_version releases current in
        if decide (rl_version stable = installed) then None
        else if negb (bool_decide (is_Some (findKilnRelease releases (Some current)))) && isKilnNightlyVersion installed &&
                bool_decide (kilnReleaseVersionCore installed = kilnReleaseVersionCore (rl_version stable))
        then None
        else if compareReleaseVersions (rl_version stable) (Some installed) (publication_dates releases) =? 1
        then Some stable else None
  | _, _ => None
  end.
End Feed.

(** The digits that end a version after a nightly's mark. *)
Fixpoint legacy_suffix (version : JsString) : option JsString :=
  match version with
  | [] => None
  | u :: rest =>
      match after nightly_mark version ≫= nightly_digits with
      | Some (LegacyDigits sequence) => Some sequence
      | _ => legacy_suffix rest
      end
  end.

(** A release's name for people. *)
Definition kilnReleaseLabel (version : JsString) : JsString :=
  if negb (isKilnReleaseVersion (Some version)) then version
  else
    let name := js "v" ++ kilnReleaseVersionCore version in
    if negb (isKilnNightlyVersion version) then name
    else
      match legacy_suffix version with
      | Some sequence => name ++ js " Nightly #" ++ sequence
      | None => name ++ js " Nightly"
      end.

Example versions :
  compareKilnReleaseVersions (js "1.2.10") (js "1.2.9") = Some 1 ∧
  compareKilnReleaseVersions (js "1.2.0") (js "1.2.0-nightly.20260228.235959") = Some 1 ∧
  compareKilnReleaseVersions (js "1.2.0-nightly.9") (js "1.2.0-nightly.20260228.235959") = Some (-1) ∧
  compareKilnReleaseVersions (js " 1.2.0 ") (js "1.2.0") = Some 0 ∧
  compareKilnReleaseVersions (js "1.2.0-nightly.20260229.000000") (js "1.2.0") = None ∧
  isKilnNightlyVersion (js "1.2.0-nightly.20240229.000000") = true ∧
  kilnReleaseVersionCore (js "1.2.0-nightly.20240229.000000") = js "1.2.0" ∧
  kilnReleaseLabel (js "0.1.0-nightly.17") = js "v0.1.0 Nightly #17".
Proof. vm_compute. repeat split. Qed.

(** ** Numbers of few digits *)

Lemma read_digits_bound ds : forallb is_digit ds = true → 0 <= read_digits ds < 10 ^ Z.of_nat (length ds).
Proof.
  induction ds as [|d ds IH] using rev_ind; intros Hd; [done|].
  rewrite forallb_app in Hd. cbn in Hd. apply andb_true_iff in Hd as [Hds Hd]. rewrite andb_true_r in Hd. apply is_digit_spec in Hd.
  rewrite read_digits_app, length_app. cbn [fold_left length]. specialize (IH Hds).
  replace (Z.of_nat (length ds + 1)) with (Z.succ (Z.of_nat (length ds))) by lia. rewrite Z.pow_succ_r by lia. lia.
Qed.

(** A whole number, and the parts it is written as. *)
Definition whole (n : Z) (x : JsNumber) : Prop := 0 <= n ∧ x = dyadic false n 0.

Lemma whole_parts n x : whole n x → ∃ m p, x = Finite false m p ∧ 0 <= p ∧ n = m * 2 ^ p.
Proof.
  intros [Hn ->]. destruct n as [|n|n]; [by exists 0, 0| |lia]. cbn.
  destruct (strip_zeros n 0) as [m p] eqn:E. apply strip_zeros_spec in E as (k & Hk & -> & E & _).
  exists m, (0 + k). by split; [|split; [lia|]].
Qed.

Lemma number_whole ds : forallb is_digit ds = true → (length ds <= 15)%nat → whole (read_digits ds) (number ds).
Proof.
  intros Hd Hl. pose proof (read_digits_bound ds Hd) as Hb.
  assert (10 ^ Z.of_nat (length ds) <= 10 ^ 15) by (apply Z.pow_le_mono_r; lia).
  split; [lia|].
  unfold number, decimal_value. cbn [Z.leb Z.compare]. rewrite Z.mul_1_r. apply dyadic_in_format; [done|done| |done|].
  - change (2 ^ (52 + 1)) with 9007199254740992. change (10 ^ 15) with 1000000000000000 in *. lia.
  - change (least_power 52 11) with (-1074). destruct (Z.eq_dec (read_digits ds) 0) as [->|]; [done|].
    assert (Z.log2 (read_digits ds) < 50); [|lia]. apply Z.log2_lt_pow2; [lia|].
    change (2 ^ 50) with 1125899906842624. change (10 ^ 15) with 1000000000000000 in *. lia.
Qed.

Lemma whole_finite n x : whole n x → isFinite x = true.
Proof. by intros (m & p & -> & _)%whole_parts. Qed.

Lemma whole_less n x k y : whole n x → whole k y → js_less x y = (n <? k).
Proof.
  intros (m & p & -> & Hp & ->)%whole_parts (m' & p' & -> & Hp' & ->)%whole_parts. cbn.
  set (q := Z.min p p'). assert (0 < 2 ^ q) by (apply Z.pow_pos_nonneg; lia).
  assert (2 ^ p = 2 ^ (p - q) * 2 ^ q) as -> by (rewrite <-Z.pow_add_r by lia; f_equal; lia).
  assert (2 ^ p' = 2 ^ (p' - q) * 2 ^ q) as -> by (rewrite <-Z.pow_add_r by lia; f_equal; lia).
  rewrite !Z.mul_assoc. destruct (Z.ltb_spec (m * 2 ^ (p - q)) (m' * 2 ^ (p' - q))), (Z.ltb_spec (m * 2 ^ (p - q) * 2 ^ q) (m' * 2 ^ (p' - q) * 2 ^ q)); try done; nia.
Qed.

Lemma whole_equal n x k y : whole n x → whole k y → js_equal x y = (n =? k).
Proof.
  intros Hx Hy. destruct (Z.eqb_spec n k) as [->|Hne].
  - destruct Hx as [_ ->], Hy as [H ->]. destruct (whole_parts k (dyadic false k 0)) as (m & p & -> & _); [done|]. cbn.
    by apply bool_decide_eq_true.
  - destruct (whole_parts _ _ Hx) as (m & p & -> & _ & En), (whole_parts _ _ Hy) as (m' & p' & -> & _ & Ek). cbn.
    apply bool_decide_eq_false. intros [<- <-]. congruence.
Qed.

Definition order (l r : Z) : Z := if l =? r then 0 else if l <? r then -1 else 1.

Lemma whole_compare n x k y : whole n x → whole k y → compareNumbers x y = order n k.
Proof. intros Hx Hy. unfold compareNumbers, order. by rewrite (whole_equal n x k y), (whole_less n x k y). Qed.

(** ** The calendar *)

Definition days_in_month (leap : bool) (month : Z) : Z :=
  nth (Z.to_nat month) [31; if leap : bool then 29 else 28; 31; 30; 31; 30; 31; 31; 30; 31; 30; 31] 0.

(** A time there was, or will be, from the year 100 on. *)
Definition real_time (year month day hours minutes seconds : Z) : bool :=
  (100 <=? year) && (1 <=? month) && (month <=? 12) && (1 <=? day) && (day <=? days_in_month (leap year) (month - 1)) &&
  (hours <? 24) && (minutes <? 60) && (seconds <? 60).

Lemma year_start_next y : year_start (y + 1) = year_start y + (if leap y then 366 else 365).
Proof.
  unfold year_start, leap.
  destruct (Z.eqb_spec (y mod 4) 0), (Z.eqb_spec (y mod 100) 0), (Z.eqb_spec (y mod 400) 0); cbn [andb orb negb]; Z.to_euclidean_division_equations; lia.
Qed.

Lemma year_start_bounds y y' : y <= y' → 365 * (y' - y) <= year_start y' - year_start y <= 366 * (y' - y).
Proof.
  intros H. replace y' with (y + Z.of_nat (Z.to_nat (y' - y))) by lia. induction (Z.to_nat (y' - y)) as [|k IH]; [rewrite Z.add_0_r; lia|].
  replace (y + Z.of_nat (S k)) with (y + Z.of_nat k + 1) by lia. rewrite year_start_next. destruct (leap _); lia.
Qed.

Lemma year_down_spec fuel day : ∀ year,
  day < year_start (year + 1) → year_start (year - Z.of_nat fuel) <= day →
  year_start (year_down fuel day year) <= day < year_start (year_down fuel day year + 1).
Proof.
  induction fuel as [|fuel IH]; intros year Hlt Hle; cbn [year_down]; destruct (Z.leb_spec (year_start year) day); try lia.
  - by replace (year - Z.of_nat 0) with year in Hle by lia.
  - apply IH; [by replace (year - 1 + 1) with year by lia|]. by replace (year - 1 - Z.of_nat fuel) with (year - Z.of_nat (S fuel)) by lia.
Qed.

Lemma year_of_spec day : year_start (year_of day) <= day < year_start (year_of day + 1).
Proof.
  unfold year_of. set (k := if 0 <=? day then day / 365 else day / 366).
  assert (year_start 1970 = 0) as E0 by reflexivity. apply year_down_spec.
  - subst k. destruct (Z.leb_spec 0 day).
    + pose proof (year_start_bounds 1970 (1971 + day / 365 + 1)). Z.to_euclidean_division_equations. lia.
    + pose proof (year_start_bounds (1971 + day / 366 + 1) 1970). pose proof (year_start_bounds 1970 (1971 + day / 366 + 1)).
      Z.to_euclidean_division_equations. lia.
  - rewrite Nat2Z.inj_succ, Z2Nat.id by lia. subst k. destruct (Z.leb_spec 0 day).
    + pose proof (year_start_bounds 1970 (1970 + day / 366)).
      replace (1971 + day / 365 - Z.succ (Z.abs (day / 365 - day / 366))) with (1970 + day / 366); Z.to_euclidean_division_equations; lia.
    + pose proof (year_start_bounds (1970 + day / 365) 1970).
      replace (1971 + day / 366 - Z.succ (Z.abs (day / 365 - day / 366))) with (1970 + day / 365); Z.to_euclidean_division_equations; lia.
Qed.

Lemma year_of_unique day y : year_start y <= day < year_start (y + 1) → year_of day = y.
Proof.
  intros Hy. pose proof (year_of_spec day). destruct (Z.lt_trichotomy (year_of day) y) as [Hlt|[->|Hlt]]; [|done|].
  - pose proof (year_start_bounds (year_of day + 1) y). lia.
  - pose proof (year_start_bounds (y + 1) (year_of day)). lia.
Qed.

Definition year_days (leap : bool) : Z := if leap then 366 else 365.

Definition day_in_month_ok (leap : bool) (month day : Z) : bool :=
  (days_in_month leap month <? day) ||
  (let at_ := month_start leap month + day - 1 in (0 <=? at_) && (at_ <? year_days leap) && (month_at leap at_ =? month)).

Definition day_in_year_ok (leap : bool) (day : Z) : bool :=
  let month := month_at leap day in let d := day - month_start leap month + 1 in
  (year_days leap <=? day) || ((0 <=? month) && (month <=? 11) && (1 <=? d) && (d <=? days_in_month leap month)).

Lemma all_between (f : Z → bool) a n : forallb f (seqZ a n) = true → ∀ z, a <= z < a + n → f z = true.
Proof. intros H z Hz. rewrite forallb_forall in H. by apply H, list_elem_of_In, elem_of_seqZ. Qed.

Lemma month_of_day leap month day :
  0 <= month < 12 → 1 <= day <= days_in_month leap month →
  0 <= month_start leap month + day - 1 < year_days leap ∧ month_at leap (month_start leap month + day - 1) = month.
Proof.
  intros Hm Hd. assert (day_in_month_ok leap month day = true) as H.
  { assert (days_in_month leap month <= 31).
    { assert (forallb (λ m, days_in_month leap m <=? 31) (seqZ 0 12) = true) as Hall by (destruct leap; vm_compute; reflexivity).
      pose proof (all_between _ _ _ Hall month ltac:(lia)) as Hin. by apply Z.leb_le. }
    assert (forallb (λ m, forallb (day_in_month_ok leap m) (seqZ 1 31)) (seqZ 0 12) = true) as Hall by (destruct leap; vm_compute; reflexivity).
    pose proof (all_between _ _ _ Hall month ltac:(lia)) as Hin. exact (all_between _ _ _ Hin day ltac:(lia)). }
  unfold day_in_month_ok in H. lia.
Qed.

Lemma day_of_year leap day :
  0 <= day < year_days leap →
  0 <= month_at leap day < 12 ∧ 1 <= day - month_start leap (month_at leap day) + 1 <= days_in_month leap (month_at leap day).
Proof.
  intros Hd. assert (day_in_year_ok leap day = true) as H.
  { assert (forallb (day_in_year_ok leap) (seqZ 0 366) = true) as Hall by (destruct leap; vm_compute; reflexivity).
    apply (all_between _ _ _ Hall). destruct leap; cbn in *; lia. }
  unfold day_in_year_ok in H. cbv zeta in H. lia.
Qed.

Lemma month_start_nonneg leap month : 0 <= month < 12 → 0 <= month_start leap month.
Proof.
  intros Hm. assert (forallb (λ m, 0 <=? month_start leap m) (seqZ 0 12) = true) as Hall by (destruct leap; vm_compute; reflexivity).
  by apply Z.leb_le, (all_between _ _ _ Hall).
Qed.

Lemma day_in_year_range day : 0 <= day_in_year day < year_days (leap (year_of day)).
Proof. unfold day_in_year, year_days. pose proof (year_of_spec day). pose proof (year_start_next (year_of day)). destruct (leap _); lia. Qed.

(** The fields of a day are those of a day there is. *)
Lemma fields_real day : 0 <= month_of day < 12 ∧ 1 <= date_of day <= days_in_month (leap (year_of day)) (month_of day).
Proof. apply day_of_year, day_in_year_range. Qed.

(** A day there is has its fields. *)
Lemma real_fields y month day :
  0 <= month < 12 → 1 <= day <= days_in_month (leap y) month →
  let at_ := year_start y + month_start (leap y) month + day - 1 in year_of at_ = y ∧ month_of at_ = month ∧ date_of at_ = day.
Proof.
  intros Hm Hd at_. destruct (month_of_day (leap y) month day Hm Hd) as [Hr Hmonth].
  assert (year_of at_ = y) as Hy.
  { apply year_of_unique. rewrite year_start_next. unfold year_days in Hr. subst at_. destruct (leap y); lia. }
  assert (day_in_year at_ = month_start (leap y) month + day - 1) as Hdiy by (unfold day_in_year; rewrite Hy; subst at_; lia).
  assert (month_of at_ = month) as Hmo by (unfold month_of; by rewrite Hy, Hdiy). split; [done|]. split; [done|].
  unfold date_of. rewrite Hy, Hmo, Hdiy. lia.
Qed.

(** [Date] gives a time's fields back just when there was that time. *)
Lemma time_fields year month day h m s :
  0 <= year → 0 <= month → 0 <= day → 0 <= h → 0 <= m → 0 <= s →
  let date := date_utc year (month - 1) day h m s in
  negb (year_of (date / 86400) =? year) || negb (month_of (date / 86400) =? month - 1) || negb (date_of (date / 86400) =? day) ||
  negb ((date / 3600) mod 24 =? h) || negb ((date / 60) mod 60 =? m) || negb (date mod 60 =? s) =
  negb (real_time year month day h m s).
Proof.
  intros Hy Hmo Hd Hh Hm Hs date. destruct (real_time year month day h m s) eqn:Hreal; cbn [negb].
  - unfold real_time in Hreal. rewrite !andb_true_iff, !Z.leb_le, !Z.ltb_lt in Hreal.
    destruct Hreal as (((((((Hy1 & Hmo1) & Hmo2) & Hd1) & Hd2) & Hh1) & Hm1) & Hs1).
    destruct (real_fields year (month - 1) day ltac:(lia) ltac:(lia)) as (Ey & Em & Ed).
    set (days := year_start year + month_start (leap year) (month - 1) + day - 1) in *.
    assert (date = days * 86400 + h * 3600 + m * 60 + s) as Edate.
    { subst date days. unfold date_utc. rewrite (proj2 (andb_false_iff _ _)) by (right; lia).
      rewrite Z.div_small, Z.mod_small, Z.add_0_r by lia. done. }
    clearbody date days. assert (date / 86400 = days) as -> by (symmetry; apply (Z.div_unique_pos _ _ _ (h * 3600 + m * 60 + s)); lia). rewrite Ey, Em, Ed.
    assert ((date / 3600) mod 24 = h) as ->.
    { rewrite <-(Z.div_unique_pos date 3600 (days * 24 + h) (m * 60 + s)) by lia. symmetry. apply (Z.mod_unique_pos _ _ days); lia. }
    assert ((date / 60) mod 60 = m) as ->.
    { rewrite <-(Z.div_unique_pos date 60 (days * 1440 + h * 60 + m) s) by lia. symmetry. apply (Z.mod_unique_pos _ _ (days * 24 + h)); lia. }
    assert (date mod 60 = s) as -> by (symmetry; apply (Z.mod_unique_pos _ _ (days * 1440 + h * 60 + m)); lia). by rewrite !Z.eqb_refl.
  - apply not_false_iff_true. intros H. rewrite !orb_false_iff, !negb_false_iff, !Z.eqb_eq in H.
    destruct H as (((((Ey & Em) & Ed) & Eh) & Emi) & Es). destruct (fields_real (date / 86400)) as [Hm1 Hd1].
    rewrite Ey, Em, Ed in *. pose proof (Z.mod_pos_bound (date / 3600) 24). pose proof (Z.mod_pos_bound (date / 60) 60).
    pose proof (Z.mod_pos_bound date 60). assert (100 <= year) as Hy1; [|unfold real_time in Hreal; lia].
    destruct (Z.le_gt_cases 100 year) as [|Hlt]; [done|exfalso]. pose proof (year_of_spec (date / 86400)) as Hsp. rewrite Ey in Hsp.
    assert (year_start (1900 + year) <= date / 86400).
    { apply Z.div_le_lower_bound; [lia|]. subst date. unfold date_utc. rewrite (proj2 (andb_true_iff _ _)) by lia.
      rewrite Z.div_small, Z.mod_small, Z.add_0_r by lia.
      pose proof (month_start_nonneg (leap (1900 + year)) (month - 1)). lia. }
    pose proof (year_start_bounds (year + 1) (1900 + year)). lia.
Qed.

(** ** What a version's text holds *)

Definition all_digits (ds : JsString) : Prop := forallb is_digit ds = true.

Definition found_digits (found : option NightlyDigits) : Prop :=
  match found with
  | None => True
  | Some (LegacyDigits sequence) => all_digits sequence
  | Some (TimestampDigits date time) => all_digits date ∧ all_digits time ∧ length date = 8%nat ∧ length time = 6%nat
  end.

Lemma some_digits_all us ds rest : some_digits us = Some (ds, rest) → all_digits ds.
Proof.
  unfold some_digits. destruct (span_split is_digit us) as [_ H]. destruct (span is_digit us) as [front back].
  case_bool_decide; [done|]. by intros [= <- <-].
Qed.

Lemma nightly_digits_found us found : nightly_digits us = Some found → found_digits (Some found).
Proof.
  unfold nightly_digits. intros H. apply bind_Some in H as ([ds rest] & Hd%some_digits_all & H).
  destruct rest as [|u rest]; [by injection H as <-|]. apply bind_Some in H as (time & _ & H).
  destruct (bool_decide _) eqn:Hl; [|done]. apply bool_decide_eq_true in Hl as [H1 H2].
  destruct (forallb is_digit time) eqn:Ht; [|done]. by injection H as <-.
Qed.

Lemma version_groups_digits us parts found :
  version_groups us = Some (parts, found) →
  (∃ major minor patch, parts = [major; minor; patch] ∧ all_digits major ∧ all_digits minor ∧ all_digits patch) ∧ found_digits found.
Proof.
  unfold version_groups. intros H. apply bind_Some in H as ([major us1] & H1%some_digits_all & H).
  apply bind_Some in H as (us2 & _ & H). apply bind_Some in H as ([minor us3] & H3%some_digits_all & H).
  apply bind_Some in H as (us4 & _ & H). apply bind_Some in H as ([patch us5] & H5%some_digits_all & H).
  destruct us5 as [|u us5].
  - injection H as <- <-. split; [by exists major, minor, patch|done].
  - apply bind_Some in H as (us6 & _ & H). apply bind_Some in H as (found' & Hf & H). injection H as <- <-.
    split; [by exists major, minor, patch|by eapply nightly_digits_found].
Qed.

(** ** The reference *)

Definition timestamp_real (date time : JsString) : bool :=
  real_time (read_digits (slice 0 4 date)) (read_digits (slice 4 6 date)) (read_digits (slice 6 8 date))
    (read_digits (slice 0 2 time)) (read_digits (slice 2 4 time)) (read_digits (slice 4 6 time)).

(** What versions are ordered by, first to last. *)
Definition version_key (version : JsString) : option (list Z) :=
  '(parts, found) ← version_groups (js_trim version);
  match found with
  | None => Some ((read_digits <$> parts) ++ [2; 0; 0])
  | Some (LegacyDigits sequence) => Some ((read_digits <$> parts) ++ [0; read_digits sequence; 0])
  | Some (TimestampDigits date time) =>
      if timestamp_real date time then Some ((read_digits <$> parts) ++ [1; read_digits date; read_digits time]) else None
  end.

Fixpoint lex (ls rs : list Z) : Z :=
  match ls, rs with
  | l :: ls, r :: rs => if l =? r then lex ls rs else if l <? r then -1 else 1
  | _, _ => 0
  end.

Definition short (ds : JsString) : bool := (length ds <=? 15)%nat.

(** A version whose numbers JavaScript holds exactly. *)
Definition few_digits (version : JsString) : bool :=
  match version_groups (js_trim version) with
  | Some (parts, found) =>
      forallb short parts && match found with Some (LegacyDigits sequence) => short sequence | _ => true end
  | None => true
  end.

(** ** Both agree *)

Lemma all_digits_slice from to ds : all_digits ds → 0 <= read_digits (slice from to ds).
Proof.
  intros H. apply read_digits_bound. unfold slice, all_digits in *. rewrite <-(take_drop from ds), forallb_app in H.
  apply andb_true_iff in H as [_ H]. rewrite <-(take_drop (to - from) (drop from ds)), forallb_app in H. by apply andb_true_iff in H as [H _].
Qed.

Lemma timestamp_parses date time :
  all_digits date → all_digits time →
  parseTimestampNightly date time = if timestamp_real date time then Some (Timestamp (number date) (number time)) else None.
Proof.
  intros Hd Ht. unfold parseTimestampNightly. cbv zeta. rewrite time_fields by by apply all_digits_slice.
  unfold timestamp_real. by destruct (real_time _ _ _ _ _ _).
Qed.

Inductive keyed : option Nightly → list Z → Prop :=
  | keyed_stable : keyed None [2; 0; 0]
  | keyed_legacy x n : whole n x → keyed (Some (Legacy x)) [0; n; 0]
  | keyed_timestamp x y n k : whole n x → whole k y → keyed (Some (Timestamp x y)) [1; n; k].

Lemma compare_nightlies_key l r ls rs : keyed l ls → keyed r rs → compare_nightlies l r = lex ls rs.
Proof.
  intros [|x n Hx|x y n k Hx Hy] [|x' n' Hx'|x' y' n' k' Hx' Hy']; try done; cbn.
  - rewrite (whole_compare n x n' x') by done. unfold order. by destruct (n =? n').
  - rewrite (whole_compare n x n' x'), (whole_compare k y k' y') by done. unfold order.
    destruct (n =? n'); cbn; [by destruct (k =? k')|by destruct (n <? n')].
Qed.

Lemma compare_cores_key ls rs xs ys :
  Forall2 whole xs ls → Forall2 whole ys rs → length ls = length rs →
  ∀ xs' ys', lex (xs ++ xs') (ys ++ ys') = match compare_cores ls rs with Some order => order | None => lex xs' ys' end.
Proof.
  intros Hl. revert rs ys. induction Hl as [|x l xs ls Hx Hl IH]; intros rs ys Hr Hlen xs' ys'; destruct Hr as [|y r ys rs Hy Hr]; try done.
  cbn. unfold differ. rewrite (whole_finite x l), (whole_equal x l y r), (whole_less x l y r) by done.
  destruct (x =? y); cbn; [|done]. apply IH; [done|]. by injection Hlen.
Qed.

(** What is parsed of a version is what its key says. *)
Lemma version_parses v :
  few_digits v = true →
  match version_key v with
  | None => parseKilnReleaseVersion v = None
  | Some ns => ∃ parsed xs ys, parseKilnReleaseVersion v = Some parsed ∧ ns = xs ++ ys ∧ length (core parsed) = 3%nat ∧
      Forall2 whole xs (core parsed) ∧ keyed (nightly parsed) ys
  end.
Proof.
  unfold few_digits, version_key, parseKilnReleaseVersion. intros Hf.
  destruct (version_groups (js_trim v)) as [[parts found]|] eqn:E; [|done].
  apply andb_true_iff in Hf as [Hp Hf]. cbn [mbind option_bind].
  destruct (version_groups_digits _ _ _ E) as [(major & minor & patch & -> & H1 & H2 & H3) Hfound].
  cbn in Hp. rewrite !andb_true_iff in Hp. unfold short in Hp. rewrite !Nat.leb_le in Hp. destruct Hp as (Hs1 & Hs2 & Hs3 & _).
  assert (Forall2 whole (read_digits <$> [major; minor; patch]) (number <$> [major; minor; patch])) as Hcore.
  { repeat (constructor; [by apply number_whole|]). constructor. }
  destruct found as [[date time|sequence]|].
  - destruct Hfound as (Hd & Ht & Hld & Hlt). rewrite timestamp_parses by done. destruct (timestamp_real date time); [|done].
    eexists _, _, _. split; [done|]. split; [done|]. split; [done|]. split; [exact Hcore|].
    constructor; apply number_whole; (done || lia).
  - eexists _, _, _. split; [done|]. split; [done|]. split; [done|]. split; [exact Hcore|].
    constructor. apply number_whole; [done|]. by apply Nat.leb_le.
  - eexists _, _, _. split; [done|]. split; [done|]. split; [done|]. split; [exact Hcore|]. constructor.
Qed.

(** C21: Releases are ordered as they should be: comparing two versions, whose
    numbers have at most 15 digits, compares their three numbers, then whether
    each is a counted nightly, a nightly of a time or a release, then the
    count or the date and the time, the first that differ deciding; and there
    is an answer just when both are versions and a nightly's time is one there
    was. *)
Theorem releases_in_order a b :
  few_digits a = true → few_digits b = true →
  compareKilnReleaseVersions a b = (ka ← version_key a; kb ← version_key b; Some (lex ka kb)).
Proof.
  intros Ha Hb. pose proof (version_parses a Ha) as Pa. pose proof (version_parses b Hb) as Pb.
  unfold compareKilnReleaseVersions.
  destruct (version_key a) as [ka|]; [|by rewrite Pa]. destruct Pa as (pa & xs & ys & -> & -> & Hl & Hc & Hk). cbn [mbind option_bind].
  destruct (version_key b) as [kb|]; [|by rewrite Pb]. destruct Pb as (pb & xs' & ys' & -> & -> & Hl' & Hc' & Hk'). cbn [mbind option_bind].
  f_equal. rewrite (compare_cores_key _ _ _ _ Hc Hc') by congruence. by rewrite (compare_nightlies_key _ _ _ _ Hk Hk').
Qed.

Lemma releases_in_order_witness :
  compareKilnReleaseVersions (js "1.2.0-nightly.20260228.235959") (js "1.2.0-nightly.20260301.000000") = Some (-1).
Proof. rewrite releases_in_order; vm_compute; reflexivity. Defined.

(** ** What an installed build is told of *)

(** A build is only told of a stable release of the feed, and one that is
    newer: by its version, or, where one of the two is a nightly of the same
    release, by when they were published. *)
Theorem newer_stable_is_newer date_parse (sort : (Release → Release → Z) → list Release → list Release) current releases r :
  (∀ compare l, sort compare l ≡ₚ l) →
  newerStableRelease date_parse sort (Some current) releases = Some r →
  let installed := listed_version releases current in let dates := publication_dates releases in
  r ∈ releases ∧ rl_channel r = StableChannel ∧ rl_version r ≠ installed ∧
  (installed ≠ [] → compareKilnReleaseVersions (rl_version r) installed = Some 1 ∨
    kilnReleaseVersionCore (rl_version r) = kilnReleaseVersionCore installed ∧
    isKilnNightlyVersion (rl_version r) ≠ isKilnNightlyVersion installed ∧
    comparePublishedAt date_parse (published dates (rl_version r)) (published dates installed) = Some 1).
Proof.
  intros Hsort. unfold newerStableRelease. destruct (List.find _ _) as [stable|] eqn:Ef; [|done].
  apply List.find_some in Ef as [Hin Hc%bool_decide_eq_true]. rewrite <-list_elem_of_In in Hin. unfold orderKilnReleases in Hin. rewrite Hsort in Hin.
  destruct (negb _); [done|]. destruct (_ || _); [done|]. case_decide as Hne; [done|]. destruct (_ && _); [done|].
  destruct (Z.eqb_spec (compareReleaseVersions date_parse (rl_version stable) (Some (listed_version releases current)) (publication_dates releases)) 1)
    as [Ecmp|]; [|done]. intros [= <-]. do 3 (split; [done|]). intros Hi. revert Ecmp. unfold compareReleaseVersions.
  destruct (listed_version releases current) as [|u installed] eqn:El; [done|]. rewrite decide_False by done.
  destruct (compareKilnReleaseVersions _ _) as [order|]; [|done].
  destruct (bool_decide_reflect (kilnReleaseVersionCore (rl_version stable) = kilnReleaseVersionCore (u :: installed))) as [Hcore|]; cbn [negb orb];
    [|by intros ->; left].
  destruct (Bool.eqb _ _) eqn:En; [by intros ->; left|]. apply Bool.eqb_false_iff in En.
  destruct (comparePublishedAt _ _ _) as [later|]; cbn; [intros ->; by right|intros ->; by left].
Qed.

(** ** What numbers and dates do at their limits *)

(** Two equal versions whose first number is past what JavaScript can hold
    come out as one newer than the other. *)
Example infinite_versions_differ :
  let version := repeat 57 400 ++ js ".0.0" in compareKilnReleaseVersions version version = Some 1.
Proof. vm_compute. reflexivity. Qed.

(** Three builds of one release, each newer than the one before: nightlies
    are ordered by their versions and a nightly and the release by when they
    were published. *)
Example one_release_in_a_circle :
  let dates := [(js "1.0.0-nightly.1", Some (js "c")); (js "1.0.0-nightly.2", Some (js "a")); (js "1.0.0", Some (js "b"))] in
  let date_parse us := number (js match us with [97] => "1" | [98] => "2" | _ => "3" end) in
  let compare a b := compareReleaseVersions date_parse (js a) (Some (js b)) dates in
  compare "1.0.0-nightly.2" "1.0.0-nightly.1" = 1 ∧ compare "1.0.0" "1.0.0-nightly.2" = 1 ∧ compare "1.0.0-nightly.1" "1.0.0" = 1.
Proof. vm_compute. repeat split. Qed.
