(* ===== verification/HearthLanes.v ===== *)
(** * Hearth's lane keys

    Models [apps/web/src/operations/lanes.ts]: the keys of Hearth's lanes,
    how a change holds what it changes, and what an operation inside another
    may run under. A part of something has a key of its own, with the whole's
    before a hash sign, and taking a part takes the whole shared.

    [sha256] is the hash of an address, in hexadecimal. *)
From Stdlib Require Import Ascii.
From S2P Require Import Prelude Operations Locks Grants Lanes.

Inductive Initiator := Person | System.

#[global] Instance Initiator_eq_dec : EqDecision Initiator.
Proof. solve_decision. Defined.

(** ** Keys *)

Definition resourceKey (kind relayId id : string) : string := kind +:+ ":" +:+ relayId +:+ "/" +:+ id.

Definition relayKey (id : string) : string := "relay:" +:+ id.

Definition hearthKey : string := "hearth".

Definition partKey (whole part : string) : string := whole +:+ "#" +:+ part.

Definition accessKey (kind relayId id : string) : string :=
  partKey (if decide (kind = "relay") then relayKey relayId else resourceKey kind relayId id) "access".

Definition userKey (id : string) : string := "user:" +:+ id.

Definition emailKey (sha256 : string → string) (email : string) : string :=
  "email:" +:+ String.substring 0 32 (sha256 email).

Inductive LockPolicy := AsShared | AsWhole | AsPart (part : string).

Definition lockAs (key : string) (policy : LockPolicy) : LaneLock :=
  match policy with
  | AsWhole => exclusive key
  | AsShared => shared key
  | AsPart part => exclusive (partKey key part)
  end.

(** [key.slice(0, key.indexOf("#"))], when there is one. *)
Fixpoint before_hash (key : string) : option string :=
  match key with
  | EmptyString => None
  | String c rest =>
      if decide (c = "#"%char) then Some ""
      else match before_hash rest with Some whole => Some (String c whole) | None => None end
  end.

Definition wholes (locks : list LaneLock) : list LaneLock :=
  locks ≫= λ lock, match before_hash (key lock) with Some whole => [shared whole] | None => [] end.

Definition withWholes (locks : list LaneLock) : list LaneLock := normalizeLocks (locks ++ wholes locks).

(** What is held covers one lock. *)
Definition covered (modes : list (string * LaneMode)) (lock : LaneLock) : bool :=
  match jm_get (key lock) modes with
  | Some Exclusive => true
  | Some Shared => bool_decide (mode lock = Shared)
  | None => false
  end ||
  match before_hash (key lock) with
  | Some whole => bool_decide (jm_get whole modes = Some Exclusive)
  | None => false
  end.

Definition uncovered (wanted held : list LaneLock) : list LaneLock :=
  List.filter (λ lock, negb (covered (held_modes held) lock)) wanted.

(** The lanes' options, and who they turn away. *)
Definition hearth_options : LanesOptions :=
  lanes_options (Some 1024%Z) (Some "Hearth is too busy right now. Try again shortly.") None.

Definition personWhenBusy (inTheWay : list (WaitReason string)) : bool :=
  existsb (λ reason, negb (bool_decide (is_Some (before_hash (r_key reason))))) inTheWay.

(** ** Facts *)

(** Locks that take the whole of every part they take. *)
Definition keeps_wholes (locks : list LaneLock) : Prop :=
  ∀ l whole, l ∈ locks → before_hash (key l) = Some whole → ∃ w, w ∈ locks ∧ key w = whole.

Lemma before_hash_twice k whole : before_hash k = Some whole → before_hash whole = None.
Proof.
  revert whole. induction k as [|c k IH]; cbn; intros whole; [done|]. case_decide as Hc; [by intros [= <-]|].
  destruct (before_hash k) as [w|] eqn:E; [|done]. intros [= <-]. cbn. rewrite decide_False by done. by rewrite (IH w).
Qed.

Lemma wholes_elem l ls : l ∈ wholes ls ↔ ∃ p whole, p ∈ ls ∧ before_hash (key p) = Some whole ∧ l = shared whole.
Proof.
  unfold wholes. rewrite list_elem_of_bind. split.
  - intros (p & Hl & Hp). destruct (before_hash (key p)) as [whole|] eqn:E; [|in_nil Hl].
    apply list_elem_of_singleton in Hl as ->. eauto.
  - intros (p & whole & Hp & E & ->). exists p. rewrite E. split; [by left|done].
Qed.

Lemma requested_same_key ls k m : MkLock k m ∈ ls → is_Some (requested k ls).
Proof.
  intros Hin. destruct (requested k ls) as [m'|] eqn:E; [by eexists|]. exfalso.
  pose proof (requested_Some k ls Exclusive) as He. pose proof (requested_Some k ls Shared) as Hs. rewrite E in He, Hs.
  destruct m; [by discriminate (proj2 He Hin)|]. assert (exclusive k ∉ ls) as Hne by (by intros ?%He).
  discriminate (proj2 Hs (conj Hne Hin)).
Qed.

Lemma normalized_key l ls : l ∈ normalizeLocks ls → ∃ l', l' ∈ ls ∧ key l' = key l.
Proof.
  intros Hl%normalizeLocks_elem%requested_Some. destruct (mode l); [|destruct Hl as [_ Hl]]; by eexists; split; [exact Hl|].
Qed.

Lemma key_normalized l ls : l ∈ ls → ∃ l', l' ∈ normalizeLocks ls ∧ key l' = key l.
Proof.
  destruct l as [k m]. intros Hl. destruct (requested_same_key _ _ _ Hl) as [m' Hm]. exists (MkLock k m').
  split; [by apply normalizeLocks_elem|done].
Qed.

Lemma withWholes_keeps ls : keeps_wholes (withWholes ls).
Proof.
  intros l whole (l' & Hl' & Ek)%normalized_key Hw. rewrite <-Ek in Hw. apply elem_of_app in Hl' as [Hl'|Hl'].
  - destruct (key_normalized (shared whole) (ls ++ wholes ls)) as (w & Hw' & Ew); [|by exists w].
    apply elem_of_app. right. apply wholes_elem. eauto.
  - apply wholes_elem in Hl' as (p & w & _ & E & ->). apply before_hash_twice in E. cbn in Hw. congruence.
Qed.

Lemma normalizeLocks_ext ls ls' : (∀ k, requested k ls = requested k ls') → normalizeLocks ls = normalizeLocks ls'.
Proof.
  intros Hr. eapply sorted_perm_unique; [|apply normalizeLocks_sorted..|].
  - intros x y Hx%normalizeLocks_elem Hy%normalizeLocks_elem H1 H2.
    assert (key x = key y) as Hk by (apply (anti_symm String.le); by apply Is_true_true).
    destruct x, y; simpl in *; congruence.
  - apply NoDup_Permutation; [eapply NoDup_fmap_1, normalizeLocks_keys_NoDup..|].
    intros l. by rewrite !normalizeLocks_elem, Hr.
Qed.

Lemma normalizeLocks_idem ls : normalizeLocks (normalizeLocks ls) = normalizeLocks ls.
Proof. apply normalizeLocks_ext. intros k. apply normalizeLocks_requested. Qed.

Lemma withWholes_normal ls : normalizeLocks (withWholes ls) = withWholes ls.
Proof. apply normalizeLocks_idem. Qed.

Lemma requested_app k ls ls' :
  requested k (ls ++ ls') =
  match requested k ls, requested k ls' with
  | Some Exclusive, _ | _, Some Exclusive => Some Exclusive
  | Some Shared, _ | _, Some Shared => Some Shared
  | None, None => None
  end.
Proof.
  unfold requested. rewrite !existsb_app. by repeat destruct (existsb _ _).
Qed.

Lemma withWholes_idem ls : withWholes (withWholes ls) = withWholes ls.
Proof.
  rewrite <-(withWholes_normal ls) at 2. apply normalizeLocks_ext. intros k. rewrite requested_app.
  destruct (requested k (wholes (withWholes ls))) as [m|] eqn:E; [|by destruct (requested k (withWholes ls)) as [[]|]].
  apply requested_Some in E.
  assert (m = Shared ∧ shared k ∈ wholes (withWholes ls)) as [-> Hs].
  { destruct m; [|tauto]. apply wholes_elem in E as (? & ? & _ & _ & [=]). }
  apply wholes_elem in Hs as (p & whole & Hp & Ew & [= ->]).
  destruct (withWholes_keeps ls p whole Hp Ew) as ([k m] & Hw & <-). cbn.
  destruct (requested_same_key _ _ _ Hw) as [m' ->]. by destruct m'.
Qed.

Lemma withWholes_nil : withWholes [] = [].
Proof. reflexivity. Qed.

Lemma covered_elem wanted held l : uncovered wanted held = [] → l ∈ wanted → covered (held_modes held) l = true.
Proof.
  intros Hun Hl. destruct (covered (held_modes held) l) eqn:Hcov; [done|]. exfalso.
  assert (l ∈ uncovered wanted held) as H by (apply elem_of_bfilter; by rewrite Hcov).
  rewrite Hun in H. in_nil H.
Qed.

(** Locks that are covered exclude nothing that what is held does not. *)
Lemma hash_covered_compatible wanted held other :
  uncovered wanted held = [] → keeps_wholes other → compatible held other → compatible wanted other.
Proof.
  intros Hun Hkeep Hc l o Hl Ho. destruct (locks_conflict l o) eqn:E; [|done]. exfalso.
  apply locks_conflict_true in E as [Ek Em]. pose proof (covered_elem _ _ _ Hun Hl) as Hcov.
  assert (∀ h o', h ∈ held → o' ∈ other → key h = key o' → mode h = Exclusive ∨ mode o' = Exclusive → False) as Hno.
  { intros h o' Hh Ho' E1 E2. specialize (Hc h o' Hh Ho'). by rewrite conflict_on in Hc. }
  unfold covered in Hcov. apply orb_true_iff in Hcov as [Hcov|Hcov].
  - destruct (jm_get (key l) (held_modes held)) as [m|] eqn:Hm; [|done].
    apply held_modes_get in Hm. apply (Hno _ o Hm Ho); [done|]. cbn.
    destruct m; [auto|]. apply bool_decide_eq_true in Hcov. destruct Em; [congruence|auto].
  - destruct (before_hash (key l)) as [whole|] eqn:Hb; [|done].
    apply bool_decide_eq_true, held_modes_get in Hcov. rewrite Ek in Hb.
    destruct (Hkeep o whole Ho Hb) as (w & Hw & Hk). apply (Hno _ w Hcov Hw); [by rewrite Hk|by left].
Qed.

Lemma held_modes_there held l : l ∈ held → is_Some (jm_get (key l) (held_modes held)).
Proof.
  unfold held_modes. generalize (@nil (string * LaneMode)). induction held as [|x held IH]; intros modes; [intros H; in_nil H|].
  intros [->|Hl]%elem_of_cons; [|by apply IH]. cbn [fold_left].
  assert (∀ modes, is_Some (jm_get (key x) modes) →
    is_Some (jm_get (key x) (fold_left (λ modes lock, jm_set (key lock) (mode lock) modes) held modes))) as Hstays.
  { clear. induction held as [|y held IH]; intros modes Hm; [done|]. apply IH. rewrite jm_get_set. by case_decide. }
  apply Hstays. rewrite jm_get_set, decide_True by done. done.
Qed.

(** Work is covered by its own locks. *)
Lemma uncovered_self ls : uncovered (withWholes ls) (withWholes ls) = [].
Proof.
  apply elem_of_nil_inv. intros l [Hl Hc]%elem_of_bfilter. apply negb_true_iff, orb_false_iff in Hc as [Hc _].
  destruct (held_modes_there _ _ Hl) as [m Hm]. rewrite Hm in Hc. apply held_modes_get in Hm.
  assert (MkLock (key l) m = l) as E.
  { apply list_elem_of_lookup in Hm as [i Hi], Hl as [j Hj]. pose proof (normalizeLocks_keys_NoDup (ls ++ wholes ls)) as Hnd.
    assert (i = j) as ->; [|congruence]. eapply NoDup_lookup; [exact Hnd|rewrite list_lookup_fmap; change (normalizeLocks _) with (withWholes ls)..].
    - by rewrite Hi.
    - by rewrite Hj. }
  destruct m; [done|]. rewrite <-E in Hc. done.
Qed.
