(* ===== verification/HearthRecords.v ===== *)
(** * Hearth's record of its durable operations

    Models the statements of [apps/web/src/operations/records.ts] on the
    operation table, each of which MySQL runs whole or not at all, in one
    transaction. The table's keys are those of migrations 36 and 50: the ID,
    the idempotency key and the queue key of a kind. The columns that link an
    operation's trace are left out.

    [apply] is what a statement does and answers, or [None] when MySQL refuses
    it. How programs use them is in [HearthPrograms]. *)
From S2P Require Import Prelude Operations Locks Plans Bytes Utf8 HearthLanes.
Open Scope Z_scope.

Inductive OperationState := SCancelled | SFailed | SInterrupted | SRunning | SSucceeded | SWaiting.

#[global] Instance OperationState_eq_dec : EqDecision OperationState.
Proof. solve_decision. Defined.

Record Row := MkRow {
  row_kind : string;
  row_version : Z;
  row_idempotency : option string;
  row_queue : option string;
  row_input : Json;
  row_locks : list LaneLock;
  row_state : OperationState;
  row_actor : option string;
  row_error : option JsString;
  row_execution : option string;
  row_created : Z;
  row_updated : Z;
  row_finished : option Z;
}.

(** The rows by ID, and the executions whose history the engine keeps. *)
Record Tables := MkTables { t_rows : gmap string Row; t_history : gset string }.

Definition set_rows (rows : gmap string Row) (T : Tables) : Tables := MkTables rows (t_history T).

(** ** Statements *)

Inductive Statement :=
  | Insert (id : string) (row : Row) (ignore : bool)
  | FindByKey (kind key : string)
  | SelectOpen (id : string)
  | Finish (id : string) (outcome : OperationState) (error : option JsString) (now : Z)
  | Load (id : string)
  | Start (id : string) (now : Z)
  | Join (kind key : string) (asked : Json) (join : Json → Json → option Json) (now : Z)
  | CancelWaiting (id : string) (now : Z)
  | FindWaiting (kind key : string)
  | ListActive (kind : string)
  | ListWaiting
  | ListRunning
  | ListUndispatched
  | SetExecution (id execution : string)
  | SelectFinished (cutoff : Z)
  | ForgetHistory (executions : list string)
  | ForgetRows (ids : list string).

(** What joining found: nothing under the key, what it joined, or work the
    definition would not join. *)
Inductive Joined := NotFound | JoinedTo (id : string) | JoinDied.

(** [affectedRows] of a statement on one row is whether there was one. *)
Definition answer (st : Statement) : Type :=
  match st with
  | Insert _ _ _ | Finish _ _ _ _ | Start _ _ | CancelWaiting _ _ => bool
  | FindByKey _ _ => option (string * OperationState)
  | SelectOpen _ | Load _ => option Row
  | Join _ _ _ _ _ => Joined
  | FindWaiting _ _ => option (string * Json)
  | ListActive _ | ListWaiting | ListRunning => list (string * Row)
  | ListUndispatched => list string
  | SelectFinished _ => list (string * option string)
  | SetExecution _ _ | ForgetHistory _ | ForgetRows _ => unit
  end.

(** ** Reading *)

(** The first row there is, of those a key names. *)
Definition find_row (f : Row → bool) (T : Tables) : option (string * Row) :=
  List.find (λ entry, f entry.2) (map_to_list (t_rows T)).

Definition by_idempotency (kind key : string) (row : Row) : bool :=
  bool_decide (row_kind row = kind) && bool_decide (row_idempotency row = Some key).

Definition by_queue (kind key : string) (row : Row) : bool :=
  bool_decide (row_kind row = kind) && bool_decide (row_queue row = Some key).

Definition has_state (s : OperationState) (row : Row) : bool := bool_decide (row_state row = s).

Definition is_open (row : Row) : bool := has_state SRunning row || has_state SWaiting row.

(** [ORDER BY created_at] *)
Definition oldest_first (entries : list (string * Row)) : list (string * Row) :=
  stable_sort (λ a b : string * Row, row_created a.2 <=? row_created b.2) entries.

Definition select (f : Row → bool) (T : Tables) : list (string * Row) :=
  List.filter (λ entry, f entry.2) (map_to_list (t_rows T)).

Definition RETENTION_BATCH : nat := 500.

(** [ORDER BY finished_at LIMIT] those that finished before [cutoff]. *)
Definition finished_before (cutoff : Z) (T : Tables) : list (string * Row) :=
  take RETENTION_BATCH
    (stable_sort (λ a b : string * Row, default 0 (row_finished a.2) <=? default 0 (row_finished b.2))
       (select (λ row, match row_finished row with Some at_ => at_ <? cutoff | None => false end) T)).

(** ** Writing *)

(** Whether the table's unique keys refuse a row. *)
Definition taken (id : string) (row : Row) (T : Tables) : bool :=
  bool_decide (is_Some (t_rows T !! id)) ||
  match row_idempotency row with
  | Some key => bool_decide (is_Some (find_row (by_idempotency (row_kind row) key) T))
  | None => false
  end ||
  match row_queue row with
  | Some key => bool_decide (is_Some (find_row (by_queue (row_kind row) key) T))
  | None => false
  end.

Definition put (id : string) (row : Row) (T : Tables) : Tables := set_rows (<[id := row]> (t_rows T)) T.

(** An update of one row, [WHERE id = ?] and its state allows it. *)
Definition update (id : string) (f : Row → bool) (change : Row → Row) (T : Tables) : Tables * bool :=
  match t_rows T !! id with
  | Some row => if f row then (put id (change row) T, true) else (T, false)
  | None => (T, false)
  end.

(** An operation that ended gives up its queue key. *)
Definition ended_row (state : OperationState) (error : option JsString) (now : Z) (row : Row) : Row :=
  MkRow (row_kind row) (row_version row) (row_idempotency row) None (row_input row) (row_locks row) state
    (row_actor row) error (row_execution row) (row_created row) now (Some now).

Definition started_row (now : Z) (row : Row) : Row :=
  MkRow (row_kind row) (row_version row) (row_idempotency row) None (row_input row) (row_locks row) SRunning
    (row_actor row) (row_error row) (row_execution row) (row_created row) now (row_finished row).

Definition joined_row (input : Json) (now : Z) (row : Row) : Row :=
  MkRow (row_kind row) (row_version row) (row_idempotency row) (row_queue row) input (row_locks row) (row_state row)
    (row_actor row) (row_error row) (row_execution row) (row_created row) now (row_finished row).

Definition executed_row (execution : string) (row : Row) : Row :=
  MkRow (row_kind row) (row_version row) (row_idempotency row) (row_queue row) (row_input row) (row_locks row) (row_state row)
    (row_actor row) (row_error row) (Some execution) (row_created row) (row_updated row) (row_finished row).

Definition join_waiting (kind key : string) (asked : Json) (join : Json → Json → option Json) (now : Z) (T : Tables) : Tables * Joined :=
  match find_row (by_queue kind key) T with
  | None => (T, NotFound)
  | Some (id, row) =>
      match join (row_input row) asked with
      | None => (T, JoinDied)
      | Some input => (put id (joined_row input now row) T, JoinedTo id)
      end
  end.

(** The error as it is kept, [error?.slice(0, 1024)]. *)
Definition kept_error (error : option JsString) : option JsString := take 1024 <$> error.

Definition apply (st : Statement) (T : Tables) : option (Tables * answer st) :=
  match st return option (Tables * answer st) with
  | Insert id row ignore =>
      if taken id row T then (if ignore then Some (T, false) else None) else Some (put id row T, true)
  | FindByKey kind key => Some (T, (λ entry, (entry.1, row_state entry.2)) <$> find_row (by_idempotency kind key) T)
  | SelectOpen id => Some (T, match t_rows T !! id with Some row => if is_open row then Some row else None | None => None end)
  | Finish id outcome error now => Some (update id is_open (ended_row outcome (kept_error error) now) T)
  | Load id => Some (T, t_rows T !! id)
  | Start id now => Some (update id (has_state SWaiting) (started_row now) T)
  | Join kind key asked join now => Some (join_waiting kind key asked join now T)
  | CancelWaiting id now =>
      Some (update id (has_state SWaiting)
              (λ row, ended_row SCancelled (row_error row) now row) T)
  | FindWaiting kind key => Some (T, (λ entry, (entry.1, row_input entry.2)) <$> find_row (by_queue kind key) T)
  | ListActive kind => Some (T, select (λ row, bool_decide (row_kind row = kind) && is_open row) T)
  | ListWaiting => Some (T, oldest_first (select (has_state SWaiting) T))
  | ListRunning => Some (T, oldest_first (select (has_state SRunning) T))
  | ListUndispatched =>
      Some (T, (oldest_first (select (λ row, has_state SRunning row && bool_decide (row_execution row = None)) T)).*1)
  | SetExecution id execution =>
      Some ((update id (λ row, bool_decide (row_execution row = None)) (executed_row execution) T).1, tt)
  | SelectFinished cutoff => Some (T, (λ entry, (entry.1, row_execution entry.2)) <$> finished_before cutoff T)
  | ForgetHistory executions => Some (MkTables (t_rows T) (t_history T ∖ list_to_set executions), tt)
  | ForgetRows ids => Some (set_rows (foldr delete (t_rows T) ids) T, tt)
  end.

(** ** What a statement does to a row *)

Lemma find_row_Some f T id row : find_row f T = Some (id, row) → t_rows T !! id = Some row ∧ f row = true.
Proof.
  intros [Hin Hf]%List.find_some. split; [|done]. by apply elem_of_map_to_list, list_elem_of_In.
Qed.

Lemma update_row id f change T T' b :
  update id f change T = (T', b) →
  (b = true ∧ ∃ row, t_rows T !! id = Some row ∧ f row = true ∧ T' = put id (change row) T) ∨ (b = false ∧ T' = T).
Proof.
  unfold update. destruct (t_rows T !! id) as [row|] eqn:E; [destruct (f row) eqn:Ef|]; intros [= <- <-]; [left|right..]; eauto.
Qed.

Lemma update_false id f change T T' row :
  update id f change T = (T', false) → t_rows T !! id = Some row → f row = false.
Proof. unfold update. intros E Hr. rewrite Hr in E. by destruct (f row). Qed.

(** A row as it may be after a statement: the same, or moved on. *)
Inductive moves : Row → Row → Prop :=
  | moves_same row : moves row row
  | moves_ended row state error now :
      is_open row = true → state ≠ SRunning → state ≠ SWaiting → moves row (ended_row state error now row)
  | moves_started row now : row_state row = SWaiting → moves row (started_row now row)
  | moves_joined row input now : row_state row = SWaiting → moves row (joined_row input now row)
  | moves_executed row execution : row_execution row = None → moves row (executed_row execution row).

Lemma moves_locks row row' : moves row row' → row_locks row' = row_locks row ∧ row_kind row' = row_kind row ∧ row_version row' = row_version row.
Proof. by destruct 1. Qed.
