(* ===== verification/HearthMonad.v ===== *)
(** * Programs of Hearth's operations

    What an Effect of [apps/web/src/operations] does, as a tree: [Op A] ends
    with an [A] or fails, changes memory, draws an ID, runs a statement, asks
    code outside, waits for the lanes, for an operation to end or for another
    fiber, starts fibers, and answers what was queued. [HearthWorld] runs them, interleaved.

    Memory is what one Hearth process keeps: its lanes with who is in them,
    whether they are open, the places of queued operations, and the deferreds
    that wake what waits for an operation to end or to be recorded. *)
From S2P Require Import Prelude Operations Locks Grants Lanes Plans Bytes Utf8.
From S2P Require Import HearthLanes HearthRecords.
Open Scope Z_scope.

(** ** Memory *)

Record LaneOccupant := MkOccupant {
  oc_id : string;
  oc_name : string;
  oc_doing : string;
  oc_durable : bool;
  oc_initiator : Initiator;
  oc_actor : option string;
  oc_admittedAt : Z;
  oc_startedAt : option Z;
}.

(** What a waiting effect or an exit may fail with. *)
Inductive Failure :=
  | DatabaseError
  | OperationBusy (message operation : string)
  | LaneRejected (e : LaneRejectedError)
  | LocksMoved
  | WorkFailed (message : JsString)
  | Died (message : string)
  | InterruptedOnly.

(** A deferred that an operation's end completes. *)
Record Ending := MkEnding { en_operation : string; en_done : bool }.

Record Memory := MkMemory {
  m_lanes : Lanes;
  m_occupants : gmap string LaneOccupant;
  m_ready : bool;
  m_queuedHolders : gmap string nat;
  m_places : list (option nat);
  m_endings : gmap string nat;
  m_ended : list Ending;
  m_recorded : list (option string);
}.

Definition fresh_memory (ready : bool) : Memory := MkMemory empty_lanes ∅ ready ∅ [] ∅ [] [].

Definition set_lanes (L : Lanes) (M : Memory) : Memory :=
  MkMemory L (m_occupants M) (m_ready M) (m_queuedHolders M) (m_places M) (m_endings M) (m_ended M) (m_recorded M).
Definition set_occupants (o : gmap string LaneOccupant) (M : Memory) : Memory :=
  MkMemory (m_lanes M) o (m_ready M) (m_queuedHolders M) (m_places M) (m_endings M) (m_ended M) (m_recorded M).
Definition set_ready (b : bool) (M : Memory) : Memory :=
  MkMemory (m_lanes M) (m_occupants M) b (m_queuedHolders M) (m_places M) (m_endings M) (m_ended M) (m_recorded M).
Definition set_holders (h : gmap string nat) (p : list (option nat)) (M : Memory) : Memory :=
  MkMemory (m_lanes M) (m_occupants M) (m_ready M) h p (m_endings M) (m_ended M) (m_recorded M).
Definition set_endings (e : gmap string nat) (d : list Ending) (M : Memory) : Memory :=
  MkMemory (m_lanes M) (m_occupants M) (m_ready M) (m_queuedHolders M) (m_places M) e d (m_recorded M).
Definition set_recorded (r : list (option string)) (M : Memory) : Memory :=
  MkMemory (m_lanes M) (m_occupants M) (m_ready M) (m_queuedHolders M) (m_places M) (m_endings M) (m_ended M) r.

(** ** Asking code outside *)

(** The operation an effect runs in. *)
Record RunningOperation := MkRunning { run_id : string; run_name : string; run_initiator : Initiator; run_held : list LaneLock }.

(** Who an operation runs for, and what one is. *)
Record AuditActor := MkActor { ac_credential : option string; ac_kind : string; ac_user : option string }.

Record OperationCaller := MkCaller { c_user : option string; c_credential : option string; c_initiator : option Initiator }.

Record OperationArgs := MkArgs { g_input : Json; g_user : option string; g_actor : AuditActor }.

Record Operation := MkOperation {
  o_name : string;
  o_doing : Json → string;
  o_authorizes : bool;
  o_locks : OperationArgs → Json → list LaneLock;
  o_onlyIfFree : bool;
  o_publishes : bool;
  o_audits : OperationArgs → Json → bool;
}.

(** The locks a run of it needs, given what was checked. *)
Definition needed_by (definition : Operation) (args : OperationArgs) (context : Json) : list LaneLock :=
  withWholes (o_locks definition args context).

(** What an operation's definition decides, the workflow engine or the audit
    is asked to do. *)
Inductive Question :=
  | Authorize (name : string)
  | Ready (id : string)
  | RunWork (definition : Operation) (args : OperationArgs) (context : Json) (running : RunningOperation)
  | RunWorkflow (running : RunningOperation) (input : Json)
  | Execute (id : string)
  | Publish (name : string)
  | Audit (name id : string) (succeeded : bool).

(** How the steps of a workflow ended: cut off to be run again later, or for
    good. *)
Inductive WorkExit := WorkSucceeded | WorkThrew (message : JsString) | WorkSuspended | WorkInterrupted.

Definition reply (q : Question) : Type :=
  match q with
  | Authorize _ => Result Failure Json
  | Ready _ => bool
  | RunWork _ _ _ _ => Result Failure unit
  | RunWorkflow _ _ => WorkExit
  | Execute _ => Result Failure string
  | Publish _ => unit
  | Audit _ _ _ => unit
  end.

(** ** Programs *)

(** One waiting for its turn in the lanes: its ticket, whether a caller may
    give up on it, and until when a person waits. *)
Record Turn := MkTurn {
  tn_ticket : nat;
  tn_label : string;
  tn_name : string;
  tn_initiator : Initiator;
  tn_caller : bool;
  tn_until : Z;
  tn_timedOut : option LaneRejectedError;
}.

Inductive Op (A : Type) : Type :=
  | Ret (a : A)
  | Throws (e : Failure)
  | Do (change : Z → Memory → Memory) (k : Z → Memory → Op A)
  | Uuid (k : string → Op A)
  | Sql (st : Statement) (again : bool) (k : answer st → Op A) (err : Op A)
  | Asks (q : Question) (k : reply q → Op A)
  | AwaitOpen (initiator : Initiator) (k : Op A) (late : Op A)
  | Admits (admission : LaneAdmission) (label : string) (occupant : LaneOccupant) (k : LaneTicket → Op A)
  | AwaitTurn (turn : Turn) (k : Op A) (err : Failure → Op A)
  | Leave (ticket : nat) (k : Op A)
  | Forks (p : Op unit) (k : nat → Op A)
  | AwaitEnd (ending : nat) (id : string) (k : Op A)
  | AwaitRecorded (recorded fiber ticket : nat) (k : string → Op A) (err : Failure → Op A)
  | AwaitExit (fiber : nat) (k : Op A)
  | Answers (id : string) (input : Json) (k : Op A).
Arguments Ret {A} a.
Arguments Throws {A} e.
Arguments Do {A} change k.
Arguments Uuid {A} k.
Arguments Sql {A} st again k err.
Arguments Asks {A} q k.
Arguments AwaitOpen {A} initiator k late.
Arguments Admits {A} admission label occupant k.
Arguments AwaitTurn {A} turn k err.
Arguments Leave {A} ticket k.
Arguments Forks {A} p k.
Arguments AwaitEnd {A} ending id k.
Arguments AwaitRecorded {A} recorded fiber ticket k err.
Arguments AwaitExit {A} fiber k.
Arguments Answers {A} id input k.

(** What follows a program, whichever way it ends. *)
Fixpoint op_case {A B} (op : Op A) (ok : A → Op B) (threw : Failure → Op B) : Op B :=
  match op with
  | Ret a => ok a
  | Throws e => threw e
  | Do change k => Do change (λ now M, op_case (k now M) ok threw)
  | Uuid k => Uuid (λ id, op_case (k id) ok threw)
  | Sql st again k err => Sql st again (λ a, op_case (k a) ok threw) (op_case err ok threw)
  | Asks q k => Asks q (λ r, op_case (k r) ok threw)
  | AwaitOpen i k late => AwaitOpen i (op_case k ok threw) (op_case late ok threw)
  | Admits admission label occupant k => Admits admission label occupant (λ t, op_case (k t) ok threw)
  | AwaitTurn turn k err => AwaitTurn turn (op_case k ok threw) (λ e, op_case (err e) ok threw)
  | Leave n k => Leave n (op_case k ok threw)
  | Forks p k => Forks p (λ f, op_case (k f) ok threw)
  | AwaitEnd d id k => AwaitEnd d id (op_case k ok threw)
  | AwaitRecorded d f n k err => AwaitRecorded d f n (λ id, op_case (k id) ok threw) (λ e, op_case (err e) ok threw)
  | AwaitExit f k => AwaitExit f (op_case k ok threw)
  | Answers id input k => Answers id input (op_case k ok threw)
  end.

Definition op_bind {A B} (op : Op A) (h : A → Op B) : Op B := op_case op h Throws.

Declare Scope hearth_scope.
Delimit Scope hearth_scope with hearth.
Notation "'let*' x ':=' op 'in' k" := (op_bind op (fun x => k))
  (at level 10, x pattern, op at level 100, k at level 200) : hearth_scope.
Open Scope hearth_scope.

(** [Effect.ensuring] *)
Definition ensuring {A} (op : Op A) (always : Op unit) : Op A :=
  op_case op (λ a, let* _ := always in Ret a) (λ e, let* _ := always in Throws e).

Definition orElse {A} (op : Op A) (h : Failure → Op A) : Op A := op_case op Ret h.

(** [Effect.exit] *)
Definition op_exit {A} (op : Op A) : Op (Result Failure A) := op_case op (λ a, Ret (Ok a)) (λ e, Ret (Throw e)).

Definition change (f : Z → Memory → Memory) : Op unit := Do f (λ _ _, Ret tt).
Definition look {A} (read : Z → Memory → A) : Op A := Do (λ _ M, M) (λ now M, Ret (read now M)).
Definition currentTime : Op Z := look (λ now _, now).
Definition sql (st : Statement) : Op (answer st) := Sql st false Ret (Throws DatabaseError).

(** A statement tried again until MySQL answers, [whileMySqlIsAway]. *)
Definition sqlUntilAnswered (st : Statement) : Op (answer st) := Sql st true Ret (Throws DatabaseError).
Definition asking (q : Question) : Op (reply q) := Asks q Ret.
Definition fork (p : Op unit) : Op nat := Forks p Ret.
Definition uuid : Op string := Uuid Ret.

Fixpoint for_each {A} (xs : list A) (body : A → Op unit) : Op unit :=
  match xs with
  | [] => Ret tt
  | x :: xs => let* _ := body x in for_each xs body
  end.
