(* ===== verification/HearthPrograms.v ===== *)
(** * What Hearth's operations do

    Models [apps/web/src/operations]: [operation.ts], the pipeline every
    change goes through; [durable.ts], the operations that survive a restart,
    and [records.ts], how they use their records; [startup.ts], what Hearth
    does as it starts and every so often after.

    A durable operation's definition is its locks, what it says it is doing,
    which inputs it decodes and how it joins them; an input is the JSON it is
    kept as. Work, permissions, the workflow engine, publishing and the audit
    are asked for. Metrics, spans, logs and links to traces are left out.

    A loop that goes on for as long as Hearth runs is one program for each
    round, which [HearthWorld] starts; statements tried again until MySQL
    answers are each tried again by itself. *)
From stdpp Require Import pretty.
From S2P Require Import Prelude Operations Locks Grants Lanes Plans Bytes Utf8 Decimals.
From S2P Require Import HearthLanes HearthRecords HearthMonad.
Open Scope Z_scope.

(** ** The lanes *)

Definition vacate (label : string) : Op unit := change (λ _ M, set_occupants (delete label (m_occupants M)) M).

(** [ticket.cancel] *)
Definition cancel_ticket (ticket : nat) (M : Memory) : Memory :=
  set_lanes (Lanes.cancel quiet_world ticket (m_lanes M)).2 M.

(** The error a refused admission becomes, for the person who asked. *)
Definition refusal {A} (name : string) (rejected : LaneRejectedError) : Op A :=
  match reason rejected, blockedBy rejected with
  | Busy, Some (first :: _) =>
      let* blocker := look (λ _ M, m_occupants M !! first) in
      Throws (OperationBusy
        (match blocker with
         | Some blocker => oc_doing blocker +:+ " is in progress. Try again once it's done."
         | None => "Something else is changing this right now. Try again shortly."
         end) name)
  | _, _ => Throws (OperationBusy (message rejected) name)
  end.

(** [awaitTurn] of what runs once its ticket is granted, which leaves the
    lanes however it ends. *)
Definition awaitTurn {A} (turn : Turn) (work : Op A) : Op A :=
  AwaitTurn turn (op_case work (λ a, Leave (tn_ticket turn) (Ret a)) (λ e, Leave (tn_ticket turn) (Throws e)))
    (λ e, match e with LaneRejected rejected => refusal (tn_name turn) rejected | e => Throws e end).

Definition PERSON_WAIT : Z := 30000.

Definition personWaitUntil : Op Z := look (λ now _, now + PERSON_WAIT).

Definition starting_message : string := "Hearth is still starting. Try again shortly.".

(** A person is told to try again; Hearth's own work waits. *)
Definition awaitLanesOpen (initiator : Initiator) (name : string) : Op unit :=
  AwaitOpen initiator (Ret tt) (Throws (OperationBusy starting_message name)).

Definition lanesOpen : Op unit := awaitLanesOpen System "".

Definition when_busy (initiator : Initiator) : WhenBusy :=
  match initiator with Person => Decide personWhenBusy | System => Wait end.

Definition admission_of (label : string) (locks : list LaneLock) (whenBusy : WhenBusy) : LaneAdmission :=
  MkAdmission label (Known locks) None false (Some whenBusy) false.

Record Hold := MkHold {
  h_actor : option string;
  h_doing : string;
  h_id : string;
  h_initiator : Initiator;
  h_locks : list LaneLock;
  h_name : string;
  h_until : Z;
}.

Definition operation_label (name id : string) : string := name +:+ "#" +:+ id.

(** Takes a durable operation's lanes and holds them in a fiber of its own
    while [run] does; the fiber and the ticket to withdraw it by. *)
Definition holdLanes (hold : Hold) (run : bool → Op unit) : Op (nat * nat) :=
  let label := operation_label (h_name hold) (h_id hold) in
  let* now := currentTime in
  Admits (admission_of label (h_locks hold) (when_busy (h_initiator hold))) label
    (MkOccupant (h_id hold) (h_name hold) (h_doing hold) true (h_initiator hold) (h_actor hold) now (Some now))
    (λ ticket,
      Forks
        (ensuring
          (awaitTurn
            (MkTurn (t_waiter ticket) label (h_name hold) (h_initiator hold) false (h_until hold) None)
            (run (negb (grantedAtOnce ticket))))
          (vacate label))
        (λ fiber, Ret (fiber, t_waiter ticket))).

(** ** Records *)

(** A row as it is first written. *)
Definition new_row (kind : string) (version : Z) (idempotency queue : option string) (input : Json) (locks : list LaneLock)
    (state : OperationState) (actor : option string) (now : Z) : Row :=
  MkRow kind version idempotency queue input locks state actor None None now now None.

Definition findOperation (kind key : string) : Op (option (string * OperationState)) := sql (FindByKey kind key).

(** Records an operation, or finds the one its idempotency key has: whether
    it was there, and its ID. *)
Definition recordOperation (id : string) (kind : string) (version : Z) (idempotency : option string) (input : Json)
    (locks : list LaneLock) (state : OperationState) (actor : option string) : Op (bool * string) :=
  let* now := currentTime in
  let* inserted := sql (Insert id (new_row kind version idempotency None input locks state actor now)
                          (bool_decide (is_Some idempotency))) in
  if (inserted : bool) then Ret (false, id)
  else
    let* found := sql (FindByKey kind (default "" idempotency)) in
    match (found : option (string * OperationState)) with
    | Some (found, _) => Ret (true, found)
    | None => Throws (Died "The operation's row went missing")
    end.

Definition QUEUE_ATTEMPTS : nat := 5.

(** Queues an operation under a key or joins the one waiting under it:
    [left] passes are left. Its ID, and whether it was joined. *)
Fixpoint queue_pass (left_ : nat) (kind : string) (version : Z) (queue_key : string) (input : Json) (locks : list LaneLock)
    (join : Json → Json → option Json) : Op (string * bool) :=
  match left_ with
  | 0%nat => Throws (Died ("Couldn't queue " +:+ kind +:+ " under " +:+ queue_key))
  | S left_ =>
      let* now := currentTime in
      let* id := uuid in
      let* inserted := sql (Insert id (new_row kind version None (Some queue_key) input locks SWaiting None now) true) in
      if (inserted : bool) then Ret (id, false)
      else
        let* joined := sql (Join kind queue_key input join now) in
        match (joined : Joined) with
        | NotFound => queue_pass left_ kind version queue_key input locks join
        | JoinedTo id => Ret (id, true)
        | JoinDied => Throws (Died (kind +:+ " joined work of other locks"))
        end
  end.

Definition queueOperation := queue_pass QUEUE_ATTEMPTS.

(** The end of an operation wakes what waits for it. *)
Definition ended_here (id : string) (M : Memory) : Memory :=
  match m_endings M !! id with
  | None => M
  | Some d => set_endings (delete id (m_endings M)) (alter (λ e, MkEnding (en_operation e) true) d (m_ended M)) M
  end.

Definition endedHere (id : string) : Op unit := change (λ _, ended_here id).

(** [again] tries each statement again until MySQL answers. *)
Definition finishOperation (again : bool) (id : string) (outcome : OperationState) (error : option JsString) : Op unit :=
  let ask st := if again then sqlUntilAnswered st else sql st in
  let* now := currentTime in
  let* row := ask (SelectOpen id) in
  match (row : option Row) with
  | None => Ret tt
  | Some _ =>
      let* ended := ask (Finish id outcome error now) in
      if (ended : bool) then endedHere id else Ret tt
  end.

(** The deferred that an operation's end completes, made when none is there. *)
Definition ending_for (id : string) (M : Memory) : nat := default (length (m_ended M)) (m_endings M !! id).

Definition make_ending (id : string) (M : Memory) : Memory :=
  match m_endings M !! id with
  | Some _ => M
  | None => set_endings (<[id := length (m_ended M)]> (m_endings M)) (m_ended M ++ [MkEnding id false]) M
  end.

Definition awaitOperationEnd (id : string) : Op unit :=
  let* ending := Do (λ _, make_ending id) (λ _ M, Ret (ending_for id M)) in
  AwaitEnd ending id (Ret tt).

Definition activeOperations (kind : string) : Op (list (string * Row)) := sql (ListActive kind).

Definition waitingOperation (kind key : string) : Op (option (string * Json)) := sql (FindWaiting kind key).

Fixpoint forgetFinishedOperations (passes : nat) (cutoff : Z) : Op unit :=
  match passes with
  | 0%nat => Ret tt
  | S passes =>
      let* rows := sql (SelectFinished cutoff) in
      match (rows : list (string * option string)) with
      | [] => Ret tt
      | rows =>
          let executions := omap snd rows in
          let* _ := (match executions with [] => Ret tt | _ => sql (ForgetHistory executions) end) in
          let* _ := sql (ForgetRows rows.*1) in
          if (length rows <? RETENTION_BATCH)%nat then Ret tt else forgetFinishedOperations passes cutoff
      end
  end.

(** ** Durable operations *)

Record DurableOperation := MkDurable {
  d_kind : string;
  d_version : Z;
  d_decodes : Json → bool;
  d_locks : Json → list LaneLock;
  d_doing : Json → string;
  d_join : Json → Json → Json;
}.

(** [`${kind}@${version}`] *)
Definition kind_key (kind : string) (version : Z) : string := kind +:+ "@" +:+ pretty version.

(** The map the definitions are kept in, as they are defined. *)
Definition register (definitions : list DurableOperation) : list (string * DurableOperation) :=
  fold_left (λ kinds d, jm_set (kind_key (d_kind d) (d_version d)) d kinds) definitions [].

Section Durable.
Context (durableKinds : list (string * DurableOperation)) (undecodable : JsString).

(** The first definition of a kind. *)
Definition definition_of (kind : string) : option DurableOperation :=
  List.find (λ d, bool_decide (d_kind d = kind)) (durableKinds.*2).

(** [null], or the definition with an input it decodes. *)
Definition known (row : Row) : option DurableOperation :=
  match definition_of (row_kind row) with
  | Some d => if d_decodes d (row_input row) then Some d else None
  | None => None
  end.

Definition locks_of_row (row : Row) : list LaneLock :=
  withWholes (match known row with Some d => d_locks d (row_input row) | None => row_locks row end).

Definition doing_of_row (row : Row) : string :=
  match known row with Some d => d_doing d (row_input row) | None => "Another change" end.

(** Starts the workflow of a running operation; a failure is only logged. *)
Definition dispatch (id : string) : Op unit :=
  orElse
    (let* record := sql (Load id) in
     match (record : option Row) with
     | Some row =>
         if has_state SRunning row then
           match jm_get (kind_key (row_kind row) (row_version row)) durableKinds with
           | None =>
               finishOperation false id SFailed
                 (Some (js ("This Hearth can't run " +:+ row_kind row +:+ " version " +:+ pretty (row_version row))))
           | Some _ =>
               let* executed := asking (Execute id) in
               match (executed : Result Failure string) with
               | Ok execution => sql (SetExecution id execution)
               | Throw e => Throws e
               end
           end
         else Ret tt
     | None => Ret tt
     end)
    (λ _, Ret tt).

Definition dispatchDurableOperations (ids : list string) : Op unit := for_each ids dispatch.

Definition dispatchSoon (id : string) : Op unit := let* _ := fork (dispatchDurableOperations [id]) in Ret tt.

Definition outcomeOf (exit : WorkExit) : OperationState :=
  match exit with
  | WorkSucceeded => SSucceeded
  | WorkThrew _ => SFailed
  | WorkSuspended | WorkInterrupted => SInterrupted
  end.

Definition interrupted_message : JsString := js "All fibers interrupted without error".

Definition errorOf (exit : WorkExit) : option JsString :=
  match exit with
  | WorkSucceeded => None
  | WorkThrew message => Some message
  | WorkSuspended | WorkInterrupted => Some interrupted_message
  end.

(** The workflow of an operation, under the locks its definition declares. *)
Definition workflow (d : DurableOperation) (id : string) : Op unit :=
  let* record := sqlUntilAnswered (Load id) in
  let* exit :=
    match (record : option Row) with
    | None => Ret (WorkThrew (js ("Operation " +:+ id +:+ " is gone")))
    | Some row =>
        if d_decodes d (row_input row)
        then asking (RunWorkflow (MkRunning id (d_kind d) System (withWholes (d_locks d (row_input row)))) (row_input row))
        else Ret (WorkThrew undecodable)
    end in
  match (exit : WorkExit) with
  | WorkSuspended => Throws InterruptedOnly
  | exit => finishOperation true id (outcomeOf exit) (errorOf exit)
  end.

(** An actor's ID that is there and not empty. *)
Definition by_person (actor : option string) : bool :=
  match actor with Some actor => negb (bool_decide (actor = "")) | None => false end.

(** Starts a durable operation: its ID. *)
Definition startDurableOperation (d : DurableOperation) (input : Json) (actor : option string) (authorizes : bool)
    (idempotency : option string) (initiator : option Initiator) : Op string :=
  let authorize := (if authorizes
    then let* allowed := asking (Authorize (d_kind d)) in
         match (allowed : Result Failure Json) with Ok _ => Ret tt | Throw e => Throws e end
    else Ret tt) in
  let* _ := authorize in
  let* found := (match idempotency with Some key => findOperation (d_kind d) key | None => Ret None end) in
  match found with
  | Some (id, _) => Ret id
  | None =>
      let locks := withWholes (d_locks d input) in
      let* id := uuid in
      let start :=
        let* recorded := recordOperation id (d_kind d) (d_version d) idempotency input locks SRunning actor in
        let* _ := (if recorded.1 then Ret tt else dispatchSoon recorded.2) in
        Ret recorded.2 in
      let initiator := default (if by_person actor then Person else System) initiator in
      let* _ := awaitLanesOpen initiator (d_kind d) in
      match locks with
      | [] => start
      | _ =>
          let* started := Do (λ _ M, set_recorded (m_recorded M ++ [None]) M) (λ _ M, Ret (length (m_recorded M))) in
          let* until := personWaitUntil in
          let* (fiber, ticket) :=
            holdLanes (MkHold actor (d_doing d input) id initiator locks (d_kind d) until)
              (λ waited,
                let* _ := (if waited then authorize else Ret tt) in
                let* recorded := start in
                let* _ := change (λ _ M, set_recorded (<[started := Some recorded]> (m_recorded M)) M) in
                awaitOperationEnd recorded) in
          AwaitRecorded started fiber ticket Ret Throws
      end
  end.

(** ** Queued operations *)

Record Queued := MkQueued {
  q_actor : option string;
  q_doing : string;
  q_id : string;
  q_locks : list LaneLock;
  q_name : string;
}.

(** What a queued operation does once it has its lanes. *)
Definition startQueued (waiting : Queued) : Op unit :=
  let* ready := asking (Ready (q_id waiting)) in
  if negb ready then Ret tt
  else
    let* now := currentTime in
    let* started := sqlUntilAnswered (Start (q_id waiting) now) in
    if negb started then Ret tt
    else
      let* _ := dispatchSoon (q_id waiting) in
      awaitOperationEnd (q_id waiting).

(** One place in line an operation: its number, when none was taken. *)
Definition reserve (id : string) : Op (option nat) :=
  Do (λ _ M, match m_queuedHolders M !! id with
             | Some _ => M
             | None => set_holders (<[id := length (m_places M)]> (m_queuedHolders M)) (m_places M ++ [None]) M
             end)
     (λ _ M, Ret (match m_queuedHolders M !! id with Some _ => None | None => Some (length (m_places M)) end)).

Definition release_place (id : string) (place : nat) : Op unit :=
  change (λ _ M, if decide (m_queuedHolders M !! id = Some place)
                 then set_holders (delete id (m_queuedHolders M)) (m_places M) M else M).

(** [place.withdraw()] *)
Definition withdraw_place (place : nat) (M : Memory) : Memory :=
  match m_places M !! place with Some (Some ticket) => cancel_ticket ticket M | _ => M end.

Definition takeTurn (waiting : Queued) : Op unit :=
  let* reserved := reserve (q_id waiting) in
  match reserved with
  | None => Ret tt
  | Some place =>
      let release := release_place (q_id waiting) place in
      match q_locks waiting with
      | [] => let* _ := fork (ensuring (startQueued waiting) release) in Ret tt
      | locks =>
          let* (fiber, ticket) :=
            holdLanes (MkHold (q_actor waiting) (q_doing waiting) (q_id waiting) System locks (q_name waiting) 0)
              (λ _, startQueued waiting) in
          let* _ := change (λ _ M, set_holders (m_queuedHolders M) (<[place := Some ticket]> (m_places M)) M) in
          let* _ := fork (ensuring (AwaitExit fiber (Ret tt)) release) in
          let* now := orElse (sql (Load (q_id waiting))) (λ _, Ret None) in
          match (now : option Row) with
          | Some row => if has_state SWaiting row then Ret tt else change (λ _, withdraw_place place)
          | None => Ret tt
          end
      end
  end.

(** What joins the one waiting: its locks are the same. *)
Definition joining (d : DurableOperation) (locks : list LaneLock) (waiting asked : Json) : option Json :=
  if d_decodes d waiting && bool_decide (withWholes (d_locks d waiting) = locks) then Some (d_join d waiting asked) else None.

(** Queues a durable operation for Hearth to run: its ID. *)
Definition queueDurableOperation (d : DurableOperation) (input : Json) (actor queue_key idempotency : option string) : Op string :=
  let locks := withWholes (d_locks d input) in
  let* (id, joined) :=
    match queue_key with
    | None =>
        let* id := uuid in
        let* recorded := recordOperation id (d_kind d) (d_version d) idempotency input locks SWaiting actor in
        Ret (recorded.2, recorded.1)
    | Some queue_key => queueOperation (d_kind d) (d_version d) queue_key input locks (joining d locks)
    end in
  let* _ := (if (joined : bool) then Ret tt
             else let* _ := fork (let* _ := lanesOpen in takeTurn (MkQueued actor (d_doing d input) id locks (d_kind d))) in
                  Ret tt) in
  Ret id.

(** Cancels a queued operation that has not started. *)
Definition cancelQueuedOperation (id : string) : Op bool :=
  let* now := currentTime in
  let* cancelled := sql (CancelWaiting id now) in
  let* _ := (if (cancelled : bool)
             then change (λ _ M, match m_queuedHolders M !! id with Some place => withdraw_place place M | None => M end)
             else Ret tt) in
  Ret cancelled.

Definition queued_of_row (entry : string * Row) : Queued :=
  MkQueued (row_actor entry.2) (doing_of_row entry.2) entry.1 (locks_of_row entry.2) (row_kind entry.2).

Definition readmitWaitingOperations : Op unit :=
  let* waiting := sql ListWaiting in
  for_each waiting (λ entry, takeTurn (queued_of_row entry)).

(** Takes back the locks of one operation a previous Hearth left running. *)
Definition restore_one (entry : string * Row) : Op unit :=
  let '(id, row) := entry in
  match locks_of_row row with
  | [] => Ret tt
  | locks =>
      let* _ := holdLanes (MkHold (row_actor row) (doing_of_row row) id System locks (row_kind row) 0) (λ _, awaitOperationEnd id) in
      Ret tt
  end.

Definition restoreLockingOperations : Op unit :=
  let* running := sql ListRunning in
  let* _ := for_each running restore_one in
  readmitWaitingOperations.

(** One try of taking back the locks, after which the lanes open. *)
Definition startOperationsEngine : Op unit :=
  let* _ := restoreLockingOperations in
  change (λ _, set_ready true).

Definition sweepUndispatched : Op unit :=
  let* ids := sql ListUndispatched in
  dispatchDurableOperations ids.
End Durable.

(** ** The pipeline *)

Definition actorOf (caller : OperationCaller) : AuditActor :=
  match c_user caller with
  | None => MkActor None "system" None
  | Some user =>
      match c_credential caller with
      | Some credential => if decide (credential = "") then MkActor None "user" (Some user) else MkActor (Some credential) "cli" (Some user)
      | None => MkActor None "user" (Some user)
      end
  end.

Section Pipeline.
Context (definition : Operation) (input : Json) (caller : OperationCaller).

Definition args : OperationArgs := MkArgs input (c_user caller) (actorOf caller).

Definition authorize : Op Json :=
  if o_authorizes definition then
    let* allowed := asking (Authorize (o_name definition)) in
    match (allowed : Result Failure Json) with Ok context => Ret context | Throw e => Throws e end
  else Ret JNull.

(** The locks a context needs. *)
Definition needed (context : Json) : list LaneLock := needed_by definition args context.

Definition is_success (exit : Result Failure unit) : bool := match exit with Ok _ => true | Throw _ => false end.

(** Publishes and audits a run that started. *)
Definition afterRun (id : string) (context : Json) (exit : Result Failure unit) : Op unit :=
  let* _ := (if o_publishes definition then asking (Publish (o_name definition)) else Ret tt) in
  if o_audits definition args context
  then let* _ := fork (asking (Audit (o_name definition) id (is_success exit))) in Ret tt
  else Ret tt.

Definition ends (id : string) (context : Json) (exit : Result Failure unit) : Op unit :=
  let* _ := (match exit with Throw InterruptedOnly => Ret tt | _ => afterRun id context exit end) in
  match exit with Ok _ => Ret tt | Throw e => Throws e end.

Definition works (id : string) (initiator : Initiator) (held : list LaneLock) (context : Json) : Op unit :=
  let* exit := asking (RunWork definition args context (MkRunning id (o_name definition) initiator held)) in
  ends id context exit.

Definition mark_started (label : string) (now : Z) (M : Memory) : Memory :=
  set_occupants
    (alter (λ o, MkOccupant (oc_id o) (oc_name o) (oc_doing o) (oc_durable o) (oc_initiator o) (oc_actor o) (oc_admittedAt o) (Some now))
       label (m_occupants M)) M.

(** The work and everything that follows it. *)
Definition run (id : string) (initiator : Initiator) (context : Json) (held : list LaneLock) (waited : bool)
    (label : option string) : Op unit :=
  ensuring
    (let* _ := (match label with Some label => change (mark_started label) | None => Ret tt end) in
     if waited && o_authorizes definition then
       let* rechecked := asking (Authorize (o_name definition)) in
       match (rechecked : Result Failure Json) with
       | Ok context =>
           match uncovered (needed context) held with
           | [] => works id initiator held context
           | _ => Throws LocksMoved
           end
       | Throw e => ends id context (Throw e)
       end
     else works id initiator held context)
    (match label with Some label => vacate label | None => Ret tt end).

Definition initiator_of (parent : option RunningOperation) : Initiator :=
  match c_initiator caller, parent with
  | Some initiator, _ => initiator
  | None, Some parent => run_initiator parent
  | None, None => match c_user caller with Some _ => Person | None => System end
  end.

(** An operation withdrawn before it started leaves the view here. *)
Definition leave_view (label : string) : Op unit :=
  change (λ _ M, match m_occupants M !! label with
                 | Some o => match oc_startedAt o with None => set_occupants (delete label (m_occupants M)) M | Some _ => M end
                 | None => M
                 end).

Definition one_off_busy (initiator : Initiator) : WhenBusy :=
  match initiator with
  | Person => Decide personWhenBusy
  | System => if o_onlyIfFree definition then Refuse else Wait
  end.

Definition attempt (parent : option RunningOperation) (waitUntil : Z) : Op unit :=
  let* id := uuid in
  let initiator := initiator_of parent in
  let* admittedAt := currentTime in
  let* context := authorize in
  let locks := needed context in
  match parent with
  | Some parent =>
      match uncovered locks (run_held parent) with
      | [] => run id initiator context (run_held parent) false None
      | missing =>
          Throws (Died (o_name definition +:+ " needs " +:+ String.concat ", " (key <$> missing) +:+ ", which " +:+
            run_name parent +:+ " doesn't hold: declare them on " +:+ run_name parent))
      end
  | None =>
      let* _ := awaitLanesOpen initiator (o_name definition) in
      let label := operation_label (o_name definition) id in
      Admits (admission_of label locks (one_off_busy initiator)) label
        (MkOccupant id (o_name definition) (o_doing definition input) false initiator (c_user caller) admittedAt None)
        (λ ticket,
          ensuring
            (awaitTurn (MkTurn (t_waiter ticket) label (o_name definition) initiator true waitUntil None)
              (run id initiator context locks (negb (grantedAtOnce ticket)) (Some label)))
            (leave_view label))
  end.

(** [Effect.retry({ times: 2 })] while the locks moved. *)
Fixpoint attempts (times : nat) (parent : option RunningOperation) (waitUntil : Z) : Op unit :=
  orElse (attempt parent waitUntil)
    (λ e, match e with
          | LocksMoved =>
              match times with
              | 0%nat => Throws (OperationBusy "What this changes kept changing. Try again shortly." (o_name definition))
              | S times => attempts times parent waitUntil
              end
          | e => Throws e
          end).

Definition runOperation (parent : option RunningOperation) : Op unit :=
  let* until := personWaitUntil in
  attempts 2 parent until.
End Pipeline.

(** Holding locks as the step of whatever runs it. *)
Definition inLanes (name doing : string) (locks : list LaneLock) (onlyIfFree : bool) (parent : option RunningOperation) : Op unit :=
  runOperation (MkOperation name (λ _, doing) false (λ _ _, locks) onlyIfFree false (λ _ _, false)) JNull (MkCaller None None None) parent.
