(* ===== verification/HearthWorld.v ===== *)
(** * Hearth's operations, interleaved

    How the programs of [HearthPrograms] run beside each other in one Hearth,
    and what is left when it stops and another starts. A fiber runs until it
    waits; [hearth_event] is one step: a call, a sweep, an answer, a turn in
    the lanes, a restart ([Boots]). [w_executed] is what the workflow engine
    was given to run, with each workflow's name; the engine keeps it across
    restarts, and may run any of it at any time once it was.

    A statement is answered, fails with nothing done ([Errs]), or is done with
    its answer lost ([Loses]). An ID drawn was never drawn before. Work an
    operation reaches ends before it does. A caller gives up where it waits
    for its turn or for what it started to be recorded; one that gives up
    before has done nothing. How long a person waits for Hearth to start is
    left open. *)
From S2P Require Import Prelude Operations Locks Grants Lanes Plans Bytes Utf8.
From S2P Require Import HearthLanes HearthRecords HearthMonad HearthPrograms.
Open Scope Z_scope.

Record World := MkWorld {
  w_tables : Tables;
  w_memory : Memory;
  w_fibers : gmap nat (Op unit);
  w_next : nat;
  w_exits : gmap nat (Result Failure unit);
  w_inside : gmap nat nat;
  w_startup : option nat;
  w_ids : gset string;
  w_executed : gmap string string;
  w_asked : list (string * (string * Json));
  w_answered : list (string * Json);
}.

Definition set_tables (T : Tables) (W : World) : World :=
  MkWorld T (w_memory W) (w_fibers W) (w_next W) (w_exits W) (w_inside W) (w_startup W) (w_ids W) (w_executed W) (w_asked W) (w_answered W).
Definition set_memory (M : Memory) (W : World) : World :=
  MkWorld (w_tables W) M (w_fibers W) (w_next W) (w_exits W) (w_inside W) (w_startup W) (w_ids W) (w_executed W) (w_asked W) (w_answered W).
Definition set_fiber (f : nat) (op : Op unit) (W : World) : World :=
  MkWorld (w_tables W) (w_memory W) (<[f := op]> (w_fibers W)) (w_next W) (w_exits W) (w_inside W) (w_startup W) (w_ids W) (w_executed W)
    (w_asked W) (w_answered W).
Definition end_fiber (f : nat) (exit : Result Failure unit) (W : World) : World :=
  MkWorld (w_tables W) (w_memory W) (delete f (w_fibers W)) (w_next W) (<[f := exit]> (w_exits W)) (w_inside W) (w_startup W) (w_ids W)
    (w_executed W) (w_asked W) (w_answered W).
(** A new fiber, which has not run yet. *)
Definition new_fiber (op : Op unit) (W : World) : World :=
  MkWorld (w_tables W) (w_memory W) (<[w_next W := op]> (w_fibers W)) (S (w_next W)) (w_exits W) (w_inside W) (w_startup W) (w_ids W)
    (w_executed W) (w_asked W) (w_answered W).
Definition set_inside (i : gmap nat nat) (W : World) : World :=
  MkWorld (w_tables W) (w_memory W) (w_fibers W) (w_next W) (w_exits W) i (w_startup W) (w_ids W) (w_executed W) (w_asked W) (w_answered W).
Definition set_startup (s : option nat) (W : World) : World :=
  MkWorld (w_tables W) (w_memory W) (w_fibers W) (w_next W) (w_exits W) (w_inside W) s (w_ids W) (w_executed W) (w_asked W) (w_answered W).
Definition set_ids (ids : gset string) (W : World) : World :=
  MkWorld (w_tables W) (w_memory W) (w_fibers W) (w_next W) (w_exits W) (w_inside W) (w_startup W) ids (w_executed W) (w_asked W) (w_answered W).
Definition set_executed (x : gmap string string) (W : World) : World :=
  MkWorld (w_tables W) (w_memory W) (w_fibers W) (w_next W) (w_exits W) (w_inside W) (w_startup W) (w_ids W) x (w_asked W) (w_answered W).
Definition note_asked (l : list (string * (string * Json))) (W : World) : World :=
  MkWorld (w_tables W) (w_memory W) (w_fibers W) (w_next W) (w_exits W) (w_inside W) (w_startup W) (w_ids W) (w_executed W)
    (w_asked W ++ l) (w_answered W).
Definition note_answered (id : string) (input : Json) (W : World) : World :=
  MkWorld (w_tables W) (w_memory W) (w_fibers W) (w_next W) (w_exits W) (w_inside W) (w_startup W) (w_ids W) (w_executed W)
    (w_asked W) (w_answered W ++ [(id, input)]).

Definition empty_world : World := MkWorld (MkTables ∅ ∅) (fresh_memory false) ∅ 0 ∅ ∅ None ∅ ∅ [] [].

(** A new process: only the tables, the engine's history and the IDs there
    were are left. *)
Definition restarted (W : World) : World :=
  MkWorld (w_tables W) (fresh_memory false) ∅ (w_next W) ∅ ∅ None (w_ids W) (w_executed W) (w_asked W) (w_answered W).

(** ** Running a fiber *)

Definition admit_memory (admission : LaneAdmission) (label : string) (occupant : LaneOccupant) (M : Memory) : LaneTicket * Memory :=
  let '(ticket, L) := admit_waiter hearth_options quiet_world admission false (m_lanes M) in
  (ticket, set_occupants (<[label := occupant]> (m_occupants M)) (set_lanes L M)).

Definition leave_memory (ticket : nat) (M : Memory) : Memory := set_lanes (Lanes.release quiet_world ticket (m_lanes M)) M.

(** Until it waits or ends. *)
Fixpoint settle (f : nat) (now : Z) (op : Op unit) (W : World) : World :=
  match op with
  | Ret _ => end_fiber f (Ok tt) W
  | Throws e => end_fiber f (Throw e) W
  | Do change k => settle f now (k now (w_memory W)) (set_memory (change now (w_memory W)) W)
  | Admits admission label occupant k =>
      let '(ticket, M) := admit_memory admission label occupant (w_memory W) in
      settle f now (k ticket) (set_memory M W)
  | Leave ticket k => settle f now k (set_memory (leave_memory ticket (w_memory W)) W)
  | Forks p k => settle f now (k (w_next W)) (new_fiber p W)
  | Answers id input k => settle f now k (note_answered id input W)
  | op => set_fiber f op W
  end.

(** ** Statements *)

(** What a statement that was run asked of which operation. *)
Definition asked_by (st : Statement) : answer st → list (string * (string * Json)) :=
  match st return answer st → list (string * (string * Json)) with
  | Insert id row _ => λ inserted : bool, if inserted then [(id, (row_kind row, row_input row))] else []
  | Join kind _ asked _ _ => λ joined, match joined with JoinedTo id => [(id, (kind, asked))] | _ => [] end
  | _ => λ _, []
  end.

Definition commit (st : Statement) (T : Tables) (a : answer st) (W : World) : World :=
  note_asked (asked_by st a) (set_tables T W).

(** ** Replies *)

Inductive Reply :=
  | RAuthorized (result : Result Failure Json)
  | RReady (ready : bool)
  | RWorked (exit : Result Failure unit)
  | RWorkflow (exit : WorkExit)
  | RExecuted (result : Result Failure string)
  | RDone.

Definition reply_to (q : Question) (r : Reply) : option (reply q) :=
  match q, r return option (reply q) with
  | Authorize _, RAuthorized result => Some result
  | Ready _, RReady ready => Some ready
  | RunWork _ _ _ _, RWorked exit => Some exit
  | RunWorkflow _ _, RWorkflow exit => Some exit
  | Execute _, RExecuted result => Some result
  | Publish _, RDone => Some tt
  | Audit _ _ _, RDone => Some tt
  | _, _ => None
  end.

Definition running_of (q : Question) : option RunningOperation :=
  match q with RunWork _ _ _ running | RunWorkflow running _ => Some running | _ => None end.

(** Whether work inside a fiber's is still under way. *)
Definition has_inside (f : nat) (W : World) : bool :=
  existsb (λ g, bool_decide (w_inside W !! g = Some f)) (map_to_list (w_fibers W)).*1.

(** ** Waiting *)

Definition timed_out (turn : Turn) (L : Lanes) : LaneRejectedError :=
  let blocked :=
    match List.find (λ entry, bool_decide (e_label entry = tn_label turn)) (Lanes.describe L).2 with
    | Some entry => distinct (r_id <$> waitingOn entry)
    | None => []
    end in
  MkRejected Busy (tn_label turn +:+ " waited as long as a person does on " +:+ String.concat ", " blocked) (Some blocked).

(** A turn comes, or is refused. *)
Definition take_turn (f : nat) (now : Z) (turn : Turn) (k : Op unit) (err : Failure → Op unit) (W : World) : World :=
  let L := m_lanes (w_memory W) in
  let refused e := settle f now (err (LaneRejected (default e (tn_timedOut turn)))) in
  match await_grant (tn_ticket turn) L with
  | None => W
  | Some Lanes.Died => settle f now (err (Died "")) W
  | Some (Failed e) => refused e W
  | Some Succeeded =>
      match run_begins (tn_ticket turn) L with
      | (None, L) => settle f now k (set_memory (set_lanes L (w_memory W)) W)
      | (Some e, L) => refused e (set_memory (set_lanes L (w_memory W)) W)
      end
  end.

(** ** Events *)

Inductive Sweep := Readmits | Dispatches | Forgets (passes : nat) (cutoff : Z).

Inductive Call :=
  | CallStart (kind : string) (input : Json) (actor : option string) (authorizes : bool) (idempotency : option string)
      (initiator : option Initiator)
  | CallQueue (kind : string) (input : Json) (actor queue_key idempotency : option string)
  | CallCancel (id : string)
  | CallRun (definition : Operation) (input : Json) (caller : OperationCaller).

Inductive Event :=
  | Boots
  | Restores
  | Sweeps (sweep : Sweep)
  | Calls (call : Call)
  | CallsInside (f : nat) (definition : Operation) (input : Json) (caller : OperationCaller)
  | RunsWorkflow (id : string)
  | Runs (f : nat)
  | Draws (f : nat) (id : string)
  | Answered (f : nat)
  | Errs (f : nat)
  | Loses (f : nat)
  | Takes (f : nat)
  | Replies (f : nat) (r : Reply)
  | Opens (f : nat)
  | Late (f : nat)
  | Turns (f : nat)
  | Deadline (f : nat)
  | GivesUp (f : nat)
  | Wakes (f : nat)
  | Looks (f : nat)
  | Joins (f : nat).

Section World.
Context (durableKinds : list (string * DurableOperation)) (undecodable : JsString).

(** The program of a call; a kind is named as it is registered. An ask is
    noted as answered ([Answers]) when it was made without an idempotency key:
    under one, [queueDurableOperation] answers with the operation recorded
    under it before, if there is one, and the input asked with it is not
    recorded, so the ask is that operation's and not one of its own. *)
Definition op_of (call : Call) : option (Op unit) :=
  match call with
  | CallStart kind input actor authorizes idempotency initiator =>
      (λ d, let* _ := startDurableOperation durableKinds d input actor authorizes idempotency initiator in Ret tt) <$>
        jm_get kind durableKinds
  | CallQueue kind input actor queue_key idempotency =>
      (λ d, let* id := queueDurableOperation durableKinds d input actor queue_key idempotency in
            match idempotency with None => Answers id input (Ret tt) | Some _ => Ret tt end) <$>
        jm_get kind durableKinds
  | CallCancel id => Some (let* _ := cancelQueuedOperation id in Ret tt)
  | CallRun definition input caller => Some (runOperation definition input caller None)
  end.

Definition sweep_op (sweep : Sweep) : Op unit :=
  match sweep with
  | Readmits => readmitWaitingOperations durableKinds
  | Dispatches => sweepUndispatched durableKinds
  | Forgets passes cutoff => forgetFinishedOperations passes cutoff
  end.

Definition starts_up (W : World) : World :=
  set_startup (Some (w_next W)) (new_fiber (startOperationsEngine durableKinds) W).

(** The engine takes a workflow, before it answers. *)
Definition takes (id : string) (W : World) : World :=
  match t_rows (w_tables W) !! id with
  | Some row => set_executed (<[id := kind_key (row_kind row) (row_version row)]> (w_executed W)) W
  | None => W
  end.

(** Work ends after what runs inside it, and the engine answers with a
    workflow once it took it. *)
Definition reply_allowed (f : nat) (q : Question) (r : Reply) (W : World) : bool :=
  match q with
  | RunWork _ _ _ _ | RunWorkflow _ _ => negb (has_inside f W)
  | Execute id => match r with RExecuted (Ok _) => bool_decide (is_Some (w_executed W !! id)) | _ => true end
  | _ => true
  end.

Definition hearth_event (now : Z) (event : Event) (W : World) : World :=
  match event with
  | Boots => starts_up (restarted W)
  | Restores =>
      match w_startup W with
      | Some f =>
          match w_exits W !! f with
          | Some (Throw _) => starts_up W
          | _ => W
          end
      | None => W
      end
  | Sweeps sweep => if m_ready (w_memory W) then new_fiber (sweep_op sweep) W else W
  | Calls call =>
      match w_startup W, op_of call with
      | Some _, Some op => new_fiber op W
      | _, _ => W
      end
  | CallsInside f definition input caller =>
      match w_fibers W !! f with
      | Some (Asks q _) =>
          match running_of q with
          | Some running =>
              set_inside (<[w_next W := f]> (w_inside W)) (new_fiber (runOperation definition input caller (Some running)) W)
          | None => W
          end
      | _ => W
      end
  | RunsWorkflow id =>
      match w_startup W, w_executed W !! id ≫= λ name, jm_get name durableKinds with
      | Some _, Some d => new_fiber (workflow undecodable d id) W
      | _, _ => W
      end
  | Runs f => match w_fibers W !! f with Some op => settle f now op W | None => W end
  | Draws f id =>
      match w_fibers W !! f with
      | Some (Uuid k) => if decide (id ∈ w_ids W) then W else settle f now (k id) (set_ids ({[id]} ∪ w_ids W) W)
      | _ => W
      end
  | Answered f =>
      match w_fibers W !! f with
      | Some (Sql st again k err) =>
          match apply st (w_tables W) with
          | Some (T, a) => settle f now (k a) (commit st T a W)
          | None => if again then W else settle f now err W
          end
      | _ => W
      end
  | Errs f =>
      match w_fibers W !! f with
      | Some (Sql st again k err) => if again then W else settle f now err W
      | _ => W
      end
  | Loses f =>
      match w_fibers W !! f with
      | Some (Sql st again k err) =>
          match apply st (w_tables W) with
          | Some (T, a) => if again then commit st T a W else settle f now err (commit st T a W)
          | None => W
          end
      | _ => W
      end
  | Takes f =>
      match w_fibers W !! f with
      | Some (Asks (Execute id) _) => takes id W
      | _ => W
      end
  | Replies f r =>
      match w_fibers W !! f with
      | Some (Asks q k) =>
          match reply_to q r with
          | Some answered => if reply_allowed f q r W then settle f now (k answered) W else W
          | None => W
          end
      | _ => W
      end
  | Opens f =>
      match w_fibers W !! f with
      | Some (AwaitOpen _ k _) => if m_ready (w_memory W) then settle f now k W else W
      | _ => W
      end
  | Late f =>
      match w_fibers W !! f with
      | Some (AwaitOpen Person _ late) => settle f now late W
      | _ => W
      end
  | Turns f =>
      match w_fibers W !! f with
      | Some (AwaitTurn turn k err) => take_turn f now turn k err W
      | _ => W
      end
  | Deadline f =>
      match w_fibers W !! f with
      | Some (AwaitTurn turn k err) =>
          match tn_initiator turn, tn_timedOut turn with
          | Person, None =>
              if tn_until turn <=? now then
                let turn' := MkTurn (tn_ticket turn) (tn_label turn) (tn_name turn) (tn_initiator turn) (tn_caller turn) (tn_until turn)
                  (Some (timed_out turn (m_lanes (w_memory W)))) in
                set_fiber f (AwaitTurn turn' k err) (set_memory (cancel_ticket (tn_ticket turn) (w_memory W)) W)
              else W
          | _, _ => W
          end
      | _ => W
      end
  | GivesUp f =>
      match w_fibers W !! f with
      | Some (AwaitTurn turn k err) =>
          if tn_caller turn
          then settle f now (err InterruptedOnly) (set_memory (cancel_ticket (tn_ticket turn) (w_memory W)) W)
          else W
      | Some (AwaitRecorded _ _ ticket _ err) =>
          settle f now (err InterruptedOnly) (set_memory (cancel_ticket ticket (w_memory W)) W)
      | _ => W
      end
  | Wakes f =>
      match w_fibers W !! f with
      | Some (AwaitEnd ending _ k) =>
          match m_ended (w_memory W) !! ending with
          | Some e => if en_done e then settle f now k W else W
          | None => W
          end
      | _ => W
      end
  | Looks f =>
      match w_fibers W !! f with
      | Some (AwaitEnd _ id k) =>
          match t_rows (w_tables W) !! id with
          | Some row => if has_state SRunning row then W else settle f now k W
          | None => settle f now k W
          end
      | _ => W
      end
  | Joins f =>
      match w_fibers W !! f with
      | Some (AwaitRecorded recorded fiber _ k err) =>
          match m_recorded (w_memory W) !! recorded, w_exits W !! fiber with
          | Some (Some id), _ => settle f now (k id) W
          | _, Some (Throw e) => settle f now (err e) W
          | _, Some (Ok _) => settle f now (err (Died "The operation ended before it was recorded")) W
          | _, None => W
          end
      | Some (AwaitExit fiber k) => if bool_decide (is_Some (w_exits W !! fiber)) then settle f now k W else W
      | _ => W
      end
  end.

Definition hearth_run (events : list (Z * Event)) (W : World) : World :=
  fold_left (λ W event, hearth_event event.1 event.2 W) events W.
End World.
