(* ===== verification/HearthTickets.v ===== *)
(** * One ticket among others

    What the lanes keep of one operation while others are admitted, begin,
    finish or are withdrawn: one that runs keeps running with its locks, one
    that is granted stays so unless it is withdrawn itself, and one in line
    does not start by itself. *)
From S2P Require Import Prelude Locks Grants Lanes LanesInv LanesGrant LanesSteps LanesFacts.

(** ** Where a ticket stands *)

Definition at_state (s : WaiterState) (L : Lanes) (n : nat) (ls : list LaneLock) : Prop :=
  ∃ w, waiters L !! n = Some w ∧ state w = s ∧ locks w = Some ls.

(** Not started, and with these locks unless it was turned away. *)
Definition still_in_line (L : Lanes) (n : nat) (ls : list LaneLock) : Prop :=
  ∃ w, waiters L !! n = Some w ∧ state w ≠ Running ∧ (state w = Done ∨ locks w = Some ls).

(** [x] aside, what started stays as it is and what did not does not run. *)
Definition keeps (x : nat) (L L' : Lanes) : Prop :=
  ∀ n w, n ≠ x → waiters L !! n = Some w →
    ∃ w', waiters L' !! n = Some w' ∧ locks w' = locks w ∧ (state w ≠ Waiting → w' = w) ∧ (state w' = Running → state w = Running).

Lemma ticket_keeps_refl x L : keeps x L L.
Proof. intros n w _ Hw. by exists w. Qed.

Lemma ticket_keeps_trans x L1 L2 L3 : keeps x L1 L2 → keeps x L2 L3 → keeps x L1 L3.
Proof.
  intros H12 H23 n w Hn Hw. destruct (H12 n w Hn Hw) as (w2 & Hw2 & El & Es & Er).
  destruct (H23 n w2 Hn Hw2) as (w3 & Hw3 & El' & Es' & Er'). exists w3. split; [done|]. split; [congruence|].
  split; [|auto]. intros Hs. rewrite (Es Hs) in *. by apply Es'.
Qed.

Lemma keeps_put x L w h a : keeps x L (set_held h (set_active a (put x w L))).
Proof. intros n u Hn Hu. exists u. simpl. by rewrite lookup_insert_ne. Qed.

Lemma gstep_keeps x L L' : gstep L L' → keeps x L L'.
Proof.
  assert (∀ L1 id w w' h a, waiters L1 = waiters L → waiters L !! id = Some w → state w = Waiting → locks w' = locks w →
    state w' ≠ Running → keeps x L (set_held h (set_active a (put id w' L1)))) as Hput.
  { intros L1 id w w' h a E Hw Hs El Hr n u Hn Hu. simpl. rewrite E. destruct (decide (n = id)) as [->|].
    - simplify_eq. exists w'. rewrite lookup_insert_eq. done.
    - exists u. by rewrite lookup_insert_ne. }
  destruct 1 as [L id w r Hw Hs|L id w c Hw Hs Hc|L id w ls Hw Hs Hls Hc].
  - apply (Hput L id w (set_refused r w) (held L) (active L)); try done. simpl. congruence.
  - apply (Hput (remove id L) id w (complete c (set_state Done w)) (held (remove id L)) (active (remove id L))); try done.
    by apply remove_fields.
  - apply (Hput (remove id L) id w (started w)); try done. by apply remove_fields.
Qed.

Lemma gsteps_keeps x L L' : rtc gstep L L' → keeps x L L'.
Proof. induction 1; eauto using ticket_keeps_refl, ticket_keeps_trans, gstep_keeps. Qed.

Lemma grant_keeps x world L : inv L → keeps x L (grant world L).
Proof. intros HL. by apply gsteps_keeps, grant_spec. Qed.

(** ** Calls *)

Lemma release_keeps world x w L : inv L → waiters L !! x = Some w → in_active w → keeps x L (release world x L).
Proof.
  intros HL Hw Ha. unfold release. rewrite Hw, decide_False by (by destruct Ha as [-> | ->]).
  unfold update_waiter. rewrite (alter_eq _ _ _ _ Hw). eapply ticket_keeps_trans; [apply keeps_put|].
  apply grant_keeps. eapply micro_inv; [exact HL|]. by apply (m_release L x w).
Qed.

Lemma cancel_keeps world x L : inv L → stable L → keeps x L (cancel world x L).2.
Proof.
  intros HL Hst. unfold cancel. destruct (waiters L !! x) as [w|] eqn:Hw; [|apply ticket_keeps_refl].
  destruct (state w) eqn:Hs; simpl; try apply ticket_keeps_refl.
  - apply release_keeps with w; [done..|by left].
  - destruct (reject_calm x (MkRejected Cancelled (label w +:+ " was withdrawn before it started") None) w L Hw Hs) as [Hm _].
    eapply ticket_keeps_trans; [|apply grant_keeps; by eapply micro_inv].
    intros n u Hn Hu. exists u. simpl. destruct (remove_fields x L) as (_ & _ & _ & _ & _ & E & _).
    by rewrite lookup_alter_ne, E by done.
Qed.

Lemma begin_keeps x L : keeps x L (run_begins x L).2.
Proof.
  unfold run_begins. destruct (waiters L !! x) as [w|]; [|apply ticket_keeps_refl]. case_decide; [|apply ticket_keeps_refl].
  intros n u Hn Hu. exists u. simpl. by rewrite lookup_alter_ne.
Qed.

Lemma fresh_lookup L : inv L → waiters L !! next L = None.
Proof. apply inv_fresh_none. Qed.

Lemma admit_keeps options world admission inside L :
  inv L → stable L → keeps (next L) L (admit_waiter options world admission inside L).2.
Proof.
  intros HL Hst. pose proof (admit_cases options world admission inside L HL Hst) as Hc. cbv zeta in Hc.
  destruct (admit_waiter options world admission inside L) as [t L']. simpl.
  destruct Hc as (_ & _ & [(e & _ & -> & _)|(_ & Hc)]).
  { intros n u Hn Hu. exists u. simpl. by rewrite lookup_insert_ne. }
  assert (keeps (next L) L (joined admission inside L)) as Hj.
  { intros n u Hn Hu. exists u. rewrite joined_waiters. by rewrite lookup_insert_ne. }
  pose proof (joined_before admission inside L HL Hst) as [HL1 _].
  destruct Hc as [[-> _]|(_ & _ & b & e & _ & ->)].
  - eapply ticket_keeps_trans; [exact Hj|by apply grant_keeps].
  - eapply ticket_keeps_trans; [exact Hj|]. intros n u Hn Hu. exists u. simpl.
    destruct (remove_fields (next L) (joined admission inside L)) as (_ & _ & _ & _ & _ & E & _).
    by rewrite lookup_alter_ne, E by done.
Qed.

(** ** Standing through a call on another ticket *)

Lemma keeps_at x L L' s n ls : keeps x L L' → n ≠ x → s ≠ Waiting → at_state s L n ls → at_state s L' n ls.
Proof.
  intros Hk Hn Hs (w & Hw & Es & El). destruct (Hk n w Hn Hw) as (w' & Hw' & _ & E & _).
  rewrite E in Hw' by congruence. by exists w.
Qed.

Lemma keeps_in_line x L L' n ls : keeps x L L' → n ≠ x → still_in_line L n ls → still_in_line L' n ls.
Proof.
  intros Hk Hn (w & Hw & Hr & Hl). destruct (Hk n w Hn Hw) as (w' & Hw' & E & Es & Er). exists w'.
  split; [done|]. split; [by intros ?%Er|]. destruct (decide (state w = Waiting)) as [Hs|Hs].
  - rewrite Hs in Hl. destruct Hl as [?|Hl]; [done|]. right. by rewrite E.
  - by rewrite Es.
Qed.

(** A withdrawn ticket is in line or done, and one that runs is not
    withdrawn. *)
Lemma cancel_running world x L n ls :
  inv L → stable L → at_state Running L n ls → at_state Running (cancel world x L).2 n ls.
Proof.
  intros HL Hst Hn. destruct (decide (n = x)) as [->|Hne]; [|by eapply keeps_at; [by apply cancel_keeps|..]].
  destruct Hn as (w & Hw & Hs & Hl). unfold cancel. rewrite Hw, Hs. by exists w.
Qed.

Lemma cancel_in_line world x L n ls :
  inv L → stable L → still_in_line L n ls → still_in_line (cancel world x L).2 n ls.
Proof.
  intros HL Hst Hn. destruct (decide (n = x)) as [->|Hne]; [|by eapply keeps_in_line; [by apply cancel_keeps|..]].
  destruct Hn as (w & Hw & Hr & Hl). pose proof (cancel_settles world x L HL Hst) as [Hs _].
  assert (∃ w', waiters (cancel world x L).2 !! x = Some w' ∧ state w' = Done) as (w' & Hw' & Es).
  2:{ exists w'. split; [done|]. rewrite Es. by split; [|left]. }
  clear Hs. unfold cancel. rewrite Hw. destruct (state w) eqn:Es; [by exists w| |done|].
  - simpl. unfold release. rewrite Hw, decide_False by congruence.
    unfold update_waiter. rewrite (alter_eq _ _ _ _ Hw). exists (set_state Done w). split; [|done].
    apply (gr_still _ _ (grant_grew world _ (micro_inv _ _ HL (m_release _ _ _ Hw (or_introl Es))))); [|done].
    simpl. by rewrite lookup_insert_eq.
  - destruct (reject_calm x (MkRejected Cancelled (label w +:+ " was withdrawn before it started") None) w L Hw Es) as [Hm _].
    eexists. split; [|shelve]. simpl. apply (gr_still _ _ (grant_grew world _ (micro_inv _ _ HL Hm))).
    + simpl. destruct (remove_fields x L) as (_ & _ & _ & _ & _ & E & _). by rewrite lookup_alter_eq, E, Hw.
    + done.
    Unshelve. done.
Qed.

(** A turn comes to a ticket that was granted. *)
Lemma begin_running x L ls L' :
  still_in_line L x ls → run_begins x L = (None, L') → at_state Running L' x ls.
Proof.
  intros (w & Hw & Hr & Hl). unfold run_begins. rewrite Hw. case_decide as Hs; [|done]. intros [= <-].
  exists (set_state Running w). simpl. rewrite lookup_alter_eq, Hw. split; [done|]. split; [done|].
  simpl. destruct Hl; [congruence|done].
Qed.

Lemma granted_begins L x ls :
  inv L → at_state Granted L x ls → await_grant x L = Some Succeeded ∧ (run_begins x L).1 = None.
Proof.
  intros HL (w & Hw & Hs & Hl). unfold await_grant, run_begins. rewrite Hw, decide_True by done.
  destruct (inv_waiters _ HL _ _ Hw) as [Hc _ _]. rewrite Hs in Hc. by destruct Hc as [-> _].
Qed.

Lemma granted_in_line L x ls : at_state Granted L x ls → still_in_line L x ls.
Proof. intros (w & Hw & Hs & Hl). exists w. rewrite Hs. auto. Qed.

(** A newcomer that knows its locks is in line with them, unless it was
    turned away. *)
Lemma admit_in_line options world admission ls L :
  inv L → stable L → a_locks admission = Known ls →
  still_in_line (admit_waiter options world admission false L).2 (next L) (normalizeLocks ls).
Proof.
  intros HL Hst El. pose proof (admit_cases options world admission false L HL Hst) as Hc. cbv zeta in Hc.
  destruct (admit_waiter options world admission false L) as [t L']. simpl.
  destruct Hc as (_ & _ & [(e & _ & -> & _)|(_ & Hc)]).
  { exists (rejected e (new_waiter admission false)). simpl. rewrite lookup_insert_eq. by split; [|split; [|left]]. }
  pose proof (joined_before admission false L HL Hst) as [HL1 _].
  assert (waiters (joined admission false L) !! next L = Some (joined_waiter admission false)) as Hj
    by (by rewrite joined_waiters, lookup_insert_eq).
  assert (locks (joined_waiter admission false) = Some (normalizeLocks ls)) as Hl
    by (unfold joined_waiter; by rewrite El).
  assert (state (joined_waiter admission false) = Waiting) as Hs by (unfold joined_waiter; by rewrite El).
  destruct Hc as [[-> _]|(_ & _ & b & e & _ & ->)].
  - destruct (grant_keeps (S (next L)) world _ HL1 (next L) _ ltac:(lia) Hj) as (w' & Hw' & E & _ & Er).
    exists w'. split; [done|]. split; [intros Hr; apply Er in Hr; congruence|]. right. congruence.
  - exists (rejected e (joined_waiter admission false)). simpl.
    destruct (remove_fields (next L) (joined admission false L)) as (_ & _ & _ & _ & _ & E & _).
    rewrite lookup_alter_eq, E, Hj. by split; [|split; [|left]].
Qed.

(** ** The counter of tickets and the pause *)

Definition same_counter (L L' : Lanes) : Prop := next L' = next L ∧ paused L' = paused L.

Lemma grant_counter world L : inv L → same_counter L (grant world L).
Proof. intros HL. pose proof (grant_grew world L HL) as []. done. Qed.

Lemma counter_trans L1 L2 L3 : same_counter L1 L2 → same_counter L2 L3 → same_counter L1 L3.
Proof. intros [E1 E2] [E3 E4]. split; congruence. Qed.

Lemma remove_counter x L : same_counter L (remove x L).
Proof. destruct (remove_fields x L) as (_ & _ & ? & ? & _). done. Qed.

Lemma release_counter world x w L : inv L → waiters L !! x = Some w → in_active w → same_counter L (release world x L).
Proof.
  intros HL Hw Ha. unfold release. rewrite Hw, decide_False by (by destruct Ha as [-> | ->]).
  unfold update_waiter. rewrite (alter_eq _ _ _ _ Hw). eapply counter_trans; [|apply grant_counter].
  { done. } eapply micro_inv; [exact HL|]. by apply (m_release L x w).
Qed.

Lemma cancel_counter world x L : inv L → stable L → same_counter L (cancel world x L).2.
Proof.
  intros HL Hst. unfold cancel. destruct (waiters L !! x) as [w|] eqn:Hw; [|done].
  destruct (state w) eqn:Hs; simpl; try done.
  - apply release_counter with w; [done..|by left].
  - destruct (reject_calm x (MkRejected Cancelled (label w +:+ " was withdrawn before it started") None) w L Hw Hs) as [Hm _].
    eapply counter_trans; [|apply grant_counter; by eapply micro_inv]. apply (remove_counter x L).
Qed.

Lemma begin_counter x L : same_counter L (run_begins x L).2.
Proof. unfold run_begins. destruct (waiters L !! x); [|done]. by case_decide. Qed.

Lemma joined_counter admission inside L :
  next (joined admission inside L) = S (next L) ∧ paused (joined admission inside L) = paused L.
Proof. rewrite joined_eq. unfold push. by destruct (nested _). Qed.

Lemma admit_ticket options world admission inside L :
  inv L → stable L →
  t_waiter (admit_waiter options world admission inside L).1 = next L ∧
  next (admit_waiter options world admission inside L).2 = S (next L) ∧
  paused (admit_waiter options world admission inside L).2 = paused L.
Proof.
  intros HL Hst. pose proof (admit_cases options world admission inside L HL Hst) as Hc. cbv zeta in Hc.
  destruct (admit_waiter options world admission inside L) as [t L']. cbn [fst snd]. destruct Hc as (Ht & _ & Hc).
  split; [done|]. destruct Hc as [(e & _ & -> & _)|(_ & Hc)]; [done|].
  pose proof (joined_before admission inside L HL Hst) as [HL1 _].
  pose proof (joined_counter admission inside L) as [E1 E2].
  destruct Hc as [[-> _]|(_ & _ & b & e & _ & ->)].
  - destruct (grant_counter world _ HL1) as [-> ->]. done.
  - destruct (remove_counter (next L) (joined admission inside L)) as [E3 E4]. simpl. by rewrite E3, E4.
Qed.

(** ** Lanes with nobody in line *)

Definition nobody_waits (L : Lanes) : Prop := waiting L = [] ∧ nested_queue L = [].

(** Beside what excludes nothing of its own, a newcomer with nobody in line
    is granted at once. *)
Lemma admit_granted options world admission ls L :
  inv L → stable L → nobody_waits L → paused L = false → (0 < maxWaiting options)%Z →
  a_locks admission = Known ls → a_continuation admission = false → refuse world = None → precondition_holds world (new_waiter admission false) = true →
  compatible (holding L) (normalizeLocks ls) →
  let L' := (admit_waiter options world admission false L).2 in
  at_state Granted L' (next L) (normalizeLocks ls) ∧ nobody_waits L' ∧ active L' = active L ++ [next L].
Proof.
  intros HL Hst [Hw Hn] Hp Hmax El Ec Hrefuse Hpre Hcomp. cbv zeta.
  pose proof (admit_cases options world admission false L HL Hst) as Hc. cbv zeta in Hc.
  destruct (admit_waiter options world admission false L) as [t L']. cbn [snd]. destruct Hc as (_ & _ & Hc).
  pose proof (joined_before admission false L HL Hst) as [HL1 Hbef].
  assert (nested (new_waiter admission false) = false) as Hnest by (cbn; by rewrite Ec).
  rewrite Hnest in Hbef. destruct Hbef as (Hw1 & Hn1 & _ & _). rewrite Hw in Hw1. rewrite Hn in Hn1.
  set (L1 := joined admission false L) in *.
  assert (waiters L1 !! next L = Some (joined_waiter admission false)) as Hj
    by (unfold L1; by rewrite joined_waiters, lookup_insert_eq).
  assert (locks (joined_waiter admission false) = Some (normalizeLocks ls)) as Hl by (unfold joined_waiter; by rewrite El).
  destruct Hc as [(e & _ & _ & [[Hpt _]|Hfull])|(_ & Hc)]; [congruence|..].
  { unfold waitingOnTheirOwn in Hfull. rewrite Hw, Hn in Hfull. simpl in Hfull. lia. }
  assert (existsb (conflicts (Lanes.held L1)) (normalizeLocks ls) = false) as Hfree.
  { apply free_check; [done|]. unfold L1. rewrite joined_eq. unfold push. rewrite Hnest. unfold holding. simpl.
    rewrite (locks_of_ext _ (lk L)); [exact Hcomp|]. intros id Hid. unfold lk. simpl. apply lk_insert_ne.
    intros ->. apply HL in Hid as (u & Hu & _). rewrite fresh_lookup in Hu by done. done. }
  assert (at_state Granted (grant world L1) (next L) (normalizeLocks ls) ∧ nobody_waits (grant world L1) ∧
    active (grant world L1) = active L1 ++ [next L]) as Hg.
  { assert (selectGrants (Some (admit_callback world)) waiter_locks (Lanes.held L1) [next L] (Some ∅) (waiters L1) =
      (MkSelection [next L] [], take_locks (Lanes.held L1) (normalizeLocks ls), waiters L1)) as Hsel.
    { unfold selectGrants. cbn [select_loop default from_option]. rewrite (lk_lookup _ _ _ Hj), Hl.
      match goal with |- context [forallb ?f ?l] => replace (forallb f l) with true end.
      2:{ symmetry. apply (free_spec (store := LockTable_store) (Lanes.held L1) ∅ (holding L1) []); [apply HL1|done|].
          rewrite app_nil_r. by apply free_check. }
      cbn [negb]. unfold admit_callback. rewrite Hj. unfold ask_refuse. rewrite Hrefuse.
      replace (precondition_holds world (joined_waiter admission false)) with true; [done|].
      rewrite <-Hpre. unfold joined_waiter. by rewrite El. }
    unfold grant. rewrite Hn1. cbn [grant_nested]. change ([] ++ [next L]) with [next L] in Hw1. rewrite Hw1, Hsel.
    cbn [granted dropped app fold_left]. unfold remove. cbn [waiters set_waiters set_held]. rewrite Hj.
    assert (nested (joined_waiter admission false) = false) as -> by (unfold joined_waiter; rewrite El; exact Hnest).
    assert (next L ∉ active L1) as Hna.
    { intros Hin. apply HL1 in Hin as (u & Hu & Ha). rewrite Hj in Hu. simplify_eq. unfold joined_waiter in Ha. rewrite El in Ha. by destruct Ha. }
    rewrite start_eq by done. split; [|split].
    - exists (started (joined_waiter admission false)). simpl. rewrite lookup_alter_eq, Hj. done.
    - split; simpl; [rewrite Hw1; simpl; by rewrite decide_True|done].
    - done. }
  destruct Hg as ((w' & Hw' & Hs' & Hl') & Hnw & Ha).
  assert (active L1 = active L) as Ea by (unfold L1; rewrite joined_eq; unfold push; by destruct (nested _)).
  rewrite Ea in Ha. destruct Hc as [[-> _]|(Hwait & _)].
  - split; [by exists w'|done].
  - apply has_state_true in Hwait as (u & Hu & Hsu). congruence.
Qed.

(** While nobody is in line, what ends or is withdrawn lets nobody in. *)
Definition shrinks (L L' : Lanes) : Prop := nobody_waits L' ∧ ∀ l, l ∈ holding L' → l ∈ holding L.

Lemma nobody_waiting L id w : inv L → nobody_waits L → waiters L !! id = Some w → state w ≠ Waiting.
Proof.
  intros HL [Hw Hn] Hid Hs. destruct (nested w) eqn:En.
  - assert (id ∈ nested_queue L) as Hin by (apply HL; by exists w). rewrite Hn in Hin. in_nil Hin.
  - assert (id ∈ waiting L) as Hin by (apply HL; by exists w). rewrite Hw in Hin. in_nil Hin.
Qed.

Lemma nobody_granted world L : inv L → nobody_waits L → grant world L = L.
Proof.
  intros HL Hn. destruct (grant_spec world L HL) as [Hs _]. apply rtc_inv in Hs as [E|(L1 & Hstep & _)]; [by rewrite <-E|].
  assert (∃ id w, waiters L !! id = Some w ∧ state w = Waiting) as (id & w & Hw & Es) by (destruct Hstep; eauto).
  by destruct (nobody_waiting _ _ _ HL Hn Hw).
Qed.

Lemma holding_elem L l : inv L → l ∈ holding L ↔ ∃ n ls, n ∈ active L ∧ lk L n = Some ls ∧ l ∈ ls.
Proof.
  intros HL. unfold holding. generalize (active L) as ids. induction ids as [|n ids IH].
  - split; [intros H; in_nil H|intros (? & ? & H & _); in_nil H].
  - rewrite locks_of_cons, elem_of_app, IH. split.
    + intros [Hl|(m & ls & ? & ? & ?)]; [|exists m, ls; set_solver].
      destruct (lk L n) as [ls|] eqn:E; [|in_nil Hl]. exists n, ls. split; [by left|done].
    + intros (m & ls & [->|Hm]%elem_of_cons & E & Hl); [left; by rewrite E|right; eauto].
Qed.

Lemma holding_at L n ls s : inv L → s = Granted ∨ s = Running → at_state s L n ls → n ∈ active L ∧ lk L n = Some ls.
Proof.
  intros HL Hs (w & Hw & Es & El). split; [|unfold lk; by rewrite (lk_lookup _ _ _ Hw)].
  apply HL. exists w. split; [done|]. rewrite <-Es in Hs. exact Hs.
Qed.

Lemma release_shrinks world x w L :
  inv L → nobody_waits L → waiters L !! x = Some w → in_active w → shrinks L (release world x L).
Proof.
  intros HL Hn Hw Ha. unfold release. rewrite Hw, decide_False by (by destruct Ha as [-> | ->]).
  unfold update_waiter. rewrite (alter_eq _ _ _ _ Hw).
  pose proof (micro_inv _ _ HL (m_release L x w Hw Ha)) as HL1. set (L1 := set_held _ _) in *.
  rewrite nobody_granted by done. split; [done|]. intros l. rewrite !holding_elem by done.
  intros (n & ls & Hin & E & Hl). cbn in Hin. apply splice_out_elem in Hin as [Hin Hne]; [|apply HL].
  exists n, ls. split; [done|]. split; [|done]. unfold lk in *. cbn in E. by rewrite lk_insert_ne in E.
Qed.

Lemma cancel_shrinks world x L : inv L → nobody_waits L → shrinks L (cancel world x L).2.
Proof.
  intros HL Hn. unfold cancel. destruct (waiters L !! x) as [w|] eqn:Hw; [|by split].
  destruct (state w) eqn:Hs; [by split| |by split|by destruct (nobody_waiting _ _ _ HL Hn Hw)].
  apply release_shrinks with w; try done. by left.
Qed.

Lemma begin_shrinks x L : inv L → nobody_waits L → shrinks L (run_begins x L).2.
Proof.
  intros HL Hn. unfold run_begins. destruct (waiters L !! x) as [w|] eqn:Hw; [|by split].
  case_decide; [|by split]. split; [done|]. intros l. cbn [snd].
  pose proof (micro_inv _ _ HL (m_begin L x w Hw H)) as HL1.
  intros Hl. unfold holding in *. cbn in Hl. erewrite locks_of_ext; [exact Hl|]. intros n _. unfold lk, waiter_locks. cbn.
  destruct (decide (n = x)) as [->|]; [by rewrite lookup_alter_eq, Hw|by rewrite lookup_alter_ne].
Qed.
