(* ===== verification/HearthLogic.v ===== *)
(** * What programs of Hearth's operations may do

    A logic for the programs of [HearthPrograms], whatever they are answered.
    A fiber has a state: where it stands in the lanes, an ID it drew and has
    not used, and facts it learned that stay true. [checks] says a program
    only does what its state allows: no work without its locks, no leaving
    the lanes before what holds them ended. That this means so for all fibers
    together is in [HearthInv]. *)
From S2P Require Import Prelude Operations Locks Grants Lanes Plans Bytes Utf8.
From S2P Require Import HearthLanes HearthRecords HearthMonad HearthPrograms HearthWorld.

(** ** States *)

Inductive Fact :=
  | HasLocks (id : string) (ls : list LaneLock)
  | Past (id : string)
  | Ended (id : string)
  | Reads (id : string) (input : Json)
  | Cancellable (n : nat)
  | EndsWith (ending : nat) (id : string)
  | WasAsked (id : string) (input : Json)
  | OfKind (id kind : string).

(** Outside the lanes before they opened, inside other work under its locks,
    or after they opened; taking locks back, [todo] being left; holding a
    ticket in line, working under it, or with it kept for an operation that
    runs until that ends. *)
Inductive Stand :=
  | Free
  | Nested (held : list LaneLock)
  | Open
  | Boot (todo : option (list (string * list LaneLock)))
  | Handing (n : nat) (ls : list LaneLock) (id : string) (todo : list (string * list LaneLock))
  | InLine (n : nat) (ls : list LaneLock)
  | Working (n : nat) (ls : list LaneLock)
  | Reserved (n : nat) (ls : list LaneLock) (id : string)
  | Bound (n : nat) (ls : list LaneLock) (id : string).

Record St := MkSt { stand : Stand; mine : option string; facts : list Fact }.

Definition stands (x : Stand) (s : St) : St := MkSt x (mine s) (facts s).
Definition learns (l : list Fact) (s : St) : St := MkSt (stand s) (mine s) (l ++ facts s).
Definition owns (m : option string) (s : St) : St := MkSt (stand s) m (facts s).

(** Nothing is left to take back: the lanes are as good as open. *)
Definition booting (todo : list (string * list LaneLock)) : Stand :=
  match todo with [] => Open | _ => Boot (Some todo) end.

Definition bind (id : string) (x : Stand) : Stand := match x with Working n ls => Bound n ls id | x => x end.
Definition unbind (id : string) (x : Stand) : Stand :=
  match x with Bound n ls id' => if decide (id' = id) then Working n ls else x | x => x end.
Definition opened (x : Stand) : Stand := match x with Free => Open | x => x end.

(** A fiber may end there. *)
Definition may_end (x : Stand) : Prop := match x with Free | Nested _ | Open | Boot None => True | _ => False end.

(** What a fiber that starts another gives it. *)
Inductive splits (s : St) : St → St → Prop :=
  | splits_free : splits s (MkSt Free None (facts s)) s
  | splits_line n ls :
      stand s = InLine n ls →
      splits s (MkSt (InLine n ls) (mine s) (facts s)) (learns [Cancellable n] (MkSt Open None (facts s)))
  | splits_hand n ls id todo :
      stand s = Handing n ls id todo →
      splits s (MkSt (Reserved n ls id) None (facts s)) (stands (booting todo) s).

(** What a fiber may do to memory. *)
Inductive mem_step (s : St) (M : Memory) : Memory → St → Prop :=
  | ms_view M' :
      m_lanes M' = m_lanes M → m_ready M' = m_ready M → m_endings M' = m_endings M → m_ended M' = m_ended M →
      (∀ p n, m_places M' !! p = Some (Some n) → m_places M !! p = Some (Some n) ∨ Cancellable n ∈ facts s) →
      mem_step s M M' s
  | ms_withdraw p : mem_step s M (withdraw_place p M) s
  | ms_ready : stand s = Open → mem_step s M (set_ready true M) s
  | ms_ending id : mem_step s M (make_ending id M) (learns [EndsWith (ending_for id M) id] s)
  | ms_ended id : Ended id ∈ facts s → mem_step s M (ended_here id M) s.

Section Logic.
Context (durableKinds : list (string * DurableOperation)).
Notation locks_of_row := (locks_of_row durableKinds).

(** ** Statements *)

Definition declared (d : DurableOperation) (input : Json) : list LaneLock := withWholes (d_locks d input).

Definition left_running (rows : list (string * Row)) : list (string * list LaneLock) :=
  rows ≫= λ entry, match locks_of_row entry.2 with [] => [] | ls => [(entry.1, ls)] end.

Definition may_run (s : St) (st : Statement) : Prop :=
  match st with
  | Insert id row _ =>
      mine s = Some id ∧
      (∃ d, d ∈ durableKinds.*2 ∧ d_kind d = row_kind row ∧ declared d (row_input row) = row_locks row) ∧
      (row_queue row ≠ None → row_state row = SWaiting) ∧
      (row_state row = SWaiting ∨ row_state row = SRunning ∧ (row_locks row = [] ∨ ∃ n, stand s = Working n (row_locks row)))
  | Start id _ => ∃ ls, HasLocks id ls ∈ facts s ∧ (ls = [] ∨ ∃ n, stand s = Working n ls)
  | Finish _ outcome _ _ => outcome ≠ SRunning ∧ outcome ≠ SWaiting
  | Join kind _ asked join _ =>
      ∃ d, d ∈ durableKinds.*2 ∧ d_kind d = kind ∧ join = joining d (declared d asked)
  | ListRunning => stand s = Boot None ∨ stand s = Open
  | _ => True
  end.

(** What an answer may be relied on for. *)
Definition answer_ok (s : St) (st : Statement) : answer st → Prop :=
  match st return answer st → Prop with
  | Load id => λ row : option Row, ∀ r, row = Some r → Past id ∈ facts s → row_state r ≠ SWaiting
  | Insert _ _ ignore => λ inserted : bool, inserted = false → ignore = true
  | _ => λ _, True
  end.

Definition heard (s : St) (st : Statement) : answer st → St :=
  match st return answer st → St with
  | Insert id row _ => λ inserted : bool,
      if inserted then
        MkSt (if decide (row_state row = SRunning) then bind id (stand s) else stand s) None
          ([HasLocks id (row_locks row); WasAsked id (row_input row)] ++
           (if decide (row_state row = SRunning) then [Past id] else []) ++ facts s)
      else s
  | Start id _ => λ started : bool, if started then MkSt (bind id (stand s)) (mine s) (Past id :: facts s) else s
  | Load id => λ row : option Row,
      match row with
      | Some r =>
          learns (HasLocks id (row_locks r) ::
                  if decide (row_state r = SWaiting) then [] else [Past id; Reads id (row_input r)]) s
      | None => s
      end
  | Finish id _ _ _ => λ ended : bool, if ended then learns [Ended id] s else s
  | Join _ _ asked _ _ => λ joined, match joined with JoinedTo id => learns [WasAsked id asked] s | _ => s end
  | ListRunning => λ rows,
      match stand s with Boot None => stands (booting (left_running rows)) s | _ => s end
  | ListWaiting => λ rows : list (string * Row),
      learns ((λ entry : string * Row, HasLocks entry.1 (locks_of_row entry.2)) <$> rows) s
  | _ => λ _, s
  end.

(** ** Questions *)

Definition may_ask (s : St) (q : Question) : Prop :=
  match q with
  | RunWork definition args context running =>
      uncovered (needed_by definition args context) (run_held running) = [] ∧
      keeps_wholes (run_held running) ∧
      match stand s with
      | Working _ ls => run_held running = ls
      | Nested held => run_held running = held
      | _ => False
      end
  | RunWorkflow running input =>
      Reads (run_id running) input ∈ facts s ∧ stand s = Free ∧ OfKind (run_id running) (run_name running) ∈ facts s ∧
      ∃ d, d ∈ durableKinds.*2 ∧ run_name running = d_kind d ∧ run_held running = declared d input
  | Execute id => Past id ∈ facts s
  | _ => True
  end.

(** ** Programs *)

Fixpoint checks {A} (s : St) (op : Op A) (ok : St → A → Prop) (threw : St → Failure → Prop) : Prop :=
  match op with
  | Ret a => ok s a
  | Throws e => threw s e
  | Do change k => ∀ now M, ∃ s', mem_step s M (change now M) s' ∧ checks s' (k now M) ok threw
  | Uuid k => ∀ id, checks (owns (Some id) s) (k id) ok threw
  | Sql st again k err =>
      may_run s st ∧ (∀ a, answer_ok s st a → checks (heard s st a) (k a) ok threw) ∧
      (again = true → mine s = None ∨ ∀ id row ignore, st ≠ Insert id row ignore) ∧ checks (owns None s) err ok threw
  | Asks q k => may_ask s q ∧ ∀ r, checks s (k r) ok threw
  | AwaitOpen _ k late => checks (stands (opened (stand s)) s) k ok threw ∧ checks s late ok threw
  | Admits admission _ _ k =>
      match stand s with
      | Open =>
          ∃ ls, a_locks admission = Known ls ∧
            ∀ t, checks (stands (InLine (t_waiter t) (normalizeLocks ls)) s) (k t) ok threw
      | Boot (Some ((id, ls) :: todo)) =>
          (∃ label, admission = admission_of label ls Wait) ∧
          ∀ t, checks (stands (Handing (t_waiter t) ls id todo) s) (k t) ok threw
      | _ => False
      end
  | AwaitTurn turn k err =>
      match stand s with
      | InLine n ls =>
          tn_ticket turn = n ∧ checks (stands (Working n ls) s) k ok threw ∧
          ∀ e, checks (stands Free s) (err e) ok threw
      | Reserved n ls id =>
          tn_ticket turn = n ∧ tn_caller turn = false ∧ tn_initiator turn = System ∧
          checks (stands (Bound n ls id) s) k ok threw
      | _ => False
      end
  | Leave n k =>
      match stand s with
      | Working m _ => m = n ∧ checks (stands Free s) k ok threw
      | _ => False
      end
  | Forks p k =>
      ∃ c s', splits s c s' ∧ checks c p (λ s _, may_end (stand s)) (λ s _, may_end (stand s)) ∧
        ∀ f, checks s' (k f) ok threw
  | AwaitEnd d id k => EndsWith d id ∈ facts s ∧ checks (stands (unbind id (stand s)) s) k ok threw
  | AwaitRecorded _ _ n k err =>
      Cancellable n ∈ facts s ∧ (∀ id, checks s (k id) ok threw) ∧ ∀ e, checks s (err e) ok threw
  | AwaitExit _ k => checks s k ok threw
  | Answers id input k => WasAsked id input ∈ facts s ∧ checks s k ok threw
  end.

(** ** Rules *)

Lemma hearth_weaken {A} (op : Op A) : ∀ s (ok ok' : St → A → Prop) (threw threw' : St → Failure → Prop),
  (∀ s a, ok s a → ok' s a) → (∀ s e, threw s e → threw' s e) → checks s op ok threw → checks s op ok' threw'.
Proof.
  induction op as [A a|A e|A f k IH|A k IH|A st again k IH err IHe|A q k IH|A i k IH late IHl|A adm l o k IH|A turn k IH err IHe
    |A n k IH|A p IHp k IH|A d id k IH|A r f n k IH err IHe|A f k IH|A id input k IH]; cbn; intros s ok ok' threw threw' Ho Ht Hop.
  - auto.
  - auto.
  - intros now M. destruct (Hop now M) as (s' & ? & ?). exists s'. eauto.
  - eauto.
  - destruct Hop as (? & ? & ? & ?). eauto 10.
  - destruct Hop. eauto.
  - destruct Hop. eauto.
  - destruct (stand s) as [| | |[[|[]]|]| | | | |]; try done; destruct Hop as [H1 H2]; eauto.
    destruct H2. eauto.
  - destruct (stand s); try done; destruct Hop as (? & ?); destruct_and?; eauto 10.
  - destruct (stand s); try done. destruct Hop; eauto.
  - destruct Hop as (c & s' & ? & ? & ?). exists c, s'. eauto.
  - destruct Hop; eauto.
  - destruct Hop as (? & ? & ?). eauto 10.
  - eauto.
  - destruct Hop; eauto.
Qed.

Lemma checks_case {A B} (op : Op A) (k : A → Op B) (h : Failure → Op B) : ∀ s ok threw,
  checks s op (λ s a, checks s (k a) ok threw) (λ s e, checks s (h e) ok threw) → checks s (op_case op k h) ok threw.
Proof.
  revert k h.
  induction op as [A a|A e|A f k IH|A k IH|A st again k IH err IHe|A q k IH|A i k IH late IHl|A adm l o k IH|A turn k IH err IHe
    |A n k IH|A p IHp k IH|A d id k IH|A r f n k IH err IHe|A f k IH|A id input k IH]; cbn; intros k' h' s ok threw Hop; try done.
  - intros now M. destruct (Hop now M) as (s' & ? & ?). exists s'. eauto.
  - eauto.
  - destruct Hop as (? & ? & ? & ?). eauto 10.
  - destruct Hop. eauto.
  - destruct Hop. eauto.
  - destruct (stand s) as [| | |[[|[]]|]| | | | |]; try done; destruct Hop as [H1 H2]; eauto.
    destruct H2. eauto.
  - destruct (stand s); try done; destruct Hop as (? & ?); destruct_and?; eauto 10.
  - destruct (stand s); try done. destruct Hop; eauto.
  - destruct Hop as (c & s' & ? & ? & ?). exists c, s'. eauto.
  - destruct Hop; eauto.
  - destruct Hop as (? & ? & ?). eauto 10.
  - eauto.
  - destruct Hop; eauto.
Qed.

Lemma hearth_bind {A B} (op : Op A) (k : A → Op B) s ok threw :
  checks s op (λ s a, checks s (k a) ok threw) threw → checks s (op_bind op k) ok threw.
Proof. apply (checks_case op k Throws). Qed.

Lemma checks_ensuring {A} (op : Op A) (always : Op unit) s ok threw :
  checks s op (λ s a, checks s always (λ s _, ok s a) threw) (λ s e, checks s always (λ s _, threw s e) threw) →
  checks s (ensuring op always) ok threw.
Proof.
  intros H. apply checks_case. eapply hearth_weaken; [| |exact H]; intros s' x Hx; by apply hearth_bind.
Qed.

Lemma checks_orElse {A} (op : Op A) (h : Failure → Op A) s ok threw :
  checks s op ok (λ s e, checks s (h e) ok threw) → checks s (orElse op h) ok threw.
Proof. apply (checks_case op Ret h). Qed.

Lemma checks_ret {A} (a : A) s (ok : St → A → Prop) threw : ok s a → checks s (Ret a) ok threw.
Proof. done. Qed.

Lemma checks_throws {A} e s (ok : St → A → Prop) (threw : St → Failure → Prop) : threw s e → checks s (Throws e) ok threw.
Proof. done. Qed.

Lemma hearth_look {A} (read : Z → Memory → A) s ok threw : (∀ a, ok s a) → checks s (look read) ok threw.
Proof. intros H now M. exists s. split; [|apply H]. constructor; auto. Qed.

Lemma checks_sql st s ok threw :
  may_run s st → (∀ a, answer_ok s st a → ok (heard s st a) a) → threw (owns None s) DatabaseError → checks s (sql st) ok threw.
Proof. intros. cbn. eauto. Qed.

Lemma checks_sql_again st s (ok : St → answer st → Prop) threw :
  may_run s st → (∀ a, answer_ok s st a → ok (heard s st a) a) → (mine s = None ∨ ∀ id row ignore, st ≠ Insert id row ignore) →
  threw (owns None s) DatabaseError → checks s (sqlUntilAnswered st) ok threw.
Proof. intros. cbn. eauto. Qed.

Lemma checks_asking q s ok threw : may_ask s q → (∀ r, ok s r) → checks s (asking q) ok threw.
Proof. intros. cbn. eauto. Qed.

Lemma checks_fork (p : Op unit) s c s' (ok : St → nat → Prop) threw :
  splits s c s' → checks c p (λ s _, may_end (stand s)) (λ s _, may_end (stand s)) → (∀ f, ok s' f) → checks s (fork p) ok threw.
Proof. intros. exists c, s'. auto. Qed.

Lemma checks_for_each {A} (I : St → Prop) (body : A → Op unit) xs (threw : St → Failure → Prop) : ∀ s,
  (∀ s x, x ∈ xs → I s → checks s (body x) (λ s _, I s) threw) → I s → checks s (for_each xs body) (λ s _, I s) threw.
Proof.
  induction xs as [|x xs IH]; intros s Hb Hs; [done|]. cbn [for_each]. apply hearth_bind.
  eapply hearth_weaken; [|done|apply Hb; [by left|done]]. intros s' u Hs'. apply IH; [|done].
  intros s2 y Hy. apply Hb. by right.
Qed.
End Logic.
