(* ===== verification/HearthChecks.v ===== *)
(** * Hearth's programs keep to their logic

    Every program of [HearthPrograms], the pipeline of [operation.ts], and
    every call, sweep and workflow does what the state of its fiber allows,
    whatever it is answered ([HearthLogic.checks]). *)
From S2P Require Import Prelude Operations Locks Grants Lanes Plans Bytes Utf8.
From S2P Require Import HearthLanes HearthRecords HearthMonad HearthPrograms HearthWorld HearthLogic.

(** What a program does not lose. *)
Definition knows_more (s s' : St) : Prop := stand s' = stand s ∧ facts s ⊆ facts s'.

Lemma knows_refl s : knows_more s s.
Proof. done. Qed.

Lemma knows_learns l s : knows_more s (learns l s).
Proof. split; [done|]. cbn. set_solver. Qed.

Lemma knows_owns m s : knows_more s (owns m s).
Proof. done. Qed.

Lemma knows_trans s1 s2 s3 : knows_more s1 s2 → knows_more s2 s3 → knows_more s1 s3.
Proof. intros [E1 H1] [E2 H2]. split; [congruence|set_solver]. Qed.

Lemma knows_in x s s' : knows_more s s' → x ∈ facts s → x ∈ facts s'.
Proof. intros [_ H]. apply H. Qed.

Create HintDb hearth discriminated.
#[export] Hint Resolve knows_refl knows_learns knows_owns : hearth.

Definition ends_well {A} (s : St) (_ : A) : Prop := may_end (stand s).
Definition as_before {A} (s s' : St) (_ : A) : Prop := knows_more s s'.

Section Checks.
Context (durableKinds : list (string * DurableOperation)) (undecodable : JsString).
Notation checks := (checks durableKinds).
Notation heard := (heard durableKinds).
Notation may_run := (may_run durableKinds).
Notation locks_of_row := (locks_of_row durableKinds).

Definition in_kinds (d : DurableOperation) : Prop := d ∈ durableKinds.*2.

(** ** Memory and statements *)

Lemma checks_view (f : Z → Memory → Memory) s (ok : St → unit → Prop) threw :
  (∀ now M, m_lanes (f now M) = m_lanes M ∧ m_ready (f now M) = m_ready M ∧ m_endings (f now M) = m_endings M ∧
     m_ended (f now M) = m_ended M ∧
     ∀ p n, m_places (f now M) !! p = Some (Some n) → m_places M !! p = Some (Some n) ∨ Cancellable n ∈ facts s) →
  ok s tt → checks s (change f) ok threw.
Proof. intros H Hok now M. exists s. split; [|done]. destruct (H now M) as (? & ? & ? & ? & ?). by constructor. Qed.

Lemma checks_vacate label s (ok : St → unit → Prop) threw : ok s tt → checks s (vacate label) ok threw.
Proof. intros. apply checks_view; [|done]. intros now M. cbn. repeat split; auto. Qed.

Lemma checks_time s (ok : St → Z → Prop) threw : (∀ now, ok s now) → checks s currentTime ok threw.
Proof. intros. by apply hearth_look. Qed.

(** Reading changes nothing a fiber stands on. *)
Lemma heard_same s st a :
  match st with Insert _ _ _ | Start _ _ | ListRunning => False | _ => True end → knows_more s (heard s st a).
Proof.
  destruct st; try done; intros _; cbn; eauto with hearth; repeat case_match; eauto with hearth.
Qed.

Lemma checks_forgets passes cutoff : ∀ s,
  checks s (forgetFinishedOperations passes cutoff) (as_before s) (as_before s).
Proof.
  induction passes as [|passes IH]; intros s; cbn [forgetFinishedOperations]; [apply knows_refl|].
  apply hearth_bind, checks_sql; [done| |apply knows_owns]. intros rows _. cbn [HearthLogic.heard].
  destruct rows as [|row rows]; [apply knows_refl|]. set (all := row :: rows). apply hearth_bind.
  assert (∀ s', knows_more s s' → checks s'
    (let* _ := sql (ForgetRows all.*1) in if (length all <? RETENTION_BATCH)%nat then Ret tt else forgetFinishedOperations passes cutoff)
    (as_before s) (as_before s)) as Hrest.
  { intros s' Hs'. apply hearth_bind, checks_sql; [done| |by eapply knows_trans, knows_owns]. intros u _. cbn [HearthLogic.heard].
    destruct (_ <? _)%nat; [done|]. eapply hearth_weaken; [| |apply IH]; intros s2 x H2; by eapply knows_trans. }
  destruct (omap snd all); [apply Hrest, knows_refl|].
  apply checks_sql; [done| |by eapply knows_trans, knows_owns]. intros u _. apply Hrest, knows_refl.
Qed.

(** ** Endings *)

Lemma checks_finish again id outcome error s :
  outcome ≠ SRunning → outcome ≠ SWaiting →
  checks s (finishOperation again id outcome error) (as_before s) (as_before s).
Proof.
  intros H1 H2. unfold finishOperation.
  assert (∀ st s (ok : St → answer st → Prop) (threw : St → Failure → Prop),
    may_run s st → (∀ a, ok (heard s st a) a) → (∀ id row ignore, st ≠ Insert id row ignore) → threw (owns None s) DatabaseError →
    checks s (if again then sqlUntilAnswered st else sql st) ok threw) as Hask.
  { intros st s0 ok threw ? ? ? ?. destruct again; [apply checks_sql_again; auto|by apply checks_sql]. }
  apply hearth_bind, checks_time. intros now. apply hearth_bind, Hask; [done| |done|apply knows_owns].
  intros row. cbn [HearthLogic.heard]. destruct row as [row|]; [|apply knows_refl].
  apply hearth_bind, Hask; [done| |done|apply knows_owns]. intros ended. cbn [HearthLogic.heard].
  destruct ended; [|apply knows_refl]. intros now' M. exists (learns [Ended id] s). split; [|apply knows_learns].
  apply ms_ended. by left.
Qed.

Lemma checks_await_end id s (ok : St → unit → Prop) threw :
  (∀ s', facts s ⊆ facts s' → ok (stands (unbind id (stand s)) s') tt) → checks s (awaitOperationEnd id) ok threw.
Proof.
  intros H now M. eexists. split; [apply ms_ending|]. cbn. split; [by left|]. apply (H (learns _ s)). cbn. set_solver.
Qed.

(** ** The lanes *)

Lemma checks_refusal {A} name rejected s (ok : St → A → Prop) threw :
  (∀ e, threw s e) → checks s (refusal name rejected) ok threw.
Proof.
  intros H. unfold refusal. destruct (reason rejected), (blockedBy rejected) as [[|]|]; try apply H.
  apply hearth_bind, hearth_look. intros a. apply H.
Qed.

(** Work whose turn came leaves the lanes however it ends. *)
Lemma checks_turn {A} turn (work : Op A) s n ls (ok : St → A → Prop) (threw : St → Failure → Prop) :
  stand s = InLine n ls → tn_ticket turn = n →
  checks (stands (Working n ls) s) work
    (λ s' a, stand s' = Working n ls ∧ ok (stands Free s') a) (λ s' e, stand s' = Working n ls ∧ threw (stands Free s') e) →
  (∀ e, threw (stands Free s) e) → checks s (awaitTurn turn work) ok threw.
Proof.
  intros Hs <- Hwork Herr. unfold awaitTurn. cbn. rewrite Hs. split; [done|]. split.
  - apply checks_case. eapply hearth_weaken; [| |exact Hwork]; cbv beta; intros s' x [Es Hx]; cbn [HearthLogic.checks]; by rewrite Es.
  - intros e. destruct e; try apply Herr. by apply checks_refusal.
Qed.

Lemma checks_reserved {A} turn (work : Op A) s n ls id (ok : St → A → Prop) (threw : St → Failure → Prop) :
  stand s = Reserved n ls id → tn_ticket turn = n → tn_caller turn = false → tn_initiator turn = System →
  checks (stands (Bound n ls id) s) work
    (λ s' a, stand s' = Working n ls ∧ ok (stands Free s') a) (λ s' e, stand s' = Working n ls ∧ threw (stands Free s') e) →
  checks s (awaitTurn turn work) ok threw.
Proof.
  intros Hs <- Hc Hi Hwork. unfold awaitTurn. cbn. rewrite Hs. repeat split; try done.
  apply checks_case. eapply hearth_weaken; [| |exact Hwork]; cbv beta; intros s' x [Es Hx]; cbn [HearthLogic.checks]; by rewrite Es.
Qed.

(** Taking lanes and holding them in a fiber of its own. *)
Lemma checks_hold hold run s (ok : St → nat * nat → Prop) threw :
  stand s = Open →
  (∀ n waited, let ls := normalizeLocks (h_locks hold) in
     checks (MkSt (Working n ls) (mine s) (facts s)) (run waited) (λ s' _, stand s' = Working n ls) (λ s' _, stand s' = Working n ls)) →
  (∀ fiber n s', knows_more s s' → Cancellable n ∈ facts s' → ok s' (fiber, n)) →
  checks s (holdLanes hold run) ok threw.
Proof.
  intros Hs Hrun Hok. unfold holdLanes. apply hearth_bind, checks_time. intros now. cbn [checks HearthLogic.checks]. rewrite Hs.
  eexists. split; [done|]. intros t. set (n := t_waiter t). set (ls := normalizeLocks _).
  eexists _, _. split; [by apply (splits_line _ n ls)|]. split.
  - apply checks_ensuring. apply (checks_turn _ _ _ n ls); [done|done| |intros e; by apply checks_vacate].
    eapply hearth_weaken; [| |apply (Hrun n)]; cbv beta; intros s' x Hs'; (split; [done|]); by apply checks_vacate.
  - intros f. cbn [HearthLogic.checks]. apply Hok; [|by left]. split; [by rewrite Hs|]. cbn. set_solver.
Qed.

(** Taking back the locks of what runs. *)
Lemma checks_hold_back hold s ls id todo (ok : St → nat * nat → Prop) threw :
  stand s = Boot (Some ((id, ls) :: todo)) → h_locks hold = ls → h_initiator hold = System →
  (∀ fiber n s', stand s' = booting todo → ok s' (fiber, n)) →
  checks s (holdLanes hold (λ _, awaitOperationEnd id)) ok threw.
Proof.
  intros Hs Hl Hi Hok. unfold holdLanes. apply hearth_bind, checks_time. intros now. cbn [checks HearthLogic.checks]. rewrite Hs.
  split; [eexists; by rewrite Hl, Hi|]. intros t. set (n := t_waiter t).
  eexists _, _. split; [by apply (splits_hand _ n ls id todo)|]. split.
  - apply checks_ensuring. apply (checks_reserved _ _ _ n ls id); [done|done|done|done|].
    apply checks_await_end. intros s' _. cbn [stand stands unbind]. rewrite decide_True by done. split; [done|]. by apply checks_vacate.
  - intros f. by apply Hok.
Qed.

(** ** Dispatching *)

Lemma checks_dispatch id s : checks s (dispatch durableKinds id) (as_before s) (λ _ _, False).
Proof.
  unfold dispatch. apply checks_orElse. apply hearth_bind, checks_sql; [done| |apply knows_owns].
  intros row _. pose proof (heard_same s (Load id) row I) as Hk.
  destruct row as [row|]; [|done]. destruct (has_state SRunning row) eqn:Er; [|exact Hk].
  apply bool_decide_eq_true in Er. destruct (jm_get _ _) as [d|].
  - apply hearth_bind, checks_asking; [cbn; rewrite Er; cbn; set_solver|]. intros r. cbv beta.
    destruct r as [x|e]; [|exact Hk]. apply checks_sql; [done| |exact Hk]. intros u _. exact Hk.
  - eapply hearth_weaken; [| |by apply checks_finish]; intros s' x Hs'; by eapply knows_trans.
Qed.

Lemma checks_dispatch_all ids s : checks s (dispatchDurableOperations durableKinds ids) (as_before s) (λ _ _, False).
Proof.
  unfold dispatchDurableOperations.
  apply (checks_for_each durableKinds (knows_more s) (dispatch durableKinds) ids (λ _ _, False) s); [|apply knows_refl].
  intros s' x _ Hs'. eapply hearth_weaken; [| |apply checks_dispatch]; [|done]. intros s2 u H2. by eapply knows_trans.
Qed.

Lemma checks_dispatch_soon id s (ok : St → unit → Prop) threw : ok s tt → checks s (dispatchSoon durableKinds id) ok threw.
Proof.
  intros H. unfold dispatchSoon. apply hearth_bind. eapply checks_fork; [constructor| |done].
  eapply hearth_weaken; [| |apply checks_dispatch_all]; [|done]. cbv beta. intros s' u [-> _]. done.
Qed.

Lemma checks_workflow d id s :
  in_kinds d → stand s = Free → Past id ∈ facts s → OfKind id (d_kind d) ∈ facts s →
  checks s (workflow undecodable d id) ends_well ends_well.
Proof.
  intros Hd Hs Hp Ho. unfold workflow. apply hearth_bind, checks_sql_again; [done| |by right|unfold ends_well; cbn; by rewrite Hs].
  intros row Hrow. pose proof (heard_same s (Load id) row I) as Hk. apply hearth_bind.
  assert (∀ s' exit, knows_more s s' →
    checks s' (match exit with WorkSuspended => Throws InterruptedOnly | exit => finishOperation true id (outcomeOf exit) (errorOf exit) end)
      ends_well ends_well) as Hend.
  { intros s' exit [Es _].
    assert (∀ outcome error, outcome ≠ SRunning → outcome ≠ SWaiting → checks s' (finishOperation true id outcome error) ends_well ends_well) as Hf.
    { intros outcome error ? ?. eapply hearth_weaken; [| |by apply checks_finish]; intros s2 x [E2 _]; unfold ends_well; by rewrite E2, Es, Hs. }
    destruct exit; try (by apply Hf). unfold ends_well. cbn. by rewrite Es, Hs. }
  destruct row as [row|]; [|apply checks_ret; exact (Hend _ (WorkThrew _) Hk)].
  destruct (d_decodes d (row_input row)); [|apply checks_ret; exact (Hend _ (WorkThrew _) Hk)].
  apply checks_asking; [|intros r; destruct r; [exact (Hend _ WorkSucceeded Hk)|exact (Hend _ (WorkThrew _) Hk)|exact (Hend _ WorkSuspended Hk)|exact (Hend _ WorkInterrupted Hk)]].
  specialize (Hrow row eq_refl Hp). cbn [may_ask HearthLogic.heard run_id run_held run_name]. rewrite decide_False by done.
  split; [cbn; set_solver|]. split; [done|]. split; [cbn; set_solver|]. by exists d.
Qed.

(** ** Starting *)

(** What a program of the stand [x] may record under its ID. *)
Definition may_record (d : DurableOperation) (input : Json) (state : OperationState) (x : Stand) : Prop :=
  in_kinds d ∧ (state = SWaiting ∨ state = SRunning ∧ (declared d input = [] ∨ ∃ n, x = Working n (declared d input))).

Definition recorded_state (id : string) (d : DurableOperation) (input : Json) (state : OperationState) (s : St) : St :=
  MkSt (if decide (state = SRunning) then bind id (stand s) else stand s) None
    ([HasLocks id (declared d input); WasAsked id input] ++ (if decide (state = SRunning) then [Past id] else []) ++ facts s).

Lemma checks_record id d idempotency input state actor s (ok : St → bool * string → Prop) (threw : St → Failure → Prop) :
  may_record d input state (stand s) → mine s = Some id →
  ok (recorded_state id d input state s) (false, id) → (∀ found, is_Some idempotency → ok s (true, found)) →
  (∀ m e, threw (owns m s) e) →
  checks s (recordOperation id (d_kind d) (d_version d) idempotency input (withWholes (d_locks d input)) state actor) ok threw.
Proof.
  intros [Hd Hs] Hm Hnew Hold Herr. unfold recordOperation. apply hearth_bind, checks_time. intros now.
  apply hearth_bind, checks_sql; [|intros inserted Hi|apply Herr].
  - split; [done|]. split; [by exists d|]. split; [done|]. exact Hs.
  - destruct inserted; [exact Hnew|]. apply hearth_bind, checks_sql; [done| |apply Herr]. intros found _. cbn [HearthLogic.heard].
    destruct found as [[found ?]|]; [apply Hold; specialize (Hi eq_refl); by apply bool_decide_eq_true in Hi|]. apply checks_throws. specialize (Herr (mine s)). by destruct s.
Qed.

(** [start]: recorded, and its workflow set to start unless it was there. *)
Lemma checks_start id d idempotency input actor s (ok : St → string → Prop) (threw : St → Failure → Prop) :
  may_record d input SRunning (stand s) → mine s = Some id →
  ok (recorded_state id d input SRunning s) id → (∀ found, ok s found) → (∀ m e, threw (owns m s) e) →
  checks s
    (let* recorded := recordOperation id (d_kind d) (d_version d) idempotency input (withWholes (d_locks d input)) SRunning actor in
     let* _ := (if recorded.1 then Ret tt else dispatchSoon durableKinds recorded.2) in
     Ret recorded.2) ok threw.
Proof.
  intros Hd Hm Hnew Hold Herr. apply hearth_bind, checks_record; [done|done| |intros found|done].
  - apply hearth_bind, checks_dispatch_soon. exact Hnew.
  - intros _. apply hearth_bind. exact (Hold found).
Qed.

Lemma checks_allowed kind (authorizes : bool) s (ok : St → unit → Prop) threw :
  ok s tt → (∀ e, threw s e) →
  checks s
    (if authorizes
     then let* allowed := asking (Authorize kind) in
          match (allowed : Result Failure Json) with Ok _ => Ret tt | Throw e => Throws e end
     else Ret tt) ok threw.
Proof.
  intros Hok Ht. destruct authorizes; [|done]. apply hearth_bind, checks_asking; [done|]. intros r. cbv beta.
  destruct r; [done|apply Ht].
Qed.

Lemma checks_start_durable d input actor authorizes idempotency initiator s :
  stand s = Free → in_kinds d →
  checks s (startDurableOperation durableKinds d input actor authorizes idempotency initiator) ends_well ends_well.
Proof.
  intros Hs Hd. unfold startDurableOperation.
  assert (∀ (A : Type) (x : A) m, ends_well (owns m s) x) as Hend by (intros; unfold ends_well; cbn; by rewrite Hs).
  assert (∀ (A : Type) (x : A), ends_well s x) as Hend' by (intros; unfold ends_well; by rewrite Hs).
  apply hearth_bind, checks_allowed; [|intros; apply (Hend' Failure)]. apply hearth_bind.
  assert (∀ (x : St → option (string * OperationState) → Prop), (∀ found, x s found) →
    checks s (match idempotency with Some key => findOperation (d_kind d) key | None => Ret None end) x ends_well) as Hfind.
  { intros x Hx. destruct idempotency; [|apply Hx]. apply checks_sql; [done|intros; apply Hx|apply (Hend Failure)]. }
  apply Hfind. clear Hfind. intros found. destruct found as [[found ?]|]; [apply Hend'|].
  apply hearth_bind. intros id. apply hearth_bind. unfold awaitLanesOpen. cbn [HearthLogic.checks].
  split; [|apply (Hend Failure)]. set (o := stands (opened _) _).
  assert (stand o = Open ∧ mine o = Some id) as [Ho Hm] by (cbn; by rewrite Hs).
  assert (∀ (A : Type) (x : A) m, ends_well (owns m o) x) as Hendo by (intros; unfold ends_well; cbn; by rewrite Hs).
  destruct (withWholes (d_locks d input)) as [|l ls] eqn:El.
  { rewrite <-El. apply checks_start; auto.
    - split; [done|]. right. split; [done|]. by left.
    - unfold ends_well. cbn. by rewrite Hs.
    - intros found. exact (Hendo _ found (mine o)). }
  rewrite <-El. apply hearth_bind. intros now M. exists o. split; [by constructor; auto|]. apply hearth_bind, hearth_look.
  intros upto. apply hearth_bind, checks_hold; [done| |].
  - intros n waited. cbv zeta. cbn [h_locks]. rewrite withWholes_normal, Hm. set (w := MkSt _ _ _).
    assert (∀ id' (k : St → unit → Prop) threw, (∀ s', stand s' = Working n (withWholes (d_locks d input)) → k s' tt) →
      ∀ s', stand s' = Working n (withWholes (d_locks d input)) ∨ stand s' = Bound n (withWholes (d_locks d input)) id' →
      checks s' (awaitOperationEnd id') k threw) as Hend2.
    { intros id' k threw Hk s' Hs'. apply checks_await_end. intros s2 _. apply Hk. cbn.
      destruct Hs' as [-> | ->]; cbn; [done|]. by rewrite decide_True. }
    apply hearth_bind.
    assert (∀ (x : St → unit → Prop) (t : St → Failure → Prop), x w tt → (∀ e, t w e) →
      checks w (if waited then
        (if authorizes then let* allowed := asking (Authorize (d_kind d)) in
          match (allowed : Result Failure Json) with Ok _ => Ret tt | Throw e => Throws e end else Ret tt) else Ret tt) x t) as Hagain.
    { intros x t Hx Ht. destruct waited; [by apply checks_allowed|done]. }
    apply Hagain; [|done]. apply hearth_bind, checks_start; [|done| |intros found|done].
    + split; [done|]. right. split; [done|]. right. by exists n.
    + apply hearth_bind, checks_view; [by repeat split; auto|]. apply Hend2; [done|]. right. done.
    + apply hearth_bind, checks_view; [by repeat split; auto|]. apply Hend2; [done|]. by left.
  - intros fiber n s' [Es _] Hc. cbn [HearthLogic.checks]. split; [done|]. unfold ends_well. by rewrite Es, Ho.
Qed.

(** ** Queued operations *)

(** Outside of what it holds until an operation ends. *)
Definition unbound (x : Stand) : Prop := match x with Bound _ _ _ => False | _ => True end.

Lemma unbind_bind id x : unbound x → unbind id (bind id x) = x.
Proof. destruct x; try done. cbn. by rewrite decide_True. Qed.

Lemma unbind_unbound id x : unbound x → unbind id x = x.
Proof. by destruct x. Qed.

Definition standing {A} (s s' : St) (_ : A) : Prop := stand s' = stand s.

Lemma checks_start_queued waiting ls s :
  HasLocks (q_id waiting) ls ∈ facts s → unbound (stand s) → (ls = [] ∨ ∃ n, stand s = Working n ls) →
  checks s (startQueued durableKinds waiting) (standing s) (standing s).
Proof.
  intros Hl Hu Hs. unfold startQueued. apply hearth_bind, checks_asking; [done|]. intros ready. cbv beta.
  destruct ready; [|done]. apply hearth_bind, checks_time. intros now.
  apply hearth_bind, checks_sql_again; [by exists ls| |by right|done]. intros b _. cbn [HearthLogic.heard].
  destruct b; [|done]. apply hearth_bind, checks_dispatch_soon, checks_await_end. intros s' _. apply unbind_bind, Hu.
Qed.

Lemma checks_release_place id place s (ok : St → unit → Prop) threw : ok s tt → checks s (release_place id place) ok threw.
Proof. intros. apply checks_view; [|done]. intros now M. case_decide; cbn; auto 10. Qed.

Lemma checks_ensuring_release {A} (op : Op A) id place s :
  checks s op (λ s' _, may_end (stand s')) (λ s' _, may_end (stand s')) →
  checks s (ensuring op (release_place id place)) (λ s' _, may_end (stand s')) (λ s' _, may_end (stand s')).
Proof.
  intros H. apply checks_ensuring. eapply hearth_weaken; [| |exact H]; intros s' x Hs'; by apply checks_release_place.
Qed.

Lemma checks_take_turn waiting s :
  stand s = Open → HasLocks (q_id waiting) (q_locks waiting) ∈ facts s → q_locks waiting = normalizeLocks (q_locks waiting) →
  checks s (takeTurn durableKinds waiting) (as_before s) (as_before s).
Proof.
  intros Hs Hl Hn. unfold takeTurn. apply hearth_bind. intros now M. exists s. split.
  { destruct (m_queuedHolders M !! q_id waiting); (constructor; try done); [by auto|]. cbn. intros p n Hp. left.
    apply lookup_app_Some in Hp as [Hp|[_ Hp]]; [done|]. apply list_lookup_singleton_Some in Hp as [_ ?]. done. }
  set (reserved := match m_queuedHolders M !! q_id waiting with Some _ => None | None => _ end).
  cbn [HearthLogic.checks]. destruct reserved as [place|]; [|apply knows_refl].
  destruct (q_locks waiting) as [|l ls] eqn:El.
  { apply hearth_bind. eapply checks_fork; [constructor| |done]. apply checks_ensuring_release.
    eapply hearth_weaken; [| |apply (checks_start_queued waiting []); [done|done|by left]];
      unfold standing; cbn; intros s' x ->; done. }
  rewrite <-El in *. apply hearth_bind, checks_hold; [done| |].
  - intros n waited. cbv zeta. cbn [h_locks]. rewrite <-Hn.
    eapply hearth_weaken; [| |apply (checks_start_queued waiting (q_locks waiting)); [done|done|right; by exists n]]; unfold standing; cbn; auto.
  - intros fiber n s' Hk Hc. apply hearth_bind, checks_view.
    { intros t M'. cbn. repeat split. intros p m Hp. apply list_lookup_insert_Some in Hp as [(_ & [= <-] & _)|[_ Hp]]; auto. }
    apply hearth_bind. eapply checks_fork; [constructor| |].
    { apply checks_ensuring_release. done. }
    intros f. apply hearth_bind, checks_orElse.
    assert (∀ (row : option Row) s2, knows_more s s2 → checks s2
      (match row with
       | Some row => if has_state SWaiting row then Ret tt else change (λ _, withdraw_place place)
       | None => Ret tt
       end) (as_before s) (as_before s)) as Hlast.
    { intros row s2 H2. destruct row as [row|]; [|done]. destruct (has_state SWaiting row); [done|].
      intros now2 M2. exists s2. split; [apply ms_withdraw|done]. }
    apply checks_sql; [done|intros row _|].
    + apply Hlast. eapply knows_trans; [exact Hk|]. apply (heard_same s' (Load (q_id waiting)) row I).
    + apply Hlast. eapply knows_trans; [exact Hk|apply knows_owns].
Qed.

Lemma checks_queue_pass left_ d queue_key input s :
  in_kinds d →
  checks s
    (queue_pass left_ (d_kind d) (d_version d) queue_key input (withWholes (d_locks d input)) (joining d (withWholes (d_locks d input))))
    (λ s' r, knows_more s s' ∧ WasAsked r.1 input ∈ facts s' ∧ (r.2 = false → HasLocks r.1 (declared d input) ∈ facts s'))
    (as_before s).
Proof.
  intros Hd. revert s. induction left_ as [|left_ IH]; intros s; cbn [queue_pass]; [apply knows_refl|].
  apply hearth_bind, checks_time. intros now. apply hearth_bind. intros id. apply hearth_bind, checks_sql.
  - split; [done|]. split; [by exists d|]. split; [done|]. by left.
  - intros inserted _. destruct inserted.
    + cbn [HearthLogic.checks HearthLogic.heard]. rewrite decide_False by done. split; [split; [done|cbn; set_solver]|]. cbn. set_solver.
    + apply hearth_bind, checks_sql; [by exists d| |done]. intros joined _. cbn [HearthLogic.heard]. destruct joined as [|id'|].
      * eapply hearth_weaken; [| |apply IH]; cbv beta; [intros s' r (H1 & H2); split; [|done]|intros s' e H1]; by eapply knows_trans.
      * cbn [HearthLogic.checks]. split; [split; [done|cbn; set_solver]|]. cbn. split; [set_solver|done].
      * done.
  - done.
Qed.

Lemma checks_queue_durable d input actor queue_key idempotency s :
  stand s = Free → in_kinds d →
  checks s (queueDurableOperation durableKinds d input actor queue_key idempotency)
    (λ s' id, may_end (stand s') ∧ (idempotency = None → WasAsked id input ∈ facts s')) ends_well.
Proof.
  intros Hs Hd. unfold queueDurableOperation. apply hearth_bind.
  assert (∀ s' id (joined : bool), stand s' = Free → (joined = false → HasLocks id (declared d input) ∈ facts s') →
    (idempotency = None → WasAsked id input ∈ facts s') →
    checks s'
      (let* _ := (if joined then Ret tt
        else let* _ := fork (let* _ := lanesOpen in
               takeTurn durableKinds (MkQueued actor (d_doing d input) id (withWholes (d_locks d input)) (d_kind d))) in Ret tt) in
       Ret id)
      (λ s' id, may_end (stand s') ∧ (idempotency = None → WasAsked id input ∈ facts s')) ends_well) as Hrest.
  { intros s' id joined Es Hl Ha. apply hearth_bind. destruct joined; [by cbn; rewrite Es|]. apply hearth_bind.
    eapply checks_fork; [constructor| |by cbn; rewrite Es]. apply hearth_bind. cbn [HearthLogic.checks lanesOpen awaitLanesOpen].
    split; [|done].
    eapply hearth_weaken; [| |apply checks_take_turn; [done|by apply Hl|symmetry; apply withWholes_normal]];
      intros s2 x [E2 _]; by rewrite E2. }
  assert (∀ (A : Type) (x : A) m, ends_well (owns m s) x) as Hend by (intros; unfold ends_well; cbn; by rewrite Hs).
  destruct queue_key as [queue_key|].
  - unfold queueOperation. eapply hearth_weaken; [| |apply checks_queue_pass, Hd]; cbv beta.
    + intros s' [id joined] ((E & _) & Ha & Hl). apply Hrest; [congruence|by auto|done].
    + intros s' e [E _]. unfold ends_well. by rewrite E, Hs.
  - apply hearth_bind. intros id. apply hearth_bind, checks_record.
    + split; [done|]. by left.
    + done.
    + cbn [HearthLogic.checks]. apply Hrest; unfold recorded_state; cbn; [by rewrite decide_False|set_solver..].
    + intros found [key ->]. cbn [HearthLogic.checks]. by apply Hrest.
    + intros m e. apply (Hend Failure).
Qed.

Lemma checks_cancel_queued id s (ok : St → bool → Prop) (threw : St → Failure → Prop) :
  (∀ b, ok s b) → (∀ m e, threw (owns m s) e) → checks s (cancelQueuedOperation id) ok threw.
Proof.
  intros Hok Herr. unfold cancelQueuedOperation. apply hearth_bind, checks_time. intros now.
  apply hearth_bind, checks_sql; [done| |apply Herr]. intros b _. cbn [HearthLogic.heard]. apply hearth_bind.
  destruct b; [|apply Hok]. intros t M. exists s. split; [|apply Hok].
  destruct (m_queuedHolders M !! id); [apply ms_withdraw|by constructor; auto].
Qed.

(** ** Startup and sweeps *)

Lemma locks_of_row_normal row : normalizeLocks (locks_of_row row) = locks_of_row row.
Proof. apply withWholes_normal. Qed.

Lemma checks_readmit s :
  stand s = Open → checks s (readmitWaitingOperations durableKinds) (as_before s) (as_before s).
Proof.
  intros Hs. unfold readmitWaitingOperations. apply hearth_bind, checks_sql; [done| |apply knows_owns].
  intros rows _. cbn [HearthLogic.heard]. set (s0 := learns _ s).
  eapply hearth_weaken; [| |apply (checks_for_each durableKinds (knows_more s0) _ rows (as_before s))].
  - intros s' u H. eapply knows_trans; [apply knows_learns|exact H].
  - done.
  - intros s' entry Hin H'. eapply hearth_weaken; [| |apply checks_take_turn].
    + intros s2 u H2. by eapply knows_trans.
    + intros s2 e H2. eapply knows_trans; [apply knows_learns|by eapply knows_trans].
    + by rewrite (proj1 H').
    + apply (knows_in _ s0 _ H'). apply elem_of_app. left. apply list_elem_of_fmap. by exists entry.
    + symmetry. apply locks_of_row_normal.
  - apply knows_refl.
Qed.

(** What is left to take back after some of it was. *)
Lemma booting_left entry rows s :
  stand s = booting (left_running durableKinds (entry :: rows)) →
  match locks_of_row entry.2 with
  | [] => stand s = booting (left_running durableKinds rows)
  | ls => stand s = Boot (Some ((entry.1, ls) :: left_running durableKinds rows))
  end.
Proof. cbn. intros ->. by destruct (locks_of_row entry.2). Qed.

Lemma checks_restores rows : ∀ s (threw : St → Failure → Prop),
  stand s = booting (left_running durableKinds rows) →
  checks s (for_each rows (restore_one durableKinds)) (λ s' _, stand s' = Open) threw.
Proof.
  induction rows as [|[id row] rows IH]; intros s threw Hs; [done|]. cbn [for_each]. apply hearth_bind. apply booting_left in Hs. cbn in Hs.
  unfold restore_one. destruct (locks_of_row row) as [|l ls]; [by apply IH|]. apply hearth_bind.
  eapply checks_hold_back; [exact Hs|done..|]. intros fiber n s' Es. by apply IH.
Qed.

Lemma checks_restores_open rows : ∀ s (threw : St → Failure → Prop),
  stand s = Open → checks s (for_each rows (restore_one durableKinds)) (λ s' _, stand s' = Open) threw.
Proof.
  intros s threw. apply (checks_for_each durableKinds (λ s, stand s = Open)). intros s' [id row] _ Hs. unfold restore_one.
  destruct (locks_of_row row) as [|l ls]; [done|]. apply hearth_bind, checks_hold; [done| |].
  - intros n waited. cbv zeta. apply checks_await_end. done.
  - intros fiber n s2 [E _] _. cbn. congruence.
Qed.

Lemma checks_startup s :
  stand s = Boot None ∨ stand s = Open → checks s (startOperationsEngine durableKinds) ends_well ends_well.
Proof.
  intros Hs. unfold startOperationsEngine, restoreLockingOperations. apply hearth_bind, hearth_bind, checks_sql; [done| |].
  2:{ unfold ends_well. cbn. by destruct Hs as [-> | ->]. }
  intros rows _. cbn [HearthLogic.heard].
  assert (∀ s, stand s = Open → checks s (readmitWaitingOperations durableKinds)
    (λ s' _, checks s' (change (λ _, set_ready true)) ends_well ends_well) ends_well) as Hrest.
  { intros s' Es. eapply hearth_weaken; [| |by apply checks_readmit].
    - intros s2 u [E2 _] now M. exists s2. split; [apply ms_ready; congruence|]. unfold ends_well. cbn. by rewrite E2, Es.
    - intros s2 e [E2 _]. unfold ends_well. by rewrite E2, Es. }
  apply hearth_bind. destruct Hs as [Hs|Hs]; rewrite Hs.
  - eapply hearth_weaken; [|done|by apply checks_restores]. intros s' u. apply Hrest.
  - eapply hearth_weaken; [|done|by apply checks_restores_open]. intros s' u. apply Hrest.
Qed.

Lemma checks_sweep sweep s :
  stand s = Open → checks s (sweep_op durableKinds sweep) ends_well ends_well.
Proof.
  intros Hs.
  assert (∀ (A : Type) (x : A) s', knows_more s s' → ends_well s' x) as Hend by (intros A x s' [E _]; unfold ends_well; by rewrite E, Hs).
  destruct sweep as [| |passes cutoff]; cbn [sweep_op].
  - eapply hearth_weaken; [| |by apply checks_readmit]; intros s' x; apply Hend.
  - apply hearth_bind, checks_sql; [done| |apply (Hend Failure), knows_owns]. intros ids _. cbn [HearthLogic.heard].
    eapply hearth_weaken; [| |apply checks_dispatch_all]; [intros s' x; apply Hend|done].
  - eapply hearth_weaken; [| |apply checks_forgets]; intros s' x; apply Hend.
Qed.
End Checks.

Section Runs.
Context (durableKinds : list (string * DurableOperation)) (undecodable : JsString).
Notation checks := (checks durableKinds).
Context (definition : Operation) (input : Json) (caller : OperationCaller).
Notation needed := (needed definition input caller).

(** What a fiber may run work under. *)
Definition runs_under (x : Stand) (held : list LaneLock) : Prop :=
  keeps_wholes held ∧ match x with Working _ ls => held = ls | Nested ls => held = ls | _ => False end.

Lemma checks_authorize s (ok : St → Json → Prop) threw :
  (∀ context, ok s context) → (∀ e, threw s e) → checks s (authorize definition) ok threw.
Proof.
  intros Hok Ht. unfold authorize. destruct (o_authorizes definition); [|apply Hok].
  apply hearth_bind, checks_asking; [done|]. intros r. cbv beta. destruct r; [apply Hok|apply Ht].
Qed.

Lemma checks_after id context exit s (ok : St → unit → Prop) threw :
  ok s tt → checks s (afterRun definition input caller id context exit) ok threw.
Proof.
  intros Hok. unfold afterRun. apply hearth_bind.
  assert (∀ k : St → unit → Prop, k s tt → checks s (if o_publishes definition then asking (Publish (o_name definition)) else Ret tt) k threw) as Hp.
  { intros k Hk. destruct (o_publishes definition); [|done]. apply checks_asking; [done|]. intros r. cbv beta. by destruct r. }
  apply Hp. destruct (o_audits _ _ _); [|done]. apply hearth_bind. eapply checks_fork; [constructor| |done].
  by apply checks_asking.
Qed.

Lemma checks_ends id context exit s (ok : St → unit → Prop) threw :
  ok s tt → (∀ e, threw s e) → checks s (ends definition input caller id context exit) ok threw.
Proof.
  intros Hok Ht. unfold ends. apply hearth_bind.
  destruct exit as [u|[]]; try (apply checks_after; [done||apply Ht]); apply Ht.
Qed.

Lemma checks_works id initiator held context s (ok : St → unit → Prop) threw :
  runs_under (stand s) held → uncovered (needed context) held = [] → ok s tt → (∀ e, threw s e) →
  checks s (works definition input caller id initiator held context) ok threw.
Proof.
  intros [Hk Hs] Hun Hok Ht. unfold works. apply hearth_bind, checks_asking; [|intros r; by apply checks_ends].
  split; [exact Hun|]. split; [exact Hk|]. exact Hs.
Qed.

Lemma checks_run id initiator context held waited label s (ok : St → unit → Prop) threw :
  runs_under (stand s) held → uncovered (needed context) held = [] → ok s tt → (∀ e, threw s e) →
  checks s (run definition input caller id initiator context held waited label) ok threw.
Proof.
  intros Hr Hun Hok Ht. unfold run. apply checks_ensuring.
  assert (∀ (k : St → unit → Prop) t, k s tt → checks s (match label with Some label => vacate label | None => Ret tt end) k t) as Hv.
  { intros k t Hk. destruct label; [by apply checks_vacate|done]. }
  apply hearth_bind.
  assert (∀ (k : St → unit → Prop) t, k s tt → checks s (match label with Some label => change (mark_started label) | None => Ret tt end) k t) as Hm.
  { intros k t Hk. destruct label; [|done]. apply checks_view; [|done]. intros now M. cbn. repeat split; auto. }
  apply Hm. destruct (waited && o_authorizes definition).
  - apply hearth_bind, checks_asking; [done|]. intros r. cbv beta. destruct r as [context'|e].
    + destruct (uncovered (needed context') held) eqn:Hun'; [|by apply Hv].
      by apply checks_works; [|done|apply Hv|intros e; apply Hv].
    + by apply checks_ends; [apply Hv|intros e'; apply Hv].
  - by apply checks_works; [|done|apply Hv|intros e; apply Hv].
Qed.

Lemma checks_leave_view label s (ok : St → unit → Prop) threw : ok s tt → checks s (leave_view label) ok threw.
Proof.
  intros. apply checks_view; [|done]. intros now M. destruct (m_occupants M !! label) as [o|]; [|by auto 10].
  destruct (oc_startedAt o); cbn; auto 10.
Qed.

(** Where a run starts from: on its own, or inside its parent's work. *)
Definition starts_from (parent : option RunningOperation) (x : Stand) : Prop :=
  match parent with
  | None => x = Free ∨ x = Open
  | Some parent => x = Nested (run_held parent) ∧ keeps_wholes (run_held parent)
  end.

Lemma checks_attempt parent waitUntil s :
  starts_from parent (stand s) →
  checks s (attempt definition input caller parent waitUntil)
    (λ s' _, starts_from parent (stand s')) (λ s' _, starts_from parent (stand s')).
Proof.
  intros Hs. unfold attempt. apply hearth_bind. intros id. apply hearth_bind, hearth_look. intros at_. cbv zeta.
  apply hearth_bind, checks_authorize; [|done]. intros context. destruct parent as [parent|].
  { destruct (uncovered (needed context) (run_held parent)) eqn:Hun; [|done].
    destruct Hs as [Es Hk]. apply checks_run; [|done|done|done]. split; [done|]. cbn. by rewrite Es. }
  apply hearth_bind. unfold awaitLanesOpen. cbn [HearthLogic.checks]. split; [|done].
  assert (opened (stand s) = Open) as Ho by (by destruct Hs as [-> | ->]).
  cbn [stand stands owns]. rewrite Ho. eexists. split; [done|]. intros t. set (n := t_waiter t).
  set (ls := normalizeLocks _). set (line := stands (InLine n ls) _).
  assert (ls = needed context) as El by apply withWholes_normal.
  apply checks_ensuring. apply (checks_turn durableKinds _ _ line n ls); [done|done| |].
  - apply checks_run.
    + split; [apply withWholes_keeps|done].
    + apply uncovered_self.
    + split; [done|]. apply checks_leave_view. by left.
    + intros e. split; [done|]. apply checks_leave_view. by left.
  - intros e. apply checks_leave_view. by left.
Qed.

Lemma checks_attempts times parent waitUntil : ∀ s,
  starts_from parent (stand s) →
  checks s (attempts definition input caller times parent waitUntil)
    (λ s' _, starts_from parent (stand s')) (λ s' _, starts_from parent (stand s')).
Proof.
  induction times as [|times IH]; intros s Hs; cbn [attempts]; apply checks_orElse;
    (eapply hearth_weaken; [| |by apply checks_attempt]); cbv beta; [done| |done|];
    intros s' e Hs'; destruct e; try done. by apply IH.
Qed.

Lemma starts_ends parent x : starts_from parent x → may_end x.
Proof. destruct parent; [by intros [-> _]|by intros [-> | ->]]. Qed.

Lemma checks_run_operation parent s :
  starts_from parent (stand s) → checks s (runOperation definition input caller parent) ends_well ends_well.
Proof.
  intros Hs. unfold runOperation. apply hearth_bind, hearth_look. intros upto.
  eapply hearth_weaken; [| |by apply checks_attempts]; intros s' x; by apply starts_ends.
Qed.
End Runs.

(** ** Calls *)

Lemma jm_get_snd {A} k (m : list (string * A)) x : jm_get k m = Some x → x ∈ m.*2.
Proof. induction m as [|[k' y] m IH]; cbn; [done|]. case_decide; [intros [= ->]; by left|]. intros Hx. right. by apply IH. Qed.

Lemma checks_call durableKinds call op s :
  stand s = Free → op_of durableKinds call = Some op → checks durableKinds s op ends_well ends_well.
Proof.
  intros Hs. destruct call as [kind input actor authorizes idempotency initiator|kind input actor queue_key idempotency|id|definition input caller];
    cbn [op_of].
  - intros (d & Hd%jm_get_snd & ->)%fmap_Some. apply hearth_bind.
    eapply hearth_weaken; [| |by apply checks_start_durable]; done.
  - intros (d & Hd%jm_get_snd & ->)%fmap_Some. apply hearth_bind.
    eapply hearth_weaken; [| |by apply checks_queue_durable]; [|done]. cbv beta. intros s' id [Hend Ha].
    destruct idempotency; [done|]. split; [by apply Ha|done].
  - intros [= <-]. apply hearth_bind, checks_cancel_queued.
    + intros b. unfold ends_well. cbn. by rewrite Hs.
    + intros m e. unfold ends_well. cbn. by rewrite Hs.
  - intros [= <-]. apply checks_run_operation. by left.
Qed.
