(* ===== verification/HearthInv.v ===== *)
(** * The invariant of Hearth's operations

    What holds of a world and of the states its fibers are in ([HearthLogic]),
    in parts: the records and who drew which ID ([books]), what fibers learned
    ([holds]), who holds which ticket ([lanes_ok]), the deferreds of endings
    ([endings_ok]), and who holds the locks of what runs ([phase_ok]): nobody
    before the lanes open, then the fibers that took them back, then one fiber
    for each operation. And how each part outlives what others change. *)
From S2P Require Import Prelude Operations Locks Grants Lanes LanesInv LanesGrant LanesSteps LanesFacts Plans Bytes Utf8.
From S2P Require Import HearthLanes HearthRecords HearthMonad HearthPrograms HearthWorld HearthTickets HearthLogic.

(** ** Records *)

Section Books.
Context (durableKinds : list (string * DurableOperation)).

(** One definition of each kind, named as it is registered, whose joined
    inputs need the same locks. *)
Record kinds_ok : Prop := {
  one_each : NoDup (d_kind <$> durableKinds.*2);
  named : ∀ name d, (name, d) ∈ durableKinds → name = kind_key (d_kind d) (d_version d);
  joins_locks : ∀ d waiting asked, d ∈ durableKinds.*2 → d_decodes d waiting = true →
    declared d waiting = declared d asked → declared d (d_join d waiting asked) = declared d asked;
}.

Definition asks_of (id : string) (asked : list (string * (string * Json))) : list (string * Json) :=
  snd <$> filter (λ entry, entry.1 = id) asked.

(** The first of what was asked, joined by each of the rest in turn. *)
Definition folded (asked : list (string * (string * Json))) (id : string) (d : DurableOperation) (input : Json) : Prop :=
  ∃ x xs, asks_of id asked = (λ x, (d_kind d, x)) <$> (x :: xs) ∧ input = fold_left (d_join d) xs x.

(** An ID that is out: no fiber keeps it to itself. *)
Definition known (ids : gset string) (own : gmap nat (option string)) (id : string) : Prop :=
  id ∈ ids ∧ ∀ f, own !! f ≠ Some (Some id).

Definition every_row (T : Tables) (id : string) (P : Row → Prop) : Prop := ∀ row, t_rows T !! id = Some row → P row.

Definition past T ids own id : Prop := known ids own id ∧ every_row T id (λ row, row_state row ≠ SWaiting).
Definition over T ids own id : Prop := known ids own id ∧ every_row T id (λ row, is_open row = false).

Definition row_ok (ids : gset string) asked (id : string) (row : Row) : Prop :=
  id ∈ ids ∧ (row_queue row ≠ None → row_state row = SWaiting) ∧
  ∃ d, d ∈ durableKinds.*2 ∧ d_kind d = row_kind row ∧ declared d (row_input row) = row_locks row ∧ folded asked id d (row_input row).

Record books (T : Tables) (ids : gset string) (asked : list (string * (string * Json))) (executed : gmap string string)
    (answered : list (string * Json)) (own : gmap nat (option string)) : Prop := {
  b_rows : ∀ id row, t_rows T !! id = Some row → row_ok ids asked id row;
  b_own : ∀ f id, own !! f = Some (Some id) → id ∈ ids ∧ t_rows T !! id = None ∧ asks_of id asked = [];
  b_once : ∀ f g id, own !! f = Some (Some id) → own !! g = Some (Some id) → f = g;
  b_asked : ∀ entry, entry ∈ asked → entry.1 ∈ ids;
  b_executed : ∀ id name, executed !! id = Some name →
    past T ids own id ∧ ∃ kind version x, name = kind_key kind version ∧ (id, (kind, x)) ∈ asked;
  b_answered : ∀ id x, (id, x) ∈ answered → ∃ kind, (id, (kind, x)) ∈ asked;
}.

Lemma asks_elem id asked x : x ∈ asks_of id asked ↔ (id, x) ∈ asked.
Proof.
  unfold asks_of. rewrite list_elem_of_fmap. split.
  - intros ([id' y] & -> & [E Hin]%list_elem_of_filter). cbn in E. by subst id'.
  - intros Hin. exists (id, x). split; [done|]. by apply list_elem_of_filter.
Qed.

Lemma asks_app id asked more : asks_of id (asked ++ more) = asks_of id asked ++ asks_of id more.
Proof. unfold asks_of. by rewrite filter_app, fmap_app. Qed.

Lemma asks_one id id' x : asks_of id [(id', x)] = if decide (id' = id) then [x] else [].
Proof. unfold asks_of. cbn. by case_decide. Qed.

Lemma row_known T ids asked executed answered own id row :
  books T ids asked executed answered own → t_rows T !! id = Some row → known ids own id.
Proof.
  intros B Hr. split; [by apply (b_rows _ _ _ _ _ _ B _ _ Hr)|]. intros f Hf. apply (b_own _ _ _ _ _ _ B) in Hf. destruct_and?. congruence.
Qed.

Lemma asked_known T ids asked executed answered own id x :
  books T ids asked executed answered own → (id, x) ∈ asked → known ids own id.
Proof.
  intros B Hx. split; [by apply (b_asked _ _ _ _ _ _ B (id, x))|]. intros f Hf. apply (b_own _ _ _ _ _ _ B) in Hf as (_ & _ & Hf).
  apply asks_elem in Hx. rewrite Hf in Hx. in_nil Hx.
Qed.

(** ** Facts *)

Definition reserves (x : Stand) (n : nat) : Prop := match x with Reserved m _ _ | Handing m _ _ _ => m = n | _ => False end.

Definition cancellable (L : Lanes) (st : gmap nat Stand) (n : nat) : Prop :=
  (n < next L)%nat ∧ ∀ f x, st !! f = Some x → ¬ reserves x n.

Definition holds (W : World) (own : gmap nat (option string)) (st : gmap nat Stand) (x : Fact) : Prop :=
  let T := w_tables W in let ids := w_ids W in
  match x with
  | HasLocks id ls => known ids own id ∧ every_row T id (λ row, row_locks row = ls)
  | Past id => past T ids own id
  | Ended id => over T ids own id
  | Reads id input => past T ids own id ∧ ∃ d, d ∈ durableKinds.*2 ∧ folded (w_asked W) id d input
  | Cancellable n => cancellable (m_lanes (w_memory W)) st n
  | EndsWith d id => ∃ e, m_ended (w_memory W) !! d = Some e ∧ en_operation e = id
  | WasAsked id x => ∃ kind, (id, (kind, x)) ∈ w_asked W
  | OfKind id kind => ∃ x, (id, (kind, x)) ∈ w_asked W
  end.

(** What may happen to a world, as facts see it. *)
Record grows (W : World) (own : gmap nat (option string)) (st : gmap nat Stand)
    (W' : World) (own' : gmap nat (option string)) (st' : gmap nat Stand) : Prop := {
  gr_known : ∀ id, known (w_ids W) own id → known (w_ids W') own' id;
  gr_rows : ∀ id row', known (w_ids W) own id → t_rows (w_tables W') !! id = Some row' →
    ∃ row, t_rows (w_tables W) !! id = Some row ∧ moves row row';
  gr_asks : ∀ id, past (w_tables W) (w_ids W) own id → asks_of id (w_asked W') = asks_of id (w_asked W);
  gr_asked : w_asked W ⊆ w_asked W';
  gr_cancel : ∀ n, cancellable (m_lanes (w_memory W)) st n → cancellable (m_lanes (w_memory W')) st' n;
  gr_ended : ∀ d e, m_ended (w_memory W) !! d = Some e → ∃ e', m_ended (w_memory W') !! d = Some e' ∧ en_operation e' = en_operation e;
}.

Lemma moves_past row row' : moves row row' → row_state row ≠ SWaiting → row_state row' ≠ SWaiting.
Proof. destruct 1; cbn; congruence. Qed.

Lemma moves_closed row row' : moves row row' → is_open row = false → is_open row' = false.
Proof.
  destruct 1 as [| |row now Hs|row input now Hs|]; try done; [congruence|..]; unfold is_open, has_state; rewrite Hs; done.
Qed.

Lemma past_grows W own st W' own' st' id :
  grows W own st W' own' st' → past (w_tables W) (w_ids W) own id → past (w_tables W') (w_ids W') own' id.
Proof.
  intros G [Hk Hp]. split; [by apply (gr_known _ _ _ _ _ _ G)|]. intros row' Hr'.
  destruct (gr_rows _ _ _ _ _ _ G _ _ Hk Hr') as (row & Hr & Hm). eapply moves_past; [exact Hm|]. by apply Hp.
Qed.

Lemma over_grows W own st W' own' st' id :
  grows W own st W' own' st' → over (w_tables W) (w_ids W) own id → over (w_tables W') (w_ids W') own' id.
Proof.
  intros G [Hk Hp]. split; [by apply (gr_known _ _ _ _ _ _ G)|]. intros row' Hr'.
  destruct (gr_rows _ _ _ _ _ _ G _ _ Hk Hr') as (row & Hr & Hm). eapply moves_closed; [exact Hm|]. by apply Hp.
Qed.

Lemma holds_grows W own st W' own' st' x :
  grows W own st W' own' st' → holds W own st x → holds W' own' st' x.
Proof.
  intros G. destruct x; cbn.
  - intros [Hk Hl]. split; [by apply (gr_known _ _ _ _ _ _ G)|]. intros row' Hr'.
    destruct (gr_rows _ _ _ _ _ _ G _ _ Hk Hr') as (row & Hr & Hm). apply moves_locks in Hm as [-> _]. by apply Hl.
  - by eapply past_grows.
  - by eapply over_grows.
  - intros (Hp & d & Hd & Hf). split; [by eapply past_grows|]. exists d. split; [done|]. unfold folded.
    by rewrite (gr_asks _ _ _ _ _ _ G).
  - apply (gr_cancel _ _ _ _ _ _ G).
  - intros (e & He & <-). by apply (gr_ended _ _ _ _ _ _ G).
  - intros [kind Hk]. exists kind. by apply (gr_asked _ _ _ _ _ _ G).
  - intros [y Hk]. exists y. by apply (gr_asked _ _ _ _ _ _ G).
Qed.

(** ** Statements *)

(** What a fiber's statement did to the records: what it asked of which
    operation, and which one it set running. *)
Inductive commits (s : St) (T : Tables) : Tables → list (string * (string * Json)) → option string → Prop :=
  | cm_fewer T' : t_rows T' ⊆ t_rows T → commits s T T' [] None
  | cm_moved id row row' :
      t_rows T !! id = Some row → moves row row' → row_input row' = row_input row →
      (row_queue row' ≠ None → row_state row' = SWaiting) → (row_state row' = SRunning → row_state row = SRunning) →
      commits s T (put id row' T) [] None
  | cm_started id row now :
      t_rows T !! id = Some row → row_state row = SWaiting → commits s T (put id (started_row now row) T) [] (Some id)
  | cm_joined id row d asked now :
      t_rows T !! id = Some row → row_state row = SWaiting → d ∈ durableKinds.*2 → d_kind d = row_kind row →
      d_decodes d (row_input row) = true → declared d (row_input row) = declared d asked →
      commits s T (put id (joined_row (d_join d (row_input row) asked) now row) T) [(id, (d_kind d, asked))] None
  | cm_inserted id row d :
      mine s = Some id → t_rows T !! id = None → d ∈ durableKinds.*2 → d_kind d = row_kind row →
      declared d (row_input row) = row_locks row → (row_queue row ≠ None → row_state row = SWaiting) →
      commits s T (put id row T) [(id, (row_kind row, row_input row))] (if decide (row_state row = SRunning) then Some id else None).

Lemma taken_none id row T : taken id row T = false → t_rows T !! id = None.
Proof.
  unfold taken. intros [[H _]%orb_false_iff _]%orb_false_iff. apply bool_decide_eq_false in H. by apply eq_None_not_Some.
Qed.

Lemma ended_moved id row state error now s T :
  t_rows T !! id = Some row → is_open row = true → state ≠ SRunning → state ≠ SWaiting →
  commits s T (put id (ended_row state error now row) T) [] None.
Proof. intros. apply (cm_moved s T id row); try done. by constructor. Qed.

Lemma forgets_fewer (ids : list string) (rows : gmap string Row) : foldr delete rows ids ⊆ rows.
Proof. induction ids as [|id ids IH]; [done|]. cbn. etrans; [apply delete_subseteq|done]. Qed.

Lemma joining_some d locks waiting asked input :
  joining d locks waiting asked = Some input →
  d_decodes d waiting = true ∧ declared d waiting = locks ∧ input = d_join d waiting asked.
Proof.
  unfold joining. destruct (d_decodes d waiting && _) eqn:E; [|done]. intros [= <-].
  apply andb_true_iff in E as [E1 E2%bool_decide_eq_true]. done.
Qed.

Lemma apply_commits st s T T' a ids asked executed answered own :
  books T ids asked executed answered own → may_run durableKinds s st → apply st T = Some (T', a) →
  commits s T T' (asked_by st a)
    (match st return answer st → option string with
     | Insert id row _ => λ inserted : bool, if inserted then if decide (row_state row = SRunning) then Some id else None else None
     | Start id _ => λ started : bool, if started then Some id else None
     | _ => λ _, None
     end a).
Proof.
  intros B Hrun. pose proof (cm_fewer s T T ltac:(done)) as Hsame.
  destruct st as [id row ignore|kind key|id|id outcome error now|id|id now|kind key new join now|id now|kind key|kind| | | |id execution|cutoff
    |executions|ids']; cbn; intros [= E1]; try (by intros; simplify_eq).
  - destruct Hrun as (Hm & (d & Hd & Hk & Hl) & Hq & _). destruct (taken id row T) eqn:Et.
    + destruct ignore; by simplify_eq.
    + simplify_eq. apply taken_none in Et. by apply (cm_inserted s T id row d).
  - destruct Hrun as [H1 H2]. apply update_row in E1 as [(-> & row & Hr & Ho & ->)|[-> ->]]; [|done]. by apply ended_moved.
  - apply update_row in E1 as [(-> & row & Hr & Hw%bool_decide_eq_true & ->)|[-> ->]]; [|done]. by apply cm_started.
  - destruct Hrun as (d & Hd & Hk & ->). unfold join_waiting in E1.
    destruct (find_row _ T) as [[id row]|] eqn:Ef; [|by simplify_eq].
    apply find_row_Some in Ef as [Hr [Hrk%bool_decide_eq_true Hrq%bool_decide_eq_true]%andb_true_iff].
    destruct (joining _ _ _ _) as [input|] eqn:Ej; [|by simplify_eq]. simplify_eq.
    apply joining_some in Ej as (Hdec & El & ->). apply cm_joined; try done; try congruence.
    apply (b_rows _ _ _ _ _ _ B) in Hr as (_ & Hq & _). apply Hq. congruence.
  - apply update_row in E1 as [(-> & row & Hr & Ho & ->)|[-> ->]]; [|done]. apply ended_moved; try done.
    unfold is_open. by rewrite Ho, orb_true_r.
  - destruct (update _ _ _ _) as [T1 b] eqn:Eu. simplify_eq. cbn.
    apply update_row in Eu as [(-> & row & Hr & Ho%bool_decide_eq_true & ->)|[-> ->]]; [|done].
    apply (cm_moved s T id row); try done; [by constructor|]. by apply (b_rows _ _ _ _ _ _ B _ _ Hr).
  - simplify_eq. by apply cm_fewer.
  - simplify_eq. apply cm_fewer, forgets_fewer.
Qed.

(** Who keeps an ID to itself does so no longer, or still does. *)
Definition disowns (own own' : gmap nat (option string)) : Prop :=
  ∀ f id, own' !! f = Some (Some id) → own !! f = Some (Some id).

Lemma known_disowns ids own own' id : disowns own own' → known ids own id → known ids own' id.
Proof. intros Hd [Hi Hk]. split; [done|]. intros f Hf. by apply (Hk f), Hd. Qed.

Lemma past_disowns T ids own own' id : disowns own own' → past T ids own id → past T ids own' id.
Proof. intros Hd [Hk Hp]. split; [by eapply known_disowns|done]. Qed.

Lemma books_disowns T ids asked executed answered own own' :
  disowns own own' → books T ids asked executed answered own → books T ids asked executed answered own'.
Proof.
  intros Hd []. split; [done|by intros f id Hf; eapply b_own0, Hd| |done| |done].
  { intros f g id Hf Hg. eapply b_once0; by apply Hd. }
  intros id name Hn. destruct (b_executed0 id name Hn) as [? ?]. split; [by eapply past_disowns|done].
Qed.

(** What a statement leaves of an operation that is out. *)
Lemma commits_rows s f T T' more new ids asked executed answered own id :
  books T ids asked executed answered own → own !! f = Some (mine s) → commits s T T' more new → known ids own id →
  (∀ row', t_rows T' !! id = Some row' → ∃ row, t_rows T !! id = Some row ∧ moves row row') ∧
  (past T ids own id → asks_of id more = []).
Proof.
  intros B Hf Hc [Hi Hk].
  assert (∀ id0 row0 row0', t_rows T !! id0 = Some row0 → moves row0 row0' → ∀ row',
    t_rows (put id0 row0' T) !! id = Some row' → ∃ row, t_rows T !! id = Some row ∧ moves row row') as Hput.
  { intros id0 row0 row0' H0 Hm row'. cbn. intros [[<- <-]|[Hne Hr]]%lookup_insert_Some; [eauto|]. exists row'. split; [done|constructor]. }
  destruct Hc as [T' Hsub|id0 row0 row' Hr Hm|id0 row0 now Hr Hw|id0 row0 d new now Hr Hw|id0 row0 d Hm Hr].
  - split; [|done]. intros row' Hr'. exists row'. split; [by eapply lookup_weaken|constructor].
  - split; [by eapply Hput|done].
  - split; [eapply Hput; [done|by constructor]|done].
  - split; [eapply Hput; [done|by constructor]|]. intros [_ Hp]. rewrite asks_one. case_decide; [|done]. subst.
    by destruct (Hp _ Hr).
  - assert (id0 ≠ id) as Hne by (intros ->; apply (Hk f); by rewrite Hf, Hm).
    split; [|intros _; rewrite asks_one; by rewrite decide_False]. cbn. intros row' Hr'. rewrite lookup_insert_ne in Hr' by done.
    exists row'. split; [done|constructor].
Qed.

Lemma folded_more asked more id d input : asks_of id more = [] → folded asked id d input → folded (asked ++ more) id d input.
Proof. intros Hm (x & xs & Ha & Hi). exists x, xs. by rewrite asks_app, Hm, app_nil_r. Qed.

Lemma row_ok_same ids asked more id row :
  asks_of id more = [] → row_ok ids asked id row → row_ok ids (asked ++ more) id row.
Proof. intros Hm (Hi & Hq & d & Hd & Hk & Hl & Hf). split; [done|]. split; [done|]. exists d. eauto using folded_more. Qed.

Lemma row_ok_moved ids asked id row row' :
  moves row row' → row_input row' = row_input row → (row_queue row' ≠ None → row_state row' = SWaiting) →
  row_ok ids asked id row → row_ok ids asked id row'.
Proof.
  intros (El & Ek & _)%moves_locks Ei Hq (Hi & _ & d & Hd & Hk & Hl & Hf). split; [done|]. split; [done|].
  exists d. rewrite El, Ek, Ei. done.
Qed.

Lemma same_kind_same d d' : kinds_ok → d ∈ durableKinds.*2 → d' ∈ durableKinds.*2 → d_kind d = d_kind d' → d = d'.
Proof.
  intros K [i Hi]%list_elem_of_lookup [j Hj]%list_elem_of_lookup E.
  assert (i = j) as ->; [|congruence]. eapply (NoDup_lookup _ _ _ _ (one_each K)); rewrite list_lookup_fmap; [by rewrite Hi|].
  rewrite Hj. cbn. congruence.
Qed.

Lemma row_ok_joined ids asked id row d new now :
  kinds_ok → d ∈ durableKinds.*2 → d_kind d = row_kind row → d_decodes d (row_input row) = true →
  declared d (row_input row) = declared d new → row_state row = SWaiting → row_ok ids asked id row →
  row_ok ids (asked ++ [(id, (d_kind d, new))]) id (joined_row (d_join d (row_input row) new) now row).
Proof.
  intros K Hd Hk Hdec Hl Hw (Hi & Hq & d' & Hd' & Hk' & Hl' & x & xs & Ha & Hf).
  assert (d' = d) as -> by (apply same_kind_same; congruence).
  split; [done|]. split; [done|]. exists d. split; [done|]. split; [done|]. cbn. split.
  - rewrite (joins_locks K d (row_input row) new Hd Hdec Hl). congruence.
  - exists x, (xs ++ [new]). rewrite asks_app, Ha, asks_one, decide_True by done. split; [by rewrite app_comm_cons, fmap_app|].
    by rewrite fold_left_app, <-Hf.
Qed.

Lemma books_commits s f T T' more new ids asked executed answered own own' :
  kinds_ok → books T ids asked executed answered own → own !! f = Some (mine s) → commits s T T' more new →
  disowns own own' → (∀ id, own' !! f = Some (Some id) → t_rows T' !! id = None) →
  books T' ids (asked ++ more) executed answered own'.
Proof.
  intros K B Hf Hc Hd Hnew. pose proof B as [B1 B2 B3 B4 B5 B6].
  assert (∀ id, known ids own id → past T ids own id → past T' ids own' id) as Hpast.
  { intros id Hk [_ Hp]. split; [by eapply known_disowns|]. intros row' Hr'.
    destruct (proj1 (commits_rows s f T T' more new ids asked executed answered own id B Hf Hc Hk) _ Hr') as (row & Hr & Hm).
    eapply moves_past; [exact Hm|by apply Hp]. }
  assert (∀ g id, g ≠ f → own !! g = Some (Some id) → asks_of id more = [] ∧ t_rows T' !! id = None) as Hothers.
  { intros g id Hne Hg. destruct (B2 _ _ Hg) as (Hi & Hr & Ha).
    destruct Hc as [T' Hsub|id0 row0 row' H0 Hm|id0 row0 now H0 Hw|id0 row0 d new' now H0 Hw|id0 row0 d Hm H0]; (split; [|cbn]);
      try done; try (rewrite asks_one, decide_False by (intros ->; congruence); done);
      try (rewrite lookup_insert_ne by (intros ->; congruence); done).
    - destruct (t_rows T' !! id) eqn:E; [|done]. eapply lookup_weaken in E; [|done]. congruence.
    - rewrite asks_one, decide_False; [done|]. intros ->. apply Hne. eapply B3; [done|]. by rewrite Hf, Hm.
    - rewrite lookup_insert_ne; [done|]. intros ->. apply Hne. eapply B3; [done|]. by rewrite Hf, Hm. }
  split.
  - assert (∀ id row, t_rows T !! id = Some row → asks_of id more = [] → row_ok ids (asked ++ more) id row) as Hold by eauto using row_ok_same.
    destruct Hc as [T' Hsub|id0 row0 row' H0 Hm Hin Hq Hst|id0 row0 now H0 Hw|id0 row0 d new' now H0 Hw|id0 row0 d Hm H0 Hkd Hk Hl Hq]; intros id row.
    + intros Hr. apply Hold; [by eapply lookup_weaken|done].
    + cbn. intros [[<- <-]|[Hne Hr]]%lookup_insert_Some; [|by apply Hold]. rewrite app_nil_r. eapply row_ok_moved; eauto.
    + cbn. intros [[<- <-]|[Hne Hr]]%lookup_insert_Some; [|by apply Hold]. rewrite app_nil_r. eapply row_ok_moved; [by constructor|done..|by apply B1].
    + cbn. intros [[<- <-]|[Hne Hr]]%lookup_insert_Some; [by apply row_ok_joined; auto|].
      apply Hold; [done|]. by rewrite asks_one, decide_False.
    + assert (own !! f = Some (Some id0)) as Hfo by (by rewrite Hf, Hm). destruct (B2 _ _ Hfo) as (Hi & _ & Ha).
      cbn. intros [[<- <-]|[Hne Hr]]%lookup_insert_Some; [|apply Hold; [done|by rewrite asks_one, decide_False]].
      split; [done|]. split; [done|]. exists d. split; [done|]. split; [done|]. split; [done|]. exists (row_input row0), [].
      rewrite asks_app, Ha, asks_one, decide_True by done. by rewrite Hk.
  - intros g id Hg. destruct (B2 g id (Hd _ _ Hg)) as (Hi & Hr & Ha). split; [done|]. destruct (decide (g = f)) as [->|Hne].
    + split; [by apply Hnew|]. rewrite asks_app, Ha. specialize (Hnew _ Hg).
      destruct Hc as [T' Hsub|id0 row0 row' H0 Hm|id0 row0 now H0 Hw|id0 row0 d new' now H0 Hw|id0 row0 d Hm H0]; try done.
      * rewrite asks_one, decide_False; [done|]. intros ->. congruence.
      * rewrite asks_one, decide_False; [done|]. intros ->. cbn in Hnew. by rewrite lookup_insert_eq in Hnew.
    + destruct (Hothers g id Hne (Hd _ _ Hg)) as [Hm Hr']. split; [done|]. by rewrite asks_app, Ha, Hm.
  - eauto.
  - intros entry [He|He]%elem_of_app; [by apply B4|].
    destruct Hc as [T' Hsub|id0 row0 row' H0 Hm|id0 row0 now H0 Hw|id0 row0 d new' now H0 Hw|id0 row0 d Hm H0]; try in_nil He;
      apply list_elem_of_singleton in He as ->; cbn.
    + by apply B1 in H0 as [? _].
    + apply (B2 f). by rewrite Hf, Hm.
  - intros id name Hn. destruct (B5 _ _ Hn) as (Hp & kind & version & x & E & Hx). split; [apply Hpast; [apply Hp|done]|].
    exists kind, version, x. split; [done|]. apply elem_of_app. by left.
  - intros id x Hx. destruct (B6 _ _ Hx) as [kind Hk]. exists kind. apply elem_of_app. by left.
Qed.
End Books.
