(* ===== verification/HearthStands.v ===== *)
(** * Who stands where in Hearth's lanes

    Two parts of the invariant of [HearthInv]: each ticket is one fiber's and
    stands as its fiber says ([lanes_ok]), and who holds the locks of the
    operations that run ([phase_ok]) as Hearth starts and after. And what the
    lanes' calls do to them. *)
From S2P Require Import Prelude Operations Locks Grants Lanes LanesInv LanesGrant LanesSteps LanesFacts Plans Bytes Utf8.
From S2P Require Import HearthLanes HearthRecords HearthMonad HearthPrograms HearthWorld HearthTickets HearthLogic HearthInv.

Definition ticket_of (x : Stand) : option nat :=
  match x with
  | InLine n _ | Working n _ | Reserved n _ _ | Bound n _ _ | Handing n _ _ _ => Some n
  | _ => None
  end.

Definition stand_ok (L : Lanes) (x : Stand) : Prop :=
  match x with
  | InLine n ls => still_in_line L n ls
  | Working n ls | Bound n ls _ => at_state Running L n ls
  | Reserved n ls _ | Handing n ls _ _ => at_state Granted L n ls
  | _ => True
  end.

Record lanes_ok (M : Memory) (st : gmap nat Stand) : Prop := {
  l_reach : reachable hearth_options (m_lanes M);
  l_open : paused (m_lanes M) = false;
  l_once : ∀ f g x y n, st !! f = Some x → st !! g = Some y → ticket_of x = Some n → ticket_of y = Some n → f = g;
  l_stand : ∀ f x, st !! f = Some x → stand_ok (m_lanes M) x;
  l_places : ∀ p n, m_places M !! p = Some (Some n) → cancellable (m_lanes M) st n;
}.

Lemma lanes_inv M st : lanes_ok M st → inv (m_lanes M) ∧ stable (m_lanes M).
Proof. intros [H%reachable_good _ _ _ _]. split; apply H. Qed.

Lemma stand_there L x n : stand_ok L x → ticket_of x = Some n → is_Some (waiters L !! n).
Proof. destruct x; cbn; try done; intros (w & ? & _) [= <-]; by exists w. Qed.

Lemma ticket_next L x n : inv L → stand_ok L x → ticket_of x = Some n → (n < next L)%nat.
Proof. intros HL Hs Ht. destruct (stand_there _ _ _ Hs Ht) as [w Hw]. by eapply inv_fresh. Qed.

(** ** When one fiber stands elsewhere *)

Lemma cancellable_put L st f y n :
  cancellable L st n → ¬ reserves y n → cancellable L (<[f := y]> st) n.
Proof. intros [Hn Hc] Hy. split; [done|]. intros g x [[<- <-]|[? ?]]%lookup_insert_Some; [done|]. by eapply Hc. Qed.

Lemma lanes_put M st f y :
  lanes_ok M st → stand_ok (m_lanes M) y →
  (∀ n, ticket_of y = Some n → ∀ g x, g ≠ f → st !! g = Some x → ticket_of x ≠ Some n) →
  (∀ n p, reserves y n → m_places M !! p ≠ Some (Some n)) →
  lanes_ok M (<[f := y]> st).
Proof.
  intros [] Hy Ht Hp. split; [done|done| | |].
  - intros g h x z n [[<- <-]|[? Hg]]%lookup_insert_Some [[<- <-]|[? Hh]]%lookup_insert_Some Hx Hz; [done|..|by eapply l_once0].
    + exfalso. by eapply Ht.
    + exfalso. by eapply Ht.
  - intros g x [[<- <-]|[? Hg]]%lookup_insert_Some; [done|by eapply l_stand0].
  - intros p n Hn. apply cancellable_put; [by eapply l_places0|]. intros Hr. by eapply Hp.
Qed.

(** The same ticket, or none. *)
Lemma lanes_restand M st f x y :
  lanes_ok M st → st !! f = Some x → stand_ok (m_lanes M) y → (ticket_of y = None ∨ ticket_of y = ticket_of x) →
  (∀ n, reserves y n → reserves x n) → lanes_ok M (<[f := y]> st).
Proof.
  intros H Hx Hy Ht Hr. apply lanes_put; [done|done| |].
  - intros n En g z Hne Hg Hz. apply Hne. destruct Ht as [Ht|Ht]; [congruence|]. eapply (l_once _ _ H); [done..|congruence].
  - intros n p Hn Hp. apply Hr in Hn. destruct (l_places _ _ H _ _ Hp) as [_ Hc]. by eapply Hc.
Qed.

Lemma lanes_delete M st f : lanes_ok M st → lanes_ok M (delete f st).
Proof.
  intros []. split; [done|done| | |].
  - intros g h x y n [_ Hg]%lookup_delete_Some [_ Hh]%lookup_delete_Some. by eapply l_once0.
  - intros g x [_ Hg]%lookup_delete_Some. by eapply l_stand0.
  - intros p n Hp. destruct (l_places0 p n Hp) as [Hn Hc]. split; [done|]. intros g x [_ Hg]%lookup_delete_Some. by eapply Hc.
Qed.

(** ** When the lanes change *)

Lemma keeps_stand n L L' x : keeps n L L' → ticket_of x ≠ Some n → stand_ok L x → stand_ok L' x.
Proof.
  intros Hk Hn. destruct x; cbn in *; try done; (eapply keeps_at || eapply keeps_in_line); try done; intros ->; done.
Qed.

Lemma lanes_call M st L' f y n :
  lanes_ok M st → reachable hearth_options L' → paused L' = false → (next (m_lanes M) ≤ next L')%nat →
  (∀ g x, g ≠ f → st !! g = Some x → stand_ok L' x) → stand_ok L' y →
  (ticket_of y = None ∨ ticket_of y = Some n ∧ ∀ g x, g ≠ f → st !! g = Some x → ticket_of x ≠ Some n) →
  (∀ m p, reserves y m → m_places M !! p ≠ Some (Some m)) →
  lanes_ok (set_lanes L' M) (<[f := y]> st).
Proof.
  intros H Hreach Hopen Hnext Hkeep Hy Ht Hr.
  split; [done|done| | |].
  - intros g h x z m [[<- <-]|[? Hg]]%lookup_insert_Some [[<- <-]|[? Hh]]%lookup_insert_Some Hx Hz; [done|..|by eapply (l_once _ _ H)].
    + destruct Ht as [Ht|[Ht Hu]]; [congruence|]. exfalso. eapply Hu; [|done|]; [done|congruence].
    + destruct Ht as [Ht|[Ht Hu]]; [congruence|]. exfalso. eapply Hu; [|exact Hg|]; [done|congruence].
  - intros g x [[<- <-]|[? Hg]]%lookup_insert_Some; [done|by eapply Hkeep].
  - intros p m Hm. cbn. apply cancellable_put; [|intros ?; by eapply Hr]. destruct (l_places _ _ H _ _ Hm) as [? ?]. split; [lia|done].
Qed.

Lemma reach_event world ev L L' :
  reachable hearth_options L → lane_event hearth_options world ev L = Some L' → reachable hearth_options L'.
Proof. apply reachable_event. Qed.

Lemma reach_admit admission L :
  reachable hearth_options L → reachable hearth_options (admit_waiter hearth_options quiet_world admission false L).2.
Proof. intros H. by eapply (reach_event quiet_world (EvAdmit admission false)). Qed.

Lemma reach_cancel n L : reachable hearth_options L → reachable hearth_options (Lanes.cancel quiet_world n L).2.
Proof. intros H. by eapply (reach_event quiet_world (EvCancel n)). Qed.

Lemma reach_release n ls L :
  reachable hearth_options L → at_state Running L n ls → reachable hearth_options (Lanes.release quiet_world n L).
Proof.
  intros H (w & Hw & Hs & _). eapply (reach_event quiet_world (EvFinish n)); [done|]. cbn.
  assert (Lanes.has_state Running L n = true) as -> by (unfold Lanes.has_state; by rewrite Hw, Hs). done.
Qed.

Lemma reach_begin n L :
  reachable hearth_options L → await_grant n L = Some Succeeded → reachable hearth_options (run_begins n L).2.
Proof. intros H E. eapply (reach_event quiet_world (EvBegin n)); [done|]. cbn. by rewrite E. Qed.

(** Withdrawing a ticket that may be. *)
Lemma lanes_cancel M st n :
  lanes_ok M st → cancellable (m_lanes M) st n → lanes_ok (cancel_ticket n M) st.
Proof.
  intros H [Hn Hc]. destruct (lanes_inv _ _ H) as [HL Hst]. pose proof (cancel_counter quiet_world n _ HL Hst) as [E1 E2].
  split; [by apply reach_cancel, H|cbn; by rewrite E2; apply H|apply H| |].
  - intros f x Hx. pose proof (l_stand _ _ H _ _ Hx) as Hs. specialize (Hc _ _ Hx). cbn.
    destruct x; cbn in *; try done; try (by apply cancel_in_line); try (by apply cancel_running);
      eapply keeps_at; (by apply cancel_keeps) || done.
  - intros p m Hm. cbn in *. destruct (l_places _ _ H _ _ Hm) as [? ?]. split; [by rewrite E1|done].
Qed.

(** Leaving the lanes. *)
Lemma lanes_leave M st f n ls y :
  lanes_ok M st → st !! f = Some (Working n ls) → ticket_of y = None → stand_ok (m_lanes M) y →
  lanes_ok (leave_memory n M) (<[f := y]> st).
Proof.
  intros H Hf Hy Hs. destruct (lanes_inv _ _ H) as [HL _]. pose proof (l_stand _ _ H _ _ Hf) as Hr. cbn in Hr.
  pose proof Hr as (w & Hw & Es & _). destruct (release_counter quiet_world n w _ HL Hw (or_intror Es)) as [E1 E2].
  assert (keeps n (m_lanes M) (Lanes.release quiet_world n (m_lanes M))) as Hk by (apply release_keeps with w; [done..|by right]).
  apply (lanes_call M st _ f y n); try done.
  - eapply reach_release; [apply H|done].
  - rewrite E2. apply H.
  - by rewrite E1.
  - intros g x Hne Hg. eapply keeps_stand; [exact Hk| |by eapply l_stand]. intros Ht. apply Hne.
    by eapply (l_once _ _ H).
  - destruct y; done.
  - by left.
  - intros m p Hm. by destruct y.
Qed.

(** A turn that comes. *)
Lemma lanes_turn M st f x y n ls L' :
  lanes_ok M st → st !! f = Some x → ticket_of x = Some n → ticket_of y = Some n → still_in_line (m_lanes M) n ls →
  await_grant n (m_lanes M) = Some Succeeded → run_begins n (m_lanes M) = (None, L') →
  (at_state Running L' n ls → stand_ok L' y) → (∀ m, ¬ reserves y m) →
  lanes_ok (set_lanes L' M) (<[f := y]> st).
Proof.
  intros H Hf Hx Hy Hn Hg Hb Hs Hr. pose proof (begin_keeps n (m_lanes M)) as Hk.
  pose proof (begin_counter n (m_lanes M)) as [E1 E2]. rewrite Hb in *. cbn in *.
  apply (lanes_call M st L' f y n); try done.
  - pose proof (reach_begin n _ (l_reach _ _ H) Hg) as HR. by rewrite Hb in HR.
  - rewrite E2. apply H.
  - lia.
  - intros g z Hne Hz. eapply keeps_stand; [exact Hk| |by eapply l_stand]. intros Ht. apply Hne. by eapply (l_once _ _ H).
  - apply Hs. by eapply begin_running.
  - right. split; [done|]. intros g z Hne Hz Ht. apply Hne. by eapply (l_once _ _ H).
  - intros m p Hm. by destruct (Hr m).
Qed.

Lemma begin_refused n L e L' : run_begins n L = (Some e, L') → L' = L.
Proof. unfold run_begins. destruct (waiters L !! n); [|done]. case_decide; [done|]. by intros [= _ <-]. Qed.

(** A place in line. *)
Lemma lanes_line M st f x admission ls :
  lanes_ok M st → st !! f = Some x → ticket_of x = None → a_locks admission = Known ls →
  let t := admit_waiter hearth_options quiet_world admission false (m_lanes M) in
  lanes_ok (set_lanes t.2 M) (<[f := InLine (t_waiter t.1) (normalizeLocks ls)]> st) ∧ (next (m_lanes M) ≤ next t.2)%nat.
Proof.
  intros H Hf Hx El. cbv zeta. destruct (lanes_inv _ _ H) as [HL Hst].
  destruct (admit_ticket hearth_options quiet_world admission false _ HL Hst) as (E1 & E2 & E3). rewrite E1. split; [|lia].
  apply (lanes_call M st _ f _ (next (m_lanes M))); try done.
  - apply reach_admit, H.
  - rewrite E3. apply H.
  - lia.
  - intros g y Hne Hg. pose proof (l_stand _ _ H _ _ Hg) as Hy. eapply keeps_stand; [by apply admit_keeps| |done].
    intros Ht. apply (ticket_next _ _ _ HL) in Ht; [lia|done].
  - by apply admit_in_line.
  - right. split; [done|]. intros g y Hne Hg Ht. apply (ticket_next _ _ _ HL) in Ht; [lia|]. by eapply l_stand.
Qed.

(** ** Starting up *)

Inductive Phase := Shut | Restoring (todo : list (string * list LaneLock)) | Serving.

(** An operation that runs and holds locks. *)
Definition runs (T : Tables) (id : string) (ls : list LaneLock) : Prop :=
  ∃ row, t_rows T !! id = Some row ∧ row_state row = SRunning ∧ row_locks row = ls ∧ ls ≠ [].

Definition guards (x : Stand) (id : string) (ls : list LaneLock) : Prop :=
  match x with Bound _ ls' id' | Reserved _ ls' id' | Handing _ ls' id' _ => id' = id ∧ ls' = ls | _ => False end.

Definition guarded (st : gmap nat Stand) (id : string) (ls : list LaneLock) : Prop := ∃ f x, st !! f = Some x ∧ guards x id ls.

Definition hands_over (todo : list (string * list LaneLock)) (x : Stand) : Prop :=
  match x with Boot (Some todo') | Handing _ _ _ todo' => todo' = todo | _ => False end.

(** Where other fibers may be as Hearth starts. *)
Definition quiet_stand (x : Stand) : Prop := match x with Open | InLine _ _ | Boot _ | Handing _ _ _ _ => False | _ => True end.

Definition serving_stand (x : Stand) : Prop := match x with Boot _ | Handing _ _ _ _ => False | _ => True end.

(** What is left to take back: none excludes another, nor what is held. *)
Definition apart (L : Lanes) (todo : list (string * list LaneLock)) : Prop :=
  ∀ i e, todo !! i = Some e → normalizeLocks e.2 = e.2 ∧ compatible (holding L) e.2 ∧
    ∀ j e', i ≠ j → todo !! j = Some e' → compatible e.2 e'.2.

Definition phase_ok (L : Lanes) (T : Tables) (st : gmap nat Stand) (startup : option nat) (p : Phase) : Prop :=
  match p with
  | Shut =>
      (∀ f x, st !! f = Some x → match x with Free | Nested _ => True | Boot None => startup = Some f | _ => False end) ∧
      nobody_waits L ∧ holding L = [] ∧
      ∀ id id' ls ls', id ≠ id' → runs T id ls → runs T id' ls' → compatible ls ls'
  | Restoring todo =>
      ∃ f x, startup = Some f ∧ st !! f = Some x ∧ hands_over todo x ∧ (∀ g y, g ≠ f → st !! g = Some y → quiet_stand y) ∧
        nobody_waits L ∧ apart L todo ∧ ∀ id ls, runs T id ls → guarded st id ls ∨ (id, ls) ∈ todo
  | Serving => (∀ f x, st !! f = Some x → serving_stand x) ∧ ∀ id ls, runs T id ls → guarded st id ls
  end.

Lemma apart_shrinks L L' todo : (∀ l, l ∈ holding L' → l ∈ holding L) → apart L todo → apart L' todo.
Proof. intros Hs Ha i e Hi. destruct (Ha i e Hi) as (? & Hc & ?). split; [done|]. split; [|done]. intros x y Hx. apply Hc. by apply Hs. Qed.

Lemma phase_lanes L L' T st startup p :
  (nobody_waits L → shrinks L L') → phase_ok L T st startup p → phase_ok L' T st startup p.
Proof.
  intros Hs. destruct p as [|todo|]; cbn; [| |done].
  - intros (H1 & H2 & H3 & H4). destruct (Hs H2) as [H2' H3']. split; [done|]. split; [done|]. split; [|done].
    apply elem_of_nil_inv. intros l Hl. apply H3' in Hl. rewrite H3 in Hl. in_nil Hl.
  - intros (f & x & H1 & H2 & H3 & H4 & H5 & H6 & H7). destruct (Hs H5) as [H5' H6']. exists f, x. do 5 (split; [done|]).
    split; [by eapply apart_shrinks|done].
Qed.

(** Fewer operations run, or those that do are held. *)
Lemma phase_tables L T T' st startup p :
  (∀ id ls, runs T' id ls → runs T id ls ∨ p ≠ Shut ∧ guarded st id ls) → phase_ok L T st startup p → phase_ok L T' st startup p.
Proof.
  intros Hr. destruct p as [|todo|]; cbn.
  - intros (H1 & H2 & H3 & H4). split; [done|]. split; [done|]. split; [done|]. intros id id' ls ls' Hne H H'.
    apply Hr in H as [H|[? _]], H' as [H'|[? _]]; try done. by eapply H4.
  - intros (f & x & H1 & H2 & H3 & H4 & H5 & H6 & H7). exists f, x. do 6 (split; [done|]). intros id ls [H|[_ H]]%Hr; auto.
  - intros [H1 H2]. split; [done|]. intros id ls [H|[_ H]]%Hr; auto.
Qed.

(** A fiber that stands elsewhere, and holds no less of what runs. *)
Lemma guarded_put st f x y id ls :
  st !! f = Some x → (guards x id ls → guards y id ls) → guarded st id ls → guarded (<[f := y]> st) id ls.
Proof.
  intros Hf Hg (g & z & Hz & Hgz). destruct (decide (g = f)) as [->|Hne].
  - exists f, y. rewrite lookup_insert_eq. split; [done|]. apply Hg. congruence.
  - exists g, z. by rewrite lookup_insert_ne.
Qed.

Lemma guarded_new st f y id ls : st !! f = None → guarded st id ls → guarded (<[f := y]> st) id ls.
Proof. intros Hf (g & z & Hz & Hgz). exists g, z. rewrite lookup_insert_ne; [done|]. intros ->. congruence. Qed.

(** The stand of a fiber in each phase, and one it may go to. *)
Definition may_stand (p : Phase) (y : Stand) : Prop :=
  match p with
  | Shut => match y with Free | Nested _ => True | _ => False end
  | Restoring _ => quiet_stand y
  | Serving => serving_stand y
  end.

Lemma phase_put L T st startup p f x y :
  phase_ok L T st startup p → st !! f = Some x → serving_stand x → may_stand p y →
  (∀ id ls, runs T id ls → guards x id ls → guards y id ls) → phase_ok L T (<[f := y]> st) startup p.
Proof.
  intros Hp Hf Hx Hy Hg. destruct p as [|todo|]; cbn in *.
  - destruct Hp as (H1 & H2). split; [|done]. intros g z [[<- <-]|[? Hz]]%lookup_insert_Some; [by destruct y|by apply H1].
  - destruct Hp as (h & z & H1 & H2 & H3 & H4 & H5 & H6 & H7). exists h, z.
    assert (h ≠ f) as Hne by (intros ->; assert (z = x) as -> by congruence; by destruct x as [| | |[]| | | | |]).
    split; [done|]. rewrite lookup_insert_ne by done. split; [done|]. split; [done|]. split.
    { intros g w Hn [[<- <-]|[? Hw]]%lookup_insert_Some; [done|by eapply H4]. }
    do 2 (split; [done|]). intros id ls Hr. destruct (H7 id ls Hr) as [Hgd|Hin]; [left|by right]. eapply guarded_put; eauto.
  - destruct Hp as [H1 H2]. split; [intros g z [[<- <-]|[? Hz]]%lookup_insert_Some; [done|by eapply H1]|].
    intros id ls Hr. eapply guarded_put; eauto.
Qed.

Lemma phase_new L T st startup p f y :
  phase_ok L T st startup p → st !! f = None → may_stand p y → phase_ok L T (<[f := y]> st) startup p.
Proof.
  intros Hp Hf Hy. destruct p as [|todo|]; cbn in *.
  - destruct Hp as (H1 & H2). split; [|done]. intros g z [[<- <-]|[? Hz]]%lookup_insert_Some; [by destruct y|by apply H1].
  - destruct Hp as (h & z & H1 & H2 & H3 & H4 & H5 & H6 & H7). exists h, z. assert (h ≠ f) as Hne by congruence.
    split; [done|]. rewrite lookup_insert_ne by done. split; [done|]. split; [done|]. split.
    { intros g w Hn [[<- <-]|[? Hw]]%lookup_insert_Some; [done|by eapply H4]. }
    do 2 (split; [done|]). intros id ls Hr. destruct (H7 id ls Hr) as [Hgd|Hin]; [left; by apply guarded_new|by right].
  - destruct Hp as [H1 H2]. split; [intros g z [[<- <-]|[? Hz]]%lookup_insert_Some; [done|by eapply H1]|].
    intros id ls Hr. apply guarded_new; auto.
Qed.

Lemma phase_delete L T st startup p f x :
  phase_ok L T st startup p → st !! f = Some x → may_end x → phase_ok L T (delete f st) startup p.
Proof.
  intros Hp Hf Hx.
  assert (∀ id ls, guarded st id ls → guarded (delete f st) id ls) as Hg.
  { intros id ls (g & z & Hz & Hgz). exists g, z. rewrite lookup_delete_ne; [done|]. intros ->.
    assert (z = x) as -> by congruence. by destruct x. }
  destruct p as [|todo|]; cbn in *.
  - destruct Hp as (H1 & H2). split; [|done]. intros g z [? Hz]%lookup_delete_Some. by apply H1.
  - destruct Hp as (h & z & H1 & H2 & H3 & H4 & H5 & H6 & H7). exists h, z.
    assert (h ≠ f) as Hne by (intros ->; assert (z = x) as -> by congruence; by destruct x as [| | |[]| | | | |]).
    split; [done|]. rewrite lookup_delete_ne by done. split; [done|]. split; [done|]. split.
    { intros g w Hn [? Hw]%lookup_delete_Some. by eapply H4. }
    do 2 (split; [done|]). intros id ls Hr. destruct (H7 id ls Hr); auto.
  - destruct Hp as [H1 H2]. split; [intros g z [? Hz]%lookup_delete_Some; by eapply H1|auto].
Qed.

(** ** Taking back what runs *)

Section Restoring.
Context (durableKinds : list (string * DurableOperation)).
Notation left_running := (left_running durableKinds).

Lemma known_kind d : kinds_ok durableKinds → d ∈ durableKinds.*2 → definition_of durableKinds (d_kind d) = Some d.
Proof.
  intros K Hd. unfold definition_of. destruct (List.find _ _) as [d'|] eqn:E.
  - apply List.find_some in E as [Hin Ek%bool_decide_eq_true]. f_equal. apply (same_kind_same durableKinds); try done. by apply list_elem_of_In.
  - apply list_elem_of_In in Hd. apply (List.find_none _ _ E) in Hd. by apply bool_decide_eq_false in Hd.
Qed.

(** The locks an operation is restored with are those it was recorded with. *)
Lemma restored_locks ids asked id row :
  kinds_ok durableKinds → row_ok durableKinds ids asked id row → locks_of_row durableKinds row = row_locks row.
Proof.
  intros K (_ & _ & d & Hd & Hk & Hl & _). unfold locks_of_row, HearthPrograms.known. rewrite <-Hk, known_kind by done.
  destruct (d_decodes d (row_input row)); [done|]. rewrite <-Hl. unfold declared. apply withWholes_idem.
Qed.

Lemma left_running_elem rows id ls :
  (id, ls) ∈ left_running rows ↔ ∃ row, (id, row) ∈ rows ∧ ls = locks_of_row durableKinds row ∧ ls ≠ [].
Proof.
  unfold HearthLogic.left_running. rewrite list_elem_of_bind. split.
  - intros ([id' row] & Hl & Hin). destruct (locks_of_row durableKinds row) as [|l ls'] eqn:E; cbn in Hl; rewrite E in Hl; [in_nil Hl|].
    apply list_elem_of_singleton in Hl as [= -> ->]. exists row. by rewrite E.
  - intros (row & Hin & -> & Hne). exists (id, row). split; [|done]. cbn. destruct (locks_of_row durableKinds row); [done|]. by left.
Qed.

Lemma left_running_ids rows : NoDup rows.*1 → NoDup (left_running rows).*1.
Proof.
  induction rows as [|[id row] rows IH]; [done|]. cbn. intros [Hni Hnd]%NoDup_cons.
  destruct (locks_of_row durableKinds row) as [|l ls]; [by apply IH|]. cbn. apply NoDup_cons. split; [|by apply IH].
  intros ([id' ls'] & -> & Hin)%list_elem_of_fmap. apply left_running_elem in Hin as (row' & Hin & _). apply Hni.
  apply list_elem_of_fmap. by exists (id', row').
Qed.

Lemma running_rows T id row :
  (id, row) ∈ oldest_first (select (has_state SRunning) T) ↔ t_rows T !! id = Some row ∧ row_state row = SRunning.
Proof.
  unfold oldest_first, select. rewrite (stable_sort_perm _), elem_of_bfilter, elem_of_map_to_list. cbn. unfold has_state.
  by rewrite bool_decide_eq_true.
Qed.

Lemma running_ids T : NoDup (oldest_first (select (has_state SRunning) T)).*1.
Proof.
  unfold oldest_first, select. rewrite (stable_sort_perm _). eapply sublist_NoDup; [apply (NoDup_fst_map_to_list (t_rows T))|].
  apply fmap_sublist. induction (map_to_list (t_rows T)) as [|e l IH]; [done|]. cbn.
  destruct (has_state SRunning e.2); [by apply sublist_skip|by apply sublist_cons].
Qed.

Context (T : Tables) (ids : gset string) (asked : list (string * (string * Json))).
Context (K : kinds_ok durableKinds) (HT : ∀ id row, t_rows T !! id = Some row → row_ok durableKinds ids asked id row).

Lemma left_runs id ls :
  (id, ls) ∈ left_running (oldest_first (select (has_state SRunning) T)) ↔ runs T id ls.
Proof using K HT.
  rewrite left_running_elem. split.
  - intros (row & [Hr Hs]%running_rows & -> & Hne). exists row. split; [done|]. split; [done|]. split; [|done].
    symmetry. by eapply restored_locks, HT.
  - intros (row & Hr & Hs & <- & Hne). exists row. split; [by apply running_rows|].
    split; [|done]. symmetry. by eapply restored_locks, HT.
Qed.

Lemma phase_reads L st startup f :
  phase_ok L T st startup Shut → st !! f = Some (Boot None) →
  let todo := left_running (oldest_first (select (has_state SRunning) T)) in
  ∃ p, phase_ok L T (<[f := booting todo]> st) startup p ∧ p ≠ Shut.
Proof using K HT.
  intros (H1 & H2 & H3 & H4) Hf. cbv zeta. pose proof left_runs as Hruns.
  pose proof (left_running_ids _ (running_ids T)) as Hnd. set (todo := left_running _) in *.
  assert (startup = Some f) as Hst by apply (H1 _ _ Hf).
  assert (∀ g y, g ≠ f → st !! g = Some y → match y with Free | Nested _ => True | _ => False end) as Hothers.
  { intros g y Hne Hg. specialize (H1 _ _ Hg). destruct y as [| | |[]| | | | |]; try done. congruence. }
  destruct todo as [|e todo'] eqn:Et.
  - exists Serving. split; [|done]. split.
    + intros g y [[<- <-]|[? Hy]]%lookup_insert_Some; [done|]. assert (g ≠ f) as Hne by done. specialize (Hothers g y Hne Hy). by destruct y.
    + intros id ls Hr%Hruns. in_nil Hr.
  - exists (Restoring (e :: todo')). split; [|done]. exists f, (Boot (Some (e :: todo'))). split; [done|].
    rewrite lookup_insert_eq. split; [done|]. split; [done|]. split; [|split; [done|split]].
    + intros g y Hne [[? _]|[_ Hy]]%lookup_insert_Some; [congruence|]. specialize (Hothers g y Hne Hy). by destruct y.
    + rewrite <-Et in *. intros i [id ls] Hi. assert (runs T id ls) as Hr by (apply Hruns; by eapply list_elem_of_lookup_2).
      split; [|split].
      * pose proof Hr as (row & Hrow & _ & <- & _). cbn. rewrite <-(restored_locks ids asked id row K (HT _ _ Hrow)). apply withWholes_normal.
      * rewrite H3. intros l l' Hl. in_nil Hl.
      * intros j [id' ls'] Hij Hj. assert (runs T id' ls') as Hr' by (apply Hruns; by eapply list_elem_of_lookup_2).
        apply (H4 id id'); try done. intros <-. apply Hij. eapply (NoDup_lookup _ _ _ _ Hnd); rewrite list_lookup_fmap; [by rewrite Hi|by rewrite Hj].
    + intros id ls Hr%Hruns. right. done.
Qed.
End Restoring.

(** One operation's ticket, taken back, which is granted at once. *)
Lemma phase_hand M st T startup f label id ls todo p :
  lanes_ok M st → phase_ok (m_lanes M) T st startup p → st !! f = Some (Boot (Some ((id, ls) :: todo))) →
  let t := admit_waiter hearth_options quiet_world (admission_of label ls Wait) false (m_lanes M) in
  let st' := <[f := Handing (t_waiter t.1) ls id todo]> st in
  lanes_ok (set_lanes t.2 M) st' ∧ phase_ok t.2 T st' startup (Restoring todo) ∧ (next (m_lanes M) ≤ next t.2)%nat.
Proof.
  intros H Hp Hf. cbv zeta. destruct (lanes_inv _ _ H) as [HL Hst].
  destruct p as [|todo'|]; cbn in Hp; [by destruct (proj1 Hp _ _ Hf)| |by destruct (proj1 Hp _ _ Hf)].
  destruct Hp as (g & x & Hstart & Hx & Hh & Hothers & Hnobody & Hapart & Hruns).
  assert (g = f) as -> by (destruct (decide (g = f)) as [|Hgf]; [done|]; destruct (Hothers f _ (not_eq_sym Hgf) Hf)).
  assert (x = Boot (Some ((id, ls) :: todo))) as -> by congruence. cbn in Hh. subst todo'.
  destruct (Hapart 0%nat (id, ls) eq_refl) as (Hnorm & Hcomp & Hrest). change (normalizeLocks ls = ls) in Hnorm. change (compatible (holding (m_lanes M)) ls) in Hcomp.
  destruct (admit_ticket hearth_options quiet_world (admission_of label ls Wait) false _ HL Hst) as (E1 & E2 & E3).
  destruct (admit_granted hearth_options quiet_world (admission_of label ls Wait) ls (m_lanes M)) as (Hg & Hn & Ha); try done.
  { apply H. } { by rewrite Hnorm. }
  rewrite Hnorm in Hg. rewrite E1. set (L' := (admit_waiter _ _ _ _ _).2) in *.
  assert (∀ g y n, st !! g = Some y → ticket_of y = Some n → (n < next (m_lanes M))%nat) as Hlt.
  { intros g y n Hy Ht. eapply ticket_next; [done| |done]. by eapply l_stand. }
  assert (reachable hearth_options L') as HR by apply reach_admit, H.
  pose proof (gd_inv _ _ (reachable_good _ _ HR)) as HL'.
  assert (∀ n, n ∈ active (m_lanes M) → lk L' n = lk (m_lanes M) n) as Hlk.
  { intros n Hin. apply HL in Hin as (w & Hw & _).
    destruct (admit_keeps hearth_options quiet_world (admission_of label ls Wait) false _ HL Hst n w) as (w' & Hw' & E & _); [|done|].
    - intros ->. by rewrite fresh_lookup in Hw.
    - transitivity (locks w'); [exact (lk_lookup _ _ _ Hw')|]. rewrite E. symmetry. exact (lk_lookup _ _ _ Hw). }
  assert (∀ l, l ∈ holding L' → l ∈ holding (m_lanes M) ∨ l ∈ ls) as Hholds.
  { intros l (n & ls' & Hin & El & Hl)%holding_elem; [|done]. rewrite Ha in Hin. apply elem_of_app in Hin as [Hin|Hin%list_elem_of_singleton].
    - left. apply holding_elem; [done|]. exists n, ls'. split; [done|]. by rewrite <-Hlk.
    - right. subst n. destruct (holding_at L' _ _ Granted HL' (or_introl eq_refl) Hg) as [_ El']. congruence. }
  split; [|split; [|lia]].
  - apply (lanes_call M st L' f _ (next (m_lanes M))); try done.
    + rewrite E3. apply H.
    + lia.
    + intros g y Hne Hg'. pose proof (l_stand _ _ H _ _ Hg') as Hy. eapply keeps_stand; [by apply admit_keeps| |done].
      intros Ht. apply (Hlt g y) in Ht; [lia|done].
    + right. split; [done|]. intros g y Hne Hg' Ht. apply (Hlt g y) in Ht; [lia|done].
    + cbn. intros m q <- Hq. apply (l_places _ _ H) in Hq as [Hq _]. lia.
  - exists f, (Handing (next (m_lanes M)) ls id todo). split; [done|]. rewrite lookup_insert_eq. split; [done|]. split; [done|].
    split; [|split; [done|split]].
    + intros g y Hne [[? _]|[_ Hy]]%lookup_insert_Some; [congruence|by eapply Hothers].
    + intros i e Hi. destruct (Hapart (S i) e Hi) as (H1 & H2 & H3). split; [done|]. split.
      * intros l l' Hl Hl'. apply Hholds in Hl as [Hl|Hl]; [by apply H2|]. by apply (Hrest (S i) e).
      * intros j e' Hij Hj. apply (H3 (S j) e'); [lia|done].
    + intros id' ls' [Hgd|[[= -> ->]|Hin]%elem_of_cons]%Hruns.
      * left. by eapply guarded_put.
      * left. exists f, (Handing (next (m_lanes M)) ls id todo). rewrite lookup_insert_eq. done.
      * by right.
Qed.

(** A fiber of its own holds what was taken back. *)
Lemma phase_handed L T st startup f c n ls id todo p :
  phase_ok L T st startup p → st !! f = Some (Handing n ls id todo) → st !! c = None →
  ∃ p', phase_ok L T (<[c := Reserved n ls id]> (<[f := booting todo]> st)) startup p'.
Proof.
  intros Hp Hf Hc.
  destruct p as [|todo'|]; cbn in Hp; [by destruct (proj1 Hp _ _ Hf)| |by destruct (proj1 Hp _ _ Hf)].
  destruct Hp as (g & x & Hstart & Hx & Hh & Hothers & Hnobody & Hapart & Hruns).
  assert (g = f) as -> by (destruct (decide (g = f)) as [|Hgf]; [done|]; destruct (Hothers f _ (not_eq_sym Hgf) Hf)).
  assert (x = Handing n ls id todo) as -> by congruence. cbn in Hh. subst todo'.
  assert (c ≠ f) as Hcf by congruence. set (st' := <[c := _]> _).
  assert (∀ id' ls', guarded st id' ls' → guarded st' id' ls') as Hg.
  { intros id' ls' (g & y & Hy & Hgy). destruct (decide (g = f)) as [->|Hne].
    - exists c, (Reserved n ls id). unfold st'. rewrite lookup_insert_eq. split; [done|]. by assert (y = Handing n ls id todo) as -> by congruence.
    - exists g, y. unfold st'. rewrite !lookup_insert_ne; [done|done|]. intros ->. congruence. }
  destruct todo as [|e todo].
  - exists Serving. split.
    + intros g y [[<- <-]|[_ [[<- <-]|[? Hy]]%lookup_insert_Some]]%lookup_insert_Some; try done.
      assert (g ≠ f) as Hne by done. specialize (Hothers g y Hne Hy). by destruct y.
    + intros id' ls' [Hgd|Hin]%Hruns; [by apply Hg|in_nil Hin].
  - exists (Restoring (e :: todo)), f, (Boot (Some (e :: todo))). split; [done|]. unfold st'. rewrite lookup_insert_ne, lookup_insert_eq by done.
    split; [done|]. split; [done|]. split; [|split; [done|split; [done|]]].
    + intros g y Hne [[<- <-]|[_ [[? _]|[_ Hy]]%lookup_insert_Some]]%lookup_insert_Some; [done|congruence|by eapply Hothers].
    + intros id' ls' [Hgd|Hin]%Hruns; [left; by apply Hg|by right].
Qed.
