(* ===== verification/HearthSteps.v ===== *)
(** * Hearth's operations keep their invariant

    The invariant of a world, [hinv], put together from the parts in
    [HearthInv] and [HearthStands], and that each step of a fiber that does
    what its state allows ([HearthLogic]) keeps it. [busy] is the fiber that
    runs just now. *)
From S2P Require Import Prelude Operations Locks Grants Lanes LanesInv LanesGrant LanesSteps LanesFacts Plans Bytes Utf8.
From S2P Require Import HearthLanes HearthRecords HearthMonad HearthPrograms HearthWorld HearthTickets HearthLogic HearthChecks HearthInv HearthStands.

(** A deferred is of one operation, and completed only after that ended. *)
Record endings_ok (M : Memory) (T : Tables) (ids : gset string) (own : gmap nat (option string)) : Prop := {
  e_for : ∀ id d, m_endings M !! id = Some d → ∃ e, m_ended M !! d = Some e ∧ en_operation e = id;
  e_done : ∀ d e, m_ended M !! d = Some e → en_done e = true → over T ids own (en_operation e);
}.

(** What changes while a fiber runs leaves the others, and who is inside. *)
Definition same_frame (W W' : World) : Prop :=
  w_fibers W' = w_fibers W ∧ w_next W' = w_next W ∧ w_exits W' = w_exits W ∧ w_inside W' = w_inside W ∧ w_startup W' = w_startup W.

Section Steps.
Context (durableKinds : list (string * DurableOperation)).
Notation checks := (checks durableKinds).
Notation holds := (holds durableKinds).

Definition books_of (W : World) (own : gmap nat (option string)) : Prop :=
  books durableKinds (w_tables W) (w_ids W) (w_asked W) (w_executed W) (w_answered W) own.

Record hinv (busy : option nat) (W : World) (σ : gmap nat St) (p : Phase) : Prop := {
  h_books : books_of W (mine <$> σ);
  h_facts : ∀ f s x, σ !! f = Some s → x ∈ facts s → holds W (mine <$> σ) (stand <$> σ) x;
  h_lanes : lanes_ok (w_memory W) (stand <$> σ);
  h_endings : endings_ok (w_memory W) (w_tables W) (w_ids W) (mine <$> σ);
  h_phase : phase_ok (m_lanes (w_memory W)) (w_tables W) (stand <$> σ) (w_startup W) p;
  h_ready : m_ready (w_memory W) = true → p = Serving;
  h_nested : ∀ g s held, σ !! g = Some s → stand s = Nested held → ∃ h q k running,
    w_inside W !! g = Some h ∧ busy ≠ Some h ∧ w_fibers W !! h = Some (Asks q k) ∧ running_of q = Some running ∧ held = run_held running;
  h_dom : ∀ g, is_Some (σ !! g) ↔ is_Some (w_fibers W !! g);
  h_fibers : ∀ g op, busy ≠ Some g → w_fibers W !! g = Some op → ∃ s, σ !! g = Some s ∧ checks s op ends_well ends_well;
  h_next : ∀ g, is_Some (w_fibers W !! g) ∨ is_Some (w_exits W !! g) → (g < w_next W)%nat;
  h_exits : ∀ g, is_Some (w_exits W !! g) → w_fibers W !! g = None;
}.

(** ** Facts through a step *)

Definition gives_up (own own' : gmap nat (option string)) : Prop :=
  ∀ f id, own' !! f = Some (Some id) → ∃ g, own !! g = Some (Some id).

Lemma known_gives_up ids own own' id : gives_up own own' → known ids own id → known ids own' id.
Proof. intros Hd [Hi Hk]. split; [done|]. intros f [g Hg]%Hd. by apply (Hk g). Qed.

Lemma books_gives_up W own own' :
  gives_up own own' → (∀ f g id, own' !! f = Some (Some id) → own' !! g = Some (Some id) → f = g) → books_of W own → books_of W own'.
Proof.
  intros Hd Hu []. split; [done| |done|done| |done].
  - intros f id [g Hg]%Hd. by apply b_own in Hg.
  - intros id name Hn. destruct (b_executed id name Hn) as [[? ?] ?]. split; [|done]. split; [by eapply known_gives_up|done].
Qed.

Lemma endings_gives_up M T ids own own' : gives_up own own' → endings_ok M T ids own → endings_ok M T ids own'.
Proof.
  intros Hd []. split; [done|]. intros d e He Hdone. destruct (e_done0 d e He Hdone) as [? ?]. split; [by eapply known_gives_up|done].
Qed.

(** Nothing happened to the records. *)
Lemma grows_still W own st W' own' st' :
  w_tables W' = w_tables W → w_ids W' = w_ids W → w_asked W' = w_asked W → gives_up own own' →
  (∀ n, cancellable (m_lanes (w_memory W)) st n → cancellable (m_lanes (w_memory W')) st' n) →
  (∀ d e, m_ended (w_memory W) !! d = Some e → ∃ e', m_ended (w_memory W') !! d = Some e' ∧ en_operation e' = en_operation e) →
  grows W own st W' own' st'.
Proof.
  intros ET EI EA Ho Hc He. split; rewrite ?ET, ?EI, ?EA; [| |done|done|done|done].
  - intros id. by apply known_gives_up.
  - intros id row' _ Hr. exists row'. split; [done|constructor].
Qed.

Lemma gives_up_refl own : gives_up own own.
Proof. intros f id H. by exists f. Qed.

Lemma gives_up_none own f : gives_up own (<[f := None]> own).
Proof. intros g id [[_ ?]|[_ H]]%lookup_insert_Some; [done|by exists g]. Qed.

Lemma disowns_none own f : disowns own (<[f := None]> own).
Proof. intros g id [[_ ?]|[_ H]]%lookup_insert_Some; done. Qed.

(** ** The fiber that runs moves on *)

Lemma hinv_move f W W' σ p p' s s' :
  hinv (Some f) W σ p → σ !! f = Some s → same_frame W W' →
  let own := mine <$> σ in let st := stand <$> σ in
  let own' := <[f := mine s']> own in let st' := <[f := stand s']> st in
  books_of W' own' → lanes_ok (w_memory W') st' → endings_ok (w_memory W') (w_tables W') (w_ids W') own' →
  phase_ok (m_lanes (w_memory W')) (w_tables W') st' (w_startup W) p' → (m_ready (w_memory W') = true → p' = Serving) →
  grows W own st W' own' st' → (∀ x, x ∈ facts s' → x ∈ facts s ∨ holds W' own' st' x) →
  (∀ held, stand s' = Nested held → stand s = Nested held) →
  hinv (Some f) W' (<[f := s']> σ) p'.
Proof.
  intros H Hs (EF & EN & EX & EI & ES) own st own' st' Hb Hl He Hp Hr Hg Hf Hn.
  assert (mine <$> <[f := s']> σ = own') as Eo by apply fmap_insert.
  assert (stand <$> <[f := s']> σ = st') as Et by apply fmap_insert.
  split; rewrite ?Eo, ?Et, ?EF, ?EN, ?EX, ?EI, ?ES; try done.
  - intros g s2 x [[<- <-]|[_ Hg2]]%lookup_insert_Some Hx.
    + destruct (Hf x Hx) as [Hold|?]; [|done]. eapply holds_grows; [exact Hg|]. by eapply (h_facts _ _ _ _ H).
    + eapply holds_grows; [exact Hg|]. by eapply (h_facts _ _ _ _ H).
  - intros g s2 held [[<- <-]|[_ Hg2]]%lookup_insert_Some Hh.
    + apply Hn in Hh. by apply (h_nested _ _ _ _ H f s).
    + by apply (h_nested _ _ _ _ H g s2).
  - intros g. rewrite <-(h_dom _ _ _ _ H). destruct (decide (g = f)) as [->|]; [rewrite lookup_insert_eq, Hs; by split; eexists|].
    by rewrite lookup_insert_ne.
  - intros g op Hne Hg2. rewrite lookup_insert_ne by congruence. by apply (h_fibers _ _ _ _ H).
  - apply (h_next _ _ _ _ H).
  - apply (h_exits _ _ _ _ H).
Qed.

Lemma own_same (σ : gmap nat St) f s : σ !! f = Some s → <[f := mine s]> (mine <$> σ) = mine <$> σ.
Proof. intros H. apply insert_id. by rewrite lookup_fmap, H. Qed.

Lemma st_same (σ : gmap nat St) f s : σ !! f = Some s → <[f := stand s]> (stand <$> σ) = stand <$> σ.
Proof. intros H. apply insert_id. by rewrite lookup_fmap, H. Qed.

Lemma st_lookup (σ : gmap nat St) f s : σ !! f = Some s → (stand <$> σ) !! f = Some (stand s).
Proof. intros H. by rewrite lookup_fmap, H. Qed.

Lemma own_lookup (σ : gmap nat St) f s : σ !! f = Some s → (mine <$> σ) !! f = Some (mine s).
Proof. intros H. by rewrite lookup_fmap, H. Qed.

(** *** Memory *)

Lemma lanes_memory M M' st :
  lanes_ok M st → m_lanes M' = m_lanes M →
  (∀ p n, m_places M' !! p = Some (Some n) → cancellable (m_lanes M) st n) → lanes_ok M' st.
Proof. intros [] E Hp. split; rewrite ?E; done. Qed.

(** Only memory changed, and what the fiber knows. *)
Lemma hinv_memory f W σ p s M' l :
  hinv (Some f) W σ p → σ !! f = Some s →
  let own := mine <$> σ in let st := stand <$> σ in
  lanes_ok M' st → endings_ok M' (w_tables W) (w_ids W) own →
  phase_ok (m_lanes M') (w_tables W) st (w_startup W) p → (m_ready M' = true → p = Serving) →
  (∀ n, cancellable (m_lanes (w_memory W)) st n → cancellable (m_lanes M') st n) →
  (∀ d e, m_ended (w_memory W) !! d = Some e → ∃ e', m_ended M' !! d = Some e' ∧ en_operation e' = en_operation e) →
  Forall (holds (set_memory M' W) own st) l →
  hinv (Some f) (set_memory M' W) (<[f := learns l s]> σ) p.
Proof.
  intros H Hs own st Hl He Hp Hr Hc Hd Hf.
  assert (<[f := mine (learns l s)]> own = own) as Eo by exact (own_same _ _ _ Hs).
  assert (<[f := stand (learns l s)]> st = st) as Et by exact (st_same _ _ _ Hs).
  assert (grows W own st (set_memory M' W) own st) as Hg by (apply grows_still; try done; apply gives_up_refl).
  eapply (hinv_move f W (set_memory M' W) σ p p s (learns l s) H Hs); fold own; fold st; try rewrite Eo; try rewrite Et; try done.
  - apply H.
  - intros x [Hx|Hx]%elem_of_app; [right|by left]. by apply (proj1 (Forall_forall _ _) Hf).
Qed.

Lemma ended_alter id d M :
  m_endings M !! id = Some d → ∀ d' e', m_ended (ended_here id M) !! d' = Some e' →
  ∃ e, m_ended M !! d' = Some e ∧ en_operation e' = en_operation e ∧ (en_done e' = true → en_done e = true ∨ d' = d).
Proof.
  unfold ended_here. intros ->. cbn. intros d' e'. rewrite list_lookup_alter. case_decide as Hd; [subst d'|].
  - destruct (m_ended M !! d) as [e|]; [|done]. intros [= <-]. exists e. cbn. auto.
  - intros He. exists e'. auto.
Qed.

Lemma hinv_mem_step f W σ p s M' s' :
  hinv (Some f) W σ p → σ !! f = Some s → mem_step s (w_memory W) M' s' →
  hinv (Some f) (set_memory M' W) (<[f := s']> σ) p.
Proof.
  intros H Hs Hstep. pose proof (h_lanes _ _ _ _ H) as HL. pose proof (h_endings _ _ _ _ H) as HE.
  assert (s = learns [] s) as Elearn by (by destruct s).
  destruct Hstep as [M' E1 E2 E3 E4 Hpl|q|Ho|id|id He].
  - rewrite Elearn. apply hinv_memory; try done; rewrite ?E1, ?E2, ?E4.
    + apply (lanes_memory (w_memory W)); [done|done|]. intros q n [Hq|Hq]%Hpl; [by eapply l_places|].
      exact (h_facts _ _ _ _ H f s (Cancellable n) Hs Hq).
    + destruct HE. split; rewrite ?E3, ?E4; done.
    + apply H.
    + apply H.
    + done.
    + intros d e He. by exists e.
  - unfold withdraw_place. destruct (m_places _ !! q) as [[n|]|] eqn:Eq; rewrite Elearn;
      [|apply hinv_memory; try done; try apply H; by intros d e He; exists e..].
    pose proof (l_places _ _ HL _ _ Eq) as Hc. destruct (lanes_inv _ _ HL) as [Hi Hst].
    apply hinv_memory; try done.
    + by apply lanes_cancel.
    + by destruct HE.
    + apply (phase_lanes (m_lanes (w_memory W))); [|apply H]. intros Hn. by apply cancel_shrinks.
    + apply H.
    + intros m [Hm ?]. split; [|done]. cbn. by destruct (cancel_counter quiet_world n _ Hi Hst) as [-> _].
    + intros d e He. by exists e.
  - rewrite Elearn. apply hinv_memory; try done; try apply H.
    + by apply (lanes_memory (w_memory W)); [| |apply HL].
    + by destruct HE.
    + intros _. pose proof (h_phase _ _ _ _ H) as Hp. apply st_lookup in Hs. rewrite Ho in Hs. destruct p as [|todo|]; [| |done].
      * by destruct (proj1 Hp _ _ Hs).
      * destruct Hp as (g & x & _ & Hx & Hh & Hothers & _). destruct (decide (f = g)) as [->|Hne].
        -- assert (x = Open) as -> by congruence. done.
        -- by destruct (Hothers _ _ Hne Hs).
    + intros d e He. by exists e.
  - unfold make_ending, ending_for. destruct (m_endings _ !! id) as [d|] eqn:Ed; cbn.
    + apply hinv_memory; try done; try apply H; [by intros d' e He; exists e|]. constructor; [|done].
      by apply (e_for _ _ _ _ HE).
    + set (M' := set_endings _ _ _).
      assert (∀ d e, m_ended (w_memory W) !! d = Some e → m_ended M' !! d = Some e) as Hold.
      { intros d e He. cbn. rewrite lookup_app_l; [done|]. by eapply lookup_lt_Some. }
      assert (m_ended M' !! length (m_ended (w_memory W)) = Some (MkEnding id false)) as Hnew by (by cbn; rewrite lookup_app_r, Nat.sub_diag).
      apply hinv_memory; try done; try apply H.
      * by apply (lanes_memory (w_memory W)); [| |apply HL].
      * split.
        -- intros id' d. cbn. intros [[<- <-]|[_ Hd]]%lookup_insert_Some; [by exists (MkEnding id false)|].
           destruct (e_for _ _ _ _ HE _ _ Hd) as (e & He & <-). exists e. split; [by apply Hold|done].
        -- intros d e. cbn. intros [He|[_ He]]%lookup_app_Some Hdone; [by eapply (e_done _ _ _ _ HE)|].
           apply list_lookup_singleton_Some in He as [_ <-]. done.
      * intros d e He. exists e. split; [by apply Hold|done].
      * constructor; [|done]. cbn. by exists (MkEnding id false).
  - rewrite Elearn. destruct (m_endings (w_memory W) !! id) as [d|] eqn:Ed.
    2:{ unfold ended_here. rewrite Ed. apply hinv_memory; try done; try apply H. by intros d e He'; exists e. }
    pose proof (ended_alter id d _ Ed) as Halter. destruct (e_for _ _ _ _ HE _ _ Ed) as (e0 & He0 & E0).
    unfold ended_here in *. rewrite Ed in *. apply hinv_memory; try done; try apply H.
    + by apply (lanes_memory (w_memory W)); [| |apply HL].
    + split.
      * intros id' d'. cbn. intros [_ Hd']%lookup_delete_Some. destruct (e_for _ _ _ _ HE _ _ Hd') as (e & He' & <-). cbn.
        rewrite list_lookup_alter. case_decide as Hdd; [subst d'|by exists e]. rewrite He'. by eexists.
      * intros d' e' He' Hdone. destruct (Halter d' e' He') as (e & Hold & -> & Hwas). destruct (Hwas Hdone) as [? | ->].
        -- by eapply (e_done _ _ _ _ HE).
        -- assert (e = e0) as -> by congruence. rewrite E0. exact (h_facts _ _ _ _ H f s (Ended id) Hs He).
    + intros d' e He'. cbn. rewrite list_lookup_alter. case_decide; [subst d'; rewrite He'; by eexists|by exists e].
Qed.

(** *** The lanes *)

Lemma hinv_stand f W σ p p' s M' y :
  hinv (Some f) W σ p → σ !! f = Some s →
  m_ready M' = m_ready (w_memory W) → m_endings M' = m_endings (w_memory W) → m_ended M' = m_ended (w_memory W) →
  let st' := <[f := y]> (stand <$> σ) in
  lanes_ok M' st' → phase_ok (m_lanes M') (w_tables W) st' (w_startup W) p' → (p = Serving → p' = Serving) →
  (∀ n, cancellable (m_lanes (w_memory W)) (stand <$> σ) n → cancellable (m_lanes M') st' n) →
  (∀ held, y = Nested held → stand s = Nested held) →
  hinv (Some f) (set_memory M' W) (<[f := stands y s]> σ) p'.
Proof.
  intros H Hs E1 E2 E3 st' Hl Hp Hpp Hc Hn.
  pose proof (own_same _ _ _ Hs) as Eo. pose proof (h_endings _ _ _ _ H) as [].
  assert (grows W (mine <$> σ) (stand <$> σ) (set_memory M' W) (mine <$> σ) st') as Hg.
  { apply grows_still; try done; [apply gives_up_refl|]. intros d e He. exists e. by cbn; rewrite E3. }
  eapply (hinv_move f W (set_memory M' W) σ p p' s (stands y s) H Hs); cbn [mine stands stand]; try rewrite Eo; try done.
  - apply H.
  - cbn. split; rewrite ?E2, ?E3; done.
  - cbn. rewrite E1. intros Hr. by apply Hpp, (h_ready _ _ _ _ H).
  - auto.
Qed.

Lemma serving_of st f x L T startup p :
  phase_ok L T st startup p → st !! f = Some x → (x = Open ∨ ∃ n ls, x = InLine n ls) → p = Serving.
Proof.
  intros Hp Hf Hx. destruct p as [|todo|]; [| |done]; exfalso.
  - pose proof (proj1 Hp _ _ Hf). by destruct Hx as [-> |(n & ls & ->)].
  - destruct Hp as (g & y & _ & Hy & Hh & Hothers & _). destruct (decide (f = g)) as [->|Hne].
    + assert (y = x) as -> by congruence. by destruct Hx as [-> |(n & ls & ->)].
    + specialize (Hothers _ _ Hne Hf). by destruct Hx as [-> |(n & ls & ->)].
Qed.

Lemma hinv_admit f W σ p s admission label occupant (k : LaneTicket → Op unit) :
  hinv (Some f) W σ p → σ !! f = Some s → checks s (Admits admission label occupant k) ends_well ends_well →
  let '(t, M') := admit_memory admission label occupant (w_memory W) in
  ∃ s' p', hinv (Some f) (set_memory M' W) (<[f := s']> σ) p' ∧ checks s' (k t) ends_well ends_well.
Proof.
  intros H Hs Hop. pose proof (st_lookup _ _ _ Hs) as Hst. pose proof (h_lanes _ _ _ _ H) as HL.
  unfold admit_memory. destruct (admit_waiter _ _ _ _ _) as [t L'] eqn:Ea.
  assert (∀ st', lanes_ok (set_lanes L' (w_memory W)) st' →
    lanes_ok (set_occupants (<[label:=occupant]> (m_occupants (w_memory W))) (set_lanes L' (w_memory W))) st') as Hocc.
  { intros st' H'. eapply lanes_memory; [exact H'|done|]. apply H'. }
  cbn [HearthLogic.checks] in Hop. destruct (stand s) as [| | |[[|[id ls] todo]|]| | | | |] eqn:Es; try done.
  - destruct Hop as (ls & El & Hop). eexists _, p. split; [|apply Hop].
    destruct (lanes_line (w_memory W) _ f Open admission ls HL Hst eq_refl El) as [H1 H2]. rewrite Ea in H1, H2. cbn in H1, H2.
    assert (p = Serving) as -> by (eapply serving_of; [apply H|exact Hst|by left]).
    assert (phase_ok (m_lanes (w_memory W)) (w_tables W) (<[f := InLine (t_waiter t) (normalizeLocks ls)]> (stand <$> σ)) (w_startup W) Serving) as Hp
      by (eapply phase_put; [exact (h_phase _ _ _ _ H)|exact Hst|done..]).
    apply (hinv_stand f W σ Serving Serving s _ _ H Hs); try done.
    + by apply Hocc.
    + intros n [Hn Hc]. apply cancellable_put; [|by intros ?]. split; [cbn; lia|done].
  - destruct Hop as ((label' & ->) & Hop).
    destruct (phase_hand (w_memory W) _ (w_tables W) (w_startup W) f label' id ls todo p HL (h_phase _ _ _ _ H) Hst) as (H1 & H2 & H3).
    rewrite Ea in H1, H2, H3. cbn [fst snd] in H1, H2, H3. eexists _, (Restoring todo). split; [|apply Hop].
    destruct (lanes_inv _ _ HL) as [Hi Hstab].
    destruct (admit_ticket hearth_options quiet_world (admission_of label' ls Wait) false _ Hi Hstab) as (E1 & _). rewrite Ea in E1. cbn in E1.
    apply (hinv_stand f W σ p (Restoring todo) s _ _ H Hs); try done.
    + by apply Hocc.
    + intros ->. by destruct (proj1 (h_phase _ _ _ _ H) _ _ Hst).
    + intros n [Hn Hc]. apply cancellable_put; [split; [cbn; lia|done]|]. cbn. lia.
Qed.

Lemma hinv_leave f W σ p s n (k : Op unit) :
  hinv (Some f) W σ p → σ !! f = Some s → checks s (Leave n k) ends_well ends_well →
  hinv (Some f) (set_memory (leave_memory n (w_memory W)) W) (<[f := stands Free s]> σ) p ∧ checks (stands Free s) k ends_well ends_well.
Proof.
  intros H Hs Hop. pose proof (st_lookup _ _ _ Hs) as Hst. pose proof (h_lanes _ _ _ _ H) as HL.
  cbn in Hop. destruct (stand s) as [| | | | | |m ls| |] eqn:Es; try done. destruct Hop as [-> Hop]. split; [|done].
  destruct (lanes_inv _ _ HL) as [Hi Hstab]. pose proof (l_stand _ _ HL _ _ Hst) as (w & Hw & Ew & _).
  apply (hinv_stand f W σ p p s _ _ H Hs); try done.
  - by eapply lanes_leave.
  - apply (phase_lanes (m_lanes (w_memory W))); [intros Hn; apply release_shrinks with w; [done..|by right]|].
    eapply phase_put; [exact (h_phase _ _ _ _ H)|exact Hst|done| |done]. by destruct p.
  - intros m [Hm Hc]. apply cancellable_put; [|by intros ?]. split; [|done]. cbn.
    by destruct (release_counter quiet_world n w _ Hi Hw (or_intror Ew)) as [-> _].
Qed.

(** *** Another fiber *)

Lemma fresh_fiber busy W σ p : hinv busy W σ p → w_fibers W !! w_next W = None ∧ σ !! w_next W = None.
Proof.
  intros H. assert (w_fibers W !! w_next W = None) as Hf.
  { apply eq_None_not_Some. intros Hs. pose proof (h_next _ _ _ _ H (w_next W) (or_introl Hs)). lia. }
  split; [done|]. apply eq_None_not_Some. intros Hs%(h_dom _ _ _ _ H). rewrite Hf in Hs. by destruct Hs.
Qed.

Lemma hinv_new busy f W σ p p' s s' c (op : Op unit) :
  hinv busy W σ p → σ !! f = Some s → checks c op ends_well ends_well → (busy = None → s' = s) → (busy = None ∨ busy = Some f) →
  (∀ held, stand s' = Nested held → stand s = Nested held) → (∀ held, stand c ≠ Nested held) →
  let own := mine <$> σ in let st := stand <$> σ in
  let own' := <[w_next W := mine c]> (<[f := mine s']> own) in let st' := <[w_next W := stand c]> (<[f := stand s']> st) in
  gives_up own own' → (∀ g h id, own' !! g = Some (Some id) → own' !! h = Some (Some id) → g = h) →
  lanes_ok (w_memory W) st' → phase_ok (m_lanes (w_memory W)) (w_tables W) st' (w_startup W) p' → (p = Serving → p' = Serving) →
  (∀ n, cancellable (m_lanes (w_memory W)) st n → cancellable (m_lanes (w_memory W)) st' n) →
  facts c ⊆ facts s → (∀ x, x ∈ facts s' → x ∈ facts s ∨ holds W own' st' x) →
  hinv busy (new_fiber op W) (<[w_next W := c]> (<[f := s']> σ)) p'.
Proof.
  intros H Hs Hop Hbs Hbf Hn Hcn own st own' st' Ho Hu Hl Hp Hpp Hc Hfc Hfs. destruct (fresh_fiber _ _ _ _ H) as [Hnf Hns].
  assert (f ≠ w_next W) as Hne by congruence.
  assert (mine <$> <[w_next W := c]> (<[f := s']> σ) = own') as Eo by by rewrite !fmap_insert.
  assert (stand <$> <[w_next W := c]> (<[f := s']> σ) = st') as Et by by rewrite !fmap_insert.
  assert (grows W own st W own' st') as Hg by (apply grows_still; try done; intros d e He; by exists e).
  split; rewrite ?Eo, ?Et.
  - apply (books_gives_up W own own'); [done..|apply H].
  - intros g s2 x Hg2 Hx. change (holds W own' st' x).
    assert (∀ h s3, σ !! h = Some s3 → x ∈ facts s3 → holds W own' st' x) as Hold.
    { intros h s3 Hh H3. eapply holds_grows; [exact Hg|]. by eapply (h_facts _ _ _ _ H). }
    apply lookup_insert_Some in Hg2 as [[<- <-]|[_ [[<- <-]|[_ Hg2]]%lookup_insert_Some]].
    + eapply Hold; [exact Hs|]. by apply Hfc.
    + destruct (Hfs x Hx); [by eapply Hold|done].
    + by eapply Hold.
  - exact Hl.
  - apply (endings_gives_up _ _ _ own); [done|apply H].
  - exact Hp.
  - intros Hr. by apply Hpp, (h_ready _ _ _ _ H).
  - intros g s2 held Hg2 Hh.
    assert (∃ h q k running, w_inside W !! g = Some h ∧ busy ≠ Some h ∧ w_fibers W !! h = Some (Asks q k) ∧ running_of q = Some running ∧ held = run_held running) as
      (h & q & k & running & H1 & H2 & H3 & H4).
    { apply lookup_insert_Some in Hg2 as [[<- <-]|[_ [[<- <-]|[_ Hg2]]%lookup_insert_Some]]; [by destruct (Hcn held)| |].
      - apply Hn in Hh. by apply (h_nested _ _ _ _ H f s).
      - by apply (h_nested _ _ _ _ H g s2). }
    exists h, q, k, running. split; [done|]. split; [done|]. split; [|done]. cbn. rewrite lookup_insert_ne; [done|]. intros E. rewrite <-E in H3. congruence.
  - intros g. cbn. destruct (decide (g = w_next W)) as [->|]; [rewrite !lookup_insert_eq; by split; eexists|].
    rewrite !(lookup_insert_ne _ (w_next W)) by done. rewrite <-(h_dom _ _ _ _ H).
    destruct (decide (g = f)) as [->|]; [rewrite lookup_insert_eq, Hs; by split; eexists|]. by rewrite lookup_insert_ne.
  - cbn. intros g op' Hb [[<- <-]|[Hgn Hg2]]%lookup_insert_Some; [exists c; by rewrite lookup_insert_eq|].
    rewrite lookup_insert_ne by done. destruct (h_fibers _ _ _ _ H g op' Hb Hg2) as (s2 & Hs2 & Hop2). exists s2. split; [|done].
    destruct (decide (g = f)) as [->|]; [|by rewrite lookup_insert_ne]. rewrite lookup_insert_eq.
    destruct Hbf as [Hbf|Hbf]; [|done]. rewrite (Hbs Hbf). congruence.
  - cbn. intros g Hg2. destruct (decide (g = w_next W)) as [->|]; [lia|]. rewrite lookup_insert_ne in Hg2 by done.
    pose proof (h_next _ _ _ _ H g Hg2). lia.
  - cbn. intros g Hg2. destruct (decide (g = w_next W)) as [->|].
    + pose proof (h_next _ _ _ _ H (w_next W) (or_intror Hg2)). lia.
    + rewrite lookup_insert_ne by done. by apply (h_exits _ _ _ _ H).
Qed.

Lemma hinv_forks f W σ p s (op : Op unit) (k : nat → Op unit) :
  hinv (Some f) W σ p → σ !! f = Some s → checks s (Forks op k) ends_well ends_well →
  ∃ σ' s' p', σ' !! f = Some s' ∧ hinv (Some f) (new_fiber op W) σ' p' ∧ checks s' (k (w_next W)) ends_well ends_well.
Proof.
  intros H Hs (c & s' & Hsplit & Hc & Hk). pose proof (st_lookup _ _ _ Hs) as Hst. pose proof (own_lookup _ _ _ Hs) as Hown.
  pose proof (h_lanes _ _ _ _ H) as HL. pose proof (h_books _ _ _ _ H) as HB. destruct (fresh_fiber _ _ _ _ H) as [_ Hfresh].
  assert (f ≠ w_next W) as Hne by congruence.
  assert ((stand <$> σ) !! w_next W = None) as Hfst by (by rewrite lookup_fmap, Hfresh).
  assert (checks c op ends_well ends_well) as Hc' by exact Hc.
  exists (<[w_next W := c]> (<[f := s']> σ)), s'. rewrite lookup_insert_ne, lookup_insert_eq by done.
  assert (∀ x, mine x = mine s → gives_up (mine <$> σ) (<[w_next W := None]> (<[f := mine x]> (mine <$> σ))) ∧
    ∀ g h id, <[w_next W := None]> (<[f := mine x]> (mine <$> σ)) !! g = Some (Some id) →
      <[w_next W := None]> (<[f := mine x]> (mine <$> σ)) !! h = Some (Some id) → g = h) as Hkeep.
  { intros x Ex. rewrite Ex, (own_same _ _ _ Hs). split; [apply gives_up_none|].
    intros g h id [[_ ?]|[_ Hg]]%lookup_insert_Some [[_ ?]|[_ Hh]]%lookup_insert_Some; try done. by eapply (b_once _ _ _ _ _ _ _ HB). }
  destruct Hsplit as [|n ls Es|n ls id todo Es].
  - exists p. split; [done|]. split; [|apply Hk]. destruct (Hkeep s eq_refl) as [H1 H2].
    eapply (hinv_new (Some f) f W σ p p s s _ op H Hs); cbn [mine stand facts]; try rewrite (st_same _ _ _ Hs); try done; auto.
    + apply lanes_put; [done|done|by intros|by intros].
    + apply phase_new; [apply H|done|by destruct p].
    + intros m Hm. by apply cancellable_put; [|intros ?].
  - rewrite Es in Hst. assert (p = Serving) as -> by (eapply serving_of; [apply H|exact Hst|right; eauto]).
    exists Serving. split; [done|]. split; [|apply Hk].
    assert (lanes_ok (w_memory W) (<[f := Open]> (stand <$> σ))) as HL1.
    { eapply lanes_restand; [exact HL|exact Hst|done|by left|by intros]. }
    assert (∀ m, cancellable (m_lanes (w_memory W)) (stand <$> σ) m →
      cancellable (m_lanes (w_memory W)) (<[w_next W := InLine n ls]> (<[f := Open]> (stand <$> σ))) m) as Hcan.
    { intros m Hm. apply cancellable_put; [|by intros ?]. apply cancellable_put; [done|by intros ?]. }
    eapply (hinv_new (Some f) f W σ Serving Serving s _ _ op H Hs); cbn [mine stand facts learns stands]; try done; auto.
    + intros g id [[<- Em]|[_ [[_ ?]|[_ Hg]]%lookup_insert_Some]]%lookup_insert_Some; [exists f; by rewrite Hown, Em|done|by exists g].
    + assert (∀ g id, mine s = Some id → (mine <$> σ) !! g = Some (Some id) → g = f) as Hu.
      { intros g id Em Hg. eapply (b_once _ _ _ _ _ _ _ HB); [exact Hg|]. by rewrite Hown, Em. }
      intros g h id [[<- E1]|[N1 [[_ ?]|[N1' Hg]]%lookup_insert_Some]]%lookup_insert_Some
        [[<- E2]|[N2 [[_ ?]|[N2' Hh]]%lookup_insert_Some]]%lookup_insert_Some; try done.
      * by destruct N2'; symmetry; eapply Hu.
      * by destruct N1'; symmetry; eapply Hu.
      * by eapply (b_once _ _ _ _ _ _ _ HB).
    + apply lanes_put; [done|exact (l_stand _ _ HL _ _ Hst)| |by intros].
      intros m [= <-] g x Hg [[<- <-]|[Hgf Hx]]%lookup_insert_Some; [done|]. intros Ht. apply Hgf. symmetry.
      by eapply (l_once _ _ HL).
    + apply phase_new; [|by rewrite lookup_insert_ne|done]. by eapply phase_put; [apply H|exact Hst|..].
    + intros x [->|Hx]%elem_of_cons; [right|by left]. cbn. split.
      * eapply ticket_next; [by apply (lanes_inv _ _ HL)|exact (l_stand _ _ HL _ _ Hst)|done].
      * intros g y [[<- <-]|[_ [[<- <-]|[Hgf Hy]]%lookup_insert_Some]]%lookup_insert_Some Hr; [done..|].
        apply Hgf. symmetry. eapply (l_once _ _ HL); [exact Hy|exact Hst| |done]. destruct y; try done; cbn in *; congruence.
  - rewrite Es in Hst. destruct (phase_handed _ _ _ _ f (w_next W) n ls id todo p (h_phase _ _ _ _ H) Hst Hfst) as [p' Hp'].
    exists p'. split; [done|]. split; [|apply Hk].
    assert (ticket_of (booting todo) = None ∧ stand_ok (m_lanes (w_memory W)) (booting todo) ∧ ∀ m, ¬ reserves (booting todo) m) as (B1 & B2 & B3)
      by (destruct todo; repeat split; by intros ? ?).
    destruct (Hkeep s eq_refl) as [H1 H2].
    eapply (hinv_new (Some f) f W σ p p' s _ _ op H Hs); cbn [mine stand facts stands]; try done; auto.
    + by destruct todo.
    + apply lanes_put; [|exact (l_stand _ _ HL _ _ Hst)|..].
      * eapply lanes_restand; [exact HL|exact Hst|done|by left|]. intros m Hm. by destruct (B3 m).
      * intros m [= <-] g x Hg [[<- <-]|[Hgf Hx]]%lookup_insert_Some; [by rewrite B1|]. intros Ht. apply Hgf. symmetry.
        by eapply (l_once _ _ HL).
      * intros m q <- Hq. destruct (l_places _ _ HL _ _ Hq) as [_ Hc0]. by apply (Hc0 _ _ Hst).
    + intros ->. by destruct (proj1 (h_phase _ _ _ _ H) _ _ Hst).
    + intros m Hm. apply cancellable_put; [by apply cancellable_put|]. intros <-. by apply (proj2 Hm _ _ Hst).
Qed.

(** ** A fiber ends or waits *)

Lemma hinv_end f W σ p s exit :
  hinv (Some f) W σ p → σ !! f = Some s → may_end (stand s) → hinv None (end_fiber f exit W) (delete f σ) p.
Proof.
  intros H Hs He. pose proof (st_lookup _ _ _ Hs) as Hst.
  assert (mine <$> delete f σ = delete f (mine <$> σ)) as Eo by apply fmap_delete.
  assert (stand <$> delete f σ = delete f (stand <$> σ)) as Et by apply fmap_delete.
  assert (gives_up (mine <$> σ) (delete f (mine <$> σ))) as Ho by (intros g id [_ Hg]%lookup_delete_Some; by exists g).
  assert (grows W (mine <$> σ) (stand <$> σ) W (delete f (mine <$> σ)) (delete f (stand <$> σ))) as Hg.
  { apply grows_still; try done; [|intros d e Hd; by exists e]. intros n [Hn Hc]. split; [done|].
    intros g x [_ Hg]%lookup_delete_Some. by eapply Hc. }
  split; rewrite ?Eo, ?Et; cbn.
  - apply (books_gives_up W (mine <$> σ)); [done| |apply H]. intros g h id [_ Hg1]%lookup_delete_Some [_ Hh]%lookup_delete_Some.
    by eapply (b_once _ _ _ _ _ _ _ (h_books _ _ _ _ H)).
  - intros g s2 x [_ Hg2]%lookup_delete_Some Hx. change (holds W (delete f (mine <$> σ)) (delete f (stand <$> σ)) x).
    eapply holds_grows; [exact Hg|]. by eapply (h_facts _ _ _ _ H).
  - apply lanes_delete, H.
  - apply (endings_gives_up _ _ _ (mine <$> σ)); [done|apply H].
  - eapply phase_delete; [apply H|done|done].
  - apply H.
  - intros g s2 held [_ Hg2]%lookup_delete_Some Hh. destruct (h_nested _ _ _ _ H g s2 held Hg2 Hh) as (h & q & k & running & H1 & H2 & H3 & H4).
    exists h, q, k, running. split; [done|]. split; [done|]. split; [|done]. rewrite lookup_delete_ne; [done|]. congruence.
  - intros g. destruct (decide (g = f)) as [->|]; [rewrite !lookup_delete_eq; by split; intros []|]. rewrite !lookup_delete_ne by done. apply H.
  - intros g op _ [Hne Hg2]%lookup_delete_Some. rewrite lookup_delete_ne by done. apply (h_fibers _ _ _ _ H); congruence.
  - intros g Hg2. apply (h_next _ _ _ _ H). destruct Hg2 as [[x Hx]|[x Hx]].
    + left. apply lookup_delete_Some in Hx as [_ Hx]. by exists x.
    + apply lookup_insert_Some in Hx as [[<- _]|[_ Hx]]; [left; apply (h_dom _ _ _ _ H); by exists s|right; by exists x].
  - intros g [x Hx]. apply lookup_insert_Some in Hx as [[<- _]|[_ Hx]]; [apply lookup_delete_eq|].
    apply lookup_delete_None. right. apply (h_exits _ _ _ _ H). by exists x.
Qed.

Lemma hinv_wait f W σ p s op :
  hinv (Some f) W σ p → σ !! f = Some s → checks s op ends_well ends_well → hinv None (set_fiber f op W) σ p.
Proof.
  intros H Hs Hop. split; try apply H; cbn.
  - intros g s2 held Hg2 Hh. destruct (h_nested _ _ _ _ H g s2 held Hg2 Hh) as (h & q & k & running & H1 & H2 & H3 & H4).
    exists h, q, k, running. split; [done|]. split; [done|]. split; [|done]. rewrite lookup_insert_ne; [done|]. congruence.
  - intros g. rewrite (h_dom _ _ _ _ H). destruct (decide (g = f)) as [->|]; [|by rewrite lookup_insert_ne].
    rewrite lookup_insert_eq. split; [by eexists|]. intros _. apply (h_dom _ _ _ _ H). by exists s.
  - intros g op' _ [[<- <-]|[Hne Hg2]]%lookup_insert_Some; [by exists s|]. apply (h_fibers _ _ _ _ H); congruence.
  - intros g Hg2. apply (h_next _ _ _ _ H). destruct (decide (g = f)) as [->|]; [|by rewrite lookup_insert_ne in Hg2].
    left. apply (h_dom _ _ _ _ H). by exists s.
  - intros g Hg2. pose proof (h_exits _ _ _ _ H g Hg2) as Hn. rewrite lookup_insert_ne; [done|]. intros <-.
    assert (is_Some (w_fibers W !! f)) as Hf by (apply (h_dom _ _ _ _ H); by exists s). rewrite Hn in Hf. by destruct Hf.
Qed.

Lemma hinv_answers f W σ p s id input :
  hinv (Some f) W σ p → σ !! f = Some s → WasAsked id input ∈ facts s → hinv (Some f) (note_answered id input W) σ p.
Proof.
  intros H Hs Hin. pose proof (h_facts _ _ _ _ H f s _ Hs Hin) as Hasked. cbn in Hasked.
  split; try apply H. destruct (h_books _ _ _ _ H). split; try done. cbn. intros id' x [Hx|Hx]%elem_of_app; [by apply b_answered|].
  apply list_elem_of_singleton in Hx as [= -> ->]. done.
Qed.

(** What runs until a fiber waits; for anything else nothing is known of the rest. *)
Fixpoint op_settles (P : Op unit → Prop)
    (Hdo : ∀ change k, (∀ now M, P (k now M)) → P (Do change k))
    (Hadmit : ∀ admission label occupant k, (∀ t, P (k t)) → P (Admits admission label occupant k))
    (Hleave : ∀ n k, P k → P (Leave n k))
    (Hforks : ∀ p k, (∀ f, P (k f)) → P (Forks p k))
    (Hanswers : ∀ id input k, P k → P (Answers id input k))
    (Hstop : ∀ op, match op with Do _ _ | Admits _ _ _ _ | Leave _ _ | Forks _ _ | Answers _ _ _ => False | _ => True end → P op)
    (op : Op unit) {struct op} : P op :=
  let again := op_settles P Hdo Hadmit Hleave Hforks Hanswers Hstop in
  match op with
  | Do change k => Hdo change k (λ now M, again (k now M))
  | Admits admission label occupant k => Hadmit admission label occupant k (λ t, again (k t))
  | Leave n k => Hleave n k (again k)
  | Forks p k => Hforks p k (λ f, again (k f))
  | Answers id input k => Hanswers id input k (again k)
  | op => Hstop op I
  end.

Lemma settle_inv f now op : ∀ s σ p W,
  hinv (Some f) W σ p → σ !! f = Some s → checks s op ends_well ends_well → ∃ σ' p', hinv None (settle f now op W) σ' p'.
Proof.
  induction op as [change k IH|admission label occupant k IH|n k IH|q k IH|id input k IH|op Hstop] using op_settles; intros s σ p W H Hs Hop.
  - destruct (Hop now (w_memory W)) as (s' & Hstep & Hk). cbn [settle].
    eapply IH; [by eapply hinv_mem_step|by rewrite lookup_insert_eq|done].
  - cbn [settle]. pose proof (hinv_admit f W σ p s admission label occupant k H Hs Hop) as Ha.
    destruct (admit_memory _ _ _ _) as [t M]. destruct Ha as (s' & p' & H' & Hk). eapply IH; [exact H'|by rewrite lookup_insert_eq|done].
  - cbn [settle]. destruct (hinv_leave f W σ p s n k H Hs Hop) as [H' Hk]. eapply IH; [exact H'|by rewrite lookup_insert_eq|done].
  - cbn [settle]. destruct (hinv_forks f W σ p s q k H Hs Hop) as (σ' & s' & p' & Hs' & H' & Hk). by eapply IH.
  - cbn [settle]. destruct Hop as [Hin Hk]. eapply IH; [by eapply hinv_answers|done|done].
  - assert (∀ W', settle f now op W = set_fiber f op W → W' = set_fiber f op W → ∃ σ' p', hinv None W' σ' p') as Hwait.
    { intros W' _ ->. exists σ, p. by eapply hinv_wait. }
    destruct op; try done; cbn [settle]; try (by eapply Hwait).
    + exists (delete f σ), p. by eapply hinv_end.
    + exists (delete f σ), p. by eapply hinv_end.
Qed.

(** ** A fiber that waited goes on *)

Lemma hinv_busy f W σ p op :
  hinv None W σ p → w_fibers W !! f = Some op →
  (∀ q k running, op = Asks q k → running_of q = Some running → has_inside f W = false) →
  hinv (Some f) W σ p ∧ ∃ s, σ !! f = Some s ∧ checks s op ends_well ends_well.
Proof.
  intros H Hf Hin. split; [|by apply (h_fibers _ _ _ _ H)]. split; try apply H; [|intros g op' _; by apply (h_fibers _ _ _ _ H)].
  intros g s held Hg Hh. destruct (h_nested _ _ _ _ H g s held Hg Hh) as (h & q & k & running & H1 & H2 & H3 & H4 & H5).
  exists h, q, k, running. split; [done|]. split; [|done]. intros [= <-]. rewrite Hf in H3. injection H3 as ->.
  specialize (Hin q k running eq_refl H4). unfold has_inside in Hin.
  apply not_true_iff_false in Hin. apply Hin, existsb_exists. exists g. rewrite bool_decide_eq_true. split; [|done].
  apply list_elem_of_In, list_elem_of_fmap. assert (is_Some (w_fibers W !! g)) as [op' Hop'] by (apply (h_dom _ _ _ _ H); by exists s).
  exists (g, op'). split; [done|]. by apply elem_of_map_to_list.
Qed.

(** A fiber of its own starts. *)
Lemma hinv_spawn W σ p p' c op i startup :
  hinv None W σ p → checks c op ends_well ends_well → mine c = None → ticket_of (stand c) = None →
  (∀ g, g ≠ w_next W → i !! g = w_inside W !! g) →
  (∀ held, stand c = Nested held → ∃ h q k running,
    i !! w_next W = Some h ∧ w_fibers W !! h = Some (Asks q k) ∧ running_of q = Some running ∧ held = run_held running) →
  phase_ok (m_lanes (w_memory W)) (w_tables W) (<[w_next W := stand c]> (stand <$> σ)) startup p' → (p = Serving → p' = Serving) →
  (∀ x, x ∈ facts c → holds W (mine <$> σ) (stand <$> σ) x) →
  hinv None (set_startup startup (set_inside i (new_fiber op W))) (<[w_next W := c]> σ) p'.
Proof.
  intros H Hop Hm Ht Hi Hn Hp Hpp Hf. destruct (fresh_fiber _ _ _ _ H) as [Hnf Hns].
  assert (∀ m, ¬ reserves (stand c) m) as Hres by (intros m Hr; destruct (stand c); try done).
  assert (mine <$> <[w_next W := c]> σ = <[w_next W := None]> (mine <$> σ)) as Eo by (by rewrite fmap_insert, Hm).
  assert (stand <$> <[w_next W := c]> σ = <[w_next W := stand c]> (stand <$> σ)) as Et by apply fmap_insert.
  assert (grows W (mine <$> σ) (stand <$> σ) W (<[w_next W := None]> (mine <$> σ)) (<[w_next W := stand c]> (stand <$> σ))) as Hg.
  { apply grows_still; try done; [apply gives_up_none| |intros d e He; by exists e]. intros m Hc. by apply cancellable_put. }
  split; rewrite ?Eo, ?Et; cbn.
  - apply (books_gives_up W (mine <$> σ)); [apply gives_up_none| |apply H].
    intros g h id [[_ ?]|[_ Hg1]]%lookup_insert_Some [[_ ?]|[_ Hh]]%lookup_insert_Some; try done.
    by eapply (b_once _ _ _ _ _ _ _ (h_books _ _ _ _ H)).
  - intros g s2 x Hg2 Hx. change (holds W (<[w_next W := None]> (mine <$> σ)) (<[w_next W := stand c]> (stand <$> σ)) x).
    eapply holds_grows; [exact Hg|]. apply lookup_insert_Some in Hg2 as [[<- <-]|[_ Hg2]]; [by apply Hf|by eapply (h_facts _ _ _ _ H)].
  - apply lanes_put; [apply H|by destruct (stand c)|intros m Em; congruence|intros m q Hr; by destruct (Hres m)].
  - apply (endings_gives_up _ _ _ (mine <$> σ)); [apply gives_up_none|apply H].
  - done.
  - intros Hr. by apply Hpp, (h_ready _ _ _ _ H).
  - assert (∀ h op', w_fibers W !! h = Some op' → <[w_next W := op]> (w_fibers W) !! h = Some op') as Hold.
    { intros h op' Hh. rewrite lookup_insert_ne; [done|]. congruence. }
    intros g s2 held [[<- <-]|[Hne Hg2]]%lookup_insert_Some Hh.
    + destruct (Hn held Hh) as (h & q & k & running & H1 & H2 & H3). exists h, q, k, running. auto.
    + destruct (h_nested _ _ _ _ H g s2 held Hg2 Hh) as (h & q & k & running & H1 & H2 & H3 & H4). exists h, q, k, running.
      rewrite Hi by done. auto.
  - intros g. destruct (decide (g = w_next W)) as [->|]; [rewrite !lookup_insert_eq; by split; eexists|]. rewrite !lookup_insert_ne by done. apply H.
  - intros g op' _ [[<- <-]|[Hne Hg2]]%lookup_insert_Some; [exists c; by rewrite lookup_insert_eq|]. rewrite lookup_insert_ne by done.
    by apply (h_fibers _ _ _ _ H).
  - intros g Hg2. destruct (decide (g = w_next W)) as [->|]; [lia|]. rewrite lookup_insert_ne in Hg2 by done.
    pose proof (h_next _ _ _ _ H g Hg2). lia.
  - intros g Hg2. destruct (decide (g = w_next W)) as [->|].
    + pose proof (h_next _ _ _ _ H (w_next W) (or_intror Hg2)). lia.
    + rewrite lookup_insert_ne by done. by apply (h_exits _ _ _ _ H).
Qed.
End Steps.
