(* ===== verification/HearthAnswers.v ===== *)
(** * What a statement leaves of the invariant

    A fiber's statement, answered or not, keeps [hinv]; the one that sets an
    operation running must be answered, or nobody holds its locks. *)
From S2P Require Import Prelude Operations Locks Grants Lanes LanesInv LanesGrant LanesSteps LanesFacts Plans Bytes Utf8.
From S2P Require Import HearthLanes HearthRecords HearthMonad HearthPrograms HearthWorld HearthTickets HearthLogic HearthChecks HearthInv HearthStands.
From S2P Require Import HearthSteps.

Section Answers.
Context (durableKinds : list (string * DurableOperation)) (K : kinds_ok durableKinds).
Notation checks := (checks durableKinds).
Notation holds := (holds durableKinds).
Notation hinv := (hinv durableKinds).
Notation commits := (commits durableKinds).
Notation may_run := (may_run durableKinds).
Notation heard := (heard durableKinds).

Lemma lanes_bind M st f x id : lanes_ok M st → st !! f = Some x → lanes_ok M (<[f := bind id x]> st).
Proof.
  intros H Hf. pose proof (l_stand _ _ H _ _ Hf) as Hs. apply (lanes_restand M st f x); [done|done|..]; destruct x; try done; by right.
Qed.

Lemma phase_bind L T st startup p f x id :
  phase_ok L T st startup p → st !! f = Some x → phase_ok L T (<[f := bind id x]> st) startup p.
Proof.
  intros H Hf. destruct x; try (cbn; by rewrite insert_id).
  apply (phase_put L T st startup p f _ _ H Hf); try done. destruct p; try done. by destruct (proj1 H _ _ Hf).
Qed.

Lemma bind_reserves id x n : reserves (bind id x) n → reserves x n.
Proof. by destruct x. Qed.

Lemma commits_runs s T T' more new id ls :
  commits s T T' more new → runs T' id ls → runs T id ls ∨ new = Some id ∧ ∃ row, t_rows T' !! id = Some row ∧ row_locks row = ls ∧ ls ≠ [].
Proof.
  intros Hc (row & Hr & Hs & Hl & Hne).
  destruct Hc as [T' Hsub|id0 row0 row' H0 Hm Hi Hq Hst|id0 row0 now H0 Hw|id0 row0 d new' now H0 Hw|id0 row0 d Hm H0].
  - left. exists row. split; [by eapply lookup_weaken|done].
  - cbn in Hr. apply lookup_insert_Some in Hr as [[<- <-]|[_ Hr]]; left; [|by exists row].
    exists row0. split; [done|]. split; [by apply Hst|]. apply moves_locks in Hm as [<- _]. done.
  - cbn in Hr. apply lookup_insert_Some in Hr as [[<- <-]|[_ Hr]]; [right|left; by exists row].
    split; [done|]. eexists. cbn. rewrite lookup_insert_eq. done.
  - cbn in Hr. apply lookup_insert_Some in Hr as [[<- <-]|[_ Hr]]; left; [|by exists row]. cbn in Hs. congruence.
  - cbn in Hr. apply lookup_insert_Some in Hr as [[<- <-]|[_ Hr]]; [right|left; by exists row].
    rewrite decide_True by done. split; [done|]. eexists. cbn. rewrite lookup_insert_eq. done.
Qed.

Lemma over_commits s f T T' more new ids asked executed answered own own' id :
  books durableKinds T ids asked executed answered own → own !! f = Some (mine s) → commits s T T' more new → disowns own own' →
  over T ids own id → over T' ids own' id.
Proof.
  intros B Hf Hc Hd [Hk Ho]. split; [by eapply known_disowns|]. intros row' Hr'.
  destruct (proj1 (commits_rows durableKinds s f T T' more new ids asked executed answered own id B Hf Hc Hk) _ Hr') as (row & Hr & Hm).
  eapply moves_closed; [exact Hm|by apply Ho].
Qed.

Lemma hinv_commit f W σ p s (st : Statement) T' a s' new :
  hinv (Some f) W σ p → σ !! f = Some s → commits s (w_tables W) T' (asked_by st a) new →
  (mine s' = mine s ∨ mine s' = None) → (∀ id, mine s' = Some id → t_rows T' !! id = None) →
  (stand s' = stand s ∨ ∃ id, stand s' = bind id (stand s)) →
  (∀ id row, new = Some id → t_rows T' !! id = Some row → row_locks row ≠ [] → p ≠ Shut ∧ guards (stand s') id (row_locks row)) →
  (∀ x, x ∈ facts s' → x ∈ facts s ∨ holds (commit st T' a W) (<[f := mine s']> (mine <$> σ)) (<[f := stand s']> (stand <$> σ)) x) →
  hinv (Some f) (commit st T' a W) (<[f := s']> σ) p.
Proof.
  intros H Hs Hc Hm Hnew Hst Hguard Hfacts.
  pose proof (h_books _ _ _ _ _ H) as HB. pose proof (own_lookup _ _ _ Hs) as Hown. pose proof (st_lookup _ _ _ Hs) as Hstf.
  set (own := mine <$> σ) in *. set (st0 := stand <$> σ) in *.
  assert (disowns own (<[f := mine s']> own)) as Hd.
  { intros g id [[<- E]|[_ Hg]]%lookup_insert_Some; [|done]. destruct Hm as [Em|Em]; [|congruence]. by rewrite Hown, <-Em, E. }
  assert (∀ n, cancellable (m_lanes (w_memory W)) st0 n → cancellable (m_lanes (w_memory W)) (<[f := stand s']> st0) n) as Hcan.
  { intros n Hn. apply cancellable_put; [done|]. destruct Hst as [->|[id ->]]; [|intros Hr%bind_reserves; by apply (proj2 Hn _ _ Hstf)].
    by apply (proj2 Hn _ _ Hstf). }
  apply (hinv_move durableKinds f W (commit st T' a W) σ p p s s' H Hs).
  - done.
  - eapply books_commits; try done. intros id Hid. rewrite lookup_insert_eq in Hid. injection Hid as Hid. by apply Hnew.
  - change (w_memory (commit st T' a W)) with (w_memory W). destruct Hst as [->|[id ->]]; [|apply lanes_bind; [apply H|done]].
    rewrite insert_id; [apply H|done].
  - destruct (h_endings _ _ _ _ _ H). split; [done|]. intros d e He Hdone. eapply over_commits; try done. by eapply e_done.
  - change (w_memory (commit st T' a W)) with (w_memory W). apply (phase_tables _ (w_tables W)).
    + intros id ls Hr. destruct (commits_runs _ _ _ _ _ _ _ Hc Hr) as [Hr'|(En & row & Hrow & <- & Hne)]; [by left|right].
      destruct (Hguard id row En Hrow Hne) as [Hp Hg]. split; [done|]. exists f, (stand s'). by rewrite lookup_insert_eq.
    + destruct Hst as [->|[id ->]]; [|apply phase_bind; [apply H|done]]. rewrite insert_id; [apply H|done].
  - apply H.
  - assert (∀ id, known (w_ids W) own id → known (w_ids W) (<[f := mine s']> own) id) as Hk by (intros id; by apply known_disowns).
    split; try done.
    + intros id row' Hkn Hr'. by apply (proj1 (commits_rows durableKinds s f _ T' _ _ _ _ _ _ own id HB Hown Hc Hkn)).
    + intros id Hp. change (w_asked (commit st T' a W)) with (w_asked W ++ asked_by st a). rewrite asks_app, (proj2 (commits_rows durableKinds s f _ T' _ _ _ _ _ _ own id HB Hown Hc (proj1 Hp)) Hp). apply app_nil_r.
    + intros e He. apply elem_of_app. by left.
    + intros d e He. by exists e.
  - done.
  - intros held Hh. destruct Hst as [<-|[id Es]]; [done|]. rewrite Es in Hh. by destruct (stand s).
Qed.

(** ** Heard *)

Lemma hears_facts f W σ p s st T' a :
  hinv (Some f) W σ p → σ !! f = Some s → may_run s st → apply st (w_tables W) = Some (T', a) → st ≠ ListRunning →
  ∀ x, x ∈ facts (heard s st a) → x ∈ facts s ∨
    holds (commit st T' a W) (<[f := mine (heard s st a)]> (mine <$> σ)) (<[f := stand (heard s st a)]> (stand <$> σ)) x.
Proof.
  intros H Hs Hrun Ha Hne x. pose proof (h_books _ _ _ _ _ H) as HB. pose proof (own_lookup _ _ _ Hs) as Hown.
  set (own := mine <$> σ) in *.
  assert (∀ id row, t_rows (w_tables W) !! id = Some row → known (w_ids W) (<[f := mine s]> own) id) as Hknown.
  { intros id row Hr. rewrite insert_id by done. by eapply row_known. }
  destruct st as [id row ignore|kind key|id|id outcome error now|id|id now|kind key new join now|id now|kind key|kind| | | |id execution|cutoff
    |executions|ids']; cbn in Ha; try (by left).
  - destruct (taken id row (w_tables W)) eqn:Et; [destruct ignore; by simplify_eq; left|]. simplify_eq. apply taken_none in Et as Hnone.
    destruct Hrun as (Hm & _). cbn [HearthLogic.heard facts mine].
    assert (known (w_ids W) (<[f := None]> own) id) as Hk.
    { destruct (b_own _ _ _ _ _ _ _ HB f id) as [Hi _]; [by rewrite Hown, Hm|]. split; [done|].
      intros g [[_ ?]|[Hg Hgo]]%lookup_insert_Some; [done|]. apply Hg. symmetry. eapply (b_once _ _ _ _ _ _ _ HB); [exact Hgo|].
      by rewrite Hown, Hm. }
    assert (every_row (put id row (w_tables W)) id (λ r, r = row)) as Hrow by (intros r; cbn; rewrite lookup_insert_eq; by intros [= <-]).
    intros [Hx|Hx]%elem_of_app; [right|].
    + apply elem_of_cons in Hx as [->|Hx%list_elem_of_singleton]; [split; [done|]; by intros r ->%Hrow|subst x].
      exists (row_kind row). cbn. apply elem_of_app. right. by left.
    + apply elem_of_app in Hx as [Hx|Hx]; [right|by left]. case_decide as Hst; [|in_nil Hx]. apply list_elem_of_singleton in Hx as ->.
      split; [done|]. intros r ->%Hrow. congruence.
  - injection Ha as Ha. apply update_row in Ha as [(-> & row & Hr & Ho & ->)|[-> ->]]; [|by left]. cbn. intros [->|Hx]%elem_of_cons; [right|by left].
    split; [by eapply Hknown|]. intros r. cbn. rewrite lookup_insert_eq. intros [= <-]. destruct Hrun as [? ?]. by destruct outcome.
  - simplify_eq. cbn [HearthLogic.heard]. destruct (t_rows (w_tables W) !! id) as [row|] eqn:Er; [|by left].
    assert (every_row (w_tables W) id (λ r, r = row)) as Hrow by (intros r Hr; congruence).
    intros [->|Hx]%elem_of_cons; [right; split; [by eapply Hknown|by intros r ->%Hrow]|]. case_decide as Hw; [by left|].
    change (x ∈ [Past id; Reads id (row_input row)] ++ facts s) in Hx. apply elem_of_app in Hx as [Hx|Hx]; [right|by left].
    assert (past (w_tables W) (w_ids W) (<[f := mine s]> own) id) as Hp by (split; [by eapply Hknown|by intros r ->%Hrow]).
    apply elem_of_cons in Hx as [->|Hx%list_elem_of_singleton]; [done|subst x]. split; [done|].
    apply (b_rows _ _ _ _ _ _ _ HB) in Er as (_ & _ & d & Hd & _ & _ & Hf). exists d. split; [done|].
    unfold commit. cbn. by rewrite app_nil_r.
  - injection Ha as Ha. apply update_row in Ha as [(-> & row & Hr & Ho & ->)|[-> ->]]; [|by left]. cbn. intros [->|Hx]%elem_of_cons; [right|by left].
    split; [by eapply Hknown|]. intros r. cbn. rewrite lookup_insert_eq. by intros [= <-].
  - cbn [HearthLogic.heard]. destruct a as [|id|]; try (by left). intros [->|Hx]%elem_of_cons; [right|by left]. exists kind. cbn.
    apply elem_of_app. right. by left.
  - simplify_eq. cbn [HearthLogic.heard]. intros [Hx|Hx]%elem_of_app; [right|by left].
    apply list_elem_of_fmap in Hx as ([id row] & -> & Hin).
    assert (t_rows (w_tables W) !! id = Some row) as Hr.
    { unfold oldest_first, select in Hin. rewrite (stable_sort_perm _), elem_of_bfilter in Hin. by apply elem_of_map_to_list, Hin. }
    split; [by eapply Hknown|]. intros r Hr'. cbn in *. assert (r = row) as -> by congruence. symmetry.
    eapply restored_locks; [done|]. by apply (b_rows _ _ _ _ _ _ _ HB).
Qed.

(** Which operation a statement set running. *)
Definition starting (st : Statement) : answer st → option string :=
  match st return answer st → option string with
  | Insert id row _ => λ inserted : bool, if inserted then if decide (row_state row = SRunning) then Some id else None else None
  | Start id _ => λ started : bool, if started then Some id else None
  | _ => λ _, None
  end.

Lemma statement_commits f W σ p s st T' a :
  hinv (Some f) W σ p → may_run s st → apply st (w_tables W) = Some (T', a) →
  commits s (w_tables W) T' (asked_by st a) (starting st a).
Proof. intros H Hr Ha. eapply apply_commits; [apply (h_books _ _ _ _ _ H)|done|done]. Qed.

Lemma mine_fresh busy f W σ p s id : hinv busy W σ p → σ !! f = Some s → mine s = Some id → t_rows (w_tables W) !! id = None.
Proof.
  intros H Hs Em. destruct (b_own _ _ _ _ _ _ _ (h_books _ _ _ _ _ H) f id) as (_ & ? & _); [|done].
  by rewrite (own_lookup _ _ _ Hs), Em.
Qed.

(** What runs is read before anything else may start. *)
Lemma hinv_list_running f W σ p s T' a :
  hinv (Some f) W σ p → σ !! f = Some s → may_run s ListRunning → apply ListRunning (w_tables W) = Some (T', a) →
  ∃ p', hinv (Some f) (commit ListRunning T' a W) (<[f := heard s ListRunning a]> σ) p'.
Proof.
  intros H Hs Hrun [= <- <-].
  assert (hinv (Some f) (commit ListRunning (w_tables W) (oldest_first (select (has_state SRunning) (w_tables W))) W) σ p) as H1.
  { rewrite <-(insert_id σ f s) by done. eapply (hinv_commit f W σ p s ListRunning _ _ s None); try done; [by apply cm_fewer|by left| |by left|auto].
    intros id Em. by eapply mine_fresh. }
  set (W1 := commit _ _ _ W) in *. cbn [HearthLogic.heard]. destruct Hrun as [Es|Es]; rewrite Es.
  2:{ exists p. by rewrite insert_id. }
  pose proof (st_lookup _ _ _ Hs) as Hst. rewrite Es in Hst.
  assert (p = Shut) as ->.
  { pose proof (h_phase _ _ _ _ _ H) as Hp. destruct p as [|todo|]; [done| |by destruct (proj1 Hp _ _ Hst)].
    destruct Hp as (g & y & _ & Hy & Hh & Hothers & _). destruct (decide (f = g)) as [->|Hne]; [|by destruct (Hothers _ _ Hne Hst)].
    assert (y = Boot None) as -> by congruence. done. }
  destruct (phase_reads durableKinds (w_tables W) (w_ids W) (w_asked W) K (b_rows _ _ _ _ _ _ _ (h_books _ _ _ _ _ H)) _ _ _ f
    (h_phase _ _ _ _ _ H) Hst) as (p' & Hp' & _).
  exists p'. apply (hinv_stand durableKinds f W1 σ Shut p' s (w_memory W) _ H1 Hs); try done.
  - eapply lanes_restand; [apply H|exact Hst|by destruct (left_running _ _)|left; by destruct (left_running _ _)|].
    intros n Hr. by destruct (left_running _ _).
  - intros n Hn. apply cancellable_put; [done|]. intros Hr. by destruct (left_running _ _).
  - intros held. by destruct (left_running _ _).
Qed.

Lemma apply_fresh st T T' a id :
  apply st T = Some (T', a) → match st with Insert _ _ _ => False | _ => True end → t_rows T !! id = None → t_rows T' !! id = None.
Proof.
  assert (∀ id0 f change T' b, update id0 f change T = (T', b) → t_rows T !! id = None → t_rows T' !! id = None) as Hup.
  { intros id0 f change T1 b [(_ & row & Hr & _ & ->)|[_ ->]]%update_row Hn; [|done]. cbn. rewrite lookup_insert_ne; [done|]. congruence. }
  destruct st as [id1 row ignore|kind key|id1|id1 outcome error now|id1|id1 now|kind key new join now|id1 now|kind key|kind| | | |id1 execution|cutoff
    |executions|ids']; cbn; intros Ha Hst Hn; try done; injection Ha as Ha; try (by subst); try (by eapply Hup).
  - unfold join_waiting in Ha. destruct (find_row _ T) as [[id1 row]|] eqn:Ef; [|by simplify_eq].
    destruct (join _ _); simplify_eq; [|done]. apply find_row_Some in Ef as [Hr _]. cbn. rewrite lookup_insert_ne; [done|]. congruence.
  - destruct (update _ _ _ T) as [T1 b] eqn:Eu. cbn in Ha. subst. by eapply Hup.
  - subst. cbn. eapply lookup_weaken_None; [done|]. apply forgets_fewer.
Qed.

Lemma mine_heard s st a : mine (heard s st a) = mine s ∨ mine (heard s st a) = None.
Proof. destruct st; cbn; repeat case_match; auto. Qed.

Lemma stand_heard s st a : st ≠ ListRunning → stand (heard s st a) = stand s ∨ ∃ id, stand (heard s st a) = bind id (stand s).
Proof. destruct st; cbn; intros Hne; try done; repeat case_match; try (by left); right; by eexists. Qed.

Lemma hinv_hears f W σ p s st T' a :
  hinv (Some f) W σ p → σ !! f = Some s → may_run s st → apply st (w_tables W) = Some (T', a) →
  ∃ p', hinv (Some f) (commit st T' a W) (<[f := heard s st a]> σ) p' .
Proof.
  intros H Hs Hrun Ha. assert (st = ListRunning ∨ st ≠ ListRunning) as [->|Hne] by (destruct st; try (by right); by left).
  { by eapply hinv_list_running. }
  pose proof (statement_commits f W σ p s st T' a H Hrun Ha) as Hc. pose proof (hears_facts f W σ p s st T' a H Hs Hrun Ha Hne) as Hfacts.
  assert (∀ id n ls, stand s = Working n ls → p ≠ Shut ∧ guards (bind id (stand s)) id ls) as Hworks.
  { intros id n ls Es. rewrite Es. split; [|done]. intros ->. pose proof (proj1 (h_phase _ _ _ _ _ H) _ _ (st_lookup _ _ _ Hs)) as Hp.
    by rewrite Es in Hp. }
  exists p. apply (hinv_commit f W σ p s st T' a (heard s st a) (starting st a) H Hs Hc); [..|exact Hfacts].
  - apply mine_heard.
  - intros id Em. assert (mine s = Some id) as Em' by (destruct (mine_heard s st a) as [E|E]; congruence).
    pose proof (mine_fresh _ _ _ _ _ _ _ H Hs Em') as Hnone. destruct st as [id1 row ignore| | | | | | | | | | | | | | | |]; try (by eapply apply_fresh).
    destruct a; [done|]. cbn in Ha. destruct (taken _ _ _); [destruct ignore; by simplify_eq|done].
  - by apply stand_heard.
  - intros id row En Hrow Hl. destruct st as [id1 row1 ignore| | | | |id1 now| | | | | | | | | | |]; try done.
    + destruct a; [|done]. cbn in En, Ha. case_decide as Est; [|done]. injection En as ->.
      destruct (taken _ _ _); [destruct ignore; by simplify_eq|]. injection Ha as <-. cbn in Hrow. rewrite lookup_insert_eq in Hrow. injection Hrow as ->.
      destruct Hrun as (_ & _ & _ & [Hw|[_ [Hl'|[n Hn]]]]); [congruence|done|]. cbn. rewrite decide_True by done. by eapply Hworks.
    + destruct a; [|done]. injection En as ->. injection Ha as Ha. apply update_row in Ha as [(_ & row0 & Hr0 & _ & ->)|[? _]]; [|done].
      cbn in Hrow. rewrite lookup_insert_eq in Hrow. injection Hrow as <-. cbn in Hl.
      destruct Hrun as (ls & Hin & Hn). destruct (h_facts _ _ _ _ _ H f s _ Hs Hin) as [_ Hls]. rewrite (Hls _ Hr0) in Hl.
      destruct Hn as [->|[n Hn]]; [done|]. cbn. rewrite (Hls _ Hr0). by eapply Hworks.
Qed.

(** ** Not heard *)

(** What sets an operation running that holds locks must be heard of. *)
Definition quiet_statement (st : Statement) (T : Tables) : Prop :=
  match st with
  | Insert _ row _ => row_state row = SRunning → row_locks row = []
  | Start id _ => every_row T id (λ row, row_locks row = [])
  | _ => True
  end.

Lemma unheard_runs st T T' a id row :
  quiet_statement st T → apply st T = Some (T', a) → starting st a = Some id → t_rows T' !! id = Some row → row_locks row = [].
Proof.
  intros Hq Ha En Hrow. destruct st as [id1 row1 ignore| | | | |id1 now| | | | | | | | | | |]; try done.
  - destruct a; [|done]. cbn in En, Ha. case_decide as Est; [|done]. injection En as ->.
    destruct (taken _ _ _); [destruct ignore; by simplify_eq|]. injection Ha as <-. cbn in Hrow. rewrite lookup_insert_eq in Hrow.
    injection Hrow as ->. by apply Hq.
  - destruct a; [|done]. injection En as ->. injection Ha as Ha. apply update_row in Ha as [(_ & row0 & Hr0 & _ & ->)|[? _]]; [|done].
    cbn in Hrow. rewrite lookup_insert_eq in Hrow. injection Hrow as <-. exact (Hq _ Hr0).
Qed.

Lemma hinv_unheard f W σ p s s' st T' a :
  hinv (Some f) W σ p → σ !! f = Some s → may_run s st → apply st (w_tables W) = Some (T', a) → quiet_statement st (w_tables W) →
  stand s' = stand s → facts s' = facts s → (mine s' = None ∨ mine s' = mine s ∧ ∀ id row ignore, st ≠ Insert id row ignore) →
  hinv (Some f) (commit st T' a W) (<[f := s']> σ) p.
Proof.
  intros H Hs Hrun Ha Hq Es Ef Hm. pose proof (statement_commits f W σ p s st T' a H Hrun Ha) as Hc.
  apply (hinv_commit f W σ p s st T' a s' _ H Hs Hc).
  - destruct Hm as [?|[? _]]; auto.
  - intros id Em. destruct Hm as [?|[Em' Hi]]; [congruence|]. eapply apply_fresh; [exact Ha| |eapply mine_fresh; [exact H|exact Hs|congruence]].
    destruct st; try done. by destruct (Hi id0 row ignore).
  - by left.
  - intros id row En Hrow Hl. by destruct (Hl (unheard_runs st _ _ _ _ _ Hq Ha En Hrow)).
  - intros x Hx. left. by rewrite <-Ef.
Qed.

(** A statement that did nothing. *)
Lemma hinv_owns f W σ p s m :
  hinv (Some f) W σ p → σ !! f = Some s → m = None ∨ m = mine s → hinv (Some f) W (<[f := owns m s]> σ) p.
Proof.
  intros H Hs Hm. assert (hinv (Some f) (note_asked [] (set_tables (w_tables W) W)) (<[f := owns m s]> σ) p) as H1.
  { apply (hinv_commit f W σ p s ListWaiting (w_tables W) [] (owns m s) None H Hs); cbn; try done; [by apply cm_fewer|tauto| |by left|auto].
    intros id Em. destruct Hm as [Hm|Hm]; [congruence|]. eapply mine_fresh; [exact H|exact Hs|congruence]. }
  unfold note_asked in H1. cbn in H1. rewrite app_nil_r in H1. by destruct W.
Qed.
End Answers.
