(* ===== verification/HearthEvents.v ===== *)
(** * Every event keeps the invariant of Hearth's operations

    Whatever happens in a Hearth, restarts included, keeps [hinv], unless an
    answer is lost that a holder of lanes needs ([may_lose]). *)
From Stdlib Require Import Ascii.
From stdpp Require Import pretty.
From S2P Require Import Prelude Operations Locks Grants Lanes LanesInv LanesGrant LanesSteps LanesFacts Plans Bytes Utf8.
From S2P Require Import HearthLanes HearthRecords HearthMonad HearthPrograms HearthWorld HearthTickets HearthLogic HearthChecks.
From S2P Require Import HearthInv HearthStands HearthSteps HearthAnswers.

(** ** Names of kinds *)

Fixpoint has_at (s : string) : bool :=
  match s with EmptyString => false | String c s => bool_decide (c = "@"%char) || has_at s end.

Lemma at_splits a b p q : has_at p = false → has_at q = false → a +:+ "@" +:+ p = b +:+ "@" +:+ q → a = b.
Proof.
  intros Hp Hq. revert b. induction a as [|c a IH]; intros [|c' b]; cbn; [done|..].
  - intros [= <- E]. exfalso. rewrite E in Hp. clear -Hp. induction b as [|c b IH]; cbn in Hp; [done|].
    apply orb_false_iff in Hp as [_ Hp]. by apply IH.
  - intros [= -> E]. exfalso. rewrite <-E in Hq. clear -Hq. induction a as [|c a IH]; cbn in Hq; [done|].
    apply orb_false_iff in Hq as [_ Hq]. by apply IH.
  - intros [= -> E]. f_equal. by apply IH.
Qed.

Lemma digits_no_at (n : N) s : has_at s = false → has_at (pretty_N_go n s) = false.
Proof.
  revert s. induction (N.lt_wf_0 n) as [n _ IH]; intros s Hs.
  destruct (decide (n = 0%N)) as [->|Hn]; [by rewrite pretty_N_go_0|].
  rewrite pretty_N_go_step by lia. apply IH; [apply N.div_lt; lia|]. cbn. rewrite Hs, orb_false_r.
  apply bool_decide_eq_false. unfold pretty_N_char. by repeat case_match.
Qed.

Lemma pretty_no_at (z : Z) : has_at (pretty z) = false.
Proof.
  assert (∀ n : N, has_at (pretty n) = false) as HN.
  { intros n. unfold pretty, pretty_N. case_decide; [done|]. by apply digits_no_at. }
  destruct z as [|n|n]; [done|apply (HN (N.pos n))|]. cbn. apply (HN (N.pos n)).
Qed.

Lemma kind_key_inj kind kind' version version' : kind_key kind version = kind_key kind' version' → kind = kind'.
Proof. apply at_splits; apply pretty_no_at. Qed.

Lemma jm_get_pair {A} k (m : list (string * A)) x : jm_get k m = Some x → (k, x) ∈ m.
Proof. induction m as [|[k' y] m IH]; cbn; [done|]. case_decide; [intros [= ->]; subst; by left|]. intros Hx. right. by apply IH. Qed.

Section Events.
Context (durableKinds : list (string * DurableOperation)) (undecodable : JsString) (K : kinds_ok durableKinds).
Notation checks := (checks durableKinds).
Notation holds := (holds durableKinds).
Notation hinv := (hinv durableKinds).

(** ** What holds the lanes is apart *)

(** A ticket that holds its locks. *)
Definition holds_lanes (x : Stand) : option (nat * list LaneLock) :=
  match x with Working n ls | Bound n ls _ | Reserved n ls _ | Handing n ls _ _ => Some (n, ls) | _ => None end.

Lemma holder_active L x n ls : inv L → stand_ok L x → holds_lanes x = Some (n, ls) → n ∈ active L ∧ lk L n = Some ls ∧ ticket_of x = Some n.
Proof.
  intros HL Hs. destruct x; cbn; try done; intros [= <- <-];
    (edestruct (holding_at L) as [? ?]; [done| |exact Hs|done]); auto.
Qed.

Lemma holders_apart M st f g x y n m ls ls' :
  lanes_ok M st → f ≠ g → st !! f = Some x → st !! g = Some y → holds_lanes x = Some (n, ls) → holds_lanes y = Some (m, ls') →
  compatible ls ls'.
Proof.
  intros H Hne Hf Hg Hx Hy. destruct (lanes_inv _ _ H) as [HL _].
  destruct (holder_active _ _ _ _ HL (l_stand _ _ H _ _ Hf) Hx) as (Hn & Eln & Etn).
  destruct (holder_active _ _ _ _ HL (l_stand _ _ H _ _ Hg) Hy) as (Hm & Elm & Etm).
  apply list_elem_of_lookup in Hn as [i Hi], Hm as [j Hj].
  apply (active_compatible hearth_options (m_lanes M) i j n m); try done; [apply H|].
  intros <-. apply Hne. assert (n = m) as -> by congruence. by eapply (l_once _ _ H).
Qed.

Lemma guards_holds x id ls : guards x id ls → ∃ n, holds_lanes x = Some (n, ls).
Proof. destruct x; cbn; try done; intros [-> ->]; eauto. Qed.

(** What runs, and what works beside it, exclude each other nowhere. *)
Lemma holder_runs_apart busy W σ p f s n ls id ls' :
  hinv busy W σ p → σ !! f = Some s → holds_lanes (stand s) = Some (n, ls) → ¬ guards (stand s) id ls' → runs (w_tables W) id ls' →
  compatible ls ls'.
Proof.
  intros H Hs Hh Hg Hr. pose proof (st_lookup _ _ _ Hs) as Hst. pose proof (h_lanes _ _ _ _ _ H) as HL.
  assert (guarded (stand <$> σ) id ls' → compatible ls ls') as Hguarded.
  { intros (g & y & Hy & Hgy). destruct (guards_holds _ _ _ Hgy) as [m Hm]. eapply (holders_apart _ _ f g); try done.
    intros <-. apply Hg. congruence. }
  pose proof (h_phase _ _ _ _ _ H) as Hp. destruct p as [|todo|]; cbn in Hp.
  - pose proof (proj1 Hp _ _ Hst) as Hx. by destruct (stand s).
  - destruct Hp as (_ & _ & _ & _ & _ & _ & _ & Hapart & Hruns). destruct (Hruns id ls' Hr) as [?|Hin]; [by apply Hguarded|].
    apply list_elem_of_lookup in Hin as [i Hi]. destruct (Hapart i _ Hi) as (_ & Hc & _). cbn in Hc. intros l l' Hl. apply Hc.
    destruct (lanes_inv _ _ HL) as [Hi' _]. destruct (holder_active _ _ _ _ Hi' (l_stand _ _ HL _ _ Hst) Hh) as (Hn & Eln & _).
    apply holding_elem; [done|]. eauto.
  - apply Hguarded, (proj2 Hp), Hr.
Qed.

Lemma running_apart busy W σ p id id' ls ls' :
  hinv busy W σ p → id ≠ id' → runs (w_tables W) id ls → runs (w_tables W) id' ls' → compatible ls ls'.
Proof.
  intros H Hne Hr Hr'.
  assert (∀ id id' ls ls', id ≠ id' → runs (w_tables W) id' ls' → guarded (stand <$> σ) id ls → compatible ls ls') as Hheld.
  { clear id id' ls ls' Hne Hr Hr'. intros id id' ls ls' Hne Hr' (g & y & Hy & Hgy). rewrite lookup_fmap in Hy. apply fmap_Some in Hy as (s & Hs & ->).
    destruct (guards_holds _ _ _ Hgy) as [m Hm]. eapply holder_runs_apart; try done. intros Hg'. apply Hne.
    destruct (stand s); try done; cbn in *; destruct_and?; congruence. }
  pose proof (h_phase _ _ _ _ _ H) as Hp. destruct p as [|todo|]; cbn in Hp.
  - by apply (proj2 (proj2 (proj2 Hp)) id id').
  - destruct Hp as (_ & _ & _ & _ & _ & _ & _ & Hapart & Hruns).
    destruct (Hruns id ls Hr) as [?|Hin]; [by eapply (Hheld id id')|]. destruct (Hruns id' ls' Hr') as [?|Hin']; [apply compatible_sym; by eapply (Hheld id' id)|].
    apply list_elem_of_lookup in Hin as [i Hi], Hin' as [j Hj]. destruct (Hapart i _ Hi) as (_ & _ & Hc). refine (Hc j (id', ls') _ Hj). congruence.
  - eapply (Hheld id id'); [done|exact Hr'|]. by apply (proj2 Hp).
Qed.

(** ** New fibers *)

Notation lives W := (∃ σ p, hinv None W σ p).

Lemma restarted_inv W : lives W → hinv None (restarted W) ∅ Shut.
Proof.
  intros (σ & p & H). pose proof (h_books _ _ _ _ _ H) as HB.
  split; cbn; rewrite ?fmap_empty; try done; try (by intros; by destruct_or?; by destruct_and?).
  - apply (books_gives_up durableKinds W (mine <$> σ)); [by intros ? ?|by intros ? ?|done].
  - split; try done; apply reachable_empty.
  - split; [done|]. split; [done|]. split; [done|]. intros. by eapply running_apart.
  - intros g. split; intros [x Hx]; by rewrite lookup_empty in Hx.
  - intros g [[? Hg]|[? Hg]]; by rewrite lookup_empty in Hg.
Qed.

(** Hearth starts up, before its lanes opened or after. *)
Lemma starts_up_inv W σ p :
  hinv None W σ p → (∀ f s, σ !! f = Some s → match stand s with Boot _ | Handing _ _ _ _ => False | _ => True end) →
  lives (starts_up durableKinds W).
Proof.
  intros H Hboot. destruct (fresh_fiber _ _ _ _ _ H) as [Hnf Hns].
  assert ((stand <$> σ) !! w_next W = None) as Hst by (by rewrite lookup_fmap, Hns).
  assert (∀ f x, (stand <$> σ) !! f = Some x → match x with Boot _ | Handing _ _ _ _ => False | _ => True end) as Hquiet.
  { intros f x Hx. rewrite lookup_fmap in Hx. apply fmap_Some in Hx as (s & Hs & ->). by eapply Hboot. }
  pose proof (h_phase _ _ _ _ _ H) as Hp. destruct p as [|todo|]; cbn in Hp.
  - exists (<[w_next W := MkSt (Boot None) None []]> σ), Shut.
    apply (hinv_spawn durableKinds W σ Shut Shut (MkSt (Boot None) None []) _ (w_inside W)); try done; [by apply checks_startup; left| |by intros x Hx; in_nil Hx].
    destruct Hp as (H1 & H2). split; [|done]. intros f x [[<- <-]|[_ Hx]]%lookup_insert_Some; [done|].
    specialize (H1 _ _ Hx). specialize (Hquiet _ _ Hx). by destruct x.
  - destruct Hp as (f & x & _ & Hx & Hh & _). specialize (Hquiet _ _ Hx). by destruct x.
  - exists (<[w_next W := MkSt Open None []]> σ), Serving.
    apply (hinv_spawn durableKinds W σ Serving Serving (MkSt Open None []) _ (w_inside W)); try done; [by apply checks_startup; right| |by intros x Hx; in_nil Hx].
    destruct Hp as [H1 H2]. split; [intros f x [[<- <-]|[_ Hx]]%lookup_insert_Some; [done|by eapply H1]|].
    intros id ls Hr. apply guarded_new; auto.
Qed.

(** A fiber of a call, a workflow or a sweep. *)
Lemma spawn_inv W σ p x facts op :
  hinv None W σ p → (x = Free ∨ x = Open ∧ m_ready (w_memory W) = true) → checks (MkSt x None facts) op ends_well ends_well →
  Forall (holds W (mine <$> σ) (stand <$> σ)) facts → lives (new_fiber op W).
Proof.
  intros H Hx Hop Hf. destruct (fresh_fiber _ _ _ _ _ H) as [Hnf Hns].
  assert ((stand <$> σ) !! w_next W = None) as Hst by (by rewrite lookup_fmap, Hns).
  exists (<[w_next W := MkSt x None facts]> σ), p.
  apply (hinv_spawn durableKinds W σ p p (MkSt x None facts) op (w_inside W) (w_startup W)); try done; cbn.
  - by destruct Hx as [-> |[-> _]].
  - intros held Hh. by destruct Hx as [-> |[-> _]].
  - apply phase_new; [apply H|done|]. destruct Hx as [-> |[-> Hr]]; [by destruct p|]. by rewrite (h_ready _ _ _ _ _ H Hr).
  - intros y Hy. by apply (proj1 (Forall_forall _ _) Hf).
Qed.

Lemma calls_inside_inv W σ p f q k running definition input caller :
  hinv None W σ p → w_fibers W !! f = Some (Asks q k) → running_of q = Some running →
  lives (set_inside (<[w_next W := f]> (w_inside W)) (new_fiber (runOperation definition input caller (Some running)) W)).
Proof.
  intros H Hf Hq. destruct (fresh_fiber _ _ _ _ _ H) as [Hnf Hns].
  assert ((stand <$> σ) !! w_next W = None) as Hst by (by rewrite lookup_fmap, Hns).
  destruct (h_fibers _ _ _ _ _ H f _ ltac:(done) Hf) as (s & Hs & Hask & _).
  assert (keeps_wholes (run_held running)) as Hk.
  { destruct q as [| |definition' args' context running'|running' input'| | |]; try done; injection Hq as ->.
    - by destruct Hask as (_ & ? & _).
    - destruct Hask as (_ & _ & _ & d & _ & _ & ->). apply withWholes_keeps. }
  exists (<[w_next W := MkSt (Nested (run_held running)) None []]> σ), p.
  set (op := runOperation _ _ _ _).
  change (set_inside (<[w_next W := f]> (w_inside W)) (new_fiber op W)) with
    (set_startup (w_startup W) (set_inside (<[w_next W := f]> (w_inside W)) (new_fiber op W))).
  apply (hinv_spawn durableKinds W σ p p (MkSt (Nested (run_held running)) None []) op (<[w_next W := f]> (w_inside W)) (w_startup W)); try done.
  - by apply checks_run_operation.
  - intros g Hg. by rewrite lookup_insert_ne.
  - intros held [= <-]. exists f, q, k, running. by rewrite lookup_insert_eq.
  - apply phase_new; [apply H|done|by destruct p].
  - intros x Hx. in_nil Hx.
Qed.

Lemma runs_workflow_inv W σ p id name d :
  hinv None W σ p → w_executed W !! id = Some name → jm_get name durableKinds = Some d → lives (new_fiber (workflow undecodable d id) W).
Proof.
  intros H Hn Hd. destruct (b_executed _ _ _ _ _ _ _ (h_books _ _ _ _ _ H) id name Hn) as (Hp & kind & version & x & -> & Hx).
  pose proof (jm_get_snd _ _ _ Hd) as Hin. pose proof (named _ K _ _ (jm_get_pair _ _ _ Hd)) as Ek. apply kind_key_inj in Ek as ->.
  apply (spawn_inv W σ p Free [Past id; OfKind id (d_kind d)]); [done|by left| |].
  - apply checks_workflow; try done; set_solver.
  - repeat constructor; [apply Hp..|]. by exists x.
Qed.

(** ** What a fiber waited for *)

Definition asks_work (op : Op unit) : bool := match op with Asks q _ => bool_decide (is_Some (running_of q)) | _ => false end.

(** A fiber that goes on: nothing under way is inside its work. *)
Lemma goes_on f W σ p op :
  hinv None W σ p → w_fibers W !! f = Some op → asks_work op = false → 
  hinv (Some f) W σ p ∧ ∃ s, σ !! f = Some s ∧ checks s op ends_well ends_well.
Proof.
  intros H Hf Hw. apply (hinv_busy durableKinds f W σ p op H Hf). intros q k running -> Hq. cbn in Hw.
  apply bool_decide_eq_false in Hw. destruct Hw. by exists running.
Qed.

Lemma settles_on f now op W σ p s :
  hinv (Some f) W σ p → σ !! f = Some s → checks s op ends_well ends_well → lives (settle f now op W).
Proof. intros. by eapply settle_inv. Qed.

Lemma set_fiber_same f op W : w_fibers W !! f = Some op → set_fiber f op W = W.
Proof. intros Hf. destruct W. unfold set_fiber. cbn in *. by rewrite insert_id. Qed.

Lemma runs_inv f now op W : lives W → w_fibers W !! f = Some op → lives (settle f now op W).
Proof.
  intros (σ & p & H) Hf. destruct (asks_work op) eqn:Ew.
  - destruct op; try done. cbn [settle]. rewrite set_fiber_same by done. eauto.
  - destruct (goes_on f W σ p op H Hf Ew) as (Hb & s & Hs & Hop). by eapply settles_on.
Qed.

(** An ID is drawn that never was. *)
Lemma draws_inv f now id k W : lives W → w_fibers W !! f = Some (Uuid k) → id ∉ w_ids W → lives (settle f now (k id) (set_ids ({[id]} ∪ w_ids W) W)).
Proof.
  intros (σ & p & H) Hf Hid. destruct (goes_on f W σ p _ H Hf eq_refl) as (Hb & s & Hs & Hop).
  pose proof (h_books _ _ _ _ _ Hb) as HB. pose proof (own_lookup _ _ _ Hs) as Hown. set (own := mine <$> σ) in *.
  assert (∀ id', known (w_ids W) own id' → known ({[id]} ∪ w_ids W) (<[f := Some id]> own) id') as Hknown.
  { intros id' [Hi Hk]. split; [set_solver|]. intros g [[_ E]|[_ Hg]]%lookup_insert_Some; [injection E as ->; done|by apply (Hk g)]. }
  eapply settles_on; [|by rewrite lookup_insert_eq|apply (Hop id)].
  apply (hinv_move durableKinds f W _ σ p p s (owns (Some id) s) Hb Hs); fold own; cbn [mine owns stand]; try rewrite (st_same _ _ _ Hs); try done; auto.
  - split; cbn.
    + intros id' row Hr. destruct (b_rows _ _ _ _ _ _ _ HB _ _ Hr) as (Hi & ?). split; [set_solver|done].
    + intros g id' [[_ E]|[_ Hg]]%lookup_insert_Some.
      * injection E as <-. split; [set_solver|]. split.
        -- apply eq_None_not_Some. intros [row Hr]. by apply (b_rows _ _ _ _ _ _ _ HB) in Hr as [? _].
        -- apply elem_of_nil_inv. intros x Hx%asks_elem. by apply (b_asked _ _ _ _ _ _ _ HB) in Hx.
      * destruct (b_own _ _ _ _ _ _ _ HB _ _ Hg) as (? & ? & ?). split; [set_solver|done].
    + intros g h id' [[<- E]|[_ Hg]]%lookup_insert_Some [[<- E2]|[_ Hh]]%lookup_insert_Some; [done|..|by eapply (b_once _ _ _ _ _ _ _ HB)];
        [injection E as <-|injection E2 as <-]; destruct Hid; by eapply (b_own _ _ _ _ _ _ _ HB).
    + intros entry He%(b_asked _ _ _ _ _ _ _ HB). set_solver.
    + intros id' name Hn. destruct (b_executed _ _ _ _ _ _ _ HB _ _ Hn) as [[Hk Hp] Hx]. split; [|done]. split; [by apply Hknown|done].
    + apply HB.
  - apply H.
  - destruct (h_endings _ _ _ _ _ H). split; [done|]. intros d e He Hdone. destruct (e_done d e He Hdone) as [Hk Hp]. split; [by apply Hknown|done].
  - apply H.
  - apply H.
  - split; cbn; try done; [|intros d e He; by exists e]. intros id' row' _ Hr. exists row'. split; [done|constructor].
Qed.

(** ** Statements *)

Lemma answered_inv f now st again k err W T a :
  lives W → w_fibers W !! f = Some (Sql st again k err) → apply st (w_tables W) = Some (T, a) → lives (settle f now (k a) (commit st T a W)).
Proof.
  intros (σ & p & H) Hf Ha. destruct (goes_on f W σ p _ H Hf eq_refl) as (Hb & s & Hs & Hrun & Hk & _ & _).
  destruct (hinv_hears durableKinds K f W σ p s st T a Hb Hs Hrun Ha) as [p' H'].
  eapply settles_on; [exact H'|by rewrite lookup_insert_eq|]. apply Hk.
  destruct st; try done.
  - cbn in *. intros ->. destruct (taken _ _ _); [by destruct ignore|done].
  - injection Ha as _ <-. intros r Hr Hp. destruct (h_facts _ _ _ _ _ H f s _ Hs Hp) as [_ Hp']. by apply Hp'.
Qed.

Lemma errs_inv f now st again k err W :
  lives W → w_fibers W !! f = Some (Sql st again k err) → lives (settle f now err W).
Proof.
  intros (σ & p & H) Hf. destruct (goes_on f W σ p _ H Hf eq_refl) as (Hb & s & Hs & Hrun & _ & _ & Herr).
  eapply settles_on; [apply (hinv_owns durableKinds K f W σ p s None Hb Hs); by left|by rewrite lookup_insert_eq|exact Herr].
Qed.

Lemma loses_inv f now st again k err W T a :
  lives W → w_fibers W !! f = Some (Sql st again k err) → apply st (w_tables W) = Some (T, a) → quiet_statement st (w_tables W) →
  lives (if again then commit st T a W else settle f now err (commit st T a W)).
Proof.
  intros (σ & p & H) Hf Ha Hq. destruct (goes_on f W σ p _ H Hf eq_refl) as (Hb & s & Hs & Hop). pose proof Hop as (Hrun & _ & Hag & Herr).
  destruct again.
  - specialize (Hag eq_refl). assert (hinv (Some f) (commit st T a W) (<[f := s]> σ) p) as H'.
    { eapply hinv_unheard; try done. destruct Hag as [?|?]; auto. }
    rewrite insert_id in H' by done. exists σ, p. rewrite <-(set_fiber_same f (Sql st true k err) (commit st T a W)) by done.
    by eapply hinv_wait.
  - eapply settles_on; [|by rewrite lookup_insert_eq|exact Herr]. eapply hinv_unheard; try done. by left.
Qed.

(** The engine takes a workflow that is past waiting. *)
Lemma takes_inv f id k W : lives W → w_fibers W !! f = Some (Asks (Execute id) k) → lives (takes id W).
Proof.
  intros (σ & p & H) Hf. destruct (goes_on f W σ p _ H Hf eq_refl) as (_ & s & Hs & Hask & _). cbn in Hask.
  unfold takes. destruct (t_rows (w_tables W) !! id) as [row|] eqn:Er; [|eauto]. exists σ, p.
  destruct H as [HB]. split; try done. destruct HB. split; try done. cbn. intros id' name [[<- <-]|[_ Hn]]%lookup_insert_Some; [|by apply b_executed].
  split; [exact (h_facts f s _ Hs Hask)|]. destruct (b_rows _ _ Er) as (_ & _ & d & _ & Hk & _ & x & xs & Ha & _).
  exists (row_kind row), (row_version row), x. split; [done|]. apply asks_elem. rewrite Ha, Hk. by left.
Qed.

(** ** Replies and turns *)

Lemma replies_inv f now q k r W : 
  lives W → w_fibers W !! f = Some (Asks q k) → (is_Some (running_of q) → has_inside f W = false) → lives (settle f now (k r) W).
Proof.
  intros (σ & p & H) Hf Hin. destruct (hinv_busy durableKinds f W σ p _ H Hf) as (Hb & s & Hs & _ & Hk).
  { intros q' k' running [= <- _] Hq. apply Hin. by exists running. }
  by eapply settles_on.
Qed.

Lemma opens_inv f now i k late W :
  lives W → w_fibers W !! f = Some (AwaitOpen i k late) → m_ready (w_memory W) = true → lives (settle f now k W).
Proof.
  intros (σ & p & H) Hf Hr. destruct (goes_on f W σ p _ H Hf eq_refl) as (Hb & s & Hs & Hk & _).
  assert (p = Serving) as -> by by eapply (h_ready _ _ _ _ _ H). pose proof (st_lookup _ _ _ Hs) as Hst.
  eapply settles_on; [|by rewrite lookup_insert_eq|exact Hk].
  assert (W = set_memory (w_memory W) W) as -> by by destruct W.
  apply (hinv_stand durableKinds f W σ Serving Serving s (w_memory W) _ Hb Hs); try done.
  - pose proof (l_stand _ _ (h_lanes _ _ _ _ _ H) _ _ Hst) as Hok.
    eapply lanes_restand; [apply H|exact Hst|by destruct (stand s)|by destruct (stand s); auto|intros n; by destruct (stand s)].
  - eapply phase_put; [apply H|exact Hst|by eapply (proj1 (h_phase _ _ _ _ _ H))| |by destruct (stand s)].
    pose proof (proj1 (h_phase _ _ _ _ _ H) _ _ Hst). by destruct (stand s).
  - intros n Hn. apply cancellable_put; [done|]. pose proof (proj2 Hn _ _ Hst). by destruct (stand s).
  - by destruct (stand s).
Qed.

Lemma late_inv f now i k late W :
  lives W → w_fibers W !! f = Some (AwaitOpen i k late) → lives (settle f now late W).
Proof.
  intros (σ & p & H) Hf. destruct (goes_on f W σ p _ H Hf eq_refl) as (Hb & s & Hs & _ & Hlate). by eapply settles_on.
Qed.

(** In line, a ticket may be withdrawn. *)
Lemma line_cancellable M st f n ls :
  lanes_ok M st → st !! f = Some (InLine n ls) → cancellable (m_lanes M) st n.
Proof.
  intros H Hf. split.
  - eapply ticket_next; [by apply (lanes_inv _ _ H)|by eapply l_stand|done].
  - intros g x Hx Hr. assert (ticket_of x = Some n) as Ht by (destruct x; try done; cbn in *; congruence).
    assert (g = f) as -> by (by eapply (l_once _ _ H)). assert (x = InLine n ls) as -> by congruence. done.
Qed.

Lemma hinv_cancel f W σ p s n :
  hinv (Some f) W σ p → σ !! f = Some s → cancellable (m_lanes (w_memory W)) (stand <$> σ) n →
  hinv (Some f) (set_memory (cancel_ticket n (w_memory W)) W) σ p.
Proof.
  intros H Hs Hc. pose proof (h_lanes _ _ _ _ _ H) as HL. destruct (lanes_inv _ _ HL) as [Hi Hst].
  assert (hinv (Some f) (set_memory (cancel_ticket n (w_memory W)) W) (<[f := learns [] s]> σ) p) as H'.
  { pose proof (h_endings _ _ _ _ _ H) as []. apply hinv_memory; try done.
    - by apply lanes_cancel.
    - apply (phase_lanes (m_lanes (w_memory W))); [|apply H]. intros Hn. by apply cancel_shrinks.
    - apply H.
    - intros m [Hm ?]. split; [|done]. cbn. by destruct (cancel_counter quiet_world n _ Hi Hst) as [-> _].
    - intros d e He. by exists e. }
  assert (learns [] s = s) as E by (by destruct s). rewrite E, insert_id in H' by done. done.
Qed.

(** Out of the line. *)
Lemma hinv_gives_up f W σ p s n ls :
  hinv (Some f) W σ p → σ !! f = Some s → stand s = InLine n ls → hinv (Some f) W (<[f := stands Free s]> σ) p.
Proof.
  intros H Hs Es. pose proof (st_lookup _ _ _ Hs) as Hst. rewrite Es in Hst.
  assert (hinv (Some f) (set_memory (w_memory W) W) (<[f := stands Free s]> σ) p) as H'.
  { apply (hinv_stand durableKinds f W σ p p s (w_memory W) Free H Hs); try done.
    - eapply lanes_restand; [apply H|exact Hst|done|by left|done].
    - eapply phase_put; [apply H|exact Hst|done|by destruct p|done].
    - intros m Hm. by apply cancellable_put; [|intros ?]. }
  by destruct W.
Qed.

Lemma turns_inv f now turn k err W :
  lives W → w_fibers W !! f = Some (AwaitTurn turn k err) → lives (take_turn f now turn k err W).
Proof.
  intros (σ & p & H) Hf. destruct (goes_on f W σ p _ H Hf eq_refl) as (Hb & s & Hs & Hop). cbn in Hop.
  pose proof (st_lookup _ _ _ Hs) as Hst. pose proof (h_lanes _ _ _ _ _ H) as HL. destruct (lanes_inv _ _ HL) as [Hi Hstab].
  assert (∀ x y n ls id L', stand s = x → ticket_of x = Some n → (x = InLine n ls ∧ y = Working n ls ∨ x = Reserved n ls id ∧ y = Bound n ls id) →
    await_grant n (m_lanes (w_memory W)) = Some Succeeded → run_begins n (m_lanes (w_memory W)) = (None, L') → checks (stands y s) k ends_well ends_well →
    lives (settle f now k (set_memory (set_lanes L' (w_memory W)) W))) as Hgoes.
  { intros x y n ls id L' <- Ht Hxy Hg Hbeg Hk. eapply settles_on; [|by rewrite lookup_insert_eq|exact Hk].
    assert (still_in_line (m_lanes (w_memory W)) n ls) as Hline.
    { pose proof (l_stand _ _ HL _ _ Hst) as Hok. destruct Hxy as [[E _]|[E _]]; rewrite E in Hok; [done|by apply granted_in_line]. }
    apply (hinv_stand durableKinds f W σ p p s _ y Hb Hs); try done.
    - eapply (lanes_turn _ _ f (stand s)); try done; destruct Hxy as [[_ ->]|[_ ->]]; try done; by intros m ?.
    - apply (phase_lanes (m_lanes (w_memory W))).
      { intros Hn. pose proof (begin_shrinks n _ Hi Hn) as Hsh. by rewrite Hbeg in Hsh. }
      eapply phase_put; [apply H|exact Hst|..].
      + by destruct Hxy as [[-> _]|[-> _]].
      + destruct Hxy as [[E ->]|[E ->]]; destruct p as [|todo|]; try done; pose proof (proj1 (h_phase _ _ _ _ _ H) _ _ Hst) as Hx; by rewrite E in Hx.
      + intros id' ls' _. by destruct Hxy as [[-> ->]|[-> ->]].
    - intros m Hm. apply cancellable_put; [|intros Hres; by destruct Hxy as [[_ ->]|[_ ->]]].
      destruct Hm as [Hm ?]. split; [|done]. cbn. pose proof (begin_counter n (m_lanes (w_memory W))) as [E _]. rewrite Hbeg in E. cbn in E. lia.
    - intros held ->. by destruct Hxy as [[_ ?]|[_ ?]]. }
  unfold take_turn. destruct (stand s) as [| | | | |n ls| |n ls id|] eqn:Es; try done.
  - destruct Hop as (-> & Hk & Herr).
    assert (∀ e, lives (settle f now (err e) W)) as Hrefused.
    { intros e. eapply settles_on; [by eapply hinv_gives_up|by rewrite lookup_insert_eq|apply Herr]. }
    destruct (await_grant n _) as [[|e|]|] eqn:Eg; [|apply Hrefused..|eauto].
    destruct (run_begins n _) as [[e|] L'] eqn:Eb; [|by eapply (Hgoes _ _ n ls ""); auto].
    apply begin_refused in Eb as ->.
    assert (set_memory (set_lanes (m_lanes (w_memory W)) (w_memory W)) W = W) as -> by (by destruct W as [? []]). apply Hrefused.
  - destruct Hop as (-> & _ & _ & Hk). destruct (granted_begins _ _ _ Hi (l_stand _ _ HL _ _ Hst)) as [Eg Eb]. rewrite Eg.
    destruct (run_begins n _) as [e L'] eqn:Ebeg. cbn in Eb. subst e. by eapply (Hgoes _ _ n ls id); auto.
Qed.

Lemma deadline_inv f turn k err W e :
  lives W → w_fibers W !! f = Some (AwaitTurn turn k err) → tn_initiator turn = Person →
  let turn' := MkTurn (tn_ticket turn) (tn_label turn) (tn_name turn) (tn_initiator turn) (tn_caller turn) (tn_until turn) e in
  lives (set_fiber f (AwaitTurn turn' k err) (set_memory (cancel_ticket (tn_ticket turn) (w_memory W)) W)).
Proof.
  intros (σ & p & H) Hf Hi. cbv zeta. destruct (goes_on f W σ p _ H Hf eq_refl) as (Hb & s & Hs & Hop).
  pose proof (st_lookup _ _ _ Hs) as Hst. pose proof Hop as Hop'. cbn in Hop'.
  destruct (stand s) as [| | | | |n ls| |n ls id|] eqn:Es; try done; [|destruct Hop' as (_ & _ & ? & _); congruence].
  destruct Hop' as (<- & _ & _). exists σ, p. apply (hinv_wait durableKinds f _ σ p s).
  - eapply hinv_cancel; [done|done|]. eapply line_cancellable; [apply H|exact Hst].
  - done.
  - cbn in *. rewrite Es in *. done.
Qed.

Lemma gives_up_turn_inv f now turn k err W :
  lives W → w_fibers W !! f = Some (AwaitTurn turn k err) → tn_caller turn = true →
  lives (settle f now (err InterruptedOnly) (set_memory (cancel_ticket (tn_ticket turn) (w_memory W)) W)).
Proof.
  intros (σ & p & H) Hf Hi. destruct (goes_on f W σ p _ H Hf eq_refl) as (Hb & s & Hs & Hop).
  pose proof (st_lookup _ _ _ Hs) as Hst. cbn in Hop.
  destruct (stand s) as [| | | | |n ls| |n ls id|] eqn:Es; try done; [|destruct Hop as (_ & ? & _); congruence].
  destruct Hop as (<- & _ & Herr). eapply settles_on; [|by rewrite lookup_insert_eq|exact (Herr InterruptedOnly)].
  eapply hinv_gives_up; [|done|done]. eapply hinv_cancel; [done|done|]. eapply line_cancellable; [apply H|exact Hst].
Qed.

Lemma gives_up_start_inv f now recorded fiber ticket k err W :
  lives W → w_fibers W !! f = Some (AwaitRecorded recorded fiber ticket k err) →
  lives (settle f now (err InterruptedOnly) (set_memory (cancel_ticket ticket (w_memory W)) W)).
Proof.
  intros (σ & p & H) Hf. destruct (goes_on f W σ p _ H Hf eq_refl) as (Hb & s & Hs & Hc & _ & Herr).
  eapply settles_on; [|exact Hs|apply Herr]. eapply hinv_cancel; [done|done|]. exact (h_facts _ _ _ _ _ H f s _ Hs Hc).
Qed.

(** What ended no longer runs: its lanes may be left. *)
Lemma ended_inv f now d id k W :
  lives W → w_fibers W !! f = Some (AwaitEnd d id k) → (∀ ls, ¬ runs (w_tables W) id ls) → lives (settle f now k W).
Proof.
  intros (σ & p & H) Hf Hover. destruct (goes_on f W σ p _ H Hf eq_refl) as (Hb & s & Hs & _ & Hk).
  pose proof (st_lookup _ _ _ Hs) as Hst. eapply settles_on; [|by rewrite lookup_insert_eq|exact Hk].
  assert (∀ x, unbind id (stand s) = x → hinv (Some f) (set_memory (w_memory W) W) (<[f := stands x s]> σ) p) as Hgo.
  { intros x <-. pose proof (l_stand _ _ (h_lanes _ _ _ _ _ H) _ _ Hst) as Hok.
    destruct (stand s) as [| | | | | | | |n ls id'] eqn:Es; cbn [unbind];
      try (rewrite <-Es; assert (stands (stand s) s = s) as -> by (by destruct s); rewrite insert_id by done; by destruct W).
    destruct (decide (id' = id)) as [->|].
    2:{ rewrite <-Es. assert (stands (stand s) s = s) as -> by (by destruct s). rewrite insert_id by done. by destruct W. }
    apply (hinv_stand durableKinds f W σ p p s (w_memory W) (Working n ls) Hb Hs); try done.
    - eapply lanes_restand; [apply H|exact Hst|done|by right|done].
    - eapply phase_put; [apply H|exact Hst|done| |].
      + destruct p as [|todo|]; try done. by destruct (proj1 (h_phase _ _ _ _ _ H) _ _ Hst).
      + intros id' ls' Hr [-> ->]. by destruct (Hover ls').
    - intros m Hm. by apply cancellable_put; [|intros ?]. }
  specialize (Hgo _ eq_refl). by destruct W.
Qed.

Lemma joins_inv f now recorded fiber ticket k err r W :
  lives W → w_fibers W !! f = Some (AwaitRecorded recorded fiber ticket k err) →
  lives (settle f now (match r with Ok id => k id | Throw e => err e end) W).
Proof.
  intros (σ & p & H) Hf. destruct (goes_on f W σ p _ H Hf eq_refl) as (Hb & s & Hs & _ & Hk & Herr).
  eapply settles_on; [exact Hb|exact Hs|]. by destruct r.
Qed.

Lemma awaits_exit_inv f now fiber k W : lives W → w_fibers W !! f = Some (AwaitExit fiber k) → lives (settle f now k W).
Proof.
  intros (σ & p & H) Hf. destruct (goes_on f W σ p _ H Hf eq_refl) as (Hb & s & Hs & Hk). by eapply settles_on.
Qed.

(** ** Every event *)

(** Answers may be lost, though not one that says an operation which holds
    locks was set running. *)
Definition may_lose (W : World) (event : Event) : bool :=
  match event with
  | Loses f =>
      match w_fibers W !! f with
      | Some (Sql (Insert _ row _) _ _ _) => negb (has_state SRunning row) || bool_decide (row_locks row = [])
      | Some (Sql (Start id _) _ _ _) =>
          match t_rows (w_tables W) !! id with Some row => bool_decide (row_locks row = []) | None => true end
      | _ => true
      end
  | _ => true
  end.

Lemma may_lose_quiet W f st again k err :
  may_lose W (Loses f) = true → w_fibers W !! f = Some (Sql st again k err) → quiet_statement st (w_tables W).
Proof.
  cbn. intros Hl Hf. rewrite Hf in Hl. destruct st; try done; cbn.
  - apply orb_true_iff in Hl as [Hl|Hl%bool_decide_eq_true]; [|done]. apply negb_true_iff, bool_decide_eq_false in Hl. by intros.
  - intros row Hr. rewrite Hr in Hl. by apply bool_decide_eq_true in Hl.
Qed.

Theorem hearth_event_inv now event W :
  lives W → may_lose W event = true → lives (hearth_event durableKinds undecodable now event W).
Proof.
  intros HW Hlose. destruct event as [| |sweep|call|f definition input caller|id|f|f id|f|f|f|f|f r|f|f|f|f|f|f|f|f]; cbn [hearth_event].
  - eapply starts_up_inv; [by apply restarted_inv|by intros].
  - destruct (w_startup W) as [f|] eqn:Ef; [|done]. destruct (w_exits W !! f) as [[|e]|] eqn:Ex; [done| |done].
    destruct HW as (σ & p & H). eapply starts_up_inv; [exact H|]. intros g s Hg.
    assert (w_fibers W !! f = None) as Hnone by (apply (h_exits _ _ _ _ _ H); by eexists).
    assert (stand <$> σ !! g = Some (stand s)) as Hst by (by rewrite Hg). rewrite <-lookup_fmap in Hst.
    assert (g ≠ f) as Hgf. { intros ->. assert (is_Some (w_fibers W !! f)) as [? ?] by (apply (h_dom _ _ _ _ _ H); by exists s). congruence. }
    pose proof (h_phase _ _ _ _ _ H) as Hp. destruct p as [|todo|]; cbn in Hp.
    + pose proof (proj1 Hp _ _ Hst) as Hx. destruct (stand s) as [| | |[]| | | | |]; try done. congruence.
    + destruct Hp as (h & x & Hh & _ & _ & Hothers & _). assert (h = f) as -> by congruence. specialize (Hothers g _ Hgf Hst). by destruct (stand s).
    + exact (proj1 Hp _ _ Hst).
  - destruct (m_ready _) eqn:Er; [|done]. destruct HW as (σ & p & H).
    apply (spawn_inv W σ p Open []); [done|by right|by apply checks_sweep|done].
  - destruct (w_startup W); [|done]. destruct (op_of durableKinds call) as [op|] eqn:Eo; [|done]. destruct HW as (σ & p & H).
    apply (spawn_inv W σ p Free []); [done|by left|by eapply checks_call|done].
  - destruct (w_fibers W !! f) as [[]|] eqn:Ef; try done. destruct (running_of q) eqn:Eq; [|done]. destruct HW as (σ & p & H).
    by eapply calls_inside_inv.
  - destruct (w_startup W); [|done]. destruct (w_executed W !! id) as [name|] eqn:En; cbn; [|done].
    destruct (jm_get name durableKinds) as [d|] eqn:Ed; [|done]. destruct HW as (σ & p & H). by eapply runs_workflow_inv.
  - destruct (w_fibers W !! f) as [op|] eqn:Ef; [|done]. by apply runs_inv.
  - destruct (w_fibers W !! f) as [[]|] eqn:Ef; try done. case_decide; [done|]. by eapply draws_inv.
  - destruct (w_fibers W !! f) as [[]|] eqn:Ef; try done. destruct (apply _ _) as [[T a]|] eqn:Ea; [by eapply answered_inv|].
    destruct again; [done|]. by eapply errs_inv.
  - destruct (w_fibers W !! f) as [[]|] eqn:Ef; try done. destruct again; [done|]. by eapply errs_inv.
  - destruct (w_fibers W !! f) as [[| | | |st again k err| | | | | | | | | |]|] eqn:Ef; try done.
    destruct (apply _ _) as [[T a]|] eqn:Ea; [|done]. eapply loses_inv; [done|exact Ef|done|by eapply may_lose_quiet].
  - destruct (w_fibers W !! f) as [[| | | | |q k| | | | | | | | |]|] eqn:Ef; try done. destruct q; try done. by eapply takes_inv.
  - destruct (w_fibers W !! f) as [[| | | | |q k| | | | | | | | |]|] eqn:Ef; try done.
    destruct (reply_to q r) as [answered|]; [|done]. destruct (reply_allowed f q r W) eqn:Er; [|done].
    eapply replies_inv; [done|exact Ef|]. intros [running Hr]. destruct q; try done; by apply negb_true_iff in Er.
  - destruct (w_fibers W !! f) as [[]|] eqn:Ef; try done. destruct (m_ready _) eqn:Er; [|done]. by eapply opens_inv.
  - destruct (w_fibers W !! f) as [[| | | | | |i k late| | | | | | | |]|] eqn:Ef; try done. destruct i; [|done]. by eapply late_inv.
  - destruct (w_fibers W !! f) as [[]|] eqn:Ef; try done. by apply turns_inv.
  - destruct (w_fibers W !! f) as [[| | | | | | | |turn k err| | | | | |]|] eqn:Ef; try done.
    destruct (tn_initiator turn) eqn:Ei, (tn_timedOut turn) eqn:Et; try done. destruct (_ <=? now); [|done]. cbn zeta. rewrite <-Ei. by apply deadline_inv.
  - destruct (w_fibers W !! f) as [[| | | | | | | |turn k err| | | |recorded fiber ticket k err| |]|] eqn:Ef; try done.
    + destruct (tn_caller turn) eqn:Ec; [|done]. by eapply gives_up_turn_inv.
    + by eapply gives_up_start_inv.
  - destruct (w_fibers W !! f) as [[| | | | | | | | | | |d id k| | |]|] eqn:Ef; try done.
    destruct (m_ended _ !! d) as [e|] eqn:Ee; [|done]. destruct (en_done e) eqn:Ed; [|done]. eapply ended_inv; [done|exact Ef|].
    destruct HW as (σ & p & H). destruct (h_fibers _ _ _ _ _ H f _ ltac:(done) Ef) as (s & Hs & Hop). cbn in Hop. destruct Hop as [Hin _].
    destruct (h_facts _ _ _ _ _ H f s _ Hs Hin) as (e' & He' & <-). assert (e' = e) as -> by congruence.
    destruct (e_done _ _ _ _ (h_endings _ _ _ _ _ H) d e Ee Ed) as [_ Hover]. intros ls (row & Hr & Hst & _).
    specialize (Hover _ Hr). unfold is_open, has_state in Hover. by rewrite Hst in Hover.
  - destruct (w_fibers W !! f) as [[| | | | | | | | | | |d id k| | |]|] eqn:Ef; try done.
    destruct (t_rows _ !! id) as [row|] eqn:Er; [destruct (has_state SRunning row) eqn:Es; [done|]|];
      (eapply ended_inv; [done|exact Ef|]); intros ls (row' & Hr & Hst & _); [|congruence].
    apply bool_decide_eq_false in Es. congruence.
  - destruct (w_fibers W !! f) as [[| | | | | | | | | | | |recorded fiber ticket k err|fiber k|]|] eqn:Ef; try done.
    + pose proof (λ r, joins_inv f now recorded fiber ticket k err r W HW Ef) as Hj.
      destruct (m_recorded _ !! recorded) as [[id|]|]; [apply (Hj (Ok id))|..]; (destruct (w_exits W !! fiber) as [[|e]|]; [| |done]);
        [apply (Hj (Throw (Died _)))|apply (Hj (Throw e))|apply (Hj (Throw (Died _)))|apply (Hj (Throw e))].
    + case_bool_decide; [|done]. by eapply awaits_exit_inv.
Qed.
End Events.
