(* ===== verification/HearthFacts.v ===== *)
(** * What Hearth's operations guarantee

    Whatever is asked, whoever gives up, whenever Hearth stops and starts:
    changes of the same thing never overlap, what runs holds its lanes, and
    what is run of a queued operation is all that was asked of it. *)
From S2P Require Import Prelude Operations Locks Grants Lanes LanesInv LanesGrant LanesSteps LanesFacts Plans Bytes Utf8.
From S2P Require Import HearthLanes HearthRecords HearthMonad HearthPrograms HearthWorld HearthTickets HearthLogic HearthChecks.
From S2P Require Import HearthInv HearthStands HearthSteps HearthAnswers HearthEvents.

(** ** Runs *)

(** A run in which no answer is lost that a holder of lanes needs: C6 to C9
    are of such runs, and [hearth_lost_start_overlaps] of one that is not. *)
Fixpoint kept_run (kinds : list (string * DurableOperation)) (undecodable : JsString) (events : list (Z * Event)) (W : World) : bool :=
  match events with
  | [] => true
  | event :: events => may_lose W event.2 && kept_run kinds undecodable events (hearth_event kinds undecodable event.1 event.2 W)
  end.

(** Work at hand that took its lanes itself, and the locks it holds. *)
Definition at_work (W : World) (f : nat) : option (list LaneLock) :=
  match w_fibers W !! f, w_inside W !! f with
  | Some (Asks (RunWork _ _ _ running) _), None => Some (run_held running)
  | _, _ => None
  end.

Definition running_locks (W : World) (id : string) : option (list LaneLock) :=
  match t_rows (w_tables W) !! id with
  | Some row => if has_state SRunning row then Some (row_locks row) else None
  | None => None
  end.

Lemma empty_inv kinds : hinv kinds None empty_world ∅ Shut.
Proof.
  split; cbn; rewrite ?fmap_empty; try done.
  - split; try done; cbn; [intros entry He|intros id x Hx]; by apply elem_of_nil in He || by apply elem_of_nil in Hx.
  - split; try done; apply reachable_empty.
  - split; [done|]. split; [done|]. split; [done|]. intros id id' ls ls' _ (row & Hr & _). cbn in Hr. by rewrite lookup_empty in Hr.
  - intros g. split; intros [x Hx]; by rewrite lookup_empty in Hx.
  - intros g [[? Hg]|[? Hg]]; by rewrite lookup_empty in Hg.
Qed.

Lemma run_inv kinds undecodable events : ∀ W,
  kinds_ok kinds → (∃ σ p, hinv kinds None W σ p) → kept_run kinds undecodable events W = true →
  ∃ σ p, hinv kinds None (hearth_run kinds undecodable events W) σ p.
Proof.
  induction events as [|[now event] events IH]; intros W K HW Hkept; [done|]. cbn in Hkept. apply andb_true_iff in Hkept as [Hl Hkept].
  apply (IH (hearth_event kinds undecodable now event W)); [done| |done]. by apply hearth_event_inv.
Qed.

Section Facts.
Context (kinds : list (string * DurableOperation)) (undecodable : JsString).
Notation reached W := (∃ events, kept_run kinds undecodable events empty_world = true ∧ W = hearth_run kinds undecodable events empty_world).

Lemma reached_inv W : kinds_ok kinds → reached W → ∃ σ p, hinv kinds None W σ p.
Proof. intros K (events & Hk & ->). apply run_inv; [done| |done]. eexists _, _. apply empty_inv. Qed.

Lemma running_runs W id ls : running_locks W id = Some ls → ls ≠ [] → runs (w_tables W) id ls.
Proof.
  unfold running_locks. destruct (t_rows (w_tables W) !! id) as [row|] eqn:Er; [|done].
  destruct (has_state SRunning row) eqn:Es; [|done]. intros [= <-] Hne. exists row. by apply bool_decide_eq_true in Es.
Qed.

Lemma at_work_stands W σ p f held :
  hinv kinds None W σ p → at_work W f = Some held → ∃ s n, σ !! f = Some s ∧ stand s = Working n held.
Proof.
  intros H Hw. unfold at_work in Hw.
  destruct (w_fibers W !! f) as [[| | | | |[| |definition args context running| | | |] k| | | | | | | | |]|] eqn:Ef; try done.
  destruct (w_inside W !! f) eqn:Ei; [done|]. injection Hw as <-.
  destruct (h_fibers _ _ _ _ _ H f _ ltac:(done) Ef) as (s & Hs & (_ & _ & Hst) & _).
  destruct (stand s) as [|held| | | | |n ls| |] eqn:Es; try done.
  - destruct (h_nested _ _ _ _ _ H f s held Hs Es) as (h & q & k' & running' & Hin & _). congruence.
  - exists s, n. by rewrite Hst.
Qed.

Lemma compatible_nil_l ls : compatible [] ls.
Proof. intros x y Hx. in_nil Hx. Qed.

Lemma compatible_nil_r ls : compatible ls [].
Proof. intros x y _ Hy. in_nil Hy. Qed.

(** C6: Changes of the same thing never overlap, whatever is asked, given up
    and restarted, as long as no answer is lost that says a holder of lanes was
    set running ([may_lose], [hearth_lost_start_overlaps]): no two durable operations that run exclude each other,
    no work at hand excludes one that runs, and no two pieces of work at hand
    exclude each other. *)
Theorem hearth_changes_apart W :
  kinds_ok kinds → reached W →
  (∀ id id' ls ls', id ≠ id' → running_locks W id = Some ls → running_locks W id' = Some ls' → compatible ls ls') ∧
  (∀ f id held ls, at_work W f = Some held → running_locks W id = Some ls → compatible held ls) ∧
  (∀ f g held held', f ≠ g → at_work W f = Some held → at_work W g = Some held' → compatible held held').
Proof.
  intros K HW. destruct (reached_inv W K HW) as (σ & p & H). split; [|split].
  - intros id id' ls ls' Hne Hr Hr'. destruct (decide (ls = [])) as [->|Hls]; [apply compatible_nil_l|].
    destruct (decide (ls' = [])) as [->|Hls']; [apply compatible_nil_r|].
    eapply running_apart; [exact H|exact Hne|by apply running_runs..].
  - intros f id held ls Hf Hr. destruct (decide (ls = [])) as [->|Hls]; [apply compatible_nil_r|].
    destruct (at_work_stands _ _ _ _ _ H Hf) as (s & n & Hs & Es).
    eapply (holder_runs_apart kinds None W σ p f s n held id); try done; rewrite ?Es; [done|by intros ?|by apply running_runs].
  - intros f g held held' Hne Hf Hg. destruct (at_work_stands _ _ _ _ _ H Hf) as (s & n & Hs & Es).
    destruct (at_work_stands _ _ _ _ _ H Hg) as (s' & m & Hs' & Es').
    eapply (holders_apart (w_memory W) (stand <$> σ) f g); [apply H|exact Hne|exact (st_lookup _ _ _ Hs)|exact (st_lookup _ _ _ Hs')|by rewrite Es|by rewrite Es'].
Qed.

(** The ticket each fiber works by itself, as the invariant's stands tell. *)
Definition own_ticket (σ : gmap nat St) (f : nat) : option nat :=
  match stand <$> σ !! f with Some (Working n _) => Some n | _ => None end.

Lemma own_ticket_stand σ f n : own_ticket σ f = Some n → ∃ ls, (stand <$> σ) !! f = Some (Working n ls).
Proof.
  unfold own_ticket. rewrite lookup_fmap. destruct (stand <$> σ !! f) as [[| | | | | |n' ls| |]|] eqn:E; try done.
  intros [= ->]. by exists ls.
Qed.

Lemma own_tickets_apart W σ p f g n :
  hinv kinds None W σ p → f ≠ g → own_ticket σ f = Some n → own_ticket σ g ≠ Some n.
Proof.
  intros H Hne (ls & Hf)%own_ticket_stand (ls' & Hg)%own_ticket_stand. apply Hne.
  by eapply (l_once _ _ (h_lanes _ _ _ _ _ H)).
Qed.

(** C7: Work only runs under the locks it needs, checked again when it waited:
    each lock is held by it or by what it runs inside, as such or as all of
    what it is a part of, so whatever may not run beside it is kept out. What
    it runs under it holds in the lanes alone, by a ticket that no other work
    has, or it has no ticket and runs inside other work, under what that
    holds. As for C6, no answer is lost that says a holder of lanes was set
    running ([kept_run]). *)
Theorem hearth_work_covered W :
  kinds_ok kinds → reached W →
  ∃ ticket : nat → option nat,
    (∀ f g n, f ≠ g → ticket f = Some n → ticket g ≠ Some n) ∧
    ∀ f definition args context running k, w_fibers W !! f = Some (Asks (RunWork definition args context running) k) →
      uncovered (needed_by definition args context) (run_held running) = [] ∧
      (∀ other, keeps_wholes other → compatible (run_held running) other → compatible (needed_by definition args context) other) ∧
      match ticket f with
      | Some n => n ∈ active (m_lanes (w_memory W)) ∧ lk (m_lanes (w_memory W)) n = Some (run_held running)
      | None => ∃ g q k' outer, w_inside W !! f = Some g ∧ w_fibers W !! g = Some (Asks q k') ∧ running_of q = Some outer ∧
                  run_held outer = run_held running
      end.
Proof.
  intros K HW. destruct (reached_inv W K HW) as (σ & p & H). exists (own_ticket σ). split; [by intros; eapply own_tickets_apart|].
  intros f definition args context running k Hf. destruct (h_fibers _ _ _ _ _ H f _ ltac:(done) Hf) as (s & Hs & (Hun & _ & Hst) & _).
  split; [done|]. split; [by intros other; apply hash_covered_compatible|]. pose proof (h_lanes _ _ _ _ _ H) as HL.
  unfold own_ticket. rewrite Hs. cbn [fmap option_fmap option_map]. destruct (stand s) as [|held| | | | |n ls| |] eqn:Es; try done.
  - destruct (h_nested _ _ _ _ _ H f s held Hs Es) as (g & q & k' & outer & H1 & _ & H2 & H3 & H4). exists g, q, k', outer. by rewrite Hst.
  - rewrite Hst. pose proof (st_lookup _ _ _ Hs) as Hx. rewrite Es in Hx.
    destruct (holder_active (m_lanes (w_memory W)) (Working n ls) n ls) as (? & ? & _); [apply (lanes_inv _ _ HL)|by eapply l_stand|done|done].
Qed.

(** C8: What runs holds its locks: as long as no answer is lost that says a
    holder of lanes was set running ([kept_run]; without it the claim fails,
    as [hearth_lost_start_overlaps] shows), each durable operation that runs,
    from before a restart or since, has its locks in the lanes until it ends,
    once the lanes are open. *)
Theorem hearth_running_held W id ls :
  kinds_ok kinds → reached W → m_ready (w_memory W) = true → running_locks W id = Some ls → ls ≠ [] →
  ∃ n, n ∈ active (m_lanes (w_memory W)) ∧ lk (m_lanes (w_memory W)) n = Some ls.
Proof.
  intros K HW Hr Hl Hne. destruct (reached_inv W K HW) as (σ & p & H). pose proof (h_phase _ _ _ _ _ H) as Hp.
  rewrite (h_ready _ _ _ _ _ H Hr) in Hp. destruct (proj2 Hp id ls) as (g & x & Hx & Hg); [by apply running_runs|].
  destruct (guards_holds _ _ _ Hg) as [n Hn]. pose proof (h_lanes _ _ _ _ _ H) as HL. exists n.
  destruct (holder_active (m_lanes (w_memory W)) x n ls) as (? & ? & _); [apply (lanes_inv _ _ HL)|by eapply l_stand|done|done].
Qed.

(** C9: Nothing asked of a queued operation is lost: what its workflow runs
    is the first input asked under its ID joined by each later one, in the
    order they were recorded, and every ask answered with its ID that was made
    without an idempotency key is among them; and it runs under the locks its
    definition declares for that. An ask under an idempotency key may be
    answered with the operation recorded under that key before, whose input is
    its own ([op_of]). As for C6, no answer is lost that says a holder of lanes
    was set running ([kept_run]). *)
Theorem hearth_asked_is_run W f running input k :
  kinds_ok kinds → reached W → w_fibers W !! f = Some (Asks (RunWorkflow running input) k) →
  ∃ d x xs, d ∈ kinds.*2 ∧ d_kind d = run_name running ∧ run_held running = declared d input ∧
    asks_of (run_id running) (w_asked W) = (λ x, (d_kind d, x)) <$> (x :: xs) ∧ input = fold_left (d_join d) xs x ∧
    ∀ y, (run_id running, y) ∈ w_answered W → y ∈ x :: xs.
Proof.
  intros K HW Hf. destruct (reached_inv W K HW) as (σ & p & H).
  destruct (h_fibers _ _ _ _ _ H f _ ltac:(done) Hf) as (s & Hs & (Hin & _ & Ho & d & Hd & Ek & El) & _).
  destruct (h_facts _ _ _ _ _ H f s _ Hs Hin) as (_ & d' & Hd' & x & xs & Ha & Hi).
  destruct (h_facts _ _ _ _ _ H f s _ Hs Ho) as [y Hy%asks_elem].
  assert (d' = d) as ->.
  { apply (same_kind_same kinds); try done. rewrite Ha in Hy. apply list_elem_of_fmap in Hy as (z & Hz & _). congruence. }
  exists d, x, xs. do 5 (split; [done|]). intros z Hz.
  destruct (b_answered _ _ _ _ _ _ _ (h_books _ _ _ _ _ H) _ _ Hz) as [kind Hk%asks_elem]. rewrite Ha in Hk.
  by apply list_elem_of_fmap in Hk as (z' & [= _ ->] & Hz').
Qed.
End Facts.

(** ** A run used by the witnesses *)

(** A deployment is queued twice as Hearth starts, and runs beside a change
    of another App, which has a change of its own inside it. *)
Definition deploy : DurableOperation :=
  MkDurable "deploy" 1 (λ _, true) (λ _, [exclusive "app:relay/web"]) (λ _, "Deploying an App") (λ _ asked, asked).

Definition renames : Operation :=
  MkOperation "app.rename" (λ _, "Renaming an App") false (λ _ _, [exclusive "app:relay/db"]) false false (λ _ _, false).

Definition note : Operation :=
  MkOperation "app.note" (λ _, "Noting an App") false (λ _ _, [exclusive "app:relay/db#notes"]) false false (λ _ _, false).

Definition sample_kinds : list (string * DurableOperation) := register [deploy].

Definition a_person : OperationCaller := MkCaller (Some "ada") None None.

Definition sample_events : list (Z * Event) := [
  (0, Boots); (0, Runs 0);
  (1, Calls (CallQueue "deploy@1" (JBool true) None (Some "web") None)); (1, Runs 1); (1, Draws 1 "x"); (1, Answered 1);
  (2, Calls (CallQueue "deploy@1" (JBool false) None (Some "web") None)); (2, Runs 3); (2, Draws 3 "y"); (2, Answered 3); (2, Answered 3);
  (3, Answered 0); (3, Answered 0); (3, Answered 0); (3, Runs 2); (3, Opens 2);
  (4, Runs 4); (4, Turns 4); (4, Replies 4 (RReady true)); (4, Answered 4);
  (5, Runs 6); (5, Answered 6); (5, Takes 6); (5, Replies 6 (RExecuted (Ok "e"))); (5, Answered 6);
  (6, RunsWorkflow "x"); (6, Runs 7); (6, Answered 7);
  (7, Calls (CallRun renames JNull a_person)); (7, Runs 8); (7, Draws 8 "z"); (7, Opens 8); (7, Turns 8);
  (8, CallsInside 8 note JNull a_person); (8, Runs 9); (8, Draws 9 "w")].

Notation sample_world := (hearth_run sample_kinds [] sample_events empty_world).


Lemma sample_kinds_ok : kinds_ok sample_kinds.
Proof.
  split.
  - apply NoDup_singleton.
  - intros name d Hd. apply list_elem_of_singleton in Hd as [= -> ->]. vm_compute. reflexivity.
  - intros d waiting asked Hd _ _. by apply list_elem_of_singleton in Hd as ->.
Qed.

Lemma sample_reached : ∃ events, kept_run sample_kinds [] events empty_world = true ∧ sample_world = hearth_run sample_kinds [] events empty_world.
Proof. exists sample_events. split; [vm_compute|]; reflexivity. Qed.

Definition is_work (op : option (Op unit)) : bool := match op with Some (Asks (RunWork _ _ _ _) _) => true | _ => false end.

Definition workflow_input (op : option (Op unit)) : option (RunningOperation * Json) :=
  match op with Some (Asks (RunWorkflow running input) _) => Some (running, input) | _ => None end.

Lemma is_work_work op : is_work op = true → ∃ definition args context running k, op = Some (Asks (RunWork definition args context running) k).
Proof. destruct op as [[| | | | |[] ?| | | | | | | | |]|]; try done. intros _. by eexists _, _, _, _, _. Qed.

Lemma at_work_asks W f held :
  at_work W f = Some held → ∃ definition args context running k,
    w_fibers W !! f = Some (Asks (RunWork definition args context running) k) ∧ w_inside W !! f = None ∧ run_held running = held.
Proof.
  unfold at_work. destruct (w_fibers W !! f) as [[| | | | |[] ?| | | | | | | | |]|]; try done. destruct (w_inside W !! f); [done|].
  intros [= <-]. by eexists _, _, _, _, _.
Qed.

Lemma workflow_input_asks op running input : workflow_input op = Some (running, input) → ∃ k, op = Some (Asks (RunWorkflow running input) k).
Proof. destruct op as [[| | | | |[] ?| | | | | | | | |]|]; try done. intros [= <- <-]. by eexists. Qed.

Lemma hearth_changes_apart_witness :
  at_work sample_world 8 = Some [exclusive "app:relay/db"] ∧ running_locks sample_world "x" = Some [exclusive "app:relay/web"] ∧
  compatible [exclusive "app:relay/db"] [exclusive "app:relay/web"].
Proof.
  assert (at_work sample_world 8 = Some [exclusive "app:relay/db"]) as H8 by (vm_compute; reflexivity).
  assert (running_locks sample_world "x" = Some [exclusive "app:relay/web"]) as Hx by (vm_compute; reflexivity).
  split; [exact H8|]. split; [exact Hx|].
  exact (proj1 (proj2 (hearth_changes_apart sample_kinds [] sample_world sample_kinds_ok sample_reached)) _ _ _ _ H8 Hx).
Defined.

Lemma hearth_work_covered_witness :
  at_work sample_world 8 = Some [exclusive "app:relay/db"] ∧ w_inside sample_world !! 9%nat = Some 8%nat ∧
  (∃ definition args context running k, w_fibers sample_world !! 9%nat = Some (Asks (RunWork definition args context running) k) ∧
    uncovered (needed_by definition args context) (run_held running) = []) ∧
  ∃ n, n ∈ active (m_lanes (w_memory sample_world)) ∧ lk (m_lanes (w_memory sample_world)) n = Some [exclusive "app:relay/db"].
Proof.
  assert (at_work sample_world 8 = Some [exclusive "app:relay/db"]) as Hw by (vm_compute; reflexivity).
  split; [exact Hw|]. split; [vm_compute; reflexivity|].
  destruct (hearth_work_covered sample_kinds [] sample_world sample_kinds_ok sample_reached) as (ticket & _ & H). split.
  - destruct (is_work_work (w_fibers sample_world !! 9%nat)) as (definition & args & context & running & k & E); [vm_compute; reflexivity|].
    exists definition, args, context, running, k. split; [exact E|]. exact (proj1 (H _ _ _ _ _ _ E)).
  - destruct (at_work_asks _ _ _ Hw) as (definition & args & context & running & k & E & E0 & Eh).
    pose proof (proj2 (proj2 (H _ _ _ _ _ _ E))) as H8. destruct (ticket 8%nat) as [n|].
    + exists n. rewrite Eh in H8. exact H8.
    + destruct H8 as (g & _ & _ & _ & Hg & _). rewrite E0 in Hg. discriminate Hg.
Defined.

Lemma hearth_running_held_witness :
  ∃ n, n ∈ active (m_lanes (w_memory sample_world)) ∧ lk (m_lanes (w_memory sample_world)) n = Some [exclusive "app:relay/web"].
Proof.
  apply (hearth_running_held sample_kinds [] sample_world "x" [exclusive "app:relay/web"] sample_kinds_ok sample_reached);
    [vm_compute; reflexivity|vm_compute; reflexivity|discriminate].
Defined.

Lemma hearth_asked_is_run_witness :
  workflow_input (w_fibers sample_world !! 7%nat) = Some (MkRunning "x" "deploy" System [exclusive "app:relay/web"], JBool false) ∧
  ∃ x xs, JBool false = fold_left (λ _ asked, asked) xs x ∧ JBool true ∈ x :: xs.
Proof.
  assert (workflow_input (w_fibers sample_world !! 7%nat) = Some (MkRunning "x" "deploy" System [exclusive "app:relay/web"], JBool false)) as Hw
    by (vm_compute; reflexivity).
  split; [exact Hw|]. destruct (workflow_input_asks _ _ _ Hw) as [k Hk].
  destruct (hearth_asked_is_run sample_kinds [] sample_world 7 _ _ k sample_kinds_ok sample_reached Hk) as (d & x & xs & Hd & _ & _ & _ & Hi & Ha).
  exists x, xs. apply list_elem_of_singleton in Hd as ->. split; [exact Hi|]. apply Ha. vm_compute. left.
Defined.

(** ** What a lost answer does *)

(** The answer to the statement that starts a queued operation is lost after
    MySQL ran it; tried again, it starts nothing, and the lanes are left. A
    person's change then works on what the operation, which runs, holds. *)
Definition lost_events : list (Z * Event) := [
  (0, Boots); (0, Runs 0); (0, Answered 0); (0, Answered 0);
  (1, Calls (CallQueue "deploy@1" (JBool true) None None None)); (1, Runs 1); (1, Draws 1 "x"); (1, Answered 1);
  (2, Runs 2); (2, Opens 2); (2, Answered 2); (3, Runs 3); (3, Turns 3); (3, Replies 3 (RReady true)); (3, Loses 3); (4, Answered 3);
  (5, Calls (CallRun (MkOperation "app.stop" (λ _, "Stopping an App") false (λ _ _, [exclusive "app:relay/web"]) false false (λ _ _, false))
        JNull a_person)); (5, Runs 5); (5, Draws 5 "z"); (5, Opens 5); (5, Turns 5)].

Notation lost_world := (hearth_run sample_kinds [] lost_events empty_world).

Theorem hearth_lost_start_overlaps :
  at_work lost_world 5 = Some [exclusive "app:relay/web"] ∧ running_locks lost_world "x" = Some [exclusive "app:relay/web"] ∧
  ¬ compatible [exclusive "app:relay/web"] [exclusive "app:relay/web"].
Proof.
  split; [vm_compute; reflexivity|]. split; [vm_compute; reflexivity|]. intros Hc.
  by specialize (Hc (exclusive "app:relay/web") (exclusive "app:relay/web") ltac:(left) ltac:(left)).
Qed.
